(* ===== verification/_CoqProject ===== *)
-Q . S2P
Prelude.v
Floats.v
Instr.v
Value.v
Machine.v
Peephole.v
MachineInv.v
PeepholeMap.v
Simulation.v
PeepholeExec.v
PeepholeRules.v
PeepholeSim.v
PeepholeCse.v
PeepholeDup.v
PeepholeTyped.v
PeepholePipeline.v
PeepholeMapping.v
Worklist.v
Cfg.v
SlotBacking.v
SlotBackingSound.v
Slotize.v
SlotizeSim.v
Examples.v
Promotion.v
SsaModel.v
CoreIr.v
SsaScan.v
SsaDom.v
SsaReach.v
SsaIdoms.v
SsaVerify.v
SsaVerifySpec.v
SsaBuild.v
BuildSteps.v
BuildInv.v
BuildArms.v
BuildJoin.v
BuildExpr.v
BuildJumps.v
BuildWhile.v
BuildFinish.v
Effects.v
EffectWalk.v
EffectProp.v
ConstProp.v
ConstFoldSem.v
SsaOpt.v
SsaForm.v
SsaDce.v
SsaFold.v
SsaBranches.v
SsaUnreachable.v
SsaCse.v
SsaOptimize.v
SsaSem.v
SsaRewriteSem.v
SsaPassesSem.v
SsaFoldSem.v
SsaPreserve.v
SsaExamples.v
SsaPlan.v
SsaEligible.v
PlanSem.v
PlanUses.v
PlanCopies.v
PlanBuilt.v
PlanBlocks.v
PlanTreeSem.v
PlanFacts.v
PlanSim.v
PlanEdge.v
PlanRun.v
CoreSem.v
BuildTame.v
BuildSim.v
BuildSimExpr.v
BuildSimStmt.v
BuildSimWhile.v
BuildExamples.v
