(* ===== verification/Prelude.v ===== *)
(** * SubsetJuliaVM: a verification library of its middle and bytecode layers

    SubsetJuliaVM compiles Julia source in stages: parser, lowering to a Core IR,
    an optional SSA form with its own optimizer, emission of bytecode, a peephole
    optimizer over the bytecode, a verifier of the emitted slots, and an
    interpreter.  This library models the stages from the construction of the SSA
    form to the interpreter's scalar core, without the emission, and proves what
    each promises to the next.  File
    names of the source are relative to src/.

    ** Parts

    Bytecode.
    - [Floats], [Instr], [Value]: Float64 as IEEE data, the instruction set
      ([Instr] of subset_julia_vm_bytecode/src/instr.rs, effects/instr.rs,
      operands.rs), runtime values and errors with the coercions of the operand
      stack (value/value_enum.rs, error.rs, subset_julia_vm_vm/src/vm/stack_ops.rs).
      A w-bit integer is a [Z] with its wrap-around written out ([wrap_s],
      [wrap_u]); slots, code addresses and block numbers are [nat].
    - [Machine]: the run loop and the handlers of
      subset_julia_vm_vm/src/vm/exec (locals.rs, jump.rs, arithmetic.rs,
      comparison.rs, stack.rs, return_ops.rs, call.rs, binary_both.rs) for one
      activation.  A handler maps a state [Vm] to a [DispatchAction]; [step] is
      one turn of the loop, [activation] runs until control leaves for good.
      Calls and the handlers that are not modelled are answered by an
      [Environment], an argument of [activation].
    - [Peephole]: subset_julia_vm_bytecode/src/peephole.rs, every fusion rule in
      source order, the address map, the Int64 common-subexpression pass, the
      duplicate-load pass and the destructive-load pass; [optimize_impl] is the
      whole optimizer and returns the code and the address map.
    - [Slotize]: subset_julia_vm_bytecode/src/slot.rs, which gives locals their frame
      slots and types; it runs between two runs of the peephole optimizer.
    - [Cfg]: subset_julia_vm_compile/src/compile/cfg.rs.
    - [SlotBacking]: subset_julia_vm_compile/src/compile/slot_backing_verifier.rs.

    Types.
    - [Promotion]: subset_julia_vm_types/src/promotion.rs and
      inference_core/primitive_numeric.rs; the registry of rules is an argument.

    SSA form (subset_julia_vm_compile/src/compile/ssa_ir).
    - [SsaModel]: model.rs.  [SsaDom]: dom.rs.  [SsaVerify]: verify.rs.
      [SsaOpt]: opt.rs, all passes and the driver.  A pass is a function from
      [SsaFunction] to [option (bool * SsaFunction)]: [None] is a panic or the end
      of the fuel, the boolean is the [changed] flag that the source returns.
    - [Effects]: the effect summaries that decide what may be deleted, folded or
      merged (subset_julia_vm_types/src/runtime_types/effects.rs and the operator
      and name tables of effect_inference.rs).  [EffectWalk]: the walks over Core IR
      (the rest of effect_inference.rs, function_effects.rs).  [EffectProp]: the call
      graph and the worklist that gives every function its summary
      (subset_julia_vm_compile/src/compile/effects/propagation.rs).
    - [ConstProp]: the constant evaluator that folding uses
      (subset_julia_vm_compile/src/compile/const_prop).

    - [CoreIr]: the trees of subset_julia_vm_types/src/ir/core.rs that SSA
      statements carry and that the planner rebuilds; [core_payload] is the
      [Payload] of the SSA form over them.
    - [SsaScan], [SsaBuild]: scan.rs and build.rs, the construction of the SSA form
      from Core IR.  The builder is the state of [Building]; its errors are those of
      [SsaBuildError], and an index out of bounds or a missing loop is
      [BuildPanics].
    - [SsaPlan]: plan.rs and subset_julia_vm_bytecode/src/shared_plan.rs.  The
      consumed flags and the cursor are the state of [Planning]; an index out of
      bounds is [Panics].  [SsaEligible]: lower.rs before the emission, with the scan between the
      optimizer and the planner; [try_lower] composes construction, optimizer, scan and planner.
    - [PlanSem]: what a plan computes, over named locals; its right operands wait
      for the left ones, where the SSA form has computed both.
    - [CoreSem]: what structured Core IR computes, the reference of the construction.
      Structured code leaves out the constructs that the construction keeps opaque,
      names with type arguments, [&&] and [||], and literals with a negative zero.

    [Worklist] is the search loop that [Cfg], [SlotBacking] and [SsaOpt]
    share; [SsaReach] is the theory of paths and dominators that the SSA form is
    stated with.

    ** What is shown

    - The peephole optimizer preserves every outcome of an activation, in both
      directions and from every entry point that the address map keeps
      ([PeepholePipeline]; per pass in [PeepholeSim], [PeepholeCse],
      [PeepholeDup]; the rules one by one in [PeepholeRules], on the simulation lemmas of [Simulation]).  The code stays well typed for the same slots, jump targets
      stay inside, the address map is total, monotone and in range, and the code
      never grows ([PeepholeTyped], [PeepholeMapping]).  The equivalence needs
      [hazard_free] and, for duplicate loads, [dup_safe]: without them it is
      false, as the programs of [Examples] show.
    - An activation keeps slots at their types and integers in range
      ([MachineInv]).
    - The slotizer never panics; names and slots correspond, and a slot has a type
      exactly when nothing in the function contradicts it.  Slotized code is well typed
      for the optimizer ([Slotize]), and on the scalar core it has the outcomes of the
      code with names, which reads its locals in a map ([SlotizeSim]): for names whose
      accesses are of the type of their slot and that the main frame does not bind.
    - The basic blocks partition the code, edges are exactly the transfers of
      control, every turn of the interpreter follows the graph ([Cfg]); the
      blocks of a natural loop are what reaches the latch without passing the
      header, but for loops of one block, where the code lists too many
      ([Cfg]).
    - The slot-backing analysis ends and reports exactly the reads that some path
      reaches without a store ([SlotBacking]); code without reports never finds a
      slot empty when it runs ([SlotBackingSound]).
    - The iterative dominator algorithm ends and is right ([SsaReach],
      [SsaIdoms]); the SSA verifier ends on every function and accepts exactly the
      functions in SSA form, [well_formed], stated with paths and dominators
      ([SsaVerifySpec]).
    - Each SSA pass ends, does not panic, keeps SSA form and only makes functions
      smaller: folding ([SsaFold], [SsaBranches]), unreachable blocks
      ([SsaUnreachable]), dead definitions ([SsaDce]), merging of calls
      ([SsaCse]).  Those that replace or delete definitions are instances of the
      rewriting lemma of [SsaForm].  What they delete, keep and merge is stated
      exactly.  The driver ends, and
      where it stops before its bound nothing is left to do ([SsaOptimize]).
    - The SSA optimizer keeps what a function computes ([SsaPreserve]).  The
      reference semantics is [SsaSem]: blocks, phis that read in parallel on an
      edge, and operations that act on a world through the parameter [perform].
      [SsaRewriteSem] holds the principle by which facts about visible definitions
      are carried through a run and the simulation for rewriting, with dead definitions and merged calls ([SsaPassesSem]) and folding
      ([SsaFoldSem]) as instances, [SsaPreserve] the simulation for passes that
      change the graph.  Both sides enter the same number of blocks, so that
      equality holds for every fuel and a run that does not end is kept, too.
      What the passes take for granted is the record [promises] of
      [SsaPassesSem]; [exact_phis] excludes the phis of zeros on which the
      theorem fails.
    - Construction ends on every function body, with a function in SSA form or an
      error that is the program's, and never panics ([BuildFinish]).  [BuildSteps] is
      how a new edge or block changes paths and dominators, and what a
      builder's single steps do to the blocks, [BuildInv] the invariant between
      steps and the weakest preconditions in which the rest is stated; [BuildArms] is
      the merging of environments, [BuildArms] to [BuildExpr] the conditional
      expressions, [BuildJumps] the jumps and [if], [BuildWhile] the
      loops, whose header phis are filled when the loop is closed.
    - The function that is built for structured code does what the source does, and
      runs on where the source does ([BuildSimWhile]).  [BuildTame] is what holds of
      every run of the conversion, [BuildSim] how runs of the finished function are
      taken apart at the positions of the builder; [BuildSimExpr], [BuildSimStmt] and
      [BuildSimWhile] are the expressions, the statements and the loops.  With the
      theorems of the optimizer and the planner, a call has the outcome of the source
      in the plan of its lowering ([lowered_plan_ends]).
    - A block inherits the facts of a branch exactly when one side of the branch is
      its only way in ([SsaEligible]).
    - The planner plans every function that the lowering accepts and that is
      [plannable], and the plan computes what the function computes ([PlanRun]).
      The proof goes through a relation between trees and the statements that they
      consume ([PlanBuilt], [PlanBlocks]): every use of a definition
      is a read of its slot or the place where it is consumed ([PlanUses],
      [PlanFacts]), the copies kept and written early are those of the phis
      ([PlanCopies]), slots and temporaries do not collide ([PlanBuilt]).  A tree
      does what its statements do ([PlanTreeSem]); slots and definitions agree
      through a block ([PlanSim]) and over an edge, whose copies are a
      parallel assignment ([PlanEdge]).
    - Promotion of types ends on all names and is symmetric when no two registered
      rules contradict each other; on the scalar types it is a least upper bound; rules
      survive the cache ([Promotion]).
    - Merged effect summaries never allow more than the parts ([Effects]).  The
      walks respect every congruence of the rules, so that they are monotone and depend
      only on the callees that are extracted ([EffectWalk]).  The table that propagation
      returns is justified by the bodies even if the iteration is cut off; it is the
      greatest fixpoint, whatever the order, when no expression contains a [return]
      and there are at most five callees per function ([EffectProp]).  What the walks
      take a body for is another matter: stores are summarized as total
      ([lost_call_bug]).  A
      folded constant is what the interpreter's instruction computes
      ([ConstFoldSem], [ConstProp]).
    - [Examples], [SsaExamples] and [BuildExamples] run the functions on concrete
      programs and apply the theorems to them; with [Examples] they also hold
      the programs on which the source does not do what it means to.

    ** Fuel

    Loops of the source are Fixpoints with fuel, and a theorem shows that the
    fuel given is enough: [explore] needs what can still be pushed
    ([explore_total]); [loop_fuel] is one more than the number of blocks;
    [propagate_fuel] one more than the facts that can flip; the searches of
    [SsaDom] take a turn per edge and block ([edge_count], [rpo_fuel]);
    [idom_fuel] bounds the sum of the numbers that each round lowers;
    [fold_constants] takes [ssa_size] turns, since each removes a statement or a
    branch; [cse_fuel] enters and leaves each block of the dominator tree once.
    [drain] counts down what the source counts up to [max_iterations].
    [build_value] takes a step for each statement before the cursor, which every
    step lowers.
    [activation] has fuel because programs need not end; its theorems say that
    both codes have the same outcomes, each with some fuel.  [evaluate] of [SsaSem]
    counts the blocks entered, and so
    does [evaluate_plan].  The fuel of [exec_function] bounds the turns of loops; a
    turn enters a block, so that fuel for the blocks is fuel enough.

    ** Parameters

    - [Environment]: callees, builtins and instructions without a handler in the
      model; the theorems ask that it keeps the slot typing and, where code is
      compared, that it does not depend on code addresses.
    - [environment_blind] ([SlotizeSim]): callees and other instructions do the same
      whichever way the frame keeps its locals.
    - [ExternalConversions]: conversions of BigInt and of heap structs to Float64.
    - [Payload]: Core IR trees, builtin numbers, type annotations and source spans
      that SSA statements carry; [Dispatch]: core types; the static dispatch
      resolver and the effect summaries by name are arguments of the passes.
    - [HashOrder]: the order in which a hash set is walked, any permutation of its
      elements; [BuiltinOps]: which operation a builtin of Core IR is.
    - [CoreTypes]: builtin numbers, types, spans and nominal definitions inside
      Core IR.
    - [UnicodeTables]: the character classes above 127 that the scan of type names
      asks for; [CompilerFacts]: what the compiler knows about names when a function
      is lowered.
    - [Semantics]: values, worlds, exceptions and what one SSA operation does; for
      plans [short_circuits] asks that [&&] and [||] give the left operand where
      it decides.

    ** Not modelled

    - Parser and lowering (subset_julia_vm_parser, subset_julia_vm_lowering), type
      inference, method tables and the emission of bytecode
      (subset_julia_vm_compile): they work on syntax and on the compiler's whole
      state.  The emission of the plan (emit_plan of ssa_ir/lower.rs) belongs to them.
    - The builder's counters of values and blocks are not reduced to 32 bits, and
      its debug assertions are left out.
    - The predecoded executable blocks and the register machine
      (subset_julia_vm_vm/src/vm/executable.rs, register_vm.rs), builtins, arrays,
      broadcasting, strings, I/O, tasks and the heap.
    - Cancellation, heap safepoints and profiling in the run loop; NaN payloads
      (there is one NaN).
    - AOT, REPL, macros, FFI and web bindings, vendored crates. *)

From Stdlib Require Export ZArith Lia.
From stdpp Require Export base list gmap strings pretty.

Declare Scope vm_scope.
Delimit Scope vm_scope with vm.

(** ** Results

    [Result<T, E>] of the source. *)

Inductive result (E A : Type) : Type :=
  | Ok (a : A)
  | Err (e : E).
Arguments Ok {E A} a.
Arguments Err {E A} e.

(** The [?] operator on a [Result]. *)
Definition try_ {E A B} (r : result E A) (k : A -> result E B) : result E B :=
  match r with
  | Ok a => k a
  | Err e => Err e
  end.

Notation "'let?' x := r 'in' k" := (try_ r (fun x => k))
  (at level 10, x pattern, r at level 100, k at level 200) : vm_scope.

Open Scope vm_scope.

Lemma try_Ok {E A B} (r : result E A) (k : A -> result E B) b :
  try_ r k = Ok b <-> exists a, r = Ok a /\ k a = Ok b.
Proof. destruct r; simpl; naive_solver. Qed.

(** ** Machine integers

    A signed [w]-bit integer is the [Z] in [-2^(w-1), 2^(w-1)), an unsigned one
    the [Z] in [0, 2^w); [wrap_s] and [wrap_u] are the two's-complement
    reductions of the wrapping operators and of the [as] casts. *)

Definition wrap_u (w z : Z) : Z := z mod 2 ^ w.
Definition wrap_s (w z : Z) : Z := (z + 2 ^ (w - 1)) mod 2 ^ w - 2 ^ (w - 1).

Definition in_u (w z : Z) : Prop := (0 <= z < 2 ^ w)%Z.
Definition in_s (w z : Z) : Prop := (- 2 ^ (w - 1) <= z < 2 ^ (w - 1))%Z.

#[export] Instance in_u_dec w z : Decision (in_u w z).
Proof. unfold in_u; apply _. Defined.
#[export] Instance in_s_dec w z : Decision (in_s w z).
Proof. unfold in_s; apply _. Defined.

Lemma pow2_half w : (0 < w)%Z -> (2 ^ w = 2 * 2 ^ (w - 1))%Z.
Proof. intros Hw. rewrite <- Z.pow_succ_r by lia. f_equal; lia. Qed.

Lemma wrap_u_in w z : (0 <= w)%Z -> in_u w (wrap_u w z).
Proof. intros Hw. apply Z.mod_pos_bound, Z.pow_pos_nonneg; lia. Qed.

Lemma wrap_u_id w z : in_u w z -> wrap_u w z = z.
Proof. intros H. apply Z.mod_small. exact H. Qed.

Lemma wrap_s_in w z : (0 < w)%Z -> in_s w (wrap_s w z).
Proof.
  intros Hw. unfold in_s, wrap_s.
  pose proof (Z.mod_pos_bound (z + 2 ^ (w - 1)) (2 ^ w)) as H.
  pose proof (pow2_half w Hw). pose proof (Z.pow_pos_nonneg 2 (w - 1)). lia.
Qed.

Lemma wrap_s_id w z : (0 < w)%Z -> in_s w z -> wrap_s w z = z.
Proof.
  intros Hw H. unfold in_s, wrap_s in *. pose proof (pow2_half w Hw).
  rewrite Z.mod_small; lia.
Qed.

(** Reduction is a ring congruence: an operand may be reduced first. *)
Lemma wrap_s_eq w a b :
  (0 < w)%Z -> (a mod 2 ^ w = b mod 2 ^ w)%Z -> wrap_s w a = wrap_s w b.
Proof.
  intros Hw H. unfold wrap_s.
  rewrite <- (Z.add_mod_idemp_l a), H, Z.add_mod_idemp_l by
    (apply Z.pow_nonzero; lia). reflexivity.
Qed.

Lemma wrap_s_mod w z : (0 < w)%Z -> (wrap_s w z mod 2 ^ w = z mod 2 ^ w)%Z.
Proof.
  intros Hw. unfold wrap_s. rewrite Zminus_mod_idemp_l. f_equal; lia.
Qed.

Lemma wrap_s_add_r w a b : (0 < w)%Z -> wrap_s w (a + wrap_s w b) = wrap_s w (a + b).
Proof.
  intros Hw. apply wrap_s_eq; [lia|].
  rewrite <- Z.add_mod_idemp_r, wrap_s_mod, Z.add_mod_idemp_r;
    auto using Z.pow_nonzero with lia.
  all: apply Z.pow_nonzero; lia.
Qed.

(** [x - d] is [x + (-d)] also when [-d] overflows ([i64::MIN]). *)
Lemma wrap_s_sub_neg w a b : (0 < w)%Z -> wrap_s w (a + wrap_s w (- b)) = wrap_s w (a - b).
Proof. intros Hw. rewrite wrap_s_add_r by lia. f_equal; lia. Qed.

Create HintDb machine_int.
#[export] Hint Resolve wrap_s_in wrap_u_in : machine_int.
#[export] Hint Rewrite wrap_s_add_r wrap_s_sub_neg using lia : machine_int.

(** ** Lists *)

(** Rust's [Vec::get(i)] is [l !! i].  [slice.windows(n).any(f)]: some window of
    [n] consecutive elements satisfies the test. *)
Fixpoint any_window {A} (n : nat) (f : list A -> bool) (l : list A) : bool :=
  match l with
  | [] => false
  | _ :: tl =>
      (Nat.leb n (length l) && f (take n l)) || any_window n f tl
  end.

(** [slice.truncate(n)] on an operand stack whose head is the top. *)
Definition truncate {A} (n : nat) (st : list A) : list A :=
  drop (length st - n) st.

Lemma truncate_app {A} (pre base : list A) n :
  n <= length base -> truncate n (pre ++ base) = truncate n base.
Proof.
  intros H. unfold truncate. rewrite length_app, drop_app_ge by lia.
  f_equal; lia.
Qed.

(** [Option::or_else] chains: the first rule that answers. *)
Fixpoint first_some {A} (l : list (option A)) : option A :=
  match l with
  | [] => None
  | Some a :: _ => Some a
  | None :: tl => first_some tl
  end.

Lemma first_some_In {A} (l : list (option A)) a :
  first_some l = Some a -> In (Some a) l.
Proof.
  induction l as [|[b|] l IH]; simpl; [done| |auto]. intros [= ->]; auto.
Qed.

(** [v[i..i + n].fill(x)], clipped to the length:
    [for j in 0..n { if i + j < len { v[i + j] = x } }]. *)
Fixpoint mark_range (v : list nat) (i n x : nat) : list nat :=
  match n with
  | 0 => v
  | S n => mark_range (<[i := x]> v) (S i) n x
  end.

Lemma mark_range_length v i n x : length (mark_range v i n x) = length v.
Proof.
  revert v i. induction n as [|n IH]; intros v i; simpl; [done|].
  by rewrite IH, length_insert.
Qed.

Lemma mark_range_lookup_lt v i n x j : j < i -> mark_range v i n x !! j = v !! j.
Proof.
  revert v i. induction n as [|n IH]; intros v i Hj; simpl; [done|].
  rewrite IH by lia. by rewrite list_lookup_insert_ne by lia.
Qed.

Lemma mark_range_lookup v i n x j :
  i <= j < i + n -> j < length v -> mark_range v i n x !! j = Some x.
Proof.
  revert v i. induction n as [|n IH]; intros v i Hj Hl; simpl; [lia|].
  destruct (decide (j = i)) as [->|Hne].
  - rewrite mark_range_lookup_lt by lia. by apply list_lookup_insert_eq.
  - apply IH; [lia|]. by rewrite length_insert.
Qed.

(** ** Tactics *)

(** Splits the matches of a hypothesis or of the goal until none is left. *)
Ltac split_matches :=
  repeat (case_match; simplify_eq/=; try done).

(** Inverts [H : m = r] for a function [m] made of nested matches: destructs the
    innermost scrutinee again and again and drops the branches that [r] rules
    out. *)
Ltac invert_match H :=
  repeat match type of H with
         | context [match ?x with _ => _ end] =>
             lazymatch x with
             | context [match _ with _ => _ end] => fail
             | _ => destruct x eqn:?; try discriminate H
             end
         end.

(** Every list lookup that succeeded bounds the length of the list. *)
Ltac lookup_bounds :=
  repeat match goal with
         | H : _ !! _ = Some _ |- _ => apply lookup_lt_Some in H
         end.
