(* ===== verification/Floats.v ===== *)
(** * Binary floating point

    The [f64], [f32] and [f16] of the source as IEEE 754 data of the Standard
    Library's [SpecFloat]: a value of any of the three formats is a
    [spec_float] and the [f64] operators are the correctly rounded operations
    at precision 53 and exponent bound 1024.  NaN payloads are not modelled
    (one NaN). *)

From Stdlib Require Export SpecFloat.
From S2P Require Export Prelude.

Definition f64 : Type := spec_float.

Definition f64_prec : Z := 53.
Definition f64_emax : Z := 1024.

Definition f64_add (a b : f64) : f64 := SFadd f64_prec f64_emax a b.
Definition f64_sub (a b : f64) : f64 := SFsub f64_prec f64_emax a b.
Definition f64_mul (a b : f64) : f64 := SFmul f64_prec f64_emax a b.
Definition f64_div (a b : f64) : f64 := SFdiv f64_prec f64_emax a b.
Definition f64_neg (a : f64) : f64 := SFopp a.
Definition f64_abs (a : f64) : f64 := SFabs a.

(** [n as f64]: round to nearest, ties to even. *)
Definition f64_of_Z (z : Z) : f64 := binary_normalize f64_prec f64_emax z 0 false.

(** [x as f64] from a narrower format: exact, renormalised. *)
Definition f64_of_narrow (x : spec_float) : f64 :=
  match x with
  | S754_finite s m e => binary_normalize f64_prec f64_emax (cond_Zopp s (Zpos m)) e s
  | _ => x
  end.

(** The comparison operators and [partial_cmp]. *)
Definition f64_partial_cmp (a b : f64) : option comparison := SFcompare a b.
Definition f64_eqb (a b : f64) : bool := SFeqb a b.
Definition f64_ltb (a b : f64) : bool := SFltb a b.
Definition f64_leb (a b : f64) : bool := SFleb a b.

Definition f64_zero : f64 := S754_zero false.
Definition f64_one : f64 := Eval vm_compute in f64_of_Z 1.

#[export] Instance spec_float_eq_dec : EqDecision spec_float.
Proof. solve_decision. Defined.

Example f64_add_example :
  f64_add (f64_of_Z 1) (f64_of_Z 2) = f64_of_Z 3.
Proof. reflexivity. Qed.

Example f64_of_big :
  f64_of_Z 9007199254740993 = f64_of_Z 9007199254740992.
Proof. reflexivity. Qed.
