(* ===== verification/Instr.v ===== *)
(** * The instruction set

    [Instr] of subset_julia_vm_bytecode/src/instr.rs, restricted to the
    variants that the peephole optimizer, the control-flow graph, the slot-backing
    verifier and the modelled part of the interpreter name.  Every other variant reaches
    those components only through their [_] arms; it is [Other opcode] here.
    Slots, function indices and code addresses are [nat] ([usize]). *)

From S2P Require Export Floats.

(** Comparison predicate of [JumpIfCmpI64SlotConst]. *)
Inductive I64Cmp := Lt | Gt | Le | Ge | Eq | Ne.

(** Builtins: the peephole optimizer only inspects [Float64]. *)
Inductive BuiltinId := BuiltinFloat64 | BuiltinOther (id : N).

(** Intrinsics: the interpreter looks ahead at a dynamic addition. *)
Inductive Intrinsic := DynamicAdd | IntrinsicOther (id : N).

Record CallSpecializeSlots := { spec_func_index : nat; cs_slots : list nat }.
Record CallDirectSlots := { func_index : nat; cd_slots : list nat }.

Inductive Instr :=
  (* constants *)
  | PushI64 (x : Z) | PushF64 (x : f64) | PushBool (b : bool) | PushNothing
  (* locals by name *)
  | LoadStr (name : string) | StoreStr (name : string)
  | LoadI64 (name : string) | StoreI64 (name : string)
  | LoadF64 (name : string) | StoreF64 (name : string)
  | LoadF32 (name : string) | StoreF32 (name : string)
  | LoadF16 (name : string) | StoreF16 (name : string)
  | LoadBool (name : string) | StoreBool (name : string)
  | LoadAny (name : string) | StoreAny (name : string)
  | LoadArray (name : string) | StoreArray (name : string)
  | LoadSet (name : string) | StoreSet (name : string)
  | LoadTuple (name : string) | StoreTuple (name : string)
  | LoadNamedTuple (name : string) | StoreNamedTuple (name : string)
  | LoadDict (name : string) | StoreDict (name : string)
  | LoadStruct (name : string) | StoreStruct (name : string)
  | LoadRange (name : string) | StoreRange (name : string)
  | LoadRng (name : string) | StoreRng (name : string)
  | LoadMemory (name : string) | StoreMemory (name : string)
  | ProbeRuntimeBinding (name : string)
  (* locals by slot *)
  | LoadSlot (slot : nat) | StoreSlot (slot : nat) | TakeSlot (slot : nat)
  | LoadSlotI64 (slot : nat) | StoreSlotI64 (slot : nat)
  | LoadSlotF64 (slot : nat) | StoreSlotF64 (slot : nat)
  | LoadSlotBool (slot : nat) | StoreSlotBool (slot : nat)
  | LoadSlotF32 (slot : nat) | StoreSlotF32 (slot : nat)
  | LoadSlotF16 (slot : nat) | StoreSlotF16 (slot : nat)
  | LoadSlotStr (slot : nat) | StoreSlotStr (slot : nat)
  | LoadSlotChar (slot : nat) | StoreSlotChar (slot : nat)
  | LoadSlotNarrowInt (slot : nat) | StoreSlotNarrowInt (slot : nat)
  | LoadSlotNothing (slot : nat) | StoreSlotNothing (slot : nat)
  | LoadSlotArray (slot : nat) | StoreSlotArray (slot : nat)
  | LoadSlotTuple (slot : nat) | StoreSlotTuple (slot : nat)
  | LoadSlotNamedTuple (slot : nat) | StoreSlotNamedTuple (slot : nat)
  | LoadSlotDict (slot : nat) | StoreSlotDict (slot : nat)
  | LoadSlotSet (slot : nat) | StoreSlotSet (slot : nat)
  | LoadSlotStruct (slot : nat) | StoreSlotStruct (slot : nat)
  | LoadSlotRange (slot : nat) | StoreSlotRange (slot : nat)
  | LoadSlotRng (slot : nat) | StoreSlotRng (slot : nat)
  | LoadSlotGenerator (slot : nat) | StoreSlotGenerator (slot : nat)
  | LoadSlotSymbol (slot : nat) | StoreSlotSymbol (slot : nat)
  (* Int64 arithmetic *)
  | AddI64 | SubI64 | MulI64 | ModI64 | IncI64 | DupI64 | Dup | NegI64
  (* fused load and operate, fused update *)
  | LoadAddI64 (name : string) | LoadSubI64 (name : string)
  | LoadMulI64 (name : string) | LoadModI64 (name : string)
  | LoadAddI64Slot (slot : nat) | LoadSubI64Slot (slot : nat)
  | LoadMulI64Slot (slot : nat) | LoadModI64Slot (slot : nat)
  | IncVarI64 (name : string) | DecVarI64 (name : string)
  | IncVarI64Slot (slot : nat) | DecVarI64Slot (slot : nat)
  (* fused compare and jump *)
  | JumpIfNeI64 (target : nat) | JumpIfEqI64 (target : nat)
  | JumpIfLtI64 (target : nat) | JumpIfGtI64 (target : nat)
  | JumpIfLeI64 (target : nat) | JumpIfGeI64 (target : nat)
  (* Int64 comparison *)
  | GtI64 | LtI64 | LeI64 | GeI64 | EqI64 | NeI64
  (* Float64 arithmetic and comparison *)
  | AddF64 | SubF64 | MulF64 | DupF64 | DivF64 | AbsF64 | Abs2F64 | NegF64
  | LtF64 | GtF64 | LeF64 | GeF64 | EqF64 | NeF64
  (* selection *)
  | SelectI64 | SelectF64
  (* control flow and calls *)
  | Jump (target : nat) | JumpIfZero (target : nat)
  | CallInbounds (f argc : nat) | CallResolved (f argc : nat)
  | CallSpecialize (f argc : nat) | CallSpecializeInbounds (f argc : nat)
  | CallBuiltin (b : BuiltinId) (argc : nat)
  | CallDynamicBinaryBoth (op : Intrinsic) (candidates : list nat)
  | ReturnI64 | ReturnF64 | ReturnF32 | ReturnF16 | ReturnArray
  | ReturnNothing | ReturnAny | ReturnRange | ReturnStruct | ReturnRng
  | ReturnTuple | ReturnNamedTuple | ReturnDict | ReturnSet | ReturnRef
  | ReturnMemory
  | Pop | Swap
  | PushHandler (catch_ip finally_ip : option nat) | PopHandler
  | Nop
  (* superinstructions *)
  | JumpIfEqF64 (target : nat) | JumpIfNeF64 (target : nat)
  | JumpIfNotLtF64 (target : nat) | JumpIfNotGtF64 (target : nat)
  | JumpIfNotLeF64 (target : nat) | JumpIfNotGeF64 (target : nat)
  | JumpIfGtI64Slots (lhs rhs target : nat)
  | AddConstI64Slot (slot : nat) (delta : Z)
  | LoadAddConstI64Slot (slot : nat) (delta : Z)
  | AddConstI64SlotAndJumpIfLe (slot : nat) (delta : Z) (stop target : nat)
  | LoadSlotI64ToF64 (slot : nat)
  | LoadSquareF64Slot (slot : nat)
  | LoadAddF64Slot (slot : nat) | LoadSubF64Slot (slot : nat)
  | LoadMulF64Slot (slot : nat) | LoadDivF64Slot (slot : nat)
  | AddF64Slots (dst lhs rhs : nat) | AddF64I64Slots (dst lhs rhs : nat)
  | CallSpecializeI64Slots (operands : CallSpecializeSlots)
  | CallSpecializeInboundsI64Slots (operands : CallSpecializeSlots)
  | CallResolvedI64Slots (operands : CallDirectSlots)
  | CallInboundsI64Slots (operands : CallDirectSlots)
  | CallSpecializeF64Slots (operands : CallSpecializeSlots)
  | CallSpecializeInboundsF64Slots (operands : CallSpecializeSlots)
  | JumpIfCmpI64SlotConst (slot : nat) (konst : Z) (cmp : I64Cmp) (target : nat)
  (* every other variant *)
  | Other (opcode : N).

#[export] Instance I64Cmp_eq_dec : EqDecision I64Cmp.
Proof. solve_decision. Defined.
#[export] Instance Intrinsic_eq_dec : EqDecision Intrinsic.
Proof. solve_decision. Defined.
#[export] Instance BuiltinId_eq_dec : EqDecision BuiltinId.
Proof. solve_decision. Defined.

(** ** Effects of an instruction (effects/instr.rs) *)

Inductive InstructionEffects :=
  | Pure
  | ReadsSlot (slot : nat)
  | WritesSlot (slot : nat)
  | Barrier.

Definition instruction_effects (instr : Instr) : InstructionEffects :=
  match instr with
  | Nop | PushI64 _ | AddI64 | SubI64 | MulI64 => Pure
  | LoadSlotI64 slot | LoadAddI64Slot slot | LoadSubI64Slot slot
  | LoadMulI64Slot slot => ReadsSlot slot
  | StoreSlotI64 slot => WritesSlot slot
  | _ => Barrier
  end.

Definition instruction_can_cse (instr : Instr) : bool :=
  match instruction_effects instr with
  | Pure | ReadsSlot _ => true
  | _ => false
  end.

Definition instruction_written_slot (instr : Instr) : option nat :=
  match instruction_effects instr with
  | WritesSlot slot => Some slot
  | _ => None
  end.

Definition instruction_is_cse_barrier (instr : Instr) : bool :=
  match instruction_effects instr with
  | Barrier => true
  | _ => false
  end.

(** ** Jump targets (compile/cfg.rs, peephole.rs)

    [jump_targets] lists the addresses an instruction may transfer control to,
    handler addresses included; [peephole::collect_jump_targets] collects them
    over a whole code vector. *)

Definition jump_targets (instr : Instr) : list nat :=
  match instr with
  | Jump target | JumpIfZero target | JumpIfNeI64 target | JumpIfEqI64 target
  | JumpIfLtI64 target | JumpIfGtI64 target | JumpIfGtI64Slots _ _ target
  | AddConstI64SlotAndJumpIfLe _ _ _ target
  | JumpIfLeI64 target | JumpIfGeI64 target
  | JumpIfEqF64 target | JumpIfNeF64 target
  | JumpIfNotLtF64 target | JumpIfNotGtF64 target
  | JumpIfNotLeF64 target | JumpIfNotGeF64 target
  | JumpIfCmpI64SlotConst _ _ _ target => [target]
  | PushHandler catch_ip finally_ip => option_list catch_ip ++ option_list finally_ip
  | _ => []
  end.

(** Instructions that leave the function (compile/cfg.rs). *)
Definition is_return (instr : Instr) : bool :=
  match instr with
  | ReturnI64 | ReturnF64 | ReturnF32 | ReturnF16 | ReturnArray | ReturnNothing | ReturnAny
  | ReturnRange | ReturnStruct | ReturnRng | ReturnTuple | ReturnNamedTuple | ReturnDict
  | ReturnSet | ReturnRef | ReturnMemory => true
  | _ => false
  end.

Definition is_branch_or_return (instr : Instr) : bool :=
  match instr with
  | Jump _ | JumpIfZero _ | JumpIfNeI64 _ | JumpIfEqI64 _ | JumpIfLtI64 _ | JumpIfGtI64 _
  | JumpIfGtI64Slots _ _ _ | AddConstI64SlotAndJumpIfLe _ _ _ _ | JumpIfLeI64 _ | JumpIfGeI64 _
  | JumpIfEqF64 _ | JumpIfNeF64 _ | JumpIfNotLtF64 _ | JumpIfNotGtF64 _ | JumpIfNotLeF64 _
  | JumpIfNotGeF64 _ | JumpIfCmpI64SlotConst _ _ _ _ => true
  | _ => is_return instr
  end.

Definition is_push_handler (instr : Instr) : bool :=
  match instr with PushHandler _ _ => true | _ => false end.

(** [update_jump_target]: the same instruction with its addresses sent through
    [f]. *)
Definition map_targets (f : nat -> nat) (instr : Instr) : Instr :=
  match instr with
  | Jump t => Jump (f t)
  | JumpIfZero t => JumpIfZero (f t)
  | JumpIfNeI64 t => JumpIfNeI64 (f t)
  | JumpIfEqI64 t => JumpIfEqI64 (f t)
  | JumpIfLtI64 t => JumpIfLtI64 (f t)
  | JumpIfGtI64 t => JumpIfGtI64 (f t)
  | JumpIfGtI64Slots l r t => JumpIfGtI64Slots l r (f t)
  | AddConstI64SlotAndJumpIfLe s d st t => AddConstI64SlotAndJumpIfLe s d st (f t)
  | JumpIfLeI64 t => JumpIfLeI64 (f t)
  | JumpIfGeI64 t => JumpIfGeI64 (f t)
  | JumpIfEqF64 t => JumpIfEqF64 (f t)
  | JumpIfNeF64 t => JumpIfNeF64 (f t)
  | JumpIfNotLtF64 t => JumpIfNotLtF64 (f t)
  | JumpIfNotGtF64 t => JumpIfNotGtF64 (f t)
  | JumpIfNotLeF64 t => JumpIfNotLeF64 (f t)
  | JumpIfNotGeF64 t => JumpIfNotGeF64 (f t)
  | JumpIfCmpI64SlotConst s k c t => JumpIfCmpI64SlotConst s k c (f t)
  | PushHandler c fin => PushHandler (f <$> c) (f <$> fin)
  | _ => instr
  end.

Lemma jump_targets_map_targets f i : jump_targets (map_targets f i) = f <$> jump_targets i.
Proof. destruct i as [] eqn:E; try reflexivity. destruct catch_ip, finally_ip; reflexivity. Qed.

Lemma map_targets_id i : map_targets (fun t => t) i = i.
Proof. destruct i as [] eqn:E; try reflexivity. destruct catch_ip, finally_ip; reflexivity. Qed.

Lemma map_targets_compose f g i : map_targets f (map_targets g i) = map_targets (fun t => f (g t)) i.
Proof. destruct i as [] eqn:E; try reflexivity. destruct catch_ip, finally_ip; reflexivity. Qed.
