(* ===== verification/Value.v ===== *)
(** * Runtime values and errors

    [Value] of subset_julia_vm_bytecode/src/value/value_enum.rs (the numeric
    variants, [Bool], [Nothing] and [BigInt]; all others are [Heap] values), the
    coercions that the interpreter's operand-stack pops perform
    (vm/stack_ops.rs, vm/exec/locals.rs, vm/type_ops/conversion.rs) and the
    [VmError] variants those operations produce. *)

From S2P Require Export Instr.

(** The other variants, as far as the interpreter tells them apart: a [Struct]
    is stored in the heap when a slot takes it, the others are checked by the
    loads and returns of their type. *)
Inductive HeapKind := HString | HSymbol | HTuple | HNamedTuple | HMemory | HStruct | HOther.

#[export] Instance HeapKind_eq_dec : EqDecision HeapKind.
Proof. solve_decision. Defined.

Module Value.
Inductive t :=
  | I8 (z : Z) | I16 (z : Z) | I32 (z : Z) | I64 (z : Z) | I128 (z : Z)
  | U8 (z : Z) | U16 (z : Z) | U32 (z : Z) | U64 (z : Z) | U128 (z : Z)
  | F16 (x : spec_float) | F32 (x : spec_float) | F64 (x : f64)
  | Bool (b : bool)
  | Nothing
  | BigInt (z : Z)
  | Heap (kind : HeapKind) (tag : N).
End Value.
Abbreviation value := Value.t.

#[export] Instance value_eq_dec : EqDecision value.
Proof. solve_decision. Defined.

(** Variants of [VmError]; message strings are kept only where they name a
    variable. *)
Inductive VmError :=
  | UndefVarError (name : string)
  | DivisionByZero
  | StackUnderflow
  | TypeError
  | MethodError
  | InternalError
  | NotImplemented.

#[export] Instance VmError_eq_dec : EqDecision VmError.
Proof. solve_decision. Defined.

(** Conversions to [f64] that go through code outside the model: [to_f64] of
    the num-bigint crate, and the irrational/rational structs of the VM heap
    ([pop] for the stack helper, [convert] for the [Float64] builtin). *)
Class ExternalConversions := {
  bigint_to_f64 : Z -> f64;
  heap_pop_f64 : HeapKind -> N -> option f64;
  heap_convert_f64 : HeapKind -> N -> option f64
}.

(** A value of a fixed-width integer variant is in the range of its type. *)
Definition wf_value (v : value) : Prop :=
  match v with
  | Value.I8 z => in_s 8 z | Value.I16 z => in_s 16 z | Value.I32 z => in_s 32 z
  | Value.I64 z => in_s 64 z | Value.I128 z => in_s 128 z
  | Value.U8 z => in_u 8 z | Value.U16 z => in_u 16 z | Value.U32 z => in_u 32 z
  | Value.U64 z => in_u 64 z | Value.U128 z => in_u 128 z
  | _ => True
  end.

#[export] Instance wf_value_dec v : Decision (wf_value v).
Proof. destruct v; simpl; apply _. Defined.

(** [StackOps::pop_i64] on the popped value: every integer variant is cast with
    [as i64]. *)
Definition value_to_i64 (v : value) : result VmError Z :=
  match v with
  | Value.I64 v => Ok v
  | Value.Bool v => Ok (if v then 1 else 0)%Z
  | Value.I32 v => Ok (wrap_s 64 v)
  | Value.I16 v => Ok (wrap_s 64 v)
  | Value.I8 v => Ok (wrap_s 64 v)
  | Value.I128 v => Ok (wrap_s 64 v)
  | Value.U8 v => Ok (wrap_s 64 v)
  | Value.U16 v => Ok (wrap_s 64 v)
  | Value.U32 v => Ok (wrap_s 64 v)
  | Value.U64 v => Ok (wrap_s 64 v)
  | Value.U128 v => Ok (wrap_s 64 v)
  | _ => Err TypeError
  end.

Section Conversions.
Context `{ExternalConversions}.

(** [StackOpsExt::pop_f64_or_i64] on the popped value. *)
Definition value_to_f64 (v : value) : result VmError f64 :=
  match v with
  | Value.F64 v => Ok v
  | Value.F32 v => Ok (f64_of_narrow v)
  | Value.F16 v => Ok (f64_of_narrow v)
  | Value.I64 v | Value.I128 v | Value.I32 v | Value.I16 v | Value.I8 v
  | Value.U64 v | Value.U128 v | Value.U32 v | Value.U16 v | Value.U8 v =>
      Ok (f64_of_Z v)
  | Value.Bool b => Ok (if b then f64_one else f64_zero)
  | Value.BigInt b => Ok (bigint_to_f64 b)
  | Value.Heap kind o =>
      match heap_pop_f64 kind o with
      | Some x => Ok x
      | None => Err TypeError
      end
  | Value.Nothing => Err TypeError
  end.

(** [Vm::convert_to_f64], the [Float64(x)] builtin. *)
Definition convert_to_f64 (v : value) : result VmError f64 :=
  match v with
  | Value.I8 n | Value.I16 n | Value.I32 n | Value.I64 n | Value.I128 n
  | Value.U8 n | Value.U16 n | Value.U32 n | Value.U64 n | Value.U128 n =>
      Ok (f64_of_Z n)
  | Value.F16 n => Ok (f64_of_narrow n)
  | Value.F32 n => Ok (f64_of_narrow n)
  | Value.F64 n => Ok n
  | Value.BigInt n => Ok (bigint_to_f64 n)
  | Value.Bool b => Ok (if b then f64_one else f64_zero)
  | Value.Heap kind o =>
      match heap_convert_f64 kind o with
      | Some x => Ok x
      | None => Err MethodError
      end
  | Value.Nothing => Err MethodError
  end.
End Conversions.

(** [slot_value_as_f64]: the numeric variants a fused F64 slot operation reads. *)
Definition slot_value_as_f64 (v : value) : result VmError f64 :=
  match v with
  | Value.F64 v => Ok v
  | Value.F32 v => Ok (f64_of_narrow v)
  | Value.F16 v => Ok (f64_of_narrow v)
  | Value.I64 v => Ok (f64_of_Z v)
  | Value.Bool v => Ok (if v then f64_one else f64_zero)
  | Value.I8 v | Value.I16 v | Value.I32 v | Value.I128 v
  | Value.U8 v | Value.U16 v | Value.U32 v | Value.U64 v | Value.U128 v =>
      Ok (f64_of_Z v)
  | _ => Err InternalError
  end.

(** [value_as_i128] and [value_as_u128]. *)
Definition value_as_i128 (v : value) : option Z :=
  match v with
  | Value.I8 v | Value.I16 v | Value.I32 v | Value.I64 v => Some v
  | Value.I128 v => Some v
  | Value.U8 v | Value.U16 v | Value.U32 v | Value.U64 v => Some v
  | Value.U128 v => if decide (v < 2 ^ 127)%Z then Some v else None
  | Value.Bool v => Some (if v then 1 else 0)%Z
  | _ => None
  end.

Definition value_as_u128 (v : value) : option Z :=
  match v with
  | Value.I8 v | Value.I16 v | Value.I32 v | Value.I64 v | Value.I128 v =>
      if decide (0 <= v)%Z then Some v else None
  | Value.U8 v | Value.U16 v | Value.U32 v | Value.U64 v => Some v
  | Value.U128 v => Some v
  | Value.Bool v => Some (if v then 1 else 0)%Z
  | _ => None
  end.

(** The operator of [fused_integer_slot_op] ([LoadAddI64Slot], ...). *)
Inductive FusedOp := FAdd | FSub | FMul | FMod.

(** [slot op stack] in the order of the source: [slot + stack],
    [stack - slot], [slot * stack], [stack % slot] (the callers exclude a zero
    divisor first). *)
Definition fused_op (op : FusedOp) (wrap : Z -> Z) (slot rhs : Z) : Z :=
  match op with
  | FAdd => wrap (slot + rhs)
  | FSub => wrap (rhs - slot)
  | FMul => wrap (slot * rhs)
  | FMod => wrap (Z.rem rhs slot)
  end%Z.

(** The [signed!] and [unsigned!] arms of [fused_integer_slot_op]. *)
Definition signed_slot_op (op : FusedOp) (stack_value : value) (w : Z)
    (mk : Z -> value) (v : Z) : option value :=
  rhs ← value_as_i128 stack_value;
  Some (mk (fused_op op (wrap_s w) v (wrap_s w rhs))).

Definition unsigned_slot_op (op : FusedOp) (stack_value : value) (w : Z)
    (mk : Z -> value) (v : Z) : option value :=
  rhs ← value_as_u128 stack_value;
  Some (mk (fused_op op (wrap_u w) v (wrap_u w rhs))).

(** [fused_integer_slot_op]: the result has the integer type of the slot. *)
Definition fused_integer_slot_op (slot_value stack_value : value) (op : FusedOp)
    : option value :=
  match slot_value with
  | Value.I8 v => signed_slot_op op stack_value 8 Value.I8 v
  | Value.I16 v => signed_slot_op op stack_value 16 Value.I16 v
  | Value.I32 v => signed_slot_op op stack_value 32 Value.I32 v
  | Value.I64 v => signed_slot_op op stack_value 64 Value.I64 v
  | Value.I128 v => signed_slot_op op stack_value 128 Value.I128 v
  | Value.U8 v => unsigned_slot_op op stack_value 8 Value.U8 v
  | Value.U16 v => unsigned_slot_op op stack_value 16 Value.U16 v
  | Value.U32 v => unsigned_slot_op op stack_value 32 Value.U32 v
  | Value.U64 v => unsigned_slot_op op stack_value 64 Value.U64 v
  | Value.U128 v => unsigned_slot_op op stack_value 128 Value.U128 v
  | _ => None
  end.

(** The numeric variants that [LoadSlotI64] pushes as they are. *)
Definition is_numeric_value (v : value) : bool :=
  match v with
  | Value.I64 _ | Value.Bool _ | Value.I32 _ | Value.I16 _ | Value.I8 _
  | Value.I128 _ | Value.U8 _ | Value.U16 _ | Value.U32 _ | Value.U64 _
  | Value.U128 _ | Value.F16 _ | Value.F32 _ | Value.F64 _ => true
  | _ => false
  end.

Definition is_narrow_int_value (v : value) : bool :=
  match v with
  | Value.I8 _ | Value.I16 _ | Value.I32 _ | Value.I128 _
  | Value.U8 _ | Value.U16 _ | Value.U32 _ | Value.U64 _ | Value.U128 _ => true
  | _ => false
  end.

(** The zero test of [LoadModI64Slot]. *)
Definition is_zero_value (v : value) : bool :=
  match v with
  | Value.I8 z | Value.I16 z | Value.I32 z | Value.I64 z | Value.I128 z
  | Value.U8 z | Value.U16 z | Value.U32 z | Value.U64 z | Value.U128 z =>
      bool_decide (z = 0)%Z
  | _ => false
  end.

(** Values accepted by [ReturnI64]. *)
Definition is_integer_value (v : value) : bool :=
  match v with
  | Value.I64 _ | Value.Bool _ | Value.I32 _ | Value.I16 _ | Value.I8 _
  | Value.I128 _ | Value.U8 _ | Value.U16 _ | Value.U32 _ | Value.U64 _
  | Value.U128 _ | Value.BigInt _ => true
  | _ => false
  end.

(** ** Lemmas *)

Lemma value_to_i64_in v z : wf_value v -> value_to_i64 v = Ok z -> in_s 64 z.
Proof.
  destruct v as [| | | | | | | | | | | | |[]| | |]; simpl; intros Hv [= <-];
    try (apply wrap_s_in; lia); try done; unfold in_s; lia.
Qed.

(** On an [I64] slot, the fused operation computes what loading the slot and
    popping both operands as [i64] computes; the one exception is a [UInt128]
    operand beyond [i128]. *)
Definition i128_operand (v : value) : Prop :=
  match v with
  | Value.U128 z => (z < 2 ^ 127)%Z
  | _ => True
  end.

Lemma value_as_i128_to_i64 v z :
  wf_value v -> i128_operand v -> value_to_i64 v = Ok z ->
  exists r, value_as_i128 v = Some r /\ wrap_s 64 r = z.
Proof.
  destruct v as [| | | | | | | | | | | | |[]| | |]; simpl; intros Hv Hi [= <-];
    try case_decide; try done; eexists; split; try reflexivity.
  apply wrap_s_id; [lia|done].
Qed.

Lemma fused_slot_op_i64 x v z op :
  wf_value v -> i128_operand v -> value_to_i64 v = Ok z ->
  fused_integer_slot_op (Value.I64 x) v op =
  Some (Value.I64 (fused_op op (wrap_s 64) x z)).
Proof.
  intros Hv Hi Hz. destruct (value_as_i128_to_i64 v z Hv Hi Hz) as (r & Hr & Hw).
  simpl. unfold signed_slot_op. rewrite Hr. simpl. by rewrite Hw.
Qed.


Lemma value_to_i64_err v e : value_to_i64 v = Err e -> e = TypeError.
Proof. destruct v; simpl; congruence. Qed.

(** The fused operation on an [I64] slot as the plain one: pop, then operate
    with the popped value on the left. *)
Definition slot_arith (op : FusedOp) (popped slot : Z) : Z :=
  match op with
  | FAdd => popped + slot
  | FSub => popped - slot
  | FMul => popped * slot
  | FMod => Z.rem popped slot
  end%Z.

Lemma signed_slot_op_i64 op v x :
  wf_value v -> i128_operand v ->
  signed_slot_op op v 64 Value.I64 x =
  match value_to_i64 v with
  | Ok z => Some (Value.I64 (wrap_s 64 (slot_arith op z x)))
  | Err _ => None
  end.
Proof.
  intros Hv Hi. destruct (value_to_i64 v) as [z|e] eqn:E.
  - pose proof (fused_slot_op_i64 x v z op Hv Hi E) as Hf. simpl in Hf. rewrite Hf.
    destruct op; simpl; do 3 f_equal; lia.
  - destruct v; simpl in E; try discriminate E; reflexivity.
Qed.
