(* ===== verification/Machine.v ===== *)
(** * The interpreter: one activation

    The run loop and the instruction handlers of subset_julia_vm_vm/src/vm/exec
    for the scalar core of the instruction set: constants, locals by name and
    by slot, Int64 and Float64 arithmetic, comparisons, jumps, the fused
    superinstructions, calls (up to the hand-over of the callee's arguments)
    and returns (up to the hand-over of the result).

    A machine state is one activation: the program counter, the operand stack
    (head = top), the current frame and, when the current frame is not the
    main frame, the main frame that name lookups fall back to.  A handler
    yields a [DispatchAction].  Control leaves the activation at [ReturnOut],
    [CallOut], [Raise] (an exception given to the handler stack), [Fault] (an
    error that the handler returns, type and internal errors) or [External]
    (an instruction whose handler is outside the model).

    Left out of the state: cancellation and heap safepoints at loop back-edges
    ([jump_to]), profiling, and the predecoded executable blocks that may run a
    stretch of code in place of the loop. *)

From S2P Require Export Value.

(** ** State *)

Record Frame := {
  locals_slots : list (option value);
  locals_any : gmap string value;
  (* names of the slots of the owning function, and the inverse map *)
  frame_slot_names : list string;
  frame_slot_map : gmap string nat
}.

Record Vm := {
  ip : nat;
  stack : list value;
  frame : Frame;
  (* [frames.first()] when [frames.len() > 1] *)
  global_frame : option Frame
}.

(** Kind of a call hand-over: [direct_call] or [call_specialize], with the
    inbounds flag. *)
Inductive CallKind := DirectCall (inbounds : bool) | SpecializeCall (inbounds : bool).

Inductive DispatchAction :=
  | Continue (s : Vm)
  (* [self.raise(e)]; [pushed] is pushed after the handler has taken over *)
  | Raise (e : VmError) (s : Vm) (pushed : list value)
  | Fault (e : VmError)
  | CallOut (kind : CallKind) (f : nat) (args : list value) (s : Vm)
  (* the popped result and the state left behind *)
  | ReturnOut (ret : Instr) (v : value) (s : Vm)
  | External (i : Instr) (s : Vm).

Definition set_ip (n : nat) (s : Vm) : Vm :=
  {| ip := n; stack := stack s; frame := frame s; global_frame := global_frame s |}.
Definition set_stack (st : list value) (s : Vm) : Vm :=
  {| ip := ip s; stack := st; frame := frame s; global_frame := global_frame s |}.
Definition set_frame (f : Frame) (s : Vm) : Vm :=
  {| ip := ip s; stack := stack s; frame := f; global_frame := global_frame s |}.
Definition set_global (f : option Frame) (s : Vm) : Vm :=
  {| ip := ip s; stack := stack s; frame := frame s; global_frame := f |}.
Definition set_slots (sl : list (option value)) (f : Frame) : Frame :=
  {| locals_slots := sl; locals_any := locals_any f;
     frame_slot_names := frame_slot_names f; frame_slot_map := frame_slot_map f |}.
Definition set_any (m : gmap string value) (f : Frame) : Frame :=
  {| locals_slots := locals_slots f; locals_any := m;
     frame_slot_names := frame_slot_names f; frame_slot_map := frame_slot_map f |}.

Definition push (v : value) (s : Vm) : Vm := set_stack (v :: stack s) s.

(** ** Frame accessors (vm/frame.rs, vm/state.rs) *)

Definition slot_i64 (f : Frame) (slot : nat) : option Z :=
  match locals_slots f !! slot with
  | Some (Some (Value.I64 v)) => Some v
  | _ => None
  end.

Definition slot_f64 (f : Frame) (slot : nat) : option f64 :=
  match locals_slots f !! slot with
  | Some (Some (Value.F64 v)) => Some v
  | _ => None
  end.

(** [store_slot]: [false] out of range. *)
Definition store_slot (f : Frame) (slot : nat) (v : value) : option Frame :=
  match locals_slots f !! slot with
  | Some _ => Some (set_slots (<[slot := Some v]> (locals_slots f)) f)
  | None => None
  end.

Definition slot_name_for_frame (f : Frame) (slot : nat) : string :=
  match frame_slot_names f !! slot with
  | Some name => name
  | None => "slot " +:+ pretty slot
  end.

Definition load_slot_value_by_name (f : Frame) (name : string) : option value :=
  slot ← frame_slot_map f !! name;
  mjoin (locals_slots f !! slot).

(** [frame_i64_value_by_name] and its fall back to the main frame. *)
Definition local_i64 (f : Frame) (name : string) : option Z :=
  match locals_any f !! name with
  | Some (Value.I64 v) => Some v
  | _ => None
  end.

Definition frame_i64_value_by_name (f : Frame) (name : string) : option Z :=
  match local_i64 f name with
  | Some v => Some v
  | None =>
      match load_slot_value_by_name f name with
      | Some (Value.I64 v) => Some v
      | _ => None
      end
  end.

Definition i64_value_from_current_or_global_frame (s : Vm) (name : string) : option Z :=
  match frame_i64_value_by_name (frame s) name with
  | Some v => Some v
  | None =>
      match global_frame s with
      | Some g => frame_i64_value_by_name g name
      | None => None
      end
  end.

Definition frame_f64_value_by_name (f : Frame) (name : string) : option f64 :=
  match locals_any f !! name with
  | Some (Value.F64 v) => Some v
  | _ =>
      match load_slot_value_by_name f name with
      | Some (Value.F64 v) => Some v
      | _ => None
      end
  end.

Definition f64_value_from_current_or_global_frame (s : Vm) (name : string) : option f64 :=
  match frame_f64_value_by_name (frame s) name with
  | Some v => Some v
  | None =>
      match global_frame s with
      | Some g => frame_f64_value_by_name g name
      | None => None
      end
  end.

(** ** Operand stack *)

(** [self.stack.pop_value()?] *)
Definition pop_value (s : Vm) (k : value -> Vm -> DispatchAction) : DispatchAction :=
  match stack s with
  | [] => Fault StackUnderflow
  | v :: st => k v (set_stack st s)
  end.

(** [self.stack.pop_i64()?] *)
Definition pop_i64 (s : Vm) (k : Z -> Vm -> DispatchAction) : DispatchAction :=
  pop_value s (fun v s =>
    match value_to_i64 v with
    | Ok z => k z s
    | Err e => Fault e
    end).

(** [self.stack.pop_bool()?] *)
Definition pop_bool (s : Vm) (k : bool -> Vm -> DispatchAction) : DispatchAction :=
  pop_value s (fun v s =>
    match v with
    | Value.Bool b => k b s
    | _ => Fault TypeError
    end).

(** [self.stack.pop_condition()?] *)
Definition pop_condition (s : Vm) (k : bool -> Vm -> DispatchAction) : DispatchAction :=
  pop_value s (fun v s =>
    match v with
    | Value.Bool b => k b s
    | Value.I64 z => k (negb (bool_decide (z = 0%Z))) s
    | _ => Fault TypeError
    end).

(** [pop_specialize_args]: [n] pops, reversed. *)
Fixpoint pop_args (n : nat) (s : Vm) (acc : list value)
    (k : list value -> Vm -> DispatchAction) : DispatchAction :=
  match n with
  | 0 => k acc s
  | S n => pop_value s (fun v s => pop_args n s (v :: acc) k)
  end.

(** ** Reading a slot for an operation

    A read yields a payload, finds the variable undefined (the handler raises
    [UndefVarError]), or reports an error. *)

Inductive SlotRead (A : Type) := Got (a : A) | Undef | Bad (e : VmError).
Arguments Got {A} a.
Arguments Undef {A}.
Arguments Bad {A} e.

Definition read_slot {A} (r : SlotRead A) (slot : nat) (s : Vm) (pushed : list value)
    (k : A -> DispatchAction) : DispatchAction :=
  match r with
  | Got a => k a
  | Undef => Raise (UndefVarError (slot_name_for_frame (frame s) slot)) s pushed
  | Bad e => Fault e
  end.

(** The slot reads of [LoadSlotI64], [LoadSlotI64ToF64] and
    [load_i64_slot_specialize_arg]: a numeric value as it is. *)
Definition read_numeric (f : Frame) (slot : nat) : SlotRead value :=
  match slot_i64 f slot with
  | Some v => Got (Value.I64 v)
  | None =>
      match locals_slots f !! slot with
      | Some (Some v) => if is_numeric_value v then Got v else Bad InternalError
      | Some None => Undef
      | None => Bad InternalError
      end
  end.

(** [load_i64_slot_for_jump]. *)
Definition load_i64_slot_for_jump (f : Frame) (slot : nat) : SlotRead Z :=
  match slot_i64 f slot with
  | Some v => Got v
  | None =>
      match locals_slots f !! slot with
      | Some (Some (Value.F16 _ | Value.F32 _ | Value.F64 _)) => Bad TypeError
      | Some (Some v) =>
          match value_to_i64 v with
          | Ok z => Got z
          | Err _ => Bad InternalError
          end
      | Some None => Undef
      | None => Bad InternalError
      end
  end.

(** [slot_f64_for_op]. *)
Definition slot_f64_for_op (f : Frame) (slot : nat) : SlotRead f64 :=
  match slot_f64 f slot with
  | Some v => Got v
  | None =>
      match locals_slots f !! slot with
      | Some (Some v) =>
          match slot_value_as_f64 v with
          | Ok x => Got x
          | Err e => Bad e
          end
      | Some None => Undef
      | None => Bad InternalError
      end
  end.

(** [slot_exact_f64]. *)
Definition slot_exact_f64 (f : Frame) (slot : nat) : option f64 := slot_f64 f slot.

Definition store_slot_or_fault (slot : nat) (v : value) (s : Vm) : DispatchAction :=
  match store_slot (frame s) slot v with
  | Some f => Continue (set_frame f s)
  | None => Fault InternalError
  end.

Definition store_any (name : string) (v : value) (s : Vm) : DispatchAction :=
  Continue (set_frame (set_any (<[name := v]> (locals_any (frame s))) (frame s)) s).

Definition jump_to (target : nat) (s : Vm) : DispatchAction := Continue (set_ip target s).

Definition jump_if (c : bool) (target : nat) (s : Vm) : DispatchAction :=
  if c then jump_to target s else Continue s.

Definition unhandled : DispatchAction := Fault NotImplemented.

(** ** Handlers *)

Section Handlers.
Context `{ExternalConversions}.
(* the code vector, for the handlers that look ahead *)
Variable code : list Instr.

(** [Vm::pop_f64_or_i64] *)
Definition pop_f64_or_i64 (s : Vm) (k : f64 -> Vm -> DispatchAction) : DispatchAction :=
  pop_value s (fun v s =>
    match value_to_f64 v with
    | Ok x => k x s
    | Err e => Fault e
    end).

Definition execute_stack (instr : Instr) (s : Vm) : DispatchAction :=
  match instr with
  | PushI64 x => Continue (push (Value.I64 x) s)
  | PushF64 x => Continue (push (Value.F64 x) s)
  | PushBool b => Continue (push (Value.Bool b) s)
  | PushNothing => Continue (push Value.Nothing s)
  | Pop => Continue (set_stack (tl (stack s)) s)
  | Swap =>
      match stack s with
      | a :: b :: st => Continue (set_stack (b :: a :: st) s)
      | _ => Continue s
      end
  | _ => unhandled
  end.

(** The two-operand helpers: [b] is popped first. *)
Definition binop_i64 (op : Z -> Z -> Z) (s : Vm) : DispatchAction :=
  pop_i64 s (fun b s => pop_i64 s (fun a s =>
    Continue (push (Value.I64 (wrap_s 64 (op a b))) s))).

Definition binop_f64 (op : f64 -> f64 -> f64) (s : Vm) : DispatchAction :=
  pop_f64_or_i64 s (fun b s => pop_f64_or_i64 s (fun a s =>
    Continue (push (Value.F64 (op a b)) s))).

Definition execute_i64_arithmetic (instr : Instr) (s : Vm) : DispatchAction :=
  match instr with
  | AddI64 => binop_i64 Z.add s
  | SubI64 => binop_i64 Z.sub s
  | MulI64 => binop_i64 Z.mul s
  | ModI64 =>
      pop_i64 s (fun b s =>
        if bool_decide (b = 0%Z) then Raise DivisionByZero s []
        else pop_i64 s (fun a s =>
          Continue (push (Value.I64 (wrap_s 64 (Z.rem a b))) s)))
  | IncI64 => pop_i64 s (fun a s => Continue (push (Value.I64 (wrap_s 64 (a + 1))) s))
  | NegI64 => pop_i64 s (fun a s => Continue (push (Value.I64 (wrap_s 64 (- a))) s))
  | DupI64 =>
      match stack s with
      | [] => Fault TypeError
      | Value.I64 x :: _ => Continue (push (Value.I64 x) s)
      | _ => Fault InternalError
      end
  | DupF64 =>
      match stack s with
      | [] => Fault TypeError
      | Value.F64 x :: _ => Continue (push (Value.F64 x) s)
      | _ => Fault InternalError
      end
  | Dup =>
      match stack s with
      | [] => Fault StackUnderflow
      | v :: _ => Continue (push v s)
      end
  | _ => unhandled
  end.

Definition execute_f64_arithmetic (instr : Instr) (s : Vm) : DispatchAction :=
  match instr with
  | AddF64 => binop_f64 f64_add s
  | SubF64 => binop_f64 f64_sub s
  | MulF64 => binop_f64 f64_mul s
  | DivF64 => binop_f64 f64_div s
  | NegF64 => pop_f64_or_i64 s (fun a s => Continue (push (Value.F64 (f64_neg a)) s))
  | AbsF64 => pop_f64_or_i64 s (fun a s => Continue (push (Value.F64 (f64_abs a)) s))
  | Abs2F64 => pop_f64_or_i64 s (fun a s => Continue (push (Value.F64 (f64_mul a a)) s))
  | _ => unhandled
  end.

Definition cmp_i64 (op : Z -> Z -> bool) (s : Vm) : DispatchAction :=
  pop_i64 s (fun b s => pop_i64 s (fun a s =>
    Continue (push (Value.Bool (op a b)) s))).

Definition cmp_f64 (op : f64 -> f64 -> bool) (s : Vm) : DispatchAction :=
  pop_f64_or_i64 s (fun b s => pop_f64_or_i64 s (fun a s =>
    Continue (push (Value.Bool (op a b)) s))).

(** The predicate of a comparison. *)
Definition i64_cmp (c : I64Cmp) (a b : Z) : bool :=
  match c with
  | Lt => (a <? b)%Z
  | Gt => (b <? a)%Z
  | Le => (a <=? b)%Z
  | Ge => (b <=? a)%Z
  | Eq => (a =? b)%Z
  | Ne => negb (a =? b)%Z
  end.

Definition f64_cmp (c : I64Cmp) (a b : f64) : bool :=
  match c with
  | Lt => f64_ltb a b
  | Gt => f64_ltb b a
  | Le => f64_leb a b
  | Ge => f64_leb b a
  | Eq => f64_eqb a b
  | Ne => negb (f64_eqb a b)
  end.

Definition execute_comparison (instr : Instr) (s : Vm) : DispatchAction :=
  match instr with
  | GtI64 => cmp_i64 (i64_cmp Gt) s
  | LtI64 => cmp_i64 (i64_cmp Lt) s
  | LeI64 => cmp_i64 (i64_cmp Le) s
  | GeI64 => cmp_i64 (i64_cmp Ge) s
  | EqI64 => cmp_i64 (i64_cmp Eq) s
  | NeI64 => cmp_i64 (i64_cmp Ne) s
  | LtF64 => cmp_f64 (f64_cmp Lt) s
  | GtF64 => cmp_f64 (f64_cmp Gt) s
  | LeF64 => cmp_f64 (f64_cmp Le) s
  | GeF64 => cmp_f64 (f64_cmp Ge) s
  | EqF64 => cmp_f64 (f64_cmp Eq) s
  | NeF64 => cmp_f64 (f64_cmp Ne) s
  | SelectI64 =>
      pop_i64 s (fun else_v s => pop_i64 s (fun then_v s => pop_condition s (fun c s =>
        Continue (push (Value.I64 (if c : bool then then_v else else_v)) s))))
  | SelectF64 =>
      pop_f64_or_i64 s (fun else_v s => pop_f64_or_i64 s (fun then_v s =>
        pop_condition s (fun c s =>
          Continue (push (Value.F64 (if c : bool then then_v else else_v)) s))))
  | _ => unhandled
  end.

(** [execute_jump_if_zero]: both failures are raised, not returned. *)
Definition exec_jump_if_zero (target : nat) (s : Vm) : DispatchAction :=
  match stack s with
  | [] => Raise StackUnderflow s []
  | Value.Bool b :: st => jump_if (negb b) target (set_stack st s)
  | _ :: st => Raise TypeError (set_stack st s) []
  end.

Definition jump_cmp_i64 (c : I64Cmp) (target : nat) (s : Vm) : DispatchAction :=
  pop_i64 s (fun b s => pop_i64 s (fun a s => jump_if (i64_cmp c a b) target s)).

Definition jump_f64 (p : f64 -> f64 -> bool) (target : nat) (s : Vm) : DispatchAction :=
  pop_f64_or_i64 s (fun b s => pop_f64_or_i64 s (fun a s => jump_if (p a b) target s)).

(** [matches!(a.partial_cmp(&b), Some(..))] *)
Definition ordering_in (l : list comparison) (a b : f64) : bool :=
  match f64_partial_cmp a b with
  | Some c => bool_decide (c ∈ l)
  | None => false
  end.

Definition exec_jump_if_gt_i64_slots (lhs_slot rhs_slot target : nat) (s : Vm)
    : DispatchAction :=
  match slot_i64 (frame s) lhs_slot, slot_i64 (frame s) rhs_slot with
  | Some lhs, Some rhs => jump_if (i64_cmp Gt lhs rhs) target s
  | _, _ =>
      read_slot (load_i64_slot_for_jump (frame s) lhs_slot) lhs_slot s [] (fun lhs =>
      read_slot (load_i64_slot_for_jump (frame s) rhs_slot) rhs_slot s [] (fun rhs =>
        jump_if (i64_cmp Gt lhs rhs) target s))
  end.

(** [AddConstI64SlotAndJumpIfLe]: the general path (the fast path of the
    source is this one with both slots [I64] and distinct). *)
Definition exec_add_const_and_jump_if_le (slot : nat) (delta : Z) (stop_slot target : nat)
    (s : Vm) : DispatchAction :=
  let general :=
    match locals_slots (frame s) !! slot with
    | Some (Some (Value.I64 current)) =>
        let updated := wrap_s 64 (current + delta) in
        match store_slot (frame s) slot (Value.I64 updated) with
        | Some f =>
            let s := set_frame f s in
            read_slot (load_i64_slot_for_jump (frame s) stop_slot) stop_slot s [] (fun stop =>
              jump_if (i64_cmp Le updated stop) target s)
        | None => Fault InternalError
        end
    | Some (Some _) => Fault InternalError
    | Some None => Raise (UndefVarError (slot_name_for_frame (frame s) slot)) s []
    | None => Fault InternalError
    end in
  if decide (slot = stop_slot) then general
  else
    match slot_i64 (frame s) stop_slot, slot_i64 (frame s) slot with
    | Some stop, Some current =>
        let updated := wrap_s 64 (current + delta) in
        match store_slot (frame s) slot (Value.I64 updated) with
        | Some f => jump_if (i64_cmp Le updated stop) target (set_frame f s)
        | None => Fault InternalError
        end
    | _, _ => general
    end.

Definition execute_jump (instr : Instr) (s : Vm) : DispatchAction :=
  match instr with
  | Jump target => jump_to target s
  | JumpIfZero target => exec_jump_if_zero target s
  | JumpIfNeI64 target => jump_cmp_i64 Ne target s
  | JumpIfEqI64 target => jump_cmp_i64 Eq target s
  | JumpIfLtI64 target => jump_cmp_i64 Lt target s
  | JumpIfGtI64 target => jump_cmp_i64 Gt target s
  | JumpIfGtI64Slots lhs rhs target => exec_jump_if_gt_i64_slots lhs rhs target s
  | AddConstI64SlotAndJumpIfLe slot delta stop target =>
      exec_add_const_and_jump_if_le slot delta stop target s
  | JumpIfLeI64 target => jump_cmp_i64 Le target s
  | JumpIfGeI64 target => jump_cmp_i64 Ge target s
  | JumpIfEqF64 target => jump_f64 f64_eqb target s
  | JumpIfNeF64 target => jump_f64 (fun a b => negb (f64_eqb a b)) target s
  | JumpIfNotLtF64 target =>
      jump_f64 (fun a b => negb (ordering_in [Datatypes.Lt] a b)) target s
  | JumpIfNotGtF64 target =>
      jump_f64 (fun a b => negb (ordering_in [Datatypes.Gt] a b)) target s
  | JumpIfNotLeF64 target =>
      jump_f64 (fun a b => negb (ordering_in [Datatypes.Lt; Datatypes.Eq] a b)) target s
  | JumpIfNotGeF64 target =>
      jump_f64 (fun a b => negb (ordering_in [Datatypes.Gt; Datatypes.Eq] a b)) target s
  | JumpIfCmpI64SlotConst slot konst cmp target =>
      read_slot (load_i64_slot_for_jump (frame s) slot) slot s [] (fun a =>
        jump_if (i64_cmp cmp a konst) target s)
  | _ => unhandled
  end.

(** *** Locals by name *)

Definition exec_load_i64 (name : string) (s : Vm) : DispatchAction :=
  match i64_value_from_current_or_global_frame s name with
  | Some v => Continue (push (Value.I64 v) s)
  | None => Raise (UndefVarError name) s []
  end.

Definition exec_store_i64 (name : string) (s : Vm) : DispatchAction :=
  pop_i64 s (fun v s => store_any name (Value.I64 v) s).

Definition exec_load_f64 (name : string) (s : Vm) : DispatchAction :=
  match f64_value_from_current_or_global_frame s name with
  | Some v => Continue (push (Value.F64 v) s)
  | None => Raise (UndefVarError name) s []
  end.

Definition exec_store_f64 (name : string) (s : Vm) : DispatchAction :=
  pop_f64_or_i64 s (fun v s => store_any name (Value.F64 v) s).

(** [LoadAddI64], [LoadSubI64], [LoadMulI64]. *)
Definition exec_load_op_i64 (op : Z -> Z -> Z) (name : string) (s : Vm) : DispatchAction :=
  match i64_value_from_current_or_global_frame s name with
  | Some var =>
      pop_i64 s (fun stack_val s =>
        Continue (push (Value.I64 (wrap_s 64 (op stack_val var))) s))
  | None => Raise (UndefVarError name) s []
  end.

Definition exec_load_mod_i64 (name : string) (s : Vm) : DispatchAction :=
  match i64_value_from_current_or_global_frame s name with
  | Some var =>
      pop_i64 s (fun stack_val s =>
        if bool_decide (var = 0%Z) then Raise DivisionByZero s []
        else Continue (push (Value.I64 (wrap_s 64 (Z.rem stack_val var))) s))
  | None => Raise (UndefVarError name) s []
  end.

(** [IncVarI64] and [DecVarI64]: in place in the current frame, else in the
    main frame. *)
Definition exec_update_var_i64 (op : Z -> Z -> Z) (name : string) (s : Vm) : DispatchAction :=
  pop_i64 s (fun amount s =>
    match local_i64 (frame s) name with
    | Some v => store_any name (Value.I64 (wrap_s 64 (op v amount))) s
    | None =>
        match global_frame s with
        | Some g =>
            match local_i64 g name with
            | Some v =>
                let v' := Value.I64 (wrap_s 64 (op v amount)) in
                Continue (set_global (Some (set_any (<[name := v']> (locals_any g)) g)) s)
            | None => Raise (UndefVarError name) s []
            end
        | None => Raise (UndefVarError name) s []
        end
    end).

(** *** Locals by slot *)

(** [LoadSlot], with its look-ahead at [DupF64; MulF64] and at [MulF64]. *)
Definition exec_load_slot (slot : nat) (s : Vm) : DispatchAction :=
  let plain :=
    match mjoin (locals_slots (frame s) !! slot) with
    | Some v => Continue (push v s)
    | None => Raise (UndefVarError (slot_name_for_frame (frame s) slot)) s []
    end in
  match slot_exact_f64 (frame s) slot with
  | Some x =>
      match code !! ip s, code !! S (ip s), stack s with
      | Some DupF64, Some MulF64, _ =>
          Continue (set_ip (ip s + 2) (push (Value.F64 (f64_mul x x)) s))
      | Some MulF64, _, Value.F64 y :: st =>
          Continue (set_ip (S (ip s)) (set_stack (Value.F64 (f64_mul y x) :: st) s))
      | _, _, _ => plain
      end
  | None => plain
  end.

(** [LoadSlotArray], [LoadSlotTuple] and the other loads of one variant: the
    slot's value as it is, whatever its variant; [LoadSlotStr] and
    [LoadSlotSymbol] insist on theirs. *)
Definition exec_load_slot_heap (accepts : value -> bool) (slot : nat) (s : Vm) : DispatchAction :=
  match locals_slots (frame s) !! slot with
  | Some (Some v) => if accepts v then Continue (push v s) else Fault InternalError
  | Some None => Raise (UndefVarError (slot_name_for_frame (frame s) slot)) s []
  | None => Fault InternalError
  end.

Definition is_heap (kind : HeapKind) (v : value) : bool :=
  match v with
  | Value.Heap k _ => bool_decide (k = kind)
  | _ => false
  end.

Definition exec_take_slot (slot : nat) (s : Vm) : DispatchAction :=
  match mjoin (locals_slots (frame s) !! slot) with
  | Some v =>
      Continue (push v (set_frame
        (set_slots (<[slot := None]> (locals_slots (frame s))) (frame s)) s))
  | None => Raise (UndefVarError (slot_name_for_frame (frame s) slot)) s []
  end.

(** [StoreSlot]; a [Struct] is moved to the struct heap, which is outside the
    model. *)
Definition exec_store_slot (slot : nat) (s : Vm) : DispatchAction :=
  match stack s with
  | Value.Heap HStruct _ :: _ => External (StoreSlot slot) s
  | _ => pop_value s (fun v s => store_slot_or_fault slot v s)
  end.

Definition exec_load_slot_i64 (slot : nat) (s : Vm) : DispatchAction :=
  read_slot (read_numeric (frame s) slot) slot s [] (fun v => Continue (push v s)).

Definition exec_load_slot_i64_to_f64 (slot : nat) (s : Vm) : DispatchAction :=
  read_slot (read_numeric (frame s) slot) slot s [] (fun v =>
    match convert_to_f64 v with
    | Ok x => Continue (push (Value.F64 x) s)
    | Err e => Fault e
    end).

Definition exec_store_slot_i64 (slot : nat) (s : Vm) : DispatchAction :=
  pop_i64 s (fun v s => store_slot_or_fault slot (Value.I64 v) s).

(** [LoadSlotF64] without its look-ahead: [F16] and [F32] values are pushed
    as they are. *)
Definition load_slot_f64_plain (slot : nat) (s : Vm) : DispatchAction :=
  match slot_f64 (frame s) slot with
  | Some v => Continue (push (Value.F64 v) s)
  | None =>
      match locals_slots (frame s) !! slot with
      | Some (Some (Value.F64 v)) => Continue (push (Value.F64 v) s)
      | Some (Some (Value.F16 x)) => Continue (push (Value.F16 x) s)
      | Some (Some (Value.F32 x)) => Continue (push (Value.F32 x) s)
      | Some (Some v) =>
          match slot_value_as_f64 v with
          | Ok x => Continue (push (Value.F64 x) s)
          | Err _ => Fault InternalError
          end
      | Some None => Raise (UndefVarError (slot_name_for_frame (frame s) slot)) s []
      | None => Fault InternalError
      end
  end.

(** [LoadSlotF64] with its look-aheads at a dynamic addition and at
    [DupF64; MulF64]. *)
Definition exec_load_slot_f64 (slot : nat) (s : Vm) : DispatchAction :=
  match code !! ip s, code !! S (ip s) with
  | Some (CallDynamicBinaryBoth DynamicAdd _), _ =>
      match slot_f64_for_op (frame s) slot, stack s with
      | Got x, Value.F64 y :: st =>
          Continue (set_ip (S (ip s)) (set_stack (Value.F64 (f64_add y x) :: st) s))
      | Bad e, _ => Fault e
      | _, _ => load_slot_f64_plain slot s
      end
  | Some DupF64, Some MulF64 =>
      read_slot (slot_f64_for_op (frame s) slot) slot s [] (fun x =>
        Continue (set_ip (ip s + 2) (push (Value.F64 (f64_mul x x)) s)))
  | _, _ => load_slot_f64_plain slot s
  end.

Definition exec_store_slot_f64 (slot : nat) (s : Vm) : DispatchAction :=
  pop_f64_or_i64 s (fun v s => store_slot_or_fault slot (Value.F64 v) s).

Definition exec_load_square_f64_slot (slot : nat) (s : Vm) : DispatchAction :=
  read_slot (slot_f64_for_op (frame s) slot) slot s [] (fun x =>
    Continue (push (Value.F64 (f64_mul x x)) s)).

(** [LoadAddF64Slot], [LoadSubF64Slot], [LoadMulF64Slot], [LoadDivF64Slot]. *)
Definition exec_load_op_f64_slot (op : f64 -> f64 -> f64) (slot : nat) (s : Vm)
    : DispatchAction :=
  read_slot (slot_f64_for_op (frame s) slot) slot s [] (fun x =>
    pop_f64_or_i64 s (fun y s => Continue (push (Value.F64 (op y x)) s))).

(** [AddF64Slots] and [AddF64I64Slots]. *)
Definition exec_add_f64_slots (dst lhs rhs : nat) (s : Vm) : DispatchAction :=
  read_slot (slot_f64_for_op (frame s) lhs) lhs s [] (fun x =>
  read_slot (slot_f64_for_op (frame s) rhs) rhs s [] (fun y =>
    store_slot_or_fault dst (Value.F64 (f64_add x y)) s)).

Definition exec_load_slot_bool (slot : nat) (s : Vm) : DispatchAction :=
  match locals_slots (frame s) !! slot with
  | Some (Some (Value.Bool b)) => Continue (push (Value.Bool b) s)
  | Some (Some _) => Fault InternalError
  | Some None => Raise (UndefVarError (slot_name_for_frame (frame s) slot)) s []
  | None => Fault InternalError
  end.

Definition exec_store_slot_bool (slot : nat) (s : Vm) : DispatchAction :=
  pop_bool s (fun b s => store_slot_or_fault slot (Value.Bool b) s).

(** [LoadAddI64Slot], [LoadSubI64Slot], [LoadMulI64Slot]. *)
Definition exec_load_op_i64_slot (op : FusedOp) (slot : nat) (s : Vm) : DispatchAction :=
  match mjoin (locals_slots (frame s) !! slot) with
  | Some v =>
      pop_value s (fun stack_value s =>
        match fused_integer_slot_op v stack_value op with
        | Some r => Continue (push r s)
        | None => Fault TypeError
        end)
  | None => Raise (UndefVarError (slot_name_for_frame (frame s) slot)) s []
  end.

Definition exec_load_mod_i64_slot (slot : nat) (s : Vm) : DispatchAction :=
  match mjoin (locals_slots (frame s) !! slot) with
  | Some v =>
      if is_zero_value v then Raise DivisionByZero s []
      else exec_load_op_i64_slot FMod slot s
  | None => Raise (UndefVarError (slot_name_for_frame (frame s) slot)) s []
  end.

Definition exec_load_add_const_i64_slot (slot : nat) (delta : Z) (s : Vm) : DispatchAction :=
  match mjoin (locals_slots (frame s) !! slot) with
  | Some v =>
      match fused_integer_slot_op v (Value.I64 delta) FAdd with
      | Some r => Continue (push r s)
      | None => Fault TypeError
      end
  | None => Raise (UndefVarError (slot_name_for_frame (frame s) slot)) s []
  end.

(** The in-place update shared by [IncVarI64Slot], [DecVarI64Slot] and
    [AddConstI64Slot]. *)
Definition update_slot_i64 (upd : Z -> Z) (slot : nat) (s : Vm) : DispatchAction :=
  match locals_slots (frame s) !! slot with
  | Some (Some (Value.I64 v)) => store_slot_or_fault slot (Value.I64 (wrap_s 64 (upd v))) s
  | Some (Some _) => Fault InternalError
  | Some None => Raise (UndefVarError (slot_name_for_frame (frame s) slot)) s []
  | None => Fault InternalError
  end.

Definition exec_inc_var_i64_slot (slot : nat) (s : Vm) : DispatchAction :=
  pop_i64 s (fun increment s => update_slot_i64 (fun v => v + increment)%Z slot s).

Definition exec_add_const_i64_slot (slot : nat) (delta : Z) (s : Vm) : DispatchAction :=
  update_slot_i64 (fun v => v + delta)%Z slot s.

Definition exec_dec_var_i64_slot (slot : nat) (s : Vm) : DispatchAction :=
  pop_i64 s (fun decrement s => update_slot_i64 (fun v => v - decrement)%Z slot s).

Definition execute_locals (instr : Instr) (s : Vm) : DispatchAction :=
  match instr with
  | LoadI64 name => exec_load_i64 name s
  | StoreI64 name => exec_store_i64 name s
  | LoadF64 name => exec_load_f64 name s
  | StoreF64 name => exec_store_f64 name s
  | LoadSlot slot => exec_load_slot slot s
  | TakeSlot slot => exec_take_slot slot s
  | LoadSlotArray slot | LoadSlotTuple slot | LoadSlotNamedTuple slot | LoadSlotDict slot
  | LoadSlotSet slot | LoadSlotStruct slot | LoadSlotRange slot | LoadSlotRng slot
  | LoadSlotGenerator slot => exec_load_slot_heap (fun _ => true) slot s
  | LoadSlotStr slot => exec_load_slot_heap (is_heap HString) slot s
  | LoadSlotSymbol slot => exec_load_slot_heap (is_heap HSymbol) slot s
  | StoreSlot slot => exec_store_slot slot s
  | LoadSlotI64 slot => exec_load_slot_i64 slot s
  | LoadSlotI64ToF64 slot => exec_load_slot_i64_to_f64 slot s
  | StoreSlotI64 slot => exec_store_slot_i64 slot s
  | LoadSlotF64 slot => exec_load_slot_f64 slot s
  | StoreSlotF64 slot => exec_store_slot_f64 slot s
  | LoadSquareF64Slot slot => exec_load_square_f64_slot slot s
  | LoadAddF64Slot slot => exec_load_op_f64_slot f64_add slot s
  | AddF64Slots dst lhs rhs => exec_add_f64_slots dst lhs rhs s
  | AddF64I64Slots dst lhs rhs => exec_add_f64_slots dst lhs rhs s
  | LoadSubF64Slot slot => exec_load_op_f64_slot f64_sub slot s
  | LoadMulF64Slot slot => exec_load_op_f64_slot f64_mul slot s
  | LoadDivF64Slot slot => exec_load_op_f64_slot f64_div slot s
  | LoadSlotBool slot => exec_load_slot_bool slot s
  | StoreSlotBool slot => exec_store_slot_bool slot s
  | LoadAddI64 name => exec_load_op_i64 Z.add name s
  | LoadAddI64Slot slot => exec_load_op_i64_slot FAdd slot s
  | LoadAddConstI64Slot slot delta => exec_load_add_const_i64_slot slot delta s
  | LoadSubI64 name => exec_load_op_i64 Z.sub name s
  | LoadSubI64Slot slot => exec_load_op_i64_slot FSub slot s
  | LoadMulI64 name => exec_load_op_i64 Z.mul name s
  | LoadMulI64Slot slot => exec_load_op_i64_slot FMul slot s
  | LoadModI64 name => exec_load_mod_i64 name s
  | LoadModI64Slot slot => exec_load_mod_i64_slot slot s
  | IncVarI64 name => exec_update_var_i64 Z.add name s
  | IncVarI64Slot slot => exec_inc_var_i64_slot slot s
  | AddConstI64Slot slot delta => exec_add_const_i64_slot slot delta s
  | DecVarI64 name => exec_update_var_i64 Z.sub name s
  | DecVarI64Slot slot => exec_dec_var_i64_slot slot s
  | _ => External instr s
  end.

(** *** Returns: the value handed to the caller

    Who gets the value (a calling frame, a generator or broadcast driver, the
    host) and whether a final [ReturnStruct] or [ReturnMemory] accepts it is
    decided outside the activation; the instruction is kept for that. *)

(** [ReturnTuple], [ReturnNamedTuple], [ReturnMemory]. *)
Definition return_heap (kind : HeapKind) (e : VmError) (instr : Instr) (s : Vm) : DispatchAction :=
  pop_value s (fun v s => if is_heap kind v then ReturnOut instr v s else Fault e).

Definition execute_return (instr : Instr) (s : Vm) : DispatchAction :=
  match instr with
  | ReturnF64 => pop_f64_or_i64 s (fun x s => ReturnOut instr (Value.F64 x) s)
  | ReturnF32 | ReturnF16 => pop_value s (fun v s => ReturnOut instr v s)
  | ReturnI64 =>
      pop_value s (fun v s =>
        if is_integer_value v then ReturnOut instr v s else Fault InternalError)
  | ReturnAny | ReturnArray | ReturnStruct => pop_value s (fun v s => ReturnOut instr v s)
  | ReturnTuple => return_heap HTuple InternalError instr s
  | ReturnNamedTuple => return_heap HNamedTuple InternalError instr s
  | ReturnMemory => return_heap HMemory TypeError instr s
  | ReturnSet => pop_value s (fun _ _ => Fault TypeError)
  | ReturnNothing => ReturnOut instr Value.Nothing s
  | ReturnRng | ReturnRange | ReturnRef | ReturnDict =>
      ReturnOut instr (default Value.Nothing (head (stack s))) (set_stack (tl (stack s)) s)
  | _ => External instr s
  end.

(** *** Calls: the arguments handed to the callee *)

(** [load_i64_slot_specialize_args] and its F64 twin: on an undefined slot,
    the arguments read so far are pushed back after the raise. *)
Fixpoint load_slot_args (read : Frame -> nat -> SlotRead value) (slots : list nat)
    (acc : list value) (s : Vm) (k : list value -> DispatchAction) : DispatchAction :=
  match slots with
  | [] => k acc
  | slot :: rest =>
      read_slot (read (frame s) slot) slot s acc (fun v =>
        load_slot_args read rest (acc ++ [v]) s k)
  end.

(** The slot-argument calls: all slots typed, or the general path. *)
Definition exec_call_i64_slots (kind : CallKind) (f : nat) (slots : list nat) (s : Vm)
    : DispatchAction :=
  match mapM (slot_i64 (frame s)) slots with
  | Some zs => CallOut kind f (Value.I64 <$> zs) s
  | None => load_slot_args read_numeric slots [] s (fun args => CallOut kind f args s)
  end.

(** [load_f64_slot_specialize_arg]. *)
Definition read_f64_arg (f : Frame) (slot : nat) : SlotRead value :=
  match slot_f64 f slot with
  | Some v => Got (Value.F64 v)
  | None =>
      match locals_slots f !! slot with
      | Some (Some v) => if is_numeric_value v then Got v else Bad InternalError
      | Some None => Undef
      | None => Bad InternalError
      end
  end.

Definition exec_call_f64_slots (kind : CallKind) (f : nat) (slots : list nat) (s : Vm)
    : DispatchAction :=
  match mapM (slot_f64 (frame s)) slots with
  | Some xs => CallOut kind f (Value.F64 <$> xs) s
  | None => load_slot_args read_f64_arg slots [] s (fun args => CallOut kind f args s)
  end.

Definition execute_call (instr : Instr) (s : Vm) : DispatchAction :=
  match instr with
  | CallInbounds f argc => pop_args argc s [] (fun args s => CallOut (DirectCall true) f args s)
  | CallResolved f argc => pop_args argc s [] (fun args s => CallOut (DirectCall false) f args s)
  | CallResolvedI64Slots o => exec_call_i64_slots (DirectCall false) (func_index o) (cd_slots o) s
  | CallInboundsI64Slots o => exec_call_i64_slots (DirectCall true) (func_index o) (cd_slots o) s
  | CallSpecialize f argc =>
      pop_args argc s [] (fun args s => CallOut (SpecializeCall false) f args s)
  | CallSpecializeInbounds f argc =>
      pop_args argc s [] (fun args s => CallOut (SpecializeCall true) f args s)
  | CallSpecializeI64Slots o =>
      exec_call_i64_slots (SpecializeCall false) (spec_func_index o) (cs_slots o) s
  | CallSpecializeInboundsI64Slots o =>
      exec_call_i64_slots (SpecializeCall true) (spec_func_index o) (cs_slots o) s
  | CallSpecializeF64Slots o =>
      exec_call_f64_slots (SpecializeCall false) (spec_func_index o) (cs_slots o) s
  | CallSpecializeInboundsF64Slots o =>
      exec_call_f64_slots (SpecializeCall true) (spec_func_index o) (cs_slots o) s
  | CallBuiltin BuiltinFloat64 argc =>
      if bool_decide (argc = 1) then
        match stack s with
        | [] => Raise StackUnderflow s []
        | v :: st =>
            match convert_to_f64 v with
            | Ok x => Continue (push (Value.F64 x) (set_stack st s))
            | Err e => Raise e (set_stack st s) []
            end
        end
      else Raise MethodError s []
  | _ => External instr s
  end.

(** [dispatch_instr]: every instruction to the handler that owns it. *)
(** [CallDynamicBinaryBoth] on two [F64] operands or two [I64] operands of an
    addition; the dynamic dispatch for other operands is outside the model. *)
Definition execute_binary_both (op : Intrinsic) (candidates : list nat) (s : Vm) : DispatchAction :=
  match op, stack s with
  | DynamicAdd, Value.F64 b :: Value.F64 a :: st =>
      Continue (push (Value.F64 (f64_add a b)) (set_stack st s))
  | DynamicAdd, Value.I64 b :: Value.I64 a :: st =>
      Continue (push (Value.I64 (wrap_s 64 (a + b))) (set_stack st s))
  | _, _ => External (CallDynamicBinaryBoth op candidates) s
  end.

Definition dispatch_instr (instr : Instr) (s : Vm) : DispatchAction :=
  match instr with
  | PushI64 _ | PushF64 _ | PushBool _ | PushNothing | Pop | Swap => execute_stack instr s
  | AddI64 | SubI64 | MulI64 | ModI64 | IncI64 | NegI64 | DupI64 | DupF64 | Dup =>
      execute_i64_arithmetic instr s
  | AddF64 | SubF64 | MulF64 | DivF64 | NegF64 | AbsF64 | Abs2F64 =>
      execute_f64_arithmetic instr s
  | GtI64 | LtI64 | LeI64 | GeI64 | EqI64 | NeI64
  | LtF64 | GtF64 | LeF64 | GeF64 | EqF64 | NeF64 | SelectI64 | SelectF64 =>
      execute_comparison instr s
  | Jump _ | JumpIfZero _ | JumpIfNeI64 _ | JumpIfEqI64 _ | JumpIfLtI64 _ | JumpIfGtI64 _
  | JumpIfLeI64 _ | JumpIfGeI64 _ | JumpIfGtI64Slots _ _ _ | AddConstI64SlotAndJumpIfLe _ _ _ _
  | JumpIfEqF64 _ | JumpIfNeF64 _ | JumpIfNotLtF64 _ | JumpIfNotGtF64 _
  | JumpIfNotLeF64 _ | JumpIfNotGeF64 _ | JumpIfCmpI64SlotConst _ _ _ _ =>
      execute_jump instr s
  | ReturnI64 | ReturnF64 | ReturnF32 | ReturnF16 | ReturnArray | ReturnNothing | ReturnAny
  | ReturnRange | ReturnStruct | ReturnRng | ReturnTuple | ReturnNamedTuple | ReturnDict
  | ReturnSet | ReturnRef | ReturnMemory => execute_return instr s
  | CallInbounds _ _ | CallResolved _ _ | CallSpecialize _ _ | CallSpecializeInbounds _ _
  | CallResolvedI64Slots _ | CallInboundsI64Slots _ | CallSpecializeI64Slots _
  | CallSpecializeInboundsI64Slots _ | CallSpecializeF64Slots _
  | CallSpecializeInboundsF64Slots _ | CallBuiltin _ _ => execute_call instr s
  | CallDynamicBinaryBoth op candidates => execute_binary_both op candidates s
  | PushHandler _ _ | PopHandler | Other _ => External instr s
  | Nop => unhandled
  | _ => execute_locals instr s
  end.

(** One turn of the run loop: fetch, advance [ip], dispatch. A fetch past the
    end of the code is an index panic. *)
Definition step (s : Vm) : DispatchAction :=
  match code !! ip s with
  | Some instr => dispatch_instr instr (set_ip (S (ip s)) s)
  | None => Fault InternalError
  end.

(** The loop, until control leaves the activation; [None] when the fuel runs
    out first. *)
Fixpoint run (fuel : nat) (s : Vm) : option DispatchAction :=
  match fuel with
  | 0 => None
  | S fuel =>
      match step s with
      | Continue s' => run fuel s'
      | out => Some out
      end
  end.
End Handlers.

(** ** A whole activation

    The machine hands calls and the instructions outside the model to an
    environment.  [call_returns] is the state in which the activation goes on
    when the callee has returned, [external_step] the one after an instruction
    of another handler; [None] when control does not come back (an error that
    no handler of this activation catches, the end of the program). *)

Record Environment := {
  call_returns : CallKind -> nat -> list value -> Vm -> option Vm;
  external_step : Instr -> Vm -> option Vm
}.

Definition resume (env : Environment) (a : DispatchAction) : option Vm :=
  match a with
  | CallOut kind f args s => call_returns env kind f args s
  | External i s => external_step env i s
  | _ => None
  end.

(** Nothing comes back. *)
Definition no_environment : Environment :=
  {| call_returns := fun _ _ _ _ => None; external_step := fun _ _ => None |}.

Fixpoint activation `{ExternalConversions} (env : Environment) (code : list Instr) (fuel : nat) (s : Vm)
    : option DispatchAction :=
  match fuel with
  | 0 => None
  | S fuel =>
      match step code s with
      | Continue s' => activation env code fuel s'
      | out =>
          match resume env out with
          | Some s' => activation env code fuel s'
          | None => Some out
          end
      end
  end.

(** ** Exception handlers (exec/error_handling.rs, state.rs)

    [PushHandler] records where to go and how deep the operand stack is;
    [handle_error] unwinds to the innermost handler.  The handler is one of the
    same activation here, so the frame and return stacks keep their length. *)

Record Handler := {
  catch_ip : option nat;
  finally_ip : option nat;
  stack_len : nat
}.

Definition push_handler (catch_addr finally_addr : option nat) (s : Vm) : Handler :=
  {| catch_ip := catch_addr; finally_ip := finally_addr; stack_len := length (stack s) |}.

(** [handle_error] for a handler that has just been popped: [None] when the
    handler has no address and the error goes on. *)
Definition handle_error (h : Handler) (s : Vm) : option Vm :=
  let s := set_stack (truncate (stack_len h) (stack s)) s in
  match catch_ip h with
  | Some addr => Some (set_ip addr s)
  | None =>
      match finally_ip h with
      | Some addr => Some (set_ip addr s)
      | None => None
      end
  end.

(** The machine after a raise with handler [h] innermost: the handler's state,
    then what the raising instruction pushes. *)
Definition raise_into (h : Handler) (a : DispatchAction) : option Vm :=
  match a with
  | Raise _ s pushed =>
      s ← handle_error h s;
      Some (set_stack (rev pushed ++ stack s) s)
  | _ => None
  end.
