(* ===== verification/Peephole.v ===== *)
(** * The peephole optimizer

    subset_julia_vm_bytecode/src/peephole.rs: the fusion rules of
    [try_fuse_at] in source order, the two passes of [optimize_impl] that build
    the address map and the fused code, the straight-line Int64 CSE, the
    adjacent-duplicate-load rewrite and the destructive-load rewrite. *)

From stdpp Require Export gmap fin_sets.
From S2P Require Export Machine.

(** [MainStoreProtection]: main-frame slots whose store must survive. *)
Record MainStoreProtection := {
  main_entry : nat;
  protected_slots : gset nat
}.

Definition collect_jump_targets (code : list Instr) : gset nat :=
  list_to_set (code ≫= jump_targets).

(** [update_jump_target]: addresses beyond the map are kept. *)
Definition update_jump_target (instr : Instr) (old_to_new : list nat) : Instr :=
  map_targets (fun old_addr => default old_addr (old_to_new !! old_addr)) instr.

(** ** Fusion rules

    A rule looks at the code from position [i] on and answers with the fused
    instruction and the number of instructions it consumes. *)

Section Rules.
Variable code : list Instr.

(** The run of [LoadSlotI64] (or [LoadSlotF64]) at [cursor]; [fuel] bounds
    the scan by the code length. *)
Fixpoint load_run (is_load : Instr -> option nat) (fuel cursor : nat) : list nat :=
  match fuel with
  | 0 => []
  | S fuel =>
      match code !! cursor ≫= is_load with
      | Some slot => slot :: load_run is_load fuel (S cursor)
      | None => []
      end
  end.

Definition load_slot_i64_of (i : Instr) : option nat :=
  match i with LoadSlotI64 slot => Some slot | _ => None end.
Definition load_slot_f64_of (i : Instr) : option nat :=
  match i with LoadSlotF64 slot => Some slot | _ => None end.

Definition try_fuse_f64_slot_arg_call (i : nat) : option (Instr * nat) :=
  let slots := load_run load_slot_f64_of (length code) i in
  let n := length slots in
  if bool_decide (slots = []) then None
  else
    match code !! (i + n) with
    | Some (CallSpecialize f argc) =>
        if bool_decide (argc = n) then
          Some (CallSpecializeF64Slots {| spec_func_index := f; cs_slots := slots |}, n + 1)
        else None
    | Some (CallSpecializeInbounds f argc) =>
        if bool_decide (argc = n) then
          Some (CallSpecializeInboundsF64Slots {| spec_func_index := f; cs_slots := slots |}, n + 1)
        else None
    | _ => None
    end.

Definition try_fuse_slot_arg_call (i : nat) : option (Instr * nat) :=
  let slots := load_run load_slot_i64_of (length code) i in
  let n := length slots in
  if bool_decide (slots = []) then try_fuse_f64_slot_arg_call i
  else
    match code !! (i + n) with
    | Some (CallSpecialize f argc) =>
        if bool_decide (argc = n) then
          Some (CallSpecializeI64Slots {| spec_func_index := f; cs_slots := slots |}, n + 1)
        else None
    | Some (CallSpecializeInbounds f argc) =>
        if bool_decide (argc = n) then
          Some (CallSpecializeInboundsI64Slots {| spec_func_index := f; cs_slots := slots |}, n + 1)
        else None
    | Some (CallResolved f argc) =>
        if bool_decide (argc = n) then
          Some (CallResolvedI64Slots {| func_index := f; cd_slots := slots |}, n + 1)
        else None
    | Some (CallInbounds f argc) =>
        if bool_decide (argc = n) then
          Some (CallInboundsI64Slots {| func_index := f; cd_slots := slots |}, n + 1)
        else None
    | _ => None
    end.

Definition fuse_float64_conversion (i : nat) : option (Instr * nat) :=
  match code !! i, code !! (i + 1) with
  | Some (LoadSlotI64 slot), Some (CallBuiltin BuiltinFloat64 1) =>
      Some (LoadSlotI64ToF64 slot, 2)
  | _, _ => None
  end.

(** [body_updates_i64_slot] *)
Definition is_slot_update (slot : nat) (i : Instr) : bool :=
  match i with
  | AddConstI64Slot u _ | IncVarI64Slot u | DecVarI64Slot u
  | AddConstI64SlotAndJumpIfLe u _ _ _ => bool_decide (u = slot)
  | _ => false
  end.

Definition body_updates_i64_slot (body : list Instr) (slot : nat) : bool :=
  existsb (is_slot_update slot) body
  || any_window 2 (fun w =>
       match w with
       | [PushI64 _; IncVarI64Slot u] | [PushI64 _; DecVarI64Slot u] => bool_decide (u = slot)
       | _ => false
       end) body
  || any_window 3 (fun w =>
       match w with
       | [LoadSlotI64 l; AddI64; StoreSlotI64 st] | [LoadSlotI64 l; SubI64; StoreSlotI64 st] =>
           bool_decide (l = slot) && bool_decide (st = slot)
       | _ => false
       end) body
  || any_window 4 (fun w =>
       match w with
       | [LoadSlotI64 l; PushI64 _; AddI64; StoreSlotI64 st]
       | [LoadSlotI64 l; PushI64 _; SubI64; StoreSlotI64 st] =>
           bool_decide (l = slot) && bool_decide (st = slot)
       | _ => false
       end) body.

Definition gt_slot_branch_fusion_is_profitable (body_start target lhs_slot : nat) : bool :=
  bool_decide (body_start < target) && bool_decide (target <= length code)
  && body_updates_i64_slot (take (target - body_start) (drop body_start code)) lhs_slot.

Definition fuse_gt_slots (i : nat) : option (Instr * nat) :=
  match code !! i, code !! (i + 1), code !! (i + 2) with
  | Some (LoadSlotI64 lhs), Some (LoadSlotI64 rhs), Some (JumpIfGtI64 target) =>
      if gt_slot_branch_fusion_is_profitable (i + 3) target lhs then
        Some (JumpIfGtI64Slots lhs rhs target, 3)
      else None
  | _, _, _ => None
  end.

(** [counted_loop_tail]: slot, positive step, loop header, consumed. *)
Definition counted_loop_tail (i : nat) : option (nat * Z * nat * nat) :=
  match code !! i, code !! (i + 1), code !! (i + 2), code !! (i + 3), code !! (i + 4) with
  | Some (AddConstI64Slot slot delta), Some (Jump header), _, _, _ =>
      if (0 <? delta)%Z then Some (slot, delta, header, 2) else None
  | Some (PushI64 delta), Some (IncVarI64Slot slot), Some (Jump header), _, _ =>
      if (0 <? delta)%Z then Some (slot, delta, header, 3) else None
  | Some (LoadSlotI64 slot), Some (PushI64 delta), Some AddI64, Some (StoreSlotI64 store_slot),
    Some (Jump header) =>
      if (0 <? delta)%Z && bool_decide (store_slot = slot)
      then Some (slot, delta, header, 5) else None
  | _, _, _, _, _ => None
  end.

Definition try_fuse_counted_loop_backedge (i : nat) : option (Instr * nat) :=
  match counted_loop_tail i with
  | Some (slot, delta, header, consumed) =>
      if bool_decide (i <= header) then None
      else if bool_decide (length code <= header + 1) then None
      else
        match code !! header, code !! (header + 1), code !! (header + 2) with
        | Some (JumpIfGtI64Slots lhs stop exit), _, _ =>
            if bool_decide (lhs = slot) && bool_decide (exit = i + consumed) then
              Some (AddConstI64SlotAndJumpIfLe slot delta stop (header + 1), consumed)
            else None
        | Some (LoadSlotI64 lhs), Some (LoadSlotI64 stop), Some (JumpIfGtI64 exit) =>
            if bool_decide (lhs = slot) && bool_decide (exit = i + consumed) then
              Some (AddConstI64SlotAndJumpIfLe slot delta stop (header + 3), consumed)
            else None
        | _, _, _ => None
        end
  | None => None
  end.

(** Pattern 0: a stored constant consumed by an immediate return. *)
Definition is_protected_store (protection : option MainStoreProtection) (i slot : nat) : bool :=
  match protection with
  | Some p => bool_decide (main_entry p <= i) && bool_decide (slot ∈ protected_slots p)
  | None => false
  end.

Definition fuse_store_return (protection : option MainStoreProtection) (i : nat)
    : option (Instr * nat) :=
  match code !! i, code !! (i + 1), code !! (i + 2), code !! (i + 3) with
  | Some (PushI64 v), Some (StoreSlotI64 st), Some (LoadAddConstI64Slot ld delta),
    Some ReturnI64 =>
      if bool_decide (st = ld) && negb (is_protected_store protection i st) then
        Some (PushI64 (wrap_s 64 (v + delta)), 3)
      else None
  | _, _, _, _ => None
  end.

Definition fuse_store_op_return (protection : option MainStoreProtection) (i : nat)
    : option (Instr * nat) :=
  match code !! i, code !! (i + 1), code !! (i + 2), code !! (i + 3), code !! (i + 4),
        code !! (i + 5) with
  | Some (PushI64 v), Some (StoreSlotI64 st), Some (LoadSlotI64 ld), Some (PushI64 delta),
    Some op, Some ReturnI64 =>
      if bool_decide (st = ld) && negb (is_protected_store protection i st) then
        match op with
        | AddI64 => Some (PushI64 (wrap_s 64 (v + delta)), 5)
        | SubI64 => Some (PushI64 (wrap_s 64 (v - delta)), 5)
        | _ => None
        end
      else None
  | _, _, _, _, _, _ => None
  end.

(** Pattern 0a: constant slot increment or decrement. *)
Definition fuse_const_update (i : nat) : option (Instr * nat) :=
  match code !! i, code !! (i + 1) with
  | Some (PushI64 delta), Some (IncVarI64Slot slot) => Some (AddConstI64Slot slot delta, 2)
  | Some (PushI64 delta), Some (DecVarI64Slot slot) =>
      Some (AddConstI64Slot slot (wrap_s 64 (- delta)), 2)
  | _, _ => None
  end.

(** Constant folding. *)
Definition fuse_const_i64 (i : nat) : option (Instr * nat) :=
  match code !! i, code !! (i + 1), code !! (i + 2) with
  | Some (PushI64 a), Some (PushI64 b), Some op =>
      match op with
      | AddI64 => Some (PushI64 (wrap_s 64 (a + b)), 3)
      | SubI64 => Some (PushI64 (wrap_s 64 (a - b)), 3)
      | MulI64 => Some (PushI64 (wrap_s 64 (a * b)), 3)
      | ModI64 =>
          if bool_decide (b = 0%Z) then None
          else Some (PushI64 (wrap_s 64 (Z.rem a b)), 3)
      | _ => None
      end
  | _, _, _ => None
  end.

Definition fuse_const_f64 (i : nat) : option (Instr * nat) :=
  match code !! i, code !! (i + 1), code !! (i + 2) with
  | Some (PushF64 a), Some (PushF64 b), Some op =>
      match op with
      | AddF64 => Some (PushF64 (f64_add a b), 3)
      | SubF64 => Some (PushF64 (f64_sub a b), 3)
      | MulF64 => Some (PushF64 (f64_mul a b), 3)
      | DivF64 => Some (PushF64 (f64_div a b), 3)
      | _ => None
      end
  | _, _, _ => None
  end.

(** Patterns 1 and 2: named variables. *)
Definition fuse_named_update (i : nat) : option (Instr * nat) :=
  match code !! i, code !! (i + 1), code !! (i + 2) with
  | Some (LoadI64 name), Some AddI64, Some (StoreI64 store_name) =>
      if bool_decide (store_name = name) then Some (IncVarI64 name, 3) else None
  | Some (LoadI64 name), Some SubI64, Some (StoreI64 store_name) =>
      if bool_decide (store_name = name) then Some (DecVarI64 name, 3) else None
  | _, _, _ => None
  end.

Definition fuse_named_load_op (i : nat) : option (Instr * nat) :=
  match code !! i, code !! (i + 1) with
  | Some (LoadI64 name), Some AddI64 => Some (LoadAddI64 name, 2)
  | Some (LoadI64 name), Some SubI64 => Some (LoadSubI64 name, 2)
  | Some (LoadI64 name), Some MulI64 => Some (LoadMulI64 name, 2)
  | Some (LoadI64 name), Some ModI64 => Some (LoadModI64 name, 2)
  | _, _ => None
  end.

(** Pattern 2b-cmp: slot against constant, compare and branch. *)
Definition direct_jump (i : Instr) : option (I64Cmp * nat) :=
  match i with
  | JumpIfLtI64 t => Some (Lt, t)
  | JumpIfGtI64 t => Some (Gt, t)
  | JumpIfLeI64 t => Some (Le, t)
  | JumpIfGeI64 t => Some (Ge, t)
  | JumpIfEqI64 t => Some (Eq, t)
  | JumpIfNeI64 t => Some (Ne, t)
  | _ => None
  end.

Definition inverted_cmp (i : Instr) : option I64Cmp :=
  match i with
  | LtI64 => Some Ge
  | GtI64 => Some Le
  | LeI64 => Some Gt
  | GeI64 => Some Lt
  | EqI64 => Some Ne
  | NeI64 => Some Eq
  | _ => None
  end.

Definition fuse_cmp_const_direct (i : nat) : option (Instr * nat) :=
  match code !! i, code !! (i + 1), code !! (i + 2) with
  | Some (LoadSlotI64 slot), Some (PushI64 konst), Some jump =>
      match direct_jump jump with
      | Some (cmp, target) => Some (JumpIfCmpI64SlotConst slot konst cmp target, 3)
      | None => None
      end
  | _, _, _ => None
  end.

Definition fuse_cmp_const_zero (i : nat) : option (Instr * nat) :=
  match code !! i, code !! (i + 1), code !! (i + 2), code !! (i + 3) with
  | Some (LoadSlotI64 slot), Some (PushI64 konst), Some cmp_instr, Some (JumpIfZero target) =>
      match inverted_cmp cmp_instr with
      | Some cmp => Some (JumpIfCmpI64SlotConst slot konst cmp target, 4)
      | None => None
      end
  | _, _, _, _ => None
  end.

(** Pattern 2b: slotized Int64 load-op-store and load-op. *)
Definition fuse_slot_const_update (i : nat) : option (Instr * nat) :=
  match code !! i, code !! (i + 1), code !! (i + 2), code !! (i + 3) with
  | Some (LoadSlotI64 slot), Some (PushI64 delta), Some AddI64, Some (StoreSlotI64 st) =>
      if bool_decide (st = slot) then Some (AddConstI64Slot slot delta, 4) else None
  | Some (LoadSlotI64 slot), Some (PushI64 delta), Some SubI64, Some (StoreSlotI64 st) =>
      if bool_decide (st = slot)
      then Some (AddConstI64Slot slot (wrap_s 64 (- delta)), 4) else None
  | _, _, _, _ => None
  end.

Definition fuse_slot_const_op (i : nat) : option (Instr * nat) :=
  match code !! i, code !! (i + 1), code !! (i + 2) with
  | Some (LoadSlotI64 slot), Some (PushI64 delta), Some AddI64 =>
      Some (LoadAddConstI64Slot slot delta, 3)
  | Some (LoadSlotI64 slot), Some (PushI64 delta), Some SubI64 =>
      Some (LoadAddConstI64Slot slot (wrap_s 64 (- delta)), 3)
  | _, _, _ => None
  end.

Definition fuse_slot_update (i : nat) : option (Instr * nat) :=
  match code !! i, code !! (i + 1), code !! (i + 2) with
  | Some (LoadSlotI64 slot), Some AddI64, Some (StoreSlotI64 st) =>
      if bool_decide (st = slot) then Some (IncVarI64Slot slot, 3) else None
  | Some (LoadSlotI64 slot), Some SubI64, Some (StoreSlotI64 st) =>
      if bool_decide (st = slot) then Some (DecVarI64Slot slot, 3) else None
  | _, _, _ => None
  end.

Definition fuse_slot_load_op (i : nat) : option (Instr * nat) :=
  match code !! i, code !! (i + 1) with
  | Some (LoadSlotI64 slot), Some AddI64 => Some (LoadAddI64Slot slot, 2)
  | Some (LoadSlotI64 slot), Some SubI64 => Some (LoadSubI64Slot slot, 2)
  | Some (LoadSlotI64 slot), Some MulI64 => Some (LoadMulI64Slot slot, 2)
  | Some (LoadSlotI64 slot), Some ModI64 => Some (LoadModI64Slot slot, 2)
  | _, _ => None
  end.

(** Pattern 2c: slotized Float64. *)
Definition fuse_f64_slots (i : nat) : option (Instr * nat) :=
  match code !! i with
  | Some (LoadSlotF64 slot) =>
      match (match code !! (i + 1) with
             | Some (LoadSlotF64 rhs) => Some (rhs, false, 2)
             | Some (LoadSlotI64ToF64 rhs) => Some (rhs, true, 2)
             | Some (LoadSlotI64 rhs) =>
                 match code !! (i + 2) with
                 | Some (CallBuiltin BuiltinFloat64 1) => Some (rhs, true, 3)
                 | _ => None
                 end
             | _ => None
             end) with
      | Some (rhs, is_i64, add_offset) =>
          match code !! (i + add_offset), code !! (i + add_offset + 1) with
          | Some AddF64, Some (StoreSlotF64 dst) =>
              Some (if is_i64 : bool then AddF64I64Slots dst slot rhs
                    else AddF64Slots dst slot rhs, add_offset + 2)
          | _, _ => None
          end
      | None => None
      end
  | _ => None
  end.

Definition fuse_f64_square (i : nat) : option (Instr * nat) :=
  match code !! i, code !! (i + 1), code !! (i + 2) with
  | Some (LoadSlotF64 slot), Some DupF64, Some MulF64 => Some (LoadSquareF64Slot slot, 3)
  | Some (LoadSlotF64 slot), Some (LoadSlotF64 rhs), Some MulF64 =>
      if bool_decide (rhs = slot) then Some (LoadSquareF64Slot slot, 3) else None
  | _, _, _ => None
  end.

Definition fuse_f64_load_op (i : nat) : option (Instr * nat) :=
  match code !! i, code !! (i + 1) with
  | Some (LoadSlotF64 slot), Some AddF64 => Some (LoadAddF64Slot slot, 2)
  | Some (LoadSlotF64 slot), Some SubF64 => Some (LoadSubF64Slot slot, 2)
  | Some (LoadSlotF64 slot), Some MulF64 => Some (LoadMulF64Slot slot, 2)
  | Some (LoadSlotF64 slot), Some DivF64 => Some (LoadDivF64Slot slot, 2)
  | _, _ => None
  end.

(** Pattern 3: compare and [JumpIfZero]. *)
Definition fuse_cmp_jump (i : nat) : option (Instr * nat) :=
  match code !! i, code !! (i + 1) with
  | Some NeI64, Some (JumpIfZero addr) => Some (JumpIfEqI64 addr, 2)
  | Some EqI64, Some (JumpIfZero addr) => Some (JumpIfNeI64 addr, 2)
  | Some LtI64, Some (JumpIfZero addr) => Some (JumpIfGeI64 addr, 2)
  | Some GtI64, Some (JumpIfZero addr) => Some (JumpIfLeI64 addr, 2)
  | Some LeI64, Some (JumpIfZero addr) => Some (JumpIfGtI64 addr, 2)
  | Some GeI64, Some (JumpIfZero addr) => Some (JumpIfLtI64 addr, 2)
  | Some NeF64, Some (JumpIfZero addr) => Some (JumpIfEqF64 addr, 2)
  | Some EqF64, Some (JumpIfZero addr) => Some (JumpIfNeF64 addr, 2)
  | Some LtF64, Some (JumpIfZero addr) => Some (JumpIfNotLtF64 addr, 2)
  | Some GtF64, Some (JumpIfZero addr) => Some (JumpIfNotGtF64 addr, 2)
  | Some LeF64, Some (JumpIfZero addr) => Some (JumpIfNotLeF64 addr, 2)
  | Some GeF64, Some (JumpIfZero addr) => Some (JumpIfNotGeF64 addr, 2)
  | _, _ => None
  end.

(** [try_fuse_at]: the rules in source order. *)
Definition fusion_rules (protection : option MainStoreProtection) : list (nat -> option (Instr * nat)) :=
  [ try_fuse_slot_arg_call;
    fuse_float64_conversion;
    fuse_gt_slots;
    try_fuse_counted_loop_backedge;
    fuse_store_return protection;
    fuse_store_op_return protection;
    fuse_const_update;
    fuse_const_i64;
    fuse_const_f64;
    fuse_named_update;
    fuse_named_load_op;
    fuse_cmp_const_direct;
    fuse_cmp_const_zero;
    fuse_slot_const_update;
    fuse_slot_const_op;
    fuse_slot_update;
    fuse_slot_load_op;
    fuse_f64_slots;
    fuse_f64_square;
    fuse_f64_load_op;
    fuse_cmp_jump ].

Definition try_fuse_at (protection : option MainStoreProtection) (i : nat) : option (Instr * nat) :=
  if bool_decide (length code <= i + 1) then None
  else first_some ((fun rule => rule i) <$> fusion_rules protection).

(** [try_fuse_at_guarded]: no interior instruction may be a jump target. *)
Definition try_fuse_at_guarded (targets : gset nat) (protection : option MainStoreProtection)
    (i : nat) : option (Instr * nat) :=
  match try_fuse_at protection i with
  | Some (fused, consumed) =>
      if existsb (fun offset => bool_decide (i + offset ∈ targets)) (seq 1 (consumed - 1))
      then None
      else Some (fused, consumed)
  | None => None
  end.
End Rules.

(** ** The fusion pass *)

Section FusionPass.
Variable code : list Instr.
Variable targets : gset nat.
Variable protection : option MainStoreProtection.

(** First loop: the old-to-new map and the number of emitted instructions. *)
Fixpoint build_map (fuel i new_index : nat) (old_to_new : list nat) : list nat * nat :=
  match fuel with
  | 0 => (old_to_new, new_index)
  | S fuel =>
      if bool_decide (i < length code) then
        let old_to_new := <[i := new_index]> old_to_new in
        match try_fuse_at_guarded code targets protection i with
        | Some (_, consumed) =>
            build_map fuel (i + consumed) (S new_index)
              (mark_range old_to_new i consumed new_index)
        | None =>
            build_map fuel (S i) (S new_index) (<[i := new_index]> old_to_new)
        end
      else (old_to_new, new_index)
  end.

(** Second loop: the fused code with updated addresses. *)
Fixpoint emit_fused (fuel i : nat) (old_to_new : list nat) : list Instr :=
  match fuel with
  | 0 => []
  | S fuel =>
      match code !! i with
      | Some instr =>
          match try_fuse_at_guarded code targets protection i with
          | Some (fused, consumed) =>
              update_jump_target fused old_to_new :: emit_fused fuel (i + consumed) old_to_new
          | None =>
              update_jump_target instr old_to_new :: emit_fused fuel (S i) old_to_new
          end
      | None => []
      end
  end.

Definition fusion_map : list nat :=
  let '(m, new_index) := build_map (length code) 0 0 (replicate (length code + 1) 0) in
  <[length code := new_index]> m.

Definition fuse_pass : list Instr := emit_fused (length code) 0 fusion_map.
End FusionPass.


(** ** Straight-line Int64 CSE *)

Inductive I64SlotBinaryOp := ExprAdd | ExprSub | ExprMul.
Record I64SlotExpression := { lhs : nat; rhs : nat; op : I64SlotBinaryOp }.

#[export] Instance I64SlotBinaryOp_eq_dec : EqDecision I64SlotBinaryOp.
Proof. solve_decision. Defined.
#[export] Instance I64SlotExpression_eq_dec : EqDecision I64SlotExpression.
Proof. solve_decision. Defined.

(** The [Hash] derive: expressions are keys of the table. *)
#[export] Instance I64SlotBinaryOp_countable : Countable I64SlotBinaryOp.
Proof.
  apply (inj_countable'
    (fun o => match o with ExprAdd => 0 | ExprSub => 1 | ExprMul => 2 end)
    (fun n => match n with 0 => ExprAdd | 1 => ExprSub | _ => ExprMul end)).
  by intros [].
Defined.
#[export] Instance I64SlotExpression_countable : Countable I64SlotExpression.
Proof.
  apply (inj_countable'
    (fun e => (lhs e, rhs e, op e))
    (fun '(l, r, o) => {| lhs := l; rhs := r; op := o |})).
  by intros [].
Defined.

Section Cse.
Variable code : list Instr.
Variable block_entries : gset nat.

Definition i64_slot_expression_at (index : nat) : option (I64SlotExpression * nat) :=
  if bool_decide (length code <= index + 2)
     || bool_decide (index + 1 ∈ block_entries) || bool_decide (index + 2 ∈ block_entries)
  then None
  else
    match code !! index, code !! (index + 1), code !! (index + 2) with
    | Some (LoadSlotI64 l as load), Some operate, Some store =>
        match (match operate with
               | LoadAddI64Slot r => Some (ExprAdd, r)
               | LoadSubI64Slot r => Some (ExprSub, r)
               | LoadMulI64Slot r => Some (ExprMul, r)
               | _ => None
               end) with
        | Some (o, r) =>
            if negb (instruction_can_cse load) || negb (instruction_can_cse operate) then None
            else
              destination ← instruction_written_slot store;
              Some ({| lhs := l; rhs := r; op := o |}, destination)
        | None => None
        end
    | _, _, _ => None
    end.

(** The table of available expressions: the slot that holds each. *)
Abbreviation cse_table := (gmap I64SlotExpression nat).

Definition invalidate_i64_cse_slot (available : cse_table) (slot : nat) : cse_table :=
  filter (fun '(expression, result_slot) =>
    lhs expression <> slot /\ rhs expression <> slot /\ result_slot <> slot) available.

(** The table after an instruction that is not part of an expression. *)
Definition cse_transfer (available : cse_table) (instr : Instr) : cse_table :=
  match instruction_written_slot instr with
  | Some slot => invalidate_i64_cse_slot available slot
  | None => if instruction_is_cse_barrier instr then ∅ else available
  end.

(** The table after an expression materialized in [destination]. *)
Definition cse_record (available : cse_table) (e : I64SlotExpression) (destination : nat)
    : cse_table :=
  let available := invalidate_i64_cse_slot available destination in
  if bool_decide (destination <> lhs e) && bool_decide (destination <> rhs e)
  then <[e := destination]> available
  else available.

(** The main loop: the rewritten instructions from [index] on, of which the
    first gets index [pos], and their entries of the address map. *)
Fixpoint cse_loop (fuel index pos : nat) (available : cse_table) : list Instr * list nat :=
  match fuel with
  | 0 => ([], [])
  | S fuel =>
      match code !! index with
      | None => ([], [])
      | Some instr =>
          let available := if bool_decide (index ∈ block_entries) then ∅ else available in
          match i64_slot_expression_at index with
          | Some (e, destination) =>
              let '(out, entries, width) :=
                match available !! e with
                | Some cached_slot =>
                    ([LoadSlotI64 cached_slot; StoreSlotI64 destination],
                     [pos; pos; pos + 1], 2)
                | None => (take 3 (drop index code), [pos; pos + 1; pos + 2], 3)
                end in
              let '(rest, rest_entries) :=
                cse_loop fuel (index + 3) (pos + width) (cse_record available e destination) in
              (out ++ rest, entries ++ rest_entries)
          | None =>
              let '(rest, rest_entries) :=
                cse_loop fuel (S index) (S pos) (cse_transfer available instr) in
              (instr :: rest, pos :: rest_entries)
          end
      end
  end.
End Cse.

Definition rewrite_straight_line_i64_cse (code : list Instr) (extra_barriers : gset nat)
    : list Instr * list nat :=
  let block_entries := collect_jump_targets code ∪ extra_barriers in
  let '(rewritten, entries) := cse_loop code block_entries (length code) 0 0 ∅ in
  let old_to_new := entries ++ [length rewritten] in
  ((fun i => update_jump_target i old_to_new) <$> rewritten, old_to_new).

(** ** Adjacent duplicate loads *)

Definition duplicate_for_redundant_load_pair (first second : Instr) : option Instr :=
  match first, second with
  | LoadI64 a, LoadI64 b => if bool_decide (a = b) then Some DupI64 else None
  | LoadSlotI64 a, LoadSlotI64 b => if bool_decide (a = b) then Some DupI64 else None
  | LoadF64 a, LoadF64 b => if bool_decide (a = b) then Some DupF64 else None
  | LoadSlotF64 a, LoadSlotF64 b => if bool_decide (a = b) then Some DupF64 else None
  | _, _ => None
  end.

(** The in-place loop from position [i]; [prev] is [code[i - 1]] as already
    rewritten. *)
Fixpoint duplicate_loop (protected_indices : gset nat) (i : nat) (prev : Instr)
    (code : list Instr) : list Instr :=
  match code with
  | [] => []
  | instr :: rest =>
      let instr' :=
        if bool_decide (i - 1 ∈ protected_indices) || bool_decide (i ∈ protected_indices)
        then instr
        else default instr (duplicate_for_redundant_load_pair prev instr) in
      instr' :: duplicate_loop protected_indices (S i) instr' rest
  end.

Definition rewrite_adjacent_duplicate_loads (code : list Instr) (protected_indices : gset nat)
    : list Instr :=
  match code with
  | [] => []
  | first :: rest => first :: duplicate_loop protected_indices 1 first rest
  end.

(** ** Destructive loads *)

Definition is_verbatim_slot_load (instr : Instr) : option nat :=
  match instr with
  | LoadSlot slot | LoadSlotStr slot | LoadSlotArray slot | LoadSlotTuple slot
  | LoadSlotNamedTuple slot | LoadSlotDict slot | LoadSlotSet slot | LoadSlotStruct slot
  | LoadSlotRange slot | LoadSlotRng slot | LoadSlotGenerator slot
  | LoadSlotSymbol slot => Some slot
  | _ => None
  end.

Definition return_consumes_stack_top (instr : Instr) : bool :=
  match instr with
  | ReturnAny | ReturnI64 | ReturnF64 | ReturnF32 | ReturnF16 | ReturnArray | ReturnTuple
  | ReturnNamedTuple | ReturnRange | ReturnStruct | ReturnDict | ReturnSet | ReturnRef
  | ReturnMemory | ReturnRng => true
  | _ => false
  end.

Definition handler_depth_after (instr : Instr) (depth : nat) : nat :=
  match instr with
  | PushHandler _ _ => S depth
  | PopHandler => pred depth
  | _ => depth
  end.

(** [handler_depth]: the depth entering each index. *)
Fixpoint handler_depths (depth : nat) (code : list Instr) : list nat :=
  match code with
  | [] => []
  | instr :: rest => depth :: handler_depths (handler_depth_after instr depth) rest
  end.

(** [body_region_balance]: the depth after index [main_entry - 1]. *)
Definition body_region_balance (code : list Instr) (main_entry : nat) : nat :=
  if bool_decide (1 <= main_entry <= length code) then
    foldl (fun d i => handler_depth_after i d) 0 (take main_entry code)
  else 0.

(** The rewrite of [code[k]]; it reads only [code[k]] and [code[k + 1]], which
    earlier turns of the loop leave alone. *)
Definition destructive_load_at (code : list Instr) (depths : list nat) (main_entry : nat)
    (protected_indices : gset nat) (k : nat) (instr : Instr) : Instr :=
  match code !! S k with
  | None => instr
  | Some next =>
      if bool_decide (main_entry <= k + 1) then instr
      else if bool_decide (k ∈ protected_indices) || bool_decide (k + 1 ∈ protected_indices)
      then instr
      else if negb (bool_decide (depths !! k = Some 0)) then instr
      else
        match is_verbatim_slot_load instr with
        | Some slot => if return_consumes_stack_top next then TakeSlot slot else instr
        | None => instr
        end
  end.

Definition rewrite_destructive_loads (code : list Instr) (main_entry : nat)
    (protected_indices : gset nat) : list Instr :=
  if bool_decide (length code < 2) then code
  else if bool_decide (body_region_balance code main_entry <> 0) then code
  else imap (destructive_load_at code (handler_depths 0 code) main_entry protected_indices) code.

(** ** The driver *)

Definition optimize_impl (code : list Instr) (protection : option MainStoreProtection)
    (extra_barriers : list nat) : list Instr * list nat :=
  let targets := collect_jump_targets code ∪ list_to_set extra_barriers in
  let old_to_new := fusion_map code targets protection in
  let optimized := fuse_pass code targets protection in
  let protected : gset nat := list_to_set (omap (fun b => old_to_new !! b) extra_barriers) in
  let '(optimized, cse_mapping) := rewrite_straight_line_i64_cse optimized protected in
  let old_to_new :=
    (fun mapped => default (length optimized) (cse_mapping !! mapped)) <$> old_to_new in
  let protected : gset nat :=
    list_to_set (omap (fun index => cse_mapping !! index) (elements protected)) in
  let optimized := rewrite_adjacent_duplicate_loads optimized protected in
  let optimized :=
    match protection with
    | Some p =>
        let main_entry_mapped :=
          default (length optimized) (old_to_new !! main_entry p) in
        rewrite_destructive_loads optimized main_entry_mapped protected
    | None => optimized
    end in
  (optimized, old_to_new).

Definition optimize (code : list Instr) : list Instr * list nat :=
  optimize_impl code None [].
Definition optimize_with_boundaries (code : list Instr) (boundaries : list nat) :=
  optimize_impl code None boundaries.
Definition optimize_protecting_main_stores (code : list Instr) (protection : MainStoreProtection) :=
  optimize_impl code (Some protection) [].
Definition optimize_protecting_main_stores_with_boundaries (code : list Instr)
    (protection : MainStoreProtection) (boundaries : list nat) :=
  optimize_impl code (Some protection) boundaries.
