(* ===== verification/MachineInv.v ===== *)
(** * Invariants of the interpreter

    Two facts about [step] that the optimizer proofs build on: moving an
    instruction to another address only moves the addresses ([relocated]), and
    code whose slot instructions respect a typing of the slots keeps every
    frame slot at its type and every integer in range ([state_ok]). *)

From S2P Require Export Machine.

(** ** Relocation *)

(** [relocated n n' f T a a']: [a'] is what [a] becomes when the next address
    [n] is moved to [n'] and the jump targets [T] are sent through [f]. *)
Inductive relocated (n n' : nat) (f : nat -> nat) (T : list nat)
    : DispatchAction -> DispatchAction -> Prop :=
  | relocated_next s :
      ip s = n -> relocated n n' f T (Continue s) (Continue (set_ip n' s))
  | relocated_jump s :
      ip s ∈ T -> relocated n n' f T (Continue s) (Continue (set_ip (f (ip s)) s))
  | relocated_raise e s pushed :
      ip s = n -> relocated n n' f T (Raise e s pushed) (Raise e (set_ip n' s) pushed)
  | relocated_fault e : relocated n n' f T (Fault e) (Fault e)
  | relocated_call kind g args s :
      ip s = n -> relocated n n' f T (CallOut kind g args s) (CallOut kind g args (set_ip n' s))
  | relocated_return ret v s :
      ip s = n -> relocated n n' f T (ReturnOut ret v s) (ReturnOut ret v (set_ip n' s))
  | relocated_external i s :
      ip s = n -> relocated n n' f T (External i s) (External (map_targets f i) (set_ip n' s)).

Create HintDb reloc.
#[export] Hint Constructors relocated : reloc.

Section Relocation.
Context `{ExternalConversions}.
Variables (n n' : nat) (f : nat -> nat) (T : list nat).

Abbreviation rel := (relocated n n' f T).

(** Continuations that agree up to relocation. *)
Definition rel_cont {A} (k k' : A -> Vm -> DispatchAction) : Prop :=
  forall a s, ip s = n -> rel (k a s) (k' a (set_ip n' s)).

Lemma rel_pop_value s k k' :
  ip s = n -> rel_cont k k' -> rel (pop_value s k) (pop_value (set_ip n' s) k').
Proof. intros Hs Hk. unfold pop_value. simpl. destruct (stack s); [constructor|]. by apply Hk. Qed.

Lemma rel_pop_i64 s k k' :
  ip s = n -> rel_cont k k' -> rel (pop_i64 s k) (pop_i64 (set_ip n' s) k').
Proof.
  intros Hs Hk. apply rel_pop_value; [done|]. intros v s1 Hs1.
  destruct (value_to_i64 v); [by apply Hk|constructor].
Qed.

Lemma rel_pop_f64 s k k' :
  ip s = n -> rel_cont k k' -> rel (pop_f64_or_i64 s k) (pop_f64_or_i64 (set_ip n' s) k').
Proof.
  intros Hs Hk. apply rel_pop_value; [done|]. intros v s1 Hs1.
  destruct (value_to_f64 v); [by apply Hk|constructor].
Qed.

Lemma rel_pop_bool s k k' :
  ip s = n -> rel_cont k k' -> rel (pop_bool s k) (pop_bool (set_ip n' s) k').
Proof.
  intros Hs Hk. apply rel_pop_value; [done|]. intros v s1 Hs1.
  destruct v; try constructor; by apply Hk.
Qed.

Lemma rel_pop_condition s k k' :
  ip s = n -> rel_cont k k' -> rel (pop_condition s k) (pop_condition (set_ip n' s) k').
Proof.
  intros Hs Hk. apply rel_pop_value; [done|]. intros v s1 Hs1.
  destruct v; try constructor; by apply Hk.
Qed.

Lemma rel_pop_args m s acc k k' :
  ip s = n -> rel_cont k k' -> rel (pop_args m s acc k) (pop_args m (set_ip n' s) acc k').
Proof.
  intros Hs Hk. revert s acc Hs. induction m as [|m IH]; intros s acc Hs; simpl; [by apply Hk|].
  apply rel_pop_value; [done|]. intros v s1 Hs1. by apply IH.
Qed.

Lemma rel_read_slot {A} (r : SlotRead A) slot s pushed k k' :
  ip s = n -> (forall a, rel (k a) (k' a)) ->
  rel (read_slot r slot s pushed k) (read_slot r slot (set_ip n' s) pushed k').
Proof. intros Hs Hk. destruct r; simpl; auto with reloc. Qed.

Lemma rel_store_slot slot v s :
  ip s = n -> rel (store_slot_or_fault slot v s) (store_slot_or_fault slot v (set_ip n' s)).
Proof.
  intros Hs. unfold store_slot_or_fault. simpl.
  destruct (store_slot (frame s) slot v); [|constructor]. by apply relocated_next.
Qed.

Lemma rel_store_any name v s :
  ip s = n -> rel (store_any name v s) (store_any name v (set_ip n' s)).
Proof. intros Hs. by apply relocated_next. Qed.

Lemma rel_continue s : ip s = n -> rel (Continue s) (Continue (set_ip n' s)).
Proof. apply relocated_next. Qed.

Lemma rel_jump_to t s :
  t ∈ T -> rel (jump_to t s) (jump_to (f t) (set_ip n' s)).
Proof. intros Ht. by apply (relocated_jump n n' f T (set_ip t s)). Qed.

Lemma rel_jump_if (c : bool) t s :
  ip s = n -> t ∈ T -> rel (jump_if c t s) (jump_if c (f t) (set_ip n' s)).
Proof. intros Hs Ht. destruct c; simpl; [by apply rel_jump_to|by constructor]. Qed.

Lemma rel_load_slot_args read slots acc s k k' :
  ip s = n -> (forall args, rel (k args) (k' args)) ->
  rel (load_slot_args read slots acc s k) (load_slot_args read slots acc (set_ip n' s) k').
Proof.
  intros Hs Hk. revert acc. induction slots as [|slot slots IH]; intros acc; simpl; [done|].
  apply rel_read_slot; [done|]. intros v. apply IH.
Qed.

(** Applies the combinator lemma that fits the goal. *)
Ltac reloc_step :=
  lazymatch goal with
  | |- rel_cont _ _ => intros ? ? ?; cbn [ip set_ip set_stack set_frame set_global stack frame global_frame]
  | |- relocated _ _ _ _ (pop_value _ _) _ => apply rel_pop_value; [done|]
  | |- relocated _ _ _ _ (pop_i64 _ _) _ => apply rel_pop_i64; [done|]
  | |- relocated _ _ _ _ (pop_f64_or_i64 _ _) _ => apply rel_pop_f64; [done|]
  | |- relocated _ _ _ _ (pop_bool _ _) _ => apply rel_pop_bool; [done|]
  | |- relocated _ _ _ _ (pop_condition _ _) _ => apply rel_pop_condition; [done|]
  | |- relocated _ _ _ _ (pop_args _ _ _ _) _ => apply rel_pop_args; [done|]
  | |- relocated _ _ _ _ (read_slot _ _ _ _ _) _ => apply rel_read_slot; [done|intros ?]
  | |- relocated _ _ _ _ (load_slot_args _ _ _ _ _) _ => apply rel_load_slot_args; [done|intros ?]
  | |- relocated _ _ _ _ (store_slot_or_fault _ _ _) _ => by apply rel_store_slot
  | |- relocated _ _ _ _ (store_any _ _ _) _ => by apply rel_store_any
  | |- relocated _ _ _ _ (jump_to _ _) _ => by apply rel_jump_to
  | |- relocated _ _ _ _ (jump_if _ _ _) _ => by apply rel_jump_if
  | |- relocated _ _ _ _ (Fault _) _ => apply relocated_fault
  | |- relocated _ _ _ _ (Raise _ _ _) _ => by apply relocated_raise
  | |- relocated _ _ _ _ (CallOut _ _ _ _) _ => by apply relocated_call
  | |- relocated _ _ _ _ (ReturnOut _ _ _) _ => by apply relocated_return
  | |- relocated _ _ _ _ (External ?i ?s) _ => by apply (relocated_external n n' f T i s)
  | |- relocated _ _ _ _ (Continue ?s) _ => by apply (relocated_next n n' f T s)
  | |- context [match ?x with _ => _ end] => destruct x
  end.

Ltac reloc := cbn [ip set_ip set_stack set_frame set_global stack frame global_frame]; repeat reloc_step.

Variable code code' : list Instr.

Lemma execute_stack_reloc i s :
  ip s = n -> rel (execute_stack i s) (execute_stack i (set_ip n' s)).
Proof. intros Hs. destruct i; simpl; unfold unhandled; reloc. Qed.

Lemma execute_i64_arithmetic_reloc i s :
  ip s = n -> rel (execute_i64_arithmetic i s) (execute_i64_arithmetic i (set_ip n' s)).
Proof. intros Hs. destruct i; simpl; unfold unhandled, binop_i64; reloc. Qed.

Lemma execute_f64_arithmetic_reloc i s :
  ip s = n -> rel (execute_f64_arithmetic i s) (execute_f64_arithmetic i (set_ip n' s)).
Proof. intros Hs. destruct i; simpl; unfold unhandled, binop_f64; reloc. Qed.

Lemma execute_comparison_reloc i s :
  ip s = n -> rel (execute_comparison i s) (execute_comparison i (set_ip n' s)).
Proof. intros Hs. destruct i; simpl; unfold unhandled, cmp_i64, cmp_f64; reloc. Qed.

Lemma execute_jump_reloc i s :
  ip s = n -> (forall t, t ∈ jump_targets i -> t ∈ T) ->
  rel (execute_jump i s) (execute_jump (map_targets f i) (set_ip n' s)).
Proof.
  intros Hs HT. destruct i; simpl in HT |- *;
    try (specialize (HT _ (list_elem_of_here _ _)));
    unfold unhandled, exec_jump_if_zero, jump_cmp_i64, jump_f64, exec_jump_if_gt_i64_slots,
      exec_add_const_and_jump_if_le; reloc.
Qed.

Lemma execute_return_reloc i s :
  ip s = n -> jump_targets i = [] ->
  rel (execute_return i s) (execute_return (map_targets f i) (set_ip n' s)).
Proof. intros Hs HT. destruct i; simpl; try discriminate HT; unfold return_heap; reloc. Qed.

Lemma execute_call_reloc i s :
  ip s = n -> jump_targets i = [] ->
  rel (execute_call i s) (execute_call (map_targets f i) (set_ip n' s)).
Proof.
  intros Hs HT. destruct i; simpl; try discriminate HT;
    unfold exec_call_i64_slots, exec_call_f64_slots; reloc.
Qed.

(** The two handlers that look at the code after the instruction. *)
Definition looks_ahead (i : Instr) : bool :=
  match i with
  | LoadSlot _ | LoadSlotF64 _ => true
  | _ => false
  end.

Lemma execute_locals_reloc i s :
  ip s = n -> looks_ahead i = false -> jump_targets i = [] ->
  rel (execute_locals code i s) (execute_locals code' (map_targets f i) (set_ip n' s)).
Proof.
  intros Hs Hl HT. destruct i; simpl; try discriminate HT; try discriminate Hl;
    unfold exec_load_i64, exec_store_i64, exec_load_f64, exec_store_f64, exec_take_slot,
      exec_load_slot_heap, exec_store_slot, exec_load_slot_i64, exec_load_slot_i64_to_f64, exec_store_slot_i64,
      exec_store_slot_f64, exec_load_square_f64_slot, exec_load_op_f64_slot,
      exec_add_f64_slots, exec_load_slot_bool, exec_store_slot_bool, exec_load_op_i64,
      exec_load_op_i64_slot, exec_load_add_const_i64_slot, exec_load_mod_i64,
      exec_load_mod_i64_slot, exec_load_op_i64_slot, exec_update_var_i64, exec_inc_var_i64_slot, exec_dec_var_i64_slot,
      exec_add_const_i64_slot, update_slot_i64, f64_value_from_current_or_global_frame,
      i64_value_from_current_or_global_frame; reloc.
Qed.

Lemma execute_binary_both_reloc op candidates s :
  ip s = n -> rel (execute_binary_both op candidates s) (execute_binary_both op candidates (set_ip n' s)).
Proof.
  intros Hs. unfold execute_binary_both. simpl.
  assert (rel (External (CallDynamicBinaryBoth op candidates) s)
    (External (CallDynamicBinaryBoth op candidates) (set_ip n' s))) as Hext
    by by apply (relocated_external n n' f T (CallDynamicBinaryBoth op candidates) s).
  destruct op as [|id]; [|exact Hext]. destruct (stack s) as [|b [|a st]]; [exact Hext|by destruct b|].
  destruct b; try exact Hext; destruct a; try exact Hext; by apply relocated_next.
Qed.

Lemma dispatch_reloc i s :
  ip s = n -> looks_ahead i = false -> (forall t, t ∈ jump_targets i -> t ∈ T) ->
  rel (dispatch_instr code i s) (dispatch_instr code' (map_targets f i) (set_ip n' s)).
Proof.
  intros Hs Hl HT.
  pose proof (execute_stack_reloc i s Hs). pose proof (execute_i64_arithmetic_reloc i s Hs).
  pose proof (execute_f64_arithmetic_reloc i s Hs). pose proof (execute_comparison_reloc i s Hs).
  pose proof (execute_jump_reloc i s Hs HT). pose proof (execute_return_reloc i s Hs) as Hr.
  pose proof (execute_call_reloc i s Hs) as Hc.
  pose proof (execute_locals_reloc i s Hs Hl) as Hlo.
  destruct i; try assumption; try (by apply Hr); try (by apply Hc); try (by apply Hlo).
  { by apply execute_binary_both_reloc. }
  by apply (relocated_external n n' f T (PushHandler catch_ip finally_ip) s).
Qed.
End Relocation.


(** ** Slot typing *)

(** What the slots of an activation may hold: [KI64] and [KF64] slots hold a
    value of that type or nothing yet. *)
Inductive SlotKind := KI64 | KF64 | KAny.

#[export] Instance SlotKind_eq_dec : EqDecision SlotKind.
Proof. solve_decision. Defined.

Abbreviation slot_typing := (nat -> SlotKind).

(** Integers in range, and no [UInt128] beyond [i128]. *)
Definition val_ok (v : value) : Prop := wf_value v /\ i128_operand v.

Definition slot_ok (k : SlotKind) (v : option (option value)) : Prop :=
  match k with
  | KI64 => v = Some None \/ exists z, v = Some (Some (Value.I64 z)) /\ in_s 64 z
  | KF64 => v = Some None \/ exists x, v = Some (Some (Value.F64 x))
  | KAny => True
  end.

Definition opt_val_ok (v : option value) : Prop :=
  match v with Some v => val_ok v | None => True end.

(** Values of a frame, whatever their slots. *)
Record frame_values_ok (f : Frame) : Prop := {
  slots_values_ok : Forall opt_val_ok (locals_slots f);
  any_values_ok : map_Forall (fun _ v => val_ok v) (locals_any f)
}.

Record state_ok (G : slot_typing) (s : Vm) : Prop := {
  stack_ok : Forall val_ok (stack s);
  frame_ok : frame_values_ok (frame s);
  slots_ok : forall slot, slot_ok (G slot) (locals_slots (frame s) !! slot);
  global_ok : match global_frame s with Some g => frame_values_ok g | None => True end
}.

(** Instructions that respect the typing; constants are in range. *)
Definition instr_typed (G : slot_typing) (i : Instr) : Prop :=
  match i with
  | PushI64 x => in_s 64 x
  | LoadSlotI64 s | StoreSlotI64 s | LoadAddI64Slot s | LoadSubI64Slot s | LoadMulI64Slot s
  | LoadModI64Slot s | IncVarI64Slot s | DecVarI64Slot s | LoadSlotI64ToF64 s => G s = KI64
  | AddConstI64Slot s d | LoadAddConstI64Slot s d => G s = KI64 /\ in_s 64 d
  | JumpIfCmpI64SlotConst s k _ _ => G s = KI64 /\ in_s 64 k
  | JumpIfGtI64Slots l r _ => G l = KI64 /\ G r = KI64
  | AddConstI64SlotAndJumpIfLe s d stop _ => G s = KI64 /\ in_s 64 d /\ G stop = KI64
  | LoadSlotF64 s | StoreSlotF64 s | LoadSquareF64Slot s | LoadAddF64Slot s | LoadSubF64Slot s
  | LoadMulF64Slot s | LoadDivF64Slot s => G s = KF64
  | AddF64Slots d l r => G d = KF64 /\ G l = KF64 /\ G r = KF64
  | AddF64I64Slots d l r => G d = KF64 /\ G l = KF64 /\ G r = KI64
  | CallSpecializeI64Slots o | CallSpecializeInboundsI64Slots o =>
      Forall (fun s => G s = KI64) (cs_slots o)
  | CallResolvedI64Slots o | CallInboundsI64Slots o => Forall (fun s => G s = KI64) (cd_slots o)
  | CallSpecializeF64Slots o | CallSpecializeInboundsF64Slots o =>
      Forall (fun s => G s = KF64) (cs_slots o)
  | StoreSlot s | StoreSlotBool s => G s = KAny
  | _ => True
  end.

Definition code_typed (G : slot_typing) (code : list Instr) : Prop :=
  Forall (instr_typed G) code.

#[export] Instance instr_typed_dec G i : Decision (instr_typed G i).
Proof. destruct i; simpl; apply _. Defined.

(** Every state that an action hands on is fine, and so are the values. *)
Definition action_ok (G : slot_typing) (a : DispatchAction) : Prop :=
  match a with
  | Continue s | External _ s => state_ok G s
  | Raise _ s pushed => state_ok G s /\ Forall val_ok pushed
  | Fault _ => True
  | CallOut _ _ args s => state_ok G s /\ Forall val_ok args
  | ReturnOut _ v s => state_ok G s /\ val_ok v
  end.

Create HintDb inv.

Lemma val_ok_i64 z : in_s 64 z -> val_ok (Value.I64 z).
Proof. by split. Qed.
Lemma val_ok_f64 x : val_ok (Value.F64 x).
Proof. by split. Qed.
Lemma val_ok_bool b : val_ok (Value.Bool b).
Proof. by split. Qed.
Lemma val_ok_nothing : val_ok Value.Nothing.
Proof. by split. Qed.
Lemma val_ok_wrap z : val_ok (Value.I64 (wrap_s 64 z)).
Proof. apply val_ok_i64, wrap_s_in. lia. Qed.
#[export] Hint Resolve val_ok_i64 val_ok_f64 val_ok_bool val_ok_nothing val_ok_wrap : inv.

Section Invariant.
Context `{ExternalConversions}.
Variable G : slot_typing.

Lemma state_ok_ip n s : state_ok G (set_ip n s) <-> state_ok G s.
Proof. split; intros []; by constructor. Qed.

Lemma state_ok_set_stack st s : Forall val_ok st -> state_ok G s -> state_ok G (set_stack st s).
Proof. intros ? []; by constructor. Qed.

Lemma state_ok_push v s : val_ok v -> state_ok G s -> state_ok G (push v s).
Proof. intros Hv []; constructor; simpl; auto. Qed.

Lemma store_slot_Some f slot v f' :
  store_slot f slot v = Some f' -> f' = set_slots (<[slot := Some v]> (locals_slots f)) f.
Proof. unfold store_slot. destruct (locals_slots f !! slot); congruence. Qed.

(** A value that may be written to a slot of a kind. *)
Definition fits (k : SlotKind) (v : value) : Prop :=
  match k, v with
  | KI64, Value.I64 _ | KF64, Value.F64 _ | KAny, _ => True
  | _, _ => False
  end.

Lemma state_ok_set_slot slot ov s :
  match ov with Some v => val_ok v /\ fits (G slot) v | None => True end -> state_ok G s ->
  state_ok G (set_frame (set_slots (<[slot := ov]> (locals_slots (frame s))) (frame s)) s).
Proof.
  intros Hv [Hst [Hf1 Hf2] Hs Hg]. constructor; simpl; auto.
  - constructor; simpl; auto. apply Forall_insert; [done|]. destruct ov; [apply Hv|done].
  - intros slot'. destruct (decide (slot = slot')) as [<-|Hne];
      [|by rewrite list_lookup_insert_ne].
    specialize (Hs slot).
    destruct (decide (slot < length (locals_slots (frame s)))) as [Hlt|Hge];
      [|by rewrite list_insert_ge by lia].
    rewrite list_lookup_insert_eq by done.
    destruct ov as [v|]; [|destruct (G slot); simpl; auto].
    destruct Hv as [[Hv _] Hfits]. destruct (G slot), v; simpl in *; try done; eauto.
Qed.

Lemma state_ok_set_any name v s :
  val_ok v -> state_ok G s ->
  state_ok G (set_frame (set_any (<[name := v]> (locals_any (frame s))) (frame s)) s).
Proof.
  intros Hv [Hst [Hf1 Hf2] Hs Hg]. constructor; simpl; auto.
  constructor; simpl; auto. by apply map_Forall_insert_2.
Qed.

Lemma slot_value_ok s slot v :
  state_ok G s -> mjoin (locals_slots (frame s) !! slot) = Some v -> val_ok v.
Proof.
  intros [_ [Hf _] _ _] Hl. destruct (locals_slots (frame s) !! slot) as [ov|] eqn:E; [|done].
  simpl in Hl. subst ov. by apply (Forall_lookup_1 _ _ _ _ Hf E).
Qed.

Lemma slot_ok_i64 s slot :
  state_ok G s -> G slot = KI64 ->
  locals_slots (frame s) !! slot = Some None \/
  exists z, locals_slots (frame s) !! slot = Some (Some (Value.I64 z)) /\ in_s 64 z.
Proof. intros Hok HG. pose proof (slots_ok G s Hok slot) as Hs. by rewrite HG in Hs. Qed.

Lemma slot_ok_f64 s slot :
  state_ok G s -> G slot = KF64 ->
  locals_slots (frame s) !! slot = Some None \/
  exists x, locals_slots (frame s) !! slot = Some (Some (Value.F64 x)).
Proof. intros Hok HG. pose proof (slots_ok G s Hok slot) as Hs. by rewrite HG in Hs. Qed.

(** *** The combinators *)

Definition ok_cont {A} (P : A -> Prop) (k : A -> Vm -> DispatchAction) : Prop :=
  forall a s, P a -> state_ok G s -> action_ok G (k a s).

Lemma ok_pop_value s k : state_ok G s -> ok_cont val_ok k -> action_ok G (pop_value s k).
Proof.
  intros Hs Hk. unfold pop_value. pose proof (stack_ok G s Hs) as Hst.
  destruct (stack s); [done|]. inversion_clear Hst. apply Hk; auto using state_ok_set_stack.
Qed.

Lemma ok_pop_i64 s k : state_ok G s -> ok_cont (in_s 64) k -> action_ok G (pop_i64 s k).
Proof.
  intros Hs Hk. apply ok_pop_value; [done|]. intros v s1 [Hv _] Hs1.
  destruct (value_to_i64 v) eqn:E; [|done]. apply Hk; [|done]. by eapply value_to_i64_in.
Qed.

Lemma ok_pop_f64 s k : state_ok G s -> ok_cont (fun _ => True) k -> action_ok G (pop_f64_or_i64 s k).
Proof.
  intros Hs Hk. apply ok_pop_value; [done|]. intros v s1 _ Hs1.
  destruct (value_to_f64 v); [by apply Hk|done].
Qed.

Lemma ok_pop_bool s k : state_ok G s -> ok_cont (fun _ => True) k -> action_ok G (pop_bool s k).
Proof.
  intros Hs Hk. apply ok_pop_value; [done|]. intros v s1 _ Hs1. destruct v; try done. by apply Hk.
Qed.

Lemma ok_pop_condition s k :
  state_ok G s -> ok_cont (fun _ => True) k -> action_ok G (pop_condition s k).
Proof.
  intros Hs Hk. apply ok_pop_value; [done|]. intros v s1 _ Hs1.
  destruct v; try done; by apply Hk.
Qed.

Lemma ok_pop_args m s acc k :
  state_ok G s -> Forall val_ok acc -> ok_cont (Forall val_ok) k ->
  action_ok G (pop_args m s acc k).
Proof.
  intros Hs Hacc Hk. revert s acc Hs Hacc.
  induction m as [|m IH]; intros s acc Hs Hacc; simpl; [by apply Hk|].
  apply ok_pop_value; [done|]. intros v s1 Hv Hs1. apply IH; auto.
Qed.

Lemma ok_read_slot {A} (r : SlotRead A) slot s pushed k :
  state_ok G s -> Forall val_ok pushed ->
  (forall a, r = Got a -> action_ok G (k a)) -> action_ok G (read_slot r slot s pushed k).
Proof. intros Hs Hp Hk. destruct r; simpl; auto. Qed.

Lemma ok_store_slot slot v s :
  val_ok v -> fits (G slot) v -> state_ok G s -> action_ok G (store_slot_or_fault slot v s).
Proof.
  intros Hv Hf Hs. unfold store_slot_or_fault, store_slot.
  destruct (locals_slots (frame s) !! slot); [|done].
  by apply (state_ok_set_slot slot (Some v)).
Qed.

Lemma ok_jump_if (c : bool) t s : state_ok G s -> action_ok G (jump_if c t s).
Proof. intros Hs. destruct c; simpl; [by apply state_ok_ip|done]. Qed.

Lemma read_numeric_ok s slot v :
  state_ok G s -> read_numeric (frame s) slot = Got v -> val_ok v.
Proof.
  intros Hs Hr. apply (slot_value_ok s slot v Hs). revert Hr.
  unfold read_numeric, slot_i64. intros Hr. invert_match Hr; injection Hr as <-; by simplify_eq.
Qed.

Lemma read_f64_arg_ok s slot v :
  state_ok G s -> read_f64_arg (frame s) slot = Got v -> val_ok v.
Proof.
  intros Hs Hr. apply (slot_value_ok s slot v Hs). revert Hr.
  unfold read_f64_arg, slot_f64. intros Hr. invert_match Hr; injection Hr as <-; by simplify_eq.
Qed.

Lemma ok_load_slot_args read slots acc s k :
  state_ok G s -> (forall slot v, read (frame s) slot = Got v -> val_ok v) ->
  Forall val_ok acc -> (forall args, Forall val_ok args -> action_ok G (k args)) ->
  action_ok G (load_slot_args read slots acc s k).
Proof.
  intros Hs Hr Hacc Hk. revert acc Hacc.
  induction slots as [|slot slots IH]; intros acc Hacc; simpl; [auto|].
  apply ok_read_slot; auto. intros v Hv. apply IH. apply Forall_app; eauto.
Qed.

(** A fused operation on an [I64] slot value yields an [I64] in range. *)
Lemma fused_i64_ok x v o r :
  fused_integer_slot_op (Value.I64 x) v o = Some r -> val_ok r.
Proof.
  simpl. unfold signed_slot_op. destruct (value_as_i128 v); simpl; [|done].
  intros [= <-]. destruct o; apply val_ok_wrap.
Qed.

Lemma local_i64_ok f name z :
  frame_values_ok f -> frame_i64_value_by_name f name = Some z -> in_s 64 z.
Proof.
  intros [Hs Ha]. unfold frame_i64_value_by_name, local_i64, load_slot_value_by_name.
  intros Hl.
  assert (val_ok (Value.I64 z)) as [? _]; [|done].
  destruct (locals_any f !! name) as [v|] eqn:E.
  - destruct v; simplify_eq/=; try by apply (map_Forall_lookup_1 _ _ _ _ Ha E).
    all: destruct (frame_slot_map f !! name); simpl in Hl; [|done].
    all: destruct (locals_slots f !! n) as [[[]|]|] eqn:E'; simplify_eq/=.
    all: apply (Forall_lookup_1 _ _ _ _ Hs E').
  - destruct (frame_slot_map f !! name); simpl in Hl; [|done].
    destruct (locals_slots f !! n) as [[[]|]|] eqn:E'; simplify_eq/=.
    apply (Forall_lookup_1 _ _ _ _ Hs E').
Qed.

Lemma name_i64_ok s name z :
  state_ok G s -> i64_value_from_current_or_global_frame s name = Some z -> in_s 64 z.
Proof.
  intros [_ Hf _ Hg]. unfold i64_value_from_current_or_global_frame.
  destruct (frame_i64_value_by_name (frame s) name) eqn:E.
  - intros [= ->]. by eapply local_i64_ok.
  - destruct (global_frame s); [|done]. by apply local_i64_ok.
Qed.

(** Applies the combinator lemma that fits the goal. *)
Ltac inv_step :=
  lazymatch goal with
  | |- ok_cont _ _ => intros ? ? ? ?
  | |- action_ok _ (pop_value _ _) => apply ok_pop_value; [done|]
  | |- action_ok _ (pop_i64 _ _) => apply ok_pop_i64; [done|]
  | |- action_ok _ (pop_f64_or_i64 _ _) => apply ok_pop_f64; [done|]
  | |- action_ok _ (pop_bool _ _) => apply ok_pop_bool; [done|]
  | |- action_ok _ (pop_condition _ _) => apply ok_pop_condition; [done|]
  | |- action_ok _ (pop_args _ _ _ _) => apply ok_pop_args; [done|constructor|]
  | |- action_ok _ (read_slot _ _ _ _ _) => apply ok_read_slot; [done|done|intros ? ?]
  | |- action_ok _ (store_slot_or_fault _ _ _) => apply ok_store_slot; auto with inv
  | |- action_ok _ (store_any _ _ _) => apply state_ok_set_any; auto with inv
  | |- action_ok _ (jump_to _ _) => by apply state_ok_ip
  | |- action_ok _ (jump_if _ _ _) => by apply ok_jump_if
  | |- action_ok _ (Fault _) => exact I
  | |- action_ok _ (Raise _ _ []) => split; [done|constructor]
  | |- action_ok _ (External _ _) => done
  | |- action_ok _ (Continue (push _ _)) => apply state_ok_push; auto with inv
  | |- action_ok _ (Continue _) => done
  | |- action_ok _ (match ?x with _ => _ end) => destruct x eqn:?
  end.

Ltac inv_all := repeat inv_step.

Lemma stack_tail_ok s v st : state_ok G s -> stack s = v :: st -> val_ok v /\ Forall val_ok st.
Proof. intros Hs E. pose proof (stack_ok G s Hs) as Hst. rewrite E in Hst. by inversion Hst. Qed.

Lemma stack_tl_ok s : state_ok G s -> Forall val_ok (tl (stack s)).
Proof. intros [Hst _ _ _]. by destruct Hst. Qed.

Variable code : list Instr.

Lemma execute_stack_ok i s :
  instr_typed G i -> state_ok G s -> action_ok G (execute_stack i s).
Proof.
  intros Hi Hs. destruct i; cbn [execute_stack instr_typed] in *; unfold unhandled; inv_all.
  - apply state_ok_set_stack; [|done]. by apply stack_tl_ok.
  - apply state_ok_set_stack; [|done].
    destruct (stack_tail_ok s _ _ Hs Heql) as [? Hst]. inversion_clear Hst. auto.
Qed.

Lemma execute_i64_arithmetic_ok i s : state_ok G s -> action_ok G (execute_i64_arithmetic i s).
Proof.
  intros Hs. destruct i; cbn [execute_i64_arithmetic]; unfold unhandled, binop_i64; inv_all;
    by edestruct stack_tail_ok.
Qed.

Lemma execute_f64_arithmetic_ok i s : state_ok G s -> action_ok G (execute_f64_arithmetic i s).
Proof. intros Hs. destruct i; cbn [execute_f64_arithmetic]; unfold unhandled, binop_f64; inv_all. Qed.

Lemma execute_comparison_ok i s : state_ok G s -> action_ok G (execute_comparison i s).
Proof.
  intros Hs. destruct i; cbn [execute_comparison]; unfold unhandled, cmp_i64, cmp_f64; inv_all.
  by destruct a1.
Qed.

Lemma add_const_and_jump_ok slot delta stop target s :
  G slot = KI64 -> state_ok G s ->
  action_ok G (exec_add_const_and_jump_if_le slot delta stop target s).
Proof.
  intros HG Hs. unfold exec_add_const_and_jump_if_le.
  assert (forall z, state_ok G (set_frame (set_slots
    (<[slot := Some (Value.I64 (wrap_s 64 z))]> (locals_slots (frame s))) (frame s)) s)) as Hset.
  { intros z. apply (state_ok_set_slot slot (Some _)); [|done].
    rewrite HG. split; [apply val_ok_wrap|done]. }
  assert (forall z, action_ok G (read_slot (load_i64_slot_for_jump
    (set_slots (<[slot := Some (Value.I64 (wrap_s 64 z))]> (locals_slots (frame s))) (frame s)) stop)
    stop (set_frame (set_slots (<[slot := Some (Value.I64 (wrap_s 64 z))]>
      (locals_slots (frame s))) (frame s)) s) []
    (fun stop => jump_if (i64_cmp Le (wrap_s 64 z) stop) target (set_frame (set_slots
      (<[slot := Some (Value.I64 (wrap_s 64 z))]> (locals_slots (frame s))) (frame s)) s)))) as Hread.
  { intros z. apply ok_read_slot; [auto|constructor|]. intros. by apply ok_jump_if. }
  repeat match goal with
         | |- action_ok _ (match ?x with _ => _ end) => destruct x eqn:?; simplify_eq
         end;
    repeat match goal with
           | Hf : store_slot _ _ _ = Some _ |- _ => apply store_slot_Some in Hf as ->
           end;
    first [exact I | apply Hread | by apply ok_jump_if | split; [done|constructor]].
Qed.

Lemma execute_jump_ok i s : instr_typed G i -> state_ok G s -> action_ok G (execute_jump i s).
Proof.
  intros Hi Hs. destruct i; cbn [execute_jump];
    unfold unhandled, exec_jump_if_zero, jump_cmp_i64, jump_f64, exec_jump_if_gt_i64_slots;
    inv_all; try (split; [|by constructor]).
  all: try by apply add_const_and_jump_ok; [apply Hi|].
  all: edestruct stack_tail_ok; [exact Hs|eassumption|].
  all: try apply ok_jump_if; by apply state_ok_set_stack.
Qed.

Lemma execute_return_ok i s : state_ok G s -> action_ok G (execute_return i s).
Proof.
  intros Hs. destruct i; cbn [execute_return]; unfold return_heap; inv_all;
    try (split; auto with inv; fail).
  all: split; [apply state_ok_set_stack; [by apply stack_tl_ok|done]|].
  all: pose proof (stack_ok G s Hs) as Hst; destruct Hst; simpl; auto with inv.
Qed.

Lemma exec_call_i64_slots_ok kind f slots s :
  state_ok G s -> action_ok G (exec_call_i64_slots kind f slots s).
Proof.
  intros Hs. unfold exec_call_i64_slots.
  destruct (mapM (slot_i64 (frame s)) slots) as [zs|] eqn:E.
  - split; [done|]. apply mapM_Some_1 in E. apply Forall_fmap.
    induction E as [|slot z slots zs Hz _ IH]; constructor; [|done].
    unfold slot_i64 in Hz. invert_match Hz. injection Hz as <-.
    eapply slot_value_ok; [done|]. by erewrite Heqo.
  - apply ok_load_slot_args; auto; [|by split].
    intros slot v. by apply read_numeric_ok.
Qed.

Lemma exec_call_f64_slots_ok kind f slots s :
  state_ok G s -> action_ok G (exec_call_f64_slots kind f slots s).
Proof.
  intros Hs. unfold exec_call_f64_slots.
  destruct (mapM (slot_f64 (frame s)) slots) as [xs|] eqn:E.
  - split; [done|]. apply Forall_fmap, Forall_true. intros x. apply val_ok_f64.
  - apply ok_load_slot_args; auto; [|by split].
    intros slot v. by apply read_f64_arg_ok.
Qed.

Lemma execute_call_ok i s : state_ok G s -> action_ok G (execute_call i s).
Proof.
  intros Hs. destruct i; cbn [execute_call];
    try (by apply exec_call_i64_slots_ok); try (by apply exec_call_f64_slots_ok); inv_all;
    try (split; done).
  all: edestruct stack_tail_ok; [exact Hs|eassumption|].
  - by apply state_ok_set_stack.
  - split; [by apply state_ok_set_stack|constructor].
Qed.

(** *** Locals *)

Lemma ok_push_slot slot v s :
  mjoin (locals_slots (frame s) !! slot) = Some v -> state_ok G s -> state_ok G (push v s).
Proof. intros Hv Hs. apply state_ok_push; [|done]. by eapply slot_value_ok. Qed.

Lemma exec_load_slot_ok slot s : state_ok G s -> action_ok G (exec_load_slot code slot s).
Proof.
  intros Hs. unfold exec_load_slot.
  assert (action_ok G (match mjoin (locals_slots (frame s) !! slot) with
                       | Some v => Continue (push v s)
                       | None => Raise (UndefVarError (slot_name_for_frame (frame s) slot)) s []
                       end)) as Hplain.
  { destruct (mjoin _) eqn:E; [by eapply ok_push_slot|]. split; [done|constructor]. }
  repeat match goal with
         | |- action_ok _ (match ?x with _ => _ end) => destruct x eqn:?; try exact Hplain
         end.
  all: first [ by apply state_ok_ip, state_ok_push; [apply val_ok_f64|]
             | apply state_ok_ip, state_ok_set_stack; [|done];
               constructor; [apply val_ok_f64|]; by edestruct stack_tail_ok ].
Qed.

Lemma exec_load_slot_f64_ok slot s : state_ok G s -> action_ok G (exec_load_slot_f64 code slot s).
Proof.
  intros Hs. unfold exec_load_slot_f64.
  assert (action_ok G (load_slot_f64_plain slot s)) as Hplain.
  { unfold load_slot_f64_plain. inv_all. }
  repeat match goal with
         | |- action_ok _ (match ?x with _ => _ end) => destruct x eqn:?; try exact Hplain
         end.
  all: try exact I.
  - apply ok_read_slot; [done|constructor|]. intros x _.
    by apply state_ok_ip, state_ok_push; [apply val_ok_f64|].
  - apply state_ok_ip, state_ok_set_stack; [|done]. constructor; [apply val_ok_f64|].
    by edestruct stack_tail_ok.
Qed.

Lemma exec_load_op_i64_slot_ok o slot s :
  G slot = KI64 -> state_ok G s -> action_ok G (exec_load_op_i64_slot o slot s).
Proof.
  intros HG Hs. unfold exec_load_op_i64_slot.
  destruct (slot_ok_i64 _ _ Hs HG) as [->|(z & -> & _)]; simpl.
  - split; [done|constructor].
  - apply ok_pop_value; [done|]. intros v s1 _ Hs1.
    destruct (signed_slot_op o v 64 Value.I64 z) as [r|] eqn:E; [|done].
    apply state_ok_push; [|done]. by eapply (fused_i64_ok z v o).
Qed.

Lemma exec_load_add_const_ok slot delta s :
  G slot = KI64 -> state_ok G s -> action_ok G (exec_load_add_const_i64_slot slot delta s).
Proof.
  intros HG Hs. unfold exec_load_add_const_i64_slot.
  destruct (slot_ok_i64 _ _ Hs HG) as [->|(z & -> & _)]; cbn [mjoin option_join].
  - split; [done|constructor].
  - destruct (fused_integer_slot_op (Value.I64 z) (Value.I64 delta) FAdd) eqn:E; [|done].
    apply state_ok_push; [|done]. by eapply fused_i64_ok.
Qed.

Lemma exec_load_mod_i64_slot_ok slot s :
  G slot = KI64 -> state_ok G s -> action_ok G (exec_load_mod_i64_slot slot s).
Proof.
  intros HG Hs. unfold exec_load_mod_i64_slot. inv_all. by apply exec_load_op_i64_slot_ok.
Qed.

Lemma state_ok_set_global g s :
  frame_values_ok g -> state_ok G s -> state_ok G (set_global (Some g) s).
Proof. intros Hg []. by constructor. Qed.

Lemma exec_update_var_i64_ok op name s :
  state_ok G s -> action_ok G (exec_update_var_i64 op name s).
Proof.
  intros Hs. unfold exec_update_var_i64. inv_all.
  apply state_ok_set_global; [|done].
  match goal with
  | Hs0 : state_ok G ?s0, Hg : global_frame ?s0 = Some _ |- _ =>
      pose proof (global_ok G s0 Hs0) as Hgl; rewrite Hg in Hgl; destruct Hgl as [Hg1 Hg2]
  end.
  constructor; simpl; [done|]. apply map_Forall_insert_2; auto with inv.
Qed.

Lemma exec_take_slot_ok slot s : state_ok G s -> action_ok G (exec_take_slot slot s).
Proof.
  intros Hs. unfold exec_take_slot. inv_all; [by eapply slot_value_ok|].
  by apply (state_ok_set_slot slot None).
Qed.

Lemma exec_load_slot_heap_ok accepts slot s :
  state_ok G s -> action_ok G (exec_load_slot_heap accepts slot s).
Proof.
  intros Hs. unfold exec_load_slot_heap. inv_all. eapply slot_value_ok; [done|]. by erewrite Heqo.
Qed.

Lemma update_slot_i64_ok upd slot s :
  G slot = KI64 -> state_ok G s -> action_ok G (update_slot_i64 upd slot s).
Proof.
  intros HG Hs. unfold update_slot_i64. inv_all. by rewrite HG.
Qed.

Lemma execute_locals_ok i s :
  instr_typed G i -> state_ok G s -> action_ok G (execute_locals code i s).
Proof.
  intros Hi Hs. destruct i; cbn [execute_locals instr_typed] in *;
    try (by apply exec_load_slot_ok); try (by apply exec_load_slot_f64_ok);
    try (by apply exec_load_op_i64_slot_ok); try (by apply exec_load_mod_i64_slot_ok);
    try (by apply exec_update_var_i64_ok); try (by apply exec_take_slot_ok);
    try (by apply exec_load_slot_heap_ok);
    try (by apply exec_load_add_const_ok; [apply Hi|]);
    try (by apply update_slot_i64_ok; [apply Hi|]);
    unfold exec_load_i64, exec_store_i64, exec_load_f64, exec_store_f64, exec_take_slot,
      exec_load_slot_heap, exec_store_slot, exec_load_slot_i64, exec_load_slot_i64_to_f64, exec_store_slot_i64,
      exec_store_slot_f64, exec_load_square_f64_slot, exec_load_op_f64_slot,
      exec_add_f64_slots, exec_load_slot_bool, exec_store_slot_bool, exec_load_op_i64,
      exec_load_mod_i64, exec_inc_var_i64_slot, exec_dec_var_i64_slot; inv_all;
    try (lazymatch type of Hi with _ /\ _ => destruct Hi as [Hi _] end); try (by rewrite Hi); try (by apply update_slot_i64_ok);
    try (by apply val_ok_i64; eapply name_i64_ok); try (by eapply read_numeric_ok).
Qed.

Lemma execute_binary_both_ok op candidates s :
  state_ok G s -> action_ok G (execute_binary_both op candidates s).
Proof.
  intros Hs. unfold execute_binary_both.
  pose proof (stack_ok G s Hs) as Hst. destruct op as [|id]; [|done].
  destruct (stack s) as [|b [|a st]]; [done|by destruct b|].
  inversion_clear Hst as [|? ? _ Hst']. inversion_clear Hst' as [|? ? _ Hst].
  destruct b; try done; destruct a; try done;
    (apply state_ok_push; [|by apply state_ok_set_stack]); [apply val_ok_wrap|apply val_ok_f64].
Qed.

Lemma dispatch_ok i s : instr_typed G i -> state_ok G s -> action_ok G (dispatch_instr code i s).
Proof.
  intros Hi Hs.
  pose proof (execute_stack_ok i s Hi Hs). pose proof (execute_i64_arithmetic_ok i s Hs).
  pose proof (execute_f64_arithmetic_ok i s Hs). pose proof (execute_comparison_ok i s Hs).
  pose proof (execute_jump_ok i s Hi Hs). pose proof (execute_return_ok i s Hs).
  pose proof (execute_call_ok i s Hs). pose proof (execute_locals_ok i s Hi Hs).
  destruct i; try assumption; try (by apply execute_binary_both_ok); by rewrite <- ?state_ok_ip.
Qed.

(** The invariant is preserved by a turn of the loop and by the loop. *)
Lemma step_ok s : code_typed G code -> state_ok G s -> action_ok G (step code s).
Proof.
  intros Hc Hs. unfold step. destruct (code !! ip s) as [i|] eqn:E; [|done].
  apply dispatch_ok; [|by apply state_ok_ip]. by apply (Forall_lookup_1 _ _ _ _ Hc E).
Qed.

Lemma run_ok fuel s out :
  code_typed G code -> state_ok G s -> run code fuel s = Some out -> action_ok G out.
Proof.
  intros Hc. revert s. induction fuel as [|fuel IH]; intros s Hs; simpl; [done|].
  pose proof (step_ok s Hc Hs) as Hok. destruct (step code s); intros Hr;
    first [by eapply IH | injection Hr as <-; exact Hok].
Qed.

(** ** The environment of an activation *)

(** What the calls and the instructions outside the model may do: they do not
    depend on where the code stands and control comes back behind them, the
    addresses of a handler are only recorded, and the slots keep to their
    typing. *)
Record environment_ok (env : Environment) : Prop := {
  call_moves kind f args n s :
    call_returns env kind f args (set_ip n s) = set_ip n <$> call_returns env kind f args s;
  external_moves i n s :
    external_step env i (set_ip n s) = set_ip n <$> external_step env i s;
  external_targets f i s : external_step env (map_targets f i) s = external_step env i s;
  resume_typed a s : action_ok G a -> resume env a = Some s -> state_ok G s
}.

Lemma no_environment_ok : environment_ok no_environment.
Proof. constructor; try done. by intros []. Qed.

(** C23. An activation keeps every slot at its type and every fixed-width integer in its range, on every way out. *)
Lemma activation_ok env fuel s out :
  environment_ok env -> code_typed G code -> state_ok G s ->
  activation env code fuel s = Some out -> action_ok G out.
Proof.
  intros He Hc. revert s. induction fuel as [|fuel IH]; intros s Hs; cbn [activation]; [done|].
  pose proof (step_ok s Hc Hs) as Hok.
  destruct (step code s) as [s1| | | | |] eqn:E; [by apply IH|..].
  all: destruct (resume env _) as [s1|] eqn:Er;
    [apply IH; by eapply resume_typed|by intros [= <-]].
Qed.
End Invariant.
