(* ===== verification/PeepholeMap.v ===== *)
(** * Shape of the fusion pass

    The windows that the fusion pass forms, the address map it builds and the
    code it emits agree with each other: every window boundary of the old code
    has its own new index, which is what [fusion_map] records and where
    [fuse_pass] puts the window's instruction; every jump target and barrier is
    a boundary. *)

From S2P Require Export Peephole.

(** Jump targets are addresses of the code, the end included. *)
Definition targets_in_range (code : list Instr) : Prop :=
  forall i instr t, code !! i = Some instr -> t ∈ jump_targets instr -> t <= length code.

#[export] Instance targets_in_range_dec code : Decision (targets_in_range code).
Proof.
  refine (cast_if (decide (Forall (fun instr => Forall (fun t => t <= length code) (jump_targets instr)) code))).
  - intros i instr t Hi Ht. pose proof (Forall_lookup_1 _ _ _ _ f Hi) as H.
    by apply (proj1 (Forall_forall _ _) H).
  - intros H. apply n, Forall_lookup_2. intros i instr Hi. apply Forall_forall. intros t Ht. by eapply H.
Defined.

Lemma elem_of_collect_jump_targets code i instr t :
  code !! i = Some instr -> t ∈ jump_targets instr -> t ∈ collect_jump_targets code.
Proof.
  intros Hi Ht. unfold collect_jump_targets. apply elem_of_list_to_set.
  apply list_elem_of_bind. exists instr. split; [done|]. by eapply list_elem_of_lookup_2.
Qed.

(** ** The windows of the rules *)

Lemma load_run_length code is_load fuel i :
  i + length (load_run code is_load fuel i) <= max i (length code).
Proof.
  revert i. induction fuel as [|fuel IH]; intros i; simpl; [lia|].
  destruct (code !! i) as [instr|] eqn:E; simpl; [|lia].
  apply lookup_lt_Some in E. destruct (is_load instr); simpl; [|lia].
  specialize (IH (S i)). lia.
Qed.

Lemma load_run_spec code is_load fuel i j slot :
  load_run code is_load fuel i !! j = Some slot -> code !! (i + j) ≫= is_load = Some slot.
Proof.
  revert i j. induction fuel as [|fuel IH]; intros i j; simpl; [done|].
  destruct (code !! i ≫= is_load) eqn:E; [|done].
  destruct j as [|j]; simpl; intros H; simplify_eq.
  - by rewrite Nat.add_0_r.
  - rewrite <- (IH _ _ H). by rewrite Nat.add_succ_comm.
Qed.

(** The length of a window: at least two instructions, all inside the code. *)
Definition window_ok (code : list Instr) (i consumed : nat) : Prop :=
  2 <= consumed /\ i + consumed <= length code.

Ltac solve_window H :=
  invert_match H; injection H as <- <-; lookup_bounds; unfold window_ok; lia.

Lemma slot_arg_call_window code i fused consumed :
  try_fuse_slot_arg_call code i = Some (fused, consumed) -> window_ok code i consumed.
Proof.
  unfold try_fuse_slot_arg_call, try_fuse_f64_slot_arg_call. intros H.
  assert (forall A (l : list A), l <> [] -> 1 <= length l) as Hne.
  { intros A []; simpl; [done|lia]. }
  repeat case_bool_decide; try discriminate H;
    match goal with
    | Hl : load_run ?c ?l ?f ?i <> [] |- _ => pose proof (Hne _ _ Hl)
    end; solve_window H.
Qed.

Lemma counted_loop_window code i slot delta header consumed :
  counted_loop_tail code i = Some (slot, delta, header, consumed) -> window_ok code i consumed.
Proof.
  unfold counted_loop_tail. intros H. invert_match H; injection H as <- <- <- <-;
    lookup_bounds; unfold window_ok; lia.
Qed.

Lemma backedge_window code i fused consumed :
  try_fuse_counted_loop_backedge code i = Some (fused, consumed) -> window_ok code i consumed.
Proof.
  unfold try_fuse_counted_loop_backedge. intros H.
  destruct (counted_loop_tail code i) as [[[[s d] h] c]|] eqn:E; [|discriminate].
  apply counted_loop_window in E. invert_match H; injection H as <- <-; done.
Qed.

Lemma other_rules_window code protection i fused consumed :
  Forall (fun rule => rule i = Some (fused, consumed) -> window_ok code i consumed)
    (drop 4 (fusion_rules code protection)).
Proof.
  simpl. repeat (apply Forall_cons; split); [intros H..|constructor].
  - unfold fuse_store_return in H. solve_window H.
  - unfold fuse_store_op_return in H. solve_window H.
  - unfold fuse_const_update in H. solve_window H.
  - unfold fuse_const_i64 in H. solve_window H.
  - unfold fuse_const_f64 in H. solve_window H.
  - unfold fuse_named_update in H. solve_window H.
  - unfold fuse_named_load_op in H. solve_window H.
  - unfold fuse_cmp_const_direct in H. solve_window H.
  - unfold fuse_cmp_const_zero in H. solve_window H.
  - unfold fuse_slot_const_update in H. solve_window H.
  - unfold fuse_slot_const_op in H. solve_window H.
  - unfold fuse_slot_update in H. solve_window H.
  - unfold fuse_slot_load_op in H. solve_window H.
  - unfold fuse_f64_slots in H. solve_window H.
  - unfold fuse_f64_square in H. solve_window H.
  - unfold fuse_f64_load_op in H. solve_window H.
  - unfold fuse_cmp_jump in H. solve_window H.
Qed.

(** Which rule answered. *)
Lemma try_fuse_at_rule code protection i r :
  try_fuse_at code protection i = Some r ->
  exists rule, In rule (fusion_rules code protection) /\ rule i = Some r.
Proof.
  unfold try_fuse_at. case_bool_decide; [done|]. intros Hr.
  apply first_some_In, in_map_iff in Hr as (rule & Hr & Hin). eauto.
Qed.

Lemma try_fuse_at_window code protection i fused consumed :
  try_fuse_at code protection i = Some (fused, consumed) -> window_ok code i consumed.
Proof.
  intros H. apply try_fuse_at_rule in H as (rule & Hin & Hr).
  pose proof (other_rules_window code protection i fused consumed) as Hs.
  rewrite List.Forall_forall in Hs.
  destruct Hin as [<-|[<-|[<-|[<-|Hin]]]].
  - by eapply slot_arg_call_window.
  - unfold fuse_float64_conversion in Hr. solve_window Hr.
  - unfold fuse_gt_slots in Hr. solve_window Hr.
  - by eapply backedge_window.
  - by eapply Hs.
Qed.

Lemma try_fuse_at_guarded_spec code targets protection i fused consumed :
  try_fuse_at_guarded code targets protection i = Some (fused, consumed) <->
  try_fuse_at code protection i = Some (fused, consumed) /\
  forall offset, 1 <= offset < consumed -> i + offset ∉ targets.
Proof.
  unfold try_fuse_at_guarded.
  destruct (try_fuse_at code protection i) as [[f c]|]; [|naive_solver].
  destruct (existsb _ _) eqn:E; split.
  - done.
  - intros [[= -> ->] H]. apply existsb_exists in E as (o & Ho%in_seq & Hb).
    apply bool_decide_eq_true in Hb. exfalso. apply (H o); [lia|done].
  - intros [= -> ->]. split; [done|]. intros o Ho Hin.
    assert (existsb (fun offset => bool_decide (i + offset ∈ targets)) (seq 1 (consumed - 1)) = true)
      as E'; [|congruence].
    apply existsb_exists. exists o. split; [apply in_seq; lia|by apply bool_decide_eq_true].
  - intros [[= -> ->] _]. done.
Qed.

Lemma guarded_window code targets protection i fused consumed :
  try_fuse_at_guarded code targets protection i = Some (fused, consumed) ->
  2 <= consumed /\ i + consumed <= length code.
Proof. rewrite try_fuse_at_guarded_spec. intros [H _]. by eapply try_fuse_at_window. Qed.

(** ** Boundaries *)

Section Boundaries.
Variable code : list Instr.
Variable targets : gset nat.
Variable protection : option MainStoreProtection.

Abbreviation fuse_at := (try_fuse_at_guarded code targets protection).

(** [boundary i k]: a window starts at old index [i] and has new index [k]. *)
Inductive boundary : nat -> nat -> Prop :=
  | boundary_start : boundary 0 0
  | boundary_fused i k fused consumed :
      boundary i k -> i < length code -> fuse_at i = Some (fused, consumed) ->
      boundary (i + consumed) (S k)
  | boundary_kept i k :
      boundary i k -> i < length code -> fuse_at i = None ->
      boundary (S i) (S k).

Lemma boundary_le i k : boundary i k -> i <= length code.
Proof.
  induction 1 as [|i k f c Hb IH Hi Hf|]; [lia| |lia]. apply guarded_window in Hf. lia.
Qed.

Lemma build_map_length fuel i k v :
  length (build_map code targets protection fuel i k v).1 = length v.
Proof.
  revert i k v. induction fuel as [|fuel IH]; intros i k v; simpl; [done|].
  case_bool_decide; [|done]. destruct (fuse_at i) as [[f c]|]; rewrite IH.
  - by rewrite mark_range_length, length_insert.
  - by rewrite !length_insert.
Qed.

Lemma build_map_lookup_lt fuel i k v j :
  j < i -> (build_map code targets protection fuel i k v).1 !! j = v !! j.
Proof.
  revert i k v. induction fuel as [|fuel IH]; intros i k v Hj; simpl; [done|].
  case_bool_decide; [|done]. destruct (fuse_at i) as [[f c]|] eqn:E.
  - apply guarded_window in E. rewrite IH by lia.
    rewrite mark_range_lookup_lt by lia. by rewrite list_lookup_insert_ne by lia.
  - rewrite IH by lia. by rewrite !list_lookup_insert_ne by lia.
Qed.

(** The loop of [build_map] and that of [emit_fused] stand at a boundary. *)
Lemma build_map_boundary i k :
  boundary i k ->
  exists v fuel, length code - i <= fuel /\ length v = length code + 1 /\
    build_map code targets protection (length code) 0 0 (replicate (length code + 1) 0) =
    build_map code targets protection fuel i k v.
Proof.
  induction 1 as [|i k f c Hb (v & fuel & Hf & Hv & IH) Hi Hfuse
                  |i k Hb (v & fuel & Hf & Hv & IH) Hi Hfuse].
  - exists (replicate (length code + 1) 0), (length code).
    rewrite length_replicate. repeat split; lia.
  - pose proof (guarded_window _ _ _ _ _ _ Hfuse).
    destruct fuel as [|fuel]; [lia|]. rewrite IH. simpl.
    rewrite bool_decide_true, Hfuse by lia.
    eexists _, fuel. split_and!; [lia| |reflexivity].
    by rewrite mark_range_length, length_insert.
  - destruct fuel as [|fuel]; [lia|]. rewrite IH. simpl.
    rewrite bool_decide_true, Hfuse by lia.
    eexists _, fuel. split_and!; [lia| |reflexivity]. by rewrite !length_insert.
Qed.

Lemma fusion_map_length : length (fusion_map code targets protection) = length code + 1.
Proof.
  unfold fusion_map. pose proof (build_map_length (length code) 0 0
    (replicate (length code + 1) 0)) as H.
  destruct (build_map _ _ _ _ _ _ _) as [m n]. simpl in H.
  by rewrite length_insert, H, length_replicate.
Qed.

(** The map records the new index of every boundary, the end included. *)
Lemma fusion_map_boundary i k : boundary i k -> fusion_map code targets protection !! i = Some k.
Proof.
  intros Hb. pose proof (boundary_le i k Hb) as Hle.
  destruct (build_map_boundary i k Hb) as (v & fuel & Hf & Hv & E).
  unfold fusion_map. rewrite E. clear E.
  destruct (decide (i = length code)) as [->|Hne].
  - destruct fuel as [|fuel]; simpl; [|rewrite bool_decide_false by lia];
      apply list_lookup_insert_eq; lia.
  - destruct fuel as [|fuel]; [lia|]. simpl. rewrite bool_decide_true by lia.
    destruct (fuse_at i) as [[f c]|] eqn:Hfuse.
    + pose proof (guarded_window _ _ _ _ _ _ Hfuse).
      match goal with |- (let '(_, _) := build_map _ _ _ ?f ?i' ?k' ?v' in _) !! _ = _ =>
        pose proof (build_map_lookup_lt f i' k' v' i) as Hlt;
        destruct (build_map _ _ _ f i' k' v') as [m n] end.
      simpl in Hlt. rewrite list_lookup_insert_ne by lia. rewrite Hlt by lia.
      apply mark_range_lookup; [lia|]. rewrite length_insert; lia.
    + match goal with |- (let '(_, _) := build_map _ _ _ ?f ?i' ?k' ?v' in _) !! _ = _ =>
        pose proof (build_map_lookup_lt f i' k' v' i) as Hlt;
        destruct (build_map _ _ _ f i' k' v') as [m n] end.
      simpl in Hlt. rewrite list_lookup_insert_ne by lia. rewrite Hlt by lia.
      apply list_lookup_insert_eq. rewrite length_insert; lia.
Qed.

(** The emitted code from a boundary on. *)
Lemma emit_fused_boundary m i k :
  boundary i k ->
  exists pre fuel, length code - i <= fuel /\ length pre = k /\
    emit_fused code targets protection (length code) 0 m =
    pre ++ emit_fused code targets protection fuel i m.
Proof.
  induction 1 as [|i k f c Hb (pre & fuel & Hf & Hk & IH) Hi Hfuse
                  |i k Hb (pre & fuel & Hf & Hk & IH) Hi Hfuse].
  - exists [], (length code). repeat split; lia.
  - pose proof (guarded_window _ _ _ _ _ _ Hfuse).
    destruct fuel as [|fuel]; [lia|]. rewrite IH. simpl.
    destruct (lookup_lt_is_Some_2 code i) as [instr ->]; [lia|]. rewrite Hfuse.
    exists (pre ++ [update_jump_target f m]), fuel.
    rewrite length_app. simpl. rewrite <- app_assoc. simpl. repeat split; lia.
  - destruct fuel as [|fuel]; [lia|]. rewrite IH. simpl.
    destruct (lookup_lt_is_Some_2 code i) as [instr ->]; [lia|]. rewrite Hfuse.
    exists (pre ++ [update_jump_target instr m]), fuel.
    rewrite length_app. simpl. rewrite <- app_assoc. simpl. repeat split; lia.
Qed.

(** What a window emits. *)
Definition window_instr (i : nat) : option (Instr * nat) :=
  match fuse_at i with
  | Some (fused, consumed) => Some (fused, consumed)
  | None => (fun instr => (instr, 1)) <$> code !! i
  end.

Lemma fuse_pass_lookup i k fused consumed :
  boundary i k -> i < length code -> window_instr i = Some (fused, consumed) ->
  fuse_pass code targets protection !! k =
  Some (update_jump_target fused (fusion_map code targets protection)).
Proof.
  intros Hb Hi Hw. unfold fuse_pass.
  destruct (emit_fused_boundary (fusion_map code targets protection) i k Hb)
    as (pre & fuel & Hf & Hk & ->).
  destruct fuel as [|fuel]; [lia|]. simpl.
  destruct (lookup_lt_is_Some_2 code i) as [instr E]; [lia|].
  unfold window_instr in Hw. rewrite E in *.
  destruct (fuse_at i) as [[f c]|]; simpl in Hw; simplify_eq;
    rewrite lookup_app_r by lia; by rewrite Nat.sub_diag.
Qed.

(** The end boundary gets the length of the emitted code. *)
Lemma fuse_pass_length k :
  boundary (length code) k -> length (fuse_pass code targets protection) = k.
Proof.
  intros Hb. unfold fuse_pass.
  destruct (emit_fused_boundary (fusion_map code targets protection) _ k Hb)
    as (pre & fuel & Hf & <- & ->).
  rewrite length_app. destruct fuel as [|fuel]; simpl; [lia|].
  rewrite (lookup_ge_None_2 code) by lia. simpl. lia.
Qed.

(** Every position is a boundary or strictly inside a window. *)
Lemma boundary_cover t :
  t <= length code ->
  (exists k, boundary t k) \/
  exists i k fused consumed, boundary i k /\ fuse_at i = Some (fused, consumed) /\
    i < t < i + consumed.
Proof.
  induction t as [|t IH]; intros Ht; [left; exists 0; constructor|].
  destruct IH as [(k & Hb)|(i & k & f & c & Hb & Hf & Hlt)]; [lia| |].
  - destruct (fuse_at t) as [[f c]|] eqn:Hf.
    + pose proof (guarded_window _ _ _ _ _ _ Hf). right. exists t, k, f, c. repeat split; auto; lia.
    + left. exists (S k). constructor; auto; lia.
  - pose proof (guarded_window _ _ _ _ _ _ Hf) as [_ Hlen].
    destruct (decide (S t = i + c)) as [->|Hne].
    + left. exists (S k). econstructor; eauto. lia.
    + right. exists i, k, f, c. repeat split; auto; lia.
Qed.

(** The guard keeps jump targets and barriers out of window interiors. *)
Lemma target_boundary t : t ∈ targets -> t <= length code -> exists k, boundary t k.
Proof.
  intros Ht Hle. destruct (boundary_cover t Hle) as [|(i & k & f & c & Hb & Hf & Hlt)]; [done|].
  apply try_fuse_at_guarded_spec in Hf as [_ Hg].
  exfalso. apply (Hg (t - i)); [lia|]. by replace (i + (t - i)) with t by lia.
Qed.

Lemma end_boundary : exists k, boundary (length code) k.
Proof.
  destruct (boundary_cover (length code)) as [|(i & k & f & c & Hb & Hf & Hlt)]; [lia|done|].
  apply guarded_window in Hf. lia.
Qed.

End Boundaries.
