(* ===== verification/Simulation.v ===== *)
(** * Simulations between two programs

    Several turns of the run loop, the correspondence of actions that an
    optimization has to establish ([action_match]), the lemmas that turn a
    window-by-window argument into one about whole activations ([sim_forward],
    [sim_backward]) and the case of an instruction that a pass keeps
    ([kept_match]). *)

From S2P Require Export Peephole MachineInv.

(** ** Several turns of the loop *)

Section Steps.
Context `{ExternalConversions}.
Variable code : list Instr.

(** At most [n] turns; an outcome that leaves the activation is final. *)
Fixpoint steps (n : nat) (s : Vm) : DispatchAction :=
  match n with
  | 0 => Continue s
  | S n =>
      match step code s with
      | Continue s' => steps n s'
      | out => out
      end
  end.

Definition is_continue (a : DispatchAction) : bool :=
  match a with Continue _ => true | _ => false end.

(** *** In an activation *)

Variable env : Environment.

Lemma steps_S n s :
  steps (S n) s = match step code s with Continue s' => steps n s' | out => out end.
Proof. done. Qed.

Lemma steps_continue_activation n s s' fuel :
  steps n s = Continue s' -> activation env code (n + fuel) s = activation env code fuel s'.
Proof.
  revert s. induction n as [|n IH]; intros s; simpl; [by intros [= ->]|].
  destruct (step code s) eqn:E; try done. intros Hs. by apply IH.
Qed.

Lemma steps_continue_none n fuel s s' :
  steps n s = Continue s' -> fuel <= n -> activation env code fuel s = None.
Proof.
  revert fuel s. induction n as [|n IH]; intros fuel s Hs Hle; (destruct fuel as [|fuel]; [done|]).
  - lia.
  - simpl in *. destruct (step code s); try done. apply IH; [done|lia].
Qed.

(** An outcome is reached at a turn [m]; from there the environment goes on. *)
Lemma steps_final_activation n s :
  is_continue (steps n s) = false ->
  exists m, 1 <= m <= n /\
    (forall fuel, fuel < m -> activation env code fuel s = None) /\
    (forall fuel, activation env code (m + fuel) s =
       match resume env (steps n s) with
       | Some s' => activation env code fuel s'
       | None => Some (steps n s)
       end).
Proof.
  revert s. induction n as [|n IH]; intros s; simpl; [done|].
  destruct (step code s) as [s1| | | | |] eqn:E.
  - intros Hf. destruct (IH s1 Hf) as (m & Hm & Hlt & Hge). exists (S m).
    split_and!; [lia|lia| |].
    + intros [|fuel] Hle; [done|]. simpl. rewrite E. apply Hlt. lia.
    + intros fuel. simpl. rewrite E. apply Hge.
  - intros _. exists 1. split_and!; [lia|lia|intros [|] ?; [done|lia]|].
    intros fuel. simpl. by rewrite E.
  - intros _. exists 1. split_and!; [lia|lia|intros [|] ?; [done|lia]|].
    intros fuel. simpl. by rewrite E.
  - intros _. exists 1. split_and!; [lia|lia|intros [|] ?; [done|lia]|].
    intros fuel. simpl. by rewrite E.
  - intros _. exists 1. split_and!; [lia|lia|intros [|] ?; [done|lia]|].
    intros fuel. simpl. by rewrite E.
  - intros _. exists 1. split_and!; [lia|lia|intros [|] ?; [done|lia]|].
    intros fuel. simpl. by rewrite E.
Qed.

Lemma activation_more fuel fuel' s out :
  activation env code fuel s = Some out -> fuel <= fuel' -> activation env code fuel' s = Some out.
Proof.
  revert fuel' s. induction fuel as [|fuel IH]; intros fuel' s Hr Hle; [done|].
  destruct fuel' as [|fuel']; [lia|]. cbn [activation] in *.
  destruct (step code s); [apply IH; [done|lia]|..];
    (destruct (resume env _); [apply IH; [done|lia]|done]).
Qed.

Lemma activation_deterministic fuel fuel' s out out' :
  activation env code fuel s = Some out -> activation env code fuel' s = Some out' -> out = out'.
Proof.
  intros H1 H2. apply (activation_more _ (max fuel fuel')) in H1; [|lia].
  apply (activation_more _ (max fuel fuel')) in H2; [|lia]. congruence.
Qed.

Lemma steps_ok G n s : code_typed G code -> state_ok G s -> action_ok G (steps n s).
Proof.
  intros Hc. revert s. induction n as [|n IH]; intros s Hs; simpl; [done|].
  pose proof (step_ok G code s Hc Hs) as Hok. destruct (step code s); try exact Hok. by apply IH.
Qed.
Lemma steps_at n s instr :
  code !! ip s = Some instr ->
  steps (S n) s =
  match dispatch_instr code instr (set_ip (S (ip s)) s) with
  | Continue s' => steps n s'
  | out => out
  end.
Proof. intros E. simpl. unfold step. by rewrite E. Qed.

Lemma steps_add n m s :
  steps (n + m) s = match steps n s with Continue s' => steps m s' | out => out end.
Proof.
  revert s. induction n as [|n IH]; intros s; simpl; [done|].
  destruct (step code s); auto.
Qed.

End Steps.

(** ** Matching actions *)

Definition same_data (s s' : Vm) : Prop :=
  stack s = stack s' /\ frame s = frame s' /\ global_frame s = global_frame s'.

(** The popped value is no [Int64] operand. *)
Definition pop_i64_fault (st : list value) (e : VmError) : Prop :=
  match st with
  | [] => e = StackUnderflow
  | v :: _ => value_to_i64 v = Err e
  end.

(** [action_match B f dropped a a']: [a'] is the optimized counterpart of [a].
    [B] relates the addresses of the two programs, [f] maps jump targets and
    [dropped] holds of the slots whose store a return made dead. *)
Inductive action_match (B : nat -> nat -> Prop) (f : nat -> nat) (dropped : nat -> Prop)
    : DispatchAction -> DispatchAction -> Prop :=
  | match_continue s s' :
      B (ip s) (ip s') -> same_data s s' -> action_match B f dropped (Continue s) (Continue s')
  | match_raise e s s' pushed :
      same_data s s' -> action_match B f dropped (Raise e s pushed) (Raise e s' pushed)
  (* operands that are on the stack no more; a slot-argument call pushes the
     arguments it has read after the raise *)
  | match_raise_above e s s' pre pushed :
      stack s = pre ++ stack s' -> frame s = frame s' -> global_frame s = global_frame s' ->
      pushed = [] \/ pushed = rev pre ->
      action_match B f dropped (Raise e s []) (Raise e s' pushed)
  (* the fused instruction pops its operand before it looks at the variable *)
  | match_raise_fault e e' s :
      pop_i64_fault (stack s) e' -> action_match B f dropped (Raise e s []) (Fault e')
  | match_fault e : action_match B f dropped (Fault e) (Fault e)
  | match_call kind g args s s' :
      B (ip s) (ip s') -> same_data s s' ->
      action_match B f dropped (CallOut kind g args s) (CallOut kind g args s')
  | match_return ret v s s' :
      same_data s s' -> action_match B f dropped (ReturnOut ret v s) (ReturnOut ret v s')
  | match_return_dropped ret v s s' slot stored :
      dropped slot -> stack s = stack s' -> global_frame s = global_frame s' ->
      frame s = set_slots (<[slot := stored]> (locals_slots (frame s'))) (frame s') ->
      action_match B f dropped (ReturnOut ret v s) (ReturnOut ret v s')
  | match_external i s s' :
      B (ip s) (ip s') -> same_data s s' ->
      action_match B f dropped (External i s) (External (map_targets f i) s').

Create HintDb sim.
#[export] Hint Constructors action_match : sim.

Lemma same_data_set_ip s n : same_data s (set_ip n s).
Proof. done. Qed.
#[export] Hint Resolve same_data_set_ip : sim.

(** A handler that was pushed below the window truncates both stacks to the
    same one. *)
Lemma raise_handled {B f dropped e s s'} depth :
  action_match B f dropped (Raise e s []) (Raise e s' []) ->
  depth <= length (stack s') -> truncate depth (stack s) = truncate depth (stack s').
Proof.
  inversion 1 as [|? ? ? ? [Hst _]|? ? ? pre ? Hst| | | | | |]; subst; intros Hd; rewrite Hst;
    [done|by apply truncate_app].
Qed.

(** Relocated actions match. *)
Lemma relocated_match n n' f T (B : nat -> nat -> Prop) dropped a a' :
  relocated n n' f T a a' -> B n n' -> (forall t, t ∈ T -> B t (f t)) ->
  action_match B f dropped a a'.
Proof. intros Hr Hn HT. destruct Hr; subst; eauto with sim. Qed.

Lemma action_match_mono (B B' : nat -> nat -> Prop) f dropped a a' :
  (forall x k, B x k -> B' x k) -> action_match B f dropped a a' -> action_match B' f dropped a a'.
Proof. intros HB Hm. destruct Hm; eauto with sim. Qed.

Lemma action_match_final B f dropped a a' :
  action_match B f dropped a a' -> is_continue a = is_continue a'.
Proof. by destruct 1. Qed.

(** ** From windows to activations *)

Section Simulation.
Context `{ExternalConversions}.
Variables code code' : list Instr.
Variable env : Environment.
Variable R : Vm -> Vm -> Prop.
Variable M : DispatchAction -> DispatchAction -> Prop.

(** Matching outcomes, from which the environment leads to related states. *)
Definition outcome_match (a a' : DispatchAction) : Prop :=
  M a a' /\ option_Forall2 R (resume env a) (resume env a').

(** Related states run for a while on both sides, into related states or into
    matching outcomes. *)
Definition window_diagram (s s' : Vm) : Prop :=
  exists n n', 1 <= n /\ 1 <= n' /\
    ((exists s1 s1', steps code n s = Continue s1 /\ steps code' n' s' = Continue s1' /\
        R s1 s1') \/
     (is_continue (steps code n s) = false /\ is_continue (steps code' n' s') = false /\
        outcome_match (steps code n s) (steps code' n' s'))).

Hypothesis Hdiagram : forall s s', R s s' -> window_diagram s s'.

Lemma sim_forward fuel s s' out :
  R s s' -> activation env code fuel s = Some out ->
  exists fuel' out', activation env code' fuel' s' = Some out' /\ M out out'.
Proof.
  revert s s'. induction (lt_wf fuel) as [fuel _ IH]. intros s s' HR Hrun.
  destruct (Hdiagram s s' HR)
    as (n & n' & Hn & Hn' & [(s1 & s1' & Hs & Hs' & HR1)|(Hc & Hc' & Hm & HR1)]).
  - destruct (decide (fuel <= n)) as [Hle|Hgt].
    + by rewrite (steps_continue_none code env n fuel s s1 Hs Hle) in Hrun.
    + replace fuel with (n + (fuel - n)) in Hrun by lia.
      rewrite (steps_continue_activation _ _ _ _ _ _ Hs) in Hrun.
      destruct (IH (fuel - n) ltac:(lia) _ _ HR1 Hrun) as (fuel' & out' & Hr' & Hm).
      exists (n' + fuel'), out'. split; [|done].
      by rewrite (steps_continue_activation _ _ _ _ _ _ Hs').
  - destruct (steps_final_activation code env n s Hc) as (m & Hm1 & Hlt & Hge).
    destruct (steps_final_activation code' env n' s' Hc') as (m' & _ & _ & Hge').
    destruct (decide (fuel < m)) as [Hl|Hl]; [by rewrite (Hlt _ Hl) in Hrun|].
    replace fuel with (m + (fuel - m)) in Hrun by lia. rewrite Hge in Hrun.
    destruct HR1 as [s1 s1' HR1|].
    + destruct (IH (fuel - m) ltac:(lia) _ _ HR1 Hrun) as (fuel' & out' & Hr' & Hm').
      exists (m' + fuel'), out'. by rewrite Hge'.
    + injection Hrun as <-. exists (m' + 0), (steps code' n' s'). by rewrite Hge'.
Qed.

Lemma sim_backward fuel' s s' out' :
  R s s' -> activation env code' fuel' s' = Some out' ->
  exists fuel out, activation env code fuel s = Some out /\ M out out'.
Proof.
  revert s s'. induction (lt_wf fuel') as [fuel' _ IH]. intros s s' HR Hrun.
  destruct (Hdiagram s s' HR)
    as (n & n' & Hn & Hn' & [(s1 & s1' & Hs & Hs' & HR1)|(Hc & Hc' & Hm & HR1)]).
  - destruct (decide (fuel' <= n')) as [Hle|Hgt].
    + by rewrite (steps_continue_none code' env n' fuel' s' s1' Hs' Hle) in Hrun.
    + replace fuel' with (n' + (fuel' - n')) in Hrun by lia.
      rewrite (steps_continue_activation _ _ _ _ _ _ Hs') in Hrun.
      destruct (IH (fuel' - n') ltac:(lia) _ _ HR1 Hrun) as (fuel & out & Hr & Hm).
      exists (n + fuel), out. split; [|done].
      by rewrite (steps_continue_activation _ _ _ _ _ _ Hs).
  - destruct (steps_final_activation code env n s Hc) as (m & _ & _ & Hge).
    destruct (steps_final_activation code' env n' s' Hc') as (m' & Hm1 & Hlt & Hge').
    destruct (decide (fuel' < m')) as [Hl|Hl]; [by rewrite (Hlt _ Hl) in Hrun|].
    replace fuel' with (m' + (fuel' - m')) in Hrun by lia. rewrite Hge' in Hrun.
    destruct HR1 as [s1 s1' HR1|].
    + destruct (IH (fuel' - m') ltac:(lia) _ _ HR1 Hrun) as (fuel & out & Hr & Hm').
      exists (m + fuel), out. by rewrite Hge.
    + injection Hrun as <-. exists (m + 0), (steps code n s). by rewrite Hge.
Qed.
End Simulation.

(** The environment takes matching outcomes to states that differ in the
    address alone. *)
Lemma resume_match G env B f dropped a a' :
  environment_ok G env -> action_match B f dropped a a' -> action_ok G a ->
  option_Forall2 (fun s s' => B (ip s) (ip s') /\ s' = set_ip (ip s') s /\ state_ok G s)
    (resume env a) (resume env a').
Proof.
  intros He Hm Hok.
  assert (forall s s' r, same_data s s' -> B (ip s) (ip s') ->
    (forall n, r (set_ip n s) = set_ip n <$> r s) ->
    (forall s1, r s = Some s1 -> state_ok G s1) ->
    option_Forall2 (fun s s' => B (ip s) (ip s') /\ s' = set_ip (ip s') s /\ state_ok G s)
      (r s) (r s')) as Hr.
  { intros s s' r (Hst & Hfr & Hgl) HB Hmv Hty.
    assert (s' = set_ip (ip s') s) as -> by (clear -Hst Hfr Hgl; destruct s, s'; simpl in *; by subst).
    pose proof (Hmv (ip s)) as Hself. rewrite Hmv.
    replace (set_ip (ip s) s) with s in Hself by by destruct s.
    destruct (r s) as [s1|]; [|constructor]. injection Hself as Hself. constructor.
    assert (ip s1 = ip s) as -> by (by rewrite Hself). split_and!; [done|done|by apply Hty]. }
  destruct Hm; try constructor.
  - apply Hr; [done|done|intros n; by apply call_moves with G|].
    intros s1 E. by apply (resume_typed _ _ He (CallOut kind g args s)).
  - simpl. rewrite (external_targets _ _ He). apply Hr; [done|done|intros n; by apply external_moves with G|].
    intros s1 E. by apply (resume_typed _ _ He (External i s)).
Qed.

(** A window whose actions match, when its exits are all that the relation of
    states asks for. *)
Lemma match_window `{ExternalConversions} G env code code' B f dropped (R : Vm -> Vm -> Prop) n n' s s' :
  environment_ok G env -> code_typed G code -> state_ok G s -> 1 <= n -> 1 <= n' ->
  action_match B f dropped (steps code n s) (steps code' n' s') ->
  (forall s1 s1', B (ip s1) (ip s1') -> s1' = set_ip (ip s1') s1 -> state_ok G s1 -> R s1 s1') ->
  window_diagram code code' env R (action_match B f dropped) s s'.
Proof.
  intros He Hc Hok Hn Hn' Hm HR. exists n, n'. split_and!; [done|done|].
  pose proof (steps_ok code G n s Hc Hok) as Hok1.
  pose proof (action_match_final _ _ _ _ _ Hm) as Hfin.
  pose proof (resume_match G env B f dropped _ _ He Hm Hok1) as Hres.
  destruct (steps code n s) as [s1| | | | |] eqn:E.
  2-6: right; split_and!; [done|done|]; split; [done|];
    destruct Hres as [x y (Hb & Hy & Hx)|]; constructor; by apply HR.
  left. inversion Hm as [? s1' Hb1 (Hst & Hfr & Hgl) HE1 HE2| | | | | | | |]; subst.
  exists s1, s1'. split_and!; [done|done|]. apply HR; [done| |done].
  clear -Hst Hfr Hgl. destruct s1, s1'; simpl in *. by subst.
Qed.

(** ** The look-aheads *)

(** What the look-aheads ask. *)
Definition peek_mul (c : list Instr) (n : nat) : bool :=
  match c !! n with Some MulF64 => true | _ => false end.
Definition peek_dup_mul (c : list Instr) (n : nat) : bool :=
  match c !! n with Some DupF64 => peek_mul c (S n) | _ => false end.

Definition peek_add (c : list Instr) (n : nat) : bool :=
  match c !! n with Some (CallDynamicBinaryBoth DynamicAdd _) => true | _ => false end.

(** All instructions that some look-ahead asks for. *)
Definition is_looked_for (x : Instr) : bool :=
  match x with DupF64 | MulF64 | CallDynamicBinaryBoth DynamicAdd _ => true | _ => false end.

(** The instructions that a look-ahead executes together with the load in front
    of them. *)
Definition one_ahead (x : Instr) : bool :=
  match x with MulF64 | CallDynamicBinaryBoth DynamicAdd _ => true | _ => false end.

Lemma peek_add_spec c n :
  peek_add c n = true <-> exists l, c !! n = Some (CallDynamicBinaryBoth DynamicAdd l).
Proof.
  unfold peek_add. split; [|by intros [l ->]].
  destruct (c !! n) as [x|]; [|done]. destruct x; try done. destruct op; [|done]. eauto.
Qed.

Lemma peek_mul_spec c n : peek_mul c n = true <-> c !! n = Some MulF64.
Proof. unfold peek_mul. destruct (c !! n) as [[]|]; naive_solver. Qed.

Lemma peek_dup_mul_spec c n :
  peek_dup_mul c n = true <-> c !! n = Some DupF64 /\ c !! S n = Some MulF64.
Proof.
  unfold peek_dup_mul. rewrite <- peek_mul_spec. split; [|by intros [-> ?]].
  by destruct (c !! n) as [[]|].
Qed.

Lemma peek_dup_mul_false c n : c !! n <> Some DupF64 -> peek_dup_mul c n = false.
Proof. unfold peek_dup_mul. by destruct (c !! n) as [[]|]. Qed.

(** Nothing for [LoadSlotF64] to look ahead at. *)
Definition plain_before (next : option Instr) : bool :=
  match next with
  | Some DupF64 | Some (CallDynamicBinaryBoth DynamicAdd _) => false
  | _ => true
  end.

Lemma load_slot_f64_plain_at `{ExternalConversions} code slot s :
  plain_before (code !! ip s) = true ->
  exec_load_slot_f64 code slot s = load_slot_f64_plain slot s.
Proof.
  unfold exec_load_slot_f64. destruct (code !! ip s) as [next|]; [|done].
  destruct next; try done. by destruct op.
Qed.

Section Kept.
Context `{ExternalConversions}.

Lemma exec_load_slot_peek c slot s :
  exec_load_slot c slot s =
  let plain :=
    match mjoin (locals_slots (frame s) !! slot) with
    | Some v => Continue (push v s)
    | None => Raise (UndefVarError (slot_name_for_frame (frame s) slot)) s []
    end in
  match slot_exact_f64 (frame s) slot with
  | Some x =>
      if peek_dup_mul c (ip s) then Continue (set_ip (ip s + 2) (push (Value.F64 (f64_mul x x)) s))
      else if peek_mul c (ip s) then
        match stack s with
        | Value.F64 y :: st =>
            Continue (set_ip (S (ip s)) (set_stack (Value.F64 (f64_mul y x) :: st) s))
        | _ => plain
        end
      else plain
  | None => plain
  end.
Proof.
  unfold exec_load_slot, peek_dup_mul, peek_mul. destruct (slot_exact_f64 (frame s) slot); [|done].
  destruct (c !! ip s) as [[]|]; try done.
  by destruct (c !! S (ip s)) as [[]|].
Qed.

Lemma exec_load_slot_f64_peek c slot s :
  exec_load_slot_f64 c slot s =
  if peek_add c (ip s) then
    match slot_f64_for_op (frame s) slot, stack s with
    | Got x, Value.F64 y :: st =>
        Continue (set_ip (S (ip s)) (set_stack (Value.F64 (f64_add y x) :: st) s))
    | Bad e, _ => Fault e
    | _, _ => load_slot_f64_plain slot s
    end
  else if peek_dup_mul c (ip s) then
    read_slot (slot_f64_for_op (frame s) slot) slot s [] (fun x =>
      Continue (set_ip (ip s + 2) (push (Value.F64 (f64_mul x x)) s)))
  else load_slot_f64_plain slot s.
Proof.
  unfold exec_load_slot_f64, peek_dup_mul, peek_mul, peek_add.
  destruct (c !! ip s) as [x|]; [|done]. destruct x; try done; [by destruct (c !! S (ip s)) as [[]|]|].
  by destruct op.
Qed.

Variables code code' : list Instr.
Variable B : nat -> nat -> Prop.
Variable f : nat -> nat.
Variable dropped : nat -> Prop.

(** What the two programs show behind a pair of addresses. *)
Record same_view (i k : nat) : Prop := {
  view_mul : peek_mul code' k = peek_mul code i;
  view_dup_mul : peek_dup_mul code' k = peek_dup_mul code i;
  view_add : peek_add code' k = peek_add code i;
  after_one x : code !! i = Some x -> one_ahead x = true -> B (S i) (S k);
  after_dup_mul : peek_dup_mul code i = true -> B (i + 2) (k + 2)
}.

(** It is enough that the pass keeps the instructions that are looked for. *)
Lemma view_intro :
  (forall i k x, B i k -> is_looked_for x = true -> code' !! k = Some x <-> code !! i = Some x) ->
  (forall i k x, B i k -> code !! i = Some x -> is_looked_for x = true -> B (S i) (S k)) ->
  forall i k, B i k -> same_view i k.
Proof.
  intros Hsame Hnext.
  assert (forall i k, B i k -> peek_mul code' k = peek_mul code i) as Hmul.
  { intros i k Hb. apply eq_iff_eq_true. rewrite !peek_mul_spec. by apply Hsame. }
  intros i k Hb. pose proof (Hsame i k DupF64 Hb eq_refl) as Hdup. constructor.
  - by apply Hmul.
  - assert (code !! i = Some DupF64 \/ code !! i <> Some DupF64) as [E|E]
      by (destruct (code !! i) as [[]|]; auto).
    + unfold peek_dup_mul. rewrite (proj2 Hdup E), E. by apply Hmul, (Hnext _ _ DupF64).
    + rewrite !peek_dup_mul_false; [done|done|by rewrite Hdup].
  - apply eq_iff_eq_true. rewrite !peek_add_spec.
    by split; intros [l E]; exists l; apply (Hsame i k (CallDynamicBinaryBoth DynamicAdd l)).
  - intros x Hx Ho. apply (Hnext i k x); [done|done|]. by destruct x.
  - intros [E1 E2]%peek_dup_mul_spec.
    replace (i + 2) with (S (S i)) by lia; replace (k + 2) with (S (S k)) by lia.
    apply (Hnext _ _ MulF64); [by apply (Hnext _ _ DupF64)|done|done].
Qed.

(** An instruction that a pass keeps, addresses apart. *)
Lemma kept_match i k instr s :
  B (S i) (S k) -> (forall t, t ∈ jump_targets instr -> B t (f t)) ->
  (looks_ahead instr = true -> same_view (S i) (S k)) ->
  action_match B f dropped (dispatch_instr code instr (set_ip (S i) s))
    (dispatch_instr code' (map_targets f instr) (set_ip (S k) s)).
Proof.
  intros Hb HT Hv. destruct (looks_ahead instr) eqn:El.
  2: { eapply (relocated_match (S i) (S k) _ (jump_targets instr)); [|done|exact HT].
       by apply (dispatch_reloc (S i) (S k) _ _ code code' instr (set_ip (S i) s)). }
  destruct (Hv eq_refl) as [Hmul Hdup Hadd Hone Hd].
  assert (peek_mul code (S i) = true -> B (S (S i)) (S (S k))) as Hm.
  { intros E%peek_mul_spec. by apply (Hone MulF64). }
  assert (peek_add code (S i) = true -> B (S (S i)) (S (S k))) as Ha.
  { intros [l E]%peek_add_spec. by apply (Hone _ E). }
  destruct instr; try done; cbn [map_targets dispatch_instr execute_locals].
  - rewrite !exec_load_slot_peek. cbn [ip set_ip stack frame]. rewrite Hmul, Hdup.
    destruct (slot_exact_f64 (frame s) slot);
      [destruct (peek_dup_mul code (S i)); [|destruct (peek_mul code (S i))]|].
    + by apply match_continue; [apply Hd|].
    + destruct (stack s) as [|[] ?]; try (by apply match_continue; [apply Hm|]);
        destruct (mjoin _); by constructor.
    + destruct (mjoin _); by constructor.
    + destruct (mjoin _); by constructor.
  - rewrite !exec_load_slot_f64_peek. cbn [ip set_ip stack frame]. rewrite Hdup, Hadd.
    assert (action_match B f dropped (load_slot_f64_plain slot (set_ip (S i) s))
      (load_slot_f64_plain slot (set_ip (S k) s))) as Hplain.
    { unfold load_slot_f64_plain. cbn [frame set_ip]. repeat case_match; by constructor. }
    destruct (peek_add code (S i)); [|destruct (peek_dup_mul code (S i))].
    + destruct (slot_f64_for_op (frame s) slot) as [x| |]; [|exact Hplain|by constructor].
      destruct (stack s) as [|[] ?]; try exact Hplain. by apply match_continue; [apply Ha|].
    + destruct (slot_f64_for_op (frame s) slot); simpl;
        [by apply match_continue; [apply Hd|]|by constructor|by constructor].
    + exact Hplain.
Qed.
End Kept.

(** Where an instruction may leave the program counter. *)
Lemma next_address `{ExternalConversions} code i instr s s1 :
  dispatch_instr code instr (set_ip (S i) s) = Continue s1 ->
  ip s1 = S i \/ ip s1 ∈ jump_targets instr \/
  (looks_ahead instr = true /\
    (exists x, code !! S i = Some x /\ one_ahead x = true) /\ ip s1 = S (S i)) \/
  (looks_ahead instr = true /\ peek_dup_mul code (S i) = true /\ ip s1 = S i + 2).
Proof.
  intros Hd. destruct (looks_ahead instr) eqn:El.
  - destruct instr; try done; cbn [dispatch_instr execute_locals] in Hd.
    + rewrite exec_load_slot_peek in Hd. cbn [ip set_ip stack frame] in Hd.
      assert (match mjoin (locals_slots (frame s) !! slot) with
        | Some v => Continue (push v (set_ip (S i) s))
        | None => Raise (UndefVarError (slot_name_for_frame (frame s) slot)) (set_ip (S i) s) []
        end = Continue s1 -> ip s1 = S i) as Hplain by (destruct (mjoin _); by intros [= <-]).
      destruct (slot_exact_f64 (frame s) slot); [|by left; apply Hplain].
      destruct (peek_dup_mul code (S i)) eqn:E1; [injection Hd as <-; do 3 right; by split_and!|].
      destruct (peek_mul code (S i)) eqn:E2; [|by left; apply Hplain]. apply peek_mul_spec in E2.
      destruct (stack s) as [|[] ?]; try (by left; apply Hplain). injection Hd as <-.
      right; right; left. split_and!; [done| |done]. by exists MulF64.
    + rewrite exec_load_slot_f64_peek in Hd. cbn [ip set_ip stack frame] in Hd.
      assert (load_slot_f64_plain slot (set_ip (S i) s) = Continue s1 -> ip s1 = S i) as Hplain.
      { unfold load_slot_f64_plain. intros Hp. repeat case_match; by simplify_eq/=. }
      destruct (peek_add code (S i)) eqn:E1; [|destruct (peek_dup_mul code (S i)) eqn:E2].
      * apply peek_add_spec in E1 as [l E1].
        destruct (slot_f64_for_op (frame s) slot) as [x| |]; [|by left; apply Hplain|done].
        destruct (stack s) as [|[] ?]; try (by left; apply Hplain). injection Hd as <-.
        right; right; left. split_and!; [done| |done]. by eexists.
      * destruct (slot_f64_for_op (frame s) slot); try discriminate Hd. injection Hd as <-.
        do 3 right. by split_and!.
      * left. by apply Hplain.
  - pose proof (dispatch_reloc (S i) (S i) (fun t => t) (jump_targets instr) code code instr
      (set_ip (S i) s) eq_refl El ltac:(done)) as Hr.
    rewrite Hd in Hr. inversion Hr; subst; auto.
Qed.

(** Only the instructions that look ahead are never handed to the
    environment. *)
Lemma looks_ahead_resume `{ExternalConversions} env code instr s :
  looks_ahead instr = true -> resume env (dispatch_instr code instr s) = None.
Proof.
  intros Hl. destruct instr; try discriminate Hl; cbn [dispatch_instr execute_locals];
    [unfold exec_load_slot|unfold exec_load_slot_f64, read_slot, load_slot_f64_plain];
    repeat case_match; done.
Qed.

(** The environment hands control back behind the instruction. *)
Lemma resume_address `{ExternalConversions} G env code i instr s s1 :
  environment_ok G env -> resume env (dispatch_instr code instr (set_ip (S i) s)) = Some s1 ->
  ip s1 = S i.
Proof.
  intros He Hr. destruct (looks_ahead instr) eqn:El; [by rewrite looks_ahead_resume in Hr|].
  pose proof (dispatch_reloc (S i) (S i) (fun t => t) (jump_targets instr) code code instr
    (set_ip (S i) s) eq_refl El ltac:(done)) as Hrel.
  assert (forall s0 (r : Vm -> option Vm), ip s0 = S i -> (forall n, r (set_ip n s0) = set_ip n <$> r s0) ->
    r s0 = Some s1 -> ip s1 = S i) as Hmv.
  { intros s0 r Hip Hmv E. specialize (Hmv (ip s0)).
    replace (set_ip (ip s0) s0) with s0 in Hmv by by destruct s0.
    rewrite E in Hmv. injection Hmv as Hmv. by rewrite Hmv. }
  destruct Hrel as [| | | |kind g args s0 Hip| |x s0 Hip]; try discriminate Hr.
  - apply (Hmv s0 (call_returns env kind g args)); [done|intros n; by apply call_moves with G|done].
  - apply (Hmv s0 (external_step env x)); [done|intros n; by apply external_moves with G|done].
Qed.
