(* ===== verification/PeepholeExec.v ===== *)
(** * Soundness of the fusion rules

    What it means for a window of the peephole optimizer to be fused soundly:
    running the instructions of the window on a machine state does what the one
    fused instruction does ([window_sound]), on every branch, errors
    included. *)

From S2P Require Export PeepholeMap Simulation.

(** ** The rules *)

Section Rules.
Context `{ExternalConversions}.
Variable G : slot_typing.
Variables code code' : list Instr.
Hypothesis Htyped : code_typed G code.
Variable protection : option MainStoreProtection.
Variable f : nat -> nat.

(** Slots whose store Pattern 0 may drop. *)
Definition dropped_slot (slot : nat) : Prop :=
  exists i, code !! S i = Some (StoreSlotI64 slot) /\
    is_protected_store protection i slot = false.

(** The addresses at the exits of a window that ends before [n] and whose
    fused instruction stands before [n']. *)
Definition exits (n n' : nat) (T : list nat) (x k : nat) : Prop :=
  (x = n /\ k = n') \/ (x ∈ T /\ k = f x).

(** What a rule must satisfy at a state. *)
Definition window_sound (i consumed : nat) (fused : Instr) : Prop :=
  forall s k, ip s = i -> state_ok G s ->
    exists n, 1 <= n /\
      action_match (exits (i + consumed) (S k) (jump_targets fused)) f dropped_slot
        (steps code n s) (dispatch_instr code' (map_targets f fused) (set_ip (S k) s)).


Lemma typed_at i instr : code !! i = Some instr -> instr_typed G instr.
Proof. intros E. by apply (Forall_lookup_1 _ _ _ _ Htyped E). Qed.
End Rules.

(** * Symbolic execution of a window

    The tactics that run both sides of a fusion rule: the instructions of the
    window, looked up in the old code, and the fused instruction. *)

Arguments steps : simpl never.
Arguments exec_load_slot_f64 : simpl never.
Arguments wrap_s : simpl never.
Arguments f64_add : simpl never.
Arguments f64_sub : simpl never.
Arguments f64_mul : simpl never.
Arguments f64_div : simpl never.
Arguments f64_of_Z : simpl never.
Arguments f64_eqb : simpl never.
Arguments f64_ltb : simpl never.
Arguments f64_leb : simpl never.
Arguments ordering_in : simpl never.
Arguments signed_slot_op : simpl never.

(** ** Ordered comparisons through [partial_cmp] *)

Lemma SFcompare_swap a b : SFcompare b a = CompOpp <$> SFcompare a b.
Proof.
  assert (forall m1 m2, Pcompare m2 m1 Datatypes.Eq = CompOpp (Pcompare m1 m2 Datatypes.Eq)) as Hp.
  { intros m1 m2. apply Pos.compare_antisym. }
  destruct a as [[]|[]| |[] m1 e1], b as [[]|[]| |[] m2 e2]; try reflexivity; simpl;
    rewrite (Z.compare_antisym e1 e2); destruct (Z.compare e1 e2); simpl; try reflexivity;
    do 2 f_equal; by rewrite Hp, ?CompOpp_involutive.
Qed.

Lemma ordering_in_ltb a b : ordering_in [Datatypes.Lt] a b = f64_ltb a b.
Proof.
  unfold ordering_in, f64_partial_cmp, f64_ltb, SFltb. by destruct (SFcompare a b) as [[]|].
Qed.

Lemma ordering_in_gtb a b : ordering_in [Datatypes.Gt] a b = f64_ltb b a.
Proof.
  unfold ordering_in, f64_partial_cmp, f64_ltb, SFltb. rewrite (SFcompare_swap a b).
  by destruct (SFcompare a b) as [[]|].
Qed.

Lemma ordering_in_leb a b : ordering_in [Datatypes.Lt; Datatypes.Eq] a b = f64_leb a b.
Proof.
  unfold ordering_in, f64_partial_cmp, f64_leb, SFleb. by destruct (SFcompare a b) as [[]|].
Qed.

Lemma ordering_in_geb a b : ordering_in [Datatypes.Gt; Datatypes.Eq] a b = f64_leb b a.
Proof.
  unfold ordering_in, f64_partial_cmp, f64_leb, SFleb. rewrite (SFcompare_swap a b).
  by destruct (SFcompare a b) as [[]|].
Qed.


(** Normalises [i + n] in lookups. *)
Ltac norm_lookups :=
  repeat match goal with
         | E : (?l : list Instr) !! (?i + _) = _ |- _ =>
             rewrite !Nat.add_succ_r, ?Nat.add_0_r in E
         end.

(** Opens a window: the state as a record, the typing facts of its
    instructions, [n] turns. *)
Ltac open_window n :=
  norm_lookups;
  repeat match goal with
         | E : bool_decide _ = true |- _ => apply bool_decide_eq_true in E
         | E : bool_decide _ = false |- _ => apply bool_decide_eq_false in E
         | E : _ && _ = true |- _ => apply andb_prop in E as [? ?]
         end; simplify_eq;
  repeat match goal with
         | Hty : code_typed ?G ?c, E : ?c !! _ = Some ?x |- _ =>
             lazymatch goal with
             | _ : instr_typed G x |- _ => fail
             | _ => let Ht := fresh "Ht" in pose proof (typed_at G c Hty _ _ E) as Ht
             end
         end;
  intros [ip0 st fr gl] k Hip Hok; simpl in Hip; subst ip0;
  exists n; split; [lia|]; cbn [instr_typed] in *; destruct_and?;
  cbn [set_ip frame stack global_frame ip].

Ltac unfold_handlers :=
  unfold exec_load_slot_i64, exec_store_slot_i64, exec_load_slot_i64_to_f64,
    exec_load_op_i64_slot, exec_load_mod_i64_slot, exec_load_add_const_i64_slot,
    exec_inc_var_i64_slot, exec_dec_var_i64_slot, exec_add_const_i64_slot, update_slot_i64,
    store_slot_or_fault, store_slot, read_numeric, slot_i64, slot_f64,
    load_i64_slot_for_jump, exec_jump_if_gt_i64_slots, exec_jump_if_zero, jump_cmp_i64,
    cmp_i64, binop_i64, binop_f64, cmp_f64, jump_f64, pop_i64, pop_f64_or_i64, pop_value,
    exec_load_i64, exec_load_op_i64, exec_load_mod_i64, i64_value_from_current_or_global_frame,
    jump_if, jump_to, load_slot_f64_plain, exec_load_op_f64_slot,
    slot_f64_for_op, slot_exact_f64, exec_store_slot_f64, exec_add_f64_slots,
    exec_load_square_f64_slot, exec_add_const_and_jump_if_le.

(** The look-ahead of [LoadSlotF64] when the next instructions are known. *)
Lemma load_slot_f64_square_at `{ExternalConversions} code slot s :
  code !! ip s = Some DupF64 -> code !! S (ip s) = Some MulF64 ->
  exec_load_slot_f64 code slot s =
  read_slot (slot_f64_for_op (frame s) slot) slot s [] (fun x =>
    Continue (set_ip (ip s + 2) (push (Value.F64 (f64_mul x x)) s))).
Proof. intros E1 E2. unfold exec_load_slot_f64. by rewrite E1, E2. Qed.

(** States as records. *)
Ltac norm_states :=
  unfold push, set_ip, set_stack, set_frame, set_global, set_any, store_any;
  cbn [ip stack frame global_frame locals_slots set_slots].

(** Runs the window as far as the known lookups go. *)
Ltac exec_step :=
  match goal with
  | E : locals_slots ?fr !! ?x = _ |- context [locals_slots ?fr !! ?x] => rewrite E
  | E : forall v, <[?x := v]> ?l !! ?y = _ |- context [<[?x := _]> ?l !! ?y] => rewrite E
  | |- context [steps ?c (S ?n) {| ip := ?a; stack := ?st; frame := ?fr; global_frame := ?g |}] =>
      match goal with
      | E : c !! a = Some ?instr |- _ =>
          rewrite (steps_at c n {| ip := a; stack := st; frame := fr; global_frame := g |} instr E)
      end
  | |- context [exec_load_slot_f64 ?c ?slot {| ip := ?a; stack := ?st; frame := ?fr; global_frame := ?g |}] =>
      let s := constr:({| ip := a; stack := st; frame := fr; global_frame := g |}) in
      match goal with
      | E1 : c !! a = Some DupF64, E2 : c !! S a = Some MulF64 |- _ =>
          rewrite (load_slot_f64_square_at c slot s E1 E2)
      | E : c !! a = Some ?next |- _ =>
          rewrite (load_slot_f64_plain_at c slot s) by (cbn [ip]; rewrite E; reflexivity)
      end
  | |- context [steps ?c 0 ?s] => change (steps c 0 s) with (Continue s)
  end.
Ltac exec := repeat (unfold_handlers; simpl; norm_states; try exec_step).

(** The cases of the slots that the window reads. *)
Ltac slot_cases :=
  repeat match goal with
         | Hok : state_ok ?G ?s, HG : ?G ?slot = ?kind |- _ =>
             lazymatch goal with
             | _ : locals_slots (frame s) !! slot = _ |- _ => fail
             | _ : locals_slots _ !! slot = _ |- _ => fail
             | _ => let z := fresh "z" in let Hz := fresh "Hz" in
                    lazymatch kind with
                    | KI64 => destruct (slot_ok_i64 _ s slot Hok HG) as [Hz|(z & Hz & ?)]
                    | KF64 => destruct (slot_ok_f64 _ s slot Hok HG) as [Hz|(z & Hz)]
                    end; simpl in Hz
             end
         end.

(** Splits on what neither program knows in advance: the operands on the stack
    and the outcome of comparisons. *)
Ltac split_goal :=
  repeat (match goal with
          | |- context [match ?x with _ => _ end] =>
              lazymatch x with
              | context [match _ with _ => _ end] => fail
              | _ =>
                  lazymatch type of x with
                  | DispatchAction => fail
                  | _ => destruct x eqn:?; simplify_eq; exec
                  end
              end
          end).

Lemma top_ok G ip0 v st fr gl :
  state_ok G {| ip := ip0; stack := v :: st; frame := fr; global_frame := gl |} ->
  wf_value v /\ i128_operand v.
Proof. intros Hok. pose proof (stack_ok G _ Hok) as Hst. by inversion Hst. Qed.

(** Branches that a comparison rules out. *)
Ltac absurd_branch :=
  exfalso;
  rewrite ?ordering_in_ltb, ?ordering_in_gtb, ?ordering_in_leb, ?ordering_in_geb in *;
  repeat match goal with
         | E : bool_decide _ = true |- _ => apply bool_decide_eq_true in E
         | E : bool_decide _ = false |- _ => apply bool_decide_eq_false in E
         | E : negb _ = _ |- _ => apply (f_equal negb) in E; rewrite negb_involutive in E
         end; simpl in *; first [congruence | lia].

(** Closes a pair of outcomes. *)
Ltac same := split_and!; simpl; first [reflexivity | congruence].
Ltac finish :=
  first
    [ apply match_fault
    | apply match_continue; [left; split; simpl; lia|same]
    | apply match_continue;
        [right; simpl; split; [apply list_elem_of_singleton; lia|f_equal; lia]|same]
    | apply match_raise; same
    | eapply (match_raise_above _ _ _ _ _ _ [_]);
        [reflexivity|reflexivity|reflexivity|left; reflexivity]
    | apply match_raise_fault; simpl; first [reflexivity|assumption] ].
