(* ===== verification/PeepholeRules.v ===== *)
(** * Soundness of the straight-line fusion rules

    The rules whose window is run from its first instruction to its last with
    no address but its own exits. *)

From S2P Require Export PeepholeExec.

Section Rules.
Context `{ExternalConversions}.
Variable G : slot_typing.
Variables code code' : list Instr.
Hypothesis Htyped : code_typed G code.
Variable protection : option MainStoreProtection.
Variable f : nat -> nat.

Abbreviation window_sound := (window_sound G code code' protection f).
Abbreviation typed_at := (typed_at G code Htyped).
Abbreviation dropped_slot := (dropped_slot code protection).

Lemma float64_conversion_sound i fused consumed :
  fuse_float64_conversion code i = Some (fused, consumed) -> window_sound i consumed fused.
Proof.
  unfold fuse_float64_conversion. intros H'. invert_match H'; injection H' as <- <-.
  all: open_window 2; slot_cases; exec; split_goal; rewrite ?wrap_s_add_r, ?wrap_s_sub_neg by lia;
    first [finish | absurd_branch].
Qed.

Lemma gt_slots_sound i fused consumed :
  fuse_gt_slots code i = Some (fused, consumed) -> window_sound i consumed fused.
Proof.
  unfold fuse_gt_slots. intros H'. invert_match H'; injection H' as <- <-.
  all: open_window 3; slot_cases; exec; split_goal; rewrite ?wrap_s_add_r, ?wrap_s_sub_neg by lia;
    first [finish | absurd_branch].
Qed.

Lemma const_update_sound i fused consumed :
  fuse_const_update code i = Some (fused, consumed) -> window_sound i consumed fused.
Proof.
  unfold fuse_const_update. intros H'. invert_match H'; injection H' as <- <-.
  all: open_window 2; slot_cases; exec; split_goal; rewrite ?wrap_s_add_r, ?wrap_s_sub_neg by lia;
    first [finish | absurd_branch].
Qed.

Lemma const_i64_sound i fused consumed :
  fuse_const_i64 code i = Some (fused, consumed) -> window_sound i consumed fused.
Proof.
  unfold fuse_const_i64. intros H'. invert_match H'; injection H' as <- <-.
  all: open_window 3; slot_cases; exec; split_goal; rewrite ?wrap_s_add_r, ?wrap_s_sub_neg by lia;
    first [finish | absurd_branch].
Qed.

Lemma const_f64_sound i fused consumed :
  fuse_const_f64 code i = Some (fused, consumed) -> window_sound i consumed fused.
Proof.
  unfold fuse_const_f64. intros H'. invert_match H'; injection H' as <- <-.
  all: open_window 3; slot_cases; exec; split_goal; rewrite ?wrap_s_add_r, ?wrap_s_sub_neg by lia;
    first [finish | absurd_branch].
Qed.

Lemma named_load_op_sound i fused consumed :
  fuse_named_load_op code i = Some (fused, consumed) -> window_sound i consumed fused.
Proof.
  unfold fuse_named_load_op. intros H'. invert_match H'; injection H' as <- <-.
  all: open_window 2; slot_cases; exec; split_goal; rewrite ?wrap_s_add_r, ?wrap_s_sub_neg by lia;
    first [finish | absurd_branch].
Qed.

Lemma cmp_const_direct_sound i fused consumed :
  fuse_cmp_const_direct code i = Some (fused, consumed) -> window_sound i consumed fused.
Proof.
  unfold fuse_cmp_const_direct, direct_jump, inverted_cmp. intros H'. invert_match H'; injection H' as <- <-.
  all: open_window 3; slot_cases; exec; split_goal; rewrite ?wrap_s_add_r, ?wrap_s_sub_neg by lia;
    first [finish | absurd_branch].
Qed.

Lemma cmp_const_zero_sound i fused consumed :
  fuse_cmp_const_zero code i = Some (fused, consumed) -> window_sound i consumed fused.
Proof.
  unfold fuse_cmp_const_zero, direct_jump, inverted_cmp. intros H'. invert_match H'; injection H' as <- <-.
  all: open_window 4; slot_cases; exec; split_goal; rewrite ?wrap_s_add_r, ?wrap_s_sub_neg by lia;
    first [finish | absurd_branch].
Qed.

Lemma slot_const_update_sound i fused consumed :
  fuse_slot_const_update code i = Some (fused, consumed) -> window_sound i consumed fused.
Proof.
  unfold fuse_slot_const_update. intros H'. invert_match H'; injection H' as <- <-.
  all: open_window 4; slot_cases; exec; split_goal; rewrite ?wrap_s_add_r, ?wrap_s_sub_neg by lia;
    first [finish | absurd_branch].
Qed.

Lemma slot_const_op_sound i fused consumed :
  fuse_slot_const_op code i = Some (fused, consumed) -> window_sound i consumed fused.
Proof.
  unfold fuse_slot_const_op. intros H'. invert_match H'; injection H' as <- <-.
  all: open_window 3; slot_cases; exec; split_goal; rewrite ?wrap_s_add_r, ?wrap_s_sub_neg by lia;
    first [finish | absurd_branch].
Qed.

Lemma slot_load_op_sound i fused consumed :
  fuse_slot_load_op code i = Some (fused, consumed) -> window_sound i consumed fused.
Proof.
  unfold fuse_slot_load_op. intros H'. invert_match H'; injection H' as <- <-.
  all: open_window 2; slot_cases; exec; destruct st as [|v st]; exec; try finish;
    try (destruct (top_ok _ _ _ _ _ _ Hok); rewrite signed_slot_op_i64 by done);
    split_goal; repeat match goal with
           | E : value_to_i64 _ = Err _ |- _ => apply value_to_i64_err in E as ->
           end; first [finish | absurd_branch].
Qed.

Lemma f64_load_op_sound i fused consumed :
  fuse_f64_load_op code i = Some (fused, consumed) -> window_sound i consumed fused.
Proof.
  unfold fuse_f64_load_op. intros H'. invert_match H'; injection H' as <- <-.
  all: open_window 2; slot_cases; exec; split_goal; rewrite ?wrap_s_add_r, ?wrap_s_sub_neg by lia;
    first [finish | absurd_branch].
Qed.

Lemma cmp_jump_sound i fused consumed :
  fuse_cmp_jump code i = Some (fused, consumed) -> window_sound i consumed fused.
Proof.
  unfold fuse_cmp_jump. intros H'. invert_match H'; injection H' as <- <-.
  all: open_window 2; exec; split_goal; rewrite ?wrap_s_add_r, ?wrap_s_sub_neg by lia;
    first [finish | absurd_branch].
Qed.

(** Pattern 2b, the update rule: only its increment half is sound (see
    [Examples]). *)
Lemma slot_update_sound i slot consumed :
  fuse_slot_update code i = Some (IncVarI64Slot slot, consumed) ->
  window_sound i consumed (IncVarI64Slot slot).
Proof.
  unfold fuse_slot_update. intros H'. invert_match H'. injection H' as <- <-.
  open_window 3; slot_cases; exec; destruct st as [|v st]; exec;
    split_goal; rewrite ?(Z.add_comm z); first [finish | absurd_branch].
Qed.

Lemma f64_slots_sound i fused consumed :
  fuse_f64_slots code i = Some (fused, consumed) -> window_sound i consumed fused.
Proof.
  unfold fuse_f64_slots. intros H'. invert_match H'; injection H' as <- <-.
  - open_window 5; slot_cases; exec; finish.
  - open_window 4; slot_cases; exec; finish.
  - open_window 4; slot_cases; exec; finish.
Qed.

Lemma f64_square_sound i fused consumed :
  fuse_f64_square code i = Some (fused, consumed) -> window_sound i consumed fused.
Proof.
  unfold fuse_f64_square. intros H'. invert_match H'; injection H' as <- <-.
  - open_window 3; slot_cases; exec; finish.
  - open_window 1; slot_cases; exec; finish.
Qed.
End Rules.

(** * Soundness of the slot-argument calls

    A run of typed slot loads followed by a call is one instruction that reads
    the argument slots itself. *)

Section Rules.
Context `{ExternalConversions}.
Variable G : slot_typing.
Variables code code' : list Instr.
Hypothesis Htyped : code_typed G code.
Variable protection : option MainStoreProtection.
Variable f : nat -> nat.

Abbreviation window_sound := (window_sound G code code' protection f).
Abbreviation typed_at := (typed_at G code Htyped).
Abbreviation dropped_slot := (dropped_slot code protection).

(** *** Slot-argument calls *)

(** The slot-argument calls of the source: all slots typed, or one by one. *)
Lemma exec_call_i64_slots_general kind g slots s :
  exec_call_i64_slots kind g slots s =
  load_slot_args read_numeric slots [] s (fun args => CallOut kind g args s).
Proof.
  unfold exec_call_i64_slots. destruct (mapM (slot_i64 (frame s)) slots) as [zs|] eqn:E; [|done].
  apply mapM_Some_1 in E.
  assert (forall acc, load_slot_args read_numeric slots acc s (fun args => CallOut kind g args s) =
                      CallOut kind g (acc ++ (Value.I64 <$> zs)) s) as Hacc; [|by rewrite Hacc].
  induction E as [|slot z slots zs Hz _ IH]; intros acc; simpl; [by rewrite app_nil_r|].
  unfold read_numeric at 1. rewrite Hz. simpl. rewrite IH. by rewrite <- app_assoc.
Qed.

Lemma exec_call_f64_slots_general kind g slots s :
  exec_call_f64_slots kind g slots s =
  load_slot_args read_f64_arg slots [] s (fun args => CallOut kind g args s).
Proof.
  unfold exec_call_f64_slots. destruct (mapM (slot_f64 (frame s)) slots) as [zs|] eqn:E; [|done].
  apply mapM_Some_1 in E.
  assert (forall acc, load_slot_args read_f64_arg slots acc s (fun args => CallOut kind g args s) =
                      CallOut kind g (acc ++ (Value.F64 <$> zs)) s) as Hacc; [|by rewrite Hacc].
  induction E as [|slot z slots zs Hz _ IH]; intros acc; simpl; [by rewrite app_nil_r|].
  unfold read_f64_arg at 1. rewrite Hz. simpl. rewrite IH. by rewrite <- app_assoc.
Qed.

Lemma pop_args_rev vs acc s st kont :
  stack s = rev vs ++ st ->
  pop_args (length vs) s acc kont = kont (vs ++ acc) (set_stack st s).
Proof.
  revert acc s. induction vs as [|v vs IH] using rev_ind; intros acc s Hst.
  - simpl in *. subst st. by destruct s.
  - rewrite length_app, Nat.add_comm. simpl. unfold pop_value.
    rewrite Hst, rev_app_distr. simpl.
    rewrite IH by done. by rewrite <- app_assoc.
Qed.

(** A load of the run: it pushes what the argument read gets, or raises. *)
Definition load_reads (mk : nat -> Instr) (read : Frame -> nat -> SlotRead value) : Prop :=
  forall i slot s, code !! i = Some (mk slot) -> plain_before (code !! S i) = true ->
    ip s = i -> state_ok G s ->
    (exists v, read (frame s) slot = Got v /\
       step code s = Continue (push v (set_ip (S i) s))) \/
    (read (frame s) slot = Undef /\
       step code s = Raise (UndefVarError (slot_name_for_frame (frame s) slot))
         (set_ip (S i) s) []).

Lemma run_of_loads mk read slots i acc s s' st :
  load_reads mk read ->
  (forall j slot, slots !! j = Some slot ->
     code !! (i + j) = Some (mk slot) /\ plain_before (code !! S (i + j)) = true) ->
  ip s = i -> state_ok G s -> stack s = rev acc ++ st -> frame s' = frame s ->
  (exists vs s1,
     (forall kont, load_slot_args read slots acc s' kont = kont (acc ++ vs)) /\
     length vs = length slots /\ steps code (length slots) s = Continue s1 /\
     ip s1 = i + length slots /\ stack s1 = rev (acc ++ vs) ++ st /\
     frame s1 = frame s /\ global_frame s1 = global_frame s) \/
  (exists e pushed s1,
     (forall kont, load_slot_args read slots acc s' kont = Raise e s' pushed) /\
     steps code (length slots) s = Raise e s1 [] /\ stack s1 = rev pushed ++ st /\
     frame s1 = frame s /\ global_frame s1 = global_frame s).
Proof.
  intros Hread. revert i acc s.
  induction slots as [|slot slots IH]; intros i acc s Hcode Hip Hok Hst Hfr; simpl; [|rewrite !steps_S].
  - left. exists [], s. rewrite app_nil_r. split_and!; try done. by rewrite Nat.add_0_r.
  - destruct (Hcode 0 slot) as [Hi Hnext]; [done|]. rewrite Nat.add_0_r in Hi, Hnext.
    destruct (Hread i slot s Hi Hnext Hip Hok) as [(v & Hv & Hstep)|(Hv & Hstep)]; rewrite Hstep.
    + assert (val_ok v) as Hvok.
      { pose proof (step_ok G code s Htyped Hok) as Hs. rewrite Hstep in Hs.
        pose proof (stack_ok G _ Hs) as Hs'. by inversion Hs'. }
      destruct (IH (S i) (acc ++ [v]) (push v (set_ip (S i) s)))
        as [(vs & s1 & Hk & Hl & Hs & Hip1 & Hst1 & Hf1 & Hg1)|(e & pushed & s1 & Hk & Hs & Hst1 & Hf1 & Hg1)].
      * intros j slot' Hj. rewrite Nat.add_succ_comm. by apply (Hcode (S j)).
      * done.
      * by apply state_ok_push, state_ok_ip.
      * simpl. rewrite Hst, rev_app_distr. done.
      * done.
      * left. exists (v :: vs), s1. split_and!; try done.
        -- intros kont. rewrite Hfr, Hv. simpl. rewrite Hk. f_equal. by rewrite <- app_assoc.
        -- simpl. by rewrite Hl.
        -- rewrite Hip1. lia.
        -- rewrite Hst1. by rewrite <- app_assoc.
      * right. exists e, pushed, s1. split_and!; try done.
        intros kont. rewrite Hfr, Hv. apply Hk.
    + right. exists (UndefVarError (slot_name_for_frame (frame s) slot)), acc.
      eexists. split_and!; try done. intros kont. by rewrite Hfr, Hv, <- Hfr.
Qed.

Lemma slot_call_sound mk read slots i call kind g fused :
  load_reads mk read ->
  (forall j slot, slots !! j = Some slot -> code !! (i + j) = Some (mk slot)) ->
  (forall slot, plain_before (Some (mk slot)) = true) -> plain_before (Some call) = true ->
  code !! (i + length slots) = Some call ->
  (forall s, dispatch_instr code call s =
     pop_args (length slots) s [] (fun args s => CallOut kind g args s)) ->
  (forall s, dispatch_instr code' (map_targets f fused) s =
     load_slot_args read slots [] s (fun args => CallOut kind g args s)) ->
  window_sound i (length slots + 1) fused.
Proof.
  intros Hread Hcode Hmk Hncall Hcall Hdis Hfused s k Hip Hok.
  assert (forall j slot, slots !! j = Some slot ->
    code !! (i + j) = Some (mk slot) /\ plain_before (code !! S (i + j)) = true) as Hcode'.
  { intros j slot Hj. split; [by apply Hcode|]. rewrite <- Nat.add_succ_r.
    destruct (slots !! S j) as [slot'|] eqn:Hj'.
    - by rewrite (Hcode _ _ Hj').
    - apply lookup_lt_Some in Hj. apply lookup_ge_None in Hj'.
      replace (S j) with (length slots) by lia. by rewrite Hcall. }
  exists (length slots + 1). split; [lia|]. rewrite steps_add, Hfused.
  destruct (run_of_loads mk read slots i [] s (set_ip (S k) s) (stack s) Hread Hcode' Hip Hok)
    as [(vs & s1 & Hk & Hl & Hs & Hip1 & Hst1 & Hf1 & Hg1)|(e & pushed & s1 & Hk & Hs & Hst1 & Hf1 & Hg1)];
    [done|done| |]; rewrite Hk, Hs.
  - simpl. rewrite steps_S. unfold step. rewrite Hip1, Hcall, Hdis, <- Hl, (pop_args_rev _ _ _ (stack s)) by done.
    rewrite app_nil_r. apply match_call; [left; simpl; lia|]. by split_and!.
  - eapply (match_raise_above _ _ _ _ _ _ (rev pushed)); try done.
    right. by rewrite rev_involutive.
Qed.

Lemma load_slot_i64_reads : load_reads LoadSlotI64 read_numeric.
Proof.
  intros i slot s Hi _ Hip Hok. pose proof (typed_at _ _ Hi) as Ht. simpl in Ht.
  unfold step. rewrite Hip, Hi. unfold dispatch_instr, execute_locals, exec_load_slot_i64.
  cbn [frame set_ip]. unfold read_numeric, slot_i64.
  destruct (slot_ok_i64 G s slot Hok Ht) as [->|(z & -> & _)]; simpl; eauto.
Qed.

(** Loads that no [DupF64] follows do not trigger the look-ahead. *)
Lemma load_slot_f64_reads : load_reads LoadSlotF64 read_f64_arg.
Proof.
  intros i slot s Hi Hnext Hip Hok. pose proof (typed_at _ _ Hi) as Ht. simpl in Ht.
  unfold step. rewrite Hip, Hi. unfold dispatch_instr, execute_locals.
  cbn [frame set_ip ip].
  rewrite load_slot_f64_plain_at by done.
  unfold load_slot_f64_plain, read_f64_arg, slot_f64. cbn [frame set_ip].
  destruct (slot_ok_f64 G s slot Hok Ht) as [->|(x & ->)]; simpl; eauto.
Qed.

Lemma slot_arg_call_sound i fused consumed :
  try_fuse_slot_arg_call code i = Some (fused, consumed) -> window_sound i consumed fused.
Proof.
  assert (forall l n j slot, load_run code l n i !! j = Some slot ->
    exists x, code !! (i + j) = Some x /\ l x = Some slot) as Hrun.
  { intros l n j slot Hj. apply load_run_spec in Hj.
    destruct (code !! (i + j)) as [x|]; [|done]. eauto. }
  unfold try_fuse_slot_arg_call, try_fuse_f64_slot_arg_call. intros H'.
  invert_match H'; injection H' as <- <-;
    repeat match goal with
           | E : bool_decide _ = true |- _ => apply bool_decide_eq_true in E
           end; simplify_eq.
  all: match goal with
       | Hc : _ !! (_ + length (load_run _ ?l _ _)) = Some ?call |- _ =>
           lazymatch l with
           | load_slot_i64_of =>
               eapply (slot_call_sound LoadSlotI64 read_numeric _ _ call);
                 [apply load_slot_i64_reads| |done|done|exact Hc| |]
           | load_slot_f64_of =>
               eapply (slot_call_sound LoadSlotF64 read_f64_arg _ _ call);
                 [apply load_slot_f64_reads| |done|done|exact Hc| |]
           end
       end.
  all: match goal with
       | |- forall (j slot : nat), _ =>
           let Hx := fresh in let E := fresh in
           intros j slot (x & Hx & E)%Hrun; destruct x; simplify_eq/=; exact Hx
       | |- forall (s : Vm), dispatch_instr code _ s = _ => intros s; reflexivity
       | _ => intros s; apply exec_call_i64_slots_general
       | _ => intros s; apply exec_call_f64_slots_general
       end.
Qed.
End Rules.

(** * Soundness of the counted-loop back-edge and of the dropped stores

    The two rules whose window depends on code outside of it: the loop header
    that a back-edge returns to, and the return after a stored constant. *)

Section Rules.
Context `{ExternalConversions}.
Variable G : slot_typing.
Variables code code' : list Instr.
Hypothesis Htyped : code_typed G code.
Variable protection : option MainStoreProtection.
Variable f : nat -> nat.

Abbreviation window_sound := (window_sound G code code' protection f).
Abbreviation typed_at := (typed_at G code Htyped).
Abbreviation dropped_slot := (dropped_slot code protection).

(** *** The counted-loop back-edge *)

Lemma insert_slot_lookup {A} (l : list A) slot x :
  l !! slot = Some x -> forall v, <[slot := v]> l !! slot = Some v.
Proof. intros E v. apply list_lookup_insert_eq. by eapply lookup_lt_Some. Qed.

Lemma insert_slot_lookup_ne {A} (l : list A) slot stop x :
  slot <> stop -> l !! stop = x -> forall v, <[slot := v]> l !! stop = x.
Proof. intros Hne E v. by rewrite list_lookup_insert_ne. Qed.

(** The slots of the loop: the counter and the limit may be one slot. *)
Ltac loop_slots slot stop :=
  destruct (decide (slot = stop));
  [ subst; slot_cases;
    try match goal with
        | Hz : locals_slots _ !! stop = Some (Some _) |- _ =>
            pose proof (insert_slot_lookup _ _ _ Hz)
        end
  | slot_cases;
    repeat match goal with
        | Hne : slot <> stop, Hz : locals_slots ?fr !! slot = Some (Some _) |- _ =>
            lazymatch goal with
            | _ : forall v, <[slot := v]> _ !! slot = _ |- _ => fail
            | _ => pose proof (insert_slot_lookup _ _ _ Hz)
            end
        | Hne : slot <> stop, Hz : locals_slots ?fr !! stop = _ |- _ =>
            lazymatch goal with
            | _ : forall v, <[slot := v]> _ !! stop = _ |- _ => fail
            | _ => pose proof (insert_slot_lookup_ne _ _ _ _ Hne Hz)
            end
        end ].

Lemma loop_backedge_sound i fused consumed :
  try_fuse_counted_loop_backedge code i = Some (fused, consumed) -> window_sound i consumed fused.
Proof.
  unfold try_fuse_counted_loop_backedge, counted_loop_tail. intros H'.
  invert_match H'; simplify_eq.
  all: match goal with
       | |- PeepholeExec.window_sound _ _ _ _ _ _ ?c (AddConstI64SlotAndJumpIfLe ?slot _ ?stop (_ + ?h)) =>
           let n := eval cbv in (c + h) in
           open_window n; loop_slots slot stop; exec; split_goal; first [finish | absurd_branch]
       end.
Qed.

(** *** The dropped stores *)

(** Pattern 0: the stored constant is only returned; the fused push and the
    return do what the window and the return do, the slot apart. *)
Lemma store_return_sound i k fused consumed :
  fuse_store_return code protection i = Some (fused, consumed) \/
  fuse_store_op_return code protection i = Some (fused, consumed) ->
  code' !! k = Some fused -> code' !! S k = Some ReturnI64 ->
  forall s B, ip s = i -> state_ok G s ->
    action_match B f dropped_slot (steps code (consumed + 1) s)
      (steps code' 2 (set_ip k s)).
Proof.
  intros Hfuse Hk Hk1 s B.
  assert (forall slot v n (st : list value) fr gl,
    code !! S i = Some (StoreSlotI64 slot) -> is_protected_store protection i slot = false ->
    locals_slots fr !! slot = Some v -> forall w z m,
    action_match B f dropped_slot
      (ReturnOut ReturnI64 (Value.I64 z) {| ip := n; stack := st;
         frame := set_slots (<[slot := w]> (locals_slots fr)) fr; global_frame := gl |})
      (ReturnOut ReturnI64 (Value.I64 z)
         {| ip := m; stack := st; frame := fr; global_frame := gl |})) as Hret.
  { intros. eapply (match_return_dropped _ _ _ _ _ _ _ slot); [eexists|..]; eauto. }
  destruct Hfuse as [H'|H']; unfold fuse_store_return, fuse_store_op_return in H'; invert_match H';
    injection H' as <- <-.
  all: norm_lookups.
  all: match goal with
       | E : bool_decide _ && _ = true |- _ =>
           apply andb_prop in E as [E%bool_decide_eq_true Hp%negb_true_iff]; subst
       end.
  all: intros Hip Hok; destruct s as [ip0 st fr gl]; simpl in Hip; subst ip0.
  all: match goal with
       | E : _ !! S _ = Some (StoreSlotI64 ?slot) |- _ =>
           pose proof (typed_at _ _ E) as Ht; simpl in Ht;
           destruct (slot_ok_i64 _ _ slot Hok Ht) as [Hz|(z & Hz & _)]; simpl in Hz;
           pose proof (insert_slot_lookup _ _ _ Hz)
       end; exec.
  all: rewrite ?wrap_s_add_r by lia; eapply Hret; eauto.
Qed.
End Rules.
