(* ===== verification/PeepholeSim.v ===== *)
(** * What the fusion rules start with and produce

    The heads of the windows and the jump targets of the fused instructions. *)

From S2P Require Export PeepholeExec PeepholeRules.

(** Instructions that a window may start with. *)
Definition fusable_head (i : Instr) : bool :=
  match i with
  | LoadSlotI64 _ | LoadSlotF64 _ | PushI64 _ | PushF64 _ | LoadI64 _ | AddConstI64Slot _ _
  | NeI64 | EqI64 | LtI64 | GtI64 | LeI64 | GeI64
  | NeF64 | EqF64 | LtF64 | GtF64 | LeF64 | GeF64 => true
  | _ => false
  end.


(** Unfolds the rule that answered and keeps the branches that do. *)
Ltac invert_rule H :=
  unfold fuse_float64_conversion, fuse_gt_slots, fuse_store_return, fuse_store_op_return,
    fuse_const_update, fuse_const_i64, fuse_const_f64, fuse_named_update, fuse_named_load_op,
    fuse_cmp_const_direct, fuse_cmp_const_zero, fuse_slot_const_update, fuse_slot_const_op,
    fuse_slot_update, fuse_slot_load_op, fuse_f64_slots, fuse_f64_square, fuse_f64_load_op,
    fuse_cmp_jump, try_fuse_counted_loop_backedge, counted_loop_tail, direct_jump,
    inverted_cmp in H;
  invert_match H; simplify_eq.

(** The first load of a slot-argument call. *)
Lemma slot_arg_call_head code i fused consumed :
  try_fuse_slot_arg_call code i = Some (fused, consumed) ->
  (exists slot, code !! i = Some (LoadSlotI64 slot) \/ code !! i = Some (LoadSlotF64 slot)) /\
  jump_targets fused = [] /\ is_looked_for fused = false.
Proof.
  unfold try_fuse_slot_arg_call, try_fuse_f64_slot_arg_call. intros H.
  assert (forall l n, load_run code l n i <> [] ->
    exists x slot, code !! i = Some x /\ l x = Some slot) as Hrun.
  { intros l n Hne. destruct (load_run code l n i) as [|slot slots] eqn:E; [done|].
    assert (load_run code l n i !! 0 = Some slot) as Hl by (by rewrite E).
    apply load_run_spec in Hl. rewrite Nat.add_0_r in Hl.
    destruct (code !! i); [|done]. eauto. }
  invert_match H; injection H as <- <-; split; try done.
  all: match goal with
       | E : bool_decide (load_run _ _ _ _ = []) = false |- _ =>
           apply bool_decide_eq_false, Hrun in E as (x & slot & Hx & Hl);
           destruct x; simplify_eq/=; eauto
       end.
  all: match goal with
       | E : bool_decide (load_run _ load_slot_f64_of _ _ = []) = false |- _ =>
           apply bool_decide_eq_false, Hrun in E as (x & slot' & Hx' & Hl');
           destruct x; simplify_eq/=; eauto
       end.
Qed.

(** The window of a slot-argument call: slot loads, then the call. *)
Definition is_slot_load (i : Instr) : bool :=
  match i with LoadSlotI64 _ | LoadSlotF64 _ => true | _ => false end.
Definition is_call (i : Instr) : bool :=
  match i with
  | CallSpecialize _ _ | CallSpecializeInbounds _ _ | CallResolved _ _ | CallInbounds _ _ => true
  | _ => false
  end.

Lemma slot_arg_call_run code i fused consumed :
  try_fuse_slot_arg_call code i = Some (fused, consumed) ->
  exists n call, 1 <= n /\ consumed = n + 1 /\ code !! (i + n) = Some call /\ is_call call = true /\
    forall j, j < n -> exists x, code !! (i + j) = Some x /\ is_slot_load x = true.
Proof.
  unfold try_fuse_slot_arg_call, try_fuse_f64_slot_arg_call. intros H.
  assert (forall l n, (forall x slot, l x = Some slot -> is_slot_load x = true) ->
    forall j, j < length (load_run code l n i) ->
    exists x, code !! (i + j) = Some x /\ is_slot_load x = true) as Hrun.
  { intros l n Hl j Hj. apply lookup_lt_is_Some_2 in Hj as [slot Hs].
    apply load_run_spec in Hs. destruct (code !! (i + j)); [|done]. eauto. }
  assert (forall (l : list nat), l <> [] -> 1 <= length l) as Hne.
  { intros []; simpl; [done|lia]. }
  invert_match H;
    injection H as <- <-;
    eexists _, _; (split; [|split; [reflexivity|split; [eassumption|split; [reflexivity|]]]]);
    try (apply Hne; by eapply bool_decide_eq_false);
    apply Hrun; intros []; done.
Qed.

Section Shape.
Variable code : list Instr.
Variable protection : option MainStoreProtection.

(** The addresses of a fused instruction: those of an instruction of the
    window, or the loop body behind the header of a back-edge. *)
Definition window_target (t : nat) : Prop :=
  (exists j instr, code !! j = Some instr /\ t ∈ jump_targets instr) \/
  (exists header j, code !! j = Some (Jump header) /\
     ((exists l r e, code !! header = Some (JumpIfGtI64Slots l r e) /\ t = header + 1) \/
      (exists l r e, code !! header = Some (LoadSlotI64 l) /\
         code !! (header + 1) = Some (LoadSlotI64 r) /\
         code !! (header + 2) = Some (JumpIfGtI64 e) /\ t = header + 3))).

Lemma try_fuse_at_shape i fused consumed :
  try_fuse_at code protection i = Some (fused, consumed) ->
  (exists x, code !! i = Some x /\ fusable_head x = true) /\
  is_looked_for fused = false /\
  (forall t, t ∈ jump_targets fused -> window_target t).
Proof.
  intros H. apply try_fuse_at_rule in H as (rule & Hin & Hr).
  assert (forall t, t ∈ ([] : list nat) -> window_target t) as Hnil.
  { intros t Ht. by apply elem_of_nil in Ht. }
  assert (forall j instr t, code !! j = Some instr -> jump_targets instr = [t] ->
    forall u, u ∈ [t] -> window_target u) as Hone.
  { intros j instr t Hj Ht u Hu. left. exists j, instr. by rewrite Ht. }
  unfold fusion_rules in Hin.
  repeat destruct Hin as [<-|Hin]; [..|done].
  1: { apply slot_arg_call_head in Hr as ([slot Hs] & -> & ->).
       split_and!; auto. destruct Hs; eauto. }
  all: match type of Hr with
       | try_fuse_counted_loop_backedge _ _ = _ => idtac
       | _ => invert_rule Hr; (split_and!; [by eauto|done|]); simpl;
              first [exact Hnil | eapply Hone; [eassumption|done]]
       end.
  invert_rule Hr; (split_and!; [by eauto|done|]); simpl;
    intros t ->%list_elem_of_singleton; right; do 2 eexists; (split; [eassumption|]);
    first [ left; do 3 eexists; split; [eassumption|done]
          | right; do 3 eexists; split_and!; [eassumption|eassumption|eassumption|done] ].
Qed.
(** Two loads and a compare-and-branch: fused as one or kept. *)
Lemma load_compare_windows i l r e fused consumed :
  code !! i = Some (LoadSlotI64 l) -> code !! (i + 1) = Some (LoadSlotI64 r) ->
  code !! (i + 2) = Some (JumpIfGtI64 e) ->
  try_fuse_at code protection i = Some (fused, consumed) -> consumed = 3.
Proof.
  intros H0 H1 H2 Hf. apply try_fuse_at_rule in Hf as (rule & Hin & Hr).
  unfold fusion_rules in Hin. repeat destruct Hin as [<-|Hin]; [..|done].
  1: { apply slot_arg_call_run in Hr as (n & call & Hn & -> & Hcall & Hc & Hloads).
       destruct (decide (n = 1)) as [->|]; [by simplify_eq|].
       destruct (decide (n = 2)) as [->|]; [by simplify_eq|].
       destruct (Hloads 2) as (x & Hx & Hlx); [lia|]. by simplify_eq. }
  all: invert_rule Hr; done.
Qed.

Lemma load_compare_tail i r e :
  code !! i = Some (LoadSlotI64 r) -> code !! (i + 1) = Some (JumpIfGtI64 e) ->
  try_fuse_at code protection i = None.
Proof.
  intros H0 H1. destruct (try_fuse_at code protection i) as [[fused c]|] eqn:Hf; [|done].
  apply try_fuse_at_rule in Hf as (rule & Hin & Hr).
  unfold fusion_rules in Hin. repeat destruct Hin as [<-|Hin]; [..|done].
  1: { apply slot_arg_call_run in Hr as (n & call & Hn & -> & Hcall & Hc & Hloads).
       destruct (decide (n = 1)) as [->|]; [by simplify_eq|].
       destruct (Hloads 1) as (x & Hx & Hlx); [lia|]. by simplify_eq. }
  all: invert_rule Hr; done.
Qed.

(** Neither a return nor the installation of a handler is part of a window. *)
Lemma window_contents i fused consumed j :
  try_fuse_at code protection i = Some (fused, consumed) -> i <= j < i + consumed ->
  exists x, code !! j = Some x /\ is_return x = false /\ is_push_handler x = false.
Proof.
  intros Hf Hj. replace j with (i + (j - i)) by lia. assert (j - i < consumed) as Ho by lia.
  generalize dependent (j - i). intros o Ho. clear j Hj.
  apply try_fuse_at_rule in Hf as (rule & Hin & Hr).
  unfold fusion_rules in Hin. repeat destruct Hin as [<-|Hin]; [..|done].
  1: { apply slot_arg_call_run in Hr as (n & call & Hn & -> & Hcall & Hc & Hloads).
       destruct (decide (o = n)) as [->|].
       { exists call. split_and!; [done|by destruct call|by destruct call]. }
       destruct (Hloads o) as (x & Hx & Hlx); [lia|].
       exists x. split_and!; [done|by destruct x|by destruct x]. }
  all: invert_rule Hr; rewrite <- ?Nat.add_assoc in *; simpl in *;
    (do 5 (destruct o as [|o];
       [rewrite ?Nat.add_0_r;
        first [exfalso; lia | eexists; split_and!; [eassumption|reflexivity|reflexivity]]|]);
     exfalso; lia).
Qed.
End Shape.

(** * The fusion pass preserves the program

    A simulation between the old code and the fused code, window by window:
    whatever outcome the old code reaches from a window boundary, the fused
    code reaches the matching one, and conversely. *)

(** ** The simulation *)

(** The two fusions that change what the program does ([Examples]): the
    read-modify-write windows on named variables and the reversed subtraction
    on slots. *)
Definition hazard_at (code : list Instr) (i : nat) : bool :=
  match fuse_slot_update code i with
  | Some (DecVarI64Slot _, _) => true
  | _ => match fuse_named_update code i with Some _ => true | None => false end
  end.

Definition hazard_free (code : list Instr) : Prop :=
  forall i, i < length code -> hazard_at code i = false.

#[export] Instance hazard_free_dec code : Decision (hazard_free code).
Proof.
  refine (cast_if (decide (Forall (fun i => hazard_at code i = false) (seq 0 (length code))))).
  - intros i Hi. apply (Forall_lookup_1 _ _ i i f), lookup_seq. lia.
  - intros H. apply n, Forall_forall. intros i Hi. apply elem_of_seq in Hi. apply H. lia.
Defined.

Section Simulation.
Context `{ExternalConversions}.
Variable G : slot_typing.
Variable code : list Instr.
Variable targets : gset nat.
Variable protection : option MainStoreProtection.
Hypothesis Htyped : code_typed G code.
Hypothesis Hhazard : hazard_free code.
Hypothesis Hrange : targets_in_range code.
Hypothesis Htargets : collect_jump_targets code ⊆ targets.

Abbreviation fuse_at := (try_fuse_at_guarded code targets protection).
Abbreviation bnd := (boundary code targets protection).
Abbreviation code' := (fuse_pass code targets protection).
Definition new_addr (t : nat) : nat :=
  default t (fusion_map code targets protection !! t).

Abbreviation matches := (action_match bnd new_addr (dropped_slot code protection)).

Lemma new_addr_boundary t k : bnd t k -> new_addr t = k.
Proof. intros Hb. unfold new_addr. by rewrite (fusion_map_boundary _ _ _ _ _ Hb). Qed.

(** A kept instruction leads to the next boundary. *)
Lemma unfusable_kept i k instr :
  bnd i k -> code !! i = Some instr -> fusable_head instr = false ->
  fuse_at i = None /\ bnd (S i) (S k).
Proof.
  intros Hb Hi Hh.
  assert (fuse_at i = None) as Hn.
  { destruct (fuse_at i) as [[fused c]|] eqn:E; [|done].
    apply try_fuse_at_guarded_spec in E as [E _].
    apply try_fuse_at_shape in E as ((x & Hx & Hfx) & _). congruence. }
  split; [done|]. constructor; [done| |done]. by eapply lookup_lt_Some.
Qed.

(** A jump to an instruction of the code leads to a boundary. *)
Lemma jump_boundary i instr t :
  code !! i = Some instr -> t ∈ jump_targets instr -> bnd t (new_addr t).
Proof.
  intros Hi Ht. destruct (target_boundary code targets protection t) as [k Hk].
  - apply Htargets. by eapply elem_of_collect_jump_targets.
  - by eapply Hrange.
  - by rewrite (new_addr_boundary _ _ Hk).
Qed.

(** The addresses of a fused instruction are boundaries. *)
Lemma window_target_boundary i k fused consumed t :
  bnd i k -> try_fuse_at code protection i = Some (fused, consumed) ->
  t ∈ jump_targets fused -> bnd t (new_addr t).
Proof.
  intros Hb Hf Ht. apply try_fuse_at_shape in Hf as (_ & _ & Htgt).
  destruct (Htgt t Ht) as [(j & instr & Hj & Htj)|(h & j & Hj & Hh)];
    [by eapply jump_boundary|].
  assert (bnd h (new_addr h)) as Hbh by (eapply jump_boundary; [exact Hj|by left]).
  assert (exists l, bnd t l) as [l Hl]; [|by rewrite (new_addr_boundary _ _ Hl)].
  destruct Hh as [(l & r & e & H0 & ->)|(l & r & e & H0 & H1 & H2 & ->)].
  - destruct (unfusable_kept _ _ _ Hbh H0) as [_ Hn]; [done|]. rewrite Nat.add_1_r. eauto.
  - pose proof (lookup_lt_Some _ _ _ H0) as L0. pose proof (lookup_lt_Some _ _ _ H1) as L1.
    destruct (fuse_at h) as [[fu c]|] eqn:E.
    + pose proof E as [E' _]%try_fuse_at_guarded_spec.
      pose proof (load_compare_windows _ _ _ _ _ _ _ _ H0 H1 H2 E') as ->.
      eexists. by eapply boundary_fused.
    + assert (bnd (h + 1) (S (new_addr h))) as Hb1 by (rewrite Nat.add_1_r; by constructor).
      assert (fuse_at (h + 1) = None) as E1.
      { unfold try_fuse_at_guarded. rewrite (load_compare_tail _ _ _ r e); [done|done|].
        by replace (h + 1 + 1) with (h + 2) by lia. }
      assert (bnd (h + 2) (S (S (new_addr h)))) as Hb2.
      { replace (h + 2) with (S (h + 1)) by lia. by constructor. }
      destruct (unfusable_kept _ _ _ Hb2 H2) as [_ Hb3]; [done|].
      eexists. replace (h + 3) with (S (h + 2)) by lia. exact Hb3.
Qed.

(** The rules at a boundary that is fused. *)
Lemma fused_sound i fused consumed :
  i < length code -> try_fuse_at code protection i = Some (fused, consumed) ->
  window_sound G code code' protection new_addr i consumed fused \/
  fuse_store_return code protection i = Some (fused, consumed) \/
  fuse_store_op_return code protection i = Some (fused, consumed).
Proof.
  intros Hi Hf. pose proof (Hhazard i Hi) as Hh. unfold hazard_at in Hh.
  apply try_fuse_at_rule in Hf as (rule & Hin & Hr).
  unfold fusion_rules in Hin. repeat destruct Hin as [<-|Hin]; [..|done].
  all: try (right; by auto); left.
  - by apply slot_arg_call_sound.
  - by apply float64_conversion_sound.
  - by apply gt_slots_sound.
  - by apply loop_backedge_sound.
  - by apply const_update_sound.
  - by apply const_i64_sound.
  - by apply const_f64_sound.
  - rewrite Hr in Hh. by repeat case_match.
  - by apply named_load_op_sound.
  - by apply cmp_const_direct_sound.
  - by apply cmp_const_zero_sound.
  - by apply slot_const_update_sound.
  - by apply slot_const_op_sound.
  - rewrite Hr in Hh. pose proof Hr as Hr'. invert_rule Hr'. by apply slot_update_sound.
  - by apply slot_load_op_sound.
  - by apply f64_slots_sound.
  - by apply f64_square_sound.
  - by apply f64_load_op_sound.
  - by apply cmp_jump_sound.
Qed.

(** *** The look-ahead sees the same code *)

Lemma looked_for_emitted i k instr :
  bnd i k -> is_looked_for instr = true ->
  code' !! k = Some instr <-> code !! i = Some instr.
Proof.
  intros Hb Hl. pose proof (boundary_le _ _ _ _ _ Hb) as Hle.
  destruct (decide (i = length code)) as [->|Hne].
  { rewrite (lookup_ge_None_2 code), lookup_ge_None_2; try done.
    by rewrite (fuse_pass_length _ _ _ _ Hb). }
  destruct (lookup_lt_is_Some_2 code i) as [x Hx]; [lia|].
  destruct (fuse_at i) as [[fused c]|] eqn:E.
  - rewrite (fuse_pass_lookup _ _ _ i k fused c); [|done|lia|unfold window_instr; by rewrite E].
    apply try_fuse_at_guarded_spec in E as [E _].
    apply try_fuse_at_shape in E as ((y & Hy & Hh) & Hf & _).
    split; intros Hi; exfalso.
    + injection Hi as Hi. subst instr.
      revert Hl Hf. destruct fused; try done; simpl; congruence.
    + rewrite Hy in Hi. injection Hi as ->. by destruct instr.
  - rewrite (fuse_pass_lookup _ _ _ i k x 1);
      [|done|lia|unfold window_instr; by rewrite E, Hx].
    rewrite Hx. split; intros Hi; injection Hi as Hi; subst instr; f_equal; by destruct x.
Qed.

(** Behind a boundary the two programs look alike. *)
Lemma boundary_view i k : bnd i k -> same_view code code' bnd i k.
Proof.
  apply view_intro; [intros; by apply looked_for_emitted|].
  intros j l x Hb Hx Hl. eapply (unfusable_kept j l x); [done|done|]. by destruct x.
Qed.

(** *** One window *)

Lemma step_window i k s :
  bnd i k -> ip s = i -> state_ok G s ->
  exists n n', 1 <= n /\ 1 <= n' /\ matches (steps code n s) (steps code' n' (set_ip k s)).
Proof.
  intros Hb Hip Hok. pose proof (boundary_le _ _ _ _ _ Hb) as Hle.
  destruct (code !! i) as [instr|] eqn:Hi.
  2: { exists 1, 1. split_and!; [lia|lia|]. unfold steps, step. cbn [ip set_ip]. rewrite Hip, Hi.
       apply lookup_ge_None in Hi. assert (i = length code) as Hend by lia. rewrite Hend in Hb.
       rewrite lookup_ge_None_2; [apply match_fault|].
       by rewrite (fuse_pass_length _ _ _ _ Hb). }
  pose proof (lookup_lt_Some _ _ _ Hi) as Hlt.
  destruct (fuse_at i) as [[fused c]|] eqn:E.
  - assert (code' !! k = Some (map_targets new_addr fused)) as Hk.
    { apply (fuse_pass_lookup _ _ _ i k fused c); [done|done|]. unfold window_instr. by rewrite E. }
    assert (bnd (i + c) (S k)) as Hb1 by (by eapply boundary_fused).
    apply try_fuse_at_guarded_spec in E as [E _].
    destruct (fused_sound i fused c Hlt E) as [Hs|Hs].
    + destruct (Hs s k Hip Hok) as (n & Hn & Hm).
      exists n, 1. split_and!; [done|lia|].
      replace (steps code' 1 (set_ip k s))
        with (dispatch_instr code' (map_targets new_addr fused) (set_ip (S k) s)).
      * eapply action_match_mono; [|exact Hm]. intros x k' [[-> ->]|[Hx ->]]; [done|].
        by apply (window_target_boundary i k fused c).
      * rewrite (steps_at code' 0 (set_ip k s) _ Hk). simpl. by destruct (dispatch_instr _ _ _).
    + assert (code !! (i + c) = Some ReturnI64 /\ map_targets new_addr fused = fused) as [Hret Hmt].
      { destruct Hs as [Hs|Hs]; invert_rule Hs; done. }
      destruct (unfusable_kept _ _ _ Hb1 Hret) as [Hn _]; [done|].
      exists (c + 1), 2. split_and!; [lia|lia|].
      eapply store_return_sound; [exact Htyped|exact Hs| | |done|done].
      * by rewrite Hk, Hmt.
      * rewrite (fuse_pass_lookup _ _ _ (i + c) (S k) ReturnI64 1); [done|done| |].
        -- by eapply lookup_lt_Some.
        -- unfold window_instr. by rewrite Hn, Hret.
  - assert (bnd (S i) (S k)) as Hb1 by (by apply boundary_kept).
    assert (code' !! k = Some (map_targets new_addr instr)) as Hk.
    { apply (fuse_pass_lookup _ _ _ i k instr 1); [done|done|].
      unfold window_instr. by rewrite E, Hi. }
    exists 1, 1. split_and!; [lia|lia|].
    assert (matches (dispatch_instr code instr (set_ip (S i) s))
      (dispatch_instr code' (map_targets new_addr instr) (set_ip (S k) s))) as Hm.
    { apply kept_match; [done| |intros _; by apply boundary_view].
      intros t Ht. by eapply jump_boundary. }
    rewrite (steps_at code 0 s instr) by (by rewrite Hip).
    rewrite (steps_at code' 0 (set_ip k s) _ Hk), Hip. simpl in *.
    by destruct (dispatch_instr code instr _), (dispatch_instr code' _ _).
Qed.

(** *** Whole runs *)

(** The states of the two programs at a window boundary. *)
Definition at_boundary (s s' : Vm) : Prop :=
  exists k, bnd (ip s) k /\ s' = set_ip k s /\ state_ok G s.

Variable env : Environment.
Hypothesis Henv : environment_ok G env.

Lemma boundary_diagram s s' :
  at_boundary s s' -> window_diagram code code' env at_boundary matches s s'.
Proof.
  intros (k & Hb & -> & Hok).
  destruct (step_window _ k s Hb eq_refl Hok) as (n & n' & Hn & Hn' & Hm).
  eapply (match_window G); [exact Henv|exact Htyped|exact Hok|exact Hn|exact Hn'|exact Hm|].
  intros s1 s1' Hb1 E Hok1. by exists (ip s1').
Qed.

(** Whatever the old code does, the fused code does. *)
Lemma fused_simulates fuel k s out :
  bnd (ip s) k -> state_ok G s -> activation env code fuel s = Some out ->
  exists fuel' out', activation env code' fuel' (set_ip k s) = Some out' /\ matches out out'.
Proof.
  intros Hb Hok. apply (sim_forward _ _ _ _ _ boundary_diagram). by exists k.
Qed.

(** And conversely: the fused code does nothing else. *)
Lemma fused_simulated fuel' k s out' :
  bnd (ip s) k -> state_ok G s -> activation env code' fuel' (set_ip k s) = Some out' ->
  exists fuel out, activation env code fuel s = Some out /\ matches out out'.
Proof.
  intros Hb Hok. apply (sim_backward _ _ _ _ _ boundary_diagram). by exists k.
Qed.

End Simulation.
