(* ===== verification/PeepholeCse.v ===== *)
(** * Straight-line common-subexpression elimination

    The CSE pass of the peephole optimizer preserves the program: the table of
    available expressions only holds slots that do hold the value of their
    expression ([table_valid]), so that loading the slot gives what computing
    the expression gives. *)

From S2P Require Export PeepholeExec.

(** ** The shape of the pass *)

Section Shape.
Variable code : list Instr.
Variable entries : gset nat.

Abbreviation expression_at := (i64_slot_expression_at code entries).

(** The table on entry to an index. *)
Definition enter (i : nat) (available : gmap I64SlotExpression nat) :=
  if bool_decide (i ∈ entries) then ∅ else available.

(** The width of what an expression becomes. *)
Definition cse_width (available : gmap I64SlotExpression nat) (e : I64SlotExpression) : nat :=
  match available !! e with Some _ => 2 | None => 3 end.

(** [cse_at n i k av]: after [n] turns the loop stands at index [i], with [k]
    instructions rewritten and table [av]. *)
Inductive cse_at : nat -> nat -> nat -> gmap I64SlotExpression nat -> Prop :=
  | cse_start : cse_at 0 0 0 ∅
  | cse_expr n i k av e dst :
      cse_at n i k av -> expression_at i = Some (e, dst) ->
      cse_at (S n) (i + 3) (k + cse_width (enter i av) e) (cse_record (enter i av) e dst)
  | cse_other n i k av instr :
      cse_at n i k av -> code !! i = Some instr -> expression_at i = None ->
      cse_at (S n) (S i) (S k) (cse_transfer (enter i av) instr).

(** What [i64_slot_expression_at] recognises. *)
Definition expr_instr (e : I64SlotExpression) : Instr :=
  match op e with
  | ExprAdd => LoadAddI64Slot (rhs e)
  | ExprSub => LoadSubI64Slot (rhs e)
  | ExprMul => LoadMulI64Slot (rhs e)
  end.

Lemma expression_at_spec i e dst :
  expression_at i = Some (e, dst) ->
  code !! i = Some (LoadSlotI64 (lhs e)) /\ code !! S i = Some (expr_instr e) /\
  code !! S (S i) = Some (StoreSlotI64 dst) /\ (S i ∉ entries) /\ (S (S i) ∉ entries).
Proof.
  unfold i64_slot_expression_at. intros H.
  match type of H with (if ?b then _ else _) = _ => destruct b eqn:Hb; [discriminate|] end.
  apply orb_false_iff in Hb as [[_ H1]%orb_false_iff H2].
  apply bool_decide_eq_false in H1, H2.
  rewrite Nat.add_1_r in H1. rewrite Nat.add_succ_r, Nat.add_1_r in H2.
  destruct (code !! i) as [[]|] eqn:E0; try discriminate H.
  destruct (code !! (i + 1)) as [operate|] eqn:E1; [|discriminate].
  destruct (code !! (i + 2)) as [store|] eqn:E2; [|discriminate].
  rewrite Nat.add_1_r in E1. rewrite Nat.add_succ_r, Nat.add_1_r in E2.
  assert (forall d, instruction_written_slot store = Some d -> store = StoreSlotI64 d) as Hstore.
  { intros d Hd. destruct store; try discriminate Hd. by injection Hd as ->. }
  destruct operate; try discriminate H; simpl in H;
    destruct (instruction_written_slot store) as [d|] eqn:Hd; simplify_eq/=;
    specialize (Hstore _ eq_refl); subst; done.
Qed.

Lemma cse_at_functional n i k av i' k' av' :
  cse_at n i k av -> cse_at n i' k' av' -> i = i' /\ k = k' /\ av = av'.
Proof.
  intros H. revert i' k' av'. induction H as [|n i k av e dst H IH He|n i k av instr H IH Hi He];
    intros i' k' av' H'; inversion H'; subst; [done|..];
    match goal with
    | Hat : cse_at n ?a ?b ?c |- _ =>
        lazymatch type of Hat with
        | cse_at n i k av => fail
        | _ => destruct (IH _ _ _ Hat) as (<- & <- & <-)
        end
    end; simplify_eq; auto.
Qed.

Lemma cse_at_mono n i k av m i' k' av' :
  cse_at n i k av -> cse_at m i' k' av' -> n < m -> i < i'.
Proof.
  intros Hn Hm. revert n i k av Hn.
  induction Hm as [|m i' k' av' e dst Hm IH He|m i' k' av' instr Hm IH Hi He];
    intros n i k av Hn Hlt; [lia| |];
    (destruct (decide (n = m)) as [->|];
      [destruct (cse_at_functional _ _ _ _ _ _ _ Hn Hm) as (-> & _); lia
      |specialize (IH n i k av Hn ltac:(lia)); lia]).
Qed.

(** An index is reached at most once. *)
Lemma cse_at_unique n i k av m k' av' :
  cse_at n i k av -> cse_at m i k' av' -> n = m /\ k = k' /\ av = av'.
Proof.
  intros Hn Hm. assert (n = m) as <-.
  { destruct (decide (n < m)) as [Hlt|]; [pose proof (cse_at_mono _ _ _ _ _ _ _ _ Hn Hm Hlt); lia|].
    destruct (decide (m < n)) as [Hlt|]; [pose proof (cse_at_mono _ _ _ _ _ _ _ _ Hm Hn Hlt); lia|].
    lia. }
  by destruct (cse_at_functional _ _ _ _ _ _ _ Hn Hm) as (_ & <- & <-).
Qed.

Lemma cse_at_le n i k av : cse_at n i k av -> i <= length code.
Proof.
  induction 1 as [|n i k av e dst H IH He|n i k av instr H IH Hi He]; [lia| |].
  - apply expression_at_spec in He as (_ & _ & H2 & _). apply lookup_lt_Some in H2. lia.
  - apply lookup_lt_Some in Hi. lia.
Qed.

(** Every index is reached or strictly inside an expression. *)
Lemma cse_cover t :
  t <= length code ->
  (exists n k av, cse_at n t k av) \/
  exists n i k av e dst, cse_at n i k av /\ expression_at i = Some (e, dst) /\ i < t < i + 3.
Proof.
  induction t as [|t IH]; intros Ht; [left; exists 0, 0, ∅; constructor|].
  destruct IH as [(n & k & av & Hat)|(n & i & k & av & e & dst & Hat & He & Hlt)]; [lia| |].
  - destruct (expression_at t) as [[e dst]|] eqn:He.
    + right. exists n, t, k, av, e, dst. repeat split; try done; lia.
    + destruct (lookup_lt_is_Some_2 code t) as [instr Hi]; [lia|].
      left. eexists _, _, _. by eapply cse_other.
  - destruct (decide (S t = i + 3)) as [->|].
    + left. eexists _, _, _. by eapply cse_expr.
    + right. exists n, i, k, av, e, dst. repeat split; try done; lia.
Qed.

Lemma entry_reached t : t ∈ entries -> t <= length code -> exists n k av, cse_at n t k av.
Proof.
  intros Ht Hle. destruct (cse_cover t Hle) as [|(n & i & k & av & e & dst & Hat & He & Hlt)]; [done|].
  apply expression_at_spec in He as (_ & _ & _ & H1 & H2).
  assert (t = S i \/ t = S (S i)) as [->| ->] by lia; done.
Qed.

(** The loop from where it stands. *)
Lemma cse_loop_at n i k av :
  cse_at n i k av ->
  exists pre pre_entries fuel, length code - i <= fuel /\ length pre = k /\
    length pre_entries = i /\
    cse_loop code entries (length code) 0 0 ∅ =
    let '(rest, rest_entries) := cse_loop code entries fuel i k av in
    (pre ++ rest, pre_entries ++ rest_entries).
Proof.
  induction 1 as [|n i k av e dst H (pre & pre_e & fuel & Hf & Hk & Hi & IH) He
                  |n i k av instr H (pre & pre_e & fuel & Hf & Hk & Hi & IH) Hc He].
  - exists [], [], (length code). repeat split; [lia|]. by destruct (cse_loop _ _ _ _ _ _).
  - pose proof (expression_at_spec _ _ _ He) as (H0 & H1 & H2 & _).
    pose proof (lookup_lt_Some _ _ _ H0). pose proof (lookup_lt_Some _ _ _ H2).
    destruct fuel as [|fuel]; [lia|]. rewrite IH. simpl. rewrite H0, He.
    fold (enter i av). unfold cse_width.
    destruct (enter i av !! e) as [r|] eqn:Ee;
      destruct (cse_loop code entries fuel (i + 3) _ _) as [rest rest_e] eqn:El.
    + exists (pre ++ [LoadSlotI64 r; StoreSlotI64 dst]), (pre_e ++ [k; k; k + 1]), fuel.
      rewrite El, <- !app_assoc.
      split_and!; [lia| | |reflexivity]; rewrite length_app; simpl; lia.
    + exists (pre ++ take 3 (drop i code)), (pre_e ++ [k; k + 1; k + 2]), fuel.
      rewrite El, <- !app_assoc.
      split_and!; [lia| | |reflexivity]; rewrite length_app; simpl;
        [rewrite length_take, length_drop; lia|lia].
  - pose proof (lookup_lt_Some _ _ _ Hc).
    destruct fuel as [|fuel]; [lia|]. rewrite IH. simpl. rewrite Hc, He. fold (enter i av).
    destruct (cse_loop code entries fuel (S i) _ _) as [rest rest_e] eqn:El.
    exists (pre ++ [instr]), (pre_e ++ [k]), fuel. rewrite El, <- !app_assoc.
    split_and!; [lia| | |reflexivity]; rewrite length_app; simpl; lia.
Qed.
End Shape.

(** ** What the pass emits *)

Section Emitted.
Variable code : list Instr.
Variable barriers : gset nat.

Abbreviation entries := (collect_jump_targets code ∪ barriers).
Abbreviation reached := (cse_at code entries).
Abbreviation code' := (rewrite_straight_line_i64_cse code barriers).1.
Abbreviation cse_mapping := (rewrite_straight_line_i64_cse code barriers).2.

Definition cse_addr (t : nat) : nat := default t (cse_mapping !! t).

Lemma cse_result n i k av :
  reached n i k av ->
  exists pre pre_entries fuel, length code - i <= fuel /\ length pre = k /\ length pre_entries = i /\
    let '(rest, rest_entries) := cse_loop code entries fuel i k av in
    code' = (map_targets cse_addr <$> pre) ++ (map_targets cse_addr <$> rest) /\
    cse_mapping = pre_entries ++ rest_entries ++ [k + length rest].
Proof.
  intros Hat. destruct (cse_loop_at _ _ _ _ _ _ Hat) as (pre & pre_e & fuel & Hf & Hk & Hi & E).
  exists pre, pre_e, fuel. split_and!; [done..|].
  destruct (cse_loop code entries fuel i k av) as [rest rest_e] eqn:El.
  unfold cse_addr, rewrite_straight_line_i64_cse. rewrite E. simpl.
  rewrite fmap_app, length_app, Hk, <- app_assoc. done.
Qed.

Lemma emitted_kept n i k av instr :
  reached n i k av -> code !! i = Some instr -> i64_slot_expression_at code entries i = None ->
  code' !! k = Some (map_targets cse_addr instr).
Proof.
  intros Hat Hi He. destruct (cse_result _ _ _ _ Hat) as (pre & pre_e & fuel & Hf & Hk & _ & Hr).
  pose proof (lookup_lt_Some _ _ _ Hi). destruct fuel as [|fuel]; [lia|].
  simpl in Hr. rewrite Hi, He in Hr.
  destruct (cse_loop _ _ fuel _ _ _) as [rest rest_e]. destruct Hr as [-> _].
  rewrite lookup_app_r by (rewrite length_fmap; lia). by rewrite length_fmap, Hk, Nat.sub_diag.
Qed.

Lemma emitted_hit n i k av e dst r :
  reached n i k av -> i64_slot_expression_at code entries i = Some (e, dst) ->
  enter entries i av !! e = Some r ->
  code' !! k = Some (LoadSlotI64 r) /\ code' !! S k = Some (StoreSlotI64 dst).
Proof.
  intros Hat He Hr0. destruct (cse_result _ _ _ _ Hat) as (pre & pre_e & fuel & Hf & Hk & _ & Hr).
  pose proof (expression_at_spec _ _ _ _ _ He) as (H0 & _).
  pose proof (lookup_lt_Some _ _ _ H0). destruct fuel as [|fuel]; [lia|].
  simpl in Hr. unfold enter in Hr0. rewrite H0, He, Hr0 in Hr.
  destruct (cse_loop _ _ fuel _ _ _) as [rest rest_e]. destruct Hr as [-> _].
  split; rewrite lookup_app_r by (rewrite length_fmap; lia); rewrite length_fmap, Hk.
  - by rewrite Nat.sub_diag.
  - by replace (S k - k) with 1 by lia.
Qed.

Lemma emitted_miss n i k av e dst :
  reached n i k av -> i64_slot_expression_at code entries i = Some (e, dst) ->
  enter entries i av !! e = None ->
  code' !! k = Some (LoadSlotI64 (lhs e)) /\ code' !! S k = Some (expr_instr e) /\
  code' !! S (S k) = Some (StoreSlotI64 dst).
Proof.
  intros Hat He Hr0. destruct (cse_result _ _ _ _ Hat) as (pre & pre_e & fuel & Hf & Hk & _ & Hr).
  pose proof (expression_at_spec _ _ _ _ _ He) as (H0 & H1 & H2 & _).
  pose proof (lookup_lt_Some _ _ _ H0). destruct fuel as [|fuel]; [lia|].
  simpl in Hr. unfold enter in Hr0. rewrite H0, He, Hr0 in Hr.
  destruct (cse_loop _ _ fuel _ _ _) as [rest rest_e]. destruct Hr as [-> _].
  rewrite <- (Nat.add_0_r i) in H0. rewrite <- Nat.add_1_r in H1.
  replace (S (S i)) with (i + 2) in H2 by lia. rewrite <- lookup_drop in H0, H1, H2.
  destruct (drop i code) as [|x [|y [|z tl]]]; try done.
  simpl in H0, H1, H2. injection H0 as ->. injection H1 as ->. injection H2 as ->.
  split_and!; rewrite lookup_app_r by (rewrite length_fmap; lia); rewrite length_fmap, Hk.
  - by rewrite Nat.sub_diag.
  - replace (S k - k) with 1 by lia. simpl. by destruct e as [? ? []].
  - by replace (S (S k) - k) with 2 by lia.
Qed.

(** The map sends every index that is reached to its new index. *)
Lemma cse_mapping_at n i k av : reached n i k av -> cse_mapping !! i = Some k.
Proof.
  intros Hat. destruct (cse_result _ _ _ _ Hat) as (pre & pre_e & fuel & Hf & Hk & Hi & Hr).
  pose proof (cse_at_le _ _ _ _ _ _ Hat) as Hle.
  destruct (code !! i) as [instr|] eqn:E.
  - pose proof (lookup_lt_Some _ _ _ E). destruct fuel as [|fuel]; [lia|].
    simpl in Hr. rewrite E in Hr. fold (enter entries i av) in Hr.
    destruct (i64_slot_expression_at code entries i) as [[e dst]|];
      [destruct (enter entries i av !! e)|];
      destruct (cse_loop _ _ fuel _ _ _) as [rest rest_e]; destruct Hr as [_ ->];
      rewrite lookup_app_r by lia; by rewrite Hi, Nat.sub_diag.
  - destruct fuel as [|fuel]; simpl in Hr; [|rewrite E in Hr]; destruct Hr as [_ ->];
      rewrite lookup_app_r by lia; rewrite Hi, Nat.sub_diag; simpl; f_equal; lia.
Qed.

Lemma cse_length n k av : reached n (length code) k av -> length code' = k.
Proof.
  intros Hat. destruct (cse_result _ _ _ _ Hat) as (pre & pre_e & fuel & Hf & Hk & Hi & Hr).
  assert (code !! length code = None) as E by (by apply lookup_ge_None_2).
  destruct fuel as [|fuel]; simpl in Hr; [|rewrite E in Hr]; destruct Hr as [-> _];
    by rewrite length_app, !length_fmap, Hk; simpl; lia.
Qed.

Definition cse_boundary (i k : nat) : Prop := exists n av, reached n i k av.

Lemma cse_addr_boundary i k : cse_boundary i k -> cse_addr i = k.
Proof. intros (n & av & Hat). unfold cse_addr. by rewrite (cse_mapping_at _ _ _ _ Hat). Qed.

Lemma cse_target i instr t :
  targets_in_range code -> code !! i = Some instr -> t ∈ jump_targets instr ->
  cse_boundary t (cse_addr t).
Proof.
  intros Hrange Hi Ht. destruct (entry_reached code entries t) as (n & k & av & Hat).
  - apply elem_of_union_l. by eapply elem_of_collect_jump_targets.
  - by eapply Hrange.
  - assert (cse_boundary t k) as Hb by (by exists n, av). by rewrite (cse_addr_boundary _ _ Hb).
Qed.
End Emitted.

(** ** The table holds what it says *)

(** The operation of an expression, as a fused slot operation. *)
Definition expr_op (o : I64SlotBinaryOp) : FusedOp :=
  match o with ExprAdd => FAdd | ExprSub => FSub | ExprMul => FMul end.

Definition expr_value (e : I64SlotExpression) (l r : Z) : Z :=
  wrap_s 64 (slot_arith (expr_op (op e)) l r).

Definition slot_holds (f : Frame) (slot : nat) (z : Z) : Prop :=
  locals_slots f !! slot = Some (Some (Value.I64 z)).

Definition table_valid (available : gmap I64SlotExpression nat) (f : Frame) : Prop :=
  forall e result, available !! e = Some result ->
    exists l r, slot_holds f (lhs e) l /\ slot_holds f (rhs e) r /\
      slot_holds f result (expr_value e l r).

Lemma table_valid_empty f : table_valid ∅ f.
Proof. intros e result H. by rewrite lookup_empty in H. Qed.

Lemma table_valid_enter entries i av f : i ∈ entries -> table_valid (enter entries i av) f.
Proof. intros Hi. unfold enter. rewrite bool_decide_true by done. apply table_valid_empty. Qed.

(** A write to a slot keeps what does not mention it. *)
Lemma table_valid_write av f slot v :
  table_valid av f ->
  table_valid (invalidate_i64_cse_slot av slot)
    (set_slots (<[slot := v]> (locals_slots f)) f).
Proof.
  intros Hv e result H. unfold invalidate_i64_cse_slot in H.
  apply map_lookup_filter_Some in H as [H (Hl & Hr & Hd)].
  destruct (Hv e result H) as (l & r & Sl & Sr & Sd). exists l, r.
  unfold slot_holds in *. simpl. by rewrite !list_lookup_insert_ne.
Qed.

(** Recording an expression whose result has just been stored. *)
Lemma table_valid_record av f e dst l r :
  table_valid av f -> slot_holds f (lhs e) l -> slot_holds f (rhs e) r ->
  dst < length (locals_slots f) ->
  table_valid (cse_record av e dst)
    (set_slots (<[dst := Some (Value.I64 (expr_value e l r))]> (locals_slots f)) f).
Proof.
  intros Hv Hl Hr Hlt. pose proof (table_valid_write av f dst (Some (Value.I64 (expr_value e l r))) Hv) as Hw.
  unfold cse_record. destruct (bool_decide (dst <> lhs e)) eqn:E1; [|exact Hw].
  destruct (bool_decide (dst <> rhs e)) eqn:E2; [|exact Hw].
  apply bool_decide_eq_true in E1, E2. simpl.
  intros e' result. destruct (decide (e' = e)) as [->|Hne].
  - rewrite lookup_insert_eq. intros [= <-]. exists l, r. unfold slot_holds in *. simpl.
    rewrite !list_lookup_insert_ne by done. by rewrite list_lookup_insert_eq.
  - rewrite lookup_insert_ne by done. apply Hw.
Qed.

(** ** The simulation *)

(** Instructions that the table survives touch no slot but the one they say. *)
Lemma effects_frame `{ExternalConversions} code instr s s1 :
  instruction_is_cse_barrier instr = false ->
  dispatch_instr code instr s = Continue s1 ->
  match instruction_written_slot instr with
  | Some slot => exists v, frame s1 = set_slots (<[slot := v]> (locals_slots (frame s))) (frame s)
  | None => frame s1 = frame s
  end.
Proof.
  intros Hb Hd. destruct instr; try discriminate Hb; simpl in *;
    unfold binop_i64, exec_load_slot_i64, exec_load_op_i64_slot, read_slot, exec_store_slot_i64 in Hd;
    unfold pop_i64 in Hd; unfold pop_value, store_slot_or_fault, store_slot in Hd; invert_match Hd; simplify_eq/=; eauto.
Qed.

Lemma barrier_transfer av instr : instruction_is_cse_barrier instr = true -> cse_transfer av instr = ∅.
Proof.
  intros Hb. unfold cse_transfer, instruction_is_cse_barrier, instruction_written_slot in *.
  by destruct (instruction_effects instr).
Qed.

Lemma not_barrier_no_target instr :
  instruction_is_cse_barrier instr = false -> jump_targets instr = [] /\ looks_ahead instr = false.
Proof. destruct instr; try discriminate; done. Qed.

(** Instructions that the table survives are not handed to the environment. *)
Lemma resume_barrier `{ExternalConversions} env code instr s s1 :
  resume env (dispatch_instr code instr s) = Some s1 -> instruction_is_cse_barrier instr = true.
Proof.
  destruct (instruction_is_cse_barrier instr) eqn:Hb; [done|]. intros Hr. exfalso.
  destruct instr; try discriminate Hb; simpl in Hr; try done;
    unfold binop_i64, exec_load_slot_i64, exec_load_op_i64_slot, read_slot, exec_store_slot_i64 in Hr;
    unfold pop_i64, pop_value, store_slot_or_fault in Hr; repeat (case_match; try done).
Qed.

Section Cse.
Context `{ExternalConversions}.
Variable G : slot_typing.
Variable code : list Instr.
Variable barriers : gset nat.
Hypothesis Htyped : code_typed G code.
Hypothesis Hrange : targets_in_range code.
Variable env : Environment.
Hypothesis Henv : environment_ok G env.

Abbreviation entries := (collect_jump_targets code ∪ barriers).
Abbreviation reached := (cse_at code entries).
Abbreviation code' := (rewrite_straight_line_i64_cse code barriers).1.
Abbreviation new_addr := (cse_addr code barriers).
Abbreviation bnd := (cse_boundary code barriers).
Abbreviation matches := (action_match bnd new_addr (fun _ => False)).

(** The states of the two programs between expressions. *)
Definition cse_states (s s' : Vm) : Prop :=
  exists n k av, reached n (ip s) k av /\ s' = set_ip k s /\ state_ok G s /\
    table_valid (enter entries (ip s) av) (frame s).

Lemma unlooked_kept n i k av instr :
  reached n i k av -> code !! i = Some instr -> (forall slot, instr <> LoadSlotI64 slot) ->
  i64_slot_expression_at code entries i = None /\
  reached (S n) (S i) (S k) (cse_transfer (enter entries i av) instr).
Proof.
  intros Hat Hi Hne.
  assert (i64_slot_expression_at code entries i = None) as He.
  { destruct (i64_slot_expression_at code entries i) as [[e dst]|] eqn:He; [|done].
    apply expression_at_spec in He as (H0 & _). simplify_eq. by destruct (Hne (lhs e)). }
  split; [done|]. by eapply cse_other.
Qed.

Lemma looked_for_cse i k instr :
  bnd i k -> is_looked_for instr = true -> code' !! k = Some instr <-> code !! i = Some instr.
Proof.
  intros (n & av & Hat) Hin. pose proof (cse_at_le _ _ _ _ _ _ Hat) as Hle.
  destruct (code !! i) as [x|] eqn:Hx.
  - destruct (i64_slot_expression_at code entries i) as [[e dst]|] eqn:He.
    + pose proof (expression_at_spec _ _ _ _ _ He) as (H0 & _). rewrite Hx in H0. injection H0 as ->.
      destruct (enter entries i av !! e) as [r|] eqn:Er.
      * destruct (emitted_hit _ _ _ _ _ _ _ _ _ Hat He Er) as [-> _].
        split; intros [= <-]; done.
      * destruct (emitted_miss _ _ _ _ _ _ _ _ Hat He Er) as [-> _].
        split; intros [= <-]; done.
    + rewrite (emitted_kept _ _ _ _ _ _ _ Hat Hx He).
      split; intros Hi; injection Hi as Hi; f_equal.
      * destruct x; simplify_eq/=; done.
      * subst x. by destruct instr.
  - assert (i = length code) as -> by (apply lookup_ge_None in Hx; lia).
    rewrite lookup_ge_None_2 by (by rewrite (cse_length _ _ _ _ _ Hat)). done.
Qed.

Lemma cse_view i k : bnd i k -> same_view code code' bnd i k.
Proof.
  apply view_intro; [intros; by apply looked_for_cse|].
  intros j l x (n & av & Hat) Hx Hl.
  destruct (unlooked_kept _ _ _ _ _ Hat Hx) as [_ Hat']; [by destruct x|]. by eexists _, _.
Qed.

(** Control arrives with a valid table wherever an instruction leaves it. *)
Lemma table_after n i k av instr s s1 n1 k1 av1 :
  reached n i k av -> code !! i = Some instr -> i64_slot_expression_at code entries i = None ->
  table_valid (enter entries i av) (frame s) ->
  dispatch_instr code instr (set_ip (S i) s) = Continue s1 ->
  reached n1 (ip s1) k1 av1 -> table_valid (enter entries (ip s1) av1) (frame s1).
Proof.
  intros Hat Hi He Hv Hd Hat1.
  assert (reached (S n) (S i) (S k) (cse_transfer (enter entries i av) instr)) as HS
    by (by eapply cse_other).
  assert (forall m j l a instr', reached m j l a -> code !! j = Some instr' ->
    is_looked_for instr' = true -> reached (S m) (S j) (S l) ∅) as Hfar.
  { intros m j l a instr' Hj Hc Hx.
    destruct (unlooked_kept _ _ _ _ _ Hj Hc) as [_ Hr]; [by destruct instr'|].
    by rewrite barrier_transfer in Hr by by destruct instr'. }
  assert (forall m a, reached m (ip s1) a ∅ -> table_valid (enter entries (ip s1) av1) (frame s1))
    as Hempty.
  { intros m a Hr. destruct (cse_at_unique _ _ _ _ _ _ _ _ _ Hat1 Hr) as (_ & _ & ->).
    unfold enter. case_bool_decide; apply table_valid_empty. }
  destruct (next_address _ _ _ _ _ Hd) as [Hip|[Hip|[(_ & Hm & Hip)|(_ & Hm & Hip)]]].
  - rewrite Hip in *. destruct (cse_at_unique _ _ _ _ _ _ _ _ _ Hat1 HS) as (_ & _ & ->).
    destruct (instruction_is_cse_barrier instr) eqn:Hb.
    + rewrite barrier_transfer by done. unfold enter. case_bool_decide; apply table_valid_empty.
    + destruct (decide (S i ∈ entries)) as [Hin|Hin]; [by apply table_valid_enter|].
      unfold enter at 1. rewrite bool_decide_false by done.
      pose proof (effects_frame _ _ _ _ Hb Hd) as Hf. unfold cse_transfer. rewrite Hb.
      destruct (instruction_written_slot instr) as [slot|].
      * destruct Hf as [v ->]. by apply table_valid_write.
      * by rewrite Hf.
  - apply table_valid_enter, elem_of_union_l. by eapply elem_of_collect_jump_targets.
  - destruct Hm as (x & Hx & Ho). rewrite Hip in *. eapply Hempty.
    eapply Hfar; [exact HS|exact Hx|]. destruct x; try done.
  - apply peek_dup_mul_spec in Hm as [E1 E2]. rewrite Hip in *.
    replace (S i + 2) with (S (S (S i))) in * by lia.
    eapply Hempty. eapply Hfar; [|exact E2|done]. by eapply Hfar; [exact HS|exact E1|].
Qed.

(** And where the environment hands it back. *)
Lemma table_resumed n i k av instr s :
  reached n i k av -> code !! i = Some instr -> i64_slot_expression_at code entries i = None ->
  forall s1 n1 k1 av1,
  resume env (dispatch_instr code instr (set_ip (S i) s)) = Some s1 ->
  reached n1 (ip s1) k1 av1 -> table_valid (enter entries (ip s1) av1) (frame s1).
Proof.
  intros Hat Hi He s1 n1 k1 av1 Hr Hat1.
  pose proof (resume_address G env code i instr s s1 Henv Hr) as Hip. rewrite Hip in *.
  assert (reached (S n) (S i) (S k) (cse_transfer (enter entries i av) instr)) as HS
    by (by eapply cse_other).
  destruct (cse_at_unique _ _ _ _ _ _ _ _ _ Hat1 HS) as (_ & _ & ->).
  rewrite barrier_transfer by (by eapply resume_barrier).
  unfold enter. case_bool_decide; apply table_valid_empty.
Qed.

(** What the second instruction of an expression does with the loaded operand. *)
Lemma expr_instr_exec c e s st l r :
  stack s = Value.I64 l :: st -> in_s 64 l -> slot_holds (frame s) (rhs e) r ->
  dispatch_instr c (expr_instr e) s =
  Continue (push (Value.I64 (expr_value e l r)) (set_stack st s)).
Proof.
  intros Hst Hl Hr. unfold slot_holds in Hr.
  assert (forall o, exec_load_op_i64_slot o (rhs e) s =
    Continue (push (Value.I64 (wrap_s 64 (slot_arith o l r))) (set_stack st s))) as Hop.
  { intros o. unfold exec_load_op_i64_slot, pop_value. rewrite Hr, Hst. cbn [mjoin option_join].
    change (fused_integer_slot_op (Value.I64 r) (Value.I64 l) o)
      with (signed_slot_op o (Value.I64 l) 64 Value.I64 r).
    by rewrite signed_slot_op_i64. }
  unfold expr_instr, expr_value. destruct (op e); apply Hop.
Qed.

Lemma expr_instr_undef c e s :
  locals_slots (frame s) !! rhs e = Some None ->
  dispatch_instr c (expr_instr e) s =
  Raise (UndefVarError (slot_name_for_frame (frame s) (rhs e))) s [].
Proof.
  intros Hr.
  assert (forall o, exec_load_op_i64_slot o (rhs e) s =
    Raise (UndefVarError (slot_name_for_frame (frame s) (rhs e))) s []) as Hop.
  { intros o. unfold exec_load_op_i64_slot. by rewrite Hr. }
  unfold expr_instr. destruct (op e); apply Hop.
Qed.

Lemma expr_typed e : instr_typed G (expr_instr e) -> G (rhs e) = KI64.
Proof. unfold expr_instr. by destruct (op e). Qed.

(** The three instructions of an expression: stored, or an operand missing. *)
Lemma expr_steps c m e dst i s :
  c !! ip s = Some (LoadSlotI64 (lhs e)) -> c !! S (ip s) = Some (expr_instr e) ->
  c !! S (S (ip s)) = Some (StoreSlotI64 dst) -> ip s = i -> m = 3 ->
  state_ok G s -> G (lhs e) = KI64 -> G (rhs e) = KI64 -> G dst = KI64 ->
  (exists l r, slot_holds (frame s) (lhs e) l /\ slot_holds (frame s) (rhs e) r /\
     steps c m s = Continue (set_ip (i + 3)
       (set_frame (set_slots (<[dst := Some (Value.I64 (expr_value e l r))]>
          (locals_slots (frame s))) (frame s)) s))) \/
  (locals_slots (frame s) !! lhs e = Some None /\
     steps c m s = Raise (UndefVarError (slot_name_for_frame (frame s) (lhs e))) (set_ip (S i) s) []) \/
  (exists l, slot_holds (frame s) (lhs e) l /\ locals_slots (frame s) !! rhs e = Some None /\
     steps c m s = Raise (UndefVarError (slot_name_for_frame (frame s) (rhs e)))
       (set_ip (S (S i)) (push (Value.I64 l) s)) []).
Proof.
  intros H0 H1 H2 Hip -> Hok Gl Gr Gd.
  rewrite (steps_at _ _ _ _ H0). cbn [dispatch_instr execute_locals].
  unfold exec_load_slot_i64, read_numeric, slot_i64. cbn [frame set_ip].
  destruct (slot_ok_i64 G s _ Hok Gl) as [El|(l & El & Hl)]; rewrite El; cbn [read_slot frame set_ip].
  { right. left. by rewrite Hip. }
  erewrite steps_at by (cbn [ip push set_stack set_ip]; exact H1). cbn [ip push set_stack set_ip].
  destruct (slot_ok_i64 G s _ Hok Gr) as [Er|(r & Er & _)].
  { right. right. exists l. split_and!; [done|done|]. rewrite expr_instr_undef by done. simpl.
    by rewrite Hip. }
  left. exists l, r. split_and!; [done|done|].
  rewrite (expr_instr_exec _ _ _ (stack s) l r) by done.
  erewrite steps_at by (simpl; exact H2). simpl. unfold exec_store_slot_i64, pop_i64, pop_value,
    store_slot_or_fault, store_slot. simpl.
  destruct (slot_ok_i64 G s _ Hok Gd) as [Ed|(d & Ed & _)]; rewrite Ed; simpl;
    rewrite Hip; f_equal; unfold set_frame, set_ip; simpl; f_equal; lia.
Qed.

Lemma cse_expr_window n k av s e dst :
  reached n (ip s) k av -> i64_slot_expression_at code entries (ip s) = Some (e, dst) ->
  state_ok G s -> table_valid (enter entries (ip s) av) (frame s) ->
  window_diagram code code' env cse_states matches s (set_ip k s).
Proof.
  intros Hat He Hok Hv.
  pose proof (expression_at_spec _ _ _ _ _ He) as (H0 & H1 & H2 & _).
  pose proof (typed_at G code Htyped _ _ H0) as Gl. pose proof (typed_at G code Htyped _ _ H1) as Gr.
  pose proof (typed_at G code Htyped _ _ H2) as Gd. simpl in Gl, Gd. apply expr_typed in Gr.
  assert (reached (S n) (ip s + 3) (k + cse_width (enter entries (ip s) av) e)
    (cse_record (enter entries (ip s) av) e dst)) as Hat' by (by eapply cse_expr).
  assert (forall l r, slot_holds (frame s) (lhs e) l -> slot_holds (frame s) (rhs e) r ->
    steps code 3 s = Continue (set_ip (ip s + 3) (set_frame (set_slots
       (<[dst := Some (Value.I64 (expr_value e l r))]> (locals_slots (frame s))) (frame s)) s)) ->
    cse_states (set_ip (ip s + 3) (set_frame (set_slots
       (<[dst := Some (Value.I64 (expr_value e l r))]> (locals_slots (frame s))) (frame s)) s))
      (set_ip (k + cse_width (enter entries (ip s) av) e) (set_frame (set_slots
       (<[dst := Some (Value.I64 (expr_value e l r))]> (locals_slots (frame s))) (frame s)) s)))
    as Hnext.
  { intros l r Hl Hr Hs. eexists _, _, _. split_and!; [exact Hat'|done| |].
    - pose proof (steps_ok code G 3 s Htyped Hok) as Hok1. by rewrite Hs in Hok1.
    - simpl. unfold enter at 1. case_bool_decide; [apply table_valid_empty|].
      apply table_valid_record; [done|done|done|].
      destruct (slot_ok_i64 G s dst Hok Gd) as [E|(z & E & _)]; by apply lookup_lt_Some in E. }
  destruct (expr_steps code 3 e dst (ip s) s H0 H1 H2 eq_refl eq_refl Hok Gl Gr Gd)
    as [(l & r & Hl & Hr & Hs)|[(El & Hs)|(l & Hl & Er & Hs)]];
    destruct (enter entries (ip s) av !! e) as [res|] eqn:Eres.
  - destruct (emitted_hit _ _ _ _ _ _ _ _ _ Hat He Eres) as [K0 K1].
    destruct (Hv _ _ Eres) as (l' & r' & Hl' & Hr' & Hres).
    assert (l' = l) as -> by (unfold slot_holds in *; congruence).
    assert (r' = r) as -> by (unfold slot_holds in *; congruence).
    exists 3, 2. split_and!; [lia|lia|]. left.
    specialize (Hnext l r Hl Hr Hs). unfold cse_width in Hnext. rewrite Eres in Hnext.
    eexists _, _. split_and!; [exact Hs| |exact Hnext].
    unfold slot_holds in Hres.
    rewrite (steps_at code' 1 (set_ip k s) _ K0). cbn [dispatch_instr execute_locals].
    unfold exec_load_slot_i64, read_numeric, slot_i64. cbn [frame set_ip]. rewrite Hres.
    cbn [read_slot]. erewrite steps_at by (simpl; exact K1). simpl.
    unfold exec_store_slot_i64, pop_i64, pop_value, store_slot_or_fault, store_slot. simpl.
    destruct (slot_ok_i64 G s _ Hok Gd) as [Ed|(d & Ed & _)]; rewrite Ed; simpl;
      f_equal; unfold set_frame, set_ip; simpl; f_equal; lia.
  - destruct (emitted_miss _ _ _ _ _ _ _ _ Hat He Eres) as (K0 & K1 & K2).
    exists 3, 3. split_and!; [lia|lia|]. left.
    specialize (Hnext l r Hl Hr Hs). unfold cse_width in Hnext. rewrite Eres in Hnext.
    eexists _, _. split_and!; [exact Hs| |exact Hnext].
    destruct (expr_steps code' 3 e dst k (set_ip k s) K0 K1 K2 eq_refl eq_refl) as
      [(l' & r' & Hl' & Hr' & Hs')|[(El & _)|(l' & _ & Er & _)]];
      try done; [by apply state_ok_ip|..]; unfold slot_holds in *; simpl in *; [|congruence..].
    rewrite Hl in Hl'. rewrite Hr in Hr'. by simplify_eq.
  - destruct (Hv _ _ Eres) as (l' & r' & Hl' & _). unfold slot_holds in Hl'. congruence.
  - destruct (emitted_miss _ _ _ _ _ _ _ _ Hat He Eres) as (K0 & K1 & K2).
    exists 3, 3. split_and!; [lia|lia|]. right. rewrite Hs.
    destruct (expr_steps code' 3 e dst k (set_ip k s) K0 K1 K2 eq_refl eq_refl) as
      [(l' & r' & Hl' & Hr' & Hs')|[(_ & Hs')|(l' & Hl' & _ & _)]];
      try done; [by apply state_ok_ip|..]; unfold slot_holds in *; simpl in *; [congruence| |congruence].
    rewrite Hs'. split_and!; [done|done|]. split; [by apply match_raise|constructor].
  - destruct (Hv _ _ Eres) as (l' & r' & _ & Hr' & _). unfold slot_holds in Hr'. congruence.
  - destruct (emitted_miss _ _ _ _ _ _ _ _ Hat He Eres) as (K0 & K1 & K2).
    exists 3, 3. split_and!; [lia|lia|]. right. rewrite Hs.
    destruct (expr_steps code' 3 e dst k (set_ip k s) K0 K1 K2 eq_refl eq_refl) as
      [(l' & r' & Hl' & Hr' & Hs')|[(El & _)|(l' & Hl' & _ & Hs')]];
      try done; [by apply state_ok_ip|..]; unfold slot_holds in *; simpl in *; [congruence|congruence|].
    rewrite Hs'. split_and!; [done|done|].
    split; [|constructor]. apply match_raise. split_and!; simpl; congruence.
Qed.

Lemma cse_diagram s s' : cse_states s s' -> window_diagram code code' env cse_states matches s s'.
Proof.
  intros (n & k & av & Hat & -> & Hok & Hv).
  destruct (code !! ip s) as [instr|] eqn:Hi.
  2: { pose proof (cse_at_le _ _ _ _ _ _ Hat). apply lookup_ge_None in Hi as Hge.
       assert (ip s = length code) as Hend by lia. rewrite Hend in Hat.
       exists 1, 1. split_and!; [lia|lia|]. right. unfold steps, step. cbn [ip set_ip]. rewrite Hi.
       rewrite lookup_ge_None_2 by (by rewrite (cse_length _ _ _ _ _ Hat)).
       split_and!; [done|done|]. split; [apply match_fault|constructor]. }
  destruct (i64_slot_expression_at code entries (ip s)) as [[e dst]|] eqn:He;
    [by eapply cse_expr_window|].
  assert (bnd (S (ip s)) (S k)) as HbS by (eexists _, _; by eapply cse_other).
  pose proof (emitted_kept _ _ _ _ _ _ _ Hat Hi He) as Hk.
  pose proof (kept_match code code' bnd new_addr (fun _ => False) (ip s) k instr s HbS) as Hm.
  specialize (Hm ltac:(intros t Ht; by eapply cse_target) ltac:(intros _; by apply cse_view)).
  exists 1, 1. split_and!; [lia|lia|].
  rewrite (steps_at code 0 s instr Hi), (steps_at code' 0 (set_ip k s) _ Hk). cbn [ip set_ip].
  change (set_ip (S k) (set_ip k s)) with (set_ip (S k) s).
  assert (action_ok G (dispatch_instr code instr (set_ip (S (ip s)) s))) as Hok1.
  { apply dispatch_ok; [by eapply typed_at|by apply state_ok_ip]. }
  pose proof (action_match_final _ _ _ _ _ Hm) as Hfin.
  pose proof (table_resumed n (ip s) k av instr s Hat Hi He) as Hres.
  assert (option_Forall2 cse_states (resume env (dispatch_instr code instr (set_ip (S (ip s)) s)))
    (resume env (dispatch_instr code' (map_targets new_addr instr) (set_ip (S k) s)))) as Hrel.
  { pose proof (resume_match G env bnd new_addr _ _ _ Henv Hm Hok1) as Hrel.
    destruct (resume env (dispatch_instr code instr _)) as [x|] eqn:Ex;
      inversion Hrel as [? y ((n1 & av1 & Hat1) & -> & Hx) HE1 HE2|]; subst; constructor.
    exists n1, (ip y), av1. split_and!; try done. by eapply Hres. }
  destruct (dispatch_instr code instr (set_ip (S (ip s)) s)) as [s1| | | | |] eqn:Hd.
  2-6: right; destruct (dispatch_instr code' _ _); try discriminate Hfin; by split_and!.
  left. inversion Hm as [? s1' Hb1 (Hst & Hfr & Hgl) HE1 HE2| | | | | | | |]; subst. clear Hm.
  exists s1, s1'. split_and!; [done|done|]. destruct Hb1 as (n1 & av1 & Hat1).
  exists n1, (ip s1'), av1. split_and!; [exact Hat1| |exact Hok1|].
  - destruct s1, s1'; simpl in *. by subst.
  - by apply (table_after n (ip s) k av instr s s1 n1 (ip s1') av1).
Qed.

(** Where the pass may be entered: at its start, at a jump target or barrier,
    or behind an instruction that clears the table. *)
Definition cse_entry (i k : nat) : Prop :=
  exists n av, reached n i k av /\ enter entries i av = ∅.

Lemma cse_entry_states s k : cse_entry (ip s) k -> state_ok G s -> cse_states s (set_ip k s).
Proof.
  intros (n & av & Hat & Hav) Hok. exists n, k, av. split_and!; try done.
  rewrite Hav. apply table_valid_empty.
Qed.

(** The pass preserves every activation, in both directions. *)
Lemma cse_forward fuel k s out :
  cse_entry (ip s) k -> state_ok G s -> activation env code fuel s = Some out ->
  exists fuel' out', activation env code' fuel' (set_ip k s) = Some out' /\ matches out out'.
Proof. intros He Hok. by apply (sim_forward _ _ _ _ _ cse_diagram), cse_entry_states. Qed.

Lemma cse_backward fuel' k s out' :
  cse_entry (ip s) k -> state_ok G s -> activation env code' fuel' (set_ip k s) = Some out' ->
  exists fuel out, activation env code fuel s = Some out /\ matches out out'.
Proof. intros He Hok. by apply (sim_backward _ _ _ _ _ cse_diagram), cse_entry_states. Qed.

(** C22. The common subexpression pass: from the start of the code, from a jump
    target or barrier, or from behind an instruction that clears the table, the
    two programs have the same outcomes. *)
Theorem cse_equivalence k s :
  cse_entry (ip s) k -> state_ok G s ->
  (forall fuel out, activation env code fuel s = Some out ->
     exists fuel' out', activation env code' fuel' (set_ip k s) = Some out' /\ matches out out') /\
  (forall fuel' out', activation env code' fuel' (set_ip k s) = Some out' ->
     exists fuel out, activation env code fuel s = Some out /\ matches out out').
Proof.
  intros He Hok. split.
  - intros fuel out. by apply cse_forward.
  - intros fuel' out'. by apply cse_backward.
Qed.
End Cse.
