(* ===== verification/PeepholeDup.v ===== *)
(** * Duplicate and destructive loads

    Turning the second of two equal adjacent loads into a duplication of the
    stack top preserves the program, provided that no jump lands on the second
    load.  The source does not check the proviso; [Examples] has a program
    on which it fails. *)

From S2P Require Export PeepholeExec.

(** ** The shape of the pass *)

(** The duplication that a load is rewritten to. *)
Definition dup_of (load : Instr) : option Instr :=
  match load with
  | LoadI64 _ | LoadSlotI64 _ => Some DupI64
  | LoadF64 _ | LoadSlotF64 _ => Some DupF64
  | _ => None
  end.

Lemma duplicate_spec first second dup :
  duplicate_for_redundant_load_pair first second = Some dup ->
  first = second /\ dup_of second = Some dup.
Proof.
  unfold duplicate_for_redundant_load_pair. intros H. invert_match H;
    apply bool_decide_eq_true in Heqb; subst; by injection H as <-.
Qed.

Lemma duplicate_loop_lookup protected i prev code j :
  duplicate_loop protected i prev code !! j =
  match code !! j with
  | None => None
  | Some instr =>
      let prev := match j with 0 => Some prev | S j => duplicate_loop protected i prev code !! j end in
      Some (if bool_decide (i + j - 1 ∈ protected) || bool_decide (i + j ∈ protected) then instr
            else default instr (prev ← prev; duplicate_for_redundant_load_pair prev instr))
  end.
Proof.
  revert i prev j. induction code as [|instr code IH]; intros i prev j; [done|].
  destruct j as [|j].
  - simpl. by rewrite Nat.add_0_r.
  - cbn [duplicate_loop lookup list_lookup]. rewrite IH.
    replace (S i + j) with (i + S j) by lia. destruct (code !! j); [|done].
    by destruct j.
Qed.

Section Dup.
Variable code : list Instr.
Variable protected : gset nat.

Abbreviation code' := (rewrite_adjacent_duplicate_loads code protected).

(** The indices that the pass rewrites. *)
Definition rewritten (i : nat) : Prop :=
  exists load dup j, i = S j /\ code !! j = Some load /\ code' !! j = Some load /\
    code !! i = Some load /\ code' !! i = Some dup /\ dup_of load = Some dup.

Lemma dup_length : length code' = length code.
Proof.
  destruct code as [|first rest]; [done|]. simpl. f_equal.
  generalize 1 first. induction rest as [|instr rest IH]; intros i prev; [done|].
  simpl. by rewrite IH.
Qed.

Lemma dup_lookup j :
  code' !! S j =
  match code !! S j with
  | None => None
  | Some instr =>
      Some (if bool_decide (j ∈ protected) || bool_decide (S j ∈ protected) then instr
            else default instr (prev ← code' !! j; duplicate_for_redundant_load_pair prev instr))
  end.
Proof.
  destruct code as [|first rest]; [done|].
  cbn [rewrite_adjacent_duplicate_loads lookup list_lookup]. rewrite duplicate_loop_lookup.
  replace (1 + j - 1) with j by lia. change (1 + j) with (S j).
  destruct (rest !! j) as [instr|]; [|done]. by destruct j.
Qed.

(** Either kept or a rewritten load behind an equal load. *)
Lemma dup_cases i : code' !! i = code !! i \/ rewritten i.
Proof.
  induction i as [i IH] using lt_wf_ind. destruct i as [|j]; [left; by destruct code|].
  pose proof (dup_lookup j) as E.
  destruct (code !! S j) as [instr|] eqn:Hi; [|left; congruence].
  destruct (bool_decide (j ∈ protected) || bool_decide (S j ∈ protected)); [by left|].
  destruct (code' !! j) as [prev|] eqn:Hp; [|by left]. simpl in E.
  destruct (duplicate_for_redundant_load_pair prev instr) as [dup|] eqn:Hd; [|by left].
  apply duplicate_spec in Hd as [-> Hdup]. right. exists instr, dup, j. split_and!; try done.
  destruct (IH j) as [Hk|(load & dup' & j' & -> & _ & _ & H1 & H2 & H3)]; [lia|congruence|].
  exfalso. rewrite Hp in H2. simplify_eq. destruct load; simplify_eq/=.
Qed.

(** A rewritten index is changed, and no protected one. *)
Lemma rewritten_changed i : rewritten i -> code' !! i <> code !! i.
Proof.
  intros (load & dup & j & -> & _ & _ & -> & -> & Hdup) [= ->]. by destruct load.
Qed.

Lemma rewritten_unprotected i : rewritten i -> i ∉ protected.
Proof.
  intros Hr Hp. apply (rewritten_changed i Hr). destruct Hr as (load & dup & j & -> & _).
  rewrite dup_lookup. destruct (code !! S j); [|done].
  by rewrite (bool_decide_true (S j ∈ protected)), orb_true_r.
Qed.

Lemma rewritten_after i : rewritten i -> ~ rewritten (S i).
Proof.
  intros (load & dup & j & -> & _ & _ & _ & Hd & Hdup) (load' & dup' & j' & [= <-] & _ & H2 & _ & _ & H5).
  rewrite Hd in H2. simplify_eq. destruct load; simplify_eq/=.
Qed.

(** No rewritten load is a jump target. *)
Definition dup_safe : Prop := forall i, rewritten i -> i ∉ collect_jump_targets code.

Lemma dup_safe_intro :
  (forall i, i ∈ collect_jump_targets code -> code' !! i = code !! i) -> dup_safe.
Proof. intros Hs i Hr Hi. by apply (rewritten_changed i), Hs. Qed.

(** ** The simulation *)

Context `{ExternalConversions}.
Variable G : slot_typing.
Hypothesis Htyped : code_typed G code.
Hypothesis Hsafe : dup_safe.
Variable env : Environment.
Hypothesis Henv : environment_ok G env.

(** What a load pushes. *)
Definition load_result (load : Instr) (s : Vm) : option value :=
  match load with
  | LoadI64 name => Value.I64 <$> i64_value_from_current_or_global_frame s name
  | LoadF64 name => Value.F64 <$> f64_value_from_current_or_global_frame s name
  | LoadSlotI64 slot | LoadSlotF64 slot => mjoin (locals_slots (frame s) !! slot)
  | _ => None
  end.

Definition undefined_name (load : Instr) (s : Vm) : string :=
  match load with
  | LoadI64 name | LoadF64 name => name
  | LoadSlotI64 slot | LoadSlotF64 slot => slot_name_for_frame (frame s) slot
  | _ => ""
  end.

Lemma load_exec c load dup s i :
  dup_of load = Some dup -> instr_typed G load -> state_ok G s ->
  (looks_ahead load = true -> peek_add c (S i) = false /\ peek_dup_mul c (S i) = false) ->
  dispatch_instr c load (set_ip (S i) s) =
  match load_result load s with
  | Some v => Continue (push v (set_ip (S i) s))
  | None => Raise (UndefVarError (undefined_name load s)) (set_ip (S i) s) []
  end.
Proof.
  intros Hd Ht Hok Hp. destruct load; try discriminate Hd; cbn [dispatch_instr execute_locals].
  - unfold exec_load_i64. simpl.
    change (i64_value_from_current_or_global_frame (set_ip (S i) s) name)
      with (i64_value_from_current_or_global_frame s name).
    by destruct (i64_value_from_current_or_global_frame s name).
  - unfold exec_load_f64. simpl.
    change (f64_value_from_current_or_global_frame (set_ip (S i) s) name)
      with (f64_value_from_current_or_global_frame s name).
    by destruct (f64_value_from_current_or_global_frame s name).
  - unfold exec_load_slot_i64, read_numeric, slot_i64. simpl.
    by destruct (slot_ok_i64 G s slot Hok Ht) as [->|(z & -> & _)].
  - rewrite exec_load_slot_f64_peek. cbn [ip set_ip]. destruct (Hp eq_refl) as [-> ->].
    unfold load_slot_f64_plain, slot_f64. simpl.
    by destruct (slot_ok_f64 G s slot Hok Ht) as [->|(z & ->)].
Qed.

(** The duplication pushes what the load would push again. *)
Lemma dup_exec c load dup s i v st :
  dup_of load = Some dup -> instr_typed G load -> state_ok G s ->
  load_result load s = Some v -> stack s = v :: st ->
  dispatch_instr c dup (set_ip (S i) s) = Continue (push v (set_ip (S i) s)).
Proof.
  intros Hd Ht Hok Hv Hst.
  destruct load; simplify_eq/=; rewrite Hst.
  - by destruct (i64_value_from_current_or_global_frame s name); simplify_eq/=.
  - by destruct (f64_value_from_current_or_global_frame s name); simplify_eq/=.
  - destruct (slot_ok_i64 G s slot Hok Ht) as [E|(z & E & _)]; rewrite E in Hv; by simplify_eq/=.
  - destruct (slot_ok_f64 G s slot Hok Ht) as [E|(z & E)]; rewrite E in Hv; by simplify_eq/=.
Qed.

Abbreviation matches := (action_match eq (fun t => t) (fun _ => False)).

(** The two programs in the same state; on a rewritten load, its value is on
    top of the stack. *)
Definition dup_states (s s' : Vm) : Prop :=
  s' = s /\ state_ok G s /\
  (rewritten (ip s) -> exists load v st, code !! ip s = Some load /\
     load_result load s = Some v /\ stack s = v :: st).

Lemma mul_kept i : code' !! i = Some MulF64 <-> code !! i = Some MulF64.
Proof.
  destruct (dup_cases i) as [->|(load & dup & j & -> & _ & _ & -> & -> & Hd)]; [done|].
  split; intros [= ->]; [by destruct load|done].
Qed.

Lemma peek_add_kept i : peek_add code' i = peek_add code i.
Proof.
  unfold peek_add. destruct (dup_cases i) as [->|(load & dup & j & -> & _ & _ & -> & -> & Hd)]; [done|].
  by destruct load; simplify_eq/=.
Qed.

Lemma peek_mul_kept i : peek_mul code' i = peek_mul code i.
Proof. apply eq_iff_eq_true. rewrite !peek_mul_spec. apply mul_kept. Qed.

Lemma peek_dup_mul_kept i : ~ rewritten i -> peek_dup_mul code' i = peek_dup_mul code i.
Proof.
  intros Hn. unfold peek_dup_mul. destruct (dup_cases i) as [->|?]; [|done].
  destruct (code !! i) as [[]|]; try done. apply peek_mul_kept.
Qed.

(** Where control goes after a kept instruction, the invariant holds. *)
Lemma dup_states_after i instr s s1 :
  ip s = i -> code !! i = Some instr -> state_ok G s ->
  dispatch_instr code instr (set_ip (S i) s) = Continue s1 -> dup_states s1 s1.
Proof.
  intros Hip Hi Hok Hd.
  assert (state_ok G s1) as Hok1.
  { pose proof (dispatch_ok G code instr (set_ip (S i) s)) as Hx. rewrite Hd in Hx.
    apply Hx; [by eapply typed_at|by apply state_ok_ip]. }
  split_and!; [done|done|]. intros Hr.
  assert (forall j x, code !! j = Some x -> rewritten (S j) -> is_looked_for x = true -> False)
    as Hno.
  { intros j x Hj (load & dup & j' & [= <-] & Hl & _ & _ & _ & Hdup) Hx.
    rewrite Hj in Hl. injection Hl as <-. by destruct x. }
  destruct (next_address _ _ _ _ _ Hd) as [E|[E|[(_ & Hm & E)|(_ & Hm & E)]]].
  - rewrite E in *. destruct Hr as (load & dup & j & [= <-] & H1 & H2 & H3 & H4 & H5).
    rewrite Hi in H1. injection H1 as <-.
    rewrite (load_exec code instr dup s i) in Hd; [|done|by eapply typed_at|done|].
    2: { intros _. unfold peek_dup_mul, peek_add. rewrite H3. by destruct instr. }
    destruct (load_result instr s) as [v|] eqn:Ev; [|done]. injection Hd as <-.
    exists instr, v, (stack s). split_and!; [done| |done].
    rewrite <- Ev. by destruct instr.
  - exfalso. apply (Hsafe _ Hr). by eapply elem_of_collect_jump_targets.
  - exfalso. rewrite E in Hr. destruct Hm as (x & Hx & Ho). eapply Hno; [exact Hx|exact Hr|].
    by destruct x.
  - exfalso. rewrite E in Hr. replace (S i + 2) with (S (S (S i))) in Hr by lia.
    apply peek_dup_mul_spec in Hm as [_ Hm]. by eapply Hno; [exact Hm|exact Hr|].
Qed.

Lemma dup_states_resumed i instr s s1 :
  ip s = i -> code !! i = Some instr -> state_ok G s ->
  resume env (dispatch_instr code instr (set_ip (S i) s)) = Some s1 -> dup_states s1 s1.
Proof.
  intros Hip Hi Hok Hr. pose proof (resume_address G env code i instr s s1 Henv Hr) as Hip1.
  assert (action_ok G (dispatch_instr code instr (set_ip (S i) s))) as Hok1.
  { apply dispatch_ok; [by eapply typed_at|by apply state_ok_ip]. }
  split_and!; [done|by eapply resume_typed|]. rewrite Hip1.
  intros (load & dup & j & [= <-] & Hl & _ & _ & _ & Hdup). exfalso.
  rewrite Hi in Hl. injection Hl as ->. destruct (looks_ahead load) eqn:El.
  { by rewrite looks_ahead_resume in Hr. }
  rewrite (load_exec code load dup s i) in Hr; [|done|by eapply typed_at|done|by rewrite El].
  by destruct (load_result load s).
Qed.

(** [x * x] through the look-ahead and through the stack. *)
Lemma dup_mul_steps c s i x st :
  c !! i = Some DupF64 -> c !! S i = Some MulF64 -> ip s = i -> stack s = Value.F64 x :: st ->
  steps c 2 s = Continue (set_ip (i + 2) (set_stack (Value.F64 (f64_mul x x) :: st) s)).
Proof.
  intros H0 H1 Hip Hst. destruct s as [ip0 st0 fr gl]; simpl in *; subst. exec.
  do 2 f_equal; lia.
Qed.

Lemma load_slot_f64_square c slot s i x :
  peek_dup_mul c (S i) = true -> locals_slots (frame s) !! slot = Some (Some (Value.F64 x)) ->
  dispatch_instr c (LoadSlotF64 slot) (set_ip (S i) s) =
  Continue (set_ip (S i + 2) (push (Value.F64 (f64_mul x x)) s)).
Proof.
  intros Hp Hs. cbn [dispatch_instr execute_locals]. rewrite exec_load_slot_f64_peek.
  cbn [ip set_ip]. rewrite Hp.
  assert (peek_add c (S i) = false) as -> by (apply peek_dup_mul_spec in Hp as [E _]; unfold peek_add; by rewrite E).
  unfold slot_f64_for_op, slot_f64. cbn [frame set_ip]. by rewrite Hs.
Qed.

(** [x + x] through the look-ahead and through the stack. *)
Lemma load_slot_f64_double c slot s i x st :
  peek_add c (S i) = true -> locals_slots (frame s) !! slot = Some (Some (Value.F64 x)) ->
  stack s = Value.F64 x :: st ->
  dispatch_instr c (LoadSlotF64 slot) (set_ip (S i) s) =
  Continue (set_ip (S (S i)) (set_stack (Value.F64 (f64_add x x) :: st) s)).
Proof.
  intros Hp Hs Hst. cbn [dispatch_instr execute_locals]. rewrite exec_load_slot_f64_peek.
  cbn [ip set_ip]. rewrite Hp. unfold slot_f64_for_op, slot_f64. cbn [frame set_ip stack].
  by rewrite Hs, Hst.
Qed.

(** On a rewritten load. *)
Lemma rewritten_window s : dup_states s s -> rewritten (ip s) ->
  window_diagram code code' env dup_states matches s s.
Proof.
  intros (_ & Hok & Htop) Hr. destruct (Htop Hr) as (load & v & st & Hl & Hv & Hst).
  pose proof (rewritten_after _ Hr) as Hnr.
  destruct Hr as (load' & dup & j & Hj & _ & _ & Hl' & Hd & Hdup).
  rewrite Hl in Hl'. injection Hl' as <-. pose proof (typed_at G code Htyped _ _ Hl) as Ht.
  destruct (looks_ahead load && peek_dup_mul code (S (ip s))) eqn:Hp.
  - apply andb_prop in Hp as [Hla Hp]. destruct load; try done; try discriminate Hdup.
    injection Hdup as <-. simpl in Hv, Ht.
    destruct (slot_ok_f64 G s slot Hok Ht) as [E|(x & E)]; rewrite E in Hv; simplify_eq/=.
    pose proof (load_slot_f64_square code slot s (ip s) x Hp E) as Hexec.
    pose proof (proj1 (peek_dup_mul_spec _ _) Hp) as [P1 P2].
    assert (code' !! S (ip s) = Some DupF64) as P1' by (by destruct (dup_cases (S (ip s))) as [->|?]).
    assert (code' !! S (S (ip s)) = Some MulF64) as P2' by (by apply mul_kept).
    exists 1, 3. split_and!; [lia|lia|]. left.
    exists (set_ip (S (ip s) + 2) (push (Value.F64 (f64_mul x x)) s)),
      (set_ip (S (ip s) + 2) (push (Value.F64 (f64_mul x x)) s)).
    rewrite (steps_at code 0 s _ Hl), Hexec, (steps_at code' 2 s _ Hd).
    rewrite (dup_exec code' (LoadSlotF64 slot) DupF64 s (ip s) (Value.F64 x) st);
      [|done|done|done|simpl; by rewrite E|done].
    rewrite (dup_mul_steps code' _ (S (ip s)) x (stack s)) by done.
    split_and!; [done|done|]. by apply (dup_states_after (ip s) (LoadSlotF64 slot) s).
  - destruct (looks_ahead load && peek_add code (S (ip s))) eqn:Hadd.
    { apply andb_prop in Hadd as [Hla Hadd]. destruct load; try done; try discriminate Hdup.
      injection Hdup as <-. simpl in Hv, Ht.
      destruct (slot_ok_f64 G s slot Hok Ht) as [E|(x & E)]; rewrite E in Hv; simplify_eq/=.
      pose proof (load_slot_f64_double code slot s (ip s) x st Hadd E Hst) as Hexec.
      pose proof Hadd as Hadd'. rewrite <- peek_add_kept in Hadd'.
      apply peek_add_spec in Hadd' as [l Hadd'].
      exists 1, 2. split_and!; [lia|lia|]. left. eexists _, _.
      rewrite (steps_at code 0 s _ Hl), Hexec, (steps_at code' 1 s _ Hd).
      rewrite (dup_exec code' (LoadSlotF64 slot) DupF64 s (ip s) (Value.F64 x) st);
        [|done|done|done|simpl; by rewrite E|done].
      erewrite steps_at by (simpl; exact Hadd'). cbn [dispatch_instr].
      unfold execute_binary_both. cbn [stack push set_stack set_ip]. rewrite Hst.
      split_and!; [done|done|]. by apply (dup_states_after (ip s) (LoadSlotF64 slot) s). }
    exists 1, 1. split_and!; [lia|lia|]. left.
    exists (push v (set_ip (S (ip s)) s)), (push v (set_ip (S (ip s)) s)).
    assert (dispatch_instr code load (set_ip (S (ip s)) s) = Continue (push v (set_ip (S (ip s)) s)))
      as Hexec.
    { rewrite (load_exec code load dup), Hv; try done.
      intros Hla. by rewrite Hla in Hp, Hadd. }
    rewrite (steps_at code 0 s load Hl), (steps_at code' 0 s dup Hd), Hexec.
    rewrite (dup_exec code' load dup s (ip s) v st) by done.
    split_and!; [done|done|]. by apply (dup_states_after (ip s) load s).
Qed.

(** On a load of a [Float64] slot whose rewritten twin a multiplication
    follows: the rewritten code may look ahead. *)
Lemma before_rewritten_window s slot :
  state_ok G s -> code !! ip s = Some (LoadSlotF64 slot) -> code' !! ip s = Some (LoadSlotF64 slot) ->
  rewritten (S (ip s)) -> peek_mul code (S (S (ip s))) = true ->
  window_diagram code code' env dup_states matches s s.
Proof.
  intros Hok Hi Hi' Hr Hm. pose proof Hr as (load & dup & j & [= <-] & H1 & _ & H3 & H4 & Hdup).
  rewrite Hi in H1. injection H1 as <-. injection Hdup as <-.
  pose proof (typed_at G code Htyped _ _ Hi) as Ht. simpl in Ht.
  apply peek_mul_spec in Hm. assert (code' !! S (S (ip s)) = Some MulF64) as Hm' by (by apply mul_kept).
  assert (peek_dup_mul code (S (ip s)) = false) as Hp by (unfold peek_dup_mul; by rewrite H3).
  assert (peek_dup_mul code' (S (ip s)) = true) as Hp' by (by rewrite peek_dup_mul_spec).
  assert (peek_dup_mul code (S (S (ip s))) = false) as Hp2 by (unfold peek_dup_mul; by rewrite Hm).
  assert (peek_add code (S (ip s)) = false) as Ha by (unfold peek_add; by rewrite H3).
  assert (peek_add code (S (S (ip s))) = false) as Ha2 by (unfold peek_add; by rewrite Hm).
  destruct (slot_ok_f64 G s slot Hok Ht) as [E|(x & E)].
  - exists 1, 1. split_and!; [lia|lia|]. right.
    rewrite (steps_at code 0 s _ Hi), (steps_at code' 0 s _ Hi').
    rewrite (load_exec code (LoadSlotF64 slot) DupF64) by done. simpl. rewrite E. simpl.
    unfold exec_load_slot_f64. simpl. rewrite H4, Hm'. unfold slot_f64_for_op, slot_f64. simpl.
    rewrite E. simpl. split_and!; [done|done|]. split; [by apply match_raise|constructor].
  - exists 3, 1. split_and!; [lia|lia|]. left.
    exists (set_ip (S (ip s) + 2) (push (Value.F64 (f64_mul x x)) s)),
      (set_ip (S (ip s) + 2) (push (Value.F64 (f64_mul x x)) s)).
    rewrite (steps_at code' 0 s _ Hi'), (load_slot_f64_square code' slot s (ip s) x Hp' E).
    assert (steps code 3 s = Continue (set_ip (S (ip s) + 2) (push (Value.F64 (f64_mul x x)) s))) as Hs.
    { rewrite (steps_at code 2 s _ Hi), (load_exec code (LoadSlotF64 slot) DupF64) by done.
      simpl. rewrite E. simpl.
      erewrite steps_at by (simpl; exact H3). cbn [ip push set_stack set_ip].
      rewrite (load_exec code (LoadSlotF64 slot) DupF64 _ (S (ip s))).
      2-5: try done. 2: by apply state_ok_push, state_ok_ip; [apply val_ok_f64|].
      simpl. rewrite E. simpl. erewrite steps_at by (simpl; exact Hm). simpl.
      unfold binop_f64, pop_f64_or_i64, pop_value. simpl.
      unfold steps, push, set_stack, set_ip. simpl. do 2 f_equal. lia. }
    rewrite Hs. split_and!; [done|done|]. split_and!; [done| |].
    + by apply state_ok_ip, state_ok_push; [apply val_ok_f64|].
    + intros Hr2. exfalso. simpl in Hr2. replace (S (ip s + 2)) with (S (S (S (ip s)))) in Hr2 by lia.
      destruct Hr2 as (l2 & d2 & j2 & [= <-] & Hl2 & _ & _ & _ & Hd2).
      rewrite Hm in Hl2. injection Hl2 as <-. done.
Qed.

(** A kept instruction that sees the same code behind it. *)
Lemma kept_window s instr :
  state_ok G s -> code !! ip s = Some instr -> code' !! ip s = Some instr ->
  (looks_ahead instr = true -> peek_dup_mul code' (S (ip s)) = peek_dup_mul code (S (ip s))) ->
  window_diagram code code' env dup_states matches s s.
Proof.
  intros Hok Hi Hi' Hv.
  assert (matches (dispatch_instr code instr (set_ip (S (ip s)) s))
    (dispatch_instr code' (map_targets (fun t => t) instr) (set_ip (S (ip s)) s))) as Hm.
  { apply kept_match; [done|done|]. intros Hl. constructor; auto using peek_mul_kept, peek_add_kept. }
  rewrite map_targets_id in Hm. exists 1, 1. split_and!; [lia|lia|].
  rewrite (steps_at code 0 s _ Hi), (steps_at code' 0 s _ Hi').
  pose proof (action_match_final _ _ _ _ _ Hm) as Hfin.
  assert (option_Forall2 dup_states (resume env (dispatch_instr code instr (set_ip (S (ip s)) s)))
    (resume env (dispatch_instr code' instr (set_ip (S (ip s)) s)))) as Hrel.
  { assert (action_ok G (dispatch_instr code instr (set_ip (S (ip s)) s))) as Hok1.
    { apply dispatch_ok; [by eapply typed_at|by apply state_ok_ip]. }
    pose proof (resume_match G env eq (fun t => t) _ _ _ Henv Hm Hok1) as Hrel.
    destruct (resume env (dispatch_instr code instr _)) as [x|] eqn:Ex;
      inversion Hrel as [? y (Hip & -> & Hx) HE1 HE2|]; subst; constructor.
    rewrite <- Hip. replace (set_ip (ip x) x) with x by by destruct x.
    eapply (dup_states_resumed (ip s) instr s x); [done|exact Hi|exact Hok|exact Ex]. }
  destruct (dispatch_instr code instr (set_ip (S (ip s)) s)) as [s1| | | | |] eqn:Hd.
  2-6: right; destruct (dispatch_instr code' _ _); try discriminate Hfin; by split_and!.
  left.
  inversion Hm as [? s1' Hb1 (Hst & Hfr & Hgl) HE1 HE2| | | | | | | |]; subst.
  assert (s1 = s1') as <- by (destruct s1, s1'; simpl in *; congruence).
  exists s1, s1. split_and!; [done|done|]. by apply (dup_states_after (ip s) instr s).
Qed.

Lemma dup_diagram s s' : dup_states s s' -> window_diagram code code' env dup_states matches s s'.
Proof.
  intros HR. pose proof HR as (-> & Hok & Htop).
  destruct (dup_cases (ip s)) as [Hk|Hr]; [|by apply rewritten_window].
  destruct (code !! ip s) as [instr|] eqn:Hi.
  2: { exists 1, 1. split_and!; [lia|lia|]. right. unfold steps, step. rewrite Hi, Hk.
       split_and!; [done|done|]. split; [apply match_fault|constructor]. }
  assert (rewritten (S (ip s)) \/ ~ rewritten (S (ip s))) as Hdec.
  { destruct (code' !! S (ip s)) as [y|] eqn:Ey, (code !! S (ip s)) as [x|] eqn:Ex.
    2-4: right; intros (load & dup & j & _ & _ & _ & ? & ? & _); congruence.
    destruct (dup_cases (S (ip s))) as [E|]; [|by left]. right.
    intros (load & dup & j & _ & _ & _ & H3 & H4 & H5). rewrite E, H3 in H4. injection H4 as ->.
    by destruct dup. }
  destruct (looks_ahead instr && peek_mul code (S (S (ip s)))) eqn:Hla;
    [destruct Hdec as [Hr|Hnr]|].
  - apply andb_prop in Hla as [Hla Hm].
    destruct Hr as (load & dup & j & [= <-] & H1 & H2 & H3 & H4 & Hdup).
    rewrite Hi in H1. injection H1 as <-. destruct instr; try done.
    eapply before_rewritten_window; try done. by eexists _, _, _.
  - apply (kept_window s instr); try done. intros _. by apply peek_dup_mul_kept.
  - apply (kept_window s instr); try done. intros Hl. rewrite Hl in Hla. simpl in Hla.
    destruct Hdec as [Hr|Hnr]; [|by apply peek_dup_mul_kept].
    destruct Hr as (load & dup & j & _ & _ & _ & H3 & H4 & Hdup).
    unfold peek_dup_mul. rewrite H3, H4, peek_mul_kept, Hla.
    destruct load; try discriminate Hdup; by injection Hdup as <-.
Qed.

(** Where the pass may be entered: not behind the first load of a pair. *)
Definition dup_entry (i : nat) : Prop := ~ rewritten i.

Lemma dup_entry_states s : dup_entry (ip s) -> state_ok G s -> dup_states s s.
Proof. intros He Hok. split_and!; [done|done|]. by intros Hr. Qed.

(** The pass preserves every activation, in both directions. *)
Lemma dup_forward fuel s out :
  dup_entry (ip s) -> state_ok G s -> activation env code fuel s = Some out ->
  exists fuel' out', activation env code' fuel' s = Some out' /\ matches out out'.
Proof. intros He Hok. by apply (sim_forward _ _ _ _ _ dup_diagram), dup_entry_states. Qed.

Lemma dup_backward fuel' s out' :
  dup_entry (ip s) -> state_ok G s -> activation env code' fuel' s = Some out' ->
  exists fuel out, activation env code fuel s = Some out /\ matches out out'.
Proof. intros He Hok. by apply (sim_backward _ _ _ _ _ dup_diagram), dup_entry_states. Qed.

(** Adjacent duplicate loads: where no rewritten load is a jump target, the
    two programs have the same outcomes. *)
Theorem dup_equivalence s :
  dup_entry (ip s) -> state_ok G s ->
  (forall fuel out, activation env code fuel s = Some out ->
     exists fuel' out', activation env code' fuel' s = Some out' /\ matches out out') /\
  (forall fuel' out', activation env code' fuel' s = Some out' ->
     exists fuel out, activation env code fuel s = Some out /\ matches out out').
Proof.
  intros He Hok. split.
  - intros fuel out. by apply dup_forward.
  - intros fuel' out'. by apply dup_backward.
Qed.
End Dup.

(** * Destructive loads preserve the program

    [rewrite_destructive_loads] turns a slot load in front of a return into
    [TakeSlot].  What leaves the activation is the same but for the slot that
    was emptied; where the old code stops with an internal error (a slot
    outside the frame, a typed load of another variant) nothing is promised. *)

Section Take.
Variable code : list Instr.
Variable main_entry : nat.
Variable protected : gset nat.

Abbreviation code' := (rewrite_destructive_loads code main_entry protected).

(** A rewritten load. *)
Definition taken (k slot : nat) : Prop :=
  S k < main_entry /\ k ∉ protected /\ S k ∉ protected /\ handler_depths 0 code !! k = Some 0 /\
  code' !! k = Some (TakeSlot slot) /\
  exists load ret, code !! k = Some load /\ is_verbatim_slot_load load = Some slot /\
    code !! S k = Some ret /\ return_consumes_stack_top ret = true.

Lemma take_lookup k instr :
  code !! k = Some instr -> code' !! k = Some instr \/ exists slot, taken k slot.
Proof.
  intros Hk. unfold taken, rewrite_destructive_loads.
  do 2 (case_bool_decide; [by left|]). rewrite list_lookup_imap, Hk. simpl.
  unfold destructive_load_at. destruct (code !! S k) as [ret|] eqn:Hr; [|by left].
  case_bool_decide as Hm; [by left|]. destruct (_ || _) eqn:Hp; [by left|].
  apply orb_false_elim in Hp as [Hp0%bool_decide_eq_false Hp1%bool_decide_eq_false].
  destruct (negb _) eqn:Hd; [by left|]. apply negb_false_iff, bool_decide_eq_true in Hd.
  destruct (is_verbatim_slot_load instr) as [slot|] eqn:Hv; [|by left].
  destruct (return_consumes_stack_top ret) eqn:Hret; [|by left].
  right. exists slot. rewrite Nat.add_1_r in *. split_and!; [lia|done..|]. eauto 10.
Qed.

Lemma take_length : length code' = length code.
Proof.
  unfold rewrite_destructive_loads. do 2 (case_bool_decide; [done|]). by rewrite length_imap.
Qed.

Lemma take_kept k instr :
  code !! k = Some instr -> is_verbatim_slot_load instr = None -> code' !! k = Some instr.
Proof.
  intros Hk Hv. destruct (take_lookup k instr Hk) as [|(slot & H)]; [done|].
  destruct H as (_ & _ & _ & _ & _ & load & ret & Hl & Hs & _). congruence.
Qed.

Lemma looked_for_take k instr :
  is_looked_for instr = true -> code' !! k = Some instr <-> code !! k = Some instr.
Proof.
  intros Hin. split; intros Hk; [|apply take_kept; [done|by destruct instr]].
  destruct (lookup_lt_is_Some_2 code k) as [x Hx].
  { rewrite <- take_length. by eapply lookup_lt_Some. }
  destruct (take_lookup k x Hx) as [E|(slot & H)]; [by rewrite Hx, <- Hk, E|].
  destruct H as (_ & _ & _ & _ & E & _). rewrite Hk in E. injection E as ->.
  done.
Qed.

(** ** The simulation *)

Context `{ExternalConversions}.
Variable G : slot_typing.
Hypothesis Htyped : code_typed G code.
Variable env : Environment.
Hypothesis Henv : environment_ok G env.

(** Slots that a rewritten load may leave empty. *)
Definition taken_slot (slot : nat) : Prop := exists k, taken k slot.

(** Matching outcomes; an internal error of the old code promises nothing. *)
Definition take_match (a a' : DispatchAction) : Prop :=
  action_match eq (fun t => t) taken_slot a a' \/ a = Fault InternalError.

Definition take_states (s s' : Vm) : Prop := s' = s /\ state_ok G s.

(** The load that is rewritten, at any state. *)
Lemma verbatim_load c load slot s :
  is_verbatim_slot_load load = Some slot -> peek_mul c (ip s) = false -> peek_dup_mul c (ip s) = false ->
  (exists v, locals_slots (frame s) !! slot = Some (Some v) /\
     dispatch_instr c load s = Continue (push v s)) \/
  (mjoin (locals_slots (frame s) !! slot) = None /\
     dispatch_instr c load s = Raise (UndefVarError (slot_name_for_frame (frame s) slot)) s []) \/
  dispatch_instr c load s = Fault InternalError.
Proof.
  intros Hv Hm Hd.
  assert (forall accepts,
    (exists v, locals_slots (frame s) !! slot = Some (Some v) /\
       exec_load_slot_heap accepts slot s = Continue (push v s)) \/
    (mjoin (locals_slots (frame s) !! slot) = None /\
       exec_load_slot_heap accepts slot s =
         Raise (UndefVarError (slot_name_for_frame (frame s) slot)) s []) \/
    exec_load_slot_heap accepts slot s = Fault InternalError) as Hheap.
  { intros accepts. unfold exec_load_slot_heap.
    destruct (locals_slots (frame s) !! slot) as [[v|]|]; [|by auto..].
    destruct (accepts v); eauto. }
  destruct load; try discriminate Hv; injection Hv as ->; try apply Hheap.
  cbn [dispatch_instr execute_locals]. rewrite exec_load_slot_peek, Hm, Hd.
  destruct (locals_slots (frame s) !! slot) as [[v|]|] eqn:E; cbn [mjoin option_join];
    [left; exists v; split; [done|]; by destruct (slot_exact_f64 _ _)|
     right; left; split; [done|]; by destruct (slot_exact_f64 _ _)..].
Qed.

(** The return behind it: only the frame differs. *)
Lemma return_match c c' ret v s slot :
  return_consumes_stack_top ret = true -> taken_slot slot ->
  locals_slots (frame s) !! slot = Some (Some v) ->
  is_continue (dispatch_instr c ret (push v s)) = false /\
  action_match eq (fun t => t) taken_slot (dispatch_instr c ret (push v s))
    (dispatch_instr c' ret (push v (set_frame
       (set_slots (<[slot := None]> (locals_slots (frame s))) (frame s)) s))).
Proof.
  intros Hr Hslot Hv.
  assert (forall i w, action_match eq (fun t => t) taken_slot (ReturnOut i w s)
    (ReturnOut i w (set_frame
       (set_slots (<[slot := None]> (locals_slots (frame s))) (frame s)) s))) as Hout.
  { intros i w. apply (match_return_dropped _ _ _ _ _ _ _ slot (Some v)); [done..|].
    simpl. rewrite list_insert_insert_eq, list_insert_id by done. by destruct (frame s). }
  assert (set_stack (stack s) (push v s) = s) as E1 by by destruct s.
  set (s' := set_frame _ s) in *.
  assert (set_stack (stack s) (push v s') = s') as E2 by by destruct s.
  destruct ret; try discriminate Hr; cbn [dispatch_instr execute_return];
    unfold return_heap, pop_f64_or_i64, pop_value; cbn [stack push set_stack tl head default];
    change (set_stack (stack s) (set_stack (v :: stack s) s)) with (set_stack (stack s) (push v s));
    change (set_stack (stack s') (set_stack (v :: stack s') s')) with (set_stack (stack s) (push v s'));
    rewrite ?E1, ?E2; repeat case_match; try (split; [done|]; first [apply Hout|constructor]).
Qed.

Lemma take_window s k slot :
  ip s = k -> taken k slot -> state_ok G s ->
  window_diagram code code' env take_states take_match s s.
Proof.
  intros Hip (Hlt & Hp & Hp1 & Hd & Hk' & load & ret & Hl & Hv & Hr & Hret) Hok.
  assert (taken_slot slot) as Hslot by (exists k; unfold taken; eauto 15).
  assert (code' !! S k = Some ret) as Hr'.
  { apply take_kept; [done|]. by destruct ret. }
  assert (peek_mul code (S k) = false /\ peek_dup_mul code (S k) = false) as [Hpm Hpd].
  { unfold peek_mul, peek_dup_mul. rewrite Hr. by destruct ret. }
  destruct s as [ip0 st fr gl]. simpl in Hip. subst ip0.
  set (s := {| ip := k; stack := st; frame := fr; global_frame := gl |}) in *.
  destruct (verbatim_load code load slot (set_ip (S k) s) Hv Hpm Hpd)
    as [(v & Hs & Hx)|[(Hs & Hx)|Hx]].
  - destruct (return_match code code' ret v (set_ip (S (S k)) s) slot Hret Hslot Hs) as [Hc Hm].
    exists 2, 2. split_and!; [lia|lia|]. right.
    rewrite (steps_at code 1 s load Hl), (steps_at code' 1 s _ Hk').
    cbn [ip s] in Hx |- *. rewrite Hx. cbn [dispatch_instr execute_locals].
    unfold exec_take_slot. cbn [frame set_ip s] in Hs |- *. rewrite Hs. cbn [mjoin option_join].
    erewrite (steps_at code 0) by exact Hr. erewrite (steps_at code' 0) by exact Hr'.
    change (set_ip (S (ip (push v (set_ip (S k) s)))) (push v (set_ip (S k) s)))
      with (push v (set_ip (S (S k)) s)).
    match goal with |- context [dispatch_instr code' ret ?x] =>
      change x with (push v (set_frame (set_slots (<[slot := None]>
        (locals_slots (frame (set_ip (S (S k)) s)))) (frame (set_ip (S (S k)) s)))
        (set_ip (S (S k)) s))) end.
    pose proof (action_match_final _ _ _ _ _ Hm) as Hfin. rewrite Hc in Hfin.
    assert (outcome_match env take_states take_match (dispatch_instr code ret (push v (set_ip (S (S k)) s)))
      (dispatch_instr code' ret (push v (set_frame (set_slots (<[slot := None]>
        (locals_slots (frame (set_ip (S (S k)) s)))) (frame (set_ip (S (S k)) s)))
        (set_ip (S (S k)) s))))) as Ho.
    { split; [by left|]. clear -Hret. destruct ret; try discriminate Hret;
        cbn [dispatch_instr execute_return];
        unfold return_heap, pop_f64_or_i64, pop_value; cbn [stack push set_stack];
        repeat case_match; constructor. }
    destruct (dispatch_instr code ret _); try discriminate Hc;
      destruct (dispatch_instr code' ret _); try discriminate Hfin; by split_and!.
  - exists 1, 1. split_and!; [lia|lia|]. right.
    rewrite (steps_at code 0 s load Hl), (steps_at code' 0 s _ Hk').
    cbn [ip s] in Hx |- *. rewrite Hx. cbn [dispatch_instr execute_locals].
    unfold exec_take_slot. rewrite Hs.
    split_and!; [done|done|]. split; [|constructor]. left. by apply match_raise.
  - exists 1, 2. split_and!; [lia|lia|]. right.
    rewrite (steps_at code 0 s load Hl). cbn [ip s] in Hx |- *. rewrite Hx.
    assert (is_continue (steps code' 2 s) = false /\ resume env (steps code' 2 s) = None) as [Hc Hn].
    { rewrite (steps_at code' 1 s _ Hk'). cbn [dispatch_instr execute_locals ip s].
      unfold exec_take_slot. destruct (mjoin _) as [v|]; [|done].
      erewrite (steps_at code' 0) by exact Hr'. clear -Hret.
      destruct ret; try discriminate Hret; cbn [dispatch_instr execute_return];
        unfold return_heap, pop_f64_or_i64, pop_value; cbn [stack push set_stack set_ip];
        repeat case_match; done. }
    split_and!; [done|done|]. split; [by right|]. rewrite Hn. constructor.
Qed.

(** An instruction that the pass keeps. *)
Lemma kept_take s instr :
  state_ok G s -> code !! ip s = Some instr -> code' !! ip s = Some instr ->
  window_diagram code code' env take_states take_match s s.
Proof.
  intros Hok Hi Hi'.
  assert (action_match eq (fun t => t) taken_slot
    (dispatch_instr code instr (set_ip (S (ip s)) s))
    (dispatch_instr code' (map_targets (fun t => t) instr) (set_ip (S (ip s)) s))) as Hm.
  { apply kept_match; [done|done|]. intros _.
    apply (view_intro code code' eq); [|by intros ? ? ? -> _ _|done].
    intros i k x -> Hl. by apply looked_for_take. }
  rewrite map_targets_id in Hm.
  assert (window_diagram code code' env take_states (action_match eq (fun t => t) taken_slot) s s)
    as (n & n' & Hn & Hn' & Hw).
  { apply (match_window G env code code' eq (fun t => t) taken_slot take_states 1 1); try done.
    - rewrite (steps_at code 0 s instr Hi), (steps_at code' 0 s instr Hi').
      by destruct (dispatch_instr code instr _), (dispatch_instr code' instr _).
    - intros s1 s1' Hip -> Hok1. split; [|done]. rewrite <- Hip. by destruct s1. }
  exists n, n'. split_and!; [done|done|].
  destruct Hw as [Hw|(Hc & Hc' & Hm' & HR)]; [by left|right]. split_and!; [done|done|].
  split; [by left|done].
Qed.

Lemma take_diagram s s' : take_states s s' -> window_diagram code code' env take_states take_match s s'.
Proof.
  intros [-> Hok]. destruct (code !! ip s) as [instr|] eqn:Hi.
  - destruct (take_lookup _ _ Hi) as [Hi'|[slot Ht]]; [by eapply kept_take|by eapply take_window].
  - assert (code' !! ip s = None) as Hi'.
    { apply lookup_ge_None. rewrite take_length. by apply lookup_ge_None. }
    exists 1, 1. split_and!; [lia|lia|]. right. unfold steps, step. rewrite Hi, Hi'.
    split_and!; [done|done|]. split; [left; apply match_fault|constructor].
Qed.

(** The pass preserves every activation, in both directions. *)
Lemma take_forward fuel s out :
  state_ok G s -> activation env code fuel s = Some out ->
  exists fuel' out', activation env code' fuel' s = Some out' /\ take_match out out'.
Proof. intros Hok. by apply (sim_forward _ _ _ _ _ take_diagram). Qed.

Lemma take_backward fuel' s out' :
  state_ok G s -> activation env code' fuel' s = Some out' ->
  exists fuel out, activation env code fuel s = Some out /\ take_match out out'.
Proof. intros Hok. by apply (sim_backward _ _ _ _ _ take_diagram). Qed.

(** Destructive loads: the two programs have the same outcomes, but for the
    slots that a rewritten load has emptied before a return. *)
Theorem take_equivalence s :
  state_ok G s ->
  (forall fuel out, activation env code fuel s = Some out ->
     exists fuel' out', activation env code' fuel' s = Some out' /\ take_match out out') /\
  (forall fuel' out', activation env code' fuel' s = Some out' ->
     exists fuel out, activation env code fuel s = Some out /\ take_match out out').
Proof.
  intros Hok. split.
  - intros fuel out. by apply take_forward.
  - intros fuel' out'. by apply take_backward.
Qed.
End Take.
