(* ===== verification/PeepholeTyped.v ===== *)
(** * The passes keep code well formed

    A slot typing of the code that the optimizer is given is one of the code it
    returns, and addresses stay inside the code: the hypotheses of each pass
    hold of what the pass before it returns. *)

From S2P Require Export PeepholeSim PeepholeCse PeepholeDup.

(** ** Fusion *)

Lemma map_targets_typed G f i : instr_typed G (map_targets f i) <-> instr_typed G i.
Proof. by destruct i. Qed.

Section Fusion.
Variable G : slot_typing.
Variable code : list Instr.
Variable protection : option MainStoreProtection.
Hypothesis Htyped : code_typed G code.

Lemma load_run_typed P is_load i :
  (forall instr slot, instr_typed G instr -> is_load instr = Some slot -> P slot) ->
  Forall P (load_run code is_load (length code) i).
Proof.
  intros HP. generalize (length code). intros fuel. revert i.
  induction fuel as [|fuel IH]; intros i; simpl; [constructor|].
  destruct (code !! i) as [instr|] eqn:E; simpl; [|constructor].
  destruct (is_load instr) as [slot|] eqn:El; constructor; [|apply IH].
  apply (HP instr); [by eapply typed_at|done].
Qed.

Lemma slot_arg_call_typed i fused consumed :
  try_fuse_slot_arg_call code i = Some (fused, consumed) -> instr_typed G fused.
Proof.
  pose proof (load_run_typed (fun s => G s = KI64) load_slot_i64_of i) as Hi.
  pose proof (load_run_typed (fun s => G s = KF64) load_slot_f64_of i) as Hf.
  specialize (Hi ltac:(intros [] ? ? ?; simplify_eq/=; done)).
  specialize (Hf ltac:(intros [] ? ? ?; simplify_eq/=; done)).
  intros Hr. unfold try_fuse_slot_arg_call, try_fuse_f64_slot_arg_call in Hr.
  invert_match Hr; injection Hr as <- <-; done.
Qed.

(** The typing facts of the instructions that a rule has looked at. *)
Ltac typing_facts :=
  repeat match goal with
  | E : code !! _ = Some ?x |- _ => apply (typed_at G code Htyped) in E; simpl in E
  end.

Lemma fused_typed i fused consumed :
  try_fuse_at code protection i = Some (fused, consumed) -> instr_typed G fused.
Proof.
  intros Hf. apply try_fuse_at_rule in Hf as (rule & Hin & Hr).
  unfold fusion_rules in Hin. repeat destruct Hin as [<-|Hin]; [..|done].
  { by eapply slot_arg_call_typed. }
  3: { unfold try_fuse_counted_loop_backedge, counted_loop_tail in Hr.
       invert_match Hr; injection Hr as <- <-; typing_facts; naive_solver. }
  all: invert_rule Hr; typing_facts; simpl; try done; try tauto;
    repeat split; try tauto; try (apply wrap_s_in; lia); try congruence.
Qed.
End Fusion.

Section FusedCode.
Variable G : slot_typing.
Variable code : list Instr.
Variable targets : gset nat.
Variable protection : option MainStoreProtection.

Abbreviation fuse_at := (try_fuse_at_guarded code targets protection).
Abbreviation bnd := (boundary code targets protection).
Abbreviation code' := (fuse_pass code targets protection).

(** Every emitted instruction comes from a window. *)
Lemma emitted_from_window k instr :
  code' !! k = Some instr ->
  exists i fused consumed, bnd i k /\ i < length code /\
    window_instr code targets protection i = Some (fused, consumed) /\
    instr = map_targets (new_addr code targets protection) fused.
Proof.
  assert (forall n, (exists i, n <= i /\ bnd i n) \/ length code' < n) as Honto.
  { induction n as [|n [(i & Hle & Hb)|Hlt]]; [left; exists 0; split; [lia|constructor]| |right; lia].
    destruct (decide (i < length code)) as [Hi|Hi].
    - left. destruct (fuse_at i) as [[fused c]|] eqn:Hf.
      + exists (i + c). pose proof (guarded_window _ _ _ _ _ _ Hf). split; [lia|].
        by eapply boundary_fused.
      + exists (S i). split; [lia|]. by apply boundary_kept.
    - right. pose proof (boundary_le _ _ _ _ _ Hb). assert (i = length code) as Hend by lia.
      rewrite Hend in Hb. rewrite (fuse_pass_length _ _ _ _ Hb). lia. }
  intros Hk. pose proof (lookup_lt_Some _ _ _ Hk) as Hlt.
  destruct (Honto k) as [(i & _ & Hb)|Hge]; [|lia].
  assert (i < length code) as Hi.
  { pose proof (boundary_le _ _ _ _ _ Hb). destruct (decide (i = length code)) as [->|]; [|lia].
    rewrite (fuse_pass_length _ _ _ _ Hb) in Hlt. lia. }
  destruct (window_instr code targets protection i) as [[fused c]|] eqn:Hw.
  - exists i, fused, c. split_and!; [done|done|done|].
    rewrite (fuse_pass_lookup _ _ _ i k fused c Hb Hi Hw) in Hk. by injection Hk as <-.
  - unfold window_instr in Hw. destruct (lookup_lt_is_Some_2 code i Hi) as [x Hx].
    rewrite Hx in Hw. by destruct (fuse_at i) as [[]|].
Qed.

Lemma fuse_pass_typed : code_typed G code -> code_typed G code'.
Proof.
  intros Hc. apply Forall_lookup_2. intros k instr Hk.
  apply emitted_from_window in Hk as (i & fused & c & Hb & Hi & Hw & ->).
  apply map_targets_typed. unfold window_instr in Hw.
  destruct (fuse_at i) as [[f' c']|] eqn:Hf.
  - injection Hw as -> ->. apply try_fuse_at_guarded_spec in Hf as [Hf _]. by eapply fused_typed.
  - destruct (code !! i) as [x|] eqn:Hx; [|done]. injection Hw as -> _. by eapply typed_at.
Qed.

Lemma boundary_in_code i k : bnd i k -> k <= length code'.
Proof.
  intros Hb. pose proof (boundary_le _ _ _ _ _ Hb) as Hle.
  destruct (decide (i = length code)) as [->|Hne]; [by rewrite (fuse_pass_length _ _ _ _ Hb)|].
  destruct (window_instr code targets protection i) as [[fused c]|] eqn:Hw.
  - pose proof (fuse_pass_lookup _ _ _ i k fused c Hb ltac:(lia) Hw) as Hk.
    apply lookup_lt_Some in Hk. lia.
  - unfold window_instr in Hw. destruct (lookup_lt_is_Some_2 code i ltac:(lia)) as [x Hx].
    rewrite Hx in Hw. by destruct (fuse_at i) as [[]|].
Qed.

(** The targets of an emitted instruction are boundaries. *)
Lemma emitted_targets k instr t :
  targets_in_range code -> collect_jump_targets code ⊆ targets ->
  code' !! k = Some instr -> t ∈ jump_targets instr -> exists u, bnd u t.
Proof.
  intros Hr Ht Hk Hin. apply emitted_from_window in Hk as (i & fused & c & Hb & Hi & Hw & ->).
  rewrite jump_targets_map_targets in Hin. apply list_elem_of_fmap in Hin as (u & -> & Hu).
  exists u. unfold window_instr in Hw. destruct (fuse_at i) as [[f' c']|] eqn:Hf.
  - injection Hw as -> ->. apply try_fuse_at_guarded_spec in Hf as [Hf _].
    by eapply window_target_boundary.
  - destruct (code !! i) as [x|] eqn:Hx; [|done]. injection Hw as -> _. by eapply jump_boundary.
Qed.

Lemma fuse_pass_targets :
  targets_in_range code -> collect_jump_targets code ⊆ targets -> targets_in_range code'.
Proof.
  intros Hr Ht k instr t Hk Hin. destruct (emitted_targets k instr t Hr Ht Hk Hin) as [u Hb].
  by eapply boundary_in_code.
Qed.
End FusedCode.

(** ** Common subexpressions *)

Section CseCode.
Variable G : slot_typing.
Variable code : list Instr.
Variable barriers : gset nat.
Hypothesis Htyped : code_typed G code.

Abbreviation entries := (collect_jump_targets code ∪ barriers).
Abbreviation code' := (rewrite_straight_line_i64_cse code barriers).1.

(** The slots of the table hold [Int64] values. *)
Definition table_typed (av : gmap I64SlotExpression nat) : Prop :=
  map_Forall (fun _ slot => G slot = KI64) av.

Lemma table_typed_enter i av : table_typed av -> table_typed (enter entries i av).
Proof. intros H. unfold enter. case_bool_decide; [apply map_Forall_empty|done]. Qed.

Lemma table_typed_invalidate av slot :
  table_typed av -> table_typed (invalidate_i64_cse_slot av slot).
Proof.
  intros H e r Hr. apply map_lookup_filter_Some in Hr as [Hr _]. by apply (H e).
Qed.

Lemma table_typed_transfer av instr : table_typed av -> table_typed (cse_transfer av instr).
Proof.
  intros H. unfold cse_transfer. destruct (instruction_written_slot instr);
    [by apply table_typed_invalidate|]. case_match; [apply map_Forall_empty|done].
Qed.

Lemma table_typed_record av e dst :
  G dst = KI64 -> table_typed av -> table_typed (cse_record av e dst).
Proof.
  intros Hd H. unfold cse_record. case_match; [|by apply table_typed_invalidate].
  apply map_Forall_insert_2; [done|by apply table_typed_invalidate].
Qed.

Lemma cse_loop_typed fuel i k av :
  table_typed av -> Forall (instr_typed G) (cse_loop code entries fuel i k av).1.
Proof.
  revert i k av. induction fuel as [|fuel IH]; intros i k av Hav; simpl; [constructor|].
  destruct (code !! i) as [instr|] eqn:Hi; [|constructor]. fold (enter entries i av).
  apply (table_typed_enter i) in Hav.
  destruct (i64_slot_expression_at code entries i) as [[e dst]|] eqn:He.
  - pose proof (expression_at_spec _ _ _ _ _ He) as (H0 & H1 & H2 & _).
    pose proof (typed_at G code Htyped _ _ H0) as G0. pose proof (typed_at G code Htyped _ _ H1) as G1.
    pose proof (typed_at G code Htyped _ _ H2) as G2.
    specialize (IH (i + 3)). destruct (enter entries i av !! e) as [r|] eqn:Er;
      match goal with |- context [cse_loop _ _ fuel (i + 3) ?k' ?av'] =>
        specialize (IH k' av'); destruct (cse_loop _ _ fuel (i + 3) k' av') as [rest rest_e] end;
      simpl in IH |- *.
    + repeat constructor; [|done|by apply IH, table_typed_record]. by apply (Hav e).
    + apply Forall_app. split; [|by apply IH, table_typed_record].
      by apply Forall_take, Forall_drop.
  - specialize (IH (S i) (S k) (cse_transfer (enter entries i av) instr)).
    destruct (cse_loop _ _ fuel (S i) _ _) as [rest rest_e]. simpl in IH |- *.
    constructor; [by eapply typed_at|by apply IH, table_typed_transfer].
Qed.

Lemma cse_typed : code_typed G code'.
Proof.
  unfold rewrite_straight_line_i64_cse.
  pose proof (cse_loop_typed (length code) 0 0 ∅ (map_Forall_empty _)) as H.
  destruct (cse_loop _ _ _ _ _ _) as [out es]. simpl in *.
  apply Forall_fmap. eapply Forall_impl; [exact H|]. intros x Hx. by apply map_targets_typed.
Qed.

Lemma cse_loop_targets fuel i k av :
  Forall (fun instr => forall t, t ∈ jump_targets instr ->
      exists j x, code !! j = Some x /\ t ∈ jump_targets x)
    (cse_loop code entries fuel i k av).1.
Proof.
  revert i k av. induction fuel as [|fuel IH]; intros i k av; simpl; [constructor|].
  destruct (code !! i) as [instr|] eqn:Hi; [|constructor].
  destruct (i64_slot_expression_at code entries i) as [[e dst]|] eqn:He.
  - specialize (IH (i + 3)). destruct (_ !! e) as [r|] eqn:Er;
      match goal with |- context [cse_loop _ _ fuel (i + 3) ?k' ?av'] =>
        specialize (IH k' av'); destruct (cse_loop _ _ fuel (i + 3) k' av') as [rest rest_e] end;
      simpl in IH |- *.
    + constructor; [by intros t ?%elem_of_nil|]. constructor; [by intros t ?%elem_of_nil|done].
    + apply Forall_app. split; [|done]. apply Forall_take, Forall_drop, Forall_lookup_2.
      intros j x Hj t Ht. eauto.
  - match goal with |- context [cse_loop _ _ fuel (S i) ?k' ?av'] =>
      specialize (IH (S i) k' av'); destruct (cse_loop _ _ fuel (S i) k' av') as [rest rest_e] end.
    simpl in IH |- *. constructor; [|done]. intros t Ht. eauto.
Qed.

Lemma cse_boundary_in_code i k : cse_boundary code barriers i k -> k <= length code'.
Proof.
  intros (n & av & Hat).
  destruct (cse_result _ _ _ _ _ _ Hat) as (pre & pre_e & fuel & _ & Hk & _ & Hr).
  destruct (cse_loop _ _ fuel _ _ _) as [rest rest_e]. destruct Hr as [-> _].
  rewrite length_app, !length_fmap. lia.
Qed.

Lemma cse_targets : targets_in_range code -> targets_in_range code'.
Proof.
  intros Hr k instr t Hk Ht.
  assert (exists x, instr = map_targets (cse_addr code barriers) x /\
    forall u, u ∈ jump_targets x -> exists j y, code !! j = Some y /\ u ∈ jump_targets y)
    as (x & -> & Hx).
  { pose proof (cse_loop_targets (length code) 0 0 ∅) as H. revert Hk.
    unfold cse_addr, rewrite_straight_line_i64_cse.
    destruct (cse_loop _ _ (length code) _ _ _) as [out es]. simpl. intros Hk.
    apply list_lookup_fmap_Some in Hk as (x & -> & Hk). exists x. split; [done|].
    by apply (Forall_lookup_1 _ _ _ _ H Hk). }
  rewrite jump_targets_map_targets in Ht. apply list_elem_of_fmap in Ht as (u & -> & Hu).
  destruct (Hx u Hu) as (j & y & Hj & Hy).
  eapply cse_boundary_in_code. by eapply cse_target.
Qed.
End CseCode.

(** ** Duplicate loads *)

Lemma dup_typed G code protected :
  code_typed G code -> code_typed G (rewrite_adjacent_duplicate_loads code protected).
Proof.
  intros Hc. apply Forall_lookup_2. intros i instr Hi.
  destruct (dup_cases code protected i) as [E|(load & dup & j & -> & _ & _ & _ & Hd & Hdup)].
  - rewrite E in Hi. by eapply typed_at.
  - rewrite Hi in Hd. injection Hd as ->. by destruct load; simplify_eq/=.
Qed.
