(* ===== verification/PeepholePipeline.v ===== *)
(** * The optimizer preserves the program

    The passes of [optimize_impl] one after the other: whatever an activation of
    the given code does from an entry point, the optimized code does from the
    address that the returned map gives, and conversely. *)

From S2P Require Export PeepholeTyped.

(** ** What is preserved of an outcome *)

(** Frames that agree but for the slots that may have been dropped. *)
Record frames_agree (dropped : nat -> Prop) (f f' : Frame) : Prop := {
  agree_any : locals_any f = locals_any f';
  agree_names : frame_slot_names f = frame_slot_names f';
  agree_map : frame_slot_map f = frame_slot_map f';
  agree_length : length (locals_slots f) = length (locals_slots f');
  agree_slots slot : ~ dropped slot -> locals_slots f !! slot = locals_slots f' !! slot
}.

(** [preserved f dropped a a'] for outcomes of whole activations.  [f] maps
    addresses.  An error may find fewer operands on the stack, and the
    arguments that a fused call has read above them; an update of an undefined
    variable may fail on its operand first. *)
Inductive preserved (f : nat -> nat) (dropped : nat -> Prop)
    : DispatchAction -> DispatchAction -> Prop :=
  | preserved_raise e s s' pushed :
      same_data s s' -> preserved f dropped (Raise e s pushed) (Raise e s' pushed)
  | preserved_raise_above e s s' pre n :
      stack s = pre ++ stack s' -> frame s = frame s' -> global_frame s = global_frame s' ->
      preserved f dropped (Raise e s []) (Raise e s' (rev (drop n pre)))
  | preserved_raise_fault e e' s n :
      pop_i64_fault (drop n (stack s)) e' -> preserved f dropped (Raise e s []) (Fault e')
  | preserved_fault e : preserved f dropped (Fault e) (Fault e)
  | preserved_call kind g args s s' :
      same_data s s' -> preserved f dropped (CallOut kind g args s) (CallOut kind g args s')
  | preserved_return ret v s s' :
      stack s = stack s' -> global_frame s = global_frame s' ->
      frames_agree dropped (frame s) (frame s') ->
      preserved f dropped (ReturnOut ret v s) (ReturnOut ret v s')
  | preserved_external i s s' :
      same_data s s' -> preserved f dropped (External i s) (External (map_targets f i) s').

Lemma frames_agree_refl dropped fr : frames_agree dropped fr fr.
Proof. by constructor. Qed.

Lemma frames_agree_trans (d1 d2 : nat -> Prop) a b c :
  frames_agree d1 a b -> frames_agree d2 b c -> frames_agree (fun x => d1 x \/ d2 x) a c.
Proof.
  intros [] []. constructor; try congruence.
  intros slot Hn. etrans; [apply agree_slots0|apply agree_slots1]; tauto.
Qed.

Lemma match_preserved B f dropped a a' :
  action_match B f dropped a a' -> is_continue a = false -> preserved f dropped a a'.
Proof.
  intros Hm Hc. destruct Hm as [|e s s' pushed Hd|e s s' pre pushed Hst Hfr Hgl Hp|e e' s Hf| | |
    ret v s s' (Hst & Hfr & Hgl)|ret v s s' slot stored Hslot Hst Hgl Hfr|]; try discriminate Hc.
  - by constructor.
  - destruct Hp as [-> | ->].
    + replace (@nil value) with (rev (drop (length pre) pre)) at 2 by by rewrite drop_all.
      by apply preserved_raise_above.
    + by apply (preserved_raise_above _ _ e s s' pre 0).
  - by apply (preserved_raise_fault _ _ e e' s 0).
  - constructor.
  - by constructor.
  - constructor; [done|done|]. rewrite Hfr. apply frames_agree_refl.
  - constructor; [done|done|]. rewrite Hfr. constructor; try done; simpl.
    + by rewrite length_insert.
    + intros x Hx. apply list_lookup_insert_ne. by intros ->.
  - by constructor.
Qed.

Lemma same_data_trans a b c : same_data a b -> same_data b c -> same_data a c.
Proof. intros (? & ? & ?) (? & ? & ?). split_and!; congruence. Qed.

Lemma preserved_trans f1 f2 (d1 d2 : nat -> Prop) a b c :
  preserved f1 d1 a b -> preserved f2 d2 b c ->
  preserved (fun t => f2 (f1 t)) (fun x => d1 x \/ d2 x) a c.
Proof.
  intros H1 H2.
  destruct H1 as [e s s' pushed Hd|e s s' pre n Hst Hfr Hgl|e e' s n Hf|e|kind g args s s' Hd|
    ret v s s' Hst Hgl Hfr|i s s' Hd].
  - destruct Hd as (E1 & E2 & E3). inversion H2; subst.
    + constructor. eapply same_data_trans; done.
    + apply preserved_raise_above; congruence.
    + apply (preserved_raise_fault _ _ e e' s n). by rewrite E1.
  - inversion H2 as [? ? s2 ? (E1 & E2 & E3)|? ? s2 pre2 n2 E1 E2 E3|? e' ? n2 Hf| | | |]; subst.
    + apply preserved_raise_above; congruence.
    + replace (drop n2 pre2) with (drop (length pre + n2) (pre ++ pre2))
        by (by rewrite drop_app_add).
      apply preserved_raise_above; [|congruence..]. rewrite Hst, E1. by rewrite <- app_assoc.
    + apply (preserved_raise_fault _ _ e e' s (length pre + n2)). by rewrite Hst, drop_app_add.
  - inversion H2; subst. by econstructor.
  - inversion H2; subst. constructor.
  - inversion H2; subst. constructor. by eapply same_data_trans.
  - inversion H2; subst. constructor; [congruence|congruence|]. by eapply frames_agree_trans.
  - inversion H2; subst. rewrite map_targets_compose. constructor. by eapply same_data_trans.
Qed.

Lemma preserved_refl d a : is_continue a = false -> preserved (fun t => t) d a a.
Proof.
  intros Hc. destruct a as [| | | | |i s]; try discriminate Hc; try (by constructor).
  pose proof (preserved_external (fun t => t) d i s s) as Hp. rewrite map_targets_id in Hp.
  by apply Hp.
Qed.

Lemma preserved_internal f dropped a :
  preserved f dropped a (Fault InternalError) -> a = Fault InternalError.
Proof.
  inversion 1 as [| |e e' s n Hf| | | |]; subst; [|done]. exfalso.
  unfold pop_i64_fault in Hf. destruct (drop n (stack s)) as [|v st]; [done|]. by destruct v.
Qed.

Lemma preserved_mono f f' (d d' : nat -> Prop) a a' :
  (forall t, f t = f' t) -> (forall x, d x -> d' x) -> preserved f d a a' -> preserved f' d' a a'.
Proof.
  intros Hf Hd H. destruct H as [| | | | |ret v s s' Hst Hgl []|i s s' Hs];
    [by constructor|by constructor|by econstructor|by constructor|by constructor| |].
  - constructor; [done|done|]. constructor; try done. intros slot Hn. apply agree_slots0. naive_solver.
  - replace (map_targets f i) with (map_targets f' i); [by constructor|].
    destruct i; simpl; rewrite <- ?Hf; try done. f_equal.
    + destruct catch_ip; simpl; by rewrite <- ?Hf.
    + destruct finally_ip; simpl; by rewrite <- ?Hf.
Qed.

Lemma activation_final `{ExternalConversions} env code fuel s out :
  activation env code fuel s = Some out -> is_continue out = false.
Proof.
  revert s. induction fuel as [|fuel IH]; intros s; cbn [activation]; [done|].
  destruct (step code s) as [s1| | | | |] eqn:E; [apply IH|..];
    (destruct (resume env _); [apply IH|by intros [= <-]]).
Qed.

(** ** Entry points *)

(** Where an activation may start or go on: the start of the code, a boundary
    that the caller of the optimizer asked for, behind a return (the next
    function) and the address of an exception handler. *)
Inductive entry_point (code : list Instr) (boundaries : list nat) : nat -> Prop :=
  | entry_start : entry_point code boundaries 0
  | entry_boundary e : e ∈ boundaries -> e <= length code -> entry_point code boundaries e
  | entry_return i ret :
      code !! i = Some ret -> is_return ret = true -> entry_point code boundaries (S i)
  | entry_handler i h e :
      code !! i = Some h -> is_push_handler h = true -> e ∈ jump_targets h ->
      entry_point code boundaries e.

Section Stages.
Variable code : list Instr.
Variable protection : option MainStoreProtection.
Variable boundaries : list nat.

(** The passes of [optimize_impl] by name. *)
Definition all_targets : gset nat := collect_jump_targets code ∪ list_to_set boundaries.
Definition fused_code : list Instr := fuse_pass code all_targets protection.
Definition fused_barriers : gset nat :=
  list_to_set (omap (fun b => fusion_map code all_targets protection !! b) boundaries).
Definition cse_result_code : list Instr :=
  (rewrite_straight_line_i64_cse fused_code fused_barriers).1.
Definition cse_result_map : list nat :=
  (rewrite_straight_line_i64_cse fused_code fused_barriers).2.
Definition cse_barriers : gset nat :=
  list_to_set (omap (fun index => cse_result_map !! index) (elements fused_barriers)).
Definition dup_code : list Instr :=
  rewrite_adjacent_duplicate_loads cse_result_code cse_barriers.
Definition final_map : list nat :=
  (fun mapped => default (length cse_result_code) (cse_result_map !! mapped)) <$>
  fusion_map code all_targets protection.
Definition taken_code : list Instr :=
  match protection with
  | Some p =>
      rewrite_destructive_loads dup_code
        (default (length dup_code) (final_map !! main_entry p)) cse_barriers
  | None => dup_code
  end.

Lemma optimize_impl_stages : optimize_impl code protection boundaries = (taken_code, final_map).
Proof.
  unfold optimize_impl, taken_code, final_map, dup_code, cse_barriers, cse_result_code,
    cse_result_map, fused_barriers, fused_code, all_targets.
  by destruct (rewrite_straight_line_i64_cse _ _) as [c m].
Qed.

Abbreviation bnd := (boundary code all_targets protection).

(** *** Entry points of the fused code *)

Lemma no_window_boundary i x :
  code !! i = Some x -> is_return x || is_push_handler x = true ->
  try_fuse_at_guarded code all_targets protection i = None /\ exists k, bnd i k.
Proof.
  intros Hx Hk.
  assert (forall j f c, try_fuse_at_guarded code all_targets protection j = Some (f, c) ->
    j <= i < j + c -> False) as Hno.
  { intros j f c Hf Hj. apply try_fuse_at_guarded_spec in Hf as [Hf _].
    destruct (window_contents _ _ _ _ _ _ Hf Hj) as (y & Hy & H1 & H2).
    rewrite Hx in Hy. injection Hy as <-. by rewrite H1, H2 in Hk. }
  pose proof (lookup_lt_Some _ _ _ Hx). split.
  - destruct (try_fuse_at_guarded code all_targets protection i) as [[f c]|] eqn:Hf; [|done].
    exfalso. apply (Hno i f c); [done|]. apply guarded_window in Hf. lia.
  - destruct (boundary_cover code all_targets protection i) as [|(j & k & f & c & _ & Hf & Hj)];
      [lia|done|]. exfalso. apply (Hno j f c); [done|lia].
Qed.

(** The instruction is kept, with its addresses moved. *)
Lemma no_window_kept i x k :
  code !! i = Some x -> is_return x || is_push_handler x = true -> bnd i k ->
  fused_code !! k = Some (map_targets (new_addr code all_targets protection) x) /\ bnd (S i) (S k).
Proof.
  intros Hx Hk Hb. destruct (no_window_boundary i x Hx Hk) as [Hf _].
  pose proof (lookup_lt_Some _ _ _ Hx). split; [|by apply boundary_kept].
  apply (fuse_pass_lookup _ _ _ i k x 1 Hb); [done|]. unfold window_instr. by rewrite Hf, Hx.
Qed.

Hypothesis Hrange : targets_in_range code.

Lemma cse_reached_kept k x :
  fused_code !! k = Some x -> (forall s, x <> LoadSlotI64 s) ->
  instruction_is_cse_barrier x = true ->
  exists n k2 av, cse_at fused_code (collect_jump_targets fused_code ∪ fused_barriers) n k k2 av /\
    i64_slot_expression_at fused_code (collect_jump_targets fused_code ∪ fused_barriers) k = None.
Proof.
  intros Hx Hl Hb.
  destruct (cse_cover fused_code (collect_jump_targets fused_code ∪ fused_barriers) k)
    as [(n & k2 & av & Hat)|(n & i & k2 & av & e & dst & Hat & He & Hlt)].
  - apply lookup_lt_Some in Hx. lia.
  - exists n, k2, av. split; [done|].
    destruct (i64_slot_expression_at _ _ k) as [[e dst]|] eqn:He; [|done].
    apply expression_at_spec in He as (H0 & _). rewrite Hx in H0. injection H0 as ->.
    by destruct (Hl (lhs e)).
  - exfalso. apply expression_at_spec in He as (_ & H1 & H2 & _).
    assert (k = S i \/ k = S (S i)) as [-> | ->] by lia.
    + rewrite Hx in H1. injection H1 as ->. unfold expr_instr in Hb. by destruct (op e).
    + rewrite Hx in H2. by injection H2 as ->.
Qed.

(** Every entry point has an address in each stage, and the address is an entry
    point of the stage. *)
Lemma entry_stages e :
  entry_point code boundaries e -> dup_safe cse_result_code cse_barriers ->
  exists k k2, bnd e k /\ cse_entry fused_code fused_barriers k k2 /\
    dup_entry cse_result_code cse_barriers k2.
Proof.
  intros He Hsafe. set (entries := collect_jump_targets fused_code ∪ fused_barriers).
  assert (forall k, k ∈ entries -> k <= length fused_code ->
    exists k2 n av, cse_at fused_code entries n k k2 av /\ enter entries k av = ∅) as Hentry.
  { intros k Hk Hle. destruct (entry_reached fused_code entries k Hk Hle) as (n & k2 & av & Hat).
    exists k2, n, av. split; [done|]. unfold enter. by rewrite bool_decide_true. }
  destruct He as [|e Hin Hle|i ret Hi Hret|i h e Hi Hh Hin].
  - exists 0, 0. split_and!; [constructor| |by intros (? & ? & ? & [=] & _)].
    exists 0, ∅. split; [constructor|]. unfold enter. by case_bool_decide.
  - assert (e ∈ all_targets) as Ht by (apply elem_of_union_r; by apply elem_of_list_to_set).
    destruct (target_boundary code all_targets protection e Ht Hle) as [k Hb].
    assert (k ∈ fused_barriers) as Hk.
    { apply elem_of_list_to_set, list_elem_of_omap. exists e. split; [done|].
      by apply fusion_map_boundary. }
    destruct (Hentry k) as (k2 & n & av & Hat & Hav);
      [by apply elem_of_union_r|by eapply boundary_in_code|].
    exists k, k2. split_and!; [done|by exists n, av|].
    intros Hr. apply (rewritten_unprotected _ _ _ Hr).
    apply elem_of_list_to_set, list_elem_of_omap. exists k. rewrite elem_of_elements.
    split; [done|]. by apply (cse_mapping_at _ _ n k k2 av).
  - destruct (no_window_boundary i ret Hi) as [_ [k Hb]]; [by rewrite Hret|].
    destruct (no_window_kept i ret k Hi) as [Hk Hb1]; [by rewrite Hret|done|].
    replace (map_targets _ ret) with ret in Hk by by destruct ret.
    destruct (cse_reached_kept k ret Hk) as (n & k2 & av & Hat & He); [by destruct ret..|].
    exists (S k), (S k2). split_and!; [done| |].
    + eexists (S n), _. split; [by eapply cse_other|].
      rewrite barrier_transfer by by destruct ret. unfold enter. by case_bool_decide.
    + intros (load & dup & j & [= <-] & Hl & _ & _ & _ & Hdup).
      pose proof (emitted_kept _ _ _ _ _ _ _ Hat Hk He) as E.
      unfold cse_result_code in Hl. rewrite E in Hl. injection Hl as <-. by destruct ret.
  - destruct (no_window_boundary i h Hi) as [_ [k Hb]]; [by rewrite Hh, orb_true_r|].
    destruct (no_window_kept i h k Hi) as [Hk _]; [by rewrite Hh, orb_true_r|done|].
    assert (bnd e (new_addr code all_targets protection e)) as Hbe.
    { eapply jump_boundary; [done| |done|done]. apply union_subseteq_l. }
    assert (new_addr code all_targets protection e ∈
      jump_targets (map_targets (new_addr code all_targets protection) h)) as Hin'.
    { rewrite jump_targets_map_targets. by apply list_elem_of_fmap_2. }
    destruct (Hentry (new_addr code all_targets protection e)) as (k2 & n & av & Hat & Hav).
    { apply elem_of_union_l. by eapply elem_of_collect_jump_targets. }
    { by eapply boundary_in_code. }
    exists (new_addr code all_targets protection e), k2. split_and!; [done|by exists n, av|].
    intros Hr. apply (Hsafe _ Hr).
    destruct (cse_reached_kept k _ Hk) as (n1 & k1 & av1 & Hat1 & He1); [by destruct h..|].
    pose proof (emitted_kept _ _ _ _ _ _ _ Hat1 Hk He1) as E.
    eapply elem_of_collect_jump_targets; [exact E|].
    rewrite jump_targets_map_targets. apply list_elem_of_fmap. eexists. split; [|exact Hin'].
    symmetry. apply cse_addr_boundary. by exists n, av.
Qed.

(** ** The theorem *)

Context `{ExternalConversions}.
Variable G : slot_typing.
Hypothesis Htyped : code_typed G code.
Hypothesis Hhazard : hazard_free code.
Hypothesis Hsafe : dup_safe cse_result_code cse_barriers.
Variable env : Environment.
Hypothesis Henv : environment_ok G env.

(** Slots that may differ when the activation returns. *)
Definition may_be_dropped (slot : nat) : Prop :=
  dropped_slot code protection slot \/
  match protection with
  | Some p => taken_slot dup_code (default (length dup_code) (final_map !! main_entry p))
      cse_barriers slot
  | None => False
  end.

(** The address map of the whole optimizer. *)
Definition optimized_addr (t : nat) : nat :=
  cse_addr fused_code fused_barriers (new_addr code all_targets protection t).

Definition optimized (out out' : DispatchAction) : Prop :=
  preserved optimized_addr may_be_dropped out out' \/ out = Fault InternalError.

Lemma fused_code_typed : code_typed G fused_code.
Proof. by apply fuse_pass_typed. Qed.

Lemma fused_code_range : targets_in_range fused_code.
Proof. apply fuse_pass_targets; [done|]. apply union_subseteq_l. Qed.

Lemma cse_code_typed : code_typed G cse_result_code.
Proof. apply cse_typed, fused_code_typed. Qed.

Lemma dup_code_typed : code_typed G dup_code.
Proof. apply dup_typed, cse_code_typed. Qed.

(** Addresses of the optimized code. *)
Lemma final_map_entry e k k2 :
  bnd e k -> cse_boundary fused_code fused_barriers k k2 -> final_map !! e = Some k2.
Proof.
  intros Hb (n & av & Hat). unfold final_map.
  rewrite list_lookup_fmap, (fusion_map_boundary _ _ _ _ _ Hb). simpl.
  unfold cse_result_map. by rewrite (cse_mapping_at _ _ _ _ _ _ Hat).
Qed.

(** The matches of the passes compose. *)
Lemma stages_compose B1 B2 B3 out1 out2 out3 out4 d4 :
  is_continue out1 = false ->
  action_match B1 (new_addr code all_targets protection) (dropped_slot code protection) out1 out2 ->
  action_match B2 (cse_addr fused_code fused_barriers) (fun _ => False) out2 out3 ->
  action_match B3 (fun t => t) (fun _ => False) out3 out4 ->
  forall out5, preserved (fun t => t) d4 out4 out5 \/ out4 = Fault InternalError ->
  preserved optimized_addr (fun x => dropped_slot code protection x \/ d4 x) out1 out5 \/
  out1 = Fault InternalError.
Proof.
  intros Hc M1 M2 M3 out5 M4.
  pose proof (action_match_final _ _ _ _ _ M1) as F1. pose proof (action_match_final _ _ _ _ _ M2) as F2.
  rewrite Hc in F1. rewrite <- F1 in F2. symmetry in F1, F2.
  apply match_preserved in M1; [|done]. apply match_preserved in M2; [|done].
  apply match_preserved in M3; [|done].
  pose proof (preserved_trans _ _ _ _ _ _ _ (preserved_trans _ _ _ _ _ _ _ M1 M2) M3) as M.
  destruct M4 as [M4| ->]; [left|right; by eapply preserved_internal].
  eapply preserved_mono; [| |exact (preserved_trans _ _ _ _ _ _ _ M M4)]; [done|].
  intros x Hx. cbv beta in Hx; tauto.
Qed.

Lemma taken_forward fuel s out :
  state_ok G s -> activation env dup_code fuel s = Some out ->
  exists fuel' out', activation env taken_code fuel' s = Some out' /\
    (preserved (fun t => t) (fun x =>
       match protection with
       | Some p => taken_slot dup_code (default (length dup_code) (final_map !! main_entry p))
           cse_barriers x
       | None => False
       end) out out' \/ out = Fault InternalError).
Proof.
  intros Hok Hr. pose proof (activation_final _ _ _ _ _ Hr) as Hc.
  unfold taken_code. destruct protection as [p|].
  - eapply (take_forward _ _ _ G dup_code_typed env Henv) in Hr as (fuel' & out' & Hr & [Hm|Hm]);
      [| |done]; exists fuel', out'; (split; [exact Hr|]); [left|by right].
    by eapply match_preserved.
  - exists fuel, out. split; [done|]. left. by apply preserved_refl.
Qed.

Lemma taken_backward fuel' s out' :
  state_ok G s -> activation env taken_code fuel' s = Some out' ->
  exists fuel out, activation env dup_code fuel s = Some out /\
    (preserved (fun t => t) (fun x =>
       match protection with
       | Some p => taken_slot dup_code (default (length dup_code) (final_map !! main_entry p))
           cse_barriers x
       | None => False
       end) out out' \/ out = Fault InternalError).
Proof.
  intros Hok Hr. pose proof (activation_final _ _ _ _ _ Hr) as Hc.
  unfold taken_code in Hr. destruct protection as [p|].
  - eapply (take_backward _ _ _ G dup_code_typed env Henv) in Hr as (fuel & out & Hr & [Hm|Hm]);
      [| |done]; exists fuel, out; (split; [exact Hr|]); [left|by right].
    eapply match_preserved; [exact Hm|]. by apply activation_final in Hr.
  - exists fuel', out'. split; [done|]. left. by apply preserved_refl.
Qed.


End Stages.
