(* ===== verification/PeepholeMapping.v ===== *)
(** * The code and the map that the optimizer returns

    Sizes, bounds and monotonicity of the result of [optimize_impl], for any
    code, hazards included. *)

From Stdlib Require Import Sorted.
From S2P Require Export PeepholePipeline.

(** ** The fusion map *)

Section FusionMap.
Variable code : list Instr.
Variable targets : gset nat.
Variable protection : option MainStoreProtection.

Abbreviation fuse_at := (try_fuse_at_guarded code targets protection).
Abbreviation bnd := (boundary code targets protection).

Lemma boundary_shrinks i k : bnd i k -> k <= i.
Proof.
  induction 1 as [|i k f c Hb IH Hi Hf|]; [lia| |lia]. apply guarded_window in Hf. lia.
Qed.

Lemma fuse_pass_shorter : length (fuse_pass code targets protection) <= length code.
Proof.
  destruct (end_boundary code targets protection) as [k Hb].
  rewrite (fuse_pass_length _ _ _ _ Hb). by apply boundary_shrinks.
Qed.

(** The map does not decrease, and stays below the number of instructions. *)
Lemma build_map_sorted fuel i k v :
  length code - i <= fuel -> i <= length code -> length v = length code + 1 ->
  k <= (build_map code targets protection fuel i k v).2 /\
  (forall t, i <= t < length code ->
     exists x, (build_map code targets protection fuel i k v).1 !! t = Some x /\
       k <= x < (build_map code targets protection fuel i k v).2) /\
  (forall t t' x x', i <= t -> t <= t' < length code ->
     (build_map code targets protection fuel i k v).1 !! t = Some x ->
     (build_map code targets protection fuel i k v).1 !! t' = Some x' -> x <= x').
Proof.
  revert i k v. induction fuel as [|fuel IH]; intros i k v Hf Hi Hv.
  { simpl. split_and!; [lia|intros; lia|intros; lia]. }
  simpl. destruct (decide (i < length code)) as [Hlt|Hge].
  2: { rewrite bool_decide_false by done. simpl. split_and!; [lia|intros; lia|intros; lia]. }
  rewrite bool_decide_true by done.
  assert (exists c v', 1 <= c /\ i + c <= length code /\ length v' = length code + 1 /\
    (forall t, i <= t < i + c -> v' !! t = Some k) /\
    match fuse_at i with
    | Some (_, consumed) =>
        build_map code targets protection fuel (i + consumed) (S k)
          (mark_range (<[i := k]> v) i consumed k)
    | None => build_map code targets protection fuel (S i) (S k) (<[i := k]> (<[i := k]> v))
    end = build_map code targets protection fuel (i + c) (S k) v') as (c & v' & Hc & Hic & Hv' & Hk & ->).
  { destruct (fuse_at i) as [[f c]|] eqn:E.
    - pose proof (guarded_window _ _ _ _ _ _ E). exists c, (mark_range (<[i := k]> v) i c k).
      split_and!; [lia|lia|by rewrite mark_range_length, length_insert| |done].
      intros t Ht. apply mark_range_lookup; [lia|]. rewrite length_insert. lia.
    - exists 1, (<[i := k]> (<[i := k]> v)).
      split_and!; [lia|lia|by rewrite !length_insert| |by rewrite Nat.add_1_r].
      intros t Ht. replace t with i by lia. apply list_lookup_insert_eq. rewrite length_insert. lia. }
  destruct (IH (i + c) (S k) v') as (Hn & Hb & Hs); [lia|lia|done|].
  assert (forall t, i <= t < i + c ->
    (build_map code targets protection fuel (i + c) (S k) v').1 !! t = Some k) as Hwin.
  { intros t Ht. rewrite build_map_lookup_lt by lia. by apply Hk. }
  split_and!; [lia| |].
  - intros t Ht. destruct (decide (t < i + c)) as [Htc|Htc].
    + exists k. split; [apply Hwin; lia|lia].
    + destruct (Hb t) as (x & Hx & Hxn); [lia|]. exists x. split; [done|lia].
  - intros t t' x x' Ht Ht' Hx Hx'. destruct (decide (t' < i + c)) as [Htc'|Htc'].
    + rewrite Hwin in Hx, Hx' by lia. simplify_eq. lia.
    + destruct (decide (t < i + c)) as [Htc|Htc].
      * rewrite Hwin in Hx by lia. simplify_eq.
        destruct (Hb t') as (y & Hy & Hyn); [lia|]. rewrite Hx' in Hy. simplify_eq. lia.
      * by apply (Hs t t'); [lia|lia| |].
Qed.

Lemma fusion_map_sorted t t' x x' :
  t <= t' -> fusion_map code targets protection !! t = Some x ->
  fusion_map code targets protection !! t' = Some x' -> x <= x'.
Proof.
  intros Ht Hx Hx'.
  pose proof (lookup_lt_Some _ _ _ Hx') as Hl. rewrite fusion_map_length in Hl.
  destruct (build_map_sorted (length code) 0 0 (replicate (length code + 1) 0)) as (Hn & Hb & Hs);
    [lia|lia|by rewrite length_replicate|].
  pose proof (build_map_length code targets protection (length code) 0 0
    (replicate (length code + 1) 0)) as Hlen. rewrite length_replicate in Hlen.
  unfold fusion_map in Hx, Hx'.
  destruct (build_map _ _ _ _ _ _ _) as [m n]. cbn [fst snd] in *.
  destruct (decide (t' = length code)) as [->|Hne'].
  - rewrite list_lookup_insert_eq in Hx' by lia. injection Hx' as <-.
    destruct (decide (t = length code)) as [->|Hne].
    + rewrite list_lookup_insert_eq in Hx by lia. injection Hx as <-. lia.
    + rewrite list_lookup_insert_ne in Hx by done. destruct (Hb t) as (y & Hy & Hyn); [lia|].
      simplify_eq. lia.
  - rewrite list_lookup_insert_ne in Hx by lia. rewrite list_lookup_insert_ne in Hx' by lia.
    by apply (Hs t t'); [lia|lia| |].
Qed.
End FusionMap.

(** ** The map of the common subexpression pass *)

Section CseMap.
Variable code : list Instr.
Variable barriers : gset nat.

Abbreviation entries := (collect_jump_targets code ∪ barriers).
Abbreviation cse_mapping := (rewrite_straight_line_i64_cse code barriers).2.

Lemma cse_loop_sorted fuel i k av :
  let '(out, es) := cse_loop code entries fuel i k av in
  StronglySorted le es /\ Forall (fun x => k <= x < k + length out) es.
Proof.
  revert i k av. induction fuel as [|fuel IH]; intros i k av; simpl; [by repeat constructor|].
  destruct (code !! i) as [instr|] eqn:Hi; [|by repeat constructor].
  assert (forall (l m : list nat) n d, StronglySorted le m -> Forall (fun x => k + d <= x < k + d + n) m ->
    StronglySorted le l -> Forall (fun x => k <= x < k + d) l ->
    StronglySorted le (l ++ m) /\ Forall (fun x => k <= x < k + (d + n)) (l ++ m)) as Happ.
  { intros l m n d Hm Hmb Hl Hlb. split.
    - induction Hl as [|x l Hl IHl Hx]; simpl; [done|]. inversion_clear Hlb as [|? ? Hxb Hlb'].
      constructor; [by apply IHl|]. apply Forall_app. split; [done|].
      eapply Forall_impl; [exact Hmb|]. simpl. lia.
    - apply Forall_app. split; (eapply Forall_impl; [eassumption|]); simpl; lia. }
  destruct (i64_slot_expression_at code entries i) as [[e dst]|] eqn:He.
  - pose proof (expression_at_spec _ _ _ _ _ He) as (H0 & H1 & H2 & _). lookup_bounds.
    destruct (_ !! e) as [r|]; (match goal with |- context [cse_loop _ _ fuel (i + 3) ?k' ?av'] =>
      specialize (IH (i + 3) k' av'); destruct (cse_loop _ _ fuel (i + 3) k' av') as [out es] end);
      destruct IH as [IH1 IH2].
    + apply (Happ [k; k; k + 1] es (length out) 2); [done|done| |];
        repeat constructor; simpl; lia.
    + rewrite length_app, length_take, length_drop.
      replace (3 `min` (length code - i)) with 3 by lia.
      apply (Happ [k; k + 1; k + 2] es (length out) 3); [done|done| |];
        repeat constructor; simpl; lia.
  - match goal with |- context [cse_loop _ _ fuel (S i) ?k' ?av'] =>
      specialize (IH (S i) k' av'); destruct (cse_loop _ _ fuel (S i) k' av') as [out es] end.
    destruct IH as [IH1 IH2]. apply (Happ [k] es (length out) 1); [done| | |].
    + by rewrite Nat.add_1_r.
    + repeat constructor.
    + repeat constructor; lia.
Qed.

Lemma cse_mapping_sorted :
  StronglySorted le cse_mapping /\
  Forall (fun x => x <= length (rewrite_straight_line_i64_cse code barriers).1) cse_mapping.
Proof.
  unfold rewrite_straight_line_i64_cse.
  pose proof (cse_loop_sorted (length code) 0 0 ∅) as H.
  destruct (cse_loop _ _ _ _ _ _) as [out es]. destruct H as [Hs Hb]. simpl. rewrite length_fmap.
  split.
  - induction Hs as [|x l Hl IHl Hx]; simpl; [by repeat constructor|]. inversion_clear Hb.
    constructor; [by apply IHl|]. apply Forall_app. split; [done|]. repeat constructor. lia.
  - apply Forall_app. split; [|by repeat constructor]. eapply Forall_impl; [exact Hb|]. simpl. lia.
Qed.

Lemma cse_shrinks n i k av : cse_at code entries n i k av -> k <= i.
Proof.
  induction 1 as [|n i k av e dst H IH He|n i k av instr H IH Hi He]; [lia| |lia].
  unfold cse_width. destruct (_ !! e); lia.
Qed.

Lemma cse_shorter : length (rewrite_straight_line_i64_cse code barriers).1 <= length code.
Proof.
  destruct (cse_cover code entries (length code)) as [(n & k & av & Hat)|(n & i & k & av & e & dst & _ & He & Hlt)];
    [lia| |].
  - rewrite (cse_length _ _ _ _ _ Hat). by eapply cse_shrinks.
  - exfalso. apply expression_at_spec in He as (_ & _ & H2 & _). apply lookup_lt_Some in H2. lia.
Qed.
End CseMap.

(** ** The result of the optimizer *)

Section Result.
Variable code : list Instr.
Variable protection : option MainStoreProtection.
Variable boundaries : list nat.

Abbreviation targets := (all_targets code boundaries).
Abbreviation result := (optimize_impl code protection boundaries).

Lemma sorted_lookup l i j x y :
  StronglySorted le l -> i <= j -> l !! i = Some x -> l !! j = Some y -> x <= y.
Proof.
  intros Hs. revert i j. induction Hs as [|z l Hs IH Hz]; intros i j Hij Hx Hy; [done|].
  destruct i as [|i], j as [|j]; simpl in *; try lia.
  - by simplify_eq.
  - injection Hx as ->. by apply (Forall_lookup_1 _ _ _ _ Hz Hy).
  - by apply (IH i j); [lia| |].
Qed.

Lemma taken_code_length : length (taken_code code protection boundaries) = length (dup_code code protection boundaries).
Proof. unfold taken_code. destruct protection; [apply take_length|done]. Qed.

Lemma result_shorter : length result.1 <= length code.
Proof.
  rewrite optimize_impl_stages. cbn [fst]. rewrite taken_code_length.
  unfold dup_code. rewrite dup_length. unfold cse_result_code.
  etrans; [apply cse_shorter|]. apply fuse_pass_shorter.
Qed.

(** C26. The code does not grow; the map covers the code and its end, does not
    decrease and stays inside the new code. *)
Lemma optimize_impl_map :
  length result.1 <= length code /\ length result.2 = length code + 1 /\
  forall i j, i <= j <= length code ->
    exists x y, result.2 !! i = Some x /\ result.2 !! j = Some y /\ x <= y <= length result.1.
Proof.
  split; [apply result_shorter|].
  rewrite optimize_impl_stages. cbn [fst snd]. rewrite taken_code_length. unfold dup_code.
  rewrite dup_length. unfold final_map. split; [by rewrite length_fmap, fusion_map_length|].
  intros i j Hij.
  assert (forall t, t <= length code -> exists x, fusion_map code targets protection !! t = Some x)
    as Hf.
  { intros t Ht. apply lookup_lt_is_Some_2. rewrite fusion_map_length. lia. }
  destruct (Hf i) as [x Hx]; [lia|]. destruct (Hf j) as [y Hy]; [lia|].
  pose proof (fusion_map_sorted _ _ _ i j x y ltac:(lia) Hx Hy) as Hxy.
  destruct (cse_mapping_sorted (fused_code code protection boundaries)
    (fused_barriers code protection boundaries)) as [Hs Hb].
  fold (cse_result_map code protection boundaries) in Hs, Hb.
  fold (cse_result_code code protection boundaries) in Hb.
  rewrite !list_lookup_fmap, Hx, Hy. simpl. eexists _, _. split_and!; [done|done| |].
  - destruct (cse_result_map code protection boundaries !! x) as [x'|] eqn:Ex;
      destruct (cse_result_map code protection boundaries !! y) as [y'|] eqn:Ey; simpl.
    + by eapply sorted_lookup.
    + by apply (Forall_lookup_1 _ _ _ _ Hb Ex).
    + exfalso. apply lookup_ge_None in Ex. apply lookup_lt_Some in Ey. lia.
    + done.
  - destruct (cse_result_map code protection boundaries !! y) as [y'|] eqn:Ey; simpl; [|done].
    by apply (Forall_lookup_1 _ _ _ _ Hb Ey).
Qed.
End Result.

(** ** Well-formed results *)

Lemma dup_targets code protected :
  targets_in_range code -> targets_in_range (rewrite_adjacent_duplicate_loads code protected).
Proof.
  intros Hr i instr t Hi Ht. rewrite dup_length.
  destruct (dup_cases code protected i) as [E|(load & dup & j & -> & _ & _ & _ & Hd & Hdup)].
  - rewrite E in Hi. by eapply Hr.
  - rewrite Hi in Hd. injection Hd as ->. exfalso.
    destruct load; simplify_eq/=; by apply elem_of_nil in Ht.
Qed.

Lemma take_elem code m protected k instr :
  rewrite_destructive_loads code m protected !! k = Some instr ->
  code !! k = Some instr \/ exists slot, instr = TakeSlot slot.
Proof.
  intros Hk. destruct (lookup_lt_is_Some_2 code k) as [x Hx].
  { rewrite <- (take_length code m protected). by eapply lookup_lt_Some. }
  destruct (take_lookup code m protected k x Hx) as [E|(slot & H)].
  - left. congruence.
  - right. exists slot. destruct H as (_ & _ & _ & _ & E & _). congruence.
Qed.

Section WellFormed.
Variable G : slot_typing.
Variable code : list Instr.
Variable protection : option MainStoreProtection.
Variable boundaries : list nat.

Lemma taken_elem k instr :
  taken_code code protection boundaries !! k = Some instr ->
  dup_code code protection boundaries !! k = Some instr \/ exists slot, instr = TakeSlot slot.
Proof. unfold taken_code. destruct protection; [apply take_elem|by left]. Qed.

(** C25. The optimizer keeps code well typed for the same slot typing. *)
Lemma optimize_impl_typed :
  code_typed G code -> code_typed G (optimize_impl code protection boundaries).1.
Proof.
  intros Hc. rewrite optimize_impl_stages. apply Forall_lookup_2. intros k instr Hk.
  apply taken_elem in Hk as [Hk|[slot ->]]; [|done].
  eapply typed_at; [by apply dup_code_typed|exact Hk].
Qed.

(** The optimizer keeps every jump target inside the code. *)
Lemma optimize_impl_targets :
  targets_in_range code -> targets_in_range (optimize_impl code protection boundaries).1.
Proof.
  intros Hr k instr t. rewrite optimize_impl_stages. cbn [fst].
  rewrite taken_code_length. intros Hk Ht.
  apply taken_elem in Hk as [Hk|[slot ->]]; [|by apply elem_of_nil in Ht].
  eapply (dup_targets (cse_result_code code protection boundaries)); [|exact Hk|exact Ht].
  apply cse_targets. by apply fused_code_range.
Qed.
End WellFormed.
