(* ===== verification/Worklist.v ===== *)
(** * Worklist searches

    The loop [while let Some(id) = stack.pop()] of cfg.rs and
    slot_backing_verifier.rs over a [seen] set: it ends, and what it has seen is
    what can be reached. *)

From stdpp Require Export gmap fin_sets relations.
From S2P Require Export Prelude.

Section Worklist.
Variable next : nat -> list nat.

(** [if seen.insert(x) { stack.push(x) }] *)
Definition visit (state : gset nat * list nat) (x : nat) : gset nat * list nat :=
  let '(seen, stack) := state in
  if bool_decide (x ∈ seen) then (seen, stack) else ({[x]} ∪ seen, x :: stack).

(** The loop; the top of the stack is its head. [None] when the fuel runs out. *)
Fixpoint explore (fuel : nat) (seen : gset nat) (stack : list nat) : option (gset nat) :=
  match stack with
  | [] => Some seen
  | id :: rest =>
      match fuel with
      | 0 => None
      | S fuel =>
          let '(seen, stack) := foldl visit (seen, rest) (next id) in
          explore fuel seen stack
      end
  end.

(** ** One turn *)

Lemma visit_all_spec xs seen stack :
  let '(seen', stack') := foldl visit (seen, stack) xs in
  (forall y, y ∈ seen' <-> y ∈ seen \/ y ∈ xs) /\
  exists new, stack' = new ++ stack /\ NoDup new /\ (forall y, y ∈ new -> y ∈ xs /\ y ∉ seen) /\
    (forall y, y ∈ xs -> y ∈ seen \/ y ∈ new).
Proof.
  revert seen stack. induction xs as [|x xs IH]; intros seen stack; cbn [foldl].
  { split; [set_solver|]. exists []. split_and!; [done|constructor|set_solver|set_solver]. }
  unfold visit at 2. case_bool_decide as Hx.
  - specialize (IH seen stack). destruct (foldl visit (seen, stack) xs) as [seen' stack'].
    destruct IH as (Hs & new & -> & Hnd & Hnew & Hall). split; [set_solver|].
    exists new. split_and!; [done|done|set_solver|set_solver].
  - specialize (IH ({[x]} ∪ seen) (x :: stack)).
    destruct (foldl visit ({[x]} ∪ seen, x :: stack) xs) as [seen' stack'].
    destruct IH as (Hs & new & -> & Hnd & Hnew & Hall). split; [set_solver|].
    exists (new ++ [x]). split_and!.
    + by rewrite <- app_assoc.
    + apply NoDup_app. split_and!; [done|set_solver|apply NoDup_singleton].
    + set_solver.
    + set_solver.
Qed.

(** ** Termination *)

(** Every turn pops one element, and only elements of [U] not yet seen are
    pushed. *)
Lemma explore_total (U : gset nat) fuel seen stack :
  (forall x y, y ∈ next x -> y ∈ U) -> length stack + size (U ∖ seen) <= fuel ->
  is_Some (explore fuel seen stack).
Proof.
  intros HU. revert seen stack. induction fuel as [|fuel IH]; intros seen stack Hf;
    destruct stack as [|id rest]; simpl in Hf |- *; try (by eexists); [lia|].
  pose proof (visit_all_spec (next id) seen rest) as Hv.
  destruct (foldl visit (seen, rest) (next id)) as [seen' stack'].
  destruct Hv as (Hs & new & -> & Hnd & Hnew & Hall). apply IH. rewrite length_app.
  assert (size (U ∖ seen') + length new <= size (U ∖ seen)); [|lia].
  rewrite <- (size_list_to_set (C := gset nat) new Hnd), <- size_union by set_solver.
  apply subseteq_size. intros y Hy. apply elem_of_union in Hy as [Hy|Hy]; [set_solver|].
  apply elem_of_list_to_set in Hy. destruct (Hnew y Hy) as [Hin Hns]. set_solver.
Qed.

(** ** What is found *)

(** One edge, from an element that the search expands. *)
Definition edge (blocked : gset nat) (u v : nat) : Prop := u ∉ blocked /\ v ∈ next u.

Section Found.
Variable seen0 : gset nat.
Variable stack0 : list nat.
Hypothesis Hstack : forall x, x ∈ stack0 -> x ∈ seen0.

(** Seen from the start, but not to be expanded. *)
Abbreviation blocked := (seen0 ∖ list_to_set stack0).
Abbreviation found y := (exists x, x ∈ stack0 /\ rtc (edge blocked) x y).

Record search_state (seen : gset nat) (stack : list nat) : Prop := {
  search_start : seen0 ⊆ seen;
  search_stack y : y ∈ stack -> y ∈ seen /\ y ∉ blocked /\ found y;
  search_seen y : y ∈ seen -> y ∈ seen0 \/ found y;
  search_closed u v : u ∈ seen -> u ∉ blocked -> u ∈ stack \/ (v ∈ next u -> v ∈ seen)
}.

Lemma search_turn seen id rest :
  search_state seen (id :: rest) ->
  let '(seen', stack') := foldl visit (seen, rest) (next id) in search_state seen' stack'.
Proof.
  intros [Hst Hsk Hse Hcl]. pose proof (visit_all_spec (next id) seen rest) as Hv.
  destruct (foldl visit (seen, rest) (next id)) as [seen' stack'].
  destruct Hv as (Hs & new & -> & Hnd & Hnew & Hall).
  destruct (Hsk id ltac:(left)) as (Hid & Hnb & (x & Hx & Hpath)).
  assert (forall y, y ∈ next id -> found y) as Hnext.
  { intros y Hy. exists x. split; [done|]. eapply rtc_r; [exact Hpath|]. by split. }
  constructor.
  - intros y Hy. apply Hs. left. by apply Hst.
  - intros y [Hy|Hy]%elem_of_app.
    + destruct (Hnew y Hy) as [Hin Hns]. split; [apply Hs; by right|]. split; [|by apply Hnext].
      intros Hb. apply Hns, Hst. set_solver.
    + destruct (Hsk y ltac:(by right)) as (Hy1 & Hy2 & Hy3). split; [apply Hs; by left|done].
  - intros y Hy. apply Hs in Hy as [Hy|Hy]; [by apply Hse|right; by apply Hnext].
  - intros u v Hu Hub. destruct (decide (u ∈ new)) as [Hn|Hn]; [left; apply elem_of_app; by left|].
    assert (u ∈ seen) as Hus by (apply Hs in Hu as [Hu|Hu]; [done|by destruct (Hall u Hu)]).
    destruct (Hcl u v Hus Hub) as [[->|Hin]%elem_of_cons|Hv].
    + right. intros Hv. apply Hs. by right.
    + left. apply elem_of_app. by right.
    + right. intros Hin. apply Hs. left. by apply Hv.
Qed.

Lemma explore_search fuel seen stack r :
  search_state seen stack -> explore fuel seen stack = Some r -> search_state r [].
Proof.
  revert seen stack. induction fuel as [|fuel IH]; intros seen stack Hs;
    destruct stack as [|id rest]; simpl; try (by intros [= <-]).
  pose proof (search_turn seen id rest Hs) as Ht.
  destruct (foldl visit (seen, rest) (next id)) as [seen' stack']. by apply IH.
Qed.

(** The result is the start and everything that can be reached from the stack
    without going on from a blocked element. *)
Lemma explore_spec fuel r y :
  explore fuel seen0 stack0 = Some r -> y ∈ r <-> y ∈ seen0 \/ found y.
Proof.
  intros Hr. assert (search_state r []) as [Hst Hsk Hse Hcl].
  { eapply explore_search; [|exact Hr]. constructor; [done| |by left|].
    - intros z Hz. split; [by apply Hstack|]. split; [set_solver|]. exists z. split; [done|constructor].
    - intros u v Hu Hb. left. set_solver. }
  split; [apply Hse|]. intros [Hy|(x & Hx & Hpath)]; [by apply Hst|].
  assert (x ∈ r) as Hxr by by apply Hst, Hstack.
  clear Hx. induction Hpath as [x|x z y [Hb Hz] Hpath IH]; [done|]. apply IH.
  by destruct (Hcl x z Hxr Hb) as [Hn%elem_of_nil|Hv]; [|apply Hv].
Qed.
End Found.
End Worklist.
