(* ===== verification/Cfg.v ===== *)
(** * The control-flow graph

    [ControlFlowGraph::build] of subset_julia_vm_compile/src/compile/cfg.rs:
    leaders, basic blocks, successor and predecessor lists.  The blocks
    partition the code, predecessors are the converse of successors, and every
    transfer of control of the interpreter goes along the graph. *)

From S2P Require Export Simulation Worklist.
From stdpp Require Export gmap fin_sets.
From stdpp Require Export sorting.

Record BasicBlock := {
  block_id : nat;
  block_start : nat;
  block_end : nat;
  successors : list nat;
  predecessors : list nat
}.

Record ControlFlowGraph := {
  blocks : list BasicBlock;
  instr_to_block : list nat
}.

Definition set_successors (l : list nat) (b : BasicBlock) : BasicBlock :=
  {| block_id := block_id b; block_start := block_start b; block_end := block_end b;
     successors := l; predecessors := predecessors b |}.
Definition push_predecessor (p : nat) (b : BasicBlock) : BasicBlock :=
  {| block_id := block_id b; block_start := block_start b; block_end := block_end b;
     successors := successors b; predecessors := predecessors b ++ [p] |}.

(** ** Leaders *)

(** The leaders that the instruction at [idx] adds. *)
Definition leaders_of (len idx : nat) (instr : Instr) : gset nat :=
  list_to_set (filter (fun target => target < len) (jump_targets instr)) ∪
  (if (is_branch_or_return instr || is_push_handler instr) && bool_decide (idx + 1 < len)
   then {[idx + 1]} else ∅).

Definition collect_leaders (code : list Instr) : gset nat :=
  {[0]} ∪ ⋃ imap (leaders_of (length code)) code.

(** The [BTreeSet] in increasing order; its elements are indices of the code. *)
Definition leader_vec (code : list Instr) : list nat :=
  filter (fun i => i ∈ collect_leaders code) (seq 0 (length code)).

(** ** Blocks *)

Definition push_target_block (succs : list nat) (target : nat) (itb : list nat) : list nat :=
  match itb !! target with
  | Some block => if bool_decide (block ∈ succs) then succs else succs ++ [block]
  | None => succs
  end.

Definition block_successors (code : list Instr) (block : BasicBlock) (itb : list nat) : list nat :=
  if bool_decide (block_end block = 0) || bool_decide (block_end block <= block_start block)
  then []
  else
    let instr_idx := block_end block - 1 in
    match code !! instr_idx with
    | Some (Jump target) => push_target_block [] target itb
    | Some (JumpIfZero target) | Some (JumpIfNeI64 target) | Some (JumpIfEqI64 target)
    | Some (JumpIfLtI64 target) | Some (JumpIfGtI64 target)
    | Some (JumpIfGtI64Slots _ _ target) | Some (AddConstI64SlotAndJumpIfLe _ _ _ target)
    | Some (JumpIfLeI64 target) | Some (JumpIfGeI64 target)
    | Some (JumpIfEqF64 target) | Some (JumpIfNeF64 target)
    | Some (JumpIfNotLtF64 target) | Some (JumpIfNotGtF64 target)
    | Some (JumpIfNotLeF64 target) | Some (JumpIfNotGeF64 target)
    | Some (JumpIfCmpI64SlotConst _ _ _ target) =>
        push_target_block (push_target_block [] target itb) (instr_idx + 1) itb
    | Some (PushHandler catch_ip finally_ip) =>
        push_target_block
          (foldl (fun succs target => push_target_block succs target itb) []
             (option_list catch_ip ++ option_list finally_ip))
          (instr_idx + 1) itb
    | Some instr =>
        if is_return instr then [] else push_target_block [] (instr_idx + 1) itb
    | None => []
    end.

Definition bare_blocks (code : list Instr) : list BasicBlock :=
  let leaders := leader_vec code in
  imap (fun idx start =>
    {| block_id := idx; block_start := start;
       block_end := default (length code) (leaders !! (idx + 1));
       successors := []; predecessors := [] |}) leaders.

(** [instr_to_block.iter_mut().take(end).skip(start)] of every block. *)
Definition build_instr_to_block (code : list Instr) (bs : list BasicBlock) : list nat :=
  foldl (fun v b => mark_range v (block_start b) (block_end b - block_start b) (block_id b))
    (replicate (length code) 0) bs.

(** The predecessor pass: block [idx] is pushed on each of its successors. *)
Definition add_predecessors (bs : list BasicBlock) (idx : nat) : list BasicBlock :=
  match bs !! idx with
  | Some block => foldl (fun bs succ => alter (push_predecessor idx) succ bs) bs (successors block)
  | None => bs
  end.

Definition build (code : list Instr) : ControlFlowGraph :=
  match code with
  | [] => {| blocks := []; instr_to_block := [] |}
  | _ =>
      let bs := bare_blocks code in
      let itb := build_instr_to_block code bs in
      let bs := (fun b => set_successors (block_successors code b itb) b) <$> bs in
      {| blocks := foldl add_predecessors bs (seq 0 (length bs)); instr_to_block := itb |}
  end.

Definition block_for_instr (cfg : ControlFlowGraph) (instr_idx : nat) : option nat :=
  instr_to_block cfg !! instr_idx.

(** ** Sorted leaders *)

Lemma elem_of_leaders code l :
  l ∈ collect_leaders code <->
  l = 0 \/ exists i instr, code !! i = Some instr /\ l ∈ leaders_of (length code) i instr.
Proof.
  unfold collect_leaders. rewrite elem_of_union, elem_of_singleton, elem_of_union_list.
  split; (intros [H|H]; [by left|right]).
  - destruct H as (X & HX & Hl). apply list_elem_of_lookup in HX as [i Hi].
    rewrite list_lookup_imap in Hi. destruct (code !! i) as [instr|] eqn:E; [|done].
    simpl in Hi. injection Hi as <-. eauto.
  - destruct H as (i & instr & Hi & Hl). exists (leaders_of (length code) i instr).
    split; [|done]. apply list_elem_of_lookup. exists i. by rewrite list_lookup_imap, Hi.
Qed.

Lemma leaders_of_lt len i instr l : l ∈ leaders_of len i instr -> l < len.
Proof.
  unfold leaders_of. rewrite elem_of_union, elem_of_list_to_set, list_elem_of_filter.
  intros [[? _]|H]; [done|]. destruct (_ && _) eqn:E; [|set_solver].
  apply andb_prop in E as [_ E%bool_decide_eq_true]. set_solver.
Qed.

Lemma leader_vec_elem code l :
  code <> [] -> l ∈ leader_vec code <-> l ∈ collect_leaders code.
Proof.
  intros Hne. unfold leader_vec. rewrite list_elem_of_filter, elem_of_seq.
  split; [by intros [? _]|]. intros H. split; [done|].
  assert (l < length code); [|lia].
  apply elem_of_leaders in H as [->|(i & instr & _ & H)].
  - destruct code; [done|simpl; lia].
  - by eapply leaders_of_lt.
Qed.

Lemma filter_seq_sorted (P : nat -> Prop) `{forall x, Decision (P x)} start n a b x y :
  filter P (seq start n) !! a = Some x -> filter P (seq start n) !! b = Some y -> a < b -> x < y.
Proof.
  revert start a b. induction n as [|n IH]; intros start a b; [done|].
  cbn [seq]. rewrite filter_cons. case_decide as HP; [|apply IH].
  destruct a as [|a], b as [|b]; simpl; try lia.
  - intros [= <-] Hy _. apply list_elem_of_lookup_2, list_elem_of_filter in Hy as [_ Hy].
    apply elem_of_seq in Hy. lia.
  - intros Hx Hy Hlt. eapply IH; eauto; lia.
Qed.

Lemma leader_vec_sorted code a b x y :
  leader_vec code !! a = Some x -> leader_vec code !! b = Some y -> a < b -> x < y.
Proof. apply filter_seq_sorted. Qed.

Lemma leader_vec_lt code a x : leader_vec code !! a = Some x -> x < length code.
Proof.
  intros H. apply list_elem_of_lookup_2, list_elem_of_filter in H as [_ H].
  apply elem_of_seq in H. lia.
Qed.

Lemma leader_vec_first code : code <> [] -> leader_vec code !! 0 = Some 0.
Proof.
  intros Hne. assert (0 ∈ leader_vec code) as H0.
  { apply leader_vec_elem; [done|]. apply elem_of_leaders. by left. }
  apply list_elem_of_lookup in H0 as [i Hi].
  destruct i as [|i]; [done|].
  destruct (lookup_lt_is_Some_2 (leader_vec code) 0) as [x Hx].
  { apply lookup_lt_Some in Hi. lia. }
  pose proof (leader_vec_sorted _ _ _ _ _ Hx Hi). lia.
Qed.

(** The end of the block of a leader. *)
Definition leader_end (code : list Instr) (idx : nat) : nat :=
  default (length code) (leader_vec code !! (idx + 1)).

Lemma leader_cover code i :
  i < length code ->
  exists idx start, leader_vec code !! idx = Some start /\ start <= i < leader_end code idx.
Proof.
  induction i as [|i IH]; intros Hi.
  - assert (code <> []) as Hne by (by destruct code; simpl in *; [lia|]).
    exists 0, 0. split; [by apply leader_vec_first|]. unfold leader_end.
    destruct (leader_vec code !! (0 + 1)) as [x|] eqn:E; simpl; [|lia].
    pose proof (leader_vec_sorted _ _ _ _ _ (leader_vec_first code Hne) E). lia.
  - destruct IH as (idx & start & Hs & Hlt); [lia|].
    destruct (decide (S i < leader_end code idx)) as [Hin|Hout].
    + exists idx, start. split; [done|lia].
    + unfold leader_end in *. destruct (leader_vec code !! (idx + 1)) as [next|] eqn:E; simpl in *; [|lia].
      assert (next = S i) as -> by lia.
      exists (idx + 1), (S i). split; [done|].
      destruct (leader_vec code !! (idx + 1 + 1)) as [x|] eqn:E2; simpl; [|lia].
      pose proof (leader_vec_sorted _ _ _ _ _ E E2). lia.
Qed.

(** A block ends before the next ones start. *)
Lemma leader_end_next code a b x y :
  leader_vec code !! a = Some x -> leader_vec code !! b = Some y -> a < b -> leader_end code a <= y.
Proof.
  intros Ha Hb Hab. unfold leader_end.
  destruct (leader_vec code !! (a + 1)) as [z|] eqn:E; simpl.
  - destruct (decide (a + 1 = b)) as [<-|]; [rewrite Hb in E; simplify_eq; lia|].
    pose proof (leader_vec_sorted _ _ _ _ _ E Hb). lia.
  - apply lookup_ge_None in E. apply lookup_lt_Some in Hb. lia.
Qed.

Lemma leader_cover_unique code i idx idx' start start' :
  leader_vec code !! idx = Some start -> start <= i < leader_end code idx ->
  leader_vec code !! idx' = Some start' -> start' <= i < leader_end code idx' -> idx = idx'.
Proof.
  intros Ha Hi Hb Hi'.
  destruct (lt_eq_lt_dec idx idx') as [[H|H]|H]; [|done|].
  - pose proof (leader_end_next _ _ _ _ _ Ha Hb H). lia.
  - pose proof (leader_end_next _ _ _ _ _ Hb Ha H). lia.
Qed.

(** ** The blocks of the graph *)

Lemma bare_blocks_lookup code idx b :
  bare_blocks code !! idx = Some b <->
  exists start, leader_vec code !! idx = Some start /\
    b = {| block_id := idx; block_start := start; block_end := leader_end code idx;
           successors := []; predecessors := [] |}.
Proof.
  unfold bare_blocks. rewrite list_lookup_imap. destruct (leader_vec code !! idx); simpl;
    split; [intros [= <-]; eauto|intros (? & [= <-] & ->); done|done|by intros (? & ? & _)].
Qed.

Lemma leader_end_le code idx : leader_end code idx <= length code.
Proof.
  unfold leader_end. destruct (leader_vec code !! (idx + 1)) eqn:E; simpl; [|lia].
  apply leader_vec_lt in E. lia.
Qed.

Lemma instr_to_block_length code bs : length (build_instr_to_block code bs) = length code.
Proof.
  unfold build_instr_to_block.
  assert (forall v, length (foldl (fun v b => mark_range v (block_start b)
    (block_end b - block_start b) (block_id b)) v bs) = length v) as Hl.
  { induction bs as [|b bs IH]; intros v; simpl; [done|]. by rewrite IH, mark_range_length. }
  by rewrite Hl, length_replicate.
Qed.

(** Filling disjoint ranges: an index gets the block that covers it. *)
Lemma instr_to_block_lookup code idx start i :
  leader_vec code !! idx = Some start -> start <= i < leader_end code idx ->
  build_instr_to_block code (bare_blocks code) !! i = Some idx.
Proof.
  intros Hs Hi. unfold build_instr_to_block.
  set (fill := fun v b => mark_range v (block_start b) (block_end b - block_start b) (block_id b)).
  assert (bare_blocks code !! idx = Some {| block_id := idx; block_start := start;
    block_end := leader_end code idx; successors := []; predecessors := [] |}) as Hb.
  { apply bare_blocks_lookup. eauto. }
  assert (forall bs v, length v = length code -> length (foldl fill v bs) = length code) as Hlen.
  { induction bs as [|b bs IH]; intros v Hv; simpl; [done|]. apply IH. unfold fill.
    by rewrite mark_range_length. }
  rewrite <- (take_drop_middle _ _ _ Hb), foldl_app. simpl.
  assert (forall bs m v, idx < m ->
    (forall j b, bs !! j = Some b -> bare_blocks code !! (m + j) = Some b) ->
    foldl fill v bs !! i = v !! i) as Hrest.
  { induction bs as [|b bs IH]; intros m v Hm Hbs; simpl; [done|].
    rewrite (IH (S m)); [|lia|].
    - pose proof (Hbs 0 b eq_refl) as H0. apply bare_blocks_lookup in H0 as (start' & Hs' & ->).
      unfold fill. simpl. apply mark_range_lookup_lt. rewrite Nat.add_0_r in Hs'.
      pose proof (leader_end_next _ _ _ _ _ Hs Hs' Hm). lia.
    - intros j b' Hj. rewrite <- (Hbs (S j) b' Hj). f_equal. lia. }
  rewrite (Hrest _ (S idx)); [|lia|].
  - unfold fill at 1. simpl. apply mark_range_lookup; [lia|].
    rewrite Hlen by apply length_replicate. pose proof (leader_end_le code idx). lia.
  - intros j b Hj. by rewrite lookup_drop in Hj.
Qed.

(** ** Predecessors *)

Definition set_predecessors (l : list nat) (b : BasicBlock) : BasicBlock :=
  {| block_id := block_id b; block_start := block_start b; block_end := block_end b;
     successors := successors b; predecessors := l |}.

(** Block [p] lists [i] as a successor. *)
Definition has_successor (bs : list BasicBlock) (i p : nat) : bool :=
  match bs !! p with
  | Some b => bool_decide (i ∈ successors b)
  | None => false
  end.

Lemma push_preds_lookup idx succs (bs : list BasicBlock) i :
  NoDup succs ->
  foldl (fun bs succ => alter (push_predecessor idx) succ bs) bs succs !! i =
  (fun b => if bool_decide (i ∈ succs) then push_predecessor idx b else b) <$> bs !! i.
Proof.
  revert bs. induction succs as [|s succs IH]; intros bs Hnd; cbn [foldl].
  - destruct (bs !! i) as [b|]; cbn; [|done]. case_bool_decide; set_solver.
  - apply NoDup_cons in Hnd as [Hs Hnd]. rewrite IH by done.
    destruct (decide (s = i)) as [->|Hne].
    + rewrite list_lookup_alter, decide_True by done. destruct (bs !! i) as [b|]; cbn [fmap option_fmap option_map]; [|done].
      rewrite (bool_decide_false (i ∈ succs)) by done.
      by rewrite bool_decide_true by (by left).
    + rewrite list_lookup_alter_ne by done. destruct (bs !! i) as [b|]; cbn [fmap option_fmap option_map]; [|done]. f_equal.
      rewrite (bool_decide_ext (i ∈ succs) (i ∈ s :: succs)); [done|]. set_solver.
Qed.

Lemma add_predecessors_length bs idx : length (add_predecessors bs idx) = length bs.
Proof.
  unfold add_predecessors. destruct (bs !! idx) as [b|]; [|done].
  generalize (successors b). intros l. revert bs.
  induction l as [|s l IH]; intros bs; simpl; [done|]. by rewrite IH, length_alter.
Qed.

Lemma add_predecessors_lookup (bs : list BasicBlock) n i :
  (forall p b, bs !! p = Some b -> NoDup (successors b)) ->
  foldl add_predecessors bs (seq 0 n) !! i =
  (fun b => set_predecessors
     (predecessors b ++ filter (fun p => has_successor bs i p = true) (seq 0 n)) b) <$> bs !! i.
Proof.
  intros Hnd. revert i. induction n as [|n IH]; intros i.
  - simpl. destruct (bs !! i) as [b|]; cbn [fmap option_fmap option_map]; [|done]. f_equal. destruct b.
    unfold set_predecessors. simpl. by rewrite app_nil_r.
  - rewrite seq_S, foldl_app, filter_app. simpl. unfold add_predecessors at 1. rewrite IH.
    unfold has_successor at 2. destruct (bs !! n) as [bn|] eqn:En; simpl.
    + rewrite push_preds_lookup by (by eapply Hnd). rewrite IH.
      destruct (bs !! i) as [b|]; cbn [fmap option_fmap option_map]; [|done]. f_equal.
      destruct (bool_decide (i ∈ successors bn)) eqn:Ei.
      * rewrite filter_cons_True; [|unfold has_successor; by rewrite En].
        unfold push_predecessor, set_predecessors. simpl. by rewrite <- app_assoc.
      * rewrite filter_cons_False; [|unfold has_successor; rewrite En; congruence].
        by rewrite app_nil_r.
    + rewrite IH. destruct (bs !! i); cbn [fmap option_fmap option_map]; [|done]. do 2 f_equal.
      rewrite filter_cons_False; [|unfold has_successor; rewrite En; done].
      by rewrite app_nil_r.
Qed.

(** ** Successors *)

Lemma push_target_elem succs target itb b :
  b ∈ push_target_block succs target itb <-> b ∈ succs \/ itb !! target = Some b.
Proof.
  unfold push_target_block. destruct (itb !! target) as [block|]; [|naive_solver].
  case_bool_decide; set_solver.
Qed.

Lemma push_target_nodup succs target itb : NoDup succs -> NoDup (push_target_block succs target itb).
Proof.
  intros Hnd. unfold push_target_block. destruct (itb !! target) as [block|]; [|done].
  case_bool_decide; [done|]. apply NoDup_app. split_and!; [done|set_solver|apply NoDup_singleton].
Qed.

Lemma push_targets_nodup succs targets itb :
  NoDup succs -> NoDup (foldl (fun succs target => push_target_block succs target itb) succs targets).
Proof.
  revert succs. induction targets as [|t ts IH]; intros succs Hnd; simpl; [done|].
  by apply IH, push_target_nodup.
Qed.

Lemma push_targets_elem succs targets itb b :
  b ∈ foldl (fun succs target => push_target_block succs target itb) succs targets <->
  b ∈ succs \/ exists t, t ∈ targets /\ itb !! t = Some b.
Proof.
  revert succs. induction targets as [|t ts IH]; intros succs; simpl; [set_solver|].
  rewrite IH, push_target_elem. set_solver.
Qed.

Lemma block_successors_nodup code b itb : NoDup (block_successors code b itb).
Proof.
  unfold block_successors. destruct (_ || _); [constructor|].
  destruct (code !! (block_end b - 1)) as [instr|]; [|constructor].
  destruct instr; try destruct (is_return _);
    auto using push_target_nodup, push_targets_nodup, NoDup_nil_2.
Qed.

(** Whether control may go on at the next instruction. *)
Definition falls_through (instr : Instr) : bool :=
  match instr with
  | Jump _ => false
  | _ => negb (is_return instr)
  end.

(** Where control may go after the instruction at [i]. *)
Definition flow (instr : Instr) (i : nat) : list nat :=
  jump_targets instr ++ (if falls_through instr then [S i] else []).

Lemma block_successors_elem code b itb instr x :
  block_start b < block_end b -> code !! (block_end b - 1) = Some instr ->
  x ∈ block_successors code b itb <->
  exists t, t ∈ flow instr (block_end b - 1) /\ itb !! t = Some x.
Proof.
  intros Hlt Hi. unfold block_successors. rewrite Hi.
  rewrite (bool_decide_false (block_end b = 0)), (bool_decide_false (block_end b <= block_start b)) by lia.
  simpl. rewrite Nat.add_1_r.
  destruct instr; unfold flow; simpl; rewrite ?push_target_elem, ?push_targets_elem; set_solver.
Qed.

(** ** The graph that [build] returns *)

Section Build.
Variable code : list Instr.

Abbreviation cfg := (build code).
Abbreviation itb := (build_instr_to_block code (bare_blocks code)).

(** The block at an index of the graph. *)
Lemma build_lookup idx b :
  blocks cfg !! idx = Some b ->
  leader_vec code !! idx = Some (block_start b) /\ block_id b = idx /\
  block_end b = leader_end code idx /\ successors b = block_successors code b itb /\
  predecessors b = filter (fun p => has_successor (blocks cfg) idx p = true)
    (seq 0 (length (blocks cfg))).
Proof.
  unfold build. destruct code as [|i0 rest] eqn:Ecode; [done|]. rewrite <- Ecode. simpl.
  set (v := build_instr_to_block code (bare_blocks code)).
  set (bs := (fun b => set_successors (block_successors code b v) b) <$> bare_blocks code).
  assert (forall p b, bs !! p = Some b -> NoDup (successors b)) as Hnd.
  { intros p b' Hp. unfold bs in Hp. apply list_lookup_fmap_Some in Hp as (b0 & -> & _).
    apply block_successors_nodup. }
  pose proof (fun i => add_predecessors_lookup bs (length bs) i Hnd) as Hadd.
  assert (length (foldl add_predecessors bs (seq 0 (length bs))) = length bs) as Hlen.
  { assert (forall n, length (foldl add_predecessors bs (seq 0 n)) = length bs) as Hl; [|done].
    intros n. induction n as [|n IH]; [done|]. rewrite seq_S, foldl_app. simpl.
    by rewrite add_predecessors_length. }
  assert (forall i p, has_successor (foldl add_predecessors bs (seq 0 (length bs))) i p =
    has_successor bs i p) as Hhas.
  { intros i p. unfold has_successor. rewrite Hadd. by destruct (bs !! p). }
  rewrite Hadd, Hlen. intros Hb. apply fmap_Some in Hb as (b1 & Hb1 & ->).
  unfold bs in Hb1. apply list_lookup_fmap_Some in Hb1 as (b0 & -> & Hb0).
  apply bare_blocks_lookup in Hb0 as (start & Hs & ->). simpl. split_and!; try done.
  apply list_filter_iff. intros p. by rewrite Hhas.
Qed.

Lemma build_nonempty i : i < length code -> instr_to_block cfg = itb /\
  forall idx start, leader_vec code !! idx = Some start -> is_Some (blocks cfg !! idx).
Proof.
  intros Hi. unfold build. destruct code as [|i0 rest] eqn:Ecode; [simpl in Hi; lia|].
  rewrite <- Ecode. cbn [instr_to_block blocks]. split; [done|]. intros idx start Hs.
  apply lookup_lt_is_Some_2.
  assert (forall n (bs : list BasicBlock), length (foldl add_predecessors bs (seq 0 n)) = length bs)
    as Hl.
  { intros n bs. induction n as [|n IH]; [done|]. rewrite seq_S, foldl_app. simpl.
    by rewrite add_predecessors_length. }
  rewrite Hl, length_fmap. unfold bare_blocks. rewrite length_imap. by eapply lookup_lt_Some.
Qed.

(** The block of an instruction. *)
Lemma block_of i :
  i < length code ->
  exists idx b, block_for_instr cfg i = Some idx /\ blocks cfg !! idx = Some b /\
    block_start b <= i < block_end b.
Proof.
  intros Hi. destruct (leader_cover code i Hi) as (idx & start & Hs & Hlt).
  destruct (build_nonempty i Hi) as [Hitb Hb]. destruct (Hb idx start Hs) as [b Hbl].
  exists idx, b. destruct (build_lookup _ _ Hbl) as (Hs' & _ & -> & _).
  rewrite Hs in Hs'. injection Hs' as <-. split_and!; [|done|lia|lia].
  unfold block_for_instr. rewrite Hitb. by eapply instr_to_block_lookup.
Qed.

Lemma block_of_unique i idx b idx' b' :
  blocks cfg !! idx = Some b -> block_start b <= i < block_end b ->
  blocks cfg !! idx' = Some b' -> block_start b' <= i < block_end b' -> idx = idx'.
Proof.
  intros Hb Hi Hb' Hi'.
  destruct (build_lookup _ _ Hb) as (Hs & _ & He & _).
  destruct (build_lookup _ _ Hb') as (Hs' & _ & He' & _).
  rewrite He in Hi. rewrite He' in Hi'. by eapply leader_cover_unique.
Qed.

Lemma block_bounds idx b :
  blocks cfg !! idx = Some b -> block_start b < block_end b <= length code.
Proof.
  intros Hb. destruct (build_lookup _ _ Hb) as (Hs & _ & -> & _).
  split; [|apply leader_end_le]. pose proof (leader_vec_lt _ _ _ Hs).
  unfold leader_end. destruct (leader_vec code !! (idx + 1)) as [x|] eqn:E; simpl; [|done].
  eapply leader_vec_sorted; [exact Hs|exact E|lia].
Qed.

(** A leader starts its block. *)
Lemma leader_starts l :
  l ∈ collect_leaders code -> l < length code ->
  exists idx b, block_for_instr cfg l = Some idx /\ blocks cfg !! idx = Some b /\ block_start b = l.
Proof.
  intros Hl Hlt. assert (code <> []) as Hne by (intros E; rewrite E in Hlt; simpl in Hlt; lia).
  apply leader_vec_elem in Hl; [|done]. apply list_elem_of_lookup in Hl as [idx Hidx].
  destruct (build_nonempty l Hlt) as [_ Hb]. destruct (Hb _ _ Hidx) as [b Hbl].
  destruct (build_lookup _ _ Hbl) as (Hs & _). rewrite Hidx in Hs. injection Hs as Hs.
  pose proof (block_bounds _ _ Hbl).
  destruct (block_of l Hlt) as (idx' & b' & Hf & Hb' & Hin).
  assert (idx = idx') as <- by (eapply (block_of_unique l); [exact Hbl|lia|exact Hb'|lia]).
  exists idx, b. split_and!; auto.
Qed.

(** Inside a block control only falls through. *)
Lemma inside_block idx b i instr :
  blocks cfg !! idx = Some b -> block_start b <= i -> S i < block_end b -> code !! i = Some instr ->
  jump_targets instr = [] /\ falls_through instr = true /\ S i ∉ collect_leaders code.
Proof.
  intros Hb Hs He Hi. pose proof (block_bounds _ _ Hb) as Hbd.
  assert (S i ∉ collect_leaders code) as Hn.
  { intros Hl. destruct (leader_starts (S i) Hl) as (idx' & b' & _ & Hb' & Hst); [lia|].
    pose proof (block_bounds _ _ Hb').
    assert (idx = idx') as <- by (eapply (block_of_unique (S i)); [exact Hb|lia|exact Hb'|lia]).
    simplify_eq. lia. }
  assert (is_branch_or_return instr = false /\ is_push_handler instr = false) as [Hbr Hph].
  { apply orb_false_iff. destruct (_ || _) eqn:E; [|done]. exfalso. apply Hn.
    apply elem_of_leaders. right. exists i, instr. split; [done|]. unfold leaders_of. rewrite E.
    rewrite bool_decide_true by lia. simpl. rewrite Nat.add_1_r. set_solver. }
  split_and!; [..|done]; by destruct instr.
Qed.

(** Every flow of control stays in the block or follows an edge to the start of
    a successor. *)
Lemma flow_edge i instr t :
  code !! i = Some instr -> t ∈ flow instr i -> t < length code ->
  exists idx b, block_for_instr cfg i = Some idx /\ blocks cfg !! idx = Some b /\
    block_start b <= i < block_end b /\
    ((t = S i /\ t < block_end b) \/
     (S i = block_end b /\ exists idx' b', idx' ∈ successors b /\ blocks cfg !! idx' = Some b' /\
        block_for_instr cfg t = Some idx' /\ block_start b' = t)).
Proof.
  intros Hi Ht Hlt. pose proof (lookup_lt_Some _ _ _ Hi) as Hil.
  destruct (block_of i Hil) as (idx & b & Hf & Hb & Hin). exists idx, b. split_and!; [done|done|lia|lia|].
  destruct (decide (S i < block_end b)) as [Hinner|Hlast].
  - left. destruct (inside_block _ _ _ _ Hb (proj1 Hin) Hinner Hi) as (Hj & _ & _).
    unfold flow in Ht. rewrite Hj in Ht. simpl in Ht. destruct (falls_through instr); set_solver.
  - right. split; [lia|].
    assert (t ∈ collect_leaders code) as Hl.
    { unfold flow in Ht. apply elem_of_app in Ht as [Ht|Ht].
      - apply elem_of_leaders. right. exists i, instr. split; [done|]. unfold leaders_of.
        apply elem_of_union_l, elem_of_list_to_set, list_elem_of_filter. done.
      - assert (t = S i) as -> by (destruct (falls_through instr); set_solver).
        destruct (build_lookup _ _ Hb) as (Hs & _ & He & _).
        assert (code <> []) as Hne by (by destruct code).
        apply leader_vec_elem; [done|].
        unfold leader_end in He. destruct (leader_vec code !! (idx + 1)) as [x|] eqn:E; simpl in He; [|lia].
        apply list_elem_of_lookup. exists (idx + 1). rewrite E. f_equal. lia. }
    destruct (leader_starts t Hl Hlt) as (idx' & b' & Hf' & Hb' & Hst).
    exists idx', b'. split_and!; try done.
    destruct (build_lookup _ _ Hb) as (_ & _ & _ & -> & _).
    apply (block_successors_elem code b itb instr); [lia| |].
    + by replace (block_end b - 1) with i by lia.
    + exists t. split; [by replace (block_end b - 1) with i by lia|].
      destruct (build_nonempty i Hil) as [Hitb _]. by rewrite <- Hitb.
Qed.

Lemma predecessor_spec idx b p :
  blocks cfg !! idx = Some b ->
  p ∈ predecessors b <-> exists bp, blocks cfg !! p = Some bp /\ idx ∈ successors bp.
Proof.
  intros Hb. destruct (build_lookup _ _ Hb) as (_ & _ & _ & _ & ->).
  rewrite list_elem_of_filter, elem_of_seq. unfold has_successor. split.
  - intros [H _]. destruct (blocks cfg !! p) as [bp|]; [|done].
    apply bool_decide_eq_true in H. eauto.
  - intros (bp & Hp & Hin). rewrite Hp. split; [by apply bool_decide_eq_true|].
    apply lookup_lt_Some in Hp. lia.
Qed.
End Build.

(** The interpreter moves along [flow]; a look-ahead takes two or three such
    moves at once. *)
Lemma step_flow `{ExternalConversions} code s s' instr :
  code !! ip s = Some instr -> step code s = Continue s' ->
  ip s' ∈ flow instr (ip s) \/
  (looks_ahead instr = true /\
    (exists x, code !! S (ip s) = Some x /\ one_ahead x = true) /\ ip s' = S (S (ip s))) \/
  (looks_ahead instr = true /\ peek_dup_mul code (S (ip s)) = true /\ ip s' = S (ip s) + 2).
Proof.
  intros Hi Hs. unfold step in Hs. rewrite Hi in Hs.
  destruct (next_address _ _ _ _ _ Hs) as [E|[E|E]]; [| |auto].
  - left. unfold flow. destruct (falls_through instr) eqn:Hf; [set_solver|].
    destruct instr; try discriminate Hf; simpl in Hs;
      unfold return_heap, pop_value, pop_f64_or_i64 in Hs; invert_match Hs; try discriminate Hs;
      try (unfold pop_value in Hs; invert_match Hs; discriminate Hs).
    injection Hs as <-. simpl in *. set_solver.
  - left. unfold flow. set_solver.
Qed.

(** ** What the graph is *)

(** The blocks partition the code, and [block_for_instr] finds the block of every
    instruction. *)
Theorem build_partition code i :
  i < length code ->
  exists idx b, block_for_instr (build code) i = Some idx /\
    blocks (build code) !! idx = Some b /\ block_id b = idx /\
    block_start b <= i < block_end b /\ block_end b <= length code /\
    forall idx' b', blocks (build code) !! idx' = Some b' ->
      block_start b' <= i < block_end b' -> idx' = idx.
Proof.
  intros Hi. destruct (block_of code i Hi) as (idx & b & Hf & Hb & Hin).
  exists idx, b. pose proof (block_bounds _ _ _ Hb) as Hbd.
  destruct (build_lookup _ _ _ Hb) as (_ & Hid & _). split_and!; try done; try lia.
  intros idx' b' Hb' Hin'. by eapply (block_of_unique code i).
Qed.

(** The successors of a block are the blocks of the addresses that its last
    instruction can go to, each once; predecessors are the converse. *)
Theorem build_edges code idx b :
  blocks (build code) !! idx = Some b ->
  NoDup (successors b) /\
  (forall x, x ∈ successors b <-> exists instr t, code !! (block_end b - 1) = Some instr /\
     t ∈ flow instr (block_end b - 1) /\ block_for_instr (build code) t = Some x) /\
  (forall p, p ∈ predecessors b <->
     exists bp, blocks (build code) !! p = Some bp /\ idx ∈ successors bp).
Proof.
  intros Hb. pose proof (block_bounds _ _ _ Hb) as Hbd.
  destruct (build_lookup _ _ _ Hb) as (_ & _ & _ & Hs & _).
  destruct (lookup_lt_is_Some_2 code (block_end b - 1)) as [instr Hi]; [lia|].
  destruct (build_nonempty code (block_end b - 1)) as [Hitb _]; [lia|].
  split_and!; [rewrite Hs; apply block_successors_nodup| |intros p; by apply predecessor_spec].
  intros x. rewrite Hs, (block_successors_elem _ _ _ instr); [|lia|done].
  unfold block_for_instr. rewrite Hitb. split.
  - intros (t & Ht & Hx). by exists instr, t.
  - intros (instr' & t & Hi' & Ht & Hx). rewrite Hi in Hi'. injection Hi' as <-. by exists t.
Qed.


(** ** Natural loops

    [ControlFlowGraph::natural_loops] of
    subset_julia_vm_compile/src/compile/cfg.rs: one loop for every edge to a
    block that does not start later, its blocks found by a search along the
    predecessor lists. *)

Record NaturalLoop := { header : nat; latch : nat; loop_blocks : list nat }.

(** The predecessors that the search visits from [current]. *)
Definition loop_step (cfg : ControlFlowGraph) (current : nat) : list nat :=
  match blocks cfg !! current with Some block => predecessors block | None => [] end.

(** Every turn but the first pushes a block for the first time, so one turn per
    block and one more is enough. *)
Definition loop_fuel (cfg : ControlFlowGraph) : nat := S (length (blocks cfg)).

Definition loop_search (cfg : ControlFlowGraph) (h l : nat) : option (gset nat) :=
  explore (loop_step cfg) (loop_fuel cfg) ({[h]} ∪ {[l]}) [l].

(** [members.into_iter().collect()], then [sort_unstable]. *)
Definition sorted_blocks (members : gset nat) : list nat := merge_sort le (elements members).

Definition natural_loops (cfg : ControlFlowGraph) : list NaturalLoop :=
  blocks cfg ≫= fun block =>
    omap (fun succ =>
      target ← blocks cfg !! succ;
      if block_start block <? block_start target then None
      else
        members ← loop_search cfg succ (block_id block);
        Some {| header := succ; latch := block_id block; loop_blocks := sorted_blocks members |})
      (successors block).

(** ** The edges of the graph *)

(** [v] is a successor of [u]. *)
Definition follows (cfg : ControlFlowGraph) (u v : nat) : Prop :=
  exists b, blocks cfg !! u = Some b /\ v ∈ successors b.

(** Successors but for one block. *)
Definition follows_avoiding (cfg : ControlFlowGraph) (h u v : nat) : Prop :=
  follows cfg u v /\ v <> h.

Lemma build_block_id code idx b : blocks (build code) !! idx = Some b -> block_id b = idx.
Proof. intros Hb. by destruct (build_lookup code _ _ Hb) as (_ & ? & _). Qed.

Lemma successor_in_range code u v : follows (build code) u v -> v < length (blocks (build code)).
Proof.
  intros (b & Hb & Hv). destruct (build_lookup _ _ _ Hb) as (_ & _ & _ & Hs & _).
  rewrite Hs in Hv. pose proof (block_bounds _ _ _ Hb) as Hbd.
  destruct (lookup_lt_is_Some_2 code (block_end b - 1)) as [instr Hi]; [lia|].
  apply (block_successors_elem _ _ _ instr) in Hv as (t & Ht & Hv); [|lia|done].
  destruct (build_nonempty code (block_end b - 1)) as [Hitb _]; [lia|].
  rewrite <- Hitb in Hv.
  assert (t < length code) as Hlt.
  { apply lookup_lt_Some in Hv. rewrite Hitb in Hv. by rewrite instr_to_block_length in Hv. }
  destruct (block_of code t Hlt) as (idx & b' & Hf & Hb' & _).
  unfold block_for_instr in Hf. rewrite Hv in Hf. injection Hf as ->. by eapply lookup_lt_Some.
Qed.

Lemma loop_step_follows code u v : v ∈ loop_step (build code) u ->  follows (build code) v u.
Proof.
  unfold loop_step. destruct (blocks _ !! u) as [b|] eqn:Hb; [|by intros ?%elem_of_nil].
  intros Hv. by apply (predecessor_spec code u b v Hb) in Hv.
Qed.

Lemma follows_loop_step code u v : follows (build code) u v -> u ∈ loop_step (build code) v.
Proof.
  intros Hf. pose proof (successor_in_range _ _ _ Hf) as Hlt.
  destruct (lookup_lt_is_Some_2 _ _ Hlt) as [b Hb]. unfold loop_step. rewrite Hb.
  by apply (predecessor_spec code v b u Hb).
Qed.

Lemma loop_step_range code u v :
  v ∈ loop_step (build code) u -> v ∈ (set_seq 0 (length (blocks (build code))) : gset nat).
Proof.
  intros Hv%loop_step_follows. destruct Hv as (b & Hb & _). apply elem_of_set_seq.
  apply lookup_lt_Some in Hb. lia.
Qed.

(** ** The search *)

(** The fuel is enough for every loop. *)
Lemma loop_search_ends code h l :
  h < length (blocks (build code)) -> l < length (blocks (build code)) ->
  is_Some (loop_search (build code) h l).
Proof.
  intros Hh Hl. apply (explore_total _ (set_seq 0 (length (blocks (build code))))).
  - intros u v. apply loop_step_range.
  - unfold loop_fuel. cbn [length]. etrans; [apply Nat.add_le_mono_l, subseteq_size|].
    + apply subseteq_difference_l. reflexivity.
    + rewrite size_set_seq. lia.
Qed.

Lemma reversed_path cfg (blocked : gset nat) (R : nat -> nat -> Prop) x y :
  (forall u v, edge (loop_step cfg) blocked u v <-> R v u) ->
  rtc (edge (loop_step cfg) blocked) x y <-> rtc R y x.
Proof.
  intros He. split; intros Hp.
  - induction Hp as [|x z y H _ IH]; [done|]. eapply rtc_r; [exact IH|]. by apply He.
  - induction Hp as [|x z y H _ IH]; [done|]. eapply rtc_r; [exact IH|]. by apply He.
Qed.

Lemma loop_search_spec code h l members x :
  loop_search (build code) h l = Some members ->
  x ∈ members <-> x = h \/
    rtc (if decide (h = l) then follows (build code) else follows_avoiding (build code) h) x l.
Proof.
  intros Hs. unfold loop_search in Hs.
  assert (forall y, y ∈ [l] -> y ∈ ({[h]} ∪ {[l]} : gset nat)) as Hst by set_solver.
  apply (explore_spec _ _ _ Hst _ _ x) in Hs. rewrite Hs.
  assert (forall y, (exists u, u ∈ [l] /\ rtc (edge (loop_step (build code))
    (({[h]} ∪ {[l]}) ∖ list_to_set [l])) u y) <->
    rtc (if decide (h = l) then follows (build code) else follows_avoiding (build code) h) y l)
    as Hp.
  { intros y. rewrite <- (reversed_path (build code) (({[h]} ∪ {[l]}) ∖ list_to_set [l])).
    - split; [|exists l; split; [by left|done]].
      by intros (u & ->%list_elem_of_singleton & Hp).
    - intros u v. unfold edge, follows_avoiding. case_decide as Hhl.
      + split; [intros [_ Hv]; by apply loop_step_follows|].
        intros Hf. split; [set_solver|by apply follows_loop_step].
      + split.
        * intros [Hu Hv]. split; [by apply loop_step_follows|set_solver].
        * intros [Hf Hne]. split; [set_solver|by apply follows_loop_step]. }
  rewrite Hp, elem_of_union, !elem_of_singleton. split; [|tauto].
  intros [[->| ->]|Hr]; [by left|right; constructor|by right].
Qed.

Lemma sorted_blocks_spec members :
  StronglySorted le (sorted_blocks members) /\ NoDup (sorted_blocks members) /\
  forall x, x ∈ sorted_blocks members <-> x ∈ members.
Proof.
  unfold sorted_blocks. pose proof (merge_sort_Permutation le (elements members)) as Hp.
  split_and!.
  - apply StronglySorted_merge_sort; [intros ? ? ?; lia|intros ? ?; lia].
  - rewrite Hp. apply NoDup_elements.
  - intros x. by rewrite Hp, elem_of_elements.
Qed.

Lemma natural_loops_elem code loop :
  loop ∈ natural_loops (build code) <->
  exists bl bh members,
    blocks (build code) !! latch loop = Some bl /\ blocks (build code) !! header loop = Some bh /\
    header loop ∈ successors bl /\ block_start bh <= block_start bl /\
    loop_search (build code) (header loop) (latch loop) = Some members /\
    loop_blocks loop = sorted_blocks members.
Proof.
  unfold natural_loops. rewrite list_elem_of_bind. split.
  - intros (block & Hl & Hb). apply list_elem_of_lookup in Hb as [idx Hb].
    apply list_elem_of_omap in Hl as (succ & Hs & Hl).
    destruct (blocks (build code) !! succ) as [bh|] eqn:Hh; [|done]. simpl in Hl.
    destruct (Nat.ltb_spec (block_start block) (block_start bh)); [done|].
    destruct (loop_search _ _ _) as [members|] eqn:Em; [|done]. injection Hl as <-. simpl.
    pose proof (build_block_id _ _ _ Hb) as Eid. rewrite Eid in *. eauto 10.
  - intros (bl & bh & members & Hl & Hh & Hs & Hle & Hm & Hb). exists bl.
    split; [|by eapply list_elem_of_lookup_2]. apply list_elem_of_omap. exists (header loop).
    split; [done|]. rewrite Hh. simpl.
    destruct (Nat.ltb_spec (block_start bl) (block_start bh)); [lia|].
    rewrite (build_block_id _ _ _ Hl), Hm. simpl. rewrite <- Hb. by destruct loop.
Qed.

(** ** What the loops are *)

(** Every edge to a block that starts at or before its source gives a loop, whose
    blocks are in order and are, for a loop of more than one block, the header
    and all blocks from which the latch is reached without passing the header. *)
Theorem natural_loops_spec code u h bu bh :
  blocks (build code) !! u = Some bu -> blocks (build code) !! h = Some bh ->
  h ∈ successors bu -> block_start bh <= block_start bu ->
  exists bs, {| header := h; latch := u; loop_blocks := bs |} ∈ natural_loops (build code) /\
    StronglySorted le bs /\ NoDup bs /\
    (h <> u -> forall x, x ∈ bs <-> x = h \/ rtc (follows_avoiding (build code) h) x u).
Proof.
  intros Hu Hh Hs Hle.
  destruct (loop_search_ends code h u) as [members Hm]; [by eapply lookup_lt_Some..|].
  destruct (sorted_blocks_spec members) as (Hsort & Hnd & Hel).
  exists (sorted_blocks members). split_and!; [|done|done|].
  - apply natural_loops_elem. simpl. eauto 10.
  - intros Hne x. rewrite Hel, (loop_search_spec _ _ _ _ _ Hm). by rewrite decide_False.
Qed.

(** And nothing else is a loop. *)
Theorem natural_loops_only code loop :
  loop ∈ natural_loops (build code) ->
  exists bu bh, blocks (build code) !! latch loop = Some bu /\
    blocks (build code) !! header loop = Some bh /\ header loop ∈ successors bu /\
    block_start bh <= block_start bu /\
    latch loop ∈ loop_blocks loop /\ header loop ∈ loop_blocks loop.
Proof.
  intros (bl & bh & members & Hl & Hh & Hs & Hle & Hm & Hb)%natural_loops_elem.
  exists bl, bh. destruct (sorted_blocks_spec members) as (_ & _ & Hel). rewrite Hb.
  split_and!; try done; apply Hel, (loop_search_spec _ _ _ _ _ Hm);
    [right; constructor|by left].
Qed.

(** A loop of one block gets every block from which it can be reached. *)
Theorem one_block_loop code u bs :
  {| header := u; latch := u; loop_blocks := bs |} ∈ natural_loops (build code) ->
  forall x, x ∈ bs <-> rtc (follows (build code)) x u.
Proof.
  intros (bl & bh & members & _ & _ & _ & _ & Hm & Hb)%natural_loops_elem. simpl in *. subst bs.
  destruct (sorted_blocks_spec members) as (_ & _ & Hel). intros x.
  rewrite Hel, (loop_search_spec _ _ _ _ _ Hm). rewrite decide_True by done.
  split; [intros [->|?]; [constructor|done]|by right].
Qed.

(** [Jump 1] at 1 is a loop on its own, but the block in front of it is listed
    as one of its blocks. *)
Theorem one_block_loop_bug :
  natural_loops (build [PushNothing; Jump 1]) =
    [{| header := 1; latch := 1; loop_blocks := [0; 1] |}] /\
  ~ rtc (follows (build [PushNothing; Jump 1])) 1 0.
Proof.
  split; [vm_compute; reflexivity|]. intros Hp.
  assert (forall x y, rtc (follows (build [PushNothing; Jump 1])) x y -> x = 1 -> y = 1) as H1.
  { intros x y Hxy. induction Hxy as [|x z y (b & Hb & Hz) _ IH]; [done|]. intros ->. apply IH.
    vm_compute in Hb. injection Hb as <-. set_solver. }
  by specialize (H1 1 0 Hp eq_refl).
Qed.
