(* ===== verification/SlotBacking.v ===== *)
(** * The slot-backing verifier

    subset_julia_vm_compile/src/compile/slot_backing_verifier.rs: a forward
    dataflow analysis over the control-flow graph that reports every read of a
    local that some path reaches without a store.  The analysis ends, reports
    exactly those reads, and code without reports never finds a slot empty. *)

From S2P Require Export Cfg.

(** ** Locals and accesses *)

Inductive LocalRef :=
  | Name (name : string)
  | Slot (slot : nat).

Inductive Access := Load | Store.

#[export] Instance LocalRef_eq_dec : EqDecision LocalRef.
Proof. solve_decision. Defined.
#[export] Instance Access_eq_dec : EqDecision Access.
Proof. solve_decision. Defined.
#[export] Instance LocalRef_countable : Countable LocalRef.
Proof.
  refine (inj_countable'
    (fun l => match l with Name n => inl n | Slot i => inr i end)
    (fun x => match x with inl n => Name n | inr i => Slot i end) _).
  by intros [].
Defined.

Record SlotBackingViolation := { v_instr : nat; v_block : nat; v_local : LocalRef }.

Definition classify (instr : Instr) : option (LocalRef * Access) :=
  match instr with
  | LoadStr n => Some (Name n, Load)
  | StoreStr n => Some (Name n, Store)
  | LoadI64 n => Some (Name n, Load)
  | StoreI64 n => Some (Name n, Store)
  | LoadF64 n => Some (Name n, Load)
  | StoreF64 n => Some (Name n, Store)
  | LoadF32 n => Some (Name n, Load)
  | StoreF32 n => Some (Name n, Store)
  | LoadF16 n => Some (Name n, Load)
  | StoreF16 n => Some (Name n, Store)
  | LoadBool n => Some (Name n, Load)
  | StoreBool n => Some (Name n, Store)
  | LoadAny n | ProbeRuntimeBinding n => Some (Name n, Load)
  | StoreAny n => Some (Name n, Store)
  | LoadArray n => Some (Name n, Load)
  | StoreArray n => Some (Name n, Store)
  | LoadRange n => Some (Name n, Load)
  | StoreRange n => Some (Name n, Store)
  | LoadStruct n => Some (Name n, Load)
  | StoreStruct n => Some (Name n, Store)
  | LoadRng n => Some (Name n, Load)
  | StoreRng n => Some (Name n, Store)
  | LoadTuple n => Some (Name n, Load)
  | StoreTuple n => Some (Name n, Store)
  | LoadNamedTuple n => Some (Name n, Load)
  | StoreNamedTuple n => Some (Name n, Store)
  | LoadDict n => Some (Name n, Load)
  | StoreDict n => Some (Name n, Store)
  | LoadSet n => Some (Name n, Load)
  | StoreSet n => Some (Name n, Store)
  | LoadMemory n => Some (Name n, Load)
  | StoreMemory n => Some (Name n, Store)
  | LoadSlot i => Some (Slot i, Load)
  | StoreSlot i => Some (Slot i, Store)
  | LoadSlotI64 i => Some (Slot i, Load)
  | StoreSlotI64 i => Some (Slot i, Store)
  | LoadSlotF64 i => Some (Slot i, Load)
  | StoreSlotF64 i => Some (Slot i, Store)
  | LoadSlotBool i => Some (Slot i, Load)
  | StoreSlotBool i => Some (Slot i, Store)
  | LoadSlotF32 i => Some (Slot i, Load)
  | StoreSlotF32 i => Some (Slot i, Store)
  | LoadSlotF16 i => Some (Slot i, Load)
  | StoreSlotF16 i => Some (Slot i, Store)
  | LoadSlotStr i => Some (Slot i, Load)
  | StoreSlotStr i => Some (Slot i, Store)
  | LoadSlotChar i => Some (Slot i, Load)
  | StoreSlotChar i => Some (Slot i, Store)
  | LoadSlotNarrowInt i => Some (Slot i, Load)
  | StoreSlotNarrowInt i => Some (Slot i, Store)
  | LoadSlotNothing i => Some (Slot i, Load)
  | StoreSlotNothing i => Some (Slot i, Store)
  | LoadSlotArray i => Some (Slot i, Load)
  | StoreSlotArray i => Some (Slot i, Store)
  | LoadSlotTuple i => Some (Slot i, Load)
  | StoreSlotTuple i => Some (Slot i, Store)
  | LoadSlotNamedTuple i => Some (Slot i, Load)
  | StoreSlotNamedTuple i => Some (Slot i, Store)
  | LoadSlotDict i => Some (Slot i, Load)
  | StoreSlotDict i => Some (Slot i, Store)
  | LoadSlotSet i => Some (Slot i, Load)
  | StoreSlotSet i => Some (Slot i, Store)
  | LoadSlotStruct i => Some (Slot i, Load)
  | StoreSlotStruct i => Some (Slot i, Store)
  | LoadSlotRange i => Some (Slot i, Load)
  | StoreSlotRange i => Some (Slot i, Store)
  | LoadSlotRng i => Some (Slot i, Load)
  | StoreSlotRng i => Some (Slot i, Store)
  | LoadSlotGenerator i => Some (Slot i, Load)
  | StoreSlotGenerator i => Some (Slot i, Store)
  | LoadSlotSymbol i => Some (Slot i, Load)
  | StoreSlotSymbol i => Some (Slot i, Store)
  | _ => None
  end.

(** ** The analysis *)

(** The instructions of a block. *)
Definition block_code (code : list Instr) (block : BasicBlock) : list Instr :=
  drop (block_start block) (take (block_end block) code).

Definition store_fact (backed : gset LocalRef) (instr : Instr) : gset LocalRef :=
  match classify instr with
  | Some (local, Store) => {[local]} ∪ backed
  | _ => backed
  end.

Definition compute_block_out (code : list Instr) (block : BasicBlock) (in_set : gset LocalRef)
    : gset LocalRef :=
  foldl store_fact in_set (block_code code block).

(** The predecessors of a block of the graph are indices of [out]. *)
Definition meet_predecessors (out : list (gset LocalRef)) (preds : list nat)
    (reachable : gset nat) : gset LocalRef :=
  match (fun p => out !!! p) <$> filter (fun p => p ∈ reachable) preds with
  | [] => ∅
  | first :: rest => foldl (∩) first rest
  end.

Definition successor_step (cfg : ControlFlowGraph) (id : nat) : list nat :=
  match blocks cfg !! id with Some block => successors block | None => [] end.

Definition reachable_block_ids (cfg : ControlFlowGraph) (entry_block : nat) : option (gset nat) :=
  explore (successor_step cfg) (S (length (blocks cfg))) {[entry_block]} [entry_block].

(** One block of one turn of the [while changed] loop, with the flag. *)
Definition update_block (code : list Instr) (entry_block : nat) (reachable : gset nat)
    (state : list (gset LocalRef) * bool) (block : BasicBlock) : list (gset LocalRef) * bool :=
  let '(out, changed) := state in
  if bool_decide (block_id block = entry_block) || negb (bool_decide (block_id block ∈ reachable))
  then (out, changed)
  else
    let in_set := meet_predecessors out (predecessors block) reachable in
    let new_out := compute_block_out code block in_set in
    if bool_decide (new_out = out !!! block_id block) then (out, changed)
    else (<[block_id block := new_out]> out, true).

Fixpoint propagate (fuel : nat) (code : list Instr) (cfg : ControlFlowGraph) (entry_block : nat)
    (reachable : gset nat) (out : list (gset LocalRef)) : option (list (gset LocalRef)) :=
  match fuel with
  | 0 => None
  | S fuel =>
      let '(out, changed) :=
        foldl (update_block code entry_block reachable) (out, false) (blocks cfg) in
      if changed then propagate fuel code cfg entry_block reachable out else Some out
  end.

(** Every local that the code touches. *)
Definition all_locals (code : list Instr) : gset LocalRef :=
  list_to_set (fst <$> omap classify code).

(** Every turn but the last flips one of the facts that a block may have. *)
Definition propagate_fuel (code : list Instr) (cfg : ControlFlowGraph)
    (initially_backed : gset LocalRef) : nat :=
  S (length (blocks cfg) * (size (all_locals code) + size initially_backed)).

(** The final loop over one block. *)
Fixpoint scan_block (first last id idx : nat) (instrs : list Instr) (backed : gset LocalRef)
    : list SlotBackingViolation :=
  match instrs with
  | [] => []
  | instr :: instrs =>
      match classify instr with
      | Some (local, Load) =>
          (if bool_decide (first <= idx < last) && negb (bool_decide (local ∈ backed))
           then [{| v_instr := idx; v_block := id; v_local := local |}] else []) ++
          scan_block first last id (S idx) instrs backed
      | Some (local, Store) => scan_block first last id (S idx) instrs ({[local]} ∪ backed)
      | None => scan_block first last id (S idx) instrs backed
      end
  end.

Definition report_block (code : list Instr) (entry_block : nat) (reachable : gset nat)
    (first last : nat) (initially_backed : gset LocalRef) (out : list (gset LocalRef))
    (block : BasicBlock) : list SlotBackingViolation :=
  if negb (bool_decide (block_id block ∈ reachable)) then []
  else if bool_decide (block_end block <= first) || bool_decide (last <= block_start block) then []
  else
    let backed :=
      if bool_decide (block_id block = entry_block) then initially_backed
      else meet_predecessors out (predecessors block) reachable in
    scan_block first last (block_id block) (block_start block) (block_code code block) backed.

(** [None] when a loop runs out of fuel; [first..last] is [report_range]. *)
Definition verify_slot_backing_range (code : list Instr) (entry_instr first last : nat)
    (initially_backed : gset LocalRef) : option (list SlotBackingViolation) :=
  let cfg := build code in
  match blocks cfg with
  | [] => Some []
  | _ =>
      match block_for_instr cfg entry_instr with
      | None => Some []
      | Some entry_block =>
          reachable ← reachable_block_ids cfg entry_block;
          block ← blocks cfg !! entry_block;
          let out := <[entry_block := compute_block_out code block initially_backed]>
                       (replicate (length (blocks cfg)) (all_locals code)) in
          out ← propagate (propagate_fuel code cfg initially_backed) code cfg entry_block
                  reachable out;
          Some (blocks cfg ≫=
            report_block code entry_block reachable first last initially_backed out)
      end
  end.

Definition verify_slot_backing (code : list Instr) (initially_backed : gset LocalRef)
    : option (list SlotBackingViolation) :=
  verify_slot_backing_range code 0 0 (length code) initially_backed.

(** ** One block *)

(** [local] is stored somewhere in [instrs]. *)
Definition stored_in (instrs : list Instr) (local : LocalRef) : Prop :=
  Exists (fun instr => classify instr = Some (local, Store)) instrs.

#[export] Instance stored_in_dec instrs local : Decision (stored_in instrs local).
Proof. unfold stored_in. apply _. Defined.

Lemma stored_in_nil local : ~ stored_in [] local.
Proof. by intros ?%Exists_nil. Qed.

Lemma store_fact_elem backed instr local :
  local ∈ store_fact backed instr <->
  local ∈ backed \/ classify instr = Some (local, Store).
Proof.
  unfold store_fact. destruct (classify instr) as [[l []]|] eqn:E.
  - split; [by left|]. by intros [?|[=]].
  - rewrite elem_of_union, elem_of_singleton. split; [intros [->|?]; auto|].
    intros [?|[= ->]]; auto.
  - split; [by left|]. by intros [?|?].
Qed.

Lemma store_facts_elem instrs backed local :
  local ∈ foldl store_fact backed instrs <-> local ∈ backed \/ stored_in instrs local.
Proof.
  revert backed. unfold stored_in. induction instrs as [|instr instrs IH]; intros backed; simpl.
  - rewrite Exists_nil. tauto.
  - rewrite IH, store_fact_elem, Exists_cons. tauto.
Qed.

Lemma compute_block_out_elem code block in_set local :
  local ∈ compute_block_out code block in_set <->
  local ∈ in_set \/ stored_in (block_code code block) local.
Proof. apply store_facts_elem. Qed.

Lemma meet_elem_list (sets : list (gset LocalRef)) acc local :
  local ∈ foldl (∩) acc sets <-> local ∈ acc /\ forall X, X ∈ sets -> local ∈ X.
Proof.
  revert acc. induction sets as [|X sets IH]; intros acc; simpl.
  - split; [|by intros []]. intros Ha. split; [done|]. by intros X ?%elem_of_nil.
  - rewrite IH, elem_of_intersection. split.
    + intros [[Ha HX] Hs]. split; [done|]. by intros Y [->|HY]%elem_of_cons; [|apply Hs].
    + intros [Ha Hs]. split_and!; [done|apply Hs; by left|]. intros Y HY. apply Hs. by right.
Qed.

Lemma meet_elem out preds reachable local :
  local ∈ meet_predecessors out preds reachable <->
  (exists p, p ∈ preds /\ p ∈ reachable) /\
  forall p, p ∈ preds -> p ∈ reachable -> local ∈ out !!! p.
Proof.
  unfold meet_predecessors.
  destruct (filter (fun p => p ∈ reachable) preds) as [|p ps] eqn:E; simpl.
  - split; [by intros ?%elem_of_empty|]. intros [(p & Hp & Hr) _].
    assert (p ∈ filter (fun p => p ∈ reachable) preds) as Hin by by apply list_elem_of_filter.
    rewrite E in Hin. by apply elem_of_nil in Hin.
  - assert (forall q, q ∈ p :: ps <-> q ∈ preds /\ q ∈ reachable) as Hq.
    { intros q. rewrite <- E, list_elem_of_filter. tauto. }
    rewrite meet_elem_list. split.
    + intros [H1 H2]. split; [exists p; apply Hq; by left|]. intros q Hq1 Hq2.
      assert (q ∈ p :: ps) as [->|Hin]%elem_of_cons by by apply Hq.
      * done.
      * apply H2. by apply (list_elem_of_fmap_2 (fun p => out !!! p)).
    + intros [_ H]. split; [apply H; apply Hq; by left|].
      intros X (q & -> & Hin)%list_elem_of_fmap. apply H; apply Hq; by right.
Qed.

(** ** Reachable blocks *)

Lemma successor_step_follows code u v :
  v ∈ successor_step (build code) u <-> follows (build code) u v.
Proof.
  unfold successor_step, follows. destruct (blocks _ !! u) as [b|] eqn:E; [|set_solver].
  split; [eauto|]. by intros (b' & [= <-] & Hv).
Qed.

Lemma reachable_ends code entry :
  entry < length (blocks (build code)) -> is_Some (reachable_block_ids (build code) entry).
Proof.
  intros He. apply (explore_total _ (set_seq 0 (length (blocks (build code))))).
  - intros u v Hv%successor_step_follows%successor_in_range. apply elem_of_set_seq. lia.
  - cbn [length]. etrans; [apply Nat.add_le_mono_l, subseteq_size|].
    + apply subseteq_difference_l. reflexivity.
    + rewrite size_set_seq. lia.
Qed.

Lemma reachable_spec code entry reachable x :
  reachable_block_ids (build code) entry = Some reachable ->
  x ∈ reachable <-> rtc (follows (build code)) entry x.
Proof.
  intros Hr. unfold reachable_block_ids in Hr.
  assert (forall y, y ∈ [entry] -> y ∈ ({[entry]} : gset nat)) as Hst by set_solver.
  apply (explore_spec _ _ _ Hst _ _ x) in Hr. rewrite Hr.
  assert (forall u v, edge (successor_step (build code)) ({[entry]} ∖ list_to_set [entry]) u v <->
    follows (build code) u v) as He.
  { intros u v. unfold edge. rewrite successor_step_follows. set_solver. }
  split.
  - intros [->%elem_of_singleton|(u & ->%list_elem_of_singleton & Hp)]; [constructor|].
    eapply rtc_subrel; [|exact Hp]. intros u v. by apply He.
  - intros Hp. right. exists entry. split; [by left|].
    eapply rtc_subrel; [|exact Hp]. intros u v. by apply He.
Qed.

(** ** Paths without a store *)

Section Paths.
Variable code : list Instr.
Variable entry : nat.
Variable init : gset LocalRef.

Abbreviation cfg := (build code).

(** Some path along the blocks from the start of the entry block to the start of
    a block stores nothing in [local], which is not backed on entry. *)
Inductive unbacked (local : LocalRef) : nat -> Prop :=
  | unbacked_entry : local ∉ init -> unbacked local entry
  | unbacked_follow p bp b :
      unbacked local p -> blocks cfg !! p = Some bp -> b ∈ successors bp ->
      ~ stored_in (block_code code bp) local -> unbacked local b.

Lemma unbacked_init local b : unbacked local b -> local ∉ init.
Proof. by induction 1. Qed.

Lemma unbacked_reachable local b : unbacked local b -> rtc (follows cfg) entry b.
Proof.
  induction 1 as [|p bp b _ IH Hp Hb _]; [constructor|]. eapply rtc_r; [exact IH|]. by exists bp.
Qed.

(** ** The fixpoint *)

Section Dataflow.
Variable reachable : gset nat.
Variable entry_block : BasicBlock.
Hypothesis Hreachable : forall x, x ∈ reachable <-> rtc (follows cfg) entry x.
Hypothesis Hentry : blocks cfg !! entry = Some entry_block.

Abbreviation D := (all_locals code).
Abbreviation transfer out b :=
  (compute_block_out code b (meet_predecessors out (predecessors b) reachable)).
Abbreviation update := (update_block code entry reachable).

(** Facts about locals of the code are only lost, all others only gained. *)
Definition below (X Y : gset LocalRef) : Prop := X ∩ D ⊆ Y /\ Y ∖ D ⊆ X.

(** The blocks that the loop updates. *)
Definition active (b : nat) : Prop := b <> entry /\ b ∈ reachable.

Record propagation (out : list (gset LocalRef)) : Prop := {
  prop_length : length out = length (blocks cfg);
  prop_support b : out !!! b ⊆ D ∪ init;
  prop_entry : out !!! entry = compute_block_out code entry_block init;
  prop_below b block : blocks cfg !! b = Some block -> active b -> below (transfer out block) (out !!! b);
  prop_path b block local : blocks cfg !! b = Some block -> b ∈ reachable ->
    local ∈ D -> local ∉ out !!! b -> unbacked local b /\ ~ stored_in (block_code code block) local
}.

(** How many facts can still flip. *)
Definition flips (X : gset LocalRef) : nat := size (X ∩ D) + size ((init ∖ D) ∖ X).
Definition measure (out : list (gset LocalRef)) : nat := sum_list_with flips out.

Lemma below_mono out out' b :
  (forall p, below (out !!! p) (out' !!! p)) -> below (transfer out b) (transfer out' b).
Proof.
  intros Hb. split; intros L HL.
  - apply elem_of_intersection in HL as [HL HD]. apply compute_block_out_elem.
    apply compute_block_out_elem in HL as [HL|HL]; [left|by right].
    apply meet_elem in HL as [Hex Hall]. apply meet_elem. split; [done|]. intros p Hp Hr.
    apply (Hb p). apply elem_of_intersection. split; [by apply Hall|done].
  - apply elem_of_difference in HL as [HL HD]. apply compute_block_out_elem.
    apply compute_block_out_elem in HL as [HL|HL]; [left|by right].
    apply meet_elem in HL as [Hex Hall]. apply meet_elem. split; [done|]. intros p Hp Hr.
    apply (Hb p). apply elem_of_difference. split; [by apply Hall|done].
Qed.

Lemma stored_in_locals block local : stored_in (block_code code block) local -> local ∈ D.
Proof.
  unfold stored_in, block_code, all_locals. rewrite Exists_exists. intros (instr & Hin & Hc).
  apply elem_of_list_to_set, list_elem_of_fmap. exists (local, Store). split; [done|].
  apply list_elem_of_omap. exists instr. split; [|done].
  assert (drop (block_start block) (take (block_end block) code) ⊆ code) as Hsub; [|by apply Hsub].
  etrans; [apply sublist_subseteq, sublist_drop|apply sublist_subseteq, sublist_take].
Qed.

Lemma flips_less X Y :
  X ⊆ D ∪ init -> Y ⊆ D ∪ init -> below Y X -> Y <> X -> flips Y < flips X.
Proof.
  intros HX HY [Hd Hu] Hne. unfold flips.
  assert (Y ∩ D ⊆ X ∩ D) as H1 by set_solver.
  assert ((init ∖ D) ∖ Y ⊆ (init ∖ D) ∖ X) as H2 by set_solver.
  pose proof (subseteq_size _ _ H1). pose proof (subseteq_size _ _ H2).
  destruct (decide (X ∩ D ⊆ Y ∩ D)) as [E1|E1].
  - destruct (decide ((init ∖ D) ∖ X ⊆ (init ∖ D) ∖ Y)) as [E2|E2].
    + exfalso. apply Hne. apply set_eq. intros L. specialize (HX L). specialize (HY L).
      specialize (Hd L). specialize (Hu L). specialize (E1 L). specialize (E2 L).
      rewrite !elem_of_intersection in *. rewrite !elem_of_difference in *. rewrite !elem_of_union in *.
      destruct (decide (L ∈ D)), (decide (L ∈ X)), (decide (L ∈ Y)); tauto.
    + assert (size ((init ∖ D) ∖ Y) < size ((init ∖ D) ∖ X)); [|lia].
      apply subset_size. by split.
  - assert (size (Y ∩ D) < size (X ∩ D)); [|lia]. apply subset_size. by split.
Qed.

Lemma measure_insert out b X :
  b < length out -> flips X < flips (out !!! b) -> measure (<[b := X]> out) < measure out.
Proof.
  unfold measure. intros Hb Hf. rewrite <- (take_drop_middle out b (out !!! b)) at 2
    by (by apply list_lookup_lookup_total_lt).
  rewrite insert_take_drop by done. rewrite !sum_list_with_app. simpl. lia.
Qed.
(** A fact that the predecessors do not agree on is missing along one of them. *)
Lemma no_meet_path out b block local :
  (forall b block local, blocks cfg !! b = Some block -> b ∈ reachable ->
    local ∈ D -> local ∉ out !!! b ->
    unbacked local b /\ ~ stored_in (block_code code block) local) ->
  blocks cfg !! b = Some block -> active b -> local ∈ D ->
  local ∉ meet_predecessors out (predecessors block) reachable -> unbacked local b.
Proof.
  intros Hp Hb [Hne Hr] HD Hn. rewrite meet_elem in Hn.
  assert (exists q, q ∈ predecessors block /\ q ∈ reachable) as Hex.
  { apply Hreachable, rtc_inv_r in Hr as [->|(q & Hq & Hf)]; [done|]. exists q.
    split; [|by apply Hreachable]. by apply (predecessor_spec code b block). }
  destruct (decide (Exists (fun q => q ∈ reachable /\ local ∉ out !!! q) (predecessors block)))
    as [He|He].
  - apply Exists_exists in He as (q & Hq & Hqr & Hqn).
    apply (predecessor_spec code b block) in Hq as (bq & Hbq & Hs); [|done].
    destruct (Hp q bq local Hbq Hqr HD Hqn) as [Hu Hst]. by eapply unbacked_follow.
  - exfalso. apply Hn. split; [done|]. intros q Hq Hqr. destruct (decide (local ∈ out !!! q)); [done|].
    exfalso. apply He, Exists_exists. by exists q.
Qed.

(** The new facts of an active block, put in place of the old ones. *)
Lemma propagation_insert out b block :
  propagation out -> blocks cfg !! b = Some block -> active b ->
  propagation (<[b := transfer out block]> out).
Proof.
  intros [Hl Hs He Hb Hp] Hblock Ha. set (X := transfer out block).
  assert (b < length out) as Hlt by (rewrite Hl; by eapply lookup_lt_Some).
  assert (forall p, below (<[b := X]> out !!! p) (out !!! p)) as Hbelow.
  { intros p. destruct (decide (p = b)) as [->|Hne].
    - rewrite list_lookup_total_insert_eq by done. by apply Hb.
    - rewrite list_lookup_total_insert_ne by done. split; set_solver. }
  constructor.
  - by rewrite length_insert.
  - intros p. destruct (decide (p = b)) as [->|Hne].
    + rewrite list_lookup_total_insert_eq by done. intros L HL.
      apply compute_block_out_elem in HL as [HL|HL]; [|apply elem_of_union_l; by eapply stored_in_locals].
      apply meet_elem in HL as [(q & Hq & Hr) HL]. by eapply Hs, HL.
    + rewrite list_lookup_total_insert_ne by done. apply Hs.
  - rewrite list_lookup_total_insert_ne by apply Ha. done.
  - intros p bp Hbp Hap. pose proof (below_mono _ _ bp Hbelow) as Hm.
    destruct (decide (p = b)) as [->|Hne].
    + rewrite list_lookup_total_insert_eq by done. rewrite Hblock in Hbp. by injection Hbp as <-.
    + rewrite list_lookup_total_insert_ne by done. destruct Hm as [M1 M2], (Hb p bp Hbp Hap) as [B1 B2].
      split; set_solver.
  - intros p bp local Hbp Hr HD Hn. destruct (decide (p = b)) as [->|Hne];
      [|rewrite list_lookup_total_insert_ne in Hn by done; by eapply Hp].
    rewrite list_lookup_total_insert_eq in Hn by done. rewrite Hblock in Hbp. injection Hbp as <-.
    unfold X in Hn. rewrite compute_block_out_elem in Hn. split; [|tauto].
    apply (no_meet_path out b block); try done; tauto.
Qed.

(** One turn over some blocks: either nothing has changed, and every active block
    has the facts it should have, or a fact has flipped. *)
Lemma update_all (bs : list BasicBlock) out changed :
  (forall b, b ∈ bs -> blocks cfg !! block_id b = Some b) -> propagation out ->
  let '(out', changed') := foldl update (out, changed) bs in
  propagation out' /\
  ((out' = out /\ changed' = changed /\
    (forall b, b ∈ bs -> active (block_id b) -> out !!! block_id b = transfer out b)) \/
   (measure out' < measure out /\ changed' = true)).
Proof.
  revert out changed. induction bs as [|b bs IH]; intros out changed Hbs Hp; cbn [foldl].
  { split; [done|]. left. split_and!; [done|done|]. by intros b ?%elem_of_nil. }
  pose proof (Hbs b ltac:(by left)) as Hb.
  assert (forall c, c ∈ bs -> blocks cfg !! block_id c = Some c) as Hbs' by (intros; apply Hbs; by right).
  unfold update_block at 2. destruct (_ || _) eqn:Hskip.
  { specialize (IH out changed Hbs' Hp). destruct (foldl _ _ _) as [out' changed'].
    destruct IH as [Hp' [(-> & -> & Hall)|Hm]]; (split; [done|]); [left|by right].
    split_and!; [done|done|]. intros c [->|Hc]%elem_of_cons Ha; [|by apply Hall]. exfalso.
    destruct Ha as [Ha1 Ha2]. by rewrite bool_decide_false, bool_decide_true in Hskip. }
  apply orb_false_iff in Hskip as [H1%bool_decide_eq_false H2%negb_false_iff%bool_decide_eq_true].
  case_bool_decide as Heq.
  { specialize (IH out changed Hbs' Hp). destruct (foldl _ _ _) as [out' changed'].
    destruct IH as [Hp' [(-> & -> & Hall)|Hm]]; (split; [done|]); [left|by right].
    split_and!; [done|done|]. intros c [->|Hc]%elem_of_cons Ha; [done|by apply Hall]. }
  assert (active (block_id b)) as Ha by done.
  specialize (IH _ true Hbs' (propagation_insert out _ b Hp Hb Ha)).
  assert (measure (<[block_id b := transfer out b]> out) < measure out) as Hless.
  { destruct (propagation_insert out _ b Hp Hb Ha) as [_ Hs' _ _ _].
    destruct Hp as [Hl Hs He Hbl _].
    assert (block_id b < length out) as Hlt by (rewrite Hl; by eapply lookup_lt_Some).
    apply measure_insert; [done|]. apply flips_less; [done| |by apply Hbl|done].
    specialize (Hs' (block_id b)). by rewrite list_lookup_total_insert_eq in Hs'. }
  destruct (foldl _ _ _) as [out' changed']. destruct IH as [Hp' [(-> & -> & _)|[Hm ->]]];
    (split; [done|]); right; (split; [|done]); lia.
Qed.

Lemma own_blocks b : b ∈ blocks cfg -> blocks cfg !! block_id b = Some b.
Proof. intros [idx Hb]%list_elem_of_lookup. by rewrite (build_block_id _ _ _ Hb). Qed.

(** The loop ends at a fixpoint. *)
Lemma propagate_spec fuel out :
  propagation out -> measure out < fuel ->
  exists out', propagate fuel code cfg entry reachable out = Some out' /\ propagation out' /\
    forall b block, blocks cfg !! b = Some block -> active b -> out' !!! b = transfer out' block.
Proof.
  revert out. induction fuel as [|fuel IH]; intros out Hp Hm; [lia|]. cbn [propagate].
  pose proof (update_all (blocks cfg) out false own_blocks Hp) as Hu.
  destruct (foldl _ _ _) as [out' changed']. destruct Hu as [Hp' [(-> & -> & Hall)|[Hless ->]]].
  - exists out. split_and!; [done|done|]. intros b block Hb Ha.
    pose proof (build_block_id _ _ _ Hb) as Hid. subst b. apply Hall; [by eapply list_elem_of_lookup_2|done].
  - apply IH; [done|lia].
Qed.

Abbreviation start_facts :=
  (<[entry := compute_block_out code entry_block init]> (replicate (length (blocks cfg)) D)).

Lemma start_lookup b :
  b <> entry -> b < length (blocks cfg) -> start_facts !!! b = D.
Proof.
  intros Hne Hlt. rewrite list_lookup_total_insert_ne by done.
  by apply lookup_total_replicate_2.
Qed.

Lemma start_propagation : propagation start_facts.
Proof.
  pose proof (lookup_lt_Some _ _ _ Hentry) as Hlt.
  assert (start_facts !!! entry = compute_block_out code entry_block init) as He.
  { apply list_lookup_total_insert_eq. by rewrite length_replicate. }
  constructor.
  - by rewrite length_insert, length_replicate.
  - intros b. destruct (decide (b = entry)) as [->|Hne].
    + rewrite He. intros L [HL|HL]%compute_block_out_elem;
        [by apply elem_of_union_r|apply elem_of_union_l; by eapply stored_in_locals].
    + rewrite list_lookup_total_insert_ne by done.
      destruct (decide (b < length (blocks cfg))) as [Hb|Hb].
      * rewrite lookup_total_replicate_2 by done. set_solver.
      * rewrite list_lookup_total_alt, lookup_ge_None_2; [|rewrite length_replicate; lia].
        apply empty_subseteq.
  - exact He.
  - intros b block Hb [Hne Hr]. rewrite (start_lookup b Hne) by by eapply lookup_lt_Some.
    split; set_solver.
  - intros b block local Hb Hr HD Hn. destruct (decide (b = entry)) as [->|Hne].
    + rewrite He, compute_block_out_elem in Hn. rewrite Hentry in Hb. injection Hb as <-.
      split; [constructor|]; tauto.
    + by rewrite (start_lookup b Hne) in Hn by by eapply lookup_lt_Some.
Qed.

Lemma sum_list_bound {A} (f : A -> nat) (l : list A) n :
  (forall x, x ∈ l -> f x <= n) -> sum_list_with f l <= length l * n.
Proof.
  induction l as [|x l IH]; simpl; [done|]. intros Hf.
  pose proof (Hf x ltac:(by left)). assert (sum_list_with f l <= length l * n); [|lia].
  apply IH. intros y Hy. apply Hf. by right.
Qed.

Lemma start_fuel : measure start_facts < propagate_fuel code cfg init.
Proof.
  unfold measure, propagate_fuel. apply Nat.lt_succ_r.
  replace (length (blocks cfg)) with (length start_facts) at 2
    by (by rewrite length_insert, length_replicate).
  apply sum_list_bound. intros X _. unfold flips.
  assert (X ∩ D ⊆ D) as H1 by set_solver. assert ((init ∖ D) ∖ X ⊆ init) as H2 by set_solver.
  pose proof (subseteq_size _ _ H1). pose proof (subseteq_size _ _ H2). lia.
Qed.

(** What is backed at the start of a block. *)
Definition backed_at (out : list (gset LocalRef)) (b : nat) (block : BasicBlock) : gset LocalRef :=
  if bool_decide (b = entry) then init else meet_predecessors out (predecessors block) reachable.

(** At the fixpoint a local of the code is missing at the start of a block
    exactly when some path leaves it without a store. *)
Lemma backed_spec out :
  propagation out ->
  (forall b block, blocks cfg !! b = Some block -> active b -> out !!! b = transfer out block) ->
  forall b block local, blocks cfg !! b = Some block -> b ∈ reachable -> local ∈ D ->
    local ∉ backed_at out b block <-> unbacked local b.
Proof.
  intros Hprop Hfix b block local Hb Hr HD. unfold backed_at. split.
  - case_bool_decide as Hbe; [subst b; by constructor|].
    intros Hn. eapply (no_meet_path out b); [apply Hprop|exact Hb|done|exact HD|exact Hn].
  - intros Hu. revert block Hb Hr. induction Hu as [Hn|p bp b Hu IH Hbp Hs Hst]; intros block Hb Hr.
    + by rewrite bool_decide_true.
    + assert (p ∈ reachable) as Hpr by by apply Hreachable, (unbacked_reachable local).
      specialize (IH bp Hbp Hpr). destruct (decide (b = entry)) as [Hbe|Hbe].
      { rewrite bool_decide_true by done. by apply (unbacked_init local p). }
      rewrite (bool_decide_false (b = entry)) by done.
      rewrite meet_elem. intros [_ Hall].
      assert (local ∈ out !!! p) as Hin.
      { apply Hall; [|done]. apply (predecessor_spec code b block); [done|]. eauto. }
      assert (out !!! p = compute_block_out code bp (if bool_decide (p = entry) then init
        else meet_predecessors out (predecessors bp) reachable)) as Ho.
      { case_bool_decide as Hpe; [|by apply Hfix]. subst p. rewrite Hentry in Hbp.
        injection Hbp as <-. apply Hprop. }
      rewrite Ho in Hin. apply compute_block_out_elem in Hin. tauto.
Qed.
End Dataflow.
End Paths.

(** ** Paths of instructions *)

(** Control can come from [entry_instr] to an address without a store in
    [local], which is not backed on entry. *)
Inductive unbacked_at (code : list Instr) (entry_instr : nat) (init : gset LocalRef)
    (local : LocalRef) : nat -> Prop :=
  | unbacked_start : local ∉ init -> unbacked_at code entry_instr init local entry_instr
  | unbacked_step i instr t :
      unbacked_at code entry_instr init local i -> code !! i = Some instr ->
      classify instr <> Some (local, Store) -> t ∈ flow instr i -> t < length code ->
      unbacked_at code entry_instr init local t.

(** The instructions from [first] up to but not including [last]. *)
Definition segment (code : list Instr) (first last : nat) : list Instr := drop first (take last code).

Lemma segment_empty code i : segment code i i = [].
Proof. unfold segment. apply drop_ge. rewrite length_take. lia. Qed.

Lemma segment_S code first i instr :
  first <= i -> code !! i = Some instr -> segment code first (S i) = segment code first i ++ [instr].
Proof.
  intros Hle Hi. unfold segment. rewrite (take_S_r _ _ _ Hi), drop_app_le; [done|].
  rewrite length_take. apply lookup_lt_Some in Hi. lia.
Qed.

Lemma stored_segment_S code first i instr local :
  first <= i -> code !! i = Some instr ->
  stored_in (segment code first (S i)) local <->
  stored_in (segment code first i) local \/ classify instr = Some (local, Store).
Proof.
  intros Hle Hi. rewrite (segment_S _ _ _ _ Hle Hi). unfold stored_in.
  rewrite Exists_app, Exists_cons, Exists_nil. tauto.
Qed.

Lemma falls_flow instr i : falls_through instr = true -> S i ∈ flow instr i.
Proof. intros Hf. unfold flow. rewrite Hf. set_solver. Qed.

Section Instructions.
Variable code : list Instr.
Variable entry : nat.
Variable entry_block : BasicBlock.
Variable init : gset LocalRef.
Hypothesis Hentry : blocks (build code) !! entry = Some entry_block.

Abbreviation at_instr := (unbacked_at code (block_start entry_block) init).

(** Along a block. *)
Lemma unbacked_along local b block i :
  blocks (build code) !! b = Some block -> block_start block <= i < block_end block ->
  at_instr local (block_start block) -> ~ stored_in (segment code (block_start block) i) local ->
  at_instr local i.
Proof.
  intros Hb Hi Hs. pose proof (block_bounds _ _ _ Hb) as Hbd.
  induction i as [|i IH]; intros Hst; [by replace 0 with (block_start block) by lia|].
  destruct (decide (S i = block_start block)) as [E|Hne]; [by rewrite E|].
  destruct (lookup_lt_is_Some_2 code i) as [instr Hc]; [lia|].
  rewrite stored_segment_S in Hst; [|lia|exact Hc].
  destruct (inside_block code b block i instr Hb) as (_ & Hf & _); [lia|lia|done|].
  eapply unbacked_step; [apply IH; [lia|tauto]|exact Hc|tauto|by apply falls_flow|lia].
Qed.

Lemma unbacked_block_start local b block :
  unbacked code entry init local b -> blocks (build code) !! b = Some block ->
  at_instr local (block_start block).
Proof.
  intros Hu. revert block. induction Hu as [Hn|p bp b Hu IH Hp Hs Hst]; intros block Hb.
  { rewrite Hentry in Hb. injection Hb as <-. by constructor. }
  pose proof (block_bounds _ _ _ Hp) as Hbd.
  destruct (build_lookup _ _ _ Hp) as (_ & _ & _ & Hsucc & _).
  destruct (lookup_lt_is_Some_2 code (block_end bp - 1)) as [instr Hc]; [lia|].
  rewrite Hsucc in Hs. apply (block_successors_elem _ _ _ instr) in Hs as (t & Ht & Hitb);
    [|lia|done].
  destruct (build_nonempty code (block_end bp - 1)) as [Heq _]; [lia|].
  assert (t < length code) as Hlt.
  { apply lookup_lt_Some in Hitb. by rewrite instr_to_block_length in Hitb. }
  destruct (flow_edge code _ instr t Hc Ht Hlt) as (b1 & block1 & _ & Hb1 & Hin1 & Hcase).
  assert (b1 = p) as ->.
  { eapply (block_of_unique code (block_end bp - 1)); [exact Hb1|exact Hin1|exact Hp|lia]. }
  rewrite Hp in Hb1. injection Hb1 as <-.
  destruct Hcase as [?|(_ & b2 & block2 & _ & Hb2 & Hf2 & Hst2)]; [lia|].
  unfold block_for_instr in Hf2. rewrite Heq, Hitb in Hf2. injection Hf2 as <-.
  rewrite Hb in Hb2. injection Hb2 as <-. rewrite Hst2.
  assert (stored_in (segment code (block_start bp) (block_end bp)) local <->
    stored_in (segment code (block_start bp) (block_end bp - 1)) local \/
    classify instr = Some (local, Store)) as Hseg.
  { replace (block_end bp) with (S (block_end bp - 1)) at 1 by lia.
    apply stored_segment_S; [lia|done]. }
  unfold block_code in Hst. fold (segment code (block_start bp) (block_end bp)) in Hst.
  eapply unbacked_step; [|exact Hc|tauto|exact Ht|exact Hlt].
  apply (unbacked_along local p bp); [done|lia|by apply IH|tauto].
Qed.

(** The paths of instructions are the paths of blocks. *)
Lemma unbacked_at_block local b block i :
  blocks (build code) !! b = Some block -> block_start block <= i < block_end block ->
  at_instr local i <->
  unbacked code entry init local b /\ ~ stored_in (segment code (block_start block) i) local.
Proof.
  intros Hb Hi. split; [|intros [Hu Hs]; eapply unbacked_along; eauto using unbacked_block_start].
  intros Hu. revert b block Hb Hi. induction Hu as [Hn|i instr t Hu IH Hc Hst Ht Hlt];
    intros b block Hb Hi.
  - pose proof (block_bounds _ _ _ Hentry) as Hbd.
    assert (b = entry) as -> by (eapply (block_of_unique code (block_start entry_block));
      [exact Hb|done|exact Hentry|lia]).
    rewrite Hentry in Hb. injection Hb as <-. rewrite segment_empty. split; [by constructor|].
    apply stored_in_nil.
  - destruct (flow_edge code i instr t Hc Ht Hlt) as (b1 & block1 & _ & Hb1 & Hin1 & Hcase).
    destruct (IH b1 block1 Hb1 Hin1) as [Hu1 Hs1].
    pose proof (stored_segment_S code (block_start block1) i instr local ltac:(lia) Hc) as Hseg.
    destruct Hcase as [[-> Hin]|(Hend & b2 & block2 & Hsucc & Hb2 & _ & Hst2)].
    + assert (b = b1) as -> by (eapply (block_of_unique code (S i)); [exact Hb|lia|exact Hb1|lia]).
      rewrite Hb1 in Hb. injection Hb as <-. split; [done|tauto].
    + pose proof (block_bounds _ _ _ Hb2) as Hbd2.
      assert (b = b2) as -> by (eapply (block_of_unique code t); [exact Hb|done|exact Hb2|lia]).
      rewrite Hb2 in Hb. injection Hb as <-. rewrite Hst2, segment_empty.
      split; [|apply stored_in_nil].
      eapply unbacked_follow; [exact Hu1|exact Hb1|done|]. unfold block_code.
      fold (segment code (block_start block1) (block_end block1)). rewrite <- Hend. tauto.
Qed.
End Instructions.

(** ** The report *)

Lemma scan_block_elem first last id idx instrs backed v :
  v ∈ scan_block first last id idx instrs backed <->
  exists k instr, instrs !! k = Some instr /\ classify instr = Some (v_local v, Load) /\
    v_instr v = idx + k /\ v_block v = id /\ first <= idx + k < last /\
    v_local v ∉ backed /\ ~ stored_in (take k instrs) (v_local v).
Proof.
  revert idx backed. induction instrs as [|instr instrs IH]; intros idx backed; simpl.
  { split; [by intros ?%elem_of_nil|]. by intros (k & i & Hk & _). }
  assert (forall backed', (forall l, l ∈ backed' <-> l ∈ backed \/ classify instr = Some (l, Store)) ->
    v ∈ scan_block first last id (S idx) instrs backed' <->
    exists k i, (instr :: instrs) !! S k = Some i /\ classify i = Some (v_local v, Load) /\
      v_instr v = idx + S k /\ v_block v = id /\ first <= idx + S k < last /\
      v_local v ∉ backed /\ ~ stored_in (take (S k) (instr :: instrs)) (v_local v)) as Hrest.
  { intros backed' Hb. rewrite IH. apply exist_proper. intros k. apply exist_proper. intros i.
    simpl. unfold stored_in at 2. rewrite Exists_cons. fold (stored_in (take k instrs) (v_local v)).
    rewrite Hb. rewrite <- Nat.add_succ_comm. tauto. }
  assert ((exists k i, (instr :: instrs) !! k = Some i /\ classify i = Some (v_local v, Load) /\
      v_instr v = idx + k /\ v_block v = id /\ first <= idx + k < last /\
      v_local v ∉ backed /\ ~ stored_in (take k (instr :: instrs)) (v_local v)) <->
    (classify instr = Some (v_local v, Load) /\ v_instr v = idx /\ v_block v = id /\
      first <= idx < last /\ v_local v ∉ backed) \/
    (exists k i, (instr :: instrs) !! S k = Some i /\ classify i = Some (v_local v, Load) /\
      v_instr v = idx + S k /\ v_block v = id /\ first <= idx + S k < last /\
      v_local v ∉ backed /\ ~ stored_in (take (S k) (instr :: instrs)) (v_local v))) as Hsplit.
  { split.
    - intros ([|k] & i & Hk & Hc & Hv & Hi & Hr & Hn & Hs); [left|right; eauto 10].
      simpl in Hk. injection Hk as ->. rewrite Nat.add_0_r in *. done.
    - intros [(Hc & Hv & Hi & Hr & Hn)|(k & i & H)]; [|by exists (S k), i].
      exists 0, instr. rewrite Nat.add_0_r. split_and!; try done; try lia.
      simpl. apply stored_in_nil. }
  rewrite Hsplit. destruct (classify instr) as [[l []]|] eqn:Hc.
  - rewrite elem_of_app, Hrest by (intros ?; split; [by left|by intros [?|[=]]]).
    apply or_iff_compat_r. destruct (bool_decide _) eqn:Hr; simpl.
    + apply bool_decide_eq_true in Hr. case_bool_decide as Hb; simpl.
      * split; [by intros ?%elem_of_nil|]. by intros ([= ->] & _ & _ & _ & ?).
      * rewrite list_elem_of_singleton. split; [by intros ->|].
        intros ([= ->] & <- & <- & _). by destruct v.
    + apply bool_decide_eq_false in Hr. split; [by intros ?%elem_of_nil|]. by intros (_ & _ & _ & ? & _).
  - rewrite Hrest; [split; [by right|by intros [[[=] _]|?]]|].
    intros l'. rewrite elem_of_union, elem_of_singleton. split; [intros [->|?]; auto|].
    intros [?|[= ->]]; auto.
  - rewrite Hrest; [split; [by right|by intros [[[=] _]|?]]|].
    intros l'. split; [by left|by intros [?|[=]]].
Qed.

Lemma classified_local code i instr local access :
  code !! i = Some instr -> classify instr = Some (local, access) -> local ∈ all_locals code.
Proof.
  intros Hi Hc. unfold all_locals. apply elem_of_list_to_set, list_elem_of_fmap.
  exists (local, access). split; [done|]. apply list_elem_of_omap. exists instr.
  split; [by eapply list_elem_of_lookup_2|done].
Qed.

Lemma report_block_elem code entry reachable first last init out b block v :
  blocks (build code) !! b = Some block ->
  v ∈ report_block code entry reachable first last init out block <->
  b ∈ reachable /\ v_block v = b /\ block_start block <= v_instr v < block_end block /\
  first <= v_instr v < last /\
  (exists instr, code !! v_instr v = Some instr /\ classify instr = Some (v_local v, Load)) /\
  v_local v ∉ backed_at entry init reachable out b block /\
  ~ stored_in (segment code (block_start block) (v_instr v)) (v_local v).
Proof.
  intros Hb. pose proof (block_bounds _ _ _ Hb) as Hbd. unfold report_block, backed_at.
  rewrite (build_block_id _ _ _ Hb). case_bool_decide as Hr; simpl;
    [|split; [by intros ?%elem_of_nil|by intros [? _]]].
  destruct (_ || _) eqn:Hout.
  { split; [by intros ?%elem_of_nil|]. intros (_ & _ & ? & ? & _).
    apply orb_true_iff in Hout as [Ho|Ho]; apply bool_decide_eq_true in Ho; lia. }
  rewrite scan_block_elem. unfold block_code. split.
  - intros (k & instr & Hk & Hc & -> & Hid & Hrange & Hn & Hs). rewrite lookup_drop in Hk.
    apply lookup_take_Some in Hk as [Hk Hlt]. split_and!; try done; try lia; [eauto|].
    unfold segment. rewrite take_drop_commute in Hs. rewrite take_take in Hs.
    by rewrite Nat.min_l in Hs by lia.
  - intros (_ & Hid & Hin & Hrange & (instr & Hc & Hcl) & Hn & Hs).
    exists (v_instr v - block_start block), instr. split_and!; try done; try lia.
    + rewrite lookup_drop. replace (block_start block + (v_instr v - block_start block)) with
        (v_instr v) by lia. by rewrite lookup_take_lt by lia.
    + rewrite take_drop_commute, take_take.
      replace (block_start block + (v_instr v - block_start block)) with (v_instr v) by lia.
      by rewrite Nat.min_l by lia.
Qed.

(** ** The verifier *)

(** The verifier ends, and reports exactly the reads in the range that control
    can reach from the entry without a store. *)
Lemma verify_slot_backing_range_report code entry_instr first last init :
  entry_instr ∈ collect_leaders code ->
  exists report, verify_slot_backing_range code entry_instr first last init = Some report /\
    forall v, v ∈ report <->
      first <= v_instr v < last /\
      block_for_instr (build code) (v_instr v) = Some (v_block v) /\
      (exists instr, code !! v_instr v = Some instr /\ classify instr = Some (v_local v, Load)) /\
      unbacked_at code entry_instr init (v_local v) (v_instr v).
Proof.
  intros Hleader. unfold verify_slot_backing_range.
  destruct (blocks (build code)) as [|b0 bs] eqn:Hblocks.
  { exists []. split; [done|]. intros v. split; [by intros ?%elem_of_nil|].
    intros (_ & _ & (instr & Hi & _) & _). exfalso.
    destruct (block_of code (v_instr v)) as (idx & b & _ & Hb & _); [by eapply lookup_lt_Some|].
    by rewrite Hblocks in Hb. }
  assert (code <> []) as Hne by (intros ->; done).
  assert (entry_instr < length code) as Hlt.
  { apply elem_of_leaders in Hleader as [->|(i & instr & _ & Hl)]; [destruct code; simpl; [done|lia]|].
    by apply leaders_of_lt in Hl. }
  rewrite <- Hblocks.
  destruct (leader_starts code entry_instr Hleader Hlt) as (entry & eb & -> & Heb & Hst).
  destruct (reachable_ends code entry) as [reachable Hr]; [by eapply lookup_lt_Some|].
  rewrite Hr, Heb. cbn [mbind option_bind].
  pose proof (fun x => reachable_spec code entry reachable x Hr) as Hreach.
  assert (exists out, propagate (propagate_fuel code (build code) init) code (build code) entry reachable
      (<[entry := compute_block_out code eb init]>
        (replicate (length (blocks (build code))) (all_locals code))) = Some out /\
    propagation code entry init reachable eb out /\
    forall b block, blocks (build code) !! b = Some block -> active entry reachable b ->
      out !!! b = compute_block_out code block
        (meet_predecessors out (predecessors block) reachable)) as (out & Hp & Hprop & Hfix).
  { eapply propagate_spec; [exact Hreach|exact Heb|by apply start_propagation|by eapply (start_fuel code entry init reachable eb)]. }
  rewrite Hp. cbn [mbind option_bind]. eexists. split; [done|]. intros v.
  rewrite list_elem_of_bind. subst entry_instr. split.
  - intros (block & Hv & Hin). apply list_elem_of_lookup in Hin as [b Hb].
    rewrite (report_block_elem _ _ _ _ _ _ _ b block v Hb) in Hv.
    destruct Hv as (Hbr & Hid & Hi & Hrg & Hload & Hn & Hs).
    pose proof Hload as (instr & Hc & Hcl).
    split_and!; try done; try lia.
    + destruct (block_of code (v_instr v)) as (b' & block' & -> & Hb' & Hi'); [by eapply lookup_lt_Some|].
      f_equal. rewrite Hid. by eapply (block_of_unique code (v_instr v)).
    + apply (unbacked_at_block code entry eb init Heb (v_local v) b block); [done|done|].
      split; [|done]. eapply backed_spec; [exact Hreach|exact Heb|exact Hprop|exact Hfix|exact Hb|done| |done].
      by eapply classified_local.
  - intros (Hrg & Hfor & (instr & Hc & Hcl) & Hu).
    destruct (block_of code (v_instr v)) as (b & block & Hfor' & Hb & Hi); [by eapply lookup_lt_Some|].
    rewrite Hfor in Hfor'. injection Hfor' as Hid.
    rewrite (unbacked_at_block code entry eb init Heb (v_local v) b block) in Hu by done.
    destruct Hu as [Hu Hs].
    assert (b ∈ reachable) as Hbr by by apply Hreach, (unbacked_reachable code entry init (v_local v)).
    exists block. split; [|by eapply list_elem_of_lookup_2].
    apply (report_block_elem _ _ _ _ _ _ _ _ _ _ Hb). split_and!; try done; try lia; [eauto|].
    eapply backed_spec; [exact Hreach|exact Heb|exact Hprop|exact Hfix|exact Hb|done| |done].
    by eapply classified_local.
Qed.

(** C12. The verifier ends within its fuel and reports exactly the reads that control can reach from the entry without a store. *)
Theorem verify_slot_backing_range_spec code entry_instr first last init :
  entry_instr ∈ collect_leaders code ->
  exists report, verify_slot_backing_range code entry_instr first last init = Some report /\
    forall v, v ∈ report <->
      first <= v_instr v < last /\
      block_for_instr (build code) (v_instr v) = Some (v_block v) /\
      (exists instr, code !! v_instr v = Some instr /\ classify instr = Some (v_local v, Load)) /\
      unbacked_at code entry_instr init (v_local v) (v_instr v).
Proof. apply verify_slot_backing_range_report. Qed.
