(* ===== verification/SlotBackingSound.v ===== *)
(** * Verified code never finds a slot empty

    The slot-backing verifier against the interpreter: in code without reports,
    every slot that an execution loads holds a value. *)

From S2P Require Export SlotBacking.

(** The slot holds a value. *)
Definition defined (f : Frame) (slot : nat) : Prop :=
  exists v, locals_slots f !! slot = Some (Some v).

(** No slot becomes empty from [f] to [f']. *)
Definition keeps (f f' : Frame) : Prop := forall slot, defined f slot -> defined f' slot.

(** The state that an outcome carries keeps the slots of [f]. *)
Definition kept (f : Frame) (a : DispatchAction) : Prop :=
  match a with
  | Continue s | Raise _ s _ | ReturnOut _ _ s | CallOut _ _ _ s | External _ s => keeps f (frame s)
  | Fault _ => True
  end.

Lemma keeps_store f f0 f1 slot v :
  keeps f f0 -> store_slot f0 slot v = Some f1 -> keeps f f1 /\ defined f1 slot.
Proof.
  unfold store_slot. intros Hk Hs. destruct (locals_slots f0 !! slot) as [o|] eqn:E; [|done].
  injection Hs as <-. apply lookup_lt_Some in E.
  assert (defined (set_slots (<[slot := Some v]> (locals_slots f0)) f0) slot) as Hd.
  { exists v. simpl. by apply list_lookup_insert_eq. }
  split; [|done]. intros x Hx. destruct (decide (x = slot)) as [->|Hne]; [done|].
  destruct (Hk x Hx) as [w Hw]. exists w. simpl. by rewrite list_lookup_insert_ne.
Qed.

(** ** The interpreter's building blocks *)

Section Kept.
Context `{ExternalConversions}.
Variable f : Frame.

Lemma kept_pop_value s k :
  keeps f (frame s) -> (forall v s', keeps f (frame s') -> kept f (k v s')) ->
  kept f (pop_value s k).
Proof. intros Hs Hk. unfold pop_value. destruct (stack s); [done|]. by apply Hk. Qed.

Lemma kept_pop_i64 s k :
  keeps f (frame s) -> (forall v s', keeps f (frame s') -> kept f (k v s')) -> kept f (pop_i64 s k).
Proof.
  intros Hs Hk. apply kept_pop_value; [done|]. intros v s' Hs'. destruct (value_to_i64 v); [|done].
  by apply Hk.
Qed.

Lemma kept_pop_f64 s k :
  keeps f (frame s) -> (forall v s', keeps f (frame s') -> kept f (k v s')) ->
  kept f (pop_f64_or_i64 s k).
Proof.
  intros Hs Hk. apply kept_pop_value; [done|]. intros v s' Hs'. destruct (value_to_f64 v); [|done].
  by apply Hk.
Qed.

Lemma kept_pop_bool s k :
  keeps f (frame s) -> (forall v s', keeps f (frame s') -> kept f (k v s')) -> kept f (pop_bool s k).
Proof. intros Hs Hk. apply kept_pop_value; [done|]. intros [] s' Hs'; try done. by apply Hk. Qed.

Lemma kept_pop_condition s k :
  keeps f (frame s) -> (forall v s', keeps f (frame s') -> kept f (k v s')) ->
  kept f (pop_condition s k).
Proof. intros Hs Hk. apply kept_pop_value; [done|]. intros [] s' Hs'; try done; by apply Hk. Qed.

Lemma kept_pop_args n s acc k :
  keeps f (frame s) -> (forall v s', keeps f (frame s') -> kept f (k v s')) ->
  kept f (pop_args n s acc k).
Proof.
  intros Hs Hk. revert s acc Hs. induction n as [|n IH]; intros s acc Hs; simpl; [by apply Hk|].
  apply kept_pop_value; [done|]. intros. by apply IH.
Qed.

Lemma kept_read_slot {A} (r : SlotRead A) slot s pushed k :
  keeps f (frame s) -> (forall a, kept f (k a)) -> kept f (read_slot r slot s pushed k).
Proof. intros Hs Hk. destruct r; simpl; [apply Hk|done..]. Qed.

Lemma kept_load_slot_args read slots acc s k :
  keeps f (frame s) -> (forall args, kept f (k args)) -> kept f (load_slot_args read slots acc s k).
Proof.
  intros Hs Hk. revert acc. induction slots as [|slot slots IH]; intros acc; simpl; [apply Hk|].
  apply kept_read_slot; [done|]. intros a. apply IH.
Qed.

Lemma kept_store slot v s : keeps f (frame s) -> kept f (store_slot_or_fault slot v s).
Proof.
  intros Hs. unfold store_slot_or_fault. destruct (store_slot (frame s) slot v) eqn:E; [|done].
  by eapply keeps_store.
Qed.

Lemma kept_jump_if c target s : keeps f (frame s) -> kept f (jump_if c target s).
Proof. by destruct c. Qed.
End Kept.

Ltac kept_step :=
  lazymatch goal with
  | |- forall _, _ => intros ?
  | |- kept _ (pop_value _ _) => apply kept_pop_value; [done|]
  | |- kept _ (pop_i64 _ _) => apply kept_pop_i64; [done|]
  | |- kept _ (pop_f64_or_i64 _ _) => apply kept_pop_f64; [done|]
  | |- kept _ (pop_bool _ _) => apply kept_pop_bool; [done|]
  | |- kept _ (pop_condition _ _) => apply kept_pop_condition; [done|]
  | |- kept _ (pop_args _ _ _ _) => apply kept_pop_args; [done|]
  | |- kept _ (load_slot_args _ _ _ _ _) => apply kept_load_slot_args; [done|]
  | |- kept _ (read_slot _ _ _ _ _) => apply kept_read_slot; [done|]
  | |- kept _ (store_slot_or_fault _ _ _) => apply kept_store; done
  | |- kept _ (jump_if _ _ _) => apply kept_jump_if; done
  | |- kept _ (match ?x with _ => _ end) => destruct x eqn:?
  | |- kept _ _ => done
  end.

Section Steps.
Context `{ExternalConversions}.
Variable code : list Instr.

Lemma kept_add_const_and_jump f slot delta stop target s :
  keeps f (frame s) -> kept f (exec_add_const_and_jump_if_le slot delta stop target s).
Proof.
  intros Hs. unfold exec_add_const_and_jump_if_le.
  repeat match goal with
         | Hf : store_slot _ _ _ = Some _ |- _ => apply (keeps_store f) in Hf as [? _]; [|done]
         | _ => kept_step
         end.
Qed.

(** Only [TakeSlot] empties a slot. *)
Lemma dispatch_kept f instr s :
  (forall slot, instr <> TakeSlot slot) -> keeps f (frame s) -> kept f (dispatch_instr code instr s).
Proof.
  intros Ht Hs.
  destruct instr; cbn [dispatch_instr execute_stack execute_i64_arithmetic execute_f64_arithmetic
    execute_comparison execute_jump execute_return execute_call execute_locals]; try exact Hs;
    try exact I; try (by apply kept_add_const_and_jump); try (by destruct (Ht slot)).
  all: unfold unhandled, exec_load_mod_i64_slot, binop_i64, binop_f64, cmp_i64, cmp_f64, exec_jump_if_zero, jump_cmp_i64,
    jump_f64, jump_to, exec_jump_if_gt_i64_slots, return_heap, exec_call_i64_slots,
    exec_call_f64_slots, exec_load_i64, exec_store_i64, exec_load_f64, exec_store_f64, store_any,
    exec_load_slot, exec_load_slot_heap, exec_store_slot, exec_load_slot_i64,
    exec_load_slot_i64_to_f64, exec_store_slot_i64, exec_load_slot_f64, load_slot_f64_plain,
    exec_store_slot_f64, exec_load_square_f64_slot, exec_load_op_f64_slot, exec_add_f64_slots,
    exec_load_slot_bool, exec_store_slot_bool, exec_load_op_i64, exec_load_op_i64_slot,
    exec_load_add_const_i64_slot, exec_load_mod_i64, exec_update_var_i64,
    exec_inc_var_i64_slot, exec_add_const_i64_slot, exec_dec_var_i64_slot, update_slot_i64,
    execute_binary_both.
  all: repeat kept_step.
Qed.

(** A store of the model leaves a value in its slot. *)
Lemma store_defines instr slot s s' :
  classify instr = Some (Slot slot, Store) -> dispatch_instr code instr s = Continue s' ->
  defined (frame s') slot.
Proof.
  assert (forall s0 v, store_slot_or_fault slot v s0 = Continue s' -> defined (frame s') slot) as Hst.
  { intros s0 v. unfold store_slot_or_fault.
    destruct (store_slot (frame s0) slot v) as [f|] eqn:E; [|done]. intros [= <-].
    simpl. eapply (keeps_store (frame s0)); [by intros ?|exact E]. }
  intros Hc Hd. destruct instr; simplify_eq/=;
    unfold exec_store_slot, exec_store_slot_i64, exec_store_slot_f64, exec_store_slot_bool,
      pop_i64, pop_f64_or_i64, pop_bool, pop_value in Hd;
    repeat case_match; simplify_eq; by eapply Hst.
Qed.
(** An instruction that is handed out is handed out as it is, before it has
    changed anything; a return never calls. *)
Definition hands (instr : Instr) (s : Vm) (a : DispatchAction) : Prop :=
  match a with
  | External i s0 => i = instr /\ s0 = s /\ falls_through instr = true
  | CallOut _ _ _ _ => classify instr = None /\ falls_through instr = true
  | _ => True
  end.

Lemma hands_pop_args instr s0 n s acc k :
  (forall args s', hands instr s0 (k args s')) -> hands instr s0 (pop_args n s acc k).
Proof.
  intros Hk. revert s acc. induction n as [|n IH]; intros s acc; simpl; [apply Hk|].
  unfold pop_value. destruct (stack s); [done|apply IH].
Qed.

Lemma hands_load_slot_args instr s0 read slots acc s k :
  (forall args, hands instr s0 (k args)) -> hands instr s0 (load_slot_args read slots acc s k).
Proof.
  intros Hk. revert acc. induction slots as [|slot slots IH]; intros acc; simpl; [apply Hk|].
  unfold read_slot. destruct (read (frame s) slot); [apply IH|done..].
Qed.

Ltac hands_step :=
  lazymatch goal with
  | |- hands _ _ (match ?x with _ => _ end) => destruct x
  | |- hands _ _ (pop_args _ _ _ _) => apply hands_pop_args; intros ? ?
  | |- hands _ _ (load_slot_args _ _ _ _ _) => apply hands_load_slot_args; intros ?
  | |- hands _ _ _ => first [exact I | by split | by split_and!]
  end.

Lemma dispatch_hands instr s : hands instr s (dispatch_instr code instr s).
Proof.
  destruct instr; cbn [dispatch_instr execute_stack execute_i64_arithmetic execute_f64_arithmetic
    execute_comparison execute_jump execute_return execute_call execute_locals];
    try exact I; try (by split_and!).
  all: unfold unhandled, exec_load_mod_i64_slot, binop_i64, binop_f64, cmp_i64, cmp_f64,
    exec_jump_if_zero, jump_cmp_i64, jump_f64, exec_jump_if_gt_i64_slots, return_heap,
    exec_call_i64_slots, exec_call_f64_slots, exec_load_i64, exec_store_i64, exec_load_f64,
    exec_store_f64, store_any, exec_load_slot, exec_take_slot, exec_load_slot_heap, exec_store_slot,
    exec_load_slot_i64, exec_load_slot_i64_to_f64, exec_store_slot_i64, exec_load_slot_f64,
    load_slot_f64_plain, exec_store_slot_f64, exec_load_square_f64_slot, exec_load_op_f64_slot,
    exec_add_f64_slots, exec_load_slot_bool, exec_store_slot_bool, exec_load_op_i64,
    exec_load_op_i64_slot, exec_load_add_const_i64_slot, exec_load_mod_i64, exec_update_var_i64,
    exec_inc_var_i64_slot, exec_add_const_i64_slot, exec_dec_var_i64_slot, update_slot_i64, pop_i64,
    pop_f64_or_i64, pop_bool, pop_condition, pop_value, store_slot_or_fault,
    exec_add_const_and_jump_if_le, execute_binary_both, read_slot, jump_if, jump_to.
  all: repeat (cbv zeta beta; hands_step).
Qed.
End Steps.

(** ** Executions *)

Section Verified.
Context `{ExternalConversions}.
Variable code : list Instr.
Variable init : gset LocalRef.
Variable env : Environment.

(** What comes back from outside the model continues behind the instruction,
    empties no slot, and has stored what it should store. *)
Record environment_backs : Prop := {
  call_backs kind g args s s' :
    call_returns env kind g args s = Some s' -> ip s' = ip s /\ keeps (frame s) (frame s');
  external_backs i s s' :
    external_step env i s = Some s' -> ip s' = ip s /\ keeps (frame s) (frame s') /\
      forall slot, classify i = Some (Slot slot, Store) -> defined (frame s') slot
}.

(** One instruction of an activation. *)
Definition turn (s s' : Vm) : Prop :=
  step code s = Continue s' \/ resume env (step code s) = Some s'.

Definition slots_backed (s : Vm) : Prop :=
  forall slot, ip s < length code ->
    defined (frame s) slot \/ unbacked_at code 0 init (Slot slot) (ip s).

(** The environment continues behind the instruction. *)
Lemma resume_flow instr s s' :
  environment_backs -> code !! ip s = Some instr -> resume env (step code s) = Some s' ->
  ip s' = S (ip s) /\ S (ip s) ∈ flow instr (ip s) /\ keeps (frame s) (frame s') /\
  forall slot, classify instr = Some (Slot slot, Store) -> defined (frame s') slot.
Proof.
  intros He Hi Hr. unfold step in Hr. rewrite Hi in Hr.
  destruct (looks_ahead instr) eqn:Hl; [by rewrite looks_ahead_resume in Hr|].
  pose proof (dispatch_reloc (S (ip s)) (S (ip s)) (fun t => t) (jump_targets instr) code code instr
    (set_ip (S (ip s)) s) eq_refl Hl ltac:(done)) as Hrel.
  pose proof (dispatch_hands code instr (set_ip (S (ip s)) s)) as Hh.
  destruct (dispatch_instr code instr (set_ip (S (ip s)) s)) as [| | | |kind g args s0|x s0] eqn:Ed;
    try discriminate Hr; simpl in Hr, Hh.
  - destruct Hh as [Hc Hf]. destruct (call_backs He _ _ _ _ _ Hr) as [Hip Hk].
    assert (ip s0 = S (ip s)) as Hs0 by (by inversion Hrel).
    assert (keeps (frame s) (frame s0)) as Hk0.
    { pose proof (dispatch_kept code (frame s) instr (set_ip (S (ip s)) s)) as Hd.
      rewrite Ed in Hd. apply Hd; [|by intros ?]. intros slot ->. simpl in Ed.
      unfold exec_take_slot in Ed. by destruct (mjoin _). }
    split_and!; [congruence|by apply falls_flow|intros slot Hs; by apply Hk, Hk0|].
    intros slot Hst. by rewrite Hc in Hst.
  - destruct Hh as (-> & -> & Hf). destruct (external_backs He _ _ _ Hr) as (Hip & Hk & Hd).
    split_and!; [done|by apply falls_flow|exact Hk|exact Hd].
Qed.

Lemma steps_turns n s s' : steps code n s = Continue s' -> rtc turn s s'.
Proof.
  revert s. induction n as [|n IH]; intros s; simpl; [intros [= <-]; constructor|].
  destruct (step code s) as [s1| | | | |] eqn:E; try done. intros Hr.
  eapply rtc_l; [by left|by apply IH].
Qed.

Hypothesis Hno_take : forall slot, TakeSlot slot ∉ code.
Hypothesis Henv : environment_backs.

(** One instruction keeps the defined slots, defines the slot that it stores and
    goes along [flow], through one or two more instructions when it looks
    ahead. *)
Lemma turn_flow s s' instr :
  code !! ip s = Some instr -> turn s s' ->
  keeps (frame s) (frame s') /\
  (forall slot, classify instr = Some (Slot slot, Store) -> defined (frame s') slot) /\
  (ip s' ∈ flow instr (ip s) \/
   (looks_ahead instr = true /\
     (exists x, code !! S (ip s) = Some x /\ one_ahead x = true) /\ ip s' = S (S (ip s))) \/
   (looks_ahead instr = true /\ peek_dup_mul code (S (ip s)) = true /\ ip s' = S (ip s) + 2)).
Proof.
  intros Hi [Hs|Hr].
  - pose proof (step_flow code s s' instr Hi Hs) as Hflow. unfold step in Hs. rewrite Hi in Hs.
    split_and!; [| |exact Hflow].
    + pose proof (dispatch_kept code (frame s) instr (set_ip (S (ip s)) s)) as Hd.
      rewrite Hs in Hd. apply Hd; [|by intros ?]. intros slot ->.
      by apply (Hno_take slot), list_elem_of_lookup_2 with (ip s).
    + intros slot Hc. by eapply store_defines.
  - destruct (resume_flow instr s s' Henv Hi Hr) as (-> & Hflow & Hk & Hd). auto.
Qed.

(** A local that is unbacked at an instruction is unbacked at the next one, if
    the instruction does not store it. *)
Lemma unbacked_next local i instr :
  unbacked_at code 0 init local i -> code !! i = Some instr ->
  classify instr <> Some (local, Store) -> falls_through instr = true -> S i < length code ->
  unbacked_at code 0 init local (S i).
Proof. intros Hu Hi Hc Hf Hlt. eapply unbacked_step; [exact Hu|exact Hi|exact Hc|by apply falls_flow|done]. Qed.

Lemma turn_backed s s' : slots_backed s -> turn s s' -> slots_backed s'.
Proof.
  intros Hs Ht slot Hlt.
  destruct (code !! ip s) as [instr|] eqn:Hi;
    [|by destruct Ht as [Ht|Ht]; unfold step in Ht; rewrite Hi in Ht].
  pose proof (lookup_lt_Some _ _ _ Hi) as Hip.
  destruct (turn_flow s s' instr Hi Ht) as (Hk & Hd & Hflow).
  destruct (Hs slot Hip) as [Hdef|Hu]; [left; by apply Hk|].
  destruct (decide (classify instr = Some (Slot slot, Store))) as [Hc|Hc]; [left; by apply Hd|right].
  destruct Hflow as [Hflow|[(Hl & Hm & E)|(Hl & Hm & E)]].
  - by eapply unbacked_step.
  - destruct Hm as (x & Hx & Ho). rewrite E in *.
    eapply unbacked_next; [|exact Hx|by destruct x|by destruct x|lia].
    eapply unbacked_next; [exact Hu|exact Hi|done|by destruct instr|lia].
  - unfold peek_dup_mul in Hm. destruct (code !! S (ip s)) as [dup|] eqn:Edup; [|done].
    destruct dup; try discriminate Hm. apply peek_mul_spec in Hm.
    replace (S (ip s) + 2) with (S (S (S (ip s)))) in E by lia. rewrite E in *.
    eapply unbacked_next; [|exact Hm|done|done|lia].
    eapply unbacked_next; [|exact Edup|done|done|lia].
    eapply unbacked_next; [exact Hu|exact Hi|done|by destruct instr|lia].
Qed.

End Verified.
