(* ===== verification/Slotize.v ===== *)
(** * The slotizer

    subset_julia_vm_bytecode/src/slot.rs: locals get frame slots, the slots get the
    type that all declarations and stores of the name agree on, and loads and stores
    by name become loads and stores by slot.  The layout is sound ([slot_layout]), a
    slot has a type exactly when nothing contradicts it ([build_slot_info_spec]), and
    the result is well typed for the optimizer that runs next
    ([slotize_code_typed]).

    An index out of bounds, a panic of the source, is [None]; the element types of
    arrays, which the slotizer does not look into, are a type [E]. *)

From S2P Require Export MachineInv.

(** ** Types *)

Module VarTypeTag.
Inductive t :=
  | I64 | F64 | F32 | F16 | Str | Char | Array | Tuple | NamedTuple | Dict | Set_ | Struct
  | Range | Rng | Generator | Any | NarrowInt | Nothing | Bool | ValSymbol | Symbol.
End VarTypeTag.

#[export] Instance VarTypeTag_eq_dec : EqDecision VarTypeTag.t.
Proof. solve_decision. Defined.

Abbreviation tag := VarTypeTag.t.

Module ValueType.
Inductive t (E : Type) :=
  | I8 | I16 | I32 | I64 | I128 | BigInt
  | U8 | U16 | U32 | U64 | U128
  | Bool
  | F16 | F32 | F64 | BigFloat
  | Array | ArrayOf (elem : E) (rank : option nat) | Memory | MemoryOf (elem : E) | Range
  | Str | Char
  | Nothing | Missing | Struct (type_id : nat) | Rng | Tuple | NamedTuple | Pairs | Dict | Set_
  | Generator | DataType | Module_ | Function_ | IO
  | Symbol | Expr | QuoteNode | LineNumberNode | GlobalRef
  | Regex | RegexMatch
  | Any | Union (members : list (t E)) | Enum
  | ComplexF32 | ComplexF64.
End ValueType.

(** [slot_names] and [name_to_slot] while they grow. *)
Abbreviation layout := (list string * gmap string nat)%type.

(** [slot_types] and [unknown_slots]. *)
Abbreviation typing := (list (option tag) * list bool)%type.

Section Slotize.
Context {E : Type}.

Abbreviation value_type := (ValueType.t E).

Record SlotParamInfo := { kw_name : string; kw_ty : value_type }.

Record SlotInfo := {
  slot_names : list string;
  name_to_slot : gmap string nat;
  slot_types : list (option tag);
  param_slots : list nat;
  kwparam_slots : list nat
}.

Definition value_type_to_var_type_tag (ty : value_type) : option tag :=
  match ty with
  | ValueType.I64 _ => Some VarTypeTag.I64
  | ValueType.F64 _ => Some VarTypeTag.F64
  | ValueType.F32 _ => Some VarTypeTag.F32
  | ValueType.F16 _ => Some VarTypeTag.F16
  | ValueType.Bool _ => Some VarTypeTag.Bool
  | ValueType.Str _ => Some VarTypeTag.Str
  | ValueType.Char _ => Some VarTypeTag.Char
  | ValueType.Symbol _ => Some VarTypeTag.Symbol
  | ValueType.Array _ | ValueType.ArrayOf _ _ _ => Some VarTypeTag.Array
  | ValueType.Range _ => Some VarTypeTag.Range
  | ValueType.Struct _ _ | ValueType.ComplexF32 _ | ValueType.ComplexF64 _ => Some VarTypeTag.Struct
  | ValueType.Rng _ => Some VarTypeTag.Rng
  | ValueType.Tuple _ => Some VarTypeTag.Tuple
  | ValueType.NamedTuple _ => Some VarTypeTag.NamedTuple
  | ValueType.Dict _ => Some VarTypeTag.Dict
  | ValueType.Generator _ => Some VarTypeTag.Generator
  | ValueType.Nothing _ => Some VarTypeTag.Nothing
  | ValueType.I8 _ | ValueType.I16 _ | ValueType.I32 _ | ValueType.I128 _
  | ValueType.U8 _ | ValueType.U16 _ | ValueType.U32 _ | ValueType.U64 _ | ValueType.U128 _ =>
      Some VarTypeTag.NarrowInt
  | ValueType.Set_ _ => Some VarTypeTag.Set_
  | _ => None
  end.

(** ** Stores *)

Definition store_name (instr : Instr) : option string :=
  match instr with
  | StoreStr name | StoreI64 name | StoreF64 name | StoreF32 name | StoreF16 name
  | StoreBool name | StoreAny name | StoreStruct name | StoreRng name | StoreRange name
  | StoreTuple name | StoreNamedTuple name | StoreDict name | StoreSet name | StoreArray name
  | IncVarI64 name | DecVarI64 name => Some name
  | _ => None
  end.

Definition store_type_tag (instr : Instr) : option tag :=
  match instr with
  | StoreI64 _ | IncVarI64 _ | DecVarI64 _ => Some VarTypeTag.I64
  | StoreF64 _ => Some VarTypeTag.F64
  | StoreF32 _ => Some VarTypeTag.F32
  | StoreF16 _ => Some VarTypeTag.F16
  | StoreBool _ => Some VarTypeTag.Bool
  | StoreStr _ => Some VarTypeTag.Str
  | StoreStruct _ => Some VarTypeTag.Struct
  | StoreRng _ => Some VarTypeTag.Rng
  | StoreRange _ => Some VarTypeTag.Range
  | StoreTuple _ => Some VarTypeTag.Tuple
  | StoreNamedTuple _ => Some VarTypeTag.NamedTuple
  | StoreDict _ => Some VarTypeTag.Dict
  | StoreArray _ => Some VarTypeTag.Array
  | StoreSet _ => Some VarTypeTag.Set_
  | _ => None
  end.

Definition store_erases_slot_type (instr : Instr) : bool :=
  match instr with StoreAny _ => true | _ => false end.

(** ** The layout *)

(** The closure of the source that gives a name its slot when it has none. *)
Definition ensure_slot (l : layout) (name : string) : layout :=
  match l.2 !! name with
  | Some _ => l
  | None => (l.1 ++ [name], <[name := length l.1]> l.2)
  end.

(** The slot of a positional parameter; every [_] has one of its own. *)
Definition param_slot (l : layout) (name : string) : layout * nat :=
  if String.eqb name "_" then ((l.1 ++ [name], l.2), length l.1)
  else
    match l.2 !! name with
    | Some slot => (l, slot)
    | None => ((l.1 ++ [name], <[name := length l.1]> l.2), length l.1)
    end.

Fixpoint params_layout (l : layout) (params : list (string * value_type)) : layout * list nat :=
  match params with
  | [] => (l, [])
  | (name, _) :: params =>
      let '(l, slot) := param_slot l name in
      let '(l, slots) := params_layout l params in
      (l, slot :: slots)
  end.

Definition kwparams_layout (l : layout) (kwparams : list SlotParamInfo) : layout :=
  foldl (fun l kw => ensure_slot l (kw_name kw)) l kwparams.

Definition stores_layout (l : layout) (code : list Instr) : layout :=
  foldl (fun l instr => match store_name instr with Some name => ensure_slot l name | None => l end) l code.

(** ** The types of the slots *)

Definition poison (t : typing) (slot : nat) : typing :=
  (<[slot := None]> t.1, <[slot := true]> t.2).

Definition merge_slot_type (t : typing) (slot : nat) (new : option tag) : option typing :=
  unknown ← t.2 !! slot;
  if unknown : bool then Some t
  else
    current ← t.1 !! slot;
    match current, new with
    | None, Some new => Some (<[slot := Some new]> t.1, t.2)
    | Some existing, Some new => if decide (existing = new) then Some t else Some (poison t slot)
    | _, None => Some (poison t slot)
    end.

Definition declare (m : gmap string nat) (name : string) (ty : value_type) (t : typing) : option typing :=
  match m !! name with
  | Some slot => merge_slot_type t slot (value_type_to_var_type_tag ty)
  | None => Some t
  end.

Definition type_store (m : gmap string nat) (instr : Instr) (t : typing) : option typing :=
  match store_name instr with
  | Some name =>
      match m !! name with
      | Some slot =>
          if store_erases_slot_type instr then
            _ ← t.1 !! slot; _ ← t.2 !! slot; Some (poison t slot)
          else merge_slot_type t slot (store_type_tag instr)
      | None => Some t
      end
  | None => Some t
  end.

(** [unknown_slots[slot] = true]. *)
Definition mark_unknown (m : gmap string nat) (name : string) (t : typing) : option typing :=
  match m !! name with
  | Some slot => _ ← t.2 !! slot; Some (t.1, <[slot := true]> t.2)
  | None => Some t
  end.

(** A loop that may panic. *)
Definition each {A S} (step : A -> S -> option S) (l : list A) (s : S) : option S :=
  foldl (fun s a => s ≫= step a) (Some s) l.

Definition build_slot_types (params : list (string * value_type)) (kwparams : list SlotParamInfo)
    (code : list Instr) (m : gmap string nat) (total_slots : nat) (generic_param_slots : gset string)
    : option (list (option tag)) :=
  let t := (replicate total_slots None, replicate total_slots false) in
  t ← each (mark_unknown m) (elements generic_param_slots) t;
  t ← each (fun p => declare m p.1 p.2) params t;
  t ← each (fun kw => declare m (kw_name kw) (kw_ty kw)) kwparams t;
  t ← each (type_store m) code t;
  Some t.1.

Definition build_specialized_slot_types (params : list (string * value_type))
    (kwparams : list SlotParamInfo) (code : list Instr) (m : gmap string nat) (total_slots : nat)
    : option (list (option tag)) :=
  build_slot_types params kwparams code m total_slots ∅.

(** ** The entry points *)

Definition build_slot_info_with_generic_params (params : list (string * value_type))
    (kwparams : list SlotParamInfo) (code : list Instr) (generic_param_slots : gset string)
    : option SlotInfo :=
  let '(l, param_slots) := params_layout ([], ∅) params in
  let l := stores_layout (kwparams_layout l kwparams) code in
  types ← build_slot_types params kwparams code l.2 (length l.1) generic_param_slots;
  Some {| slot_names := l.1; name_to_slot := l.2; slot_types := types; param_slots := param_slots;
          kwparam_slots := omap (fun kw => l.2 !! kw_name kw) kwparams |}.

Definition build_slot_info (params : list (string * value_type)) (kwparams : list SlotParamInfo)
    (code : list Instr) : option SlotInfo :=
  build_slot_info_with_generic_params params kwparams code ∅.

Definition build_global_slot_info_seeded (seed : list string) (code : list Instr) : option SlotInfo :=
  let l := stores_layout (foldl ensure_slot ([], ∅) seed) code in
  types ← build_slot_types [] [] code l.2 (length l.1) ∅;
  Some {| slot_names := l.1; name_to_slot := l.2; slot_types := types; param_slots := [];
          kwparam_slots := [] |}.
End Slotize.
Arguments SlotParamInfo : clear implicits.

(** ** The rewriting *)

Definition slot_type (types : list (option tag)) (slot : nat) : option tag := mjoin (types !! slot).

Section Rewriting.
Variable m : gmap string nat.
Variable types : list (option tag).

(** A name with a slot: the typed instruction where the slot has the type. *)
Definition typed_access (name : string) (wanted : tag) (typed plain : nat -> Instr) (instr : Instr) : Instr :=
  match m !! name with
  | Some slot => if decide (slot_type types slot = Some wanted) then typed slot else plain slot
  | None => instr
  end.

Definition slot_access (name : string) (by_slot : nat -> Instr) (instr : Instr) : Instr :=
  match m !! name with Some slot => by_slot slot | None => instr end.

Definition load_of_tag (slot : nat) : Instr :=
  match slot_type types slot with
  | Some VarTypeTag.Array => LoadSlotArray slot
  | Some VarTypeTag.Set_ => LoadSlotSet slot
  | Some VarTypeTag.Generator => LoadSlotGenerator slot
  | Some VarTypeTag.Char => LoadSlotChar slot
  | Some VarTypeTag.Symbol => LoadSlotSymbol slot
  | Some VarTypeTag.NarrowInt => LoadSlotNarrowInt slot
  | Some VarTypeTag.Nothing => LoadSlotNothing slot
  | _ => LoadSlot slot
  end.

Definition store_of_tag (slot : nat) : Instr :=
  match slot_type types slot with
  | Some VarTypeTag.Array => StoreSlotArray slot
  | Some VarTypeTag.Set_ => StoreSlotSet slot
  | Some VarTypeTag.Generator => StoreSlotGenerator slot
  | Some VarTypeTag.Char => StoreSlotChar slot
  | Some VarTypeTag.Symbol => StoreSlotSymbol slot
  | Some VarTypeTag.NarrowInt => StoreSlotNarrowInt slot
  | Some VarTypeTag.Nothing => StoreSlotNothing slot
  | _ => StoreSlot slot
  end.

Definition slotize_instr (instr : Instr) : Instr :=
  match instr with
  | LoadStr name => typed_access name VarTypeTag.Str LoadSlotStr LoadSlot instr
  | LoadF32 name => typed_access name VarTypeTag.F32 LoadSlotF32 LoadSlot instr
  | LoadF16 name => typed_access name VarTypeTag.F16 LoadSlotF16 LoadSlot instr
  | LoadAny name | LoadSet name | LoadArray name => slot_access name load_of_tag instr
  | LoadTuple name => typed_access name VarTypeTag.Tuple LoadSlotTuple LoadSlot instr
  | LoadNamedTuple name => typed_access name VarTypeTag.NamedTuple LoadSlotNamedTuple LoadSlot instr
  | LoadDict name => typed_access name VarTypeTag.Dict LoadSlotDict LoadSlot instr
  | LoadStruct name => typed_access name VarTypeTag.Struct LoadSlotStruct LoadSlot instr
  | LoadRange name => typed_access name VarTypeTag.Range LoadSlotRange LoadSlot instr
  | LoadRng name => typed_access name VarTypeTag.Rng LoadSlotRng LoadSlot instr
  | LoadI64 name => typed_access name VarTypeTag.I64 LoadSlotI64 LoadSlot instr
  | LoadF64 name => typed_access name VarTypeTag.F64 LoadSlotF64 LoadSlot instr
  | LoadBool name => typed_access name VarTypeTag.Bool LoadSlotBool LoadSlot instr
  | StoreStr name => typed_access name VarTypeTag.Str StoreSlotStr StoreSlot instr
  | StoreF32 name => typed_access name VarTypeTag.F32 StoreSlotF32 StoreSlot instr
  | StoreF16 name => typed_access name VarTypeTag.F16 StoreSlotF16 StoreSlot instr
  | StoreAny name | StoreSet name | StoreArray name => slot_access name store_of_tag instr
  | StoreTuple name => typed_access name VarTypeTag.Tuple StoreSlotTuple StoreSlot instr
  | StoreNamedTuple name => typed_access name VarTypeTag.NamedTuple StoreSlotNamedTuple StoreSlot instr
  | StoreDict name => typed_access name VarTypeTag.Dict StoreSlotDict StoreSlot instr
  | StoreStruct name => typed_access name VarTypeTag.Struct StoreSlotStruct StoreSlot instr
  | StoreRange name => typed_access name VarTypeTag.Range StoreSlotRange StoreSlot instr
  | StoreRng name => typed_access name VarTypeTag.Rng StoreSlotRng StoreSlot instr
  | StoreI64 name => typed_access name VarTypeTag.I64 StoreSlotI64 StoreSlot instr
  | StoreF64 name => typed_access name VarTypeTag.F64 StoreSlotF64 StoreSlot instr
  | StoreBool name => typed_access name VarTypeTag.Bool StoreSlotBool StoreSlot instr
  | LoadAddI64 name => slot_access name LoadAddI64Slot instr
  | LoadSubI64 name => slot_access name LoadSubI64Slot instr
  | LoadMulI64 name => slot_access name LoadMulI64Slot instr
  | LoadModI64 name => slot_access name LoadModI64Slot instr
  | IncVarI64 name => slot_access name IncVarI64Slot instr
  | DecVarI64 name => slot_access name DecVarI64Slot instr
  | _ => instr
  end.

Definition slotize_code (code : list Instr) : list Instr := map slotize_instr code.
End Rewriting.

(** ** The layout is sound *)

(** Names and slots belong together; [_] may own slots that no name leads to. *)
Record slot_layout (l : layout) : Prop := {
  layout_names name slot : l.2 !! name = Some slot -> l.1 !! slot = Some name;
  layout_slots name slot : l.1 !! slot = Some name -> name <> "_"%string -> l.2 !! name = Some slot
}.

(** A later layout keeps every slot. *)
Definition layout_grows (l l' : layout) : Prop := l.1 `prefix_of` l'.1 /\ l.2 ⊆ l'.2.

Lemma layout_grows_refl l : layout_grows l l.
Proof. by split. Qed.

Lemma layout_grows_trans l1 l2 l3 : layout_grows l1 l2 -> layout_grows l2 l3 -> layout_grows l1 l3.
Proof. intros [H1 H2] [H3 H4]. split; by etrans. Qed.

Lemma empty_layout : slot_layout ([], ∅).
Proof. by split. Qed.

(** A new slot for a name without one. *)
Lemma layout_push l name :
  slot_layout l -> l.2 !! name = None ->
  slot_layout (l.1 ++ [name], <[name := length l.1]> l.2) /\
  layout_grows l (l.1 ++ [name], <[name := length l.1]> l.2).
Proof.
  intros Hl Hn. split; [split|split]; simpl.
  - intros n slot. destruct (decide (n = name)) as [->|Hne].
    + rewrite lookup_insert_eq. intros [= <-]. by rewrite lookup_app_r, Nat.sub_diag.
    + rewrite lookup_insert_ne by done. intros H%Hl. by rewrite lookup_app_l by by eapply lookup_lt_Some.
  - intros n slot. destruct (decide (n = name)) as [->|Hne]; rewrite ?lookup_insert_eq, ?lookup_insert_ne by done.
    + rewrite lookup_app. intros H Hu. destruct (l.1 !! slot) as [x|] eqn:Hs.
      * injection H as ->. apply Hl in Hs; congruence.
      * apply list_lookup_singleton_Some in H as [H _]. apply lookup_ge_None in Hs. f_equal. lia.
    + rewrite lookup_app. destruct (l.1 !! slot) eqn:Hs; [intros [= ->]; by apply Hl|].
      intros [_ <-]%list_lookup_singleton_Some. done.
  - by apply prefix_app_r.
  - by apply insert_subseteq.
Qed.

Lemma ensure_slot_ok l name :
  slot_layout l -> slot_layout (ensure_slot l name) /\ layout_grows l (ensure_slot l name) /\
  is_Some ((ensure_slot l name).2 !! name).
Proof.
  intros Hl. unfold ensure_slot. destruct (l.2 !! name) eqn:Hn; [by split_and!; eauto using layout_grows_refl|].
  destruct (layout_push l name Hl Hn). split_and!; [done|done|]. simpl. by rewrite lookup_insert_eq.
Qed.

Lemma ensure_slot_dom l name : dom (ensure_slot l name).2 = {[name]} ∪ dom l.2.
Proof.
  unfold ensure_slot. destruct (l.2 !! name) eqn:Hn; simpl; [|by rewrite dom_insert_L].
  apply elem_of_dom_2 in Hn. set_solver.
Qed.

Lemma param_slot_ok l name l' slot :
  slot_layout l -> param_slot l name = (l', slot) ->
  slot_layout l' /\ layout_grows l l' /\ l'.1 !! slot = Some name /\
  dom l'.2 = (if String.eqb name "_" then ∅ else {[name]}) ∪ dom l.2 /\
  (name = "_"%string -> slot = length l.1).
Proof.
  intros Hl. unfold param_slot. destruct (String.eqb_spec name "_") as [->|Hne].
  - intros [= <- <-]. split_and!; simpl; [split|split|..]; simpl.
    + intros n slot H%Hl. by rewrite lookup_app_l by by eapply lookup_lt_Some.
    + intros n slot. rewrite lookup_app. destruct (l.1 !! slot) eqn:Hs; [intros [= ->]; by apply Hl|].
      by intros [_ <-]%list_lookup_singleton_Some.
    + by apply prefix_app_r.
    + done.
    + by rewrite lookup_app_r, Nat.sub_diag.
    + by rewrite (left_id_L ∅ (∪)).
    + done.
  - destruct (l.2 !! name) as [x|] eqn:Hn; intros [= <- <-].
    + split_and!; [done|apply layout_grows_refl|by apply Hl| |done]. apply elem_of_dom_2 in Hn. set_solver.
    + destruct (layout_push l name Hl Hn). split_and!; [done|done| | |done]; simpl.
      * by rewrite lookup_app_r, Nat.sub_diag.
      * by rewrite dom_insert_L.
Qed.

Section LayoutSpec.
Context {E : Type}.

(** The names of parameters, keywords and stores. *)
Definition param_names (params : list (string * ValueType.t E)) : gset string :=
  list_to_set (filter (fun name => name <> "_"%string) params.*1).
Definition kwparam_names (kwparams : list (SlotParamInfo E)) : gset string := list_to_set (map kw_name kwparams).
Definition stored_names (code : list Instr) : gset string := list_to_set (omap store_name code).

Lemma params_layout_ok (params : list (string * ValueType.t E)) : forall l l' slots,
  slot_layout l -> params_layout l params = (l', slots) ->
  slot_layout l' /\ layout_grows l l' /\ dom l'.2 = param_names params ∪ dom l.2 /\
  Forall2 (fun p slot => l'.1 !! slot = Some p.1) params slots /\
  (forall i j name ty ty' slot slot', i < j -> params !! i = Some (name, ty) -> params !! j = Some ("_"%string, ty') ->
     slots !! i = Some slot -> slots !! j = Some slot' -> slot <> slot') /\
  (forall j ty slot, params !! j = Some ("_"%string, ty) -> slots !! j = Some slot -> length l.1 <= slot).
Proof.
  induction params as [|[name ty] params IH]; intros l l' slots Hl; cbn [params_layout].
  { intros [= <- <-]. split_and!; [done|apply layout_grows_refl| |constructor|done|done].
    unfold param_names. set_solver. }
  destruct (param_slot l name) as [l1 slot] eqn:Hp. destruct (params_layout l1 params) as [l2 rest] eqn:Hr.
  intros [= <- <-]. destruct (param_slot_ok l name l1 slot Hl Hp) as (Hl1 & Hg1 & Hs1 & Hd1 & Hu1).
  destruct (IH l1 l2 rest Hl1 Hr) as (Hl2 & Hg2 & Hd2 & Hf2 & Hn2 & Hb2). clear IH.
  pose proof Hg1 as [Hpre1 _]. pose proof Hg2 as [Hpre2 _]. apply prefix_length in Hpre1.
  split_and!; [done|by eapply layout_grows_trans| | | |].
  - rewrite Hd2, Hd1. unfold param_names. rewrite fmap_cons, filter_cons. simpl.
    destruct (String.eqb_spec name "_"); case_decide; try done; set_solver.
  - constructor; [|done]. simpl. by eapply prefix_lookup_Some.
  - intros [|i] [|j] n ty1 ty2 s s' Hij H1 H2 H3 H4; try lia; simpl in *.
    + injection H1 as -> ->. injection H3 as ->. pose proof (Hb2 _ _ _ H2 H4).
      apply lookup_lt_Some in Hs1. lia.
    + eapply (Hn2 i j); eauto; lia.
  - intros [|j] ty1 s H1 H2; simpl in *.
    + injection H1 as -> ->. injection H2 as <-. by rewrite Hu1.
    + pose proof (Hb2 _ _ _ H1 H2). lia.
Qed.

Lemma kwparams_layout_ok (kwparams : list (SlotParamInfo E)) : forall l, slot_layout l ->
  slot_layout (kwparams_layout l kwparams) /\ layout_grows l (kwparams_layout l kwparams) /\
  dom (kwparams_layout l kwparams).2 = kwparam_names kwparams ∪ dom l.2.
Proof.
  unfold kwparams_layout. induction kwparams as [|kw kwparams IH]; intros l Hl; cbn [foldl].
  { split_and!; [done|apply layout_grows_refl|]. unfold kwparam_names. set_solver. }
  destruct (ensure_slot_ok l (kw_name kw) Hl) as (Hl1 & Hg1 & _). destruct (IH _ Hl1) as (Hl2 & Hg2 & Hd2).
  split_and!; [done|by eapply layout_grows_trans|]. rewrite Hd2, ensure_slot_dom. unfold kwparam_names. set_solver.
Qed.

Lemma stores_layout_ok (code : list Instr) : forall l, slot_layout l ->
  slot_layout (stores_layout l code) /\ layout_grows l (stores_layout l code) /\
  dom (stores_layout l code).2 = stored_names code ∪ dom l.2.
Proof.
  unfold stores_layout. induction code as [|i code IH]; intros l Hl; cbn [foldl].
  { split_and!; [done|apply layout_grows_refl|]. unfold stored_names. set_solver. }
  unfold stored_names. cbn [omap list_omap]. destruct (store_name i) as [name|].
  - destruct (ensure_slot_ok l name Hl) as (Hl1 & Hg1 & _). destruct (IH _ Hl1) as (Hl2 & Hg2 & Hd2).
    split_and!; [done|by eapply layout_grows_trans|]. rewrite Hd2, ensure_slot_dom. unfold stored_names.
    rewrite list_to_set_cons. set_solver.
  - destruct (IH _ Hl) as (Hl2 & Hg2 & Hd2). split_and!; [done|done|]. by rewrite Hd2.
Qed.
End LayoutSpec.

(** ** The type of a slot

    Every declaration and every store of a name proposes a type or none; the slot has
    the type that all propose. *)

Definition agreed (tags : list (option tag)) : option tag :=
  match tags with
  | [] => None
  | x :: rest => if forallb (fun y => bool_decide (y = x)) rest then x else None
  end.

Lemma agreed_Some tags x :
  agreed tags = Some x <-> tags <> [] /\ Forall (eq (Some x)) tags.
Proof.
  destruct tags as [|y rest]; simpl; [by split; [|intros []]|].
  assert (forallb (fun z => bool_decide (z = y)) rest = true <-> Forall (eq y) rest) as Hf.
  { rewrite forallb_forall, List.Forall_forall. split; intros H z Hz; specialize (H z Hz).
    - by apply bool_decide_eq_true in H.
    - by apply bool_decide_eq_true. }
  destruct (forallb _ rest) eqn:Hb.
  - split; [|by intros [_ [<- _]%Forall_cons_1]]. intros ->. split; [done|]. constructor; [done|by apply Hf].
  - split; [done|]. intros [_ [<- Hr]%Forall_cons_1]. by apply Hf in Hr.
Qed.

Lemma agreed_snoc tags x :
  agreed (tags ++ [x]) =
  match tags with [] => x | _ => if decide (agreed tags = x) then x else None end.
Proof.
  destruct tags as [|y rest]; [done|]. simpl. rewrite forallb_app. simpl. rewrite andb_true_r.
  destruct (forallb _ rest); simpl; [|by case_decide; subst].
  destruct (decide (y = x)) as [->|Hne]; [by rewrite bool_decide_true|].
  rewrite bool_decide_false by done. done.
Qed.

(** Two proposals differ, or one has no type. *)
Definition spoiled (tags : list (option tag)) : bool :=
  match tags with [] => false | _ => bool_decide (agreed tags = None) end.

Lemma agreed_more tags x : tags <> [] ->
  agreed (tags ++ [x]) = if decide (agreed tags = x) then x else None.
Proof. intros Hne. rewrite agreed_snoc. by destruct tags. Qed.

Lemma spoiled_ne tags : tags <> [] -> spoiled tags = bool_decide (agreed tags = None).
Proof. by destruct tags. Qed.

Lemma spoiled_snoc tags x : spoiled (tags ++ [x]) = bool_decide (agreed (tags ++ [x]) = None).
Proof. apply spoiled_ne. by destruct tags. Qed.

(** What the pair of vectors says of a slot, when [tags] have been proposed. *)
Record typed_by (t : typing) (slot : nat) (generic : bool) (tags : list (option tag)) : Prop := {
  typed_tag : t.1 !! slot = Some (if generic then None else agreed tags);
  typed_unknown : t.2 !! slot = Some (generic || spoiled tags)
}.

(** Only [slot] changes. *)
Definition changes_only (slot : nat) (t t' : typing) : Prop :=
  length t'.1 = length t.1 /\
  forall other, other <> slot -> t'.1 !! other = t.1 !! other /\ t'.2 !! other = t.2 !! other.

Lemma poison_ok t slot g tags :
  typed_by t slot g tags -> changes_only slot t (poison t slot) /\
  (poison t slot).1 !! slot = Some None /\ (poison t slot).2 !! slot = Some true.
Proof.
  intros [H1%lookup_lt_Some H2%lookup_lt_Some]. unfold poison, changes_only. simpl.
  rewrite length_insert, !list_lookup_insert_eq by done. split_and!; try done.
  intros other Hne. by rewrite !list_lookup_insert_ne.
Qed.

Lemma merge_proposal_ok t slot g tags x :
  typed_by t slot g tags ->
  exists t', merge_slot_type t slot x = Some t' /\ typed_by t' slot g (tags ++ [x]) /\ changes_only slot t t'.
Proof.
  intros Ht. destruct (poison_ok _ _ _ _ Ht) as (Hc & Hp1 & Hp2). destruct Ht as [H1 H2].
  unfold merge_slot_type. rewrite H2. simpl.
  assert (forall t', t'.1 !! slot = Some None -> t'.2 !! slot = Some true -> agreed (tags ++ [x]) = None ->
    typed_by t' slot g (tags ++ [x])) as Hspoiled.
  { intros t' T1 T2 Ha. split; [rewrite T1, Ha; by destruct g|].
    rewrite T2, spoiled_snoc, Ha, bool_decide_true by done. by destruct g. }
  destruct g; simpl in *.
  { exists t. split_and!; [done|by split|by split]. }
  rewrite H1. simpl. destruct (decide (tags = [])) as [->|Hne].
  - simpl in *. destruct x as [x|].
    + eexists. split_and!; [done|split; simpl; [|done]|split; simpl; [apply length_insert|]].
      * apply list_lookup_insert_eq. by eapply lookup_lt_Some.
      * intros other Hne. by rewrite list_lookup_insert_ne.
    + eexists. split_and!; [done|by apply Hspoiled|done].
  - pose proof (agreed_more tags x Hne) as Hs. rewrite (spoiled_ne tags Hne).
    destruct (agreed tags) as [e|] eqn:He; simpl.
    + destruct x as [x|]; [|exists (poison t slot); split_and!; [done|by apply Hspoiled|done]].
      destruct (decide (e = x)) as [->|Hx].
      * exists t. rewrite decide_True in Hs by done.
        split_and!; [done|split; rewrite ?spoiled_snoc, Hs; [done|]|by split].
        by rewrite H2, (spoiled_ne tags Hne), He.
      * rewrite decide_False in Hs by congruence. eexists. split_and!; [done|by apply Hspoiled|done].
    + exists t. assert (agreed (tags ++ [x]) = None) as Ha by (rewrite Hs; by case_decide).
      split_and!; [done|apply Hspoiled; [done| |done]|by split]. by rewrite H2, (spoiled_ne tags Hne), He.
Qed.

(** ** Proposals in order *)

Lemma each_None {A S} (step : A -> S -> option S) l :
  foldl (fun s a => s ≫= step a) None l = None.
Proof. by induction l. Qed.

Lemma each_cons {A S} (step : A -> S -> option S) a l s :
  each step (a :: l) s = step a s ≫= each step l.
Proof. unfold each. simpl. destruct (step a s); [done|apply each_None]. Qed.

Lemma each_map {A B S} (f : B -> A) (step : A -> S -> option S) l s :
  each (fun b => step (f b)) l s = each step (map f l) s.
Proof.
  revert s. induction l as [|b l IH]; intros s; [done|]. simpl. rewrite !each_cons.
  destruct (step (f b) s); [apply IH|done].
Qed.

Abbreviation proposal := (string * option tag)%type.

(** What the proposals say of a name. *)
Definition tags_of (name : string) (proposals : list proposal) : list (option tag) :=
  omap (fun p : proposal => if decide (p.1 = name) then Some p.2 else None) proposals.

Definition store_proposals (code : list Instr) : list proposal :=
  omap (fun i => (fun name => (name, store_type_tag i)) <$> store_name i) code.

Section Proposals.
Variable m : gmap string nat.
Hypothesis inj : forall n1 n2 slot, m !! n1 = Some slot -> m !! n2 = Some slot -> n1 = n2.

Definition propose (p : proposal) (t : typing) : option typing :=
  match m !! p.1 with Some slot => merge_slot_type t slot p.2 | None => Some t end.

(** The vectors say of each name what [acc] says; slots without a name have no type. *)
Record typed_all (acc : string -> bool * list (option tag)) (total : nat) (t : typing) : Prop := {
  all_length : length t.1 = total;
  all_names name slot : m !! name = Some slot -> typed_by t slot (acc name).1 (acc name).2;
  all_others slot : slot < total -> (forall name, m !! name <> Some slot) -> t.1 !! slot = Some None
}.

Lemma typed_all_ext acc acc' total t :
  (forall name, acc name = acc' name) -> typed_all acc total t -> typed_all acc' total t.
Proof. intros H [H1 H2 H3]. split; [done| |done]. intros name slot Hm. rewrite <- H. by apply H2. Qed.

(** A change to the slot of one name. *)
Lemma typed_all_change acc acc' total t t' name slot :
  typed_all acc total t -> m !! name = Some slot -> changes_only slot t t' ->
  typed_by t' slot (acc' name).1 (acc' name).2 -> (forall other, other <> name -> acc' other = acc other) ->
  typed_all acc' total t'.
Proof.
  intros [H1 H2 H3] Hm [Hl Hc] Ht Hacc. split; [congruence| |].
  - intros n s Hn. destruct (decide (n = name)) as [->|Hne].
    + assert (s = slot) as -> by congruence. done.
    + assert (s <> slot) as Hs by (intros ->; by apply Hne, (inj _ _ slot)).
      rewrite Hacc by done. destruct (H2 n s Hn) as [T1 T2]. destruct (Hc s Hs) as [C1 C2].
      split; congruence.
  - intros s Hs Hn. destruct (Hc s) as [C1 _]; [intros ->; by eapply Hn|]. rewrite C1. by apply H3.
Qed.

Lemma propose_ok p acc total t :
  typed_all acc total t ->
  exists t', propose p t = Some t' /\
    typed_all (fun name => ((acc name).1, (acc name).2 ++ tags_of name [p])) total t'.
Proof.
  intros Ht. unfold propose. destruct p as [name x]. simpl.
  assert (forall other, other <> name -> (if decide (name = other) then Some x else None) = None) as Hd
    by (intros; by rewrite decide_False by congruence).
  destruct (m !! name) as [slot|] eqn:Hm.
  - destruct (merge_proposal_ok _ _ _ _ x (all_names _ _ _ Ht name slot Hm)) as (t' & Hmerge & Hty & Hc).
    exists t'. split; [done|]. eapply typed_all_change; [exact Ht|exact Hm|exact Hc| |]; simpl.
    + by rewrite decide_True.
    + intros other Hne. rewrite Hd, (right_id_L [] (++)) by done. by destruct (acc other).
  - exists t. split; [done|]. destruct Ht as [H1 H2 H3]. split; [done| |done].
    intros n slot Hn. simpl. rewrite Hd, (right_id_L [] (++)) by congruence. by apply H2.
Qed.

Lemma tags_of_cons name p proposals : tags_of name (p :: proposals) = tags_of name [p] ++ tags_of name proposals.
Proof. unfold tags_of. simpl. by destruct (decide (p.1 = name)). Qed.

Lemma tags_of_app name ps qs : tags_of name (ps ++ qs) = tags_of name ps ++ tags_of name qs.
Proof. apply omap_app. Qed.

Lemma proposals_ok proposals : forall acc total t, typed_all acc total t ->
  exists t', each propose proposals t = Some t' /\
    typed_all (fun name => ((acc name).1, (acc name).2 ++ tags_of name proposals)) total t'.
Proof.
  induction proposals as [|p proposals IH]; intros acc total t Ht.
  - exists t. split; [done|]. eapply typed_all_ext; [|done]. intros name. simpl.
    rewrite (right_id_L [] (++)). by destruct (acc name).
  - rewrite each_cons. destruct (propose_ok p acc total t Ht) as (t1 & -> & H1).
    destruct (IH _ _ _ H1) as (t2 & H2 & Ht2). exists t2. split; [exact H2|].
    eapply typed_all_ext; [|done]. intros name. by rewrite (tags_of_cons name p proposals), (assoc_L (++)).
Qed.

(** A store without a type poisons the slot, which is what merging no type does. *)
Lemma type_store_proposes i acc total t :
  typed_all acc total t ->
  type_store m i t = match store_name i with Some name => propose (name, store_type_tag i) t | None => Some t end.
Proof.
  intros Ht. unfold type_store, propose. destruct (store_name i) as [name|]; [|done]. simpl.
  destruct (m !! name) as [slot|] eqn:Hm; [|done]. destruct (store_erases_slot_type i) eqn:He; [|done].
  destruct (all_names _ _ _ Ht name slot Hm) as [H1 H2]. rewrite H1, H2. simpl.
  destruct i; try done. unfold merge_slot_type. simpl. rewrite H2. simpl.
  destruct ((acc name).1) eqn:Hg; simpl.
  - unfold poison. rewrite !list_insert_id by done. by destruct t.
  - destruct (spoiled (acc name).2) eqn:Hs.
    + unfold poison. rewrite list_insert_id, list_insert_id; [by destruct t|done|].
      rewrite H1. unfold spoiled in Hs. destruct ((acc name).2); [done|]. apply bool_decide_eq_true in Hs. congruence.
    + rewrite H1. simpl. by destruct (agreed (acc name).2).
Qed.

Lemma stores_ok code : forall acc total t, typed_all acc total t ->
  each (type_store m) code t = each propose (store_proposals code) t.
Proof.
  induction code as [|i code IH]; intros acc total t Ht; [done|].
  rewrite each_cons, (type_store_proposes i acc total t Ht). unfold store_proposals. simpl.
  destruct (store_name i) as [name|]; simpl; [|by eapply IH].
  rewrite each_cons. destruct (propose_ok (name, store_type_tag i) acc total t Ht) as (t1 & -> & H1).
  simpl. by eapply IH.
Qed.

Lemma mark_unknown_ok names : forall acc total t, typed_all acc total t -> (forall name, (acc name).2 = []) ->
  exists t', each (mark_unknown m) names t = Some t' /\
    typed_all (fun name => ((acc name).1 || bool_decide (name ∈ names), [])) total t'.
Proof.
  induction names as [|n names IH]; intros acc total t Ht Hnil.
  { exists t. split; [done|]. eapply typed_all_ext; [|done]. intros name. rewrite bool_decide_false by set_solver.
    rewrite orb_false_r, <- (Hnil name). by destruct (acc name). }
  rewrite each_cons. destruct (m !! n) as [slot|] eqn:Hm.
  - destruct (all_names _ _ _ Ht n slot Hm) as [H1 H2].
    assert (mark_unknown m n t = Some (t.1, <[slot := true]> t.2)) as ->
      by (unfold mark_unknown; by rewrite Hm, H2).
    cbn [mbind option_bind].
    destruct (IH (fun name => ((acc name).1 || bool_decide (name = n), [])) total (t.1, <[slot := true]> t.2))
      as (t2 & -> & Ht2); [|done|].
    { eapply typed_all_change; [exact Ht|exact Hm| | |]; simpl.
      - split; [done|]. intros other Hne. simpl. by rewrite list_lookup_insert_ne.
      - rewrite bool_decide_true, orb_true_r by done. split; simpl.
        + rewrite H1, Hnil. by destruct ((acc n).1).
        + apply list_lookup_insert_eq. by eapply lookup_lt_Some.
      - intros other Hne. rewrite bool_decide_false, orb_false_r by done. rewrite <- (Hnil other).
        by destruct (acc other). }
    exists t2. split; [done|]. eapply typed_all_ext; [|done]. intros name. cbn [fst snd]. f_equal.
    rewrite <- orb_assoc. f_equal. destruct (decide (name = n)) as [->|Hne].
    + by rewrite (bool_decide_true (n = n)), (bool_decide_true (n ∈ n :: names)) by (done || by left).
    + rewrite (bool_decide_false (name = n)) by done. apply bool_decide_ext. set_solver.
  - assert (mark_unknown m n t = Some t) as -> by (unfold mark_unknown; by rewrite Hm).
    cbn [mbind option_bind]. destruct (IH acc total t Ht Hnil) as (t2 & -> & Ht2). exists t2. split; [done|].
    destruct Ht2 as [A1 A2 A3]. split; [done| |done]. intros name slot Hn. specialize (A2 name slot Hn). cbn [fst snd] in *.
    assert (bool_decide (name ∈ n :: names) = bool_decide (name ∈ names)) as ->; [|done].
    apply bool_decide_ext. rewrite elem_of_cons. split; [intros [->|]; [congruence|done]|by right].
Qed.
End Proposals.

(** ** What the slotizer computes *)

Section Spec.
Context {E : Type}.
Variables (params : list (string * ValueType.t E)) (kwparams : list (SlotParamInfo E)).
Variables (code : list Instr) (generic : gset string).

(** The types proposed for a name, by its declarations and its stores. *)
Definition slot_tags (name : string) : list (option tag) :=
  tags_of name (map (fun p => (p.1, value_type_to_var_type_tag p.2)) params ++
                map (fun kw => (kw_name kw, value_type_to_var_type_tag (kw_ty kw))) kwparams ++
                store_proposals code).

Definition name_tag (name : string) : option tag :=
  if bool_decide (name ∈ generic) then None else agreed (slot_tags name).

Lemma build_slot_types_ok m total :
  (forall n1 n2 slot, m !! n1 = Some slot -> m !! n2 = Some slot -> n1 = n2) ->
  (forall name slot, m !! name = Some slot -> slot < total) ->
  exists types, build_slot_types params kwparams code m total generic = Some types /\
    length types = total /\
    (forall name slot, m !! name = Some slot -> types !! slot = Some (name_tag name)) /\
    (forall slot, slot < total -> (forall name, m !! name <> Some slot) -> types !! slot = Some None).
Proof.
  intros Hinj Hm. unfold build_slot_types.
  assert (typed_all m (fun _ => (false, [])) total (replicate total None, replicate total false)) as H0.
  { split; simpl; [by rewrite length_replicate| |by intros; apply lookup_replicate_2].
    intros name slot H%Hm. by split; apply lookup_replicate_2. }
  destruct (mark_unknown_ok m Hinj (elements generic) _ _ _ H0) as (t1 & -> & H1); [done|]. simpl.
  rewrite (each_map (fun p : string * ValueType.t E => (p.1, value_type_to_var_type_tag p.2)) (propose m)).
  destruct (proposals_ok m Hinj (map (fun p => (p.1, value_type_to_var_type_tag p.2)) params) _ _ _ H1)
    as (t2 & -> & H2). cbn [mbind option_bind].
  rewrite (each_map (fun kw : SlotParamInfo E => (kw_name kw, value_type_to_var_type_tag (kw_ty kw))) (propose m)).
  destruct (proposals_ok m Hinj (map (fun kw => (kw_name kw, value_type_to_var_type_tag (kw_ty kw))) kwparams)
    _ _ _ H2) as (t3 & -> & H3). cbn [mbind option_bind].
  rewrite (stores_ok m Hinj code _ _ _ H3).
  destruct (proposals_ok m Hinj (store_proposals code) _ _ _ H3) as (t4 & -> & [A1 A2 A3]). cbn [mbind option_bind].
  exists t4.1. split_and!; [done|done| |done]. intros name slot Hn.
  destruct (A2 name slot Hn) as [-> _]. cbn [fst snd]. unfold name_tag, slot_tags. rewrite !tags_of_app, <- (assoc_L (++)).
  simpl. assert (bool_decide (name ∈ elements generic) = bool_decide (name ∈ generic)) as ->
    by (apply bool_decide_ext; set_solver). done.
Qed.

(** The layout and the types of a function's slots. *)
Record slotted (info : SlotInfo) : Prop := {
  slotted_layout : slot_layout (slot_names info, name_to_slot info);
  slotted_names : dom (name_to_slot info) = param_names params ∪ kwparam_names kwparams ∪ stored_names code;
  slotted_params : Forall2 (fun p slot => slot_names info !! slot = Some p.1) params (param_slots info);
  slotted_placeholders i j name ty ty' slot slot' : i < j ->
    params !! i = Some (name, ty) -> params !! j = Some ("_"%string, ty') ->
    param_slots info !! i = Some slot -> param_slots info !! j = Some slot' -> slot <> slot';
  slotted_kwparams :
    Forall2 (fun kw slot => name_to_slot info !! kw_name kw = Some slot) kwparams (kwparam_slots info);
  slotted_length : length (slot_types info) = length (slot_names info);
  slotted_types name slot : name_to_slot info !! name = Some slot -> slot_types info !! slot = Some (name_tag name);
  slotted_others slot : slot < length (slot_names info) ->
    (forall name, name_to_slot info !! name <> Some slot) -> slot_types info !! slot = Some None
}.

Lemma slot_layout_inj l n1 n2 slot :
  slot_layout l -> l.2 !! n1 = Some slot -> l.2 !! n2 = Some slot -> n1 = n2.
Proof. intros [H _] H1%H H2%H. congruence. Qed.

Lemma omap_lookups (m : gmap string nat) (kws : list (SlotParamInfo E)) :
  (forall kw, kw ∈ kws -> is_Some (m !! kw_name kw)) ->
  Forall2 (fun kw slot => m !! kw_name kw = Some slot) kws (omap (fun kw => m !! kw_name kw) kws).
Proof.
  induction kws as [|kw kws IH]; intros H; [constructor|]. simpl.
  destruct (H kw) as [slot Hs]; [by left|]. rewrite Hs. constructor; [done|]. apply IH. intros k Hk. apply H. by right.
Qed.

Lemma slot_info_slotted :
  exists info, build_slot_info_with_generic_params params kwparams code generic = Some info /\ slotted info.
Proof.
  unfold build_slot_info_with_generic_params.
  destruct (params_layout ([], ∅) params) as [l slots] eqn:Hp.
  destruct (params_layout_ok params _ _ _ empty_layout Hp) as (L1 & G1 & D1 & F1 & N1 & _).
  destruct (kwparams_layout_ok kwparams l L1) as (L2 & G2 & D2).
  destruct (stores_layout_ok code _ L2) as (L3 & G3 & D3).
  set (l3 := stores_layout (kwparams_layout l kwparams) code) in *.
  destruct (build_slot_types_ok l3.2 (length l3.1)) as (types & -> & T1 & T2 & T3).
  { intros n1 n2 slot. by apply slot_layout_inj. }
  { intros name slot H. apply (layout_names _ L3) in H. by eapply lookup_lt_Some. }
  eexists. split; [done|].
  assert (dom l3.2 = param_names params ∪ kwparam_names kwparams ∪ stored_names code) as Hdom
    by (rewrite D3, D2, D1; cbn [snd]; rewrite dom_empty_L; set_solver).
  pose proof (layout_grows_trans _ _ _ G2 G3) as [Hpre _].
  split; cbn [slot_names name_to_slot slot_types param_slots kwparam_slots]; try done.
  - by destruct l3.
  - eapply Forall2_impl; [exact F1|]. intros p slot H. exact (prefix_lookup_Some _ _ _ _ H Hpre).
  - apply omap_lookups. intros kw Hkw. apply elem_of_dom. rewrite Hdom. unfold kwparam_names.
    apply elem_of_union_l, elem_of_union_r, elem_of_list_to_set, list_elem_of_fmap. by exists kw.
Qed.

(** C10. Slotizing never panics.  Names and slots correspond, every parameter, keyword and
    stored name has a slot, each placeholder one of its own, and a slot has a type
    exactly when its name is not generic and all its declarations and stores propose
    that type. *)
Theorem build_slot_info_spec :
  exists info, build_slot_info_with_generic_params params kwparams code generic = Some info /\ slotted info /\
    forall name slot t, name_to_slot info !! name = Some slot ->
      slot_type (slot_types info) slot = Some t <->
      name ∉ generic /\ slot_tags name <> [] /\ Forall (eq (Some t)) (slot_tags name).
Proof.
  destruct slot_info_slotted as (info & Hi & Hs). exists info. split_and!; [done|done|].
  intros name slot t Hm. unfold slot_type. rewrite (slotted_types _ Hs name slot Hm). simpl. unfold name_tag.
  rewrite <- agreed_Some. case_bool_decide; [by split; [|intros []]|]. by split; [|intros []].
Qed.
End Spec.

(** ** Typed code *)

(** What the interpreter's invariant knows of a tag. *)
Definition tag_kind (t : option tag) : SlotKind :=
  match t with
  | Some VarTypeTag.I64 => KI64
  | Some VarTypeTag.F64 => KF64
  | _ => KAny
  end.

Definition slot_kinds (info : SlotInfo) : slot_typing := fun slot => tag_kind (slot_type (slot_types info) slot).

(** The fused loads and updates, which get their slot whatever its type, are of [I64] slots. *)
Definition fused_typed (info : SlotInfo) (instr : Instr) : bool :=
  match instr with
  | LoadAddI64 name | LoadSubI64 name | LoadMulI64 name | LoadModI64 name
  | IncVarI64 name | DecVarI64 name =>
      match name_to_slot info !! name with
      | Some slot => bool_decide (slot_type (slot_types info) slot = Some VarTypeTag.I64)
      | None => true
      end
  | _ => true
  end.

Section Typed.
Context {E : Type}.
Variables (params : list (string * ValueType.t E)) (kwparams : list (SlotParamInfo E)).
Variables (code : list Instr) (generic : gset string) (info : SlotInfo).
Hypothesis Hinfo : slotted params kwparams code generic info.

Lemma slotted_type name slot :
  name_to_slot info !! name = Some slot ->
  slot_type (slot_types info) slot = name_tag params kwparams code generic name.
Proof. intros H. unfold slot_type. by rewrite (slotted_types _ _ _ _ _ Hinfo name slot H). Qed.

(** A store is of the type of its slot, when the slot has one. *)
Lemma store_agrees i name slot t :
  i ∈ code -> store_name i = Some name -> name_to_slot info !! name = Some slot ->
  slot_type (slot_types info) slot = Some t -> store_type_tag i = Some t.
Proof.
  intros Hi Hn Hs. rewrite (slotted_type name slot Hs). unfold name_tag. case_bool_decide; [done|].
  intros [_ Hall]%agreed_Some. rewrite Forall_forall in Hall. symmetry. apply Hall.
  unfold slot_tags, tags_of. apply list_elem_of_omap. exists (name, store_type_tag i).
  split; [|by rewrite decide_True].
  apply elem_of_app; right. apply elem_of_app; right. unfold store_proposals. apply list_elem_of_omap.
  exists i. by rewrite Hn.
Qed.

Lemma stored_slot i name :
  i ∈ code -> store_name i = Some name -> is_Some (name_to_slot info !! name).
Proof.
  intros Hi Hn. apply elem_of_dom. rewrite (slotted_names _ _ _ _ _ Hinfo). apply elem_of_union_r.
  apply elem_of_list_to_set, list_elem_of_omap. by exists i.
Qed.

Lemma slotize_instr_typed i :
  i ∈ code -> instr_typed (slot_kinds info) i -> fused_typed info i = true ->
  instr_typed (slot_kinds info) (slotize_instr (name_to_slot info) (slot_types info) i).
Proof.
  intros Hi Ht Hf. pose proof (store_agrees i) as Hst.
  assert (forall name slot, store_name i = Some name -> name_to_slot info !! name = Some slot ->
    tag_kind (slot_type (slot_types info) slot) = KAny \/
    exists t, slot_type (slot_types info) slot = Some t /\ store_type_tag i = Some t) as Hs.
  { intros name slot H1 H2. destruct (slot_type (slot_types info) slot) as [t|] eqn:H3; [|by left].
    right. exists t. split; [done|]. by eapply Hst. }
  destruct i; try exact Ht; unfold slotize_instr, typed_access, slot_access, load_of_tag, store_of_tag;
    cbn [store_name store_type_tag fused_typed] in *;
    (destruct (name_to_slot info !! name) as [slot|] eqn:Hm; [|exact Ht]);
    try (specialize (Hs name slot eq_refl Hm)).
  all: try apply bool_decide_eq_true in Hf; repeat case_match; try exact I; unfold slot_kinds; simpl;
    try (by rewrite Hf); try (by match goal with H : slot_type _ _ = Some _ |- _ => rewrite H end).
  all: try match goal with H : slot_type _ _ = _ |- _ => rewrite H end; destruct Hs as [Hs|(tg & H1 & H2)]; try exact Hs; try discriminate; injection H2 as <-; try discriminate;
    by rewrite H1 in *.
Qed.

End Typed.

(** Slotizing moves no jump. *)
Lemma slotize_targets m types i : jump_targets (slotize_instr m types i) = jump_targets i.
Proof.
  destruct i; try done; unfold slotize_instr, typed_access, slot_access, load_of_tag, store_of_tag;
    destruct (m !! name); try done; by repeat case_match.
Qed.

(** ** The main block of a running session *)

Lemma seed_layout seed : forall l, slot_layout l -> NoDup seed -> (forall name, name ∈ seed -> l.2 !! name = None) ->
  slot_layout (foldl ensure_slot l seed) /\ (foldl ensure_slot l seed).1 = l.1 ++ seed /\
  dom (foldl ensure_slot l seed).2 = list_to_set seed ∪ dom l.2.
Proof.
  induction seed as [|name seed IH]; intros l Hl Hd Hn; cbn [foldl].
  { split_and!; [done|by rewrite (right_id_L [] (++))|set_solver]. }
  apply NoDup_cons in Hd as [Hnot Hd]. destruct (ensure_slot_ok l name Hl) as (Hl1 & _ & _).
  pose proof (ensure_slot_dom l name) as Hdom.
  assert ((ensure_slot l name).1 = l.1 ++ [name]) as H1 by (unfold ensure_slot; by rewrite Hn by left).
  destruct (IH (ensure_slot l name) Hl1 Hd) as (H2 & H3 & H4).
  { intros n Hin. unfold ensure_slot. rewrite (Hn name) by left. simpl.
    rewrite lookup_insert_ne by (intros ->; done). apply Hn. by right. }
  split_and!; [done|by rewrite H3, H1, <- (assoc_L (++))|]. rewrite H4, Hdom, list_to_set_cons. set_solver.
Qed.

(** The globals that the session has keep their slots, the new ones come after them. *)
Theorem build_global_slot_info_seeded_spec {E} (seed : list string) (code : list Instr) :
  NoDup seed ->
  exists info, build_global_slot_info_seeded (E := E) seed code = Some info /\
    seed `prefix_of` slot_names info /\ slot_layout (slot_names info, name_to_slot info) /\
    dom (name_to_slot info) = list_to_set seed ∪ stored_names code /\
    length (slot_types info) = length (slot_names info) /\
    forall name slot, name_to_slot info !! name = Some slot ->
      slot_types info !! slot = Some (agreed (tags_of name (store_proposals code))).
Proof.
  intros Hd. unfold build_global_slot_info_seeded.
  destruct (seed_layout seed ([], ∅) empty_layout Hd) as (L1 & N1 & D1); [done|].
  destruct (stores_layout_ok code _ L1) as (L2 & [G2 _] & D2).
  set (l := stores_layout (foldl ensure_slot ([], ∅) seed) code) in *.
  destruct (build_slot_types_ok (E := E) [] [] code ∅ l.2 (length l.1)) as (types & Hty & T1 & T2 & _).
  { intros n1 n2 slot. by apply slot_layout_inj. }
  { intros name slot H. apply (layout_names _ L2) in H. by eapply lookup_lt_Some. }
  rewrite Hty. eexists. split; [done|]. cbn [slot_names name_to_slot slot_types].
  split_and!; [by rewrite N1 in G2|by destruct l| |done|].
  - rewrite D2, D1. cbn [snd]. rewrite dom_empty_L. set_solver.
  - intros name slot H. rewrite (T2 name slot H). unfold name_tag. by rewrite bool_decide_false by set_solver.
Qed.
