(* ===== verification/SlotizeSim.v ===== *)
(** * Slotized code runs like the code with names

    On the scalar core of the interpreter.  The frame of the code with names keeps the
    locals in [locals_any], the frame of the slotized code in [locals_slots]
    ([frames_match]).  Loads of a float in slotized code look ahead, so that one of
    their turns can be three of the code with names.

    The code with names reads a name that the main frame binds where the function has
    not assigned it yet, and the slotized code raises there; the theorem is about
    functions whose locals the main frame does not bind ([unshadowed]). *)

From S2P Require Export Slotize.

(** ** The code in question *)

(** Instructions that read or write a slot. *)
Definition touches_slots (i : Instr) : bool :=
  match i with
  | LoadSlot _ | StoreSlot _ | TakeSlot _ | LoadSlotI64 _ | StoreSlotI64 _ | LoadSlotF64 _ | StoreSlotF64 _
  | LoadSlotBool _ | StoreSlotBool _ | LoadSlotF32 _ | StoreSlotF32 _ | LoadSlotF16 _ | StoreSlotF16 _
  | LoadSlotStr _ | StoreSlotStr _ | LoadSlotChar _ | StoreSlotChar _ | LoadSlotNarrowInt _
  | StoreSlotNarrowInt _ | LoadSlotNothing _ | StoreSlotNothing _ | LoadSlotArray _ | StoreSlotArray _
  | LoadSlotTuple _ | StoreSlotTuple _ | LoadSlotNamedTuple _ | StoreSlotNamedTuple _ | LoadSlotDict _
  | StoreSlotDict _ | LoadSlotSet _ | StoreSlotSet _ | LoadSlotStruct _ | StoreSlotStruct _ | LoadSlotRange _
  | StoreSlotRange _ | LoadSlotRng _ | StoreSlotRng _ | LoadSlotGenerator _ | StoreSlotGenerator _
  | LoadSlotSymbol _ | StoreSlotSymbol _
  | LoadAddI64Slot _ | LoadSubI64Slot _ | LoadMulI64Slot _ | LoadModI64Slot _ | IncVarI64Slot _ | DecVarI64Slot _
  | JumpIfGtI64Slots _ _ _ | AddConstI64Slot _ _ | LoadAddConstI64Slot _ _ | AddConstI64SlotAndJumpIfLe _ _ _ _
  | LoadSlotI64ToF64 _ | LoadSquareF64Slot _ | LoadAddF64Slot _ | LoadSubF64Slot _ | LoadMulF64Slot _
  | LoadDivF64Slot _ | AddF64Slots _ _ _ | AddF64I64Slots _ _ _ | CallSpecializeI64Slots _
  | CallSpecializeInboundsI64Slots _ | CallResolvedI64Slots _ | CallInboundsI64Slots _
  | CallSpecializeF64Slots _ | CallSpecializeInboundsF64Slots _ | JumpIfCmpI64SlotConst _ _ _ _ => true
  | _ => false
  end.

(** The name that a load or an update by name is about, and the type it wants. *)
Definition scalar_access (i : Instr) : option (string * tag) :=
  match i with
  | LoadI64 name | StoreI64 name | LoadAddI64 name | LoadSubI64 name | LoadMulI64 name
  | IncVarI64 name | DecVarI64 name => Some (name, VarTypeTag.I64)
  | LoadF64 name | StoreF64 name => Some (name, VarTypeTag.F64)
  | _ => None
  end.

(** Other accesses by name that the slotizer rewrites. *)
Definition other_access (i : Instr) : option string :=
  match i with
  | LoadStr name | StoreStr name | LoadF32 name | StoreF32 name | LoadF16 name | StoreF16 name
  | LoadBool name | StoreBool name | LoadAny name | StoreAny name | LoadArray name | StoreArray name
  | LoadSet name | StoreSet name | LoadTuple name | StoreTuple name | LoadNamedTuple name
  | StoreNamedTuple name | LoadDict name | StoreDict name | LoadStruct name | StoreStruct name
  | LoadRange name | StoreRange name | LoadRng name | StoreRng name | LoadModI64 name => Some name
  | _ => None
  end.

Section Simulation.
Context `{ExternalConversions}.
Variable info : SlotInfo.

Abbreviation m := (name_to_slot info).
Abbreviation types := (slot_types info).

(** Code by name whose scalar accesses are of the type of their slot.  [LoadModI64] is
    left out: by name it pops before it looks at the divisor, by slot after. *)
Definition scalar_instr (i : Instr) : bool :=
  negb (touches_slots i) &&
  match scalar_access i with
  | Some (name, wanted) =>
      match m !! name with
      | Some slot => bool_decide (slot_type types slot = Some wanted)
      | None => match store_name i with Some _ => false | None => true end
      end
  | None =>
      match other_access i with
      | Some name => match m !! name with Some _ => false | None => true end
      | None => true
      end
  end.

(** ** Frames *)

Record frames_match (f ft : Frame) : Prop := {
  match_slots name slot : m !! name = Some slot ->
    locals_slots ft !! slot = Some (locals_any f !! name) /\ locals_any ft !! name = None;
  match_any name : m !! name = None -> locals_any ft !! name = locals_any f !! name;
  match_names : frame_slot_names ft = slot_names info;
  match_map : frame_slot_map ft = m;
  named_slots name : load_slot_value_by_name f name = None;
  match_typed name slot : m !! name = Some slot ->
    slot_ok (slot_kinds info slot) (Some (locals_any f !! name))
}.

(** The main frame binds none of the function's names. *)
Definition unshadowed (s : Vm) : Prop :=
  forall g name, global_frame s = Some g -> is_Some (m !! name) ->
    frame_i64_value_by_name g name = None /\ frame_f64_value_by_name g name = None.

Record good (s : Vm) (ft : Frame) : Prop := {
  good_frames : frames_match (frame s) ft;
  good_global : unshadowed s
}.

(** What both machines do: the same, but for the frame. *)
Inductive alike : DispatchAction -> DispatchAction -> Prop :=
  | alike_continue s ft : good s ft -> alike (Continue s) (Continue (set_frame ft s))
  | alike_raise e s pushed ft : good s ft -> alike (Raise e s pushed) (Raise e (set_frame ft s) pushed)
  | alike_fault e : alike (Fault e) (Fault e)
  | alike_call kind f args s ft : good s ft -> alike (CallOut kind f args s) (CallOut kind f args (set_frame ft s))
  | alike_return ret v s ft : good s ft -> alike (ReturnOut ret v s) (ReturnOut ret v (set_frame ft s))
  | alike_external i s ft : good s ft -> alike (External i s) (External i (set_frame ft s)).

(** ** Instructions without locals *)

Definition with_frame (ft : Frame) (a : DispatchAction) : DispatchAction :=
  match a with
  | Continue s => Continue (set_frame ft s)
  | Raise e s pushed => Raise e (set_frame ft s) pushed
  | Fault e => Fault e
  | CallOut kind f args s => CallOut kind f args (set_frame ft s)
  | ReturnOut ret v s => ReturnOut ret v (set_frame ft s)
  | External i s => External i (set_frame ft s)
  end.

Definition state_of (a : DispatchAction) : option Vm :=
  match a with
  | Continue s | Raise _ s _ | CallOut _ _ _ s | ReturnOut _ _ s | External _ s => Some s
  | Fault _ => None
  end.

(** The action leaves the frames of [s] alone and does not depend on them. *)
Definition frame_free (s : Vm) (run : Vm -> DispatchAction) : Prop :=
  (forall ft, run (set_frame ft s) = with_frame ft (run s)) /\
  forall s1, state_of (run s) = Some s1 -> frame s1 = frame s /\ global_frame s1 = global_frame s.

Lemma frame_free_alike s ft run : good s ft -> frame_free s run -> alike (run s) (run (set_frame ft s)).
Proof.
  intros Hg [H1 H2]. rewrite H1.
  assert (forall s1, state_of (run s) = Some s1 -> good s1 ft) as Hgood.
  { intros s1 Hs. destruct (H2 s1 Hs) as [F1 F2]. destruct Hg as [Hf Hu]. split; [by rewrite F1|].
    intros g name. rewrite F2. apply Hu. }
  destruct (run s); simpl in *; constructor; by apply Hgood.
Qed.

Lemma frame_free_pop_args n acc k : (forall args s, frame_free s (k args)) ->
  forall s, frame_free s (fun s => pop_args n s acc k).
Proof.
  intros Hk. revert acc. induction n as [|n IH]; intros acc s; simpl; [apply Hk|].
  unfold pop_value. split.
  - intros ft. simpl. destruct (stack s) as [|v st]; [done|]. apply (IH _ (set_stack st s)).
  - destruct (stack s) as [|v st]; [done|]. apply (IH _ (set_stack st s)).
Qed.

Lemma frame_free_ret s (a : Vm -> DispatchAction) :
  (forall ft, a (set_frame ft s) = with_frame ft (a s)) ->
  (forall s1, state_of (a s) = Some s1 -> frame s1 = frame s /\ global_frame s1 = global_frame s) ->
  frame_free s a.
Proof. by split. Qed.

Ltac frame_free :=
  split;
    [intros ft; simpl; repeat (case_match; simpl in *; try congruence); done
    |intros s1 Hs1; simpl in *; repeat (case_match; simpl in *; try congruence); try done;
     injection Hs1 as <-; done].

Lemma dispatch_free code i s :
  touches_slots i = false -> scalar_access i = None -> (forall name, i <> LoadModI64 name) ->
  frame_free s (dispatch_instr code i).
Proof.
  intros Ht Ha Hm.
  destruct i; try discriminate Ht; try discriminate Ha; try (by destruct (Hm name));
    unfold dispatch_instr, execute_stack, execute_i64_arithmetic, execute_f64_arithmetic,
      execute_comparison, execute_jump, execute_return, execute_call, execute_locals, execute_binary_both,
      binop_i64, binop_f64, cmp_i64, cmp_f64, exec_jump_if_zero, jump_cmp_i64, jump_f64, return_heap,
      pop_f64_or_i64, pop_bool, pop_condition, pop_i64, pop_value, jump_if, jump_to, unhandled;
    try (by apply frame_free_pop_args; split; [|intros s1 [= <-]]);
    try frame_free.
Qed.

(** ** Accesses by name *)

Hypothesis Hlayout : slot_layout (slot_names info, m).

Lemma slot_name f slot name :
  frame_slot_names f = slot_names info -> m !! name = Some slot -> slot_name_for_frame f slot = name.
Proof. intros Hf Hm. unfold slot_name_for_frame. rewrite Hf. pose proof (layout_names _ Hlayout name slot Hm) as Hn.
  simpl in Hn. by rewrite Hn. Qed.

Section Access.
Variables (s : Vm) (ft : Frame) (name : string) (slot : nat).
Hypothesis Hgood : good s ft.
Hypothesis Hm : m !! name = Some slot.

Lemma slot_holds : locals_slots ft !! slot = Some (locals_any (frame s) !! name).
Proof. by apply (match_slots _ _ (good_frames _ _ Hgood)). Qed.

Lemma global_unbound g : global_frame s = Some g ->
  frame_i64_value_by_name g name = None /\ frame_f64_value_by_name g name = None.
Proof. intros Hg. by apply (good_global _ _ Hgood). Qed.

(** A local of type [I64]: not there yet, or an integer. *)
Lemma i64_local : slot_type types slot = Some VarTypeTag.I64 ->
  (locals_any (frame s) !! name = None /\ i64_value_from_current_or_global_frame s name = None) \/
  exists z, locals_any (frame s) !! name = Some (Value.I64 z) /\ i64_value_from_current_or_global_frame s name = Some z.
Proof.
  intros Ht. pose proof (match_typed _ _ (good_frames _ _ Hgood) name slot Hm) as Hty.
  unfold slot_kinds in Hty. rewrite Ht in Hty. pose proof global_unbound as Hg.
  unfold i64_value_from_current_or_global_frame.
  destruct Hty as [[= Hn]|(z & [= Hz] & _)];
    [left; split; [done|]|right; exists z; unfold frame_i64_value_by_name, local_i64; by rewrite Hz].
  assert (frame_i64_value_by_name (frame s) name = None) as ->.
  { unfold frame_i64_value_by_name, local_i64. by rewrite Hn, (named_slots _ _ (good_frames _ _ Hgood)). }
  destruct (global_frame s) as [g|]; [|done]. by destruct (Hg g eq_refl) as [-> _].
Qed.

Lemma f64_local : slot_type types slot = Some VarTypeTag.F64 ->
  (locals_any (frame s) !! name = None /\ f64_value_from_current_or_global_frame s name = None) \/
  exists x, locals_any (frame s) !! name = Some (Value.F64 x) /\ f64_value_from_current_or_global_frame s name = Some x.
Proof.
  intros Ht. pose proof (match_typed _ _ (good_frames _ _ Hgood) name slot Hm) as Hty.
  unfold slot_kinds in Hty. rewrite Ht in Hty. pose proof global_unbound as Hg.
  unfold f64_value_from_current_or_global_frame.
  destruct Hty as [[= Hn]|(x & [= Hx])];
    [left; split; [done|]|right; exists x; unfold frame_f64_value_by_name; by rewrite Hx].
  assert (frame_f64_value_by_name (frame s) name = None) as ->.
  { unfold frame_f64_value_by_name. by rewrite Hn, (named_slots _ _ (good_frames _ _ Hgood)). }
  destruct (global_frame s) as [g|]; [|done]. by destruct (Hg g eq_refl) as [_ ->].
Qed.

(** A store of a value that fits. *)
Lemma store_alike v :
  slot_ok (slot_kinds info slot) (Some (Some v)) ->
  alike (store_any name v s) (store_slot_or_fault slot v (set_frame ft s)).
Proof.
  intros Hv. unfold store_any, store_slot_or_fault, store_slot. cbn [frame set_frame]. rewrite slot_holds.
  pose proof slot_holds as Hs%lookup_lt_Some.
  change (alike (Continue (set_frame (set_any (<[name:=v]> (locals_any (frame s))) (frame s)) s))
    (Continue (set_frame (set_slots (<[slot:=Some v]> (locals_slots ft)) ft)
      (set_frame (set_any (<[name:=v]> (locals_any (frame s))) (frame s)) s)))).
  constructor. destruct Hgood as [[M1 M2 M3 M4 M5 M6] Hu]. split; [|exact Hu]. split; cbn; try done.
  - intros n k Hn. destruct (decide (n = name)) as [->|Hne].
    + assert (k = slot) as -> by congruence. rewrite lookup_insert_eq, list_lookup_insert_eq by done.
      split; [done|by apply (M1 _ slot)].
    + assert (k <> slot) by (intros ->; by apply Hne, (slot_layout_inj _ _ _ slot Hlayout)).
      rewrite lookup_insert_ne, list_lookup_insert_ne by done. by apply M1.
  - intros n Hn. rewrite lookup_insert_ne by congruence. by apply M2.
  - intros n k Hn. destruct (decide (n = name)) as [->|Hne].
    + assert (k = slot) as -> by congruence. by rewrite lookup_insert_eq.
    + rewrite lookup_insert_ne by done. by apply M6.
Qed.
End Access.

Lemma alike_pop s ft k k' :
  (forall v st, stack s = v :: st -> alike (k v (set_stack st s)) (k' v (set_frame ft (set_stack st s)))) ->
  alike (pop_value s k) (pop_value (set_frame ft s) k').
Proof. intros Hk. unfold pop_value. simpl. destruct (stack s) as [|v st]; [constructor|by apply Hk]. Qed.

Lemma alike_pop_i64 s ft k k' :
  (forall z st, alike (k z (set_stack st s)) (k' z (set_frame ft (set_stack st s)))) ->
  alike (pop_i64 s k) (pop_i64 (set_frame ft s) k').
Proof. intros Hk. apply alike_pop. intros v st _. destruct (value_to_i64 v); [apply Hk|constructor]. Qed.

Lemma alike_pop_f64 s ft k k' :
  (forall x st, alike (k x (set_stack st s)) (k' x (set_frame ft (set_stack st s)))) ->
  alike (pop_f64_or_i64 s k) (pop_f64_or_i64 (set_frame ft s) k').
Proof. intros Hk. apply alike_pop. intros v st _. destruct (value_to_f64 v); [apply Hk|constructor]. Qed.

Lemma good_stack s ft st : good s ft -> good (set_stack st s) ft.
Proof. intros [H1 H2]. by split. Qed.

Section Mapped.
Variables (s : Vm) (ft : Frame) (name : string) (slot : nat).
Hypothesis Hgood : good s ft.
Hypothesis Hm : m !! name = Some slot.

(** Both raise for the same name. *)
Lemma raise_alike s1 :
  good s1 ft ->
  alike (Raise (UndefVarError name) s1 []) (Raise (UndefVarError (slot_name_for_frame ft slot)) (set_frame ft s1) []).
Proof.
  intros Hg.
  rewrite (slot_name ft slot name (match_names _ _ (good_frames _ _ Hgood)) Hm).
  by constructor.
Qed.

Lemma load_i64_alike :
  slot_type types slot = Some VarTypeTag.I64 ->
  alike (exec_load_i64 name s) (exec_load_slot_i64 slot (set_frame ft s)).
Proof.
  intros Ht. pose proof (slot_holds s ft name slot Hgood Hm) as Hs.
  unfold exec_load_i64, exec_load_slot_i64, read_numeric, slot_i64. cbn [frame set_frame]. rewrite Hs.
  destruct (i64_local s ft name slot Hgood Hm Ht) as [[-> ->]|(z & -> & ->)]; simpl.
  - by apply raise_alike.
  - by apply (alike_continue (push (Value.I64 z) s)), good_stack.
Qed.

Lemma load_op_i64_alike op fop :
  (forall a b, op a b = slot_arith fop a b) -> Forall val_ok (stack s) ->
  slot_type types slot = Some VarTypeTag.I64 ->
  alike (exec_load_op_i64 op name s) (exec_load_op_i64_slot fop slot (set_frame ft s)).
Proof.
  intros Hop Hst Ht. pose proof (slot_holds s ft name slot Hgood Hm) as Hs.
  unfold exec_load_op_i64, exec_load_op_i64_slot. cbn [frame set_frame]. rewrite Hs.
  destruct (i64_local s ft name slot Hgood Hm Ht) as [[-> ->]|(z & -> & ->)]; simpl.
  - by apply raise_alike.
  - unfold pop_i64. apply alike_pop. intros v st Hv. rewrite Hv in Hst. apply Forall_cons_1 in Hst as [[Hw Hi] _].
    rewrite (signed_slot_op_i64 fop v z Hw Hi). destruct (value_to_i64 v) as [r|e] eqn:He.
    + rewrite Hop.
      by apply (alike_continue (push (Value.I64 (wrap_s 64 (slot_arith fop r z))) (set_stack st s))), good_stack, good_stack.
    + apply value_to_i64_err in He as ->. constructor.
Qed.

Lemma store_i64_alike :
  slot_type types slot = Some VarTypeTag.I64 -> Forall val_ok (stack s) ->
  alike (exec_store_i64 name s) (exec_store_slot_i64 slot (set_frame ft s)).
Proof.
  intros Ht Hst. unfold exec_store_i64, exec_store_slot_i64, pop_i64. apply alike_pop. intros v st Hv.
  rewrite Hv in Hst. apply Forall_cons_1 in Hst as [[Hw _] _].
  destruct (value_to_i64 v) as [z|e] eqn:Hz; [|constructor].
  apply (store_alike (set_stack st s) ft name slot); [by apply good_stack|done|]. unfold slot_kinds. rewrite Ht. right.
  exists z. split; [done|]. by eapply value_to_i64_in.
Qed.

Lemma store_f64_alike :
  slot_type types slot = Some VarTypeTag.F64 ->
  alike (exec_store_f64 name s) (exec_store_slot_f64 slot (set_frame ft s)).
Proof.
  intros Ht. unfold exec_store_f64, exec_store_slot_f64. apply alike_pop_f64. intros x st.
  apply (store_alike (set_stack st s) ft name slot); [by apply good_stack|done|]. unfold slot_kinds. rewrite Ht. right. by exists x.
Qed.

Lemma update_i64_alike op upd :
  (forall v a, op v a = upd a v) -> slot_type types slot = Some VarTypeTag.I64 ->
  alike (exec_update_var_i64 op name s)
    (pop_i64 (set_frame ft s) (fun amount s => update_slot_i64 (upd amount) slot s)).
Proof.
  intros Hop Ht. apply alike_pop_i64. intros z st. unfold update_slot_i64. cbn [frame set_frame set_stack].
  rewrite (slot_holds s ft name slot Hgood Hm). unfold local_i64.
  pose proof (global_unbound s ft name slot Hgood Hm) as Hg.
  destruct (i64_local s ft name slot Hgood Hm Ht) as [[-> _]|(x & -> & _)].
  - cbn [global_frame set_stack]. destruct (global_frame s) as [g|]; [|by apply raise_alike, good_stack].
    destruct (Hg g eq_refl) as [Hn _]. unfold frame_i64_value_by_name, local_i64 in Hn.
    destruct (locals_any g !! name) as [[]|]; try (by apply raise_alike, good_stack). done.
  - rewrite Hop. apply (store_alike (set_stack st s) ft name slot); [by apply good_stack|done|]. unfold slot_kinds. rewrite Ht.
    right. eexists. split; [done|]. apply wrap_s_in. lia.
Qed.
End Mapped.

(** A name without a slot reads the same in both frames. *)
Section Unmapped.
Variables (s : Vm) (ft : Frame) (name : string).
Hypothesis Hgood : good s ft.
Hypothesis Hm : m !! name = None.

Lemma unmapped_i64 :
  i64_value_from_current_or_global_frame (set_frame ft s) name = i64_value_from_current_or_global_frame s name.
Proof.
  destruct Hgood as [[_ M2 _ M4 M5 _] _].
  unfold i64_value_from_current_or_global_frame, frame_i64_value_by_name, local_i64.
  cbn [frame set_frame global_frame]. rewrite (M2 name Hm), (M5 name).
  assert (load_slot_value_by_name ft name = None) as -> by (unfold load_slot_value_by_name; by rewrite M4, Hm).
  done.
Qed.

Lemma unmapped_f64 :
  f64_value_from_current_or_global_frame (set_frame ft s) name = f64_value_from_current_or_global_frame s name.
Proof.
  destruct Hgood as [[_ M2 _ M4 M5 _] _].
  unfold f64_value_from_current_or_global_frame, frame_f64_value_by_name.
  cbn [frame set_frame global_frame]. rewrite (M2 name Hm), (M5 name).
  assert (load_slot_value_by_name ft name = None) as -> by (unfold load_slot_value_by_name; by rewrite M4, Hm).
  done.
Qed.

Lemma unmapped_load_i64 : alike (exec_load_i64 name s) (exec_load_i64 name (set_frame ft s)).
Proof.
  unfold exec_load_i64. rewrite unmapped_i64. destruct (i64_value_from_current_or_global_frame s name) as [z|].
  - by apply (alike_continue (push (Value.I64 z) s)), good_stack.
  - by constructor.
Qed.

Lemma unmapped_load_f64 : alike (exec_load_f64 name s) (exec_load_f64 name (set_frame ft s)).
Proof.
  unfold exec_load_f64. rewrite unmapped_f64. destruct (f64_value_from_current_or_global_frame s name) as [x|].
  - by apply (alike_continue (push (Value.F64 x) s)), good_stack.
  - by constructor.
Qed.

Lemma unmapped_load_op op : alike (exec_load_op_i64 op name s) (exec_load_op_i64 op name (set_frame ft s)).
Proof.
  unfold exec_load_op_i64. rewrite unmapped_i64.
  destruct (i64_value_from_current_or_global_frame s name) as [z|]; [|by constructor].
  apply alike_pop_i64. intros r st.
  by apply (alike_continue (push (Value.I64 (wrap_s 64 (op r z))) (set_stack st s))), good_stack, good_stack.
Qed.

Lemma unmapped_load_mod : alike (exec_load_mod_i64 name s) (exec_load_mod_i64 name (set_frame ft s)).
Proof.
  unfold exec_load_mod_i64. rewrite unmapped_i64.
  destruct (i64_value_from_current_or_global_frame s name) as [z|]; [|by constructor].
  apply alike_pop_i64. intros r st. case_bool_decide; [by constructor; apply good_stack|].
  by apply (alike_continue (push (Value.I64 (wrap_s 64 (Z.rem r z))) (set_stack st s))), good_stack, good_stack.
Qed.
End Unmapped.

(** ** Looking ahead *)

Section Ahead.
Variable code : list Instr.
Abbreviation code' := (slotize_code m types code).

Lemma slotized_at n : code' !! n = slotize_instr m types <$> code !! n.
Proof. apply list_lookup_fmap. Qed.

(** Instructions that no access by name becomes. *)
Lemma slotized_back i j :
  slotize_instr m types i = j -> touches_slots j = false -> scalar_access j = None -> other_access j = None -> i = j.
Proof.
  intros <-. destruct i; try done; unfold slotize_instr, typed_access, slot_access, load_of_tag, store_of_tag;
    destruct (m !! name); try done; repeat case_match; done.
Qed.

Lemma slotized_next n j :
  touches_slots j = false -> scalar_access j = None -> other_access j = None ->
  code' !! n = Some j -> code !! n = Some j.
Proof.
  intros H1 H2 H3. rewrite slotized_at. destruct (code !! n) as [i|]; [|done]. intros [= Hi].
  f_equal. by apply slotized_back.
Qed.

(** The code with names gets from [s] to [s1] in a few turns. *)
Inductive turns : nat -> Vm -> Vm -> Prop :=
  | turns_0 s : turns 0 s s
  | turns_S n s s1 s2 : step code s = Continue s1 -> turns n s1 s2 -> turns (S n) s s2.

Lemma turns_activation env n s s1 : turns n s s1 ->
  forall fuel out, activation env code fuel s = Some out ->
  exists rest, fuel = n + rest /\ activation env code rest s1 = Some out.
Proof.
  induction 1 as [s|n s s1 s2 Hs _ IH]; intros fuel out Hr; [by exists fuel|].
  destruct fuel as [|fuel]; [done|]. cbn [activation] in Hr. rewrite Hs in Hr.
  destruct (IH fuel out Hr) as (rest & -> & Hrest). by exists rest.
Qed.

(** A load of a float: as the load by name, or with what follows it. *)
Lemma load_f64_ahead s ft name slot :
  good s ft -> m !! name = Some slot -> slot_type types slot = Some VarTypeTag.F64 ->
  alike (exec_load_f64 name s) (exec_load_slot_f64 code' slot (set_frame ft s)) \/
  exists s1 s2 n, exec_load_f64 name s = Continue s1 /\ turns n s1 s2 /\ good s2 ft /\
    exec_load_slot_f64 code' slot (set_frame ft s) = Continue (set_frame ft s2).
Proof.
  intros Hg Hm Ht. pose proof (slot_holds s ft name slot Hg Hm) as Hs.
  assert (alike (exec_load_f64 name s) (load_slot_f64_plain slot (set_frame ft s))) as Hplain.
  { unfold exec_load_f64, load_slot_f64_plain, slot_f64. cbn [frame set_frame]. rewrite Hs.
    destruct (f64_local s ft name slot Hg Hm Ht) as [[-> ->]|(x & -> & ->)].
    - by eapply raise_alike.
    - by apply (alike_continue (push (Value.F64 x) s)), good_stack. }
  unfold exec_load_slot_f64. cbn [ip set_frame frame stack].
  destruct (code' !! ip s) as [i|] eqn:Hi; [|by left].
  destruct i; try (by left); [|destruct op; [|by left]].
  - apply slotized_next in Hi; [|done..].
    destruct (code' !! S (ip s)) as [j|] eqn:Hj; [|by left]. destruct j; try (by left).
    apply slotized_next in Hj; [|done..].
    unfold slot_f64_for_op, slot_f64. rewrite Hs. unfold exec_load_f64.
    destruct (f64_local s ft name slot Hg Hm Ht) as [[-> ->]|(x & -> & ->)]; simpl.
    + left. by eapply raise_alike.
    + right. exists (push (Value.F64 x) s), (set_ip (ip s + 2) (push (Value.F64 (f64_mul x x)) s)), 2.
      split_and!; [done| |by destruct Hg|done].
      eapply turns_S; [unfold step; cbn [ip push set_stack]; by rewrite Hi|].
      eapply turns_S; [unfold step; cbn [ip push set_stack set_ip]; rewrite Hj; reflexivity|].
      cbn. replace (ip s + 2) with (S (S (ip s))) by lia. constructor.
  - apply slotized_next in Hi; [|done..].
    unfold slot_f64_for_op, slot_f64. rewrite Hs.
    destruct (f64_local s ft name slot Hg Hm Ht) as [[Hl Hv]|(x & Hl & Hv)]; rewrite Hl; [by left|].
    destruct (stack s) as [|[] st] eqn:Hst; try (by left).
    right. exists (push (Value.F64 x) s), (set_ip (S (ip s)) (set_stack (Value.F64 (f64_add x0 x) :: st) s)), 1.
    unfold exec_load_f64. rewrite Hv. split_and!; [done| |by destruct Hg|done].
    eapply turns_S; [|constructor]. unfold step. cbn [ip push set_stack]. rewrite Hi.
    cbn [dispatch_instr]. unfold execute_binary_both. cbn [stack set_ip push set_stack]. rewrite Hst. done.
Qed.

(** ** A turn *)

Hypothesis Hscalar : forallb scalar_instr code = true.

Lemma good_ip s ft n : good s ft -> good (set_ip n s) ft.
Proof. intros [H1 H2]. by split. Qed.

Lemma dispatch_alike i s ft :
  scalar_instr i = true -> good s ft -> Forall val_ok (stack s) ->
  alike (dispatch_instr code i s) (dispatch_instr code' (slotize_instr m types i) (set_frame ft s)) \/
  exists s1 s2 n, dispatch_instr code i s = Continue s1 /\ turns n s1 s2 /\ good s2 ft /\
    dispatch_instr code' (slotize_instr m types i) (set_frame ft s) = Continue (set_frame ft s2).
Proof.
  unfold scalar_instr. intros [Ht Ha]%andb_true_iff Hg Hst. apply negb_true_iff in Ht.
  destruct (scalar_access i) as [[name wanted]|] eqn:Hacc.
  - destruct (m !! name) as [slot|] eqn:Hm.
    + apply bool_decide_eq_true in Ha.
      destruct i; try discriminate Hacc; injection Hacc as <- <-;
        unfold slotize_instr, typed_access, slot_access; rewrite Hm, ?(decide_True _ _ Ha).
      * left. by eapply load_i64_alike.
      * left. by eapply store_i64_alike.
      * by eapply load_f64_ahead.
      * left. by eapply store_f64_alike.
      * left. by eapply load_op_i64_alike.
      * left. by eapply load_op_i64_alike.
      * left. by eapply load_op_i64_alike.
      * left. by eapply (update_i64_alike s ft _ slot Hg Hm Z.add (fun a v => (v + a)%Z)).
      * left. by eapply (update_i64_alike s ft _ slot Hg Hm Z.sub (fun a v => (v - a)%Z)).
    + left. destruct i; try discriminate Hacc; injection Hacc as <- <-; try discriminate Ha;
        unfold slotize_instr, typed_access, slot_access; rewrite Hm;
        eauto using unmapped_load_i64, unmapped_load_f64, unmapped_load_op.
  - left. assert (slotize_instr m types i = i) as ->.
    { destruct i; try done; unfold slotize_instr, typed_access, slot_access; simpl in Ha;
        by match goal with |- context [m !! ?n] => destruct (m !! n) end. }
    destruct (other_access i) as [name|] eqn:Ho.
    + destruct (m !! name) eqn:Hm; [done|].
      destruct i; try discriminate Ho; injection Ho as <-; try (by constructor). by apply unmapped_load_mod.
    + assert (dispatch_instr code' i = dispatch_instr code i) as ->.
      { destruct i; try discriminate Ht; try discriminate Ho; done. }
      apply frame_free_alike; [done|]. apply dispatch_free; [done|done|]. by intros name ->.
Qed.

(** ** Whole activations *)

(** Calls and instructions outside of the model do the same for both frames. *)
Record environment_blind (env : Environment) : Prop := {
  blind_resumes a a' s1 : alike a a' -> resume env a = Some s1 ->
    exists ft, resume env a' = Some (set_frame ft s1) /\ good s1 ft;
  blind_leaves a a' : alike a a' -> resume env a = None -> resume env a' = None
}.

Abbreviation untyped := (fun _ : nat => KAny).

Definition goes_on (a : DispatchAction) : bool := match a with Continue _ => true | _ => false end.

Lemma activation_leaves env c fuel s a :
  step c s = a -> goes_on a = false ->
  activation env c (S fuel) s =
  match resume env a with Some s1 => activation env c fuel s1 | None => Some a end.
Proof. cbn [activation]. intros -> Ha. by destruct a. Qed.

Lemma alike_goes_on a a' : alike a a' -> goes_on a' = goes_on a.
Proof. by destruct 1. Qed.

Lemma turns_run env n s s1 fuel out : turns n s s1 ->
  activation env code fuel s1 = Some out -> activation env code (n + fuel) s = Some out.
Proof. induction 1 as [s|n s s1 s2 Hs _ IH]; intros Hr; [done|]. simpl. rewrite Hs. by apply IH. Qed.

Lemma turns_ok n s s1 : code_typed untyped code -> turns n s s1 -> state_ok untyped s -> state_ok untyped s1.
Proof.
  intros Hty. induction 1 as [|n s s1 s2 Hs _ IH]; [done|]. intros Hok. apply IH.
  pose proof (step_ok untyped code s Hty Hok) as H1. by rewrite Hs in H1.
Qed.

Lemma step_alike s ft :
  good s ft -> state_ok untyped s ->
  alike (step code s) (step code' (set_frame ft s)) \/
  exists s1 s2 n, step code s = Continue s1 /\ turns n s1 s2 /\ good s2 ft /\
    step code' (set_frame ft s) = Continue (set_frame ft s2).
Proof.
  intros Hg Hok. unfold step. cbn [ip set_frame]. rewrite slotized_at. destruct (code !! ip s) as [i|] eqn:Hi; simpl.
  - apply (dispatch_alike i (set_ip (S (ip s)) s) ft); [|by apply good_ip|apply Hok].
    rewrite forallb_forall in Hscalar. by eapply Hscalar, list_elem_of_In, list_elem_of_lookup_2.
  - left. constructor.
Qed.

Lemma slotize_forward env fuel : forall s ft out,
  environment_ok untyped env -> environment_blind env -> code_typed untyped code ->
  good s ft -> state_ok untyped s -> activation env code fuel s = Some out ->
  exists fuel' out', activation env code' fuel' (set_frame ft s) = Some out' /\ alike out out'.
Proof.
  induction fuel as [fuel IH] using lt_wf_ind. intros s ft out He Hb Hty Hg Hok Hr.
  destruct fuel as [|fuel]; [done|]. pose proof (step_ok untyped code s Hty Hok) as Hok1.
  destruct (step_alike s ft Hg Hok) as [Ha|(s1 & s2 & n & H1 & Hn & Hg2 & H2)].
  - destruct (goes_on (step code s)) eqn:Hgo.
    + cbn [activation] in Hr. inversion Ha as [s1 ft1 Hg1 Hs Hs'| | | | |];
        try (by match goal with H : _ = step code s |- _ => rewrite <- H in Hgo end).
      rewrite <- Hs in Hr, Hok1. destruct (IH fuel ltac:(lia) s1 ft1 out) as (f2 & out2 & Hr2 & Ha2); try done.
      exists (S f2), out2. cbn [activation]. by rewrite <- Hs'.
    + pose proof (alike_goes_on _ _ Ha) as Hgo'. rewrite Hgo in Hgo'.
      rewrite (activation_leaves env code fuel s _ eq_refl Hgo) in Hr.
      destruct (resume env (step code s)) as [s1|] eqn:Hres.
      * destruct (blind_resumes _ Hb _ _ s1 Ha Hres) as (ft1 & Hres' & Hg1).
        destruct (IH fuel ltac:(lia) s1 ft1 out) as (f2 & out2 & Hr2 & Ha2); try done.
        { by eapply resume_typed. }
        exists (S f2), out2. split; [|done]. by rewrite (activation_leaves env code' f2 _ _ eq_refl Hgo'), Hres'.
      * injection Hr as <-. exists 1. eexists. split; [|exact Ha].
        rewrite (activation_leaves env code' 0 _ _ eq_refl Hgo').
        by rewrite (blind_leaves _ Hb _ _ Ha Hres).
  - cbn [activation] in Hr. rewrite H1 in Hr, Hok1.
    destruct (turns_activation env n s1 s2 Hn fuel out Hr) as (rest & -> & Hrest).
    destruct (IH rest ltac:(lia) s2 ft out) as (f2 & out2 & Hr2 & Ha2); try done.
    { by eapply turns_ok. }
    exists (S f2), out2. cbn [activation]. by rewrite H2.
Qed.

Lemma slotize_backward env fuel : forall s ft out',
  environment_ok untyped env -> environment_blind env -> code_typed untyped code ->
  good s ft -> state_ok untyped s -> activation env code' fuel (set_frame ft s) = Some out' ->
  exists fuel' out, activation env code fuel' s = Some out /\ alike out out'.
Proof.
  induction fuel as [|fuel IH]; intros s ft out' He Hb Hty Hg Hok Hr; [done|].
  pose proof (step_ok untyped code s Hty Hok) as Hok1.
  destruct (step_alike s ft Hg Hok) as [Ha|(s1 & s2 & n & H1 & Hn & Hg2 & H2)].
  - pose proof (alike_goes_on _ _ Ha) as Hgo'. destruct (goes_on (step code s)) eqn:Hgo.
    + cbn [activation] in Hr. inversion Ha as [s1 ft1 Hg1 Hs Hs'| | | | |];
        try (by match goal with H : _ = step code s |- _ => rewrite <- H in Hgo end).
      rewrite <- Hs' in Hr. rewrite <- Hs in Hok1. destruct (IH s1 ft1 out') as (f2 & out & Hr2 & Ha2); try done.
      exists (S f2), out. cbn [activation]. by rewrite <- Hs.
    + rewrite (activation_leaves env code' fuel _ _ eq_refl Hgo') in Hr.
      destruct (resume env (step code s)) as [s1|] eqn:Hres.
      * destruct (blind_resumes _ Hb _ _ s1 Ha Hres) as (ft1 & Hres' & Hg1). rewrite Hres' in Hr.
        destruct (IH s1 ft1 out') as (f2 & out & Hr2 & Ha2); try done.
        { by eapply resume_typed. }
        exists (S f2), out. split; [|done]. by rewrite (activation_leaves env code f2 _ _ eq_refl Hgo), Hres.
      * rewrite (blind_leaves _ Hb _ _ Ha Hres) in Hr. injection Hr as <-.
        exists 1. eexists. split; [|exact Ha]. by rewrite (activation_leaves env code 0 _ _ eq_refl Hgo), Hres.
  - cbn [activation] in Hr. rewrite H2 in Hr. rewrite H1 in Hok1.
    destruct (IH s2 ft out') as (f2 & out & Hr2 & Ha2); try done.
    { by eapply turns_ok. }
    exists (S n + f2), out. split; [|done]. by eapply turns_run; [eapply turns_S|].
Qed.
End Ahead.

(** ** States *)

(** The frame with the locals of [f] in their slots. *)
Definition slot_frame (f : Frame) : Frame :=
  {| locals_slots := (fun name => locals_any f !! name) <$> slot_names info;
     locals_any := filter (fun kv => m !! kv.1 = None) (locals_any f);
     frame_slot_names := slot_names info;
     frame_slot_map := m |}.

(** A state of the code with names, whose locals are of the types of their slots. *)
Record named_state (s : Vm) : Prop := {
  named_map : frame_slot_map (frame s) = ∅;
  named_typed : map_Forall (fun name slot => slot_ok (slot_kinds info slot) (Some (locals_any (frame s) !! name))) m;
  named_global : unshadowed s
}.

Lemma slot_frame_good s : named_state s -> good s (slot_frame (frame s)).
Proof.
  intros [H1 H2 H3]. split; [|done]. split; cbn; try done.
  - intros name slot Hm. rewrite list_lookup_fmap. pose proof (layout_names _ Hlayout name slot Hm) as Hn. simpl in Hn.
    rewrite Hn. split; [done|]. apply map_lookup_filter_None. right. intros v _. simpl. congruence.
  - intros name Hm. destruct (locals_any (frame s) !! name) as [v|] eqn:Hv.
    + by apply map_lookup_filter_Some.
    + apply map_lookup_filter_None. by left.
  - intros name. unfold load_slot_value_by_name. by rewrite H1.
Qed.
End Simulation.

Lemma no_environment_blind `{ExternalConversions} info : environment_blind info no_environment.
Proof. split; [by intros a a' s1 []|by intros a a' []]. Qed.

(** C9. Slotized code and the code with names have the same outcomes, from a state and
    from the state that has its locals in slots. *)
Theorem slotize_correct `{ExternalConversions} {E} (params : list (string * ValueType.t E)) kwparams code generic
    info env s :
  build_slot_info_with_generic_params params kwparams code generic = Some info ->
  forallb (scalar_instr info) code = true -> environment_ok (fun _ => KAny) env -> environment_blind info env ->
  code_typed (fun _ => KAny) code -> state_ok (fun _ => KAny) s -> named_state info s ->
  let code' := slotize_code (name_to_slot info) (slot_types info) code in
  let t := set_frame (slot_frame info (frame s)) s in
  (forall fuel out, activation env code fuel s = Some out ->
     exists fuel' out', activation env code' fuel' t = Some out' /\ alike info out out') /\
  (forall fuel out', activation env code' fuel t = Some out' ->
     exists fuel' out, activation env code fuel' s = Some out /\ alike info out out').
Proof.
  intros Hi Hsc He Hb Hty Hok Hn code' t.
  destruct (slot_info_slotted params kwparams code generic) as (info' & Hi' & Hsl).
  rewrite Hi in Hi'. injection Hi' as <-. pose proof (slotted_layout _ _ _ _ _ Hsl) as Hl.
  pose proof (slot_frame_good info Hl s Hn) as Hg. split; intros fuel out Hr.
  - by apply (slotize_forward info Hl code Hsc env fuel s (slot_frame info (frame s)) out).
  - by apply (slotize_backward info Hl code Hsc env fuel s (slot_frame info (frame s)) out).
Qed.

(** ** A witness *)

#[local] Instance slot_ok_dec k v : Decision (slot_ok k v).
Proof.
  refine (match k, v with
    | KAny, _ => left I
    | _, Some None => left (or_introl eq_refl)
    | KI64, Some (Some (Value.I64 z)) =>
        match decide (in_s 64 z) with left Hz => left (or_intror (ex_intro _ z (conj eq_refl Hz))) | right _ => right _ end
    | KF64, Some (Some (Value.F64 x)) => left (or_intror (ex_intro _ x eq_refl))
    | _, _ => right _
    end); simpl; intros [?|?]; naive_solver.
Defined.

#[local] Instance no_conversions : ExternalConversions :=
  {| bigint_to_f64 := fun _ => f64_zero; heap_pop_f64 := fun _ _ => None; heap_convert_f64 := fun _ _ => None |}.

(** [x = 2.0; y = x * x; k = n; k += 1; return k + 3], with a keyword and two
    placeholders among the parameters. *)
Definition named_params : list (string * ValueType.t unit) :=
  [("_", ValueType.Any unit); ("n", ValueType.I64 unit); ("_", ValueType.DataType unit)]%string.

Definition named_kwparams : list (SlotParamInfo unit) := [{| kw_name := "tol"; kw_ty := ValueType.F64 unit |}].

Definition named_code : list Instr :=
  [PushF64 (f64_of_Z 2); StoreF64 "x"; LoadF64 "x"; DupF64; MulF64; StoreF64 "y";
   LoadI64 "n"; StoreI64 "k"; PushI64 1; IncVarI64 "k"; PushI64 3; LoadAddI64 "k"; ReturnI64]%string.

Definition named_info : SlotInfo :=
  {| slot_names := ["_"; "n"; "_"; "tol"; "x"; "y"; "k"]%string;
     name_to_slot := list_to_map [("n", 1); ("tol", 3); ("x", 4); ("y", 5); ("k", 6)]%string;
     slot_types := [None; Some VarTypeTag.I64; None; Some VarTypeTag.F64; Some VarTypeTag.F64;
                    Some VarTypeTag.F64; Some VarTypeTag.I64];
     param_slots := [0; 1; 2]; kwparam_slots := [3] |}.

Definition named_start : Vm :=
  {| ip := 0; stack := [];
     frame := {| locals_slots := []; locals_any := {[ "n"%string := Value.I64 4 ]};
                 frame_slot_names := []; frame_slot_map := ∅ |};
     global_frame := None |}.

Lemma slotize_correct_witness :
  build_slot_info_with_generic_params named_params named_kwparams named_code ∅ = Some named_info /\
  exists out, activation no_environment
      (slotize_code (name_to_slot named_info) (slot_types named_info) named_code) 11
      (set_frame (slot_frame named_info (frame named_start)) named_start) = Some (ReturnOut ReturnI64 (Value.I64 8) out) /\
    exists fuel' s', activation no_environment named_code fuel' named_start = Some s' /\
      alike named_info s' (ReturnOut ReturnI64 (Value.I64 8) out).
Proof.
  assert (build_slot_info_with_generic_params named_params named_kwparams named_code ∅ = Some named_info) as Hi
    by (vm_compute; reflexivity).
  split; [exact Hi|].
  eexists. split; [vm_compute; reflexivity|].
  refine (proj2 (slotize_correct named_params named_kwparams named_code ∅ named_info no_environment named_start
    Hi _ _ _ _ _ _) 11 _ _).
  - vm_compute. reflexivity.
  - apply no_environment_ok.
  - apply no_environment_blind.
  - apply (bool_decide_unpack _). vm_compute. exact I.
  - split; simpl; [constructor| | |done].
    + split; [constructor|]. apply map_Forall_singleton. by split.
    + done.
  - split; [done| |intros g name [=]].
    apply (bool_decide_unpack _). vm_compute. exact I.
  - vm_compute. reflexivity.
Defined.


Lemma build_global_slot_info_seeded_spec_witness :
  exists info, build_global_slot_info_seeded (E := unit) ["a"; "b"]%string [PushI64 1; StoreI64 "c"; PushI64 2; StoreI64 "a"]
      = Some info /\
    slot_names info = ["a"; "b"; "c"]%string /\ ["a"; "b"]%string `prefix_of` slot_names info.
Proof.
  destruct (build_global_slot_info_seeded_spec (E := unit) ["a"; "b"]%string
    [PushI64 1; StoreI64 "c"; PushI64 2; StoreI64 "a"]) as (info & Hi & Hp & _).
  { apply (bool_decide_unpack _). vm_compute. exact I. }
  exists info. split_and!; [exact Hi| |exact Hp]. vm_compute in Hi. by injection Hi as <-.
Defined.
