(* ===== verification/Examples.v ===== *)
(** * Where the peephole optimizer changes the program

    Concrete programs on which the optimized code does something else than the
    code that the optimizer was given. *)

From S2P Require Export PeepholeExec PeepholeMapping SlotBackingSound.

(** A frame with the given slots. *)
Definition frame_of (slots : list (option value)) : Frame :=
  {| locals_slots := slots; locals_any := ∅; frame_slot_names := []; frame_slot_map := ∅ |}.

Definition start (slots : list (option value)) : Vm :=
  {| ip := 0; stack := []; frame := frame_of slots; global_frame := None |}.

(** The value that a run returns. *)
Definition returned (r : option DispatchAction) : option value :=
  match r with Some (ReturnOut _ v _) => Some v | _ => None end.

Section Bugs.
Context `{ExternalConversions}.

(** [x = 10 - x]: push 10, subtract the slot, store the slot. *)
Definition reversed_subtraction : list Instr :=
  [PushI64 10; LoadSlotI64 0; SubI64; StoreSlotI64 0; LoadSlotI64 0; ReturnI64].

Lemma reversed_subtraction_code :
  (optimize reversed_subtraction).1 =
  [PushI64 10; DecVarI64Slot 0; LoadSlotI64 0; ReturnI64].
Proof. vm_compute. reflexivity. Qed.

(** The update window with a subtraction, at any state: the window stores
    [popped - slot], the instruction it is fused into [slot - popped]. *)
Lemma reversed_subtraction_window code code' i slot a x s st k :
  code !! i = Some (LoadSlotI64 slot) -> code !! S i = Some SubI64 ->
  code !! S (S i) = Some (StoreSlotI64 slot) -> code' !! k = Some (DecVarI64Slot slot) ->
  ip s = i -> stack s = Value.I64 a :: st ->
  locals_slots (frame s) !! slot = Some (Some (Value.I64 x)) ->
  (exists s1, steps code 3 s = Continue s1 /\
     locals_slots (frame s1) !! slot = Some (Some (Value.I64 (wrap_s 64 (a - x))))) /\
  (exists s1', steps code' 1 (set_ip k s) = Continue s1' /\
     locals_slots (frame s1') !! slot = Some (Some (Value.I64 (wrap_s 64 (x - a))))).
Proof.
  intros H0 H1 H2 Hk Hip Hst Hslot. destruct s as [ip0 st0 fr gl]; simpl in *; subst.
  pose proof (lookup_lt_Some _ _ _ Hslot) as Hlt.
  split; exec; (eexists; split; [reflexivity|]); simpl; by apply list_lookup_insert_eq.
Qed.


(** [(c ? 7 : a) < a]: both branches meet at the second load of [a]. *)
Definition join_before_load : list Instr :=
  [ LoadSlotBool 1; JumpIfZero 4; PushI64 7; Jump 5; LoadSlotI64 0;
    LoadSlotI64 0; LtI64; ReturnAny ].

Lemma join_before_load_code :
  (optimize join_before_load).1 =
  [ LoadSlotBool 1; JumpIfZero 4; PushI64 7; Jump 5; LoadSlotI64 0; DupI64; LtI64; ReturnAny ].
Proof. vm_compute. reflexivity. Qed.


(** A call [f(a, b)] with [b] undefined, inside a [try] whose handler was
    installed with one operand on the stack: after the fused call the argument
    [a] is left above that operand. *)
Definition undefined_argument : list Instr :=
  [LoadSlotI64 0; LoadSlotI64 1; CallResolved 0 2].

Lemma undefined_argument_code :
  (optimize undefined_argument).1 =
  [CallResolvedI64Slots {| func_index := 0; cd_slots := [0; 1] |}].
Proof. vm_compute. reflexivity. Qed.

End Bugs.

(** * The theorems on concrete programs

    Small programs that meet the hypotheses of the theorems, and what the
    theorems say of them. *)

(** No value needs code outside the model to become a [Float64]. *)
#[local] Instance plain_conversions : ExternalConversions :=
  {| bigint_to_f64 := f64_of_Z; heap_pop_f64 := fun _ _ => None;
     heap_convert_f64 := fun _ _ => None |}.

(** Slots below 4 hold [Int64] values. *)
Definition four_ints : slot_typing := fun slot => if slot <? 4 then KI64 else KAny.

Definition frame5 (a b : Z) (v : option value) : Vm :=
  start [Some (Value.I64 a); Some (Value.I64 b); None; None; v].

Ltac by_computation := apply (bool_decide_unpack _); vm_compute; exact I.

Lemma frame5_ok a b v k :
  in_s 64 a -> in_s 64 b -> opt_val_ok v -> state_ok four_ints (set_ip k (frame5 a b v)).
Proof.
  intros Ha Hb Hv. constructor; simpl.
  - constructor.
  - constructor; simpl; [|apply map_Forall_empty].
    repeat constructor; try done; by apply val_ok_i64.
  - intros slot. do 5 (destruct slot as [|slot]; [simpl; eauto|]). by destruct slot.
  - done.
Qed.

(** A callee that adds one to the first argument, and no other environment. *)
Definition increment : Environment :=
  {| call_returns _ _ args s :=
       match args with
       | Value.I64 z :: _ => Some (push (Value.I64 (wrap_s 64 (z + 1))) s)
       | _ => None
       end;
     external_step _ _ := None |}.

Lemma increment_ok G : environment_ok G increment.
Proof.
  constructor; try done.
  - intros kind f args n s. by destruct args as [|[] ?].
  - intros a s Hok Hr. destruct a as [| | |kind f args s1| |]; try done. destruct Hok as [Hs Hargs].
    destruct args as [|[] ?]; try done. injection Hr as <-.
    apply state_ok_push; [apply val_ok_wrap|done].
Qed.

(** Two functions, [f(x, y)] with a common subexpression, a duplicated load and
    a call, and [g(v) = v]; the main block starts at 15. *)
Definition program : list Instr :=
  [ LoadSlotI64 0; LoadAddI64Slot 1; StoreSlotI64 2;
    LoadSlotI64 0; LoadAddI64Slot 1; StoreSlotI64 3;
    LoadSlotI64 2; CallResolved 7 1; StoreSlotI64 2;
    LoadSlotI64 3; LoadSlotI64 3; GtI64; ReturnAny;
    LoadSlot 4; ReturnAny;
    PushNothing; ReturnNothing ].

Definition program_protection : MainStoreProtection :=
  {| main_entry := 15; protected_slots := ∅ |}.

Example program_optimized :
  (optimize_protecting_main_stores program program_protection).1 =
  [ LoadSlotI64 0; LoadAddI64Slot 1; StoreSlotI64 2;
    LoadSlotI64 2; StoreSlotI64 3;
    CallResolvedI64Slots {| func_index := 7; cd_slots := [2] |}; StoreSlotI64 2;
    LoadSlotI64 3; DupI64; GtI64; ReturnAny;
    TakeSlot 4; ReturnAny;
    PushNothing; ReturnNothing ].
Proof. vm_compute. reflexivity. Qed.

Lemma program_dup_safe :
  dup_safe (cse_result_code program (Some program_protection) [])
    (cse_barriers program (Some program_protection) []).
Proof.
  apply dup_safe_intro. intros i Hi. exfalso.
  assert (elements (collect_jump_targets (cse_result_code program (Some program_protection) [])) = [])
    as E by (vm_compute; reflexivity).
  apply elem_of_elements in Hi. rewrite E in Hi. by apply elem_of_nil in Hi.
Qed.



(** ** The passes *)


(** [h(x, y)]: the sum is computed twice. *)
Definition sum_twice : list Instr :=
  [ LoadSlotI64 0; LoadAddI64Slot 1; StoreSlotI64 2;
    LoadSlotI64 0; LoadAddI64Slot 1; StoreSlotI64 3; LoadSlotI64 3; ReturnI64 ].

Example sum_twice_cse :
  (rewrite_straight_line_i64_cse sum_twice ∅).1 =
  [ LoadSlotI64 0; LoadAddI64Slot 1; StoreSlotI64 2;
    LoadSlotI64 2; StoreSlotI64 3; LoadSlotI64 3; ReturnI64 ].
Proof. vm_compute. reflexivity. Qed.

Lemma cse_equivalence_witness :
  exists fuel' out',
    activation no_environment (rewrite_straight_line_i64_cse sum_twice ∅).1 fuel'
      (frame5 3 4 None) = Some out' /\
    action_match (cse_boundary sum_twice ∅) (cse_addr sum_twice ∅) (fun _ => False)
      (default (Fault NotImplemented) (activation no_environment sum_twice 20 (frame5 3 4 None)))
      out'.
Proof.
  apply (fun H1 H2 => proj1 (cse_equivalence four_ints sum_twice ∅ ltac:(by_computation)
    ltac:(by_computation) no_environment (no_environment_ok _) 0 (frame5 3 4 None) H1 H2) 20).
  - exists 0, ∅. split; [apply cse_start|vm_compute; reflexivity].
  - apply (frame5_ok 3 4 None 0); [by_computation|by_computation|exact I].
  - vm_compute. reflexivity.
Defined.

(** [x > x]. *)
Definition compare_itself : list Instr := [LoadSlotI64 0; LoadSlotI64 0; GtI64; ReturnAny].

Example compare_itself_dup :
  rewrite_adjacent_duplicate_loads compare_itself ∅ = [LoadSlotI64 0; DupI64; GtI64; ReturnAny].
Proof. vm_compute. reflexivity. Qed.

Lemma dup_equivalence_witness :
  exists fuel' out',
    activation no_environment (rewrite_adjacent_duplicate_loads compare_itself ∅) fuel'
      (frame5 3 4 None) = Some out' /\
    action_match eq (fun t => t) (fun _ => False)
      (default (Fault NotImplemented)
        (activation no_environment compare_itself 20 (frame5 3 4 None))) out'.
Proof.
  apply (fun H1 H2 H3 => proj1 (dup_equivalence compare_itself ∅ four_ints ltac:(by_computation) H1
    no_environment (no_environment_ok _) (frame5 3 4 None) H2 H3) 20).
  - intros i _ Hi. assert (elements (collect_jump_targets compare_itself) = []) as E
      by (vm_compute; reflexivity).
    apply elem_of_elements in Hi. rewrite E in Hi. by apply elem_of_nil in Hi.
  - by intros (? & ? & ? & [=] & _).
  - apply (frame5_ok 3 4 None 0); [by_computation|by_computation|exact I].
  - vm_compute. reflexivity.
Defined.

(** The identity function in front of a main block at 2. *)
Definition identity_function : list Instr := [LoadSlot 4; ReturnAny; PushNothing; ReturnNothing].

Lemma take_equivalence_witness :
  exists fuel' out',
    activation no_environment (rewrite_destructive_loads identity_function 2 ∅) fuel'
      (frame5 0 0 (Some (Value.I64 9))) = Some out' /\
    take_match identity_function 2 ∅
      (default (Fault NotImplemented)
        (activation no_environment identity_function 20 (frame5 0 0 (Some (Value.I64 9))))) out'.
Proof.
  apply (fun H => proj1 (take_equivalence identity_function 2 ∅ four_ints ltac:(by_computation)
    no_environment (no_environment_ok _) (frame5 0 0 (Some (Value.I64 9))) H) 20).
  - apply (frame5_ok 0 0 _ 0); [by_computation|by_computation|]. apply val_ok_i64. by_computation.
  - vm_compute. reflexivity.
Defined.

(** ** The interpreter and the result of the optimizer *)

Lemma activation_ok_witness :
  action_ok four_ints
    (default (Fault NotImplemented) (activation increment program 20 (frame5 3 4 None))).
Proof.
  apply (activation_ok four_ints program increment 20 (frame5 3 4 None)).
  - apply increment_ok.
  - by_computation.
  - apply (frame5_ok 3 4 None 0); [by_computation|by_computation|exact I].
  - vm_compute. reflexivity.
Defined.

Lemma optimize_impl_typed_witness :
  code_typed four_ints (optimize_impl program (Some program_protection) []).1.
Proof. apply optimize_impl_typed. by_computation. Defined.

Definition countdown : list Instr :=
  [ LoadSlotI64 0; PushI64 0; GtI64; JumpIfZero 8;
    LoadSlotI64 0; PushI64 1; SubI64; StoreSlotI64 0;
    LoadSlotI64 0; ReturnI64 ].

Lemma optimize_impl_targets_witness :
  targets_in_range (optimize_impl countdown None []).1.
Proof. apply optimize_impl_targets. by_computation. Defined.

(** ** The control-flow graph *)

(** [while x > 0; x = x - 1; end; x] *)
Definition while_loop : list Instr :=
  [ LoadSlotI64 0; PushI64 0; GtI64; JumpIfZero 9;
    LoadSlotI64 0; PushI64 1; SubI64; StoreSlotI64 0; Jump 0;
    LoadSlotI64 0; ReturnI64 ].

Example while_loop_graph :
  (fun b => (block_start b, block_end b, successors b, predecessors b)) <$> blocks (build while_loop) =
  [ (0, 4, [2; 1], [1]); (4, 9, [0], [0]); (9, 11, [], [0]) ].
Proof. vm_compute. reflexivity. Qed.

Lemma build_partition_witness :
  exists idx b, block_for_instr (build while_loop) 5 = Some idx /\
    blocks (build while_loop) !! idx = Some b /\ block_id b = idx /\
    block_start b <= 5 < block_end b /\ block_end b <= length while_loop /\
    forall idx' b', blocks (build while_loop) !! idx' = Some b' ->
      block_start b' <= 5 < block_end b' -> idx' = idx.
Proof. apply (build_partition while_loop 5). simpl. lia. Defined.

Definition loop_header : BasicBlock :=
  {| block_id := 0; block_start := 0; block_end := 4; successors := [2; 1]; predecessors := [1] |}.

Definition loop_body : BasicBlock :=
  {| block_id := 1; block_start := 4; block_end := 9; successors := [0]; predecessors := [0] |}.

Lemma build_edges_witness :
  NoDup [2; 1] /\
  (forall x, x ∈ [2; 1] <-> exists instr t, while_loop !! 3 = Some instr /\
     t ∈ flow instr 3 /\ block_for_instr (build while_loop) t = Some x) /\
  (forall p, p ∈ [1] <->
     exists bp, blocks (build while_loop) !! p = Some bp /\ 0 ∈ successors bp).
Proof. apply (build_edges while_loop 0 loop_header). vm_compute. reflexivity. Defined.


Example while_loop_loops :
  natural_loops (build while_loop) = [{| header := 0; latch := 1; loop_blocks := [0; 1] |}].
Proof. vm_compute. reflexivity. Qed.

Lemma natural_loops_spec_witness :
  exists bs, {| header := 0; latch := 1; loop_blocks := bs |} ∈ natural_loops (build while_loop) /\
    StronglySorted le bs /\ NoDup bs /\
    (0 <> 1 -> forall x, x ∈ bs <->
      x = 0 \/ rtc (follows_avoiding (build while_loop) 0) x 1).
Proof.
  apply (natural_loops_spec while_loop 1 0 loop_body loop_header);
    [vm_compute; reflexivity..|simpl; by left|simpl; lia].
Defined.

(** ** The slot-backing verifier *)

(** The slot is a parameter: nothing to report.  Otherwise every load may come
    first. *)
Example while_loop_verified : verify_slot_backing while_loop {[Slot 0]} = Some [].
Proof. vm_compute. reflexivity. Qed.

Example while_loop_reports :
  verify_slot_backing while_loop ∅ =
  Some [ {| v_instr := 0; v_block := 0; v_local := Slot 0 |};
         {| v_instr := 4; v_block := 1; v_local := Slot 0 |};
         {| v_instr := 9; v_block := 2; v_local := Slot 0 |} ].
Proof. vm_compute. reflexivity. Qed.

(** A local that the code does not touch is missing from the first facts of a
    block and is added by the first turn. *)
Example facts_grow :
  (fun state => elements (state.1 !!! 1)) <$>
    (reachable ← reachable_block_ids (build while_loop) 0;
     Some (foldl (update_block while_loop 0 reachable) ([{[Slot 7]}; {[Slot 0]}; {[Slot 0]}], false)
             (blocks (build while_loop)))) = Some [Slot 7; Slot 0].
Proof. vm_compute. reflexivity. Qed.

Lemma verify_slot_backing_range_spec_witness :
  exists report, verify_slot_backing_range while_loop 4 0 9 ∅ = Some report /\
    forall v, v ∈ report <->
      0 <= v_instr v < 9 /\
      block_for_instr (build while_loop) (v_instr v) = Some (v_block v) /\
      (exists instr, while_loop !! v_instr v = Some instr /\
         classify instr = Some (v_local v, Load)) /\
      unbacked_at while_loop 4 ∅ (v_local v) (v_instr v).
Proof. apply verify_slot_backing_range_spec. apply (bool_decide_unpack _). vm_compute. exact I. Defined.

