(* ===== verification/Promotion.v ===== *)
(** * Promotion of numeric types

    The registry of promotion rules and [promote_type] of
    subset_julia_vm_types/src/promotion.rs, with the taxonomy [PrimitiveNumeric] of
    inference_core/primitive_numeric.rs that it falls back to.  Types are names;
    the registry, thread-local in the source, is an argument.  [promote_type] ends for
    every registry without two rules that contradict each other, and on the scalar
    types it is the least upper bound of an order. *)

From S2P Require Export Prelude.

(** ** PrimitiveNumeric *)

Module PrimitiveNumeric.
Inductive t :=
  | Bool
  | Int8 | Int16 | Int32 | Int64 | Int128
  | UInt8 | UInt16 | UInt32 | UInt64 | UInt128
  | Float16 | Float32 | Float64.

#[export] Instance t_eq_dec : EqDecision t.
Proof. solve_decision. Defined.

Definition from_julia_name (name : string) : option t :=
  match name with
  | "Bool" => Some Bool
  | "Int8" => Some Int8
  | "Int16" => Some Int16
  | "Int32" => Some Int32
  | "Int64" => Some Int64
  | "Int128" => Some Int128
  | "UInt8" => Some UInt8
  | "UInt16" => Some UInt16
  | "UInt32" => Some UInt32
  | "UInt64" => Some UInt64
  | "UInt128" => Some UInt128
  | "Float16" => Some Float16
  | "Float32" => Some Float32
  | "Float64" => Some Float64
  | _ => None
  end%string.

Definition julia_name (p : t) : string :=
  match p with
  | Bool => "Bool"
  | Int8 => "Int8"
  | Int16 => "Int16"
  | Int32 => "Int32"
  | Int64 => "Int64"
  | Int128 => "Int128"
  | UInt8 => "UInt8"
  | UInt16 => "UInt16"
  | UInt32 => "UInt32"
  | UInt64 => "UInt64"
  | UInt128 => "UInt128"
  | Float16 => "Float16"
  | Float32 => "Float32"
  | Float64 => "Float64"
  end.

Definition is_float (p : t) : bool :=
  match p with Float16 | Float32 | Float64 => true | _ => false end.

Definition is_signed_integer (p : t) : bool :=
  match p with Int8 | Int16 | Int32 | Int64 | Int128 => true | _ => false end.

Definition is_unsigned_integer (p : t) : bool :=
  match p with UInt8 | UInt16 | UInt32 | UInt64 | UInt128 => true | _ => false end.

Definition is_integer (p : t) : bool :=
  is_signed_integer p || is_unsigned_integer p || match p with Bool => true | _ => false end.

Definition rank (p : t) : Z :=
  match p with
  | Bool => 0
  | Int8 => 1
  | UInt8 => 2
  | Int16 => 3
  | UInt16 => 4
  | Int32 => 5
  | UInt32 => 6
  | Int64 => 7
  | UInt64 => 8
  | Int128 => 9
  | UInt128 => 10
  | Float16 => 99
  | Float32 => 100
  | Float64 => 101
  end%Z.

Definition promote (p q : t) : t :=
  if is_float p && is_float q then if (rank q <=? rank p)%Z then p else q
  else if is_float p then p
  else if is_float q then q
  else if (Z.max (rank p) (rank q) <=? rank UInt32)%Z then Int64
  else if (rank q <=? rank p)%Z then p else q.

Definition all : list t :=
  [Bool; Int8; Int16; Int32; Int64; Int128; UInt8; UInt16; UInt32; UInt64; UInt128;
   Float16; Float32; Float64].

Lemma all_complete p : In p all.
Proof. destruct p; simpl; tauto. Qed.

Lemma from_julia_name_Some name p : from_julia_name name = Some p <-> name = julia_name p.
Proof.
  split; [|intros ->; by destruct p].
  unfold from_julia_name. intros H.
  repeat (match type of H with context [match ?x with _ => _ end] => destruct x end; try discriminate H);
    by injection H as <-.
Qed.
End PrimitiveNumeric.

(** ** The registry *)

Abbreviation rules := (gmap (string * string) string).

Record Registry := { promotion_rules : rules; initialized : bool }.

Definition register_promotion_rule (type1 type2 result : string) (r : Registry) : Registry :=
  {| promotion_rules := <[(type1, type2) := result]> (promotion_rules r); initialized := initialized r |}.

Definition mark_registry_initialized (r : Registry) : Registry :=
  {| promotion_rules := promotion_rules r; initialized := true |}.

Definition is_registry_initialized (r : Registry) : bool := initialized r.

Definition lookup_promotion_rule (r : Registry) (type1 type2 : string) : option string :=
  promotion_rules r !! (type1, type2).

Definition get_registry_size (r : Registry) : nat := size (promotion_rules r).

(** In the order of the map. *)
Definition get_all_promotion_rules (r : Registry) : list (string * string * string) :=
  map_to_list (promotion_rules r).

Definition clear_registry (r : Registry) : Registry := {| promotion_rules := ∅; initialized := false |}.

(** ** Names of types *)

Abbreviation primitive := PrimitiveNumeric.from_julia_name.

Definition holds {A} (p : A -> bool) (x : option A) : bool :=
  match x with Some a => p a | None => false end.

Definition is_float_type_name (ty : string) : bool := holds PrimitiveNumeric.is_float (primitive ty).
Definition is_integer_type_name (ty : string) : bool := holds PrimitiveNumeric.is_integer (primitive ty).
Definition is_numeric_type_name (ty : string) : bool := holds (fun _ => true) (primitive ty).

(** [name.ends_with] of the closing brace, character 125. *)
Fixpoint ends_with_brace (name : string) : bool :=
  match name with
  | EmptyString => false
  | String c EmptyString => Ascii.eqb c (Ascii.ascii_of_nat 125)
  | String _ name => ends_with_brace name
  end.

(** The name between [head] and the closing brace. *)
Definition extract_param (head name : string) : option string :=
  if String.prefix head name && ends_with_brace name then
    Some (String.substring (String.length head) (String.length name - 1 - String.length head) name)
  else None.

Definition extract_complex_param : string -> option string := extract_param "Complex{".
Definition extract_rational_param : string -> option string := extract_param "Rational{".

Definition is_complex_type (name : string) : bool :=
  String.prefix "Complex{" name && ends_with_brace name.

(** [format!("Complex{{{}}}", elem)] and its twin. *)
Definition complex_name (elem : string) : string := "Complex{" +:+ elem +:+ "}".
Definition rational_name (elem : string) : string := "Rational{" +:+ elem +:+ "}".

(** ** The rules of the fallback

    A block of the source that returns answers [Some]; the answer is [None] when the
    recursion does not end with the fuel given. *)

Definition or_else {A} (a b : option A) : option A := match a with Some x => Some x | None => b end.

Definition when {A} (c : bool) (a : A) : option A := if c then Some a else None.

Abbreviation eqb := String.eqb.

Definition bool_rule (t1 t2 : string) : option string :=
  or_else (when (eqb t1 "Bool" && is_numeric_type_name t2) t2)
          (when (eqb t2 "Bool" && is_numeric_type_name t1) t1).

Definition big_rule (t1 t2 : string) : option string :=
  or_else (when (eqb t1 "BigFloat" && (is_numeric_type_name t2 || eqb t2 "BigInt")) "BigFloat"%string)
  (or_else (when (eqb t2 "BigFloat" && (is_numeric_type_name t1 || eqb t1 "BigInt")) "BigFloat"%string)
  (or_else (when (eqb t1 "BigInt" && is_float_type_name t2) "BigFloat"%string)
  (or_else (when (eqb t2 "BigInt" && is_float_type_name t1) "BigFloat"%string)
  (or_else (when (eqb t1 "BigInt" && is_integer_type_name t2) "BigInt"%string)
           (when (eqb t2 "BigInt" && is_integer_type_name t1) "BigInt"%string))))).

Definition float_rule (t1 t2 : string) : option string :=
  or_else (when (is_float_type_name t1 && is_integer_type_name t2) t1)
          (when (is_float_type_name t2 && is_integer_type_name t1) t2).

Definition int_width (t : string) : Z :=
  match t with
  | "Bool" => 1
  | "Int8" | "UInt8" => 8
  | "Int16" | "UInt16" => 16
  | "Int32" | "UInt32" => 32
  | "Int64" | "UInt64" => 64
  | "Int128" | "UInt128" => 128
  | _ => 0
  end%string%Z.

Definition is_unsigned (t : string) : bool := String.prefix "UInt" t.

Definition int_rule (t1 t2 : string) : option string :=
  if is_integer_type_name t1 && is_integer_type_name t2 then
    let w1 := int_width t1 in
    let w2 := int_width t2 in
    if (0 <? w1)%Z && (0 <? w2)%Z then
      if (w2 <? w1)%Z then Some t1
      else if (w1 <? w2)%Z then Some t2
      else if is_unsigned t1 then Some t1
      else if is_unsigned t2 then Some t2
      else Some t1
    else None
  else None.

Definition primitive_rule (t1 t2 : string) : option string :=
  match primitive t1, primitive t2 with
  | Some p1, Some p2 => Some (PrimitiveNumeric.julia_name (PrimitiveNumeric.promote p1 p2))
  | _, _ => None
  end.

Section Fallback.
Variable promote_type : string -> string -> option string.

Definition rational_left (t1 t2 : string) : option (option string) :=
  t1_elem ← extract_rational_param t1;
  match extract_rational_param t2 with
  | Some t2_elem => Some (rational_name <$> promote_type t1_elem t2_elem)
  | None =>
      if is_integer_type_name t2 || eqb t2 "BigInt" then Some (rational_name <$> promote_type t1_elem t2)
      else if is_float_type_name t2 || eqb t2 "BigFloat" then Some (promote_type t1_elem t2)
      else None
  end.

Definition rational_right (t1 t2 : string) : option (option string) :=
  t2_elem ← extract_rational_param t2;
  if is_integer_type_name t1 || eqb t1 "BigInt" then Some (rational_name <$> promote_type t1 t2_elem)
  else if is_float_type_name t1 || eqb t1 "BigFloat" then Some (promote_type t1 t2_elem)
  else None.

Definition complex_left (t1 t2 : string) : option (option string) :=
  t1_elem ← extract_complex_param t1;
  match extract_complex_param t2 with
  | Some t2_elem => Some (complex_name <$> promote_type t1_elem t2_elem)
  | None => when (is_numeric_type_name t2) (complex_name <$> promote_type t1_elem t2)
  end.

Definition complex_right (t1 t2 : string) : option (option string) :=
  t2_elem ← extract_complex_param t2;
  when (is_numeric_type_name t1) (complex_name <$> promote_type t1 t2_elem).

Definition promote_rule_fallback (t1 t2 : string) : option (option string) :=
  or_else (Some <$> bool_rule t1 t2)
  (or_else (Some <$> big_rule t1 t2)
  (or_else (rational_left t1 t2)
  (or_else (rational_right t1 t2)
  (or_else (complex_left t1 t2)
  (or_else (complex_right t1 t2)
  (or_else (Some <$> float_rule t1 t2)
  (or_else (Some <$> int_rule t1 t2)
           (Some <$> primitive_rule t1 t2)))))))).

Definition combine_rule_results (r1 r2 : option (option string)) : option (option string) :=
  match r1, r2 with
  | Some None, _ | _, Some None => Some None
  | Some (Some a), Some (Some b) => if eqb a b then Some (Some a) else Some (promote_type a b)
  | Some (Some a), None => Some (Some a)
  | None, Some (Some b) => Some (Some b)
  | None, None => None
  end.
End Fallback.

Definition valid_rule_result (result : option string) : option string :=
  match result with
  | Some r => if negb (eqb r "Union{}") && negb (eqb r "") then Some r else None
  | None => None
  end.

(** ** promote_type

    [None] when the fuel ends first; the source recurses without a bound. *)
Fixpoint promote_within (reg : Registry) (fuel : nat) (t1 t2 : string) : option string :=
  match fuel with
  | 0 => None
  | S fuel =>
      if eqb t1 t2 then Some t1
      else
        match combine_rule_results (promote_within reg fuel)
                (Some <$> valid_rule_result (lookup_promotion_rule reg t1 t2))
                (Some <$> valid_rule_result (lookup_promotion_rule reg t2 t1)) with
        | Some result => result
        | None =>
            match combine_rule_results (promote_within reg fuel)
                    (promote_rule_fallback (promote_within reg fuel) t1 t2)
                    (promote_rule_fallback (promote_within reg fuel) t2 t1) with
            | Some result => result
            | None => Some "Any"%string
            end
        end
  end.

(** Enough when the rules do not contradict each other: [promote_total]. *)
Definition promote_fuel (t1 t2 : string) : nat := S (String.length t1 + String.length t2).

Definition promote_type (reg : Registry) (t1 t2 : string) : option string :=
  promote_within reg (promote_fuel t1 t2) t1 t2.

(** What is not a primitive type counts as [Float64]. *)
Definition real_elem (t : string) : string := if is_numeric_type_name t then t else "Float64".

Definition promote_complex (reg : Registry) (t1 t2 : string) : option string :=
  match extract_complex_param t1, extract_complex_param t2 with
  | Some e1, Some e2 => complex_name <$> promote_type reg e1 e2
  | Some e, None => complex_name <$> promote_type reg e (real_elem t2)
  | None, Some e => complex_name <$> promote_type reg (real_elem t1) e
  | None, None => promote_type reg t1 t2
  end.

Definition promote_element_types (reg : Registry) (elem1 elem2 : string) : option string :=
  promote_type reg elem1 elem2.

(** ** Names *)

Lemma length_substring n m s : String.length (String.substring n m s) <= m.
Proof.
  revert n m. induction s as [|c s IH]; intros [|n] [|m]; simpl; try lia; [apply le_n_S, IH|apply IH..].
Qed.

Lemma extract_param_length head name e :
  extract_param head name = Some e -> String.length e < String.length name.
Proof.
  unfold extract_param. destruct (_ && _) eqn:Hc; [|done]. intros [= <-].
  pose proof (length_substring (String.length head) (String.length name - 1 - String.length head) name).
  apply andb_true_iff in Hc as [_ Hc]. destruct name; [done|simpl in *; lia].
Qed.

Lemma ends_with_brace_app s : ends_with_brace (s +:+ "}") = true.
Proof. induction s as [|c s IH]; [done|]. simpl. rewrite IH. by destruct (s +:+ "}"). Qed.

Lemma prefix_app head s : String.prefix head (head +:+ s) = true.
Proof. induction head as [|c head IH]; [by destruct s|]. simpl. by destruct (Ascii.ascii_dec c c). Qed.

Lemma substring_app head s n : String.substring (String.length head) n (head +:+ s) = String.substring 0 n s.
Proof. induction head as [|c head IH]; [done|apply IH]. Qed.

Lemma substring_prefix s t : String.substring 0 (String.length s) (s +:+ t) = s.
Proof. induction s as [|c s IH]; [by destruct t|]. simpl. by rewrite IH. Qed.

Lemma string_length_app s t : String.length (s +:+ t) = String.length s + String.length t.
Proof. induction s as [|c s IH]; [done|]. simpl. by rewrite IH. Qed.

Lemma string_app_assoc s t u : (s +:+ t) +:+ u = s +:+ t +:+ u.
Proof. induction s as [|c s IH]; [done|]. exact (f_equal (String c) IH). Qed.

(** What [format!] builds is taken apart again. *)
Lemma extract_param_app head e : extract_param head (head +:+ e +:+ "}") = Some e.
Proof.
  unfold extract_param. rewrite prefix_app.
  assert (ends_with_brace (head +:+ e +:+ "}") = true) as ->.
  { rewrite <- string_app_assoc. apply ends_with_brace_app. }
  cbn [andb]. f_equal. rewrite substring_app, !string_length_app. simpl.
  replace (_ - 1 - _) with (String.length e) by lia. apply substring_prefix.
Qed.

(** What the rules ask of a name. *)
Inductive Class :=
  | Primitive (p : PrimitiveNumeric.t)
  | BigIntName | BigFloatName
  | RationalOf (elem : string) | ComplexOf (elem : string)
  | OtherName.

Record classified (name : string) (c : Class) : Prop := {
  class_primitive : primitive name = match c with Primitive p => Some p | _ => None end;
  class_bool : eqb name "Bool" = match c with Primitive PrimitiveNumeric.Bool => true | _ => false end;
  class_big_int : eqb name "BigInt" = match c with BigIntName => true | _ => false end;
  class_big_float : eqb name "BigFloat" = match c with BigFloatName => true | _ => false end;
  class_rational : extract_rational_param name = match c with RationalOf e => Some e | _ => None end;
  class_complex : extract_complex_param name = match c with ComplexOf e => Some e | _ => None end
}.

Lemma not_both name e e' :
  extract_rational_param name = Some e -> extract_complex_param name = Some e' -> False.
Proof.
  unfold extract_rational_param, extract_complex_param, extract_param.
  destruct (_ && _) eqn:H1; [|done]. destruct (String.prefix "Complex{" name && _) eqn:H2; [|done].
  apply andb_true_iff in H1 as [H1 _], H2 as [H2 _]. destruct name as [|c name]; [done|].
  cbn [String.prefix] in H1, H2.
  destruct (Ascii.ascii_dec _ c) as [<-|] in H1; [|done]. by destruct (Ascii.ascii_dec _ _) in H2.
Qed.

Lemma classify name : exists c, classified name c.
Proof.
  destruct (primitive name) as [p|] eqn:Hp.
  { exists (Primitive p). apply PrimitiveNumeric.from_julia_name_Some in Hp as ->. by destruct p. }
  destruct (eqb name "Bool") eqn:Hb; [by apply String.eqb_eq in Hb as ->|].
  destruct (eqb name "BigInt") eqn:Hi; [apply String.eqb_eq in Hi as ->; by exists BigIntName|].
  destruct (eqb name "BigFloat") eqn:Hf; [apply String.eqb_eq in Hf as ->; by exists BigFloatName|].
  destruct (extract_rational_param name) as [e|] eqn:Hr.
  { exists (RationalOf e). split; try done.
    destruct (extract_complex_param name) eqn:Hc; [by destruct (not_both name e s)|done]. }
  destruct (extract_complex_param name) as [e|] eqn:Hc; [by exists (ComplexOf e)|by exists OtherName].
Qed.

(** ** The fallback is symmetric *)

Section Symmetric.
Variable P : string -> string -> option string.
Variables t1 t2 : string.
Hypothesis different : t1 <> t2.

(** The recursive calls, which are on shorter names, end with the same type in both
    directions. *)
Hypothesis smaller : forall a b, String.length a + String.length b < String.length t1 + String.length t2 ->
  exists r, P a b = Some r /\ P b a = Some r.

Definition same_answer (o o' : option (option string)) : Prop :=
  o = o' /\ (o = None \/ exists r, o = Some (Some r)).

Lemma same_answer_rational a b :
  String.length a + String.length b < String.length t1 + String.length t2 ->
  same_answer (Some (rational_name <$> P a b)) (Some (rational_name <$> P b a)).
Proof. intros (r & -> & ->)%smaller. split; [done|right; by eexists]. Qed.

Lemma same_answer_complex a b :
  String.length a + String.length b < String.length t1 + String.length t2 ->
  same_answer (Some (complex_name <$> P a b)) (Some (complex_name <$> P b a)).
Proof. intros (r & -> & ->)%smaller. split; [done|right; by eexists]. Qed.

Lemma same_answer_plain a b :
  String.length a + String.length b < String.length t1 + String.length t2 ->
  same_answer (Some (P a b)) (Some (P b a)).
Proof. intros (r & -> & ->)%smaller. split; [done|right; by eexists]. Qed.

Lemma primitives_symmetric p1 p2 :
  t1 = PrimitiveNumeric.julia_name p1 -> t2 = PrimitiveNumeric.julia_name p2 ->
  same_answer (promote_rule_fallback P t1 t2) (promote_rule_fallback P t2 t1).
Proof.
  intros H1 H2. rewrite H1, H2 in different |- *. clear.
  destruct p1, p2; try done; (split; [reflexivity|right; by eexists]).
Qed.

Lemma fallback_symmetric : same_answer (promote_rule_fallback P t1 t2) (promote_rule_fallback P t2 t1).
Proof.
  destruct (classify t1) as [c1 [Hp1 Hb1 Hi1 Hf1 Hr1 Hc1]], (classify t2) as [c2 [Hp2 Hb2 Hi2 Hf2 Hr2 Hc2]].
  destruct c1 as [p1| | |e1|e1|], c2 as [p2| | |e2|e2|];
    try (apply (primitives_symmetric p1 p2); by apply PrimitiveNumeric.from_julia_name_Some);
    try pose proof (extract_param_length _ _ _ Hr1); try pose proof (extract_param_length _ _ _ Hc1);
    try pose proof (extract_param_length _ _ _ Hr2); try pose proof (extract_param_length _ _ _ Hc2).
  all: unfold promote_rule_fallback, bool_rule, big_rule, rational_left, rational_right, complex_left,
    complex_right, float_rule, int_rule, primitive_rule, is_float_type_name, is_integer_type_name,
    is_numeric_type_name; rewrite Hp1, Hb1, Hi1, Hf1, Hr1, Hc1, Hp2, Hb2, Hi2, Hf2, Hr2, Hc2.
  all: try destruct p1; try destruct p2; cbn -[complex_name rational_name String.length];
    first [apply same_answer_rational; lia | apply same_answer_complex; lia | apply same_answer_plain; lia
          | by (split; [done|left]) | by (split; [done|right; eexists])].
Qed.
End Symmetric.

(** The recursive calls are on shorter names. *)
Lemma fallback_shorter (P P' : string -> string -> option string) t1 t2 :
  (forall a b, String.length a + String.length b < String.length t1 + String.length t2 -> P a b = P' a b) ->
  promote_rule_fallback P t1 t2 = promote_rule_fallback P' t1 t2.
Proof.
  intros H. unfold promote_rule_fallback, rational_left, rational_right, complex_left, complex_right.
  destruct (extract_rational_param t1) eqn:R1; destruct (extract_rational_param t2) eqn:R2;
  destruct (extract_complex_param t1) eqn:C1; destruct (extract_complex_param t2) eqn:C2; simpl;
  try apply extract_param_length in R1; try apply extract_param_length in R2;
  try apply extract_param_length in C1; try apply extract_param_length in C2;
  rewrite ?H by lia; done.
Qed.

(** ** promote_type ends *)

(** No two rules for the two orders of a pair that give different types. *)
Definition consistent (reg : Registry) : bool :=
  forallb (fun '(t1, t2, r) =>
    match valid_rule_result (Some r), valid_rule_result (lookup_promotion_rule reg t2 t1) with
    | Some r, Some r' => eqb r r'
    | _, _ => true
    end) (get_all_promotion_rules reg).

Section Ends.
Variable reg : Registry.
Hypothesis Hreg : consistent reg = true.

Lemma consistent_rules t1 t2 r r' :
  valid_rule_result (lookup_promotion_rule reg t1 t2) = Some r ->
  valid_rule_result (lookup_promotion_rule reg t2 t1) = Some r' -> r = r'.
Proof.
  intros H1 H2. destruct (lookup_promotion_rule reg t1 t2) as [x|] eqn:Hx; [|done].
  pose proof Hreg as Hc. unfold consistent in Hc. rewrite forallb_forall in Hc.
  specialize (Hc (t1, t2, x)). cbv beta iota in Hc. rewrite H1, H2 in Hc.
  apply String.eqb_eq, Hc, list_elem_of_In, elem_of_map_to_list, Hx.
Qed.

(** The rules of the registry answer without recursion, the same in both orders. *)
Lemma registered P P' t1 t2 :
  let o := combine_rule_results P (Some <$> valid_rule_result (lookup_promotion_rule reg t1 t2))
             (Some <$> valid_rule_result (lookup_promotion_rule reg t2 t1)) in
  o = combine_rule_results P' (Some <$> valid_rule_result (lookup_promotion_rule reg t2 t1))
        (Some <$> valid_rule_result (lookup_promotion_rule reg t1 t2)) /\
  (o = None \/ exists r, o = Some (Some r)).
Proof.
  pose proof (consistent_rules t1 t2) as H. cbv zeta.
  destruct (valid_rule_result (lookup_promotion_rule reg t1 t2)) as [r|],
    (valid_rule_result (lookup_promotion_rule reg t2 t1)) as [r'|]; simpl; [|by eauto..].
  rewrite (H r r' eq_refl eq_refl), String.eqb_refl. by eauto.
Qed.

Lemma promote_symmetric fuel : forall t1 t2, String.length t1 + String.length t2 < fuel ->
  exists r, promote_within reg fuel t1 t2 = Some r /\ promote_within reg fuel t2 t1 = Some r.
Proof.
  induction fuel as [|fuel IH]; intros t1 t2 Hlen; [lia|]. cbn [promote_within].
  rewrite (String.eqb_sym t2 t1). destruct (String.eqb_spec t1 t2) as [->|Hne]; [by eauto|].
  destruct (registered (promote_within reg fuel) (promote_within reg fuel) t1 t2) as [Hsame Hans].
  cbv zeta in Hsame, Hans. rewrite <- Hsame. destruct Hans as [->|[r ->]]; [|by eauto].
  destruct (fallback_symmetric (promote_within reg fuel) t1 t2 Hne) as [<- [->|[r ->]]].
  { intros a b Hab. apply IH. lia. }
  - by eexists.
  - cbn [combine_rule_results]. rewrite String.eqb_refl. by eexists.
Qed.

Lemma promote_enough fuel fuel' : forall t1 t2, String.length t1 + String.length t2 < fuel ->
  String.length t1 + String.length t2 < fuel' -> promote_within reg fuel t1 t2 = promote_within reg fuel' t1 t2.
Proof.
  revert fuel'. induction fuel as [|fuel IH]; intros [|fuel'] t1 t2 H H'; try lia. cbn [promote_within].
  destruct (String.eqb_spec t1 t2) as [->|Hne]; [done|].
  destruct (registered (promote_within reg fuel) (promote_within reg fuel) t1 t2) as [H1 Hans].
  destruct (registered (promote_within reg fuel') (promote_within reg fuel) t1 t2) as [H2 _].
  cbv zeta in *. rewrite <- H1 in H2. rewrite H2. destruct Hans as [->|[r ->]]; [|done].
  assert (forall a b, String.length a + String.length b < String.length t1 + String.length t2 ->
    promote_within reg fuel a b = promote_within reg fuel' a b) as Hp by (intros; apply IH; lia).
  rewrite <- (fallback_shorter (promote_within reg fuel) (promote_within reg fuel') t1 t2 Hp),
    <- (fallback_shorter (promote_within reg fuel) (promote_within reg fuel') t2 t1) by (intros; apply Hp; lia).
  destruct (fallback_symmetric (promote_within reg fuel) t1 t2 Hne) as [<- [->|[r ->]]]; [|done|].
  { intros a b Hab. apply promote_symmetric. lia. }
  cbn [combine_rule_results]. by rewrite String.eqb_refl.
Qed.

(** C15. [promote_type] ends on all names, when no two registered rules contradict each
    other, and does not depend on the order of its arguments. *)
Theorem promote_total t1 t2 :
  exists r, forall fuel, promote_fuel t1 t2 <= fuel ->
    promote_within reg fuel t1 t2 = Some r /\ promote_within reg fuel t2 t1 = Some r.
Proof.
  destruct (promote_symmetric (promote_fuel t1 t2) t1 t2) as (r & H1 & H2); [unfold promote_fuel; lia|].
  exists r. intros fuel Hf. unfold promote_fuel in *. split; [rewrite <- H1|rewrite <- H2]; apply promote_enough; lia.
Qed.
End Ends.

(** ** The scalar types *)

Inductive Scalar := Prim (p : PrimitiveNumeric.t) | BigInt | BigFloat.

Definition scalar_name (s : Scalar) : string :=
  match s with Prim p => PrimitiveNumeric.julia_name p | BigInt => "BigInt" | BigFloat => "BigFloat" end.

(** The order by rank, with BigInt above the integers and BigFloat at the top. *)
Definition scalar_le (a b : Scalar) : bool :=
  match a, b with
  | _, BigFloat => true
  | BigFloat, _ => false
  | BigInt, BigInt => true
  | BigInt, Prim _ => false
  | Prim p, BigInt => negb (PrimitiveNumeric.is_float p)
  | Prim p, Prim q => (PrimitiveNumeric.rank p <=? PrimitiveNumeric.rank q)%Z
  end.

Definition scalar_join (a b : Scalar) : Scalar :=
  if scalar_le a b then b else if scalar_le b a then a else BigFloat.

Lemma scalar_join_least a b c :
  scalar_le (scalar_join a b) c = scalar_le a c && scalar_le b c.
Proof. destruct a as [[]| |], b as [[]| |], c as [[]| |]; reflexivity. Qed.

(** What inference widens: the small integers count as [Int64]. *)
Definition widened (p : PrimitiveNumeric.t) : PrimitiveNumeric.t :=
  if (PrimitiveNumeric.rank p <=? PrimitiveNumeric.rank PrimitiveNumeric.UInt32)%Z
  then PrimitiveNumeric.Int64 else p.

Lemma promote_widened p q :
  exists j, scalar_join (Prim p) (Prim q) = Prim j /\ PrimitiveNumeric.promote p q = widened j.
Proof. destruct p, q; by eexists. Qed.

(** Without registered rules, [promote_type] of two scalar types is their least upper
    bound, and [PrimitiveNumeric::promote_within] is that bound, widened. *)
Theorem promote_scalars init a b :
  let reg := {| promotion_rules := ∅; initialized := init |} in
  promote_type reg (scalar_name a) (scalar_name b) = Some (scalar_name (scalar_join a b)) /\
  (forall c, scalar_le (scalar_join a b) c = scalar_le a c && scalar_le b c) /\
  match a, b with
  | Prim p, Prim q => exists j, scalar_join a b = Prim j /\ PrimitiveNumeric.promote p q = widened j
  | _, _ => True
  end.
Proof.
  intros reg. split_and!; [|apply scalar_join_least|destruct a, b; try done; apply promote_widened].
  destruct a as [[]| |], b as [[]| |]; reflexivity.
Qed.

(** ** The registry in the cache

    The compiler writes the rules into the cache of the base library and registers
    them again when it loads it (compile/cache.rs). *)

Definition restore_promotion_rules (entries : list (string * string * string)) (r : Registry) : Registry :=
  mark_registry_initialized
    (foldl (fun r e => register_promotion_rule e.1.1 e.1.2 e.2 r) r entries).

Lemma registered_rules entries r :
  promotion_rules (foldl (fun r e => register_promotion_rule e.1.1 e.1.2 e.2 r) r entries) =
  foldl (fun m e => <[e.1 := e.2]> m) (promotion_rules r) entries.
Proof. revert r. induction entries as [|[[t1 t2] x] l IH]; intros r; [done|apply IH]. Qed.

Lemma foldl_insert_list (l : list (string * string * string)) :
  NoDup l.*1 -> forall m : rules, foldl (fun m e => <[e.1 := e.2]> m) m l = list_to_map l ∪ m.
Proof.
  induction l as [|e l IH]; intros Hn m; simpl; [by rewrite (left_id_L ∅ (∪))|].
  inversion Hn as [|? ? Hnotin Hn']; subst. rewrite IH by done.
  rewrite <- insert_union_l, <- insert_union_r; [done|]. by apply not_elem_of_list_to_map_1.
Qed.

(** Rules that are saved in any order and restored into a cleared registry are the
    rules that were there. *)
Theorem restore_saved_rules r r' entries :
  Permutation entries (get_all_promotion_rules r) ->
  restore_promotion_rules entries (clear_registry r') = mark_registry_initialized r.
Proof.
  intros Hp. unfold restore_promotion_rules, mark_registry_initialized. f_equal.
  rewrite registered_rules. simpl.
  assert (NoDup entries.*1) as Hn by (rewrite Hp; apply NoDup_fst_map_to_list).
  rewrite foldl_insert_list, (right_id_L ∅ (∪)) by done.
  rewrite (list_to_map_proper _ _ Hn Hp). apply list_to_map_to_list.
Qed.

(** A registered rule decides, in both orders, whatever the fallback says. *)
Lemma promote_registered reg t1 t2 r :
  consistent reg = true -> t1 <> t2 -> valid_rule_result (lookup_promotion_rule reg t1 t2) = Some r ->
  promote_type reg t1 t2 = Some r /\ promote_type reg t2 t1 = Some r.
Proof.
  intros Hreg Hne Hr. destruct (promote_symmetric reg Hreg (promote_fuel t1 t2) t1 t2) as (x & H2 & H3);
    [unfold promote_fuel; lia|].
  assert (promote_type reg t1 t2 = Some r) as H1.
  { unfold promote_type, promote_fuel. cbn [promote_within]. destruct (String.eqb_spec t1 t2); [done|].
    pose proof (consistent_rules reg Hreg t1 t2 r) as Hc. rewrite Hr in *. simpl.
    destruct (valid_rule_result (lookup_promotion_rule reg t2 t1)) as [r'|]; [|done].
    simpl. rewrite <- (Hc r' eq_refl eq_refl), String.eqb_refl. done. }
  unfold promote_type in *. split; [done|].
  assert (promote_fuel t2 t1 = promote_fuel t1 t2) as -> by (unfold promote_fuel; lia). congruence.
Qed.

(** ** Examples *)

Definition base_registry : Registry :=
  foldr (fun e => register_promotion_rule e.1.1 e.1.2 e.2) {| promotion_rules := ∅; initialized := true |}
    [("UInt8", "Int8", "UInt8"); ("Float64", "Int64", "Float64"); ("Rational{Int8}", "BigInt", "Rational{BigInt}");
     ("Meter", "Foot", "Meter"); ("Foot", "Meter", "Meter")]%string.

Lemma promote_total_witness :
  consistent base_registry = true /\
  exists r, forall fuel, promote_fuel "Foot" "Meter" <= fuel ->
    promote_within base_registry fuel "Foot" "Meter" = Some r /\ promote_within base_registry fuel "Meter" "Foot" = Some r.
Proof. split; [vm_compute; reflexivity|]. apply promote_total. vm_compute. reflexivity. Defined.

Lemma restore_saved_rules_witness :
  restore_promotion_rules (rev (get_all_promotion_rules base_registry)) (clear_registry base_registry) =
  mark_registry_initialized base_registry.
Proof. apply restore_saved_rules. symmetry. apply Permutation_rev. Defined.

(** Rules that contradict each other send [promote_type] round in circles. *)
Definition circular_registry : Registry :=
  foldr (fun e => register_promotion_rule e.1.1 e.1.2 e.2) {| promotion_rules := ∅; initialized := true |}
    [("A", "B", "C"); ("B", "A", "D"); ("C", "D", "A"); ("D", "C", "B")]%string.

Example circular_rules fuel :
  promote_within circular_registry fuel "A" "B" = None /\ promote_within circular_registry fuel "C" "D" = None.
Proof. induction fuel as [|fuel [IH1 IH2]]; [done|]. by split. Qed.

(** The comment over the rules for [Complex] admits every [S<:Real]; [BigInt] and
    [Rational] are not primitive names, and the answer is [Any]. *)
Example complex_big_any :
  promote_type (clear_registry base_registry) "Complex{Int64}" "BigInt" = Some "Any"%string /\
  promote_type (clear_registry base_registry) "Rational{Int64}" "BigInt" = Some "Rational{BigInt}"%string.
Proof. by vm_compute. Qed.
