(* ===== verification/SsaModel.v ===== *)
(** * The SSA intermediate representation

    subset_julia_vm_compile/src/compile/ssa_ir/model.rs and the literals of
    subset_julia_vm_types/src/ir/core.rs.  The Core IR trees, builtin numbers,
    type annotations and source spans that the SSA form carries along are the
    types of a [Payload]: nothing of the middle end looks inside them. *)

From S2P Require Export Floats.

(** ** Literals *)

Inductive Literal :=
  | Literal_Int (v : Z)
  | Literal_Int128 (v : Z)
  | Literal_BigInt (s : string)
  | Literal_BigFloat (s : string)
  | Literal_Float (v : f64)
  | Literal_Float32 (v : spec_float)
  | Literal_Float16 (v : spec_float)
  | Literal_Bool (b : bool)
  | Literal_Str (s : string)
  | Literal_StrBytes (bytes : list Z)
  | Literal_Char (c : Z)
  | Literal_CharMalformed (pattern : Z)
  | Literal_Nothing
  | Literal_Missing
  | Literal_Undef
  | Literal_Module (s : string)
  | Literal_DataType (s : string)
  | Literal_Array (data : list f64) (shape : list nat)
  | Literal_ArrayI64 (data : list Z) (shape : list nat)
  | Literal_ArrayBool (data : list bool) (shape : list nat)
  | Literal_Struct (type_name : string) (fields : list Literal)
  | Literal_Symbol (s : string)
  | Literal_Expr (head : string) (args : list Literal)
  | Literal_QuoteNode (l : Literal)
  | Literal_LineNumberNode (line : Z) (file : option string)
  | Literal_Regex (pattern flags : string)
  | Literal_Enum (type_name : string) (value : Z).

(** Element-wise comparison of two vectors. *)
Definition vec_eqb {A} (eqb : A -> A -> bool) : list A -> list A -> bool :=
  fix go xs ys :=
    match xs, ys with
    | [], [] => true
    | x :: xs, y :: ys => eqb x y && go xs ys
    | _, _ => false
    end.

Definition option_eqb {A} (eqb : A -> A -> bool) (x y : option A) : bool :=
  match x, y with
  | Some x, Some y => eqb x y
  | None, None => true
  | _, _ => false
  end.

(** The derived [PartialEq]: floats compare as numbers, so that a NaN differs
    from itself and the two zeros are equal. *)
Fixpoint literal_eqb (x y : Literal) {struct x} : bool :=
  match x, y with
  | Literal_Int a, Literal_Int b | Literal_Int128 a, Literal_Int128 b => Z.eqb a b
  | Literal_BigInt a, Literal_BigInt b | Literal_BigFloat a, Literal_BigFloat b
  | Literal_Str a, Literal_Str b | Literal_Module a, Literal_Module b
  | Literal_DataType a, Literal_DataType b | Literal_Symbol a, Literal_Symbol b => String.eqb a b
  | Literal_Float a, Literal_Float b | Literal_Float32 a, Literal_Float32 b
  | Literal_Float16 a, Literal_Float16 b => f64_eqb a b
  | Literal_Bool a, Literal_Bool b => Bool.eqb a b
  | Literal_StrBytes a, Literal_StrBytes b => vec_eqb Z.eqb a b
  | Literal_Char a, Literal_Char b | Literal_CharMalformed a, Literal_CharMalformed b => Z.eqb a b
  | Literal_Nothing, Literal_Nothing | Literal_Missing, Literal_Missing
  | Literal_Undef, Literal_Undef => true
  | Literal_Array a s, Literal_Array b t => vec_eqb f64_eqb a b && vec_eqb Nat.eqb s t
  | Literal_ArrayI64 a s, Literal_ArrayI64 b t => vec_eqb Z.eqb a b && vec_eqb Nat.eqb s t
  | Literal_ArrayBool a s, Literal_ArrayBool b t => vec_eqb Bool.eqb a b && vec_eqb Nat.eqb s t
  | Literal_Struct n a, Literal_Struct m b | Literal_Expr n a, Literal_Expr m b =>
      String.eqb n m && vec_eqb literal_eqb a b
  | Literal_QuoteNode a, Literal_QuoteNode b => literal_eqb a b
  | Literal_LineNumberNode l f, Literal_LineNumberNode m g =>
      Z.eqb l m && option_eqb String.eqb f g
  | Literal_Regex p f, Literal_Regex q g => String.eqb p q && String.eqb f g
  | Literal_Enum t v, Literal_Enum u w => String.eqb t u && Z.eqb v w
  | _, _ => false
  end.

(** ** Operators *)

Inductive BinaryOp :=
  | Add | Sub | Mul | Div | IntDiv | Mod | Pow
  | Lt | Gt | Le | Ge | Eq | Ne | Egal | NotEgal | Subtype | And | Or.

Inductive UnaryOp := Neg | Not | Pos.

#[export] Instance BinaryOp_eq_dec : EqDecision BinaryOp.
Proof. solve_decision. Defined.
#[export] Instance UnaryOp_eq_dec : EqDecision UnaryOp.
Proof. solve_decision. Defined.

(** ** The data of a function *)

Class Payload := {
  Expr : Type;
  Stmt : Type;
  BuiltinOp : Type;
  JuliaType : Type;
  Span : Type
}.

(** Identifiers are the [u32] numbers of the source. *)
Abbreviation BlockId := nat.
Abbreviation SsaValueId := nat.

Inductive SsaValue :=
  | Def (id : SsaValueId)
  | Argument (index : nat)
  | Const (lit : Literal).

(** The derived [PartialEq]. *)
Definition value_eqb (x y : SsaValue) : bool :=
  match x, y with
  | Def a, Def b | Argument a, Argument b => Nat.eqb a b
  | Const a, Const b => literal_eqb a b
  | _, _ => false
  end.

Record PhiNode := { edges : list BlockId; values : list (option SsaValue) }.

Inductive Terminator :=
  | Jump (target : BlockId)
  | Branch (condition : SsaValue) (then_target else_target : BlockId)
  | Return (value : option SsaValue).

Section Function.
Context {P : Payload}.

Record SsaParam := { param_name : string; param_ty : option JuliaType }.

Inductive SsaOp :=
  | Phi (phi : PhiNode)
  | Unary (op : UnaryOp) (operand : SsaValue)
  | Binary (op : BinaryOp) (lhs rhs : SsaValue)
  | Call (module : option string) (function : string) (args : list SsaValue)
      (kwargs : list (string * SsaValue)) (splat_mask kwargs_splat_mask : list bool)
  | Builtin (name : BuiltinOp) (args : list SsaValue)
  | LoadGlobal (name : string)
  | StoreGlobal (name : string) (value : SsaValue)
  | Opaque (expr : Expr) (reads : list (string * SsaValue))
  | OpaqueStmt (stmt : Stmt) (reads : list (string * SsaValue))
  | BarrierReload (var : string) (barrier : SsaValue).

Record SsaStatement := { stmt_id : SsaValueId; stmt_op : SsaOp; stmt_span : Span }.

Record SsaBlock := {
  blk_id : BlockId;
  stmts : list SsaStatement;
  terminator : Terminator;
  preds : list BlockId;
  succs : list BlockId
}.

Record SsaFunction := {
  fn_name : string;
  fn_params : list SsaParam;
  fn_entry : BlockId;
  fn_blocks : list SsaBlock
}.

(** ** Operands *)

Definition is_phi (op : SsaOp) : bool := match op with Phi _ => true | _ => false end.

(** [SsaOp::operands]: what an operation other than a phi reads. *)
Definition operands (op : SsaOp) : list SsaValue :=
  match op with
  | Phi _ | LoadGlobal _ => []
  | Unary _ operand => [operand]
  | Binary _ lhs rhs => [lhs; rhs]
  | Call _ _ args kwargs _ _ => args ++ map snd kwargs
  | Builtin _ args => args
  | StoreGlobal _ value => [value]
  | Opaque _ reads | OpaqueStmt _ reads => map snd reads
  | BarrierReload _ barrier => [barrier]
  end.

(** [SsaOp::operands_mut] is used to rewrite every operand in place, the incoming
    values of a phi included: the operation with [f] applied to each of them. *)
Definition operands_mut (f : SsaValue -> SsaValue) (op : SsaOp) : SsaOp :=
  match op with
  | Phi phi => Phi {| edges := edges phi; values := map (fmap f) (values phi) |}
  | LoadGlobal name => LoadGlobal name
  | Unary op operand => Unary op (f operand)
  | Binary op lhs rhs => Binary op (f lhs) (f rhs)
  | Call m fn args kwargs sm km => Call m fn (map f args) (map (prod_map id f) kwargs) sm km
  | Builtin name args => Builtin name (map f args)
  | StoreGlobal name value => StoreGlobal name (f value)
  | Opaque expr reads => Opaque expr (map (prod_map id f) reads)
  | OpaqueStmt stmt reads => OpaqueStmt stmt (map (prod_map id f) reads)
  | BarrierReload var barrier => BarrierReload var (f barrier)
  end.

(** [Terminator::targets], [operands] and [operands_mut]. *)
Definition targets (t : Terminator) : list BlockId :=
  match t with
  | Jump target => [target]
  | Branch _ then_target else_target =>
      if Nat.eqb then_target else_target then [then_target] else [then_target; else_target]
  | Return _ => []
  end.

Definition term_operands (t : Terminator) : list SsaValue :=
  match t with
  | Jump _ | Return None => []
  | Branch condition _ _ => [condition]
  | Return (Some value) => [value]
  end.

Definition term_operands_mut (f : SsaValue -> SsaValue) (t : Terminator) : Terminator :=
  match t with
  | Jump target => Jump target
  | Branch condition then_target else_target => Branch (f condition) then_target else_target
  | Return value => Return (f <$> value)
  end.

(** [SsaFunction::block]. *)
Definition block (func : SsaFunction) (id : BlockId) : option SsaBlock := fn_blocks func !! id.

(** [SsaBlock::phis]. *)
Fixpoint phis (l : list SsaStatement) : list SsaStatement :=
  match l with
  | s :: l => if is_phi (stmt_op s) then s :: phis l else []
  | [] => []
  end.

End Function.
