(* ===== verification/CoreIr.v ===== *)
(** * Core IR

    The trees of subset_julia_vm_types/src/ir/core.rs that lowering produces, that
    the SSA construction consumes and that the planner rebuilds.  Spans, builtin
    numbers, types and nominal definitions are payloads that none of these parts
    looks into. *)

From S2P Require Export SsaModel.
From Stdlib Require Import Ascii.

Class CoreTypes := {
  CoreBuiltin : Type;
  CoreJuliaType : Type;
  CoreSpan : Type;
  TypeExpr : Type;
  TypeParam : Type;
  NominalDef : Type
}.

Inductive NumericConvertTarget := ConvertInt64 | ConvertFloat64.

Inductive LocalDeclKind := LocalExplicit | LocalCompilerEnclosing.

Record MetaAnnotation := { meta_name : string; meta_args : list string }.

(** A tuple pattern of a comprehension is one variable whose name lists the
    targets. *)
Definition TUPLE_COMPREHENSION_BINDING_PREFIX : string := "__tuple_comprehension_binding__:".

(** [str::strip_prefix]. *)
Fixpoint str_strip_prefix (prefix s : string) : option string :=
  match prefix, s with
  | EmptyString, _ => Some s
  | String a prefix, String b s => if Ascii.eqb a b then str_strip_prefix prefix s else None
  | String _ _, EmptyString => None
  end.

(** [str::split]: the pieces between the separators, one at least. *)
Fixpoint split_on (sep : Ascii.ascii) (s : string) : list string :=
  match s with
  | EmptyString => [EmptyString]
  | String a s =>
      if Ascii.eqb a sep then EmptyString :: split_on sep s
      else match split_on sep s with
           | piece :: rest => String a piece :: rest
           | [] => [String a EmptyString]
           end
  end.

Definition encode_tuple_comprehension_binding (vars : list string) : string :=
  TUPLE_COMPREHENSION_BINDING_PREFIX +:+ String.concat "," vars.

Definition decode_tuple_comprehension_binding (var : string) : option (list string) :=
  encoded ← str_strip_prefix TUPLE_COMPREHENSION_BINDING_PREFIX var;
  Some (filter (fun name => negb (String.eqb name EmptyString) = true)
          (split_on ","%char encoded)).

Section CoreIr.
Context {C : CoreTypes}.

Record EnumMember := { member_name : string; member_value : Z; member_span : CoreSpan }.

Record EnumDef := {
  enum_name : string;
  enum_base_type : string;
  enum_members : list EnumMember;
  enum_span : CoreSpan
}.

Record TypedParam := {
  typed_name : string;
  type_annotation : option CoreJuliaType;
  typed_is_varargs : bool;
  vararg_count : option nat;
  typed_span : CoreSpan
}.

(** An expression, a statement, a block, a keyword parameter and a function. *)
Inductive CoreExpr : Type :=
  | Expr_Literal (lit : Literal) (span : CoreSpan)
  | Expr_Var (name : string) (span : CoreSpan)
  | Expr_BinaryOp (op : BinaryOp) (lhs rhs : CoreExpr) (span : CoreSpan)
  | Expr_UnaryOp (op : UnaryOp) (operand : CoreExpr) (span : CoreSpan)
  | Expr_Call (function : string) (args : list CoreExpr) (kwargs : list (string * CoreExpr))
      (splat_mask kwargs_splat_mask : list bool) (span : CoreSpan)
  | Expr_Builtin (name : CoreBuiltin) (args : list CoreExpr) (span : CoreSpan)
  | Expr_ArrayLiteral (elements : list CoreExpr) (shape : list nat) (span : CoreSpan)
  | Expr_TypedEmptyArray (element_type : string) (span : CoreSpan)
  | Expr_Index (array : CoreExpr) (indices : list CoreExpr) (span : CoreSpan)
  | Expr_Range (start : CoreExpr) (step : option CoreExpr) (stop : CoreExpr) (span : CoreSpan)
  | Expr_Comprehension (body : CoreExpr) (var : string) (iter : CoreExpr)
      (filter : option CoreExpr) (span : CoreSpan)
  | Expr_MultiComprehension (body : CoreExpr) (iterations : list (string * CoreExpr))
      (filter : option CoreExpr) (flatten : bool) (span : CoreSpan)
  | Expr_Generator (body : CoreExpr) (var : string) (iter : CoreExpr)
      (filter : option CoreExpr) (span : CoreSpan)
  | Expr_SliceAll (span : CoreSpan)
  | Expr_FieldAccess (object : CoreExpr) (field : string) (span : CoreSpan)
  | Expr_FunctionRef (name : string) (span : CoreSpan)
  | Expr_TupleLiteral (elements : list CoreExpr) (span : CoreSpan)
  | Expr_NamedTupleLiteral (fields : list (string * CoreExpr)) (span : CoreSpan)
  | Expr_Pair (key value : CoreExpr) (span : CoreSpan)
  | Expr_DictLiteral (pairs : list (CoreExpr * CoreExpr)) (span : CoreSpan)
  | Expr_LetBlock (bindings : list (string * CoreExpr)) (body : CoreBlock) (span : CoreSpan)
  | Expr_StringConcat (parts : list CoreExpr) (span : CoreSpan)
  | Expr_ModuleCall (module function : string) (args : list CoreExpr)
      (kwargs : list (string * CoreExpr)) (splat_mask kwargs_splat_mask : list bool)
      (span : CoreSpan)
  | Expr_Ternary (condition then_expr else_expr : CoreExpr) (span : CoreSpan)
  | Expr_New (type_args : list TypeExpr) (args : list CoreExpr) (is_splat : bool)
      (span : CoreSpan)
  | Expr_DynamicTypeConstruct (base : string) (base_expr : option CoreExpr)
      (type_args : list CoreExpr) (splat_mask : list bool) (span : CoreSpan)
  | Expr_QuoteLiteral (constructor : CoreExpr) (span : CoreSpan)
  | Expr_AssignExpr (var : string) (value : CoreExpr) (span : CoreSpan)
  | Expr_ReturnExpr (value : option CoreExpr) (span : CoreSpan)
  | Expr_BreakExpr (span : CoreSpan)
  | Expr_ContinueExpr (span : CoreSpan)
  | Expr_Convert (target : NumericConvertTarget) (operand : CoreExpr) (span : CoreSpan)
with CoreStmt : Type :=
  | Stmt_Block (block : CoreBlock)
  | Stmt_Assign (var : string) (value : CoreExpr) (span : CoreSpan)
  | Stmt_AddAssign (var : string) (value : CoreExpr) (span : CoreSpan)
  | Stmt_For (var : string) (start stop : CoreExpr) (step : option CoreExpr)
      (body : CoreBlock) (span : CoreSpan)
  | Stmt_ForEach (var : string) (iterable : CoreExpr) (body : CoreBlock) (span : CoreSpan)
  | Stmt_ForEachTuple (vars : list string) (iterable : CoreExpr) (body : CoreBlock)
      (span : CoreSpan)
  | Stmt_While (condition : CoreExpr) (body : CoreBlock) (span : CoreSpan)
  | Stmt_If (condition : CoreExpr) (then_branch : CoreBlock) (else_branch : option CoreBlock)
      (span : CoreSpan)
  | Stmt_Break (span : CoreSpan)
  | Stmt_Continue (span : CoreSpan)
  | Stmt_Try (try_block : CoreBlock) (catch_var : option string)
      (catch_block else_block finally_block : option CoreBlock) (span : CoreSpan)
  | Stmt_Return (value : option CoreExpr) (span : CoreSpan)
  | Stmt_Expr (expr : CoreExpr) (span : CoreSpan)
  | Stmt_Meta (annotation : MetaAnnotation) (span : CoreSpan)
  | Stmt_Timed (body : CoreBlock) (span : CoreSpan)
  | Stmt_Test (condition : CoreExpr) (message : option string) (span : CoreSpan)
  | Stmt_TestSet (name : string) (body : CoreBlock) (span : CoreSpan)
  | Stmt_TestThrows (exception_type : string) (expr : CoreExpr) (span : CoreSpan)
  | Stmt_IndexAssign (array : string) (indices : list CoreExpr) (value : CoreExpr)
      (span : CoreSpan)
  | Stmt_FieldAssign (object field : string) (value : CoreExpr) (span : CoreSpan)
  | Stmt_DestructuringAssign (targets : list string) (value : CoreExpr) (span : CoreSpan)
  | Stmt_DictAssign (dict : string) (key value : CoreExpr) (span : CoreSpan)
  | Stmt_Using (module : string) (span : CoreSpan)
  | Stmt_Export (names : list string) (span : CoreSpan)
  | Stmt_FunctionDef (func : CoreFunction) (span : CoreSpan)
  | Stmt_EvalFunctionDef (func : CoreFunction) (span : CoreSpan)
  | Stmt_Label (name : string) (span : CoreSpan)
  | Stmt_Goto (name : string) (span : CoreSpan)
  | Stmt_EnumDef (enum_def : EnumDef) (published_members : option (list string))
      (span : CoreSpan)
  | Stmt_Global (names : list string) (span : CoreSpan)
  | Stmt_LocalDecl (var : string) (kind : LocalDeclKind) (span : CoreSpan)
  | Stmt_RuntimeNominalDef (definition : NominalDef) (published_members : option (list string))
      (span : CoreSpan)
with CoreBlock : Type :=
  | Block (block_stmts : list CoreStmt) (span : CoreSpan)
with KwParam : Type :=
  | Kw (kw_name : string) (kw_default : CoreExpr) (kw_annotation : option CoreJuliaType)
      (kw_is_varargs body_evaluated_default : bool) (span : CoreSpan)
with CoreFunction : Type :=
  | Function_ (name : string) (params : list TypedParam) (kwparams : list KwParam)
      (type_params : list TypeParam) (return_type : option CoreJuliaType) (body : CoreBlock)
      (is_base_extension is_runtime_eval : bool) (new_struct_name : option string)
      (span : CoreSpan).

(** The SSA form over Core IR. *)
#[export] Instance core_payload : Payload :=
  {| Expr := CoreExpr; Stmt := CoreStmt; BuiltinOp := CoreBuiltin;
     JuliaType := CoreJuliaType; Span := CoreSpan |}.

Definition block_stmts (b : CoreBlock) : list CoreStmt := match b with Block l _ => l end.

Definition kw_name (k : KwParam) : string := match k with Kw name _ _ _ _ _ => name end.
Definition kw_annotation (k : KwParam) : option CoreJuliaType :=
  match k with Kw _ _ ty _ _ _ => ty end.

Definition func_name (f : CoreFunction) : string :=
  match f with Function_ name _ _ _ _ _ _ _ _ _ => name end.
Definition func_params (f : CoreFunction) : list TypedParam :=
  match f with Function_ _ params _ _ _ _ _ _ _ _ => params end.
Definition func_kwparams (f : CoreFunction) : list KwParam :=
  match f with Function_ _ _ kwparams _ _ _ _ _ _ _ => kwparams end.
Definition func_body (f : CoreFunction) : CoreBlock :=
  match f with Function_ _ _ _ _ _ body _ _ _ _ => body end.
Definition func_span (f : CoreFunction) : CoreSpan :=
  match f with Function_ _ _ _ _ _ _ _ _ _ span => span end.

(** [Expr::span]. *)
Definition expr_span (e : CoreExpr) : CoreSpan :=
  match e with
  | Expr_Literal _ s | Expr_Var _ s | Expr_BinaryOp _ _ _ s | Expr_UnaryOp _ _ s
  | Expr_Call _ _ _ _ _ s | Expr_Builtin _ _ s | Expr_ArrayLiteral _ _ s
  | Expr_TypedEmptyArray _ s | Expr_Index _ _ s | Expr_Range _ _ _ s
  | Expr_Comprehension _ _ _ _ s | Expr_MultiComprehension _ _ _ _ s
  | Expr_Generator _ _ _ _ s | Expr_SliceAll s | Expr_FieldAccess _ _ s
  | Expr_FunctionRef _ s | Expr_TupleLiteral _ s | Expr_NamedTupleLiteral _ s
  | Expr_Pair _ _ s | Expr_DictLiteral _ s | Expr_LetBlock _ _ s | Expr_StringConcat _ s
  | Expr_ModuleCall _ _ _ _ _ _ s | Expr_Ternary _ _ _ s | Expr_New _ _ _ s
  | Expr_DynamicTypeConstruct _ _ _ _ s | Expr_QuoteLiteral _ s | Expr_AssignExpr _ _ s
  | Expr_ReturnExpr _ s | Expr_BreakExpr s | Expr_ContinueExpr s | Expr_Convert _ _ s => s
  end.

(** [Stmt::span]; a block has its own. *)
Definition stmt_source_span (s : CoreStmt) : CoreSpan :=
  match s with
  | Stmt_Block (Block _ s) => s
  | Stmt_Assign _ _ s | Stmt_AddAssign _ _ s | Stmt_For _ _ _ _ _ s | Stmt_ForEach _ _ _ s
  | Stmt_ForEachTuple _ _ _ s | Stmt_While _ _ s | Stmt_If _ _ _ s | Stmt_Break s
  | Stmt_Continue s | Stmt_Try _ _ _ _ _ s | Stmt_Return _ s | Stmt_Expr _ s
  | Stmt_Meta _ s | Stmt_Timed _ s | Stmt_Test _ _ s | Stmt_TestSet _ _ s
  | Stmt_TestThrows _ _ s | Stmt_IndexAssign _ _ _ s | Stmt_FieldAssign _ _ _ s
  | Stmt_DestructuringAssign _ _ s | Stmt_DictAssign _ _ _ s | Stmt_Using _ s
  | Stmt_Export _ s | Stmt_FunctionDef _ s | Stmt_EvalFunctionDef _ s | Stmt_Label _ s
  | Stmt_Goto _ s | Stmt_EnumDef _ _ s | Stmt_Global _ s | Stmt_LocalDecl _ _ s
  | Stmt_RuntimeNominalDef _ _ s => s
  end.
End CoreIr.
