(* ===== verification/SsaScan.v ===== *)
(** * Names that Core IR reads and binds

    subset_julia_vm_compile/src/compile/ssa_ir/scan.rs: the walks that the SSA
    construction uses for opaque constructs and for the variables of a loop.  An
    output parameter of the source is the returned list or set here. *)

From S2P Require Export CoreIr.

Section Scan.
Context {C : CoreTypes}.

Definition opt {A B} (f : A -> list B) (o : option A) : list B :=
  match o with Some x => f x | None => [] end.

(** ** Reads *)

Fixpoint dedup (seen : gset string) (names : list string) : list string :=
  match names with
  | [] => []
  | name :: names =>
      if bool_decide (name ∈ seen) then dedup seen names else name :: dedup ({[name]} ∪ seen) names
  end.

Definition dedup_in_order (names : list string) : list string := dedup ∅ names.

Fixpoint expr_reads (e : CoreExpr) : list string :=
  match e with
  | Expr_Var name _ => [name]
  | Expr_Literal _ _ | Expr_TypedEmptyArray _ _ | Expr_SliceAll _ | Expr_FunctionRef _ _
  | Expr_BreakExpr _ | Expr_ContinueExpr _ => []
  | Expr_BinaryOp _ lhs rhs _ | Expr_Pair lhs rhs _ => expr_reads lhs ++ expr_reads rhs
  | Expr_UnaryOp _ operand _ | Expr_Convert _ operand _ => expr_reads operand
  | Expr_Call _ args kwargs _ _ _ | Expr_ModuleCall _ _ args kwargs _ _ _ =>
      flat_map expr_reads args ++ flat_map (fun kw => expr_reads kw.2) kwargs
  | Expr_Builtin _ args _ | Expr_New _ args _ _ => flat_map expr_reads args
  | Expr_ArrayLiteral elements _ _ | Expr_TupleLiteral elements _ | Expr_StringConcat elements _ =>
      flat_map expr_reads elements
  | Expr_Index array indices _ => expr_reads array ++ flat_map expr_reads indices
  | Expr_Range start step stop _ => expr_reads start ++ opt expr_reads step ++ expr_reads stop
  | Expr_Comprehension body _ iter filter _ | Expr_Generator body _ iter filter _ =>
      expr_reads body ++ expr_reads iter ++ opt expr_reads filter
  | Expr_MultiComprehension body iterations filter _ _ =>
      expr_reads body ++ flat_map (fun it => expr_reads it.2) iterations ++ opt expr_reads filter
  | Expr_FieldAccess object _ _ => expr_reads object
  | Expr_NamedTupleLiteral fields _ => flat_map (fun f => expr_reads f.2) fields
  | Expr_DictLiteral pairs _ => flat_map (fun kv => expr_reads kv.1 ++ expr_reads kv.2) pairs
  | Expr_LetBlock bindings body _ => flat_map (fun b => expr_reads b.2) bindings ++ block_reads body
  | Expr_Ternary condition then_expr else_expr _ =>
      expr_reads condition ++ expr_reads then_expr ++ expr_reads else_expr
  | Expr_DynamicTypeConstruct _ base_expr type_args _ _ =>
      opt expr_reads base_expr ++ flat_map expr_reads type_args
  | Expr_QuoteLiteral constructor _ => expr_reads constructor
  | Expr_AssignExpr _ value _ => expr_reads value
  | Expr_ReturnExpr value _ => opt expr_reads value
  end
with stmt_reads (s : CoreStmt) : list string :=
  match s with
  | Stmt_Block b => block_reads b
  | Stmt_Assign _ value _ => expr_reads value
  | Stmt_AddAssign var value _ => var :: expr_reads value
  | Stmt_For _ start stop step body _ =>
      expr_reads start ++ expr_reads stop ++ opt expr_reads step ++ block_reads body
  | Stmt_ForEach _ iterable body _ | Stmt_ForEachTuple _ iterable body _ =>
      expr_reads iterable ++ block_reads body
  | Stmt_While condition body _ => expr_reads condition ++ block_reads body
  | Stmt_If condition then_branch else_branch _ =>
      expr_reads condition ++ block_reads then_branch ++ opt block_reads else_branch
  | Stmt_Try try_block _ catch_block else_block finally_block _ =>
      block_reads try_block ++ opt block_reads catch_block ++ opt block_reads else_block ++
      opt block_reads finally_block
  | Stmt_Return value _ => opt expr_reads value
  | Stmt_Expr e _ => expr_reads e
  | Stmt_Timed body _ | Stmt_TestSet _ body _ => block_reads body
  | Stmt_Test condition _ _ => expr_reads condition
  | Stmt_TestThrows _ e _ => expr_reads e
  | Stmt_IndexAssign array indices value _ =>
      array :: flat_map expr_reads indices ++ expr_reads value
  | Stmt_FieldAssign object _ value _ => object :: expr_reads value
  | Stmt_DestructuringAssign _ value _ => expr_reads value
  | Stmt_DictAssign dict key value _ => dict :: expr_reads key ++ expr_reads value
  | Stmt_FunctionDef f _ | Stmt_EvalFunctionDef f _ => function_reads f
  | Stmt_Break _ | Stmt_Continue _ | Stmt_Meta _ _ | Stmt_LocalDecl _ _ _ | Stmt_Using _ _
  | Stmt_Export _ _ | Stmt_Label _ _ | Stmt_Goto _ _ | Stmt_EnumDef _ _ _
  | Stmt_RuntimeNominalDef _ _ _ | Stmt_Global _ _ => []
  end
with block_reads (b : CoreBlock) : list string :=
  match b with Block l _ => flat_map stmt_reads l end
with function_reads (f : CoreFunction) : list string :=
  match f with Function_ _ _ _ _ _ body _ _ _ _ => block_reads body end.

Definition expr_read_names (e : CoreExpr) : list string := dedup_in_order (expr_reads e).
Definition stmt_read_names (s : CoreStmt) : list string := dedup_in_order (stmt_reads s).

(** ** Writes *)

Definition union_map {A} (f : A -> gset string) : list A -> gset string :=
  fix go l := match l with [] => ∅ | x :: l => f x ∪ go l end.

Definition opt_union {A} (f : A -> gset string) (o : option A) : gset string :=
  match o with Some x => f x | None => ∅ end.

(** [merge_minus]: what the inner scope binds, without its own binders. *)
Definition minus (inner : gset string) (bound : list string) : gset string :=
  inner ∖ list_to_set bound.

Definition insert_assign_targets (var : string) : gset string :=
  match decode_tuple_comprehension_binding var with
  | Some vars => list_to_set vars
  | None => {[var]}
  end.

Fixpoint expr_write_names (e : CoreExpr) : gset string :=
  match e with
  | Expr_AssignExpr var value _ => {[var]} ∪ expr_write_names value
  | Expr_Literal _ _ | Expr_Var _ _ | Expr_TypedEmptyArray _ _ | Expr_SliceAll _
  | Expr_FunctionRef _ _ | Expr_BreakExpr _ | Expr_ContinueExpr _ => ∅
  | Expr_BinaryOp _ lhs rhs _ | Expr_Pair lhs rhs _ => expr_write_names lhs ∪ expr_write_names rhs
  | Expr_UnaryOp _ operand _ | Expr_Convert _ operand _ => expr_write_names operand
  | Expr_Call _ args kwargs _ _ _ | Expr_ModuleCall _ _ args kwargs _ _ _ =>
      union_map expr_write_names args ∪ union_map (fun kw => expr_write_names kw.2) kwargs
  | Expr_Builtin _ args _ | Expr_New _ args _ _ => union_map expr_write_names args
  | Expr_ArrayLiteral elements _ _ | Expr_TupleLiteral elements _ | Expr_StringConcat elements _ =>
      union_map expr_write_names elements
  | Expr_Index array indices _ => expr_write_names array ∪ union_map expr_write_names indices
  | Expr_Range start step stop _ =>
      expr_write_names start ∪ opt_union expr_write_names step ∪ expr_write_names stop
  | Expr_Comprehension body var iter filter _ | Expr_Generator body var iter filter _ =>
      expr_write_names iter ∪
      minus (expr_write_names body ∪ opt_union expr_write_names filter) [var]
  | Expr_MultiComprehension body iterations filter _ _ =>
      union_map (fun it => expr_write_names it.2) iterations ∪
      minus (expr_write_names body ∪ opt_union expr_write_names filter) (map fst iterations)
  | Expr_FieldAccess object _ _ => expr_write_names object
  | Expr_NamedTupleLiteral fields _ => union_map (fun f => expr_write_names f.2) fields
  | Expr_DictLiteral pairs _ =>
      union_map (fun kv => expr_write_names kv.1 ∪ expr_write_names kv.2) pairs
  | Expr_LetBlock bindings body _ =>
      union_map (fun b => expr_write_names b.2) bindings ∪
      minus (block_write_names body) (map fst bindings)
  | Expr_Ternary condition then_expr else_expr _ =>
      expr_write_names condition ∪ expr_write_names then_expr ∪ expr_write_names else_expr
  | Expr_DynamicTypeConstruct _ base_expr type_args _ _ =>
      opt_union expr_write_names base_expr ∪ union_map expr_write_names type_args
  | Expr_QuoteLiteral constructor _ => expr_write_names constructor
  | Expr_ReturnExpr value _ => opt_union expr_write_names value
  end
with stmt_write_names (s : CoreStmt) : gset string :=
  match s with
  | Stmt_Block b => block_write_names b
  | Stmt_Assign var value _ => insert_assign_targets var ∪ expr_write_names value
  | Stmt_AddAssign var value _ => {[var]} ∪ expr_write_names value
  | Stmt_For var start stop step body _ =>
      expr_write_names start ∪ expr_write_names stop ∪ opt_union expr_write_names step ∪
      minus (block_write_names body) [var]
  | Stmt_ForEach var iterable body _ =>
      expr_write_names iterable ∪ minus (block_write_names body) [var]
  | Stmt_ForEachTuple vars iterable body _ =>
      expr_write_names iterable ∪ minus (block_write_names body) vars
  | Stmt_While condition body _ => expr_write_names condition ∪ block_write_names body
  | Stmt_If condition then_branch else_branch _ =>
      expr_write_names condition ∪ block_write_names then_branch ∪
      opt_union block_write_names else_branch
  | Stmt_Try try_block catch_var catch_block else_block finally_block _ =>
      block_write_names try_block ∪
      opt_union (fun b => minus (block_write_names b) (opt (fun v => [v]) catch_var)) catch_block ∪
      opt_union block_write_names else_block ∪ opt_union block_write_names finally_block
  | Stmt_Return value _ => opt_union expr_write_names value
  | Stmt_Expr e _ => expr_write_names e
  | Stmt_Timed body _ | Stmt_TestSet _ body _ => block_write_names body
  | Stmt_Test condition _ _ => expr_write_names condition
  | Stmt_TestThrows _ e _ => expr_write_names e
  | Stmt_IndexAssign _ indices value _ => union_map expr_write_names indices ∪ expr_write_names value
  | Stmt_FieldAssign _ _ value _ => expr_write_names value
  | Stmt_DestructuringAssign targets value _ => list_to_set targets ∪ expr_write_names value
  | Stmt_DictAssign _ key value _ => expr_write_names key ∪ expr_write_names value
  | Stmt_FunctionDef f _ | Stmt_EvalFunctionDef f _ => {[func_name f]}
  | Stmt_Break _ | Stmt_Continue _ | Stmt_Meta _ _ | Stmt_LocalDecl _ _ _ | Stmt_Using _ _
  | Stmt_Export _ _ | Stmt_Label _ _ | Stmt_Goto _ _ | Stmt_EnumDef _ _ _
  | Stmt_RuntimeNominalDef _ _ _ | Stmt_Global _ _ => ∅
  end
with block_write_names (b : CoreBlock) : gset string :=
  match b with Block l _ => union_map stmt_write_names l end.

(** ** [global] declarations *)

Fixpoint collect_global_decls_stmt (s : CoreStmt) : gset string :=
  match s with
  | Stmt_Global names _ => list_to_set names
  | Stmt_Block b => collect_global_decls b
  | Stmt_For _ _ _ _ body _ | Stmt_ForEach _ _ body _ | Stmt_ForEachTuple _ _ body _
  | Stmt_While _ body _ | Stmt_Timed body _ | Stmt_TestSet _ body _ => collect_global_decls body
  | Stmt_If _ then_branch else_branch _ =>
      collect_global_decls then_branch ∪ opt_union collect_global_decls else_branch
  | Stmt_Try try_block _ catch_block else_block finally_block _ =>
      collect_global_decls try_block ∪ opt_union collect_global_decls catch_block ∪
      opt_union collect_global_decls else_block ∪ opt_union collect_global_decls finally_block
  | _ => ∅
  end
with collect_global_decls (b : CoreBlock) : gset string :=
  match b with Block l _ => union_map collect_global_decls_stmt l end.
End Scan.
