(* ===== verification/SsaDom.v ===== *)
(** * Reachability and dominators

    subset_julia_vm_compile/src/compile/ssa_ir/dom.rs: the blocks that can be
    reached, the reverse post-order and the immediate dominators of
    Cooper, Harvey and Kennedy. *)

From stdpp Require Export gmap fin_sets sorting.
From S2P Require Export SsaModel.

Section Dom.
Context {P : Payload}.
Implicit Types func : SsaFunction.

(** The edges that a search follows: none out of a block that does not exist. *)
Definition block_succs func (id : BlockId) : list BlockId :=
  match block func id with Some b => succs b | None => [] end.

Definition edge_count func : nat := sum_list_with (length ∘ succs) (fn_blocks func).

(** ** [compute_reachable] *)

(** The head of [stack] is its top, so that [extend] reverses.  [None] when the
    fuel runs out: every turn but the first pops what following an edge of a new
    block pushed. *)
Fixpoint reachable_loop func (fuel : nat) (reachable : gset BlockId) (stack : list BlockId)
    : option (gset BlockId) :=
  match stack with
  | [] => Some reachable
  | block_id :: rest =>
      match fuel with
      | 0 => None
      | S fuel =>
          if bool_decide (block_id ∈ reachable) then reachable_loop func fuel reachable rest
          else reachable_loop func fuel ({[block_id]} ∪ reachable)
                 (reverse (block_succs func block_id) ++ rest)
      end
  end.

Definition compute_reachable func : option (gset BlockId) :=
  reachable_loop func (S (edge_count func)) ∅ [fn_entry func].

(** ** [reverse_post_order] *)

(** The depth-first search: [(block, next successor index)] on the stack.  The
    post-order is built from its end, which is the final [reverse]. *)
Fixpoint rpo_loop func (fuel : nat) (stack : list (BlockId * nat)) (visited : gset BlockId)
    (post : list BlockId) : option (list BlockId) :=
  match stack with
  | [] => Some post
  | (block_id, succ_index) :: rest =>
      match fuel with
      | 0 => None
      | S fuel =>
          match block func block_id with
          | None => rpo_loop func fuel rest visited post
          | Some b =>
              match succs b !! succ_index with
              | Some succ =>
                  if bool_decide (succ ∈ visited)
                  then rpo_loop func fuel ((block_id, S succ_index) :: rest) visited post
                  else rpo_loop func fuel ((succ, 0) :: (block_id, S succ_index) :: rest)
                         ({[succ]} ∪ visited) post
              | None => rpo_loop func fuel rest visited (block_id :: post)
              end
          end
      end
  end.

(** Two turns per edge and one per block. *)
Definition rpo_fuel func : nat := S (2 * edge_count func + length (fn_blocks func)).

Definition reverse_post_order func : option (list BlockId) :=
  rpo_loop func (rpo_fuel func) [(fn_entry func, 0)] {[fn_entry func]} [].

(** ** [intersect] *)

Definition usize_max : N := 18446744073709551615.

(** [rpo.iter().enumerate()] collected in a map: a later position replaces an
    earlier one. *)
Definition number_map (rpo : list BlockId) : gmap BlockId N :=
  foldl (fun m p => <[snd p := N.of_nat (fst p)]> m) ∅ (zip (seq 0 (length rpo)) rpo).

Definition number (rpo_number : gmap BlockId N) (b : BlockId) : N :=
  default usize_max (rpo_number !! b).

(** [while number(x) > number(y) { x = idoms[x]? }]; [inl] is the early
    [return]. *)
Fixpoint climb (fuel : nat) (idoms : gmap BlockId BlockId) (rpo_number : gmap BlockId N)
    (x y : BlockId) : option (BlockId + BlockId) :=
  if (number rpo_number y <? number rpo_number x)%N then
    match fuel with
    | 0 => None
    | S fuel =>
        match idoms !! x with
        | None => Some (inl y)
        | Some next => climb fuel idoms rpo_number next y
        end
    end
  else Some (inr x).

Fixpoint intersect_loop (fuel : nat) (idoms : gmap BlockId BlockId)
    (rpo_number : gmap BlockId N) (climb_fuel : nat) (a b : BlockId) : option BlockId :=
  if Nat.eqb a b then Some a
  else
    match fuel with
    | 0 => None
    | S fuel =>
        a ← climb climb_fuel idoms rpo_number a b;
        match a with
        | inl b => Some b
        | inr a =>
            b ← climb climb_fuel idoms rpo_number b a;
            match b with
            | inl a => Some a
            | inr b => intersect_loop fuel idoms rpo_number climb_fuel a b
            end
        end
    end.

(** The numbers of [a] and [b] go down: the size of the map bounds each climb,
    and both climbs together. *)
Definition intersect (a b : BlockId) (idoms : gmap BlockId BlockId)
    (rpo_number : gmap BlockId N) : option BlockId :=
  intersect_loop (S (2 * size rpo_number)) idoms rpo_number (size rpo_number) a b.

(** ** [compute_idoms] *)

(** The loop over the predecessors of one block. *)
Fixpoint new_idom_loop (reachable : gset BlockId) (idoms : gmap BlockId BlockId)
    (rpo_number : gmap BlockId N) (new_idom : option BlockId) (ps : list BlockId)
    : option (option BlockId) :=
  match ps with
  | [] => Some new_idom
  | pred :: ps =>
      if bool_decide (pred ∉ reachable) || bool_decide (idoms !! pred = None)
      then new_idom_loop reachable idoms rpo_number new_idom ps
      else
        new_idom ←
          match new_idom with
          | None => Some pred
          | Some current => intersect pred current idoms rpo_number
          end;
        new_idom_loop reachable idoms rpo_number (Some new_idom) ps
  end.

(** One turn of [for &block_id in rpo.iter().skip(1)]. *)
Definition idom_turn func (reachable : gset BlockId) (rpo_number : gmap BlockId N)
    (state : gmap BlockId BlockId * bool) (block_id : BlockId)
    : option (gmap BlockId BlockId * bool) :=
  let '(idoms, changed) := state in
  match block func block_id with
  | None => Some (idoms, changed)
  | Some b =>
      new_idom ← new_idom_loop reachable idoms rpo_number None (preds b);
      match new_idom with
      | None => Some (idoms, changed)
      | Some new_idom =>
          if bool_decide (idoms !! block_id = Some new_idom) then Some (idoms, changed)
          else Some (<[block_id := new_idom]> idoms, true)
      end
  end.

Fixpoint idom_round func (reachable : gset BlockId) (rpo_number : gmap BlockId N)
    (state : gmap BlockId BlockId * bool) (ids : list BlockId)
    : option (gmap BlockId BlockId * bool) :=
  match ids with
  | [] => Some state
  | id :: ids =>
      state ← idom_turn func reachable rpo_number state id;
      idom_round func reachable rpo_number state ids
  end.

(** [while changed]. *)
Fixpoint idom_loop func (reachable : gset BlockId) (rpo_number : gmap BlockId N)
    (rpo : list BlockId) (fuel : nat) (idoms : gmap BlockId BlockId)
    : option (gmap BlockId BlockId) :=
  match fuel with
  | 0 => None
  | S fuel =>
      state ← idom_round func reachable rpo_number (idoms, false) (tail rpo);
      let '(idoms, changed) := state in
      if (changed : bool) then idom_loop func reachable rpo_number rpo fuel idoms
      else Some idoms
  end.

(** Every round that changes something lowers the number of a dominator. *)
Definition idom_fuel (rpo : list BlockId) : nat := S (S (length rpo) * S (length rpo)).

Definition compute_idoms func (reachable : gset BlockId) : option (gmap BlockId BlockId) :=
  rpo ← reverse_post_order func;
  idom_loop func reachable (number_map rpo) rpo (idom_fuel rpo)
    {[fn_entry func := fn_entry func]}.

(** ** [dominates] *)

Fixpoint dominates_loop (fuel : nat) (a current entry : BlockId)
    (idoms : gmap BlockId BlockId) : option bool :=
  if Nat.eqb current a then Some true
  else if Nat.eqb current entry then Some false
  else
    match idoms !! current with
    | Some idom =>
        if Nat.eqb idom current then Some false
        else match fuel with
             | 0 => None
             | S fuel => dominates_loop fuel a idom entry idoms
             end
    | None => Some false
    end.

Definition dominates (a b entry : BlockId) (idoms : gmap BlockId BlockId) : option bool :=
  dominates_loop (size idoms) a b entry idoms.
End Dom.
