(* ===== verification/SsaReach.v ===== *)
(** * Paths and dominators of a rooted graph

    The textbook notions that the dominator computation and the SSA verifier are
    held against: a block dominates another when every path from the entry to
    the second passes the first. *)

From stdpp Require Export base list relations.
From S2P Require Export SsaDom.

Section Graph.
Variable edge : nat -> nat -> Prop.
Variable entry : nat.

(** [path v l]: [l] lists the blocks of a path from the entry to [v], last block
    first. *)
Inductive path : nat -> list nat -> Prop :=
  | path_entry : path entry [entry]
  | path_step u v l : path u l -> edge u v -> path v (v :: l).

Definition reached (v : nat) : Prop := exists l, path v l.

Definition dominator (d v : nat) : Prop := forall l, path v l -> d ∈ l.

Definition strict_dominator (d v : nat) : Prop := d <> v /\ dominator d v.

Lemma path_head v l : path v l -> exists l', l = v :: l'.
Proof. destruct 1; by eexists. Qed.

Lemma path_self v l : path v l -> v ∈ l.
Proof. intros (l' & ->)%path_head. left. Qed.

Lemma reached_entry : reached entry.
Proof. exists [entry]. constructor. Qed.

Lemma reached_step u v : reached u -> edge u v -> reached v.
Proof. intros (l & Hl) He. exists (v :: l). by econstructor. Qed.

Lemma reached_rtc v : reached v <-> rtc edge entry v.
Proof.
  split.
  - intros (l & Hl). induction Hl as [|u v l _ IH He]; [constructor|by eapply rtc_r].
  - intros Hr. apply rtc_ind_r with (P := reached) in Hr; [done|apply reached_entry|].
    intros y z _ He Hy. by eapply reached_step.
Qed.

Lemma dominator_refl v : dominator v v.
Proof. intros l. apply path_self. Qed.

Lemma dominator_entry d : dominator d entry -> d = entry.
Proof. intros Hd. specialize (Hd _ path_entry). set_solver. Qed.

Lemma entry_dominator v : dominator entry v.
Proof. intros l Hl. induction Hl; [by left|by right]. Qed.

(** A dominator other than the block itself dominates the predecessors. *)
Lemma dominator_pred d u v : dominator d v -> d <> v -> edge u v -> dominator d u.
Proof.
  intros Hd Hne He l Hl. specialize (Hd (v :: l) (path_step _ _ _ Hl He)).
  by apply elem_of_cons in Hd as [?|?].
Qed.

(** What dominates all predecessors dominates the block. *)
Lemma preds_dominator d v : v <> entry -> (forall u, edge u v -> reached u -> dominator d u) ->
  dominator d v.
Proof.
  intros Hv Hp l Hl. inversion Hl as [|u ? l' Hl' He]; subst; [done|].
  right. eapply Hp; [exact He|by eexists|exact Hl'].
Qed.

(** Every block of a path is itself the end of a path that is a part of it. *)
Lemma path_prefix d v l : path v l -> d ∈ l -> exists l', path d l' /\ l' `suffix_of` l.
Proof.
  induction 1 as [|u v l Hl IH He].
  - intros ->%list_elem_of_singleton. exists [entry]. split; [constructor|done].
  - intros [->|Hd]%elem_of_cons.
    + exists (v :: l). split; [by econstructor|done].
    + destruct (IH Hd) as (l' & Hl' & Hs). exists l'. split; [done|by apply suffix_cons_r].
Qed.

Lemma dominator_trans a b c : dominator a b -> dominator b c -> dominator a c.
Proof.
  intros Hab Hbc l Hl. destruct (path_prefix b c l Hl (Hbc l Hl)) as (l' & Hl' & [k ->]).
  apply elem_of_app. right. by apply Hab.
Qed.

(** Two dominators of each other, one of them reached, are the same: cut a
    shortest path at the other. *)
Lemma dominator_antisym a b : reached a -> dominator a b -> dominator b a -> a = b.
Proof.
  intros (l & Hl) Hab Hba. destruct (decide (a = b)) as [|Hne]; [done|exfalso].
  revert l Hl. induction l as [l IH] using (induction_ltof1 _ (@length nat)). intros Hl.
  destruct (path_prefix b a l Hl (Hba l Hl)) as (l1 & Hl1 & Hs1).
  destruct (path_prefix a b l1 Hl1 (Hab l1 Hl1)) as (l2 & Hl2 & Hs2).
  apply (IH l2); [|done]. unfold ltof.
  destruct (path_head _ _ Hl) as (k & ->). destruct (path_head _ _ Hl1) as (k1 & ->).
  apply suffix_length in Hs2. destruct Hs1 as [[|x n] Hn]; simplify_eq/=.
  rewrite length_app. simpl. lia.
Qed.

Lemma reached_dominator d v : reached v -> dominator d v -> reached d.
Proof.
  intros (l & Hl) Hd. destruct (path_prefix _ _ _ Hl (Hd l Hl)) as (l' & Hl' & _). by exists l'.
Qed.

End Graph.

(** Fewer edges, more dominators. *)
Lemma path_mono (edge edge' : nat -> nat -> Prop) entry v l :
  (forall u v, edge u v -> edge' u v) -> path edge entry v l -> path edge' entry v l.
Proof. intros He. induction 1; econstructor; eauto. Qed.

Lemma dominator_mono (edge edge' : nat -> nat -> Prop) entry d v :
  (forall u v, edge u v -> edge' u v) -> dominator edge' entry d v -> dominator edge entry d v.
Proof. intros He Hd l Hl. apply Hd. by eapply path_mono. Qed.

(** * The searches over the SSA blocks

    [compute_reachable] and [reverse_post_order] end; the first finds the blocks
    that a path from the entry leads to; the second lists them, the entry first,
    each other one after one of its predecessors. *)

(** ** The work left to a search *)

(** What the blocks below [n] outside of [seen] weigh. *)
Definition weight (f : nat -> nat) (n : nat) (seen : gset nat) : nat :=
  sum_list_with (fun i => if bool_decide (i ∈ seen) then 0 else f i) (seq 0 n).

Lemma weight_visit f n seen x :
  x ∉ seen -> weight f n seen = weight f n ({[x]} ∪ seen) + (if x <? n then f x else 0).
Proof.
  intros Hx. unfold weight. induction n as [|n IH]; [done|].
  rewrite seq_S, !sum_list_with_app, IH. simpl. clear IH.
  destruct (Nat.ltb_spec x n) as [Hlt|Hge], (Nat.ltb_spec x (S n)) as [Hlt'|Hge']; try lia.
  - rewrite (bool_decide_ext (n ∈ {[x]} ∪ seen) (n ∈ seen)); [lia|].
    assert (x <> n) by lia. set_solver.
  - assert (x = n) as -> by lia. rewrite bool_decide_eq_false_2 by done.
    rewrite bool_decide_eq_true_2 by set_solver. lia.
  - rewrite (bool_decide_ext (n ∈ {[x]} ∪ seen) (n ∈ seen)); [lia|].
    assert (x <> n) by lia. set_solver.
Qed.

Lemma weight_le f n seen : weight f n seen <= sum_list_with f (seq 0 n).
Proof.
  unfold weight. induction (seq 0 n) as [|i l IH]; simpl; [done|]. case_bool_decide; lia.
Qed.

Lemma sum_list_with_ext {A} (f g : A -> nat) (l : list A) :
  (forall x, x ∈ l -> f x = g x) -> sum_list_with f l = sum_list_with g l.
Proof.
  induction l as [|x l IH]; intros Hfg; simpl; [done|].
  rewrite (Hfg x) by (by left). f_equal. apply IH. intros y Hy. apply Hfg. by right.
Qed.

Lemma sum_list_with_S {A} (f : A -> nat) (l : list A) :
  sum_list_with (fun x => S (f x)) l = length l + sum_list_with f l.
Proof. induction l as [|x l IH]; simpl; lia. Qed.

Section Reach.
Context {P : Payload}.
Implicit Types func : SsaFunction.

Definition edge func (u v : BlockId) : Prop := v ∈ block_succs func u.

Abbreviation reached_in func := (reached (edge func) (fn_entry func)).
Abbreviation path_in func := (path (edge func) (fn_entry func)).

Lemma block_succs_sum func :
  sum_list_with (fun i => length (block_succs func i)) (seq 0 (length (fn_blocks func))) =
  edge_count func.
Proof.
  unfold edge_count, block_succs, block.
  induction (fn_blocks func) as [|b l IH] using rev_ind; [done|].
  rewrite length_app, seq_app, !sum_list_with_app, <- IH. simpl.
  rewrite list_lookup_middle by done. f_equal. apply sum_list_with_ext.
  intros i Hi%elem_of_seq. by rewrite lookup_app_l by lia.
Qed.

(** ** [compute_reachable] *)

Lemma reachable_loop_total func fuel reachable stack :
  length stack + weight (fun i => length (block_succs func i)) (length (fn_blocks func)) reachable
    <= fuel ->
  is_Some (reachable_loop func fuel reachable stack).
Proof.
  revert reachable stack. induction fuel as [|fuel IH]; intros R [|x rest] Hf; simpl in *;
    try (by eexists); [lia|].
  case_bool_decide as Hx; apply IH; [lia|].
  rewrite (weight_visit _ _ _ x Hx) in Hf. rewrite length_app, length_reverse.
  destruct (Nat.ltb_spec x (length (fn_blocks func))) as [Hlt|Hge]; [lia|].
  assert (block_succs func x = []) as ->; [|simpl; lia].
  unfold block_succs, block. by rewrite lookup_ge_None_2.
Qed.

Lemma compute_reachable_total func : is_Some (compute_reachable func).
Proof.
  apply reachable_loop_total. pose proof (weight_le (fun i => length (block_succs func i))
    (length (fn_blocks func)) ∅). rewrite block_succs_sum in *. simpl. lia.
Qed.

Lemma reachable_loop_spec func fuel reachable stack r :
  (forall v, v ∈ stack -> reached_in func v) ->
  (forall v, v ∈ reachable -> reached_in func v) ->
  (forall u v, u ∈ reachable -> edge func u v -> v ∈ reachable \/ v ∈ stack) ->
  reachable_loop func fuel reachable stack = Some r ->
  reachable ⊆ r /\ (forall v, v ∈ stack -> v ∈ r) /\
  (forall v, v ∈ r -> reached_in func v) /\
  (forall u v, u ∈ r -> edge func u v -> v ∈ r).
Proof.
  revert reachable stack. induction fuel as [|fuel IH]; intros R [|x rest] Hst HR Hcl; simpl;
    try (by intros [= <-]; split_and!; set_solver).
  case_bool_decide as Hx; intros Hr.
  - destruct (IH R rest) as (H1 & H2 & H3 & H4); [set_solver|done| |done|].
    { intros u v Hu Hv. destruct (Hcl u v Hu Hv) as [?|[->|?]%elem_of_cons]; auto. }
    split_and!; [done|set_solver|done|done].
  - assert (reached_in func x) as Hxr by (apply Hst; left).
    destruct (IH ({[x]} ∪ R) (reverse (block_succs func x) ++ rest)) as (H1 & H2 & H3 & H4); [..|done|].
    + intros v [Hv|Hv]%elem_of_app; [|apply Hst; by right].
      rewrite elem_of_reverse in Hv. by eapply reached_step.
    + intros v [->%elem_of_singleton|Hv]%elem_of_union; auto.
    + intros u v [->%elem_of_singleton|Hu]%elem_of_union Hv.
      * right. apply elem_of_app. left. by rewrite elem_of_reverse.
      * destruct (Hcl u v Hu Hv) as [?|[->|?]%elem_of_cons]; set_solver.
    + split_and!; [set_solver| |done|done].
      intros v [->|Hv]%elem_of_cons; [set_solver|]. apply H2. set_solver.
Qed.

Lemma compute_reachable_spec func r v :
  compute_reachable func = Some r -> v ∈ r <-> reached_in func v.
Proof.
  intros Hr. apply reachable_loop_spec in Hr as (_ & H2 & H3 & H4).
  - split; [apply H3|]. intros (l & Hl). induction Hl as [|u v l _ IH He]; [apply H2; set_solver|].
    by eapply H4.
  - intros x ->%list_elem_of_singleton. apply reached_entry.
  - set_solver.
  - set_solver.
Qed.
(** ** [reverse_post_order] *)

(** What the structural checks of the verifier establish about the edges. *)
Record edges_ok func : Prop := {
  entry_exists : is_Some (block func (fn_entry func));
  succ_exists u v : edge func u v -> is_Some (block func v);
  pred_spec v b u : block func v = Some b -> u ∈ preds b <-> edge func u v
}.

(** Every block of the list but the first comes after one of its predecessors;
    the first is the entry. *)
Definition rooted func (l : list BlockId) : Prop :=
  forall l1 c l2, l = l1 ++ c :: l2 ->
    (c = fn_entry func /\ l1 = []) \/ exists p, p ∈ l1 /\ edge func p c.

(** The blocks in the order of the result: what is on the stack, the oldest
    first, goes in front of what is finished. *)
Definition rpo_list (stack : list (BlockId * nat)) (post : list BlockId) : list BlockId :=
  reverse stack.*1 ++ post.

Record rpo_state func (stack : list (BlockId * nat)) (visited : gset BlockId)
    (post : list BlockId) : Prop := {
  rpo_nodup : NoDup (rpo_list stack post);
  rpo_visited v : v ∈ visited <-> v ∈ rpo_list stack post;
  rpo_rooted : rooted func (rpo_list stack post);
  rpo_reached v : v ∈ visited -> reached_in func v;
  rpo_stack b i : (b, i) ∈ stack ->
    i <= length (block_succs func b) /\ forall v, v ∈ take i (block_succs func b) -> v ∈ visited;
  rpo_post u v : u ∈ post -> edge func u v -> v ∈ visited
}.

Lemma rpo_list_pop b i stack post : rpo_list ((b, i) :: stack) post = rpo_list stack (b :: post).
Proof. unfold rpo_list. csimpl. by rewrite reverse_cons, <- app_assoc. Qed.

Lemma rooted_push func (l1 l2 : list BlockId) p c :
  rooted func (l1 ++ l2) -> p ∈ l1 -> edge func p c -> rooted func (l1 ++ c :: l2).
Proof.
  intros Hr Hp He k1 x k2 Hk. apply app_eq_inv in Hk as [(k & -> & Hk)|(k & -> & Hk)].
  - destruct k as [|y k]; simplify_eq/=.
    + right. exists p. rewrite app_nil_r in Hp. by split.
    + apply (Hr k1 _ (k ++ l2)). by rewrite <- app_assoc.
  - destruct k as [|y k]; simplify_eq/=.
    + right. exists p. by rewrite app_nil_r.
    + destruct (Hr (l1 ++ k) x k2) as [[-> Hn]|(q & Hq & Hqe)]; [by rewrite <- app_assoc|..].
      * apply app_eq_nil in Hn as [-> ->]. by apply elem_of_nil in Hp.
      * right. exists q. split; [|done]. set_solver.
Qed.

Lemma rpo_skip func b i stack visited post v :
  rpo_state func ((b, i) :: stack) visited post -> block_succs func b !! i = Some v ->
  v ∈ visited -> rpo_state func ((b, S i) :: stack) visited post.
Proof.
  intros [H1 H2 H3 H4 H5 H6] Hi Hv. constructor; try done.
  intros b' i' [[= -> ->]|Hb]%elem_of_cons; [|apply H5; by right].
  split; [by eapply lookup_lt_Some in Hi|]. intros u Hu. erewrite take_S_r in Hu by done.
  apply elem_of_app in Hu as [Hu| ->%list_elem_of_singleton]; [|done].
  destruct (H5 b i ltac:(left)) as [_ H]. by apply H.
Qed.

Lemma rpo_push func b i stack visited post v :
  rpo_state func ((b, i) :: stack) visited post -> block_succs func b !! i = Some v ->
  v ∉ visited -> rpo_state func ((v, 0) :: (b, S i) :: stack) ({[v]} ∪ visited) post.
Proof.
  intros [H1 H2 H3 H4 H5 H6] Hi Hv.
  assert (edge func b v) as He by by apply list_elem_of_lookup_2 in Hi.
  assert (rpo_list ((v, 0) :: (b, S i) :: stack) post = reverse ((b, i) :: stack).*1 ++ v :: post)
    as Hl by by rewrite rpo_list_pop.
  constructor.
  - rewrite Hl, <- Permutation_middle. apply NoDup_cons. split; [by rewrite <- H2|done].
  - intros u. rewrite Hl, elem_of_union, elem_of_singleton, H2. unfold rpo_list. set_solver.
  - rewrite Hl. eapply rooted_push; [exact H3| |exact He]. rewrite elem_of_reverse. left.
  - intros u [->%elem_of_singleton|Hu]%elem_of_union; [|by apply H4].
    eapply reached_step; [|exact He]. apply H4, H2. unfold rpo_list.
    apply elem_of_app. left. rewrite elem_of_reverse. left.
  - intros b' i' [[= -> ->]|[[= -> ->]|Hb]%elem_of_cons]%elem_of_cons.
    + split; [lia|]. by intros u Hu%elem_of_nil.
    + split; [by eapply lookup_lt_Some in Hi|]. intros u Hu. erewrite take_S_r in Hu by done.
      apply elem_of_app in Hu as [Hu| ->%list_elem_of_singleton]; [|set_solver].
      apply elem_of_union. right. destruct (H5 b i ltac:(left)) as [_ H]. by apply H.
    + destruct (H5 b' i' ltac:(by right)) as [Hlen H]. split; [done|].
      intros u Hu. apply elem_of_union. right. by apply H.
  - intros u w Hu Hw. apply elem_of_union. right. by eapply H6.
Qed.

Lemma rpo_pop func b i stack visited post :
  rpo_state func ((b, i) :: stack) visited post -> block_succs func b !! i = None ->
  rpo_state func stack visited (b :: post).
Proof.
  intros [H1 H2 H3 H4 H5 H6] Hi. rewrite rpo_list_pop in *. constructor; try done.
  - intros b' i' Hb. apply H5. by right.
  - intros u v [->|Hu]%elem_of_cons He; [|by eapply H6]. destruct (H5 b i ltac:(left)) as [_ H].
    apply H. by rewrite take_ge by by apply lookup_ge_None.
Qed.

(** The turns that are left: one per edge and one for the end of each block. *)
Definition rpo_left func (stack : list (BlockId * nat)) (visited : gset BlockId) : nat :=
  sum_list_with (fun e => S (length (block_succs func e.1)) - e.2) stack +
  weight (fun b => S (length (block_succs func b))) (length (fn_blocks func)) visited.

Lemma rpo_loop_spec func fuel stack visited post :
  edges_ok func -> rpo_state func stack visited post -> rpo_left func stack visited <= fuel ->
  exists rpo visited', rpo_loop func fuel stack visited post = Some rpo /\
    rpo_state func [] visited' rpo /\ visited ⊆ visited'.
Proof.
  intros Hok. revert stack visited post.
  induction fuel as [|fuel IH]; intros [|[b i] stack] visited post Hst Hf; simpl;
    try (by eauto); destruct (rpo_stack _ _ _ _ Hst b i ltac:(left)) as [Hi _];
    unfold rpo_left in Hf; simpl in Hf; [lia|].
  assert (is_Some (block func b)) as [blk Hb].
  { assert (reached_in func b) as [l Hl].
    { apply (rpo_reached _ _ _ _ Hst), (rpo_visited _ _ _ _ Hst). rewrite rpo_list_pop.
      unfold rpo_list. set_solver. }
    destruct Hl as [|u v l Hl He]; [by apply Hok|by eapply succ_exists]. }
  assert (block_succs func b = succs blk) as Hs by (unfold block_succs; by rewrite Hb).
  rewrite Hb, <- Hs. destruct (block_succs func b !! i) as [v|] eqn:Hv.
  - pose proof (lookup_lt_Some _ _ _ Hv). case_bool_decide as Hvis.
    + eapply IH; [by eapply rpo_skip|]. unfold rpo_left. simpl. lia.
    + destruct (IH ((v, 0) :: (b, S i) :: stack) ({[v]} ∪ visited) post) as (rpo & vis & ? & ? & ?);
        [by eapply rpo_push| |exists rpo, vis; split_and!; [done|done|set_solver]].
      rewrite (weight_visit _ _ _ _ Hvis) in Hf. unfold rpo_left. simpl.
      assert (v < length (fn_blocks func)) as Hlt%Nat.ltb_lt.
      { destruct (succ_exists _ Hok b v) as [bv Hbv]; [by apply list_elem_of_lookup_2 in Hv|].
        by eapply lookup_lt_Some. }
      rewrite Hlt in Hf. lia.
  - eapply IH; [by eapply rpo_pop|]. unfold rpo_left. apply lookup_ge_None in Hv. lia.
Qed.

(** The reverse post-order is found, lists every reached block once, and every
    block but the entry, the first, comes after one of its predecessors. *)
Lemma reverse_post_order_spec func :
  edges_ok func ->
  exists rpo, reverse_post_order func = Some rpo /\ NoDup rpo /\ rooted func rpo /\
    forall v, v ∈ rpo <-> reached_in func v.
Proof.
  intros Hok. destruct (rpo_loop_spec func (rpo_fuel func) [(fn_entry func, 0)]
    {[fn_entry func]} []) as (rpo & visited & Hr & [H1 H2 H3 H4 H5 H6] & Hsub); [done|..].
  - constructor; unfold rpo_list; simpl.
    + apply NoDup_singleton.
    + set_solver.
    + intros l1 c l2 Hl. destruct l1 as [|x l1]; [left; by simplify_eq/=|].
      apply (f_equal length) in Hl. rewrite length_app in Hl. simpl in Hl. lia.
    + intros v ->%elem_of_singleton. apply reached_entry.
    + intros b i [= -> ->]%list_elem_of_singleton. split; [lia|]. by intros v ?%elem_of_nil.
    + by intros u v ?%elem_of_nil.
  - unfold rpo_left, rpo_fuel. simpl.
    destruct (entry_exists _ Hok) as [b Hb]. apply lookup_lt_Some, Nat.ltb_lt in Hb as Hlt.
    pose proof (weight_visit (fun b => S (length (block_succs func b))) (length (fn_blocks func))
      ∅ (fn_entry func) ltac:(set_solver)) as Hw. rewrite Hlt, union_empty_r_L in Hw.
    pose proof (weight_le (fun b => S (length (block_succs func b))) (length (fn_blocks func)) ∅) as Hle.
    assert (sum_list_with (fun b => S (length (block_succs func b)))
      (seq 0 (length (fn_blocks func))) = length (fn_blocks func) + edge_count func) as Hsum.
    { by rewrite <- block_succs_sum, sum_list_with_S, length_seq. }
    lia.
  - assert (forall v, v ∈ rpo <-> v ∈ visited) as Hv by (intros v; by rewrite H2).
    exists rpo. split_and!; [done|done|done|]. intros v. split; [by intros; apply H4, Hv|].
    intros (l & Hl). apply Hv. induction Hl as [|u v l _ IH He]; [set_solver|].
    eapply H6; [by apply Hv|done].
Qed.

End Reach.
