(* ===== verification/SsaIdoms.v ===== *)
(** * The immediate dominators are right

    [compute_idoms] ends on every graph that passed the structural checks, and
    the chain of immediate dominators of a block lists exactly its dominators.
    The argument is an invariant of the rounds over the reverse post-order
    ([idoms_inv]): the chains always contain the dominators, a chain never
    grows, and the number of a changed dominator goes down. *)

From S2P Require Export SsaReach.

(** ** The numbering *)

Lemma number_map_snoc l (x : nat) :
  number_map (l ++ [x]) = <[x := N.of_nat (length l)]> (number_map l).
Proof.
  unfold number_map. rewrite length_app, seq_app. simpl.
  rewrite zip_with_app by (by rewrite length_seq). by rewrite foldl_app.
Qed.

Lemma number_map_lookup l i (x : nat) :
  NoDup l -> l !! i = Some x -> number_map l !! x = Some (N.of_nat i).
Proof.
  induction l as [|y l IH] using rev_ind; intros Hnd Hi; [done|].
  rewrite number_map_snoc. apply NoDup_app in Hnd as (Hnd & Hd & _).
  apply lookup_app_Some in Hi as [Hi|[Hle Hi]].
  - rewrite lookup_insert_ne; [by apply IH|]. intros ->. apply (Hd x); [|left].
    by apply list_elem_of_lookup_2 in Hi.
  - apply list_lookup_singleton_Some in Hi as [Hi ->]. rewrite lookup_insert_eq. do 2 f_equal. lia.
Qed.

Lemma number_map_None l (x : nat) : x ∉ l -> number_map l !! x = None.
Proof.
  induction l as [|y l IH] using rev_ind; intros Hx; [done|].
  rewrite number_map_snoc, lookup_insert_ne by set_solver. apply IH. set_solver.
Qed.

Lemma number_map_size (l : list nat) : NoDup l -> size (number_map l) = length l.
Proof.
  induction l as [|y l IH] using rev_ind; intros Hnd; [done|].
  apply NoDup_app in Hnd as (Hnd & Hd & _).
  rewrite number_map_snoc, map_size_insert_None, IH, length_app; [simpl; lia|done|].
  apply number_map_None. intros Hy. apply (Hd y Hy). left.
Qed.

Lemma sum_list_with_le {A} (f g : A -> nat) (l : list A) :
  (forall x, x ∈ l -> f x <= g x) -> sum_list_with f l <= sum_list_with g l.
Proof.
  induction l as [|x l IH]; intros Hfg; simpl; [done|].
  pose proof (Hfg x ltac:(left)). assert (sum_list_with f l <= sum_list_with g l); [|lia].
  apply IH. intros y Hy. apply Hfg. by right.
Qed.

Lemma sum_list_with_const {A} k (l : list A) : sum_list_with (fun _ => k) l = length l * k.
Proof. induction l as [|x l IH]; simpl; lia. Qed.

Lemma sum_list_with_lt {A} (f g : A -> nat) (l : list A) x :
  x ∈ l -> (forall x, x ∈ l -> f x <= g x) -> f x < g x ->
  sum_list_with f l < sum_list_with g l.
Proof.
  intros Hx Hfg Hlt. apply list_elem_of_split in Hx as (l1 & l2 & ->).
  rewrite !sum_list_with_app. simpl.
  assert (sum_list_with f l1 <= sum_list_with g l1).
  { apply sum_list_with_le. intros y Hy. apply Hfg. set_solver. }
  assert (sum_list_with f l2 <= sum_list_with g l2); [|lia].
  apply sum_list_with_le. intros y Hy. apply Hfg. set_solver.
Qed.

Section Idoms.
Context {P : Payload}.
Variable func : SsaFunction.
Variable rpo : list BlockId.
Variable reachable : gset BlockId.
Hypothesis Hok : edges_ok func.
Hypothesis Hnodup : NoDup rpo.
Hypothesis Hrooted : rooted func rpo.
Hypothesis Hrpo : forall v, v ∈ rpo <-> reached (edge func) (fn_entry func) v.
Hypothesis Hreachable : forall v, v ∈ reachable <-> reached (edge func) (fn_entry func) v.

Abbreviation entry := (fn_entry func).
Abbreviation num := (number (number_map rpo)).
Abbreviation dominator := (dominator (edge func) entry).

Lemma num_lookup i c : rpo !! i = Some c -> num c = N.of_nat i.
Proof. intros Hi. unfold number. by erewrite number_map_lookup. Qed.

Lemma num_bound c : c ∈ rpo -> (num c < N.of_nat (length rpo))%N.
Proof.
  intros [i Hi]%list_elem_of_lookup. rewrite (num_lookup i) by done.
  apply lookup_lt_Some in Hi. lia.
Qed.

Lemma num_inj c d : c ∈ rpo -> d ∈ rpo -> num c = num d -> c = d.
Proof.
  intros [i Hi]%list_elem_of_lookup [j Hj]%list_elem_of_lookup.
  rewrite (num_lookup i), (num_lookup j) by done. intros ?%Nat2N.inj. congruence.
Qed.

Lemma rpo_entry : rpo !! 0 = Some entry.
Proof.
  assert (entry ∈ rpo) as He by apply Hrpo, reached_entry.
  destruct rpo as [|x l] eqn:E; [by apply elem_of_nil in He|].
  destruct (Hrooted [] x l eq_refl) as [[-> _]|(p & Hp & _)]; [done|by apply elem_of_nil in Hp].
Qed.

Lemma rpo_cons : rpo = entry :: tail rpo.
Proof. pose proof rpo_entry as He. destruct rpo; [done|]. by injection He as ->. Qed.

Lemma num_entry : num entry = 0%N.
Proof. by rewrite (num_lookup 0) by apply rpo_entry. Qed.

(** An edge that goes forward in the order. *)
Definition fwd (u v : BlockId) : Prop := edge func u v /\ u ∈ rpo /\ (num u < num v)%N.

Lemma fwd_exists c : c ∈ rpo -> c <> entry -> exists p, fwd p c.
Proof.
  intros [i Hi]%list_elem_of_lookup Hc. apply list_elem_of_split_length in Hi as Hs.
  destruct Hs as (l1 & l2 & Hl & Hlen).
  destruct (Hrooted _ _ _ Hl) as [[? _]|(p & Hp & He)]; [done|]. exists p.
  apply list_elem_of_lookup in Hp as [j Hj]. apply lookup_lt_Some in Hj as Hlt.
  assert (rpo !! j = Some p) as Hj' by (rewrite Hl, lookup_app_l; done || lia).
  split_and!; [done|by apply list_elem_of_lookup_2 in Hj'|].
  rewrite (num_lookup j), (num_lookup i) by done. lia.
Qed.

Lemma edge_rpo u v : u ∈ rpo -> edge func u v -> v ∈ rpo.
Proof. intros Hu He. apply Hrpo. eapply reached_step; [by apply Hrpo|done]. Qed.

(** ** Chains of immediate dominators *)

Definition up (idoms : gmap BlockId BlockId) (x y : BlockId) : Prop :=
  idoms !! x = Some y /\ x <> entry.

Abbreviation chain idoms := (rtc (up idoms)).
Abbreviation key idoms x := (is_Some (idoms !! x)).

Record tree (idoms : gmap BlockId BlockId) : Prop := {
  tree_entry : idoms !! entry = Some entry;
  tree_rpo c : key idoms c -> c ∈ rpo;
  tree_up c p : idoms !! c = Some p -> c <> entry -> (num p < num c)%N /\ key idoms p
}.

Section Tree.
Variable idoms : gmap BlockId BlockId.
Hypothesis Htree : tree idoms.

Lemma chain_key x y : chain idoms x y -> key idoms x -> key idoms y.
Proof.
  induction 1 as [|x z y [Hz Hx] _ IH]; [done|]. intros _. apply IH.
  by destruct (tree_up _ Htree x z Hz Hx).
Qed.

Lemma chain_num x y : chain idoms x y -> x = y \/ (num y < num x)%N.
Proof.
  induction 1 as [|x z y [Hz Hx] _ IH]; [by left|]. right.
  destruct (tree_up _ Htree x z Hz Hx). destruct IH as [->|]; lia.
Qed.

Lemma chain_linear x y z : chain idoms x y -> chain idoms x z -> chain idoms y z \/ chain idoms z y.
Proof.
  intros Hy. revert z. induction Hy as [|x x' y Hx Hy IH]; intros z Hz; [by left|].
  destruct Hz as [|x x'' z Hx2 Hz]; [right; by econstructor|]. apply IH.
  destruct Hx as [Hx _], Hx2 as [Hx2 _]. by simplify_eq.
Qed.

Lemma chain_order x y z :
  chain idoms x y -> chain idoms x z -> (num z <= num y)%N -> chain idoms y z.
Proof.
  intros Hy Hz Hle. destruct (chain_linear x y z Hy Hz) as [|H]; [done|].
  destruct (chain_num _ _ H) as [->|]; [done|lia].
Qed.

Lemma chain_entry x : key idoms x -> chain idoms x entry.
Proof.
  remember (N.to_nat (num x)) as k eqn:Hk. revert x Hk.
  induction k as [k IH] using lt_wf_ind. intros x -> Hx.
  destruct (decide (x = entry)) as [->|Hne]; [constructor|]. destruct Hx as [p Hp].
  destruct (tree_up _ Htree x p Hp Hne) as [Hlt Hkp].
  eapply rtc_l; [by split|]. eapply (IH (N.to_nat (num p))); [lia|done|done].
Qed.

(** ** [intersect] *)

Lemma climb_spec fuel x y :
  key idoms x -> N.to_nat (num x) <= fuel ->
  exists x', climb fuel idoms (number_map rpo) x y = Some (inr x') /\
    chain idoms x x' /\ (num x' <= num y)%N /\
    forall z, chain idoms x z -> (num z <= num y)%N -> chain idoms x' z.
Proof.
  revert x. induction fuel as [|fuel IH]; intros x Hx Hf; simpl;
    destruct (N.ltb_spec (num y) (num x)) as [Hlt|Hge]; try lia;
    try (exists x; split_and!; [done|constructor|done|done]).
  destruct Hx as [p Hp]. rewrite Hp.
  assert (x <> entry) as Hne by (intros ->; rewrite num_entry in Hlt; lia).
  destruct (tree_up _ Htree x p Hp Hne) as [Hpx Hkp].
  destruct (IH p Hkp ltac:(lia)) as (x' & Hc & Hch & Hle & Hall). exists x'. split_and!; try done.
  - eapply rtc_l; [by split|done].
  - intros z Hz Hzy. apply Hall; [|done]. destruct Hz as [|x p' z [Hp' _] Hz]; [lia|]. by simplify_eq.
Qed.

Lemma intersect_loop_spec fuel cf a b :
  key idoms a -> key idoms b -> length rpo <= cf -> N.to_nat (num a + num b) <= fuel ->
  exists n, intersect_loop fuel idoms (number_map rpo) cf a b = Some n /\
    forall m, chain idoms n m <-> chain idoms a m /\ chain idoms b m.
Proof.
  intros Ha Hb Hcf. revert a b Ha Hb.
  assert (forall x, key idoms x -> N.to_nat (num x) <= cf) as Hfuel.
  { intros x Hx%(tree_rpo _ Htree)%num_bound. lia. }
  induction fuel as [|fuel IH]; intros a b Ha Hb Hf; simpl;
    destruct (Nat.eqb_spec a b) as [->|Hne]; try (exists b; split; [done|tauto]).
  { exfalso. apply Hne, num_inj; [by apply (tree_rpo _ Htree)..|lia]. }
  assert (num a <> num b) as Hnum.
  { intros He. apply Hne, num_inj; [by apply (tree_rpo _ Htree)..|done]. }
  destruct (climb_spec cf a b Ha) as (a' & -> & Hca & Hla & Halla); [by apply Hfuel|]. simpl.
  destruct (climb_spec cf b a' Hb) as (b' & -> & Hcb & Hlb & Hallb); [by apply Hfuel|]. simpl.
  pose proof (chain_num _ _ Hca) as Na. pose proof (chain_num _ _ Hcb) as Nb.
  destruct (IH a' b') as (n & Hn & Hm).
  - by eapply chain_key.
  - by eapply chain_key.
  - assert (num a' <= num a)%N by (destruct Na as [->|]; lia).
    assert (num b' <= num b)%N by (destruct Nb as [->|]; lia). lia.
  - exists n. split; [done|]. intros m. rewrite Hm. split.
    + intros [H1 H2]. split; by etrans.
    + intros [H1 H2].
      assert (chain idoms a' m) as H3.
      { apply Halla; [done|]. destruct (chain_num _ _ H2) as [->|]; lia. }
      split; [done|]. apply Hallb; [done|]. destruct (chain_num _ _ H3) as [->|]; lia.
Qed.

(** The nearest common element of the two chains. *)
Lemma intersect_spec a b :
  key idoms a -> key idoms b ->
  exists n, intersect a b idoms (number_map rpo) = Some n /\
    forall m, chain idoms n m <-> chain idoms a m /\ chain idoms b m.
Proof.
  intros Ha Hb. unfold intersect. rewrite number_map_size by done.
  apply intersect_loop_spec; [done|done|done|].
  pose proof (num_bound a (tree_rpo _ Htree a Ha)). pose proof (num_bound b (tree_rpo _ Htree b Hb)).
  lia.
Qed.

(** ** The loop over the predecessors *)

Lemma new_idom_step p : (bool_decide (p ∉ reachable) || bool_decide (idoms !! p = None)) =
  negb (bool_decide (key idoms p)).
Proof.
  destruct (idoms !! p) as [q|] eqn:Hp.
  - rewrite (bool_decide_eq_true_2 (is_Some _)) by by eexists.
    rewrite (bool_decide_eq_false_2 (Some q = None)) by done.
    rewrite bool_decide_eq_false_2; [done|]. intros Hn. apply Hn, Hreachable, Hrpo.
    apply (tree_rpo _ Htree). by rewrite Hp.
  - rewrite (bool_decide_eq_false_2 (is_Some _)) by by intros [??].
    by rewrite (bool_decide_eq_true_2 (None = None)), orb_true_r.
Qed.

Lemma new_idom_some ps n0 :
  key idoms n0 ->
  exists n, new_idom_loop reachable idoms (number_map rpo) (Some n0) ps = Some (Some n) /\
    forall m, chain idoms n m <->
      chain idoms n0 m /\ forall p, p ∈ ps -> key idoms p -> chain idoms p m.
Proof.
  revert n0. induction ps as [|p ps IH]; intros n0 Hn0; cbn [new_idom_loop].
  { exists n0. split; [done|]. intros m. split; [|tauto]. intros H. split; [done|].
    by intros p ?%elem_of_nil. }
  rewrite new_idom_step. case_bool_decide as Hp; simpl.
  - destruct (intersect_spec p n0 Hp Hn0) as (n1 & -> & Hn1). simpl.
    destruct (IH n1) as (n & Hn & Hm).
    { apply (chain_key p); [|done]. by apply (Hn1 n1). }
    exists n. split; [done|]. intros m. rewrite Hm, Hn1. split.
    + intros [[H1 H2] H3]. split; [done|]. intros q [->|Hq]%elem_of_cons; auto.
    + intros [H1 H2]. split; [split; [apply H2; [left|done]|done]|]. intros q Hq. apply H2. by right.
  - destruct (IH n0 Hn0) as (n & Hn & Hm). exists n. split; [done|]. intros m. rewrite Hm.
    split; intros [H1 H2]; (split; [done|]).
    + intros q [->|Hq]%elem_of_cons; [done|auto].
    + intros q Hq. apply H2. by right.
Qed.

Lemma new_idom_none ps p :
  p ∈ ps -> key idoms p ->
  exists n, new_idom_loop reachable idoms (number_map rpo) None ps = Some (Some n) /\
    forall m, chain idoms n m <-> forall p, p ∈ ps -> key idoms p -> chain idoms p m.
Proof.
  induction ps as [|q ps IH]; [by intros ?%elem_of_nil|]. intros Hin Hp. cbn [new_idom_loop].
  rewrite new_idom_step. case_bool_decide as Hq; simpl.
  - destruct (new_idom_some ps q Hq) as (n & Hn & Hm). exists n. split; [done|]. intros m.
    rewrite Hm. split.
    + intros [H1 H2] r [->|Hr]%elem_of_cons; auto.
    + intros H. split; [apply H; [left|done]|]. intros r Hr. apply H. by right.
  - apply elem_of_cons in Hin as [->|Hin]; [done|].
    destruct (IH Hin Hp) as (n & Hn & Hm). exists n. split; [done|]. intros m. rewrite Hm. split.
    + intros H r [->|Hr]%elem_of_cons; [done|auto].
    + intros H r Hr. apply H. by right.
Qed.
End Tree.
(** ** The invariant of the rounds *)

(** The blocks numbered below [i] have been treated in this round. *)
Record idoms_inv (i : N) (idoms : gmap BlockId BlockId) : Prop := {
  inv_tree : tree idoms;
  inv_done c : c ∈ rpo -> (num c < i)%N -> key idoms c;
  inv_keys c p : key idoms c -> fwd p c -> key idoms p;
  inv_fwd c p : idoms !! c = Some p -> c <> entry -> rtc fwd p c;
  inv_dom c d : key idoms c -> dominator d c -> chain idoms c d;
  (* the meet of the predecessors is above what is recorded *)
  inv_meet c n m : idoms !! c = Some n -> c <> entry ->
    (forall p, edge func p c -> key idoms p -> chain idoms p m) -> chain idoms n m;
  (* what is recorded was a meet once *)
  inv_old c n p x : idoms !! c = Some n -> c <> entry -> fwd p c -> chain idoms n x ->
    (i <= num x)%N \/ (num c < i)%N -> chain idoms p x
}.

(** The dominator of [c] is the meet of its predecessors. *)
Definition stable (idoms : gmap BlockId BlockId) (c : BlockId) : Prop :=
  forall n m p, idoms !! c = Some n -> chain idoms n m -> edge func p c -> key idoms p ->
    chain idoms p m.

Lemma fwd_chain i idoms x y : idoms_inv i idoms -> chain idoms x y -> rtc fwd y x.
Proof.
  intros Hinv. induction 1 as [|x z y [Hz Hx] _ IH]; [done|].
  etrans; [exact IH|]. by eapply inv_fwd.
Qed.

Lemma fwd_path u v l :
  rtc fwd u v -> path (edge func) entry u l ->
  exists k, path (edge func) entry v (k ++ l) /\ forall x, x ∈ k -> (num u < num x)%N.
Proof.
  intros Hr. revert l. induction Hr as [u|u w v (He & _ & Hlt) _ IH]; intros l Hl.
  { exists []. split; [done|]. by intros x ?%elem_of_nil. }
  destruct (IH (w :: l)) as (k & Hk & Hx); [by econstructor|].
  exists (k ++ [w]). rewrite <- app_assoc. split; [done|].
  intros x [Hin| ->%list_elem_of_singleton]%elem_of_app; [|done]. specialize (Hx x Hin). lia.
Qed.

(** ** Moving one block *)

Section Update.
Variable idoms : gmap BlockId BlockId.
Variable b n : BlockId.
Hypothesis Hinv : idoms_inv (num b) idoms.
Hypothesis Hb : b ∈ rpo.
Hypothesis Hbe : b <> entry.
Hypothesis Hn : forall m, chain idoms n m <->
  forall p, edge func p b -> key idoms p -> chain idoms p m.

Abbreviation idoms' := (<[b := n]> idoms).

Lemma fwd_pred_key p : fwd p b -> key idoms p.
Proof. intros (He & Hp & Hlt). by eapply inv_done. Qed.

Lemma meet_pred p m : fwd p b -> chain idoms n m -> chain idoms p m.
Proof. intros Hp Hm. apply Hn; [done|apply Hp|by apply fwd_pred_key]. Qed.

Lemma meet_key_num : key idoms n /\ (num n < num b)%N /\ rtc fwd n b.
Proof.
  destruct (fwd_exists b Hb Hbe) as (p & Hp). pose proof (fwd_pred_key p Hp) as Hk.
  pose proof (meet_pred p n Hp ltac:(constructor)) as Hc. pose proof (inv_tree _ _ Hinv) as Ht.
  split_and!.
  - by eapply chain_key.
  - destruct (chain_num _ Ht _ _ Hc) as [->|]; destruct Hp as (_ & _ & ?); lia.
  - eapply rtc_r; [|exact Hp]. by eapply fwd_chain.
Qed.

(** The chain of the block does not grow. *)
Lemma shrinks m : key idoms b -> chain idoms n m -> chain idoms b m.
Proof.
  intros [q Hq] Hm. eapply rtc_l; [by split|].
  eapply inv_meet; [exact Hinv|exact Hq|done|]. by apply Hn.
Qed.

Lemma up_other x y : x <> b -> up idoms' x y <-> up idoms x y.
Proof. intros Hx. unfold up. by rewrite lookup_insert_ne. Qed.

Lemma up_moved y : up idoms' b y <-> y = n.
Proof. unfold up. rewrite lookup_insert_eq. naive_solver. Qed.

Lemma tree_moved : tree idoms'.
Proof.
  pose proof (inv_tree _ _ Hinv) as [H1 H2 H3]. destruct meet_key_num as (Hk & Hlt & _).
  assert (forall x, key idoms x -> key idoms' x) as Hkey.
  { intros x Hx. destruct (decide (x = b)) as [->|]; [rewrite lookup_insert_eq; by eexists|].
    by rewrite lookup_insert_ne. }
  constructor.
  - by rewrite lookup_insert_ne.
  - intros c Hc. destruct (decide (c = b)) as [->|]; [done|].
    rewrite lookup_insert_ne in Hc by done. auto.
  - intros c p Hp Hc. destruct (decide (c = b)) as [->|].
    + rewrite lookup_insert_eq in Hp. simplify_eq. auto.
    + rewrite lookup_insert_ne in Hp by done. destruct (H3 c p Hp Hc). auto.
Qed.

(** Below [b] in the order nothing changes. *)
Lemma chain_low x m : (num x < num b)%N -> chain idoms' x m <-> chain idoms x m.
Proof.
  intros Hx. split; intros Hc.
  - induction Hc as [|x y m Hu Hc IH]; [constructor|].
    assert (x <> b) as Hxb by (intros ->; lia). apply up_other in Hu; [|done].
    eapply rtc_l; [exact Hu|]. apply IH. destruct Hu as [Hu ?].
    destruct (tree_up _ (inv_tree _ _ Hinv) x y Hu); [done|lia].
  - induction Hc as [|x y m Hu Hc IH]; [constructor|].
    assert (x <> b) as Hxb by (intros ->; lia). apply (up_other x y Hxb) in Hu as Hu'.
    eapply rtc_l; [exact Hu'|]. apply IH. destruct Hu as [Hu ?].
    destruct (tree_up _ (inv_tree _ _ Hinv) x y Hu); [done|lia].
Qed.

(** The part of a chain down to [b] stays. *)
Lemma chain_high x m : chain idoms x m -> (num b <= num m)%N -> chain idoms' x m.
Proof.
  intros Hc Hm. induction Hc as [|x y m Hu Hc IH]; [constructor|].
  destruct (decide (x = b)) as [->|Hxb].
  - exfalso. destruct Hu as [Hu ?]. destruct (tree_up _ (inv_tree _ _ Hinv) b y Hu); [done|].
    destruct (chain_num _ (inv_tree _ _ Hinv) _ _ Hc) as [->|]; lia.
  - eapply rtc_l; [by apply up_other|by apply IH].
Qed.

Lemma chain_shrinks x m : key idoms x -> chain idoms' x m -> chain idoms x m.
Proof.
  intros Hx Hc. induction Hc as [|x y m Hu Hc IH]; [constructor|].
  destruct (decide (x = b)) as [->|Hxb].
  - apply up_moved in Hu as ->. apply shrinks; [done|]. apply IH. apply meet_key_num.
  - apply up_other in Hu; [|done]. eapply rtc_l; [exact Hu|]. apply IH. destruct Hu as [Hu ?].
    by destruct (tree_up _ (inv_tree _ _ Hinv) x y Hu).
Qed.

Lemma chain_through x m : chain idoms x b -> chain idoms n m -> chain idoms' x m.
Proof.
  intros Hx Hm. etrans; [apply chain_high; [exact Hx|lia]|].
  eapply rtc_l; [by apply up_moved|]. apply chain_low; [apply meet_key_num|done].
Qed.

Lemma chain_moved x m :
  chain idoms x m -> chain idoms' x m \/ (chain idoms x b /\ (num m < num b)%N).
Proof.
  intros Hc. induction Hc as [x|x y m Hu Hc IH]; [left; constructor|].
  destruct (decide (x = b)) as [->|Hxb].
  - right. split; [constructor|]. destruct Hu as [Hu ?].
    destruct (tree_up _ (inv_tree _ _ Hinv) b y Hu); [done|].
    destruct (chain_num _ (inv_tree _ _ Hinv) _ _ Hc) as [->|]; lia.
  - destruct IH as [IH|[IH Hlt]]; [left|right].
    + eapply rtc_l; [by apply up_other|done].
    + split; [by eapply rtc_l|done].
Qed.

Lemma key_moved x : key idoms' x <-> x = b \/ key idoms x.
Proof.
  destruct (decide (x = b)) as [->|Hx].
  - rewrite lookup_insert_eq. split; [by left|by eexists].
  - rewrite lookup_insert_ne by done. naive_solver.
Qed.

(** A dominator of a block is above every block that its chain leaves. *)
Lemma dominator_kept c d :
  (c = b \/ key idoms c) -> dominator d c -> chain idoms c d \/ c = b -> chain idoms' c d.
Proof.
  intros Hkc Hd Hcd.
  assert (forall e, dominator e b -> e <> b -> chain idoms n e) as Hnb.
  { intros e He Hne. apply Hn. intros p Hp Hkp. eapply inv_dom; [exact Hinv|done|].
    by eapply dominator_pred. }
  destruct (decide (d = c)) as [->|Hdc]; [constructor|].
  destruct (decide (c = b)) as [->|Hcb].
  { eapply rtc_l; [by apply up_moved|]. apply chain_low; [apply meet_key_num|]. by apply Hnb. }
  destruct Hcd as [Hcd|]; [|done]. destruct (chain_moved c d Hcd) as [|[Hb' Hlt]]; [done|].
  apply chain_through; [done|]. apply Hnb; [|intros ->; lia].
  intros l Hl. destruct (fwd_path b c l) as (k & Hk & Hx); [by eapply fwd_chain|done|].
  specialize (Hd _ Hk). apply elem_of_app in Hd as [Hd|Hd]; [|done].
  specialize (Hx d Hd). lia.
Qed.

Lemma meet_moved c q m :
  idoms' !! c = Some q -> c <> entry ->
  (forall p, edge func p c -> key idoms' p -> chain idoms' p m) -> chain idoms' q m.
Proof.
  intros Hq Hc H. pose proof (inv_tree _ _ Hinv) as Ht.
  destruct meet_key_num as (Hkn & Hnlt & _).
  assert (forall p, edge func p c -> key idoms p -> chain idoms p m) as Hp.
  { intros p He Hk. apply chain_shrinks; [done|]. apply H; [done|]. apply key_moved. by right. }
  destruct (decide (c = b)) as [->|Hcb].
  { rewrite lookup_insert_eq in Hq. injection Hq as <-. apply chain_low; [done|]. by apply Hn. }
  rewrite lookup_insert_ne in Hq by done. destruct (tree_up _ Ht c q Hq Hc) as [Hqc Hkq].
  destruct (chain_moved q m) as [|[Hqb Hmb]]; [by eapply inv_meet|done|].
  destruct (fwd_exists c) as (p & Hf); [by eapply tree_rpo|done|].
  assert (chain idoms p b) as Hpb by (eapply inv_old; [exact Hinv|exact Hq|done|exact Hf|exact Hqb|left; lia]).
  apply chain_through; [done|]. apply chain_low; [done|].
  assert (chain idoms' p m) as Hpm.
  { apply H; [apply Hf|]. apply key_moved. right. eapply inv_keys; [exact Hinv|by rewrite Hq|exact Hf]. }
  assert (chain idoms' b m) as Hbm.
  { eapply chain_order; [apply tree_moved|apply chain_high; [exact Hpb|done]|done|lia]. }
  apply rtc_inv in Hbm as [<-|(y & ->%up_moved & Hy)]; [lia|done].
Qed.

Lemma old_moved c q p x :
  idoms' !! c = Some q -> c <> entry -> fwd p c -> chain idoms' q x ->
  (N.succ (num b) <= num x)%N \/ (num c < N.succ (num b))%N -> chain idoms' p x.
Proof.
  intros Hq Hc Hp Hx Hor. pose proof (inv_tree _ _ Hinv) as Ht.
  destruct meet_key_num as (Hkn & Hnlt & _). pose proof Hp as (He & Hpr & Hlt).
  destruct (decide (c = b)) as [->|Hcb].
  { rewrite lookup_insert_eq in Hq. injection Hq as <-. apply chain_low in Hx; [|done].
    apply chain_low; [done|]. by apply meet_pred. }
  rewrite lookup_insert_ne in Hq by done. destruct (tree_up _ Ht c q Hq Hc) as [Hqc Hkq].
  destruct Hor as [Hxb|Hcn].
  - apply chain_high; [|lia]. eapply inv_old; [exact Hinv|exact Hq|done|exact Hp| |left; lia].
    by apply chain_shrinks.
  - assert (num c < num b)%N as Hcl.
    { assert (num c <> num b); [|lia]. intros Hn'. apply Hcb, num_inj; [by eapply tree_rpo|done|done]. }
    apply chain_low; [lia|]. eapply inv_old; [exact Hinv|exact Hq|done|exact Hp| |by right].
    apply chain_low; [lia|done].
Qed.

Lemma inv_moved : idoms_inv (N.succ (num b)) idoms'.
Proof.
  pose proof (inv_tree _ _ Hinv) as Ht. destruct meet_key_num as (Hkn & Hnlt & Hnf). constructor.
  - apply tree_moved.
  - intros c Hc Hlt. apply key_moved. destruct (decide (num c = num b)) as [He|He].
    + left. by apply num_inj.
    + right. eapply inv_done; [exact Hinv|done|lia].
  - intros c p [->|Hc]%key_moved Hp; apply key_moved; right; [by apply fwd_pred_key|].
    by eapply inv_keys.
  - intros c p Hp Hc. destruct (decide (c = b)) as [->|Hcb].
    + rewrite lookup_insert_eq in Hp. by simplify_eq.
    + rewrite lookup_insert_ne in Hp by done. by eapply inv_fwd.
  - intros c d Hc%key_moved Hd. apply dominator_kept; [done|done|].
    destruct Hc as [->|Hc]; [by right|left]. by eapply inv_dom.
  - intros c q m. apply meet_moved.
  - intros c q p x. apply old_moved.
Qed.
End Update.

(** ** The turns, the rounds and the loop *)

(** Goes down with every change. *)
Definition idoms_measure (idoms : gmap BlockId BlockId) : nat :=
  sum_list_with (fun c =>
    match idoms !! c with Some q => N.to_nat (num q) | None => length rpo end) rpo.

Lemma rpo_block b : b ∈ rpo -> is_Some (block func b).
Proof.
  intros [l Hl]%Hrpo. destruct Hl as [|u v l _ He]; [by apply Hok|by eapply succ_exists].
Qed.

Lemma inv_kept idoms b n :
  idoms_inv (num b) idoms -> b ∈ rpo -> idoms !! b = Some n ->
  (forall m, chain idoms n m <-> forall p, edge func p b -> key idoms p -> chain idoms p m) ->
  idoms_inv (N.succ (num b)) idoms.
Proof.
  intros Hinv Hb Hn Hm. pose proof (inv_tree _ _ Hinv) as Ht.
  destruct Hinv as [H1 H2 H3 H4 H5 H6 H7]. constructor; try done.
  - intros c Hc Hlt. destruct (decide (c = b)) as [->|Hcb]; [by rewrite Hn|].
    apply H2; [done|]. assert (num c <> num b); [|lia]. intros He. by apply Hcb, num_inj.
  - intros c q p x Hq Hc Hp Hx Hor. destruct (decide (c = b)) as [->|Hcb].
    + simplify_eq. apply Hm; [done|apply Hp|]. eapply H3; [by rewrite Hn|done].
    + eapply H7; [exact Hq|done|done|done|]. destruct Hor as [Hor|Hor]; [left; lia|right].
      assert (num c <> num b); [|lia]. intros He. apply Hcb, num_inj; [|done|done].
      by eapply tree_rpo.
Qed.

Lemma measure_moved idoms b n :
  idoms_inv (num b) idoms -> b ∈ rpo -> b <> entry -> idoms !! b <> Some n ->
  (forall m, chain idoms n m <-> forall p, edge func p b -> key idoms p -> chain idoms p m) ->
  idoms_measure (<[b := n]> idoms) < idoms_measure idoms.
Proof.
  intros Hinv Hb Hbe Hne Hn. pose proof (inv_tree _ _ Hinv) as Ht.
  destruct (meet_key_num idoms b n Hinv Hb Hbe Hn) as (Hk & Hlt & _).
  apply (sum_list_with_lt _ _ _ b); [done| |].
  - intros c _. destruct (decide (c = b)) as [->|Hcb]; [|by rewrite lookup_insert_ne].
    rewrite lookup_insert_eq. destruct (idoms !! b) as [q|] eqn:Hq.
    + pose proof (shrinks idoms b n Hinv Hbe Hn n ltac:(by rewrite Hq) ltac:(constructor)) as Hc.
      apply rtc_inv in Hc as [->|(y & [Hy _] & Hc)]; [lia|]. simplify_eq.
      destruct (chain_num _ Ht _ _ Hc) as [->|]; lia.
    + pose proof (num_bound n (tree_rpo _ Ht n Hk)). lia.
  - rewrite lookup_insert_eq. destruct (idoms !! b) as [q|] eqn:Hq.
    + pose proof (shrinks idoms b n Hinv Hbe Hn n ltac:(by rewrite Hq) ltac:(constructor)) as Hc.
      apply rtc_inv in Hc as [->|(y & [Hy _] & Hc)]; [lia|]. simplify_eq.
      destruct (chain_num _ Ht _ _ Hc) as [->|]; [done|lia].
    + pose proof (num_bound n (tree_rpo _ Ht n Hk)). lia.
Qed.

Lemma turn_spec idoms changed b :
  idoms_inv (num b) idoms -> b ∈ rpo -> b <> entry ->
  exists idoms' changed',
    idom_turn func reachable (number_map rpo) (idoms, changed) b = Some (idoms', changed') /\
    idoms_inv (N.succ (num b)) idoms' /\
    ((idoms' = idoms /\ changed' = changed /\ stable idoms b) \/
     (changed' = true /\ idoms_measure idoms' < idoms_measure idoms)).
Proof.
  intros Hinv Hb Hbe. pose proof (inv_tree _ _ Hinv) as Ht.
  destruct (rpo_block b Hb) as [blk Hblk]. destruct (fwd_exists b Hb Hbe) as (p & Hp).
  assert (key idoms p) as Hkp by (eapply inv_done; [done|apply Hp|apply Hp]).
  destruct (new_idom_none idoms Ht (preds blk) p) as (n & Hn & Hm);
    [apply (pred_spec _ Hok b); [done|apply Hp]|done|].
  assert (forall m, chain idoms n m <->
    forall p, edge func p b -> key idoms p -> chain idoms p m) as Hmeet.
  { intros m. rewrite Hm. split; intros H q Hq; apply H; by apply (pred_spec _ Hok b blk q Hblk). }
  unfold idom_turn. rewrite Hblk, Hn. cbn [mbind option_bind]. case_bool_decide as Hsame.
  - exists idoms, changed. split_and!; [done|by eapply inv_kept|left]. split_and!; [done|done|].
    intros n' m q Hn' Hc He Hk. simplify_eq. by apply Hmeet.
  - exists (<[b := n]> idoms), true. split_and!; [done|by apply inv_moved|right].
    split; [done|]. by apply measure_moved.
Qed.

Lemma round_spec front idoms changed ids :
  front ++ ids = rpo -> front <> [] -> idoms_inv (N.of_nat (length front)) idoms ->
  exists idoms' changed',
    idom_round func reachable (number_map rpo) (idoms, changed) ids = Some (idoms', changed') /\
    idoms_inv (N.of_nat (length rpo)) idoms' /\
    ((idoms' = idoms /\ changed' = changed /\ forall c, c ∈ ids -> stable idoms c) \/
     (changed' = true /\ idoms_measure idoms' < idoms_measure idoms)).
Proof.
  revert front idoms changed. induction ids as [|b ids IH]; intros front idoms changed Hl Hf Hinv;
    cbn [idom_round].
  { rewrite app_nil_r in Hl. subst front. exists idoms, changed. split_and!; [done|done|left].
    split_and!; [done|done|]. by intros c ?%elem_of_nil. }
  assert (rpo !! length front = Some b) as Hb by (rewrite <- Hl; by apply list_lookup_middle).
  assert (b ∈ rpo) as Hbr by by apply list_elem_of_lookup_2 in Hb.
  rewrite <- (num_lookup _ _ Hb) in Hinv.
  assert (b <> entry) as Hbe.
  { intros ->. pose proof (num_lookup _ _ Hb) as Hz. rewrite num_entry in Hz.
    destruct front; [done|simpl in Hz; lia]. }
  destruct (turn_spec idoms changed b Hinv Hbr Hbe) as (idoms1 & ch1 & -> & Hinv1 & Hor).
  cbn [mbind option_bind].
  destruct (IH (front ++ [b]) idoms1 ch1) as (idoms2 & ch2 & H2 & Hinv2 & Hor2).
  - by rewrite <- app_assoc.
  - by destruct front.
  - rewrite length_app. simpl. rewrite (num_lookup _ _ Hb) in Hinv1.
    by replace (N.of_nat (length front + 1)) with (N.succ (N.of_nat (length front))) by lia.
  - exists idoms2, ch2. split_and!; [done|done|].
    destruct Hor as [(-> & -> & Hs)|[-> Hlt]], Hor2 as [(-> & -> & Hs2)|[-> Hlt2]].
    + left. split_and!; [done|done|]. intros c [->|Hc]%elem_of_cons; auto.
    + by right.
    + by right.
    + right. split; [done|lia].
Qed.

Lemma inv_restart idoms : idoms_inv (N.of_nat (length rpo)) idoms -> idoms_inv 1 idoms.
Proof.
  intros [H1 H2 H3 H4 H5 H6 H7]. constructor; try done.
  - intros c Hc _. apply H2; [done|]. by apply num_bound.
  - intros c n p x Hn Hc Hp Hx _. eapply H7; [done|done|done|done|right].
    apply num_bound, (tree_rpo _ H1). by rewrite Hn.
Qed.

Lemma inv_start : idoms_inv 1 {[entry := entry]}.
Proof.
  assert (forall c, key ({[entry := entry]} : gmap BlockId BlockId) c -> c = entry) as Hk.
  { intros c [x Hx]. by apply lookup_singleton_Some in Hx as [-> _]. }
  constructor.
  - constructor; [by rewrite lookup_singleton_eq|..].
    + intros c ->%Hk. apply Hrpo, reached_entry.
    + intros c p Hp Hc. exfalso. apply Hc, Hk. by rewrite Hp.
  - intros c Hc Hlt. assert (c = entry) as ->.
    { apply num_inj; [done|apply Hrpo, reached_entry|]. rewrite num_entry. lia. }
    rewrite lookup_singleton_eq. by eexists.
  - intros c p ->%Hk (_ & _ & Hlt). rewrite num_entry in Hlt. lia.
  - intros c p Hp Hc. exfalso. apply Hc, Hk. by rewrite Hp.
  - intros c d ->%Hk ->%dominator_entry. constructor.
  - intros c p m Hp Hc. exfalso. apply Hc, Hk. by rewrite Hp.
  - intros c n p x Hn Hc. exfalso. apply Hc, Hk. by rewrite Hn.
Qed.

Lemma idom_loop_spec fuel idoms :
  idoms_inv 1 idoms -> idoms_measure idoms < fuel ->
  exists idoms', idom_loop func reachable (number_map rpo) rpo fuel idoms = Some idoms' /\
    idoms_inv (N.of_nat (length rpo)) idoms' /\ forall c, c ∈ tail rpo -> stable idoms' c.
Proof.
  revert idoms. induction fuel as [|fuel IH]; intros idoms Hinv Hf; [lia|]. cbn [idom_loop].
  destruct (round_spec [entry] idoms false (tail rpo)) as (idoms1 & ch1 & -> & Hinv1 & Hor);
    [symmetry; apply rpo_cons|done|done|]. cbn [mbind option_bind].
  destruct Hor as [(-> & -> & Hs)|[-> Hlt]]; [by exists idoms|].
  apply IH; [by apply inv_restart|lia].
Qed.

Lemma measure_start : idoms_measure {[entry := entry]} < idom_fuel rpo.
Proof.
  unfold idoms_measure, idom_fuel. apply Nat.lt_succ_r.
  etrans; [apply (sum_list_with_le _ (fun _ => length rpo))|].
  - intros c _. destruct (_ !! c) as [q|] eqn:Hq; [|done].
    apply lookup_singleton_Some in Hq as [_ <-]. rewrite num_entry. lia.
  - rewrite sum_list_with_const. nia.
Qed.

(** ** What the chains are *)

Record idoms_right (idoms : gmap BlockId BlockId) : Prop := {
  right_tree : tree idoms;
  right_key v : key idoms v <-> reached (edge func) entry v;
  right_chain v d : reached (edge func) entry v -> chain idoms v d <-> dominator d v
}.

Lemma stable_sound idoms :
  idoms_inv (N.of_nat (length rpo)) idoms -> (forall c, c ∈ tail rpo -> stable idoms c) ->
  idoms_right idoms.
Proof.
  intros Hinv Hs. pose proof (inv_tree _ _ Hinv) as Ht.
  assert (forall v, key idoms v <-> reached (edge func) entry v) as Hk.
  { intros v. rewrite <- Hrpo. split; [by apply tree_rpo|]. intros Hv.
    eapply inv_done; [done|done|by apply num_bound]. }
  constructor; [done|done|]. intros v d Hv. split.
  - intros Hc l Hl. revert d Hc. induction Hl as [|u v l Hl IH He]; intros d Hc.
    + apply rtc_inv in Hc as [->|(y & [_ ?] & _)]; [left|done].
    + apply rtc_inv in Hc as [->|(y & [Hy Hne] & Hc)]; [left|right].
      apply IH; [by exists l|]. eapply Hs; [|exact Hy|exact Hc|exact He|apply Hk; by exists l].
      assert (v ∈ rpo) as Hvr by by apply Hrpo.
      rewrite rpo_cons in Hvr. by apply elem_of_cons in Hvr as [?|?].
  - intros Hd. eapply inv_dom; [done|by apply Hk|done].
Qed.
End Idoms.

(** ** The two functions *)

Section Dominators.
Context {P : Payload}.
Implicit Types func : SsaFunction.

Abbreviation reached_in func := (reached (edge func) (fn_entry func)).
Abbreviation dominator_in func := (dominator (edge func) (fn_entry func)).
Abbreviation strict_in func := (strict_dominator (edge func) (fn_entry func)).

(** What the verifier and the passes use of [compute_idoms]: the keys are the
    reached blocks, the chains are the dominators, and [dominates] decides
    dominance. *)
Record idoms_spec func (idoms : gmap BlockId BlockId) : Prop := {
  idoms_entry : idoms !! fn_entry func = Some (fn_entry func);
  idoms_key v : is_Some (idoms !! v) <-> reached_in func v;
  idoms_chain v d : reached_in func v -> rtc (up func idoms) v d <-> dominator_in func d v;
  idoms_acyclic v p : idoms !! v = Some p -> v <> fn_entry func -> p <> v;
  idoms_dominates a b : exists r, dominates a b (fn_entry func) idoms = Some r /\
    (reached_in func b -> r = true <-> dominator_in func a b)
}.

Lemma dominates_loop_spec func rpo idoms fuel a b :
  NoDup rpo -> (forall v, v ∈ rpo <-> reached_in func v) -> rooted func rpo ->
  tree func rpo idoms -> N.to_nat (number (number_map rpo) b) <= fuel ->
  is_Some (idoms !! b) ->
  exists r, dominates_loop fuel a b (fn_entry func) idoms = Some r /\
    (r = true <-> rtc (up func idoms) b a).
Proof.
  intros Hnd Hrpo Hroot Ht. revert b. induction fuel as [|fuel IH]; intros b Hf Hb;
    simpl; (destruct (Nat.eqb_spec b a) as [->|Hba]; [exists true; split; [done|split; done]|]);
    (destruct (Nat.eqb_spec b (fn_entry func)) as [Hbe|Hbe];
      [exists false; split; [done|]; split; [done|];
       intros [->|(y & [_ ?] & _)]%rtc_inv; done|]);
    destruct Hb as [p Hp]; destruct (tree_up _ _ _ Ht b p Hp Hbe) as [Hlt Hk]; [lia|].
  rewrite Hp. destruct (Nat.eqb_spec p b) as [->|Hpb]; [lia|].
  destruct (IH p ltac:(lia) Hk) as (r & Hr & Hiff). exists r. split; [done|]. rewrite Hiff. split.
  - intros Hc. eapply rtc_l; [by split|done].
  - intros [->|(y & [Hy _] & Hc)]%rtc_inv; [done|by simplify_eq].
Qed.

Lemma compute_idoms_spec func reachable :
  edges_ok func -> compute_reachable func = Some reachable ->
  exists idoms, compute_idoms func reachable = Some idoms /\ idoms_spec func idoms.
Proof.
  intros Hok Hr. destruct (reverse_post_order_spec func Hok) as (rpo & Ho & Hnd & Hroot & Hrpo).
  assert (forall v, v ∈ reachable <-> reached_in func v) as Hreach
    by (intros v; by apply compute_reachable_spec).
  destruct (idom_loop_spec func rpo reachable Hok Hnd Hroot Hrpo Hreach (idom_fuel rpo)
    {[fn_entry func := fn_entry func]}) as (idoms & Hi & Hinv & Hs);
    [by apply inv_start|by apply measure_start|].
  pose proof (stable_sound func rpo Hnd Hroot Hrpo idoms Hinv Hs) as [Ht Hk Hc].
  exists idoms. unfold compute_idoms. rewrite Ho. split; [done|]. constructor; try done.
  - by apply (tree_entry func rpo).
  - intros v p Hp Hv ->. destruct (tree_up _ _ _ Ht v v Hp Hv). lia.
  - intros a b. unfold dominates. destruct (idoms !! b) as [p|] eqn:Hb.
    + assert (is_Some (idoms !! b)) as Hkb by by eexists.
      assert (size idoms = length rpo) as Hsz.
      { rewrite <- size_dom. rewrite <- (size_list_to_set (C := gset nat) rpo Hnd). f_equal.
        apply set_eq. intros v. rewrite elem_of_dom, elem_of_list_to_set, Hk. by rewrite Hrpo. }
      destruct (dominates_loop_spec func rpo idoms (size idoms) a b) as (r & Hd & Hiff); try done.
      { pose proof (num_bound rpo Hnd b ltac:(by apply Hrpo, Hk)). lia. }
      exists r. split; [done|]. intros Hreached. rewrite Hiff. by apply Hc.
    + exists (Nat.eqb b a). assert (~ reached_in func b) as Hnr.
      { intros H%Hk. rewrite Hb in H. by destruct H. }
      split; [|done]. destruct (size idoms) as [|k]; simpl; rewrite Hb;
        destruct (Nat.eqb_spec b a), (Nat.eqb_spec b (fn_entry func)) as [->|]; try done;
        exfalso; apply Hnr, reached_entry.
Qed.

(** C20. The map gives every reached block but the entry its immediate dominator: a
    strict dominator that all others dominate.  It has no other blocks. *)
Theorem compute_idoms_immediate func :
  edges_ok func ->
  exists reachable idoms,
    compute_reachable func = Some reachable /\ compute_idoms func reachable = Some idoms /\
    (forall v, v ∈ reachable <-> reached_in func v) /\
    idoms !! fn_entry func = Some (fn_entry func) /\
    (forall v, ~ reached_in func v -> idoms !! v = None) /\
    (forall v, reached_in func v -> v <> fn_entry func ->
      exists p, idoms !! v = Some p /\ strict_in func p v /\
        forall d, strict_in func d v -> dominator_in func d p).
Proof.
  intros Hok. destruct (compute_reachable_total func) as [reachable Hr].
  destruct (compute_idoms_spec func reachable Hok Hr) as (idoms & Hi & [He Hk Hc Ha Hd]).
  exists reachable, idoms. split_and!; [done|done| |done|..].
  - intros v. by apply compute_reachable_spec.
  - intros v Hv. destruct (idoms !! v) as [p|] eqn:Hp; [|done]. exfalso. apply Hv, Hk. by rewrite Hp.
  - intros v Hv Hne. apply Hk in Hv as Hv'. destruct Hv' as [p Hp]. exists p.
    assert (up func idoms v p) as Hup by by split.
    assert (dominator_in func p v) as Hpv by (apply Hc; [done|by apply rtc_once]).
    assert (reached_in func p) as Hrp by by eapply reached_dominator.
    split_and!; [done|split; [by eapply Ha|done]|].
    intros d [Hdv Hdom]. apply Hc in Hdom; [|done].
    apply rtc_inv in Hdom as [->|(y & [Hy _] & Hch)]; [done|]. simplify_eq. by apply Hc.
Qed.

(** [dominates] on the computed map ends and decides dominance. *)
Theorem dominates_spec func reachable idoms a b :
  edges_ok func -> compute_reachable func = Some reachable ->
  compute_idoms func reachable = Some idoms -> reached_in func b ->
  exists r, dominates a b (fn_entry func) idoms = Some r /\
    (r = true <-> dominator_in func a b).
Proof.
  intros Hok Hr Hi Hb. destruct (compute_idoms_spec func reachable Hok Hr) as (i & Hi' & Hs).
  simplify_eq. destruct (idoms_dominates _ _ Hs a b) as (r & Hd & Hiff). exists r. auto.
Qed.
End Dominators.
