(* ===== verification/SsaVerify.v ===== *)
(** * The SSA verifier

    subset_julia_vm_compile/src/compile/ssa_ir/verify.rs, and what it means for
    a function to be in SSA form. *)

From S2P Require Export SsaIdoms.

Section Verify.
Context {P : Payload}.
Implicit Types func : SsaFunction.

(** One constructor for each message, with the numbers it is formatted from. *)
Inductive VerifyError :=
  | NoBlocks
  | EntryMissing (entry : BlockId)
  | WrongBlockId (index id : nat)
  | EntryHasPreds (entry : BlockId)
  | MissingTarget (b target : BlockId)
  | SuccsMismatch (b : BlockId) (succs targets : list BlockId)
  | PredsMismatch (b : BlockId) (preds expected : list BlockId)
  | DuplicateDef (b index : nat) (id : SsaValueId)
  | PhiAfterNonPhi (b index : nat) (id : SsaValueId)
  | PhiArity (b index : nat) (id : SsaValueId) (n_edges n_values : nat)
  | PhiEdges (b index : nat) (id : SsaValueId) (edges preds : list BlockId)
  | ArgumentRange (b index : nat) (argument n_params : nat)
  | UnknownDef (b index : nat) (id : SsaValueId)
  | UsedBeforeDef (b index : nat) (id : SsaValueId) (def_index : nat)
  | NotDominating (b index : nat) (id : SsaValueId) (def_block : BlockId)
  | PhiArgumentRange (b index : nat) (argument n_params : nat)
  | PhiUnknownDef (b index : nat) (id : SsaValueId)
  | PhiNotDominating (b index : nat) (id : SsaValueId) (def_block pred : BlockId).

(** [Result<T, String>] of a function that may also panic or not return
    ([None]). *)
Abbreviation check T := (option (result VerifyError T)).

Definition ok : check unit := Some (Ok tt).
Definition fail {T} (e : VerifyError) : check T := Some (Err e).

Definition and_then {T U} (c : check T) (k : T -> check U) : check U :=
  match c with
  | Some (Ok x) => k x
  | Some (Err e) => Some (Err e)
  | None => None
  end.

Definition guard_ok (b : bool) (e : VerifyError) : check unit := if b then ok else fail e.

(** [for x in xs { f(x)?; }] *)
Fixpoint check_all {A} (f : A -> check unit) (xs : list A) : check unit :=
  match xs with
  | [] => ok
  | x :: xs => and_then (f x) (fun _ => check_all f xs)
  end.

(** [xs.iter().enumerate()] *)
Definition enumerate {A} (xs : list A) : list (nat * A) := zip (seq 0 (length xs)) xs.

(** ** [verify_edges] *)

(** [for target in &targets { expected_preds[target].push(block.id) }] *)
Fixpoint push_preds (expected : list (list BlockId)) (id : BlockId) (ts : list BlockId)
    : option (list (list BlockId)) :=
  match ts with
  | [] => Some expected
  | t :: ts =>
      ps ← expected !! t;
      push_preds (<[t := ps ++ [id]]> expected) id ts
  end.

Fixpoint expected_loop func (expected : list (list BlockId)) (bs : list SsaBlock)
    : check (list (list BlockId)) :=
  match bs with
  | [] => Some (Ok expected)
  | b :: bs =>
      let ts := targets (terminator b) in
      and_then
        (check_all (fun t => guard_ok (bool_decide (is_Some (block func t)))
                               (MissingTarget (blk_id b) t)) ts) (fun _ =>
      and_then
        (guard_ok (bool_decide (succs b = ts)) (SuccsMismatch (blk_id b) (succs b) ts)) (fun _ =>
      match push_preds expected (blk_id b) ts with
      | Some expected => expected_loop func expected bs
      | None => None
      end))
  end.

Definition verify_edges func : check unit :=
  and_then (expected_loop func (replicate (length (fn_blocks func)) []) (fn_blocks func))
    (fun expected =>
      check_all (fun b =>
        match expected !! blk_id b with
        | Some ps =>
            guard_ok (bool_decide (preds b = ps)) (PredsMismatch (blk_id b) (preds b) ps)
        | None => None
        end) (fn_blocks func)).

(** ** [collect_def_sites] *)

Abbreviation DefSites := (gmap SsaValueId (BlockId * nat)).

Fixpoint def_sites_loop (sites : DefSites) (b : BlockId) (stmts : list (nat * SsaStatement))
    : result VerifyError DefSites :=
  match stmts with
  | [] => Ok sites
  | (index, stmt) :: stmts =>
      match sites !! stmt_id stmt with
      | Some _ => Err (DuplicateDef b index (stmt_id stmt))
      | None => def_sites_loop (<[stmt_id stmt := (b, index)]> sites) b stmts
      end
  end.

Fixpoint collect_loop (sites : DefSites) (bs : list SsaBlock) : result VerifyError DefSites :=
  match bs with
  | [] => Ok sites
  | b :: bs =>
      let? sites := def_sites_loop sites (blk_id b) (enumerate (stmts b)) in
      collect_loop sites bs
  end.

Definition collect_def_sites func : result VerifyError DefSites :=
  collect_loop ∅ (fn_blocks func).

(** ** [verify_phi_shape] *)

Fixpoint phi_shape_loop (b : SsaBlock) (seen_non_phi : bool) (l : list (nat * SsaStatement))
    : check unit :=
  match l with
  | [] => ok
  | (index, stmt) :: l =>
      match stmt_op stmt with
      | Phi phi =>
          if seen_non_phi then fail (PhiAfterNonPhi (blk_id b) index (stmt_id stmt))
          else if negb (length (edges phi) =? length (values phi)) then
            fail (PhiArity (blk_id b) index (stmt_id stmt) (length (edges phi))
                    (length (values phi)))
          else if negb (bool_decide (edges phi = preds b)) then
            fail (PhiEdges (blk_id b) index (stmt_id stmt) (edges phi) (preds b))
          else phi_shape_loop b seen_non_phi l
      | _ => phi_shape_loop b true l
      end
  end.

Definition verify_phi_shape func : check unit :=
  check_all (fun b => phi_shape_loop b false (enumerate (stmts b))) (fn_blocks func).

(** ** [verify_dominance] *)

Definition check_operand func (def_sites : DefSites) (idoms : gmap BlockId BlockId)
    (operand : SsaValue) (use_block use_index : nat) : check unit :=
  match operand with
  | Const _ => ok
  | Argument index =>
      guard_ok (index <? length (fn_params func))
        (ArgumentRange use_block use_index index (length (fn_params func)))
  | Def id =>
      match def_sites !! id with
      | None => fail (UnknownDef use_block use_index id)
      | Some (def_block, def_index) =>
          if def_block =? use_block then
            guard_ok (def_index <? use_index) (UsedBeforeDef use_block use_index id def_index)
          else
            match dominates def_block use_block (fn_entry func) idoms with
            | Some b => guard_ok b (NotDominating use_block use_index id def_block)
            | None => None
            end
      end
  end.

Definition check_phi_operand func (def_sites : DefSites) (idoms : gmap BlockId BlockId)
    (operand : SsaValue) (phi_block phi_index : nat) (edge_pred : BlockId) : check unit :=
  match operand with
  | Const _ => ok
  | Argument index =>
      guard_ok (index <? length (fn_params func))
        (PhiArgumentRange phi_block phi_index index (length (fn_params func)))
  | Def id =>
      match def_sites !! id with
      | None => fail (PhiUnknownDef phi_block phi_index id)
      | Some (def_block, _) =>
          match dominates def_block edge_pred (fn_entry func) idoms with
          | Some b => guard_ok b (PhiNotDominating phi_block phi_index id def_block edge_pred)
          | None => None
          end
      end
  end.

(** The statements and the terminator of one block. *)
Definition check_stmt func (def_sites : DefSites) (reachable : gset BlockId)
    (idoms : gmap BlockId BlockId) (b : BlockId) (index : nat) (stmt : SsaStatement)
    : check unit :=
  match stmt_op stmt with
  | Phi phi =>
      check_all (fun '(edge, value) =>
        match value with
        | None => ok
        | Some value =>
            if bool_decide (edge ∈ reachable)
            then check_phi_operand func def_sites idoms value b index edge else ok
        end) (zip (edges phi) (values phi))
  | op => check_all (fun v => check_operand func def_sites idoms v b index) (operands op)
  end.

Definition check_block func (def_sites : DefSites) (reachable : gset BlockId)
    (idoms : gmap BlockId BlockId) (b : SsaBlock) : check unit :=
  if bool_decide (blk_id b ∈ reachable) then
    and_then
      (check_all (fun '(index, stmt) =>
         check_stmt func def_sites reachable idoms (blk_id b) index stmt) (enumerate (stmts b)))
      (fun _ =>
        check_all (fun v => check_operand func def_sites idoms v (blk_id b) (length (stmts b)))
          (term_operands (terminator b)))
  else ok.

Definition verify_dominance func (def_sites : DefSites) (reachable : gset BlockId)
    (idoms : gmap BlockId BlockId) : check unit :=
  check_all (check_block func def_sites reachable idoms) (fn_blocks func).

(** ** [verify] *)

Definition verify func : check unit :=
  if bool_decide (fn_blocks func = []) then fail NoBlocks
  else
    match block func (fn_entry func) with
    | None => fail (EntryMissing (fn_entry func))
    | Some entry =>
        and_then (check_all (fun '(index, b) =>
          guard_ok (blk_id b =? index) (WrongBlockId index (blk_id b)))
            (enumerate (fn_blocks func))) (fun _ =>
        and_then (guard_ok (bool_decide (preds entry = [])) (EntryHasPreds (fn_entry func)))
          (fun _ =>
        and_then (verify_edges func) (fun _ =>
        and_then (Some (collect_def_sites func)) (fun def_sites =>
        and_then (verify_phi_shape func) (fun _ =>
        match compute_reachable func with
        | None => None
        | Some reachable =>
            match compute_idoms func reachable with
            | None => None
            | Some idoms => verify_dominance func def_sites reachable idoms
            end
        end)))))
    end.

(** ** SSA form *)

(** A statement of block [d] defines [id]. *)
Definition defines func (d : BlockId) (id : SsaValueId) : Prop :=
  exists b s, block func d = Some b /\ s ∈ stmts b /\ stmt_id s = id.

Abbreviation reached_in func := (reached (edge func) (fn_entry func)).
Abbreviation dominator_in func := (dominator (edge func) (fn_entry func)).

(** [v] may be read in block [use] after the statements [before]. *)
Definition operand_ok func (before : list SsaStatement) (use : BlockId) (v : SsaValue) : Prop :=
  match v with
  | Const _ => True
  | Argument index => index < length (fn_params func)
  | Def id =>
      id ∈ map stmt_id before \/ exists d, d <> use /\ defines func d id /\ dominator_in func d use
  end.

(** [v] may be read at the end of block [pred]. *)
Definition phi_operand_ok func (pred : BlockId) (v : SsaValue) : Prop :=
  match v with
  | Const _ => True
  | Argument index => index < length (fn_params func)
  | Def id => exists d, defines func d id /\ dominator_in func d pred
  end.

Definition stmt_is_phi (s : SsaStatement) : Prop := is_phi (stmt_op s) = true.

Definition phi_prefix (l : list SsaStatement) : Prop :=
  exists ps rest, l = ps ++ rest /\ Forall stmt_is_phi ps /\
    Forall (fun s => is_phi (stmt_op s) = false) rest.

#[global] Instance edge_dec func u v : Decision (edge func u v).
Proof. unfold edge. apply _. Defined.

Record well_formed func : Prop := {
  wf_entry : exists b, block func (fn_entry func) = Some b /\ preds b = [];
  wf_ids i b : block func i = Some b -> blk_id b = i;
  wf_targets i b t : block func i = Some b -> t ∈ targets (terminator b) -> is_Some (block func t);
  wf_succs i b : block func i = Some b -> succs b = targets (terminator b);
  wf_preds i b : block func i = Some b ->
    preds b = filter (fun u => edge func u i) (seq 0 (length (fn_blocks func)));
  wf_unique : NoDup (map stmt_id (fn_blocks func ≫= stmts));
  wf_prefix i b : block func i = Some b -> phi_prefix (stmts b);
  wf_phi i b s phi : block func i = Some b -> s ∈ stmts b -> stmt_op s = Phi phi ->
    edges phi = preds b /\ length (values phi) = length (preds b);
  wf_operands i b before s after v : reached_in func i -> block func i = Some b ->
    stmts b = before ++ s :: after -> v ∈ operands (stmt_op s) -> operand_ok func before i v;
  wf_terminator i b v : reached_in func i -> block func i = Some b ->
    v ∈ term_operands (terminator b) -> operand_ok func (stmts b) i v;
  wf_phi_values i b s phi p v : reached_in func i -> block func i = Some b -> s ∈ stmts b ->
    stmt_op s = Phi phi -> (p, Some v) ∈ zip (edges phi) (values phi) -> reached_in func p ->
    phi_operand_ok func p v
}.
End Verify.
