(* ===== verification/SsaVerifySpec.v ===== *)
(** * The verifier decides SSA form

    [verify] ends without a panic on every function and accepts exactly the
    functions in SSA form. *)

From S2P Require Export SsaVerify.

Abbreviation DefSites := (gmap SsaValueId (BlockId * nat)).

Section Spec.
Context {P : Payload}.
Implicit Types func : SsaFunction.

Abbreviation reached_in func := (reached (edge func) (fn_entry func)).
Abbreviation dominator_in func := (dominator (edge func) (fn_entry func)).

(** ** Sequences of checks *)

(** The check ends, and passes exactly when [Q] holds. *)
Definition decides (c : option (result VerifyError unit)) (Q : Prop) : Prop :=
  exists r, c = Some r /\ (r = Ok tt <-> Q).

Lemma decides_ok : decides ok True.
Proof. by exists (Ok tt). Qed.

Lemma decides_fail e (Q : Prop) : ~ Q -> decides (fail e) Q.
Proof. intros HQ. exists (Err e). split; [done|]. by split. Qed.

Lemma decides_iff c (Q R : Prop) : (Q <-> R) -> decides c Q -> decides c R.
Proof. intros HQR (r & -> & Hr). exists r. split; [done|]. by rewrite Hr. Qed.

Lemma decides_guard b e : decides (guard_ok b e) (b = true).
Proof. destruct b; [by exists (Ok tt)|by apply decides_fail]. Qed.

Lemma decides_guard_iff b e (Q : Prop) : (b = true <-> Q) -> decides (guard_ok b e) Q.
Proof. intros H. eapply decides_iff; [exact H|apply decides_guard]. Qed.

(** The second check may rely on the first. *)
Lemma decides_and c k (Q R : Prop) :
  decides c Q -> (Q -> decides (k tt) R) -> decides (and_then c k) (Q /\ R).
Proof.
  intros (r & -> & Hr) Hk. destruct r as [[]|e]; simpl.
  - destruct (Hk (proj1 Hr eq_refl)) as (r & -> & Hr2). exists r. split; [done|].
    rewrite Hr2. tauto.
  - exists (Err e). split; [done|]. split; [done|]. intros [HQ _]. by apply Hr in HQ.
Qed.

Lemma decides_all {A} (f : A -> option (result VerifyError unit)) (Q : A -> Prop) xs :
  (forall x, x ∈ xs -> decides (f x) (Q x)) -> decides (check_all f xs) (forall x, x ∈ xs -> Q x).
Proof.
  induction xs as [|x xs IH]; intros Hf; simpl.
  - eapply decides_iff; [|apply decides_ok]. split; [by intros _ y ?%elem_of_nil|done].
  - eapply decides_iff; [|apply (decides_and _ _ (Q x) (forall y, y ∈ xs -> Q y))].
    + split.
      * intros [Hx Hxs] y [->|Hy]%elem_of_cons; auto.
      * intros H. split; [apply H; left|]. intros y Hy. apply H. by right.
    + apply Hf. left.
    + intros _. apply IH. intros y Hy. apply Hf. by right.
Qed.

Lemma enumerate_elem {A} (l : list A) i x : (i, x) ∈ enumerate l <-> l !! i = Some x.
Proof.
  unfold enumerate. split.
  - intros [k Hk]%list_elem_of_lookup. apply lookup_zip_Some in Hk as [Hs Hl].
    apply lookup_seq in Hs as [-> _]. done.
  - intros Hi. apply list_elem_of_lookup. exists i. apply lookup_zip_Some.
    split; [|done]. apply lookup_seq. split; [done|]. by eapply lookup_lt_Some.
Qed.

Lemma enumerate_snd {A} (l : list A) : (enumerate l).*2 = l.
Proof. unfold enumerate. apply snd_zip. by rewrite length_seq. Qed.

Lemma list_filter_iff_elem {A} (Q R : A -> Prop) `{!forall x, Decision (Q x)}
    `{!forall x, Decision (R x)} (l : list A) :
  (forall x, x ∈ l -> Q x <-> R x) -> filter Q l = filter R l.
Proof.
  induction l as [|x l IH]; intros HQR; [done|]. rewrite !filter_cons.
  assert (filter Q l = filter R l) as -> by (apply IH; intros y Hy; apply HQR; by right).
  destruct (HQR x) as [H1 H2]; [left|]. repeat case_decide; tauto.
Qed.

(** ** The edges *)

Lemma targets_NoDup t : NoDup (targets t).
Proof.
  destruct t as [t|c t e|v]; simpl; [apply NoDup_singleton| |constructor].
  destruct (Nat.eqb_spec t e); [apply NoDup_singleton|].
  apply NoDup_cons. split; [set_solver|apply NoDup_singleton].
Qed.

Lemma push_preds_spec expected id ts :
  NoDup ts -> (forall t, t ∈ ts -> t < length expected) ->
  exists expected', push_preds expected id ts = Some expected' /\
    length expected' = length expected /\
    forall t, expected' !! t = (fun ps => if bool_decide (t ∈ ts) then ps ++ [id] else ps) <$>
      expected !! t.
Proof.
  revert expected. induction ts as [|t ts IH]; intros expected Hnd Hlt; simpl.
  { exists expected. split_and!; [done|done|]. intros t.
    by destruct (expected !! t). }
  apply NoDup_cons in Hnd as [Hni Hnd].
  destruct (lookup_lt_is_Some_2 expected t) as [ps Hps]; [apply Hlt; left|]. rewrite Hps. simpl.
  destruct (IH (<[t := ps ++ [id]]> expected) Hnd) as (e & He & Hlen & Hl).
  { intros u Hu. rewrite length_insert. apply Hlt. by right. }
  exists e. split_and!; [done|by rewrite Hlen, length_insert|]. intros u. rewrite Hl.
  destruct (decide (u = t)) as [->|Hne].
  - rewrite list_lookup_insert_eq by (by eapply lookup_lt_Some). rewrite Hps. simpl.
    rewrite bool_decide_eq_false_2 by done. by rewrite bool_decide_eq_true_2 by left.
  - rewrite list_lookup_insert_ne by done. destruct (expected !! u); [|done]. simpl. f_equal.
    rewrite (bool_decide_ext (u ∈ t :: ts) (u ∈ ts)); [done|]. set_solver.
Qed.

Definition block_edges_ok func (b : SsaBlock) : Prop :=
  (forall t, t ∈ targets (terminator b) -> is_Some (block func t)) /\
  succs b = targets (terminator b).

(** The blocks of [bs] that jump to [t]. *)
Definition sources (bs : list SsaBlock) (t : BlockId) : list BlockId :=
  map blk_id (filter (fun b => t ∈ targets (terminator b)) bs).

Lemma expected_loop_spec func expected bs :
  length expected = length (fn_blocks func) ->
  exists r, expected_loop func expected bs = Some r /\
    match r with
    | Ok e => (forall b, b ∈ bs -> block_edges_ok func b) /\ length e = length expected /\
        forall t, e !! t = (fun ps => ps ++ sources bs t) <$> expected !! t
    | Err _ => ~ forall b, b ∈ bs -> block_edges_ok func b
    end.
Proof.
  revert expected. induction bs as [|b bs IH]; intros expected Hlen; cbn [expected_loop].
  { exists (Ok expected). split; [done|]. split_and!; [by intros b ?%elem_of_nil|done|].
    intros t. destruct (expected !! t); simpl; [by rewrite app_nil_r|done]. }
  destruct (decides_all (fun t => guard_ok (bool_decide (is_Some (block func t)))
    (MissingTarget (blk_id b) t)) (fun t => is_Some (block func t)) (targets (terminator b)))
    as (r1 & -> & Hr1).
  { intros t _. apply decides_guard_iff. apply bool_decide_eq_true. }
  destruct r1 as [[]|e1]; simpl.
  2: { exists (Err e1). split; [done|]. intros H. destruct (H b ltac:(left)) as [Ht _].
       by apply Hr1 in Ht. }
  pose proof (proj1 Hr1 eq_refl) as Ht. clear Hr1.
  case_bool_decide as Hs; simpl.
  2: { eexists. split; [done|]. intros H. by destruct (H b ltac:(left)). }
  destruct (push_preds_spec expected (blk_id b) (targets (terminator b))) as (e & -> & Hle & Hl);
    [apply targets_NoDup| |].
  { intros t Hin. rewrite Hlen. destruct (Ht t Hin) as [x Hx]. by eapply lookup_lt_Some. }
  destruct (IH e) as (r & -> & Hr); [by rewrite Hle|]. exists r. split; [done|].
  destruct r as [e2|err].
  - destruct Hr as (H1 & H2 & H3). split_and!.
    + intros b' [->|Hb]%elem_of_cons; [by split|auto].
    + by rewrite H2.
    + intros t. rewrite H3, Hl. unfold sources. rewrite filter_cons.
      destruct (expected !! t) as [ps|]; simpl; [|done]. f_equal.
      case_bool_decide as Hin; case_decide; try done. simpl. by rewrite <- app_assoc.
  - intros H. apply Hr. intros b' Hb. apply H. by right.
Qed.

Lemma sources_seq (l : list SsaBlock) t (Q : nat -> Prop) `{!forall u, Decision (Q u)} :
  (forall i b, l !! i = Some b -> blk_id b = i /\ (Q i <-> t ∈ targets (terminator b))) ->
  sources l t = filter Q (seq 0 (length l)).
Proof.
  unfold sources. induction l as [|b l IH] using rev_ind; intros HQ; [done|].
  rewrite length_app, seq_app, !filter_app, map_app, IH.
  - f_equal. destruct (HQ (length l) b) as [Hid Hq]; [by apply list_lookup_middle|].
    simpl. rewrite !filter_cons, !filter_nil. repeat case_decide; try tauto. simpl. by rewrite Hid.
  - intros i b' Hb. apply HQ. by apply lookup_app_l_Some.
Qed.

Lemma sources_dense func t :
  (forall i b, block func i = Some b -> blk_id b = i) ->
  (forall i b, block func i = Some b -> succs b = targets (terminator b)) ->
  sources (fn_blocks func) t =
    filter (fun u => edge func u t) (seq 0 (length (fn_blocks func))).
Proof.
  intros Hid Hs. apply sources_seq. intros i b Hb. split; [by apply Hid|].
  unfold edge, block_succs, block in *. by rewrite Hb, (Hs i b Hb).
Qed.

(** The checks on the edges, when the block ids are the positions. *)
Lemma verify_edges_spec func :
  (forall i b, block func i = Some b -> blk_id b = i) ->
  decides (verify_edges func)
    ((forall b, b ∈ fn_blocks func -> block_edges_ok func b) /\
     forall i b, block func i = Some b ->
       preds b = filter (fun u => edge func u i) (seq 0 (length (fn_blocks func)))).
Proof.
  intros Hid. unfold verify_edges.
  destruct (expected_loop_spec func (replicate (length (fn_blocks func)) []) (fn_blocks func))
    as (r & -> & Hr); [by rewrite length_replicate|]. destruct r as [e|err].
  2: { apply decides_fail. tauto. }
  destruct Hr as (Hok & Hlen & He). simpl.
  assert (forall i b, block func i = Some b -> succs b = targets (terminator b)) as Hs.
  { intros i b Hb. apply Hok. by apply list_elem_of_lookup_2 in Hb. }
  assert (forall i b, block func i = Some b -> e !! i = Some (filter (fun u => edge func u i)
    (seq 0 (length (fn_blocks func))))) as Hi.
  { intros i b Hb. rewrite He, lookup_replicate_2 by (by eapply lookup_lt_Some). simpl.
    by rewrite sources_dense. }
  eapply decides_iff; [|apply (decides_all _ (fun b => preds b = filter (fun u => edge func u (blk_id b))
    (seq 0 (length (fn_blocks func)))))].
  - split.
    + intros H. split; [done|]. intros i b Hb. specialize (Hid i b Hb) as Hib.
      rewrite (H b) by (by apply list_elem_of_lookup_2 in Hb). by rewrite Hib.
    + intros [_ H] b [i Hb]%list_elem_of_lookup. rewrite (Hid i b Hb). by apply H.
  - intros b [i Hb]%list_elem_of_lookup. rewrite (Hid i b Hb), (Hi i b Hb).
    apply decides_guard_iff, bool_decide_eq_true.
Qed.

(** ** The definition sites *)

(** All definitions of a list of blocks with their sites. *)
Definition site_list (bs : list SsaBlock) : list (SsaValueId * (BlockId * nat)) :=
  bs ≫= fun b => (fun p => (stmt_id p.2, (blk_id b, p.1))) <$> enumerate (stmts b).

Lemma site_list_ids bs : (site_list bs).*1 = map stmt_id (bs ≫= stmts).
Proof.
  induction bs as [|b bs IH]; [done|]. unfold site_list in *. csimpl.
  rewrite fmap_app, IH, map_app. f_equal. rewrite <- list_fmap_compose.
  rewrite <- (enumerate_snd (stmts b)) at 2. by rewrite <- list_fmap_compose.
Qed.

Lemma site_list_elem func id d i :
  (forall i b, block func i = Some b -> blk_id b = i) ->
  (id, (d, i)) ∈ site_list (fn_blocks func) <->
  exists b s, block func d = Some b /\ stmts b !! i = Some s /\ stmt_id s = id.
Proof.
  intros Hid. unfold site_list. rewrite list_elem_of_bind. split.
  - intros (b & Hin & [k Hb]%list_elem_of_lookup).
    apply list_elem_of_fmap in Hin as ([j s] & [= -> -> ->] & Hs%enumerate_elem).
    exists b, s. by rewrite (Hid k b Hb).
  - intros (b & s & Hb & Hs & <-). exists b. split; [|by apply list_elem_of_lookup_2 in Hb].
    apply list_elem_of_fmap. exists (i, s). rewrite enumerate_elem. by rewrite (Hid d b Hb).
Qed.

(** What inserting the sites [l] into [sites] gives. *)
Definition sites_ok (sites : DefSites) (l : list (SsaValueId * (BlockId * nat))) : Prop :=
  NoDup l.*1 /\ forall id, id ∈ l.*1 -> sites !! id = None.

Definition sites_after (sites sites' : DefSites) (l : list (SsaValueId * (BlockId * nat))) : Prop :=
  forall id v, sites' !! id = Some v <-> sites !! id = Some v \/ (id, v) ∈ l.

Lemma sites_cons sites id v l :
  sites_ok sites ((id, v) :: l) <-> sites !! id = None /\ sites_ok (<[id := v]> sites) l.
Proof.
  unfold sites_ok. csimpl. rewrite NoDup_cons. split.
  - intros [[Hni Hnd] H]. split; [apply H; left|]. split; [done|].
    intros id' Hid. rewrite lookup_insert_ne; [apply H; by right|]. by intros ->.
  - intros (Hn & Hnd & H). split.
    + split; [|done]. intros Hid. specialize (H id Hid). by rewrite lookup_insert_eq in H.
    + intros id' [->|Hid]%elem_of_cons; [done|]. specialize (H id' Hid).
      by apply lookup_insert_None in H as [? _].
Qed.

Lemma after_cons sites id v l sites' :
  sites !! id = None -> sites_after (<[id := v]> sites) sites' l ->
  sites_after sites sites' ((id, v) :: l).
Proof.
  intros Hn Ha id' w. rewrite (Ha id' w), elem_of_cons, lookup_insert_Some.
  split; [naive_solver|]. intros [Hs|[[= -> ->]|Hin]]; [|by left; left|by right].
  left. right. split; [|done]. intros ->. by rewrite Hn in Hs.
Qed.

Lemma sites_app sites sites' l k :
  sites_ok sites l -> sites_after sites sites' l ->
  sites_ok sites (l ++ k) <-> sites_ok sites' k.
Proof.
  intros [Hnd Hs] Ha. unfold sites_ok. rewrite fmap_app, NoDup_app. split.
  - intros [(_ & Hd & Hk) H]. split; [done|]. intros id Hid. apply eq_None_not_Some. intros [v Hv].
    apply Ha in Hv as [Hv|Hv].
    + rewrite H in Hv; [done|]. apply elem_of_app. by right.
    + apply (Hd id); [|done]. apply list_elem_of_fmap. by exists (id, v).
  - intros [Hk H]. assert (forall id, id ∈ l.*1 -> id ∉ k.*1) as Hd.
    { intros id ([i v] & -> & Hin)%list_elem_of_fmap Hid. simpl in *. specialize (H i Hid).
      assert (sites' !! i = Some v) as Hc; [apply Ha; by right|]. by rewrite H in Hc. }
    split; [done|]. intros id [Hid|Hid]%elem_of_app; [by apply Hs|].
    specialize (H id Hid). apply eq_None_not_Some. intros [v Hv].
    assert (sites' !! id = Some v) as Hc; [apply Ha; by left|]. by rewrite H in Hc.
Qed.

Lemma def_sites_loop_spec sites b l :
  match def_sites_loop sites b l with
  | Ok sites' => sites_ok sites ((fun p => (stmt_id p.2, (b, p.1))) <$> l) /\
      sites_after sites sites' ((fun p => (stmt_id p.2, (b, p.1))) <$> l)
  | Err _ => ~ sites_ok sites ((fun p => (stmt_id p.2, (b, p.1))) <$> l)
  end.
Proof.
  revert sites. induction l as [|[i s] l IH]; intros sites; csimpl.
  { split; [split; [constructor|by intros id ?%elem_of_nil]|]. intros id v. set_solver. }
  destruct (sites !! stmt_id s) as [v|] eqn:Hs.
  { intros [Hn _]%sites_cons. by rewrite Hn in Hs. }
  specialize (IH (<[stmt_id s := (b, i)]> sites)). destruct (def_sites_loop _ b l) as [s'|e].
  - destruct IH as [H1 H2]. split; [by apply sites_cons|by apply after_cons].
  - by intros [_ H]%sites_cons.
Qed.

Lemma collect_loop_spec sites bs :
  match collect_loop sites bs with
  | Ok sites' => sites_ok sites (site_list bs) /\ sites_after sites sites' (site_list bs)
  | Err _ => ~ sites_ok sites (site_list bs)
  end.
Proof.
  revert sites. induction bs as [|b bs IH]; intros sites; simpl.
  { split; [split; [constructor|by intros id ?%elem_of_nil]|]. intros id v.
    unfold site_list. set_solver. }
  pose proof (def_sites_loop_spec sites (blk_id b) (enumerate (stmts b))) as Hl.
  unfold site_list in *. csimpl. destruct (def_sites_loop _ _ _) as [s1|e]; simpl.
  - destruct Hl as [H1 H2]. specialize (IH s1). destruct (collect_loop s1 bs) as [s2|e].
    + destruct IH as [H3 H4]. split; [by apply (sites_app sites s1)|].
      intros id v. rewrite (H4 id v), (H2 id v), elem_of_app. tauto.
    + intros H. apply IH. by apply (sites_app sites s1) in H.
  - intros [H1 H2]. apply Hl. rewrite fmap_app in *. apply NoDup_app in H1 as (H1 & _).
    split; [done|]. intros id Hid. apply H2, elem_of_app. by left.
Qed.

Lemma collect_def_sites_spec func :
  (forall i b, block func i = Some b -> blk_id b = i) ->
  match collect_def_sites func with
  | Ok sites => NoDup (map stmt_id (fn_blocks func ≫= stmts)) /\
      forall id d i, sites !! id = Some (d, i) <->
        exists b s, block func d = Some b /\ stmts b !! i = Some s /\ stmt_id s = id
  | Err _ => ~ NoDup (map stmt_id (fn_blocks func ≫= stmts))
  end.
Proof.
  intros Hid. pose proof (collect_loop_spec ∅ (fn_blocks func)) as H.
  unfold collect_def_sites. destruct (collect_loop ∅ (fn_blocks func)) as [sites|e].
  - destruct H as [[Hnd _] Ha]. rewrite site_list_ids in Hnd. split; [done|].
    intros id d i. rewrite (Ha id (d, i)), <- site_list_elem by done. set_solver.
  - intros Hnd. apply H. split; [by rewrite site_list_ids|done].
Qed.

(** ** The phis *)

Definition phi_shape_ok (b : SsaBlock) (s : SsaStatement) : Prop :=
  forall phi, stmt_op s = Phi phi -> edges phi = preds b /\ length (values phi) = length (preds b).

Lemma phi_shape_loop_spec b seen (l : list (nat * SsaStatement)) :
  decides (phi_shape_loop b seen l)
    ((if seen then Forall (fun s => is_phi (stmt_op s) = false) l.*2 else phi_prefix l.*2) /\
     forall s, s ∈ l.*2 -> phi_shape_ok b s).
Proof.
  revert seen. induction l as [|[i s] l IH]; intros seen; csimpl.
  { eapply decides_iff; [|apply decides_ok]. split; [|done]. intros _. split.
    - destruct seen; [constructor|]. by exists [], [].
    - by intros s ?%elem_of_nil. }
  destruct (is_phi (stmt_op s)) eqn:Hphi.
  - destruct (stmt_op s) as [phi| | | | | | | | |] eqn:Hop; try done.
    destruct seen; [apply decides_fail; intros [H _]; apply Forall_cons in H; rewrite Hop in H; by destruct H|].
    destruct (Nat.eqb_spec (length (edges phi)) (length (values phi))) as [Hlen|Hlen]; simpl.
    2: { apply decides_fail. intros [_ H]. destruct (H s ltac:(left) phi Hop) as [He Hv].
         apply Hlen. by rewrite He, Hv. }
    case_bool_decide as He; simpl.
    2: { apply decides_fail. intros [_ H]. by destruct (H s ltac:(left) phi Hop). }
    eapply decides_iff; [|apply IH]. simpl. split; intros [H1 H2]; split.
    + destruct H1 as (ps & rest & -> & Hps & Hr). exists (s :: ps), rest. split_and!; [done| |done].
      constructor; [|done]. unfold stmt_is_phi. by rewrite Hop.
    + intros s' [->|Hs]%elem_of_cons; [|by apply H2]. intros phi' Hp. rewrite Hop in Hp.
      injection Hp as <-. split; [done|]. by rewrite <- Hlen, He.
    + destruct H1 as (ps & rest & Heq & Hps & Hr). destruct ps as [|p ps]; simpl in Heq.
      * subst rest. apply Forall_cons in Hr as [Hr _]. by rewrite Hop in Hr.
      * injection Heq as -> Heq. apply Forall_cons in Hps as [_ Hps]. by exists ps, rest.
    + intros s' Hs. apply H2. by right.
  - assert (phi_shape_loop b seen ((i, s) :: l) = phi_shape_loop b true l) as Heq
      by (simpl; by destruct (stmt_op s)).
    simpl in Heq. rewrite Heq. eapply decides_iff; [|apply IH]. split; intros [H1 H2]; split.
    + destruct seen; [by constructor|]. exists [], (s :: l.*2). split_and!; [done|constructor|].
      by constructor.
    + intros s' [->|Hs]%elem_of_cons; [|by apply H2]. intros phi Hp. by rewrite Hp in Hphi.
    + destruct seen; [by apply Forall_cons in H1 as [_ ?]|].
      destruct H1 as (ps & rest & Hl & Hps & Hr). destruct ps as [|p ps]; simpl in Hl.
      * subst rest. by apply Forall_cons in Hr as [_ ?].
      * injection Hl as -> Hl. apply Forall_cons in Hps as [Hp _]. unfold stmt_is_phi in Hp.
        by rewrite Hphi in Hp.
    + intros s' Hs. apply H2. by right.
Qed.
(** ** Dominance *)

Section Dominance.
Variable func : SsaFunction.
Variable sites : DefSites.
Variable reachable : gset BlockId.
Variable idoms : gmap BlockId BlockId.
Hypothesis Hids : forall i b, block func i = Some b -> blk_id b = i.
Hypothesis Hsites : forall id d i, sites !! id = Some (d, i) <->
  exists b s, block func d = Some b /\ stmts b !! i = Some s /\ stmt_id s = id.
Hypothesis Hreach : forall v, v ∈ reachable <-> reached_in func v.
Hypothesis Hidoms : idoms_spec func idoms.

Lemma defines_site d id : defines func d id <-> exists i, sites !! id = Some (d, i).
Proof.
  split.
  - intros (b & s & Hb & [i Hs]%list_elem_of_lookup & He). exists i. apply Hsites. eauto.
  - intros (i & (b & s & Hb & Hs & He)%Hsites). exists b, s. split_and!; [done| |done].
    by apply list_elem_of_lookup_2 in Hs.
Qed.

Lemma before_site b i id n :
  block func i = Some b ->
  id ∈ map stmt_id (take n (stmts b)) <-> exists j, j < n /\ sites !! id = Some (i, j).
Proof.
  intros Hb. split.
  - intros (s & -> & [j Hj]%list_elem_of_lookup)%list_elem_of_fmap.
    apply lookup_take_Some in Hj as [Hj Hlt]. exists j. split; [done|]. apply Hsites. eauto.
  - intros (j & Hlt & (b' & s & Hb' & Hs & <-)%Hsites). simplify_eq.
    apply list_elem_of_fmap. exists s. split; [done|]. apply list_elem_of_lookup. exists j.
    by apply lookup_take_Some.
Qed.

Lemma check_operand_spec b i n v :
  block func i = Some b -> reached_in func i ->
  decides (check_operand func sites idoms v i n) (operand_ok func (take n (stmts b)) i v).
Proof.
  intros Hb Hr. destruct v as [id|k|lit]; simpl;
    [|apply decides_guard_iff, Nat.ltb_lt|apply decides_ok].
  destruct (sites !! id) as [[d di]|] eqn:Hs.
  2: { apply decides_fail. intros [H|(d & _ & Hd & _)].
       - apply (before_site b i) in H as (j & _ & Hj); [|done]. by rewrite Hs in Hj.
       - apply defines_site in Hd as [j Hj]. by rewrite Hs in Hj. }
  destruct (Nat.eqb_spec d i) as [->|Hne].
  - apply decides_guard_iff. rewrite Nat.ltb_lt. split.
    + intros Hlt. left. apply (before_site b i); [done|]. eauto.
    + intros [H|(d & Hd & Hdef & _)].
      * apply (before_site b i) in H as (j & Hj & Hsj); [|done]. by simplify_eq.
      * apply defines_site in Hdef as [j Hj]. by simplify_eq.
  - destruct (idoms_dominates _ _ Hidoms d i) as (r & -> & Hrd).
    apply decides_guard_iff. rewrite (Hrd Hr). split.
    + intros Hd. right. exists d. split_and!; [done| |done]. apply defines_site. eauto.
    + intros [H|(d' & Hd & Hdef & Hdom)].
      * apply (before_site b i) in H as (j & Hj & Hsj); [|done]. by simplify_eq.
      * apply defines_site in Hdef as [j Hj]. by simplify_eq.
Qed.

Lemma check_phi_operand_spec i n p v :
  reached_in func p ->
  decides (check_phi_operand func sites idoms v i n p) (phi_operand_ok func p v).
Proof.
  intros Hr. destruct v as [id|k|lit]; simpl;
    [|apply decides_guard_iff, Nat.ltb_lt|apply decides_ok].
  destruct (sites !! id) as [[d di]|] eqn:Hs.
  2: { apply decides_fail. intros (d & [j Hj]%defines_site & _). by rewrite Hs in Hj. }
  destruct (idoms_dominates _ _ Hidoms d p) as (r & -> & Hrd).
  apply decides_guard_iff. rewrite (Hrd Hr). split.
  - intros Hd. exists d. split; [|done]. apply defines_site. eauto.
  - intros (d' & [j Hj]%defines_site & Hdom). by simplify_eq.
Qed.

(** What is asked of the [n]th statement of block [i]. *)
Definition stmt_ok (b : SsaBlock) (i n : nat) (s : SsaStatement) : Prop :=
  (forall v, v ∈ operands (stmt_op s) -> operand_ok func (take n (stmts b)) i v) /\
  forall phi p v, stmt_op s = Phi phi -> (p, Some v) ∈ zip (edges phi) (values phi) ->
    reached_in func p -> phi_operand_ok func p v.

Lemma check_stmt_spec b i n s :
  block func i = Some b -> reached_in func i ->
  decides (check_stmt func sites reachable idoms i n s) (stmt_ok b i n s).
Proof.
  intros Hb Hr. unfold check_stmt, stmt_ok. destruct (is_phi (stmt_op s)) eqn:Hphi.
  - destruct (stmt_op s) as [phi| | | | | | | | |]; try done.
    eapply decides_iff; [|apply (decides_all _ (fun e =>
      forall v, e.2 = Some v -> reached_in func e.1 -> phi_operand_ok func e.1 v))].
    + split.
      * intros H. split; [by intros v ?%elem_of_nil|]. intros phi' p v [= <-] Hin Hp.
        by apply (H (p, Some v)).
      * intros [_ H] [p v'] Hin v Hv Hp. simpl in *. subst v'. by eapply H.
    + intros [p [v|]] Hin; simpl; [|by eapply decides_iff; [|apply decides_ok]].
      case_bool_decide as Hp; rewrite Hreach in Hp.
      * eapply decides_iff; [|by apply check_phi_operand_spec]. split; [|intros H; by apply H].
        by intros H v' [= <-].
      * by eapply decides_iff; [|apply decides_ok].
  - assert (decides (check_all (fun v => check_operand func sites idoms v i n)
      (operands (stmt_op s))) (forall v, v ∈ operands (stmt_op s) ->
        operand_ok func (take n (stmts b)) i v)) as H.
    { apply decides_all. intros v _. by apply check_operand_spec. }
    destruct (stmt_op s) as [phi| | | | | | | | |]; try done;
      (eapply decides_iff; [|exact H]; split; [by intros ?|by intros [? _]]).
Qed.

Definition block_ok (i : BlockId) (b : SsaBlock) : Prop :=
  reached_in func i ->
  (forall n s, stmts b !! n = Some s -> stmt_ok b i n s) /\
  forall v, v ∈ term_operands (terminator b) -> operand_ok func (stmts b) i v.

Lemma check_block_spec i b :
  block func i = Some b -> decides (check_block func sites reachable idoms b) (block_ok i b).
Proof.
  intros Hb. unfold check_block. rewrite (Hids i b Hb). unfold block_ok.
  case_bool_decide as Hr; rewrite Hreach in Hr; [|by eapply decides_iff; [|apply decides_ok]].
  eapply decides_iff; [|apply (decides_and _ _
    (forall x, x ∈ enumerate (stmts b) -> stmt_ok b i x.1 x.2)
    (forall v, v ∈ term_operands (terminator b) -> operand_ok func (stmts b) i v))].
  - split.
    + intros [H1 H2] _. split; [|done]. intros n s Hs%enumerate_elem. by apply (H1 (n, s)).
    + intros H. destruct (H Hr) as [H1 H2]. split; [|done].
      intros [n s] Hs%enumerate_elem. by apply H1.
  - apply decides_all. intros [n s] _. by apply check_stmt_spec.
  - intros _. apply decides_all. intros v _.
    pose proof (check_operand_spec b i (length (stmts b)) v Hb Hr) as H. by rewrite firstn_all in H.
Qed.

Lemma verify_dominance_spec :
  decides (verify_dominance func sites reachable idoms)
    (forall i b, block func i = Some b -> block_ok i b).
Proof.
  eapply decides_iff; [|apply (decides_all _ (fun b => block_ok (blk_id b) b))].
  - split.
    + intros H i b Hb. rewrite <- (Hids i b Hb). apply H. by apply list_elem_of_lookup_2 in Hb.
    + intros H b [i Hb]%list_elem_of_lookup. rewrite (Hids i b Hb). by apply H.
  - intros b [i Hb]%list_elem_of_lookup. rewrite (Hids i b Hb). by apply check_block_spec.
Qed.
End Dominance.

(** ** The whole *)

(** The checks of [verify] up to the dominators. *)
Record structure_ok func : Prop := {
  str_entry : exists b, block func (fn_entry func) = Some b /\ preds b = [];
  str_ids i b : block func i = Some b -> blk_id b = i;
  str_edges b : b ∈ fn_blocks func -> block_edges_ok func b;
  str_preds i b : block func i = Some b ->
    preds b = filter (fun u => edge func u i) (seq 0 (length (fn_blocks func)));
  str_phis b : b ∈ fn_blocks func ->
    phi_prefix (stmts b) /\ forall s, s ∈ stmts b -> phi_shape_ok b s
}.

Lemma well_formed_split func :
  well_formed func <->
  structure_ok func /\ NoDup (map stmt_id (fn_blocks func ≫= stmts)) /\
  forall i b, block func i = Some b -> block_ok func i b.
Proof.
  split.
  - intros Hwf. split_and!; [|by apply wf_unique|].
    + constructor; try apply Hwf.
      * intros b [i Hb]%list_elem_of_lookup.
        split; [intros t; by eapply wf_targets|by eapply wf_succs].
      * intros b [i Hb]%list_elem_of_lookup. split; [by eapply wf_prefix|].
        intros s Hs phi. by eapply wf_phi.
    + intros i b Hb Hr. split; [|intros v; by eapply wf_terminator].
      intros n s Hs. split.
      * intros v. eapply wf_operands; [done|done|done|]. symmetry. by apply take_drop_middle.
      * intros phi p v Hop. eapply wf_phi_values; try done. by apply list_elem_of_lookup_2 in Hs.
  - intros ([H1 H2 H3 H4 H5] & H6 & H7). constructor; try done.
    + intros i b t Hb. apply H3. by apply list_elem_of_lookup_2 in Hb.
    + intros i b Hb. apply H3. by apply list_elem_of_lookup_2 in Hb.
    + intros i b Hb. apply H5. by apply list_elem_of_lookup_2 in Hb.
    + intros i b s phi Hb Hs. apply H5; [by apply list_elem_of_lookup_2 in Hb|done].
    + intros i b before s after v Hr Hb Hl Hv. destruct (H7 i b Hb Hr) as [Hs _].
      destruct (Hs (length before) s) as [Ho _]; [rewrite Hl; by apply list_lookup_middle|].
      specialize (Ho v Hv). by rewrite Hl, take_app_length in Ho.
    + intros i b v Hr Hb. by apply H7.
    + intros i b s phi p v Hr Hb [n Hs]%list_elem_of_lookup Hop. destruct (H7 i b Hb Hr) as [Ho _].
      by eapply Ho.
Qed.

Lemma structure_edges func : structure_ok func -> edges_ok func.
Proof.
  intros [(e & He & _) H2 H3 H4 H5]. constructor; [by eexists|..].
  - intros u v Hv. unfold edge, block_succs in Hv.
    destruct (block func u) as [b|] eqn:Hb; [|by apply elem_of_nil in Hv].
    apply list_elem_of_lookup_2 in Hb as Hin. destruct (H3 b Hin) as [Ht Hs]. rewrite Hs in Hv. auto.
  - intros v b u Hb. rewrite (H4 v b Hb), list_elem_of_filter, elem_of_seq.
    split; [tauto|]. intros He'. split; [done|]. split; [lia|]. unfold edge, block_succs in He'.
    destruct (block func u) as [b'|] eqn:Hb'; [|by apply elem_of_nil in He'].
    apply lookup_lt_Some in Hb'. lia.
Qed.

Lemma well_formed_edges func : well_formed func -> edges_ok func.
Proof. intros (H & _)%well_formed_split. by apply structure_edges. Qed.

(** The checks from the dominators on. *)
Lemma verify_rest_spec func sites :
  structure_ok func ->
  (forall id d i, sites !! id = Some (d, i) <->
    exists b s, block func d = Some b /\ stmts b !! i = Some s /\ stmt_id s = id) ->
  decides
    match compute_reachable func with
    | None => None
    | Some reachable =>
        match compute_idoms func reachable with
        | None => None
        | Some idoms => verify_dominance func sites reachable idoms
        end
    end (forall i b, block func i = Some b -> block_ok func i b).
Proof.
  intros Hs Hsites. destruct (compute_reachable_total func) as [reachable Hr]. rewrite Hr.
  destruct (compute_idoms_spec func reachable) as (idoms & -> & Hidoms);
    [by apply structure_edges|done|].
  apply verify_dominance_spec; [apply Hs|done|intros v; by apply compute_reachable_spec|done].
Qed.

Lemma verify_phi_shape_spec func :
  decides (verify_phi_shape func)
    (forall b, b ∈ fn_blocks func ->
      phi_prefix (stmts b) /\ forall s, s ∈ stmts b -> phi_shape_ok b s).
Proof.
  apply decides_all. intros b _. pose proof (phi_shape_loop_spec b false (enumerate (stmts b))) as H.
  by rewrite enumerate_snd in H.
Qed.

Lemma verify_ids_spec func :
  decides (check_all (fun '(index, b) => guard_ok (blk_id b =? index) (WrongBlockId index (blk_id b)))
            (enumerate (fn_blocks func)))
    (forall i b, block func i = Some b -> blk_id b = i).
Proof.
  eapply decides_iff; [|apply (decides_all _ (fun x => blk_id x.2 = x.1))].
  - split; [intros H i b Hb%enumerate_elem; by apply (H (i, b))|].
    intros H [i b] Hb%enumerate_elem. by apply H.
  - intros [i b] _. apply decides_guard_iff, Nat.eqb_eq.
Qed.

Lemma verify_decides func : decides (verify func) (well_formed func).
Proof.
  eapply decides_iff; [symmetry; apply well_formed_split|]. unfold verify.
  case_bool_decide as Hne.
  { apply decides_fail. intros [[(b & Hb & _)] _]. unfold block in Hb. by rewrite Hne in Hb. }
  destruct (block func (fn_entry func)) as [e|] eqn:He.
  2: { apply decides_fail. intros [[(b & Hb & _)] _]. by rewrite He in Hb. }
  pose (ids := forall i b, block func i = Some b -> blk_id b = i).
  eapply decides_iff; [|apply (decides_and _ _ ids (preds e = [] /\
    ((forall b, b ∈ fn_blocks func -> block_edges_ok func b) /\
     forall i b, block func i = Some b ->
       preds b = filter (fun u => edge func u i) (seq 0 (length (fn_blocks func)))) /\
    NoDup (map stmt_id (fn_blocks func ≫= stmts)) /\
    (forall b, b ∈ fn_blocks func ->
      phi_prefix (stmts b) /\ forall s, s ∈ stmts b -> phi_shape_ok b s) /\
    forall i b, block func i = Some b -> block_ok func i b)); [apply verify_ids_spec|]].
  - unfold ids. split.
    + intros (H1 & H2 & [H3 H4] & H5 & H6 & H7). split; [|done]. constructor; eauto.
    + intros ([(e' & He' & Hp) H2 H3 H4 H5] & H6 & H7). by simplify_eq.
  - intros Hids. apply decides_and; [apply decides_guard_iff, bool_decide_eq_true|]. intros Hp.
    apply decides_and; [by apply verify_edges_spec|]. intros [Hedges Hpreds].
    pose proof (collect_def_sites_spec func Hids) as Hc.
    destruct (collect_def_sites func) as [sites|err]; simpl; [|apply decides_fail; tauto].
    destruct Hc as [Hnd Hsites]. eapply decides_iff; [|apply decides_and;
      [apply verify_phi_shape_spec|]].
    + split; [intros H; split; [exact Hnd|exact H]|intros [_ H]; exact H].
    + intros Hphis. apply verify_rest_spec; [|done]. constructor; eauto.
Qed.
(** C19. [verify] ends without a panic on every function and accepts exactly the
    functions in SSA form. *)
Theorem verify_spec func : exists r, verify func = Some r /\ (r = Ok tt <-> well_formed func).
Proof. apply verify_decides. Qed.
End Spec.
