(* ===== verification/SsaBuild.v ===== *)
(** * Construction of the SSA form

    subset_julia_vm_compile/src/compile/ssa_ir/build.rs: a builder walks over the
    statements of a function, with the SSA value of every local name at hand, and
    makes a phi wherever the values of the predecessors disagree.  The innermost
    loop is the first of [loop_stack].  A [BTreeMap] or [BTreeSet] is a finite map
    or set whose keys are listed in the order of their bytes ([ordered]). *)

From stdpp Require Import sorting.
From S2P Require Export SsaScan SsaVerify.

(** ** Ordered names *)

#[export] Instance leb_dec : RelDecision (fun a b => String.leb a b = true).
Proof. intros a b. apply _. Defined.

Definition ordered (names : gset string) : list string :=
  merge_sort (fun a b => String.leb a b = true) (elements names).

(** ** Text

    [str::trim] and the classes of [char] look at code points; those above 127 are
    looked up in the tables of the standard library. *)

Class UnicodeTables := {
  unicode_alphabetic : Z -> bool;
  unicode_numeric : Z -> bool
}.

(** A character: its code point and its bytes. *)
Abbreviation char := (Z * string)%type.

Definition byte_value (c : Ascii.ascii) : Z := Z.of_nat (Ascii.nat_of_ascii c).

(** How many bytes follow the first byte of a character, and its payload. *)
Definition lead (b : Z) : nat * Z :=
  if (b <? 128)%Z then (0, b)
  else if (b <? 224)%Z then (1, (b - 192)%Z)
  else if (b <? 240)%Z then (2, (b - 224)%Z)
  else (3, (b - 240)%Z).

(** [str::chars] of well-formed UTF-8; [pending] bytes of a character are left. *)
Fixpoint chars_from (pending : nat) (acc : Z) (bytes : string) (s : string) : list char :=
  match s with
  | EmptyString => []
  | String c s =>
      let b := byte_value c in
      match pending with
      | 0 =>
          match lead b with
          | (0, v) => (v, String c EmptyString) :: chars_from 0 0 EmptyString s
          | (n, v) => chars_from n v (String c EmptyString) s
          end
      | S n =>
          let acc := (acc * 64 + (b - 128))%Z in
          let bytes := bytes +:+ String c EmptyString in
          match n with
          | 0 => (acc, bytes) :: chars_from 0 0 EmptyString s
          | _ => chars_from n acc bytes s
          end
      end
  end.

Definition chars (s : string) : list char := chars_from 0 0 EmptyString s.
Definition text (l : list char) : string := String.concat EmptyString (map snd l).

Definition in_range (lo hi c : Z) : bool := ((lo <=? c) && (c <=? hi))%Z.

(** [char::is_whitespace]. *)
Definition is_whitespace (c : Z) : bool :=
  in_range 9 13 c || existsb (Z.eqb c) [32; 133; 160; 5760; 8232; 8233; 8239; 8287; 12288]%Z ||
  in_range 8192 8202 c.

Fixpoint drop_while {A} (f : A -> bool) (l : list A) : list A :=
  match l with
  | [] => []
  | x :: l' => if f x then drop_while f l' else l
  end.

Definition trim (l : list char) : list char :=
  let blank (c : char) := is_whitespace c.1 in
  rev (drop_while blank (rev (drop_while blank l))).

Definition is_ascii_digit (c : Z) : bool := in_range 48 57 c.
Definition is_ascii_alphabetic (c : Z) : bool := in_range 65 90 c || in_range 97 122 c.

Section Text.
Context {U : UnicodeTables}.

Definition is_alphabetic (c : Z) : bool :=
  if (c <? 128)%Z then is_ascii_alphabetic c else unicode_alphabetic c.

Definition is_alphanumeric (c : Z) : bool :=
  if (c <? 128)%Z then is_ascii_alphabetic c || is_ascii_digit c
  else unicode_alphabetic c || unicode_numeric c.
End Text.

(** ** The builder *)

Section Build.
Context {C : CoreTypes} {U : UnicodeTables}.

Abbreviation Env := (gmap string SsaValue).

(** [SsaBuildError]; an index out of bounds panics. *)
Inductive SsaBuildError :=
  | UnstructuredControlFlow (construct : string) (span : CoreSpan)
  | LoopControlOutsideLoop (construct : string) (span : CoreSpan)
  | InternalInvariant (detail : string) (span : CoreSpan)
  | BuildPanics.

Record BlockBuild := {
  bb_stmts : list SsaStatement;
  bb_terminator : option Terminator;
  bb_closed : bool
}.

Record LoopFrame := {
  lf_header : BlockId;
  break_blocks : list BlockId;
  latch_incoming : list (BlockId * Env);
  exit_incoming : list (BlockId * Env)
}.

Record Builder := {
  bl_blocks : list BlockBuild;
  next_value : nat;
  env : Env;
  globals : gset string;
  loop_stack : list LoopFrame;
  current : BlockId
}.

Definition Building (A : Type) : Type := Builder -> result SsaBuildError (A * Builder).

Definition build_ret {A} (a : A) : Building A := fun s => Ok (a, s).
Definition build_err {A} (e : SsaBuildError) : Building A := fun _ => Err e.
Definition build_bind {A B} (m : Building A) (k : A -> Building B) : Building B :=
  fun s => let? (a, s) := m s in k a s.
Definition build_get : Building Builder := fun s => Ok (s, s).
Definition build_modify (f : Builder -> Builder) : Building unit := fun s => Ok (tt, f s).

#[local] Notation "x <~ m ; k" := (build_bind m (fun x => k))
  (at level 100, m at level 99, k at level 200, right associativity).

Definition with_blocks (f : list BlockBuild -> list BlockBuild) (s : Builder) : Builder :=
  {| bl_blocks := f (bl_blocks s); next_value := next_value s; env := env s; globals := globals s;
     loop_stack := loop_stack s; current := current s |}.

Definition with_env (f : Env -> Env) (s : Builder) : Builder :=
  {| bl_blocks := bl_blocks s; next_value := next_value s; env := f (env s); globals := globals s;
     loop_stack := loop_stack s; current := current s |}.

Definition with_current (id : BlockId) (s : Builder) : Builder :=
  {| bl_blocks := bl_blocks s; next_value := next_value s; env := env s; globals := globals s;
     loop_stack := loop_stack s; current := id |}.

Definition with_loops (l : list LoopFrame) (s : Builder) : Builder :=
  {| bl_blocks := bl_blocks s; next_value := next_value s; env := env s; globals := globals s;
     loop_stack := l; current := current s |}.

(** [self.blocks[id]], written back. *)
Definition update_block (id : BlockId) (f : BlockBuild -> BlockBuild) : Building unit := fun s =>
  match bl_blocks s !! id with
  | Some b => Ok (tt, with_blocks (insert id (f b)) s)
  | None => Err BuildPanics
  end.

Definition empty_block : BlockBuild :=
  {| bb_stmts := []; bb_terminator := None; bb_closed := false |}.

Definition new_block : Building BlockId := fun s =>
  Ok (length (bl_blocks s), with_blocks (fun l => l ++ [empty_block]) s).

Definition alloc_id : Building SsaValueId := fun s =>
  Ok (next_value s,
      {| bl_blocks := bl_blocks s; next_value := next_value s + 1; env := env s;
         globals := globals s; loop_stack := loop_stack s; current := current s |}).

Definition push_stmt (stmt : SsaStatement) (b : BlockBuild) : BlockBuild :=
  {| bb_stmts := bb_stmts b ++ [stmt]; bb_terminator := bb_terminator b; bb_closed := bb_closed b |}.

Definition emit (op : SsaOp) (span : CoreSpan) : Building SsaValue :=
  id <~ alloc_id;
  s <~ build_get;
  _ <~ update_block (current s) (push_stmt {| stmt_id := id; stmt_op := op; stmt_span := span |});
  build_ret (Def id).

Definition is_closed (id : BlockId) : Building bool := fun s =>
  match bl_blocks s !! id with Some b => Ok (bb_closed b, s) | None => Err BuildPanics end.

Definition set_terminator (id : BlockId) (t : Terminator) : Building unit :=
  update_block id (fun b => {| bb_stmts := bb_stmts b; bb_terminator := Some t; bb_closed := true |}).

Definition close_pending (id : BlockId) : Building unit :=
  update_block id (fun b =>
    {| bb_stmts := bb_stmts b; bb_terminator := bb_terminator b; bb_closed := true |}).

(** *** Variables *)

Definition local_value (s : Builder) (name : string) : option SsaValue :=
  if bool_decide (name ∈ globals s) then None else env s !! name.

Definition read_var (name : string) (span : CoreSpan) : Building SsaValue :=
  s <~ build_get;
  match local_value s name with
  | Some value => build_ret value
  | None => emit (LoadGlobal name) span
  end.

Definition write_var (name : string) (value : SsaValue) (span : CoreSpan) : Building unit :=
  s <~ build_get;
  if bool_decide (name ∈ globals s) then _ <~ emit (StoreGlobal name value) span; build_ret tt
  else build_modify (with_env (insert name value)).

Definition resolve_reads (s : Builder) (names : list string) : list (string * SsaValue) :=
  omap (fun name => value ← local_value s name; Some (name, value)) names.

(** *** Opaque constructs *)

Fixpoint reload_vars (vars : list string) (barrier : SsaValue) (span : CoreSpan) : Building unit :=
  match vars with
  | [] => build_ret tt
  | var :: vars =>
      s <~ build_get;
      if bool_decide (var ∈ globals s) then reload_vars vars barrier span
      else
        reload <~ emit (BarrierReload var barrier) span;
        _ <~ build_modify (with_env (insert var reload));
        reload_vars vars barrier span
  end.

Definition reload_after_barrier (writes : gset string) (barrier : SsaValue) (span : CoreSpan)
    : Building unit := reload_vars (ordered writes) barrier span.

Definition convert_opaque_stmt (stmt : CoreStmt) (span : CoreSpan) : Building unit :=
  s <~ build_get;
  barrier <~ emit (OpaqueStmt stmt (resolve_reads s (stmt_read_names stmt))) span;
  reload_after_barrier (stmt_write_names stmt) barrier span.

Definition convert_opaque_expr (e : CoreExpr) : Building SsaValue :=
  s <~ build_get;
  barrier <~ emit (Opaque e (resolve_reads s (expr_read_names e))) (expr_span e);
  _ <~ reload_after_barrier (expr_write_names e) barrier (expr_span e);
  build_ret barrier.

(** *** Type arguments in the names of calls *)

Definition type_arg_is_local (s : Builder) (arg : list char) : bool :=
  match arg with
  | [] => false
  | c :: _ =>
      if forallb (fun c : char => is_ascii_digit c.1) arg then false
      else if existsb (fun c : char => Z.eqb c.1 123) arg then false
      else (is_alphabetic c.1 || Z.eqb c.1 95) &&
        forallb (fun c : char => is_alphanumeric c.1 || Z.eqb c.1 95) arg &&
        bool_decide (is_Some (env s !! text arg))
  end.

(** The arguments between the commas outside of braces; [piece] is read from its
    last character. *)
Fixpoint local_type_arg (s : Builder) (depth : Z) (piece l : list char) : bool :=
  match l with
  | [] => type_arg_is_local s (trim (rev piece))
  | c :: l =>
      if Z.eqb c.1 123 then local_type_arg s (depth + 1) (c :: piece) l
      else if Z.eqb c.1 125 then local_type_arg s (depth - 1) (c :: piece) l
      else if Z.eqb c.1 44 && Z.eqb depth 0 then
        type_arg_is_local s (trim (rev piece)) || local_type_arg s depth [] l
      else local_type_arg s depth (c :: piece) l
  end.

(** [str::find] and [str::rfind] of a character. *)
Fixpoint find_char (code : Z) (l : list char) : option nat :=
  match l with
  | [] => None
  | c :: l => if Z.eqb c.1 code then Some 0 else S <$> find_char code l
  end.

Definition rfind_char (code : Z) (l : list char) : option nat :=
  (fun i => length l - 1 - i) <$> find_char code (rev l).

Definition call_needs_opaque_path (s : Builder) (function : string) : bool :=
  let l := chars function in
  match find_char 123 l, rfind_char 125 l with
  | Some first, Some close =>
      if Nat.leb close first then false
      else
        let type_args := take (close - (first + 1)) (drop (first + 1) l) in
        existsb (fun c : char => Z.eqb c.1 40) type_args || local_type_arg s 0 [] type_args
  | _, _ => false
  end.

(** *** Merging *)

(** [sort_by_key] by block: stable. *)
Fixpoint insert_edge (e : BlockId * Env) (l : list (BlockId * Env)) : list (BlockId * Env) :=
  match l with
  | [] => [e]
  | e' :: l' => if Nat.leb e.1 e'.1 then e :: l else e' :: insert_edge e l'
  end.

Definition sort_edges (l : list (BlockId * Env)) : list (BlockId * Env) := foldr insert_edge [] l.

(** All paths agree on a value. *)
Definition agreed (values : list (option SsaValue)) : option SsaValue :=
  match values with
  | Some first :: rest =>
      if forallb (fun v => match v with Some v => value_eqb v first | None => false end) rest
      then Some first else None
  | _ => None
  end.

Fixpoint merge_vars (incoming : list (BlockId * Env)) (keys : list string) (merged : Env)
    (span : CoreSpan) : Building Env :=
  match keys with
  | [] => build_ret merged
  | key :: keys =>
      let values := map (fun e : BlockId * Env => e.2 !! key) incoming in
      match agreed values with
      | Some first => merge_vars incoming keys (<[key := first]> merged) span
      | None =>
          phi <~ emit (Phi {| edges := map fst incoming; values := values |}) span;
          merge_vars incoming keys (<[key := phi]> merged) span
      end
  end.

Definition env_names (e : Env) : gset string := dom e.

Definition merge_into (join : BlockId) (incoming : list (BlockId * Env)) (fallback_env : Env)
    (span : CoreSpan) : Building unit :=
  let incoming := sort_edges incoming in
  _ <~ build_modify (with_current join);
  match incoming with
  | [] => build_modify (with_env (fun _ => fallback_env))
  | [(_, e)] => build_modify (with_env (fun _ => e))
  | _ =>
      merged <~ merge_vars incoming (ordered (union_map (fun e => env_names e.2) incoming)) ∅ span;
      build_modify (with_env (fun _ => merged))
  end.

(** *** Expressions *)

Definition build_mapM {A B} (f : A -> Building B) : list A -> Building (list B) :=
  fix go l :=
    match l with
    | [] => build_ret []
    | x :: l => y <~ f x; ys <~ go l; build_ret (y :: ys)
    end.

(** Conversion of an arm, in a new block, from the environment of the branch. *)
Definition in_new_block {A} (e : Env) (m : Building A) : Building (BlockId * A) :=
  id <~ new_block;
  _ <~ build_modify (with_current id);
  _ <~ build_modify (with_env (fun _ => e));
  a <~ m;
  build_ret (id, a).

Definition convert_ternary (condition then_expr else_expr : Building SsaValue) (span : CoreSpan)
    : Building SsaValue :=
  condition <~ condition;
  s <~ build_get;
  let cond_block := current s in
  let env_at_branch := env s in
  then_ <~ in_new_block env_at_branch then_expr;
  then_end <~ build_get;
  else_ <~ in_new_block env_at_branch else_expr;
  else_end <~ build_get;
  join <~ new_block;
  _ <~ set_terminator cond_block (Branch condition then_.1 else_.1);
  _ <~ set_terminator (current then_end) (Jump join);
  _ <~ set_terminator (current else_end) (Jump join);
  _ <~ merge_into join [(current then_end, env then_end); (current else_end, env else_end)]
         env_at_branch span;
  if value_eqb then_.2 else_.2 then build_ret then_.2
  else
    emit (Phi {| edges := [current then_end; current else_end];
                 values := [Some then_.2; Some else_.2] |}) span.

Fixpoint convert_expr (e : CoreExpr) : Building SsaValue :=
  match e with
  | Expr_Literal lit _ => build_ret (Const lit)
  | Expr_Var name span => read_var name span
  | Expr_BinaryOp op lhs rhs span =>
      l <~ convert_expr lhs; r <~ convert_expr rhs; emit (Binary op l r) span
  | Expr_UnaryOp op operand span => v <~ convert_expr operand; emit (Unary op v) span
  | Expr_Call function args kwargs splat_mask kwargs_splat_mask span =>
      s <~ build_get;
      if call_needs_opaque_path s function then convert_opaque_expr e
      else
        vs <~ build_mapM convert_expr args;
        us <~ build_mapM (fun kw => u <~ convert_expr kw.2; build_ret (kw.1, u)) kwargs;
        emit (Call None function vs us splat_mask kwargs_splat_mask) span
  | Expr_ModuleCall module function args kwargs splat_mask kwargs_splat_mask span =>
      vs <~ build_mapM convert_expr args;
      us <~ build_mapM (fun kw => u <~ convert_expr kw.2; build_ret (kw.1, u)) kwargs;
      emit (Call (Some module) function vs us splat_mask kwargs_splat_mask) span
  | Expr_Builtin name args span =>
      vs <~ build_mapM convert_expr args; emit (Builtin name vs) span
  | Expr_AssignExpr var value span =>
      v <~ convert_expr value; _ <~ write_var var v span; build_ret v
  | Expr_Ternary condition then_expr else_expr span =>
      convert_ternary (convert_expr condition) (convert_expr then_expr) (convert_expr else_expr) span
  | _ => convert_opaque_expr e
  end.

(** *** Statements *)

(** The end of an arm, if control falls off it. *)
Definition open_end : Building (option (BlockId * Env)) :=
  s <~ build_get;
  closed <~ is_closed (current s);
  build_ret (if closed : bool then None else Some (current s, env s)).

Fixpoint jump_all (join : BlockId) (ends : list (BlockId * Env)) : Building unit :=
  match ends with
  | [] => build_ret tt
  | e :: ends => _ <~ set_terminator e.1 (Jump join); jump_all join ends
  end.

Definition convert_if (condition : Building SsaValue) (then_branch : Building (option SsaValue))
    (else_branch : option (Building (option SsaValue))) (span : CoreSpan) : Building unit :=
  condition <~ condition;
  s <~ build_get;
  let cond_block := current s in
  let env_at_branch := env s in
  then_ <~ in_new_block env_at_branch then_branch;
  then_end <~ open_end;
  else_ <~ match else_branch with
           | Some else_branch =>
               r <~ in_new_block env_at_branch else_branch;
               else_end <~ open_end;
               build_ret (Some r.1, else_end)
           | None => build_ret (None, None)
           end;
  join <~ new_block;
  _ <~ set_terminator cond_block (Branch condition then_.1 (default join else_.1));
  let ends := opt (fun e => [e]) then_end ++ opt (fun e => [e]) else_.2 in
  _ <~ jump_all join ends;
  let start := match else_.1 with None => [(cond_block, env_at_branch)] | Some _ => [] end in
  merge_into join (start ++ ends) env_at_branch span.

(** The phis of a loop header, one for each variable that the loop may rebind. *)
Fixpoint header_phis (header pre_block : BlockId) (pre_env : Env) (vars : list string)
    (span : CoreSpan) : Building unit :=
  match vars with
  | [] => build_ret tt
  | var :: vars =>
      id <~ alloc_id;
      _ <~ update_block header (push_stmt
             {| stmt_id := id; stmt_op := Phi {| edges := [pre_block]; values := [pre_env !! var] |};
                stmt_span := span |});
      _ <~ build_modify (with_env (insert var (Def id)));
      header_phis header pre_block pre_env vars span
  end.

(** The operands for the latches; a statement that is not a phi stays. *)
Definition seal_phi (latches : list (BlockId * Env)) (var : string) (stmt : SsaStatement) : SsaStatement :=
  match stmt_op stmt with
  | Phi phi =>
      {| stmt_id := stmt_id stmt;
         stmt_op := Phi {| edges := edges phi ++ map fst latches;
                           values := values phi ++ map (fun e => e.2 !! var) latches |};
         stmt_span := stmt_span stmt |}
  | _ => stmt
  end.

Fixpoint seal_phis (header : BlockId) (latches : list (BlockId * Env)) (index : nat)
    (vars : list string) : Building unit :=
  match vars with
  | [] => build_ret tt
  | var :: vars =>
      s <~ build_get;
      match bl_blocks s !! header with
      | None => build_err BuildPanics
      | Some b =>
          match bb_stmts b !! index with
          | None => build_err BuildPanics
          | Some stmt =>
              _ <~ update_block header (fun b =>
                     {| bb_stmts := <[index := seal_phi latches var stmt]> (bb_stmts b);
                        bb_terminator := bb_terminator b; bb_closed := bb_closed b |});
              seal_phis header latches (index + 1) vars
          end
      end
  end.

(** The rest of [frame] once the loop is over. *)
Definition pop_loop (span : CoreSpan) : Building LoopFrame := fun s =>
  match loop_stack s with
  | frame :: rest => Ok (frame, with_loops rest s)
  | [] => Err (InternalInvariant "loop frame pushed above (Issue #8550)" span)
  end.

Fixpoint jump_blocks (target : BlockId) (ids : list BlockId) : Building unit :=
  match ids with
  | [] => build_ret tt
  | id :: ids => _ <~ set_terminator id (Jump target); jump_blocks target ids
  end.

Definition convert_while (condition : Building SsaValue) (body : Building (option SsaValue))
    (writes : gset string) (span : CoreSpan) : Building unit :=
  s0 <~ build_get;
  let pre_block := current s0 in
  let pre_env := env s0 in
  header <~ new_block;
  _ <~ set_terminator pre_block (Jump header);
  let assigned := ordered (writes ∖ globals s0) in
  _ <~ build_modify (with_current header);
  _ <~ header_phis header pre_block pre_env assigned span;
  condition <~ condition;
  s <~ build_get;
  let cond_block := current s in
  let env_at_branch := env s in
  body_entry <~ new_block;
  _ <~ build_modify (fun s =>
         with_loops ({| lf_header := header; break_blocks := []; latch_incoming := [];
                        exit_incoming := [] |} :: loop_stack s) s);
  _ <~ build_modify (with_current body_entry);
  _ <~ build_modify (with_env (fun _ => env_at_branch));
  _ <~ body;
  frame <~ pop_loop span;
  last <~ open_end;
  _ <~ jump_all header (opt (fun e => [e]) last);
  _ <~ seal_phis header (sort_edges (latch_incoming frame ++ opt (fun e => [e]) last)) 0 assigned;
  exit <~ new_block;
  _ <~ set_terminator cond_block (Branch condition body_entry exit);
  _ <~ jump_blocks exit (break_blocks frame);
  merge_into exit (exit_incoming frame ++ [(cond_block, env_at_branch)]) env_at_branch span.

(** [loop_stack.last_mut()]. *)
Definition update_loop (construct : string) (span : CoreSpan) (f : LoopFrame -> LoopFrame)
    : Building LoopFrame := fun s =>
  match loop_stack s with
  | frame :: rest => Ok (frame, with_loops (f frame :: rest) s)
  | [] => Err (LoopControlOutsideLoop construct span)
  end.

Definition convert_break (span : CoreSpan) : Building unit :=
  s <~ build_get;
  _ <~ update_loop "break" span (fun frame =>
         {| lf_header := lf_header frame; break_blocks := break_blocks frame ++ [current s];
            latch_incoming := latch_incoming frame;
            exit_incoming := exit_incoming frame ++ [(current s, env s)] |});
  close_pending (current s).

Definition convert_continue (span : CoreSpan) : Building unit :=
  s <~ build_get;
  frame <~ update_loop "continue" span (fun frame =>
         {| lf_header := lf_header frame; break_blocks := break_blocks frame;
            latch_incoming := latch_incoming frame ++ [(current s, env s)];
            exit_incoming := exit_incoming frame |});
  set_terminator (current s) (Jump (lf_header frame)).

(** A statement behind a closed block goes to a new one, without predecessors. *)
Definition reopen : Building unit :=
  s <~ build_get;
  closed <~ is_closed (current s);
  if closed : bool then id <~ new_block; build_modify (with_current id) else build_ret tt.

Definition convert_stmts {A} (f : A -> Building (option SsaValue))
    : option SsaValue -> list A -> Building (option SsaValue) :=
  fix go last_value l :=
    match l with
    | [] => build_ret last_value
    | stmt :: l => _ <~ reopen; v <~ f stmt; go v l
    end.

Fixpoint convert_stmt (stmt : CoreStmt) : Building (option SsaValue) :=
  match stmt with
  | Stmt_Block b => convert_block b
  | Stmt_Assign var value span =>
      match decode_tuple_comprehension_binding var with
      | Some _ => _ <~ convert_opaque_stmt stmt span; build_ret None
      | None => v <~ convert_expr value; _ <~ write_var var v span; build_ret (Some v)
      end
  | Stmt_AddAssign var value span =>
      l <~ read_var var span;
      r <~ convert_expr value;
      sum <~ emit (Binary Add l r) span;
      _ <~ write_var var sum span;
      build_ret (Some sum)
  | Stmt_If condition then_branch else_branch span =>
      _ <~ convert_if (convert_expr condition) (convert_block then_branch)
             (match else_branch with Some b => Some (convert_block b) | None => None end) span;
      build_ret None
  | Stmt_While condition body span =>
      _ <~ convert_while (convert_expr condition) (convert_block body)
             (expr_write_names condition ∪ block_write_names body) span;
      build_ret None
  | Stmt_Break span => _ <~ convert_break span; build_ret None
  | Stmt_Continue span => _ <~ convert_continue span; build_ret None
  | Stmt_Return value _ =>
      v <~ match value with
           | Some value => v <~ convert_expr value; build_ret (Some v)
           | None => build_ret None
           end;
      s <~ build_get;
      _ <~ set_terminator (current s) (Return v);
      build_ret None
  | Stmt_Expr e _ => v <~ convert_expr e; build_ret (Some v)
  | Stmt_Global _ _ | Stmt_Meta _ _ | Stmt_LocalDecl _ _ _ | Stmt_Using _ _ | Stmt_Export _ _
  | Stmt_EnumDef _ _ _ | Stmt_RuntimeNominalDef _ _ _ => build_ret None
  | Stmt_Label _ span => build_err (UnstructuredControlFlow "@label" span)
  | Stmt_Goto _ span => build_err (UnstructuredControlFlow "@goto" span)
  | Stmt_For _ _ _ _ _ _ | Stmt_ForEach _ _ _ _ | Stmt_ForEachTuple _ _ _ _ | Stmt_Try _ _ _ _ _ _
  | Stmt_Timed _ _ | Stmt_Test _ _ _ | Stmt_TestSet _ _ _ | Stmt_TestThrows _ _ _
  | Stmt_IndexAssign _ _ _ _ | Stmt_FieldAssign _ _ _ _ | Stmt_DestructuringAssign _ _ _
  | Stmt_DictAssign _ _ _ _ | Stmt_FunctionDef _ _ | Stmt_EvalFunctionDef _ _ =>
      _ <~ convert_opaque_stmt stmt (stmt_source_span stmt); build_ret None
  end
with convert_block (b : CoreBlock) : Building (option SsaValue) :=
  match b with Block l _ => convert_stmts convert_stmt None l end.

(** *** The function *)

(** A block that was never terminated returns nothing. *)
Definition finished_terminator (b : BlockBuild) : Terminator :=
  default (Return None) (bb_terminator b).

(** [self.preds[succ].push(block.id)] in the order of the blocks; a successor out of
    bounds panics. *)
Definition add_pred (u : BlockId) (preds : list (list BlockId)) (succ : BlockId)
    : result SsaBuildError (list (list BlockId)) :=
  match preds !! succ with
  | Some l => Ok (<[succ := l ++ [u]]> preds)
  | None => Err BuildPanics
  end.

Fixpoint try_foldM {A B} (f : B -> A -> result SsaBuildError B) (b : B) (l : list A)
    : result SsaBuildError B :=
  match l with
  | [] => Ok b
  | x :: l => let? b := f b x in try_foldM f b l
  end.

Definition add_preds (preds : list (list BlockId)) (indexed : nat * BlockBuild)
    : result SsaBuildError (list (list BlockId)) :=
  try_foldM (add_pred indexed.1) preds (targets (finished_terminator indexed.2)).

Definition finish (s : Builder) (name : string) (params : list SsaParam) (entry : BlockId)
    : result SsaBuildError SsaFunction :=
  let? all := try_foldM add_preds (replicate (length (bl_blocks s)) []) (enumerate (bl_blocks s)) in
  Ok {| fn_name := name; fn_params := params; fn_entry := entry;
        fn_blocks := zip_with (fun indexed p =>
          {| blk_id := indexed.1; stmts := bb_stmts indexed.2;
             terminator := finished_terminator indexed.2; preds := p;
             succs := targets (finished_terminator indexed.2) |}) (enumerate (bl_blocks s)) all |}.

(** The parameters in order, the keyword parameters last. *)
Definition all_params (f : CoreFunction) : list SsaParam :=
  map (fun p => {| param_name := typed_name p; param_ty := type_annotation p |}) (func_params f) ++
  map (fun k => {| param_name := kw_name k; param_ty := kw_annotation k |}) (func_kwparams f).

Definition bind_param (e : Env) (indexed : nat * SsaParam) : Env :=
  <[param_name indexed.2 := Argument indexed.1]> e.

Definition start_env (params : list SsaParam) : Env := foldl bind_param ∅ (enumerate params).

Definition start_builder (f : CoreFunction) : Builder :=
  let e := start_env (all_params f) in
  {| bl_blocks := []; next_value := 0; env := e;
     globals := collect_global_decls (func_body f) ∖ dom e;
     loop_stack := []; current := 0 |}.

Definition convert_function (f : CoreFunction) : Building BlockId :=
  entry <~ new_block;
  _ <~ build_modify (with_current entry);
  last_value <~ convert_block (func_body f);
  s <~ build_get;
  closed <~ is_closed (current s);
  _ <~ (if closed : bool then build_ret tt else set_terminator (current s) (Return last_value));
  build_ret entry.

Definition build_function (f : CoreFunction) : result SsaBuildError SsaFunction :=
  let? (entry, s) := convert_function f (start_builder f) in
  finish s (func_name f) (all_params f) entry.
End Build.
