(* ===== verification/BuildSteps.v ===== *)
(** * The graph under construction

    Every block gets a parent when it is made, a block that every path to it passes:
    [anc par d v] says that [d] is [v] or an ancestor of [v].  [graph_ok] is what
    holds of the blocks at every moment: edges respect the tree, what is read is
    defined in an ancestor, and the phis of a block have the predecessors as their
    edges, up to the latches of a loop that is still open. *)

From S2P Require Export SsaBuild.

(** ** The tree *)

Abbreviation Parents := (list (option BlockId)).

Definition parent (par : Parents) (b p : BlockId) : Prop := par !! b = Some (Some p).
Definition anc (par : Parents) (d v : BlockId) : Prop := rtc (parent par) v d.

Lemma anc_refl par v : anc par v v.
Proof. apply rtc_refl. Qed.

Lemma anc_trans par a b c : anc par a b -> anc par b c -> anc par a c.
Proof. intros Ha Hb. unfold anc in *. by etrans. Qed.

Lemma anc_parent par b p : parent par b p -> anc par p b.
Proof. apply rtc_once. Qed.

Lemma parent_fun par b p q : parent par b p -> parent par b q -> p = q.
Proof. unfold parent. congruence. Qed.

Lemma parent_mono par par' b p : par `prefix_of` par' -> parent par b p -> parent par' b p.
Proof. intros [k ->] H. by apply lookup_app_l_Some. Qed.

Lemma anc_mono par par' d v : par `prefix_of` par' -> anc par d v -> anc par' d v.
Proof. intros Hp. apply rtc_subrel. intros x y. by apply parent_mono. Qed.

(** The first step of a chain. *)
Lemma anc_inv par d v p : anc par d v -> d <> v -> parent par v p -> anc par d p.
Proof.
  intros Ha Hne Hp. inversion Ha as [|x y z Hxy Hyz]; subst; [done|].
  by rewrite (parent_fun par v p y Hp Hxy).
Qed.

(** Ancestors are on one line. *)
Lemma anc_line par a b v : anc par a v -> anc par b v -> anc par a b \/ anc par b a.
Proof.
  intros Ha. revert b. induction Ha as [v|v w a Hvw Hwa IH]; intros b Hb; [by right|].
  destruct (decide (b = v)) as [->|Hne].
  - left. by eapply rtc_l.
  - apply IH. by eapply anc_inv.
Qed.

Section Tree.
Variable par : Parents.
Hypothesis Hpar : forall b p, parent par b p -> p < b.

Lemma anc_le d v : anc par d v -> d <= v.
Proof. induction 1 as [|x y z Hxy _ IH]; [done|]. apply Hpar in Hxy. lia. Qed.

(** Two arms of a branch have nothing in common but what is above the branch. *)
Lemma anc_arms c x y a b d :
  parent par x c -> parent par y c -> x < y -> anc par x a -> anc par y b ->
  anc par d a -> anc par d b -> anc par d c.
Proof.
  intros Hx Hy Hlt Hxa Hyb Hda Hdb.
  destruct (anc_line par d x a Hda Hxa) as [H|Hxd].
  { destruct (decide (d = x)) as [->|]; [|by eapply anc_inv].
    destruct (anc_line par x y b Hdb Hyb) as [H'|H']; [|apply anc_le in H'; lia].
    eapply anc_inv; [exact H'|lia|done]. }
  destruct (anc_line par d y b Hdb Hyb) as [H|Hyd].
  { destruct (decide (d = y)) as [->|]; [|by eapply anc_inv].
    assert (anc par x c) as Hxc by (eapply anc_inv; [exact Hxd|lia|exact Hy]).
    apply anc_le in Hxc. pose proof (Hpar _ _ Hx). lia. }
  destruct (anc_line par x y d Hxd Hyd) as [H|H].
  - assert (anc par x c) as Hxc by (eapply anc_inv; [exact H|lia|done]).
    apply anc_le in Hxc. pose proof (Hpar _ _ Hx). lia.
  - apply anc_le in H. lia.
Qed.
End Tree.

(** ** Blocks under construction *)

Section Graph.
Context {C : CoreTypes}.
Variable np : nat.

Abbreviation Blocks := (list BlockBuild).

Definition ids (B : Blocks) (u : BlockId) : list SsaValueId :=
  match B !! u with Some b => map stmt_id (bb_stmts b) | None => [] end.

Definition succs_of (B : Blocks) (u : BlockId) : list BlockId :=
  match B !! u with Some b => targets (finished_terminator b) | None => [] end.

Definition preds_of (B : Blocks) (v : BlockId) : list BlockId :=
  filter (fun u => v ∈ succs_of B u) (seq 0 (length B)).

Definition off (hidden : list BlockId) (l : list BlockId) : list BlockId :=
  filter (fun u => u ∉ hidden) l.

(** [v] can be read at the end of [u]. *)
Definition avail (B : Blocks) (par : Parents) (u : BlockId) (v : SsaValue) : Prop :=
  match v with
  | Const _ => True
  | Argument k => k < np
  | Def x => exists d, x ∈ ids B d /\ anc par d u
  end.

(** [v] can be read in [u] after the statements [before]. *)
Definition operand_at (B : Blocks) (par : Parents) (before : list SsaStatement) (u : BlockId)
    (v : SsaValue) : Prop :=
  match v with
  | Const _ => True
  | Argument k => k < np
  | Def x => x ∈ map stmt_id before \/ exists d, d <> u /\ x ∈ ids B d /\ anc par d u
  end.

Definition env_ok (B : Blocks) (par : Parents) (u : BlockId) (e : gmap string SsaValue) : Prop :=
  forall name v, e !! name = Some v -> avail B par u v.

Record graph_ok (B : Blocks) (par : Parents) (next : nat) (hidden : BlockId -> list BlockId) : Prop := {
  g_length : length par = length B;
  g_parent b p : parent par b p -> p < b;
  g_edge u v : v ∈ succs_of B u -> exists p, parent par v p /\ anc par p u;
  g_nodup u : NoDup (ids B u);
  g_site x d d' : x ∈ ids B d -> x ∈ ids B d' -> d = d';
  g_fresh x u : x ∈ ids B u -> x < next;
  g_operands u b before s after v : B !! u = Some b -> bb_stmts b = before ++ s :: after ->
    v ∈ operands (stmt_op s) -> operand_at B par before u v;
  g_terminator u b v : B !! u = Some b -> v ∈ term_operands (finished_terminator b) ->
    avail B par u v;
  g_prefix u b : B !! u = Some b -> phi_prefix (bb_stmts b);
  g_phi u b s phi : B !! u = Some b -> s ∈ bb_stmts b -> stmt_op s = Phi phi ->
    edges phi = off (hidden u) (preds_of B u) /\ edges phi <> [] /\
    length (values phi) = length (edges phi);
  g_phi_values u b s phi p v : B !! u = Some b -> s ∈ bb_stmts b -> stmt_op s = Phi phi ->
    (p, Some v) ∈ zip (edges phi) (values phi) -> avail B par p v;
  g_open u b : B !! u = Some b -> bb_closed b = false -> bb_terminator b = None
}.

(** *** More blocks and statements *)

Lemma ids_lookup B u b : B !! u = Some b -> ids B u = map stmt_id (bb_stmts b).
Proof. unfold ids. by intros ->. Qed.

Lemma ids_inside B u x : x ∈ ids B u -> u < length B.
Proof.
  unfold ids. destruct (B !! u) eqn:Hu; [|by intros ?%elem_of_nil]. intros _. by eapply lookup_lt_Some.
Qed.

Lemma succs_inside B u v : v ∈ succs_of B u -> u < length B.
Proof.
  unfold succs_of. destruct (B !! u) eqn:Hu; [|by intros ?%elem_of_nil]. intros _. by eapply lookup_lt_Some.
Qed.

Lemma preds_elem B u v : u ∈ preds_of B v <-> v ∈ succs_of B u.
Proof.
  unfold preds_of. rewrite list_elem_of_filter, elem_of_seq. split; [by intros []|].
  intros H. split; [done|]. apply succs_inside in H. lia.
Qed.

Definition ids_grow (B B' : Blocks) : Prop := forall u x, x ∈ ids B u -> x ∈ ids B' u.

Lemma avail_mono B B' par par' u v :
  ids_grow B B' -> par `prefix_of` par' -> avail B par u v -> avail B' par' u v.
Proof.
  intros HB Hp. destruct v as [x|k|lit]; simpl; [|done|done]. intros (d & Hd & Ha).
  exists d. split; [by apply HB|by eapply anc_mono].
Qed.

Lemma operand_mono B B' par par' before u v :
  ids_grow B B' -> par `prefix_of` par' -> operand_at B par before u v -> operand_at B' par' before u v.
Proof.
  intros HB Hp. destruct v as [x|k|lit]; simpl; [|done|done]. intros [H|(d & Hne & Hd & Ha)]; [by left|right].
  exists d. split; [done|]. split; [by apply HB|by eapply anc_mono].
Qed.

Lemma env_mono B B' par par' u e :
  ids_grow B B' -> par `prefix_of` par' -> env_ok B par u e -> env_ok B' par' u e.
Proof. intros HB Hp He name v Hv. eapply avail_mono; [done|done|by eapply He]. Qed.

Lemma avail_down B par u w v : anc par u w -> avail B par u v -> avail B par w v.
Proof.
  intros Hu. destruct v as [x|k|lit]; simpl; [|done|done]. intros (d & Hd & Ha).
  exists d. split; [done|by eapply anc_trans].
Qed.

Lemma env_down B par u w e : anc par u w -> env_ok B par u e -> env_ok B par w e.
Proof. intros Hu He name v Hv. eapply avail_down; [done|by eapply He]. Qed.

(** What can be read at the end of a block can be read after its statements. *)
Lemma avail_operand B par u b v :
  B !! u = Some b -> avail B par u v -> operand_at B par (bb_stmts b) u v.
Proof.
  intros Hu. destruct v as [x|k|lit]; simpl; [|done|done]. intros (d & Hd & Ha).
  destruct (decide (d = u)) as [->|]; [left; by rewrite <- (ids_lookup B u b)|right; by exists d].
Qed.
End Graph.

(** * What the steps of the builder do to the graph

    A new block, a new statement, a terminator, the operands of the latches: each
    keeps [graph_ok]. *)

Section Steps.
Context {C : CoreTypes}.
Variable np : nat.

Abbreviation Blocks := (list BlockBuild).
Abbreviation avail := (avail np).
Abbreviation operand_at := (operand_at np).
Abbreviation graph_ok := (graph_ok np).

(** ** A new block *)

Lemma ids_snoc (B : Blocks) u : ids (B ++ [empty_block]) u = ids B u.
Proof.
  unfold ids. destruct (decide (u < length B)) as [Hu|Hu]; [by rewrite lookup_app_l|].
  rewrite lookup_app_r, (lookup_ge_None_2 B) by lia. by destruct (u - length B) as [|[]].
Qed.

Lemma succs_snoc (B : Blocks) u : succs_of (B ++ [empty_block]) u = succs_of B u.
Proof.
  unfold succs_of. destruct (decide (u < length B)) as [Hu|Hu]; [by rewrite lookup_app_l|].
  rewrite lookup_app_r, (lookup_ge_None_2 B) by lia. by destruct (u - length B) as [|[]].
Qed.

Lemma preds_snoc (B : Blocks) v : preds_of (B ++ [empty_block]) v = preds_of B v.
Proof.
  unfold preds_of. rewrite length_app, seq_app, filter_app. simpl.
  assert (succs_of (B ++ [empty_block]) (length B) = []) as Hn.
  { unfold succs_of. by rewrite lookup_app_r, Nat.sub_diag by lia. }
  rewrite filter_cons_False by (rewrite Hn; apply not_elem_of_nil). rewrite filter_nil, app_nil_r.
  apply list_filter_iff. intros u. by rewrite succs_snoc.
Qed.

Lemma snoc_block (B : Blocks) u b :
  (B ++ [empty_block]) !! u = Some b -> B !! u = Some b \/ u = length B /\ b = empty_block.
Proof. intros [[_ H]|[-> <-]]%lookup_snoc_Some; [by left|by right]. Qed.

Lemma graph_new_block B par next hidden p :
  graph_ok B par next hidden -> p < length B ->
  graph_ok (B ++ [empty_block]) (par ++ [Some p]) next hidden.
Proof.
  intros [H1 H2 H3 H4 H5 H6 H7 H8 H9 H10 H11 H12] Hp.
  assert (par `prefix_of` par ++ [Some p]) as Hpre by by eexists.
  assert (ids_grow B (B ++ [empty_block])) as Hids by (intros u x Hx; by rewrite ids_snoc).
  constructor.
  - rewrite !length_app. simpl. lia.
  - intros b q [[_ Hb]|[-> [= <-]]]%lookup_snoc_Some; [by apply H2|lia].
  - intros u v. rewrite succs_snoc. intros (q & Hq & Ha)%H3. exists q.
    split; [by eapply parent_mono|by eapply anc_mono].
  - intros u. rewrite ids_snoc. apply H4.
  - intros x d d'. rewrite !ids_snoc. apply H5.
  - intros x u. rewrite ids_snoc. apply H6.
  - intros u b before s after v [Hu|[-> ->]]%snoc_block Hl Hv.
    + eapply operand_mono; [done|done|by eapply H7].
    + by destruct before.
  - intros u b v [Hu|[-> ->]]%snoc_block Hv; [|by apply elem_of_nil in Hv].
    eapply avail_mono; [done|done|by eapply H8].
  - intros u b [Hu|[-> ->]]%snoc_block; [by eapply H9|]. by exists [], [].
  - intros u b s phi [Hu|[-> ->]]%snoc_block Hs; [|by apply elem_of_nil in Hs].
    rewrite preds_snoc. by eapply H10.
  - intros u b s phi q v [Hu|[-> ->]]%snoc_block Hs; [|by apply elem_of_nil in Hs].
    intros Hop Hv. eapply avail_mono; [done|done|by eapply H11].
  - intros u b [Hu|[-> ->]]%snoc_block; [by eapply H12|done].
Qed.

(** ** A block changes *)

Lemma ids_insert (B : Blocks) u b b' d :
  B !! u = Some b -> ids (<[u := b']> B) d = if decide (d = u) then map stmt_id (bb_stmts b') else ids B d.
Proof.
  intros Hu. apply lookup_lt_Some in Hu. unfold ids. destruct (decide (d = u)) as [->|Hne].
  - by rewrite list_lookup_insert_eq.
  - by rewrite list_lookup_insert_ne.
Qed.

Lemma succs_insert (B : Blocks) u b b' d :
  B !! u = Some b ->
  succs_of (<[u := b']> B) d = if decide (d = u) then targets (finished_terminator b') else succs_of B d.
Proof.
  intros Hu. apply lookup_lt_Some in Hu. unfold succs_of. destruct (decide (d = u)) as [->|Hne].
  - by rewrite list_lookup_insert_eq.
  - by rewrite list_lookup_insert_ne.
Qed.

Lemma preds_insert_same (B : Blocks) u b b' v :
  B !! u = Some b -> targets (finished_terminator b') = targets (finished_terminator b) ->
  preds_of (<[u := b']> B) v = preds_of B v.
Proof.
  intros Hu Ht. unfold preds_of. rewrite length_insert. apply list_filter_iff. intros w.
  rewrite (succs_insert B u b b' w Hu). case_decide as Hw; [|done]. subst w.
  unfold succs_of. by rewrite Hu, Ht.
Qed.

Lemma insert_block (B : Blocks) u b b' w c :
  B !! u = Some b -> <[u := b']> B !! w = Some c -> w = u /\ c = b' \/ w <> u /\ B !! w = Some c.
Proof.
  intros Hu. apply lookup_lt_Some in Hu. destruct (decide (w = u)) as [->|Hne].
  - rewrite list_lookup_insert_eq by done. intros [= ->]. by left.
  - rewrite list_lookup_insert_ne by done. by right.
Qed.

(** The block [u] changes from [b] to [b']; [k] are its new identifiers. *)
Record change (B B' : Blocks) (par : Parents) (next next' : nat) (hidden hidden' : BlockId -> list BlockId)
    (u : BlockId) (b b' : BlockBuild) (k : list SsaValueId) : Prop := {
  ch_block : B !! u = Some b;
  ch_result : B' = <[u := b']> B;
  ch_ids : map stmt_id (bb_stmts b') = map stmt_id (bb_stmts b) ++ k;
  ch_new : NoDup k;
  ch_fresh x : x ∈ k -> next <= x < next';
  ch_next : next <= next';
  ch_edge v : v ∈ targets (finished_terminator b') -> exists p, parent par v p /\ anc par p u;
  ch_operands before s after v : bb_stmts b' = before ++ s :: after -> v ∈ operands (stmt_op s) ->
    operand_at B' par before u v;
  ch_terminator v : v ∈ term_operands (finished_terminator b') -> avail B par u v;
  ch_prefix : phi_prefix (bb_stmts b');
  ch_phi s phi : s ∈ bb_stmts b' -> stmt_op s = Phi phi ->
    edges phi = off (hidden' u) (preds_of B' u) /\ edges phi <> [] /\
    length (values phi) = length (edges phi);
  ch_phi_values s phi p v : s ∈ bb_stmts b' -> stmt_op s = Phi phi ->
    (p, Some v) ∈ zip (edges phi) (values phi) -> avail B' par p v;
  ch_other w c s phi : w <> u -> B !! w = Some c -> s ∈ bb_stmts c -> stmt_op s = Phi phi ->
    off (hidden' w) (preds_of B' w) = off (hidden w) (preds_of B w);
  ch_open : bb_closed b' = false -> bb_terminator b' = None
}.

Lemma change_ids B B' par next next' hidden hidden' u b b' k :
  change B B' par next next' hidden hidden' u b b' k -> ids_grow B B'.
Proof.
  intros Hc w x. rewrite (ch_result _ _ _ _ _ _ _ _ _ _ _ Hc).
  rewrite (ids_insert B u b b' w (ch_block _ _ _ _ _ _ _ _ _ _ _ Hc)). case_decide as Hw; [|done].
  subst w. rewrite (ch_ids _ _ _ _ _ _ _ _ _ _ _ Hc).
  rewrite (ids_lookup B u b (ch_block _ _ _ _ _ _ _ _ _ _ _ Hc)). intros H. apply elem_of_app. by left.
Qed.

Lemma graph_change B B' par next next' hidden hidden' u b b' k :
  graph_ok B par next hidden -> change B B' par next next' hidden hidden' u b b' k ->
  graph_ok B' par next' hidden'.
Proof.
  intros [H1 H2 H3 H4 H5 H6 H7 H8 H9 H10 H11 H12] Hc. pose proof (change_ids _ _ _ _ _ _ _ _ _ _ _ Hc) as Hg.
  destruct Hc as [Hu -> K1 K2 K3 K4 K5 K6 K7 K8 K9 K10 K11 K12].
  assert (forall x d, x ∈ ids (<[u := b']> B) d -> x ∈ ids B d \/ d = u /\ x ∈ k) as Hids.
  { intros x d. rewrite (ids_insert B u b b' d Hu). case_decide as Hd; [|by left]. subst d.
    rewrite K1. rewrite (ids_lookup B u b Hu). intros [?|?]%elem_of_app; [by left|by right]. }
  assert (forall x d, x ∈ ids B d -> x ∉ k) as Hold by (intros x d Hx%H6 Hk%K3; lia).
  constructor.
  - by rewrite length_insert.
  - done.
  - intros w v. rewrite (succs_insert B u b b' w Hu). case_decide as Hw; [subst w; by apply K5|by apply H3].
  - intros w. rewrite (ids_insert B u b b' w Hu). case_decide as Hw; [|apply H4]. subst w.
    rewrite K1. apply NoDup_app. split_and!; [|intros x Hx|done].
    + rewrite <- (ids_lookup B u b Hu). apply H4.
    + apply (Hold x u). by rewrite (ids_lookup B u b Hu).
  - intros x d d' [Hx|[-> Hx]]%Hids [Hx'|[-> Hx']]%Hids; [by eapply H5| | |done];
      [by destruct (Hold x d Hx)|by destruct (Hold x d' Hx')].
  - intros x d [Hx|[-> Hx]]%Hids; [apply H6 in Hx; lia|by apply K3].
  - intros w c before s after v Hw Hl Hv. destruct (insert_block B u b b' w c Hu Hw) as [[-> ->]|[Hne Hw']].
    + by eapply K6.
    + eapply operand_mono; [done|done|by eapply H7].
  - intros w c v Hw Hv. eapply avail_mono; [done|done|].
    destruct (insert_block B u b b' w c Hu Hw) as [[-> ->]|[Hne Hw']]; [by apply K7|by eapply H8].
  - intros w c Hw. destruct (insert_block B u b b' w c Hu Hw) as [[-> ->]|[Hne Hw']]; [done|by eapply H9].
  - intros w c s phi Hw Hs Hop. destruct (insert_block B u b b' w c Hu Hw) as [[-> ->]|[Hne Hw']];
      [by eapply K9|]. rewrite (K11 w c s phi Hne Hw' Hs Hop). by eapply H10.
  - intros w c s phi p v Hw Hs Hop Hv. destruct (insert_block B u b b' w c Hu Hw) as [[-> ->]|[Hne Hw']].
    + by eapply K10.
    + eapply avail_mono; [done|done|by eapply H11].
  - intros w c Hw. destruct (insert_block B u b b' w c Hu Hw) as [[-> ->]|[Hne Hw']]; [done|by eapply H12].
Qed.
(** ** Statements *)

Lemma snoc_split {A} (l before after : list A) x s :
  l ++ [x] = before ++ s :: after ->
  (before = l /\ s = x /\ after = []) \/ exists k, after = k ++ [x] /\ l = before ++ s :: k.
Proof.
  destruct after as [|y after _] using rev_ind.
  - intros [-> ->]%app_inj_tail. by left.
  - rewrite app_comm_cons, app_assoc. intros [-> ->]%app_inj_tail. right. by exists after.
Qed.

Lemma phi_prefix_snoc l s : phi_prefix l -> is_phi (stmt_op s) = false -> phi_prefix (l ++ [s]).
Proof.
  intros (ps & rest & -> & Hps & Hrest) Hs. exists ps, (rest ++ [s]). rewrite app_assoc.
  split_and!; [done|done|]. apply Forall_app. by split; [|constructor].
Qed.

(** What the statements of a block with one more read. *)
Lemma push_operands B par next hidden u b st before s after v :
  graph_ok B par next hidden -> B !! u = Some b ->
  (forall v, v ∈ operands (stmt_op st) -> avail B par u v) ->
  bb_stmts (push_stmt st b) = before ++ s :: after -> v ∈ operands (stmt_op s) ->
  operand_at B par before u v.
Proof.
  intros Hg Hu Hop. simpl. intros [(-> & -> & _)|(k & -> & Hl)]%snoc_split Hv.
  - eapply avail_operand; [done|]. by apply Hop.
  - by eapply (g_operands _ _ _ _ _ Hg).
Qed.

Lemma push_grow (B : Blocks) u b st : B !! u = Some b -> ids_grow B (<[u := push_stmt st b]> B).
Proof.
  intros Hu w x. rewrite (ids_insert B u b _ w Hu). case_decide as Hw; [|done]. subst w.
  rewrite (ids_lookup B u b Hu). simpl. rewrite map_app. intros H. apply elem_of_app. by left.
Qed.

Definition phis_only (l : list SsaStatement) : Prop := Forall stmt_is_phi l.

(** A phi may be pushed on a block of phis. *)
Definition phi_pushed (B : Blocks) (par : Parents) (hidden : BlockId -> list BlockId) (u : BlockId)
    (b : BlockBuild) (op : SsaOp) : Prop :=
  match op with
  | Phi phi => phis_only (bb_stmts b) /\ edges phi = off (hidden u) (preds_of B u) /\ edges phi <> [] /\
      length (values phi) = length (edges phi) /\
      forall p v, (p, Some v) ∈ zip (edges phi) (values phi) -> avail B par p v
  | _ => True
  end.

Lemma graph_push B par next hidden u b st :
  graph_ok B par next hidden -> B !! u = Some b -> stmt_id st = next ->
  (forall v, v ∈ operands (stmt_op st) -> avail B par u v) -> phi_pushed B par hidden u b (stmt_op st) ->
  graph_ok (<[u := push_stmt st b]> B) par (next + 1) hidden.
Proof.
  intros Hg Hu Hid Hop Hphi.
  assert (forall w, preds_of (<[u := push_stmt st b]> B) w = preds_of B w) as Hpreds
    by (intros w; by apply (preds_insert_same B u b)).
  pose proof (push_grow B u b st Hu) as Hgrow. assert (par `prefix_of` par) as Hpre by done.
  eapply graph_change; [exact Hg|]. eapply (Build_change _ _ _ _ _ _ _ u b _ [next]); try done.
  - simpl. rewrite map_app. simpl. by rewrite Hid.
  - apply NoDup_singleton.
  - intros x ->%list_elem_of_singleton. lia.
  - lia.
  - intros v Hv. apply (g_edge _ _ _ _ _ Hg). unfold succs_of. by rewrite Hu.
  - intros before s after v Hl Hv. eapply operand_mono; [exact Hgrow|exact Hpre|].
    by eapply push_operands.
  - intros v Hv. by apply (g_terminator _ _ _ _ _ Hg u b).
  - simpl. destruct (is_phi (stmt_op st)) eqn:Hp.
    + destruct (stmt_op st) eqn:Hst; try done. destruct Hphi as (Hall & _).
      exists (bb_stmts b ++ [st]), []. rewrite app_nil_r. split_and!; [done| |done].
      apply Forall_app. split; [done|]. constructor; [|done]. unfold stmt_is_phi. by rewrite Hst.
    + apply phi_prefix_snoc; [by eapply (g_prefix _ _ _ _ _ Hg)|done].
  - intros s phi Hs Hsop. rewrite Hpreds. simpl in Hs.
    apply elem_of_app in Hs as [Hs| ->%list_elem_of_singleton]; [by eapply (g_phi _ _ _ _ _ Hg)|].
    rewrite Hsop in Hphi. by destruct Hphi as (_ & H1 & H2 & H3 & _).
  - intros s phi p v Hs Hsop Hv. eapply avail_mono; [exact Hgrow|exact Hpre|]. simpl in Hs.
    apply elem_of_app in Hs as [Hs| ->%list_elem_of_singleton]; [by eapply (g_phi_values _ _ _ _ _ Hg)|].
    rewrite Hsop in Hphi. destruct Hphi as (_ & _ & _ & _ & H). by apply H.
  - intros w c s phi _ _ _ _. by rewrite Hpreds.
  - apply (g_open _ _ _ _ _ Hg u b Hu).
Qed.

(** ** Terminators *)

Definition terminated (t : Terminator) (b : BlockBuild) : BlockBuild :=
  {| bb_stmts := bb_stmts b; bb_terminator := Some t; bb_closed := true |}.

Definition no_phis (B : Blocks) (v : BlockId) : Prop :=
  forall c s, B !! v = Some c -> s ∈ bb_stmts c -> is_phi (stmt_op s) = false.

Lemma no_preds_no_phis B par next hidden v :
  graph_ok B par next hidden -> preds_of B v = [] -> no_phis B v.
Proof.
  intros Hg Hp c s Hc Hs. destruct (stmt_op s) as [phi| | | | | | | | |] eqn:Hop; try done.
  destruct (g_phi _ _ _ _ _ Hg v c s phi Hc Hs Hop) as (He & Hne & _). rewrite Hp in He.
  by rewrite He in Hne.
Qed.

Lemma off_preds_insert (B : Blocks) u b b' v hidden hidden' :
  B !! u = Some b -> targets (finished_terminator b) = [] ->
  (v ∉ targets (finished_terminator b') /\ hidden' = hidden \/
   forall w, w ∈ hidden' <-> w = u \/ w ∈ hidden) ->
  off hidden' (preds_of (<[u := b']> B) v) = off hidden (preds_of B v).
Proof.
  intros Hu Ht Hor. unfold off, preds_of. rewrite length_insert, !list_filter_filter.
  apply list_filter_iff. intros w. rewrite (succs_insert B u b b' w Hu).
  case_decide as Hw; [subst w|].
  - assert (succs_of B u = []) as -> by (unfold succs_of; by rewrite Hu).
    split; [|intros [_ H]; by apply elem_of_nil in H].
    intros [Hn Hv]. destruct Hor as [[Hv' _]|Hh]; [done|]. destruct Hn. apply Hh. by left.
  - destruct Hor as [[_ ->]|Hh]; [done|]. rewrite Hh. split; intros [Hn Hv]; (split; [|done]); tauto.
Qed.

Lemma graph_terminate B par next hidden hidden' u b t :
  graph_ok B par next hidden -> B !! u = Some b -> bb_terminator b = None ->
  (forall v, v ∈ targets t -> exists p, parent par v p /\ anc par p u) ->
  (forall v, v ∈ term_operands t -> avail B par u v) ->
  (forall v, no_phis B v \/ (v ∉ targets t /\ hidden' v = hidden v) \/
     forall w, w ∈ hidden' v <-> w = u \/ w ∈ hidden v) ->
  graph_ok (<[u := terminated t b]> B) par next hidden'.
Proof.
  intros Hg Hu Hn Ht Hop Hor.
  assert (targets (finished_terminator b) = []) as Hnone by (unfold finished_terminator; by rewrite Hn).
  assert (forall w c s phi, B !! w = Some c -> s ∈ bb_stmts c -> stmt_op s = Phi phi ->
    off (hidden' w) (preds_of (<[u := terminated t b]> B) w) = off (hidden w) (preds_of B w)) as Hphi.
  { intros w c s phi Hw Hs Hsop. apply (off_preds_insert B u b); [done|done|].
    destruct (Hor w) as [Hnp|H]; [|exact H]. specialize (Hnp c s Hw Hs). by rewrite Hsop in Hnp. }
  assert (ids_grow B (<[u := terminated t b]> B)) as Hgrow.
  { intros w x. rewrite (ids_insert B u b _ w Hu). case_decide as Hw; [subst w|done].
    by rewrite (ids_lookup B u b Hu). }
  assert (par `prefix_of` par) as Hpre by done.
  eapply graph_change; [exact Hg|]. eapply (Build_change _ _ _ _ _ _ _ u b _ []); try done.
  - simpl. by rewrite app_nil_r.
  - constructor.
  - by intros x ?%elem_of_nil.
  - intros before s after v Hl Hv. eapply operand_mono; [exact Hgrow|exact Hpre|].
    by eapply (g_operands _ _ _ _ _ Hg u b).
  - by eapply (g_prefix _ _ _ _ _ Hg u b).
  - intros s phi Hs Hsop. rewrite (Hphi u b s phi Hu Hs Hsop). by eapply (g_phi _ _ _ _ _ Hg u b).
  - intros s phi p v Hs Hsop Hv. eapply avail_mono; [exact Hgrow|exact Hpre|].
    by eapply (g_phi_values _ _ _ _ _ Hg u b).
  - intros w c s phi _. apply Hphi.
Qed.

Lemma graph_close B par next hidden u b :
  graph_ok B par next hidden -> B !! u = Some b ->
  graph_ok (<[u := {| bb_stmts := bb_stmts b; bb_terminator := bb_terminator b; bb_closed := true |}]> B)
    par next hidden.
Proof.
  intros Hg Hu. set (b' := {| bb_stmts := _ |}).
  assert (forall w, preds_of (<[u := b']> B) w = preds_of B w) as Hpreds
    by (intros w; by apply (preds_insert_same B u b)).
  assert (ids_grow B (<[u := b']> B)) as Hgrow.
  { intros w x. rewrite (ids_insert B u b _ w Hu). case_decide as Hw; [subst w|done].
    by rewrite (ids_lookup B u b Hu). }
  assert (par `prefix_of` par) as Hpre by done.
  eapply graph_change; [exact Hg|]. eapply (Build_change _ _ _ _ _ _ _ u b _ []); try done.
  - simpl. by rewrite app_nil_r.
  - constructor.
  - by intros x ?%elem_of_nil.
  - intros v Hv. apply (g_edge _ _ _ _ _ Hg). unfold succs_of. by rewrite Hu.
  - intros before s after v Hl Hv. eapply operand_mono; [exact Hgrow|exact Hpre|].
    by eapply (g_operands _ _ _ _ _ Hg u b).
  - intros v Hv. by apply (g_terminator _ _ _ _ _ Hg u b).
  - by eapply (g_prefix _ _ _ _ _ Hg u b).
  - intros s phi Hs Hsop. rewrite Hpreds. by eapply (g_phi _ _ _ _ _ Hg u b).
  - intros s phi p v Hs Hsop Hv. eapply avail_mono; [exact Hgrow|exact Hpre|].
    by eapply (g_phi_values _ _ _ _ _ Hg u b).
  - intros w c s phi _ _ _ _. by rewrite Hpreds.
Qed.
End Steps.
