(* ===== verification/BuildInv.v ===== *)
(** * The builder's invariant

    [inv] is what holds of a builder between two steps of the conversion, [grows]
    what a piece of the conversion leaves alone: it appends to the block where it
    starts, makes new blocks below it in the tree, and touches no other block. *)

From S2P Require Export BuildSteps.

(** What a bind that succeeds went through. *)
Lemma bind_Ok {C : CoreTypes} {A B} (m : Building A) (k : A -> Building B) s r :
  build_bind m k s = Ok r -> exists a s1, m s = Ok (a, s1) /\ k a s1 = Ok r.
Proof. unfold build_bind. destruct (m s) as [[a s1]|e]; [|done]. intros H. by exists a, s1. Qed.

Lemma get_Ok {C : CoreTypes} s a s1 : build_get s = Ok (a, s1) -> a = s /\ s1 = s.
Proof. by intros [= -> ->]. Qed.

Lemma modify_Ok {C : CoreTypes} f s a s1 : build_modify f s = Ok (a, s1) -> s1 = f s.
Proof. by intros [= _ <-]. Qed.

Lemma ret_Ok {C : CoreTypes} {A} (x : A) s a s1 : build_ret x s = Ok (a, s1) -> a = x /\ s1 = s.
Proof. by intros [= -> ->]. Qed.

(** Takes a successful run apart. *)
Ltac build_step H :=
  let a := fresh "a" in let s := fresh "s" in let Hm := fresh "Hm" in
  apply bind_Ok in H as (a & s & Hm & H).

(** ** Runs

    [wp m s Q]: run in [s], [m] gives a result for which [Q] holds, or an error that
    the program being compiled has caused: it neither panics nor finds its own
    invariants broken. *)

Section Runs.
Context {C : CoreTypes}.

Definition user_error (e : SsaBuildError) : Prop :=
  match e with
  | UnstructuredControlFlow _ _ | LoopControlOutsideLoop _ _ => True
  | InternalInvariant _ _ | BuildPanics => False
  end.

Definition wp {A} (m : Building A) (s : Builder) (Q : A -> Builder -> Prop) : Prop :=
  match m s with
  | Ok (a, s') => Q a s'
  | Err e => user_error e
  end.

Lemma wp_mono {A} (m : Building A) s (Q Q' : A -> Builder -> Prop) :
  wp m s Q -> (forall a s', m s = Ok (a, s') -> Q a s' -> Q' a s') -> wp m s Q'.
Proof. unfold wp. intros H. destruct (m s) as [[a s']|e]; auto. Qed.

Lemma wp_bind {A B} (m : Building A) (k : A -> Building B) s Q :
  wp m s (fun a s1 => wp (k a) s1 Q) -> wp (build_bind m k) s Q.
Proof. unfold wp, build_bind, try_. by destruct (m s) as [[a s1]|e]. Qed.

Lemma wp_step {A B} (m : Building A) (k : A -> Building B) s a s1 Q :
  m s = Ok (a, s1) -> wp (k a) s1 Q -> wp (build_bind m k) s Q.
Proof. unfold wp, build_bind, try_. by intros ->. Qed.

Lemma wp_ret {A} (a : A) s Q : Q a s -> wp (build_ret a) s Q.
Proof. done. Qed.

Lemma wp_get {A} (k : Builder -> Building A) s Q : wp (k s) s Q -> wp (build_bind build_get k) s Q.
Proof. done. Qed.

Lemma wp_modify {A} f (k : unit -> Building A) s Q :
  wp (k tt) (f s) Q -> wp (build_bind (build_modify f) k) s Q.
Proof. done. Qed.

Lemma wp_new_block {A} (k : BlockId -> Building A) s Q :
  wp (k (length (bl_blocks s))) (with_blocks (fun l => l ++ [empty_block]) s) Q ->
  wp (build_bind new_block k) s Q.
Proof. done. Qed.
End Runs.

Section Inv.
Context {C : CoreTypes} {U : UnicodeTables}.
Variable np : nat.

Abbreviation Blocks := (list BlockBuild).
Abbreviation avail := (avail np).
Abbreviation env_ok := (env_ok np).
Abbreviation graph_ok := (graph_ok np).
Abbreviation B := bl_blocks.

Definition pending (fr : list LoopFrame) (v : BlockId) : list BlockId :=
  fr ≫= fun F => if Nat.eqb (lf_header F) v then map fst (latch_incoming F) else [].

(** Control is in the loop of the frame; its breaks wait for the exit. *)
Record frame_ok (bl : Blocks) (par : Parents) (cur : BlockId) (F : LoopFrame) : Prop := {
  f_header : exists p, parent par (lf_header F) p;
  f_scope : anc par (lf_header F) cur;
  f_breaks : map fst (exit_incoming F) = break_blocks F;
  f_breaks_nodup : NoDup (break_blocks F);
  f_break b e : (b, e) ∈ exit_incoming F -> env_ok bl par b e /\
    exists c, bl !! b = Some c /\ bb_closed c = true /\ bb_terminator c = None;
  f_latches_nodup : NoDup (map fst (latch_incoming F));
  f_latch b e : (b, e) ∈ latch_incoming F -> env_ok bl par b e /\
    exists c, bl !! b = Some c /\ bb_closed c = true /\ bb_terminator c = Some (Jump (lf_header F))
}.

(** Without and with the environment. *)
Record base (par : Parents) (fr : list LoopFrame) (s : Builder) : Prop := {
  i_graph : graph_ok (B s) par (next_value s) (pending fr);
  i_current : current s < length (B s);
  i_frames : Forall (frame_ok (B s) par (current s)) fr
}.

Record inv (par : Parents) (fr : list LoopFrame) (s : Builder) : Prop := {
  i_base : base par fr s;
  i_env : env_ok (B s) par (current s) (env s)
}.

Definition is_open (s : Builder) : Prop :=
  exists b, B s !! current s = Some b /\ bb_closed b = false.

(** ** What stays *)

(** Blocks that are closed keep their terminator. *)
Definition closed_at (bl bl' : Blocks) (u : BlockId) : Prop :=
  forall c, bl !! u = Some c -> bb_closed c = true ->
    exists c', bl' !! u = Some c' /\ bb_closed c' = true /\ bb_terminator c' = bb_terminator c.

Definition closed_same (bl bl' : Blocks) : Prop := forall u, closed_at bl bl' u.

(** The blocks that a frame remembers. *)
Definition waiting (F : LoopFrame) : list BlockId :=
  map fst (exit_incoming F) ++ map fst (latch_incoming F).

Lemma frame_mono bl bl' par par' cur cur' F :
  ids_grow bl bl' -> par `prefix_of` par' -> (forall u, u ∈ waiting F -> closed_at bl bl' u) ->
  anc par' cur cur' -> frame_ok bl par cur F -> frame_ok bl' par' cur' F.
Proof.
  intros Hids Hpar Hcl Hcur [(p & Hp) H2 H3 H4 H5 H6 H7].
  constructor; [exists p; by eapply parent_mono| |done|done| |done|].
  - eapply anc_trans; [by eapply anc_mono|done].
  - intros b e Hb. destruct (H5 b e Hb) as [He (c & Hc & H8 & H9)]. split; [by eapply env_mono|].
    destruct (Hcl b) with c as (c' & Hc' & H8' & H9'); [|done|done|exists c'; split_and!; [done|done|congruence]].
    apply elem_of_app. left. by apply (list_elem_of_fmap_2 fst) in Hb.
  - intros b e Hb. destruct (H7 b e Hb) as [He (c & Hc & H8 & H9)]. split; [by eapply env_mono|].
    destruct (Hcl b) with c as (c' & Hc' & H8' & H9'); [|done|done|exists c'; split_and!; [done|done|congruence]].
    apply elem_of_app. right. by apply (list_elem_of_fmap_2 fst) in Hb.
Qed.

(** Open blocks do not wait. *)
Lemma open_not_waiting bl par cur F u c :
  frame_ok bl par cur F -> bl !! u = Some c -> bb_closed c = false -> u ∉ waiting F.
Proof.
  intros HF Hc Ho [([b e] & -> & Hb)%list_elem_of_fmap|([b e] & -> & Hb)%list_elem_of_fmap]%elem_of_app;
    simpl in *; [destruct (f_break _ _ _ _ HF b e Hb) as [_ (c' & Hc' & H & _)]|
      destruct (f_latch _ _ _ _ HF b e Hb) as [_ (c' & Hc' & H & _)]]; congruence.
Qed.

Lemma closed_snoc (bl : Blocks) b : closed_same bl (bl ++ [b]).
Proof. intros u c Hu Hc. exists c. split_and!; [by apply lookup_app_l_Some|done|done]. Qed.

Lemma closed_insert (bl : Blocks) u b b' :
  bl !! u = Some b ->
  (bb_closed b = true -> bb_closed b' = true /\ bb_terminator b' = bb_terminator b) ->
  closed_same bl (<[u := b']> bl).
Proof.
  intros Hu Hb w c Hw Hc. destruct (decide (w = u)) as [->|Hne].
  - rewrite Hu in Hw. injection Hw as <-. destruct (Hb Hc) as [H1 H2]. exists b'.
    split_and!; [|done|done]. apply list_lookup_insert_eq. by eapply lookup_lt_Some.
  - exists c. by rewrite list_lookup_insert_ne.
Qed.

(** ** Growing *)

Definition frame_grows (cur n : nat) (F F' : LoopFrame) : Prop :=
  lf_header F' = lf_header F /\
  (exists k, break_blocks F' = break_blocks F ++ k /\ forall b, b ∈ k -> b = cur \/ n <= b) /\
  (exists k, map fst (latch_incoming F') = map fst (latch_incoming F) ++ k /\
     forall b, b ∈ k -> b = cur \/ n <= b).

Definition loops_grow (cur n : nat) (l l' : list LoopFrame) : Prop :=
  match l, l' with
  | [], [] => True
  | F :: r, F' :: r' => r' = r /\ frame_grows cur n F F'
  | _, _ => False
  end.

Definition stmts_at (bl : Blocks) (u : BlockId) : list SsaStatement :=
  match bl !! u with Some b => bb_stmts b | None => [] end.

Record grows (par : Parents) (s : Builder) (par' : Parents) (s' : Builder) : Prop := {
  gr_inside : current s < length (B s);
  gr_par : par `prefix_of` par';
  gr_length : length (B s) <= length (B s');
  gr_current : current s' = current s \/ length (B s) <= current s';
  gr_scope : anc par' (current s) (current s');
  gr_region b : length (B s) <= b < length (B s') -> anc par' (current s) b;
  gr_same u : u < length (B s) -> u <> current s -> B s' !! u = B s !! u;
  gr_stmts : exists k, stmts_at (B s') (current s) = stmts_at (B s) (current s) ++ k /\
    Forall (fun st => is_phi (stmt_op st) = false) k;
  gr_closed : closed_same (B s) (B s');
  gr_edges u v : v < length (B s) -> v ∈ succs_of (B s') u ->
    v ∈ succs_of (B s) u \/ v ∈ map lf_header (loop_stack s);
  gr_globals : globals s' = globals s;
  gr_loops : loops_grow (current s) (length (B s)) (loop_stack s) (loop_stack s')
}.

Lemma loops_grow_refl cur n l : loops_grow cur n l l.
Proof.
  destruct l as [|F l]; [done|]. split; [done|]. split_and!; [done|..]; exists []; rewrite app_nil_r;
    by split; [|intros b ?%elem_of_nil].
Qed.

Lemma loops_headers cur n l l' : loops_grow cur n l l' -> map lf_header l' = map lf_header l.
Proof. destruct l, l'; try done. intros [-> [H _]]. simpl. by rewrite H. Qed.

Lemma grows_refl par s : current s < length (B s) -> grows par s par s.
Proof.
  intros Hin. constructor;
    [done|done|done|by left|apply anc_refl|intros b ?; lia|done| | |by left|done|apply loops_grow_refl].
  - exists []. by rewrite app_nil_r.
  - intros u c Hu Hc. by exists c.
Qed.

Lemma closed_trans b1 b2 b3 : closed_same b1 b2 -> closed_same b2 b3 -> closed_same b1 b3.
Proof.
  intros H1 H2 u c Hu Hc. destruct (H1 u c Hu Hc) as (c2 & Hu2 & Hc2 & He2).
  destruct (H2 u c2 Hu2 Hc2) as (c3 & Hu3 & Hc3 & He3). exists c3. split_and!; [done|done|congruence].
Qed.

Lemma grown_list {A} (P Q : A -> Prop) (l l1 l2 : list A) :
  (forall b, Q b -> P b) ->
  (exists k, l1 = l ++ k /\ forall b, b ∈ k -> P b) ->
  (exists k, l2 = l1 ++ k /\ forall b, b ∈ k -> Q b) ->
  exists k, l2 = l ++ k /\ forall b, b ∈ k -> P b.
Proof.
  intros HQ (k1 & -> & H1) (k2 & -> & H2). exists (k1 ++ k2). rewrite app_assoc. split; [done|].
  intros b [?|?]%elem_of_app; [by apply H1|by apply HQ, H2].
Qed.

Lemma loops_grow_trans cur n cur' n' l l1 l2 :
  (cur' = cur \/ n <= cur') -> n <= n' ->
  loops_grow cur n l l1 -> loops_grow cur' n' l1 l2 -> loops_grow cur n l l2.
Proof.
  intros Hcur Hn. destruct l as [|F r], l1 as [|F1 r1], l2 as [|F2 r2]; try done.
  intros [-> (H1 & H2 & H3)] [-> (K1 & K2 & K3)]. split; [done|]. split; [congruence|].
  split; (eapply (grown_list _ (fun b => b = cur' \/ n' <= b)); [|done|done]);
    intros b [->|?]; [destruct Hcur; [by left|by right]|right; lia|destruct Hcur; [by left|by right]|right; lia].
Qed.

(** The loops that the second part is in may be others, if new. *)
Lemma grows_trans_loops par1 s1 par2 s2 fr par3 s3 l :
  grows par1 s1 par2 s2 -> grows par2 (with_loops fr s2) par3 s3 ->
  (forall v, v < length (B s1) -> v ∈ map lf_header fr -> v ∈ map lf_header (loop_stack s1)) ->
  loops_grow (current s1) (length (B s1)) (loop_stack s1) l ->
  grows par1 s1 par3 (with_loops l s3).
Proof.
  intros [H0 H1 H2 H3 H4 H5 H6 H7 H8 He H9 H10] [K0 K1 K2 K3 K4 K5 K6 K7 K8 Ke K9 K10] Hfr Hl.
  simpl in K0, K2, K3, K4, K5, K6, K7, K8, Ke, K9. constructor; simpl.
  - done.
  - by etrans.
  - lia.
  - destruct K3 as [->|]; [done|right; lia].
  - eapply anc_trans; [by eapply anc_mono|done].
  - intros b Hb. destruct (decide (b < length (B s2))) as [Hlt|Hge].
    + eapply anc_mono; [exact K1|]. apply H5. lia.
    + eapply anc_trans; [by eapply anc_mono|]. apply K5. lia.
  - intros u Hu Hne. rewrite K6; [by apply H6|lia|]. destruct H3 as [->|]; [done|lia].
  - destruct H7 as (k1 & Hk1 & Hp1). destruct H3 as [Hc|Hc].
    + rewrite Hc in K7. destruct K7 as (k2 & Hk2 & Hp2). exists (k1 ++ k2).
      rewrite Hk2, Hk1, app_assoc. split; [done|]. by apply Forall_app.
    + exists k1. split; [|done]. rewrite <- Hk1. unfold stmts_at. rewrite K6; [done|lia|lia].
  - by eapply closed_trans.
  - intros u v Hv Hin. apply Ke in Hin as [Hin|Hin]; [by apply He in Hin|right; by apply Hfr|lia].
  - congruence.
  - done.
Qed.

Lemma with_loops_same s : with_loops (loop_stack s) s = s.
Proof. by destruct s. Qed.

Lemma grows_trans par1 s1 par2 s2 par3 s3 :
  grows par1 s1 par2 s2 -> grows par2 s2 par3 s3 -> grows par1 s1 par3 s3.
Proof.
  intros H1 H2. rewrite <- (with_loops_same s3).
  apply (grows_trans_loops par1 s1 par2 s2 (loop_stack s2)); [done|by rewrite with_loops_same| |].
  - intros v _. by rewrite (loops_headers _ _ _ _ (gr_loops _ _ _ _ H1)).
  - eapply loops_grow_trans; [apply (gr_current _ _ _ _ H1)|apply (gr_length _ _ _ _ H1)|
      apply (gr_loops _ _ _ _ H1)|apply (gr_loops _ _ _ _ H2)].
Qed.

Lemma grows_ids par s par' s' : grows par s par' s' -> ids_grow (B s) (B s').
Proof.
  intros Hg u x Hx. pose proof (ids_inside _ _ _ Hx) as Hu.
  destruct (decide (u = current s)) as [->|Hne].
  - destruct (gr_stmts _ _ _ _ Hg) as (k & Hk & _). unfold ids, stmts_at in *.
    destruct (B s !! current s) as [b|]; [|by apply elem_of_nil in Hx].
    destruct (B s' !! current s) as [b'|].
    + rewrite Hk, map_app. apply elem_of_app. by left.
    + symmetry in Hk. apply app_eq_nil in Hk as [Hk _]. by rewrite Hk in Hx.
  - unfold ids in *. by rewrite (gr_same _ _ _ _ Hg u Hu Hne).
Qed.

Lemma avail_old par s par' s' u v :
  grows par s par' s' -> avail (B s) par u v -> avail (B s') par' u v.
Proof. intros Hg. eapply avail_mono; [by eapply grows_ids|apply (gr_par _ _ _ _ Hg)]. Qed.

Lemma avail_grows par s par' s' v :
  grows par s par' s' -> avail (B s) par (current s) v -> avail (B s') par' (current s') v.
Proof.
  intros Hg Hv. eapply avail_down; [apply (gr_scope _ _ _ _ Hg)|]. by eapply avail_old.
Qed.

(** ** Pieces

    [piece need vals m]: where the values [need] are available, [m] keeps the
    invariant, ends in an open block, and the values of its result are available. *)

Definition available (par : Parents) (s : Builder) (l : list SsaValue) : Prop :=
  forall v, v ∈ l -> avail (B s) par (current s) v.

Definition piece {A} (need : list SsaValue) (vals : A -> list SsaValue) (m : Building A) : Prop :=
  forall par s, inv par (loop_stack s) s -> is_open s -> available par s need ->
    wp m s (fun a s' => exists par', inv par' (loop_stack s') s' /\ grows par s par' s' /\ is_open s' /\
      available par' s' (vals a)).

Lemma piece_ret {A} need vals (a : A) : vals a ⊆ need -> piece need vals (build_ret a).
Proof.
  intros Hs par s Hi Ho Hn. apply wp_ret. exists par.
  split_and!; [done|apply grows_refl, (i_current _ _ _ (i_base _ _ _ Hi))|done|]. intros v Hv. by apply Hn, Hs.
Qed.

Lemma piece_bind {A B'} need (vals : A -> list SsaValue) (vals' : B' -> list SsaValue) m k :
  piece need vals m -> (forall a, piece (need ++ vals a) vals' (k a)) ->
  piece need vals' (build_bind m k).
Proof.
  intros Hm Hk par s Hi Ho Hn. apply wp_bind. eapply wp_mono; [by apply Hm|].
  intros a s1 _ (par1 & Hi1 & Hg1 & Ho1 & Hv1).
  eapply wp_mono; [apply (Hk a par1 s1 Hi1 Ho1)|].
  - intros v [Hv|Hv]%elem_of_app; [|by apply Hv1]. eapply avail_grows; [done|by apply Hn].
  - intros b s' _ (par2 & Hi2 & Hg2 & Ho2 & Hv2).
    exists par2. split_and!; [done|by eapply grows_trans|done|done].
Qed.

Lemma piece_weaken {A} need need' (vals vals' : A -> list SsaValue) m :
  need ⊆ need' -> (forall a, vals' a ⊆ vals a) -> piece need vals m -> piece need' vals' m.
Proof.
  intros Hn Hv Hm par s Hi Ho Ha.
  eapply wp_mono; [apply (Hm par s Hi Ho); by intros v Hv'; apply Ha, Hn|].
  intros a s' _ (par' & H1 & H2 & H3 & H4).
  exists par'. split_and!; [done|done|done|]. intros v Hv'. by apply H4, Hv.
Qed.

(** *** Emitting *)

Definition with_blocks_next (bl : Blocks) (n : nat) (s : Builder) : Builder :=
  {| bl_blocks := bl; next_value := n; env := env s; globals := globals s;
     loop_stack := loop_stack s; current := current s |}.

(** The same blocks, with a statement more in the current one. *)
Definition pushed (s : Builder) (b : BlockBuild) (op : SsaOp) (span : CoreSpan) : Builder :=
  with_blocks_next (<[current s := push_stmt {| stmt_id := next_value s; stmt_op := op;
    stmt_span := span |} b]> (B s)) (next_value s + 1) s.

Lemma emit_run op span s b :
  B s !! current s = Some b -> emit op span s = Ok (Def (next_value s), pushed s b op span).
Proof. intros Hb. unfold emit, build_bind, alloc_id, build_get, update_block. simpl. by rewrite Hb. Qed.

Lemma emit_Ok op span s v s' :
  emit op span s = Ok (v, s') -> exists b, B s !! current s = Some b /\ v = Def (next_value s) /\
    s' = pushed s b op span.
Proof.
  destruct (B s !! current s) as [b|] eqn:Hb.
  - rewrite (emit_run op span s b Hb). intros [= <- <-]. by exists b.
  - unfold emit, build_bind, alloc_id, build_get, update_block. simpl. by rewrite Hb.
Qed.

Lemma base_push par fr s b op span :
  base par fr s -> B s !! current s = Some b ->
  (forall v, v ∈ operands op -> avail (B s) par (current s) v) ->
  phi_pushed np (B s) par (pending fr) (current s) b op ->
  base par fr (pushed s b op span) /\
  avail (B (pushed s b op span)) par (current s) (Def (next_value s)) /\
  ids_grow (B s) (B (pushed s b op span)) /\ closed_same (B s) (B (pushed s b op span)).
Proof.
  intros Hi Hb Hop Hphi. pose proof (i_graph _ _ _ Hi) as Hg.
  assert (ids_grow (B s) (B (pushed s b op span))) as Hgrow by by apply push_grow.
  assert (closed_same (B s) (B (pushed s b op span))) as Hcl by by apply (closed_insert (B s) (current s) b).
  split_and!; [constructor| |done|done].
  - by apply (graph_push np (B s) par (next_value s) (pending fr) (current s) b).
  - simpl. rewrite length_insert. apply (i_current _ _ _ Hi).
  - eapply Forall_impl; [apply (i_frames _ _ _ Hi)|]. intros F HF.
    eapply frame_mono; [done|done|intros u _; apply Hcl|apply anc_refl|exact HF].
  - exists (current s). split; [|apply anc_refl]. simpl. rewrite (ids_insert (B s) (current s) b _ _ Hb).
    case_decide; [|done]. simpl. rewrite map_app. apply elem_of_app. right. left.
Qed.

Lemma push_grows par s b op span :
  current s < length (B s) -> B s !! current s = Some b -> is_phi op = false ->
  grows par s par (pushed s b op span).
Proof.
  intros Hc Hb Hp. constructor; simpl; [done|done|by rewrite length_insert|by left|apply anc_refl| | | |
    by apply (closed_insert (B s) (current s) b)| |done|apply loops_grow_refl].
  - intros u. rewrite length_insert. lia.
  - intros u _ Hne. by rewrite list_lookup_insert_ne.
  - eexists [_]. unfold stmts_at. rewrite list_lookup_insert_eq, Hb by done. split; [done|].
    by constructor.
  - intros u v _. rewrite (succs_insert (B s) (current s) b _ u Hb). case_decide as Hu; [|by left].
    subst u. left. unfold succs_of. by rewrite Hb.
Qed.

Lemma piece_emit need op span :
  is_phi op = false -> operands op ⊆ need -> piece need (fun v => [v]) (emit op span).
Proof.
  intros Hp Hsub par s Hi (b & Hb & Hcl) Hn. unfold wp. rewrite (emit_run _ _ _ _ Hb).
  pose proof (i_base _ _ _ Hi) as Hbase.
  exists par. destruct (base_push par (loop_stack s) s b op span Hbase Hb) as (Hi' & Hv & Hids & _).
  - intros v Hv. by apply Hn, Hsub.
  - by destruct op.
  - split_and!; [split; [done|]|by apply push_grows; [apply (i_current _ _ _ Hbase)|..]| |].
    + eapply env_mono; [exact Hids|done|apply (i_env _ _ _ Hi)].
    + eexists. simpl. by rewrite list_lookup_insert_eq by apply (i_current _ _ _ Hbase).
    + by intros v ->%list_elem_of_singleton.
Qed.

(** *** Environments *)

Lemma inv_env par fr s e :
  inv par fr s -> env_ok (B s) par (current s) e -> inv par fr (with_env (fun _ => e) s).
Proof. intros [[H1 H2 H3] _] He. split; [by constructor|done]. Qed.

Lemma grows_env par s e : current s < length (B s) -> grows par s par (with_env (fun _ => e) s).
Proof. intros Hc. by destruct (grows_refl par s Hc). Qed.

Lemma piece_bindvar need name v :
  v ∈ need -> piece need (fun _ => []) (build_modify (with_env (insert name v))).
Proof.
  intros Hv par s Hi Ho Hn. unfold wp. simpl. exists par. split_and!.
  - apply (inv_env par (loop_stack s) s (<[name := v]> (env s)) Hi). intros n x.
    intros [[<- <-]|[_ Hx]]%lookup_insert_Some; [by apply Hn|by eapply (i_env _ _ _ Hi)].
  - apply grows_env, (i_current _ _ _ (i_base _ _ _ Hi)).
  - done.
  - by intros x ?%elem_of_nil.
Qed.

End Inv.
