(* ===== verification/BuildArms.v ===== *)
(** * Merging environments

    Where control joins, the phis have the predecessors as their edges, in order,
    and every name that all paths agree on keeps its value, which is defined above
    the join ([merge_ok]). *)

From S2P Require Export BuildInv.
From stdpp Require Import sorting.

(** ** Sorted edges *)

Section Sorted.
Abbreviation Edges := (list (BlockId * gmap string SsaValue)).

Lemma insert_edge_perm e (l : Edges) : insert_edge e l ≡ₚ e :: l.
Proof.
  induction l as [|x l IH]; simpl; [done|]. destruct (_ <=? _); [done|]. rewrite IH. constructor.
Qed.

Lemma sort_edges_perm (l : Edges) : sort_edges l ≡ₚ l.
Proof. induction l as [|e l IH]; simpl; [done|]. by rewrite insert_edge_perm, IH. Qed.

Lemma insert_edge_sorted e (l : Edges) :
  StronglySorted le (map fst l) -> StronglySorted le (map fst (insert_edge e l)).
Proof.
  induction l as [|x l IH]; simpl; intros Hs; [by repeat constructor|].
  apply StronglySorted_inv in Hs as [Hs Hx].
  destruct (Nat.leb_spec e.1 x.1) as [Hle|Hlt]; simpl.
  - constructor; [by constructor|]. constructor; [done|]. eapply Forall_impl; [exact Hx|]. intros y Hy.
    simpl in Hy. lia.
  - constructor; [by apply IH|]. apply Forall_forall. intros y Hy.
    assert (map fst (insert_edge e l) ≡ₚ e.1 :: map fst l) as Hperm.
    { rewrite <- (map_cons fst e l). apply Permutation_map, insert_edge_perm. }
    rewrite Hperm in Hy. apply elem_of_cons in Hy as [->|Hy]; [lia|]. rewrite Forall_forall in Hx. by apply Hx.
Qed.

Lemma sort_edges_sorted (l : Edges) : StronglySorted le (map fst (sort_edges l)).
Proof. induction l as [|e l IH]; simpl; [constructor|by apply insert_edge_sorted]. Qed.

Lemma sorted_seq n k : StronglySorted le (seq n k).
Proof.
  revert n. induction k as [|k IH]; intros n; simpl; constructor; [apply IH|].
  apply Forall_forall. intros y Hy. apply elem_of_seq in Hy. lia.
Qed.

Lemma sorted_filter (P : nat -> Prop) `{!forall x, Decision (P x)} (l : list nat) :
  StronglySorted le l -> StronglySorted le (filter P l).
Proof.
  induction 1 as [|x l Hs IH Hx]; [constructor|]. rewrite filter_cons. case_decide; [|done].
  constructor; [done|]. apply Forall_forall. intros y [_ Hy]%list_elem_of_filter.
  rewrite Forall_forall in Hx. by apply Hx.
Qed.

Lemma sorted_same (l k : list nat) :
  StronglySorted le l -> StronglySorted le k -> NoDup l -> NoDup k ->
  (forall x, x ∈ l <-> x ∈ k) -> l = k.
Proof.
  intros Hl Hk Hdl Hdk He. eapply (StronglySorted_unique le); [done|done|]. by apply NoDup_Permutation.
Qed.

Context {C : CoreTypes}.

Lemma preds_nodup (bl : list BlockBuild) v : NoDup (preds_of bl v).
Proof. apply NoDup_filter, NoDup_seq. Qed.

Lemma preds_sorted (bl : list BlockBuild) v : StronglySorted le (preds_of bl v).
Proof. apply sorted_filter, sorted_seq. Qed.

(** The edges of a join are its predecessors. *)
Lemma sorted_preds (bl : list BlockBuild) v (l : Edges) :
  NoDup (map fst l) -> (forall u, u ∈ map fst l <-> u ∈ preds_of bl v) ->
  map fst (sort_edges l) = preds_of bl v.
Proof.
  intros Hnd He. assert (map fst (sort_edges l) ≡ₚ map fst l) as Hp
    by apply Permutation_map, sort_edges_perm.
  apply sorted_same; [apply sort_edges_sorted|apply preds_sorted|by rewrite Hp|apply preds_nodup|].
  intros u. by rewrite Hp.
Qed.
End Sorted.

Lemma off_nil l : off [] l = l.
Proof.
  unfold off. induction l as [|x l IH]; [done|].
  by rewrite filter_cons_True, IH by apply not_elem_of_nil.
Qed.

(** ** Joins *)

Section Merge.
Context {C : CoreTypes} {U : UnicodeTables}.
Variable np : nat.

Abbreviation Env := (gmap string SsaValue).
Abbreviation avail := (avail np).
Abbreviation env_ok := (env_ok np).
Abbreviation graph_ok := (graph_ok np).
Abbreviation base := (base np).
Abbreviation B := bl_blocks.

(** The paths that come together at [join]. *)
Record joins (par : Parents) (fr : list LoopFrame) (bl : list BlockBuild) (join : BlockId)
    (incoming : list (BlockId * Env)) : Prop := {
  j_edges : map fst incoming = preds_of bl join;
  j_some : incoming <> [];
  j_shown : pending fr join = [];
  j_env u e : (u, e) ∈ incoming -> env_ok bl par u e;
  j_meet d : (forall u, u ∈ map fst incoming -> anc par d u) -> anc par d join
}.

Lemma joins_push par fr bl u b st join incoming :
  bl !! u = Some b -> joins par fr bl join incoming ->
  joins par fr (<[u := push_stmt st b]> bl) join incoming.
Proof.
  intros Hu [H1 H2 H3 H4 H5]. constructor; [|done|done| |done].
  - rewrite H1. symmetry. by apply (preds_insert_same bl u b).
  - intros w e He. eapply env_mono; [by apply push_grow|done|by eapply H4].
Qed.

Lemma value_eqb_Def v x : value_eqb v (Def x) = true -> v = Def x.
Proof. destruct v; simpl; try done. by intros ->%Nat.eqb_eq. Qed.

(** What all paths agree on is defined above the join. *)
Lemma agreed_avail par fr next bl join incoming key v :
  graph_ok bl par next (pending fr) -> joins par fr bl join incoming ->
  agreed (map (fun e : BlockId * Env => e.2 !! key) incoming) = Some v -> avail bl par join v.
Proof.
  intros Hg Hj Hv. destruct incoming as [|[u e] l] eqn:Hin; [done|]. simpl in Hv.
  destruct (e !! key) as [first|] eqn:He; [|done].
  destruct (forallb _ _) eqn:Hall; [|done]. injection Hv as ->.
  pose proof (j_env _ _ _ _ _ Hj u e ltac:(left) key v He) as Hfirst.
  destruct v as [x|k|lit]; simpl in *; [|done|done]. destruct Hfirst as (d & Hd & Ha).
  exists d. split; [done|]. apply (j_meet _ _ _ _ _ Hj). intros w Hw. simpl in Hw.
  apply elem_of_cons in Hw as [->|Hw]; [done|].
  apply list_elem_of_fmap in Hw as ([w' e'] & -> & Hw). simpl.
  rewrite forallb_forall in Hall. specialize (Hall (e' !! key)).
  destruct (e' !! key) as [v'|] eqn:He'.
  - assert (v' = Def x) as ->.
    { apply value_eqb_Def, Hall, in_map_iff. exists (w', e'). split; [done|by apply list_elem_of_In]. }
    destruct (j_env _ _ _ _ _ Hj w' e' ltac:(by right) key (Def x) He') as (d' & Hd' & Ha').
    by rewrite (g_site _ _ _ _ _ Hg x d d' Hd Hd').
  - discriminate Hall. apply in_map_iff. exists (w', e'). split; [done|by apply list_elem_of_In].
Qed.

(** The builder with other statements in the current block. *)
Record phis_added (s s' : Builder) (b : BlockBuild) (k : list SsaStatement) : Prop := {
  pa_blocks : B s' = <[current s := {| bb_stmts := bb_stmts b ++ k; bb_terminator := bb_terminator b;
                                       bb_closed := bb_closed b |}]> (B s);
  pa_phis : phis_only k;
  pa_current : current s' = current s;
  pa_loops : loop_stack s' = loop_stack s;
  pa_globals : globals s' = globals s
}.

Lemma phis_added_push s b op span s' k :
  B s !! current s = Some b -> is_phi op = true ->
  let st := {| stmt_id := next_value s; stmt_op := op; stmt_span := span |} in
  phis_added (pushed s b op span) s' (push_stmt st b) k ->
  phis_added s s' b (st :: k).
Proof.
  intros Hb Hp st [H1 H2 H3 H4 H5]. constructor; [|by constructor|done|done|done].
  rewrite H1. simpl. rewrite list_insert_insert_eq. by rewrite <- app_assoc.
Qed.

Lemma merge_vars_ok par fr incoming keys merged span s e s' b :
  base par fr s -> B s !! current s = Some b -> phis_only (bb_stmts b) ->
  joins par fr (B s) (current s) incoming -> env_ok (B s) par (current s) merged ->
  merge_vars incoming keys merged span s = Ok (e, s') ->
  exists k, phis_added s s' b k /\ base par fr s' /\ env_ok (B s') par (current s') e /\
    ids_grow (B s) (B s') /\ closed_same (B s) (B s').
Proof.
  revert merged s b. induction keys as [|key keys IH]; intros merged s b Hb Hcur Hph Hj He Hm; simpl in Hm.
  - apply ret_Ok in Hm as [-> ->]. exists []. split_and!; [|done|done|by intros u x|].
    + constructor; [|by constructor|done|done|done]. rewrite app_nil_r.
      rewrite list_insert_id; [done|]. rewrite Hcur. by destruct b.
    + intros u c Hu Hc. by exists c.
  - destruct (agreed _) as [first|] eqn:Ha.
    + eapply IH; [done|done|done|done| |exact Hm]. intros n v [[<- <-]|[_ Hv]]%lookup_insert_Some.
      * by eapply agreed_avail; [apply (i_graph _ _ _ _ Hb)|exact Hj|exact Ha].
      * by eapply He.
    + build_step Hm. apply emit_Ok in Hm0 as (b' & Hb' & -> & ->). rewrite Hcur in Hb'. injection Hb' as <-.
      set (op := Phi _) in *.
      destruct (base_push np par fr s b op span Hb Hcur) as (Hb1 & Hv & Hids & Hcl).
      { by intros v ?%elem_of_nil. }
      { simpl. rewrite (j_shown _ _ _ _ _ Hj). rewrite off_nil.
        split_and!; [done|apply (j_edges _ _ _ _ _ Hj)| |by rewrite !length_map|].
        - pose proof (j_some _ _ _ _ _ Hj). by destruct incoming.
        - intros p v Hpv. apply list_elem_of_lookup in Hpv as [j Hj'].
          apply lookup_zip_Some in Hj' as [H1 H2]. change (map ?f ?l) with (f <$> l) in H1, H2.
          apply list_lookup_fmap_Some in H1 as ([u e'] & Hpu & Hu). simpl in Hpu. subst p.
          apply list_lookup_fmap_Some in H2 as (y & Hy & Hu'). rewrite Hu in Hu'. injection Hu' as <-.
          simpl in Hy. apply (j_env _ _ _ _ _ Hj u e' ltac:(by eapply list_elem_of_lookup_2) key v). done. }
      destruct (IH (<[key := Def (next_value s)]> merged) (pushed s b op span)
        (push_stmt {| stmt_id := next_value s; stmt_op := op; stmt_span := span |} b)) as (k & Hk & H1 & H2 & H3 & H4).
      * done.
      * simpl. apply list_lookup_insert_eq. by eapply lookup_lt_Some.
      * simpl. apply Forall_app. split; [done|]. by constructor.
      * by apply joins_push.
      * intros n v [[<- <-]|[_ Hv']]%lookup_insert_Some; [exact Hv|].
        eapply avail_mono; [exact Hids|done|by eapply He].
      * exact Hm.
      * eexists. split; [exact (phis_added_push s b op span s' k Hcur eq_refl Hk)|]. split_and!; [done|done| |by eapply closed_trans].
        intros u x Hx. by apply H3, Hids.
Qed.

(** Nothing is added when there is nothing to merge. *)
Lemma nothing_added s b e :
  B s !! current s = Some b -> phis_added s (with_env (fun _ => e) s) b [].
Proof.
  intros Hb. constructor; [|by constructor|done|done|done]. rewrite app_nil_r.
  rewrite list_insert_id; [done|]. rewrite Hb. by destruct b.
Qed.

Lemma phis_added_env s s' b k e : phis_added s s' b k -> phis_added s (with_env (fun _ => e) s') b k.
Proof. by intros [H1 H2 H3 H4 H5]. Qed.

(** What comes together at a block that was just made. *)
Record meets (par : Parents) (fr : list LoopFrame) (bl : list BlockBuild) (join : BlockId)
    (incoming : list (BlockId * Env)) (fallback : Env) : Prop := {
  m_nodup : NoDup (map fst incoming);
  m_preds u : u ∈ map fst incoming <-> u ∈ preds_of bl join;
  m_shown : pending fr join = [];
  m_env u e : (u, e) ∈ incoming -> env_ok bl par u e;
  m_meet d : incoming <> [] -> (forall u, u ∈ map fst incoming -> anc par d u) -> anc par d join;
  m_fallback : incoming = [] -> env_ok bl par join fallback
}.

Lemma meets_joins par fr bl join incoming fallback :
  meets par fr bl join incoming fallback -> incoming <> [] -> joins par fr bl join (sort_edges incoming).
Proof.
  intros [H1 H2 H3 H4 H5 _] Hne. pose proof (sort_edges_perm incoming) as Hp. constructor.
  - by apply sorted_preds.
  - intros H. rewrite H in Hp. by apply Permutation_nil in Hp.
  - done.
  - intros u e. rewrite Hp. apply H4.
  - intros d Hd. apply H5; [done|]. intros u Hu. apply Hd.
    assert (map fst (sort_edges incoming) ≡ₚ map fst incoming) as -> by by apply Permutation_map. done.
Qed.

Lemma merge_ok par fr s join incoming fallback span r s' b :
  B s !! join = Some b -> bb_stmts b = [] -> base par fr (with_current join s) ->
  meets par fr (B s) join incoming fallback ->
  merge_into join incoming fallback span s = Ok (r, s') ->
  exists k, phis_added (with_current join s) s' b k /\ inv np par fr s' /\
    ids_grow (B s) (B s') /\ closed_same (B s) (B s').
Proof.
  intros Hb Hnil Hbase Hm Hrun. unfold merge_into in Hrun. build_step Hrun.
  apply modify_Ok in Hm0 as ->. pose proof (sort_edges_perm incoming) as Hp.
  assert (forall e, env_ok (B s) par join e ->
    let s1 := with_env (fun _ => e) (with_current join s) in
    exists k, phis_added (with_current join s) s1 b k /\ inv np par fr s1 /\
      ids_grow (B s) (B s1) /\ closed_same (B s) (B s1)) as Hplain.
  { intros e He s1. exists []. split_and!; [by apply nothing_added| |by intros u x|].
    - split; [|done]. by destruct Hbase; constructor.
    - intros u c Hu Hc. by exists c. }
  destruct (sort_edges incoming) as [|[u e] [|e2 l]] eqn:Hs.
  - apply modify_Ok in Hrun as ->. apply Permutation_nil in Hp. by apply Hplain, (m_fallback _ _ _ _ _ _ Hm).
  - apply modify_Ok in Hrun as ->. apply Permutation_singleton_l in Hp. subst incoming. apply Hplain.
    eapply env_down; [|apply (m_env _ _ _ _ _ _ Hm u); left].
    apply (m_meet _ _ _ _ _ _ Hm); [done|]. intros w ->%list_elem_of_singleton.
    apply anc_refl.
  - apply bind_Ok in Hrun as (e' & s1 & Hm0 & Hrun). apply modify_Ok in Hrun as ->. rewrite <- Hs in Hm0.
    assert (incoming <> []) as Hne by (intros ->; by apply Permutation_nil_r in Hp).
    assert (exists k, phis_added (with_current join s) s1 b k /\ base par fr s1 /\
      env_ok (B s1) par (current s1) e' /\ ids_grow (B s) (B s1) /\ closed_same (B s) (B s1))
      as (k & Hk & H1 & H2 & H3 & H4).
    { eapply (merge_vars_ok par fr _ _ _ _ (with_current join s));
        [exact Hbase|exact Hb|rewrite Hnil; by constructor|by apply meets_joins with fallback| |exact Hm0].
      by intros n v ?. }
    exists k. split; [by apply phis_added_env|]. split; [|by split].
    split; [|done]. by destruct H1; constructor.
Qed.
End Merge.

(** * Branches under construction

    The steps that a conditional, a ternary and a loop are made of: a new block
    below a given one, a terminator for a block that is still open, the merge at
    the end.  [grows] is always seen from where the construct starts. *)

Section Arms.
Context {C : CoreTypes} {U : UnicodeTables}.
Variable np : nat.

Abbreviation Env := (gmap string SsaValue).
Abbreviation avail := (avail np).
Abbreviation env_ok := (env_ok np).
Abbreviation base := (base np).
Abbreviation inv := (inv np).
Abbreviation frame_ok := (frame_ok np).
Abbreviation B := bl_blocks.

(** ** Growing on *)

Lemma grows_with_env par1 s1 par2 s2 f :
  grows par1 s1 par2 s2 -> grows par1 s1 par2 (with_env f s2).
Proof. by intros []. Qed.

Lemma grows_with_current par1 s1 par2 s2 c :
  grows par1 s1 par2 s2 -> c = current s1 \/ length (B s1) <= c -> anc par2 (current s1) c ->
  grows par1 s1 par2 (with_current c s2).
Proof. by intros [] ? ?. Qed.

(** The frames may be changed like this. *)
Lemma grows_with_loops par1 s1 par2 s2 l :
  grows par1 s1 par2 s2 -> loops_grow (current s1) (length (B s1)) (loop_stack s1) l ->
  grows par1 s1 par2 (with_loops l s2).
Proof. by intros [] ?. Qed.

Definition snoc_block_state (s : Builder) : Builder := with_blocks (fun l => l ++ [empty_block]) s.

Lemma grows_new_block par1 s1 par2 s2 p :
  grows par1 s1 par2 s2 -> length par2 = length (B s2) -> anc par2 (current s1) p ->
  grows par1 s1 (par2 ++ [Some p]) (snoc_block_state s2).
Proof.
  intros [H0 H1 H2 H3 H4 H5 H6 H7 H8 H9 H10 H11] Hlen Hp.
  assert (par2 `prefix_of` par2 ++ [Some p]) as Hpre by by eexists.
  constructor; simpl; try done.
  - by etrans.
  - rewrite length_app. lia.
  - by eapply anc_mono.
  - intros b. rewrite length_app. simpl. intros Hb. destruct (decide (b < length (B s2))) as [Hlt|Hge].
    + eapply anc_mono; [exact Hpre|]. apply H5. lia.
    + eapply anc_trans; [by eapply anc_mono|]. apply anc_parent. unfold parent.
      apply lookup_snoc_Some. right. split; [lia|done].
  - intros u Hu Hne. rewrite lookup_app_l by lia. by apply H6.
  - destruct H7 as (k & Hk & Hp'). exists k. split; [|done]. rewrite <- Hk. unfold stmts_at.
    by rewrite lookup_app_l by lia.
  - eapply closed_trans; [exact H8|apply closed_snoc].
  - intros u v. rewrite succs_snoc. apply H9.
Qed.

Lemma succs_terminated (bl : list BlockBuild) u b t w :
  bl !! u = Some b -> succs_of (<[u := terminated t b]> bl) w = if decide (w = u) then targets t else succs_of bl w.
Proof. intros Hu. by rewrite (succs_insert bl u b). Qed.

Lemma ids_terminated (bl : list BlockBuild) u b t :
  bl !! u = Some b -> ids_grow bl (<[u := terminated t b]> bl).
Proof.
  intros Hu w x. rewrite (ids_insert bl u b _ w Hu). case_decide as Hw; [subst w|done].
  by rewrite (ids_lookup bl u b Hu).
Qed.

Definition terminate (u : BlockId) (t : Terminator) (b : BlockBuild) (s : Builder) : Builder :=
  with_blocks (insert u (terminated t b)) s.

Lemma set_terminator_Ok u t s r s' :
  set_terminator u t s = Ok (r, s') -> exists b, B s !! u = Some b /\ s' = terminate u t b s.
Proof.
  unfold set_terminator, update_block. destruct (B s !! u) as [b|]; [|done]. intros [= _ <-]. by exists b.
Qed.

Lemma grows_terminate par1 s1 par2 s2 u t b :
  grows par1 s1 par2 s2 -> u = current s1 /\ bb_closed b = false \/ length (B s1) <= u ->
  B s2 !! u = Some b ->
  (forall v, v ∈ targets t -> v < length (B s1) -> v ∈ map lf_header (loop_stack s1)) ->
  grows par1 s1 par2 (terminate u t b s2).
Proof.
  intros [H0 H1 H2 H3 H4 H5 H6 H7 H8 H9 H10 H11] Hu Hb Ht. constructor; simpl; try done.
  - by rewrite length_insert.
  - intros w. rewrite length_insert. apply H5.
  - intros w Hw Hne. destruct Hu as [[-> _]|Hu]; [|rewrite list_lookup_insert_ne by lia; by apply H6].
    rewrite list_lookup_insert_ne by done. by apply H6.
  - destruct H7 as (k & Hk & Hp). exists k. split; [|done]. rewrite <- Hk. unfold stmts_at.
    destruct (decide (u = current s1)) as [<-|Hne]; [|by rewrite list_lookup_insert_ne].
    rewrite list_lookup_insert_eq, Hb; [done|by eapply lookup_lt_Some].
  - destruct Hu as [[_ Hc]|Hu].
    + eapply closed_trans; [exact H8|]. apply (closed_insert _ _ b); [done|]. by rewrite Hc.
    + intros w c Hw Hc. rewrite list_lookup_insert_ne by (apply lookup_lt_Some in Hw; lia).
      by apply (H8 w c).
  - intros w v Hv. rewrite (succs_terminated _ _ b) by done. case_decide as Hw; [|by apply H9].
    intros Hin. right. by apply Ht.
Qed.

Lemma grows_phis par1 s1 par2 s2 s3 b k :
  grows par1 s1 par2 s2 -> length (B s1) <= current s2 -> B s2 !! current s2 = Some b ->
  phis_added s2 s3 b k -> grows par1 s1 par2 s3.
Proof.
  intros [H0 H1 H2 H3 H4 H5 H6 H7 H8 H9 H10 H11] Hge Hb [K1 K2 K3 K4 K5].
  constructor; rewrite ?K1, ?K3, ?K4; try done.
  - by rewrite length_insert.
  - intros w. rewrite length_insert. apply H5.
  - intros w Hw Hne. rewrite list_lookup_insert_ne by lia. by apply H6.
  - destruct H7 as (l & Hl & Hp). exists l. split; [|done]. rewrite <- Hl. unfold stmts_at.
    rewrite list_lookup_insert_ne by lia. done.
  - eapply closed_trans; [exact H8|]. by apply (closed_insert _ _ b).
  - intros w v Hv. rewrite (succs_insert _ _ b) by done. case_decide as Hw; [|by apply H9].
    subst w. unfold finished_terminator. simpl. intros Hin. apply H9; [done|]. unfold succs_of. by rewrite Hb.
  - congruence.
Qed.

(** ** The invariant goes on *)

Lemma frame_at bl par cur cur' F :
  anc par (lf_header F) cur' -> frame_ok bl par cur F -> frame_ok bl par cur' F.
Proof. by intros Ha []. Qed.

(** The loops that the construct is in. *)
Lemma frames_back par1 s1 par2 s2 p :
  base par1 (loop_stack s1) s1 -> grows par1 s1 par2 s2 -> base par2 (loop_stack s2) s2 ->
  anc par2 (current s1) p -> Forall (frame_ok (B s2) par2 p) (loop_stack s2).
Proof.
  intros [_ _ H1] Hg [_ _ H2] Hp. pose proof (loops_headers _ _ _ _ (gr_loops _ _ _ _ Hg)) as Hh.
  apply Forall_forall. intros F HF. rewrite Forall_forall in H1, H2.
  apply frame_at with (current s2); [|by apply H2].
  assert (lf_header F ∈ map lf_header (loop_stack s1)) as Hin
    by (rewrite <- Hh; by apply list_elem_of_fmap_2).
  apply list_elem_of_fmap in Hin as (F1 & -> & HF1). eapply anc_trans; [|exact Hp].
  eapply anc_mono; [apply (gr_par _ _ _ _ Hg)|]. apply (f_scope _ _ _ _ _ (H1 F1 HF1)).
Qed.

(** A new block below [p], entered with the environment [e]. *)
Definition entered (e : Env) (s : Builder) : Builder :=
  with_env (fun _ => e) (with_current (length (B s)) (snoc_block_state s)).

Lemma frames_new_block bl par p cur fr :
  Forall (frame_ok bl par cur) fr -> anc par cur p -> length par = length bl ->
  Forall (frame_ok (bl ++ [empty_block]) (par ++ [Some p]) (length bl)) fr.
Proof.
  intros Hf Hp Hl. eapply Forall_impl; [exact Hf|]. intros F HF.
  assert (par `prefix_of` par ++ [Some p]) as Hpre by by eexists.
  eapply frame_mono; [|exact Hpre|intros w _; apply closed_snoc| |exact HF].
  - intros u x Hx. by rewrite ids_snoc.
  - eapply anc_trans; [by eapply anc_mono|]. apply anc_parent. unfold parent.
    apply lookup_snoc_Some. right. by split.
Qed.

Lemma enter_new par1 s1 par2 s2 p e :
  base par1 (loop_stack s1) s1 -> grows par1 s1 par2 s2 -> base par2 (loop_stack s2) s2 ->
  anc par2 (current s1) p -> p < length (B s2) -> env_ok (B s2) par2 p e ->
  let par3 := par2 ++ [Some p] in
  let s3 := entered e s2 in
  inv par3 (loop_stack s3) s3 /\ grows par1 s1 par3 s3 /\ is_open s3 /\ parent par3 (current s3) p.
Proof.
  intros Hb1 Hg Hb2 Hp Hlt He par3 s3. pose proof (g_length _ _ _ _ _ (i_graph _ _ _ _ Hb2)) as Hlen.
  assert (par2 `prefix_of` par3) as Hpre by by eexists.
  assert (parent par3 (length (B s2)) p) as Hpar by (unfold parent; apply lookup_snoc_Some; by right).
  split_and!; [split; [constructor|]| | |done].
  - apply graph_new_block; [apply (i_graph _ _ _ _ Hb2)|done].
  - simpl. rewrite length_app. simpl. lia.
  - simpl. apply frames_new_block with p; [apply (frames_back par1 s1 par2 s2 p Hb1 Hg Hb2 Hp)|apply anc_refl|done].
  - simpl. eapply env_down; [by apply anc_parent|].
    eapply env_mono; [|exact Hpre|exact He]. intros u x Hx. by rewrite ids_snoc.
  - apply grows_with_env, grows_with_current; [by apply grows_new_block| |].
    + right. apply (gr_length _ _ _ _ Hg).
    + eapply anc_trans; [by eapply anc_mono|by apply anc_parent].
  - exists empty_block. split; [|done]. simpl. by rewrite lookup_app_r, Nat.sub_diag.
Qed.

(** A terminator that goes to blocks without phis. *)
Lemma base_terminate par fr s u t b :
  base par fr s -> B s !! u = Some b -> bb_terminator b = None ->
  (forall F, F ∈ fr -> u ∉ waiting F) ->
  (forall v, v ∈ targets t -> exists p, parent par v p /\ anc par p u) ->
  (forall v, v ∈ term_operands t -> avail (B s) par u v) ->
  (forall v, v ∈ targets t -> no_phis (B s) v) ->
  base par fr (terminate u t b s).
Proof.
  intros Hbase Hb Hn Hw Ht Hop Hnew. pose proof (i_graph _ _ _ _ Hbase) as Hg. constructor.
  - apply (graph_terminate np (B s) par (next_value s) (pending fr) (pending fr) u b t); try done.
    intros v. destruct (decide (v ∈ targets t)) as [Hv|Hv]; [left; by apply Hnew|right; by left].
  - simpl. rewrite length_insert. apply (i_current _ _ _ _ Hbase).
  - pose proof (i_frames _ _ _ _ Hbase) as Hf. apply Forall_forall. intros F HF.
    rewrite Forall_forall in Hf. eapply frame_mono; [by apply ids_terminated|done| |apply anc_refl|by apply Hf].
    intros w Hin c Hc Hcl. exists c. simpl. rewrite list_lookup_insert_ne; [done|].
    intros <-. by apply (Hw F HF).
Qed.

Lemma open_free par fr s u b F :
  base par fr s -> B s !! u = Some b -> bb_closed b = false -> F ∈ fr -> u ∉ waiting F.
Proof.
  intros Hbase Hb Hc HF. pose proof (i_frames _ _ _ _ Hbase) as Hf. rewrite Forall_forall in Hf.
  by apply (open_not_waiting np (B s) par (current s) F u b); [apply Hf|..].
Qed.

Lemma no_phis_terminate bl u b t v :
  bl !! u = Some b -> no_phis bl v -> no_phis (<[u := terminated t b]> bl) v.
Proof.
  intros Hu Hn c s Hc Hs. destruct (insert_block bl u b _ v c Hu Hc) as [[-> ->]|[_ Hv]];
    [by apply (Hn b s Hu)|by apply (Hn c s Hv)].
Qed.

(** Blocks without predecessors. *)
Definition no_edges (bl : list BlockBuild) (v : BlockId) : Prop := preds_of bl v = [].

Lemma no_edges_spec bl v : no_edges bl v <-> forall u, v ∉ succs_of bl u.
Proof.
  unfold no_edges. split.
  - intros H u Hu. apply preds_elem in Hu. rewrite H in Hu. by apply elem_of_nil in Hu.
  - intros H. destruct (preds_of bl v) as [|u l] eqn:Hp; [done|].
    assert (u ∈ preds_of bl v) as Hin by (rewrite Hp; left). by apply preds_elem, H in Hin.
Qed.

Lemma fresh_no_edges par next hidden bl v :
  graph_ok np bl par next hidden -> length bl <= v -> no_edges bl v.
Proof.
  intros Hg Hv. apply no_edges_spec. intros u Hu. destruct (g_edge _ _ _ _ _ Hg u v Hu) as (p & Hp & _).
  apply lookup_lt_Some in Hp. rewrite (g_length _ _ _ _ _ Hg) in Hp. lia.
Qed.

Lemma no_edges_snoc bl v : no_edges (bl ++ [empty_block]) v <-> no_edges bl v.
Proof. unfold no_edges. by rewrite preds_snoc. Qed.

Lemma no_edges_grows par1 s1 par2 s2 v :
  grows par1 s1 par2 s2 -> v < length (B s1) -> v ∉ map lf_header (loop_stack s1) ->
  no_edges (B s1) v -> no_edges (B s2) v.
Proof.
  intros Hg Hv Hh. rewrite !no_edges_spec. intros Hn u Hu.
  destruct (gr_edges _ _ _ _ Hg u v Hv Hu) as [H|H]; [by apply (Hn u)|done].
Qed.

(** Headers are old blocks. *)
Lemma header_old par fr s F :
  base par fr s -> F ∈ fr -> lf_header F <= current s.
Proof.
  intros Hb HF. apply (anc_le par).
  - apply (g_parent _ _ _ _ _ (i_graph _ _ _ _ Hb)).
  - pose proof (i_frames _ _ _ _ Hb) as Hf. rewrite Forall_forall in Hf. apply (f_scope _ _ _ _ _ (Hf F HF)).
Qed.

Lemma new_not_header par s v :
  base par (loop_stack s) s -> current s < v -> v ∉ map lf_header (loop_stack s).
Proof.
  intros Hb Hv (F & -> & HF)%list_elem_of_fmap. pose proof (header_old par _ s F Hb HF). lia.
Qed.
End Arms.
