(* ===== verification/BuildJoin.v ===== *)
(** * Joins under construction

    How the conversion of a construct ends: the branch of its condition, the jumps
    of the paths to the join, the merge ([join_ok]); and how an arm begins
    ([arm_ok]). *)

From S2P Require Export BuildArms.

Section Join.
Context {C : CoreTypes} {U : UnicodeTables}.
Variable np : nat.

Abbreviation Env := (gmap string SsaValue).
Abbreviation avail := (avail np).
Abbreviation env_ok := (env_ok np).
Abbreviation base := (base np).
Abbreviation inv := (inv np).
Abbreviation frame_ok := (frame_ok np).
Abbreviation B := bl_blocks.

(** ** Arms *)

(** A conversion keeps the invariant; the block where it ends may be closed. *)
Definition conv {A} (post : Parents -> Builder -> A -> Prop) (m : Building A) : Prop :=
  forall par s, inv par (loop_stack s) s -> is_open s ->
    wp m s (fun a s' => exists par', inv par' (loop_stack s') s' /\ grows par s par' s' /\ post par' s' a).

(** What an arm leaves behind: [entry] is its first block, below [cond]; the blocks
    of [s2], where it began, are as they were. *)
Record arm (par1 : Parents) (s1 : Builder) (par2 : Parents) (s2 : Builder) (cond : BlockId)
    (par3 : Parents) (s3 : Builder) (entry : BlockId) : Prop := {
  arm_inv : inv par3 (loop_stack s3) s3;
  arm_grows : grows par1 s1 par3 s3;
  arm_entry : entry = length (B s2);
  arm_inside : entry < length (B s3);
  arm_parent : parent par3 entry cond;
  arm_scope : anc par3 entry (current s3);
  arm_no_edges : no_edges (B s3) entry;
  arm_current : length (B s2) <= current s3;
  arm_old u : u < length (B s2) -> B s3 !! u = B s2 !! u;
  arm_par : par2 `prefix_of` par3;
  arm_ids : ids_grow (B s2) (B s3);
  arm_quiet v : v < length (B s2) -> v ∉ map lf_header (loop_stack s2) -> no_edges (B s2) v ->
    no_edges (B s3) v;
  arm_loops : loops_grow (length (B s2)) (length (B s2)) (loop_stack s2) (loop_stack s3);
  arm_region b : length (B s2) <= b < length (B s3) -> anc par3 entry b
}.

Lemma wp_in_new_block {A D} e (m : Building A) (k : BlockId * A -> Building D) s Q :
  wp m (entered e s) (fun a s' => wp (k (length (B s), a)) s' Q) ->
  wp (build_bind (in_new_block e m) k) s Q.
Proof. intros Hm. apply wp_bind. unfold in_new_block. apply wp_new_block. do 2 apply wp_modify. by apply wp_bind. Qed.

Lemma loops_grow_more cur n cur' n' l l' :
  (cur' = cur \/ n <= cur') -> n <= n' -> loops_grow cur' n' l l' -> loops_grow cur n l l'.
Proof. intros Hc Hn Hl. eapply loops_grow_trans; [exact Hc|exact Hn|apply loops_grow_refl|done]. Qed.

Lemma arm_ok {A} post (m : Building A) par1 s1 par2 s2 cond e :
  conv post m -> base par1 (loop_stack s1) s1 -> grows par1 s1 par2 s2 -> base par2 (loop_stack s2) s2 ->
  anc par2 (current s1) cond -> cond < length (B s2) -> env_ok (B s2) par2 cond e ->
  wp m (entered e s2) (fun a s3 =>
    exists par3, arm par1 s1 par2 s2 cond par3 s3 (length (B s2)) /\ post par3 s3 a).
Proof.
  intros Hm Hb1 Hg Hb2 Hc Hin He.
  destruct (enter_new np par1 s1 par2 s2 cond e Hb1 Hg Hb2 Hc Hin He) as (Hi & Hg2 & Ho & Hpar).
  eapply wp_mono; [exact (Hm _ _ Hi Ho)|].
  intros a s3 _ (par3 & Hi3 & Hg3 & Hpost). exists par3. split; [|done].
  pose proof (gr_par _ _ _ _ Hg3) as Hpre.
  assert (B (entered e s2) = B s2 ++ [empty_block]) as HB by done.
  assert (forall u, u < length (B s2) -> B s3 !! u = B s2 !! u) as Hold.
  { intros u Hu. rewrite (gr_same _ _ _ _ Hg3 u); [by rewrite HB, lookup_app_l| |simpl; lia].
    rewrite HB, length_app. simpl. lia. }
  assert (forall v, v ∉ map lf_header (loop_stack s2) -> v <= length (B s2) -> no_edges (B s2) v ->
    no_edges (B s3) v) as Hquiet.
  { intros v Hv Hle Hn. apply (no_edges_grows _ _ _ _ v Hg3); [|done|by apply no_edges_snoc].
    rewrite HB, length_app. simpl. lia. }
  constructor; [done|by eapply grows_trans|done| | |apply (gr_scope _ _ _ _ Hg3)| | |done| | |by intros; apply Hquiet; [|lia|]| |].
  - pose proof (gr_length _ _ _ _ Hg3) as Hl. rewrite HB, length_app in Hl. simpl in Hl. lia.
  - by eapply parent_mono.
  - apply Hquiet; [|done|].
    + apply (new_not_header np par2); [done|]. apply (i_current _ _ _ _ Hb2).
    + apply (fresh_no_edges np par2 _ _ _ _ (i_graph _ _ _ _ Hb2)). done.
  - destruct (gr_current _ _ _ _ Hg3) as [->|Hge]; [done|]. rewrite HB, length_app in Hge. lia.
  - etrans; [|exact Hpre]. by eexists.
  - intros u x Hx. apply (grows_ids _ _ _ _ Hg3). by rewrite HB, ids_snoc.
  - eapply loops_grow_more; [| |exact (gr_loops _ _ _ _ Hg3)]; [by left|].
    rewrite HB, length_app. lia.
  - intros b Hb. destruct (decide (b = length (B s2))) as [->|Hne]; [apply anc_refl|].
    apply (gr_region _ _ _ _ Hg3). rewrite HB, length_app. simpl. lia.
Qed.

(** ** Jumps *)

Lemma base_new_block par fr s p :
  base par fr s -> p < length (B s) -> base (par ++ [Some p]) fr (snoc_block_state s).
Proof.
  intros [Hg Hc Hf] Hp. constructor; [by apply graph_new_block|simpl; rewrite length_app; lia|].
  eapply Forall_impl; [exact Hf|]. intros F HF.
  eapply frame_mono; [|by eexists|intros w _; apply closed_snoc|apply anc_refl|exact HF].
  intros u x Hx. simpl. by rewrite ids_snoc.
Qed.

Lemma jump_all_blocks target (ends : list (BlockId * Env)) s :
  jump_all target ends s = jump_blocks target (map fst ends) s.
Proof.
  revert s. induction ends as [|e ends IH]; intros s; [done|]. simpl. unfold build_bind.
  destruct (set_terminator e.1 (Jump target) s) as [[a s1]|err]; [apply IH|done].
Qed.

(** A block that may jump to [target]. *)
Record free (par : Parents) (fr : list LoopFrame) (s : Builder) (target u : BlockId) : Prop := {
  fr_block : exists b, B s !! u = Some b /\ bb_terminator b = None;
  fr_waiting F : F ∈ fr -> u ∉ waiting F;
  fr_edge : exists p, parent par target p /\ anc par p u
}.

(** What jumps change. *)
Record jumped (s s' : Builder) (us : list BlockId) (target : BlockId) : Prop := {
  ju_same u : u ∉ us -> B s' !! u = B s !! u;
  ju_length : length (B s') = length (B s);
  ju_ids : ids_grow (B s) (B s');
  ju_edges w v : v ∈ succs_of (B s') w <-> (w ∈ us /\ v = target) \/ (w ∉ us /\ v ∈ succs_of (B s) w);
  ju_current : current s' = current s;
  ju_loops : loop_stack s' = loop_stack s;
  ju_env : env s' = env s
}.

Lemma jumped_step s u target b s' us :
  B s !! u = Some b -> u ∉ us -> jumped (terminate u (Jump target) b s) s' us target ->
  jumped s s' (u :: us) target.
Proof.
  intros Hb Hu [H1 H2 H3 H4 H5 H6 H7].
  constructor; [| | | |done..].
  - intros w Hw. rewrite H1 by set_solver. simpl. rewrite list_lookup_insert_ne by set_solver. done.
  - rewrite H2. simpl. by rewrite length_insert.
  - intros w x Hx. apply H3. by apply (ids_terminated (B s) u b (Jump target) Hb).
  - intros w v. rewrite H4. simpl. rewrite (succs_terminated (B s) u b (Jump target) w Hb).
    case_decide as Hw; [subst w|]; simpl; set_solver.
Qed.

Lemma jumps_ok par0 s0 par fr us target s r s' :
  base par fr s -> grows par0 s0 par s -> NoDup us -> no_phis (B s) target ->
  length (B s0) <= target -> (forall u, u ∈ us -> length (B s0) <= u /\ free par fr s target u) ->
  jump_blocks target us s = Ok (r, s') ->
  base par fr s' /\ grows par0 s0 par s' /\ jumped s s' us target.
Proof.
  intros Hb Hg Hnd Hnp Ht. revert s Hb Hg Hnp.
  induction Hnd as [|u us Hu Hnd IH]; intros s Hb Hg Hnp Hus Hrun; simpl in Hrun.
  - apply ret_Ok in Hrun as [_ ->]. split_and!; [done|done|]. constructor; try done; [by intros w x|].
    intros w v. set_solver.
  - build_step Hrun. apply set_terminator_Ok in Hm as (b & Hu1 & ->).
    destruct (Hus u) as [Hge [(b' & Hb' & Hn) Hw He]]; [left|]. rewrite Hu1 in Hb'. injection Hb' as <-.
    destruct (IH (terminate u (Jump target) b s)) as (H1 & H2 & H3).
    + apply base_terminate; try done.
      * by intros v ->%list_elem_of_singleton.
      * by intros v ?%elem_of_nil.
      * by intros v ->%list_elem_of_singleton.
    + apply grows_terminate; [done|by right|done|]. intros v ->%list_elem_of_singleton. lia.
    + by apply no_phis_terminate.
    + intros w Hw'. destruct (Hus w) as [Hge' [(c & Hc & Hcn) Hcw Hce]]; [by right|]. split; [done|].
      constructor; [|done|done]. exists c. split; [|done]. simpl.
      rewrite list_lookup_insert_ne; [done|]. by intros <-.
    + done.
    + split_and!; [done|done|by eapply jumped_step].
Qed.
(** ** The join *)

(** The construct began in [s0], its condition ended in [cond]; the new block will
    have the parent [p]. *)
Record joining (par0 : Parents) (s0 : Builder) (par : Parents) (s : Builder) (cond : BlockId)
    (c : SsaValue) (t f p : BlockId) (ends : list BlockId) (incoming : list (BlockId * Env))
    (fallback : Env) : Prop := {
  jo_start : base par0 (loop_stack s0) s0;
  jo_base : base par (loop_stack s) s;
  jo_grows : grows par0 s0 par s;
  jo_open : exists b, B s !! cond = Some b /\ bb_closed b = false;
  jo_cond : cond = current s0 \/ length (B s0) <= cond;
  jo_value : avail (B s) par cond c;
  jo_target v : v ∈ [t; f] ->
    v = length (B s) \/ parent par v cond /\ no_edges (B s) v /\ length (B s0) <= v < length (B s);
  jo_nodup : NoDup ends;
  jo_end u : u ∈ ends -> length (B s0) <= u /\ u <> cond /\ anc par p u /\
    (exists b, B s !! u = Some b /\ bb_terminator b = None) /\ forall F, F ∈ loop_stack s -> u ∉ waiting F;
  jo_p : anc par (current s0) p /\ p < length (B s);
  jo_branch : length (B s) ∈ [t; f] -> anc par p cond;
  jo_incoming u : u ∈ map fst incoming <-> u ∈ ends \/ u = cond /\ length (B s) ∈ [t; f];
  jo_incoming_nodup : NoDup (map fst incoming);
  jo_env u e : (u, e) ∈ incoming -> env_ok (B s) par u e;
  jo_meet d : incoming <> [] -> (forall u, u ∈ map fst incoming -> anc par d u) -> anc par d p;
  jo_fallback : env_ok (B s) par p fallback
}.

(** What is true at the join. *)
Record joined (par0 : Parents) (s0 : Builder) (par : Parents) (s : Builder)
    (incoming : list (BlockId * Env)) (par' : Parents) (s' : Builder) : Prop := {
  jd_inv : inv par' (loop_stack s') s';
  jd_grows : grows par0 s0 par' s';
  jd_ids : ids_grow (B s) (B s');
  jd_par : par `prefix_of` par';
  jd_block : exists b, B s' !! current s' = Some b /\ bb_closed b = false /\ phis_only (bb_stmts b);
  jd_preds : preds_of (B s') (current s') = map fst (sort_edges incoming);
  jd_shown : pending (loop_stack s') (current s') = [];
  jd_meet d : incoming <> [] -> (forall u, u ∈ map fst incoming -> anc par' d u) -> anc par' d (current s');
  jd_loops : loop_stack s' = loop_stack s
}.

(** Chains of old blocks are old. *)
Lemma anc_back par par' d u :
  (forall b q, parent par' b q -> q < b) -> par `prefix_of` par' -> u < length par ->
  anc par' d u -> anc par d u.
Proof.
  intros Hlt [k ->] Hu Ha. revert Hu. induction Ha as [u|u w d Huw _ IH]; intros Hu; [apply anc_refl|].
  pose proof (Hlt _ _ Huw). unfold parent in Huw. rewrite lookup_app_l in Huw by done.
  eapply anc_trans; [apply IH; lia|by apply anc_parent].
Qed.

Lemma arms_targets v c t f : v ∈ targets (Branch c t f) <-> v ∈ [t; f].
Proof. simpl. destruct (Nat.eqb_spec t f) as [->|]; set_solver. Qed.

(** The branch to a new block. *)
Lemma branch_ok par0 s0 par s cond c t f p ends incoming fallback r s' :
  joining par0 s0 par s cond c t f p ends incoming fallback ->
  set_terminator cond (Branch c t f) (snoc_block_state s) = Ok (r, s') ->
  exists b, B s !! cond = Some b /\ s' = terminate cond (Branch c t f) b (snoc_block_state s) /\
    base (par ++ [Some p]) (loop_stack s) s' /\ grows par0 s0 (par ++ [Some p]) s'.
Proof.
  intros [H0 Hb Hg (b & Hcb & Hcl) Hc Hv Ht _ _ [Hp Hlt] Hbr _ _ _ _ _] Hrun.
  apply set_terminator_Ok in Hrun as (b' & Hb' & ->). exists b.
  assert (cond < length (B s)) as Hin by by eapply lookup_lt_Some.
  assert (b' = b) as ->. { simpl in Hb'. rewrite lookup_app_l in Hb' by done. congruence. }
  pose proof (base_new_block par _ s p Hb Hlt) as Hb1. pose proof (i_graph _ _ _ _ Hb) as HG.
  pose proof (g_length _ _ _ _ _ HG) as Hlen.
  assert (par `prefix_of` par ++ [Some p]) as Hpre by by eexists.
  split_and!; [done|done| |].
  - apply base_terminate; [done|done|by apply (g_open _ _ _ _ _ HG cond)| | | |].
    + intros F HF. by apply (open_free np par _ s cond b F Hb).
    + intros v Hv'%arms_targets. destruct (Ht v Hv') as [->|(H1 & _ & _)].
      * exists p. split; [unfold parent; by rewrite <- Hlen, lookup_app_r, Nat.sub_diag|].
        eapply anc_mono; [exact Hpre|]. by apply Hbr.
      * exists cond. split; [by eapply parent_mono|apply anc_refl].
    + intros v ->%list_elem_of_singleton. eapply avail_mono; [|exact Hpre|exact Hv].
      intros u x Hx. simpl. by rewrite ids_snoc.
    + intros v Hv'%arms_targets. apply (no_preds_no_phis np _ _ _ _ _ (i_graph _ _ _ _ Hb1)). apply no_edges_snoc.
      destruct (Ht v Hv') as [->|(_ & H2 & _)]; [|done]. by eapply fresh_no_edges.
  - apply grows_terminate; [by apply grows_new_block| |done|].
    + destruct Hc as [->|Hc]; [by left|by right].
    + intros v Hv'%arms_targets Hlt'. pose proof (gr_length _ _ _ _ Hg).
      destruct (Ht v Hv') as [->|(_ & _ & Hv2)]; lia.
Qed.

Lemma empty_no_phis (bl : list BlockBuild) u b : bl !! u = Some b -> bb_stmts b = [] -> no_phis bl u.
Proof. intros Hu Hn c s Hc. rewrite Hu in Hc. injection Hc as <-. rewrite Hn. by intros ?%elem_of_nil. Qed.

(** Nothing waits for a block that is new. *)
Lemma pending_new par fr s v : base par fr s -> length (B s) <= v -> pending fr v = [].
Proof.
  intros Hb Hv. unfold pending. apply list_nil_subseteq. intros w (F & Hw & HF)%list_elem_of_bind.
  destruct (Nat.eqb_spec (lf_header F) v) as [Heq|]; [|by apply elem_of_nil in Hw].
  pose proof (header_old np par _ s F Hb HF). pose proof (i_current _ _ _ _ Hb). lia.
Qed.

Lemma join_ok par0 s0 par s cond c t f p ends incoming fallback span r1 s1 r2 s2 r3 s3 :
  joining par0 s0 par s cond c t f p ends incoming fallback ->
  set_terminator cond (Branch c t f) (snoc_block_state s) = Ok (r1, s1) ->
  jump_blocks (length (B s)) ends s1 = Ok (r2, s2) ->
  merge_into (length (B s)) incoming fallback span s2 = Ok (r3, s3) ->
  joined par0 s0 par s incoming (par ++ [Some p]) s3 /\ current s3 = length (B s).
Proof.
  intros Hj Hrun1 Hrun2 Hrun3. destruct (branch_ok _ _ _ _ _ _ _ _ _ _ _ _ _ _ Hj Hrun1)
    as (b & Hcb & -> & Hb1 & Hg1). clear Hrun1.
  destruct Hj as [H0 Hb Hg Ho Hc Hv Ht Hnd Hend [Hp Hlt] Hbr Hinc Hincnd Henv Hmeet Hfall].
  set (join := length (B s)) in *. set (s1 := terminate _ _ _ _) in *. set (par' := par ++ [Some p]) in *.
  assert (par `prefix_of` par') as Hpre by by eexists.
  pose proof (g_length _ _ _ _ _ (i_graph _ _ _ _ Hb)) as Hlen.
  assert (parent par' join p) as Hjp by (unfold parent, par', join; by rewrite <- Hlen, lookup_app_r, Nat.sub_diag).
  assert (cond < join) as Hcin by by eapply lookup_lt_Some.
  assert (B s1 !! join = Some empty_block) as Hjb.
  { simpl. rewrite list_lookup_insert_ne by lia. by rewrite lookup_app_r, Nat.sub_diag. }
  pose proof (gr_length _ _ _ _ Hg) as Hle.
  destruct (jumps_ok par0 s0 par' (loop_stack s) ends join s1 r2 s2) as (Hb2 & Hg2 & Hju);
    [done|done|done|by eapply empty_no_phis|done| |done|].
  { intros u Hu. destruct (Hend u Hu) as (K1 & K2 & K3 & (b' & K4 & K5) & K6). split; [done|].
    constructor; [|done|exists p; split; [done|by eapply anc_mono]].
    exists b'. split; [|done]. simpl. rewrite list_lookup_insert_ne by done. by apply lookup_app_l_Some. }
  assert (loop_stack s2 = loop_stack s) as Hls by by rewrite (ju_loops _ _ _ _ Hju).
  assert (join ∉ ends) as Hjn.
  { intros Hin. destruct (Hend join Hin) as (_ & _ & _ & (b' & K4 & _) & _).
    apply lookup_lt_Some in K4. unfold join in K4. lia. }
  assert (ids_grow (B s) (B s2)) as Hids.
  { intros u x Hx. apply (ju_ids _ _ _ _ Hju). apply ids_terminated; [by apply lookup_app_l_Some|].
    simpl. by rewrite ids_snoc. }
  assert (B s2 !! join = Some empty_block) as Hjb2 by by rewrite (ju_same _ _ _ _ Hju).
  assert (pending (loop_stack s) join = []) as Hshown
    by (eapply pending_new; [exact Hb|done]).
  assert (forall u, u ∈ preds_of (B s2) join <-> u ∈ map fst incoming) as Hpreds.
  { intros u. rewrite Hinc, preds_elem, (ju_edges _ _ _ _ Hju). simpl.
    rewrite (succs_terminated _ cond b) by by apply lookup_app_l_Some. rewrite succs_snoc.
    pose proof (fresh_no_edges np par _ _ _ join (i_graph _ _ _ _ Hb) (Nat.le_refl _)) as Hfresh.
    rewrite no_edges_spec in Hfresh. specialize (Hfresh u).
    assert (cond ∉ ends) as Hcn by (intros Hin; by destruct (Hend cond Hin) as (_ & ? & _)).
    case_decide as Hu; [subst u; rewrite arms_targets|]; intuition congruence. }
  assert (forall d, incoming <> [] -> (forall u, u ∈ map fst incoming -> anc par' d u) ->
    anc par' d join) as Hmeet'.
  { intros d Hne Hd. eapply anc_trans; [|by apply anc_parent].
    eapply anc_mono; [exact Hpre|]. apply Hmeet; [done|]. intros u Hu.
    eapply anc_back; [apply (g_parent _ _ _ _ _ (i_graph _ _ _ _ Hb2))|exact Hpre| |by apply Hd].
    rewrite Hlen. apply Hinc in Hu as [Hu|[-> _]]; [|done].
    destruct (Hend u Hu) as (_ & _ & _ & (b' & Hb' & _) & _). by eapply lookup_lt_Some. }
  destruct (merge_ok np par' (loop_stack s2) s2 join incoming fallback span r3 s3 empty_block)
    as (k & Hk & Hi & Hids3 & Hcl3); [done|done| | |done|].
  - rewrite Hls. constructor; [apply (i_graph _ _ _ _ Hb2)| |].
    + simpl. by eapply lookup_lt_Some.
    + simpl. rewrite <- Hls. apply (frames_back np par0 s0 par' s2 join H0 Hg2); [by rewrite Hls|].
      eapply anc_trans; [by eapply anc_mono|by apply anc_parent].
  - constructor; [done|intros u; by rewrite Hpreds|by rewrite Hls| | |].
    + intros u e He. eapply env_mono; [exact Hids|exact Hpre|by apply Henv].
    + done.
    + intros _. eapply env_down; [by apply anc_parent|]. by eapply env_mono.
  - assert (current s3 = join) as Hcur by by rewrite (pa_current _ _ _ _ Hk).
    assert (loop_stack s3 = loop_stack s) as Hls3 by by rewrite (pa_loops _ _ _ _ Hk).
    split; [constructor|done]; rewrite ?Hcur, ?Hls3.
    + by rewrite <- Hls.
    + apply (grows_phis par0 s0 par' (with_current join s2) s3 empty_block k);
        [|simpl; unfold join; lia|done|done].
      apply grows_with_current; [done|right; unfold join; lia|].
      eapply anc_trans; [by eapply anc_mono|by apply anc_parent].
    + intros u x Hx. by apply Hids3, Hids.
    + done.
    + rewrite (pa_blocks _ _ _ _ Hk). simpl. rewrite list_lookup_insert_eq by by eapply lookup_lt_Some.
      eexists. split_and!; [done|done|]. apply (pa_phis _ _ _ _ Hk).
    + rewrite (pa_blocks _ _ _ _ Hk). simpl. rewrite (preds_insert_same _ join empty_block) by done.
      symmetry. apply sorted_preds; [done|]. intros u. by rewrite Hpreds.
    + done.
    + done.
    + done.
Qed.
(** ** The steps succeed *)

Lemma set_terminator_run u t s b :
  B s !! u = Some b -> set_terminator u t s = Ok (tt, terminate u t b s).
Proof. intros Hb. unfold set_terminator, update_block. by rewrite Hb. Qed.

Lemma jump_blocks_run target us s :
  (forall u, u ∈ us -> u < length (B s)) ->
  exists s', jump_blocks target us s = Ok (tt, s') /\ length (B s') = length (B s).
Proof.
  revert s. induction us as [|u us IH]; intros s Hus; simpl; [by eexists|].
  destruct (lookup_lt_is_Some_2 (B s) u) as [b Hb]; [apply Hus; left|].
  unfold build_bind. rewrite (set_terminator_run u _ s b Hb). unfold try_.
  destruct (IH (terminate u (Jump target) b s)) as (s' & Hs' & Hl).
  - intros w Hw. simpl. rewrite length_insert. apply Hus. by right.
  - exists s'. split; [done|]. rewrite Hl. simpl. by rewrite length_insert.
Qed.

Lemma merge_vars_run incoming keys merged span s :
  current s < length (B s) -> exists e s', merge_vars incoming keys merged span s = Ok (e, s').
Proof.
  revert merged s. induction keys as [|key keys IH]; intros merged s Hc; simpl; [by do 2 eexists|].
  destruct (agreed _); [by apply IH|]. destruct (lookup_lt_is_Some_2 (B s) (current s) Hc) as [b Hb].
  unfold build_bind. rewrite (emit_run _ span s b Hb). apply IH. simpl. by rewrite length_insert.
Qed.

Lemma merge_into_run join incoming fallback span s :
  join < length (B s) -> exists s', merge_into join incoming fallback span s = Ok (tt, s').
Proof.
  intros Hj. unfold merge_into, build_bind at 1. simpl.
  destruct (sort_edges incoming) as [|[u e] [|e2 l]]; [by eexists|by eexists|].
  destruct (merge_vars_run ((u, e) :: e2 :: l) (ordered (union_map (fun e => env_names e.2) ((u, e) :: e2 :: l)))
    ∅ span (with_current join s) Hj) as (m & s' & Hm).
  unfold build_bind. rewrite Hm. by eexists.
Qed.

Lemma join_run par0 s0 par s cond c t f p ends incoming fallback span :
  joining par0 s0 par s cond c t f p ends incoming fallback ->
  exists s1 s2 s3, set_terminator cond (Branch c t f) (snoc_block_state s) = Ok (tt, s1) /\
    jump_blocks (length (B s)) ends s1 = Ok (tt, s2) /\
    merge_into (length (B s)) incoming fallback span s2 = Ok (tt, s3) /\
    joined par0 s0 par s incoming (par ++ [Some p]) s3 /\ current s3 = length (B s).
Proof.
  intros Hj. destruct (jo_open _ _ _ _ _ _ _ _ _ _ _ _ Hj) as (b & Hb & _).
  assert (B (snoc_block_state s) !! cond = Some b) as Hb1 by by apply lookup_app_l_Some.
  pose proof (set_terminator_run cond (Branch c t f) _ _ Hb1) as H1. set (s1 := terminate _ _ _ _) in *.
  assert (length (B s1) = S (length (B s))) as Hl1 by (simpl; rewrite length_insert, length_app; simpl; lia).
  destruct (jump_blocks_run (length (B s)) ends s1) as (s2 & H2 & Hl2).
  { intros u Hu. destruct (jo_end _ _ _ _ _ _ _ _ _ _ _ _ Hj u Hu) as (_ & _ & _ & (b' & Hb' & _) & _).
    apply lookup_lt_Some in Hb'. lia. }
  destruct (merge_into_run (length (B s)) incoming fallback span s2) as [s3 H3]; [lia|].
  exists s1, s2, s3. split_and!; [done|done|done|..]; by apply (join_ok _ _ _ _ _ _ _ _ _ _ _ _ span _ _ _ _ _ _ Hj H1 H2 H3).
Qed.
End Join.
