(* ===== verification/BuildExpr.v ===== *)
(** * Expressions

    The conversion of an expression keeps the invariant, ends in an open block and
    gives a value that is available there ([convert_expr_ok]). *)

From S2P Require Export BuildJoin.

Section Ends.
Context {C : CoreTypes} {U : UnicodeTables}.
Variable np : nat.

Abbreviation Env := (gmap string SsaValue).
Abbreviation avail := (avail np).
Abbreviation env_ok := (env_ok np).
Abbreviation base := (base np).
Abbreviation inv := (inv np).
Abbreviation arm := (arm np).
Abbreviation joining := (joining np).
Abbreviation B := bl_blocks.

(** ** Ends of arms *)

Definition arm_ends (s : Builder) : list (BlockId * Env) :=
  match B s !! current s with
  | Some b => if bb_closed b then [] else [(current s, env s)]
  | None => []
  end.

Lemma arm_ends_open s : is_open s -> arm_ends s = [(current s, env s)].
Proof. intros (b & Hb & Ho). unfold arm_ends. by rewrite Hb, Ho. Qed.

Lemma arm_ends_elem s u e :
  (u, e) ∈ arm_ends s -> u = current s /\ e = env s /\ is_open s.
Proof.
  unfold arm_ends, is_open. destruct (B s !! current s) as [b|]; [|by intros ?%elem_of_nil].
  destruct (bb_closed b) eqn:Hc; [by intros ?%elem_of_nil|].
  intros [= -> ->]%list_elem_of_singleton. split_and!; [done|done|by exists b].
Qed.

Lemma arm_ends_fst s u : u ∈ map fst (arm_ends s) -> u = current s /\ is_open s.
Proof. intros ([u' e] & -> & Hu)%list_elem_of_fmap. by destruct (arm_ends_elem _ _ _ Hu) as (-> & _ & ?). Qed.

Lemma arm_ends_nodup s : NoDup (map fst (arm_ends s)).
Proof.
  unfold arm_ends. destruct (B s !! current s) as [b|]; [destruct (bb_closed b)|]; simpl;
    [constructor|apply NoDup_singleton|constructor].
Qed.

Lemma wp_open_end {A} (k : option (BlockId * Env) -> Building A) s Q :
  current s < length (B s) ->
  (forall e, opt (fun e => [e]) e = arm_ends s -> wp (k e) s Q) -> wp (build_bind open_end k) s Q.
Proof.
  intros Hc Hk. destruct (lookup_lt_is_Some_2 (B s) (current s) Hc) as [b Hb].
  apply (wp_step _ _ s (if bb_closed b then None else Some (current s, env s)) s).
  - unfold open_end, build_bind, build_get, is_closed. simpl. by rewrite Hb.
  - apply Hk. unfold arm_ends. rewrite Hb. by destruct (bb_closed b).
Qed.

(** The parent of a join: its only predecessor, or the condition. *)
Definition join_parent (cond : BlockId) (ends : list (BlockId * Env)) : BlockId :=
  match ends with
  | [e] => e.1
  | _ => cond
  end.

(** An end of an arm can jump. *)
Lemma arm_end_free par1 s1 par2 s2 cond par3 s3 entry par s u e :
  arm par1 s1 par2 s2 cond par3 s3 entry -> base par (loop_stack s) s ->
  (forall u, u < length (B s3) -> B s !! u = B s3 !! u) -> (u, e) ∈ arm_ends s3 ->
  length (B s2) <= u < length (B s3) /\ env_ok (B s3) par3 u e /\ anc par3 entry u /\
  (exists b, B s !! u = Some b /\ bb_terminator b = None) /\
  forall F, F ∈ loop_stack s -> u ∉ waiting F.
Proof.
  intros Ha Hb Hold Hu. destruct (arm_ends_elem _ _ _ Hu) as (-> & -> & b & Hs & Ho).
  pose proof (lookup_lt_Some _ _ _ Hs) as Hlt.
  assert (B s !! current s3 = Some b) as Hs' by by rewrite Hold.
  split_and!; [apply (arm_current _ _ _ _ _ _ _ _ _ Ha)|done| | | |].
  - apply (i_env _ _ _ _ (arm_inv _ _ _ _ _ _ _ _ _ Ha)).
  - apply (arm_scope _ _ _ _ _ _ _ _ _ Ha).
  - exists b. split; [done|]. by apply (g_open _ _ _ _ _ (i_graph _ _ _ _ Hb) (current s3)).
  - intros F HF. by apply (open_free np par _ s (current s3) b F Hb).
Qed.

(** Where the condition of a construct has ended. *)
Record decided (par0 : Parents) (s0 : Builder) (par : Parents) (s : Builder) (c : SsaValue) : Prop := {
  de_start : base par0 (loop_stack s0) s0;
  de_grows : grows par0 s0 par s;
  de_inv : inv par (loop_stack s) s;
  de_open : is_open s;
  de_value : avail (B s) par (current s) c
}.

(** What later steps that leave the old blocks alone keep of it. *)
Lemma decided_later par0 s0 par s c par' s' :
  decided par0 s0 par s c -> par `prefix_of` par' -> ids_grow (B s) (B s') ->
  (forall u, u < length (B s) -> B s' !! u = B s !! u) -> length (B s) <= length (B s') ->
  (exists b, B s' !! current s = Some b /\ bb_closed b = false) /\
  (current s = current s0 \/ length (B s0) <= current s) /\ current s < length (B s') /\
  anc par' (current s0) (current s) /\ avail (B s') par' (current s) c /\
  env_ok (B s') par' (current s) (env s).
Proof.
  intros [H1 H2 H3 (b & Hb & Ho) H5] Hpar Hids Hold Hlen. pose proof (lookup_lt_Some _ _ _ Hb).
  split_and!; [|apply (gr_current _ _ _ _ H2)|lia| | |].
  - exists b. by rewrite Hold.
  - eapply anc_mono; [done|apply (gr_scope _ _ _ _ H2)].
  - by eapply avail_mono.
  - eapply env_mono; [done|done|apply (i_env _ _ _ _ H3)].
Qed.
Lemma first_arm {A} par0 s0 par1 s1 c post (m : Building A) :
  decided par0 s0 par1 s1 c -> conv np post m ->
  wp m (entered (env s1) s1) (fun a s2 =>
    exists par2, arm par0 s0 par1 s1 (current s1) par2 s2 (length (B s1)) /\ post par2 s2 a).
Proof.
  intros [H1 H2 H3 _ _] Hm.
  by apply (arm_ok np post m par0 s0 par1 s1 (current s1) (env s1));
    [|done|done|apply H3|apply (gr_scope _ _ _ _ H2)|apply (i_current _ _ _ _ (i_base _ _ _ _ H3))|apply H3].
Qed.

Lemma second_arm {A} par0 s0 par1 s1 c par2 s2 t post (m : Building A) :
  decided par0 s0 par1 s1 c -> arm par0 s0 par1 s1 (current s1) par2 s2 t -> conv np post m ->
  wp m (entered (env s1) s2) (fun a s3 =>
    exists par3, arm par0 s0 par2 s2 (current s1) par3 s3 (length (B s2)) /\ post par3 s3 a).
Proof.
  intros Hd Ha Hm. destruct (decided_later _ _ _ _ _ par2 s2 Hd (arm_par _ _ _ _ _ _ _ _ _ Ha)
    (arm_ids _ _ _ _ _ _ _ _ _ Ha) (arm_old _ _ _ _ _ _ _ _ _ Ha)) as (D1 & D2 & D3 & D4 & D5 & D6).
  { pose proof (arm_inside _ _ _ _ _ _ _ _ _ Ha). rewrite (arm_entry _ _ _ _ _ _ _ _ _ Ha) in *. lia. }
  by apply (arm_ok np post m par0 s0 par2 s2 (current s1) (env s1));
    [|apply (de_start _ _ _ _ _ Hd)|apply Ha|apply Ha|done|done|done].
Qed.

(** The first block of an arm, seen from where the arms have ended. *)
Lemma arm_target par0 s0 par s cond par' s' entry :
  base par0 (loop_stack s0) s0 -> grows par0 s0 par s -> arm par0 s0 par s cond par' s' entry ->
  parent par' entry cond /\ no_edges (B s') entry /\ length (B s0) <= entry < length (B s') /\
  entry ∉ map lf_header (loop_stack s').
Proof.
  intros Hb Hg Ha. pose proof (gr_length _ _ _ _ Hg). pose proof (i_current _ _ _ _ Hb).
  destruct Ha as [_ Hg' -> H3 H4 _ H6 _ _ _ _ _ _ _]. split_and!; [done|done|lia|done|].
  rewrite (loops_headers _ _ _ _ (gr_loops _ _ _ _ Hg')). eapply new_not_header; [done|lia].
Qed.

Lemma join_parent_cases cond ends :
  join_parent cond ends = cond \/ exists e, ends = [e] /\ join_parent cond ends = e.1.
Proof. destruct ends as [|e [|e2 ends]]; simpl; [by left|right; by exists e|by left]. Qed.

(** The ends of the arms, as blocks that go to one join. *)
Record ends_ok (par0 : Parents) (s0 : Builder) (par : Parents) (s : Builder) (cond : BlockId)
    (ends : list (BlockId * Env)) : Prop := {
  en_nodup : NoDup (map fst ends);
  en_end u e : (u, e) ∈ ends -> length (B s0) <= u < length (B s) /\ u <> cond /\
    env_ok (B s) par u e /\ anc par cond u /\ (exists b, B s !! u = Some b /\ bb_terminator b = None) /\
    forall F, F ∈ loop_stack s -> u ∉ waiting F
}.

Lemma ends_parent par0 s0 par s cond ends :
  ends_ok par0 s0 par s cond ends -> cond < length (B s) ->
  let p := join_parent cond ends in
  p < length (B s) /\ anc par cond p /\ forall u, u ∈ map fst ends -> anc par p u.
Proof.
  intros [_ He] Hc p. destruct (join_parent_cases cond ends) as [Hp|([u e] & Hl & Hp)];
    unfold p; rewrite Hp.
  - split_and!; [done|apply anc_refl|]. intros u ([u' e] & -> & Hu)%list_elem_of_fmap.
    destruct (He u' e Hu) as (_ & _ & _ & H & _). exact H.
  - subst ends. destruct (He u e) as (H1 & _ & _ & H2 & _); [left|]. simpl. split_and!; [lia|done|].
    intros w ->%list_elem_of_singleton. apply anc_refl.
Qed.

(** What a branch to two blocks below it needs. *)
Lemma joining_arms par0 s0 par s cond c t f ends fallback :
  base par0 (loop_stack s0) s0 -> base par (loop_stack s) s -> grows par0 s0 par s ->
  (exists b, B s !! cond = Some b /\ bb_closed b = false) ->
  cond = current s0 \/ length (B s0) <= cond -> anc par (current s0) cond ->
  avail (B s) par cond c -> env_ok (B s) par cond fallback ->
  (forall v, v ∈ [t; f] -> parent par v cond /\ no_edges (B s) v /\ length (B s0) <= v < length (B s)) ->
  ends_ok par0 s0 par s cond ends ->
  (forall d e e' l, ends = e :: e' :: l -> (forall u, u ∈ map fst ends -> anc par d u) -> anc par d cond) ->
  joining par0 s0 par s cond c t f (join_parent cond ends) (map fst ends) ends fallback.
Proof.
  intros H1 H2 H3 H4 H5 Hsc H6 H7 Ht He Hmeet.
  assert (cond < length (B s)) as Hin by (destruct H4 as (b & Hb & _); by eapply lookup_lt_Some).
  destruct (ends_parent _ _ _ _ _ _ He Hin) as (P1 & P2 & P3).
  assert (length (B s) ∉ [t; f]) as Hnew.
  { intros Hl. destruct (Ht _ Hl) as (_ & _ & Hl'). lia. }
  constructor; [done|done|done|done|done|done| |apply (en_nodup _ _ _ _ _ _ He)| | | | |
    apply (en_nodup _ _ _ _ _ _ He)| | |].
  - intros v Hv. right. by apply Ht.
  - intros u Hu. pose proof (P3 u Hu) as Hp. apply list_elem_of_fmap in Hu as ([u' e] & -> & Hu).
    destruct (en_end _ _ _ _ _ _ He u' e Hu) as ([E1 _] & E2 & _ & _ & E4 & E5). by split_and!.
  - split; [by eapply anc_trans|done].
  - done.
  - intros u. split; [by left|]. by intros [?|[_ ?]].
  - intros u e Hu. by destruct (en_end _ _ _ _ _ _ He u e Hu) as (_ & _ & E & _).
  - intros d Hne Hd. destruct ends as [|e [|e' l]]; [done| |].
    + simpl. apply Hd. left.
    + simpl. by eapply Hmeet.
  - by eapply env_down.
Qed.

(** With an [else]. *)
Lemma two_arms par0 s0 par1 s1 c par2 s2 t par3 s3 f :
  let ends := arm_ends s2 ++ arm_ends s3 in
  decided par0 s0 par1 s1 c -> arm par0 s0 par1 s1 (current s1) par2 s2 t ->
  arm par0 s0 par2 s2 (current s1) par3 s3 f ->
  joining par0 s0 par3 s3 (current s1) c t f (join_parent (current s1) ends) (map fst ends) ends (env s1).
Proof.
  intros ends Hd Ht Hf. pose proof (de_start _ _ _ _ _ Hd) as Hs.
  destruct (arm_target _ _ _ _ _ _ _ _ Hs (de_grows _ _ _ _ _ Hd) Ht) as (T1 & T2 & T3 & T4).
  destruct (arm_target _ _ _ _ _ _ _ _ Hs (arm_grows _ _ _ _ _ _ _ _ _ Ht) Hf) as (F1 & F2 & F3 & F4).
  pose proof (i_base _ _ _ _ (arm_inv _ _ _ _ _ _ _ _ _ Hf)) as Hb3.
  pose proof (arm_entry _ _ _ _ _ _ _ _ _ Ht) as ->. pose proof (arm_entry _ _ _ _ _ _ _ _ _ Hf) as ->.
  pose proof (arm_par _ _ _ _ _ _ _ _ _ Hf) as Hpar.
  assert (ids_grow (B s1) (B s3)) as Hids.
  { intros u x Hx. by apply (arm_ids _ _ _ _ _ _ _ _ _ Hf), (arm_ids _ _ _ _ _ _ _ _ _ Ht). }
  assert (forall u, u < length (B s1) -> B s3 !! u = B s1 !! u) as Hold.
  { intros u Hu. rewrite (arm_old _ _ _ _ _ _ _ _ _ Hf) by lia. by apply (arm_old _ _ _ _ _ _ _ _ _ Ht). }
  destruct (decided_later _ _ _ _ _ par3 s3 Hd) as (D1 & D2 & D3 & D4 & D5 & D6); [|done|done|lia|].
  { etrans; [apply (arm_par _ _ _ _ _ _ _ _ _ Ht)|done]. }
  pose proof (i_current _ _ _ _ (i_base _ _ _ _ (de_inv _ _ _ _ _ Hd))) as Hcin.
  assert (forall u e, (u, e) ∈ arm_ends s2 -> length (B s1) <= u < length (B s2) /\
    env_ok (B s3) par3 u e /\ anc par3 (length (B s1)) u /\
    (exists b, B s3 !! u = Some b /\ bb_terminator b = None) /\
    forall F, F ∈ loop_stack s3 -> u ∉ waiting F) as He2.
  { intros u e Hu. destruct (arm_end_free _ _ _ _ _ _ _ _ par3 s3 u e Ht Hb3) as (E1 & E2 & E3 & E4 & E5);
      [intros; by apply (arm_old _ _ _ _ _ _ _ _ _ Hf)|done|].
    split_and!; [lia|lia| |by eapply anc_mono|done|done].
    eapply env_mono; [apply (arm_ids _ _ _ _ _ _ _ _ _ Hf)|done|done]. }
  assert (forall u e, (u, e) ∈ arm_ends s3 -> length (B s2) <= u < length (B s3) /\
    env_ok (B s3) par3 u e /\ anc par3 (length (B s2)) u /\
    (exists b, B s3 !! u = Some b /\ bb_terminator b = None) /\
    forall F, F ∈ loop_stack s3 -> u ∉ waiting F) as He3.
  { intros u e Hu. by apply (arm_end_free _ _ _ _ _ _ _ _ par3 s3 u e Hf Hb3). }
  assert (parent par3 (length (B s1)) (current s1)) as Tp by by eapply parent_mono.
  pose proof (gr_length _ _ _ _ (de_grows _ _ _ _ _ Hd)).
  apply joining_arms; [done|done|apply (arm_grows _ _ _ _ _ _ _ _ _ Hf)|done|done|done|done|done| | |].
  - intros v [->|[->|[]%elem_of_nil]%elem_of_cons]%elem_of_cons; split_and!; try done; try lia.
    by apply (arm_quiet _ _ _ _ _ _ _ _ _ Hf); [lia| |].
  - constructor.
    + unfold ends. rewrite map_app. apply NoDup_app. split_and!; [apply arm_ends_nodup| |apply arm_ends_nodup].
      intros u ([u' e] & -> & Hu)%list_elem_of_fmap ([u2 e2] & Heq & Hu2)%list_elem_of_fmap.
      simpl in Heq. subst u2. apply He2 in Hu as [Hu _]. apply He3 in Hu2 as [Hu2 _]. lia.
    + intros u e [Hu|Hu]%elem_of_app.
      * destruct (He2 u e Hu) as (E1 & E2 & E3 & E4 & E5).
        split_and!; [lia|lia|lia|done|eapply anc_trans; [by apply (anc_parent par3 (length (B s1)))|done]|exact E4|exact E5].
      * destruct (He3 u e Hu) as (E1 & E2 & E3 & E4 & E5).
        split_and!; [lia|lia|lia|done|eapply anc_trans; [by apply (anc_parent par3 (length (B s2)))|done]|exact E4|exact E5].
  - intros d [u2 e2] [u3 e3] l Hl Hall. assert (exists k, arm_ends s2 = [(u2, e2)] /\ arm_ends s3 = [(u3, e3)] /\ k = l) as (_ & H2 & H3 & _).
    { unfold ends, arm_ends in Hl |- *. destruct (B s2 !! current s2) as [b2|], (B s3 !! current s3) as [b3|];
        try destruct (bb_closed b2); try destruct (bb_closed b3); simplify_eq/=; by eexists. }
    assert (anc par3 (length (B s1)) u2) as A2 by (apply (He2 u2 e2); rewrite H2; left).
    assert (anc par3 (length (B s2)) u3) as A3 by (apply (He3 u3 e3); rewrite H3; left).
    apply (anc_arms par3 (g_parent _ _ _ _ _ (i_graph _ _ _ _ Hb3)) (current s1) (length (B s1))
      (length (B s2)) u2 u3); [done|done|lia|done|done|..]; apply Hall; rewrite Hl; simpl; set_solver.
Qed.
End Ends.

(** ** Pieces of expressions *)

Section Exprs.
Context {C : CoreTypes} {U : UnicodeTables}.
Variable np : nat.

Abbreviation avail := (avail np).
Abbreviation inv := (inv np).
Abbreviation piece := (piece np).
Abbreviation conv := (conv np).
Abbreviation B := bl_blocks.
#[local] Notation "x <~ m ; k" := (build_bind m (fun x => k))
  (at level 100, m at level 99, k at level 200, right associativity).

Definition one_value (v : SsaValue) : list SsaValue := [v].
Definition no_value {A} (_ : A) : list SsaValue := [].

Definition env_values (s : Builder) : list SsaValue := map snd (map_to_list (env s)).

Lemma local_in_env s name v : local_value s name = Some v -> v ∈ env_values s.
Proof.
  unfold local_value. case_bool_decide; [done|]. intros Hv. apply list_elem_of_fmap.
  exists (name, v). split; [done|]. by apply elem_of_map_to_list.
Qed.

(** The state is read; its values are available. *)
Lemma piece_get {A} need (vals : A -> list SsaValue) k :
  (forall s, piece (need ++ env_values s) vals (k s)) -> piece need vals (build_bind build_get k).
Proof.
  intros Hk par s Hi Ho Hn. apply wp_get.
  apply (Hk s par s Hi Ho). intros v [Hv|Hv]%elem_of_app; [by apply Hn|].
  apply list_elem_of_fmap in Hv as ([name v'] & -> & Hv). apply elem_of_map_to_list in Hv.
  by apply (i_env _ _ _ _ Hi name).
Qed.

Lemma piece_more {A} need need' (vals : A -> list SsaValue) m :
  need ⊆ need' -> piece need vals m -> piece need' vals m.
Proof. intros Hn. by apply piece_weaken. Qed.

Lemma piece_nil {A} need (vals : A -> list SsaValue) m : piece [] vals m -> piece need vals m.
Proof. apply piece_more, list_subseteq_nil. Qed.

Lemma piece_seq {A B'} need (vals : A -> list SsaValue) (vals' : B' -> list SsaValue) m k :
  piece need vals m -> (forall a, piece need vals' (k a)) -> piece need vals' (build_bind m k).
Proof.
  intros Hm Hk. eapply piece_bind; [exact Hm|]. intros a.
  eapply piece_more; [|apply Hk]. intros v Hv. apply elem_of_app. by left.
Qed.

Lemma read_var_ok name span : piece [] one_value (read_var name span).
Proof.
  apply piece_get. intros s. destruct (local_value s name) as [v|] eqn:Hv; [|apply piece_emit; [done|apply list_subseteq_nil]].
  apply piece_ret. intros x ->%list_elem_of_singleton. by eapply local_in_env.
Qed.

Lemma write_var_ok name v span : piece [v] no_value (write_var name v span).
Proof.
  apply piece_get. intros s. case_bool_decide.
  - eapply piece_seq; [apply piece_emit; [done|]|intros _; apply piece_ret, list_subseteq_nil].
    simpl. set_solver.
  - apply piece_bindvar. set_solver.
Qed.

Lemma reload_vars_ok vars barrier span : piece [barrier] no_value (reload_vars vars barrier span).
Proof.
  induction vars as [|var vars IH]; simpl; [apply piece_ret, list_subseteq_nil|].
  apply piece_get. intros s. case_bool_decide.
  - eapply piece_more; [|exact IH]. set_solver.
  - eapply piece_bind; [apply piece_emit; [done|simpl; set_solver]|]. intros v. simpl.
    eapply piece_seq; [apply piece_bindvar; set_solver|]. intros _.
    eapply piece_more; [|exact IH]. set_solver.
Qed.

Lemma resolved_in_env s names : map snd (resolve_reads s names) ⊆ env_values s.
Proof.
  intros v ([name v'] & -> & Hv)%list_elem_of_fmap. apply list_elem_of_omap in Hv as (n & _ & Hv).
  destruct (local_value s n) as [w|] eqn:Hw; [|done]. injection Hv as <- <-. by eapply local_in_env.
Qed.

Lemma convert_opaque_expr_ok e : piece [] one_value (convert_opaque_expr e).
Proof.
  apply piece_get. intros s. eapply piece_bind; [apply piece_emit; [done|simpl; apply resolved_in_env]|].
  intros v. simpl. eapply piece_seq; [eapply piece_more; [|apply reload_vars_ok]|].
  - set_solver.
  - intros _. apply piece_ret. set_solver.
Qed.

Lemma convert_opaque_stmt_ok st span : piece [] no_value (convert_opaque_stmt st span).
Proof.
  apply piece_get. intros s. eapply piece_bind; [apply piece_emit; [done|simpl; apply resolved_in_env]|].
  intros v. simpl. eapply piece_more; [|apply reload_vars_ok]. set_solver.
Qed.

Lemma build_mapM_ok {A B'} (f : A -> Building B') vals l :
  Forall (fun x => piece [] vals (f x)) l -> piece [] (fun ys => ys ≫= vals) (build_mapM f l).
Proof.
  induction 1 as [|x l Hx _ IH]; simpl; [apply piece_ret, list_subseteq_nil|].
  eapply piece_bind; [exact Hx|]. intros y. eapply piece_bind; [apply piece_nil, IH|].
  intros ys. by apply piece_ret.
Qed.

Lemma keyword_ok {A} (f : A -> Building SsaValue) (kw : string * A) :
  piece [] one_value (f kw.2) ->
  piece [] (fun kv : string * SsaValue => [kv.2]) (u <~ f kw.2; build_ret (kw.1, u)).
Proof. intros Hf. eapply piece_bind; [exact Hf|]. intros u. by apply piece_ret. Qed.

Lemma call_ok m function args kwargs sm km span f :
  Forall (fun e => piece [] one_value (f e)) args ->
  Forall (fun kw : string * CoreExpr => piece [] one_value (f kw.2)) kwargs ->
  piece [] one_value
    (vs <~ build_mapM f args;
     us <~ build_mapM (fun kw => u <~ f kw.2; build_ret (kw.1, u)) kwargs;
     emit (Call m function vs us sm km) span).
Proof.
  intros Ha Hk. eapply piece_bind; [by apply build_mapM_ok|]. intros vs. simpl.
  eapply piece_bind; [apply piece_nil; apply build_mapM_ok; eapply Forall_impl;
    [exact Hk|intros kw; apply keyword_ok]|].
  intros us. apply piece_emit; [done|]. simpl. intros v [Hv|Hv]%elem_of_app; apply elem_of_app.
  - left. apply list_elem_of_bind. exists v. split; [by left|done].
  - right. apply list_elem_of_fmap in Hv as (kv & -> & Hv). apply list_elem_of_bind.
    exists kv. split; [by left|done].
Qed.
(** *** The ternary operator *)

Lemma piece_conv {A} (vals : A -> list SsaValue) m :
  piece [] vals m -> conv (fun par s a => is_open s /\ available np par s (vals a)) m.
Proof.
  intros Hm par s Hi Ho. eapply wp_mono; [apply (Hm par s Hi Ho); by intros v ?%elem_of_nil|].
  intros a s' _ (par' & H1 & H2 & H3 & H4). exists par'. by split_and!.
Qed.

Lemma decided_start par s par1 s1 c :
  inv par (loop_stack s) s -> grows par s par1 s1 -> inv par1 (loop_stack s1) s1 -> is_open s1 ->
  available np par1 s1 (one_value c) -> decided np par s par1 s1 c.
Proof. intros Hi Hg Hi1 Ho Hv. constructor; [apply Hi|done|done|done|apply Hv; left]. Qed.

(** A value that both arms give is available at the join. *)
Lemma both_avail par0 s0 par s incoming par' s' v :
  joined np par0 s0 par s incoming par' s' -> par `prefix_of` par' -> incoming <> [] ->
  (forall u, u ∈ map fst incoming -> avail (B s) par u v) -> avail (B s') par' (current s') v.
Proof.
  intros Hj Hpar Hne Hv. destruct v as [x|k|lit]; [|destruct incoming as [|e l]; [done|]; apply (Hv e.1); left|done].
  assert (exists u, u ∈ map fst incoming) as (u & Hu).
  { destruct incoming as [|e l]; [done|]. exists e.1. left. }
  destruct (Hv u Hu) as (d & Hd & Ha). exists d. split; [by apply (jd_ids _ _ _ _ _ _ _ _ Hj)|].
  apply (jd_meet _ _ _ _ _ _ _ _ Hj); [done|]. intros w Hw. destruct (Hv w Hw) as (d' & Hd' & Ha').
  assert (d = d') as ->; [|by eapply anc_mono].
  pose proof (i_graph _ _ _ _ (i_base _ _ _ _ (jd_inv _ _ _ _ _ _ _ _ Hj))) as Hg.
  apply (g_site _ _ _ _ _ Hg x); by apply (jd_ids _ _ _ _ _ _ _ _ Hj).
Qed.

(** One more phi at the join. *)
Lemma phi_at_join par0 s0 par s incoming par' s' phi span :
  joined np par0 s0 par s incoming par' s' -> incoming <> [] -> length (B s0) <= current s' ->
  edges phi = map fst (sort_edges incoming) -> length (values phi) = length (edges phi) ->
  (forall p v, (p, Some v) ∈ zip (edges phi) (values phi) -> avail (B s) par p v) ->
  wp (emit (Phi phi) span) s' (fun v s'' => inv par' (loop_stack s'') s'' /\ grows par0 s0 par' s'' /\
    is_open s'' /\ avail (B s'') par' (current s'') v).
Proof.
  intros Hj Hne Hge He Hlen Hv.
  destruct (jd_block _ _ _ _ _ _ _ _ Hj) as (b & Hb & Ho & Hph). unfold wp. rewrite (emit_run _ _ _ _ Hb).
  pose proof (jd_inv _ _ _ _ _ _ _ _ Hj) as Hi. pose proof (i_base _ _ _ _ Hi) as Hbase.
  destruct (base_push np par' _ s' b (Phi phi) span Hbase Hb) as (H1 & H2 & H3 & H4).
  { by intros w ?%elem_of_nil. }
  { simpl. rewrite (jd_shown _ _ _ _ _ _ _ _ Hj), off_nil, (jd_preds _ _ _ _ _ _ _ _ Hj).
    split_and!; [done|done| |done|].
    - rewrite He. pose proof (sort_edges_perm incoming) as Hp.
      destruct (sort_edges incoming); [by apply Permutation_nil in Hp|done].
    - intros p w Hpw. eapply avail_mono; [apply (jd_ids _ _ _ _ _ _ _ _ Hj)|apply (jd_par _ _ _ _ _ _ _ _ Hj)|by apply Hv]. }
  split_and!; [split; [done|]| | |done].
  - eapply env_mono; [exact H3|done|apply (i_env _ _ _ _ Hi)].
  - eapply (grows_phis par0 s0 par' s' _ b); [apply (jd_grows _ _ _ _ _ _ _ _ Hj)|done|done|].
    eapply (phis_added_push s' b (Phi phi) span _ []); [done|done|]. constructor; [|by constructor|done..].
    rewrite app_nil_r. simpl. by rewrite list_insert_insert_eq.
  - eexists. simpl. by rewrite list_lookup_insert_eq by by eapply lookup_lt_Some.
Qed.

(** The value of a ternary, once the arms have met. *)
Lemma ternary_value par s par3 s3 e2 e3 env2 env3 tv ev span par4 s7 :
  joined np par s par3 s3 [(e2, env2); (e3, env3)] par4 s7 -> e2 <= e3 -> length (B s) <= current s7 ->
  avail (B s3) par3 e2 tv -> avail (B s3) par3 e3 ev ->
  wp (if value_eqb tv ev then build_ret tv
      else emit (Phi {| edges := [e2; e3]; values := [Some tv; Some ev] |}) span) s7 (fun v s' =>
    inv par4 (loop_stack s') s' /\ grows par s par4 s' /\ is_open s' /\ avail (B s') par4 (current s') v).
Proof.
  intros Hjd Hle Hge Ht He. destruct (value_eqb tv ev) eqn:Heq.
  - apply wp_ret.
    split_and!; [apply (jd_inv _ _ _ _ _ _ _ _ Hjd)|apply (jd_grows _ _ _ _ _ _ _ _ Hjd)| |].
    + destruct (jd_block _ _ _ _ _ _ _ _ Hjd) as (b & Hb & Hbo & _). by exists b.
    + apply (both_avail _ _ _ _ _ _ _ _ Hjd); [apply (jd_par _ _ _ _ _ _ _ _ Hjd)|done|].
      intros u. simpl. intros [->|[->|[]%elem_of_nil]%elem_of_cons]%elem_of_cons; [done|].
      destruct tv as [x|k|lit]; [|done|done].
      destruct ev as [x'|k'|lit']; try done. simpl in Heq. by apply Nat.eqb_eq in Heq as ->.
  - apply (phi_at_join _ _ _ _ _ _ _ _ _ Hjd); [done|done| |done|].
    + simpl. destruct (Nat.leb_spec e2 e3); [done|lia].
    + simpl. intros p w Hpw. apply elem_of_cons in Hpw as [[= -> ->]|Hpw]; [done|].
      by apply list_elem_of_singleton in Hpw as [= -> ->].
Qed.

Lemma convert_ternary_ok condition then_expr else_expr span :
  piece [] one_value condition -> piece [] one_value then_expr -> piece [] one_value else_expr ->
  piece [] one_value (convert_ternary condition then_expr else_expr span).
Proof.
  intros Hc Ht He par s Hi Ho Hn. unfold convert_ternary.
  apply wp_bind. eapply wp_mono; [by apply Hc|]. intros c s1 _ (par1 & Hi1 & Hg1 & Ho1 & Hv1).
  pose proof (decided_start _ _ _ _ _ Hi Hg1 Hi1 Ho1 Hv1) as Hd. apply wp_get.
  apply wp_in_new_block. eapply wp_mono; [exact (first_arm np _ _ _ _ _ _ _ Hd (piece_conv _ _ Ht))|].
  intros tv s2 _ (par2 & Ha2 & Ho2 & Hv2). apply wp_get.
  apply wp_in_new_block. eapply wp_mono; [exact (second_arm np _ _ _ _ _ _ _ _ _ _ Hd Ha2 (piece_conv _ _ He))|].
  intros ev s3 _ (par3 & Ha3 & Ho3 & Hv3). apply wp_get. apply wp_new_block. simpl.
  pose proof (two_arms np _ _ _ _ _ _ _ _ _ _ _ Hd Ha2 Ha3) as Hj.
  rewrite (arm_ends_open s2 Ho2), (arm_ends_open s3 Ho3) in Hj. simpl in Hj.
  destruct (join_run np _ _ _ _ _ _ _ _ _ _ _ _ span Hj) as (s4 & s6 & s7 & Hr1 & Hr2 & Hr3 & Hjd & Hcur).
  eapply wp_step; [exact Hr1|]. simpl in Hr2. apply bind_Ok in Hr2 as ([] & s5 & Hr2 & Hr2').
  apply bind_Ok in Hr2' as ([] & ? & Hr2' & [_ <-]%ret_Ok).
  eapply wp_step; [exact Hr2|]. eapply wp_step; [exact Hr2'|]. eapply wp_step; [exact Hr3|].
  eapply wp_mono; [eapply (ternary_value _ _ _ _ _ _ _ _ _ _ _ _ _ Hjd)|].
  - pose proof (arm_current _ _ _ _ _ _ _ _ _ Ha3).
    pose proof (i_current _ _ _ _ (i_base _ _ _ _ (arm_inv _ _ _ _ _ _ _ _ _ Ha2))). lia.
  - rewrite Hcur. apply (gr_length _ _ _ _ (arm_grows _ _ _ _ _ _ _ _ _ Ha3)).
  - eapply avail_mono; [apply (arm_ids _ _ _ _ _ _ _ _ _ Ha3)|apply (arm_par _ _ _ _ _ _ _ _ _ Ha3)|].
    apply Hv2. left.
  - apply Hv3. left.
  - intros v s' _ (P1 & P2 & P3 & P4). eexists.
    split_and!; [done|done|done|by intros w ->%list_elem_of_singleton].
Qed.

(** *** All expressions *)

(** [f] of every element: transparent, so that [f] may be an induction hypothesis. *)
Definition Forall_all {A} (P : A -> Prop) (f : forall x, P x) : forall l, Forall P l :=
  fix go l := match l with [] => @Forall_nil_2 A P | x :: l => @Forall_cons_2 A P x l (f x) (go l) end.

Lemma convert_expr_ok : forall e, piece [] one_value (convert_expr e).
Proof.
  fix IH 1. intros e.
  destruct e; simpl; try apply convert_opaque_expr_ok.
  - intros par s Hi Ho _. apply wp_ret. exists par.
    split_and!; [done|apply grows_refl, (i_current _ _ _ _ (i_base _ _ _ _ Hi))|done|].
    by intros w ->%list_elem_of_singleton.
  - apply read_var_ok.
  - eapply piece_bind; [apply IH|]. intros l. eapply piece_bind; [apply piece_nil, IH|]. intros r.
    apply piece_emit; [done|]. simpl. set_solver.
  - eapply piece_bind; [apply IH|]. intros v. apply piece_emit; [done|]. simpl. set_solver.
  - apply piece_get. intros s. destruct (call_needs_opaque_path s function).
    + apply piece_nil, convert_opaque_expr_ok.
    + apply piece_nil, call_ok; apply Forall_all; [apply IH|intros kw; apply IH].
  - eapply piece_bind; [apply build_mapM_ok, Forall_all, IH|]. intros vs.
    apply piece_emit; [done|]. simpl. intros w Hw. apply list_elem_of_bind. exists w. split; [left|done].
  - apply call_ok; apply Forall_all; [apply IH|intros kw; apply IH].
  - apply convert_ternary_ok; apply IH.
  - eapply piece_bind; [apply IH|]. intros v. eapply piece_bind; [eapply piece_more; [|apply write_var_ok]|].
    + simpl. set_solver.
    + intros u. apply piece_ret. simpl. set_solver.
Qed.
End Exprs.
