(* ===== verification/BuildJumps.v ===== *)
(** * Statements that leave a block

    [return], [break] and [continue] close the current block and record it with the
    loop; what comes after them goes to a new block, which nothing reaches. *)

From S2P Require Export BuildExpr.

Section Jumps.
Context {C : CoreTypes} {U : UnicodeTables}.
Variable np : nat.

Abbreviation Env := (gmap string SsaValue).
Abbreviation avail := (avail np).
Abbreviation env_ok := (env_ok np).
Abbreviation base := (base np).
Abbreviation inv := (inv np).
Abbreviation frame_ok := (frame_ok np).
Abbreviation conv := (conv np).
Abbreviation piece := (piece np).
Abbreviation B := bl_blocks.

(** The value of a statement, if it has one. *)
Definition valued (par : Parents) (s : Builder) (a : option SsaValue) : Prop :=
  forall v, a = Some v -> avail (B s) par (current s) v.

Definition any {A} (_ : Parents) (_ : Builder) (_ : A) : Prop := True.

Definition option_value (a : option SsaValue) : list SsaValue :=
  match a with Some v => [v] | None => [] end.

Lemma conv_piece m : piece [] option_value m -> conv valued m.
Proof.
  intros Hm par s Hi Ho. eapply wp_mono; [apply (piece_conv np _ m Hm par s Hi Ho)|].
  intros a s' _ (par' & H1 & H2 & _ & H3). exists par'. split_and!; [done|done|]. intros v ->. apply H3. left.
Qed.

(** A conversion without a value. *)
Lemma conv_none {A} post (m : Building A) :
  conv post m -> conv valued (build_bind m (fun _ => build_ret None)).
Proof.
  intros Hm par s Hi Ho. apply wp_bind. eapply wp_mono; [apply (Hm par s Hi Ho)|].
  intros x s1 _ (par' & H1 & H2 & _). apply wp_ret. by exists par'.
Qed.

Lemma conv_after_piece {A D} (vals : A -> list SsaValue) (post : Parents -> Builder -> D -> Prop) m k :
  piece [] vals m ->
  (forall a par s, inv par (loop_stack s) s -> is_open s -> available np par s (vals a) ->
    wp (k a) s (fun d s' => exists par', inv par' (loop_stack s') s' /\ grows par s par' s' /\ post par' s' d)) ->
  conv post (build_bind m k).
Proof.
  intros Hm Hk par s Hi Ho. apply wp_bind. eapply wp_mono; [apply (piece_conv np _ m Hm par s Hi Ho)|].
  intros a s1 _ (par1 & H1 & H2 & H3 & H4). eapply wp_mono; [exact (Hk a par1 s1 H1 H3 H4)|].
  intros d s' _ (par2 & K1 & K2 & K3). exists par2.
  split_and!; [done|by eapply grows_trans|done].
Qed.

(** ** Return *)

Lemma inv_return par s b v :
  inv par (loop_stack s) s -> B s !! current s = Some b -> bb_closed b = false ->
  valued par s v -> 
  inv par (loop_stack s) (terminate (current s) (Return v) b s) /\
  grows par s par (terminate (current s) (Return v) b s).
Proof.
  intros Hi Hb Hc Hv. pose proof (i_base _ _ _ _ Hi) as Hbase. split; [split|].
  - apply base_terminate; [done|done|by apply (g_open _ _ _ _ _ (i_graph _ _ _ _ Hbase) (current s))| | | |].
    + intros F HF. by apply (open_free np par _ s (current s) b F Hbase).
    + by intros w ?%elem_of_nil.
    + intros w. destruct v as [v|]; simpl; [|by intros ?%elem_of_nil].
      intros ->%list_elem_of_singleton. by apply Hv.
    + by intros w ?%elem_of_nil.
  - eapply env_mono; [by apply ids_terminated|done|apply (i_env _ _ _ _ Hi)].
  - apply grows_terminate; [apply grows_refl, (i_current _ _ _ _ Hbase)|by left|done|].
    by intros w ?%elem_of_nil.
Qed.

Lemma set_return_ok par s v :
  inv par (loop_stack s) s -> is_open s -> valued par s v ->
  wp (set_terminator (current s) (Return v)) s (fun _ s' => inv par (loop_stack s') s' /\ grows par s par s').
Proof.
  intros Hi (b & Hb & Hc) Hv. unfold wp. rewrite (set_terminator_run _ _ _ _ Hb).
  exact (inv_return par s b v Hi Hb Hc Hv).
Qed.

(** ** Break *)

Definition add_break (u : BlockId) (e : Env) (F : LoopFrame) : LoopFrame :=
  {| lf_header := lf_header F; break_blocks := break_blocks F ++ [u];
     latch_incoming := latch_incoming F; exit_incoming := exit_incoming F ++ [(u, e)] |}.

Definition close (b : BlockBuild) : BlockBuild :=
  {| bb_stmts := bb_stmts b; bb_terminator := bb_terminator b; bb_closed := true |}.

Lemma ids_close (bl : list BlockBuild) u b : bl !! u = Some b -> ids_grow bl (<[u := close b]> bl).
Proof.
  intros Hu w x. rewrite (ids_insert bl u b _ w Hu). case_decide as Hw; [subst w|done].
  by rewrite (ids_lookup bl u b Hu).
Qed.

Lemma frame_break bl par cur F u b e :
  frame_ok bl par cur F -> bl !! u = Some b -> bb_closed b = false -> bb_terminator b = None ->
  env_ok bl par u e -> frame_ok (<[u := close b]> bl) par cur (add_break u e F).
Proof.
  intros HF Hb Hc Ht He.
  assert (u ∉ waiting F) as Hu by by apply (open_not_waiting np bl par cur F u b).
  assert (frame_ok (<[u := close b]> bl) par cur F) as [H1 H2 H3 H4 H5 H6 H7].
  { eapply frame_mono; [by apply ids_close|done| |apply anc_refl|exact HF].
    intros w _. apply (closed_insert bl u b); [done|]. by rewrite Hc. }
  constructor; simpl; [done|done| | | |done|done].
  - rewrite map_app, H3. done.
  - apply NoDup_app. split_and!; [done| |apply NoDup_singleton].
    intros w Hw ->%list_elem_of_singleton. apply Hu, elem_of_app. left. by rewrite H3.
  - intros w e' [Hw|[= -> ->]%list_elem_of_singleton]%elem_of_app; [by apply H5|].
    split; [eapply env_mono; [by apply ids_close|done|done]|]. exists (close b).
    split_and!; [|done|done]. apply list_lookup_insert_eq. by eapply lookup_lt_Some.
Qed.

Lemma closed_open (bl : list BlockBuild) u b b' :
  bl !! u = Some b -> bb_closed b = false -> closed_same bl (<[u := b']> bl).
Proof. intros Hu Hc. apply (closed_insert bl u b); [done|]. by rewrite Hc. Qed.

Lemma grows_close par s b :
  B s !! current s = Some b -> bb_closed b = false ->
  grows par s par (with_blocks (insert (current s) (close b)) s).
Proof.
  intros Hb Ho. pose proof (lookup_lt_Some _ _ _ Hb) as Hc.
  constructor; simpl; [done|done|by rewrite length_insert|by left|apply anc_refl| | | |
    by apply (closed_open _ _ b)| |done|apply loops_grow_refl].
  - intros u. rewrite length_insert. lia.
  - intros u _ Hne. by rewrite list_lookup_insert_ne.
  - exists []. rewrite app_nil_r. unfold stmts_at. by rewrite list_lookup_insert_eq, Hb.
  - intros u v _. rewrite (succs_insert (B s) (current s) b _ u Hb). case_decide as Hu; [|by left].
    subst u. left. unfold succs_of. by rewrite Hb.
Qed.

Lemma loops_grow_top cur n F F' l : frame_grows cur n F F' -> loops_grow cur n (F :: l) (F' :: l).
Proof. by split. Qed.

Lemma loops_grow_break cur n e F l : loops_grow cur n (F :: l) (add_break cur e F :: l).
Proof.
  apply loops_grow_top. split_and!; [done|exists [cur]|exists []].
  - split; [done|]. intros b ->%list_elem_of_singleton. by left.
  - rewrite app_nil_r. by split; [|intros b ?%elem_of_nil].
Qed.

Lemma convert_break_ok span : conv any (convert_break span).
Proof.
  intros par s Hi (b & Hb & Ho). unfold convert_break. apply wp_get. apply wp_bind. unfold update_loop, wp at 1.
  destruct (loop_stack s) as [|F fr] eqn:Hfr; [done|].
  unfold close_pending, update_block, wp. simpl. rewrite Hb.
  change {| lf_header := _ |} with (add_break (current s) (env s) F).
  pose proof (i_base _ _ _ _ Hi) as [Hg Hc Hf]. apply Forall_cons in Hf as [HF Hf].
  assert (bb_terminator b = None) as Ht by by apply (g_open _ _ _ _ _ Hg (current s)).
  pose proof (i_env _ _ _ _ Hi) as He.
  exists par. split_and!; [split; [constructor|]| |done].
  - by apply (graph_close np (B s) par (next_value s) _ (current s)).
  - simpl. by rewrite length_insert.
  - simpl. constructor; [by apply frame_break|]. eapply Forall_impl; [exact Hf|]. intros F' HF'.
    eapply frame_mono; [by apply ids_close|done|intros w _; by apply (closed_open _ _ b)|apply anc_refl|exact HF'].
  - eapply env_mono; [by apply ids_close|done|exact He].
  - apply (grows_with_loops par s par (with_blocks (insert (current s) (close b)) s));
      [by apply grows_close|]. rewrite Hfr. apply loops_grow_break.
Qed.

(** ** Continue, and the end of a loop *)

Definition add_latch (u : BlockId) (e : Env) (F : LoopFrame) : LoopFrame :=
  {| lf_header := lf_header F; break_blocks := break_blocks F;
     latch_incoming := latch_incoming F ++ [(u, e)]; exit_incoming := exit_incoming F |}.

Lemma pending_latch u e F fr v w :
  w ∈ pending (add_latch u e F :: fr) v <-> (w = u /\ lf_header F = v) \/ w ∈ pending (F :: fr) v.
Proof.
  simpl. destruct (Nat.eqb_spec (lf_header F) v); rewrite ?map_app, !elem_of_app; simpl; [|set_solver].
  rewrite list_elem_of_singleton. naive_solver.
Qed.

Lemma frame_latch bl par cur F u b e :
  let t := terminated (Jump (lf_header F)) b in
  frame_ok bl par cur F -> bl !! u = Some b -> bb_closed b = false ->
  env_ok bl par u e -> frame_ok (<[u := t]> bl) par cur (add_latch u e F).
Proof.
  intros t HF Hb Hc He.
  assert (u ∉ waiting F) as Hu by by apply (open_not_waiting np bl par cur F u b).
  assert (frame_ok (<[u := t]> bl) par cur F) as [H1 H2 H3 H4 H5 H6 H7].
  { eapply frame_mono; [by apply ids_terminated|done| |apply anc_refl|exact HF].
    intros w _. by apply (closed_open bl u b). }
  constructor; simpl; [done|done|done|done|done| |].
  - rewrite map_app. apply NoDup_app. split_and!; [done| |apply NoDup_singleton].
    intros w Hw ->%list_elem_of_singleton. apply Hu, elem_of_app. by right.
  - intros w e' [Hw|[= -> ->]%list_elem_of_singleton]%elem_of_app; [by apply H7|].
    split; [eapply env_mono; [by apply ids_terminated|done|done]|]. exists t.
    split_and!; [|done|done]. apply list_lookup_insert_eq. by eapply lookup_lt_Some.
Qed.

Lemma base_latch par F fr s u b e :
  base par (F :: fr) s -> B s !! u = Some b -> bb_closed b = false ->
  anc par (lf_header F) u -> env_ok (B s) par u e ->
  base par (add_latch u e F :: fr) (terminate u (Jump (lf_header F)) b s).
Proof.
  intros [Hg Hc Hf] Hb Ho Ha He. apply Forall_cons in Hf as [HF Hf]. constructor.
  - eapply graph_terminate; [exact Hg|done|by apply (g_open _ _ _ _ _ Hg u)| | |].
    + intros v ->%list_elem_of_singleton. destruct (f_header _ _ _ _ _ HF) as (p & Hp).
      exists p. split; [done|]. eapply anc_trans; [by apply anc_parent|done].
    + by intros v ?%elem_of_nil.
    + intros v. right. destruct (decide (lf_header F = v)) as [Heq|Hne].
      * right. intros w. rewrite pending_latch. naive_solver.
      * left. simpl. destruct (Nat.eqb_spec (lf_header F) v); [done|]. set_solver.
  - simpl. by rewrite length_insert.
  - simpl. constructor; [by apply frame_latch|]. eapply Forall_impl; [exact Hf|]. intros F' HF'.
    eapply frame_mono; [by apply ids_terminated|done|intros w _; by apply (closed_open _ _ b)|apply anc_refl|exact HF'].
Qed.

Lemma loops_grow_latch cur n u e F l :
  u = cur \/ n <= u -> loops_grow cur n (F :: l) (add_latch u e F :: l).
Proof.
  intros Hu. apply loops_grow_top. split_and!; [done|exists []|exists [u]].
  - rewrite app_nil_r. by split; [|intros b ?%elem_of_nil].
  - simpl. rewrite map_app. split; [done|]. by intros b ->%list_elem_of_singleton.
Qed.

Lemma base_loops par fr l s : base par fr s -> base par fr (with_loops l s).
Proof. by intros []. Qed.

Lemma convert_continue_ok span : conv any (convert_continue span).
Proof.
  intros par s Hi (b & Hb & Ho). unfold convert_continue. apply wp_get. apply wp_bind. unfold update_loop, wp at 1.
  destruct (loop_stack s) as [|F fr] eqn:Hfr; [done|].
  unfold wp. erewrite set_terminator_run; [|exact Hb].
  change {| lf_header := _ |} with (add_latch (current s) (env s) F).
  pose proof (i_base _ _ _ _ Hi) as Hbase. pose proof (i_env _ _ _ _ Hi) as He.
  assert (anc par (lf_header F) (current s)) as Ha.
  { pose proof (i_frames _ _ _ _ Hbase) as Hf. apply Forall_cons in Hf as [HF _].
    apply (f_scope _ _ _ _ _ HF). }
  exists par. split_and!; [split| |done].
  - apply (base_loops par _ (add_latch (current s) (env s) F :: fr) (terminate (current s) (Jump (lf_header F)) b s)).
    by apply base_latch.
  - eapply env_mono; [by apply ids_terminated|done|exact He].
  - apply (grows_with_loops par s par (terminate (current s) (Jump (lf_header F)) b s)).
    + apply grows_terminate; [apply grows_refl, (i_current _ _ _ _ Hbase)|by left|done|].
      intros v ->%list_elem_of_singleton _. rewrite Hfr. left.
    + rewrite Hfr. apply loops_grow_latch. by left.
Qed.

(** ** A sequence of statements *)

Lemma reopen_ok par s :
  inv par (loop_stack s) s ->
  wp reopen s (fun _ s' => exists par', inv par' (loop_stack s') s' /\ grows par s par' s' /\ is_open s').
Proof.
  intros Hi. pose proof (i_base _ _ _ _ Hi) as Hbase. pose proof (i_current _ _ _ _ Hbase) as Hc.
  destruct (lookup_lt_is_Some_2 (B s) (current s) Hc) as [b Hb].
  unfold reopen. apply wp_get. apply (wp_step _ _ s (bb_closed b) s); [unfold is_closed; by rewrite Hb|].
  destruct (bb_closed b) eqn:Ho.
  - apply wp_new_block. unfold wp. simpl.
    destruct (enter_new np par s par s (current s) (env s)) as (H1 & H2 & H3 & _);
      [done|by apply grows_refl|done|apply anc_refl|done|apply (i_env _ _ _ _ Hi)|].
    by exists (par ++ [Some (current s)]).
  - apply wp_ret. exists par. split_and!; [done|by apply grows_refl|by exists b].
Qed.

Lemma convert_stmts_ok {A} (f : A -> Building (option SsaValue)) l :
  Forall (fun x => conv valued (f x)) l -> forall last par s,
  inv par (loop_stack s) s -> valued par s last ->
  wp (convert_stmts f last l) s (fun a s' =>
    exists par', inv par' (loop_stack s') s' /\ grows par s par' s' /\ valued par' s' a).
Proof.
  induction 1 as [|x l Hx _ IH]; intros last par s Hi Hv; simpl.
  - apply wp_ret. exists par.
    split_and!; [done|apply grows_refl, (i_current _ _ _ _ (i_base _ _ _ _ Hi))|done].
  - apply wp_bind. eapply wp_mono; [exact (reopen_ok par s Hi)|]. intros r s1 _ (par1 & Hi1 & Hg1 & Ho1).
    apply wp_bind. eapply wp_mono; [exact (Hx par1 s1 Hi1 Ho1)|]. intros v s2 _ (par2 & Hi2 & Hg2 & Hv2).
    eapply wp_mono; [exact (IH v par2 s2 Hi2 Hv2)|]. intros a s' _ (par3 & Hi3 & Hg3 & Hv3).
    exists par3. split_and!; [done| |done]. eapply grows_trans; [exact Hg1|by eapply grows_trans].
Qed.

Lemma convert_block_ok f l :
  Forall (fun x => conv valued (f x)) l -> conv valued (convert_stmts (A := CoreStmt) f None l).
Proof. intros Hf par s Hi _. by apply convert_stmts_ok. Qed.

(** ** Conditionals *)

(** Without an [else]: one way goes to the join directly. *)
Lemma one_arm par0 s0 par1 s1 c par2 s2 t :
  decided np par0 s0 par1 s1 c -> arm np par0 s0 par1 s1 (current s1) par2 s2 t ->
  joining np par0 s0 par2 s2 (current s1) c t (length (B s2)) (current s1) (map fst (arm_ends s2))
    ((current s1, env s1) :: arm_ends s2) (env s1).
Proof.
  intros Hd Ht. pose proof (de_start _ _ _ _ _ _ Hd) as Hs.
  destruct (arm_target np _ _ _ _ _ _ _ _ Hs (de_grows _ _ _ _ _ _ Hd) Ht) as (T1 & T2 & T3 & T4).
  pose proof (i_base _ _ _ _ (arm_inv _ _ _ _ _ _ _ _ _ Ht)) as Hb2.
  pose proof (arm_entry _ _ _ _ _ _ _ _ _ Ht) as ->.
  destruct (decided_later np _ _ _ _ _ par2 s2 Hd (arm_par _ _ _ _ _ _ _ _ _ Ht)
    (arm_ids _ _ _ _ _ _ _ _ _ Ht) (arm_old _ _ _ _ _ _ _ _ _ Ht)) as (D1 & D2 & D3 & D4 & D5 & D6); [lia|].
  pose proof (i_current _ _ _ _ (i_base _ _ _ _ (de_inv _ _ _ _ _ _ Hd))) as Hcin.
  pose proof (gr_length _ _ _ _ (de_grows _ _ _ _ _ _ Hd)) as Hlen.
  assert (forall u e, (u, e) ∈ arm_ends s2 -> length (B s1) <= u /\ env_ok (B s2) par2 u e /\
    anc par2 (length (B s1)) u /\ (exists b, B s2 !! u = Some b /\ bb_terminator b = None) /\
    forall F, F ∈ loop_stack s2 -> u ∉ waiting F) as He.
  { intros u e Hu. destruct (arm_end_free np _ _ _ _ _ _ _ _ par2 s2 u e Ht Hb2) as ([E1 _] & E2 & E3 & E4 & E5);
      [done|done|]. by split_and!. }
  assert (current s1 ∉ map fst (arm_ends s2)) as Hnin.
  { intros ([u e] & Heq & Hu)%list_elem_of_fmap. simpl in Heq. destruct (He u e Hu) as [Hge _]. lia. }
  constructor; [done|done|apply (arm_grows _ _ _ _ _ _ _ _ _ Ht)|done|done|done| |apply arm_ends_nodup| |done|
    intros _; apply anc_refl| | | | |done].
  - intros v [->|[->|[]%elem_of_nil]%elem_of_cons]%elem_of_cons; [right|by left]. split_and!; [done|done|lia|lia].
  - intros u ([u' e] & -> & Hu)%list_elem_of_fmap. destruct (He u' e Hu) as (E1 & E2 & E3 & E4 & E5).
    simpl. split_and!; [lia|lia|eapply anc_trans; [by apply (anc_parent par2 (length (B s1)))|done]|exact E4|exact E5].
  - intros u. simpl. rewrite elem_of_cons. set_solver.
  - simpl. constructor; [done|apply arm_ends_nodup].
  - intros u e [[= -> ->]|Hu]%elem_of_cons; [done|by apply (He u e)].
  - intros d _ Hd'. apply Hd'. left.
Qed.
(** The end of a conditional: the branch, the jumps, the merge. *)
Lemma join_all_ok par0 s0 par s cond c t f p ends incoming fallback span :
  joining np par0 s0 par s cond c t f p (map fst ends) incoming fallback ->
  wp (build_bind (set_terminator cond (Branch c t f)) (fun _ =>
      build_bind (jump_all (length (B s)) ends) (fun _ =>
      merge_into (length (B s)) incoming fallback span))) (snoc_block_state s)
    (fun _ s' => exists par', inv par' (loop_stack s') s' /\ grows par0 s0 par' s' /\ True).
Proof.
  intros Hj. destruct (join_run np _ _ _ _ _ _ _ _ _ _ _ _ span Hj) as (s1 & s2 & s3 & H1 & H2 & H3 & Hjd & _).
  eapply wp_step; [exact H1|]. eapply wp_step; [rewrite jump_all_blocks; exact H2|].
  unfold wp. rewrite H3. eexists.
  split_and!; [apply (jd_inv _ _ _ _ _ _ _ _ Hjd)|apply (jd_grows _ _ _ _ _ _ _ _ Hjd)|done].
Qed.

Lemma arm_current_inside par1 s1 par2 s2 cond par3 s3 entry :
  arm np par1 s1 par2 s2 cond par3 s3 entry -> current s3 < length (B s3).
Proof. intros Ha. apply (i_current _ _ _ _ (i_base _ _ _ _ (arm_inv _ _ _ _ _ _ _ _ _ Ha))). Qed.

Lemma convert_if_ok condition then_branch else_branch span :
  piece [] one_value condition -> conv valued then_branch ->
  (forall m, else_branch = Some m -> conv valued m) ->
  conv any (convert_if condition then_branch else_branch span).
Proof.
  intros Hc Ht He par s Hi Ho. unfold convert_if.
  apply wp_bind. eapply wp_mono; [exact (piece_conv np _ _ Hc par s Hi Ho)|].
  intros c s1 _ (par1 & Hi1 & Hg1 & Ho1 & Hv1).
  pose proof (decided_start np _ _ _ _ _ Hi Hg1 Hi1 Ho1 Hv1) as Hd. apply wp_get.
  apply wp_in_new_block. eapply wp_mono; [exact (first_arm np _ _ _ _ _ _ _ Hd Ht)|].
  intros tv s2 _ (par2 & Ha2 & _).
  apply wp_open_end; [by eapply arm_current_inside|]. intros te Hte. rewrite Hte.
  destruct else_branch as [m|]; apply wp_bind.
  - apply wp_in_new_block. eapply wp_mono; [exact (second_arm np _ _ _ _ _ _ _ _ _ _ Hd Ha2 (He m eq_refl))|].
    intros ev s3 _ (par3 & Ha3 & _). apply wp_open_end; [by eapply arm_current_inside|]. intros ee Hee.
    apply wp_ret. apply wp_new_block. simpl. rewrite Hee.
    exact (join_all_ok _ _ _ _ _ _ _ _ _ _ _ _ _ (two_arms np _ _ _ _ _ _ _ _ _ _ _ Hd Ha2 Ha3)).
  - apply wp_ret. apply wp_new_block. simpl. rewrite app_nil_r.
    exact (join_all_ok _ _ _ _ _ _ _ _ _ _ _ _ _ (one_arm _ _ _ _ _ _ _ _ Hd Ha2)).
Qed.
End Jumps.
