(* ===== verification/BuildWhile.v ===== *)
(** * The header of a loop under construction

    The phis of a header are made with the operand of the entry alone; the latches
    wait with the frame until the body is built, then [seal_phis] adds their
    operands to all the phis at once ([base_seal]). *)

From S2P Require Export BuildJumps.

Section Seal.
Context {C : CoreTypes} {U : UnicodeTables}.
Variable np : nat.

Abbreviation Env := (gmap string SsaValue).
Abbreviation avail := (avail np).
Abbreviation env_ok := (env_ok np).
Abbreviation base := (base np).
Abbreviation inv := (inv np).
Abbreviation frame_ok := (frame_ok np).
Abbreviation graph_ok := (graph_ok np).
Abbreviation B := bl_blocks.

(** ** The phis of the header *)

(** A phi with the operand of the entry only. *)
Definition phi_from (pre : BlockId) (st : SsaStatement) : Prop :=
  exists vals, stmt_op st = Phi {| edges := [pre]; values := vals |}.

Lemma header_phis_ok par fr pre pre_env vars span s r s' b :
  base par fr s -> B s !! current s = Some b -> phis_only (bb_stmts b) ->
  joins np par fr (B s) (current s) [(pre, pre_env)] -> env_ok (B s) par (current s) (env s) ->
  header_phis (current s) pre pre_env vars span s = Ok (r, s') ->
  exists k, phis_added s s' b k /\ base par fr s' /\ env_ok (B s') par (current s) (env s') /\
    ids_grow (B s) (B s') /\ length k = length vars /\ Forall (phi_from pre) k.
Proof.
  revert s b. induction vars as [|var vars IH]; intros s b Hb Hcur Hph Hj He Hm; simpl in Hm.
  - apply ret_Ok in Hm as [-> ->]. exists []. split_and!; [|done|done|by intros u x|done|constructor].
    constructor; [|by constructor|done|done|done]. rewrite app_nil_r.
    rewrite list_insert_id; [done|]. rewrite Hcur. by destruct b.
  - apply bind_Ok in Hm as (id & s1 & [= <- <-] & Hm). apply bind_Ok in Hm as (x & s2 & Hu & Hm).
    unfold update_block in Hu. simpl in Hu. rewrite Hcur in Hu. injection Hu as <- <-.
    apply bind_Ok in Hm as (y & s3 & ->%modify_Ok & Hm).
    set (op := Phi {| edges := [pre]; values := [pre_env !! var] |}) in *.
    set (s3 := with_env (insert var (Def (next_value s))) (pushed s b op span)).
    change (header_phis (current s3) pre pre_env vars span s3 = Ok (r, s')) in Hm.
    destruct (base_push np par fr s b op span Hb Hcur) as (Hb1 & Hv & Hids & Hcl).
    { by intros v ?%elem_of_nil. }
    { simpl. rewrite (j_shown _ _ _ _ _ _ Hj), off_nil, <- (j_edges _ _ _ _ _ _ Hj). simpl.
      split_and!; [done|done|done|done|]. intros p v [= -> Hpv]%list_elem_of_singleton.
      by apply (j_env _ _ _ _ _ _ Hj pre pre_env ltac:(left) var v). }
    destruct (IH s3 (push_stmt {| stmt_id := next_value s; stmt_op := op; stmt_span := span |} b))
      as (k & Hk & K1 & K2 & K3 & K4 & K5).
    + by destruct Hb1.
    + simpl. apply list_lookup_insert_eq. by eapply lookup_lt_Some.
    + simpl. apply Forall_app. split; [done|]. by constructor.
    + by apply joins_push.
    + intros n v Hn. simpl in Hn. apply lookup_insert_Some in Hn as [[<- <-]|[_ Hv']]; [exact Hv|].
      eapply avail_mono; [exact Hids|done|by eapply He].
    + exact Hm.
    + assert (phis_added (pushed s b op span) s'
        (push_stmt {| stmt_id := next_value s; stmt_op := op; stmt_span := span |} b) k) as Hk' by by destruct Hk.
      eexists. split; [exact (phis_added_push s b op span s' k Hcur eq_refl Hk')|].
      split_and!; [done|done| |simpl; lia|constructor; [by eexists|done]].
      intros u x Hx. by apply K3, Hids.
Qed.

Lemma header_phis_run header pre pre_env vars span s :
  header < length (B s) -> exists s', header_phis header pre pre_env vars span s = Ok (tt, s').
Proof.
  revert s. induction vars as [|var vars IH]; intros s Hh; [by eexists|]. cbn [header_phis].
  destruct (lookup_lt_is_Some_2 (B s) header Hh) as [b Hb].
  unfold build_bind at 1. simpl. unfold build_bind at 1, update_block. simpl. rewrite Hb. simpl.
  apply IH. simpl. by rewrite length_insert.
Qed.

(** The header is made, and its phis. *)
Lemma loop_head par0 s0 vars span r1 s1 r2 s2 :
  inv par0 (loop_stack s0) s0 -> is_open s0 ->
  set_terminator (current s0) (Jump (length (B s0))) (snoc_block_state s0) = Ok (r1, s1) ->
  header_phis (length (B s0)) (current s0) (env s0) vars span (with_current (length (B s0)) s1) = Ok (r2, s2) ->
  exists par1 k, inv par1 (loop_stack s2) s2 /\ grows par0 s0 par1 s2 /\ is_open s2 /\
    current s2 = length (B s0) /\ parent par1 (length (B s0)) (current s0) /\
    stmts_at (B s2) (length (B s0)) = k /\ length k = length vars /\ Forall (phi_from (current s0)) k.
Proof.
  intros Hi (b & Hb & Ho) (b' & Hb' & ->)%set_terminator_Ok Hph.
  pose proof (i_base _ _ _ _ Hi) as Hbase. pose proof (i_current _ _ _ _ Hbase) as Hc.
  simpl in Hb'. rewrite lookup_app_l in Hb' by done. rewrite Hb in Hb'. injection Hb' as <-.
  destruct (enter_new np par0 s0 par0 s0 (current s0) (env s0)) as (Hi1 & Hg1 & (c & Hc1 & Hc2) & Hp1);
    [done|by apply grows_refl|done|apply anc_refl|done|apply (i_env _ _ _ _ Hi)|].
  set (par1 := par0 ++ [Some (current s0)]) in *. set (header := length (B s0)) in *.
  set (s1 := with_current header (terminate (current s0) (Jump header) b (snoc_block_state s0))) in *.
  assert (B (entered (env s0) s0) !! current s0 = Some b) as Hb1 by (simpl; by rewrite lookup_app_l).
  assert (c = empty_block) as ->.
  { simpl in Hc1. unfold header in Hc1. rewrite lookup_app_r, Nat.sub_diag in Hc1 by done. by injection Hc1. }
  assert (bb_terminator b = None) as Hnt
    by by apply (g_open _ _ _ _ _ (i_graph _ _ _ _ Hbase) (current s0)).
  assert (no_edges (B (entered (env s0) s0)) header) as Hnew.
  { apply no_edges_snoc. by apply (fresh_no_edges np par0 _ _ _ _ (i_graph _ _ _ _ Hbase)). }
  assert (base par1 (loop_stack s0) s1) as Hbase1.
  { apply (base_terminate np par1 (loop_stack s0) (entered (env s0) s0) (current s0) (Jump header) b); try done.
    - apply Hi1.
    - intros F HF. by apply (open_free np par0 _ s0 (current s0) b F Hbase).
    - intros v ->%list_elem_of_singleton. exists (current s0). split; [done|apply anc_refl].
    - by intros v ?%elem_of_nil.
    - intros v ->%list_elem_of_singleton. by eapply empty_no_phis. }
  assert (B s1 !! header = Some empty_block) as Hh.
  { simpl. rewrite list_lookup_insert_ne by (unfold header; lia). exact Hc1. }
  assert (ids_grow (B (entered (env s0) s0)) (B s1)) as Hids by by apply ids_terminated.
  destruct (header_phis_ok par1 (loop_stack s0) (current s0) (env s0) vars span s1 r2 s2 empty_block)
    as (k & Hk & K1 & K2 & K3 & K4 & K5); [done|done|constructor| | |done|].
  - constructor; [|done|by apply (pending_new np par0 _ s0)| |].
    + apply (sorted_preds _ _ [(current s0, env s0)]); [apply NoDup_singleton|]. simpl. intros u. rewrite list_elem_of_singleton, preds_elem.
      rewrite (succs_terminated _ _ _ _ u Hb1).
      pose proof (proj1 (no_edges_spec _ _) Hnew u). simpl. case_decide; set_solver.
    + intros u e [= -> ->]%list_elem_of_singleton. eapply env_mono; [exact Hids|done|].
      eapply env_mono; [|by eexists|apply (i_env _ _ _ _ Hi)]. intros u x Hx. simpl. by rewrite ids_snoc.
    + intros d Hd. eapply anc_trans; [apply Hd; left|by apply anc_parent].
  - eapply env_mono; [exact Hids|done|apply (i_env _ _ _ _ Hi1)].
  - assert (current s2 = header) as Hcur by by rewrite (pa_current _ _ _ _ Hk).
    assert (loop_stack s2 = loop_stack s0) as Hls by by rewrite (pa_loops _ _ _ _ Hk).
    assert (B s2 !! header = Some {| bb_stmts := k; bb_terminator := None; bb_closed := false |}) as Hb2.
    { rewrite (pa_blocks _ _ _ _ Hk). simpl. apply list_lookup_insert_eq. by eapply lookup_lt_Some. }
    exists par1, k. rewrite Hcur, Hls. split_and!; [split; [done|by rewrite Hcur]| | |done|done| |done|done].
    + apply (grows_phis par0 s0 par1 s1 s2 empty_block k); [|done|done|done].
      apply (grows_terminate par0 s0 par1 (entered (env s0) s0) (current s0) (Jump header) b);
        [done|by left|done|]. intros v ->%list_elem_of_singleton. unfold header. lia.
    + eexists. rewrite Hcur. by split.
    + unfold stmts_at. by rewrite Hb2.
Qed.
(** ** Sealing *)

Definition sealed (lat : list (BlockId * Env)) (st st' : SsaStatement) : Prop :=
  exists var, st' = seal_phi lat var st.

Lemma seal_id lat var st : stmt_id (seal_phi lat var st) = stmt_id st.
Proof. unfold seal_phi. by destruct (stmt_op st). Qed.

Lemma seal_operands lat var st : operands (stmt_op (seal_phi lat var st)) = operands (stmt_op st).
Proof. unfold seal_phi. by destruct (stmt_op st) eqn:Ho; rewrite ?Ho. Qed.

Lemma seal_is_phi lat var st : is_phi (stmt_op (seal_phi lat var st)) = is_phi (stmt_op st).
Proof. unfold seal_phi. by destruct (stmt_op st) eqn:Ho; rewrite ?Ho. Qed.

Lemma sealed_ids lat l l' : Forall2 (sealed lat) l l' -> map stmt_id l' = map stmt_id l.
Proof. induction 1 as [|x y l l' (var & ->) _ IH]; [done|]. simpl. by rewrite seal_id, IH. Qed.

Lemma sealed_phis lat l l' : Forall2 (sealed lat) l l' -> phi_prefix l -> phi_prefix l'.
Proof.
  intros Hs (ps & rest & -> & Hp & Hr).
  apply Forall2_app_inv_l in Hs as (l1 & l2 & H1 & H2 & ->). exists l1, l2. split_and!; [done| |].
  - clear -H1 Hp. induction H1 as [|x y l l' (var & ->) _ IH]; [constructor|].
    apply Forall_cons in Hp as [Hx Hp]. constructor; [|by apply IH]. unfold stmt_is_phi in *. by rewrite seal_is_phi.
  - clear -H2 Hr. induction H2 as [|x y l l' (var & ->) _ IH]; [constructor|].
    apply Forall_cons in Hr as [Hx Hr]. constructor; [|by apply IH]. unfold stmt_is_phi in *. by rewrite seal_is_phi.
Qed.

(** A sealed phi was a phi of the entry. *)
Lemma sealed_phi lat st st' phi :
  sealed lat st st' -> stmt_op st' = Phi phi ->
  exists var phi0, stmt_op st = Phi phi0 /\ edges phi = edges phi0 ++ map fst lat /\
    values phi = values phi0 ++ map (fun e => e.2 !! var) lat.
Proof.
  intros (var & ->). unfold seal_phi. destruct (stmt_op st) as [phi0| | | | | | | | |] eqn:Ho; try congruence.
  simpl. intros [= <-]. by exists var, phi0.
Qed.

Definition with_stmts (l : list SsaStatement) (b : BlockBuild) : BlockBuild :=
  {| bb_stmts := l; bb_terminator := bb_terminator b; bb_closed := bb_closed b |}.

Lemma seal_phis_Ok header lat vars before todo rest b s r s' :
  B s !! header = Some b -> bb_stmts b = before ++ todo ++ rest -> length todo = length vars ->
  seal_phis header lat (length before) vars s = Ok (r, s') ->
  s' = with_blocks (insert header (with_stmts (before ++ zip_with (seal_phi lat) vars todo ++ rest) b)) s.
Proof.
  revert before todo b s. induction vars as [|var vars IH]; intros before todo b s Hb Hl Hlen Hrun; simpl in Hrun.
  - destruct todo; [|done]. apply ret_Ok in Hrun as [_ ->]. simpl. simpl in Hl.
    rewrite <- Hl. destruct s as [bl n e g f c], b as [ss tm cl]. unfold with_blocks, with_stmts. simpl in *.
    by rewrite list_insert_id.
  - destruct todo as [|st todo]; [done|]. simpl in Hl. apply bind_Ok in Hrun as (x & y & [-> ->]%get_Ok & Hrun).
    rewrite Hb, Hl, (list_lookup_middle before) in Hrun by done.
    apply bind_Ok in Hrun as (x & s1 & Hu & Hrun). unfold update_block in Hu. rewrite Hb in Hu.
    injection Hu as <- <-. rewrite Hl, insert_app_r_alt, Nat.sub_diag in Hrun by done. simpl in Hrun.
    set (st' := seal_phi lat var st) in *. set (b1 := with_stmts (before ++ st' :: todo ++ rest) b).
    change {| bb_stmts := _ |} with b1 in Hrun.
    rewrite (IH (before ++ [st']) todo b1 (with_blocks (insert header b1) s)); [| | | |by rewrite length_app].
    + unfold with_blocks. simpl. rewrite list_insert_insert_eq. by rewrite <- app_assoc.
    + simpl. apply list_lookup_insert_eq. by eapply lookup_lt_Some.
    + simpl. by rewrite <- app_assoc.
    + by injection Hlen.
Qed.

Lemma sealed_zip lat vars todo :
  length todo = length vars -> Forall2 (sealed lat) todo (zip_with (seal_phi lat) vars todo).
Proof.
  revert todo. induction vars as [|var vars IH]; intros [|st todo]; simpl; try done.
  intros [= Hl]. constructor; [by exists var|by apply IH].
Qed.

Lemma seal_phis_run header lat vars index b s :
  B s !! header = Some b -> index + length vars <= length (bb_stmts b) ->
  exists s', seal_phis header lat index vars s = Ok (tt, s').
Proof.
  revert index b s. induction vars as [|var vars IH]; intros index b s Hb Hl; [by eexists|].
  simpl in Hl. cbn [seal_phis]. unfold build_bind at 1, build_get. simpl. rewrite Hb.
  destruct (lookup_lt_is_Some_2 (bb_stmts b) index) as [st Hst]; [lia|]. rewrite Hst.
  unfold build_bind, update_block. rewrite Hb. simpl. eapply IH.
  - simpl. apply list_lookup_insert_eq. by eapply lookup_lt_Some.
  - simpl. rewrite length_insert. lia.
Qed.

Lemma pending_top F fr : pending (F :: fr) (lf_header F) = map fst (latch_incoming F) ++ pending fr (lf_header F).
Proof. simpl. by rewrite Nat.eqb_refl. Qed.

Lemma off_elem hidden l u : u ∈ off hidden l <-> u ∉ hidden /\ u ∈ l.
Proof. unfold off. by rewrite list_elem_of_filter. Qed.

(** The entry and the latches are the predecessors. *)
Lemma header_edges par F fr s pre :
  base par (F :: fr) s -> pending fr (lf_header F) = [] -> parent par (lf_header F) pre ->
  [pre] = off (pending (F :: fr) (lf_header F)) (preds_of (B s) (lf_header F)) ->
  [pre] ++ map fst (sort_edges (latch_incoming F)) = preds_of (B s) (lf_header F).
Proof.
  intros Hb Hnone Hp Hoff. rewrite pending_top, Hnone, app_nil_r in Hoff.
  pose proof (i_graph _ _ _ _ Hb) as Hg. pose proof (i_frames _ _ _ _ Hb) as Hf.
  apply Forall_cons in Hf as [HF _].
  assert (map fst (sort_edges (latch_incoming F)) ≡ₚ map fst (latch_incoming F)) as Hperm
    by apply Permutation_map, sort_edges_perm.
  assert (forall u, u ∈ map fst (latch_incoming F) -> u ∈ preds_of (B s) (lf_header F)) as Hin.
  { intros u ([u' e] & -> & Hu)%list_elem_of_fmap. destruct (f_latch _ _ _ _ _ HF u' e Hu) as (_ & c & Hc & _ & Ht).
    apply preds_elem. unfold succs_of. simpl. rewrite Hc. unfold finished_terminator. rewrite Ht. left. }
  assert (pre ∉ map fst (latch_incoming F) /\ pre ∈ preds_of (B s) (lf_header F)) as [Hpre Hprein].
  { apply off_elem. rewrite <- Hoff. left. }
  apply sorted_same; [| apply preds_sorted| |apply preds_nodup|].
  - simpl. constructor; [apply sort_edges_sorted|]. apply Forall_forall. intros u Hu. rewrite Hperm in Hu.
    apply Hin, preds_elem in Hu. destruct (g_edge _ _ _ _ _ Hg _ _ Hu) as (q & Hq & Ha).
    rewrite (parent_fun _ _ _ _ Hp Hq). by apply (anc_le par (g_parent _ _ _ _ _ Hg)).
  - simpl. constructor; rewrite Hperm; [done|apply (f_latches_nodup _ _ _ _ _ HF)].
  - intros u. simpl. rewrite elem_of_cons, Hperm. split.
    + intros [->|Hu]; [done|by apply Hin].
    + intros Hu. destruct (decide (u ∈ map fst (latch_incoming F))) as [|Hn]; [by right|left].
      apply list_elem_of_singleton. rewrite Hoff. by apply off_elem.
Qed.

(** The operands of the latches. *)
Lemma latch_values (lat : list (BlockId * Env)) var p v :
  (p, Some v) ∈ zip (map fst lat) (map (fun e => e.2 !! var) lat) ->
  exists e, (p, e) ∈ lat /\ e !! var = Some v.
Proof.
  induction lat as [|[u e] lat IH]; simpl; [by intros ?%elem_of_nil|].
  intros [[= -> Hv]|H]%elem_of_cons.
  - exists e. split; [left|done].
  - destruct (IH H) as (e' & He & Hv). exists e'. split; [by right|done].
Qed.

Lemma base_seal par F fr s b l pre :
  base par (F :: fr) s -> pending fr (lf_header F) = [] -> parent par (lf_header F) pre ->
  B s !! lf_header F = Some b -> Forall2 (sealed (sort_edges (latch_incoming F))) (bb_stmts b) l ->
  (forall st phi, st ∈ bb_stmts b -> stmt_op st = Phi phi -> edges phi = [pre]) ->
  base par fr (with_blocks (insert (lf_header F) (with_stmts l b)) s).
Proof.
  intros Hb Hnone Hp Hh Hs Hpre. set (h := lf_header F) in *. set (b' := with_stmts l b).
  set (lat := sort_edges (latch_incoming F)) in *.
  pose proof (i_graph _ _ _ _ Hb) as Hg. pose proof (i_frames _ _ _ _ Hb) as Hf.
  apply Forall_cons in Hf as [HF Hf].
  assert (forall w, preds_of (<[h := b']> (B s)) w = preds_of (B s) w) as Hpreds
    by (intros w; by apply (preds_insert_same (B s) h b)).
  assert (ids_grow (B s) (<[h := b']> (B s))) as Hgrow.
  { intros w x. rewrite (ids_insert (B s) h b _ w Hh). case_decide as Hw; [subst w|done].
    rewrite (ids_lookup (B s) h b Hh). simpl. by rewrite (sealed_ids lat _ _ Hs). }
  assert (par `prefix_of` par) as Hrefl by done.
  constructor; [|simpl; rewrite length_insert; apply (i_current _ _ _ _ Hb)|].
  2: { eapply Forall_impl; [exact Hf|]. intros F' HF'.
    eapply frame_mono; [exact Hgrow|done|intros w _; by apply (closed_insert _ _ b)|apply anc_refl|exact HF']. }
  eapply graph_change; [exact Hg|]. eapply (Build_change _ _ _ _ _ _ _ _ h b _ []); try done.
  - simpl. by rewrite app_nil_r, (sealed_ids lat _ _ Hs).
  - constructor.
  - by intros x ?%elem_of_nil.
  - intros v Hv. apply (g_edge _ _ _ _ _ Hg). unfold succs_of. by rewrite Hh.
  - intros before st after v Hl Hv. simpl in Hl. subst l.
    apply Forall2_app_inv_r in Hs as (l1 & l2 & H1 & H2 & Heq). apply Forall2_cons_inv_r in H2 as (st0 & l3 & (var & ->) & H3 & ->).
    rewrite seal_operands in Hv. pose proof (g_operands _ _ _ _ _ Hg h b l1 st0 l3 v Hh Heq Hv) as Hop.
    apply (operand_mono np (B s) _ par par _ _ _ Hgrow Hrefl) in Hop.
    destruct v as [x|k|lit]; [|done|done]. simpl in *. by rewrite (sealed_ids lat _ _ H1).
  - intros v Hv. by apply (g_terminator _ _ _ _ _ Hg h b).
  - simpl. eapply sealed_phis; [exact Hs|by apply (g_prefix _ _ _ _ _ Hg h b)].
  - intros st phi Hst Hop. simpl in Hst. apply list_elem_of_lookup in Hst as [i Hi].
    destruct (Forall2_lookup_r _ _ _ _ _ Hs Hi) as (st0 & Hi0 & Hse). apply list_elem_of_lookup_2 in Hi0.
    destruct (sealed_phi _ _ _ _ Hse Hop) as (var & phi0 & Hop0 & He & Hv).
    destruct (g_phi _ _ _ _ _ Hg h b st0 phi0 Hh Hi0 Hop0) as (G1 & G2 & G3).
    rewrite Hpreds, He, Hv, Hnone, off_nil, !length_app, !length_map, G3.
    rewrite (Hpre st0 phi0 Hi0 Hop0) in G1 |- *. split_and!; [by eapply header_edges|done|done].
  - intros st phi p v Hst Hop Hpv. simpl in Hst. apply list_elem_of_lookup in Hst as [i Hi].
    destruct (Forall2_lookup_r _ _ _ _ _ Hs Hi) as (st0 & Hi0 & Hse). apply list_elem_of_lookup_2 in Hi0.
    destruct (sealed_phi _ _ _ _ Hse Hop) as (var & phi0 & Hop0 & He & Hv).
    destruct (g_phi _ _ _ _ _ Hg h b st0 phi0 Hh Hi0 Hop0) as (_ & _ & G3).
    rewrite He, Hv, zip_with_app in Hpv by done. eapply avail_mono; [exact Hgrow|exact Hrefl|].
    apply elem_of_app in Hpv as [Hpv|Hpv]; [by eapply (g_phi_values _ _ _ _ _ Hg h b)|].
    apply latch_values in Hpv as (e & Hin & Hev). unfold lat in Hin. rewrite (sort_edges_perm (latch_incoming F)) in Hin.
    destruct (f_latch _ _ _ _ _ HF p e Hin) as [Henv _]. by eapply Henv.
  - intros w c st phi Hne _ _ _. rewrite Hpreds. simpl. destruct (Nat.eqb_spec (lf_header F) w); [by subst w|done].
  - by apply (g_open _ _ _ _ _ Hg h b).
Qed.
End Seal.

(** * Loops under construction

    The header and its phis, the condition, the body with the frame of the loop on
    the stack, the jump back, the latches' operands, the exit. *)

Section While.
Context {C : CoreTypes} {U : UnicodeTables}.
Variable np : nat.

Abbreviation Env := (gmap string SsaValue).
Abbreviation avail := (avail np).
Abbreviation env_ok := (env_ok np).
Abbreviation base := (base np).
Abbreviation inv := (inv np).
Abbreviation frame_ok := (frame_ok np).
Abbreviation conv := (conv np).
Abbreviation piece := (piece np).
Abbreviation arm := (arm np).
Abbreviation B := bl_blocks.

(** ** The frame *)

Definition new_frame (header : BlockId) : LoopFrame :=
  {| lf_header := header; break_blocks := []; latch_incoming := []; exit_incoming := [] |}.

Lemma graph_hidden bl par next hidden hidden' :
  graph_ok np bl par next hidden -> (forall v, hidden v = hidden' v) -> graph_ok np bl par next hidden'.
Proof.
  intros [H1 H2 H3 H4 H5 H6 H7 H8 H9 H10 H11 H12] Hh. constructor; try done.
  intros u b s phi. rewrite <- Hh. apply H10.
Qed.

Lemma base_new_frame par fr s header :
  base par fr s -> (exists p, parent par header p) -> anc par header (current s) ->
  base par (new_frame header :: fr) s.
Proof.
  intros [Hg Hc Hf] Hp Ha. constructor; [|done|].
  - eapply graph_hidden; [exact Hg|]. intros v. simpl. by destruct (_ =? _).
  - constructor; [|done]. constructor; simpl; [done|done|done|constructor| |constructor|];
      by intros b e ?%elem_of_nil.
Qed.

Definition looped (header : BlockId) (s : Builder) : Builder :=
  with_loops (new_frame header :: loop_stack s) s.

(** What is done inside of a new frame, seen from outside of its loop. *)
Lemma grows_inner par1 s1 par2 s2 par3 s3 header :
  grows par1 s1 par2 s2 -> grows par2 (looped header s2) par3 s3 -> length (B s1) <= header ->
  grows par1 s1 par3 (with_loops (loop_stack s2) s3).
Proof.
  intros Hg1 Hg2 Hh. pose proof (loops_headers _ _ _ _ (gr_loops _ _ _ _ Hg1)) as Hl.
  eapply grows_trans_loops; [exact Hg1|exact Hg2| |apply (gr_loops _ _ _ _ Hg1)].
  intros v Hv. simpl. rewrite Hl. intros [->|Hin]%elem_of_cons; [lia|done].
Qed.

(** ** The body *)

(** Where the condition of a loop has ended: [k] is the number of phis. *)
Record loop_at (par0 : Parents) (s0 : Builder) (parC : Parents) (sC : Builder) (c : SsaValue)
    (header : BlockId) (k : nat) : Prop := {
  la_decided : decided np par0 s0 parC sC c;
  la_header : length (B s0) <= header;
  la_parent : parent parC header (current s0);
  la_scope : anc parC header (current sC);
  la_phis : exists ps rest, stmts_at (B sC) header = ps ++ rest /\ length ps = k /\
    Forall (phi_from (current s0)) ps /\ Forall (fun st => is_phi (stmt_op st) = false) rest
}.

Lemma loop_body par0 s0 parC sC c header k body :
  loop_at par0 s0 parC sC c header k -> conv (valued np) body ->
  wp body (entered (env sC) (looped header sC)) (fun _ sB => exists parB F, arm parC (looped header sC) parC (looped header sC) (current sC) parB sB (length (B sC)) /\
    loop_stack sB = F :: loop_stack sC /\ lf_header F = header /\
    (forall b, b ∈ break_blocks F -> length (B sC) <= b) /\
    grows par0 s0 parB (with_loops (loop_stack sC) sB)).
Proof.
  intros [Hd Hh Hp Ha _] Hbody. pose proof (de_inv _ _ _ _ _ _ Hd) as Hi.
  pose proof (i_base _ _ _ _ Hi) as Hb. pose proof (i_current _ _ _ _ Hb) as Hc.
  assert (base parC (loop_stack (looped header sC)) (looped header sC)) as Hb'.
  { apply base_loops, base_new_frame; [done|by eexists|done]. }
  eapply wp_mono; [apply (arm_ok np (valued np) body parC (looped header sC) parC (looped header sC) (current sC) (env sC));
    [done|done|by apply grows_refl|done|apply anc_refl|done|apply (i_env _ _ _ _ Hi)]|].
  intros v sB _ (parB & Harm & _).
  pose proof (arm_loops _ _ _ _ _ _ _ _ _ Harm) as Hl. simpl in Hl.
  destruct (loop_stack sB) as [|F fr] eqn:Hfr; [done|].
  destruct Hl as [-> (F1 & (kb & F2 & F3) & _)]. exists parB, F. split_and!; [done|done|done| |].
  - intros b. rewrite F2. simpl. intros Hin. destruct (F3 b Hin) as [->|]; lia.
  - eapply grows_inner; [apply (de_grows _ _ _ _ _ _ Hd)|apply (arm_grows _ _ _ _ _ _ _ _ _ Harm)|done].
Qed.
(** ** The jump back *)

Lemma jump_back par0 s0 parB fr F sB r s' :
  base parB (F :: fr) sB -> env_ok (B sB) parB (current sB) (env sB) ->
  grows par0 s0 parB (with_loops fr sB) -> length (B s0) <= current sB -> length (B s0) <= lf_header F ->
  jump_all (lf_header F) (arm_ends sB) (with_loops fr sB) = Ok (r, s') ->
  exists F', base parB (F' :: fr) s' /\ lf_header F' = lf_header F /\
    latch_incoming F' = latch_incoming F ++ arm_ends sB /\ grows par0 s0 parB s' /\ loop_stack s' = fr /\
    (forall u, u ∉ map fst (arm_ends sB) -> B s' !! u = B sB !! u) /\ ids_grow (B sB) (B s') /\
    (forall w v, v ∈ succs_of (B s') w -> v = lf_header F \/ v ∈ succs_of (B sB) w) /\
    length (B s') = length (B sB).
Proof.
  intros Hb He Hg Hge Hh. unfold arm_ends. destruct (B sB !! current sB) as [b|] eqn:Hcb.
  2: { pose proof (i_current _ _ _ _ Hb) as Hc. apply lookup_ge_None in Hcb. lia. }
  destruct (bb_closed b) eqn:Ho; simpl.
  - intros [_ ->]%ret_Ok. exists F. rewrite app_nil_r.
    split_and!; [by apply base_loops|done|done|done|done|done|by intros u x|by right|done].
  - intros (x & s1 & Hr & [_ ->]%ret_Ok)%bind_Ok. apply set_terminator_Ok in Hr as (b' & Hb' & ->).
    simpl in Hb'. rewrite Hcb in Hb'. injection Hb' as <-.
    pose proof (i_frames _ _ _ _ Hb) as Hf. apply Forall_cons in Hf as [HF _].
    exists (add_latch (current sB) (env sB) F).
    split_and!; [|done|done| |done| | | |simpl; by rewrite length_insert].
    + apply (base_loops np parB _ fr (terminate (current sB) (Jump (lf_header F)) b sB)).
      apply base_latch; try done. apply (f_scope _ _ _ _ _ HF).
    + apply grows_terminate; [done|by right|done|]. intros v ->%list_elem_of_singleton. lia.
    + intros u Hu. simpl. rewrite list_lookup_insert_ne; [done|]. intros <-. apply Hu. left.
    + by apply ids_terminated.
    + intros w v. simpl. rewrite (succs_terminated _ _ b) by done. case_decide; [|by right].
      intros ->%list_elem_of_singleton. by left.
Qed.

Lemma pending_none fr v : v ∉ map lf_header fr -> pending fr v = [].
Proof.
  intros Hv. unfold pending. apply list_nil_subseteq. intros w (F & Hw & HF)%list_elem_of_bind.
  destruct (Nat.eqb_spec (lf_header F) v) as [<-|]; [|by apply elem_of_nil in Hw].
  destruct Hv. by apply list_elem_of_fmap_2.
Qed.

(** A new block changes, but not its end. *)
Lemma grows_update par1 s1 par2 s2 u b b' :
  grows par1 s1 par2 s2 -> length (B s1) <= u -> B s2 !! u = Some b -> bb_closed b' = bb_closed b ->
  bb_terminator b' = bb_terminator b -> grows par1 s1 par2 (with_blocks (insert u b') s2).
Proof.
  intros [H0 H1 H2 H3 H4 H5 H6 H7 H8 H9 H10 H11] Hu Hb Hc Ht. constructor; simpl; try done.
  - by rewrite length_insert.
  - intros w. rewrite length_insert. apply H5.
  - intros w Hw Hne. rewrite list_lookup_insert_ne by lia. by apply H6.
  - destruct H7 as (l & Hl & Hp). exists l. split; [|done]. rewrite <- Hl. unfold stmts_at.
    by rewrite list_lookup_insert_ne by lia.
  - eapply closed_trans; [exact H8|]. apply (closed_insert _ _ b); [done|]. by rewrite Hc.
  - intros w v Hv. rewrite (succs_insert _ _ b) by done. case_decide as Hw; [|by apply H9].
    subst w. unfold finished_terminator. rewrite Ht. intros Hin. apply H9; [done|]. unfold succs_of. by rewrite Hb.
Qed.

Lemma sealed_rest lat l : Forall (fun st => is_phi (stmt_op st) = false) l -> Forall2 (sealed lat) l l.
Proof.
  induction 1 as [|st l Hst _ IH]; [constructor|]. constructor; [|done]. exists EmptyString.
  unfold seal_phi. by destruct (stmt_op st) eqn:Ho.
Qed.

(** What is left when the header is complete. *)
Record loop_closed (par0 : Parents) (s0 : Builder) (sC : Builder) (header : BlockId) (parB : Parents)
    (sB sS : Builder) : Prop := {
  lc_base : base parB (loop_stack sS) sS;
  lc_grows : grows par0 s0 parB sS;
  lc_loops : loop_stack sS = loop_stack sC;
  lc_length : length (B sS) = length (B sB);
  lc_same u b : u ∉ map fst (arm_ends sB) -> B sB !! u = Some b ->
    exists b', B sS !! u = Some b' /\ bb_closed b' = bb_closed b /\ bb_terminator b' = bb_terminator b;
  lc_ids : ids_grow (B sB) (B sS);
  lc_edges w v : v ∈ succs_of (B sS) w -> v = header \/ v ∈ succs_of (B sB) w
}.
(** The header when the body has jumped back to it. *)
Record jumped_back (par0 : Parents) (s0 : Builder) (sC : Builder) (k : nat) (parB : Parents)
    (sB : Builder) (F : LoopFrame) (sL : Builder) (F' : LoopFrame) (b : BlockBuild)
    (ps rest : list SsaStatement) : Prop := {
  jb_base : base parB (F' :: loop_stack sC) sL;
  jb_header : lf_header F' = lf_header F;
  jb_latches : latch_incoming F' = latch_incoming F ++ arm_ends sB;
  jb_grows : grows par0 s0 parB sL;
  jb_loops : loop_stack sL = loop_stack sC;
  jb_same u : u ∉ map fst (arm_ends sB) -> B sL !! u = B sB !! u;
  jb_ids : ids_grow (B sB) (B sL);
  jb_edges w v : v ∈ succs_of (B sL) w -> v = lf_header F \/ v ∈ succs_of (B sB) w;
  jb_length : length (B sL) = length (B sB);
  jb_not_end : lf_header F ∉ map fst (arm_ends sB);
  jb_block : B sL !! lf_header F = Some b;
  jb_stmts : bb_stmts b = ps ++ rest;
  jb_count : length ps = k;
  jb_phis : Forall (phi_from (current s0)) ps;
  jb_rest : Forall (fun st => is_phi (stmt_op st) = false) rest
}.

Lemma header_after par0 s0 parC sC c k sB parB F r1 sL :
  loop_at par0 s0 parC sC c (lf_header F) k ->
  arm parC (looped (lf_header F) sC) parC (looped (lf_header F) sC) (current sC) parB sB (length (B sC)) ->
  loop_stack sB = F :: loop_stack sC -> grows par0 s0 parB (with_loops (loop_stack sC) sB) ->
  jump_all (lf_header F) (arm_ends sB) (with_loops (loop_stack sC) sB) = Ok (r1, sL) ->
  exists F' b ps rest, jumped_back par0 s0 sC k parB sB F sL F' b ps rest.
Proof.
  intros Hla Harm Hfr Hg Hr1.
  pose proof (la_decided _ _ _ _ _ _ _ Hla) as Hd. pose proof (la_header _ _ _ _ _ _ _ Hla) as Hge.
  pose proof (i_base _ _ _ _ (de_inv _ _ _ _ _ _ Hd)) as HbC.
  pose proof (anc_le parC (g_parent _ _ _ _ _ (i_graph _ _ _ _ HbC)) _ _ (la_scope _ _ _ _ _ _ _ Hla)) as Hle.
  pose proof (i_current _ _ _ _ HbC) as HcC. pose proof (arm_current _ _ _ _ _ _ _ _ _ Harm) as Hcur.
  pose proof (arm_inv _ _ _ _ _ _ _ _ _ Harm) as Hi. rewrite Hfr in Hi. simpl in Hcur.
  pose proof (gr_length _ _ _ _ (de_grows _ _ _ _ _ _ Hd)) as Hlen.
  destruct (jump_back par0 s0 parB (loop_stack sC) F sB r1 sL) as (F' & J1 & J2 & J3 & J4 & J5 & J6 & J7 & J8 & J9);
    [apply Hi|apply Hi|done|lia|done|done|].
  destruct (la_phis _ _ _ _ _ _ _ Hla) as (ps & rest & Hst & Hlps & Hps & Hrest).
  destruct (B sC !! lf_header F) as [b|] eqn:Hb; [|apply lookup_ge_None in Hb; lia].
  assert (lf_header F ∉ map fst (arm_ends sB)) as Hnend.
  { intros Hin. destruct (arm_ends_fst _ _ Hin) as [Heq _]. lia. }
  exists F', b, ps, rest. constructor; try done.
  - rewrite J6 by done. rewrite (arm_old _ _ _ _ _ _ _ _ _ Harm) by (simpl; lia). done.
  - rewrite <- Hst. unfold stmts_at. by rewrite Hb.
Qed.

Lemma loop_close par0 s0 parC sC c k sB parB F vars sL F' b ps rest r2 sS :
  loop_at par0 s0 parC sC c (lf_header F) k ->
  arm parC (looped (lf_header F) sC) parC (looped (lf_header F) sC) (current sC) parB sB (length (B sC)) ->
  jumped_back par0 s0 sC k parB sB F sL F' b ps rest -> length vars = k ->
  seal_phis (lf_header F) (sort_edges (latch_incoming F ++ arm_ends sB)) 0 vars sL = Ok (r2, sS) ->
  loop_closed par0 s0 sC (lf_header F) parB sB sS.
Proof.
  intros Hla Harm [J1 J2 J3 J4 J5 J6 J7 J8 J9 Hnend HbL Hbs Hlps Hps Hrest] Hk Hr2. subst k.
  pose proof (la_decided _ _ _ _ _ _ _ Hla) as Hd. pose proof (la_header _ _ _ _ _ _ _ Hla) as Hge.
  rewrite <- J3 in Hr2.
  rewrite (seal_phis_Ok (lf_header F) (sort_edges (latch_incoming F')) vars [] ps rest b sL r2 sS); [|done..].
  pose proof (sealed_zip (sort_edges (latch_incoming F')) vars ps (eq_sym Hk)) as Hl.
  set (l := zip_with _ vars ps) in *. cbn [app].
  assert (pending (loop_stack sC) (lf_header F) = []) as Hnone.
  { apply pending_none. rewrite (loops_headers _ _ _ _ (gr_loops _ _ _ _ (de_grows _ _ _ _ _ _ Hd))).
    apply (new_not_header np par0); [apply (de_start _ _ _ _ _ _ Hd)|].
    pose proof (gr_inside _ _ _ _ (de_grows _ _ _ _ _ _ Hd)). lia. }
  constructor; simpl; rewrite ?J5; [| |done|by rewrite length_insert| | |].
  - rewrite <- J2. apply (base_seal np parB F' (loop_stack sC) sL b (l ++ rest) (current s0)); rewrite ?J2; try done.
    + eapply parent_mono; [apply (arm_par _ _ _ _ _ _ _ _ _ Harm)|apply (la_parent _ _ _ _ _ _ _ Hla)].
    + rewrite Hbs. apply Forall2_app; [done|by apply sealed_rest].
    + intros st phi. rewrite Hbs. intros [Hin|Hin]%elem_of_app Hop.
      * rewrite Forall_forall in Hps. destruct (Hps st Hin) as (vals & Hv). rewrite Hop in Hv. by injection Hv as ->.
      * rewrite Forall_forall in Hrest. specialize (Hrest st Hin). by rewrite Hop in Hrest.
  - by apply (grows_update par0 s0 parB sL (lf_header F) b).
  - intros u c' Hu Hc'. destruct (decide (u = lf_header F)) as [->|Hne].
    + rewrite list_lookup_insert_eq by by eapply lookup_lt_Some. rewrite <- (J6 (lf_header F)), HbL in Hc' by done.
      injection Hc' as <-. by eexists.
    + rewrite list_lookup_insert_ne by done. rewrite J6 by done. by eexists.
  - intros u x Hx. apply J7 in Hx. rewrite (ids_insert (B sL) _ b _ u HbL). case_decide as Hu; [|done].
    subst u. rewrite (ids_lookup _ _ _ HbL), Hbs in Hx. simpl. rewrite map_app in Hx |- *.
    by rewrite (sealed_ids _ _ _ Hl).
  - intros w x. rewrite (succs_insert _ _ b) by done. case_decide as Hw; [|apply J8].
    subst w. intros Hin. apply (J8 (lf_header F)). unfold succs_of. by rewrite HbL.
Qed.

(** ** The exit *)

Lemma waiting_old par fr s F u : base par fr s -> F ∈ fr -> u ∈ waiting F -> u < length (B s).
Proof.
  intros Hb HF Hu. pose proof (i_frames _ _ _ _ Hb) as Hf. rewrite Forall_forall in Hf.
  destruct (Hf F HF) as [_ _ _ _ H5 _ H7].
  apply elem_of_app in Hu as [Hu|Hu]; apply list_elem_of_fmap in Hu as ([u' e] & -> & Hu).
  - destruct (H5 u' e Hu) as (_ & c & Hc & _). by eapply lookup_lt_Some.
  - destruct (H7 u' e Hu) as (_ & c & Hc & _). by eapply lookup_lt_Some.
Qed.

(** A block that broke out of the loop. *)
Lemma broken par0 s0 parC sC c header k parB sB F sS u e :
  loop_at par0 s0 parC sC c header k ->
  arm parC (looped header sC) parC (looped header sC) (current sC) parB sB (length (B sC)) ->
  loop_stack sB = F :: loop_stack sC -> (forall b, b ∈ break_blocks F -> length (B sC) <= b) ->
  loop_closed par0 s0 sC header parB sB sS -> (u, e) ∈ exit_incoming F ->
  length (B sC) <= u /\ env_ok (B sS) parB u e /\ anc parB (current sC) u /\
  (exists b, B sS !! u = Some b /\ bb_terminator b = None) /\
  forall F', F' ∈ loop_stack sS -> u ∉ waiting F'.
Proof.
  intros Hla Harm Hfr Hbr Hlc Hu. pose proof (arm_inv _ _ _ _ _ _ _ _ _ Harm) as Hi. rewrite Hfr in Hi.
  pose proof (i_frames _ _ _ _ (i_base _ _ _ _ Hi)) as Hf. apply Forall_cons in Hf as [HF _].
  destruct (f_break _ _ _ _ _ HF u e Hu) as (He & b & Hb & Hcl & Ht).
  assert (length (B sC) <= u) as Hge.
  { apply Hbr. rewrite <- (f_breaks _ _ _ _ _ HF). by apply (list_elem_of_fmap_2 fst) in Hu. }
  pose proof (lookup_lt_Some _ _ _ Hb). split_and!; [done| | | |].
  - eapply env_mono; [apply (lc_ids _ _ _ _ _ _ _ Hlc)|done|done].
  - eapply anc_trans; [apply anc_parent, (arm_parent _ _ _ _ _ _ _ _ _ Harm)|].
    by apply (arm_region _ _ _ _ _ _ _ _ _ Harm).
  - destruct (lc_same _ _ _ _ _ _ _ Hlc u b) as (b' & H1 & _ & H2); [|done|exists b'; split; [done|congruence]].
    intros Hin. destruct (arm_ends_fst _ _ Hin) as (-> & c' & Hc' & Ho). congruence.
  - intros F' HF' Hw. rewrite (lc_loops _ _ _ _ _ _ _ Hlc) in HF'.
    pose proof (waiting_old _ _ _ _ _ (i_base _ _ _ _ (de_inv _ _ _ _ _ _ (la_decided _ _ _ _ _ _ _ Hla))) HF' Hw). lia.
Qed.

Lemma loop_joining par0 s0 parC sC c header k parB sB F sS :
  loop_at par0 s0 parC sC c header k ->
  arm parC (looped header sC) parC (looped header sC) (current sC) parB sB (length (B sC)) ->
  loop_stack sB = F :: loop_stack sC -> (forall b, b ∈ break_blocks F -> length (B sC) <= b) ->
  loop_closed par0 s0 sC header parB sB sS ->
  joining np par0 s0 parB sS (current sC) c (length (B sC)) (length (B sS)) (current sC) (break_blocks F)
    (exit_incoming F ++ [(current sC, env sC)]) (env sC).
Proof.
  intros Hla Harm Hfr Hbr Hlc. pose proof (la_decided _ _ _ _ _ _ _ Hla) as Hd.
  pose proof (arm_inv _ _ _ _ _ _ _ _ _ Harm) as Hi. rewrite Hfr in Hi.
  pose proof (i_frames _ _ _ _ (i_base _ _ _ _ Hi)) as Hf. apply Forall_cons in Hf as [HF _].
  pose proof (i_base _ _ _ _ (de_inv _ _ _ _ _ _ Hd)) as HbC. pose proof (i_current _ _ _ _ HbC) as HcC.
  pose proof (gr_length _ _ _ _ (de_grows _ _ _ _ _ _ Hd)) as Hlen.
  pose proof (arm_inside _ _ _ _ _ _ _ _ _ Harm) as Hin. pose proof (lc_length _ _ _ _ _ _ _ Hlc) as HlS.
  pose proof (anc_le parC (g_parent _ _ _ _ _ (i_graph _ _ _ _ HbC)) _ _ (la_scope _ _ _ _ _ _ _ Hla)) as Hle.
  assert (ids_grow (B sC) (B sS)) as Hids.
  { intros u x Hx. by apply (lc_ids _ _ _ _ _ _ _ Hlc), (arm_ids _ _ _ _ _ _ _ _ _ Harm). }
  pose proof (arm_par _ _ _ _ _ _ _ _ _ Harm) as Hpar.
  assert (current sC ∉ break_blocks F) as Hcn by (intros Hb%Hbr; lia).
  assert (forall u, u ∈ break_blocks F -> exists e, (u, e) ∈ exit_incoming F) as Hexit.
  { intros u. rewrite <- (f_breaks _ _ _ _ _ HF). intros ([u' e] & -> & Hu)%list_elem_of_fmap. by exists e. }
  constructor; [apply (de_start _ _ _ _ _ _ Hd)|apply (lc_base _ _ _ _ _ _ _ Hlc)|apply (lc_grows _ _ _ _ _ _ _ Hlc)| |
    apply (gr_current _ _ _ _ (de_grows _ _ _ _ _ _ Hd))| | |apply (f_breaks_nodup _ _ _ _ _ HF)| | |
    intros _; apply anc_refl| | | | |].
  - destruct (de_open _ _ _ _ _ _ Hd) as (b & Hb & Ho).
    destruct (lc_same _ _ _ _ _ _ _ Hlc (current sC) b) as (b' & H1 & H2 & _); [| |exists b'; split; [done|congruence]].
    + intros Hend. destruct (arm_ends_fst _ _ Hend) as [Heq _].
      pose proof (arm_current _ _ _ _ _ _ _ _ _ Harm) as Hcur. simpl in Hcur. lia.
    + by rewrite (arm_old _ _ _ _ _ _ _ _ _ Harm).
  - eapply avail_mono; [exact Hids|exact Hpar|apply (de_value _ _ _ _ _ _ Hd)].
  - intros v [->|[->|[]%elem_of_nil]%elem_of_cons]%elem_of_cons; [right|by left].
    split_and!; [apply (arm_parent _ _ _ _ _ _ _ _ _ Harm)| |lia|lia].
    apply no_edges_spec. intros u Hu. apply (lc_edges _ _ _ _ _ _ _ Hlc) in Hu as [Hu|Hu]; [lia|].
    by apply (proj1 (no_edges_spec _ _) (arm_no_edges _ _ _ _ _ _ _ _ _ Harm) u).
  - intros u Hu. destruct (Hexit u Hu) as (e & He).
    destruct (broken _ _ _ _ _ _ _ _ _ _ _ _ _ Hla Harm Hfr Hbr Hlc He) as (E1 & _ & E2 & E3 & E4).
    split_and!; [lia|lia|done|exact E3|exact E4].
  - split; [|lia]. eapply anc_mono; [exact Hpar|apply (gr_scope _ _ _ _ (de_grows _ _ _ _ _ _ Hd))].
  - intros u. rewrite map_app, elem_of_app, (f_breaks _ _ _ _ _ HF). simpl. set_solver.
  - rewrite map_app, (f_breaks _ _ _ _ _ HF). apply NoDup_app. split_and!; [apply (f_breaks_nodup _ _ _ _ _ HF)| |apply NoDup_singleton].
    intros u Hu ->%list_elem_of_singleton. done.
  - intros u e [Hu|[= -> ->]%list_elem_of_singleton]%elem_of_app.
    + by destruct (broken _ _ _ _ _ _ _ _ _ _ _ _ _ Hla Harm Hfr Hbr Hlc Hu) as (_ & E1 & _).
    + eapply env_mono; [exact Hids|exact Hpar|apply (i_env _ _ _ _ (de_inv _ _ _ _ _ _ Hd))].
  - intros d _ Hall. apply Hall. rewrite map_app. apply elem_of_app. right. left.
  - eapply env_mono; [exact Hids|exact Hpar|apply (i_env _ _ _ _ (de_inv _ _ _ _ _ _ Hd))].
Qed.
(** ** The whole loop *)

Lemma loop_start par0 s0 condition vars span r1 s1 r2 s2 :
  piece [] one_value condition -> inv par0 (loop_stack s0) s0 -> is_open s0 ->
  set_terminator (current s0) (Jump (length (B s0))) (snoc_block_state s0) = Ok (r1, s1) ->
  header_phis (length (B s0)) (current s0) (env s0) vars span (with_current (length (B s0)) s1) = Ok (r2, s2) ->
  wp condition s2 (fun c sC => exists parC, loop_at par0 s0 parC sC c (length (B s0)) (length vars)).
Proof.
  intros Hcond Hi Ho Hr1 Hr2.
  destruct (loop_head np _ _ _ _ _ _ _ _ Hi Ho Hr1 Hr2) as (par1 & ps & H1 & H2 & H3 & H4 & H5 & H6 & H7 & H8).
  eapply wp_mono; [exact (piece_conv np _ _ Hcond par1 s2 H1 H3)|].
  intros c sC _ (parC & K1 & K2 & K3 & K4). exists parC. constructor.
  - apply (decided_start np _ _ _ _ _ Hi); [by eapply grows_trans|done|done|done].
  - done.
  - eapply parent_mono; [apply (gr_par _ _ _ _ K2)|done].
  - rewrite <- H4. apply (gr_scope _ _ _ _ K2).
  - destruct (gr_stmts _ _ _ _ K2) as (rest & Hst & Hrest). rewrite H4, H6 in Hst.
    by exists ps, rest.
Qed.

(** The header and its phis are made. *)
Lemma wp_loop_head s0 vars span b (k : unit -> Building unit) Q :
  B s0 !! current s0 = Some b ->
  (forall s1 s2,
    set_terminator (current s0) (Jump (length (B s0))) (snoc_block_state s0) = Ok (tt, s1) ->
    header_phis (length (B s0)) (current s0) (env s0) vars span (with_current (length (B s0)) s1) = Ok (tt, s2) ->
    wp (k tt) s2 Q) ->
  wp (build_bind (set_terminator (current s0) (Jump (length (B s0)))) (fun _ =>
      build_bind (build_modify (with_current (length (B s0)))) (fun _ =>
      build_bind (header_phis (length (B s0)) (current s0) (env s0) vars span) k))) (snoc_block_state s0) Q.
Proof.
  intros Hb Hk. assert (B (snoc_block_state s0) !! current s0 = Some b) as Hb1 by by apply lookup_app_l_Some.
  pose proof (set_terminator_run _ (Jump (length (B s0))) _ _ Hb1) as Hr1. set (s1 := terminate _ _ _ _) in *.
  destruct (header_phis_run (length (B s0)) (current s0) (env s0) vars span (with_current (length (B s0)) s1))
    as [s2 Hr2]; [simpl; rewrite length_insert, length_app; simpl; lia|].
  eapply wp_step; [exact Hr1|]. apply wp_modify. eapply wp_step; [exact Hr2|]. by eapply Hk.
Qed.

(** The end of a loop: the jump back, the operands of the latches, the exit. *)
Lemma loop_end par0 s0 parC sC c header vars parB sB F span :
  loop_at par0 s0 parC sC c header (length vars) ->
  arm parC (looped header sC) parC (looped header sC) (current sC) parB sB (length (B sC)) ->
  loop_stack sB = F :: loop_stack sC -> lf_header F = header ->
  (forall b, b ∈ break_blocks F -> length (B sC) <= b) ->
  grows par0 s0 parB (with_loops (loop_stack sC) sB) ->
  wp (build_bind (jump_all header (arm_ends sB)) (fun _ =>
      build_bind (seal_phis header (sort_edges (latch_incoming F ++ arm_ends sB)) 0 vars) (fun _ =>
      build_bind new_block (fun exit =>
      build_bind (set_terminator (current sC) (Branch c (length (B sC)) exit)) (fun _ =>
      build_bind (jump_blocks exit (break_blocks F)) (fun _ =>
      merge_into exit (exit_incoming F ++ [(current sC, env sC)]) (env sC) span))))))
    (with_loops (loop_stack sC) sB)
    (fun _ s' => exists par', inv par' (loop_stack s') s' /\ grows par0 s0 par' s' /\ True).
Proof.
  intros Hla Harm Hfr Hh Hbr Hg.
  destruct (jump_blocks_run header (map fst (arm_ends sB)) (with_loops (loop_stack sC) sB)) as (sL & Hr3 & HlL).
  { intros u Hu. destruct (arm_ends_fst _ _ Hu) as [-> _]. apply (arm_current_inside np _ _ _ _ _ _ _ _ Harm). }
  rewrite <- jump_all_blocks in Hr3. subst header.
  destruct (header_after _ _ _ _ _ _ _ _ _ _ _ Hla Harm Hfr Hg Hr3) as (F' & b & ps & rest & Hjb).
  destruct (seal_phis_run (lf_header F) (sort_edges (latch_incoming F ++ arm_ends sB)) vars 0 b sL) as [sS Hr4].
  { apply (jb_block _ _ _ _ _ _ _ _ _ _ _ _ Hjb). }
  { rewrite (jb_stmts _ _ _ _ _ _ _ _ _ _ _ _ Hjb), length_app, (jb_count _ _ _ _ _ _ _ _ _ _ _ _ Hjb). lia. }
  pose proof (loop_close _ _ _ _ _ _ _ _ _ _ _ _ _ _ _ _ _ Hla Harm Hjb eq_refl Hr4) as Hlc.
  pose proof (loop_joining _ _ _ _ _ _ _ _ _ _ _ Hla Harm Hfr Hbr Hlc) as Hj.
  destruct (join_run np _ _ _ _ _ _ _ _ _ _ _ _ span Hj) as (s5 & s6 & s7 & Hr5 & Hr6 & Hr7 & Hjd & _).
  eapply wp_step; [exact Hr3|]. eapply wp_step; [exact Hr4|]. apply wp_new_block.
  eapply wp_step; [exact Hr5|]. eapply wp_step; [exact Hr6|]. unfold wp. rewrite Hr7. eexists.
  split_and!; [apply (jd_inv _ _ _ _ _ _ _ _ Hjd)|apply (jd_grows _ _ _ _ _ _ _ _ Hjd)|done].
Qed.

Lemma convert_while_ok condition body writes span :
  piece [] one_value condition -> conv (valued np) body -> conv any (convert_while condition body writes span).
Proof.
  intros Hcond Hbody par0 s0 Hi Ho. unfold convert_while. apply wp_get. apply wp_new_block.
  destruct Ho as (b & Hb & Ho). apply (wp_loop_head s0 _ span b); [done|]. intros s1 s2 Hr1 Hr2.
  apply wp_bind. eapply wp_mono; [apply (loop_start _ _ _ _ _ _ _ _ _ Hcond Hi ltac:(by exists b) Hr1 Hr2)|].
  intros c sC _ (parC & Hla). apply wp_get. apply wp_new_block. do 3 apply wp_modify.
  apply wp_bind. eapply wp_mono; [exact (loop_body _ _ _ _ _ _ _ _ Hla Hbody)|].
  intros v sB _ (parB & F & Harm & Hfr & Hh & Hbr & Hg).
  apply (wp_step _ _ sB F (with_loops (loop_stack sC) sB)); [unfold pop_loop; by rewrite Hfr|].
  apply wp_open_end; [apply (arm_current_inside np _ _ _ _ _ _ _ _ Harm)|]. intros le Hle. rewrite Hle.
  exact (loop_end _ _ _ _ _ _ _ _ _ _ span Hla Harm Hfr Hh Hbr Hg).
Qed.

(** ** All statements *)

Lemma conv_opaque st span : conv (valued np) (build_bind (convert_opaque_stmt st span) (fun _ => build_ret None)).
Proof.
  apply (conv_none np (fun par s _ => is_open s /\ available np par s [])).
  apply (piece_conv np no_value), convert_opaque_stmt_ok.
Qed.

Lemma assign_ok value var span :
  conv (valued np) (build_bind (convert_expr value) (fun v =>
    build_bind (write_var var v span) (fun _ => build_ret (Some v)))).
Proof.
  apply conv_piece. eapply piece_bind; [apply convert_expr_ok|]. intros v.
  eapply piece_bind; [eapply piece_more; [|apply write_var_ok]|].
  - simpl. set_solver.
  - intros u. apply piece_ret. simpl. set_solver.
Qed.

Lemma add_assign_ok value var span :
  conv (valued np) (build_bind (read_var var span) (fun l => build_bind (convert_expr value) (fun r =>
    build_bind (emit (Binary Add l r) span) (fun sum =>
    build_bind (write_var var sum span) (fun _ => build_ret (Some sum)))))).
Proof.
  apply conv_piece. eapply piece_bind; [apply read_var_ok|]. intros l.
  eapply piece_bind; [apply piece_nil, convert_expr_ok|]. intros r.
  eapply piece_bind; [apply piece_emit; [done|simpl; set_solver]|]. intros sum.
  eapply piece_bind; [eapply piece_more; [|apply write_var_ok]|].
  - simpl. set_solver.
  - intros u. apply piece_ret. simpl. set_solver.
Qed.
Lemma return_ok (m : Building (option SsaValue)) :
  piece [] option_value m ->
  conv (valued np) (build_bind m (fun v => build_bind build_get (fun s =>
    build_bind (set_terminator (current s) (Return v)) (fun _ => build_ret None)))).
Proof.
  intros Hm. eapply conv_after_piece; [exact Hm|]. intros v par s Hi Ho Hv. apply wp_get. apply wp_bind.
  eapply wp_mono; [apply (set_return_ok np par s v Hi Ho); intros w ->; apply Hv; left|].
  intros r s1 _ [H1 H2]. apply wp_ret. by exists par.
Qed.

Lemma conv_ret : conv (valued np) (build_ret None).
Proof.
  intros par s Hi _. apply wp_ret. exists par.
  split_and!; [done|apply grows_refl, (i_current _ _ _ _ (i_base _ _ _ _ Hi))|done].
Qed.

Definition block_all (IH : forall st, conv (valued np) (convert_stmt st)) (b : CoreBlock)
    : conv (valued np) (convert_block b) :=
  match b with Block l _ => convert_block_ok np convert_stmt l (Forall_all _ IH l) end.

Lemma convert_stmt_ok : forall st, conv (valued np) (convert_stmt st).
Proof.
  fix IH 1. intros st. destruct st; try apply conv_opaque; try apply conv_ret; try (by intros par s _ _).
  - apply (block_all IH).
  - cbn [convert_stmt]. destruct (decode_tuple_comprehension_binding var); [apply conv_opaque|apply assign_ok].
  - apply add_assign_ok.
  - cbn [convert_stmt]. apply (conv_none np any), convert_while_ok; [apply convert_expr_ok|apply (block_all IH)].
  - cbn [convert_stmt]. apply (conv_none np any), convert_if_ok; [apply convert_expr_ok|apply (block_all IH)|].
    destruct else_branch as [b|]; [|done]. intros m [= <-]. apply (block_all IH).
  - apply (conv_none np any), convert_break_ok.
  - apply (conv_none np any), convert_continue_ok.
  - cbn [convert_stmt]. apply return_ok. destruct value as [e|]; [|apply piece_ret, list_subseteq_nil].
    eapply piece_bind; [apply convert_expr_ok|]. intros v. apply piece_ret. simpl. set_solver.
  - cbn [convert_stmt]. apply conv_piece. eapply piece_bind; [apply convert_expr_ok|].
    intros v. apply piece_ret. simpl. set_solver.
Qed.
End While.
