(* ===== verification/BuildFinish.v ===== *)
(** * What the builder makes is in SSA form

    [build_function] gives a function that [verify] accepts, or an error of the
    program being compiled ([build_function_spec]). *)

From S2P Require Export BuildWhile SsaVerifySpec.

Section Finish.
Context {C : CoreTypes} {U : UnicodeTables}.
Variable np : nat.

Abbreviation base := (base np).
Abbreviation inv := (inv np).
Abbreviation B := bl_blocks.

(** ** The predecessors *)

Lemma add_pred_fold u ts all all' :
  NoDup ts -> try_foldM (add_pred u) all ts = Ok all' ->
  length all' = length all /\
  forall t, all' !! t = (fun l => if bool_decide (t ∈ ts) then l ++ [u] else l) <$> all !! t.
Proof.
  intros Hnd. revert all. induction Hnd as [|t ts Ht Hnd IH]; intros all; simpl.
  - intros [= <-]. split; [done|]. intros t. by destruct (all !! t).
  - unfold add_pred at 1. destruct (all !! t) as [l|] eqn:Hl; [|done]. intros Hf.
    destruct (IH _ Hf) as [H1 H2]. rewrite length_insert in H1. split; [done|]. intros w. rewrite H2.
    destruct (decide (w = t)) as [->|Hne].
    + rewrite list_lookup_insert_eq by by eapply lookup_lt_Some. rewrite Hl. simpl.
      rewrite bool_decide_eq_false_2 by done. by rewrite bool_decide_eq_true_2 by left.
    + rewrite list_lookup_insert_ne by done. destruct (all !! w); [|done]. simpl. f_equal.
      rewrite (bool_decide_ext (w ∈ t :: ts) (w ∈ ts)); [done|]. set_solver.
Qed.

Lemma add_preds_fold l all all' :
  try_foldM add_preds all l = Ok all' ->
  length all' = length all /\
  forall t, all' !! t = (fun k => k ++ map fst (filter (fun p : nat * BlockBuild =>
    t ∈ targets (finished_terminator p.2)) l)) <$> all !! t.
Proof.
  revert all. induction l as [|[i b] l IH]; intros all; simpl.
  - intros [= <-]. split; [done|]. intros t. destruct (all !! t); simpl; [by rewrite app_nil_r|done].
  - unfold add_preds at 1. simpl. destruct (try_foldM (add_pred i) all _) as [all1|e] eqn:H1; [|done].
    intros H2. destruct (add_pred_fold _ _ _ _ (targets_NoDup _) H1) as [L1 F1].
    destruct (IH all1 H2) as [L2 F2]. split; [congruence|]. intros t. rewrite F2, F1, filter_cons.
    destruct (all !! t) as [k|]; [|done]. simpl.
    case_bool_decide as Ht; case_decide; try done. simpl. by rewrite <- app_assoc.
Qed.

Lemma add_pred_run u ts all :
  (forall t, t ∈ ts -> t < length all) ->
  exists all', try_foldM (add_pred u) all ts = Ok all' /\ length all' = length all.
Proof.
  revert all. induction ts as [|t ts IH]; intros all Hts; simpl; [by eexists|].
  unfold add_pred at 1. destruct (lookup_lt_is_Some_2 all t) as [l ->]; [apply Hts; left|]. unfold try_.
  destruct (IH (<[t := l ++ [u]]> all)) as (all' & H1 & H2).
  - intros w Hw. rewrite length_insert. apply Hts. by right.
  - exists all'. by rewrite H2, length_insert.
Qed.

Lemma add_preds_run (l : list (nat * BlockBuild)) all :
  (forall p t, p ∈ l -> t ∈ targets (finished_terminator p.2) -> t < length all) ->
  exists all', try_foldM add_preds all l = Ok all'.
Proof.
  revert all. induction l as [|p l IH]; intros all Hl; simpl; [by eexists|].
  unfold add_preds at 1. destruct (add_pred_run p.1 (targets (finished_terminator p.2)) all) as (all1 & -> & H1).
  - intros t. apply Hl. left.
  - apply IH. intros q t Hq. rewrite H1. apply Hl. by right.
Qed.

Lemma enumerate_snoc {A} (l : list A) x : enumerate (l ++ [x]) = enumerate l ++ [(length l, x)].
Proof.
  unfold enumerate. rewrite length_app, seq_app. simpl. rewrite zip_with_app; [done|]. by rewrite length_seq.
Qed.

Lemma enumerate_filter (l : list BlockBuild) (Q : nat -> Prop) `{!forall u, Decision (Q u)} t :
  (forall i b, l !! i = Some b -> Q i <-> t ∈ targets (finished_terminator b)) ->
  map fst (filter (fun p : nat * BlockBuild => t ∈ targets (finished_terminator p.2)) (enumerate l)) =
  filter Q (seq 0 (length l)).
Proof.
  induction l as [|b l IH] using rev_ind; intros HQ; [done|].
  rewrite enumerate_snoc, length_app, seq_app, !filter_app, map_app, IH.
  - f_equal. specialize (HQ (length l) b (list_lookup_middle l [] b _ eq_refl)). simpl.
    rewrite !filter_cons, !filter_nil. simpl. repeat case_decide; tauto.
  - intros i b' Hb. apply HQ. by apply lookup_app_l_Some.
Qed.

(** What [finish] puts into each block. *)
Definition finished_block (s : Builder) (i : BlockId) (c : BlockBuild) : SsaBlock :=
  {| blk_id := i; stmts := bb_stmts c; terminator := finished_terminator c;
     preds := preds_of (B s) i; succs := targets (finished_terminator c) |}.

Lemma finish_blocks s name params entry func i :
  finish s name params entry = Ok func ->
  fn_params func = params /\ fn_entry func = entry /\ length (fn_blocks func) = length (B s) /\
  block func i = finished_block s i <$> B s !! i.
Proof.
  unfold finish. destruct (try_foldM add_preds _ _) as [all|e] eqn:Hf; [|done]. intros [= <-]. simpl.
  destruct (add_preds_fold _ _ _ Hf) as [Hlen Hall]. rewrite length_replicate in Hlen.
  assert (length (enumerate (B s)) = length (B s)) as Hen.
  { unfold enumerate. by rewrite length_zip_with, length_seq, Nat.min_id. }
  split_and!; [done|done|by rewrite length_zip_with, Hen, Hlen, Nat.min_id|].
  unfold block. simpl. destruct (B s !! i) as [c|] eqn:Hc.
  - pose proof (lookup_lt_Some _ _ _ Hc) as Hi. apply lookup_zip_with_Some.
    exists (i, c), (preds_of (B s) i). split_and!; [done|by apply lookup_zip_Some; rewrite lookup_seq|].
    rewrite Hall, lookup_replicate_2 by done. simpl. f_equal.
    apply enumerate_filter. intros j b Hb. unfold succs_of. by rewrite Hb.
  - apply lookup_ge_None in Hc. apply lookup_ge_None. rewrite length_zip_with, Hen. lia.
Qed.
(** ** The form *)

Section Form.
Variable par : Parents.
Variable s : Builder.
Variable name : string.
Variable params : list SsaParam.
Variable func : SsaFunction.
Hypothesis Hbase : base par [] s.
Hypothesis Hparams : length params = np.
Hypothesis Hfinish : finish s name params 0 = Ok func.

Let Hg : graph_ok np (B s) par (next_value s) (pending []) := i_graph _ _ _ _ Hbase.

Lemma block_finished i : block func i = finished_block s i <$> B s !! i.
Proof. by destruct (finish_blocks _ _ _ _ _ i Hfinish) as (_ & _ & _ & H). Qed.

Lemma finished_edge u v : edge func u v <-> v ∈ succs_of (B s) u.
Proof. unfold edge, block_succs, succs_of. rewrite block_finished. by destruct (B s !! u). Qed.

Lemma finished_length : length (fn_blocks func) = length (B s).
Proof. by destruct (finish_blocks _ _ _ _ _ 0 Hfinish) as (_ & _ & H & _). Qed.

Lemma finished_preds v : preds_of (B s) v = filter (fun u => edge func u v) (seq 0 (length (fn_blocks func))).
Proof. rewrite finished_length. apply list_filter_iff. intros u. by rewrite finished_edge. Qed.

(** Ancestors dominate. *)
Lemma anc_dominator d v : anc par d v -> dominator (edge func) (fn_entry func) d v.
Proof.
  intros Ha l Hl. revert Ha. induction Hl as [|u v l Hl IH He]; intros Ha.
  - destruct (finish_blocks _ _ _ _ _ 0 Hfinish) as (_ & Hen & _). rewrite Hen in Ha |- *.
    apply (anc_le par (g_parent _ _ _ _ _ Hg)) in Ha. apply list_elem_of_singleton. lia.
  - destruct (decide (d = v)) as [->|Hne]; [left|right]. apply IH.
    apply finished_edge in He. destruct (g_edge _ _ _ _ _ Hg u v He) as (p & Hp & Hu).
    eapply anc_trans; [by eapply anc_inv|done].
Qed.

Lemma finished_defines d x : x ∈ ids (B s) d <-> defines func d x.
Proof.
  unfold ids, defines. rewrite block_finished. destruct (B s !! d) as [c|]; simpl.
  - rewrite list_elem_of_fmap. split; [intros (st & -> & Hs); by eexists _, st|].
    intros (b & st & [= <-] & Hs & <-). by exists st.
  - split; [by intros ?%elem_of_nil|by intros (b & st & ? & _)].
Qed.

Lemma finished_operand before u v : operand_at np (B s) par before u v -> operand_ok func before u v.
Proof.
  destruct v as [x|k|lit]; simpl; [|by rewrite (proj1 (finish_blocks _ _ _ _ _ 0 Hfinish)), Hparams|done].
  intros [H|(d & Hne & Hd & Ha)]; [by left|right]. exists d.
  split_and!; [done|by apply finished_defines|by apply anc_dominator].
Qed.

Lemma finished_avail u v : avail np (B s) par u v -> phi_operand_ok func u v.
Proof.
  destruct v as [x|k|lit]; simpl; [|by rewrite (proj1 (finish_blocks _ _ _ _ _ 0 Hfinish)), Hparams|done].
  intros (d & Hd & Ha). exists d. split; [by apply finished_defines|by apply anc_dominator].
Qed.

Lemma finished_nodup : NoDup (map stmt_id (fn_blocks func ≫= stmts)).
Proof.
  assert (forall l, map stmt_id (l ≫= stmts) = l ≫= fun b => map stmt_id (stmts b)) as ->.
  { induction l as [|b l IH]; [done|]. csimpl. by rewrite map_app, IH. }
  assert (forall i b, fn_blocks func !! i = Some b -> blk_id b = i /\ map stmt_id (stmts b) = ids (B s) i) as Hb.
  { intros i b Hi. pose proof (block_finished i) as Hf. unfold block in Hf. rewrite Hi in Hf.
    unfold ids. destruct (B s !! i) as [c|]; [|done]. by injection Hf as ->. }
  apply NoDup_bind.
  - intros b1 b2 x [i Hi]%list_elem_of_lookup [j Hj]%list_elem_of_lookup.
    destruct (Hb i b1 Hi) as [_ ->]. destruct (Hb j b2 Hj) as [_ ->]. intros H1 H2.
    assert (i = j) as <- by exact (g_site _ _ _ _ _ Hg x i j H1 H2). congruence.
  - intros b [i Hi]%list_elem_of_lookup. destruct (Hb i b Hi) as [_ ->]. apply (g_nodup _ _ _ _ _ Hg).
  - apply (NoDup_fmap_1 blk_id). apply NoDup_alt. intros i j x Hi Hj.
    apply list_lookup_fmap_Some in Hi as (b1 & Hx & Hi).
    apply list_lookup_fmap_Some in Hj as (b2 & Hx' & Hj).
    destruct (Hb i b1 Hi) as [E1 _]. destruct (Hb j b2 Hj) as [E2 _]. congruence.
Qed.

Lemma finished_well_formed : 0 < length (B s) -> well_formed func.
Proof.
  intros Hpos. destruct (finish_blocks _ _ _ _ _ 0 Hfinish) as (Hps & Hen & Hlen & H0).
  assert (forall i b, block func i = Some b -> exists c, B s !! i = Some c /\ b = finished_block s i c) as Hblk.
  { intros i b Hb. rewrite block_finished in Hb. destruct (B s !! i) as [c|]; [|done]. injection Hb as <-. by exists c. }
  assert (preds_of (B s) 0 = []) as Hentry.
  { apply elem_of_nil_inv. intros u Hu%preds_elem. destruct (g_edge _ _ _ _ _ Hg u 0 Hu) as (p & Hp & _).
    apply (g_parent _ _ _ _ _ Hg) in Hp. lia. }
  constructor.
  - rewrite Hen, H0. destruct (lookup_lt_is_Some_2 (B s) 0 Hpos) as [c ->]. by eexists.
  - intros i b Hb. by destruct (Hblk i b Hb) as (c & _ & ->).
  - intros i b t Hb Ht. destruct (Hblk i b Hb) as (c & Hc & ->). simpl in Ht. rewrite block_finished.
    destruct (g_edge _ _ _ _ _ Hg i t) as (p & Hp & _); [unfold succs_of; by rewrite Hc|].
    apply lookup_lt_Some in Hp. rewrite (g_length _ _ _ _ _ Hg) in Hp.
    destruct (lookup_lt_is_Some_2 (B s) t Hp) as [c' ->]. by eexists.
  - intros i b Hb. by destruct (Hblk i b Hb) as (c & _ & ->).
  - intros i b Hb. destruct (Hblk i b Hb) as (c & _ & ->). apply finished_preds.
  - apply finished_nodup.
  - intros i b Hb. destruct (Hblk i b Hb) as (c & Hc & ->). by apply (g_prefix _ _ _ _ _ Hg i).
  - intros i b st phi Hb Hs Hop. destruct (Hblk i b Hb) as (c & Hc & ->).
    destruct (g_phi _ _ _ _ _ Hg i c st phi Hc Hs Hop) as (He & _ & Hv). rewrite Hv, He.
    simpl. by rewrite off_nil.
  - intros i b before st after v _ Hb Hl Hv. destruct (Hblk i b Hb) as (c & Hc & ->).
    apply finished_operand. by apply (g_operands _ _ _ _ _ Hg i c before st after).
  - intros i b v _ Hb Hv. destruct (Hblk i b Hb) as (c & Hc & ->). apply finished_operand.
    eapply avail_operand; [done|]. by apply (g_terminator _ _ _ _ _ Hg i c).
  - intros i b st phi p v _ Hb Hs Hop Hpv _. destruct (Hblk i b Hb) as (c & Hc & ->).
    apply finished_avail. by apply (g_phi_values _ _ _ _ _ Hg i c st phi).
Qed.
End Form.
End Finish.

(** ** The whole construction *)

Section Function.
Context {C : CoreTypes} {U : UnicodeTables}.

Abbreviation B := bl_blocks.

Lemma bind_params_ok (l : list (nat * SsaParam)) e n :
  (forall name v, e !! name = Some v -> exists k, v = Argument k /\ k < n) ->
  (forall p, p ∈ l -> p.1 < n) ->
  forall name v, foldl bind_param e l !! name = Some v -> exists k, v = Argument k /\ k < n.
Proof.
  revert e. induction l as [|p l IH]; intros e He Hl; [done|]. simpl. apply IH.
  - intros name v Hv. unfold bind_param in Hv. apply lookup_insert_Some in Hv as [[<- <-]|[_ Hv]]; [|by eapply He].
    exists p.1. split; [done|]. apply Hl. left.
  - intros q Hq. apply Hl. by right.
Qed.

Lemma start_env_ok params name v :
  start_env params !! name = Some v -> exists k, v = Argument k /\ k < length params.
Proof.
  apply bind_params_ok; [done|]. intros [i p] Hp%enumerate_elem. by eapply lookup_lt_Some.
Qed.

(** The builder with the entry block only. *)
Definition entry_state (f : CoreFunction) : Builder := with_current 0 (snoc_block_state (start_builder f)).

Lemma entry_inv f : inv (length (all_params f)) [None] [] (entry_state f).
Proof.
  assert (forall u (b : BlockBuild), [empty_block] !! u = Some b -> u = 0 /\ b = empty_block) as Hone.
  { intros [|[|u]] b [= <-]; done. }
  assert (forall u, ids [empty_block] u = []) as Hids by by intros [|[|u]].
  assert (forall u, succs_of [empty_block] u = []) as Hsuccs by by intros [|[|u]].
  split; [constructor|].
  - constructor; simpl; try done.
    + intros [|[|b]] p; by intros [=].
    + intros u v. rewrite Hsuccs. by intros ?%elem_of_nil.
    + intros u. rewrite Hids. constructor.
    + intros x d d'. rewrite Hids. by intros ?%elem_of_nil.
    + intros x u. rewrite Hids. by intros ?%elem_of_nil.
    + intros u b before st after v [-> ->]%Hone H. by destruct before.
    + intros u b v [-> ->]%Hone. by intros ?%elem_of_nil.
    + intros u b [-> ->]%Hone. by exists [], [].
    + intros u b st phi [-> ->]%Hone. by intros ?%elem_of_nil.
    + intros u b st phi p v [-> ->]%Hone. by intros ?%elem_of_nil.
    + by intros u b [-> ->]%Hone.
  - simpl. lia.
  - constructor.
  - intros name v Hv. destruct (start_env_ok _ _ _ Hv) as (k & -> & Hk). exact Hk.
Qed.

Lemma convert_function_ok f :
  wp (convert_function f) (start_builder f) (fun entry s =>
    entry = 0 /\ exists par, base (length (all_params f)) par [] s /\ 0 < length (B s)).
Proof.
  unfold convert_function. apply wp_new_block. apply wp_modify. apply wp_bind.
  set (np := length (all_params f)). pose proof (entry_inv f) as Hi.
  eapply wp_mono; [apply (block_all np (convert_stmt_ok np) (func_body f) [None] (entry_state f) Hi); by eexists|].
  intros v s1 _ (par & Hi1 & Hg1 & Hv1).
  pose proof (gr_loops _ _ _ _ Hg1) as Hl. simpl in Hl. destruct (loop_stack s1) eqn:Hls; [|done].
  pose proof (gr_length _ _ _ _ Hg1) as Hlen. simpl in Hlen. apply wp_get.
  destruct (lookup_lt_is_Some_2 (B s1) (current s1)) as [b Hb]; [apply (i_current _ _ _ _ (i_base _ _ _ _ Hi1))|].
  apply (wp_step _ _ s1 (bb_closed b) s1); [unfold is_closed; by rewrite Hb|]. apply wp_bind.
  destruct (bb_closed b) eqn:Ho.
  - apply wp_ret. split; [done|]. exists par. split; [apply Hi1|lia].
  - rewrite <- Hls in Hi1. eapply wp_mono; [apply (set_return_ok np par s1 v Hi1); [by exists b|done]|].
    intros r s3 _ [H1 H2]. apply wp_ret. split; [done|]. exists par.
    pose proof (gr_loops _ _ _ _ H2) as Hl2. rewrite Hls in Hl2. destruct (loop_stack s3) eqn:Hls3; [|done].
    pose proof (gr_length _ _ _ _ H2). split; [apply H1|lia].
Qed.

Lemma finish_run np par s name params :
  base np par [] s -> exists func, finish s name params 0 = Ok func.
Proof.
  intros Hb. unfold finish.
  destruct (add_preds_run (enumerate (B s)) (replicate (length (B s)) [])) as [all ->]; [|by eexists].
  intros [i b] t Hp%enumerate_elem Ht. rewrite length_replicate. simpl in Ht.
  pose proof (i_graph _ _ _ _ Hb) as Hg.
  destruct (g_edge _ _ _ _ _ Hg i t) as (p & Hpar & _); [unfold succs_of; by rewrite Hp|].
  apply lookup_lt_Some in Hpar. by rewrite (g_length _ _ _ _ _ Hg) in Hpar.
Qed.

(** C8. Every function that the builder makes is in SSA form; it refuses a function only
    for a label, a goto, or a jump out of a loop where there is none. *)
Theorem build_function_spec f :
  match build_function f with
  | Ok func => well_formed func
  | Err e => user_error e
  end.
Proof.
  unfold build_function. pose proof (convert_function_ok f) as Hc. unfold wp in Hc.
  destruct (convert_function f (start_builder f)) as [[entry s]|e]; [|done].
  destruct Hc as [-> (par & Hb & Hpos)]. simpl.
  destruct (finish_run _ _ _ (func_name f) (all_params f) Hb) as [func Hf]. rewrite Hf.
  by eapply (finished_well_formed (length (all_params f)) par s).
Qed.
End Function.
