(* ===== verification/Effects.v ===== *)
(** * Effect summaries

    [EffectBit] and [Effects] of subset_julia_vm_types/src/runtime_types/effects.rs
    and the rules for operators and builtin names of effect_inference.rs: what
    may be removed, folded or merged by the optimizer. *)

From S2P Require Export SsaModel.

Inductive EffectBit := AlwaysTrue | AlwaysFalse | Conditional.

#[export] Instance EffectBit_eq_dec : EqDecision EffectBit.
Proof. solve_decision. Defined.

Definition is_always_true (b : EffectBit) : bool :=
  match b with AlwaysTrue => true | _ => false end.
Definition is_always_false (b : EffectBit) : bool :=
  match b with AlwaysFalse => true | _ => false end.
Definition is_conditional (b : EffectBit) : bool :=
  match b with Conditional => true | _ => false end.

Definition bit_merge (a b : EffectBit) : EffectBit :=
  match a, b with
  | AlwaysTrue, AlwaysTrue => AlwaysTrue
  | AlwaysFalse, AlwaysFalse => AlwaysFalse
  | _, _ => Conditional
  end.

Definition merge_af_absorbing (a b : EffectBit) : EffectBit :=
  match a, b with
  | AlwaysFalse, _ | _, AlwaysFalse => AlwaysFalse
  | AlwaysTrue, AlwaysTrue => AlwaysTrue
  | _, _ => Conditional
  end.

Record Effects := {
  consistent : EffectBit;
  effect_free : EffectBit;
  nothrow : bool;
  terminates : bool;
  notaskstate : bool;
  inaccessiblememonly : bool;
  noub : EffectBit;
  nonoverlayed : bool;
  nortcall : bool
}.

(** ** The presets *)

Definition effects_total : Effects :=
  {| consistent := AlwaysTrue; effect_free := AlwaysTrue; nothrow := true; terminates := true;
     notaskstate := true; inaccessiblememonly := true; noub := AlwaysTrue;
     nonoverlayed := true; nortcall := true |}.

Definition arbitrary : Effects :=
  {| consistent := AlwaysFalse; effect_free := AlwaysFalse; nothrow := false; terminates := false;
     notaskstate := false; inaccessiblememonly := false; noub := AlwaysFalse;
     nonoverlayed := false; nortcall := false |}.

Definition pure_arithmetic : Effects :=
  {| consistent := AlwaysTrue; effect_free := AlwaysTrue; nothrow := true; terminates := true;
     notaskstate := true; inaccessiblememonly := true; noub := AlwaysTrue;
     nonoverlayed := true; nortcall := true |}.

Definition effect_free_may_throw : Effects :=
  {| consistent := AlwaysTrue; effect_free := AlwaysTrue; nothrow := false; terminates := true;
     notaskstate := true; inaccessiblememonly := true; noub := AlwaysTrue;
     nonoverlayed := true; nortcall := true |}.

Definition allocating : Effects :=
  {| consistent := AlwaysFalse; effect_free := AlwaysTrue; nothrow := true; terminates := true;
     notaskstate := true; inaccessiblememonly := true; noub := AlwaysTrue;
     nonoverlayed := true; nortcall := true |}.

Definition with_side_effects : Effects :=
  {| consistent := AlwaysFalse; effect_free := AlwaysFalse; nothrow := false; terminates := true;
     notaskstate := false; inaccessiblememonly := false; noub := AlwaysTrue;
     nonoverlayed := true; nortcall := true |}.

Definition array_getindex : Effects :=
  {| consistent := AlwaysTrue; effect_free := AlwaysTrue; nothrow := false; terminates := true;
     notaskstate := true; inaccessiblememonly := true; noub := Conditional;
     nonoverlayed := true; nortcall := true |}.

Definition array_setindex : Effects :=
  {| consistent := AlwaysFalse; effect_free := AlwaysFalse; nothrow := false; terminates := true;
     notaskstate := true; inaccessiblememonly := false; noub := Conditional;
     nonoverlayed := true; nortcall := true |}.

(** ** Operations *)

Definition merge (a b : Effects) : Effects :=
  {| consistent := bit_merge (consistent a) (consistent b);
     effect_free := bit_merge (effect_free a) (effect_free b);
     nothrow := nothrow a && nothrow b;
     terminates := terminates a && terminates b;
     notaskstate := notaskstate a && notaskstate b;
     inaccessiblememonly := inaccessiblememonly a && inaccessiblememonly b;
     noub := merge_af_absorbing (noub a) (noub b);
     nonoverlayed := nonoverlayed a && nonoverlayed b;
     nortcall := nortcall a && nortcall b |}.

Definition is_pure (e : Effects) : bool :=
  is_always_true (consistent e) && is_always_true (effect_free e) && nothrow e.

Definition is_total (e : Effects) : bool := nothrow e && terminates e.

Definition is_removable (e : Effects) : bool :=
  is_always_true (effect_free e) && nothrow e && terminates e.

Definition is_foldable (e : Effects) : bool :=
  is_always_true (consistent e) && (is_always_true (noub e) || is_conditional (noub e)) &&
  is_always_true (effect_free e) && terminates e && inaccessiblememonly e.

(** ** Inference *)

Definition merge_with_args (base : Effects) (args : list Effects) : Effects :=
  foldl merge base args.

Definition infer_arithmetic_effects (args : list Effects) : Effects :=
  match args with [] => pure_arithmetic | _ => foldl merge pure_arithmetic args end.

(** [name] is one of the alternatives of an arm. *)
Definition one_of (name : string) (names : list string) : bool := existsb (String.eqb name) names.

Definition infer_builtin_effects (name : string) (args : list Effects) : Effects :=
  if one_of name ["+"; "-"; "*"; "/"; "^"; "//"] then infer_arithmetic_effects args
  else if one_of name ["div"; "rem"; "mod"; "%"] then merge_with_args effect_free_may_throw args
  else if one_of name ["=="; "!="; "<"; "<="; ">"; ">="; "==="; "isequal"; "isless"]
  then pure_arithmetic
  else if one_of name ["!"; "&&"; "||"; "&"; "|"; "xor"] then pure_arithmetic
  else if one_of name ["<<"; ">>"; ">>>"] then pure_arithmetic
  else if one_of name ["sqrt"; "log"; "log10"; "log2"]
  then merge_with_args effect_free_may_throw args
  else if one_of name ["sin"; "cos"; "tan"; "exp"; "abs"; "sign"; "floor"; "ceil"; "round";
                       "trunc"; "isnan"; "isinf"; "isfinite"] then pure_arithmetic
  else if one_of name ["getindex"] then array_getindex
  else if one_of name ["setindex!"] then array_setindex
  else if one_of name ["zeros"; "ones"; "fill"; "similar"; "copy"] then allocating
  else if one_of name ["length"; "size"; "ndims"; "eltype"; "axes"; "eachindex"]
  then pure_arithmetic
  else if one_of name ["println"; "print"; "show"; "display"; "write"] then with_side_effects
  else if one_of name ["string"; "isempty"; "startswith"; "endswith"; "contains"; "replace";
                       "split"; "join"; "uppercase"; "lowercase"; "strip"; "lstrip"; "rstrip"]
  then pure_arithmetic
  else if one_of name ["typeof"; "isa"; "nfields"; "typeassert"; "sizeof"; "convert";
                       "promote_type"] then pure_arithmetic
  else if one_of name ["getfield"; "fieldtype"] then effect_free_may_throw
  else if one_of name ["fieldnames"] then pure_arithmetic
  else if one_of name ["push!"; "pop!"; "append!"; "deleteat!"] then array_setindex
  else if one_of name ["iterate"; "first"; "last"] then pure_arithmetic
  else if one_of name ["collect"] then allocating
  else if one_of name ["range"; ":"; "step"] then pure_arithmetic
  else if one_of name ["rand"; "randn"; "randexp"] then with_side_effects
  else arbitrary.

Definition infer_binary_op_effects (op : BinaryOp) (lhs rhs : Effects) : Effects :=
  let merged := merge lhs rhs in
  match op with
  | Add | Sub | Mul | Div | Pow =>
      {| consistent := consistent merged; effect_free := effect_free merged;
         nothrow := nothrow merged; terminates := true; notaskstate := notaskstate merged;
         inaccessiblememonly := inaccessiblememonly merged; noub := noub merged;
         nonoverlayed := nonoverlayed merged; nortcall := nortcall merged |}
  | IntDiv | Mod => merge_with_args effect_free_may_throw [lhs; rhs]
  | Eq | Ne | Lt | Le | Gt | Ge | Egal | NotEgal | Subtype => pure_arithmetic
  | And | Or => merged
  end.

Definition infer_unary_op_effects (op : UnaryOp) (operand : Effects) : Effects :=
  match op with Neg | Pos | Not => operand end.

(** ** Merging *)

Lemma merge_comm a b : merge a b = merge b a.
Proof.
  destruct a as [c e n t ts i u o r], b as [c' e' n' t' ts' i' u' o' r']. unfold merge. simpl.
  f_equal; try apply andb_comm; [by destruct c, c'|by destruct e, e'|by destruct u, u'].
Qed.

Lemma merge_assoc a b c : merge a (merge b c) = merge (merge a b) c.
Proof.
  destruct a as [c1 e1 n1 t1 s1 i1 u1 o1 r1], b as [c2 e2 n2 t2 s2 i2 u2 o2 r2],
    c as [c3 e3 n3 t3 s3 i3 u3 o3 r3]. unfold merge. simpl.
  f_equal; try apply andb_assoc;
    [by destruct c1, c2, c3|by destruct e1, e2, e3|by destruct u1, u2, u3].
Qed.

Lemma merge_idem a : merge a a = a.
Proof.
  destruct a as [c e n t ts i u o r]. unfold merge. simpl.
  f_equal; try apply andb_diag; [by destruct c|by destruct e|by destruct u].
Qed.

Lemma merge_removable a b : is_removable (merge a b) = is_removable a && is_removable b.
Proof.
  destruct a as [c e n t ts i u o r], b as [c' e' n' t' ts' i' u' o' r'].
  unfold is_removable. simpl. destruct e, e', n, n', t, t'; reflexivity.
Qed.

Lemma merge_foldable a b : is_foldable (merge a b) = is_foldable a && is_foldable b.
Proof.
  destruct a as [c e n t ts i u o r], b as [c' e' n' t' ts' i' u' o' r'].
  unfold is_foldable. simpl.
  destruct c, c'; simpl; try reflexivity; try (by rewrite ?andb_false_r);
    destruct e, e', t, t', i, i', u, u'; reflexivity.
Qed.

Lemma foldl_merge_foldable base args :
  is_foldable (foldl merge base args) = is_foldable base && forallb is_foldable args.
Proof.
  revert base. induction args as [|a args IH]; intros base; simpl; [by rewrite andb_true_r|].
  by rewrite IH, merge_foldable, andb_assoc.
Qed.

Lemma foldl_merge_removable base args :
  is_removable (foldl merge base args) = is_removable base && forallb is_removable args.
Proof.
  revert base. induction args as [|a args IH]; intros base; simpl; [by rewrite andb_true_r|].
  by rewrite IH, merge_removable, andb_assoc.
Qed.

(** Merging summaries is a semilattice operation, and a merged summary allows
    removing (folding) a call exactly when every summary that went in does:
    merging in another method never makes a call look purer. *)
Theorem merge_conservative base args :
  (forall a b c, merge a (merge b c) = merge (merge a b) c /\ merge a b = merge b a /\
    merge a a = a) /\
  is_removable (merge_with_args base args) = is_removable base && forallb is_removable args /\
  is_foldable (merge_with_args base args) = is_foldable base && forallb is_foldable args.
Proof.
  split_and!; [|apply foldl_merge_removable|apply foldl_merge_foldable].
  intros a b c. split_and!; [apply merge_assoc|apply merge_comm|apply merge_idem].
Qed.
