(* ===== verification/EffectWalk.v ===== *)
(** * Effects of Core IR

    The walks over Core IR that give a method its effect summary: the rules for
    expressions of subset_julia_vm_types/src/runtime_types/effect_inference.rs, the
    walk over bodies of function_effects.rs next to it, and the names that
    subset_julia_vm_compile/src/compile/effects/propagation.rs takes for callees.
    Summaries are ordered by how little they promise: a walk that is given worse
    summaries of the callees gives a worse one. *)

From S2P Require Export CoreIr Effects.

(** The builtin operations of Core IR. *)
Inductive CoreBuiltinOp :=
  | Op_Rand | Op_Sqrt | Op_IfElse | Op_TimeNs | Op_Zeros | Op_Ones | Op_Reshape | Op_Length
  | Op_Size | Op_Ndims | Op_Push | Op_Pop | Op_PushFirst | Op_PopFirst | Op_Insert | Op_DeleteAt
  | Op_Zero | Op_Lu | Op_Det | Op_StableRNG | Op_XoshiroRNG | Op_Randn | Op_TupleFirst
  | Op_TupleLast | Op_HasKey | Op_DictGet | Op_DictDelete | Op_DictKeys | Op_DictValues
  | Op_DictPairs | Op_DictMerge | Op_DictGetBang | Op_DictMergeBang | Op_DictEmpty | Op_DictGetkey
  | Op_Ref | Op_TypeOf | Op_Isa | Op_Eltype | Op_Keytype | Op_Valtype | Op_Sizeof
  | Op_Isbitstype | Op_Supertype | Op_Typename | Op_FunctionName | Op_Subtypes | Op_Objectid
  | Op_Isunordered | Op_Methods | Op_HasMethod | Op_In | Op_Seed | Op_Iterate | Op_Collect
  | Op_Generator | Op_SymbolNew | Op_ExprNew | Op_LineNumberNodeNew | Op_QuoteNodeNew
  | Op_GlobalRefNew | Op_Gensym | Op_Esc | Op_Eval | Op_MacroExpand | Op_MacroExpandBang
  | Op_IncludeString | Op_EvalFile | Op_SplatInterpolation | Op_TestRecord | Op_TestRecordBroken
  | Op_TestSetBegin | Op_TestSetEnd | Op_IsDefined | Op_GeneratedEval | Op_MersenneTwisterRNG
  | Op_RangeStep | Op_TestRecordError.

(** Which operation a builtin of Core IR is. *)
Class BuiltinOps {C : CoreTypes} := builtin_op : CoreBuiltin -> CoreBuiltinOp.

(** ** Effects of expressions *)

Definition infer_builtin_op_effects (op : CoreBuiltinOp) (args : list Effects) : Effects :=
  let base :=
    match op with
    | Op_Rand | Op_Randn | Op_Seed | Op_TimeNs | Op_Eval | Op_EvalFile | Op_IncludeString
    | Op_MacroExpand | Op_MacroExpandBang | Op_GeneratedEval | Op_Gensym | Op_TestRecord
    | Op_TestRecordBroken | Op_TestRecordError | Op_TestSetBegin | Op_TestSetEnd =>
        with_side_effects
    | Op_Push | Op_Pop | Op_PushFirst | Op_PopFirst | Op_Insert | Op_DeleteAt | Op_DictDelete
    | Op_DictMergeBang | Op_DictEmpty | Op_DictGetBang => array_setindex
    | Op_MersenneTwisterRNG | Op_XoshiroRNG | Op_StableRNG | Op_Zeros | Op_Ones | Op_Reshape
    | Op_Collect | Op_Subtypes | Op_Methods | Op_Lu | Op_Ref | Op_ExprNew | Op_Esc | Op_DictMerge =>
        allocating
    | _ => pure_arithmetic
    end in
  merge_with_args base args.

(** [Effects { terminates: false, ..eff }] *)
Definition may_loop (e : Effects) : Effects :=
  {| consistent := consistent e; effect_free := effect_free e; nothrow := nothrow e;
     terminates := false; notaskstate := notaskstate e;
     inaccessiblememonly := inaccessiblememonly e; noub := noub e;
     nonoverlayed := nonoverlayed e; nortcall := nortcall e |}.

(** An access that checks its bounds. *)
Definition index_effects (e : Effects) : Effects :=
  {| consistent := consistent e; effect_free := effect_free e; nothrow := false;
     terminates := terminates e; notaskstate := notaskstate e;
     inaccessiblememonly := inaccessiblememonly e; noub := Conditional;
     nonoverlayed := nonoverlayed e; nortcall := nortcall e |}.

Definition assign_effects (e : Effects) : Effects :=
  {| consistent := AlwaysFalse; effect_free := AlwaysFalse; nothrow := nothrow e;
     terminates := terminates e; notaskstate := notaskstate e; inaccessiblememonly := false;
     noub := noub e; nonoverlayed := nonoverlayed e; nortcall := nortcall e |}.

(** [result = result.merge(&f(x))] for every element, and for an option. *)
Definition merge_map {A} (f : A -> Effects) : Effects -> list A -> Effects :=
  fix go result l :=
    match l with [] => result | x :: l => go (merge result (f x)) l end.

Definition merge_opt {A} (f : A -> Effects) (result : Effects) (o : option A) : Effects :=
  match o with Some x => merge result (f x) | None => result end.

Section Walk.
Context {C : CoreTypes} {B : BuiltinOps}.

Fixpoint infer_expr_effects_with_callees (callee_lookup : string -> option Effects)
    (e : CoreExpr) : Effects :=
  let recurse := infer_expr_effects_with_callees callee_lookup in
  match e with
  | Expr_Literal _ _ => effects_total
  | Expr_Var _ _ => pure_arithmetic
  | Expr_BinaryOp op lhs rhs _ => infer_binary_op_effects op (recurse lhs) (recurse rhs)
  | Expr_UnaryOp op operand _ => infer_unary_op_effects op (recurse operand)
  | Expr_Call function args kwargs _ _ _ =>
      let arg_effects := map recurse args ++ map (fun kw => recurse kw.2) kwargs in
      match callee_lookup function with
      | Some callee => merge_with_args callee arg_effects
      | None => infer_builtin_effects function arg_effects
      end
  | Expr_Builtin name args _ => infer_builtin_op_effects (builtin_op name) (map recurse args)
  | Expr_ArrayLiteral elements _ _ | Expr_TupleLiteral elements _ | Expr_StringConcat elements _ =>
      merge_map recurse pure_arithmetic elements
  | Expr_NamedTupleLiteral fields _ => merge_map (fun f => recurse f.2) pure_arithmetic fields
  | Expr_Range start step stop _ => merge_opt recurse (merge (recurse start) (recurse stop)) step
  | Expr_LetBlock _ _ _ => arbitrary
  | Expr_FunctionRef _ _ => pure_arithmetic
  | Expr_Index array indices _ => index_effects (merge_map recurse (recurse array) indices)
  | Expr_FieldAccess object _ _ => recurse object
  | Expr_Comprehension body _ _ _ _ | Expr_MultiComprehension body _ _ _ _ => recurse body
  | Expr_Generator _ _ _ _ _ => arbitrary
  | Expr_Ternary condition then_expr else_expr _ =>
      merge (merge (recurse condition) (recurse then_expr)) (recurse else_expr)
  | Expr_ReturnExpr value _ => match value with Some v => recurse v | None => effects_total end
  | Expr_BreakExpr _ | Expr_ContinueExpr _ => effects_total
  | Expr_AssignExpr _ value _ => assign_effects (recurse value)
  | _ => arbitrary
  end.

Definition infer_expr_effects (e : CoreExpr) : Effects :=
  infer_expr_effects_with_callees (fun _ => None) e.

(** ** Effects of bodies *)

Section Body.
Variable effects_map : gmap string Effects.

Definition known_effects (function : string) : Effects :=
  default arbitrary (effects_map !! function).

Fixpoint compute_expr_effects (e : CoreExpr) : Effects :=
  match e with
  | Expr_Call function args kwargs _ _ _ | Expr_ModuleCall _ function args kwargs _ _ _ =>
      merge_map (fun kw => compute_expr_effects kw.2)
        (merge_map compute_expr_effects (known_effects function) args) kwargs
  | Expr_LetBlock bindings body _ =>
      merge (merge_map (fun b => compute_expr_effects b.2) effects_total bindings)
        (compute_block_effects body)
  | Expr_Ternary condition then_expr else_expr _ =>
      merge (merge (compute_expr_effects condition) (compute_expr_effects then_expr))
        (compute_expr_effects else_expr)
  | Expr_BinaryOp (And | Or) lhs rhs _ =>
      merge (compute_expr_effects lhs) (compute_expr_effects rhs)
  | _ => infer_expr_effects_with_callees (fun name => effects_map !! name) e
  end
with compute_stmt_effects (s : CoreStmt) : Effects :=
  match s with
  | Stmt_Assign _ value _ | Stmt_AddAssign _ value _ | Stmt_Expr value _ =>
      compute_expr_effects value
  | Stmt_For _ start stop step body _ =>
      may_loop (merge (merge_opt compute_expr_effects
        (merge (compute_expr_effects start) (compute_expr_effects stop)) step)
        (compute_block_effects body))
  | Stmt_ForEach _ iterable body _ | Stmt_ForEachTuple _ iterable body _ =>
      may_loop (merge (compute_expr_effects iterable) (compute_block_effects body))
  | Stmt_While condition body _ =>
      may_loop (merge (compute_expr_effects condition) (compute_block_effects body))
  | Stmt_If condition then_branch else_branch _ =>
      merge_opt compute_block_effects
        (merge (compute_expr_effects condition) (compute_block_effects then_branch)) else_branch
  | Stmt_Return value _ =>
      match value with Some v => compute_expr_effects v | None => effects_total end
  | Stmt_Block block => compute_block_effects block
  | Stmt_Try try_block _ catch_block _ finally_block _ =>
      merge_opt compute_block_effects
        (merge_opt compute_block_effects (compute_block_effects try_block) catch_block) finally_block
  | Stmt_Timed body _ | Stmt_TestSet _ body _ => compute_block_effects body
  | _ => effects_total
  end
with compute_block_effects (b : CoreBlock) : Effects :=
  match b with Block stmts _ => merge_map compute_stmt_effects effects_total stmts end.

Definition compute_function_effects (f : CoreFunction) : Effects :=
  compute_block_effects (func_body f).

(** All methods of one name. *)
Definition compute_method_set_effects (funcs : list CoreFunction) : Effects :=
  match funcs with
  | [] => arbitrary
  | first :: rest => merge_map compute_function_effects (compute_function_effects first) rest
  end.
End Body.

Definition infer_function_effects (f : CoreFunction) (callees : gmap string Effects) : Effects :=
  compute_function_effects callees f.

(** ** Callees *)

Definition names {A} (f : A -> gset string) : list A -> gset string :=
  fix go l := match l with [] => ∅ | x :: l => f x ∪ go l end.

Definition names_opt {A} (f : A -> gset string) (o : option A) : gset string :=
  match o with Some x => f x | None => ∅ end.

Fixpoint extract_callees_from_expr (e : CoreExpr) : gset string :=
  let recurse := extract_callees_from_expr in
  match e with
  | Expr_Call function args kwargs _ _ _ | Expr_ModuleCall _ function args kwargs _ _ _ =>
      {[function]} ∪ names recurse args ∪ names (fun kw => recurse kw.2) kwargs
  | Expr_Builtin _ args _ => names recurse args
  | Expr_BinaryOp _ lhs rhs _ => recurse lhs ∪ recurse rhs
  | Expr_UnaryOp _ operand _ => recurse operand
  | Expr_ArrayLiteral elements _ _ | Expr_TupleLiteral elements _ | Expr_StringConcat elements _ =>
      names recurse elements
  | Expr_NamedTupleLiteral fields _ => names (fun f => recurse f.2) fields
  | Expr_Range start step stop _ => recurse start ∪ recurse stop ∪ names_opt recurse step
  | Expr_Index array indices _ => recurse array ∪ names recurse indices
  | Expr_FieldAccess object _ _ => recurse object
  | Expr_Comprehension body _ _ _ _ | Expr_MultiComprehension body _ _ _ _ => recurse body
  | Expr_Ternary condition then_expr else_expr _ =>
      recurse condition ∪ recurse then_expr ∪ recurse else_expr
  | Expr_AssignExpr _ value _ => recurse value
  | Expr_LetBlock bindings body _ =>
      names (fun b => recurse b.2) bindings ∪ extract_callees_from_block body
  | _ => ∅
  end
with extract_callees_from_stmt (s : CoreStmt) : gset string :=
  match s with
  | Stmt_Assign _ value _ | Stmt_AddAssign _ value _ | Stmt_DestructuringAssign _ value _
  | Stmt_Expr value _ => extract_callees_from_expr value
  | Stmt_For _ start stop step body _ =>
      extract_callees_from_expr start ∪ extract_callees_from_expr stop ∪
      names_opt extract_callees_from_expr step ∪ extract_callees_from_block body
  | Stmt_ForEach _ iterable body _ | Stmt_ForEachTuple _ iterable body _ =>
      extract_callees_from_expr iterable ∪ extract_callees_from_block body
  | Stmt_While condition body _ =>
      extract_callees_from_expr condition ∪ extract_callees_from_block body
  | Stmt_If condition then_branch else_branch _ =>
      extract_callees_from_expr condition ∪ extract_callees_from_block then_branch ∪
      names_opt extract_callees_from_block else_branch
  | Stmt_Return value _ => names_opt extract_callees_from_expr value
  | Stmt_Block block => extract_callees_from_block block
  | Stmt_Try try_block _ catch_block _ finally_block _ =>
      extract_callees_from_block try_block ∪ names_opt extract_callees_from_block catch_block ∪
      names_opt extract_callees_from_block finally_block
  | Stmt_Timed body _ | Stmt_TestSet _ body _ => extract_callees_from_block body
  | _ => ∅
  end
with extract_callees_from_block (b : CoreBlock) : gset string :=
  match b with Block stmts _ => names extract_callees_from_stmt stmts end.
End Walk.

(** ** The order of summaries *)

Definition bit_grade (b : EffectBit) : nat :=
  match b with AlwaysTrue => 0 | Conditional => 1 | AlwaysFalse => 2 end.

Definition bool_grade (b : bool) : nat := if b then 0 else 1.

(** How far every property is from being promised. *)
Definition grades (e : Effects) : list nat :=
  [bit_grade (consistent e); bit_grade (effect_free e); bool_grade (nothrow e);
   bool_grade (terminates e); bool_grade (notaskstate e); bool_grade (inaccessiblememonly e);
   bit_grade (noub e); bool_grade (nonoverlayed e); bool_grade (nortcall e)].

#[export] Instance Effects_eq_dec : EqDecision Effects.
Proof. solve_decision. Defined.

(** [a ⊑ b]: [a] promises whatever [b] does. *)
#[export] Instance effects_le : SqSubsetEq Effects := fun a b => Forall2 le (grades a) (grades b).

Lemma bit_grade_inj a b : bit_grade a = bit_grade b -> a = b.
Proof. by destruct a, b. Qed.

Lemma bool_grade_inj a b : bool_grade a = bool_grade b -> a = b.
Proof. by destruct a, b. Qed.

#[export] Instance effects_partial_order : PartialOrder (⊑@{Effects}).
Proof.
  assert (PreOrder (Forall2 le)) as [Hr Ht] by apply _.
  split; [split|].
  - intros a. apply Hr.
  - intros a b c. apply Ht.
  - intros a b Hab Hba.
    assert (grades a = grades b) as He.
    { eapply (anti_symm (Forall2 le)); [exact Hab|exact Hba]. }
    destruct a, b. unfold grades in He. simpl in He. injection He as H1 H2 H3 H4 H5 H6 H7 H8 H9.
    f_equal; (by apply bit_grade_inj) || (by apply bool_grade_inj).
Qed.

Lemma bit_merge_mono a a' b b' :
  bit_grade a <= bit_grade a' -> bit_grade b <= bit_grade b' ->
  bit_grade (bit_merge a b) <= bit_grade (bit_merge a' b').
Proof. destruct a, a', b, b'; simpl; lia. Qed.

Lemma absorbing_mono a a' b b' :
  bit_grade a <= bit_grade a' -> bit_grade b <= bit_grade b' ->
  bit_grade (merge_af_absorbing a b) <= bit_grade (merge_af_absorbing a' b').
Proof. destruct a, a', b, b'; simpl; lia. Qed.

Lemma andb_mono a a' b b' :
  bool_grade a <= bool_grade a' -> bool_grade b <= bool_grade b' ->
  bool_grade (a && b) <= bool_grade (a' && b').
Proof. destruct a, a', b, b'; simpl; lia. Qed.

Lemma effects_le_arbitrary e : e ⊑ arbitrary.
Proof. destruct e as [[] [] [] [] [] [] [] [] []]; repeat constructor. Qed.

Ltac effects_le_inv H :=
  unfold sqsubseteq, effects_le, grades in H; rewrite !Forall2_cons in H;
  destruct H as (?&?&?&?&?&?&?&?&?&_).

Ltac effects_le_intro :=
  unfold sqsubseteq, effects_le, grades; repeat apply Forall2_cons_2;
  try apply Forall2_nil_2; simpl.

(** A relation that the rules for effects respect. *)
Class EffectCongruence (R : relation Effects) := {
  effects_R_refl :: Reflexive R;
  merge_R :: Proper (R ==> R ==> R) merge;
  may_loop_R :: Proper (R ==> R) may_loop;
  index_R :: Proper (R ==> R) index_effects;
  assign_R :: Proper (R ==> R) assign_effects;
  binary_R op :: Proper (R ==> R ==> R) (infer_binary_op_effects op)
}.

#[export] Instance effects_eq_congruence : EffectCongruence eq.
Proof. split; try apply _; try (by intros ? ? ->); by intros ? ? -> ? ? ->. Qed.

#[export] Instance effects_le_congruence : EffectCongruence (⊑@{Effects}).
Proof.
  assert (Proper ((⊑@{Effects}) ==> (⊑) ==> (⊑)) merge) as Hm.
  { intros a a' Ha b b' Hb. effects_le_inv Ha. effects_le_inv Hb.
    effects_le_intro; auto using bit_merge_mono, absorbing_mono, andb_mono. }
  split; [apply _|exact Hm|..].
  - intros a a' Ha. effects_le_inv Ha. effects_le_intro; auto.
  - intros a a' Ha. effects_le_inv Ha. effects_le_intro; auto.
  - intros a a' Ha. effects_le_inv Ha. effects_le_intro; auto.
  - intros op a a' Ha b b' Hb. pose proof (Hm _ _ Ha _ _ Hb) as Hab.
    destruct op; simpl; try reflexivity; try exact Hab.
    all: try (effects_le_inv Hab; effects_le_intro; by auto).
    all: by apply Hm; [apply Hm; [reflexivity|]|].
Qed.

Lemma always_true_le a b : bit_grade a <= bit_grade b -> is_always_true b = true -> is_always_true a = true.
Proof. destruct a, b; simpl; (done || lia). Qed.

Lemma not_false_le a b :
  bit_grade a <= bit_grade b -> is_always_true b || is_conditional b = true ->
  is_always_true a || is_conditional a = true.
Proof. destruct a, b; simpl; (done || lia). Qed.

Lemma bool_le a b : bool_grade a <= bool_grade b -> b = true -> a = true.
Proof. destruct a, b; simpl; (done || lia). Qed.

Lemma effects_le_promises a b :
  a ⊑ b ->
  (is_removable b = true -> is_removable a = true) /\ (is_foldable b = true -> is_foldable a = true).
Proof.
  intros H. effects_le_inv H. unfold is_removable, is_foldable.
  rewrite !andb_true_iff. split; intros Hb; destruct_and!; split_and!;
    eauto using always_true_le, not_false_le, bool_le.
Qed.

(** ** The walks respect the summaries they are given *)

Definition any_of {A} (f : A -> bool) : list A -> bool :=
  fix go l := match l with [] => false | x :: l => f x || go l end.

Definition any_opt {A} (f : A -> bool) (o : option A) : bool :=
  match o with Some x => f x | None => false end.

Section Respect.
Context {C : CoreTypes} {B : BuiltinOps}.

(** A [return] inside of an expression, the one position in which a walk for effects
    looks a callee up and the extraction of callees does not look. *)
Fixpoint has_return_expr (e : CoreExpr) : bool :=
  match e with
  | Expr_Call _ args kwargs _ _ _ | Expr_ModuleCall _ _ args kwargs _ _ _ =>
      any_of has_return_expr args || any_of (fun kw => has_return_expr kw.2) kwargs
  | Expr_Builtin _ args _ => any_of has_return_expr args
  | Expr_BinaryOp _ lhs rhs _ => has_return_expr lhs || has_return_expr rhs
  | Expr_UnaryOp _ operand _ => has_return_expr operand
  | Expr_ArrayLiteral elements _ _ | Expr_TupleLiteral elements _ | Expr_StringConcat elements _ =>
      any_of has_return_expr elements
  | Expr_NamedTupleLiteral fields _ => any_of (fun f => has_return_expr f.2) fields
  | Expr_Range start step stop _ =>
      has_return_expr start || has_return_expr stop || any_opt has_return_expr step
  | Expr_Index array indices _ => has_return_expr array || any_of has_return_expr indices
  | Expr_FieldAccess object _ _ => has_return_expr object
  | Expr_Comprehension body _ _ _ _ | Expr_MultiComprehension body _ _ _ _ => has_return_expr body
  | Expr_Ternary condition then_expr else_expr _ =>
      has_return_expr condition || has_return_expr then_expr || has_return_expr else_expr
  | Expr_AssignExpr _ value _ => has_return_expr value
  | Expr_LetBlock bindings body _ =>
      any_of (fun b => has_return_expr b.2) bindings || block_has_return_expr body
  | Expr_ReturnExpr _ _ => true
  | _ => false
  end
with stmt_has_return_expr (s : CoreStmt) : bool :=
  match s with
  | Stmt_Assign _ value _ | Stmt_AddAssign _ value _ | Stmt_Expr value _ => has_return_expr value
  | Stmt_For _ start stop step body _ =>
      has_return_expr start || has_return_expr stop || any_opt has_return_expr step ||
      block_has_return_expr body
  | Stmt_ForEach _ iterable body _ | Stmt_ForEachTuple _ iterable body _ =>
      has_return_expr iterable || block_has_return_expr body
  | Stmt_While condition body _ => has_return_expr condition || block_has_return_expr body
  | Stmt_If condition then_branch else_branch _ =>
      has_return_expr condition || block_has_return_expr then_branch ||
      any_opt block_has_return_expr else_branch
  | Stmt_Return value _ => any_opt has_return_expr value
  | Stmt_Block block => block_has_return_expr block
  | Stmt_Try try_block _ catch_block _ finally_block _ =>
      block_has_return_expr try_block || any_opt block_has_return_expr catch_block ||
      any_opt block_has_return_expr finally_block
  | Stmt_Timed body _ | Stmt_TestSet _ body _ => block_has_return_expr body
  | _ => false
  end
with block_has_return_expr (b : CoreBlock) : bool :=
  match b with Block stmts _ => any_of stmt_has_return_expr stmts end.

Variable R : relation Effects.

(** Two tables that agree on what a walk looks up. *)
Definition agree_on (l1 l2 : string -> option Effects) (returns : bool) (callees : gset string) :=
  forall x, returns = true \/ x ∈ callees -> option_Forall2 R (l1 x) (l2 x).

Lemma agree_weaken l1 l2 r r' c c' :
  agree_on l1 l2 r c -> (r' = true -> r = true) -> c' ⊆ c -> agree_on l1 l2 r' c'.
Proof. intros H Hr Hc x [Hx|Hx]; apply H; [left; auto|right; set_solver]. Qed.

(** Every element agrees when the list does. *)
Lemma agree_list l1 l2 {A} (h : A -> bool) (c : A -> gset string) l r cs :
  agree_on l1 l2 r cs -> (any_of h l = true -> r = true) -> names c l ⊆ cs ->
  Forall (fun x => agree_on l1 l2 (h x) (c x)) l.
Proof.
  intros H. induction l as [|x l IH]; simpl; intros Hr Hc; [constructor|]. constructor.
  - eapply agree_weaken; [exact H| |set_solver]. intros Hx. apply Hr. by rewrite Hx.
  - apply IH; [|set_solver]. intros Hx. apply Hr. by rewrite Hx, orb_true_r.
Qed.

Context {HR : EffectCongruence R}.

Lemma merge_map_R {A} (f g : A -> Effects) l a b :
  R a b -> Forall (fun x => R (f x) (g x)) l -> R (merge_map f a l) (merge_map g b l).
Proof.
  intros Hab Hl. revert a b Hab. induction Hl as [|x l Hx Hl IH]; intros a b Hab; simpl; [done|].
  apply IH. by apply merge_R.
Qed.

Lemma merge_with_args_R a b l1 l2 :
  R a b -> Forall2 R l1 l2 -> R (merge_with_args a l1) (merge_with_args b l2).
Proof.
  intros Hab Hl. revert a b Hab. unfold merge_with_args.
  induction Hl as [|x y l1 l2 Hx Hl IH]; intros a b Hab; simpl; [done|]. apply IH. by apply merge_R.
Qed.

Lemma arithmetic_R l1 l2 :
  Forall2 R l1 l2 -> R (infer_arithmetic_effects l1) (infer_arithmetic_effects l2).
Proof.
  intros Hl. pose proof (merge_with_args_R pure_arithmetic pure_arithmetic _ _ ltac:(reflexivity) Hl).
  by destruct Hl.
Qed.

Lemma builtin_R name l1 l2 :
  Forall2 R l1 l2 -> R (infer_builtin_effects name l1) (infer_builtin_effects name l2).
Proof.
  intros Hl. unfold infer_builtin_effects.
  repeat case_match; try reflexivity;
    by (apply arithmetic_R || (apply merge_with_args_R; [reflexivity|])).
Qed.

(** The goal [R (f ..) (g ..)] of an element follows from agreement. *)
Lemma list_R l1 l2 {A} (h : A -> bool) (c : A -> gset string) (f g : A -> Effects) l r cs :
  Forall (fun x => agree_on l1 l2 (h x) (c x) -> R (f x) (g x)) l ->
  agree_on l1 l2 r cs -> (any_of h l = true -> r = true) -> names c l ⊆ cs ->
  Forall (fun x => R (f x) (g x)) l.
Proof.
  intros Hl H Hr Hc. pose proof (agree_list _ _ _ _ _ _ _ H Hr Hc) as Ha.
  eapply Forall_impl; [by apply Forall_and; split; [exact Hl|exact Ha]|]. naive_solver.
Qed.

(** [P] of what an option holds. *)
Definition holds {A} (P : A -> Prop) (o : option A) : Prop := match o with Some x => P x | None => True end.

Lemma opt_R l1 l2 {A} (h : A -> bool) (c : A -> gset string) (f g : A -> Effects) o r cs a b :
  holds (fun x => agree_on l1 l2 (h x) (c x) -> R (f x) (g x)) o ->
  R a b -> agree_on l1 l2 r cs -> (any_opt h o = true -> r = true) -> names_opt c o ⊆ cs ->
  R (merge_opt f a o) (merge_opt g b o).
Proof.
  intros Ho Hab H Hr Hc. destruct o as [x|]; simpl in *; [|done].
  apply merge_R; [done|]. apply Ho. by eapply agree_weaken.
Qed.

Lemma map_R {A} (f g : A -> Effects) l : Forall (fun x => R (f x) (g x)) l -> Forall2 R (map f l) (map g l).
Proof. induction 1; simpl; by constructor. Qed.
End Respect.

Ltac agree_side := (by intros; rewrite ?orb_true_iff; tauto) || set_solver.

(** Agreement of a part follows from that of the whole. *)
Ltac agree_part H := eapply agree_weaken; [exact H|agree_side..].

Ltac list_part H Hall :=
  eapply (list_R _ _ _ _ _ _ _ _ _ _ Hall); [exact H|agree_side..].

Ltac opt_part H Hone :=
  eapply (opt_R _ _ _ _ _ _ _ _ _ _ _ _ Hone); [|exact H|agree_side..].

Section Walks.
Context {C : CoreTypes} {B : BuiltinOps}.
Variable R : relation Effects.
Context {HR : EffectCongruence R}.

Section Infer.
Variable l1 l2 : string -> option Effects.

Abbreviation related e :=
  (agree_on R l1 l2 (has_return_expr e) (extract_callees_from_expr e) ->
   R (infer_expr_effects_with_callees l1 e) (infer_expr_effects_with_callees l2 e)).

(** A [return] inside may look up anything, so that its parts are covered by the first
    case of [agree_on]. *)
Lemma agree_all r c r' c' : agree_on R l1 l2 r c -> r = true -> agree_on R l1 l2 r' c'.
Proof. intros H Hr x _. apply H. by left. Qed.

Lemma infer_R : forall e, related e.
Proof.
  fix IH 1.
  assert (forall l, Forall (fun e => related e) l) as Hl by (fix IHl 1; intros [|x l]; constructor; auto).
  assert (forall A (l : list (A * CoreExpr)), Forall (fun e => related e.2) l) as Hp
    by (intros A; fix IHl 1; intros [|[a x] l]; constructor; [exact (IH x)|auto]).
  assert (forall o, holds (fun e => related e) o) as Ho by (intros [x|]; [exact (IH x)|exact I]).
  intros e. destruct e; cbn [has_return_expr extract_callees_from_expr infer_expr_effects_with_callees];
    intros H; try reflexivity.
  - apply (binary_R op); apply IH; agree_part H.
  - destruct op; simpl; apply IH; agree_part H.
  - assert (Forall2 R
      (map (infer_expr_effects_with_callees l1) args ++
       map (fun kw => infer_expr_effects_with_callees l1 kw.2) kwargs)
      (map (infer_expr_effects_with_callees l2) args ++
       map (fun kw => infer_expr_effects_with_callees l2 kw.2) kwargs)) as Hargs.
    { apply Forall2_app; apply (map_R R); [list_part H (Hl args)|list_part H (Hp _ kwargs)]. }
    destruct (H function) as [a b Hab|]; [right; set_solver| |]; cbn [from_option].
    + by apply (merge_with_args_R R).
    + by apply (builtin_R R).
  - unfold infer_builtin_op_effects. apply (merge_with_args_R R); [reflexivity|].
    apply (map_R R). list_part H (Hl args).
  - apply (merge_map_R R); [reflexivity|]. list_part H (Hl elements).
  - apply index_R. apply (merge_map_R R); [apply IH; agree_part H|list_part H (Hl indices)].
  - opt_part H (Ho step). apply merge_R; apply IH; agree_part H.
  - apply IH. agree_part H.
  - apply IH. agree_part H.
  - apply IH. agree_part H.
  - apply (merge_map_R R); [reflexivity|]. list_part H (Hl elements).
  - apply (merge_map_R R); [reflexivity|]. list_part H (Hp _ fields).
  - apply (merge_map_R R); [reflexivity|]. list_part H (Hl parts).
  - apply merge_R; [apply merge_R|]; apply IH; agree_part H.
  - apply assign_R. apply IH. agree_part H.
  - destruct value as [v|]; [|reflexivity]. apply IH. by eapply agree_all.
Qed.
End Infer.

(** ** Bodies *)

Section Body.
Variable m1 m2 : gmap string Effects.

Abbreviation agree := (agree_on R (fun x => m1 !! x) (fun x => m2 !! x)).

Lemma known_R x : option_Forall2 R (m1 !! x) (m2 !! x) -> R (known_effects m1 x) (known_effects m2 x).
Proof. unfold known_effects. by destruct 1; simpl. Qed.

Definition walked_expr (e : CoreExpr) : Prop :=
  agree (has_return_expr e) (extract_callees_from_expr e) ->
  R (compute_expr_effects m1 e) (compute_expr_effects m2 e).
Definition walked_stmt (s : CoreStmt) : Prop :=
  agree (stmt_has_return_expr s) (extract_callees_from_stmt s) ->
  R (compute_stmt_effects m1 s) (compute_stmt_effects m2 s).
Definition walked_block (b : CoreBlock) : Prop :=
  agree (block_has_return_expr b) (extract_callees_from_block b) ->
  R (compute_block_effects m1 b) (compute_block_effects m2 b).

(** A call, of a function or of a function of a module. *)
Lemma walked_call function args kwargs :
  Forall walked_expr args -> Forall (fun kw : string * CoreExpr => walked_expr kw.2) kwargs ->
  agree (any_of has_return_expr args || any_of (fun kw : string * CoreExpr => has_return_expr kw.2) kwargs)
    ({[function]} ∪ names extract_callees_from_expr args ∪
     names (fun kw : string * CoreExpr => extract_callees_from_expr kw.2) kwargs) ->
  R (merge_map (fun kw : string * CoreExpr => compute_expr_effects m1 kw.2)
       (merge_map (compute_expr_effects m1) (known_effects m1 function) args) kwargs)
    (merge_map (fun kw : string * CoreExpr => compute_expr_effects m2 kw.2)
       (merge_map (compute_expr_effects m2) (known_effects m2 function) args) kwargs).
Proof.
  intros Ha Hk H. apply (merge_map_R R); [apply (merge_map_R R)|].
  - apply known_R, (H function). right. set_solver.
  - list_part H Ha.
  - list_part H Hk.
Qed.

Lemma walked_block_list stmts span : Forall walked_stmt stmts -> walked_block (Block stmts span).
Proof. intros Hs H. apply (merge_map_R R); [reflexivity|]. list_part H Hs. Qed.

Lemma walked_infer e :
  agree (has_return_expr e) (extract_callees_from_expr e) ->
  R (infer_expr_effects_with_callees (fun x => m1 !! x) e)
    (infer_expr_effects_with_callees (fun x => m2 !! x) e).
Proof. apply infer_R. Qed.

Lemma walked_expr_all : forall e, walked_expr e
with walked_stmt_all : forall s, walked_stmt s.
Proof.
  - assert (forall l, Forall walked_expr l) as Hl by (fix IHl 1; intros [|x l]; constructor; auto).
    assert (forall A (l : list (A * CoreExpr)), Forall (fun e => walked_expr e.2) l) as Hp
      by (intros A; fix IHl 1; intros [|[a x] l]; constructor; [exact (walked_expr_all x)|auto]).
    assert (forall b, walked_block b) as Hb.
    { intros [l span]. apply walked_block_list. revert l. fix IHl 1; intros [|x l]; constructor; auto. }
    intros e. destruct e; try exact (walked_infer _); intros H; cbn [compute_expr_effects];
      cbn [has_return_expr extract_callees_from_expr] in H.
    + assert (R (merge (compute_expr_effects m1 e1) (compute_expr_effects m1 e2))
                (merge (compute_expr_effects m2 e1) (compute_expr_effects m2 e2))) as Hm
        by (apply merge_R; apply walked_expr_all; agree_part H).
      destruct op; try exact Hm; exact (walked_infer (Expr_BinaryOp _ e1 e2 span) H).
    + exact (walked_call _ _ _ (Hl args) (Hp _ kwargs) H).
    + apply merge_R; [apply (merge_map_R R); [reflexivity|list_part H (Hp _ bindings)]|].
      apply Hb. agree_part H.
    + exact (walked_call _ _ _ (Hl args) (Hp _ kwargs) H).
    + apply merge_R; [apply merge_R|]; apply walked_expr_all; agree_part H.
  - assert (forall b, walked_block b) as Hb.
    { intros [l span]. apply walked_block_list. revert l. fix IHl 1; intros [|x l]; constructor; auto. }
    assert (forall o, holds walked_expr o) as He by (intros [x|]; [exact (walked_expr_all x)|exact I]).
    assert (forall o, holds walked_block o) as Hbo by (intros [b|]; [exact (Hb b)|exact I]).
    intros s. destruct s; intros H; cbn [compute_stmt_effects]; try reflexivity;
      cbn [stmt_has_return_expr extract_callees_from_stmt] in H;
      try (by apply walked_expr_all); try (by apply Hb).
    + apply may_loop_R, merge_R; [|apply Hb; agree_part H].
      opt_part H (He step). apply merge_R; apply walked_expr_all; agree_part H.
    + apply may_loop_R, merge_R; [apply walked_expr_all|apply Hb]; agree_part H.
    + apply may_loop_R, merge_R; [apply walked_expr_all|apply Hb]; agree_part H.
    + apply may_loop_R, merge_R; [apply walked_expr_all|apply Hb]; agree_part H.
    + opt_part H (Hbo else_branch). apply merge_R; [apply walked_expr_all|apply Hb]; agree_part H.
    + opt_part H (Hbo finally_block). opt_part H (Hbo catch_block). apply Hb. agree_part H.
    + destruct value as [v|]; [|reflexivity]. apply walked_expr_all. agree_part H.
Qed.

Lemma walked_block_all b : walked_block b.
Proof.
  destruct b as [l span]. apply walked_block_list. induction l; constructor; [apply walked_stmt_all|done].
Qed.

Lemma compute_function_R f :
  agree (block_has_return_expr (func_body f)) (extract_callees_from_block (func_body f)) ->
  R (compute_function_effects m1 f) (compute_function_effects m2 f).
Proof. apply walked_block_all. Qed.

Lemma compute_method_set_R funcs :
  Forall (fun f => agree (block_has_return_expr (func_body f)) (extract_callees_from_block (func_body f)))
    funcs ->
  R (compute_method_set_effects m1 funcs) (compute_method_set_effects m2 funcs).
Proof.
  destruct 1 as [|f funcs Hf Hfs]; simpl; [reflexivity|].
  apply (merge_map_R R); [by apply compute_function_R|].
  eapply Forall_impl; [exact Hfs|]. intros g. apply compute_function_R.
Qed.
End Body.
End Walks.

(** ** Consequences *)

Section Consequences.
Context {C : CoreTypes} {B : BuiltinOps}.

(** [m1] knows the same functions as [m2] and promises more of each. *)
Definition summaries_le (m1 m2 : gmap string Effects) : Prop :=
  forall x, option_Forall2 (⊑) (m1 !! x) (m2 !! x).

#[export] Instance summaries_le_preorder : PreOrder summaries_le.
Proof.
  split.
  - intros m x. destruct (m !! x); by constructor.
  - intros m1 m2 m3 H12 H23 x. specialize (H12 x). specialize (H23 x).
    destruct H12 as [a b Hab|]; inversion H23; subst; constructor. by etrans.
Qed.

(** Worse summaries of the callees give worse summaries. *)
Lemma method_set_mono m1 m2 funcs :
  summaries_le m1 m2 -> compute_method_set_effects m1 funcs ⊑ compute_method_set_effects m2 funcs.
Proof. intros H. apply (compute_method_set_R (⊑)). apply Forall_true. intros f x _. apply H. Qed.

(** A body without [return] in its expressions asks only for the callees that are
    extracted from it. *)
Lemma method_set_local m1 m2 funcs :
  Forall (fun f => block_has_return_expr (func_body f) = false /\
    forall x, x ∈ extract_callees_from_block (func_body f) -> m1 !! x = m2 !! x) funcs ->
  compute_method_set_effects m1 funcs = compute_method_set_effects m2 funcs.
Proof.
  intros H. apply (compute_method_set_R eq). eapply Forall_impl; [exact H|].
  intros f [Hr Hf] x [Hx|Hx]; [congruence|]. rewrite (Hf x Hx). destruct (m2 !! x); by constructor.
Qed.

Lemma merge_map_foldl {A} (f : A -> Effects) l a : merge_map f a l = foldl merge a (map f l).
Proof. revert a. induction l as [|x l IH]; intros a; simpl; [done|]. apply IH. Qed.

(** A set of methods promises what all its methods do. *)
Lemma method_set_promises m funcs :
  (is_removable (compute_method_set_effects m funcs) = true ->
     Forall (fun f => is_removable (compute_function_effects m f) = true) funcs) /\
  (is_foldable (compute_method_set_effects m funcs) = true ->
     Forall (fun f => is_foldable (compute_function_effects m f) = true) funcs).
Proof.
  destruct funcs as [|f funcs]; [by split; constructor|]. simpl.
  rewrite merge_map_foldl, foldl_merge_removable, foldl_merge_foldable, !andb_true_iff, !forallb_forall.
  split; intros [Hf Hl]; (constructor; [done|]); rewrite List.Forall_forall; intros g Hg;
    apply Hl; by apply List.in_map.
Qed.

(** The order of the methods does not matter. *)
Lemma method_set_perm m funcs funcs' :
  funcs ≡ₚ funcs' -> compute_method_set_effects m funcs = compute_method_set_effects m funcs'.
Proof.
  assert (forall l l' a, l ≡ₚ l' ->
    merge_map (compute_function_effects m) a l = merge_map (compute_function_effects m) a l') as Hm.
  { intros l l' a H. revert a. induction H as [|f l l' _ IH|f g l|l l' l'' _ IH _ IH']; intros a; simpl;
      [done|apply IH| |by rewrite IH].
    by rewrite <- !merge_assoc, (merge_comm (compute_function_effects m f)). }
  induction 1 as [|f l l' H _|f g l|l l' l'' _ IH _ IH']; simpl; [done|by apply Hm| |by rewrite IH].
  by rewrite merge_comm.
Qed.
End Consequences.
