(* ===== verification/EffectProp.v ===== *)
(** * Propagation of effects

    subset_julia_vm_compile/src/compile/effects/propagation.rs: the call graph of
    the functions of a program and the worklist that computes their summaries,
    starting from no promise at all.  What comes out is justified by the bodies
    whatever the call graph and wherever the iteration stops; it is the best such
    table when the worklist drains and the call graph names the callees. *)

From S2P Require Export EffectWalk.

(** The order in which a [HashSet] is walked. *)
Class HashOrder := {
  hash_order : gset string -> list string;
  hash_order_perm s : hash_order s ≡ₚ elements s
}.

(** ** The call graph *)

Record CallGraphNode := { node_func_id : string; node_callees : gset string }.

Abbreviation CallGraph := (gmap string CallGraphNode).

Definition add_function (graph : CallGraph) (func_id : string) : CallGraph :=
  match graph !! func_id with
  | Some _ => graph
  | None => <[func_id := {| node_func_id := func_id; node_callees := ∅ |}]> graph
  end.

Definition add_call (graph : CallGraph) (caller callee : string) : CallGraph :=
  let graph := add_function (add_function graph caller) callee in
  alter (fun node => {| node_func_id := node_func_id node;
                        node_callees := {[callee]} ∪ node_callees node |}) caller graph.

Definition get_callees (graph : CallGraph) (func_id : string) : option (gset string) :=
  node_callees <$> graph !! func_id.

(** A sum in which one term changes. *)
Lemma sum_change (f g : string -> nat) id l :
  NoDup l -> id ∈ l -> (forall x, x <> id -> g x = f x) ->
  sum_list (map g l) + f id = sum_list (map f l) + g id.
Proof.
  intros Hn Hid Hother. induction l as [|x l IH]; [by apply not_elem_of_nil in Hid|].
  apply NoDup_cons in Hn as [Hx Hn]. simpl. destruct (decide (x = id)) as [->|Hne].
  - assert (map g l = map f l) as ->; [|lia].
    apply map_ext_in. intros y Hy. apply Hother. intros ->. by apply Hx, list_elem_of_In.
  - rewrite Hother by done. assert (id ∈ l) as Hl by set_solver. specialize (IH Hn Hl). lia.
Qed.

Section Propagation.
Context {C : CoreTypes} {B : BuiltinOps} {H : HashOrder}.

Definition from_program_slice (functions : list CoreFunction) : CallGraph :=
  let graph := foldl (fun graph f => add_function graph (func_name f)) ∅ functions in
  foldl (fun graph f =>
      foldl (fun graph callee => add_call graph (func_name f) callee) graph
        (hash_order (extract_callees_from_block (func_body f))))
    graph functions.

(** ** The worklist *)

(** The methods of every name, in the order of the program. *)
Definition group_by_name (functions : list CoreFunction) : gmap string (list CoreFunction) :=
  foldl (fun m f => <[func_name f := default [] (m !! func_name f) ++ [f]]> m) ∅ functions.

(** Every name with no promise, and the names in the order of their first method. *)
Definition seed (functions : list CoreFunction) : gmap string Effects * list string :=
  foldl (fun '(m, work) f =>
      (<[func_name f := arbitrary]> m,
       match m !! func_name f with Some _ => work | None => work ++ [func_name f] end))
    (∅, []) functions.

Definition add_callers (caller : string) (callers : gmap string (gset string)) (callees : gset string)
    : gmap string (gset string) :=
  foldl (fun m callee => <[callee := {[caller]} ∪ default ∅ (m !! callee)]> m) callers
    (hash_order callees).

(** Who calls whom, backwards. *)
Definition reverse_graph (graph : CallGraph) : gmap string (gset string) :=
  map_fold (fun caller node callers => add_callers caller callers (node_callees node)) ∅ graph.

(** [if in_worklist.insert(caller) { worklist.push_back(caller) }] *)
Definition enqueue (state : list string * gset string) (caller : string) : list string * gset string :=
  let '(work, queued) := state in
  if bool_decide (caller ∈ queued) then (work, queued) else (work ++ [caller], {[caller]} ∪ queued).

(** The loop: the table, and whether the worklist was drained.  [budget] is what is left
    of [max_iterations] (the source counts up). *)
Fixpoint drain (by_name : gmap string (list CoreFunction)) (callers : gmap string (gset string))
    (budget : nat) (m : gmap string Effects) (work : list string) (queued : gset string)
    : gmap string Effects * bool :=
  match work with
  | [] => (m, true)
  | func_id :: work =>
      let queued := queued ∖ {[func_id]} in
      match budget with
      | 0 => (m, false)
      | S budget =>
          match by_name !! func_id with
          | None => drain by_name callers budget m work queued
          | Some funcs =>
              let new_effects := compute_method_set_effects m funcs in
              let old_effects := default arbitrary (m !! func_id) in
              if decide (new_effects = old_effects) then drain by_name callers budget m work queued
              else
                let '(work, queued) :=
                  match callers !! func_id with
                  | Some caller_set => foldl enqueue (work, queued) (hash_order caller_set)
                  | None => (work, queued)
                  end in
                drain by_name callers budget (<[func_id := new_effects]> m) work queued
          end
      end
  end.

Definition max_iterations (functions : list CoreFunction) : nat := Nat.max (length functions * 64) 100.

Definition propagate (graph : CallGraph) (functions : list CoreFunction)
    : gmap string Effects * bool :=
  let '(m, work) := seed functions in
  drain (group_by_name functions) (reverse_graph graph) (max_iterations functions) m work
    (list_to_set work).

(** [propagate_effects] returns the table in either case (a debug build stops when the
    worklist was not drained). *)
Definition propagate_effects (graph : CallGraph) (functions : list CoreFunction)
    : gmap string Effects := (propagate graph functions).1.

(** [infer_program_effects]: the functions after those of the base library. *)
Definition infer_program_effects (functions : list CoreFunction) (base_function_count : nat)
    : gmap string Effects :=
  let non_base := drop (base_function_count `min` length functions) functions in
  propagate_effects (from_program_slice non_base) non_base.

(** ** One turn *)

Section Turns.
Variable by_name : gmap string (list CoreFunction).
Variable callers : gmap string (gset string).

Abbreviation summary m funcs := (compute_method_set_effects m funcs).

(** The state after a turn for [func_id], with the rest of the worklist. *)
Inductive turn (m : gmap string Effects) (func_id : string) (work : list string) (queued : gset string)
    : gmap string Effects -> list string -> gset string -> Prop :=
  | turn_unknown : by_name !! func_id = None -> turn m func_id work queued m work (queued ∖ {[func_id]})
  | turn_same funcs :
      by_name !! func_id = Some funcs -> summary m funcs = default arbitrary (m !! func_id) ->
      turn m func_id work queued m work (queued ∖ {[func_id]})
  | turn_new funcs work' queued' :
      by_name !! func_id = Some funcs -> summary m funcs <> default arbitrary (m !! func_id) ->
      foldl enqueue (work, queued ∖ {[func_id]}) (hash_order (default ∅ (callers !! func_id))) =
        (work', queued') ->
      turn m func_id work queued (<[func_id := summary m funcs]> m) work' queued'.

Lemma hash_order_empty : hash_order ∅ = [].
Proof. apply Permutation_nil_r. by rewrite hash_order_perm, elements_empty. Qed.

Lemma drain_turn budget m func_id work queued :
  exists m' work' queued', turn m func_id work queued m' work' queued' /\
    drain by_name callers (S budget) m (func_id :: work) queued =
      drain by_name callers budget m' work' queued'.
Proof.
  cbn [drain]. destruct (by_name !! func_id) as [funcs|] eqn:Hf.
  2: { do 3 eexists. split; [by apply turn_unknown|done]. }
  case_decide as Hd.
  { do 3 eexists. split; [by eapply turn_same|done]. }
  destruct (foldl enqueue (work, queued ∖ {[func_id]}) (hash_order (default ∅ (callers !! func_id))))
    as [work' queued'] eqn:Hq.
  do 3 eexists. split; [by eapply turn_new|].
  destruct (callers !! func_id) as [s|]; simpl in Hq; [by rewrite Hq|].
  rewrite hash_order_empty in Hq. by injection Hq as <- <-.
Qed.

(** What every turn keeps holds at the end, where the worklist is empty if it was
    drained. *)
Lemma drain_invariant (P : gmap string Effects -> list string -> gset string -> Prop) :
  (forall m func_id work queued m' work' queued',
    P m (func_id :: work) queued -> turn m func_id work queued m' work' queued' -> P m' work' queued') ->
  forall budget m work queued, P m work queued ->
    exists work' queued', P (drain by_name callers budget m work queued).1 work' queued' /\
      ((drain by_name callers budget m work queued).2 = true -> work' = []).
Proof.
  intros Hturn budget. induction budget as [|budget IH]; intros m [|func_id work] queued HP;
    try (by eexists _, _).
  destruct (drain_turn budget m func_id work queued) as (m' & work' & queued' & Ht & ->).
  by eapply IH, Hturn.
Qed.

Lemma enqueue_all xs work queued work' queued' :
  foldl enqueue (work, queued) xs = (work', queued') ->
  (forall y, y ∈ queued' <-> y ∈ queued \/ y ∈ xs) /\
  (forall y, y ∈ work' <-> y ∈ work \/ y ∈ xs /\ y ∉ queued) /\
  length work' <= length work + length xs.
Proof.
  revert work queued. induction xs as [|x xs IH]; intros work queued Hq; cbn [foldl] in Hq.
  { injection Hq as <- <-. split_and!; [set_solver..|simpl; lia]. }
  unfold enqueue in Hq at 2. case_bool_decide as Hx; apply IH in Hq as (Hq & Hw & Hl).
  - split_and!; [set_solver| |simpl; lia]. intros y. rewrite Hw. set_solver.
  - rewrite length_app in Hl. split_and!; [set_solver| |simpl in *; lia].
    intros y. rewrite Hw. destruct (decide (y = x)) as [->|]; set_solver.
Qed.

Lemma enqueue_queue xs work queued work' queued' :
  foldl enqueue (work, queued) xs = (work', queued') ->
  NoDup work -> (forall y, y ∈ queued <-> y ∈ work) -> NoDup work' /\ (forall y, y ∈ queued' <-> y ∈ work').
Proof.
  revert work queued. induction xs as [|x xs IH]; intros work queued Hq Hn Hs; cbn [foldl] in Hq.
  { by injection Hq as <- <-. }
  unfold enqueue in Hq at 2. case_bool_decide as Hx; [by eapply IH|].
  eapply IH; [exact Hq| |set_solver]. apply NoDup_app. split_and!; [done|set_solver|apply NoDup_singleton].
Qed.

(** *** The table is justified by the bodies *)

Definition supported (m : gmap string Effects) : Prop :=
  forall id funcs, by_name !! id = Some funcs -> exists e, m !! id = Some e /\ summary m funcs ⊑ e.

Lemma update_le m id funcs e :
  m !! id = Some e -> summary m funcs ⊑ e -> summaries_le (<[id := summary m funcs]> m) m.
Proof.
  intros Hm He x. destruct (decide (x = id)) as [->|Hx].
  - rewrite lookup_insert_eq, Hm. by constructor.
  - rewrite lookup_insert_ne by done. destruct (m !! x); by constructor.
Qed.

Lemma turn_supported m id work queued m' work' queued' :
  supported m -> turn m id work queued m' work' queued' -> supported m'.
Proof.
  intros Hs Ht. destruct Ht as [|funcs|funcs work' queued' Hf Hne _]; [done|done|].
  intros x fs Hx. destruct (Hs id funcs Hf) as (e & He & Hle).
  pose proof (method_set_mono _ _ fs (update_le _ _ _ _ He Hle)) as Hmono.
  destruct (decide (x = id)) as [->|Hxi].
  - rewrite lookup_insert_eq. eexists. split; [done|]. by replace fs with funcs in * by congruence.
  - rewrite lookup_insert_ne by done. destruct (Hs x fs Hx) as (e' & He' & Hle').
    eexists. split; [exact He'|]. by etrans.
Qed.

(** *** Every name whose callees are known is up to date or in the worklist *)

Definition covered (id : string) (funcs : list CoreFunction) : Prop :=
  Forall (fun f => block_has_return_expr (func_body f) = false /\
    forall x, x ∈ extract_callees_from_block (func_body f) -> id ∈ default ∅ (callers !! x)) funcs.

Definition pending (m : gmap string Effects) (work : list string) (queued : gset string) : Prop :=
  supported m /\ NoDup work /\ (forall y, y ∈ queued <-> y ∈ work) /\
  forall id funcs, by_name !! id = Some funcs -> covered id funcs ->
    id ∈ work \/ m !! id = Some (summary m funcs).

(** Setting [id] does not touch the summary of a name that does not call it. *)
Lemma summary_other m id e x funcs :
  covered x funcs -> x ∉ default ∅ (callers !! id) -> summary (<[id := e]> m) funcs = summary m funcs.
Proof.
  intros Hc Hx. apply method_set_local. eapply Forall_impl; [exact Hc|].
  intros f [Hr Hf]. split; [done|]. intros y Hy. apply lookup_insert_ne. intros ->. by apply Hx, Hf.
Qed.

Lemma turn_pending m id work queued m' work' queued' :
  pending m (id :: work) queued -> turn m id work queued m' work' queued' -> pending m' work' queued'.
Proof.
  intros (Hs & Hn & Hq & Hp) Ht. pose proof (turn_supported _ _ _ _ _ _ _ Hs Ht) as Hs'.
  apply NoDup_cons in Hn as [Hid Hn].
  assert (forall y, y ∈ queued ∖ {[id]} <-> y ∈ work) as Hq'.
  { intros y. rewrite elem_of_difference, Hq, elem_of_cons, elem_of_singleton.
    destruct (decide (y = id)) as [->|]; naive_solver. }
  destruct Ht as [Hno|funcs Hf Heq|funcs work' queued' Hf Hne Hqueue].
  - split_and!; [done..|]. intros x fs Hx Hc. destruct (Hp x fs Hx Hc) as [Hw|Hw]; [|by right].
    apply elem_of_cons in Hw as [->|Hw]; [congruence|by left].
  - split_and!; [done..|]. intros x fs Hx Hc. destruct (Hp x fs Hx Hc) as [Hw|Hw]; [|by right].
    apply elem_of_cons in Hw as [->|Hw]; [|by left]. right.
    destruct (Hs id funcs Hf) as (e & He & _). rewrite He in Heq. simpl in Heq. congruence.
  - destruct (enqueue_queue _ _ _ _ _ Hqueue Hn Hq') as [Hn' Hq''].
    destruct (enqueue_all _ _ _ _ _ Hqueue) as (Hqs & Hws & _).
    split_and!; [done..|]. intros x fs Hx Hc.
    destruct (decide (x ∈ work')) as [|Hxw]; [by left|right].
    rewrite (summary_other m id _ x fs Hc).
    2: { intros Hin. apply Hxw, Hq'', Hqs. right. by rewrite hash_order_perm, elem_of_elements. }
    destruct (decide (x = id)) as [->|Hxi].
    + rewrite lookup_insert_eq. by replace fs with funcs by congruence.
    + rewrite lookup_insert_ne by done. destruct (Hp x fs Hx Hc) as [Hw|Hw]; [|done].
      apply elem_of_cons in Hw as [->|Hw]; [done|]. exfalso. apply Hxw, Hws. by left.
Qed.

(** *** Nothing below a fixpoint is reached *)

Definition fixpoint_of (m : gmap string Effects) : Prop :=
  forall id funcs, by_name !! id = Some funcs -> m !! id = Some (summary m funcs).

Lemma turn_above m0 m id work queued m' work' queued' :
  fixpoint_of m0 -> summaries_le m0 m -> turn m id work queued m' work' queued' -> summaries_le m0 m'.
Proof.
  intros H0 Hle Ht. destruct Ht as [|funcs|funcs work' queued' Hf Hne _]; [done|done|].
  intros x. destruct (decide (x = id)) as [->|Hx].
  - rewrite lookup_insert_eq, (H0 id funcs Hf). constructor. by apply method_set_mono.
  - rewrite lookup_insert_ne by done. apply Hle.
Qed.

(** *** The worklist drains *)

(** How many times a summary can still improve. *)
Definition rank (e : Effects) : nat := sum_list (grades e).

Lemma sum_le l1 l2 : Forall2 le l1 l2 -> sum_list l1 <= sum_list l2.
Proof. induction 1; simpl; lia. Qed.

Lemma sum_eq l1 l2 : Forall2 le l1 l2 -> sum_list l1 = sum_list l2 -> l1 = l2.
Proof.
  induction 1 as [|a b l1 l2 Hab Hl IH]; simpl; intros He; [done|].
  pose proof (sum_le _ _ Hl). rewrite IH by lia. f_equal. lia.
Qed.

Lemma rank_improves a b : a ⊑ b -> a <> b -> rank a < rank b.
Proof.
  intros Hab Hne. pose proof (sum_le _ _ Hab). assert (rank a <> rank b); [|unfold rank in *; lia].
  intros He. apply Hne. apply (anti_symm (⊑)); [done|].
  unfold sqsubseteq, effects_le. by rewrite (sum_eq _ _ Hab He).
Qed.

Variable keys : list string.
Hypothesis keys_distinct : NoDup keys.
Hypothesis keys_all : forall id, is_Some (by_name !! id) -> id ∈ keys.

Definition weight (m : gmap string Effects) (id : string) : nat :=
  rank (default arbitrary (m !! id)) * size (default ∅ (callers !! id)).

Definition potential (m : gmap string Effects) (work : list string) : nat :=
  length work + sum_list (map (weight m) keys).

Lemma turn_potential m id work queued m' work' queued' :
  supported m -> turn m id work queued m' work' queued' -> potential m' work' < potential m (id :: work).
Proof.
  intros Hs Ht. unfold potential.
  destruct Ht as [Hno|funcs Hf Heq|funcs work' queued' Hf Hne Hqueue]; [simpl; lia|simpl; lia|].
  destruct (Hs id funcs Hf) as (e & He & Hle). rewrite He in Hne. simpl in Hne.
  destruct (enqueue_all _ _ _ _ _ Hqueue) as (_ & _ & Hl).
  rewrite hash_order_perm in Hl. change (length (elements ?s)) with (size s) in Hl.
  assert (sum_list (map (weight (<[id := summary m funcs]> m)) keys) + size (default ∅ (callers !! id)) <=
    sum_list (map (weight m) keys)); [|simpl; lia].
  assert (forall x, x <> id -> weight (<[id := summary m funcs]> m) x = weight m x) as Hother
    by (intros x Hx; unfold weight; by rewrite lookup_insert_ne).
  pose proof (sum_change _ _ id keys keys_distinct (keys_all id ltac:(by eexists)) Hother) as Hsum.
  pose proof (rank_improves _ _ Hle Hne) as Hrank.
  assert (weight (<[id := summary m funcs]> m) id + size (default ∅ (callers !! id)) <= weight m id); [|lia].
  unfold weight. rewrite lookup_insert_eq, He. simpl. nia.
Qed.

Lemma drain_total budget m work queued :
  supported m -> potential m work <= budget -> (drain by_name callers budget m work queued).2 = true.
Proof.
  revert m work queued. induction budget as [|budget IH]; intros m [|id work] queued Hs Hb;
    try done; [unfold potential in Hb; simpl in Hb; lia|].
  destruct (drain_turn budget m id work queued) as (m' & work' & queued' & Ht & ->).
  pose proof (turn_potential _ _ _ _ _ _ _ Hs Ht). apply IH; [|lia]. by eapply turn_supported.
Qed.
End Turns.

(** ** Where the loop starts *)

Definition methods_of (functions : list CoreFunction) (id : string) : list CoreFunction :=
  filter (fun f => func_name f = id) functions.

Lemma group_spec functions id :
  group_by_name functions !! id =
    match methods_of functions id with [] => None | funcs => Some funcs end.
Proof.
  unfold methods_of. induction functions as [|f functions IH] using rev_ind; [done|].
  unfold group_by_name in *. rewrite foldl_app, filter_app. cbn [foldl].
  destruct (decide (func_name f = id)) as [<-|Hne].
  - rewrite lookup_insert_eq, IH, filter_cons_True, filter_nil by done. by case_match.
  - rewrite lookup_insert_ne, IH, filter_cons_False, filter_nil, app_nil_r by done. done.
Qed.

Lemma group_Some functions id funcs :
  group_by_name functions !! id = Some funcs <-> funcs = methods_of functions id /\ id ∈ map func_name functions.
Proof.
  rewrite group_spec. assert (methods_of functions id <> [] <-> id ∈ map func_name functions) as Hm.
  { rewrite list_elem_of_fmap. unfold methods_of. split.
    - intros Hne. destruct (filter _ functions) as [|f l] eqn:Hf; [done|].
      assert (f ∈ filter (fun f => func_name f = id) functions) as Hin by (rewrite Hf; by left).
      apply list_elem_of_filter in Hin as [Hid Hin]. by exists f.
    - intros (f & -> & Hf) He. assert (f ∈ filter (fun g => func_name g = func_name f) functions) as Hin
        by by apply list_elem_of_filter.
      rewrite He in Hin. by apply not_elem_of_nil in Hin. }
  destruct (methods_of functions id); naive_solver.
Qed.

Lemma seed_spec functions :
  let '(m, work) := seed functions in
  NoDup work /\ (forall x, x ∈ work <-> x ∈ map func_name functions) /\
  length work <= length functions /\
  forall x, m !! x = if decide (x ∈ map func_name functions) then Some arbitrary else None.
Proof.
  induction functions as [|f functions IH] using rev_ind.
  { cbn [seed foldl map]. split_and!; [constructor|done|done|]. intros x.
    rewrite decide_False; [done|apply not_elem_of_nil]. }
  unfold seed in *. rewrite foldl_app. cbn [foldl].
  destruct (foldl _ (∅, []) functions) as [m work]. destruct IH as (Hn & Hw & Hl & Hm).
  rewrite length_app. simpl.
  assert (forall x, x ∈ map func_name (functions ++ [f]) <-> x ∈ map func_name functions \/ x = func_name f) as Hin
    by (intros x; rewrite map_app, elem_of_app; simpl; set_solver).
  destruct (m !! func_name f) as [e|] eqn:Hf; rewrite Hm in Hf; case_decide as Hd; try done.
  - split_and!; [done|intros x; rewrite Hin, Hw; naive_solver|lia|].
    intros x. destruct (decide (x = func_name f)) as [->|Hx].
    + rewrite lookup_insert_eq, decide_True by (apply Hin; by left). done.
    + rewrite lookup_insert_ne, Hm by done. apply decide_ext. rewrite Hin. naive_solver.
  - split_and!.
    + apply NoDup_app. split_and!; [done| |apply NoDup_singleton].
      intros x Hx ->%list_elem_of_singleton. by apply Hd, Hw.
    + intros x. rewrite Hin, elem_of_app, Hw. set_solver.
    + rewrite length_app. simpl. lia.
    + intros x. destruct (decide (x = func_name f)) as [->|Hx].
      * rewrite lookup_insert_eq, decide_True by (apply Hin; by right). done.
      * rewrite lookup_insert_ne, Hm by done. apply decide_ext. rewrite Hin. naive_solver.
Qed.

Lemma seed_supported functions m work : seed functions = (m, work) -> supported (group_by_name functions) m.
Proof.
  intros Hs id funcs [_ Hid]%group_Some. pose proof (seed_spec functions) as H0. rewrite Hs in H0.
  destruct H0 as (_ & _ & _ & Hm). exists arbitrary. rewrite Hm, decide_True by done.
  split; [done|apply effects_le_arbitrary].
Qed.

(** ** The call graph *)

Definition callees_of (graph : CallGraph) (x : string) : gset string := default ∅ (get_callees graph x).

Definition call_edges (graph : CallGraph) : nat :=
  sum_list_with (fun kn => size (node_callees kn.2)) (map_to_list graph).

Lemma edge_count_new graph x node :
  graph !! x = None -> call_edges (<[x := node]> graph) = size (node_callees node) + call_edges graph.
Proof. intros Hx. unfold call_edges. by rewrite map_to_list_insert. Qed.

Lemma edge_count_replace graph x node node' :
  graph !! x = Some node ->
  call_edges (<[x := node']> graph) + size (node_callees node) = call_edges graph + size (node_callees node').
Proof.
  intros Hx. rewrite <- (insert_delete_id graph x node Hx) at 2. rewrite <- insert_delete_eq.
  rewrite !edge_count_new by apply lookup_delete_eq. lia.
Qed.

Lemma add_function_spec graph f :
  is_Some (add_function graph f !! f) /\ call_edges (add_function graph f) = call_edges graph /\
  (forall x, is_Some (graph !! x) -> is_Some (add_function graph f !! x)) /\
  forall x, callees_of (add_function graph f) x = callees_of graph x.
Proof.
  unfold add_function. destruct (graph !! f) as [node|] eqn:Hf; [by rewrite Hf|].
  rewrite lookup_insert_eq, edge_count_new by done. split_and!; [done|done| |].
  - intros x Hx. destruct (decide (x = f)) as [->|Hne]; [by rewrite lookup_insert_eq|by rewrite lookup_insert_ne].
  - intros x. unfold callees_of, get_callees.
    destruct (decide (x = f)) as [->|Hne]; [by rewrite lookup_insert_eq, Hf|by rewrite lookup_insert_ne].
Qed.

Lemma size_union_one (x : string) (s : gset string) : size ({[x]} ∪ s) <= S (size s).
Proof.
  destruct (decide (x ∈ s)) as [Hx|Hx].
  - by replace ({[x]} ∪ s) with s by set_solver; lia.
  - rewrite size_union, size_singleton by set_solver. lia.
Qed.

Lemma add_call_spec graph caller callee :
  call_edges (add_call graph caller callee) <= S (call_edges graph) /\
  forall x, callees_of (add_call graph caller callee) x =
    if decide (x = caller) then {[callee]} ∪ callees_of graph x else callees_of graph x.
Proof.
  unfold add_call. destruct (add_function_spec graph caller) as (Hsome & He & _ & Hc).
  destruct (add_function_spec (add_function graph caller) callee) as (_ & He' & Hmono & Hc').
  apply Hmono in Hsome as [node Hn]. set (g := add_function _ callee) in *. split.
  - rewrite <- He, <- He'.
    assert (alter (fun node => {| node_func_id := node_func_id node;
      node_callees := {[callee]} ∪ node_callees node |}) caller g = <[caller :=
        {| node_func_id := node_func_id node; node_callees := {[callee]} ∪ node_callees node |}]> g) as ->.
    { apply map_eq. intros x. destruct (decide (x = caller)) as [->|Hne].
      - by rewrite lookup_alter_eq, lookup_insert_eq, Hn.
      - by rewrite lookup_alter_ne, lookup_insert_ne. }
    pose proof (edge_count_replace g caller node
      {| node_func_id := node_func_id node; node_callees := {[callee]} ∪ node_callees node |} Hn) as Hr.
    simpl in Hr. pose proof (size_union_one callee (node_callees node)). lia.
  - intros x. rewrite <- Hc, <- Hc'. unfold callees_of, get_callees. case_decide as Hx.
    + subst x. by rewrite lookup_alter_eq, Hn.
    + by rewrite lookup_alter_ne.
Qed.

Lemma add_calls_spec graph caller l :
  let graph' := foldl (fun graph callee => add_call graph caller callee) graph l in
  call_edges graph' <= call_edges graph + length l /\
  forall x, callees_of graph' x =
    if decide (x = caller) then list_to_set l ∪ callees_of graph x else callees_of graph x.
Proof.
  revert graph. induction l as [|y l IH]; intros graph; simpl.
  { split; [lia|]. intros x. case_decide; set_solver. }
  destruct (IH (add_call graph caller y)) as [He Hc]. destruct (add_call_spec graph caller y) as [He' Hc'].
  split; [lia|]. intros x. rewrite Hc, Hc'. case_decide; set_solver.
Qed.

(** How many different names the bodies call. *)
Definition total_calls (functions : list CoreFunction) : nat :=
  sum_list_with (fun f => size (extract_callees_from_block (func_body f))) functions.

Lemma from_program_slice_spec functions :
  call_edges (from_program_slice functions) <= total_calls functions /\
  forall f, f ∈ functions ->
    extract_callees_from_block (func_body f) ⊆ callees_of (from_program_slice functions) (func_name f).
Proof.
  unfold from_program_slice.
  set (graph0 := foldl (fun graph f => add_function graph (func_name f)) ∅ functions).
  assert (call_edges graph0 = 0) as H0.
  { unfold graph0. assert (call_edges ∅ = 0) as He by (unfold call_edges; by rewrite map_to_list_empty).
    revert He. generalize (∅ : CallGraph). induction functions as [|f l IH]; intros g Hg; simpl; [done|].
    apply IH. by destruct (add_function_spec g (func_name f)) as (_ & -> & _). }
  assert (forall l graph,
    let graph' := foldl (fun graph f => foldl (fun graph callee => add_call graph (func_name f) callee) graph
      (hash_order (extract_callees_from_block (func_body f)))) graph l in
    call_edges graph' <= call_edges graph + total_calls l /\
    (forall x, callees_of graph x ⊆ callees_of graph' x) /\
    forall f, f ∈ l -> extract_callees_from_block (func_body f) ⊆ callees_of graph' (func_name f)) as Hall.
  { induction l as [|f l IH]; intros graph; simpl.
    { split_and!; [unfold total_calls; simpl; lia|done|]. intros f Hf. by apply not_elem_of_nil in Hf. }
    set (cs := extract_callees_from_block (func_body f)).
    destruct (add_calls_spec graph (func_name f) (hash_order cs)) as [He Hc].
    destruct (IH (foldl (fun graph callee => add_call graph (func_name f) callee) graph (hash_order cs)))
      as (He' & Hm & Hf).
    rewrite (hash_order_perm cs) in He at 2. change (length (elements cs)) with (size cs) in He.
    split_and!.
    - unfold total_calls in *. cbn [sum_list_with]. fold cs. simpl in *. lia.
    - intros x. rewrite <- Hm, Hc. case_decide; set_solver.
    - intros g [->|Hg]%elem_of_cons; [|by apply Hf].
      rewrite <- Hm, Hc, decide_True by done. fold cs. intros y Hy. apply elem_of_union_l, elem_of_list_to_set.
      by rewrite hash_order_perm, elem_of_elements. }
  destruct (Hall functions graph0) as (He & _ & Hf). split; [simpl in *; lia|exact Hf].
Qed.

Definition callers_of (callers : gmap string (gset string)) (x : string) : gset string :=
  default ∅ (callers !! x).

Lemma sum_grow (f g : string -> nat) id l :
  NoDup l -> (forall x, x <> id -> g x = f x) -> g id <= S (f id) ->
  sum_list (map g l) <= S (sum_list (map f l)).
Proof.
  intros Hn Hother Hd. destruct (decide (id ∈ l)) as [Hid|Hid].
  - pose proof (sum_change f g id l Hn Hid Hother). lia.
  - assert (map g l = map f l) as ->; [|lia].
    apply map_ext_in. intros y Hy. apply Hother. intros ->. by apply Hid, list_elem_of_In.
Qed.

Lemma add_callers_spec caller callers callees keys :
  NoDup keys ->
  sum_list (map (fun x => size (callers_of (add_callers caller callers callees) x)) keys) <=
    sum_list (map (fun x => size (callers_of callers x)) keys) + size callees /\
  forall x y, y ∈ callers_of (add_callers caller callers callees) x <->
    y ∈ callers_of callers x \/ (y = caller /\ x ∈ callees).
Proof.
  intros Hn. unfold add_callers.
  assert (size callees = length (hash_order callees)) as -> by (by rewrite hash_order_perm).
  assert (forall x, x ∈ callees <-> x ∈ hash_order callees) as Hin
    by (intros x; by rewrite hash_order_perm, elem_of_elements).
  setoid_rewrite Hin. clear Hin. generalize (hash_order callees) as l. intros l. revert callers.
  induction l as [|c l IH]; intros callers; simpl.
  { split; [lia|]. intros x y. set_solver. }
  destruct (IH (<[c := {[caller]} ∪ default ∅ (callers !! c)]> callers)) as [Hs Hc]. split.
  - etrans; [exact Hs|]. rewrite Nat.add_succ_r, <- Nat.add_succ_l. apply Nat.add_le_mono_r.
    apply sum_grow with (id := c); [done| |].
    + intros x Hx. unfold callers_of. by rewrite lookup_insert_ne.
    + unfold callers_of. rewrite lookup_insert_eq. apply size_union_one.
  - intros x y. rewrite Hc. unfold callers_of. destruct (decide (x = c)) as [->|Hne].
    + rewrite lookup_insert_eq. simpl. set_solver.
    + rewrite lookup_insert_ne by done. set_solver.
Qed.

Lemma reverse_graph_spec graph :
  (forall keys, NoDup keys ->
    sum_list (map (fun x => size (callers_of (reverse_graph graph) x)) keys) <= call_edges graph) /\
  forall x y, y ∈ callers_of (reverse_graph graph) x <-> x ∈ callees_of graph y.
Proof.
  unfold reverse_graph. apply (map_fold_weak_ind (fun r (g : CallGraph) =>
    (forall keys, NoDup keys -> sum_list (map (fun x => size (callers_of r x)) keys) <= call_edges g) /\
    forall x y, y ∈ callers_of r x <-> x ∈ callees_of g y)).
  - split; [|done]. intros keys _. induction keys as [|k keys IH]; simpl; [lia|exact IH].
  - intros caller node g r Hg [Hs Hc]. split.
    + intros keys Hn. destruct (add_callers_spec caller r (node_callees node) keys Hn) as [Ha _].
      specialize (Hs keys Hn). rewrite edge_count_new by done. lia.
    + intros x y. destruct (add_callers_spec caller r (node_callees node) [] ltac:(constructor)) as [_ Ha].
      rewrite Ha, Hc. unfold callees_of, get_callees. destruct (decide (y = caller)) as [->|Hne].
      * rewrite lookup_insert_eq, Hg. simpl. set_solver.
      * rewrite lookup_insert_ne by done. naive_solver.
Qed.
End Propagation.

(** ** The result *)

Section Result.
Context {C : CoreTypes} {B : BuiltinOps}.

Section Order.
Context {H : HashOrder}.

(** What every turn keeps holds of the table that is returned. *)
Lemma propagate_invariant (P : gmap string Effects -> list string -> gset string -> Prop) graph functions :
  (forall m work, seed functions = (m, work) -> P m work (list_to_set work)) ->
  (forall m id work queued m' work' queued', P m (id :: work) queued ->
    turn (group_by_name functions) (reverse_graph graph) m id work queued m' work' queued' ->
    P m' work' queued') ->
  exists work queued, P (propagate_effects graph functions) work queued /\
    ((propagate graph functions).2 = true -> work = []).
Proof.
  intros H0 Ht. unfold propagate_effects, propagate.
  destruct (seed functions) as [m work]. apply (drain_invariant _ _ P Ht). by apply H0.
Qed.

Lemma propagate_supported graph functions :
  supported (group_by_name functions) (propagate_effects graph functions).
Proof.
  destruct (propagate_invariant (fun m _ _ => supported (group_by_name functions) m) graph functions)
    as (work & queued & Hs & _); [|by intros; eapply turn_supported|done].
  intros m work. apply seed_supported.
Qed.

Lemma propagate_above graph functions m0 :
  fixpoint_of (group_by_name functions) m0 ->
  (forall x, is_Some (m0 !! x) -> x ∈ map func_name functions) ->
  summaries_le m0 (propagate_effects graph functions).
Proof.
  intros H0 Hdom.
  destruct (propagate_invariant (fun m _ _ => summaries_le m0 m) graph functions)
    as (work & queued & Hs & _); [|by intros; eapply turn_above|done].
  intros m work Hm x. pose proof (seed_spec functions) as Hseed. rewrite Hm in Hseed.
  destruct Hseed as (_ & _ & _ & ->). case_decide as Hx.
  - rewrite (H0 x (methods_of functions x)) by by apply group_Some. constructor. apply effects_le_arbitrary.
  - destruct (m0 !! x) as [e|] eqn:He; [|constructor]. exfalso. apply Hx, Hdom. by eexists.
Qed.

(** The table has the names of the functions. *)
Lemma propagate_names graph functions x :
  is_Some (propagate_effects graph functions !! x) -> x ∈ map func_name functions.
Proof.
  destruct (propagate_invariant (fun m _ _ => forall x, is_Some (m !! x) -> x ∈ map func_name functions)
    graph functions) as (work & queued & Hs & _); [| |apply Hs].
  - intros m work Hm y. pose proof (seed_spec functions) as Hseed. rewrite Hm in Hseed.
    destruct Hseed as (_ & _ & _ & ->). case_decide; [done|]. by intros [? ?].
  - intros m id work queued m' work' queued' Hn Ht.
    destruct Ht as [|funcs|funcs work' queued' Hf _ _]; [done|done|]. intros y.
    destruct (decide (y = id)) as [->|Hy]; [|rewrite lookup_insert_ne by done; apply Hn].
    intros _. by apply group_Some in Hf as [_ Hf].
Qed.

(** C16. The summary of a name is justified by its methods for whatever call graph and
    wherever the worklist is given up: given the returned table, the bodies of the
    methods promise at least what the table says, and where the table lets a call be
    removed or folded, every method of that name may be.  A name that is not in the
    table has no method here. *)
Theorem summaries_justified graph functions id :
  let m := propagate_effects graph functions in
  (id ∈ map func_name functions <-> is_Some (m !! id)) /\
  forall e, m !! id = Some e ->
    compute_method_set_effects m (methods_of functions id) ⊑ e /\
    (is_removable e = true -> forall f, f ∈ functions -> func_name f = id ->
       is_removable (compute_function_effects m f) = true) /\
    (is_foldable e = true -> forall f, f ∈ functions -> func_name f = id ->
       is_foldable (compute_function_effects m f) = true).
Proof.
  intros m. split.
  { split; [|apply propagate_names]. intros Hid.
    destruct (propagate_supported graph functions id (methods_of functions id)) as (e & He & _);
      [by apply group_Some|by eexists]. }
  intros e He. assert (id ∈ map func_name functions) as Hid by (apply (propagate_names graph); by eexists).
  destruct (propagate_supported graph functions id (methods_of functions id)) as (e' & He' & Hle);
    [by apply group_Some|].
  fold m in He', Hle. assert (e' = e) as -> by congruence. split; [done|].
  destruct (effects_le_promises _ _ Hle) as [Hr Hf].
  destruct (method_set_promises m (methods_of functions id)) as [Hr' Hf'].
  assert (forall P, Forall P (methods_of functions id) -> forall f, f ∈ functions -> func_name f = id -> P f)
    as Hall by (intros P HP f Hin Hn; eapply Forall_forall; [exact HP|by apply list_elem_of_filter]).
  split; intros Hp; apply Hall; auto.
Qed.

(** With at most five callees per function on average the worklist drains before the
    limit. *)
Lemma propagate_drains functions :
  total_calls functions <= 5 * length functions ->
  (propagate (from_program_slice functions) functions).2 = true.
Proof.
  intros Hcalls. unfold propagate. pose proof (seed_spec functions) as Hseed.
  destruct (seed functions) as [m work] eqn:Hs. destruct Hseed as (Hn & Hw & Hl & Hm).
  apply (drain_total _ _ work Hn).
  - intros id [funcs [_ Hid]%group_Some]. by apply Hw.
  - by apply (seed_supported functions m work).
  - destruct (from_program_slice_spec functions) as [He _].
    destruct (reverse_graph_spec (from_program_slice functions)) as [Hsum _]. specialize (Hsum work Hn).
    assert (sum_list (map (weight (reverse_graph (from_program_slice functions)) m) work) <=
      12 * sum_list (map (fun x => size (callers_of (reverse_graph (from_program_slice functions)) x)) work))
      as Hweight.
    { clear -Hm. assert (forall x, weight (reverse_graph (from_program_slice functions)) m x <=
        12 * size (callers_of (reverse_graph (from_program_slice functions)) x)) as Hx.
      { intros x. unfold weight, callers_of.
        assert (rank (default arbitrary (m !! x)) = 12) as -> by (rewrite Hm; by case_decide). lia. }
      induction work as [|x work IH]; simpl; [lia|]. specialize (Hx x). lia. }
    unfold potential, max_iterations. lia.
Qed.

(** The callees of a body without [return] in an expression are edges of the graph. *)
Lemma covered_methods functions id :
  Forall (fun f => block_has_return_expr (func_body f) = false) functions ->
  covered (reverse_graph (from_program_slice functions)) id (methods_of functions id).
Proof.
  intros Hret. apply Forall_forall. intros f [Hid Hf]%list_elem_of_filter.
  split; [by eapply Forall_forall in Hret|]. intros x Hx.
  apply (proj2 (reverse_graph_spec (from_program_slice functions))). subst id.
  by apply (proj2 (from_program_slice_spec functions)).
Qed.

Lemma drained_fixpoint functions :
  (propagate (from_program_slice functions) functions).2 = true ->
  Forall (fun f => block_has_return_expr (func_body f) = false) functions ->
  fixpoint_of (group_by_name functions) (propagate_effects (from_program_slice functions) functions).
Proof.
  intros Hd Hret.
  destruct (propagate_invariant
    (pending (group_by_name functions) (reverse_graph (from_program_slice functions)))
    (from_program_slice functions) functions) as (work & queued & (_ & _ & _ & Hp) & Hwork);
    [|by intros; eapply turn_pending|].
  - intros m work Hm. pose proof (seed_spec functions) as Hseed. rewrite Hm in Hseed.
    destruct Hseed as (Hn & Hw & _ & _). split_and!; [by eapply seed_supported|done|set_solver|].
    intros id funcs [_ Hid]%group_Some _. left. by apply Hw.
  - intros id funcs Hf. rewrite (Hwork Hd) in Hp. destruct (Hp id funcs Hf) as [Hin|]; [|by apply not_elem_of_nil in Hin|done].
    apply group_Some in Hf as [-> _]. by apply covered_methods.
Qed.

(** C17. The iteration ends by itself when the bodies call at most five different names on
    average: the worklist is drained before [max_iterations].  Where no expression
    contains a [return], what it leaves is the best table that the bodies justify: the
    summary of every name is exactly what its methods promise by the table, and no
    table of these functions with that property promises more. *)
Theorem propagation_converges functions (Hcalls : total_calls functions <= 5 * length functions)
    (Hreturns : Forall (fun f => block_has_return_expr (func_body f) = false) functions) :
  (propagate (from_program_slice functions) functions).2 = true /\
  let m := propagate_effects (from_program_slice functions) functions in
  (forall id, id ∈ map func_name functions ->
     m !! id = Some (compute_method_set_effects m (methods_of functions id))) /\
  forall m0,
    (forall x, is_Some (m0 !! x) -> x ∈ map func_name functions) ->
    (forall id, id ∈ map func_name functions ->
       m0 !! id = Some (compute_method_set_effects m0 (methods_of functions id))) ->
    summaries_le m0 m.
Proof.
  pose proof (propagate_drains functions Hcalls) as Hd. split; [done|]. intros m. split.
  - intros id Hid. apply (drained_fixpoint functions Hd Hreturns). by apply group_Some.
  - intros m0 Hdom H0. apply propagate_above; [|done].
    intros id funcs [-> Hid]%group_Some. by apply H0.
Qed.
End Order.

End Result.
