(* ===== verification/ConstProp.v ===== *)
(** * Constant evaluation

    [eval_const_binary] and [eval_const_unary] of
    subset_julia_vm_compile/src/compile/const_prop/eval.rs on the [ConstValue]s
    of subset_julia_vm_types/src/runtime_types/lattice.rs, and the conversions
    between literals and constants. *)

From S2P Require Export SsaModel.

Inductive ConstValue :=
  | ConstValue_Int64 (v : Z)
  | ConstValue_Float64 (v : f64)
  | ConstValue_Bool (b : bool)
  | ConstValue_String (s : string)
  | ConstValue_Symbol (s : string)
  | ConstValue_Nothing.

(** ** Operator names *)

Definition binary_op_to_function_name (op : BinaryOp) : string :=
  match op with
  | Add => "+" | Sub => "-" | Mul => "*" | Div => "/" | IntDiv => "÷" | Mod => "%" | Pow => "^"
  | Lt => "<" | Gt => ">" | Le => "<=" | Ge => ">=" | Eq => "==" | Ne => "!="
  | Egal => "===" | NotEgal => "!==" | Subtype => "<:" | And => "&&" | Or => "||"
  end.

Definition unary_op_to_function_name (op : UnaryOp) : string :=
  match op with Neg => "-" | Not => "!" | Pos => "+" end.

Definition function_name_to_binary_op (name : string) : option BinaryOp :=
  let named := String.eqb name in
  if named "+" then Some Add else if named "-" then Some Sub else if named "*" then Some Mul
  else if named "/" then Some Div else if named "%" then Some Mod else if named "^" then Some Pow
  else if named "<" then Some Lt else if named ">" then Some Gt
  else if named "<=" || named "≤" then Some Le else if named ">=" || named "≥" then Some Ge
  else if named "==" then Some Eq else if named "!=" || named "≠" then Some Ne
  else if named "===" then Some Egal else if named "!==" then Some NotEgal
  else if named "<:" then Some Subtype else if named "&&" then Some And
  else if named "||" then Some Or
  else None.

(** ** Checked integer arithmetic *)

(** [checked_add] and its like. *)
Definition checked (z : Z) : option ConstValue :=
  if bool_decide (in_s 64 z) then Some (ConstValue_Int64 z) else None.

(** [a % b] on [f64]: the exact remainder of the truncated division, with the
    sign of [a]. *)
Definition f64_rem (a b : f64) : f64 :=
  match a, b with
  | S754_nan, _ | _, S754_nan | S754_infinity _, _ | _, S754_zero _ => S754_nan
  | S754_zero _, _ | _, S754_infinity _ => a
  | S754_finite s m e, S754_finite _ n d =>
      let k := Z.min e d in
      let r := Z.rem (Zpos m * 2 ^ (e - k)) (Zpos n * 2 ^ (d - k)) in
      binary_normalize f64_prec f64_emax (cond_Zopp s r) k s
  end.

(** ** Evaluation *)

Definition eval_int_binary (op : string) (a b : Z) : option ConstValue :=
  let named := String.eqb op in
  if named "+" then checked (a + b)
  else if named "-" then checked (a - b)
  else if named "*" then checked (a * b)
  else if named "/" then
    if Z.eqb b 0 then None else Some (ConstValue_Float64 (f64_div (f64_of_Z a) (f64_of_Z b)))
  else if named "÷" then if Z.eqb b 0 then None else checked (Z.quot a b)
  else if named "%" then
    if Z.eqb b 0 then None else Some (ConstValue_Int64 (wrap_s 64 (Z.rem a b)))
  else if named "<" then Some (ConstValue_Bool (Z.ltb a b))
  else if named "<=" then Some (ConstValue_Bool (Z.leb a b))
  else if named ">" then Some (ConstValue_Bool (Z.ltb b a))
  else if named ">=" then Some (ConstValue_Bool (Z.leb b a))
  else if named "==" then Some (ConstValue_Bool (Z.eqb a b))
  else if named "!=" then Some (ConstValue_Bool (negb (Z.eqb a b)))
  else None.

(** The float arms that the mixed arms share after promotion. *)
Definition eval_float_arithmetic (op : string) (a b : f64) : option ConstValue :=
  let named := String.eqb op in
  if named "+" then Some (ConstValue_Float64 (f64_add a b))
  else if named "-" then Some (ConstValue_Float64 (f64_sub a b))
  else if named "*" then Some (ConstValue_Float64 (f64_mul a b))
  else if named "/" then Some (ConstValue_Float64 (f64_div a b))
  else None.

Definition eval_float_binary (op : string) (a b : f64) : option ConstValue :=
  let named := String.eqb op in
  if named "%" then Some (ConstValue_Float64 (f64_rem a b))
  else if named "<" then Some (ConstValue_Bool (f64_ltb a b))
  else if named "<=" then Some (ConstValue_Bool (f64_leb a b))
  else if named ">" then Some (ConstValue_Bool (f64_ltb b a))
  else if named ">=" then Some (ConstValue_Bool (f64_leb b a))
  else if named "==" then Some (ConstValue_Bool (f64_eqb a b))
  else if named "!=" then Some (ConstValue_Bool (negb (f64_eqb a b)))
  else eval_float_arithmetic op a b.

Definition eval_const_binary (op : string) (lhs rhs : ConstValue) : option ConstValue :=
  let named := String.eqb op in
  match lhs, rhs with
  | ConstValue_Int64 a, ConstValue_Int64 b => eval_int_binary op a b
  | ConstValue_Float64 a, ConstValue_Float64 b => eval_float_binary op a b
  | ConstValue_Int64 a, ConstValue_Float64 b => eval_float_arithmetic op (f64_of_Z a) b
  | ConstValue_Float64 a, ConstValue_Int64 b => eval_float_arithmetic op a (f64_of_Z b)
  | ConstValue_Bool a, ConstValue_Bool b =>
      if named "&&" then Some (ConstValue_Bool (a && b))
      else if named "||" then Some (ConstValue_Bool (a || b))
      else if named "==" then Some (ConstValue_Bool (Bool.eqb a b))
      else if named "!=" then Some (ConstValue_Bool (negb (Bool.eqb a b)))
      else None
  | ConstValue_String a, ConstValue_String b =>
      if named "*" then Some (ConstValue_String (a +:+ b))
      else if named "==" then Some (ConstValue_Bool (String.eqb a b))
      else if named "!=" then Some (ConstValue_Bool (negb (String.eqb a b)))
      else None
  | ConstValue_Nothing, ConstValue_Nothing =>
      if named "==" then Some (ConstValue_Bool true)
      else if named "!=" then Some (ConstValue_Bool false)
      else None
  | _, _ => None
  end.

Definition eval_const_unary (op : string) (operand : ConstValue) : option ConstValue :=
  let named := String.eqb op in
  match operand with
  | ConstValue_Int64 v =>
      if named "-" then checked (- v)
      else if named "+" then Some (ConstValue_Int64 v)
      else if named "abs" then checked (Z.abs v)
      else None
  | ConstValue_Float64 v =>
      if named "-" then Some (ConstValue_Float64 (f64_neg v))
      else if named "+" then Some (ConstValue_Float64 v)
      else if named "abs" then Some (ConstValue_Float64 (f64_abs v))
      else None
  | ConstValue_Bool v => if named "!" then Some (ConstValue_Bool (negb v)) else None
  | _ => None
  end.

(** ** Literals *)

Definition literal_to_const_value (lit : Literal) : option ConstValue :=
  match lit with
  | Literal_Int v => Some (ConstValue_Int64 v)
  | Literal_Float v => Some (ConstValue_Float64 v)
  | Literal_Bool v => Some (ConstValue_Bool v)
  | Literal_Str s => Some (ConstValue_String s)
  | Literal_Symbol s => Some (ConstValue_Symbol s)
  | Literal_Nothing => Some ConstValue_Nothing
  | _ => None
  end.

Definition const_value_to_literal (value : ConstValue) : Literal :=
  match value with
  | ConstValue_Int64 v => Literal_Int v
  | ConstValue_Float64 v => Literal_Float v
  | ConstValue_Bool v => Literal_Bool v
  | ConstValue_String s => Literal_Str s
  | ConstValue_Symbol s => Literal_Symbol s
  | ConstValue_Nothing => Literal_Nothing
  end.

(** ** Properties *)

(** C31. Every constant survives the way through its literal, and a literal that is a
    constant is the literal of that constant; every operator but [÷] survives the
    way through its name, and only the three Unicode comparisons are further
    names. *)
Theorem const_literal_roundtrip :
  (forall v, literal_to_const_value (const_value_to_literal v) = Some v) /\
  (forall lit v, literal_to_const_value lit = Some v -> const_value_to_literal v = lit) /\
  (forall op, op <> IntDiv ->
    function_name_to_binary_op (binary_op_to_function_name op) = Some op) /\
  function_name_to_binary_op (binary_op_to_function_name IntDiv) = None /\
  (forall name op, function_name_to_binary_op name = Some op ->
    name = binary_op_to_function_name op \/
    In (name, op) [("≤", Le); ("≥", Ge); ("≠", Ne)]).
Proof.
  split_and!; [by intros []|intros [] w; simpl; (discriminate || by intros [= <-])|by intros []|done|].
  intros name op. unfold function_name_to_binary_op.
  repeat match goal with
  | |- (if ?b then _ else _) = Some _ -> _ => destruct b eqn:E; [|clear E]
  end; try done; rewrite ?orb_true_iff, !String.eqb_eq in E; intros [= <-]; simpl;
    (destruct E as [->| ->] || subst name); auto.
Qed.

Definition const_in_range (v : ConstValue) : Prop :=
  match v with ConstValue_Int64 z => in_s 64 z | _ => True end.

Lemma checked_in_range z v : checked z = Some v -> const_in_range v.
Proof. unfold checked. case_bool_decide; [|done]. by intros [= <-]. Qed.

Lemma rem_in_s a b : b <> 0%Z -> in_s 64 a -> in_s 64 (Z.rem a b).
Proof.
  intros Hb Ha. unfold in_s in *.
  assert (Z.abs (Z.rem a b) <= Z.abs a)%Z.
  { rewrite <- Z.rem_abs by done. apply Z.rem_le; lia. }
  pose proof (Z.rem_sign_nz a b Hb). lia.
Qed.

Lemma rem_in_range a b : b <> 0%Z -> in_s 64 a -> wrap_s 64 (Z.rem a b) = Z.rem a b.
Proof. intros Hb Ha. apply wrap_s_id; [lia|by apply rem_in_s]. Qed.

(** Integer folding is exact: what is folded is a mathematical result that is in
    range, and a result out of range or a division by zero is not folded. *)
Theorem int_folding_exact a b :
  in_s 64 a -> in_s 64 b ->
  (forall op z, eval_const_binary op (ConstValue_Int64 a) (ConstValue_Int64 b) =
      Some (ConstValue_Int64 z) ->
    in_s 64 z /\
    ((op = "+" /\ z = a + b) \/ (op = "-" /\ z = a - b) \/ (op = "*" /\ z = a * b) \/
     (op = "÷" /\ b <> 0 /\ z = Z.quot a b) \/ (op = "%" /\ b <> 0 /\ z = Z.rem a b))%Z) /\
  (forall op z, In (op, z) [("+", a + b); ("-", a - b); ("*", a * b)]%Z -> ~ in_s 64 z ->
    eval_const_binary op (ConstValue_Int64 a) (ConstValue_Int64 b) = None) /\
  (forall op, In op ["/"; "÷"; "%"] ->
    eval_const_binary op (ConstValue_Int64 a) (ConstValue_Int64 0) = None).
Proof.
  intros Ha Hb. split_and!.
  - intros op z. simpl. unfold eval_int_binary, checked.
    repeat match goal with
           | |- context [String.eqb op ?s] => destruct (String.eqb_spec op s) as [->|]
           end; try discriminate;
      repeat case_bool_decide; try discriminate; try destruct (Z.eqb_spec b 0); try discriminate;
      repeat case_bool_decide; try discriminate; intros [= <-];
      rewrite ?rem_in_range by done; (split; [done || by apply rem_in_s|tauto]).
  - intros op z Hin Hz. repeat destruct Hin as [[= <- <-]|Hin]; try done; simpl;
      unfold eval_int_binary, checked; simpl; by rewrite bool_decide_eq_false_2.
  - intros op Hin. repeat destruct Hin as [<-|Hin]; done.
Qed.
