(* ===== verification/ConstFoldSem.v ===== *)
(** * Folded constants and run-time results

    The value that the constant folder computes for an operation is the value
    that the interpreter's instruction for it leaves on the operand stack. *)

From S2P Require Import Machine.
From S2P Require Import ConstProp.

Section Sem.
Context `{ExternalConversions}.

(** A constant at run time; strings and symbols are heap values. *)
Definition const_value_runtime (v : ConstValue) : option value :=
  match v with
  | ConstValue_Int64 z => Some (Value.I64 z)
  | ConstValue_Float64 x => Some (Value.F64 x)
  | ConstValue_Bool b => Some (Value.Bool b)
  | ConstValue_Nothing => Some Value.Nothing
  | ConstValue_String _ | ConstValue_Symbol _ => None
  end.

Definition comparison_instr (op : string) (l : list Instr) : option Instr :=
  match l with
  | [lt; le; gt; ge; eq; ne] =>
      if String.eqb op "<" then Some lt else if String.eqb op "<=" then Some le
      else if String.eqb op ">" then Some gt else if String.eqb op ">=" then Some ge
      else if String.eqb op "==" then Some eq else if String.eqb op "!=" then Some ne else None
  | _ => None
  end.

(** The typed instruction for an operation on two constants. *)
Definition float_instr (op : string) : option Instr :=
  if String.eqb op "+" then Some AddF64 else if String.eqb op "-" then Some SubF64
  else if String.eqb op "*" then Some MulF64 else if String.eqb op "/" then Some DivF64 else None.

Definition binary_instr (op : string) (a b : ConstValue) : option Instr :=
  match a, b with
  | ConstValue_Int64 _, ConstValue_Int64 _ =>
      if String.eqb op "+" then Some AddI64 else if String.eqb op "-" then Some SubI64
      else if String.eqb op "*" then Some MulI64 else if String.eqb op "%" then Some ModI64
      else if String.eqb op "/" then Some DivF64
      else comparison_instr op [LtI64; LeI64; GtI64; GeI64; EqI64; NeI64]
  | ConstValue_Float64 _, ConstValue_Float64 _ =>
      match float_instr op with
      | Some i => Some i
      | None => comparison_instr op [LtF64; LeF64; GtF64; GeF64; EqF64; NeF64]
      end
  | ConstValue_Int64 _, ConstValue_Float64 _ | ConstValue_Float64 _, ConstValue_Int64 _ =>
      float_instr op
  | _, _ => None
  end.

Definition unary_instr (op : string) (a : ConstValue) : option Instr :=
  match a with
  | ConstValue_Int64 _ => if String.eqb op "-" then Some NegI64 else None
  | ConstValue_Float64 _ =>
      if String.eqb op "-" then Some NegF64 else if String.eqb op "abs" then Some AbsF64 else None
  | _ => None
  end.

Definition folded_operators : list string :=
  ["+"; "-"; "*"; "%"; "/"; "<"; "<="; ">"; ">="; "=="; "!="; "abs"].

Lemma checked_inv z v : checked z = Some v -> v = ConstValue_Int64 (wrap_s 64 z).
Proof.
  unfold checked. case_bool_decide as Hz; [|done]. intros [= <-]. by rewrite wrap_s_id.
Qed.

(** Decides which operator the string is. *)
Ltac which_operator :=
  repeat match goal with
  | |- (if String.eqb ?a ?b then _ else _) = Some _ -> _ =>
      destruct (String.eqb_spec a b) as [->|_]; [intros _; set_solver|]
  end; try done.

Lemma comparison_instr_operator op l i : comparison_instr op l = Some i -> op ∈ folded_operators.
Proof. destruct l as [|? [|? [|? [|? [|? [|? []]]]]]]; try done. cbn. which_operator. Qed.

Lemma float_instr_operator op i : float_instr op = Some i -> op ∈ folded_operators.
Proof. unfold float_instr. which_operator. Qed.

Lemma binary_instr_operator op a b i : binary_instr op a b = Some i -> op ∈ folded_operators.
Proof.
  destruct a, b; cbn [binary_instr]; try done; try apply float_instr_operator.
  - which_operator. apply comparison_instr_operator.
  - destruct (float_instr op) eqn:Hf; [intros _; by eapply float_instr_operator|].
    apply comparison_instr_operator.
Qed.

Lemma unary_instr_operator op a i : unary_instr op a = Some i -> op ∈ folded_operators.
Proof. destruct a; cbn [unary_instr]; try done; which_operator. Qed.

(** Reduces both sides for one operator. *)
Ltac run_operator s :=
  cbn; intros; simplify_eq;
  repeat match goal with
  | H : checked _ = Some _ |- _ => apply checked_inv in H as ->
  | H : (if Z.eqb ?a ?b then _ else _) = Some _ |- _ => destruct (Z.eqb_spec a b); simplify_eq
  end;
  eexists; (split; [reflexivity|]); cbn; rewrite ?bool_decide_eq_false_2 by done; by destruct s.

Lemma binary_folding code op a b v i x y s :
  eval_const_binary op a b = Some v -> binary_instr op a b = Some i ->
  const_value_runtime a = Some x -> const_value_runtime b = Some y ->
  exists w, const_value_runtime v = Some w /\
    dispatch_instr code i (push y (push x s)) = Continue (push w s).
Proof.
  intros Hv Hi. pose proof (binary_instr_operator op a b i Hi) as Hop. revert Hv Hi.
  unfold folded_operators in Hop. rewrite !elem_of_cons, elem_of_nil in Hop.
  destruct_or! Hop; subst op; destruct a, b; try done; run_operator s.
Qed.

Lemma unary_folding code op a v i x s :
  eval_const_unary op a = Some v -> unary_instr op a = Some i ->
  const_value_runtime a = Some x ->
  exists w, const_value_runtime v = Some w /\
    dispatch_instr code i (push x s) = Continue (push w s).
Proof.
  intros Hv Hi. pose proof (unary_instr_operator op a i Hi) as Hop. revert Hv Hi.
  unfold folded_operators in Hop. rewrite !elem_of_cons, elem_of_nil in Hop.
  destruct_or! Hop; subst op; destruct a; try done; run_operator s.
Qed.

End Sem.

(** ** Witnesses *)

#[local] Instance no_conversions : ExternalConversions :=
  {| bigint_to_f64 := f64_of_Z; heap_pop_f64 := fun _ _ => None;
     heap_convert_f64 := fun _ _ => None |}.

Definition idle : Vm :=
  {| ip := 0; stack := [];
     frame := {| locals_slots := []; locals_any := ∅; frame_slot_names := [];
                 frame_slot_map := ∅ |};
     global_frame := None |}.

