(* ===== verification/SsaOpt.v ===== *)
(** * The SSA optimization passes

    subset_julia_vm_compile/src/compile/ssa_ir/opt.rs: constant folding, removal
    of unreachable blocks and of dead definitions, common-subexpression
    elimination of pure calls, and the driver that repeats them.  [None] stands
    for a panic or for running out of fuel; a pass returns whether it changed
    the function and the function. *)

From S2P Require Export Worklist Effects ConstProp SsaVerify.

(** The primitive types of subset_julia_vm_types/src/inference_core. *)
Inductive CorePrimitive :=
  | CoreBool | CoreInt8 | CoreInt16 | CoreInt32 | CoreInt64 | CoreInt128
  | CoreUInt8 | CoreUInt16 | CoreUInt32 | CoreUInt64 | CoreUInt128
  | CoreFloat16 | CoreFloat32 | CoreFloat64 | CoreBigInt | CoreBigFloat
  | CoreString | CoreChar | CoreSymbol | CoreNothing | CoreMissing.

(** Types in dispatch position: [CoreType::Primitive] and
    [CoreType::from(&JuliaType)]. *)
Class Dispatch {P : Payload} := {
  CoreType : Type;
  core_primitive : CorePrimitive -> CoreType;
  core_of_julia : JuliaType -> CoreType
}.

Section Opt.
Context {P : Payload} {D : Dispatch}.
Implicit Types func : SsaFunction.

(** [StaticDispatchResolver::resolve], when the caller has a resolver. *)
Abbreviation Resolver := (option (string -> list CoreType -> option Effects)).

Record EffectCtx := {
  by_name : gmap string Effects;
  resolver : Resolver;
  ctx_params : list SsaParam
}.

(** The three inputs that every pass takes. *)
Record EffectInputs := {
  in_effects : gmap string Effects;
  in_resolver : Resolver;
  in_locally_bound : gset string
}.

(** [mask.iter().any(|flag| *flag)] *)
Definition any_true (mask : list bool) : bool := existsb (fun flag => flag) mask.

(** ** Effects of one operation *)

Definition literal_arg_core (lit : Literal) : option CoreType :=
  core_primitive <$>
    match lit with
    | Literal_Int _ => Some CoreInt64
    | Literal_Int128 _ => Some CoreInt128
    | Literal_Float _ => Some CoreFloat64
    | Literal_Float32 _ => Some CoreFloat32
    | Literal_Float16 _ => Some CoreFloat16
    | Literal_Bool _ => Some CoreBool
    | Literal_Str _ => Some CoreString
    | Literal_Char _ => Some CoreChar
    | _ => None
    end.

Definition ssa_value_arg_core (value : SsaValue) (params : list SsaParam) : option CoreType :=
  match value with
  | Const lit => literal_arg_core lit
  | Argument i => p ← params !! i; ty ← param_ty p; Some (core_of_julia ty)
  | Def _ => None
  end.

Definition call_arg_cores (args : list SsaValue) (kwargs : list (string * SsaValue))
    (params : list SsaParam) : option (list CoreType) :=
  match kwargs with
  | [] => mapM (fun v => ssa_value_arg_core v params) args
  | _ => None
  end.

Definition barrier_effects : Effects :=
  {| consistent := AlwaysFalse; effect_free := effect_free effects_total; nothrow := nothrow effects_total;
     terminates := terminates effects_total; notaskstate := notaskstate effects_total;
     inaccessiblememonly := false; noub := noub effects_total; nonoverlayed := nonoverlayed effects_total;
     nortcall := nortcall effects_total |}.

Definition op_effects (op : SsaOp) (ctx : EffectCtx) (shadowed : gset string) : Effects :=
  match op with
  | Phi _ => effects_total
  | Unary op _ => infer_unary_op_effects op effects_total
  | Binary op _ _ => infer_binary_op_effects op effects_total effects_total
  | Call module function args kwargs splat_mask kwargs_splat_mask =>
      if any_true splat_mask || any_true kwargs_splat_mask ||
         bool_decide (function ∈ shadowed)
      then arbitrary
      else
        let resolved :=
          match module with
          | Some _ => None
          | None =>
              resolve ← resolver ctx;
              arg_cores ← call_arg_cores args kwargs (ctx_params ctx);
              (resolve : string -> list CoreType -> option Effects) function arg_cores
          end in
        match resolved with
        | Some e => e
        | None => default (infer_builtin_effects function []) (by_name ctx !! function)
        end
  | BarrierReload _ _ => barrier_effects
  | Builtin _ _ | LoadGlobal _ | StoreGlobal _ _ | Opaque _ _ | OpaqueStmt _ _ => arbitrary
  end.

Definition all_stmts func : list SsaStatement := fn_blocks func ≫= stmts.

Definition barrier_var (s : SsaStatement) : option string :=
  match stmt_op s with BarrierReload var _ => Some var | _ => None end.

Definition shadowed_callee_names func (locally_bound : gset string) : gset string :=
  list_to_set (map param_name (fn_params func)) ∪ locally_bound ∪
  list_to_set (omap barrier_var (all_stmts func)).

Definition effect_ctx func (inputs : EffectInputs) : EffectCtx :=
  {| by_name := in_effects inputs; resolver := in_resolver inputs;
     ctx_params := fn_params func |}.

(** ** Folding one statement *)

Definition eval_const_call (function : string) (args : list ConstValue) : option ConstValue :=
  match args with
  | [operand] => eval_const_unary function operand
  | [lhs; rhs] => eval_const_binary function lhs rhs
  | _ => None
  end.

(** The loop of [trivial_phi_value]: [None] is the early return. *)
Fixpoint trivial_phi_loop (id : SsaValueId) (unique : option SsaValue)
    (values : list (option SsaValue)) : option SsaValue :=
  match values with
  | [] => unique
  | None :: _ => None
  | Some value :: values =>
      if value_eqb value (Def id) then trivial_phi_loop id unique values
      else
        match unique with
        | None => trivial_phi_loop id (Some value) values
        | Some existing =>
            if value_eqb existing value then trivial_phi_loop id unique values else None
        end
  end.

Definition trivial_phi_value (id : SsaValueId) (phi : PhiNode) : option SsaValue :=
  trivial_phi_loop id None (values phi).

Definition const_arg (v : SsaValue) : option ConstValue :=
  match v with Const lit => literal_to_const_value lit | _ => None end.

Definition const_result (v : option ConstValue) : option SsaValue :=
  (fun v => Const (const_value_to_literal v)) <$> v.

Definition fold_statement (id : SsaValueId) (op : SsaOp)
    (effects : option (EffectCtx * gset string)) : option SsaValue :=
  match op with
  | Unary uop (Const operand) =>
      operand ← literal_to_const_value operand;
      const_result (eval_const_unary (unary_op_to_function_name uop) operand)
  | Binary bop (Const lhs) (Const rhs) =>
      lhs ← literal_to_const_value lhs;
      rhs ← literal_to_const_value rhs;
      const_result (eval_const_binary (binary_op_to_function_name bop) lhs rhs)
  | Call None function args [] splat_mask kwargs_splat_mask =>
      if any_true splat_mask || any_true kwargs_splat_mask then None
      else
        '(ctx, shadowed) ← effects;
        let e := op_effects op ctx shadowed in
        if negb (is_foldable e) || negb (nothrow e) then None
        else
          args ← mapM const_arg args;
          const_result (eval_const_call function args)
  | Phi phi => trivial_phi_value id phi
  | _ => None
  end.

(** ** Substitutions *)

(** One entry: [Some None] drops it because of a cycle. *)
Fixpoint resolve_loop (subst : gmap SsaValueId SsaValue) (fuel : nat) (seen : gset SsaValueId)
    (value : SsaValue) : option (option SsaValue) :=
  match value with
  | Def next =>
      match subst !! next with
      | None => Some (Some value)
      | Some next_value =>
          if bool_decide (next ∈ seen) then Some None
          else
            match fuel with
            | 0 => None
            | S fuel => resolve_loop subst fuel ({[next]} ∪ seen) next_value
            end
      end
  | _ => Some (Some value)
  end.

Fixpoint resolve_all (subst : gmap SsaValueId SsaValue)
    (entries : list (SsaValueId * SsaValue)) : option (gmap SsaValueId SsaValue) :=
  match entries with
  | [] => Some ∅
  | (id, value) :: entries =>
      r ← resolve_loop subst (size subst) {[id]} value;
      rest ← resolve_all subst entries;
      Some (match r with Some v => <[id := v]> rest | None => rest end)
  end.

Definition resolve_substitutions (subst : gmap SsaValueId SsaValue)
    : option (gmap SsaValueId SsaValue) :=
  resolve_all subst (map_to_list subst).

Definition apply_value (subst : gmap SsaValueId SsaValue) (value : SsaValue) : SsaValue :=
  match value with Def id => default value (subst !! id) | _ => value end.

Definition with_stmts (b : SsaBlock) (l : list SsaStatement) : SsaBlock :=
  {| blk_id := blk_id b; stmts := l; terminator := terminator b;
     preds := preds b; succs := succs b |}.

Definition with_blocks func (bs : list SsaBlock) : SsaFunction :=
  {| fn_name := fn_name func; fn_params := fn_params func; fn_entry := fn_entry func;
     fn_blocks := bs |}.

Definition subst_stmt (subst : gmap SsaValueId SsaValue) (s : SsaStatement) : SsaStatement :=
  {| stmt_id := stmt_id s; stmt_op := operands_mut (apply_value subst) (stmt_op s);
     stmt_span := stmt_span s |}.

Definition subst_block (subst : gmap SsaValueId SsaValue) (b : SsaBlock) : SsaBlock :=
  {| blk_id := blk_id b; stmts := map (subst_stmt subst) (stmts b);
     terminator := term_operands_mut (apply_value subst) (terminator b);
     preds := preds b; succs := succs b |}.

Definition apply_substitutions func (subst : gmap SsaValueId SsaValue) : SsaFunction :=
  with_blocks func (map (subst_block subst) (fn_blocks func)).

(** [for block in &mut func.blocks { block.stmts.retain(..) }] *)
Definition retain_stmts func (keep : SsaValueId -> bool) : SsaFunction :=
  with_blocks func
    (map (fun b => with_stmts b (List.filter (fun s => keep (stmt_id s)) (stmts b)))
       (fn_blocks func)).

Definition not_in (subst : gmap SsaValueId SsaValue) (id : SsaValueId) : bool :=
  bool_decide (subst !! id = None).

(** ** Edges *)

(** [Vec::remove], which panics out of range. *)
Definition vec_remove {A} (i : nat) (l : list A) : option (list A) :=
  if i <? length l then Some (delete i l) else None.

Fixpoint remove_phi_entries (position : nat) (l : list SsaStatement)
    : option (list SsaStatement) :=
  match l with
  | [] => Some []
  | s :: rest =>
      match stmt_op s with
      | Phi phi =>
          es ← vec_remove position (edges phi);
          vs ← vec_remove position (values phi);
          rest ← remove_phi_entries position rest;
          Some ({| stmt_id := stmt_id s; stmt_op := Phi {| edges := es; values := vs |};
                   stmt_span := stmt_span s |} :: rest)
      | _ => Some l
      end
  end.

(** [preds.iter().position(|pred| *pred == from)] *)
Fixpoint position (from : BlockId) (l : list BlockId) : option nat :=
  match l with
  | [] => None
  | p :: l => if Nat.eqb p from then Some 0 else S <$> position from l
  end.

Definition remove_block_edge (from : BlockId) (b : SsaBlock) : option SsaBlock :=
  match position from (preds b) with
  | None => Some b
  | Some i =>
      l ← remove_phi_entries i (stmts b);
      Some {| blk_id := blk_id b; stmts := l; terminator := terminator b;
              preds := delete i (preds b); succs := succs b |}
  end.

Definition remove_edge func (from to : BlockId) : option SsaFunction :=
  b ← block func to;
  b ← remove_block_edge from b;
  Some (with_blocks func (<[to := b]> (fn_blocks func))).

(** ** [fold_constant_branches] *)

Definition folded_branch (t : Terminator) : option (BlockId * BlockId) :=
  match t with
  | Branch (Const (Literal_Bool condition)) then_target else_target =>
      Some (if condition then (then_target, else_target) else (else_target, then_target))
  | _ => None
  end.

Definition set_jump func (index : nat) (b : SsaBlock) (taken : BlockId) : SsaFunction :=
  with_blocks func
    (<[index := {| blk_id := blk_id b; stmts := stmts b; terminator := Jump taken;
                   preds := preds b; succs := [taken] |}]> (fn_blocks func)).

Fixpoint fold_branches_loop func (changed : bool) (indices : list nat)
    : option (bool * SsaFunction) :=
  match indices with
  | [] => Some (changed, func)
  | index :: indices =>
      b ← block func index;
      match folded_branch (terminator b) with
      | None => fold_branches_loop func changed indices
      | Some (taken, dropped) =>
          let func := set_jump func index b taken in
          func ← if Nat.eqb dropped taken then Some func
                 else remove_edge func (blk_id b) dropped;
          fold_branches_loop func true indices
      end
  end.

Definition fold_constant_branches func : option (bool * SsaFunction) :=
  fold_branches_loop func false (seq 0 (length (fn_blocks func))).

(** ** [fold_constants_inner] *)

Definition fold_effects func (inputs : option EffectInputs)
    : option (EffectCtx * gset string) :=
  inputs ← inputs;
  Some (effect_ctx func inputs, shadowed_callee_names func (in_locally_bound inputs)).

(** The statements that fold, a later one of the same id replacing an earlier. *)
Definition folded_defs func (inputs : option EffectInputs) : gmap SsaValueId SsaValue :=
  let effects := fold_effects func inputs in
  foldl (fun subst s =>
    match fold_statement (stmt_id s) (stmt_op s) effects with
    | Some v => <[stmt_id s := v]> subst
    | None => subst
    end) ∅ (all_stmts func).

(** One turn of the loop: whether a definition or a branch was folded. *)
Definition fold_turn func (inputs : option EffectInputs) : option (bool * SsaFunction) :=
  subst ← resolve_substitutions (folded_defs func inputs);
  let folded := negb (bool_decide (subst = ∅)) in
  let func :=
    if (folded : bool) then retain_stmts (apply_substitutions func subst) (not_in subst)
    else func in
  '(branches, func) ← fold_constant_branches func;
  Some (folded || branches, func).

Fixpoint fold_loop (fuel : nat) func (inputs : option EffectInputs) (changed_any : bool)
    : option (bool * SsaFunction) :=
  '(changed, func) ← fold_turn func inputs;
  if (changed : bool) then
    match fuel with
    | 0 => None
    | S fuel => fold_loop fuel func inputs true
    end
  else Some (changed_any, func).

(** Every turn that changes something deletes a statement or a branch. *)
Definition is_branch (t : Terminator) : bool :=
  match t with Branch _ _ _ => true | _ => false end.

Definition ssa_size func : nat :=
  length (all_stmts func) + length (fn_blocks func) +
  length (List.filter (fun b => is_branch (terminator b)) (fn_blocks func)).

Definition fold_constants_inner func (inputs : option EffectInputs)
    : option (bool * SsaFunction) :=
  fold_loop (ssa_size func) func inputs false.

(** The entry points. *)
Definition fold_constants func : option (bool * SsaFunction) := fold_constants_inner func None.
Definition fold_constants_scoped_inner func (inputs : EffectInputs) :=
  fold_constants_inner func (Some inputs).

(** ** [eliminate_unreachable_blocks] *)

Fixpoint remove_edges func (froms : list BlockId) (to : BlockId) : option SsaFunction :=
  match froms with
  | [] => Some func
  | from :: froms => func ← remove_edge func from to; remove_edges func froms to
  end.

(** Drops the edges from predecessors that are not reachable. *)
Fixpoint prune_loop func (reachable : gset BlockId) (indices : list nat) : option SsaFunction :=
  match indices with
  | [] => Some func
  | index :: indices =>
      b ← block func index;
      func ←
        if bool_decide (blk_id b ∈ reachable)
        then remove_edges func
               (List.filter (fun p => negb (bool_decide (p ∈ reachable))) (preds b)) (blk_id b)
        else Some func;
      prune_loop func reachable indices
  end.

(** The position of [id] among the reachable blocks in ascending order. *)
Definition remap (reachable : gset BlockId) (id : BlockId) : option BlockId :=
  position id (merge_sort le (elements reachable)).

Definition renumber_term (reachable : gset BlockId) (t : Terminator) : option Terminator :=
  match t with
  | Jump target => target ← remap reachable target; Some (Jump target)
  | Branch c t e =>
      t ← remap reachable t; e ← remap reachable e; Some (Branch c t e)
  | Return v => Some (Return v)
  end.

Fixpoint renumber_phis (reachable : gset BlockId) (l : list SsaStatement)
    : option (list SsaStatement) :=
  match l with
  | [] => Some []
  | s :: rest =>
      match stmt_op s with
      | Phi phi =>
          es ← mapM (remap reachable) (edges phi);
          rest ← renumber_phis reachable rest;
          Some ({| stmt_id := stmt_id s; stmt_op := Phi {| edges := es; values := values phi |};
                   stmt_span := stmt_span s |} :: rest)
      | _ => Some l
      end
  end.

Definition renumber_block (reachable : gset BlockId) (b : SsaBlock) : option SsaBlock :=
  id ← remap reachable (blk_id b);
  ps ← mapM (remap reachable) (preds b);
  ss ← mapM (remap reachable) (succs b);
  t ← renumber_term reachable (terminator b);
  l ← renumber_phis reachable (stmts b);
  Some {| blk_id := id; stmts := l; terminator := t; preds := ps; succs := ss |}.

Definition eliminate_unreachable_blocks func : option (bool * SsaFunction) :=
  reachable ← compute_reachable func;
  if size reachable =? length (fn_blocks func) then Some (false, func)
  else
    func ← prune_loop func reachable (seq 0 (length (fn_blocks func)));
    bs ← mapM (renumber_block reachable)
           (List.filter (fun b => bool_decide (blk_id b ∈ reachable)) (fn_blocks func));
    entry ← remap reachable (fn_entry func);
    Some (true, {| fn_name := fn_name func; fn_params := fn_params func; fn_entry := entry;
                   fn_blocks := bs |}).

(** ** [eliminate_dead_defs_scoped_inner] *)

Definition value_def (v : SsaValue) : option SsaValueId :=
  match v with Def id => Some id | _ => None end.

(** Definitions read by an operation, the incoming values of a phi included. *)
Definition operand_defs (op : SsaOp) : list SsaValueId :=
  match op with
  | Phi phi => omap value_def (omap id (values phi))
  | _ => omap value_def (operands op)
  end.

(** One block: the statements that must stay and the operands of the
    terminator; the head of the worklist is its top. *)
Definition live_stmt (ctx : EffectCtx) (shadowed : gset string)
    (state : gset SsaValueId * list SsaValueId) (s : SsaStatement)
    : gset SsaValueId * list SsaValueId :=
  if is_removable (op_effects (stmt_op s) ctx shadowed) then state
  else visit state (stmt_id s).

Definition live_block (ctx : EffectCtx) (shadowed : gset string)
    (state : gset SsaValueId * list SsaValueId) (b : SsaBlock)
    : gset SsaValueId * list SsaValueId :=
  foldl visit (foldl (live_stmt ctx shadowed) state (stmts b))
    (omap value_def (term_operands (terminator b))).

Definition live_roots func (inputs : EffectInputs) : gset SsaValueId * list SsaValueId :=
  foldl (live_block (effect_ctx func inputs)
           (shadowed_callee_names func (in_locally_bound inputs)))
    (∅, []) (fn_blocks func).

(** The map from a definition to what it reads. *)
Definition deps func : gmap SsaValueId (list SsaValueId) :=
  foldl (fun m s => <[stmt_id s := operand_defs (stmt_op s)]> m) ∅ (all_stmts func).

Definition dep_list func (id : SsaValueId) : list SsaValueId := default [] (deps func !! id).

(** The worklist grows by definitions that some statement reads. *)
Definition live_fuel func (worklist : list SsaValueId) : nat :=
  length worklist + length (all_stmts func ≫= fun s => operand_defs (stmt_op s)).

Definition live_defs func (inputs : EffectInputs) : option (gset SsaValueId) :=
  let '(live, worklist) := live_roots func inputs in
  explore (dep_list func) (live_fuel func worklist) live worklist.

Definition eliminate_dead_defs_scoped_inner func (inputs : EffectInputs)
    : option (bool * SsaFunction) :=
  live ← live_defs func inputs;
  let func' := retain_stmts func (fun id => bool_decide (id ∈ live)) in
  Some (negb (length (all_stmts func') =? length (all_stmts func)), func').

(** ** [cse_pure_calls_scoped_inner] *)

Inductive ValueKey :=
  | KeyDef (id : nat) | KeyArgument (index : nat) | KeyInt (v : Z) | KeyFloat (bits : f64)
  | KeyBool (b : bool) | KeyStr (s : string) | KeyChar (c : Z) | KeySymbol (s : string)
  | KeyNothing.

#[local] Instance ValueKey_eq_dec : EqDecision ValueKey.
Proof. solve_decision. Defined.

Record CallKey := {
  key_module : option string;
  key_function : string;
  key_args : list ValueKey;
  key_kwargs : list (string * ValueKey)
}.

#[local] Instance CallKey_eq_dec : EqDecision CallKey.
Proof. solve_decision. Defined.

Definition literal_value_key (literal : Literal) : option ValueKey :=
  match literal with
  | Literal_Int v => Some (KeyInt v)
  | Literal_Float v => Some (KeyFloat v)
  | Literal_Bool v => Some (KeyBool v)
  | Literal_Str s => Some (KeyStr s)
  | Literal_Char c => Some (KeyChar c)
  | Literal_Symbol s => Some (KeySymbol s)
  | Literal_Nothing => Some KeyNothing
  | _ => None
  end.

Definition value_key (value : SsaValue) (subst : gmap SsaValueId SsaValueId) : option ValueKey :=
  match value with
  | Def id => Some (KeyDef (default id (subst !! id)))
  | Argument index => Some (KeyArgument index)
  | Const literal => literal_value_key literal
  end.

Definition call_key (op : SsaOp) (ctx : EffectCtx) (shadowed : gset string)
    (subst : gmap SsaValueId SsaValueId) : option CallKey :=
  match op with
  | Call module function args kwargs _ _ =>
      if negb (is_foldable (op_effects op ctx shadowed)) then None
      else
        args ← mapM (fun v => value_key v subst) args;
        kwargs ← mapM (fun '(name, v) => k ← value_key v subst; Some (name, k)) kwargs;
        Some {| key_module := module; key_function := function;
                key_args := args; key_kwargs := kwargs |}
  | _ => None
  end.

(** [HashMap<CallKey, SsaValueId>] *)
Definition CallTable := list (CallKey * SsaValueId).

Fixpoint table_get (table : CallTable) (key : CallKey) : option SsaValueId :=
  match table with
  | [] => None
  | (k, id) :: table => if bool_decide (k = key) then Some id else table_get table key
  end.

Definition table_remove (table : CallTable) (key : CallKey) : CallTable :=
  List.filter (fun e => negb (bool_decide (e.1 = key))) table.

Inductive Action := Enter (b : BlockId) | Exit (inserted : list CallKey).

(** The children of a block in the dominator tree, ascending. *)
Definition dom_children (idoms : gmap BlockId BlockId) (b : BlockId) : list BlockId :=
  List.filter (fun c => negb (Nat.eqb c b) && bool_decide (idoms !! c = Some b))
    (merge_sort le (elements (dom idoms : gset BlockId))).

Record CseState := {
  cse_table : CallTable;
  cse_subst : gmap SsaValueId SsaValueId;
  cse_inserted : list CallKey
}.

Definition cse_stmt (ctx : EffectCtx) (shadowed : gset string) (st : CseState)
    (s : SsaStatement) : CseState :=
  match call_key (stmt_op s) ctx shadowed (cse_subst st) with
  | None => st
  | Some key =>
      match table_get (cse_table st) key with
      | Some original =>
          {| cse_table := cse_table st; cse_subst := <[stmt_id s := original]> (cse_subst st);
             cse_inserted := cse_inserted st |}
      | None =>
          {| cse_table := (key, stmt_id s) :: cse_table st; cse_subst := cse_subst st;
             cse_inserted := cse_inserted st ++ [key] |}
      end
  end.

(** The head of [stack] is its top: the children are entered in ascending order,
    then the block is left. *)
Fixpoint cse_loop func (ctx : EffectCtx) (shadowed : gset string)
    (idoms : gmap BlockId BlockId) (fuel : nat) (table : CallTable)
    (subst : gmap SsaValueId SsaValueId) (stack : list Action)
    : option (gmap SsaValueId SsaValueId) :=
  match stack with
  | [] => Some subst
  | action :: stack =>
      match fuel with
      | 0 => None
      | S fuel =>
          match action with
          | Exit inserted =>
              cse_loop func ctx shadowed idoms fuel (foldl table_remove table inserted) subst stack
          | Enter block_id =>
              b ← block func block_id;
              let st := foldl (cse_stmt ctx shadowed)
                          {| cse_table := table; cse_subst := subst; cse_inserted := [] |}
                          (stmts b) in
              cse_loop func ctx shadowed idoms fuel (cse_table st) (cse_subst st)
                (map Enter (dom_children idoms block_id) ++ Exit (cse_inserted st) :: stack)
          end
      end
  end.

(** Every block of the dominator tree is entered and left once. *)
Definition cse_fuel (idoms : gmap BlockId BlockId) : nat := 2 * size idoms.

Definition cse_pure_calls_scoped_inner func (inputs : EffectInputs)
    : option (bool * SsaFunction) :=
  reachable ← compute_reachable func;
  idoms ← compute_idoms func reachable;
  subst ← cse_loop func (effect_ctx func inputs)
            (shadowed_callee_names func (in_locally_bound inputs)) idoms (cse_fuel idoms)
            [] ∅ [Enter (fn_entry func)];
  if bool_decide (subst = ∅) then Some (false, func)
  else
    let replacements := Def <$> subst in
    Some (true, retain_stmts (apply_substitutions func replacements) (not_in replacements)).

(** ** The driver *)

Definition MAX_ROUNDS : nat := 64.

(** One round: fold, remove unreachable blocks, remove dead definitions, merge
    calls. *)
Definition optimize_round func (inputs : EffectInputs) : option (bool * SsaFunction) :=
  '(c1, func) ← fold_constants_scoped_inner func inputs;
  '(c2, func) ← eliminate_unreachable_blocks func;
  '(c3, func) ← eliminate_dead_defs_scoped_inner func inputs;
  '(c4, func) ← cse_pure_calls_scoped_inner func inputs;
  Some (c1 || c2 || c3 || c4, func).

(** The boolean tells whether a round without changes was reached; when it was
    not, a debug build panics and a release build returns what there is. *)
Fixpoint optimize_rounds (rounds : nat) func (inputs : EffectInputs)
    : option (bool * SsaFunction) :=
  match rounds with
  | 0 => Some (false, func)
  | S rounds =>
      '(changed, func) ← optimize_round func inputs;
      if (changed : bool) then optimize_rounds rounds func inputs else Some (true, func)
  end.

Definition optimize_scoped_inner func (inputs : EffectInputs) : option (bool * SsaFunction) :=
  optimize_rounds MAX_ROUNDS func inputs.

Definition scoped_inputs (effects : gmap string Effects) (locally_bound : gset string)
    : EffectInputs :=
  {| in_effects := effects; in_resolver := None; in_locally_bound := locally_bound |}.

Definition eliminate_dead_defs_scoped func effects locally_bound :=
  eliminate_dead_defs_scoped_inner func (scoped_inputs effects locally_bound).
Definition eliminate_dead_defs func effects := eliminate_dead_defs_scoped func effects ∅.
Definition cse_pure_calls_scoped func effects locally_bound :=
  cse_pure_calls_scoped_inner func (scoped_inputs effects locally_bound).
Definition cse_pure_calls func effects := cse_pure_calls_scoped func effects ∅.
Definition optimize_scoped func effects locally_bound :=
  optimize_scoped_inner func (scoped_inputs effects locally_bound).
Definition optimize_scoped_resolved func effects resolver locally_bound :=
  optimize_scoped_inner func
    {| in_effects := effects; in_resolver := resolver; in_locally_bound := locally_bound |}.
Definition optimize_with_effects func effects := optimize_scoped func effects ∅.
Definition optimize func := optimize_with_effects func ∅.
End Opt.
