(* ===== verification/SsaForm.v ===== *)
(** * Rewriting a function in SSA form

    Replacing definitions by values that are available wherever the definition
    is, and deleting definitions that nothing uses any more, keeps a function in
    SSA form ([rewrite_well_formed]).  Folding, merging calls and removing dead
    definitions are instances. *)

From S2P Require Export SsaOpt SsaVerifySpec.

(** ** Lists *)

Lemma mapM_ext_elem {A B} (f g : A -> option B) l :
  (forall x, x ∈ l -> f x = g x) -> mapM f l = mapM g l.
Proof.
  induction l as [|x l IH]; intros H; simpl; [done|].
  rewrite (H x) by left. rewrite IH; [done|]. intros y Hy. apply H. by right.
Qed.

Lemma mapM_map {A B C} (f : B -> option C) (g : A -> B) l : mapM f (map g l) = mapM (fun x => f (g x)) l.
Proof. induction l as [|x l IH]; simpl; [done|]. by rewrite IH. Qed.

Section Form.
Context {P : Payload}.
Implicit Types func : SsaFunction.

Abbreviation reached_in func := (reached (edge func) (fn_entry func)).
Abbreviation dominator_in func := (dominator (edge func) (fn_entry func)).

(** ** Functions with the same graph *)

Definition same_graph func func' : Prop :=
  fn_entry func' = fn_entry func /\ forall u, block_succs func' u = block_succs func u.

Lemma same_graph_edge func func' u v : same_graph func func' -> edge func' u v <-> edge func u v.
Proof. intros [_ H]. unfold edge. by rewrite H. Qed.

Lemma same_graph_path func func' v l :
  same_graph func func' ->
  path (edge func') (fn_entry func') v l <-> path (edge func) (fn_entry func) v l.
Proof.
  intros H. pose proof H as [He _]. rewrite He.
  split; apply path_mono; intros x y; by apply (same_graph_edge func func').
Qed.

Lemma same_graph_reached func func' v :
  same_graph func func' -> reached_in func' v <-> reached_in func v.
Proof. intros H. split; intros [l Hl]; exists l; by apply (same_graph_path func func'). Qed.

Lemma same_graph_dominator func func' d v :
  same_graph func func' -> dominator_in func' d v <-> dominator_in func d v.
Proof. intros H. split; intros Hd l Hl; apply Hd; by apply (same_graph_path func func'). Qed.

(** ** Definition sites *)

Lemma site_unique func d d' b b' i i' s s' :
  well_formed func -> block func d = Some b -> block func d' = Some b' ->
  stmts b !! i = Some s -> stmts b' !! i' = Some s' -> stmt_id s = stmt_id s' ->
  d = d' /\ i = i'.
Proof.
  intros Hwf Hb Hb' Hs Hs' He. pose proof (collect_def_sites_spec func (wf_ids _ Hwf)) as H.
  destruct (collect_def_sites func) as [sites|e]; [|by destruct H; apply wf_unique].
  destruct H as [_ H].
  assert (sites !! stmt_id s = Some (d, i)) as H1 by (apply H; eauto).
  assert (sites !! stmt_id s = Some (d', i')) as H2 by (apply H; rewrite He; eauto).
  by simplify_eq.
Qed.

Lemma defines_unique func d d' id :
  well_formed func -> defines func d id -> defines func d' id -> d = d'.
Proof.
  intros Hwf (b & s & Hb & [i Hs]%list_elem_of_lookup & He)
    (b' & s' & Hb' & [i' Hs']%list_elem_of_lookup & He').
  destruct (site_unique func d d' b b' i i' s s') as [-> _]; congruence || done.
Qed.

Lemma split_unique func d b l1 s l2 k1 t k2 :
  well_formed func -> block func d = Some b -> stmts b = l1 ++ s :: l2 ->
  stmts b = k1 ++ t :: k2 -> stmt_id s = stmt_id t -> l1 = k1 /\ s = t /\ l2 = k2.
Proof.
  intros Hwf Hb Hl Hk He.
  assert (stmts b !! length l1 = Some s) as H1 by (rewrite Hl; by apply list_lookup_middle).
  assert (stmts b !! length k1 = Some t) as H2 by (rewrite Hk; by apply list_lookup_middle).
  destruct (site_unique func d d b b _ _ s t Hwf Hb Hb H1 H2 He) as [_ Hlen].
  rewrite Hl in Hk. apply app_inj_1 in Hk as [-> [= -> ->]]; done.
Qed.

(** What is defined before [id] in every run that computes [id]. *)
Definition defined_before func (x : SsaValueId) (d : BlockId) (id : SsaValueId) : Prop :=
  (exists b l1 s l2, block func d = Some b /\ stmts b = l1 ++ s :: l2 /\ stmt_id s = id /\
    x ∈ map stmt_id l1) \/
  (exists e, e <> d /\ defines func e x /\ dominator_in func e d).

Lemma defined_before_trans func x y d d' id :
  well_formed func -> reached_in func d ->
  defined_before func x d' y -> defines func d' y -> defined_before func y d id ->
  defined_before func x d id.
Proof.
  intros Hwf Hr Hx Hy [(b & l1 & s & l2 & Hb & Hl & He & Hin)|(e & Hne & Hdef & Hdom)].
  - apply list_elem_of_fmap in Hin as (t & -> & Ht).
    assert (defines func d (stmt_id t)) as Hdt.
    { exists b, t. split_and!; [done| |done]. rewrite Hl. apply elem_of_app. by left. }
    rewrite (defines_unique func d' d _ Hwf Hy Hdt) in *.
    destruct Hx as [(b' & k1 & u & k2 & Hb' & Hk & Hu & Hinx)|Hx]; [|by right]. left.
    rewrite Hb in Hb'. injection Hb' as <-. exists b, l1, s, l2. split_and!; [done|done|done|].
    apply list_elem_of_split in Ht as (m1 & m2 & ->).
    rewrite <- app_assoc in Hl. simpl in Hl.
    destruct (split_unique func d b _ _ _ _ _ _ Hwf Hb Hk Hl Hu) as (-> & _ & _).
    rewrite map_app. apply elem_of_app. by left.
  - rewrite (defines_unique func d' e _ Hwf Hy Hdef) in *. right.
    assert (forall c, defines func c x -> dominator_in func c e -> c <> e ->
      exists f, f <> d /\ defines func f x /\ dominator_in func f d) as Hup.
    { intros c Hc Hce Hne'. exists c. split_and!; [|done|by eapply dominator_trans].
      intros ->. apply Hne'. eapply dominator_antisym; [exact Hr|exact Hce|exact Hdom]. }
    destruct Hx as [(b' & k1 & u & k2 & Hb' & Hk & Hu & Hinx)|(c & Hce & Hcx & Hcd)]; [|by eapply Hup].
    exists e. split_and!; [done| |done]. apply list_elem_of_fmap in Hinx as (t & -> & Ht).
    exists b', t. split_and!; [done| |done]. rewrite Hk. apply elem_of_app. by left.
Qed.

(** A definition does not come before itself where it can be reached. *)
Lemma defined_before_irrefl func x d :
  well_formed func -> defines func d x -> ~ defined_before func x d x.
Proof.
  intros Hwf Hd [(b & l1 & s & l2 & Hb & Hl & He & Hin)|(e & Hne & Hdef & _)].
  - apply list_elem_of_fmap in Hin as (t & Ht & Hin). apply list_elem_of_split in Hin as (m1 & m2 & ->).
    rewrite <- app_assoc in Hl. simpl in Hl.
    pose proof (split_unique func d b (m1 ++ t :: m2) s l2 m1 t (m2 ++ s :: l2) Hwf Hb)
      as H. rewrite <- app_assoc in H. destruct (H Hl Hl) as (Hm & _ & _); [congruence|].
    apply (f_equal length) in Hm. rewrite length_app in Hm. simpl in Hm. lia.
  - apply Hne. by eapply defines_unique.
Qed.

(** What is visible before a statement is what comes before it. *)
Lemma visible_before func i b before s after x :
  well_formed func -> block func i = Some b -> stmts b = before ++ s :: after ->
  operand_ok func before i (Def x) <-> defined_before func x i (stmt_id s).
Proof.
  intros Hwf Hb Hl. split.
  - intros [Hx|Hx]; [left; by exists b, before, s, after|by right].
  - intros [(b' & l1 & u & l2 & Hb' & Hl' & Hu & Hin)|Hx]; [|by right]. left.
    rewrite Hb in Hb'. injection Hb' as <-.
    destruct (split_unique func i b _ _ _ _ _ _ Hwf Hb Hl Hl') as (-> & _ & _); done.
Qed.

(** ** Operands after a rewriting *)

Lemma operands_subst f (op : SsaOp) : operands (operands_mut f op) = map f (operands op).
Proof.
  destruct op; simpl; try done; by rewrite ?map_app, !map_map.
Qed.

Lemma term_operands_subst f t : term_operands (term_operands_mut f t) = map f (term_operands t).
Proof. by destruct t as [|c t e|[v|]]. Qed.

Lemma targets_subst f t : targets (term_operands_mut f t) = targets t.
Proof. by destruct t as [|c t e|[v|]]. Qed.

Lemma is_phi_subst f (op : SsaOp) : is_phi (operands_mut f op) = is_phi op.
Proof. by destruct op. Qed.

Lemma phi_subst f (op : SsaOp) phi :
  operands_mut f op = Phi phi ->
  exists phi0, op = Phi phi0 /\ edges phi = edges phi0 /\ values phi = map (fmap f) (values phi0).
Proof. destruct op; try done. intros [= <-]. by eexists. Qed.

Lemma term_operands_mut_id f t : (forall v, f v = v) -> term_operands_mut f t = t.
Proof. intros H. destruct t as [|c t e|[v|]]; simpl; by rewrite ?H. Qed.

Lemma operands_mut_id f (op : SsaOp) : (forall v, f v = v) -> operands_mut f op = op.
Proof.
  intros H. assert (forall l : list SsaValue, map f l = l) as Hl.
  { induction l as [|x l IH]; simpl; [done|]. by rewrite H, IH. }
  assert (forall l : list (string * SsaValue), map (prod_map id f) l = l) as Hk.
  { induction l as [|[x y] l IH]; simpl; [done|]. by rewrite H, IH. }
  destruct op as [[es vs]| | | | | | | | |]; simpl; rewrite ?H, ?Hl, ?Hk; try done.
  do 2 f_equal. induction vs as [|[v|] vs IH]; simpl; by rewrite ?H, ?IH.
Qed.

(** ** Rewriting *)

Section Rewrite.
Variable func : SsaFunction.
Variable subst : gmap SsaValueId SsaValue.
Variable keep : SsaValueId -> bool.

Abbreviation func' := (retain_stmts (apply_substitutions func subst) keep).

Definition kept_stmts (l : list SsaStatement) : list SsaStatement :=
  List.filter (fun s => keep (stmt_id s)) (map (subst_stmt subst) l).

Definition kept_block (b : SsaBlock) : SsaBlock :=
  with_stmts (subst_block subst b) (kept_stmts (stmts b)).

Lemma kept_stmts_app l k : kept_stmts (l ++ k) = kept_stmts l ++ kept_stmts k.
Proof. unfold kept_stmts. by rewrite map_app, List.filter_app. Qed.

Lemma kept_stmts_cons s l :
  kept_stmts (s :: l) =
    if keep (stmt_id s) then subst_stmt subst s :: kept_stmts l else kept_stmts l.
Proof. done. Qed.

Lemma kept_stmts_elem s l :
  s ∈ kept_stmts l <-> exists t, t ∈ l /\ s = subst_stmt subst t /\ keep (stmt_id t) = true.
Proof.
  unfold kept_stmts. rewrite !list_elem_of_In, filter_In, in_map_iff. split.
  - intros [(t & <- & Ht) Hk]. exists t. by rewrite list_elem_of_In.
  - intros (t & Ht & -> & Hk). split; [|done]. exists t. by rewrite <- list_elem_of_In.
Qed.

Lemma kept_stmts_id id l :
  id ∈ map stmt_id (kept_stmts l) <-> id ∈ map stmt_id l /\ keep id = true.
Proof.
  split.
  - intros (s & -> & Hs)%list_elem_of_fmap. apply kept_stmts_elem in Hs as (t & Ht & -> & Hk).
    split; [|done]. apply list_elem_of_fmap. by exists t.
  - intros [(t & -> & Ht)%list_elem_of_fmap Hk]. apply list_elem_of_fmap.
    exists (subst_stmt subst t). split; [done|]. apply kept_stmts_elem. by exists t.
Qed.

Lemma kept_stmts_split l before s after :
  kept_stmts l = before ++ s :: after ->
  exists l1 t l2, l = l1 ++ t :: l2 /\ before = kept_stmts l1 /\ s = subst_stmt subst t /\
    keep (stmt_id t) = true.
Proof.
  revert before. induction l as [|t l IH]; intros before Hl; [by destruct before|].
  rewrite kept_stmts_cons in Hl. destruct (keep (stmt_id t)) eqn:Hk.
  - destruct before as [|x before]; injection Hl as Hx Hl.
    + exists [], t, l. by rewrite Hx.
    + destruct (IH before Hl) as (l1 & u & l2 & -> & -> & -> & Hu).
      exists (t :: l1), u, l2. rewrite kept_stmts_cons, Hk. by rewrite Hx.
  - destruct (IH before Hl) as (l1 & u & l2 & -> & -> & -> & Hu).
    exists (t :: l1), u, l2. by rewrite kept_stmts_cons, Hk.
Qed.

Lemma block_kept i : block func' i = kept_block <$> block func i.
Proof. unfold block. simpl. rewrite !list_lookup_fmap. by destruct (fn_blocks func !! i). Qed.

Lemma same_graph_kept : same_graph func func'.
Proof.
  split; [done|]. intros u. unfold block_succs. rewrite block_kept. by destruct (block func u).
Qed.

Lemma defines_kept d id : defines func' d id <-> defines func d id /\ keep id = true.
Proof.
  unfold defines. rewrite block_kept. split.
  - intros (b & s & Hb & Hs & <-). destruct (block func d) as [b0|]; [|done].
    injection Hb as <-. apply kept_stmts_elem in Hs as (t & Ht & -> & Hk). split; [|done].
    by exists b0, t.
  - intros [(b & s & -> & Hs & <-) Hk]. exists (kept_block b), (subst_stmt subst s).
    split_and!; [done| |done]. apply kept_stmts_elem. by exists s.
Qed.

Record rewrite_ok : Prop := {
  (* a replacement is available wherever the definition is *)
  rewrite_value d id v : reached_in func d -> defines func d id -> subst !! id = Some v ->
    match v with
    | Const _ => True
    | Argument k => k < length (fn_params func)
    | Def x => keep x = true /\ defined_before func x d id
    end;
  (* what is still read is kept or replaced *)
  rewrite_stmt i b s id : block func i = Some b -> s ∈ stmts b -> keep (stmt_id s) = true ->
    Def id ∈ operands (stmt_op s) -> keep id = true \/ is_Some (subst !! id);
  rewrite_phi i b s phi p id : block func i = Some b -> s ∈ stmts b -> keep (stmt_id s) = true ->
    stmt_op s = Phi phi -> (p, Some (Def id)) ∈ zip (edges phi) (values phi) ->
    keep id = true \/ is_Some (subst !! id);
  rewrite_term i b id : block func i = Some b -> Def id ∈ term_operands (terminator b) ->
    keep id = true \/ is_Some (subst !! id)
}.

Hypothesis Hwf : well_formed func.
Hypothesis Hok : rewrite_ok.

(** An operand that was available still is, after its replacement. *)
Lemma operand_kept i b before after v :
  reached_in func i -> block func i = Some b -> stmts b = before ++ after ->
  (forall id, v = Def id -> keep id = true \/ is_Some (subst !! id)) ->
  operand_ok func before i v -> operand_ok func' (kept_stmts before) i (apply_value subst v).
Proof.
  intros Hr Hb Hl Hk Ho. destruct v as [id|k|lit]; simpl in *; [|done|done].
  destruct (subst !! id) as [w|] eqn:Hw; simpl.
  - assert (exists d, defines func d id /\ reached_in func d /\
      ((d = i /\ id ∈ map stmt_id before) \/ (d <> i /\ dominator_in func d i)))
      as (d & Hdef & Hrd & Hpos).
    { destruct Ho as [Hin|(d & Hne & Hdef & Hdom)].
      - exists i. split_and!; [|done|by left]. apply list_elem_of_fmap in Hin as (s & -> & Hs).
        exists b, s. split_and!; [done| |done]. rewrite Hl. apply elem_of_app. by left.
      - exists d. split_and!; [done|by eapply reached_dominator|by right]. }
    pose proof (rewrite_value Hok d id w Hrd Hdef Hw) as Hval.
    destruct w as [x|k|lit]; [|done|done]. destruct Hval as [Hkx Hx]. simpl.
    destruct Hpos as [[-> Hin]|[Hne Hdom]].
    + destruct Hx as [(b' & l1 & s & l2 & Hb' & Hl1 & <- & Hinx)|(e & He & Hdx & Hde)].
      * left. apply kept_stmts_id. split; [|done]. rewrite Hb in Hb'. injection Hb' as <-.
        apply list_elem_of_fmap in Hin as (t & Ht & Hin). apply list_elem_of_split in Hin as (m1 & m2 & ->).
        rewrite Hl1 in Hl. rewrite <- app_assoc in Hl. simpl in Hl. rewrite <- Hl1 in Hl.
        destruct (split_unique func i b _ _ _ _ _ _ Hwf Hb Hl1 Hl Ht) as (-> & _ & _).
        rewrite map_app. apply elem_of_app. by left.
      * right. exists e. split_and!; [done|by apply defines_kept|].
        apply (same_graph_dominator func func'), Hde. apply same_graph_kept.
    + right. destruct Hx as [(b' & l1 & s & l2 & Hb' & Hl1 & Hs & Hinx)|(e & He & Hdx & Hde)].
      * exists d. split_and!; [done| |].
        -- apply defines_kept. split; [|done]. apply list_elem_of_fmap in Hinx as (t & -> & Ht).
           exists b', t. split_and!; [done| |done]. rewrite Hl1. apply elem_of_app. by left.
        -- apply (same_graph_dominator func func'), Hdom. apply same_graph_kept.
      * exists e. split_and!; [|by apply defines_kept|].
        -- intros ->. apply Hne. by eapply dominator_antisym.
        -- apply (same_graph_dominator func func'); [apply same_graph_kept|].
           by eapply dominator_trans.
  - destruct (Hk id eq_refl) as [Hkid|[w Hw']]; [|by rewrite Hw in Hw'].
    destruct Ho as [Hin|(d & Hne & Hdef & Hdom)].
    + left. by apply kept_stmts_id.
    + right. exists d. split_and!; [done|by apply defines_kept|].
      apply (same_graph_dominator func func'), Hdom. apply same_graph_kept.
Qed.

Lemma phi_operand_kept p v :
  reached_in func p -> (forall id, v = Def id -> keep id = true \/ is_Some (subst !! id)) ->
  phi_operand_ok func p v -> phi_operand_ok func' p (apply_value subst v).
Proof.
  intros Hr Hk Ho. destruct v as [id|k|lit]; simpl in *; [|done|done].
  destruct Ho as (d & Hdef & Hdom).
  assert (forall d id, defines func d id -> keep id = true -> dominator_in func d p ->
    exists d, defines func' d id /\ dominator_in func' d p) as Hup.
  { intros e y Hy Hky Hep. exists e. split; [by apply defines_kept|].
    apply (same_graph_dominator func func'), Hep. apply same_graph_kept. }
  destruct (subst !! id) as [w|] eqn:Hw; simpl.
  - assert (reached_in func d) as Hrd by by eapply reached_dominator.
    pose proof (rewrite_value Hok d id w Hrd Hdef Hw) as Hval.
    destruct w as [x|k|lit]; [|done|done]. destruct Hval as [Hkx Hx]. simpl.
    destruct Hx as [(b' & l1 & s & l2 & Hb' & Hl1 & Hs & Hinx)|(e & He & Hdx & Hde)].
    + apply (Hup d x); [|done|done]. apply list_elem_of_fmap in Hinx as (t & -> & Ht).
      exists b', t. split_and!; [done| |done]. rewrite Hl1. apply elem_of_app. by left.
    + apply (Hup e x); [done|done|by eapply dominator_trans].
  - destruct (Hk id eq_refl) as [Hkid|[w Hw']]; [|by rewrite Hw in Hw']. by apply (Hup d id).
Qed.

Lemma kept_block_lookup i b :
  block func' i = Some b -> exists b0, block func i = Some b0 /\ b = kept_block b0.
Proof. rewrite block_kept. intros (b0 & -> & Hb)%fmap_Some. by exists b0. Qed.

Lemma kept_ids_sublist :
  map stmt_id (fn_blocks func' ≫= stmts) `sublist_of` map stmt_id (fn_blocks func ≫= stmts).
Proof.
  simpl. induction (fn_blocks func) as [|b l IH]; [done|]. csimpl. rewrite !map_app.
  apply sublist_app; [|exact IH]. clear IH. simpl.
  induction (stmts b) as [|s k IH]; simpl; [done|].
  destruct (keep (stmt_id s)); simpl; [by apply sublist_skip|by apply sublist_cons].
Qed.

Lemma kept_prefix l : phi_prefix l -> phi_prefix (kept_stmts l).
Proof.
  intros (ps & rest & -> & Hps & Hr). exists (kept_stmts ps), (kept_stmts rest).
  split_and!; [apply kept_stmts_app|..]; apply Forall_forall; intros s Hs;
    apply kept_stmts_elem in Hs as (t & Ht & -> & _); unfold stmt_is_phi; simpl;
    rewrite is_phi_subst.
  - by eapply Forall_forall in Hps.
  - by eapply Forall_forall in Hr.
Qed.

Theorem rewrite_well_formed : well_formed func'.
Proof.
  pose proof same_graph_kept as Hg. constructor.
  - destruct (wf_entry _ Hwf) as (b & Hb & Hp). exists (kept_block b).
    split; [|done]. rewrite block_kept. simpl. by rewrite Hb.
  - intros i b (b0 & Hb & ->)%kept_block_lookup. by apply (wf_ids _ Hwf i b0).
  - intros i b t (b0 & Hb & ->)%kept_block_lookup Ht. simpl in Ht. rewrite targets_subst in Ht.
    rewrite block_kept. destruct (wf_targets _ Hwf i b0 t Hb Ht) as [b1 ->]. by eexists.
  - intros i b (b0 & Hb & ->)%kept_block_lookup. simpl. rewrite targets_subst.
    by apply (wf_succs _ Hwf i).
  - intros i b (b0 & Hb & ->)%kept_block_lookup. simpl. rewrite !length_map.
    rewrite (wf_preds _ Hwf i b0 Hb). apply list_filter_iff_elem. intros u _. symmetry.
    by apply (same_graph_edge func func').
  - eapply sublist_NoDup; [apply (wf_unique _ Hwf)|apply kept_ids_sublist].
  - intros i b (b0 & Hb & ->)%kept_block_lookup. by apply kept_prefix, (wf_prefix _ Hwf i).
  - intros i b s phi (b0 & Hb & ->)%kept_block_lookup Hs Hop.
    apply kept_stmts_elem in Hs as (t & Ht & -> & _).
    apply phi_subst in Hop as (phi0 & Hop & -> & ->). rewrite length_map.
    by apply (wf_phi _ Hwf i b0 t).
  - intros i b before s after v Hr (b0 & Hb & ->)%kept_block_lookup Hl Hv.
    apply (same_graph_reached func func') in Hr; [|done]. simpl in Hl.
    apply kept_stmts_split in Hl as (l1 & t & l2 & Hl & -> & -> & Hk).
    simpl in Hv. rewrite operands_subst in Hv. apply list_elem_of_fmap in Hv as (w & -> & Hw).
    eapply operand_kept; [done|done|exact Hl| |].
    + intros id ->. eapply (rewrite_stmt Hok); [done| |exact Hk|exact Hw]. rewrite Hl. set_solver.
    + by eapply (wf_operands _ Hwf).
  - intros i b v Hr (b0 & Hb & ->)%kept_block_lookup Hv.
    apply (same_graph_reached func func') in Hr; [|done]. simpl in Hv.
    rewrite term_operands_subst in Hv. apply list_elem_of_fmap in Hv as (w & -> & Hw). simpl.
    eapply operand_kept; [done|done|symmetry; apply app_nil_r| |].
    + intros id ->. by eapply (rewrite_term Hok).
    + by eapply (wf_terminator _ Hwf).
  - intros i b s phi p v Hr (b0 & Hb & ->)%kept_block_lookup Hs Hop Hin Hrp.
    apply (same_graph_reached func func') in Hr; [|done].
    apply (same_graph_reached func func') in Hrp; [|done].
    apply kept_stmts_elem in Hs as (t & Ht & -> & Hk).
    apply phi_subst in Hop as (phi0 & Hop & He & Hv). rewrite He, Hv in Hin.
    rewrite zip_with_fmap_r in Hin. apply list_elem_of_lookup in Hin as [k Hin].
    apply lookup_zip_with_Some in Hin as (q & ov & Heq & Hq & Hov).
    destruct ov as [w|]; [|done]. injection Heq as -> ->.
    assert ((q, Some w) ∈ zip (edges phi0) (values phi0)) as Hz.
    { apply list_elem_of_lookup. exists k. by apply lookup_zip_Some. }
    apply phi_operand_kept; [done| |by apply (wf_phi_values _ Hwf i b0 t phi0)].
    intros id ->. by eapply (rewrite_phi Hok).
Qed.
End Rewrite.
End Form.
