(* ===== verification/SsaDce.v ===== *)
(** * Dead definition elimination

    [eliminate_dead_defs]: the worklist ends, what it marks is what a root
    reads, directly or not, and deleting the rest keeps a function in SSA
    form. *)

From S2P Require Export SsaForm.

Section Dce.
Context {P : Payload} {D : Dispatch}.
Implicit Types func : SsaFunction.

(** ** The roots *)

(** A definition that has to stay: its operation is not removable, or a
    terminator reads it. *)
Definition root func (inputs : EffectInputs) (id : SsaValueId) : Prop :=
  exists b, b ∈ fn_blocks func /\
    ((exists s, s ∈ stmts b /\ stmt_id s = id /\
       is_removable (op_effects (stmt_op s) (effect_ctx func inputs)
         (shadowed_callee_names func (in_locally_bound inputs))) = false) \/
     Def id ∈ term_operands (terminator b)).

(** The set and the worklist have the same elements, those of [Q]. *)
Definition worklist_ok (state : gset SsaValueId * list SsaValueId) (Q : SsaValueId -> Prop) : Prop :=
  forall x, (x ∈ state.1 <-> Q x) /\ (x ∈ state.2 <-> Q x).

Lemma visit_ok state (Q : SsaValueId -> Prop) x :
  worklist_ok state Q -> worklist_ok (visit state x) (fun y => Q y \/ y = x).
Proof.
  destruct state as [seen stack]. intros H y. destruct (H y) as [H1 H2], (H x) as [H3 H4].
  simpl in *. case_bool_decide as Hx; simpl.
  - rewrite H1, H2. split; (split; [by left|intros [?| ->]; [done|by apply H3]]).
  - rewrite elem_of_union, elem_of_singleton, elem_of_cons, H1, H2. tauto.
Qed.

Lemma visit_all_ok state (Q : SsaValueId -> Prop) xs :
  worklist_ok state Q -> worklist_ok (foldl visit state xs) (fun y => Q y \/ y ∈ xs).
Proof.
  revert state Q. induction xs as [|x xs IH]; intros state Q H; simpl.
  - intros y. destruct (H y) as [H1 H2]. rewrite H1, H2. set_solver.
  - intros y. destruct (IH _ _ (visit_ok state Q x H) y) as [H1 H2]. rewrite H1, H2. set_solver.
Qed.

Lemma worklist_iff state (Q R : SsaValueId -> Prop) :
  (forall x, Q x <-> R x) -> worklist_ok state Q -> worklist_ok state R.
Proof. intros HQR H x. destruct (H x) as [H1 H2]. by rewrite H1, H2, HQR. Qed.

Lemma live_stmts_ok ctx shadowed state (Q : SsaValueId -> Prop) l :
  worklist_ok state Q ->
  worklist_ok (foldl (live_stmt ctx shadowed) state l) (fun y => Q y \/
    exists s, s ∈ l /\ stmt_id s = y /\ is_removable (op_effects (stmt_op s) ctx shadowed) = false).
Proof.
  revert state Q. induction l as [|s l IH]; intros state Q H; simpl.
  { eapply worklist_iff; [|exact H]. set_solver. }
  unfold live_stmt at 2. destruct (is_removable _) eqn:Hr.
  - eapply worklist_iff; [|apply IH, H]. intros x. split.
    + intros [?|(t & ? & ? & ?)]; [by left|right]. exists t. set_solver.
    + intros [?|(t & [->|?]%elem_of_cons & ? & ?)]; [by left|congruence|right]. by exists t.
  - eapply worklist_iff; [|apply IH, visit_ok, H]. intros x. split.
    + intros [[?| ->]|(t & ? & ? & ?)]; [by left|right; exists s; set_solver|right].
      exists t. set_solver.
    + intros [?|(t & [->|?]%elem_of_cons & ? & ?)]; [by left; left|by left; right|right].
      by exists t.
Qed.

Lemma term_defs id t : id ∈ omap value_def (term_operands t) <-> Def id ∈ term_operands t.
Proof.
  rewrite list_elem_of_omap. split; [|by intros H; exists (Def id)].
  by intros ([x| |] & Hx & [= ->]).
Qed.

Lemma live_roots_ok func inputs : worklist_ok (live_roots func inputs) (root func inputs).
Proof.
  unfold live_roots, root. set (ctx := effect_ctx func inputs).
  set (shadowed := shadowed_callee_names func (in_locally_bound inputs)).
  assert (forall bs state (Q : SsaValueId -> Prop), worklist_ok state Q ->
    worklist_ok (foldl (live_block ctx shadowed) state bs) (fun id => Q id \/
      exists b, b ∈ bs /\ ((exists s, s ∈ stmts b /\ stmt_id s = id /\
        is_removable (op_effects (stmt_op s) ctx shadowed) = false) \/
        Def id ∈ term_operands (terminator b)))) as H.
  { induction bs as [|b bs IH]; intros state Q H; cbn [foldl].
    - eapply worklist_iff; [|exact H]. set_solver.
    - unfold live_block at 2. eapply worklist_iff; [|apply IH, visit_all_ok, live_stmts_ok, H].
      intros x. cbn beta. rewrite term_defs. split.
      + intros [[[?|?]|?]|(b' & ? & ?)]; [by left|right; exists b; set_solver..|].
        right. exists b'. set_solver.
      + intros [?|(b' & [->|?]%elem_of_cons & ?)]; [by left; left; left|tauto|].
        right. by exists b'. }
  eapply worklist_iff; [|apply (H _ (∅, []) (fun _ => False))].
  - intros x. split; [by intros [[]|?]|by right].
  - intros x. simpl. set_solver.
Qed.

(** ** What is read *)

Lemma deps_lookup func id l :
  deps func !! id = Some l ->
  exists s, s ∈ all_stmts func /\ stmt_id s = id /\ l = operand_defs (stmt_op s).
Proof.
  unfold deps. induction (all_stmts func) as [|s k IH] using rev_ind; [done|].
  rewrite foldl_app. simpl. intros [[<- <-]|[_ H]]%lookup_insert_Some.
  - exists s. set_solver.
  - destruct (IH H) as (t & Ht & ? & ?). exists t. set_solver.
Qed.

Lemma deps_stmt func s :
  NoDup (map stmt_id (all_stmts func)) -> s ∈ all_stmts func ->
  deps func !! stmt_id s = Some (operand_defs (stmt_op s)).
Proof.
  unfold deps. induction (all_stmts func) as [|t k IH] using rev_ind; intros Hnd Hs.
  { by apply elem_of_nil in Hs. }
  rewrite map_app in Hnd. apply NoDup_app in Hnd as (Hnd & Hd & _).
  rewrite foldl_app. simpl. apply elem_of_app in Hs as [Hs| ->%list_elem_of_singleton].
  - rewrite lookup_insert_ne; [by apply IH|]. intros He. apply (Hd (stmt_id s)).
    + by apply list_elem_of_fmap_2.
    + simpl. rewrite He. left.
  - by rewrite lookup_insert_eq.
Qed.

Lemma size_list_to_set_le (l : list SsaValueId) : size (list_to_set l : gset nat) <= length l.
Proof.
  induction l as [|x l IH]; simpl; [done|].
  rewrite size_union_alt, size_singleton.
  pose proof (subseteq_size (list_to_set l ∖ {[x]} : gset nat) (list_to_set l) ltac:(set_solver)). lia.
Qed.

(** [id] reads [x]. *)
Definition reads func (id x : SsaValueId) : Prop := x ∈ dep_list func id.

Lemma live_defs_spec func inputs :
  exists live, live_defs func inputs = Some live /\
    forall id, id ∈ live <-> exists r, root func inputs r /\ rtc (reads func) r id.
Proof.
  unfold live_defs. pose proof (live_roots_ok func inputs) as Hroots.
  destruct (live_roots func inputs) as [live worklist]. simpl in Hroots.
  destruct (explore_total (dep_list func)
    (list_to_set (all_stmts func ≫= fun s => operand_defs (stmt_op s)))
    (live_fuel func worklist) live worklist) as [r Hr].
  - intros x y Hy. apply elem_of_list_to_set. unfold dep_list in Hy.
    destruct (deps func !! x) as [l|] eqn:Hl; [|by apply elem_of_nil in Hy].
    destruct (deps_lookup func x l Hl) as (s & Hs & _ & ->). apply list_elem_of_bind. by exists s.
  - unfold live_fuel. apply Nat.add_le_mono_l. etrans; [apply subseteq_size, subseteq_difference_l; reflexivity|].
    apply size_list_to_set_le.
  - exists r. split; [done|]. intros id.
    assert (forall x, x ∈ worklist -> x ∈ live) as Hsub by (intros x; by rewrite (proj1 (Hroots x)), (proj2 (Hroots x))).
    rewrite (explore_spec (dep_list func) live worklist Hsub _ _ id Hr).
    assert (forall u v, Worklist.edge (dep_list func) (live ∖ list_to_set worklist) u v <->
      reads func u v) as He.
    { intros u v. unfold Worklist.edge, reads. split; [by intros [_ ?]|]. intros Hv. split; [|done].
      rewrite elem_of_difference, elem_of_list_to_set, (proj1 (Hroots u)), (proj2 (Hroots u)). tauto. }
    assert (forall x y, rtc (Worklist.edge (dep_list func) (live ∖ list_to_set worklist)) x y <->
      rtc (reads func) x y) as Hrtc.
    { intros x y. split; (induction 1 as [|x z y Hz _ IH]; [constructor|]);
        (eapply rtc_l; [apply He in Hz; exact Hz || apply He; exact Hz|exact IH]). }
    split.
    + intros [H|(x & Hx & H)].
      * exists id. split; [by apply (proj1 (Hroots id))|constructor].
      * exists x. split; [by apply (proj2 (Hroots x))|by apply Hrtc].
    + intros (x & Hx & H). right. exists x. split; [by apply (proj2 (Hroots x))|by apply Hrtc].
Qed.

Lemma operand_defs_operand (op : SsaOp) id : Def id ∈ operands op -> id ∈ operand_defs op.
Proof.
  intros H. destruct op; try (by apply elem_of_nil in H);
    (apply list_elem_of_omap; by exists (Def id)).
Qed.

Lemma operand_defs_phi phi p id :
  (p, Some (Def id)) ∈ zip (edges phi) (values phi) -> id ∈ operand_defs (Phi phi).
Proof.
  intros H. apply elem_of_zip_r in H. apply list_elem_of_omap. exists (Def id). split; [|done].
  apply list_elem_of_omap. by exists (Some (Def id)).
Qed.

Lemma apply_empty func : apply_substitutions func ∅ = func.
Proof.
  unfold apply_substitutions, with_blocks. destruct func as [n ps e bs]. simpl. f_equal.
  assert (forall v, apply_value ∅ v = v) as Hv by by intros [].
  induction bs as [|[i l t p s] bs IH]; simpl; [done|]. f_equal; [|done].
  unfold subst_block. simpl. rewrite term_operands_mut_id by done. f_equal.
  induction l as [|[x op sp] l IHl]; simpl; [done|]. f_equal; [|done].
  unfold subst_stmt. simpl. by rewrite operands_mut_id.
Qed.

Lemma block_stmts func i b s : block func i = Some b -> s ∈ stmts b -> s ∈ all_stmts func.
Proof.
  intros Hb Hs. unfold all_stmts. apply list_elem_of_bind. exists b. split; [done|].
  by apply list_elem_of_lookup_2 in Hb.
Qed.

Lemma dce_rewrite_ok func inputs live :
  well_formed func -> live_defs func inputs = Some live ->
  rewrite_ok func ∅ (fun id => bool_decide (id ∈ live)).
Proof.
  intros Hwf Hl. destruct (live_defs_spec func inputs) as (l & Hl' & Hlive). simplify_eq.
  assert (forall i b s id, block func i = Some b -> s ∈ stmts b -> stmt_id s ∈ live ->
    id ∈ operand_defs (stmt_op s) -> id ∈ live) as Hclosed.
  { intros i b s id Hb Hs Hin Hid. apply Hlive in Hin as (r & Hr & Hp). apply Hlive.
    exists r. split; [done|]. eapply rtc_r; [exact Hp|]. unfold reads, dep_list.
    rewrite deps_stmt; [done|apply (wf_unique _ Hwf)|by eapply block_stmts]. }
  constructor.
  - intros d id v _ _ H. by rewrite lookup_empty in H.
  - intros i b s id Hb Hs Hk%bool_decide_eq_true Hid. left. apply bool_decide_eq_true.
    eapply Hclosed; [done..|by apply operand_defs_operand].
  - intros i b s phi p id Hb Hs Hk%bool_decide_eq_true Hop Hin. left. apply bool_decide_eq_true.
    eapply Hclosed; [done..|]. rewrite Hop. by eapply operand_defs_phi.
  - intros i b id Hb Hid. left. apply bool_decide_eq_true, Hlive. exists id.
    split; [|constructor]. exists b. split; [by apply list_elem_of_lookup_2 in Hb|by right].
Qed.

(** ** What is left *)

Definition kept_of (keep : SsaValueId -> bool) (b : SsaBlock) : SsaBlock :=
  with_stmts b (List.filter (fun s => keep (stmt_id s)) (stmts b)).

Lemma retain_length_list keep bs :
  length (map (kept_of keep) bs ≫= stmts) <= length (bs ≫= stmts).
Proof.
  induction bs as [|b l IH]; [done|]. csimpl. rewrite !length_app.
  pose proof (filter_length_le (fun s => keep (stmt_id s)) (stmts b)). simpl. lia.
Qed.

Lemma retain_length func keep :
  length (all_stmts (retain_stmts func keep)) <= length (all_stmts func).
Proof. apply retain_length_list. Qed.

Lemma filter_all {A} (f : A -> bool) l : length (List.filter f l) = length l -> List.filter f l = l.
Proof.
  induction l as [|x l IH]; simpl; [done|]. pose proof (filter_length_le f l) as Hle.
  destruct (f x); simpl; [intros [= He]; by rewrite IH|lia].
Qed.

Lemma retain_all_list keep bs :
  length (map (kept_of keep) bs ≫= stmts) = length (bs ≫= stmts) -> map (kept_of keep) bs = bs.
Proof.
  induction bs as [|b bs IH]; [done|]. csimpl. rewrite !length_app. intros H.
  pose proof (filter_length_le (fun s => keep (stmt_id s)) (stmts b)) as Hle.
  pose proof (retain_length_list keep bs) as Hle2. cbn [stmts kept_of with_stmts] in H.
  rewrite IH by lia. f_equal. unfold kept_of, with_stmts. rewrite filter_all by lia. by destruct b.
Qed.

Lemma retain_all func keep :
  length (all_stmts (retain_stmts func keep)) = length (all_stmts func) ->
  retain_stmts func keep = func.
Proof.
  intros H. change (with_blocks func (map (kept_of keep) (fn_blocks func)) = func).
  rewrite (retain_all_list keep (fn_blocks func) H). by destruct func.
Qed.

(** Blocks that branch as before count the same. *)
Lemma same_branches (f : SsaBlock -> SsaBlock) bs :
  (forall b, is_branch (terminator (f b)) = is_branch (terminator b)) ->
  length (List.filter (fun b => is_branch (terminator b)) (map f bs)) =
    length (List.filter (fun b => is_branch (terminator b)) bs).
Proof.
  intros Hf. induction bs as [|b bs IH]; [done|]. simpl. rewrite Hf.
  destruct (is_branch (terminator b)); simpl; by rewrite IH.
Qed.

Lemma retain_size func keep :
  length (all_stmts (retain_stmts func keep)) < length (all_stmts func) ->
  ssa_size (retain_stmts func keep) < ssa_size func.
Proof.
  intros H. unfold ssa_size. cbn [retain_stmts fn_blocks with_blocks].
  rewrite length_map, same_branches by done. lia.
Qed.

Lemma eliminate_dead_defs_run func inputs :
  well_formed func ->
  exists live,
    eliminate_dead_defs_scoped_inner func inputs =
      Some (negb (length (all_stmts (retain_stmts func (fun id => bool_decide (id ∈ live)))) =?
                  length (all_stmts func)),
            retain_stmts func (fun id => bool_decide (id ∈ live))) /\
    well_formed (retain_stmts func (fun id => bool_decide (id ∈ live))) /\
    forall id, id ∈ (live : gset SsaValueId) <->
      exists r, root func inputs r /\ rtc (reads func) r id.
Proof.
  intros Hwf. destruct (live_defs_spec func inputs) as (live & Hl & Hlive).
  exists live. unfold eliminate_dead_defs_scoped_inner. rewrite Hl. split_and!; [done| |done].
  rewrite <- (apply_empty func) at 1. apply rewrite_well_formed; [done|]. by eapply dce_rewrite_ok.
Qed.

Lemma eliminate_dead_defs_result func inputs :
  well_formed func ->
  exists changed func',
    eliminate_dead_defs_scoped_inner func inputs = Some (changed, func') /\ well_formed func' /\
    ((changed = false /\ func' = func) \/ (changed = true /\ ssa_size func' < ssa_size func)).
Proof.
  intros Hwf. destruct (eliminate_dead_defs_run func inputs Hwf) as (live & Hrun & Hwf' & _).
  eexists _, _. split; [exact Hrun|]. split; [done|].
  pose proof (retain_length func (fun id => bool_decide (id ∈ live))) as Hle.
  destruct (Nat.eqb_spec (length (all_stmts (retain_stmts func (fun id => bool_decide (id ∈ live)))))
    (length (all_stmts func))) as [He|He]; [left|right]; (split; [done|]).
  - by apply retain_all.
  - apply retain_size. lia.
Qed.

(** The pass ends, keeps a function in SSA form, and deletes exactly the
    statements that no root reads, directly or not; they are all removable. *)
Theorem eliminate_dead_defs_spec func inputs :
  well_formed func ->
  exists changed func',
    eliminate_dead_defs_scoped_inner func inputs = Some (changed, func') /\
    well_formed func' /\
    (changed = true -> length (all_stmts func') < length (all_stmts func)) /\
    (changed = false -> func' = func) /\
    length (fn_blocks func') = length (fn_blocks func) /\
    (forall s, s ∈ all_stmts func' <-> s ∈ all_stmts func /\
      exists r, root func inputs r /\ rtc (reads func) r (stmt_id s)) /\
    (forall s, s ∈ all_stmts func -> s ∉ all_stmts func' ->
      is_removable (op_effects (stmt_op s) (effect_ctx func inputs)
        (shadowed_callee_names func (in_locally_bound inputs))) = true).
Proof.
  intros Hwf. destruct (eliminate_dead_defs_run func inputs Hwf) as (live & Hrun & Hwf' & Hlive).
  assert (forall s, s ∈ all_stmts (retain_stmts func (fun id => bool_decide (id ∈ live))) <->
    s ∈ all_stmts func /\ stmt_id s ∈ live) as Hin.
  { intros s. unfold all_stmts. simpl. rewrite !list_elem_of_bind. split.
    - intros (b' & Hs & (b & -> & Hb)%list_elem_of_fmap). simpl in Hs.
      apply list_elem_of_In, filter_In in Hs as [Hs Hk]. apply bool_decide_eq_true in Hk.
      split; [|done]. exists b. by rewrite list_elem_of_In.
    - intros [(b & Hs & Hb) Hk]. eexists. split; [|by apply list_elem_of_fmap_2].
      simpl. apply list_elem_of_In, filter_In. split; [by rewrite <- list_elem_of_In|].
      by apply bool_decide_eq_true. }
  pose proof (retain_length func (fun id => bool_decide (id ∈ live))) as Hle.
  eexists _, _. split; [exact Hrun|]. split_and!; [exact Hwf'|..].
  - rewrite negb_true_iff, Nat.eqb_neq. lia.
  - rewrite negb_false_iff, Nat.eqb_eq. apply retain_all.
  - simpl. by rewrite length_map.
  - intros s. by rewrite Hin, Hlive.
  - intros s Hs Hns. destruct (is_removable _) eqn:Hr; [done|]. exfalso. apply Hns, Hin.
    split; [done|]. apply Hlive. exists (stmt_id s). split; [|constructor].
    unfold all_stmts in Hs. apply list_elem_of_bind in Hs as (b & Hs & Hb).
    exists b. split; [done|]. left. by exists s.
Qed.
End Dce.
