(* ===== verification/SsaFold.v ===== *)
(** * Constant folding

    [fold_constants] ends and keeps a function in SSA form: the value that a
    trivial phi stands for is available wherever the phi is, chains of
    substitutions are followed to their end, and dropping the edge that a
    constant branch does not take drops the phi entries that belong to it. *)

From S2P Require Export SsaDce.

Section Fold.
Context {P : Payload} {D : Dispatch}.
Implicit Types func : SsaFunction.

Abbreviation reached_in func := (reached (edge func) (fn_entry func)).
Abbreviation dominator_in func := (dominator (edge func) (fn_entry func)).

(** ** Trivial phis *)

Lemma value_eqb_def v x : value_eqb v (Def x) = true <-> v = Def x.
Proof.
  destruct v; simpl; [|done..]. rewrite Nat.eqb_eq. split; [by intros ->|by intros [= ->]].
Qed.

(** [w] counts as [v] for a phi: the same value, or equal constants. *)
Definition same_value (v w : SsaValue) : Prop :=
  v = w \/ exists a b, v = Const a /\ w = Const b /\ literal_eqb a b = true.

Lemma value_eqb_same v w : value_eqb v w = true -> same_value v w.
Proof.
  destruct v, w; simpl; try done; rewrite ?Nat.eqb_eq; try (by intros ->; left).
  intros H. right. eauto.
Qed.

Lemma trivial_phi_loop_spec id unique vs v :
  trivial_phi_loop id unique vs = Some v ->
  (forall w, unique = Some w -> w = v) /\
  forall ow, ow ∈ vs -> exists w, ow = Some w /\ (w = Def id \/ same_value v w).
Proof.
  revert unique. induction vs as [|[x|] vs IH]; intros unique; simpl; [| |done].
  { intros ->. split; [by intros w [= ->]|]. by intros w ?%elem_of_nil. }
  destruct (value_eqb x (Def id)) eqn:Hx.
  { apply value_eqb_def in Hx as ->. intros H. destruct (IH _ H) as [H1 H2].
    split; [done|]. intros ow [->|How]%elem_of_cons; [|by apply H2]. eauto. }
  destruct unique as [u|].
  - destruct (value_eqb u x) eqn:Hu; [|done]. intros H. destruct (IH _ H) as [H1 H2].
    split; [done|]. intros ow [->|How]%elem_of_cons; [|by apply H2].
    exists x. split; [done|right]. rewrite <- (H1 u eq_refl). by apply value_eqb_same.
  - intros H. destruct (IH _ H) as [H1 H2]. split; [done|].
    intros ow [->|How]%elem_of_cons; [|by apply H2].
    exists x. split; [done|right]. left. symmetry. by apply H1.
Qed.

(** The first arrival at [d] comes from a path that avoids it. *)
Lemma first_arrival func d l :
  path (edge func) (fn_entry func) d l -> d <> fn_entry func ->
  exists u k, path (edge func) (fn_entry func) u k /\ edge func u d /\ d ∉ k /\ k ⊆ l.
Proof.
  intros Hl Hd. induction l as [l IH] using (induction_ltof1 _ (@length nat)).
  inversion Hl as [|u v l' Hl' He]; subst; [done|].
  destruct (decide (d ∈ l')) as [Hin|Hin].
  - destruct (path_prefix _ _ d u l' Hl' Hin) as (k & Hk & Hs).
    destruct (IH k) as (u' & k' & H1 & H2 & H3 & H4).
    + unfold ltof. apply suffix_length in Hs. simpl. lia.
    + done.
    + exists u', k'. split_and!; [done..|]. etrans; [exact H4|].
      destruct Hs as [m ->]. set_solver.
  - exists u, l'. split_and!; [done..|]. set_solver.
Qed.

(** What a value needs so that it may stand for [id], which block [d] defines. *)
Definition available func (v : SsaValue) (d : BlockId) (id : SsaValueId) : Prop :=
  match v with
  | Const _ => True
  | Argument k => k < length (fn_params func)
  | Def x => defined_before func x d id
  end.

Lemma zip_lookup_l {A B} (xs : list A) (ys : list B) x :
  length ys = length xs -> x ∈ xs -> exists y, (x, y) ∈ zip xs ys.
Proof.
  intros Hl [i Hi]%list_elem_of_lookup. apply lookup_lt_Some in Hi as Hlt.
  destruct (lookup_lt_is_Some_2 ys i) as [y Hy]; [lia|]. exists y.
  apply list_elem_of_lookup. exists i. by apply lookup_zip_Some.
Qed.

Lemma phi_arrival func d b s phi v l :
  well_formed func -> block func d = Some b -> s ∈ stmts b -> stmt_op s = Phi phi ->
  trivial_phi_value (stmt_id s) phi = Some v -> path (edge func) (fn_entry func) d l ->
  exists u k w, path (edge func) (fn_entry func) u k /\ d ∉ k /\ k ⊆ l /\
    same_value v w /\ phi_operand_ok func u w.
Proof.
  intros Hwf Hb Hs Hop Hv Hl. destruct (wf_phi _ Hwf d b s phi Hb Hs Hop) as [He Hlen].
  destruct (trivial_phi_loop_spec _ _ _ _ Hv) as [_ Hall].
  assert (d <> fn_entry func) as Hd.
  { intros ->. destruct (wf_entry _ Hwf) as (e & Hbe & Hp). rewrite Hb in Hbe. injection Hbe as ->.
    unfold trivial_phi_value in Hv. destruct (values phi); [done|]. by rewrite Hp in Hlen. }
  destruct (first_arrival func d l Hl Hd) as (u & k & Hk & Hu & Hdk & Hsub).
  assert (u ∈ preds b) as Hup by by apply (pred_spec _ (well_formed_edges _ Hwf) d).
  destruct (zip_lookup_l (edges phi) (values phi) u) as [ow How]; [by rewrite He|by rewrite He|].
  destruct (Hall ow) as (w & -> & Hw); [by apply elem_of_zip_r in How|].
  assert (phi_operand_ok func u w) as Hok.
  { apply (wf_phi_values _ Hwf d b s phi u w); try done; by eexists. }
  exists u, k, w. split_and!; try done. destruct Hw as [->|]; [exfalso|done].
  destruct Hok as (d' & Hdef & Hdom).
  assert (defines func d (stmt_id s)) as Hdd by by exists b, s.
  rewrite (defines_unique func d' d _ Hwf Hdef Hdd) in Hdom. by apply Hdk, Hdom.
Qed.

Lemma phi_available func d b s phi v :
  well_formed func -> reached_in func d -> block func d = Some b -> s ∈ stmts b ->
  stmt_op s = Phi phi -> trivial_phi_value (stmt_id s) phi = Some v ->
  available func v d (stmt_id s).
Proof.
  intros Hwf [l Hl] Hb Hs Hop Hv.
  destruct v as [x|n|lit]; [| |done]; simpl.
  - destruct (phi_arrival func d b s phi _ l Hwf Hb Hs Hop Hv Hl)
      as (u & k & w & Hk & Hdk & Hsub & [<-|(a & c & ? & ?)] & Hok); [|done].
    destruct Hok as (e & Hdef & Hdom). right. exists e. split_and!; [|done|].
    + intros ->. by apply Hdk, Hdom.
    + intros m Hm. destruct (phi_arrival func d b s phi _ m Hwf Hb Hs Hop Hv Hm)
        as (u2 & k2 & w2 & Hk2 & Hdk2 & Hsub2 & [<-|(a & c & ? & ?)] & Hok2); [|done].
      destruct Hok2 as (e2 & Hdef2 & Hdom2). rewrite (defines_unique func e e2 x); try done.
      by apply Hsub2, Hdom2.
  - destruct (phi_arrival func d b s phi _ l Hwf Hb Hs Hop Hv Hl)
      as (u & k & w & Hk & Hdk & Hsub & [<-|(a & c & ? & ?)] & Hok); [|done]. done.
Qed.

(** ** The statements that fold *)

Lemma const_result_const v w : const_result v = Some w -> exists lit, w = Const lit.
Proof. destruct v; [|done]. intros [= <-]. by eexists. Qed.

Lemma fold_statement_cases id (op : SsaOp) effects v :
  fold_statement id op effects = Some v ->
  (exists lit, v = Const lit) \/ exists phi, op = Phi phi /\ trivial_phi_value id phi = Some v.
Proof.
  destruct op as [phi|uop [| |lit]|bop [| |l] [| |r]|[m|] fn args [|kw kws] sm km| | | | | |];
    simpl; try done.
  - right. eauto.
  - intros (x & _ & H)%bind_Some. left. by eapply const_result_const.
  - intros (x & _ & (y & _ & H)%bind_Some)%bind_Some. left. by eapply const_result_const.
  - case_match; [done|]. intros ([ctx sh] & _ & Hc)%bind_Some. case_match; [done|].
    apply bind_Some in Hc as (xs & _ & Hc). left. by eapply const_result_const.
Qed.

Lemma folded_defs_lookup func inputs id v :
  folded_defs func inputs !! id = Some v ->
  exists s, s ∈ all_stmts func /\ stmt_id s = id /\
    fold_statement id (stmt_op s) (fold_effects func inputs) = Some v.
Proof.
  unfold folded_defs. induction (all_stmts func) as [|s l IH] using rev_ind; [done|].
  rewrite foldl_app. cbn [foldl]. destruct (fold_statement (stmt_id s) _ _) as [w|] eqn:Hw.
  - intros [[<- <-]|[_ H]]%lookup_insert_Some; [exists s; set_solver|].
    destruct (IH H) as (t & ? & ? & ?). exists t. set_solver.
  - intros H. destruct (IH H) as (t & ? & ? & ?). exists t. set_solver.
Qed.

(** The substitution maps every definition to a value that is available where
    it is. *)
Definition subst_available func (subst : gmap SsaValueId SsaValue) : Prop :=
  forall id v d, subst !! id = Some v -> reached_in func d -> defines func d id ->
    available func v d id.

Lemma folded_available func inputs :
  well_formed func -> subst_available func (folded_defs func inputs).
Proof.
  intros Hwf id v d Hv Hr Hd. apply folded_defs_lookup in Hv as (s & Hs & <- & Hf).
  apply fold_statement_cases in Hf as [(lit & ->)|(phi & Hop & Ht)]; [done|].
  unfold all_stmts in Hs. apply list_elem_of_bind in Hs as (b & Hs & [i Hb]%list_elem_of_lookup).
  assert (defines func i (stmt_id s)) as Hi by by exists b, s.
  rewrite (defines_unique func d i _ Hwf Hd Hi) in *. by eapply phi_available.
Qed.

(** ** Resolution *)

Lemma defined_before_site func x d id :
  defined_before func x d id -> exists e, defines func e x /\ (e = d \/ dominator_in func e d).
Proof.
  intros [(b & l1 & s & l2 & Hb & Hl & _ & Hin)|(e & _ & Hdef & Hdom)]; [|by exists e; auto].
  exists d. split; [|by left]. apply list_elem_of_fmap in Hin as (t & -> & Ht).
  exists b, t. split_and!; [done| |done]. rewrite Hl. apply elem_of_app. by left.
Qed.

Lemma available_step func subst next v d id :
  well_formed func -> subst_available func subst -> subst !! next = Some v ->
  reached_in func d -> defined_before func next d id -> available func v d id.
Proof.
  intros Hwf Hs Hv Hr Hd. destruct (defined_before_site func next d id Hd) as (e & Hdef & Hor).
  assert (reached_in func e) as Hre by (destruct Hor as [->|?]; [done|by eapply reached_dominator]).
  pose proof (Hs next v e Hv Hre Hdef) as Ha. destruct v as [x|k|lit]; [|done|done].
  by eapply defined_before_trans.
Qed.

Lemma resolve_loop_total subst fuel seen v :
  size (dom subst ∖ seen : gset nat) <= fuel -> is_Some (resolve_loop subst fuel seen v).
Proof.
  revert seen v. induction fuel as [|fuel IH]; intros seen [next|k|lit] Hf; simpl; try by eexists.
  - destruct (subst !! next) as [w|] eqn:Hw; [|by eexists]. case_bool_decide as Hin; [by eexists|].
    exfalso. assert (next ∈ dom subst ∖ seen) as Hn.
    { apply elem_of_difference. split; [by apply elem_of_dom|done]. }
    assert (size (dom subst ∖ seen : gset nat) = 0) as H0%size_empty_inv by lia. set_solver.
  - destruct (subst !! next) as [w|] eqn:Hw; [|by eexists]. case_bool_decide as Hin; [by eexists|].
    apply IH. apply Nat.lt_succ_r. eapply Nat.lt_le_trans; [|exact Hf]. apply subset_size.
    assert (next ∈ dom subst) by by apply elem_of_dom. set_solver.
Qed.

Lemma resolve_loop_spec func subst id fuel seen v w :
  well_formed func -> subst_available func subst ->
  resolve_loop subst fuel seen v = Some (Some w) ->
  (forall x, w = Def x -> subst !! x = None) /\
  ((forall d, reached_in func d -> defines func d id -> available func v d id) ->
   forall d, reached_in func d -> defines func d id -> available func w d id).
Proof.
  intros Hwf Hs. revert seen v. induction fuel as [|fuel IH]; intros seen [next|k|lit]; simpl;
    try (by intros [= <-]; split; [by intros x|auto]).
  - destruct (subst !! next) as [nv|] eqn:Hn; [by case_bool_decide|]. intros [= <-].
    split; [by intros x [= ->]|auto].
  - destruct (subst !! next) as [nv|] eqn:Hn.
    + case_bool_decide; [done|]. intros Hrest. apply IH in Hrest as [H1 H2]. split; [done|].
      intros Hv. apply H2. intros d Hr Hd. eapply available_step; [done|exact Hs|done|done|].
      by apply (Hv d).
    + intros [= <-]. split; [by intros x [= ->]|auto].
Qed.

Lemma resolve_all_spec subst entries :
  (forall id v, (id, v) ∈ entries -> subst !! id = Some v) ->
  exists r, resolve_all subst entries = Some r /\
    forall id w, r !! id = Some w ->
      exists v, subst !! id = Some v /\ resolve_loop subst (size subst) {[id]} v = Some (Some w).
Proof.
  induction entries as [|[id v] entries IH]; intros He; simpl.
  { exists ∅. split; [done|]. intros id w H. by rewrite lookup_empty in H. }
  destruct (resolve_loop_total subst (size subst) {[id]} v) as [ow How].
  { rewrite <- size_dom. apply subseteq_size. set_solver. }
  rewrite How. simpl. destruct IH as (r & -> & Hr); [intros i x Hx; apply He; by right|]. simpl.
  eexists. split; [done|]. intros id' w. destruct ow as [x|]; [|by apply Hr].
  intros [[<- <-]|[_ H]]%lookup_insert_Some; [|by apply Hr].
  exists v. split; [apply He; left|done].
Qed.

Lemma resolve_substitutions_spec func subst :
  well_formed func -> subst_available func subst ->
  exists r, resolve_substitutions subst = Some r /\ subst_available func r /\
    (forall id, is_Some (r !! id) -> is_Some (subst !! id)) /\
    forall id x, r !! id = Some (Def x) -> r !! x = None.
Proof.
  intros Hwf Hs. destruct (resolve_all_spec subst (map_to_list subst)) as (r & Hr & Hl).
  { intros id v. apply elem_of_map_to_list. }
  assert (forall id, is_Some (r !! id) -> is_Some (subst !! id)) as Hsub.
  { intros id [w Hw]. destruct (Hl id w Hw) as (v & -> & _). by eexists. }
  exists r. split_and!; [done| |done|].
  - intros id w d Hw Hrd Hd. destruct (Hl id w Hw) as (v & Hv & Hres).
    destruct (resolve_loop_spec func subst id _ _ _ _ Hwf Hs Hres) as [_ H].
    apply H; [|done|done]. intros e He Hde. by apply (Hs id v e).
  - intros id x Hx. destruct (Hl id _ Hx) as (v & Hv & Hres).
    destruct (resolve_loop_spec func subst id _ _ _ _ Hwf Hs Hres) as [H _].
    destruct (r !! x) as [w|] eqn:Hw; [|done]. exfalso.
    destruct (Hsub x) as [y Hy]; [by eexists|]. by rewrite (H x eq_refl) in Hy.
Qed.

(** Substituting what resolution gives and deleting the substituted definitions
    keeps a function in SSA form. *)
Lemma substitution_rewrite_ok func r :
  subst_available func r -> (forall id x, r !! id = Some (Def x) -> r !! x = None) ->
  rewrite_ok func r (not_in r).
Proof.
  intros Ha Hflat.
  assert (forall id, not_in r id = true \/ is_Some (r !! id)) as Hor.
  { intros id. unfold not_in. destruct (r !! id); [right; by eexists|left; done]. }
  constructor; auto. intros d id v Hr Hd Hv. pose proof (Ha id v d Hv Hr Hd) as H.
  destruct v as [x|k|lit]; [|done|done]. split; [|done]. unfold not_in.
  by rewrite (Hflat id x Hv).
Qed.

Lemma substitution_well_formed func r :
  well_formed func -> subst_available func r ->
  (forall id x, r !! id = Some (Def x) -> r !! x = None) ->
  well_formed (retain_stmts (apply_substitutions func r) (not_in r)).
Proof. intros Hwf Ha Hflat. by apply rewrite_well_formed, substitution_rewrite_ok. Qed.
End Fold.
