(* ===== verification/SsaBranches.v ===== *)
(** * Constant branches

    [fold_constant_branches] does not panic and keeps a function in SSA form,
    and with it [fold_constants]: every turn of its loop makes the function
    smaller, so that the loop ends. *)

From S2P Require Export SsaFold.

(** ** Deleting at a position *)

Lemma position_spec (x : nat) l i :
  NoDup l -> position x l = Some i -> l !! i = Some x /\ delete i l = filter (fun y => y <> x) l.
Proof.
  revert i. induction l as [|y l IH]; intros i Hnd; simpl; [done|].
  apply NoDup_cons in Hnd as [Hni Hnd]. rewrite filter_cons.
  destruct (Nat.eqb_spec y x) as [->|Hne].
  - intros [= <-]. split; [done|]. simpl. rewrite decide_False by tauto. symmetry.
    clear IH. induction l as [|z l IH]; [done|]. rewrite filter_cons, decide_True.
    + f_equal. apply IH; [set_solver|]. by apply NoDup_cons in Hnd as [_ ?].
    + set_solver.
  - intros (j & Hj & ->)%fmap_Some. destruct (IH j Hnd Hj) as [H1 H2].
    split; [done|]. simpl. rewrite decide_True by done. by rewrite <- H2.
Qed.

Lemma position_elem (x : nat) l : x ∈ l -> is_Some (position x l).
Proof.
  induction l as [|y l IH]; simpl; [by intros ?%elem_of_nil|].
  destruct (Nat.eqb_spec y x) as [->|Hne]; [by eexists|].
  intros [->|H]%elem_of_cons; [done|]. destruct (IH H) as [i ->]. by eexists.
Qed.

Lemma vec_remove_in {A} i (l : list A) : i < length l -> vec_remove i l = Some (delete i l).
Proof. intros H. unfold vec_remove. apply Nat.ltb_lt in H. by rewrite H. Qed.

Lemma zip_delete {A B} i (xs : list A) (ys : list B) :
  zip (delete i xs) (delete i ys) = delete i (zip xs ys).
Proof.
  revert i ys. induction xs as [|x xs IH]; intros [|i] [|y ys]; simpl; try done.
  - by destruct xs.
  - f_equal. apply IH.
Qed.

Lemma delete_elem {A} i (l : list A) x : x ∈ delete i l -> x ∈ l.
Proof.
  intros H. eapply elem_of_sublist; [exact H|apply sublist_delete].
Qed.

Section Branches.
Context {P : Payload} {D : Dispatch}.
Implicit Types func : SsaFunction.

Abbreviation reached_in func := (reached (edge func) (fn_entry func)).
Abbreviation dominator_in func := (dominator (edge func) (fn_entry func)).

(** ** Fewer edges *)

(** [s'] is [s], but that the entries of a phi are among those of [s] and belong
    to the predecessors [ps]. *)
Definition pruned_stmt (ps : list BlockId) (s s' : SsaStatement) : Prop :=
  stmt_id s' = stmt_id s /\
  match stmt_op s with
  | Phi phi => exists phi', stmt_op s' = Phi phi' /\ edges phi' = ps /\
      length (values phi') = length ps /\
      forall e, e ∈ zip (edges phi') (values phi') -> e ∈ zip (edges phi) (values phi)
  | _ => stmt_op s' = stmt_op s
  end.

Record pruned_block (b b' : SsaBlock) : Prop := {
  pruned_id : blk_id b' = blk_id b;
  pruned_stmts : Forall2 (pruned_stmt (preds b')) (stmts b) (stmts b');
  pruned_term v : v ∈ term_operands (terminator b') -> v ∈ term_operands (terminator b);
  pruned_targets t : t ∈ targets (terminator b') -> t ∈ targets (terminator b);
  pruned_succs : succs b' = targets (terminator b')
}.

Lemma pruned_ids ps l l' :
  Forall2 (pruned_stmt ps) l l' -> map stmt_id l' = map stmt_id l.
Proof. induction 1 as [|s s' l l' [H _] _ IH]; simpl; [done|]. by rewrite H, IH. Qed.

Lemma pruned_phi ps s s' : pruned_stmt ps s s' -> is_phi (stmt_op s') = is_phi (stmt_op s).
Proof.
  intros [_ H]. destruct (stmt_op s) as [phi| | | | | | | | |]; try by rewrite H.
  by destruct H as (phi' & -> & _).
Qed.

Lemma pruned_split ps l before s' after :
  Forall2 (pruned_stmt ps) l (before ++ s' :: after) ->
  exists l1 s l2, l = l1 ++ s :: l2 /\ Forall2 (pruned_stmt ps) l1 before /\ pruned_stmt ps s s'.
Proof.
  intros H. apply Forall2_app_inv_r in H as (l1 & l2 & H1 & H2 & ->).
  apply Forall2_cons_inv_r in H2 as (s & l3 & Hs & _ & ->). eauto 10.
Qed.

Lemma pruned_prefix ps l l' : Forall2 (pruned_stmt ps) l l' -> phi_prefix l -> phi_prefix l'.
Proof.
  intros H (qs & rest & -> & Hq & Hr). apply Forall2_app_inv_l in H as (l1 & l2 & H1 & H2 & ->).
  exists l1, l2. split_and!; [done|..]; unfold stmt_is_phi in *.
  - clear -H1 Hq. induction H1 as [|s s' l l' Hs _ IH]; [constructor|].
    apply Forall_cons in Hq as [Hq1 Hq2]. constructor; [by rewrite (pruned_phi _ _ _ Hs)|auto].
  - clear -H2 Hr. induction H2 as [|s s' l l' Hs _ IH]; [constructor|].
    apply Forall_cons in Hr as [Hq1 Hq2]. constructor; [by rewrite (pruned_phi _ _ _ Hs)|auto].
Qed.

Lemma pruned_all_ids bs bs' :
  Forall2 pruned_block bs bs' -> map stmt_id (bs' ≫= stmts) = map stmt_id (bs ≫= stmts).
Proof.
  induction 1 as [|b b' l l' Hb _ IH]; [done|]. csimpl.
  rewrite !map_app, IH. f_equal. eapply pruned_ids, pruned_stmts, Hb.
Qed.

Section Fewer.
Variable func func' : SsaFunction.
Hypothesis Hwf : well_formed func.
Hypothesis Hentry : fn_entry func' = fn_entry func.
Hypothesis Hparams : fn_params func' = fn_params func.
Hypothesis Hblocks : Forall2 pruned_block (fn_blocks func) (fn_blocks func').
Hypothesis Hpreds : forall i b, block func' i = Some b ->
  preds b = filter (fun u => edge func' u i) (seq 0 (length (fn_blocks func'))).

Lemma fewer_block i b' :
  block func' i = Some b' -> exists b, block func i = Some b /\ pruned_block b b'.
Proof. apply Forall2_lookup_r. exact Hblocks. Qed.

Lemma fewer_edge u v : edge func' u v -> edge func u v.
Proof.
  unfold edge, block_succs. destruct (block func' u) as [b'|] eqn:Hb'; [|by intros ?%elem_of_nil].
  destruct (fewer_block u b' Hb') as (b & Hb & [_ _ _ Ht Hs]).
  rewrite Hb, Hs, (wf_succs _ Hwf u b Hb). apply Ht.
Qed.

Lemma fewer_reached v : reached_in func' v -> reached_in func v.
Proof.
  intros [l Hl]. exists l. rewrite Hentry in Hl. eapply path_mono; [apply fewer_edge|done].
Qed.

Lemma fewer_dominator d v : dominator_in func d v -> dominator_in func' d v.
Proof. rewrite Hentry. apply dominator_mono, fewer_edge. Qed.

Lemma fewer_defines d id : defines func d id -> defines func' d id.
Proof.
  intros (b & s & Hb & Hs & <-). destruct (Forall2_lookup_l _ _ _ _ _ Hblocks Hb) as (b' & Hb' & Hp).
  assert (stmt_id s ∈ map stmt_id (stmts b')) as Hin.
  { rewrite (pruned_ids _ _ _ (pruned_stmts _ _ Hp)). by apply list_elem_of_fmap_2. }
  apply list_elem_of_fmap in Hin as (s' & He & Hs'). by exists b', s'.
Qed.

Lemma fewer_operand ps before before' i v :
  Forall2 (pruned_stmt ps) before before' -> operand_ok func before i v ->
  operand_ok func' before' i v.
Proof.
  intros H. destruct v as [id|k|lit]; simpl; [|by rewrite Hparams|done].
  rewrite (pruned_ids _ _ _ H). intros [Hin|(d & Hd & Hdef & Hdom)]; [by left|right].
  exists d. split_and!; [done|by apply fewer_defines|by apply fewer_dominator].
Qed.

Lemma fewer_phi_operand p v : phi_operand_ok func p v -> phi_operand_ok func' p v.
Proof.
  destruct v as [id|k|lit]; simpl; [|by rewrite Hparams|done].
  intros (d & Hdef & Hdom). exists d. split; [by apply fewer_defines|by apply fewer_dominator].
Qed.

Theorem fewer_edges_well_formed : well_formed func'.
Proof.
  constructor.
  - destruct (wf_entry _ Hwf) as (b & Hb & Hp).
    destruct (Forall2_lookup_l _ _ _ _ _ Hblocks Hb) as (b' & Hb' & Hpr).
    exists b'. rewrite Hentry. split; [done|]. rewrite (Hpreds _ _ Hb').
    destruct (filter _ _) as [|u l] eqn:Hf; [done|]. exfalso.
    assert (u ∈ u :: l) as Hu by left. rewrite <- Hf in Hu.
    apply list_elem_of_filter in Hu as [Hu _]. apply fewer_edge in Hu.
    apply (pred_spec _ (well_formed_edges _ Hwf) _ b u Hb) in Hu. rewrite Hp in Hu.
    by apply elem_of_nil in Hu.
  - intros i b' Hb'. destruct (fewer_block i b' Hb') as (b & Hb & Hp). rewrite (pruned_id _ _ Hp).
    by apply (wf_ids _ Hwf).
  - intros i b' t Hb' Ht. destruct (fewer_block i b' Hb') as (b & Hb & Hp).
    destruct (wf_targets _ Hwf i b t Hb (pruned_targets _ _ Hp t Ht)) as [x Hx].
    destruct (Forall2_lookup_l _ _ _ _ _ Hblocks Hx) as (x' & Hx' & _). by exists x'.
  - intros i b' Hb'. destruct (fewer_block i b' Hb') as (b & Hb & Hp). by apply pruned_succs in Hp.
  - exact Hpreds.
  - rewrite (pruned_all_ids _ _ Hblocks). apply (wf_unique _ Hwf).
  - intros i b' Hb'. destruct (fewer_block i b' Hb') as (b & Hb & Hp).
    eapply pruned_prefix; [apply (pruned_stmts _ _ Hp)|by apply (wf_prefix _ Hwf i)].
  - intros i b' s' phi Hb' Hs' Hop. destruct (fewer_block i b' Hb') as (b & Hb & Hp).
    apply list_elem_of_lookup in Hs' as [k Hk].
    destruct (Forall2_lookup_r _ _ _ _ _ (pruned_stmts _ _ Hp) Hk) as (s & Hs & Hps).
    pose proof (pruned_phi _ _ _ Hps) as Hphi. destruct Hps as [_ Hps]. rewrite Hop in Hphi.
    destruct (stmt_op s); try done. destruct Hps as (phi' & Hop' & He & Hl & _).
    rewrite Hop in Hop'. by injection Hop' as ->.
  - intros i b' before s' after v Hr Hb' Hl Hv. destruct (fewer_block i b' Hb') as (b & Hb & Hp).
    pose proof (pruned_stmts _ _ Hp) as Hst. rewrite Hl in Hst.
    apply pruned_split in Hst as (l1 & s & l2 & Hsp & Hbef & Hps).
    eapply fewer_operand; [exact Hbef|].
    eapply (wf_operands _ Hwf i b l1 s l2); [by apply fewer_reached|done|done|].
    destruct Hps as [_ Hps]. destruct (stmt_op s) as [phi| | | | | | | | |]; try by rewrite <- Hps.
    destruct Hps as (phi' & Hop & _). rewrite Hop in Hv. by apply elem_of_nil in Hv.
  - intros i b' v Hr Hb' Hv. destruct (fewer_block i b' Hb') as (b & Hb & Hp).
    eapply fewer_operand; [apply (pruned_stmts _ _ Hp)|].
    eapply (wf_terminator _ Hwf i); [by apply fewer_reached|done|by apply (pruned_term _ _ Hp)].
  - intros i b' s' phi p v Hr Hb' Hs' Hop Hin Hrp.
    destruct (fewer_block i b' Hb') as (b & Hb & Hp).
    apply list_elem_of_lookup in Hs' as [k Hk].
    destruct (Forall2_lookup_r _ _ _ _ _ (pruned_stmts _ _ Hp) Hk) as (s & Hs & Hps).
    pose proof (pruned_phi _ _ _ Hps) as Hphi. destruct Hps as [_ Hps]. rewrite Hop in Hphi.
    destruct (stmt_op s) as [phi0| | | | | | | | |] eqn:Hop0; try done.
    destruct Hps as (phi' & Hop' & _ & _ & Hz). rewrite Hop in Hop'. injection Hop' as <-.
    apply fewer_phi_operand.
    apply (wf_phi_values _ Hwf i b s phi0 p v); [by apply fewer_reached|done|
      by apply list_elem_of_lookup_2 in Hs|done|by apply Hz|by apply fewer_reached].
Qed.
End Fewer.

(** ** Dropping one edge *)

(** A phi without its entry at position [k]. *)
Definition drop_entry (k : nat) (s : SsaStatement) : SsaStatement :=
  match stmt_op s with
  | Phi phi =>
      {| stmt_id := stmt_id s;
         stmt_op := Phi {| edges := delete k (edges phi); values := delete k (values phi) |};
         stmt_span := stmt_span s |}
  | _ => s
  end.

Lemma drop_entry_other k s : is_phi (stmt_op s) = false -> drop_entry k s = s.
Proof. unfold drop_entry. by destruct (stmt_op s). Qed.

Lemma remove_phi_entries_spec k l :
  phi_prefix l ->
  (forall s phi, s ∈ l -> stmt_op s = Phi phi -> k < length (edges phi) /\ k < length (values phi)) ->
  remove_phi_entries k l = Some (map (drop_entry k) l).
Proof.
  intros (ps & rest & -> & Hps & Hr) Hk. induction ps as [|s ps IH]; simpl.
  - clear Hk Hps. assert (map (drop_entry k) rest = rest) as Hm.
    { induction Hr as [|s l Hs _ IH]; simpl; [done|]. by rewrite IH, drop_entry_other. }
    rewrite Hm. destruct Hr as [|s l Hs _]; [done|]. simpl. by destruct (stmt_op s).
  - apply Forall_cons in Hps as [Hs Hps]. unfold drop_entry at 1.
    destruct (stmt_op s) as [phi| | | | | | | | |] eqn:Hop; try (unfold stmt_is_phi in Hs; by rewrite Hop in Hs).
    destruct (Hk s phi) as [H1 H2]; [left|done|]. rewrite !vec_remove_in by done. simpl.
    rewrite IH; [done|done|]. intros t phi' Ht. apply Hk. by right.
Qed.

Definition drop_pred (from : BlockId) (b : SsaBlock) : SsaBlock :=
  match position from (preds b) with
  | None => b
  | Some k => {| blk_id := blk_id b; stmts := map (drop_entry k) (stmts b);
                 terminator := terminator b; preds := delete k (preds b); succs := succs b |}
  end.

(** What a block of a function in SSA form looks like by itself. *)
Record shape_ok (b : SsaBlock) : Prop := {
  shape_nodup : NoDup (preds b);
  shape_prefix : phi_prefix (stmts b);
  shape_phi s phi : s ∈ stmts b -> stmt_op s = Phi phi ->
    edges phi = preds b /\ length (values phi) = length (preds b)
}.

Lemma well_formed_shape func i b : well_formed func -> block func i = Some b -> shape_ok b.
Proof.
  intros Hwf Hb. constructor.
  - rewrite (wf_preds _ Hwf i b Hb). apply NoDup_filter, NoDup_seq.
  - by apply (wf_prefix _ Hwf i).
  - intros s phi. by apply (wf_phi _ Hwf i).
Qed.

Lemma remove_block_edge_spec from b :
  shape_ok b -> remove_block_edge from b = Some (drop_pred from b).
Proof.
  intros [Hnd Hpre Hphi]. unfold remove_block_edge, drop_pred.
  destruct (position from (preds b)) as [k|] eqn:Hp; [|done].
  destruct (position_spec from _ k Hnd Hp) as [Hk _]. apply lookup_lt_Some in Hk.
  rewrite remove_phi_entries_spec; [done|done|].
  intros s phi Hs Hop. destruct (Hphi s phi Hs Hop) as [-> ->]. done.
Qed.

Lemma drop_pred_preds from b :
  NoDup (preds b) -> preds (drop_pred from b) = filter (fun u => u <> from) (preds b).
Proof.
  intros Hnd. unfold drop_pred. destruct (position from (preds b)) as [k|] eqn:Hp; simpl.
  - by apply position_spec.
  - symmetry. assert (from ∉ preds b) as Hn.
    { intros Hin. apply position_elem in Hin as [k Hk]. by rewrite Hk in Hp. }
    clear Hp Hnd. induction (preds b) as [|u l IH]; [done|].
    rewrite filter_cons, decide_True by set_solver. f_equal. apply IH. set_solver.
Qed.

Lemma pruned_refl ps (l : list SsaStatement) :
  (forall s phi, s ∈ l -> stmt_op s = Phi phi -> edges phi = ps /\ length (values phi) = length ps) ->
  Forall2 (pruned_stmt ps) l l.
Proof.
  intros H. apply Forall2_same_length_lookup_2; [done|]. intros i s s' Hs Hs'. simplify_eq.
  split; [done|]. destruct (stmt_op s) as [phi| | | | | | | | |] eqn:Hop; try done.
  destruct (H s phi) as [H1 H2]; [by apply list_elem_of_lookup_2 in Hs|done|].
  exists phi. by split_and!.
Qed.

Lemma drop_pred_stmts from b :
  shape_ok b -> Forall2 (pruned_stmt (preds (drop_pred from b))) (stmts b) (stmts (drop_pred from b)).
Proof.
  intros [Hnd Hpre Hphi]. unfold drop_pred. destruct (position from (preds b)) as [k|] eqn:Hp; simpl.
  2: by apply pruned_refl.
  destruct (position_spec from _ k Hnd Hp) as [Hk _]. apply lookup_lt_Some in Hk.
  apply Forall2_fmap_r, Forall_Forall2_diag, Forall_forall. intros s Hs. unfold pruned_stmt, drop_entry.
  destruct (stmt_op s) as [phi| | | | | | | | |] eqn:Hop; simpl; rewrite ?Hop; try done.
  split; [reflexivity|]. destruct (Hphi s phi Hs Hop) as [He Hv]. eexists. split; [done|]. simpl.
  split_and!.
  - by rewrite He.
  - rewrite !length_delete; [lia|apply lookup_lt_is_Some; lia..].
  - intros e. rewrite zip_delete. apply delete_elem.
Qed.
(** ** One constant branch *)

Section Branch.
Variable func : SsaFunction.
Variable i taken dropped : BlockId.
Variable b : SsaBlock.
Hypothesis Hwf : well_formed func.
Hypothesis Hb : block func i = Some b.
Hypothesis Hbranch : folded_branch (terminator b) = Some (taken, dropped).

(** The block at [j] afterwards. *)
Definition jump_block (j : BlockId) (x : SsaBlock) : SsaBlock :=
  if Nat.eqb j i then
    {| blk_id := blk_id x; stmts := stmts x; terminator := Jump taken;
       preds := preds x; succs := [taken] |}
  else x.

Definition branched_block (j : BlockId) (x : SsaBlock) : SsaBlock :=
  if negb (Nat.eqb dropped taken) && Nat.eqb j dropped then drop_pred i (jump_block j x)
  else jump_block j x.

Lemma branch_targets t : t ∈ targets (terminator b) <-> t = taken \/ t = dropped.
Proof.
  destruct (terminator b) as [|c x y|]; try done. simpl in *.
  destruct c as [| |[]]; try done. injection Hbranch as Ht. subst.
  destruct (Nat.eqb_spec x y) as [->|Hne].
  - destruct b0; injection Ht as <- <-; set_solver.
  - destruct b0; injection Ht as <- <-; set_solver.
Qed.

Lemma jump_shape j x : block func j = Some x -> shape_ok (jump_block j x).
Proof.
  intros Hx. pose proof (well_formed_shape func j x Hwf Hx) as [H1 H2 H3].
  unfold jump_block. destruct (Nat.eqb j i); by constructor.
Qed.

Lemma jump_lookup j : block (set_jump func i b taken) j = jump_block j <$> block func j.
Proof.
  unfold block, set_jump, jump_block in *. simpl. destruct (Nat.eqb_spec j i) as [->|Hne].
  - rewrite list_lookup_insert_eq by (by eapply lookup_lt_Some). by rewrite Hb.
  - rewrite list_lookup_insert_ne by done. by destruct (fn_blocks func !! j).
Qed.

Lemma branch_result :
  exists func', (if Nat.eqb dropped taken then Some (set_jump func i b taken)
                 else remove_edge (set_jump func i b taken) (blk_id b) dropped) = Some func' /\
    fn_entry func' = fn_entry func /\ fn_params func' = fn_params func /\
    forall j, block func' j = branched_block j <$> block func j.
Proof.
  unfold branched_block. destruct (Nat.eqb_spec dropped taken) as [Heq|Hne]; simpl.
  { eexists. split_and!; [done|done|done|]. intros j. by rewrite jump_lookup. }
  destruct (wf_targets _ Hwf i b dropped Hb) as [x Hx]; [apply branch_targets; by right|].
  unfold remove_edge. rewrite jump_lookup, Hx. simpl.
  rewrite remove_block_edge_spec by by apply jump_shape. simpl.
  eexists. split_and!; [done|done|done|]. intros j.
  unfold block at 1. simpl. destruct (Nat.eqb_spec j dropped) as [->|Hj].
  - rewrite list_lookup_insert_eq; [by rewrite Hx, (wf_ids _ Hwf i b Hb)|].
    rewrite length_insert. by eapply lookup_lt_Some.
  - rewrite list_lookup_insert_ne by done. apply jump_lookup.
Qed.

Lemma branched_pruned j x :
  block func j = Some x -> pruned_block x (branched_block j x).
Proof.
  intros Hx. assert (terminator (branched_block j x) = terminator (jump_block j x) /\
    succs (branched_block j x) = succs (jump_block j x) /\
    blk_id (branched_block j x) = blk_id (jump_block j x)) as (Ht & Hs & Hi).
  { unfold branched_block, drop_pred. by repeat case_match. }
  constructor.
  - rewrite Hi. unfold jump_block. by case_match.
  - assert (stmts x = stmts (jump_block j x)) as -> by (unfold jump_block; by case_match).
    pose proof (jump_shape j x Hx) as Hsh. unfold branched_block. destruct (_ && _).
    + by apply drop_pred_stmts.
    + apply pruned_refl. intros s phi. by apply shape_phi.
  - intros v. rewrite Ht. unfold jump_block. case_match; [by intros ?%elem_of_nil|done].
  - intros t. rewrite Ht. unfold jump_block. destruct (Nat.eqb_spec j i) as [->|]; [|done].
    simpl. rewrite Hb in Hx. injection Hx as <-. intros ->%list_elem_of_singleton.
    apply branch_targets. by left.
  - rewrite Hs, Ht. unfold jump_block. case_match; [done|]. by apply (wf_succs _ Hwf j).
Qed.

(** The edges that are left. *)
Lemma branched_edge func' u v :
  (forall j, block func' j = branched_block j <$> block func j) ->
  edge func' u v <-> edge func u v /\ (u = i -> v = taken).
Proof.
  intros Hf. unfold edge, block_succs. rewrite Hf. destruct (block func u) as [x|] eqn:Hx; simpl.
  2: { split; [by intros ?%elem_of_nil|by intros [?%elem_of_nil _]]. }
  assert (succs (branched_block u x) = succs (jump_block u x)) as ->.
  { unfold branched_block, drop_pred. by repeat case_match. }
  unfold jump_block. destruct (Nat.eqb_spec u i) as [->|Hne]; simpl; [|tauto].
  rewrite Hb in Hx. injection Hx as <-. rewrite (wf_succs _ Hwf i b Hb), branch_targets.
  rewrite list_elem_of_singleton. tauto.
Qed.

Lemma branched_preds func' :
  (forall j, block func' j = branched_block j <$> block func j) ->
  length (fn_blocks func') = length (fn_blocks func) ->
  forall j x', block func' j = Some x' ->
    preds x' = filter (fun u => edge func' u j) (seq 0 (length (fn_blocks func'))).
Proof.
  intros Hf Hlen j x' Hx'. rewrite Hf in Hx'. apply fmap_Some in Hx' as (x & Hx & ->).
  rewrite Hlen.
  assert (preds (jump_block j x) = filter (fun u => edge func u j)
    (seq 0 (length (fn_blocks func)))) as Hp.
  { rewrite <- (wf_preds _ Hwf j x Hx). unfold jump_block. by case_match. }
  unfold branched_block. destruct (Nat.eqb_spec dropped taken) as [Heq|Hne]; simpl.
  - rewrite Hp. apply list_filter_iff_elem. intros u _. rewrite (branched_edge func') by done.
    split; [|tauto]. intros He. split; [done|]. intros ->.
    unfold edge, block_succs in He. rewrite Hb, (wf_succs _ Hwf i b Hb) in He.
    apply branch_targets in He as [?|?]; congruence.
  - destruct (Nat.eqb_spec j dropped) as [->|Hj].
    + rewrite drop_pred_preds, Hp by (rewrite Hp; apply NoDup_filter, NoDup_seq).
      rewrite list_filter_filter. apply list_filter_iff_elem. intros u _.
      rewrite (branched_edge func') by done. split.
      * intros [Hu He]. split; [done|]. by intros ->.
      * intros [He Hu]. split; [|done]. intros ->. by apply Hne, Hu.
    + rewrite Hp. apply list_filter_iff_elem. intros u _. rewrite (branched_edge func') by done.
      split; [|tauto]. intros He. split; [done|]. intros ->.
      unfold edge, block_succs in He. rewrite Hb, (wf_succs _ Hwf i b Hb) in He.
      apply branch_targets in He as [?|?]; congruence.
Qed.

Lemma branched_blocks func' :
  (forall j, block func' j = branched_block j <$> block func j) ->
  fn_blocks func' = imap branched_block (fn_blocks func).
Proof. intros Hf. apply list_eq. intros j. rewrite list_lookup_imap. apply Hf. Qed.

Lemma branch_well_formed func' :
  fn_entry func' = fn_entry func -> fn_params func' = fn_params func ->
  (forall j, block func' j = branched_block j <$> block func j) -> well_formed func'.
Proof.
  intros He Hp Hf. pose proof (branched_blocks func' Hf) as Hbl.
  assert (length (fn_blocks func') = length (fn_blocks func)) as Hlen by by rewrite Hbl, length_imap.
  apply (fewer_edges_well_formed func func'); try done.
  - apply Forall2_same_length_lookup_2; [done|]. intros j x x' Hx Hx'.
    fold (block func j) in Hx. fold (block func' j) in Hx'. rewrite Hf, Hx in Hx'.
    injection Hx' as <-. by apply branched_pruned.
  - by apply branched_preds.
Qed.

(** The branch is gone, the statements are as many as before. *)
Lemma branch_size func' :
  (forall j, block func' j = branched_block j <$> block func j) -> ssa_size func' < ssa_size func.
Proof.
  intros Hf. pose proof (branched_blocks func' Hf) as Hbl.
  assert (length (fn_blocks func') = length (fn_blocks func)) as Hlen by by rewrite Hbl, length_imap.
  assert (length (all_stmts func') = length (all_stmts func)) as Hst.
  { rewrite <- (length_map stmt_id (all_stmts func')), <- (length_map stmt_id (all_stmts func)).
    f_equal. apply pruned_all_ids. apply Forall2_same_length_lookup_2; [done|].
    intros j x x' Hx Hx'. fold (block func j) in Hx. fold (block func' j) in Hx'.
    rewrite Hf, Hx in Hx'. injection Hx' as <-. by apply branched_pruned. }
  unfold ssa_size. rewrite Hlen, Hst. apply Nat.add_lt_mono_l.
  apply list_elem_of_split_length in Hb as Hs. destruct Hs as (l1 & l2 & Hl & Hi).
  assert (forall j x, is_branch (terminator (branched_block j x)) =
    if Nat.eqb j i then false else is_branch (terminator x)) as Hterm.
  { intros j x. unfold branched_block, drop_pred, jump_block. by repeat case_match. }
  assert (forall l k, (forall n, n < length l -> k + n <> i) ->
    length (List.filter (fun b => is_branch (terminator b)) (imap (fun n => branched_block (k + n)) l)) =
    length (List.filter (fun b => is_branch (terminator b)) l)) as Hsame.
  { induction l as [|x l IH]; intros k Hk; simpl; [done|]. rewrite Hterm, Nat.add_0_r.
    destruct (Nat.eqb_spec k i) as [->|_]; [by destruct (Hk 0); [simpl; lia|lia]|].
    assert (length (List.filter (fun b => is_branch (terminator b))
      (imap ((fun n => branched_block (k + n)) ∘ S) l)) =
      length (List.filter (fun b => is_branch (terminator b)) l)) as Hr.
    { rewrite <- (IH (S k)).
      - do 2 f_equal. apply imap_ext. intros n y _. simpl. f_equal. lia.
      - intros n Hn. specialize (Hk (S n)). simpl in Hk. lia. }
    destruct (is_branch (terminator x)); simpl; by rewrite Hr. }
  rewrite Hbl, Hl, imap_app, !List.filter_app, !length_app.
  pose proof (Hsame l1 0) as H1. simpl in H1.
  change (imap (fun n => branched_block n) l1) with (imap branched_block l1) in H1.
  rewrite H1 by (intros n Hn; lia). apply Nat.add_lt_mono_l. simpl.
  rewrite Hterm. replace (length l1 + 0) with i by lia. rewrite Nat.eqb_refl.
  assert (is_branch (terminator b) = true) as Hbr.
  { destruct (terminator b); try done. }
  rewrite Hbr. simpl. apply Nat.lt_succ_r. apply Nat.eq_le_incl.
  rewrite <- (Hsame l2 (S i)) by (intros n _; lia). do 2 f_equal. apply imap_ext.
  intros n y _. simpl. f_equal. lia.
Qed.
End Branch.

(** ** The loops *)

Lemma fold_branches_loop_spec func changed indices :
  well_formed func -> (forall j, j ∈ indices -> j < length (fn_blocks func)) ->
  exists changed' func',
    fold_branches_loop func changed indices = Some (changed', func') /\ well_formed func' /\
    ((changed' = changed /\ func' = func) \/ (changed' = true /\ ssa_size func' < ssa_size func)).
Proof.
  revert func changed. induction indices as [|j indices IH]; intros func changed Hwf Hlt; simpl.
  { exists changed, func. auto. }
  destruct (lookup_lt_is_Some_2 (fn_blocks func) j) as [b Hb]; [apply Hlt; left|].
  fold (block func j) in Hb. rewrite Hb. simpl.
  destruct (folded_branch (terminator b)) as [[taken dropped]|] eqn:Hbr.
  - destruct (branch_result func j taken dropped b Hwf Hb Hbr) as (func1 & -> & He & Hp & Hf). simpl.
    pose proof (branch_well_formed func j taken dropped b Hwf Hb Hbr func1 He Hp Hf) as Hwf1.
    pose proof (branch_size func j taken dropped b Hwf Hb Hbr func1 Hf) as Hsz.
    destruct (IH func1 true Hwf1) as (c & f & Hr & Hwf2 & Hor).
    { intros k Hk. rewrite (branched_blocks _ _ _ _ func1 Hf), length_imap.
      apply Hlt. by right. }
    exists c, f. split_and!; [done|done|right].
    destruct Hor as [[-> ->]|[-> ?]]; split; (done || lia).
  - apply IH; [done|]. intros k Hk. apply Hlt. by right.
Qed.

Lemma fold_constant_branches_spec func :
  well_formed func ->
  exists changed func',
    fold_constant_branches func = Some (changed, func') /\ well_formed func' /\
    ((changed = false /\ func' = func) \/ (changed = true /\ ssa_size func' < ssa_size func)).
Proof.
  intros Hwf. apply fold_branches_loop_spec; [done|]. intros j Hj%elem_of_seq. lia.
Qed.

Lemma subst_size func r id :
  id ∈ map stmt_id (all_stmts func) -> is_Some (r !! id) ->
  ssa_size (retain_stmts (apply_substitutions func r) (not_in r)) < ssa_size func.
Proof.
  intros Hid [v Hv]. unfold ssa_size.
  assert (all_stmts (apply_substitutions func r) = map (subst_stmt r) (all_stmts func)) as Hst.
  { unfold all_stmts. simpl. induction (fn_blocks func) as [|b l IH]; [done|]. csimpl.
    by rewrite map_app, IH. }
  pose proof (retain_length (apply_substitutions func r) (not_in r)) as Hle.
  assert (length (all_stmts (apply_substitutions func r)) = length (all_stmts func)) as Hlen.
  { by rewrite Hst, length_map. }
  assert (length (all_stmts (retain_stmts (apply_substitutions func r) (not_in r))) <>
    length (all_stmts (apply_substitutions func r))) as Hne.
  { intros He. pose proof (retain_all _ _ He) as Hall.
    assert (id ∈ map stmt_id (all_stmts (apply_substitutions func r))) as Hin.
    { rewrite Hst, map_map. exact Hid. }
    rewrite <- Hall in Hin. apply list_elem_of_fmap in Hin as (s & -> & Hs).
    unfold all_stmts in Hs. simpl in Hs. apply list_elem_of_bind in Hs as (b' & Hs & Hb').
    apply list_elem_of_fmap in Hb' as (b & -> & Hb). simpl in Hs.
    apply list_elem_of_In, filter_In in Hs as [_ Hk]. unfold not_in in Hk. by rewrite Hv in Hk. }
  cbn [retain_stmts apply_substitutions fn_blocks with_blocks]. rewrite !length_map.
  rewrite !same_branches; [lia|intros b; simpl; by destruct (terminator b)..].
Qed.

Lemma fold_turn_spec func inputs :
  well_formed func ->
  exists changed func',
    fold_turn func inputs = Some (changed, func') /\ well_formed func' /\
    ((changed = false /\ func' = func) \/ (changed = true /\ ssa_size func' < ssa_size func)).
Proof.
  intros Hwf. unfold fold_turn. pose proof (folded_available func inputs Hwf) as Ha.
  destruct (resolve_substitutions_spec func _ Hwf Ha) as (r & -> & Har & Hsub & Hflat).
  cbn [mbind option_bind]. case_bool_decide as Hr; simpl.
  - destruct (fold_constant_branches_spec func Hwf) as (c & f & -> & Hwf' & Hor). simpl.
    exists c, f. auto.
  - pose proof (substitution_well_formed func r Hwf Har Hflat) as Hwf1.
    destruct (fold_constant_branches_spec _ Hwf1) as (c & f & -> & Hwf' & Hor). simpl.
    exists true, f. split_and!; [done|done|right]. split; [done|].
    apply map_choose in Hr as (id & v & Hv).
    destruct (Hsub id) as [w Hw]; [by eexists|].
    apply folded_defs_lookup in Hw as (s & Hs & <- & _).
    pose proof (subst_size func r (stmt_id s)) as Hsz.
    destruct Hor as [[-> ->]|[-> Hlt]];
      [|etrans; [exact Hlt|]]; apply Hsz; (by eexists) || by apply list_elem_of_fmap_2.
Qed.

Lemma fold_loop_spec fuel func inputs changed :
  well_formed func -> ssa_size func <= fuel ->
  exists changed' func',
    fold_loop fuel func inputs changed = Some (changed', func') /\ well_formed func' /\
    ((changed' = changed /\ func' = func) \/ (changed' = true /\ ssa_size func' < ssa_size func)).
Proof.
  revert func changed. induction fuel as [|fuel IH]; intros func changed Hwf Hf; simpl;
    destruct (fold_turn_spec func inputs Hwf) as (c & f & -> & Hwf' & [[-> ->]|[-> Hlt]]); simpl;
    try (exists changed, func; by auto); [lia|].
  destruct (IH f true Hwf') as (c & f2 & -> & Hwf2 & Hor); [lia|].
  exists c, f2. split_and!; [done|done|right].
  destruct Hor as [[-> ->]|[-> ?]]; split; (done || lia).
Qed.

(** C29. Constant folding ends, does not panic and keeps a function in SSA form; it
    makes the function smaller or leaves it as it is. *)
Theorem fold_constants_spec func inputs :
  well_formed func ->
  exists changed func',
    fold_constants_inner func inputs = Some (changed, func') /\ well_formed func' /\
    ((changed = false /\ func' = func) \/ (changed = true /\ ssa_size func' < ssa_size func)).
Proof. intros Hwf. by apply fold_loop_spec. Qed.
End Branches.
