(* ===== verification/SsaUnreachable.v ===== *)
(** * Unreachable blocks

    [eliminate_unreachable_blocks] does not panic and keeps a function in SSA
    form: the blocks that are left are those that a path from the entry leads
    to, renumbered in order, with the edges and phi entries from deleted blocks
    gone. *)

From S2P Require Export SsaBranches.

(** ** Ranks *)

Section Rank.
Variable order : list nat.
Hypothesis Hnodup : NoDup order.

Definition rank (v : nat) : nat := default 0 (position v order).

Lemma position_Some v k : position v order = Some k <-> order !! k = Some v.
Proof.
  split; [by apply position_spec|]. intros Hk.
  destruct (position_elem v order) as [j Hj]; [by apply list_elem_of_lookup_2 in Hk|].
  destruct (position_spec v order j Hnodup Hj) as [Hj' _].
  rewrite Hj. f_equal. by eapply NoDup_lookup.
Qed.

Lemma rank_lookup v k : order !! k = Some v -> rank v = k.
Proof. intros Hk%position_Some. unfold rank. by rewrite Hk. Qed.

Lemma rank_spec v : v ∈ order -> order !! rank v = Some v.
Proof. intros [k Hk]%list_elem_of_lookup. by rewrite (rank_lookup v k Hk). Qed.

Lemma rank_position v : v ∈ order -> position v order = Some (rank v).
Proof. intros Hv. by apply position_Some, rank_spec. Qed.

Lemma rank_inj u v : u ∈ order -> v ∈ order -> rank u = rank v -> u = v.
Proof. intros Hu%rank_spec Hv%rank_spec He. rewrite He in Hu. congruence. Qed.
End Rank.

Lemma map_rank_filter (order : list nat) (Q : nat -> Prop) `{!forall v, Decision (Q v)}
    (R : nat -> Prop) `{!forall k, Decision (R k)} :
  NoDup order -> (forall k v, order !! k = Some v -> R k <-> Q v) ->
  map (rank order) (filter Q order) = filter R (seq 0 (length order)).
Proof.
  intros Hnd HR. assert (forall l k, NoDup l -> order = take k order ++ l -> k <= length order ->
    map (rank order) (filter Q l) = filter R (seq k (length l))) as Hgen.
  { induction l as [|v l IH]; intros k Hndl Ho Hk; [done|]. cbn [length seq]. rewrite !filter_cons.
    assert (order !! k = Some v) as Hv.
    { rewrite Ho, lookup_app_r; rewrite length_take_le by done; [|done]. by rewrite Nat.sub_diag. }
    assert (map (rank order) (filter Q l) = filter R (seq (S k) (length l))) as Hr.
    { apply IH; [by apply NoDup_cons in Hndl as [_ ?]| |by apply lookup_lt_Some in Hv].
      rewrite (take_S_r _ _ _ Hv), <- app_assoc. exact Ho. }
    destruct (HR k v Hv) as [H1 H2]. repeat case_decide; try tauto. simpl. rewrite Hr.
    f_equal. by apply rank_lookup. }
  apply (Hgen order 0); [done|done|lia].
Qed.

Lemma mapM_all {A B} (f : A -> option B) (g : A -> B) l :
  (forall x, x ∈ l -> f x = Some (g x)) -> mapM f l = Some (map g l).
Proof.
  induction l as [|x l IH]; intros H; simpl; [done|].
  rewrite (H x) by left. simpl. rewrite IH; [done|]. intros y Hy. apply H. by right.
Qed.

Lemma map_filter_commute {A B} (f : A -> B) (p : B -> bool) l :
  map f (List.filter (fun x => p (f x)) l) = List.filter p (map f l).
Proof. induction l as [|x l IH]; simpl; [done|]. destruct (p (f x)); simpl; by rewrite IH. Qed.

Section Unreachable.
Context {P : Payload} {D : Dispatch}.

(** ** Dropping several predecessors *)

Lemma pruned_trans ps ps' s s1 s2 : pruned_stmt ps s s1 -> pruned_stmt ps' s1 s2 -> pruned_stmt ps' s s2.
Proof.
  intros [Hi1 H1] [Hi2 H2]. split; [congruence|].
  destruct (stmt_op s) as [phi| | | | | | | | |]; try (rewrite H1 in H2; by rewrite H2).
  destruct H1 as (phi1 & Hop & He & Hl & Hz). rewrite Hop in H2.
  destruct H2 as (phi2 & Hop2 & He2 & Hl2 & Hz2). exists phi2. split_and!; try done.
  intros e He'. by apply Hz, Hz2.
Qed.

Lemma drop_pred_shape from b : shape_ok b -> shape_ok (drop_pred from b).
Proof.
  intros Hsh. pose proof (drop_pred_stmts from b Hsh) as Hst. pose proof Hsh as [H1 H2 H3]. constructor.
  - rewrite drop_pred_preds by done. by apply NoDup_filter.
  - by eapply pruned_prefix.
  - intros s' phi [k Hk]%list_elem_of_lookup Hop.
    destruct (Forall2_lookup_r _ _ _ _ _ Hst Hk) as (s & Hs & Hps).
    pose proof (pruned_phi _ _ _ Hps) as Hphi. destruct Hps as [_ Hps]. rewrite Hop in Hphi.
    destruct (stmt_op s); try done. destruct Hps as (phi' & Hop' & He & Hl & _).
    rewrite Hop in Hop'. by injection Hop' as ->.
Qed.

Definition drop_preds (froms : list BlockId) (b : SsaBlock) : SsaBlock :=
  foldl (fun b from => drop_pred from b) b froms.

Record dropped (b b' : SsaBlock) (Q : BlockId -> Prop) `{!forall u, Decision (Q u)} : Prop := {
  drop_id : blk_id b' = blk_id b;
  drop_term : terminator b' = terminator b;
  drop_succs : succs b' = succs b;
  drop_preds_eq : preds b' = filter Q (preds b);
  drop_stmts : Forall2 (pruned_stmt (preds b')) (stmts b) (stmts b');
  drop_shape : shape_ok b'
}.

Lemma drop_pred_dropped from b : shape_ok b -> dropped b (drop_pred from b) (fun u => u <> from).
Proof.
  intros Hsh. constructor; [..|by apply drop_pred_preds, shape_nodup|by apply drop_pred_stmts|
    by apply drop_pred_shape]; unfold drop_pred; by case_match.
Qed.

Lemma drop_preds_dropped froms b : shape_ok b -> dropped b (drop_preds froms b) (fun u => u ∉ froms).
Proof.
  revert b. induction froms as [|from froms IH]; intros b Hsh.
  - constructor; try done; simpl.
    + symmetry. clear. induction (preds b) as [|u l IH]; [done|].
      rewrite filter_cons, decide_True by apply not_elem_of_nil. by rewrite IH.
    + apply pruned_refl. intros s phi. by apply shape_phi.
  - simpl. destruct (drop_pred_dropped from b Hsh) as [H1 H2 H3 H4 H5 H6].
    destruct (IH (drop_pred from b) H6) as [K1 K2 K3 K4 K5 K6]. constructor; try congruence; try done.
    + rewrite K4, H4, list_filter_filter. apply list_filter_iff_elem. intros u _. set_solver.
    + apply Forall2_same_length_lookup_2.
      { apply Forall2_length in H5, K5. congruence. }
      intros i s s' Hs Hs'. destruct (Forall2_lookup_l _ _ _ _ _ H5 Hs) as (t & Ht & Hst).
      destruct (Forall2_lookup_l _ _ _ _ _ K5 Ht) as (t' & Ht' & Htt). simplify_eq.
      by eapply pruned_trans.
Qed.

Lemma remove_edges_spec func froms to b :
  block func to = Some b -> shape_ok b ->
  exists func', remove_edges func froms to = Some func' /\
    fn_entry func' = fn_entry func /\ fn_params func' = fn_params func /\
    fn_blocks func' = <[to := drop_preds froms b]> (fn_blocks func).
Proof.
  revert func b. induction froms as [|from froms IH]; intros func b Hb Hsh; simpl.
  { exists func. split_and!; try done. by rewrite list_insert_id. }
  unfold remove_edge. rewrite Hb. simpl. rewrite remove_block_edge_spec by done. simpl.
  destruct (IH (with_blocks func (<[to := drop_pred from b]> (fn_blocks func))) (drop_pred from b))
    as (f & -> & H1 & H2 & H3).
  - unfold block. simpl. apply list_lookup_insert_eq. by eapply lookup_lt_Some.
  - by apply drop_pred_shape.
  - exists f. split_and!; try done. rewrite H3. simpl. by rewrite list_insert_insert_eq.
Qed.

Lemma filter_full {A} (Q : A -> Prop) `{!forall x, Decision (Q x)} l :
  length (filter Q l) = length l -> filter Q l = l.
Proof.
  induction l as [|x l IH]; [done|]. rewrite filter_cons. pose proof (length_filter Q l).
  case_decide; simpl; [intros [= ?]; by rewrite IH|lia].
Qed.

(** [func'] has the reachable blocks of [func], in their order: the same edges
    between them and the same definitions. *)
Record renumbered (func func' : SsaFunction) (reachable : gset BlockId) : Prop := {
  renumbered_length : length (fn_blocks func') =
    length (filter (fun v => v ∈ reachable) (seq 0 (length (fn_blocks func))));
  renumbered_entry :
    filter (fun v => v ∈ reachable) (seq 0 (length (fn_blocks func))) !! fn_entry func' =
      Some (fn_entry func);
  renumbered_edge k l : edge func' k l <-> exists u v,
    filter (fun v => v ∈ reachable) (seq 0 (length (fn_blocks func))) !! k = Some u /\
    filter (fun v => v ∈ reachable) (seq 0 (length (fn_blocks func))) !! l = Some v /\
    edge func u v;
  renumbered_ids k v :
    filter (fun v => v ∈ reachable) (seq 0 (length (fn_blocks func))) !! k = Some v ->
    (map stmt_id ∘ stmts) <$> block func' k = (map stmt_id ∘ stmts) <$> block func v
}.

Section Eliminate.
Variable func : SsaFunction.
Variable reachable : gset BlockId.
Hypothesis Hwf : well_formed func.
Hypothesis Hreach : forall v, v ∈ reachable <-> reached (edge func) (fn_entry func) v.

Abbreviation n := (length (fn_blocks func)).

Lemma reachable_block v : v ∈ reachable -> is_Some (block func v).
Proof.
  intros Hv. apply Hreach in Hv as [l Hl]. pose proof (well_formed_edges _ Hwf) as Hok.
  destruct Hl as [|u v l _ He]; [by apply Hok|by eapply succ_exists].
Qed.

Lemma reachable_lt v : v ∈ reachable -> v < n.
Proof. intros [b Hb]%reachable_block. by eapply lookup_lt_Some. Qed.

Lemma reachable_edge u v : u ∈ reachable -> edge func u v -> v ∈ reachable.
Proof. rewrite !Hreach. intros Hu He. by eapply reached_step. Qed.

(** ** The pruned blocks *)

Definition dead_preds (b : SsaBlock) : list BlockId :=
  List.filter (fun p => negb (bool_decide (p ∈ reachable))) (preds b).

Definition pruned_at (j : BlockId) (b : SsaBlock) : SsaBlock :=
  if bool_decide (j ∈ reachable) then drop_preds (dead_preds b) b else b.

Lemma prune_loop_spec indices :
  NoDup indices -> (forall j, j ∈ indices -> j < n) ->
  forall func1, fn_entry func1 = fn_entry func -> fn_params func1 = fn_params func ->
  (forall j, j ∈ indices -> block func1 j = block func j) ->
  exists func2, prune_loop func1 reachable indices = Some func2 /\
    fn_entry func2 = fn_entry func /\ fn_params func2 = fn_params func /\
    forall j, block func2 j = if decide (j ∈ indices) then pruned_at j <$> block func j
                              else block func1 j.
Proof.
  induction indices as [|i indices IH]; intros Hnd Hlt func1 He Hp Hsame; simpl.
  { exists func1. split_and!; try done. }
  apply NoDup_cons in Hnd as [Hni Hnd].
  destruct (lookup_lt_is_Some_2 (fn_blocks func) i) as [b Hb]; [apply Hlt; left|].
  fold (block func i) in Hb. rewrite Hsame, Hb by left. simpl. rewrite (wf_ids _ Hwf i b Hb).
  assert (exists func2, (if bool_decide (i ∈ reachable)
      then remove_edges func1 (dead_preds b) i else Some func1) = Some func2 /\
    fn_entry func2 = fn_entry func /\ fn_params func2 = fn_params func /\
    forall j, block func2 j = if decide (j = i) then Some (pruned_at i b) else block func1 j)
    as (func2 & Hf2 & He2 & Hp2 & Hb2).
  { unfold pruned_at. case_bool_decide as Hi.
    - destruct (remove_edges_spec func1 (dead_preds b) i b) as (f & Hf & H1 & H2 & H3);
        [by rewrite Hsame by left|by eapply well_formed_shape|].
      exists f. split_and!; [done|congruence|congruence|]. intros j. unfold block. rewrite H3.
      destruct (decide (j = i)) as [->|Hj].
      + apply list_lookup_insert_eq.
        assert (block func1 i = Some b) as Hb1 by (by rewrite Hsame by left).
        by eapply lookup_lt_Some.
      + by rewrite list_lookup_insert_ne.
    - exists func1. split_and!; try done. intros j. destruct (decide (j = i)) as [->|Hj]; [|done].
      by rewrite Hsame by left. }
  unfold dead_preds in Hf2. rewrite Hf2. simpl.
  destruct (IH Hnd) with (func1 := func2) as (func3 & Hf3 & He3 & Hp3 & Hb3).
  - intros j Hj. apply Hlt. by right.
  - done.
  - done.
  - intros j Hj. rewrite Hb2, decide_False by (by intros ->). apply Hsame. by right.
  - exists func3. split_and!; try done. intros j. rewrite Hb3.
    destruct (decide (j ∈ indices)) as [Hj|Hj].
    + by rewrite decide_True by (by right).
    + rewrite Hb2. destruct (decide (j = i)) as [->|Hji].
      * rewrite decide_True by left. by rewrite Hb.
      * rewrite decide_False; [done|]. set_solver.
Qed.

Lemma pruned_dropped j b :
  block func j = Some b -> j ∈ reachable ->
  dropped b (pruned_at j b) (fun u => u ∈ reachable).
Proof.
  intros Hb Hj. unfold pruned_at. rewrite bool_decide_eq_true_2 by done.
  destruct (drop_preds_dropped (dead_preds b) b) as [H1 H2 H3 H4 H5 H6];
    [by eapply well_formed_shape|]. constructor; try done. rewrite H4.
  apply list_filter_iff_elem. intros u Hu. unfold dead_preds.
  rewrite list_elem_of_In, filter_In, <- list_elem_of_In.
  destruct (decide (u ∈ reachable)) as [Hr|Hr].
  - rewrite bool_decide_eq_true_2 by done. simpl. split; [done|]. by intros _ [_ ?].
  - rewrite bool_decide_eq_false_2 by done. simpl. split; [tauto|done].
Qed.

(** ** The order *)

Definition order : list BlockId := merge_sort le (elements reachable).

Lemma order_elem v : v ∈ order <-> v ∈ reachable.
Proof. unfold order. by rewrite merge_sort_Permutation, elem_of_elements. Qed.

Lemma order_NoDup : NoDup order.
Proof. unfold order. rewrite merge_sort_Permutation. apply NoDup_elements. Qed.

Lemma order_filter : order = filter (fun v => v ∈ reachable) (seq 0 n).
Proof.
  apply (StronglySorted_unique le).
  - apply StronglySorted_merge_sort; [intros ? ? ?; lia|intros ? ?; lia].
  - assert (forall k m, StronglySorted le (filter (fun v => v ∈ reachable) (seq k m))) as H.
    { intros k m. revert k. induction m as [|m IH]; intros k; [constructor|]. cbn [seq].
      rewrite filter_cons. case_decide; [|apply IH]. constructor; [apply IH|].
      apply Forall_forall. intros x [_ Hx%elem_of_seq]%list_elem_of_filter. lia. }
    apply H.
  - apply NoDup_Permutation; [apply order_NoDup|apply NoDup_filter, NoDup_seq|].
    intros v. rewrite order_elem, list_elem_of_filter, elem_of_seq. split; [|tauto].
    intros Hv. split; [done|]. pose proof (reachable_lt v Hv). lia.
Qed.

Lemma order_length : length order = size reachable.
Proof. unfold order. by rewrite merge_sort_Permutation. Qed.

Abbreviation rk := (rank order).

Lemma remap_rank v : v ∈ reachable -> remap reachable v = Some (rk v).
Proof. intros Hv. apply (rank_position order order_NoDup). by apply order_elem. Qed.

Lemma rk_inj u v : u ∈ reachable -> v ∈ reachable -> rk u = rk v -> u = v.
Proof.
  intros Hu Hv. apply (rank_inj order order_NoDup); by apply order_elem.
Qed.

(** ** Renumbering *)

Definition rank_stmt (s : SsaStatement) : SsaStatement :=
  match stmt_op s with
  | Phi phi => {| stmt_id := stmt_id s;
                  stmt_op := Phi {| edges := map rk (edges phi); values := values phi |};
                  stmt_span := stmt_span s |}
  | _ => s
  end.

Definition rank_term (t : Terminator) : Terminator :=
  match t with
  | Jump target => Jump (rk target)
  | Branch c t e => Branch c (rk t) (rk e)
  | Return v => Return v
  end.

Definition rank_block (b : SsaBlock) : SsaBlock :=
  {| blk_id := rk (blk_id b); stmts := map rank_stmt (stmts b);
     terminator := rank_term (terminator b); preds := map rk (preds b);
     succs := map rk (succs b) |}.

Lemma rank_stmt_id s : stmt_id (rank_stmt s) = stmt_id s.
Proof. unfold rank_stmt. by destruct (stmt_op s). Qed.

Lemma rank_ids l : map stmt_id (map rank_stmt l) = map stmt_id l.
Proof. rewrite map_map. apply map_ext, rank_stmt_id. Qed.

Lemma rank_stmt_phi s : is_phi (stmt_op (rank_stmt s)) = is_phi (stmt_op s).
Proof. unfold rank_stmt. destruct (stmt_op s) eqn:E; simpl; rewrite ?E; done. Qed.

Lemma rank_stmt_operands s : operands (stmt_op (rank_stmt s)) = operands (stmt_op s).
Proof. unfold rank_stmt. destruct (stmt_op s) eqn:E; simpl; rewrite ?E; done. Qed.

Lemma rank_stmt_inv s phi :
  stmt_op (rank_stmt s) = Phi phi ->
  exists phi0, stmt_op s = Phi phi0 /\ edges phi = map rk (edges phi0) /\ values phi = values phi0.
Proof.
  unfold rank_stmt. destruct (stmt_op s) eqn:E; simpl; rewrite ?E; try done.
  intros [= <-]. by eexists.
Qed.

Lemma remap_all l : (forall v, v ∈ l -> v ∈ reachable) -> mapM (remap reachable) l = Some (map rk l).
Proof. intros H. apply mapM_all. intros v Hv. by apply remap_rank, H. Qed.

Lemma renumber_phis_spec l :
  phi_prefix l ->
  (forall s phi v, s ∈ l -> stmt_op s = Phi phi -> v ∈ edges phi -> v ∈ reachable) ->
  renumber_phis reachable l = Some (map rank_stmt l).
Proof.
  intros (ps & rest & -> & Hps & Hr) Hk. induction ps as [|s ps IH]; simpl.
  - clear Hk Hps. assert (map rank_stmt rest = rest) as Hm.
    { induction Hr as [|s l Hs _ IH]; simpl; [done|]. rewrite IH. f_equal.
      unfold rank_stmt. by destruct (stmt_op s). }
    rewrite Hm. destruct Hr as [|s l Hs _]; [done|]. simpl. by destruct (stmt_op s).
  - apply Forall_cons in Hps as [Hs Hps]. unfold rank_stmt at 1.
    destruct (stmt_op s) as [phi| | | | | | | | |] eqn:Hop;
      try (unfold stmt_is_phi in Hs; by rewrite Hop in Hs).
    rewrite remap_all by (intros v; apply (Hk s phi v); [left|done]). simpl.
    rewrite IH; [done|done|]. intros t phi' v Ht. apply (Hk t phi' v). by right.
Qed.

Lemma renumber_term_spec t :
  (forall v, v ∈ targets t -> v ∈ reachable) -> renumber_term reachable t = Some (rank_term t).
Proof.
  destruct t as [t|c t e|v]; simpl; intros H; [by rewrite remap_rank by (apply H; left)| |done].
  destruct (Nat.eqb_spec t e) as [->|Hne].
  - by rewrite !remap_rank by (apply H; left).
  - rewrite (remap_rank t) by (apply H; left). simpl.
    by rewrite (remap_rank e) by (apply H; right; left).
Qed.

Lemma rank_targets t :
  (forall v, v ∈ targets t -> v ∈ reachable) -> targets (rank_term t) = map rk (targets t).
Proof.
  destruct t as [t|c t e|v]; simpl; intros H; [done| |done].
  destruct (Nat.eqb_spec t e) as [->|Hne]; [by rewrite Nat.eqb_refl|].
  destruct (Nat.eqb_spec (rk t) (rk e)) as [He|]; [|done]. exfalso. apply Hne, rk_inj; [..|done];
    apply H; [left|right; left].
Qed.

(** The pruned block at [j] before the renumbering. *)
Lemma pruned_targets_reachable j b :
  block func j = Some b -> j ∈ reachable ->
  forall v, v ∈ targets (terminator (pruned_at j b)) -> v ∈ reachable.
Proof.
  intros Hb Hj v. rewrite (drop_term _ _ _ (pruned_dropped j b Hb Hj)). intros Hv.
  eapply reachable_edge; [exact Hj|]. unfold edge, block_succs. by rewrite Hb, (wf_succs _ Hwf j b).
Qed.

Lemma pruned_preds_reachable j b v :
  block func j = Some b -> j ∈ reachable -> v ∈ preds (pruned_at j b) -> v ∈ reachable.
Proof.
  intros Hb Hj. rewrite (drop_preds_eq _ _ _ (pruned_dropped j b Hb Hj)).
  by intros [? _]%list_elem_of_filter.
Qed.

Lemma renumber_block_spec j b :
  block func j = Some b -> j ∈ reachable ->
  renumber_block reachable (pruned_at j b) = Some (rank_block (pruned_at j b)).
Proof.
  intros Hb Hj. pose proof (pruned_dropped j b Hb Hj) as [H1 H2 H3 H4 H5 H6].
  unfold renumber_block. rewrite H1, (wf_ids _ Hwf j b Hb), remap_rank by done. simpl.
  rewrite (remap_all (preds (pruned_at j b))) by (intros v; by apply pruned_preds_reachable). simpl.
  assert (succs (pruned_at j b) = targets (terminator (pruned_at j b))) as Hs.
  { rewrite H3, H2. by apply (wf_succs _ Hwf j). }
  rewrite remap_all by (rewrite Hs; by apply pruned_targets_reachable). simpl.
  rewrite renumber_term_spec by by apply pruned_targets_reachable. simpl.
  rewrite renumber_phis_spec; [|apply H6|].
  - simpl. unfold rank_block. by rewrite H1, (wf_ids _ Hwf j b Hb).
  - intros s phi v Hin Hop Hv. destruct (shape_phi _ H6 s phi Hin Hop) as [He _]. rewrite He in Hv.
    by eapply pruned_preds_reachable.
Qed.

(** ** The result *)

Section Result.
Variable func' : SsaFunction.
Hypothesis Hentry' : fn_entry func' = rk (fn_entry func).
Hypothesis Hparams' : fn_params func' = fn_params func.
Hypothesis Hlength' : length (fn_blocks func') = length order.
Hypothesis Hblocks' : forall k v b, order !! k = Some v -> block func v = Some b ->
  block func' k = Some (rank_block (pruned_at v b)).

Lemma result_block k b' :
  block func' k = Some b' ->
  exists v b, order !! k = Some v /\ v ∈ reachable /\ block func v = Some b /\
    b' = rank_block (pruned_at v b).
Proof.
  intros Hb'. destruct (lookup_lt_is_Some_2 order k) as [v Hv].
  { rewrite <- Hlength'. by eapply lookup_lt_Some. }
  assert (v ∈ reachable) as Hr by (apply order_elem; by apply list_elem_of_lookup_2 in Hv).
  destruct (reachable_block v Hr) as [b Hb]. pose proof (Hblocks' k v b Hv Hb) as H.
  rewrite Hb' in H. injection H as ->. by exists v, b.
Qed.

Lemma result_edge k l :
  edge func' k l <-> exists u v, order !! k = Some u /\ order !! l = Some v /\ edge func u v.
Proof.
  unfold edge at 1, block_succs. split.
  - destruct (block func' k) as [b'|] eqn:Hb'; [|by intros ?%elem_of_nil].
    destruct (result_block k b' Hb') as (u & b & Hk & Hr & Hb & ->). simpl.
    rewrite (drop_succs _ _ _ (pruned_dropped u b Hb Hr)).
    intros (v & -> & Hv)%list_elem_of_fmap.
    assert (edge func u v) as He by (unfold edge, block_succs; by rewrite Hb).
    exists u, v. split_and!; [done| |done]. apply (rank_spec order order_NoDup).
    apply order_elem. by eapply reachable_edge.
  - intros (u & v & Hk & Hl & He).
    assert (u ∈ reachable) as Hr by (apply order_elem; by apply list_elem_of_lookup_2 in Hk).
    destruct (reachable_block u Hr) as [b Hb]. rewrite (Hblocks' k u b Hk Hb). simpl.
    rewrite (drop_succs _ _ _ (pruned_dropped u b Hb Hr)). apply list_elem_of_fmap.
    exists v. split; [symmetry; by apply (rank_lookup order order_NoDup)|].
    unfold edge, block_succs in He. by rewrite Hb in He.
Qed.

Lemma result_path k l :
  path (edge func') (fn_entry func') k l ->
  exists v m, order !! k = Some v /\ path (edge func) (fn_entry func) v m /\ l = map rk m.
Proof.
  induction 1 as [|k1 k2 l _ (v & m & Hv & Hm & ->) He].
  - exists (fn_entry func), [fn_entry func]. split_and!; [|constructor|by rewrite Hentry'].
    rewrite Hentry'. apply (rank_spec order order_NoDup), order_elem, Hreach, reached_entry.
  - apply result_edge in He as (u & w & Hu & Hw & He). simplify_eq.
    exists w, (w :: m). split_and!; [done|by econstructor|].
    simpl. by rewrite (rank_lookup order order_NoDup w k2).
Qed.

Lemma result_dominator d k v :
  order !! k = Some v -> dominator (edge func) (fn_entry func) d v ->
  dominator (edge func') (fn_entry func') (rk d) k.
Proof.
  intros Hk Hd l Hl. destruct (result_path k l Hl) as (v' & m & Hv' & Hm & ->). simplify_eq.
  apply list_elem_of_fmap_2. by apply Hd.
Qed.

Lemma result_defines d id : d ∈ reachable -> defines func d id -> defines func' (rk d) id.
Proof.
  intros Hr (b & s & Hb & Hs & <-). assert (order !! rk d = Some d) as Hd
    by by apply (rank_spec order order_NoDup), order_elem.
  pose proof (pruned_dropped d b Hb Hr) as Hdr.
  exists (rank_block (pruned_at d b)).
  assert (stmt_id s ∈ map stmt_id (stmts (rank_block (pruned_at d b)))) as Hin.
  { simpl. rewrite rank_ids, (pruned_ids _ _ _ (drop_stmts _ _ _ Hdr)).
    by apply list_elem_of_fmap_2. }
  apply list_elem_of_fmap in Hin as (t & He & Ht). exists t. by rewrite (Hblocks' _ d b Hd Hb).
Qed.

Lemma result_operand before before' k v w :
  order !! k = Some v -> v ∈ reachable ->
  map stmt_id before' = map stmt_id before -> operand_ok func before v w ->
  operand_ok func' before' k w.
Proof.
  intros Hk Hr He. destruct w as [id|a|lit]; simpl; [|by rewrite Hparams'|done].
  rewrite He. intros [Hin|(d & Hne & Hdef & Hdom)]; [by left|right].
  assert (d ∈ reachable) as Hd by (apply Hreach; eapply reached_dominator; [by apply Hreach|done]).
  exists (rk d). split_and!; [|by apply result_defines|by eapply result_dominator].
  intros <-. apply Hne. apply (f_equal (fun x => x)) in Hk.
  rewrite (rank_spec order order_NoDup d) in Hk by by apply order_elem. by injection Hk.
Qed.

Lemma result_phi_operand p w :
  p ∈ reachable -> phi_operand_ok func p w -> phi_operand_ok func' (rk p) w.
Proof.
  intros Hp. destruct w as [id|a|lit]; simpl; [|by rewrite Hparams'|done].
  intros (d & Hdef & Hdom).
  assert (d ∈ reachable) as Hd by (apply Hreach; eapply reached_dominator; [by apply Hreach|done]).
  exists (rk d). split; [by apply result_defines|]. eapply result_dominator; [|done].
  by apply (rank_spec order order_NoDup), order_elem.
Qed.

Lemma result_preds k b' :
  block func' k = Some b' ->
  preds b' = filter (fun u => edge func' u k) (seq 0 (length (fn_blocks func'))).
Proof.
  intros Hb'. destruct (result_block k b' Hb') as (v & b & Hk & Hr & Hb & ->). simpl.
  rewrite (drop_preds_eq _ _ _ (pruned_dropped v b Hb Hr)), (wf_preds _ Hwf v b Hb).
  rewrite list_filter_filter, Hlength'.
  assert (filter (fun u => u ∈ reachable /\ edge func u v) (seq 0 n) =
    filter (fun u => edge func u v) order) as ->.
  { rewrite order_filter, list_filter_filter. apply list_filter_iff. tauto. }
  apply map_rank_filter; [apply order_NoDup|]. intros j u Hj. rewrite result_edge. split.
  - intros (u' & v' & Hu' & Hv' & He). by simplify_eq.
  - intros He. by exists u, v.
Qed.
End Result.

(** The statements of a block of the result against those it comes from. *)
Lemma result_split v b before s' after :
  block func v = Some b -> v ∈ reachable ->
  stmts (rank_block (pruned_at v b)) = before ++ s' :: after ->
  exists l1 s l2, stmts b = l1 ++ s :: l2 /\ map stmt_id before = map stmt_id l1 /\
    (forall w, w ∈ operands (stmt_op s') -> w ∈ operands (stmt_op s)).
Proof.
  intros Hb Hr Hl. simpl in Hl. apply fmap_app_inv in Hl as (k1 & k2 & -> & Hk & Hl).
  symmetry in Hk. apply fmap_cons_inv in Hk as (t & k3 & -> & -> & ->).
  pose proof (drop_stmts _ _ _ (pruned_dropped v b Hb Hr)) as Hst. rewrite Hl in Hst.
  apply pruned_split in Hst as (l1 & s & l2 & Hs & Hbef & Hps).
  exists l1, s, l2. split_and!; [done| |].
  - rewrite rank_ids. by eapply pruned_ids.
  - intros w. rewrite rank_stmt_operands. destruct Hps as [_ Hps].
    destruct (stmt_op s) as [phi| | | | | | | | |]; try by rewrite Hps.
    destruct Hps as (phi' & -> & _). by intros ?%elem_of_nil.
Qed.

Lemma result_phi v b s' phi :
  block func v = Some b -> v ∈ reachable ->
  s' ∈ stmts (rank_block (pruned_at v b)) -> stmt_op s' = Phi phi ->
  exists s phi0 phi1, s ∈ stmts b /\ stmt_op s = Phi phi0 /\
    edges phi1 = preds (pruned_at v b) /\ length (values phi1) = length (preds (pruned_at v b)) /\
    (forall e, e ∈ zip (edges phi1) (values phi1) -> e ∈ zip (edges phi0) (values phi0)) /\
    edges phi = map rk (edges phi1) /\ values phi = values phi1.
Proof.
  intros Hb Hr Hs' Hop. simpl in Hs'. apply list_elem_of_fmap in Hs' as (t & -> & Ht).
  apply rank_stmt_inv in Hop as (phi1 & Hop1 & He & Hv).
  pose proof (drop_stmts _ _ _ (pruned_dropped v b Hb Hr)) as Hst.
  apply list_elem_of_lookup in Ht as [i Ht].
  destruct (Forall2_lookup_r _ _ _ _ _ Hst Ht) as (s & Hs & Hps).
  pose proof (pruned_phi _ _ _ Hps) as Hphi. destruct Hps as [_ Hps]. rewrite Hop1 in Hphi.
  destruct (stmt_op s) as [phi0| | | | | | | | |] eqn:Hop0; try done.
  destruct Hps as (phi' & Hop' & He' & Hl' & Hz). rewrite Hop1 in Hop'. injection Hop' as <-.
  exists s, phi0, phi1. split_and!; try done. by apply list_elem_of_lookup_2 in Hs.
Qed.

Definition no_block : SsaBlock :=
  {| blk_id := 0; stmts := []; terminator := Return None; preds := []; succs := [] |}.

(** The pruned block at [v], which exists where it matters. *)
Definition pruned_block_at (v : BlockId) : SsaBlock :=
  match block func v with Some b => pruned_at v b | None => no_block end.

(** What is picked from the blocks of the result is picked from those of the
    function. *)
Lemma picked_sublist {A} (h : SsaBlock -> list A) :
  (forall v b, block func v = Some b -> v ∈ reachable ->
    h (rank_block (pruned_at v b)) `sublist_of` h b) ->
  (map (fun v => rank_block (pruned_block_at v)) order ≫= h) `sublist_of` (fn_blocks func ≫= h).
Proof.
  intros Hh. rewrite order_filter.
  assert (forall l k, (forall i, i < length l -> fn_blocks func !! (k + i) = l !! i) ->
    (map (fun v => rank_block (pruned_block_at v))
      (filter (fun v => v ∈ reachable) (seq k (length l))) ≫= h) `sublist_of` (l ≫= h)) as Hgen.
  { induction l as [|b l IH]; intros k Hl; [done|]. cbn [length seq].
    assert (block func k = Some b) as Hb.
    { unfold block. rewrite <- (Nat.add_0_r k). apply (Hl 0). simpl. lia. }
    assert (forall i, i < length l -> fn_blocks func !! (S k + i) = l !! i) as Hl'.
    { intros i Hi. rewrite Nat.add_succ_comm. apply (Hl (S i)). simpl. lia. }
    specialize (IH (S k) Hl'). rewrite filter_cons. case_decide as Hk; csimpl.
    - apply sublist_app; [|exact IH]. unfold pruned_block_at. rewrite Hb. by apply Hh.
    - by apply sublist_inserts_l. }
  apply (Hgen _ 0). done.
Qed.

Lemma bind_ids bs : map stmt_id (bs ≫= stmts) = bs ≫= fun b => map stmt_id (stmts b).
Proof. induction bs as [|b bs IH]; [done|]. csimpl. by rewrite map_app, IH. Qed.

Lemma result_unique :
  map stmt_id (map (fun v => rank_block (pruned_block_at v)) order ≫= stmts)
    `sublist_of` map stmt_id (fn_blocks func ≫= stmts).
Proof.
  rewrite !bind_ids. apply picked_sublist. intros v b Hb Hr. simpl.
  by rewrite rank_ids, (pruned_ids _ _ _ (drop_stmts _ _ _ (pruned_dropped v b Hb Hr))).
Qed.

Lemma branch_count (bs : list SsaBlock) :
  length (List.filter (fun b => is_branch (terminator b)) bs) =
  length (bs ≫= fun b => if is_branch (terminator b) then [tt] else []).
Proof.
  induction bs as [|b bs IH]; [done|]. csimpl. rewrite length_app, <- IH.
  by destruct (is_branch (terminator b)).
Qed.

Lemma result_branches :
  length (List.filter (fun b => is_branch (terminator b))
    (map (fun v => rank_block (pruned_block_at v)) order)) <=
  length (List.filter (fun b => is_branch (terminator b)) (fn_blocks func)).
Proof.
  rewrite !branch_count. apply sublist_length, picked_sublist. intros v b Hb Hr.
  assert (is_branch (terminator (rank_block (pruned_at v b))) = is_branch (terminator b)) as ->; [|done].
  rewrite <- (drop_term _ _ _ (pruned_dropped v b Hb Hr)). simpl.
  by destruct (terminator (pruned_at v b)).
Qed.

Lemma result_lookup func' :
  fn_blocks func' = map (fun v => rank_block (pruned_block_at v)) order ->
  forall k v b, order !! k = Some v -> block func v = Some b ->
    block func' k = Some (rank_block (pruned_at v b)).
Proof.
  intros Hbl k v b Hk Hb. unfold block at 1. rewrite Hbl.
  change (map ?f order) with (f <$> order). rewrite list_lookup_fmap, Hk. simpl.
  unfold pruned_block_at. by rewrite Hb.
Qed.

Lemma result_renumbered func' :
  fn_entry func' = rk (fn_entry func) ->
  fn_blocks func' = map (fun v => rank_block (pruned_block_at v)) order ->
  renumbered func func' reachable.
Proof.
  intros He Hbl.
  assert (length (fn_blocks func') = length order) as Hlen by by rewrite Hbl, length_map.
  pose proof (result_lookup func' Hbl) as Hb'. constructor; rewrite <- ?order_filter.
  - by rewrite Hlen.
  - rewrite He. apply (rank_spec order order_NoDup), order_elem, Hreach, reached_entry.
  - by apply result_edge.
  - intros k v Hk. assert (v ∈ reachable) as Hr by (apply order_elem; by apply list_elem_of_lookup_2 in Hk).
    destruct (reachable_block v Hr) as [b Hb]. rewrite Hb, (Hb' k v b Hk Hb). simpl.
    rewrite rank_ids. f_equal. eapply pruned_ids, drop_stmts, pruned_dropped; done.
Qed.

Lemma result_well_formed func' :
  fn_entry func' = rk (fn_entry func) -> fn_params func' = fn_params func ->
  fn_blocks func' = map (fun v => rank_block (pruned_block_at v)) order ->
  well_formed func'.
Proof.
  intros He Hp Hbl.
  assert (length (fn_blocks func') = length order) as Hlen by by rewrite Hbl, length_map.
  pose proof (result_lookup func' Hbl) as Hb'.
  assert (forall k v, order !! k = Some v -> reached (edge func') (fn_entry func') k ->
    reached (edge func) (fn_entry func) v) as Hreached.
  { intros k v Hk _. apply Hreach, order_elem. by apply list_elem_of_lookup_2 in Hk. }
  constructor.
  - destruct (wf_entry _ Hwf) as (b & Hb & Hpr).
    assert (fn_entry func ∈ reachable) as Hr by apply Hreach, reached_entry.
    exists (rank_block (pruned_at (fn_entry func) b)). split.
    + rewrite He. apply Hb'; [|done]. by apply (rank_spec order order_NoDup), order_elem.
    + simpl. rewrite (drop_preds_eq _ _ _ (pruned_dropped _ b Hb Hr)). by rewrite Hpr.
  - intros k b0 (v & b & Hk & Hr & Hb & ->)%(result_block func' Hlen Hb'). simpl.
    rewrite (drop_id _ _ _ (pruned_dropped v b Hb Hr)), (wf_ids _ Hwf v b Hb).
    by apply (rank_lookup order order_NoDup).
  - intros k b0 t (v & b & Hk & Hr & Hb & ->)%(result_block func' Hlen Hb'). simpl.
    pose proof (pruned_targets_reachable v b Hb Hr) as Ht. rewrite rank_targets by done.
    intros (u & -> & Hu)%list_elem_of_fmap.
    assert (order !! rk u = Some u) as Ho
      by by apply (rank_spec order order_NoDup), order_elem, Ht.
    destruct (reachable_block u (Ht u Hu)) as [bu Hbu]. rewrite (Hb' _ u bu Ho Hbu). by eexists.
  - intros k b0 (v & b & Hk & Hr & Hb & ->)%(result_block func' Hlen Hb'). simpl.
    pose proof (pruned_targets_reachable v b Hb Hr) as Ht. rewrite rank_targets by done.
    rewrite (drop_succs _ _ _ (pruned_dropped v b Hb Hr)),
      (drop_term _ _ _ (pruned_dropped v b Hb Hr)). by rewrite (wf_succs _ Hwf v b).
  - by apply result_preds.
  - rewrite Hbl. eapply sublist_NoDup; [apply (wf_unique _ Hwf)|apply result_unique].
  - intros k b0 (v & b & Hk & Hr & Hb & ->)%(result_block func' Hlen Hb'). simpl.
    destruct (shape_prefix _ (drop_shape _ _ _ (pruned_dropped v b Hb Hr)))
      as (ps & rest & -> & Hps & Hrest).
    exists (map rank_stmt ps), (map rank_stmt rest). split_and!; [by rewrite map_app|..];
      apply Forall_forall; intros s (t & -> & Ht)%list_elem_of_fmap; unfold stmt_is_phi;
      rewrite rank_stmt_phi.
    + by eapply Forall_forall in Hps.
    + by eapply Forall_forall in Hrest.
  - intros k b0 s' phi (v & b & Hk & Hr & Hb & ->)%(result_block func' Hlen Hb') Hs' Hop.
    destruct (result_phi v b s' phi Hb Hr Hs' Hop)
      as (s & phi0 & phi1 & _ & _ & He1 & Hl1 & _ & -> & ->). simpl. rewrite length_map.
    by rewrite He1.
  - intros k b0 before s' after w Hrk (v & b & Hk & Hr & Hb & ->)%(result_block func' Hlen Hb') Hl Hw.
    destruct (result_split v b before s' after Hb Hr Hl) as (l1 & s & l2 & Hs & Hids & Hops).
    eapply (result_operand func' He Hp Hlen Hb'); [exact Hk|done|exact Hids|].
    eapply (wf_operands _ Hwf v b l1 s l2); [by apply Hreach|done|done|by apply Hops].
  - intros k b0 w Hrk (v & b & Hk & Hr & Hb & ->)%(result_block func' Hlen Hb') Hw.
    eapply (result_operand func' He Hp Hlen Hb'); [exact Hk|done| |].
    + simpl. rewrite rank_ids. eapply pruned_ids, drop_stmts, pruned_dropped; done.
    + apply (wf_terminator _ Hwf v b); [by apply Hreach|done|]. simpl in Hw.
      rewrite <- (drop_term _ _ _ (pruned_dropped v b Hb Hr)).
      by destruct (terminator (pruned_at v b)).
  - intros k b0 s' phi p w Hrk (v & b & Hk & Hr & Hb & ->)%(result_block func' Hlen Hb') Hs' Hop Hin Hrp.
    destruct (result_phi v b s' phi Hb Hr Hs' Hop)
      as (s & phi0 & phi1 & Hs & Hop0 & He1 & Hl1 & Hz & Hed & Hval).
    rewrite Hed, Hval, zip_with_fmap_l in Hin. apply list_elem_of_lookup in Hin as [j Hin].
    apply lookup_zip_with_Some in Hin as (q & ow & Heq & Hq & How). injection Heq as -> <-.
    assert (q ∈ reachable) as Hqr.
    { apply list_elem_of_lookup_2 in Hq. rewrite He1 in Hq. by eapply pruned_preds_reachable. }
    eapply (result_phi_operand func' He Hp Hlen Hb'); [done|].
    eapply (wf_phi_values _ Hwf v b s phi0 q w); [by apply Hreach|done|done|done| |by apply Hreach].
    apply Hz, list_elem_of_lookup. exists j. by apply lookup_zip_Some.
Qed.

(** The blocks that are left, before the renumbering. *)
Lemma left_blocks func2 :
  (forall j, block func2 j = pruned_at j <$> block func j) ->
  List.filter (fun b => bool_decide (blk_id b ∈ reachable)) (fn_blocks func2) =
    map pruned_block_at order.
Proof.
  intros Hf. assert (fn_blocks func2 = imap pruned_at (fn_blocks func)) as ->.
  { apply list_eq. intros j. rewrite list_lookup_imap. apply Hf. }
  rewrite order_filter.
  assert (forall l k, (forall i, i < length l -> fn_blocks func !! (k + i) = l !! i) ->
    List.filter (fun b => bool_decide (blk_id b ∈ reachable)) (imap (fun i => pruned_at (k + i)) l) =
    map pruned_block_at (filter (fun v => v ∈ reachable) (seq k (length l)))) as Hgen.
  { induction l as [|b l IH]; intros k Hl; [done|]. cbn [length seq]. rewrite imap_cons.
    assert (block func k = Some b) as Hb.
    { unfold block. rewrite <- (Nat.add_0_r k). apply (Hl 0). simpl. lia. }
    assert (forall i, i < length l -> fn_blocks func !! (S k + i) = l !! i) as Hl'.
    { intros i Hi. rewrite Nat.add_succ_comm. apply (Hl (S i)). simpl. lia. }
    specialize (IH (S k) Hl'). rewrite Nat.add_0_r. cbn [List.filter].
    assert (imap ((fun i => pruned_at (k + i)) ∘ S) l = imap (fun i => pruned_at (S k + i)) l) as ->.
    { apply imap_ext. intros i x _. simpl. by rewrite Nat.add_succ_r. }
    rewrite IH, filter_cons.
    assert (blk_id (pruned_at k b) = k) as ->.
    { destruct (decide (k ∈ reachable)) as [Hk|Hk].
      - rewrite (drop_id _ _ _ (pruned_dropped k b Hb Hk)). by apply (wf_ids _ Hwf).
      - unfold pruned_at. rewrite bool_decide_eq_false_2 by done. by apply (wf_ids _ Hwf). }
    case_decide as Hk; [rewrite bool_decide_eq_true_2 by done|by rewrite bool_decide_eq_false_2].
    simpl. f_equal. unfold pruned_block_at. by rewrite Hb. }
  apply (Hgen _ 0). done.
Qed.

Lemma renumber_left :
  mapM (renumber_block reachable) (map pruned_block_at order) =
    Some (map (fun v => rank_block (pruned_block_at v)) order).
Proof.
  rewrite <- (map_map pruned_block_at rank_block). apply mapM_all.
  intros b' (v & -> & Hv)%list_elem_of_fmap. apply order_elem in Hv.
  destruct (reachable_block v Hv) as [b Hb]. unfold pruned_block_at. rewrite Hb.
  by apply renumber_block_spec.
Qed.

Lemma reachable_size : size reachable <= n.
Proof. rewrite <- order_length, order_filter. etrans; [apply length_filter|]. by rewrite length_seq. Qed.

Lemma eliminate_result :
  size reachable <> n ->
  exists func2 entry bs,
    prune_loop func reachable (seq 0 n) = Some func2 /\
    mapM (renumber_block reachable)
      (List.filter (fun b => bool_decide (blk_id b ∈ reachable)) (fn_blocks func2)) = Some bs /\
    fn_entry func2 = fn_entry func /\ fn_params func2 = fn_params func /\
    remap reachable (fn_entry func) = Some entry /\
    well_formed {| fn_name := fn_name func2; fn_params := fn_params func2; fn_entry := entry;
                   fn_blocks := bs |} /\
    ssa_size {| fn_name := fn_name func2; fn_params := fn_params func2; fn_entry := entry;
                fn_blocks := bs |} < ssa_size func /\
    renumbered func {| fn_name := fn_name func2; fn_params := fn_params func2; fn_entry := entry;
                       fn_blocks := bs |} reachable /\
    entry = rk (fn_entry func) /\ bs = map (fun v => rank_block (pruned_block_at v)) order.
Proof.
  intros Hne.
  destruct (prune_loop_spec (seq 0 n) (NoDup_seq _ _)) with (func1 := func)
    as (func2 & Hp & He & Hps & Hb); [intros j Hj%elem_of_seq; lia|done..|].
  assert (forall j, block func2 j = pruned_at j <$> block func j) as Hb'.
  { intros j. rewrite Hb. case_decide as Hj; [done|]. unfold block. rewrite lookup_ge_None_2; [done|].
    rewrite elem_of_seq in Hj. lia. }
  exists func2, (rk (fn_entry func)), (map (fun v => rank_block (pruned_block_at v)) order).
  split_and!; try done.
  - rewrite (left_blocks func2 Hb'). apply renumber_left.
  - apply remap_rank, Hreach, reached_entry.
  - by apply result_well_formed.
  - pose proof reachable_size as Hsz. pose proof (sublist_length _ _ result_unique) as Hst.
    rewrite !length_map in Hst. pose proof result_branches as Hbr.
    unfold ssa_size, all_stmts. simpl. rewrite length_map, order_length. lia.
  - by apply result_renumbered.
Qed.

Lemma all_reachable : size reachable = n -> renumbered func func reachable.
Proof.
  intros Hsz. assert (filter (fun v => v ∈ reachable) (seq 0 n) = seq 0 n) as Ho.
  { apply filter_full. by rewrite <- order_filter, order_length, length_seq. }
  assert (forall v, is_Some (block func v) -> seq 0 n !! v = Some v) as Hv.
  { intros v [b Hb]. apply lookup_seq. split; [done|]. by eapply lookup_lt_Some. }
  constructor; rewrite Ho.
  - by rewrite length_seq.
  - apply Hv, reachable_block, Hreach, reached_entry.
  - intros k l. split.
    + intros He. exists k, l. split_and!; [| |done]; apply Hv.
      * revert He. unfold edge, block_succs. destruct (block func k); [done|]. by intros ?%elem_of_nil.
      * by apply (succ_exists _ (well_formed_edges _ Hwf) k).
    + by intros (u & v & [-> _]%lookup_seq & [-> _]%lookup_seq & He).
  - by intros k v [-> _]%lookup_seq.
Qed.
End Eliminate.

Lemma eliminate_unreachable_blocks_result (func : SsaFunction) :
  well_formed func ->
  exists changed func' (reachable : gset BlockId),
    eliminate_unreachable_blocks func = Some (changed, func') /\ well_formed func' /\
    ((changed = false /\ func' = func) \/ (changed = true /\ ssa_size func' < ssa_size func)) /\
    (forall v, v ∈ reachable <-> reached (edge func) (fn_entry func) v) /\
    renumbered func func' reachable.
Proof.
  intros Hwf. destruct (compute_reachable_total func) as [reachable Hr].
  assert (forall v, v ∈ reachable <-> reached (edge func) (fn_entry func) v) as Hreach
    by (intros v; by apply compute_reachable_spec).
  unfold eliminate_unreachable_blocks. rewrite Hr. cbn [mbind option_bind].
  destruct (Nat.eqb_spec (size reachable) (length (fn_blocks func))) as [He|Hne].
  - exists false, func, reachable. pose proof (all_reachable func reachable Hwf Hreach He). auto 10.
  - destruct (eliminate_result func reachable Hwf Hreach Hne)
      as (func2 & entry & bs & Hp & Hm & Hen & Hpa & Hrm & Hwf' & Hsz & Hre & _).
    rewrite Hp. cbn [mbind option_bind]. rewrite Hm. cbn [mbind option_bind].
    rewrite Hen, Hrm. cbn [mbind option_bind].
    eexists true, _, reachable. split_and!; [reflexivity|exact Hwf'| |exact Hreach|exact Hre].
    right. by split.
Qed.

(** The blocks of the result, one by one. *)
Lemma eliminate_unreachable_blocks_at (func : SsaFunction) changed func' :
  well_formed func -> eliminate_unreachable_blocks func = Some (changed, func') ->
  func' = func \/
  exists reachable : gset BlockId,
    (forall v, v ∈ reachable <-> reached (edge func) (fn_entry func) v) /\
    well_formed func' /\
    fn_entry func' = rank (order reachable) (fn_entry func) /\ fn_params func' = fn_params func /\
    forall k v b, order reachable !! k = Some v -> block func v = Some b ->
      block func' k = Some (rank_block reachable (pruned_at reachable v b)).
Proof.
  intros Hwf. destruct (compute_reachable_total func) as [reachable Hr].
  assert (forall v, v ∈ reachable <-> reached (edge func) (fn_entry func) v) as Hreach
    by (intros v; by apply compute_reachable_spec).
  unfold eliminate_unreachable_blocks. rewrite Hr. cbn [mbind option_bind].
  destruct (Nat.eqb_spec (size reachable) (length (fn_blocks func))) as [He|Hne].
  { intros [= _ <-]. by left. }
  destruct (eliminate_result func reachable Hwf Hreach Hne)
    as (func2 & entry & bs & Hp & Hm & Hen & Hpa & Hrm & Hwf' & _ & _ & -> & ->).
  rewrite Hp. cbn [mbind option_bind]. rewrite Hm. cbn [mbind option_bind].
  rewrite Hen, Hrm. cbn [mbind option_bind]. intros [= _ <-]. right. exists reachable.
  split_and!; [done|done|done|done|]. by apply (result_lookup func reachable).
Qed.

Lemma renumbered_reached func func' reachable k v :
  (forall v, v ∈ reachable <-> reached (edge func) (fn_entry func) v) ->
  renumbered func func' reachable -> reached (edge func) (fn_entry func) v ->
  filter (fun v => v ∈ reachable) (seq 0 (length (fn_blocks func))) !! k = Some v ->
  reached (edge func') (fn_entry func') k.
Proof.
  intros Hreach Hre [l Hl]. revert k.
  assert (forall k k' v, filter (fun v => v ∈ reachable) (seq 0 (length (fn_blocks func))) !! k = Some v ->
    filter (fun v => v ∈ reachable) (seq 0 (length (fn_blocks func))) !! k' = Some v -> k = k') as Hinj.
  { intros k k' w. apply NoDup_lookup, NoDup_filter, NoDup_seq. }
  induction Hl as [|u v l Hl IH He]; intros k Hk.
  - rewrite (Hinj k (fn_entry func') _ Hk (renumbered_entry _ _ _ Hre)). apply reached_entry.
  - assert (u ∈ filter (fun v => v ∈ reachable) (seq 0 (length (fn_blocks func)))) as Hu.
    { apply list_elem_of_filter. split; [apply Hreach; by exists l|]. apply elem_of_seq.
      split; [lia|]. revert He. unfold edge, block_succs.
      destruct (block func u) eqn:Hb; [|by intros ?%elem_of_nil]. intros _. simpl.
      by eapply lookup_lt_Some. }
    apply list_elem_of_lookup in Hu as [j Hj]. apply (reached_step _ _ j); [by apply IH|].
    apply (renumbered_edge _ _ _ Hre). by exists u, v.
Qed.

(** The pass does not panic and keeps a function in SSA form.  The blocks of the
    result are the blocks that can be reached, in their order, with the same
    edges between them and the same definitions; all of them can still be
    reached. *)
Theorem eliminate_unreachable_blocks_spec (func : SsaFunction) :
  well_formed func ->
  exists changed func' (reachable : gset BlockId),
    eliminate_unreachable_blocks func = Some (changed, func') /\ well_formed func' /\
    (forall v, v ∈ reachable <-> reached (edge func) (fn_entry func) v) /\
    renumbered func func' reachable /\
    (forall k, k < length (fn_blocks func') -> reached (edge func') (fn_entry func') k) /\
    (changed = false -> func' = func).
Proof.
  intros Hwf. destruct (eliminate_unreachable_blocks_result func Hwf)
    as (changed & func' & reachable & Hrun & Hwf' & Hor & Hreach & Hre).
  exists changed, func', reachable. split_and!; [done..| |].
  - intros k Hk. rewrite (renumbered_length _ _ _ Hre) in Hk.
    apply lookup_lt_is_Some in Hk as [v Hv]. eapply renumbered_reached; [done|done| |exact Hv].
    apply Hreach. apply list_elem_of_lookup_2 in Hv. by apply list_elem_of_filter in Hv as [? _].
  - intros ->. by destruct Hor as [[_ ?]|[? _]].
Qed.
End Unreachable.
