(* ===== verification/SsaCse.v ===== *)
(** * Merging pure calls

    [cse_pure_calls] walks the dominator tree once, with a table of the calls on
    the way to the current block.  A call is merged only into an equal call that
    comes before it on every path: the pass keeps a function in SSA form. *)

From S2P Require Export SsaUnreachable.

(** ** Keys *)

Section Keys.
Context {P : Payload} {D : Dispatch}.
Implicit Types subst : gmap SsaValueId SsaValueId.

Lemma literal_value_key_inj a b k :
  literal_value_key a = Some k -> literal_value_key b = Some k -> a = b.
Proof. destruct a; simpl; intros [= <-]; destruct b; simpl; congruence. Qed.

(** What equal keys mean: the same value once the merged definitions are
    replaced. *)
Lemma value_key_inj subst v w k :
  value_key v subst = Some k -> value_key w subst = Some k ->
  apply_value (Def <$> subst) v = apply_value (Def <$> subst) w.
Proof.
  assert (forall id, apply_value (Def <$> subst) (Def id) = Def (default id (subst !! id))) as Hd.
  { intros id. simpl. rewrite lookup_fmap. by destruct (subst !! id). }
  destruct v as [i|i|a], w as [j|j|b]; cbn [value_key]; rewrite ?Hd; intros H1 H2;
    try congruence.
  - destruct b; simpl in H2; congruence.
  - destruct b; simpl in H2; congruence.
  - destruct a; simpl in H1; congruence.
  - destruct a; simpl in H1; congruence.
  - simpl. f_equal. by eapply literal_value_key_inj.
Qed.

Lemma mapM_inj {A B C} (f : A -> option B) (g : A -> C) l l' ks :
  (forall x y k, f x = Some k -> f y = Some k -> g x = g y) ->
  mapM f l = Some ks -> mapM f l' = Some ks -> map g l = map g l'.
Proof.
  intros Hf H1%mapM_Some H2%mapM_Some. revert l' H2.
  induction H1 as [|x k l ks Hx _ IH]; intros l' H2; inversion H2; subst; [done|].
  simpl. f_equal; [by eapply Hf|by apply IH].
Qed.

Lemma value_key_ext subst subst' v :
  (forall x, v = Def x -> subst !! x = subst' !! x) -> value_key v subst = value_key v subst'.
Proof. intros H. destruct v; simpl; [by rewrite H|done..]. Qed.

(** A key depends on the replacements of the operands only. *)
Lemma call_key_ext op ctx shadowed subst subst' :
  (forall x, Def x ∈ operands op -> subst !! x = subst' !! x) ->
  call_key op ctx shadowed subst = call_key op ctx shadowed subst'.
Proof.
  destruct op; try done. cbn [operands call_key]. intros H. destruct (negb _); [done|].
  rewrite (mapM_ext_elem (fun v => value_key v subst) (fun v => value_key v subst')).
  2:{ intros v Hv. apply value_key_ext. intros x ->. apply H, elem_of_app. by left. }
  rewrite (mapM_ext_elem (fun '(name, v) => k ← value_key v subst; Some (name, k))
    (fun '(name, v) => k ← value_key v subst'; Some (name, k))); [done|].
  intros [name v] Hv. rewrite (value_key_ext subst subst' v); [done|].
  intros x ->. apply H, elem_of_app. right. apply list_elem_of_fmap. by exists (name, Def x).
Qed.

(** The same call: callee and operands. *)
Definition same_call (r : gmap SsaValueId SsaValue) (op op' : SsaOp) : Prop :=
  match op, op' with
  | Call module function args kwargs _ _, Call module' function' args' kwargs' _ _ =>
      module = module' /\ function = function' /\
      map (apply_value r) args = map (apply_value r) args' /\
      map (prod_map id (apply_value r)) kwargs = map (prod_map id (apply_value r)) kwargs'
  | _, _ => False
  end.

Lemma call_key_same op op' ctx shadowed subst k :
  call_key op ctx shadowed subst = Some k -> call_key op' ctx shadowed subst = Some k ->
  same_call (Def <$> subst) op op' /\ is_foldable (op_effects op ctx shadowed) = true /\
  is_foldable (op_effects op' ctx shadowed) = true.
Proof.
  unfold call_key. destruct op as [| | |m f args kwargs sm km| | | | | |]; try done.
  destruct op' as [| | |m' f' args' kwargs' sm' km'| | | | | |]; try done.
  destruct (is_foldable (op_effects (Call m f _ _ _ _) _ _)); [|done].
  destruct (is_foldable (op_effects (Call m' f' _ _ _ _) _ _)); [|done]. simpl.
  destruct (mapM _ args) as [as1|] eqn:Ha; [|done]. simpl.
  destruct (mapM _ kwargs) as [ks1|] eqn:Hk; [|done]. simpl. intros [= <-].
  destruct (mapM _ args') as [as2|] eqn:Ha'; [|done]. simpl.
  destruct (mapM _ kwargs') as [ks2|] eqn:Hk'; [|done]. simpl. intros [= -> -> -> ->].
  split_and!; try done.
  - eapply mapM_inj; [|exact Ha|exact Ha']. intros x y k. apply value_key_inj.
  - eapply mapM_inj; [|exact Hk|exact Hk']. intros [n v] [n' v'] [n2 k].
    destruct (value_key v subst) as [k1|] eqn:H1; [|done]. simpl. intros [= -> ->].
    destruct (value_key v' subst) as [k2|] eqn:H2; [|done]. simpl. intros [= -> ->].
    simpl. by rewrite (value_key_inj _ _ _ _ H1 H2).
Qed.

Lemma call_key_call op ctx shadowed subst k :
  call_key op ctx shadowed subst = Some k -> is_phi op = false.
Proof. by destruct op. Qed.

(** ** The table *)

Lemma table_get_Some (table : CallTable) key id :
  table_get table key = Some id -> (key, id) ∈ table.
Proof.
  induction table as [|[k i] table IH]; simpl; [done|]. case_bool_decide as Hk.
  - intros [= ->]. subst k. left.
  - intros H. right. by apply IH.
Qed.

Lemma table_get_None (table : CallTable) key id :
  table_get table key = None -> (key, id) ∉ table.
Proof.
  induction table as [|[k i] table IH]; simpl; [set_solver|]. case_bool_decide as Hk; [done|].
  intros H [[= -> ->]|Hin]%elem_of_cons; [done|]. by apply (IH H).
Qed.

Lemma table_remove_elem (table : CallTable) key e :
  e ∈ table_remove table key <-> e ∈ table /\ e.1 <> key.
Proof.
  unfold table_remove. rewrite !list_elem_of_In, filter_In, negb_true_iff, bool_decide_eq_false.
  done.
Qed.

Lemma table_remove_all (table : CallTable) keys e :
  e ∈ foldl table_remove table keys <-> e ∈ table /\ e.1 ∉ keys.
Proof.
  revert table. induction keys as [|k keys IH]; intros table; simpl; [set_solver|].
  rewrite IH, table_remove_elem. set_solver.
Qed.
End Keys.

Section Cse.
Context {P : Payload} {D : Dispatch}.
Variable func : SsaFunction.
Variable ctx : EffectCtx.
Variable shadowed : gset string.
Hypothesis Hwf : well_formed func.

Abbreviation ids l := (map stmt_id l).
Abbreviation key_of s subst := (call_key (stmt_op s) ctx shadowed subst).
Abbreviation reached_in v := (reached (edge func) (fn_entry func) v).
Abbreviation dominator_in d v := (dominator (edge func) (fn_entry func) d v).

(** ** One statement *)

(** Every run of [y] comes before every run of [x]. *)
Definition comes_before (y x : SsaValueId) : Prop :=
  forall d, reached_in d -> defines func d x -> defined_before func y d x.

(** The pass has been through the statements [past]. *)
Record cse_inv (past : list SsaStatement) (subst : gmap SsaValueId SsaValueId)
    (table : CallTable) : Prop := {
  inv_merged x y : subst !! x = Some y ->
    subst !! y = None /\ comes_before y x /\
    exists s t k, s ∈ past /\ t ∈ past /\ stmt_id s = x /\ stmt_id t = y /\
      key_of s subst = Some k /\ key_of t subst = Some k;
  inv_table k y : (k, y) ∈ table ->
    subst !! y = None /\ exists t, t ∈ past /\ stmt_id t = y /\ key_of t subst = Some k;
  (* what is left has no equal call before it *)
  inv_left s t k : s ∈ past -> t ∈ past -> subst !! stmt_id s = None ->
    key_of s subst = Some k -> key_of t subst = Some k ->
    ~ comes_before (stmt_id t) (stmt_id s);
  inv_closed t x : t ∈ past -> is_phi (stmt_op t) = false -> Def x ∈ operands (stmt_op t) ->
    x ∈ ids past
}.

(** A key does not change while definitions that the statement does not read are
    merged. *)
Lemma key_of_insert past subst table t x y :
  cse_inv past subst table -> t ∈ past -> x ∉ ids past ->
  key_of t (<[x := y]> subst) = key_of t subst.
Proof.
  intros Hinv Ht Hx. destruct (is_phi (stmt_op t)) eqn:Hp; [by destruct (stmt_op t)|].
  apply call_key_ext. intros z Hz. apply lookup_insert_ne. intros <-.
  by apply Hx, (inv_closed _ _ _ Hinv t).
Qed.

Section Stmt.
Variable b : BlockId.
Variable s : SsaStatement.
Variable past : list SsaStatement.
Variable st : CseState.
Hypothesis Hreached : reached_in b.
Hypothesis Hs : defines func b (stmt_id s).
Hypothesis Hinv : cse_inv past (cse_subst st) (cse_table st).
Hypothesis Hfresh : stmt_id s ∉ ids past.
Hypothesis Hoperands : forall x, is_phi (stmt_op s) = false -> Def x ∈ operands (stmt_op s) ->
  x ∈ ids past.
Hypothesis Htable : forall k y, (k, y) ∈ cse_table st -> comes_before y (stmt_id s).
Hypothesis Hcomplete : forall t k, t ∈ past -> comes_before (stmt_id t) (stmt_id s) ->
  key_of t (cse_subst st) = Some k -> exists y, (k, y) ∈ cse_table st.

Abbreviation next := (cse_stmt ctx shadowed st s).

Lemma past_closed t x : t ∈ past ++ [s] -> is_phi (stmt_op t) = false ->
  Def x ∈ operands (stmt_op t) -> x ∈ ids (past ++ [s]).
Proof.
  intros Ht Hp Hx. rewrite map_app. apply elem_of_app. left.
  apply elem_of_app in Ht as [Ht| ->%list_elem_of_singleton]; [|by apply Hoperands].
  by apply (inv_closed _ _ _ Hinv t).
Qed.

Lemma past_id t : t ∈ past -> stmt_id t ∈ ids past.
Proof. apply list_elem_of_fmap_2. Qed.

Lemma fresh_subst : cse_subst st !! stmt_id s = None.
Proof.
  destruct (cse_subst st !! stmt_id s) as [y|] eqn:Hy; [|done]. exfalso.
  destruct (inv_merged _ _ _ Hinv _ _ Hy) as (_ & _ & u & t & k & Hu & _ & He & _).
  apply Hfresh. rewrite <- He. by apply past_id.
Qed.

(** The statement itself is never its own predecessor. *)
Lemma fresh_irrefl : ~ comes_before (stmt_id s) (stmt_id s).
Proof. intros H. by apply (defined_before_irrefl func (stmt_id s) b Hwf Hs), H. Qed.

(** A statement of the past does not read [s]. *)
Lemma fresh_key t y : t ∈ past -> key_of t (<[stmt_id s := y]> (cse_subst st)) = key_of t (cse_subst st).
Proof. intros Ht. by eapply key_of_insert. Qed.

Lemma fresh_own_key y :
  key_of s (<[stmt_id s := y]> (cse_subst st)) = key_of s (cse_subst st).
Proof.
  destruct (is_phi (stmt_op s)) eqn:Hp; [by destruct (stmt_op s)|].
  apply call_key_ext. intros z Hz. apply lookup_insert_ne. intros <-. by apply Hfresh, Hoperands.
Qed.

(** No statement of the past comes after [s]. *)
Hypothesis Horder : forall t, t ∈ past -> ~ comes_before (stmt_id s) (stmt_id t).

Lemma left_pairs u t k :
  u ∈ past ++ [s] -> t ∈ past ++ [s] -> cse_subst st !! stmt_id u = None ->
  (u = s -> forall y, (k, y) ∉ cse_table st) ->
  key_of u (cse_subst st) = Some k -> key_of t (cse_subst st) = Some k ->
  ~ comes_before (stmt_id t) (stmt_id u).
Proof.
  intros Hu Ht Hn Hvac Hku Hkt Hc.
  apply elem_of_app in Hu as [Hu| ->%list_elem_of_singleton];
    apply elem_of_app in Ht as [Ht| ->%list_elem_of_singleton].
  - by apply (inv_left _ _ _ Hinv u t k).
  - by apply (Horder u).
  - destruct (Hcomplete t k Ht Hc Hkt) as [y Hy]. by apply (Hvac eq_refl y).
  - by apply fresh_irrefl.
Qed.

Lemma cse_stmt_inv : cse_inv (past ++ [s]) (cse_subst next) (cse_table next).
Proof.
  assert (forall t, t ∈ past -> t ∈ past ++ [s]) as Hin by (intros; apply elem_of_app; by left).
  assert (s ∈ past ++ [s]) as Hins by (apply elem_of_app; right; by left).
  unfold cse_stmt. destruct (call_key (stmt_op s) ctx shadowed (cse_subst st)) as [key|] eqn:Hkey.
  2:{ constructor; [| | |exact past_closed].
      - intros x y Hx. destruct (inv_merged _ _ _ Hinv x y Hx) as (? & ? & u & t & k & ? & ? & ?).
        split_and!; [done..|]. exists u, t, k. auto.
      - intros k y Hy. destruct (inv_table _ _ _ Hinv k y Hy) as (? & t & ? & ?). eauto 10.
      - intros u t k Hu Ht Hn Hku Hkt. eapply left_pairs; [exact Hu|exact Ht|exact Hn| |exact Hku|exact Hkt].
        intros ->. congruence. }
  destruct (table_get (cse_table st) key) as [y0|] eqn:Hget; simpl.
  - apply table_get_Some in Hget.
    destruct (inv_table _ _ _ Hinv _ _ Hget) as (Hy0 & t0 & Ht0 & Hid0 & Hk0).
    assert (forall y, y ∈ ids past -> cse_subst st !! y = None ->
      <[stmt_id s := y0]> (cse_subst st) !! y = None) as Hnone.
    { intros y Hy Hn. rewrite lookup_insert_ne; [done|]. intros <-. by apply Hfresh. }
    constructor; [| | |exact past_closed].
    + intros x y [[<- <-]|[Hne Hx]]%lookup_insert_Some.
      * split_and!; [|by eapply Htable|].
        -- apply Hnone; [|done]. rewrite <- Hid0. by apply past_id.
        -- exists s, t0, key. rewrite fresh_own_key, fresh_key by done. auto 10.
      * destruct (inv_merged _ _ _ Hinv x y Hx) as (Hy & ? & u & t & k & Hu & Ht & ? & Hty & ? & ?).
        split_and!; [|done|].
        -- apply Hnone; [|done]. rewrite <- Hty. by apply past_id.
        -- exists u, t, k. rewrite !fresh_key by done. auto 10.
    + intros k y Hy. destruct (inv_table _ _ _ Hinv k y Hy) as (Hn & t & Ht & Hty & Hk). split.
      * apply Hnone; [|done]. rewrite <- Hty. by apply past_id.
      * exists t. rewrite fresh_key by done. auto.
    + intros u t k Hu Ht [Hn Hne]%lookup_insert_None Hku Hkt.
      assert (forall v, v ∈ past ++ [s] -> key_of v (<[stmt_id s := y0]> (cse_subst st)) =
        key_of v (cse_subst st)) as Hkv.
      { intros v [Hv|Hv%list_elem_of_singleton]%elem_of_app; [by apply fresh_key|subst v; apply fresh_own_key]. }
      rewrite Hkv in Hku, Hkt by done.
      eapply left_pairs; [exact Hu|exact Ht|exact Hn| |exact Hku|exact Hkt]. by intros ->.
  - constructor; [| | |exact past_closed].
    + intros x y Hx. destruct (inv_merged _ _ _ Hinv x y Hx) as (? & ? & u & t & k & ? & ? & ?).
      split_and!; [done..|]. exists u, t, k. auto.
    + intros k y [[= -> ->]|Hy]%elem_of_cons.
      * split; [apply fresh_subst|]. exists s. auto.
      * destruct (inv_table _ _ _ Hinv k y Hy) as (? & t & ? & ?). eauto 10.
    + intros u t k Hu Ht Hn Hku Hkt. eapply left_pairs; [exact Hu|exact Ht|exact Hn| |exact Hku|exact Hkt].
      intros -> y. rewrite Hkey in Hku. injection Hku as <-. by apply table_get_None.
Qed.
End Stmt.

(** ** One block *)

Definition stmts_of (v : BlockId) : list SsaStatement :=
  match block func v with Some b => stmts b | None => [] end.

Abbreviation past_of seen := (seen ≫= stmts_of).

Lemma stmts_of_defines v s : s ∈ stmts_of v -> defines func v (stmt_id s).
Proof. unfold stmts_of, defines. destruct (block func v) as [b|]; [|set_solver]. eauto. Qed.

Lemma defines_stmts_of v x : defines func v x -> x ∈ ids (stmts_of v).
Proof.
  intros (b & s & Hb & Hs & <-). unfold stmts_of. rewrite Hb. by apply list_elem_of_fmap_2.
Qed.

Lemma past_defines seen t : t ∈ past_of seen -> exists e, e ∈ seen /\ defines func e (stmt_id t).
Proof. intros (e & Ht & He)%list_elem_of_bind. exists e. split; [done|by apply stmts_of_defines]. Qed.

Lemma defines_past seen e x : e ∈ seen -> defines func e x -> x ∈ ids (past_of seen).
Proof.
  intros He (b & s & Hb & Hs & <-). apply list_elem_of_fmap_2, list_elem_of_bind.
  exists e. split; [|done]. unfold stmts_of. by rewrite Hb.
Qed.

Section Block.
Variable v : BlockId.
Variable b : SsaBlock.
Variable seen : list BlockId.
Hypothesis Hb : block func v = Some b.
Hypothesis Hv : reached_in v.
Hypothesis Hnew : v ∉ seen.
Hypothesis Hseen : forall e, e ∈ seen -> reached_in e.
Hypothesis Hup : forall e d, e ∈ v :: seen -> dominator_in d e -> d <> e -> d ∈ seen.

Abbreviation visible before y := (operand_ok func before v (Def y)).

Section Position.
Variables before after : list SsaStatement.
Variable s : SsaStatement.
Hypothesis Hl : stmts b = before ++ s :: after.

Lemma position_in t : t ∈ before \/ t = s -> t ∈ stmts b.
Proof. rewrite Hl. set_solver. Qed.

Lemma position_defines t : t ∈ before \/ t = s -> defines func v (stmt_id t).
Proof. intros Ht%position_in. exists b, t. done. Qed.

Lemma position_before y : y ∈ ids before -> defined_before func y v (stmt_id s).
Proof. intros Hy. left. by exists b, before, s, after. Qed.

Lemma comes_before_position y : visible before y <-> comes_before y (stmt_id s).
Proof.
  rewrite (visible_before func v b before s after y Hwf Hb Hl). split.
  - intros Hy d _ Hd. by rewrite (defines_unique func d v _ Hwf Hd (position_defines s (or_intror eq_refl))).
  - intros Hy. apply Hy; [done|]. apply position_defines. by right.
Qed.

Lemma position_past t : t ∈ past_of seen ++ before ->
  exists e, defines func e (stmt_id t) /\ reached_in e /\ (e ∈ seen \/ e = v /\ t ∈ before).
Proof.
  intros [(e & He & Hd)%past_defines|Ht]%elem_of_app.
  - exists e. auto.
  - exists v. split_and!; [by apply position_defines; left|done|by right].
Qed.

Lemma before_fresh t : t ∈ before -> stmt_id t <> stmt_id s.
Proof.
  intros Ht He. assert (defines func v (stmt_id s)) as Hd by (apply position_defines; by right).
  apply (defined_before_irrefl func (stmt_id s) v Hwf Hd), position_before.
  rewrite <- He. by apply list_elem_of_fmap_2.
Qed.

Lemma position_fresh : stmt_id s ∉ ids (past_of seen ++ before).
Proof.
  intros (t & Ht & Hin)%list_elem_of_fmap.
  assert (defines func v (stmt_id s)) as Hd by (apply position_defines; by right).
  destruct (position_past t Hin) as (e & He & _ & [Hes|[_ Hb']]).
  - rewrite <- Ht in He. apply Hnew. by rewrite (defines_unique func v e _ Hwf Hd He).
  - by apply (before_fresh t Hb').
Qed.

Lemma position_operands x : is_phi (stmt_op s) = false -> Def x ∈ operands (stmt_op s) ->
  x ∈ ids (past_of seen ++ before).
Proof.
  intros _ Hx. pose proof (wf_operands _ Hwf v b before s after _ Hv Hb Hl Hx) as Ho.
  rewrite map_app. apply elem_of_app. destruct Ho as [Hin|(d & Hne & Hd & Hdom)]; [by right|left].
  eapply defines_past; [|exact Hd]. by apply (Hup v); [left| |].
Qed.

Lemma position_order t : t ∈ past_of seen ++ before -> ~ comes_before (stmt_id s) (stmt_id t).
Proof.
  intros Ht Hc. destruct (position_past t Ht) as (e & Hd & He & Hor).
  assert (defines func v (stmt_id s)) as Hds by (apply position_defines; by right).
  destruct (Hc e He Hd) as [(b' & l1 & u & l2 & Hb' & Hl' & Hu & Hin)|(d & Hne & Hdd & Hdom)].
  - assert (defines func e (stmt_id s)) as Hes.
    { apply list_elem_of_fmap in Hin as (w & -> & Hw). exists b', w. split_and!; [done| |done].
      rewrite Hl'. apply elem_of_app. by left. }
    pose proof (defines_unique func v e _ Hwf Hds Hes) as <-. rewrite Hb in Hb'. injection Hb' as <-.
    destruct Hor as [Hes'|[_ Htb]]; [done|].
    apply list_elem_of_split in Htb as (m1 & m2 & Hm).
    assert (stmts b = m1 ++ t :: m2 ++ s :: after) as Hl2.
    { rewrite Hl, Hm, <- app_assoc. done. }
    destruct (split_unique func v b _ _ _ _ _ _ Hwf Hb Hl' Hl2 Hu) as (-> & _ & _).
    apply position_fresh. rewrite map_app, Hm, map_app. apply elem_of_app. right.
    apply elem_of_app. by left.
  - pose proof (defines_unique func v d _ Hwf Hds Hdd) as <-.
    destruct Hor as [Hes|[-> _]]; [|done]. apply Hnew. by apply (Hup e); [right| |].
Qed.
End Position.

(** The state of the pass after the statements [before] of the block, which was
    entered with [subst] and [table]. *)
Record block_state (subst : gmap SsaValueId SsaValueId) (table : CallTable) (before : list SsaStatement) (st : CseState) : Prop := {
  bs_inv : cse_inv (past_of seen ++ before) (cse_subst st) (cse_table st);
  bs_visible k y : (k, y) ∈ cse_table st -> visible before y;
  bs_complete t k : t ∈ past_of seen ++ before -> visible before (stmt_id t) ->
    key_of t (cse_subst st) = Some k -> exists y, (k, y) ∈ cse_table st;
  bs_restore e : e ∈ cse_table st /\ e.1 ∉ cse_inserted st <-> e ∈ table;
  bs_keys t : t ∈ past_of seen -> key_of t (cse_subst st) = key_of t subst
}.

Lemma visible_snoc before s y :
  visible (before ++ [s]) y <-> visible before y \/ y = stmt_id s.
Proof. simpl. rewrite map_app, elem_of_app. simpl. rewrite list_elem_of_singleton. tauto. Qed.

Lemma key_of_next before after s st t :
  stmts b = before ++ s :: after ->
  cse_inv (past_of seen ++ before) (cse_subst st) (cse_table st) ->
  t ∈ past_of seen ++ before ++ [s] ->
  key_of t (cse_subst (cse_stmt ctx shadowed st s)) = key_of t (cse_subst st).
Proof.
  intros Hl Hinv Ht. unfold cse_stmt. destruct (call_key (stmt_op s) _ _ _); [|done].
  destruct (table_get _ _); [|done]. simpl. rewrite app_assoc in Ht.
  apply elem_of_app in Ht as [Ht|Ht%list_elem_of_singleton].
  - eapply fresh_key; [exact Hinv| |exact Ht]. by eapply position_fresh.
  - subst t. apply (fresh_own_key s (past_of seen ++ before)); [by eapply position_fresh|].
    intros x. by eapply position_operands.
Qed.

Lemma block_step subst table before s after st :
  stmts b = before ++ s :: after ->
  block_state subst table before st ->
  block_state subst table (before ++ [s]) (cse_stmt ctx shadowed st s).
Proof.
  intros Hl [Hinv Hvis Hcom Hres Hkeys].
  assert (forall t, t ∈ past_of seen ++ before -> stmt_id t <> stmt_id s) as Hne.
  { intros t Ht He. apply (position_fresh before after s Hl). rewrite <- He.
    by apply list_elem_of_fmap_2. }
  assert (forall e, e ∈ cse_table st -> e ∈ cse_table (cse_stmt ctx shadowed st s)) as Hgrow.
  { intros e He. unfold cse_stmt. destruct (call_key _ _ _ _); [|done].
    destruct (table_get _ _); [done|by right]. }
  constructor.
  - rewrite app_assoc. eapply (cse_stmt_inv v); [done| |exact Hinv| | | | |].
    + apply (position_defines before after s Hl). by right.
    + by eapply position_fresh.
    + intros x. by eapply position_operands.
    + intros k y Hy. apply (comes_before_position before after s Hl). by eapply Hvis.
    + intros t k Ht Hc Hk. apply (Hcom t k Ht); [|done].
      by apply (comes_before_position before after s Hl).
    + intros t Ht. by eapply position_order.
  - intros k y Hy. apply visible_snoc. unfold cse_stmt in Hy.
    destruct (call_key _ _ _ _) as [key|]; [|left; by eapply Hvis].
    destruct (table_get _ _); [left; by eapply Hvis|]. simpl in Hy.
    apply elem_of_cons in Hy as [[= -> ->]|Hy]; [by right|left; by eapply Hvis].
  - intros t k Ht Hv' Hk. rewrite (key_of_next before after s st t Hl Hinv Ht) in Hk.
    rewrite app_assoc in Ht. apply visible_snoc in Hv'.
    apply elem_of_app in Ht as [Ht|Ht%list_elem_of_singleton].
    + destruct Hv' as [Hv'|He]; [|by apply Hne in He].
      destruct (Hcom t k Ht Hv' Hk) as [y Hy]. exists y. by apply Hgrow.
    + subst t. unfold cse_stmt. rewrite Hk.
      destruct (table_get (cse_table st) k) as [y|] eqn:Hg.
      * exists y. by apply table_get_Some.
      * exists (stmt_id s). left.
  - intros e. unfold cse_stmt. destruct (call_key _ _ _ _) as [key|]; [|apply Hres].
    destruct (table_get _ _) as [y|] eqn:Hg; [apply Hres|]. simpl.
    rewrite <- (Hres e), elem_of_app, list_elem_of_singleton, elem_of_cons. split.
    + intros [[->|He] Hn]; [simpl in Hn; tauto|]. split; [done|tauto].
    + intros [He Hn]. split; [by right|]. intros [?|Hk]; [done|].
      destruct e as [k y]. simpl in Hk. subst k. by eapply table_get_None.
  - intros t Ht. rewrite <- (Hkeys t Ht). apply (key_of_next before after s st t Hl Hinv).
    apply elem_of_app. by left.
Qed.

Lemma block_steps subst table before after st :
  stmts b = before ++ after -> block_state subst table before st ->
  block_state subst table (stmts b) (foldl (cse_stmt ctx shadowed) st after).
Proof.
  revert before st. induction after as [|s after IH]; intros before st Hl Hst; simpl.
  - rewrite app_nil_r in Hl. by rewrite Hl.
  - apply (IH (before ++ [s])); [by rewrite <- app_assoc|]. by eapply block_step.
Qed.
End Block.

(** ** The walk over the dominator tree *)

Variable idoms : gmap BlockId BlockId.
Hypothesis Hidoms : idoms_spec func idoms.

Abbreviation entry := (fn_entry func).

(** The blocks that were entered and those that are on the stack. *)
Record walk (seen pending : list BlockId) : Prop := {
  walk_unique : NoDup (seen ++ pending);
  walk_reached v : v ∈ seen ++ pending -> reached_in v;
  walk_parent v p : v ∈ seen ++ pending -> v <> entry -> idoms !! v = Some p -> p ∈ seen;
  walk_child v p : p ∈ seen -> v <> entry -> idoms !! v = Some p -> v ∈ seen ++ pending;
  walk_entry : entry ∈ seen ++ pending
}.

Lemma walk_start : walk [] [entry].
Proof.
  constructor; simpl.
  - apply NoDup_singleton.
  - intros v ->%list_elem_of_singleton. apply reached_entry.
  - by intros v p ->%list_elem_of_singleton.
  - by intros v p ?%elem_of_nil.
  - left.
Qed.

Lemma walk_dominators seen pending e d :
  walk seen pending -> e ∈ seen ++ pending -> dominator_in d e -> d <> e -> d ∈ seen.
Proof.
  intros Hw He Hd Hne. apply (idoms_chain _ _ Hidoms) in Hd; [|by eapply walk_reached].
  apply rtc_inv in Hd as [->|(y & [Hy Hn] & Hc)]; [done|].
  assert (y ∈ seen) as Hys by by eapply walk_parent. clear Hy Hn Hne He e.
  induction Hc as [y|y z d [Hz Hn] Hc IH]; [done|]. apply IH.
  eapply (walk_parent _ _ Hw y); [|done|done]. apply elem_of_app. by left.
Qed.

Lemma dom_children_elem b c : c ∈ dom_children idoms b <-> c <> b /\ idoms !! c = Some b.
Proof.
  unfold dom_children. rewrite list_elem_of_In, filter_In, <- list_elem_of_In.
  rewrite (merge_sort_Permutation le), elem_of_elements, elem_of_dom.
  rewrite andb_true_iff, negb_true_iff, Nat.eqb_neq, bool_decide_eq_true. split; [tauto|].
  intros [? H]. rewrite H. eauto.
Qed.

Lemma dom_children_unique b : NoDup (dom_children idoms b).
Proof.
  apply NoDup_ListNoDup, List.NoDup_filter, NoDup_ListNoDup.
  rewrite (merge_sort_Permutation le). apply NoDup_elements.
Qed.

Lemma walk_enter seen b pending :
  walk seen (b :: pending) -> walk (seen ++ [b]) (dom_children idoms b ++ pending).
Proof.
  intros Hw. pose proof (walk_unique _ _ Hw) as Hnd.
  assert (b ∉ seen /\ b ∉ pending) as [Hb Hbp].
  { apply NoDup_app in Hnd as (_ & Hd & Hn%NoDup_cons). split; [|tauto].
    intros H. apply (Hd b H). left. }
  assert (forall c, c ∈ dom_children idoms b -> c ∉ seen ++ b :: pending /\ c <> entry) as Hc.
  { intros c [Hcb Hc]%dom_children_elem. assert (c <> entry) as Hce.
    { intros ->. rewrite (idoms_entry _ _ Hidoms) in Hc. by injection Hc. }
    split; [|done]. intros H. apply Hb. by apply (walk_parent _ _ Hw c b). }
  constructor.
  - rewrite <- app_assoc. simpl. apply NoDup_app in Hnd as (H1 & H2 & H3).
    apply NoDup_cons in H3 as [_ H3]. apply NoDup_app. split; [done|]. split.
    + intros x Hx [->|[Hxc|Hxp]%elem_of_app]%elem_of_cons.
      * done.
      * destruct (Hc x Hxc) as [Hn _]. set_solver.
      * apply (H2 x Hx). by right.
    + apply NoDup_cons. rewrite elem_of_app. split.
      * intros [Hbc|?]; [|done]. destruct (Hc b Hbc) as [Hn _]. set_solver.
      * apply NoDup_app. split; [apply dom_children_unique|]. split; [|done].
        intros x Hx Hxp. destruct (Hc x Hx) as [Hn _]. set_solver.
  - intros v Hv. assert (v ∈ seen ++ b :: pending \/ v ∈ dom_children idoms b) as [H|H] by set_solver.
    + by eapply walk_reached.
    + apply dom_children_elem in H as [_ H]. apply (idoms_key _ _ Hidoms). by eexists.
  - intros v p Hv Hne Hp.
    assert (v ∈ seen ++ b :: pending \/ v ∈ dom_children idoms b) as [H|H] by set_solver.
    + apply elem_of_app. left. by eapply walk_parent.
    + apply dom_children_elem in H as [_ H]. rewrite H in Hp. injection Hp as <-. set_solver.
  - intros v p [Hp|Hp%list_elem_of_singleton]%elem_of_app Hne Hv.
    + pose proof (walk_child _ _ Hw v p Hp Hne Hv). set_solver.
    + subst p. assert (v ∈ dom_children idoms b); [|set_solver]. apply dom_children_elem.
      split; [|done]. apply not_eq_sym. by apply (idoms_acyclic _ _ Hidoms v b).
  - pose proof (walk_entry _ _ Hw). set_solver.
Qed.

Lemma walk_end seen v : walk seen [] -> reached_in v -> v ∈ seen.
Proof.
  intros Hw Hv. assert (rtc (up func idoms) v entry) as Hc.
  { apply (idoms_chain _ _ Hidoms); [done|apply entry_dominator]. }
  pose proof (walk_entry _ _ Hw) as He. rewrite app_nil_r in He.
  remember entry as e eqn:Hee. clear Hv.
  induction Hc as [x|x y z [Hy Hn] Hc IH]; [done|]. specialize (IH Hee He).
  pose proof (walk_child _ _ Hw x y IH Hn Hy) as H. by rewrite app_nil_r in H.
Qed.

Lemma walk_length seen pending : walk seen pending -> length (seen ++ pending) <= size idoms.
Proof.
  intros Hw. rewrite <- size_dom. rewrite <- (size_list_to_set (C := gset nat) (seen ++ pending)).
  - apply subseteq_size. intros v Hv%elem_of_list_to_set. apply elem_of_dom, (idoms_key _ _ Hidoms).
    by eapply walk_reached.
  - by apply walk_unique.
Qed.

Lemma reached_block v : reached_in v -> is_Some (block func v).
Proof.
  pose proof (well_formed_edges _ Hwf) as He. intros (l & Hl).
  destruct Hl; [apply (entry_exists _ He)|by eapply (succ_exists _ He)].
Qed.

Fixpoint pending (stack : list Action) : list BlockId :=
  match stack with
  | [] => []
  | Enter b :: stack => b :: pending stack
  | Exit _ :: stack => pending stack
  end.

Abbreviation seen_from c y := (operand_ok func [] c (Def y)).

(** The table fits the stack: a block on it will be entered with the calls of
    its strict dominators. *)
Fixpoint scope (past : list SsaStatement) (subst : gmap SsaValueId SsaValueId)
    (stack : list Action) (table : CallTable) : Prop :=
  match stack with
  | [] => True
  | Enter c :: stack =>
      (forall k y, (k, y) ∈ table -> seen_from c y) /\
      (forall t k, t ∈ past -> seen_from c (stmt_id t) -> key_of t subst = Some k ->
        exists y, (k, y) ∈ table) /\
      scope past subst stack table
  | Exit inserted :: stack => scope past subst stack (foldl table_remove table inserted)
  end.

Lemma scope_table past subst stack table table' :
  (forall e, e ∈ table <-> e ∈ table') -> scope past subst stack table ->
  scope past subst stack table'.
Proof.
  revert table table'. induction stack as [|[c|ins] stack IH]; intros table table' He; simpl; [done| |].
  - intros (H1 & H2 & H3). split_and!.
    + intros k y Hy. by apply (H1 k y), He.
    + intros t k Ht Hv Hk. destruct (H2 t k Ht Hv Hk) as [y Hy]. exists y. by apply He.
    + by eapply IH.
  - apply IH. intros e. by rewrite !table_remove_all, He.
Qed.

Lemma scope_past seen b subst subst' stack table :
  b ∉ seen -> (forall c d, c ∈ pending stack -> dominator_in d c -> d <> c -> d ∈ seen) ->
  (forall t, t ∈ past_of seen -> key_of t subst' = key_of t subst) ->
  scope (past_of seen) subst stack table -> scope (past_of (seen ++ [b])) subst' stack table.
Proof.
  intros Hb Hdom Hk. revert table Hdom.
  induction stack as [|[c|ins] stack IH]; intros table Hdom; simpl; [done| |].
  - intros (H1 & H2 & H3). split_and!; [done| |].
    + intros t k Ht [Hv|(d & Hne & Hd & Hdc)] Hkt; [by apply elem_of_nil in Hv|].
      rewrite bind_app in Ht. apply elem_of_app in Ht as [Ht|Ht].
      * rewrite Hk in Hkt by done. apply (H2 t k Ht); [|done]. right. by exists d.
      * exfalso. apply Hb. apply list_elem_of_bind in Ht as (e & Ht & He%list_elem_of_singleton).
        subst e. rewrite (defines_unique func b d _ Hwf (stmts_of_defines _ _ Ht) Hd).
        apply (Hdom c); [left|done|done].
    + apply IH; [|done]. intros e d He. apply Hdom. by right.
  - by apply IH.
Qed.

Lemma scope_children past subst b cs stack table :
  (forall c, c ∈ cs -> (forall k y, (k, y) ∈ table -> seen_from c y) /\
    forall t k, t ∈ past -> seen_from c (stmt_id t) -> key_of t subst = Some k ->
      exists y, (k, y) ∈ table) ->
  scope past subst (Exit b :: stack) table ->
  scope past subst (map Enter cs ++ Exit b :: stack) table.
Proof.
  induction cs as [|c cs IH]; intros Hc Hs; [done|]. simpl. split_and!.
  - apply Hc. left.
  - apply Hc. left.
  - apply IH; [|done]. intros x Hx. apply Hc. by right.
Qed.

Lemma pending_children cs stack : pending (map Enter cs ++ stack) = cs ++ pending stack.
Proof. induction cs as [|c cs IH]; [done|]. simpl. by rewrite IH. Qed.

Lemma inv_forget past subst table inserted :
  cse_inv past subst table -> cse_inv past subst (foldl table_remove table inserted).
Proof.
  intros [H1 H2 H3 H4]. constructor; [done| |done|done]. intros k y [Hy _]%table_remove_all. by apply H2.
Qed.

(** From the end of a block to its children in the tree. *)
Lemma child_visible b c blk y :
  block func b = Some blk -> reached_in c -> c ∈ dom_children idoms b ->
  seen_from c y <-> operand_ok func (stmts blk) b (Def y).
Proof.
  intros Hb Hc [Hne Hi]%dom_children_elem.
  assert (c <> entry) as Hce.
  { intros ->. rewrite (idoms_entry _ _ Hidoms) in Hi. by injection Hi. }
  assert (dominator_in b c) as Hbc.
  { apply (idoms_chain _ _ Hidoms); [done|]. by apply rtc_once. }
  assert (reached_in b) as Hrb by by eapply reached_dominator.
  split.
  - intros [Hv|(d & Hdc & Hd & Hdom)]; [by apply elem_of_nil in Hv|].
    apply (idoms_chain _ _ Hidoms) in Hdom; [|done].
    apply rtc_inv in Hdom as [->|(x & [Hx _] & Hch)]; [done|].
    rewrite Hi in Hx. injection Hx as <-. apply (idoms_chain _ _ Hidoms) in Hch; [|done].
    destruct (decide (d = b)) as [->|Hdb]; [left|right; by exists d].
    destruct Hd as (blk' & s & Hb' & Hs & <-). rewrite Hb in Hb'. injection Hb' as <-.
    by apply list_elem_of_fmap_2.
  - intros [Hv|(d & Hdb & Hd & Hdom)]; right.
    + exists b. split_and!; [done| |done]. apply list_elem_of_fmap in Hv as (s & -> & Hs).
      by exists blk, s.
    + exists d. split_and!; [|done|by eapply dominator_trans]. intros ->.
      apply Hne. by eapply dominator_antisym.
Qed.

(** Entering a block: what the walk keeps. *)
Lemma enter_spec seen stack subst table b :
  walk seen (b :: pending stack) -> cse_inv (past_of seen) subst table ->
  scope (past_of seen) subst (Enter b :: stack) table ->
  exists blk, block func b = Some blk /\
    let st := foldl (cse_stmt ctx shadowed)
                {| cse_table := table; cse_subst := subst; cse_inserted := [] |} (stmts blk) in
    let stack' := map Enter (dom_children idoms b) ++ Exit (cse_inserted st) :: stack in
    walk (seen ++ [b]) (pending stack') /\
    cse_inv (past_of (seen ++ [b])) (cse_subst st) (cse_table st) /\
    scope (past_of (seen ++ [b])) (cse_subst st) stack' (cse_table st).
Proof.
  intros Hw Hinv (Hvis & Hcom & Hs).
  assert (b ∈ seen ++ b :: pending stack) as Hbin by (apply elem_of_app; right; left).
  pose proof (walk_reached _ _ Hw b Hbin) as Hr.
  destruct (reached_block b Hr) as [blk Hb]. exists blk. split; [done|].
  assert (b ∉ seen) as Hnew.
  { pose proof (walk_unique _ _ Hw) as (_ & Hd & _)%NoDup_app. intros H. apply (Hd b H). left. }
  assert (past_of (seen ++ [b]) = past_of seen ++ stmts blk) as Hpast.
  { rewrite bind_app. csimpl. unfold stmts_of at 2. by rewrite Hb, app_nil_r. }
  assert (forall e, e ∈ b :: seen -> e ∈ seen ++ b :: pending stack) as Hsub.
  { intros e [->|He]%elem_of_cons; [done|]. apply elem_of_app. by left. }
  assert (block_state b seen subst table [] {| cse_table := table; cse_subst := subst;
    cse_inserted := [] |}) as Hst.
  { constructor; simpl; rewrite ?app_nil_r; try done. intros e. set_solver. }
  assert (forall e, e ∈ seen -> reached_in e) as Hseen.
  { intros e He. apply (walk_reached _ _ Hw), elem_of_app. by left. }
  assert (forall e d, e ∈ b :: seen -> dominator_in d e -> d <> e -> d ∈ seen) as Hup.
  { intros e d He. eapply walk_dominators; [exact Hw|by apply Hsub]. }
  pose proof (block_steps b blk seen Hb Hr Hnew Hseen Hup subst table [] (stmts blk) _ eq_refl Hst)
    as Hend. clear Hst. rename Hend into Hst.
  destruct Hst as [Hinv' Hvis' Hcom' Hres Hkeys]. rewrite Hpast.
  pose proof (walk_enter seen b (pending stack) Hw) as Hw'.
  cbn zeta. rewrite pending_children. cbn [pending]. split_and!; [done|done|].
  apply scope_children.
  - intros c Hc. assert (reached_in c) as Hrc.
    { apply (walk_reached _ _ Hw'). apply elem_of_app. right. apply elem_of_app. by left. }
    split.
    + intros k y Hy. apply (child_visible b c blk y Hb Hrc Hc). by eapply Hvis'.
    + intros t k Ht Hv Hk. apply (Hcom' t k); [done| |done].
      by apply (child_visible b c blk _ Hb Hrc Hc).
  - cbn [scope]. rewrite <- Hpast. eapply scope_table;
      [|eapply (scope_past seen b subst); [done| |exact Hkeys|exact Hs]].
    + intros e. rewrite table_remove_all. by rewrite Hres.
    + intros c d Hc Hd Hne. eapply walk_dominators; [exact Hw| |done|done].
      apply elem_of_app. right. by right.
Qed.

Definition exits (stack : list Action) : nat := length stack - length (pending stack).

Lemma pending_length stack : length (pending stack) <= length stack.
Proof. induction stack as [|[c|ins] stack IH]; simpl; lia. Qed.

Lemma cse_loop_spec fuel seen subst table stack :
  walk seen (pending stack) -> cse_inv (past_of seen) subst table ->
  scope (past_of seen) subst stack table ->
  2 * (size idoms - length seen) + exits stack <= fuel ->
  exists subst' seen' table',
    cse_loop func ctx shadowed idoms fuel table subst stack = Some subst' /\
    walk seen' [] /\ cse_inv (past_of seen') subst' table'.
Proof.
  revert seen subst table stack.
  induction fuel as [|fuel IH]; intros seen subst table stack Hw Hinv Hs Hf;
    destruct stack as [|[b|ins] stack]; simpl; try (by exists subst, seen, table).
  - exfalso. pose proof (walk_length _ _ Hw) as Hl. rewrite length_app in Hl. simpl in Hl. lia.
  - exfalso. unfold exits in Hf. simpl in Hf. pose proof (pending_length stack). lia.
  - pose proof (walk_length _ _ Hw) as Hl. rewrite length_app in Hl. simpl in Hl.
    destruct (enter_spec seen stack subst table b Hw Hinv Hs) as (blk & -> & Hw' & Hinv' & Hs').
    simpl. eapply IH; [exact Hw'|exact Hinv'|exact Hs'|].
    revert Hf. unfold exits. rewrite pending_children, !length_app, length_map. simpl.
    pose proof (pending_length stack). lia.
  - eapply IH; [exact Hw|by apply inv_forget|exact Hs|].
    revert Hf. unfold exits. simpl. pose proof (pending_length stack). lia.
Qed.

Lemma cse_start :
  exists subst table seen,
    cse_loop func ctx shadowed idoms (cse_fuel idoms) [] ∅ [Enter entry] = Some subst /\
    (forall v, reached_in v -> v ∈ seen) /\ cse_inv (past_of seen) subst table.
Proof.
  destruct (cse_loop_spec (cse_fuel idoms) [] ∅ [] [Enter entry]) as (subst & seen & table & Hr & Hw & Hi).
  - apply walk_start.
  - constructor; simpl; [by intros x y Hx; rewrite lookup_empty in Hx|..]; set_solver.
  - simpl. split; [set_solver|]. split; [set_solver|done].
  - unfold exits, cse_fuel. simpl. lia.
  - exists subst, table, seen. split_and!; [done| |done]. intros v. by apply walk_end.
Qed.

Lemma past_all seen t : t ∈ past_of seen -> t ∈ all_stmts func.
Proof.
  intros (e & Ht & _)%list_elem_of_bind. unfold stmts_of in Ht.
  destruct (block func e) as [b|] eqn:Hb; [|by apply elem_of_nil in Ht]. by eapply block_stmts.
Qed.

Lemma reached_past seen s d :
  (forall v, reached_in v -> v ∈ seen) -> s ∈ all_stmts func -> reached_in d ->
  defines func d (stmt_id s) -> s ∈ past_of seen.
Proof.
  intros Hall Hs Hd Hdef. apply list_elem_of_bind in Hs as (b & Hs & [i Hb]%list_elem_of_lookup).
  assert (defines func i (stmt_id s)) as Hi by by exists b, s.
  rewrite (defines_unique func d i _ Hwf Hdef Hi) in Hd. apply list_elem_of_bind.
  exists i. split; [|by apply Hall]. unfold stmts_of, block. by rewrite Hb.
Qed.
End Cse.

Section Pass.
Context {P : Payload} {D : Dispatch}.
Implicit Types func : SsaFunction.

Definition merged_by func (subst : gmap SsaValueId SsaValueId) : SsaFunction :=
  retain_stmts (apply_substitutions func (Def <$> subst)) (not_in (Def <$> subst)).

Lemma merged_nothing func : merged_by func ∅ = func.
Proof.
  unfold merged_by. rewrite fmap_empty, apply_empty. unfold retain_stmts, with_blocks.
  replace (map _ (fn_blocks func)) with (fn_blocks func); [by destruct func|].
  induction (fn_blocks func) as [|b l IH]; [done|]. simpl. rewrite <- IH. f_equal.
  unfold with_stmts. replace (List.filter _ (stmts b)) with (stmts b); [by destruct b|].
  induction (stmts b) as [|s ss IHs]; [done|]. simpl. rewrite <- IHs. unfold not_in.
  by rewrite lookup_empty.
Qed.

Lemma cse_pure_calls_result func inputs :
  well_formed func ->
  let ctx := effect_ctx func inputs in
  let shadowed := shadowed_callee_names func (in_locally_bound inputs) in
  exists changed func' subst table seen,
    cse_pure_calls_scoped_inner func inputs = Some (changed, func') /\
    func' = merged_by func subst /\ well_formed func' /\
    ((changed = false /\ func' = func /\ subst = ∅) \/
     (changed = true /\ ssa_size func' < ssa_size func)) /\
    (forall v, reached (edge func) (fn_entry func) v -> v ∈ seen) /\
    cse_inv func ctx shadowed (seen ≫= stmts_of func) subst table.
Proof.
  intros Hwf ctx shadowed. destruct (compute_reachable_total func) as [reachable Hr].
  destruct (compute_idoms_spec func reachable (well_formed_edges _ Hwf) Hr) as (idoms & Hi & Hspec).
  destruct (cse_start func ctx shadowed Hwf idoms Hspec) as (subst & table & seen & Hl & Hall & Hinv).
  unfold cse_pure_calls_scoped_inner. rewrite Hr. cbn [mbind option_bind]. rewrite Hi.
  cbn [mbind option_bind]. fold ctx. fold shadowed. rewrite Hl. cbn [mbind option_bind].
  case_bool_decide as He.
  - exists false, func, subst, table, seen. rewrite He in *. rewrite merged_nothing. auto 10.
  - exists true, (merged_by func subst), subst, table, seen. split_and!; try done.
    + apply substitution_well_formed; [done| |].
      * intros id v d Hv Hrd Hd. rewrite lookup_fmap in Hv. apply fmap_Some in Hv as (y & Hy & ->).
        destruct (inv_merged _ _ _ _ _ _ Hinv _ _ Hy) as (_ & Hc & _). by apply Hc.
      * intros id x Hx. rewrite lookup_fmap in Hx. apply fmap_Some in Hx as (y & Hy & [= ->]).
        destruct (inv_merged _ _ _ _ _ _ Hinv _ _ Hy) as (Hn & _). by rewrite lookup_fmap, Hn.
    + right. split; [done|]. apply map_choose in He as (x & y & Hx).
      apply (subst_size func _ x).
      * destruct (inv_merged _ _ _ _ _ _ Hinv _ _ Hx) as (_ & _ & s & _ & _ & Hs & _ & <- & _).
        apply list_elem_of_fmap_2. by eapply past_all.
      * rewrite lookup_fmap, Hx. by eexists.
Qed.

Lemma cse_inv_left func ctx shadowed seen subst table s t d k :
  well_formed func -> (forall v, reached (edge func) (fn_entry func) v -> v ∈ seen) ->
  cse_inv func ctx shadowed (seen ≫= stmts_of func) subst table ->
  s ∈ all_stmts func -> t ∈ all_stmts func ->
  reached (edge func) (fn_entry func) d -> defines func d (stmt_id s) ->
  subst !! stmt_id s = None -> call_key (stmt_op s) ctx shadowed subst = Some k ->
  call_key (stmt_op t) ctx shadowed subst = Some k ->
  ~ defined_before func (stmt_id t) d (stmt_id s).
Proof.
  intros Hwf Hall Hinv Hs Ht Hd Hdef Hn Hks Hkt Hbefore.
  assert (comes_before func (stmt_id t) (stmt_id s)) as Hc.
  { intros e _ He. by rewrite (defines_unique func e d _ Hwf He Hdef). }
  destruct (defined_before_site func _ _ _ Hbefore) as (e & Hde & Hor).
  assert (reached (edge func) (fn_entry func) e) as Hre.
  { destruct Hor as [->|Hdom]; [done|by eapply reached_dominator]. }
  apply (inv_left _ _ _ _ _ _ Hinv s t k); try done.
  - by apply (reached_past func Hwf seen s d).
  - by apply (reached_past func Hwf seen t e).
Qed.

(** C21. The pass ends, does not panic and keeps a function in SSA form.  It merges a
    call only into a foldable call of the same function with the same operands
    that comes before it on every path, and of two such calls with equal keys
    it leaves none. *)
Theorem cse_pure_calls_spec func inputs :
  well_formed func ->
  let ctx := effect_ctx func inputs in
  let shadowed := shadowed_callee_names func (in_locally_bound inputs) in
  exists changed func' subst,
    cse_pure_calls_scoped_inner func inputs = Some (changed, func') /\
    func' = merged_by func subst /\ well_formed func' /\
    (forall x y, subst !! x = Some y ->
      exists s t, s ∈ all_stmts func /\ t ∈ all_stmts func /\ stmt_id s = x /\ stmt_id t = y /\
        subst !! y = None /\ comes_before func y x /\
        same_call (Def <$> subst) (stmt_op s) (stmt_op t) /\
        is_foldable (op_effects (stmt_op s) ctx shadowed) = true) /\
    (forall s t d k, s ∈ all_stmts func -> t ∈ all_stmts func ->
      reached (edge func) (fn_entry func) d -> defines func d (stmt_id s) ->
      subst !! stmt_id s = None -> call_key (stmt_op s) ctx shadowed subst = Some k ->
      call_key (stmt_op t) ctx shadowed subst = Some k ->
      ~ defined_before func (stmt_id t) d (stmt_id s)).
Proof.
  intros Hwf ctx shadowed.
  destruct (cse_pure_calls_result func inputs Hwf)
    as (changed & func' & subst & table & seen & Hrun & Hf & Hwf' & _ & Hall & Hinv).
  exists changed, func', subst. split_and!; [done..| |].
  - intros x y Hx. destruct (inv_merged _ _ _ _ _ _ Hinv x y Hx)
      as (Hy & Hc & s & t & k & Hs & Ht & Hids & Hidt & Hks & Hkt).
    destruct (call_key_same _ _ _ _ _ _ Hks Hkt) as (Hsame & Hfold & _).
    exists s, t. split_and!; try done; by eapply past_all.
  - intros s t d k. by apply (cse_inv_left func ctx shadowed seen subst table).
Qed.
End Pass.
