(* ===== verification/SsaOptimize.v ===== *)
(** * The optimizer

    The passes repeated to a fixpoint: [optimize_scoped_inner] does not panic, it
    keeps a function in SSA form, every round that changes something makes the
    function smaller, and where it stops before the bound of 64 rounds nothing
    is left that a pass would change. *)

From S2P Require Export SsaCse.

Section Optimize.
Context {P : Payload} {D : Dispatch}.
Implicit Types func : SsaFunction.

(** What a pass promises: it ends, keeps SSA form, and changes a function only
    into a smaller one. *)
Definition shrinks (pass : SsaFunction -> option (bool * SsaFunction)) : Prop :=
  forall func, well_formed func -> exists changed func',
    pass func = Some (changed, func') /\ well_formed func' /\
    ((changed = false /\ func' = func) \/ (changed = true /\ ssa_size func' < ssa_size func)).

Lemma fold_shrinks inputs : shrinks (fun func => fold_constants_scoped_inner func inputs).
Proof. intros func Hwf. by apply fold_loop_spec. Qed.

Lemma unreachable_shrinks : shrinks eliminate_unreachable_blocks.
Proof.
  intros func Hwf. destruct (eliminate_unreachable_blocks_result func Hwf)
    as (changed & func' & _ & H & Hwf' & Hor & _). eauto.
Qed.

Lemma dead_defs_shrinks inputs : shrinks (fun func => eliminate_dead_defs_scoped_inner func inputs).
Proof. intros func Hwf. by apply eliminate_dead_defs_result. Qed.

Lemma merging_shrinks inputs : shrinks (fun func => cse_pure_calls_scoped_inner func inputs).
Proof.
  intros func Hwf. destruct (cse_pure_calls_result func inputs Hwf)
    as (changed & func' & subst & _ & _ & H & _ & Hwf' & Hor & _).
  exists changed, func'. split_and!; [done..|]. destruct Hor as [(? & ? & _)|?]; auto.
Qed.

(** One pass after another. *)
Definition and_pass (p q : SsaFunction -> option (bool * SsaFunction)) func :=
  '(c1, func) ← p func; '(c2, func) ← q func; Some (c1 || c2, func).

Lemma and_pass_shrinks p q : shrinks p -> shrinks q -> shrinks (and_pass p q).
Proof.
  intros Hp Hq func Hwf. destruct (Hp func Hwf) as (c1 & f1 & H1 & Hwf1 & Hor1).
  destruct (Hq f1 Hwf1) as (c2 & f2 & H2 & Hwf2 & Hor2). exists (c1 || c2), f2.
  unfold and_pass. rewrite H1. cbn [mbind option_bind]. rewrite H2. split_and!; [done..|].
  destruct Hor1 as [[-> ->]|[-> ?]], Hor2 as [[-> ->]|[-> ?]]; simpl; auto; right; split; (done || lia).
Qed.

Lemma and_pass_same p q func :
  shrinks p -> shrinks q -> well_formed func -> and_pass p q func = Some (false, func) ->
  p func = Some (false, func) /\ q func = Some (false, func).
Proof.
  intros Hp Hq Hwf. destruct (Hp func Hwf) as (c1 & f1 & H1 & Hwf1 & Hor1).
  destruct (Hq f1 Hwf1) as (c2 & f2 & H2 & Hwf2 & Hor2).
  unfold and_pass. rewrite H1. cbn [mbind option_bind]. rewrite H2. cbn [mbind option_bind].
  intros [= [-> ->]%orb_false_iff ->].
  destruct Hor1 as [[_ He]|[? _]]; [|done]. destruct Hor2 as [[_ He2]|[? _]]; [|done].
  subst f1. by split.
Qed.

Lemma optimize_round_passes func inputs :
  optimize_round func inputs =
    and_pass (and_pass (and_pass (fun func => fold_constants_scoped_inner func inputs)
      eliminate_unreachable_blocks) (fun func => eliminate_dead_defs_scoped_inner func inputs))
      (fun func => cse_pure_calls_scoped_inner func inputs) func.
Proof.
  unfold optimize_round, and_pass. destruct (fold_constants_scoped_inner _ _) as [[c1 f1]|]; [|done].
  simpl. destruct (eliminate_unreachable_blocks _) as [[c2 f2]|]; [|done]. simpl.
  destruct (eliminate_dead_defs_scoped_inner _ _) as [[c3 f3]|]; [|done]. simpl.
  by destruct (cse_pure_calls_scoped_inner _ _) as [[c4 f4]|].
Qed.

#[local] Hint Resolve and_pass_shrinks fold_shrinks unreachable_shrinks dead_defs_shrinks
  merging_shrinks : core.

Lemma optimize_round_shrinks inputs : shrinks (fun func => optimize_round func inputs).
Proof.
  intros func Hwf. setoid_rewrite optimize_round_passes.
  eapply and_pass_shrinks; [..|exact Hwf]; auto.
Qed.

Lemma optimize_rounds_spec rounds func inputs :
  well_formed func ->
  exists done func', optimize_rounds rounds func inputs = Some (done, func') /\ well_formed func' /\
    ssa_size func' <= ssa_size func /\
    (done = true -> optimize_round func' inputs = Some (false, func')) /\
    (done = false -> ssa_size func' + rounds <= ssa_size func).
Proof.
  revert func. induction rounds as [|rounds IH]; intros func Hwf; simpl.
  { exists false, func. split_and!; (done || lia). }
  destruct (optimize_round_shrinks inputs func Hwf) as (c & f & Hr & Hwf' & [[-> ->]|[-> Hlt]]);
    rewrite Hr; simpl.
  - exists true, func. split_and!; (done || lia).
  - destruct (IH f Hwf') as (c2 & f2 & Ho & Hwf2 & Hle & Ht & Hf). exists c2, f2.
    split_and!; [done..|lia|done|]. intros H. specialize (Hf H). lia.
Qed.

(** ** What a fixpoint looks like *)

Lemma fold_branches_none func changed indices func' :
  fold_branches_loop func changed indices = Some (false, func') ->
  func' = func /\ forall i b, i ∈ indices -> block func i = Some b -> folded_branch (terminator b) = None.
Proof.
  assert (forall f l r, fold_branches_loop f true l = Some r -> r.1 = true) as Htrue.
  { intros f l. revert f. induction l as [|i l IH]; intros f r; simpl; [by intros [= <-]|].
    destruct (block f i) as [b|]; [|done]. simpl.
    destruct (folded_branch (terminator b)) as [[tk dr]|]; [|by apply IH].
    destruct (Nat.eqb dr tk); simpl; [by apply IH|]. destruct (remove_edge _ _ _); [|done]. apply IH. }
  revert changed. induction indices as [|i l IH]; intros changed; simpl.
  { intros [= -> ->]. split; [done|]. by intros i b ?%elem_of_nil. }
  destruct (block func i) as [b|] eqn:Hb; [|done]. simpl.
  destruct (folded_branch (terminator b)) as [[tk dr]|] eqn:Hfb.
  - destruct (Nat.eqb dr tk); simpl; [by intros ?%Htrue|].
    destruct (remove_edge _ _ _); [|done]. by intros ?%Htrue.
  - intros H. apply IH in H as [-> H]. split; [done|].
    intros j c [->|Hj]%elem_of_cons Hc; [|by eapply H]. rewrite Hb in Hc. by injection Hc as <-.
Qed.

Lemma fold_fixpoint func inputs :
  well_formed func -> fold_constants_scoped_inner func inputs = Some (false, func) ->
  (resolve_substitutions (folded_defs func (Some inputs)) = Some ∅) /\
  forall i b, block func i = Some b -> folded_branch (terminator b) = None.
Proof.
  intros Hwf. unfold fold_constants_scoped_inner, fold_constants_inner.
  assert (forall fuel f c r, fold_loop fuel f (Some inputs) c = Some r -> c = true -> r.1 = true) as Htrue.
  { induction fuel as [|fuel IH]; intros f c r; simpl;
      (destruct (fold_turn f (Some inputs)) as [[[] f']|]; [|by intros [= <-]|done]); [done|].
    intros H _. by eapply IH. }
  assert (forall fuel, fold_loop fuel func (Some inputs) false = Some (false, func) ->
    fold_turn func (Some inputs) = Some (false, func)) as Hturn.
  { intros [|fuel]; simpl;
      (destruct (fold_turn func (Some inputs)) as [[[] f']|] eqn:He; [|by intros [= ->]|done]); [done|].
    intros H. by apply Htrue in H. }
  intros H%Hturn. unfold fold_turn in H.
  destruct (resolve_substitutions _) as [r|]; [|done]. cbn [mbind option_bind] in H.
  case_bool_decide as Hr; simpl in H.
  2:{ destruct (fold_constant_branches _) as [[]|]; [|done]. by injection H. }
  split; [by rewrite Hr|].
  destruct (fold_constant_branches func) as [[c f]|] eqn:Hf; [|done]. injection H as -> ->.
  intros i b Hb. apply fold_branches_none in Hf as [_ Hf]. apply (Hf i b); [|done].
  apply elem_of_seq. split; [lia|]. by eapply lookup_lt_Some.
Qed.

Lemma unreachable_fixpoint func v :
  well_formed func -> eliminate_unreachable_blocks func = Some (false, func) ->
  is_Some (block func v) -> reached (edge func) (fn_entry func) v.
Proof.
  intros Hwf He [b Hb]. destruct (eliminate_unreachable_blocks_result func Hwf)
    as (c & f & reachable & Hrun & _ & _ & Hreach & Hre).
  rewrite Hrun in He. injection He as -> ->.
  assert (v < length (fn_blocks func)) as Hv by by eapply lookup_lt_Some.
  rewrite (renumbered_length _ _ _ Hre) in Hv. apply lookup_lt_is_Some in Hv as [w Hw].
  eapply renumbered_reached; [done|done| |exact Hw]. apply Hreach.
  apply list_elem_of_lookup_2 in Hw. by apply list_elem_of_filter in Hw as [? _].
Qed.

Lemma dead_defs_fixpoint func inputs s :
  well_formed func -> eliminate_dead_defs_scoped_inner func inputs = Some (false, func) ->
  s ∈ all_stmts func -> exists r, root func inputs r /\ rtc (reads func) r (stmt_id s).
Proof.
  intros Hwf He Hs. destruct (eliminate_dead_defs_run func inputs Hwf) as (live & Hrun & _ & Hlive).
  rewrite Hrun in He. injection He as Hlen Hsame. apply Hlive.
  rewrite <- Hsame in Hs. unfold all_stmts in Hs. simpl in Hs.
  apply list_elem_of_bind in Hs as (b' & Hs & Hb'). apply list_elem_of_fmap in Hb' as (b & -> & _).
  simpl in Hs. apply list_elem_of_In, filter_In in Hs as [_ Hk]. by apply bool_decide_eq_true in Hk.
Qed.

Lemma cse_fixpoint func inputs s t d k :
  well_formed func -> cse_pure_calls_scoped_inner func inputs = Some (false, func) ->
  let key s := call_key (stmt_op s) (effect_ctx func inputs)
                 (shadowed_callee_names func (in_locally_bound inputs)) ∅ in
  s ∈ all_stmts func -> t ∈ all_stmts func -> reached (edge func) (fn_entry func) d ->
  defines func d (stmt_id s) -> key s = Some k -> key t = Some k ->
  ~ defined_before func (stmt_id t) d (stmt_id s).
Proof.
  intros Hwf He key Hs Ht Hd Hdef Hks Hkt Hbefore.
  destruct (cse_pure_calls_result func inputs Hwf)
    as (changed & func' & subst & table & seen & Hrun & _ & _ & Hor & Hall & Hinv).
  rewrite Hrun in He. injection He as -> ->.
  destruct Hor as [(_ & _ & ->)|[? _]]; [|done].
  revert Hbefore. eapply (cse_inv_left func _ _ seen ∅ table); try done; apply lookup_empty.
Qed.

(** C14. The optimizer ends, does not panic and keeps a function in SSA form; it never
    makes it bigger.  Where it stops before the bound nothing changes any more,
    and it does so when the function counts fewer statements, blocks and
    branches than the bound allows rounds. *)
Theorem optimize_scoped_inner_spec func inputs :
  well_formed func ->
  exists done func', optimize_scoped_inner func inputs = Some (done, func') /\ well_formed func' /\
    ssa_size func' <= ssa_size func /\
    (done = true -> optimize_scoped_inner func' inputs = Some (true, func')) /\
    (ssa_size func < MAX_ROUNDS -> done = true).
Proof.
  intros Hwf. destruct (optimize_rounds_spec MAX_ROUNDS func inputs Hwf)
    as (c & f & Ho & Hwf' & Hle & Ht & Hf).
  exists c, f. split_and!; [done..| |].
  - intros H. unfold optimize_scoped_inner, MAX_ROUNDS. cbn [optimize_rounds]. by rewrite (Ht H).
  - intros Hlt. destruct c; [done|]. specialize (Hf eq_refl). lia.
Qed.

(** C28. Where the optimizer stops before the bound, its result is in normal form:
    every block can be reached, no branch has a constant boolean condition, every
    statement is read, directly or not, by a statement or a terminator that must
    stay, and no call has an equal foldable call before it. *)
Theorem optimized_normal_form func inputs func' :
  well_formed func -> optimize_scoped_inner func inputs = Some (true, func') ->
  (forall v b, block func' v = Some b ->
    reached (edge func') (fn_entry func') v /\ folded_branch (terminator b) = None) /\
  (forall s, s ∈ all_stmts func' -> exists r, root func' inputs r /\ rtc (reads func') r (stmt_id s)) /\
  (forall s t d k, s ∈ all_stmts func' -> t ∈ all_stmts func' ->
    let key s := call_key (stmt_op s) (effect_ctx func' inputs)
                   (shadowed_callee_names func' (in_locally_bound inputs)) ∅ in
    defines func' d (stmt_id s) -> key s = Some k -> key t = Some k ->
    ~ defined_before func' (stmt_id t) d (stmt_id s)).
Proof.
  intros Hwf Ho. destruct (optimize_rounds_spec MAX_ROUNDS func inputs Hwf)
    as (c & f & Ho' & Hwf' & _ & Ht & _).
  unfold optimize_scoped_inner in Ho. rewrite Ho in Ho'. injection Ho' as <- <-.
  specialize (Ht eq_refl). rewrite optimize_round_passes in Ht.
  apply and_pass_same in Ht as [Ht Hcse]; [|by auto..].
  apply and_pass_same in Ht as [Ht Hdce]; [|by auto..].
  apply and_pass_same in Ht as [Hfold Hun]; [|by auto..].
  apply fold_fixpoint in Hfold as [_ Hfold]; [|done]. split_and!.
  - intros v b Hb. split; [|by eapply Hfold]. apply unreachable_fixpoint; [done|done|by eexists].
  - intros s. by apply dead_defs_fixpoint.
  - intros s t d k Hs Ht key Hd. eapply cse_fixpoint; try done.
    destruct Hd as (b & _ & Hb & _). apply unreachable_fixpoint; [done|done|by eexists].
Qed.
End Optimize.
