(* ===== verification/SsaSem.v ===== *)
(** * What a function in SSA form computes

    The reference semantics that the optimizer is compared with: blocks that
    transfer control, phis that select by the predecessor, and operations that
    act on a world.  What one operation does is not defined here: it depends on
    method tables and builtins and is a parameter, [perform], which sees the
    operation and the values of its operands but not where they come from. *)

From S2P Require Export SsaForm.

(** An operation gives a value, throws, or does not return. *)
Inductive Performed (V W E : Type) :=
  | Gave (v : V) (w : W)
  | Threw (e : E) (w : W)
  | Hangs.
Arguments Gave {V W E} v w.
Arguments Threw {V W E} e w.
Arguments Hangs {V W E}.

(** Values, worlds (everything that operations share: globals, memory, output)
    and exceptions; [truth] is the [Bool] that a branch tests. *)
Class Semantics {P : Payload} := {
  Val : Type;
  World : Type;
  Exn : Type;
  lit_val : Literal -> Val;
  truth : Val -> option bool;
  perform : SsaOp -> list Val -> World -> Performed Val World Exn
}.

(** How a run ends.  [UndefinedRead] is the read of a definition without a value
    ([UndefVarError]), [NotBool] a branch on something else than a [Bool];
    [NoBlock] cannot happen in SSA form. *)
Inductive Outcome (V W E : Type) :=
  | Returned (v : option V) (w : W)
  | Thrown (e : E) (w : W)
  | NotBool (v : V) (w : W)
  | UndefinedRead (w : W)
  | NeverReturns
  | NoBlock
  | OutOfFuel.
Arguments Returned {V W E} v w.
Arguments Thrown {V W E} e w.
Arguments NotBool {V W E} v w.
Arguments UndefinedRead {V W E} w.
Arguments NeverReturns {V W E}.
Arguments NoBlock {V W E}.
Arguments OutOfFuel {V W E}.

Section Semantics.
Context {P : Payload} {SM : Semantics}.
Implicit Types func : SsaFunction.

Abbreviation Env := (gmap SsaValueId Val).
Abbreviation outcome := (Outcome Val World Exn).

(** A mask without a set flag says nothing. *)
Definition mask_shape (mask : list bool) : list bool := if any_true mask then mask else [].

(** An operation without its operands. *)
Definition shape (op : SsaOp) : SsaOp :=
  match operands_mut (fun _ => Argument 0) op with
  | Call module function args kwargs sm km =>
      Call module function args kwargs (mask_shape sm) (mask_shape km)
  | op => op
  end.

Definition read (args : list Val) (env : Env) (v : SsaValue) : option Val :=
  match v with
  | Def id => env !! id
  | Argument index => args !! index
  | Const lit => Some (lit_val lit)
  end.

Definition exec_op (args : list Val) (env : Env) (op : SsaOp) (w : World)
    : result outcome (Val * World) :=
  match mapM (read args env) (operands op) with
  | None => Err (UndefinedRead w)
  | Some vs =>
      match perform (shape op) vs w with
      | Gave v w => Ok (v, w)
      | Threw e w => Err (Thrown e w)
      | Hangs => Err NeverReturns
      end
  end.

(** The statements of a block after its phis. *)
Fixpoint exec_stmts (args : list Val) (env : Env) (w : World) (l : list SsaStatement)
    : result outcome (Env * World) :=
  match l with
  | [] => Ok (env, w)
  | s :: l =>
      if is_phi (stmt_op s) then exec_stmts args env w l
      else
        match exec_op args env (stmt_op s) w with
        | Ok (v, w) => exec_stmts args (<[stmt_id s := v]> env) w l
        | Err o => Err o
        end
  end.

(** The entry of a phi for the edge from [pred]. *)
Definition phi_entry (pred : BlockId) (phi : PhiNode) : option SsaValue :=
  i ← position pred (edges phi); v ← values phi !! i; v.

Definition phi_value (args : list Val) (env : Env) (pred : option BlockId) (phi : PhiNode)
    : option Val :=
  pred ← pred; v ← phi_entry pred phi; read args env v.

(** The phis of a block all read the environment [env] at the end of the
    predecessor. *)
Definition enter_stmt (args : list Val) (env : Env) (pred : option BlockId)
    (new : Env) (s : SsaStatement) : Env :=
  match stmt_op s with
  | Phi phi => partial_alter (fun _ => phi_value args env pred phi) (stmt_id s) new
  | _ => new
  end.

Definition enter (args : list Val) (env : Env) (pred : option BlockId) (l : list SsaStatement)
    : Env :=
  foldl (enter_stmt args env pred) env l.

(** Where control goes at the end of a block. *)
Definition leave (args : list Val) (env : Env) (w : World) (t : Terminator)
    : result outcome BlockId :=
  match t with
  | Jump target => Ok target
  | Branch c then_target else_target =>
      match read args env c with
      | None => Err (UndefinedRead w)
      | Some v =>
          match truth v with
          | Some b => Ok (if b then then_target else else_target)
          | None => Err (NotBool v w)
          end
      end
  | Return None => Err (Returned None w)
  | Return (Some v) =>
      match read args env v with
      | None => Err (UndefinedRead w)
      | Some v => Err (Returned (Some v) w)
      end
  end.

(** Control is on the edge from [pred] to the block [id]; the fuel bounds the
    number of blocks entered. *)
Fixpoint run (fuel : nat) func (args : list Val) (pred : option BlockId) (id : BlockId)
    (env : Env) (w : World) : outcome :=
  match fuel with
  | 0 => OutOfFuel
  | S fuel =>
      match block func id with
      | None => NoBlock
      | Some b =>
          match exec_stmts args (enter args env pred (stmts b)) w (stmts b) with
          | Err o => o
          | Ok (env, w) =>
              match leave args env w (terminator b) with
              | Err o => o
              | Ok target => run fuel func args (Some id) target env w
              end
          end
      end
  end.

Definition evaluate (fuel : nat) func (args : list Val) (w : World) : outcome :=
  run fuel func args None (fn_entry func) ∅ w.

(** ** Fuel *)

Lemma leave_not_fuel args env w t o : leave args env w t = Err o -> o <> OutOfFuel.
Proof. destruct t as [|c t e|[v|]]; simpl; intros H; repeat case_match; congruence. Qed.

Lemma exec_op_not_fuel args env op w o : exec_op args env op w = Err o -> o <> OutOfFuel.
Proof. unfold exec_op. intros H; repeat case_match; congruence. Qed.

Lemma exec_stmts_not_fuel args env w l o : exec_stmts args env w l = Err o -> o <> OutOfFuel.
Proof.
  revert env w. induction l as [|s l IH]; intros env w; simpl; [done|].
  destruct (is_phi _); [apply IH|]. destruct (exec_op _ _ _ _) as [[v w']|o'] eqn:He; [apply IH|].
  intros [= ->]. by eapply exec_op_not_fuel.
Qed.

(** More fuel does not change how a run ends. *)
Lemma run_more fuel k func args pred id env w :
  run fuel func args pred id env w <> OutOfFuel ->
  run (fuel + k) func args pred id env w = run fuel func args pred id env w.
Proof.
  revert pred id env w. induction fuel as [|fuel IH]; intros pred id env w; simpl; [done|].
  destruct (block func id) as [b|]; [|done]. destruct (exec_stmts _ _ _ _) as [[env' w']|o]; [|done].
  destruct (leave _ _ _ _); [apply IH|done].
Qed.

(** ** Operations *)

Lemma shape_subst f op : shape (operands_mut f op) = shape op.
Proof.
  destruct op; unfold shape; simpl; rewrite ?map_map; try done.
  do 2 f_equal. apply map_ext. by intros [v|].
Qed.

(** ** Entering a block *)

Lemma enter_app args env pred l k :
  enter args env pred (l ++ k) = foldl (enter_stmt args env pred) (enter args env pred l) k.
Proof. apply foldl_app. Qed.

Lemma enter_other args env pred l x :
  (forall s, s ∈ l -> is_phi (stmt_op s) = true -> stmt_id s <> x) ->
  enter args env pred l !! x = env !! x.
Proof.
  induction l as [|s l IH] using rev_ind; intros H; [done|]. rewrite enter_app. simpl.
  rewrite <- IH by (intros t Ht; apply H; apply elem_of_app; by left).
  unfold enter_stmt. destruct (stmt_op s) eqn:Hop; try done.
  apply lookup_partial_alter_ne. apply H; [|by rewrite Hop]. apply elem_of_app. right. by left.
Qed.

Lemma enter_phi args env pred l s phi :
  NoDup (map stmt_id l) -> s ∈ l -> stmt_op s = Phi phi ->
  enter args env pred l !! stmt_id s = phi_value args env pred phi.
Proof.
  intros Hnd (l1 & l2 & ->)%list_elem_of_split Hop. rewrite enter_app. simpl.
  assert (forall new k, stmt_id s ∉ map stmt_id k ->
    foldl (enter_stmt args env pred) new k !! stmt_id s = new !! stmt_id s) as Hk.
  { intros new k. revert new. induction k as [|t k IH]; intros new Hn; simpl; [done|].
    rewrite IH by set_solver. unfold enter_stmt. destruct (stmt_op t); try done.
    apply lookup_partial_alter_ne. intros He. apply Hn. simpl. rewrite He. left. }
  rewrite map_app in Hnd. apply NoDup_app in Hnd as (_ & _ & [Hn _]%NoDup_cons).
  rewrite Hk by done. unfold enter_stmt. rewrite Hop. by rewrite lookup_partial_alter_eq.
Qed.

Lemma exec_stmts_phis args env w ps rest :
  Forall stmt_is_phi ps -> exec_stmts args env w (ps ++ rest) = exec_stmts args env w rest.
Proof. induction 1 as [|s ps Hs _ IH]; simpl; [done|]. unfold stmt_is_phi in Hs. by rewrite Hs. Qed.

(** ** Refinement

    The optimizer may change what a function does that reads a definition without
    a value: nothing else. *)
Definition refines (o o' : outcome) : Prop :=
  match o with UndefinedRead _ => True | _ => o' = o end.

Lemma refines_refl o : refines o o.
Proof. by destruct o. Qed.

Lemma refines_trans o1 o2 o3 : refines o1 o2 -> refines o2 o3 -> refines o1 o3.
Proof. destruct o1; simpl; try done; intros ->; done. Qed.

#[export] Instance refines_preorder : PreOrder refines.
Proof. split; [exact refines_refl|exact refines_trans]. Qed.
End Semantics.
