(* ===== verification/SsaRewriteSem.v ===== *)
(** * Invariants of a run

    A property of a definition that depends on its value and on the values of
    what comes before it is kept by every step of a run, if the step that
    computes the definition establishes it.  What holds of the definitions that
    are visible at a point can then be used there. *)

From S2P Require Export SsaFold SsaSem.

Section Invariant.
Context {P : Payload} {SM : Semantics}.
Variable func : SsaFunction.
Variable args : list Val.
Hypothesis Hwf : well_formed func.

Abbreviation Env := (gmap SsaValueId Val).
Abbreviation reached_in func := (reached (edge func) (fn_entry func)).
Abbreviation dominator_in func := (dominator (edge func) (fn_entry func)).
Abbreviation visible before i x := (operand_ok func before i (Def x)).

(** ** Visibility *)

Lemma visible_site before after i b x :
  reached_in func i -> block func i = Some b -> stmts b = before ++ after ->
  visible before i x -> exists d, reached_in func d /\ defines func d x.
Proof.
  intros Hr Hb Hl [Hx|(d & _ & Hd & Hdom)].
  - exists i. split; [done|]. apply list_elem_of_fmap in Hx as (s & -> & Hs).
    exists b, s. split_and!; [done| |done]. rewrite Hl. apply elem_of_app. by left.
  - exists d. split; [by eapply reached_dominator|done].
Qed.

(** What comes before something visible is visible. *)
Lemma visible_trans before after i b x y d :
  reached_in func i -> block func i = Some b -> stmts b = before ++ after ->
  visible before i y -> defines func d y -> defined_before func x d y -> visible before i x.
Proof.
  intros Hr Hb Hl [Hy|(e & Hne & He & Hdom)] Hd Hx.
  - apply list_elem_of_fmap in Hy as (t & -> & (m1 & m2 & ->)%list_elem_of_split).
    assert (defines func i (stmt_id t)) as Hi.
    { exists b, t. split_and!; [done| |done]. rewrite Hl. set_solver. }
    rewrite (defines_unique func d i _ Hwf Hd Hi) in Hx.
    rewrite <- app_assoc in Hl. simpl in Hl.
    apply (visible_before func i b m1 t (m2 ++ after) x Hwf Hb Hl) in Hx.
    destruct Hx as [Hx|Hx]; [left|by right]. rewrite map_app. apply elem_of_app. by left.
  - rewrite (defines_unique func d e _ Hwf Hd He) in Hx. right.
    destruct (defined_before_site func x e y Hx) as (c & Hc & [->|Hce]);
      [exists e; by split_and!|].
    exists c. split_and!; [|done|by eapply dominator_trans]. intros ->.
    apply Hne. eapply dominator_antisym; [|exact Hdom|exact Hce]. by eapply reached_dominator.
Qed.

(** Nothing sees itself. *)
Lemma visible_fresh before s after i b x :
  block func i = Some b -> stmts b = before ++ s :: after -> visible before i x -> x <> stmt_id s.
Proof.
  intros Hb Hl Hx ->. apply (visible_before func i b before s after _ Hwf Hb Hl) in Hx.
  eapply defined_before_irrefl; [exact Hwf| |exact Hx]. exists b, s. split_and!; [done| |done].
  rewrite Hl. set_solver.
Qed.

(** What a block sees of other blocks, the end of each predecessor sees. *)
Lemma visible_pred p i bp x d :
  block func p = Some bp -> edge func p i -> d <> i -> defines func d x -> dominator_in func d i ->
  visible (stmts bp) p x.
Proof.
  intros Hbp He Hne Hd Hdom. assert (dominator_in func d p) as Hp by by eapply dominator_pred.
  destruct (decide (d = p)) as [->|Hdp]; [left|right; by exists d].
  destruct Hd as (b & s & Hb & Hs & <-). simplify_eq. by apply list_elem_of_fmap_2.
Qed.

(** ** The invariant *)

Variable Q : SsaValueId -> Env -> Prop.

Definition good (before : list SsaStatement) (i : BlockId) (env : Env) : Prop :=
  forall x, visible before i x -> Q x env.

Record invariant : Prop := {
  inv_frame d x env env' : reached_in func d -> defines func d x ->
    env' !! x = env !! x -> (forall y, defined_before func y d x -> env' !! y = env !! y) ->
    Q x env -> Q x env';
  inv_step i b before s after env w v w' : reached_in func i -> block func i = Some b ->
    stmts b = before ++ s :: after -> is_phi (stmt_op s) = false -> good before i env ->
    exec_op args env (stmt_op s) w = Ok (v, w') -> Q (stmt_id s) (<[stmt_id s := v]> env);
  inv_join p i bp b s phi env : reached_in func p -> edge func p i ->
    block func p = Some bp -> block func i = Some b -> s ∈ stmts b -> stmt_op s = Phi phi ->
    good (stmts bp) p env -> Q (stmt_id s) (enter args env (Some p) (stmts b));
  inv_start b s phi : block func (fn_entry func) = Some b -> s ∈ stmts b -> stmt_op s = Phi phi ->
    Q (stmt_id s) (enter args ∅ None (stmts b))
}.

Hypothesis Hinv : invariant.

(** Control is on an edge, or about to enter the function. *)
Definition at_edge (pred : option BlockId) (i : BlockId) (env : Env) : Prop :=
  match pred with
  | Some p => exists bp, reached_in func p /\ edge func p i /\ block func p = Some bp /\
      good (stmts bp) p env
  | None => i = fn_entry func /\ env = ∅
  end.

Lemma at_edge_reached pred i env : at_edge pred i env -> reached_in func i.
Proof.
  destruct pred as [p|]; simpl; [|intros [-> _]; apply reached_entry].
  intros (bp & Hp & He & _). by eapply reached_step.
Qed.

(** After the phis of a block. *)
Lemma good_enter pred i b env ps rest :
  at_edge pred i env -> block func i = Some b -> stmts b = ps ++ rest ->
  Forall stmt_is_phi ps -> Forall (fun s => is_phi (stmt_op s) = false) rest ->
  good ps i (enter args env pred (stmts b)).
Proof.
  intros Hat Hb Hl Hps Hrest x Hx. pose proof (at_edge_reached _ _ _ Hat) as Hr.
  assert (forall s, s ∈ stmts b -> defines func i (stmt_id s)) as Hdefs by (intros s Hs; by exists b, s).
  destruct Hx as [Hx|(d & Hne & Hd & Hdom)].
  - apply list_elem_of_fmap in Hx as (s & -> & Hs).
    assert (s ∈ stmts b) as Hsb by (rewrite Hl; set_solver).
    eapply Forall_forall in Hps; [|exact Hs]. unfold stmt_is_phi in Hps.
    destruct (stmt_op s) as [phi| | | | | | | | |] eqn:Hop; try done.
    destruct pred as [p|]; simpl in Hat.
    + destruct Hat as (bp & Hp & He & Hbp & Hg). by eapply (inv_join Hinv p i bp b s phi).
    + destruct Hat as [-> ->]. by eapply (inv_start Hinv).
  - assert (forall y, y = x \/ defined_before func y d x ->
      enter args env pred (stmts b) !! y = env !! y) as Hsame.
    { intros y Hy. apply enter_other. intros s Hs _ <-. apply Hne.
      assert (defines func i (stmt_id s)) as Hi by by apply Hdefs.
      destruct Hy as [Hy|Hy]; [rewrite Hy in Hi; by eapply defines_unique|].
      destruct (defined_before_site func _ _ _ Hy) as (e & He & Hor).
      rewrite (defines_unique func i e _ Hwf Hi He) in *.
      destruct Hor as [->|Hed]; [done|].
      eapply dominator_antisym; [|exact Hdom|exact Hed]. by eapply reached_dominator. }
    eapply (inv_frame Hinv d x env); [by eapply reached_dominator|done| | |].
    + apply Hsame. by left.
    + intros y Hy. apply Hsame. by right.
    + destruct pred as [p|]; simpl in Hat.
      * destruct Hat as (bp & Hp & He & Hbp & Hg). apply Hg. by eapply visible_pred.
      * exfalso. destruct Hat as [-> _]. by apply Hne, (dominator_entry _ _ _ Hdom).
Qed.

(** After one statement more. *)
Lemma good_step i b before s after env w v w' :
  reached_in func i -> block func i = Some b -> stmts b = before ++ s :: after ->
  is_phi (stmt_op s) = false -> good before i env -> exec_op args env (stmt_op s) w = Ok (v, w') ->
  good (before ++ [s]) i (<[stmt_id s := v]> env).
Proof.
  intros Hr Hb Hl Hp Hg He x Hx.
  destruct (decide (x = stmt_id s)) as [->|Hne]; [by eapply (inv_step Hinv)|].
  assert (visible before i x) as Hv.
  { destruct Hx as [Hx|Hx]; [left|by right]. rewrite map_app in Hx.
    apply elem_of_app in Hx as [Hx|Hx%list_elem_of_singleton]; [done|]. by subst x. }
  destruct (visible_site before (s :: after) i b x Hr Hb Hl Hv) as (d & Hrd & Hd).
  eapply (inv_frame Hinv d x env); [done|done| | |by apply Hg].
  - by apply lookup_insert_ne.
  - intros y Hy. apply lookup_insert_ne. intros <-.
    eapply (visible_fresh before s after i b); [done|done| |done].
    by eapply (visible_trans before (s :: after) i b).
Qed.

(** What a statement or a terminator reads is visible. *)
Lemma read_visible i b before s after x :
  reached_in func i -> block func i = Some b -> stmts b = before ++ s :: after ->
  Def x ∈ operands (stmt_op s) -> visible before i x.
Proof. intros Hr Hb Hl Hx. by eapply (wf_operands _ Hwf i b before s after). Qed.

(** Control leaves a block along an edge. *)
Lemma leave_edge i b env w t :
  block func i = Some b -> leave args env w (terminator b) = Ok t -> edge func i t.
Proof.
  intros Hb Hl. unfold edge, block_succs. rewrite Hb, (wf_succs _ Hwf i b Hb).
  destruct (terminator b) as [u|c u v|[r|]]; simpl in *; [by injection Hl as <-; left| |by case_match|done].
  destruct (read args env c) as [x|]; [|done]. destruct (truth x) as [y|]; [|done]. injection Hl as <-.
  destruct (Nat.eqb_spec u v) as [->|]; destruct y; try left; right; left.
Qed.

(** The value that a phi selects is visible at the end of the predecessor. *)
Lemma phi_entry_elem p (phi : PhiNode) v :
  phi_entry p phi = Some v -> (p, Some v) ∈ zip (edges phi) (values phi).
Proof.
  unfold phi_entry. intros (k & Hk & (ov & Hv & ->)%bind_Some)%bind_Some.
  apply list_elem_of_lookup. exists k. apply lookup_zip_Some. split; [|done].
  clear Hv. revert k Hk. induction (edges phi) as [|q l IH]; intros k; simpl; [done|].
  destruct (Nat.eqb_spec q p) as [->|]; [by intros [= <-]|].
  intros (j & Hj & ->)%fmap_Some. by apply IH.
Qed.

Lemma phi_entry_visible p i bp b s phi x :
  reached_in func p -> edge func p i -> block func p = Some bp -> block func i = Some b ->
  s ∈ stmts b -> stmt_op s = Phi phi -> phi_entry p phi = Some (Def x) -> visible (stmts bp) p x.
Proof.
  intros Hp He Hbp Hb Hs Hop Hx. apply phi_entry_elem in Hx.
  pose proof (wf_phi_values _ Hwf i b s phi p _ (reached_step _ _ _ _ Hp He) Hb Hs Hop Hx Hp)
    as (d & Hd & Hdom).
  destruct (decide (d = p)) as [->|Hne]; [left|right; by exists d].
  destruct Hd as (b' & t & Hb' & Ht & <-). simplify_eq. by apply list_elem_of_fmap_2.
Qed.
End Invariant.

(** * Rewriting keeps what a function computes

    A run of the rewritten function goes through the same blocks: the
    environments agree on what is kept, a replaced definition has the value of
    its replacement ([Hsubst]) and a deleted statement would not have been
    noticed ([Hsilent]). *)

Section RewriteSem.
Context {P : Payload} {SM : Semantics}.
Variable func : SsaFunction.
Variable args : list Val.
Hypothesis Hwf : well_formed func.
Variable subst : gmap SsaValueId SsaValue.
Variable keep : SsaValueId -> bool.
Hypothesis Hok : rewrite_ok func subst keep.

Abbreviation Env := (gmap SsaValueId Val).
Abbreviation reached_in func := (reached (edge func) (fn_entry func)).
Abbreviation visible before i x := (operand_ok func before i (Def x)).
Abbreviation func' := (retain_stmts (apply_substitutions func subst) keep).

Variable Q : SsaValueId -> Env -> Prop.
Hypothesis Hinv : invariant func args Q.

Hypothesis Hsubst : forall d x v env, reached_in func d -> defines func d x ->
  subst !! x = Some v -> Q x env -> (forall y, defined_before func y d x -> Q y env) ->
  env !! x = read args env v.

Hypothesis Hsilent : forall i b before s after env w vs,
  reached_in func i -> block func i = Some b -> stmts b = before ++ s :: after ->
  is_phi (stmt_op s) = false -> keep (stmt_id s) = false -> good func Q before i env ->
  mapM (read args env) (operands (stmt_op s)) = Some vs ->
  exists v, perform (shape (stmt_op s)) vs w = Gave v w.

Definition agree (env env' : Env) : Prop := forall x, keep x = true -> env' !! x = env !! x.

Abbreviation covered x := (keep x = true \/ is_Some (subst !! x)).

(** ** Reading *)

Section Read.
Variable i : BlockId.
Variable b : SsaBlock.
Hypothesis Hr : reached_in func i.
Hypothesis Hb : block func i = Some b.
Variables before after : list SsaStatement.
Variables env env' : Env.
Hypothesis Hl : stmts b = before ++ after.
Hypothesis Hg : good func Q before i env.
Hypothesis Hag : agree env env'.

Lemma read_subst v :
  (forall x, v = Def x -> visible before i x /\ covered x) ->
  read args env' (apply_value subst v) = read args env v.
Proof.
  destruct v as [x|k|lit]; [|done|done]. intros Hx. destruct (Hx x eq_refl) as [Hv Hc].
  simpl. destruct (subst !! x) as [v|] eqn:Hs; simpl.
  - destruct (visible_site func before after i b x Hr Hb Hl Hv) as (d & Hrd & Hd).
    rewrite (Hsubst d x v env Hrd Hd Hs); [|by apply Hg|].
    2:{ intros y Hy. apply Hg. by eapply (visible_trans func Hwf before after i b y x d). }
    pose proof (rewrite_value _ _ _ Hok d x v Hrd Hd Hs) as Hval.
    destruct v as [y|k|lit]; [|done|done]. destruct Hval as [Hk _]. by apply Hag.
  - apply Hag. by destruct Hc as [?|[v ?]].
Qed.

Lemma reads_subst (op : SsaOp) :
  (forall x, Def x ∈ operands op -> visible before i x /\ covered x) ->
  mapM (read args env') (operands (operands_mut (apply_value subst) op)) =
    mapM (read args env) (operands op).
Proof.
  intros Hx. rewrite operands_subst, mapM_map. apply mapM_ext_elem.
  intros v Hv. apply read_subst. intros x ->. by apply Hx.
Qed.

Lemma leave_subst w (t : Terminator) :
  (forall x, Def x ∈ term_operands t -> visible before i x /\ covered x) ->
  leave args env' w (term_operands_mut (apply_value subst) t) = leave args env w t.
Proof.
  intros Hx. assert (forall v, v ∈ term_operands t ->
    read args env' (apply_value subst v) = read args env v) as Hread.
  { intros v Hv. apply read_subst. intros x ->. by apply Hx. }
  destruct t as [u|c u v|[v|]]; simpl in *; try done; rewrite Hread by left; done.
Qed.
End Read.

Section Position.
Variable i : BlockId.
Variable b : SsaBlock.
Hypothesis Hr : reached_in func i.
Hypothesis Hb : block func i = Some b.

(** ** The statements of a block *)

Lemma agree_insert env env' x v : agree env env' -> agree (<[x := v]> env) (<[x := v]> env').
Proof.
  intros Hag y Hy. destruct (decide (y = x)) as [->|Hne].
  - by rewrite !lookup_insert_eq.
  - rewrite !lookup_insert_ne by done. by apply Hag.
Qed.

Lemma agree_insert_dropped env env' x v :
  keep x = false -> agree env env' -> agree (<[x := v]> env) env'.
Proof.
  intros Hx Hag y Hy. rewrite lookup_insert_ne by (intros ->; congruence). by apply Hag.
Qed.

Lemma stmts_kept after before env env' w :
  stmts b = before ++ after -> Forall (fun s => is_phi (stmt_op s) = false) after ->
  good func Q before i env -> agree env env' ->
  match exec_stmts args env w after with
  | Ok (env1, w1) => exists env1',
      exec_stmts args env' w (kept_stmts subst keep after) = Ok (env1', w1) /\
      agree env1 env1' /\ good func Q (stmts b) i env1
  | Err (UndefinedRead _) => True
  | Err o => exec_stmts args env' w (kept_stmts subst keep after) = Err o
  end.
Proof.
  revert before env env' w. induction after as [|s after IH]; intros before env env' w Hl Hph Hg Hag.
  { simpl. exists env'. split_and!; [done|done|]. by rewrite Hl, app_nil_r. }
  apply Forall_cons in Hph as [Hp Hph]. rewrite kept_stmts_cons. cbn [exec_stmts]. rewrite Hp.
  assert (forall v w', exec_op args env (stmt_op s) w = Ok (v, w') ->
    good func Q (before ++ [s]) i (<[stmt_id s := v]> env)) as Hnext.
  { intros v w' He. by eapply (good_step func args Hwf Q Hinv i b before s after). }
  assert (stmts b = (before ++ [s]) ++ after) as Hl' by by rewrite <- app_assoc.
  destruct (keep (stmt_id s)) eqn:Hk.
  - cbn [exec_stmts subst_stmt stmt_op stmt_id]. rewrite is_phi_subst, Hp.
    assert (exec_op args env' (operands_mut (apply_value subst) (stmt_op s)) w =
      exec_op args env (stmt_op s) w) as ->.
    { unfold exec_op. rewrite shape_subst, (reads_subst i b Hr Hb before (s :: after) env env' Hl Hg Hag); [done|].
      intros x Hx. split; [by eapply (read_visible func Hwf i b before s after)|].
      eapply (rewrite_stmt _ _ _ Hok i b s); [done| |done|done]. rewrite Hl. set_solver. }
    destruct (exec_op args env (stmt_op s) w) as [[v w']|o] eqn:He; [|by destruct o].
    apply (IH (before ++ [s])); [done|done|by eapply Hnext|by apply agree_insert].
  - destruct (exec_op args env (stmt_op s) w) as [[v w']|o] eqn:He.
    + assert (w' = w) as ->.
      { revert He. unfold exec_op. destruct (mapM _ _) as [vs|] eqn:Hvs; [|done].
        destruct (Hsilent i b before s after env w vs) as (u & ->); try done. by intros [= _ <-]. }
      apply (IH (before ++ [s])); [done|done|by eapply Hnext|by apply agree_insert_dropped].
    + revert He. unfold exec_op. destruct (mapM _ _) as [vs|] eqn:Hvs; [|by intros [= <-]].
      by destruct (Hsilent i b before s after env w vs) as (u & ->).
Qed.

(** ** Entering a block *)

Lemma block_ids_NoDup : NoDup (map stmt_id (stmts b)).
Proof.
  pose proof (wf_unique _ Hwf) as Hnd. apply list_elem_of_lookup_2 in Hb as Hin.
  apply list_elem_of_split in Hin as (l1 & l2 & Hf). rewrite Hf, bind_app, map_app in Hnd.
  apply NoDup_app in Hnd as (_ & _ & Hnd). csimpl in Hnd. rewrite map_app in Hnd.
  by apply NoDup_app in Hnd as (Hnd & _).
Qed.

Lemma kept_ids_NoDup : NoDup (map stmt_id (kept_stmts subst keep (stmts b))).
Proof.
  pose proof block_ids_NoDup as Hnd. induction (stmts b) as [|s l IH]; [done|].
  apply NoDup_cons in Hnd as [Hn Hnd]. rewrite kept_stmts_cons.
  destruct (keep (stmt_id s)); [|by apply IH]. simpl. apply NoDup_cons. split; [|by apply IH].
  intros [Hin _]%kept_stmts_id. by apply Hn.
Qed.

Lemma phi_entry_map p f es vs :
  phi_entry p {| edges := es; values := map (fmap f) vs |} =
    f <$> phi_entry p {| edges := es; values := vs |}.
Proof.
  unfold phi_entry. simpl. destruct (position p es) as [k|]; simpl; [|done].
  rewrite list_lookup_fmap.
  by destruct (vs !! k) as [[v|]|].
Qed.

Lemma phi_value_kept pred env env' s phi :
  at_edge func Q pred i env -> agree env env' -> s ∈ stmts b -> keep (stmt_id s) = true ->
  stmt_op s = Phi phi ->
  phi_value args env' pred {| edges := edges phi; values := map (fmap (apply_value subst)) (values phi) |} =
    phi_value args env pred phi.
Proof.
  intros Hat Hag Hs Hk Hop. destruct pred as [p|]; [|done]. simpl in Hat.
  destruct Hat as (bp & Hp & He & Hbp & Hg). unfold phi_value. simpl.
  rewrite phi_entry_map. destruct phi as [es vs]. simpl.
  destruct (phi_entry p {| edges := es; values := vs |}) as [v|] eqn:Hv; simpl; [|done].
  apply (read_subst p bp Hp Hbp (stmts bp) [] env env' (eq_sym (app_nil_r _)) Hg Hag).
  intros x ->. split; [by eapply (phi_entry_visible func Hwf p i bp b s)|].
  eapply (rewrite_phi _ _ _ Hok i b s); [done|done|done|exact Hop|]. by apply phi_entry_elem.
Qed.

Lemma enter_kept pred env env' :
  at_edge func Q pred i env -> agree env env' ->
  agree (enter args env pred (stmts b)) (enter args env' pred (kept_stmts subst keep (stmts b))).
Proof.
  intros Hat Hag x Hx.
  destruct (decide (Exists (fun s => is_phi (stmt_op s) = true /\ stmt_id s = x) (stmts b))) as [Hex|Hex].
  - apply Exists_exists in Hex as (s & Hs & Hp & <-).
    destruct (stmt_op s) as [phi| | | | | | | | |] eqn:Hop; try done.
    rewrite (enter_phi args env pred (stmts b) s phi block_ids_NoDup Hs Hop).
    etrans; [|by apply (phi_value_kept pred env env' s)].
    apply (enter_phi args env' pred _ (subst_stmt subst s)
      {| edges := edges phi; values := map (fmap (apply_value subst)) (values phi) |} kept_ids_NoDup).
    + apply kept_stmts_elem. by exists s.
    + simpl. by rewrite Hop.
  - rewrite !enter_other; [by apply Hag| |].
    + intros s Hs Hp He. apply Hex, Exists_exists. by exists s.
    + intros s' (s & Hs & -> & _)%kept_stmts_elem Hp He. simpl in *. rewrite is_phi_subst in Hp.
      apply Hex, Exists_exists. by exists s.
Qed.

(** One block: the same way out. *)
Lemma block_kept_run pred env env' w :
  at_edge func Q pred i env -> agree env env' ->
  match exec_stmts args (enter args env pred (stmts b)) w (stmts b) with
  | Ok (env1, w1) => exists env1',
      exec_stmts args (enter args env' pred (kept_stmts subst keep (stmts b))) w
        (kept_stmts subst keep (stmts b)) = Ok (env1', w1) /\
      agree env1 env1' /\ good func Q (stmts b) i env1
  | Err (UndefinedRead _) => True
  | Err o => exec_stmts args (enter args env' pred (kept_stmts subst keep (stmts b))) w
        (kept_stmts subst keep (stmts b)) = Err o
  end.
Proof.
  intros Hat Hag. pose proof (enter_kept pred env env' Hat Hag) as Hag1.
  destruct (wf_prefix _ Hwf i b Hb) as (ps & rest & Hl & Hps & Hrest).
  pose proof (good_enter func args Hwf Q Hinv pred i b env ps rest Hat Hb Hl Hps Hrest) as Hg1.
  assert (Forall stmt_is_phi (kept_stmts subst keep ps)) as Hkps.
  { apply Forall_forall. intros s' (s & Hs & -> & _)%kept_stmts_elem. unfold stmt_is_phi. simpl.
    rewrite is_phi_subst. by eapply Forall_forall in Hps. }
  assert (forall e, exec_stmts args e w (stmts b) = exec_stmts args e w rest) as H1.
  { intros e. by rewrite Hl, exec_stmts_phis. }
  assert (forall e, exec_stmts args e w (kept_stmts subst keep (stmts b)) =
    exec_stmts args e w (kept_stmts subst keep rest)) as H2.
  { intros e. by rewrite Hl, kept_stmts_app, exec_stmts_phis. }
  rewrite H1, !H2. by apply (stmts_kept rest ps).
Qed.
End Position.

(** ** The run *)

Lemma run_kept fuel pred i env env' w :
  at_edge func Q pred i env -> agree env env' ->
  refines (run fuel func args pred i env w) (run fuel func' args pred i env' w).
Proof.
  revert pred i env env' w. induction fuel as [|fuel IH]; intros pred i env env' w Hat Hag; [done|].
  cbn [run]. rewrite block_kept. destruct (block func i) as [b|] eqn:Hb; [|done].
  cbn [fmap option_fmap option_map kept_block with_stmts stmts terminator subst_block].
  pose proof (at_edge_reached func Q pred i env Hat) as Hr.
  pose proof (block_kept_run i b Hr Hb pred env env' w Hat Hag) as H.
  destruct (exec_stmts args (enter args env pred (stmts b)) w (stmts b)) as [[env1 w1]|o].
  - destruct H as (env1' & -> & Hag1 & Hg1).
    rewrite (leave_subst i b Hr Hb (stmts b) [] env1 env1' (eq_sym (app_nil_r _)) Hg1 Hag1).
    + destruct (leave args env1 w1 (terminator b)) as [t|o] eqn:Ht; [|apply refines_refl].
      apply IH; [|done]. exists b. split_and!; try done. by eapply leave_edge.
    + intros x Hx. split; [by eapply (wf_terminator _ Hwf i b)|]. by eapply (rewrite_term _ _ _ Hok i b).
  - destruct o; simpl; [by rewrite H..|done|by rewrite H|by rewrite H|by rewrite H].
Qed.

Lemma rewrite_refines fuel w : refines (evaluate fuel func args w) (evaluate fuel func' args w).
Proof. by apply run_kept. Qed.
End RewriteSem.
