(* ===== verification/SsaPassesSem.v ===== *)
(** * What effect summaries promise

    The passes trust the effect summaries and the constant evaluator.  The
    promises are hypotheses on [perform]: a removable operation gives a value and
    leaves the world alone, a foldable one gives the same value whenever its
    operands are the same, and what is folded is what the operation gives. *)

From S2P Require Export SsaRewriteSem SsaOpt SsaCse.

Section Promises.
Context {P : Payload} {D : Dispatch} {SM : Semantics}.

Definition params_ctx (inputs : EffectInputs) (params : list SsaParam) : EffectCtx :=
  {| by_name := in_effects inputs; resolver := in_resolver inputs; ctx_params := params |}.

(** Names that are bound locally whatever the passes delete. *)
Definition bound_names (inputs : EffectInputs) (params : list SsaParam) : gset string :=
  list_to_set (map param_name params) ∪ in_locally_bound inputs.

Record promises (inputs : EffectInputs) (params : list SsaParam) (args : list Val) : Prop := {
  promise_removable op env vs w :
    is_phi op = false ->
    is_removable (op_effects op (params_ctx inputs params) (bound_names inputs params)) = true ->
    mapM (read args env) (operands op) = Some vs ->
    exists v, perform (shape op) vs w = Gave v w;
  promise_foldable op env vs w v w' :
    is_phi op = false ->
    is_foldable (op_effects op (params_ctx inputs params) (bound_names inputs params)) = true ->
    mapM (read args env) (operands op) = Some vs -> perform (shape op) vs w = Gave v w' ->
    w' = w /\ forall w2, perform (shape op) vs w2 = Gave v w2;
  promise_folded id op lit env vs w :
    is_phi op = false ->
    fold_statement id op (Some (params_ctx inputs params, bound_names inputs params)) =
      Some (Const lit) ->
    mapM (read args env) (operands op) = Some vs -> perform (shape op) vs w = Gave (lit_val lit) w;
  promise_truth b : truth (lit_val (Literal_Bool b)) = Some b
}.

(** ** Fewer shadowed names *)

Lemma bound_names_shadowed func inputs :
  bound_names inputs (fn_params func) ⊆ shadowed_callee_names func (in_locally_bound inputs).
Proof. unfold bound_names, shadowed_callee_names. set_solver. Qed.

Lemma op_effects_shadowed op ctx shadowed shadowed' :
  shadowed ⊆ shadowed' ->
  op_effects op ctx shadowed' = op_effects op ctx shadowed \/
  op_effects op ctx shadowed' = arbitrary.
Proof.
  intros Hs. destruct op as [| | |m f args kwargs sm km| | | | | |]; try by left. simpl.
  destruct (any_true sm || any_true km); simpl; [by left|].
  repeat case_bool_decide; try (by left); try (by right). exfalso. set_solver.
Qed.

Lemma removable_shadowed op ctx shadowed shadowed' :
  shadowed ⊆ shadowed' -> is_removable (op_effects op ctx shadowed') = true ->
  is_removable (op_effects op ctx shadowed) = true.
Proof. intros Hs. destruct (op_effects_shadowed op ctx _ _ Hs) as [->| ->]; done. Qed.

Lemma foldable_shadowed op ctx shadowed shadowed' :
  shadowed ⊆ shadowed' -> is_foldable (op_effects op ctx shadowed') = true ->
  is_foldable (op_effects op ctx shadowed) = true.
Proof. intros Hs. destruct (op_effects_shadowed op ctx _ _ Hs) as [->| ->]; done. Qed.

Lemma fold_statement_shadowed id op ctx shadowed shadowed' v :
  shadowed ⊆ shadowed' -> fold_statement id op (Some (ctx, shadowed')) = Some v ->
  fold_statement id op (Some (ctx, shadowed)) = Some v.
Proof.
  intros Hs. destruct op as [| | |[m|] f args [|kw kws] sm km| | | | | |]; try done.
  cbn [fold_statement mbind option_bind]. destruct (any_true sm || any_true km); [done|].
  destruct (op_effects_shadowed (Call None f args [] sm km) ctx _ _ Hs) as [->| ->]; done.
Qed.

Lemma fold_statement_none id op effects v :
  fold_statement id op None = Some v -> fold_statement id op effects = Some v.
Proof.
  destruct op as [| | |[m|] f args [|kw kws] sm km| | | | | |]; try done.
  cbn [fold_statement mbind option_bind]. by destruct (_ || _).
Qed.

(** The promises for the names that a function shadows. *)
Section Function.
Variable func : SsaFunction.
Variable inputs : EffectInputs.
Variable args : list Val.
Hypothesis Hp : promises inputs (fn_params func) args.

Abbreviation ctx := (effect_ctx func inputs).
Abbreviation shadowed := (shadowed_callee_names func (in_locally_bound inputs)).

Lemma removable_silent op env vs w :
  is_phi op = false -> is_removable (op_effects op ctx shadowed) = true ->
  mapM (read args env) (operands op) = Some vs -> exists v, perform (shape op) vs w = Gave v w.
Proof.
  intros Hph Hr. apply (promise_removable _ _ _ Hp); [done|].
  eapply removable_shadowed; [apply bound_names_shadowed|done].
Qed.

Lemma foldable_pure op env vs w v w' :
  is_phi op = false -> is_foldable (op_effects op ctx shadowed) = true ->
  mapM (read args env) (operands op) = Some vs -> perform (shape op) vs w = Gave v w' ->
  w' = w /\ forall w2, perform (shape op) vs w2 = Gave v w2.
Proof.
  intros Hph Hf. apply (promise_foldable _ _ _ Hp); [done|].
  eapply foldable_shadowed; [apply bound_names_shadowed|done].
Qed.

Lemma folded_value id op scope lit env vs w :
  is_phi op = false -> fold_statement id op (fold_effects func scope) = Some (Const lit) ->
  (forall i, scope = Some i -> i = inputs) ->
  mapM (read args env) (operands op) = Some vs -> perform (shape op) vs w = Gave (lit_val lit) w.
Proof.
  intros Hph Hf Hs. apply (promise_folded _ _ _ Hp id); [done|].
  destruct scope as [i|]; [rewrite (Hs i eq_refl) in Hf|by apply fold_statement_none].
  eapply fold_statement_shadowed; [apply bound_names_shadowed|exact Hf].
Qed.
End Function.
End Promises.

(** * The passes keep what a function computes

    Removing dead definitions, substituting folded definitions and merging equal
    calls, as instances of the theorem on rewriting. *)

Section Passes.
Context {P : Payload} {D : Dispatch} {SM : Semantics}.
Implicit Types func : SsaFunction.

Abbreviation Env := (gmap SsaValueId Val).
Abbreviation reached_in func := (reached (edge func) (fn_entry func)).

Lemma stmt_unique func s t :
  well_formed func -> s ∈ all_stmts func -> t ∈ all_stmts func -> stmt_id s = stmt_id t -> s = t.
Proof.
  intros Hwf (b & [i Hs]%list_elem_of_lookup & [k Hb]%list_elem_of_lookup)%list_elem_of_bind
    (b' & [i' Ht]%list_elem_of_lookup & [k' Hb']%list_elem_of_lookup)%list_elem_of_bind He.
  destruct (site_unique func k k' b b' i i' s t Hwf Hb Hb' Hs Ht He) as [-> ->].
  unfold block in *. rewrite Hb in Hb'. injection Hb' as ->. rewrite Hs in Ht. by injection Ht.
Qed.

Lemma split_stmt func i b before s after :
  block func i = Some b -> stmts b = before ++ s :: after -> s ∈ all_stmts func.
Proof. intros Hb Hl. eapply block_stmts; [exact Hb|]. rewrite Hl. set_solver. Qed.

Lemma split_defines func i b before s after :
  block func i = Some b -> stmts b = before ++ s :: after -> defines func i (stmt_id s).
Proof. intros Hb Hl. exists b, s. split_and!; [done| |done]. rewrite Hl. set_solver. Qed.

(** What a statement reads comes before it. *)
Lemma operand_before func s d x :
  well_formed func -> s ∈ all_stmts func -> reached_in func d -> defines func d (stmt_id s) ->
  Def x ∈ operands (stmt_op s) -> defined_before func x d (stmt_id s).
Proof.
  intros Hwf Hs Hr (b & t & Hb & Ht & Hid) Hx.
  assert (t = s) as -> by (apply (stmt_unique func); [done|by eapply block_stmts|done|done]).
  apply list_elem_of_split in Ht as (l1 & l2 & Hl).
  apply (visible_before func d b l1 s l2); [done|done|done|].
  by eapply (wf_operands _ Hwf d b l1 s l2).
Qed.

(** Reads of operands that did not change. *)
Lemma reads_same args (op : SsaOp) env env' :
  (forall x, Def x ∈ operands op -> env' !! x = env !! x) ->
  mapM (read args env') (operands op) = mapM (read args env) (operands op).
Proof. intros H. apply mapM_ext_elem. intros [x|k|lit] Hv; simpl; [by apply H|done|done]. Qed.

(** ** Dead definitions *)

Section Dead.
Variable func : SsaFunction.
Variable inputs : EffectInputs.
Variable args : list Val.
Hypothesis Hwf : well_formed func.
Hypothesis Hp : promises inputs (fn_params func) args.

Lemma trivial_invariant : invariant func args (fun _ _ => True).
Proof. by constructor. Qed.

Lemma dead_defs_refines changed func' fuel w :
  eliminate_dead_defs_scoped_inner func inputs = Some (changed, func') ->
  refines (evaluate fuel func args w) (evaluate fuel func' args w).
Proof.
  unfold eliminate_dead_defs_scoped_inner. destruct (live_defs func inputs) as [live|] eqn:Hl; [|done].
  simpl. intros [= _ <-]. rewrite <- (apply_empty func) at 2.
  eapply rewrite_refines; [exact Hwf|by eapply dce_rewrite_ok|apply trivial_invariant| |].
  - intros d x v env _ _ Hx. by rewrite lookup_empty in Hx.
  - intros i b before s after env w' vs Hr Hb Hsp Hph Hk _ Hvs.
    apply (removable_silent func inputs args Hp _ env); [done| |done].
    destruct (is_removable _) eqn:Hrem; [done|]. exfalso. apply bool_decide_eq_false in Hk.
    destruct (live_defs_spec func inputs) as (l & Hl' & Hlive). simplify_eq. apply Hk, Hlive.
    exists (stmt_id s). split; [|constructor]. exists b.
    split; [by apply list_elem_of_lookup_2 in Hb|]. left. exists s. split_and!; [|done|done].
    rewrite Hsp. set_solver.
Qed.
End Dead.

(** ** Merged calls *)

Lemma any_true_mask mask : any_true mask = false -> mask_shape mask = [].
Proof. unfold mask_shape. intros H. by rewrite H. Qed.

Lemma foldable_masks m f xs kws sm km ctx shadowed :
  is_foldable (op_effects (Call m f xs kws sm km) ctx shadowed) = true ->
  any_true sm = false /\ any_true km = false.
Proof. simpl. by destruct (any_true sm), (any_true km). Qed.

(** Calls with the same key do the same. *)
Lemma same_call_shape r (op op' : SsaOp) ctx shadowed :
  same_call r op op' -> is_foldable (op_effects op ctx shadowed) = true ->
  is_foldable (op_effects op' ctx shadowed) = true -> shape op = shape op'.
Proof.
  destruct op as [| | |m f xs kws sm km| | | | | |]; try done.
  destruct op' as [| | |m' f' xs' kws' sm' km'| | | | | |]; try done.
  intros (<- & <- & Ha & Hk) [Hsm Hkm]%foldable_masks [Hsm' Hkm']%foldable_masks.
  unfold shape. cbn [operands_mut]. rewrite !any_true_mask by done.
  assert (map (fun _ => Argument 0) xs = map (fun _ => Argument 0) xs') as ->.
  { apply (f_equal (map (fun _ => Argument 0))) in Ha. by rewrite !map_map in Ha. }
  assert (map (prod_map id (fun _ => Argument 0)) kws = map (prod_map id (fun _ => Argument 0)) kws') as ->.
  { apply (f_equal (map (prod_map id (fun _ => Argument 0)))) in Hk. by rewrite !map_map in Hk. }
  done.
Qed.

Lemma same_call_operands r (op op' : SsaOp) :
  same_call r op op' -> map (apply_value r) (operands op) = map (apply_value r) (operands op').
Proof.
  destruct op as [| | |m f xs kws sm km| | | | | |]; try done.
  destruct op' as [| | |m' f' xs' kws' sm' km'| | | | | |]; try done.
  intros (_ & _ & Ha & Hk). simpl. rewrite !map_app, Ha. f_equal.
  apply (f_equal (map snd)) in Hk. rewrite !map_map in Hk. by rewrite !map_map.
Qed.

Section Merge.
Variable func : SsaFunction.
Variable inputs : EffectInputs.
Variable args : list Val.
Hypothesis Hwf : well_formed func.
Hypothesis Hp : promises inputs (fn_params func) args.

Abbreviation ctx := (effect_ctx func inputs).
Abbreviation shadowed := (shadowed_callee_names func (in_locally_bound inputs)).

Variable subst : gmap SsaValueId SsaValueId.
Hypothesis Hmerged : forall x y, subst !! x = Some y ->
  comes_before func y x /\
  exists s t k, s ∈ all_stmts func /\ t ∈ all_stmts func /\ stmt_id s = x /\ stmt_id t = y /\
    call_key (stmt_op s) ctx shadowed subst = Some k /\
    call_key (stmt_op t) ctx shadowed subst = Some k.

(** [s] was computed from the values that its operands still have, and computing
    it again would give the same. *)
Definition computed (s : SsaStatement) (env : Env) : Prop :=
  exists vs v, mapM (read args env) (operands (stmt_op s)) = Some vs /\
    env !! stmt_id s = Some v /\ forall w, perform (shape (stmt_op s)) vs w = Gave v w.

Definition merge_inv (x : SsaValueId) (env : Env) : Prop :=
  (forall y, subst !! x = Some y -> env !! x = env !! y) /\
  (forall s k, s ∈ all_stmts func -> stmt_id s = x ->
    call_key (stmt_op s) ctx shadowed subst = Some k -> computed s env).

Lemma keyed_foldable op k :
  call_key op ctx shadowed subst = Some k ->
  is_phi op = false /\ is_foldable (op_effects op ctx shadowed) = true.
Proof.
  intros Hk. destruct (call_key_same _ _ _ _ _ _ Hk Hk) as (_ & Hf & _).
  split; [by eapply call_key_call|done].
Qed.

(** Reading through the substitution. *)
Lemma read_merged (before : list SsaStatement) i env v :
  good func merge_inv before i env -> (forall x, v = Def x -> operand_ok func before i (Def x)) ->
  read args env (apply_value (Def <$> subst) v) = read args env v.
Proof.
  intros Hg Hv. destruct v as [x|k|lit]; [|done|done]. simpl. rewrite lookup_fmap.
  destruct (subst !! x) as [y|] eqn:Hy; simpl; [|done].
  symmetry. by apply (Hg x (Hv x eq_refl)).
Qed.

(** A merged call, at its place, gives the value of the call it is merged into. *)
Lemma merged_value i b before s after env y vs w :
  reached_in func i -> block func i = Some b -> stmts b = before ++ s :: after ->
  good func merge_inv before i env -> subst !! stmt_id s = Some y ->
  mapM (read args env) (operands (stmt_op s)) = Some vs ->
  exists v, perform (shape (stmt_op s)) vs w = Gave v w /\ env !! y = Some v.
Proof.
  intros Hr Hb Hl Hg Hy Hvs. destruct (Hmerged _ _ Hy) as (Hc & s' & t & k & Hs' & Ht & Hse & Hte & Hks & Hkt).
  assert (s' = s) as ->.
  { apply (stmt_unique func); try done. by eapply split_stmt. }
  assert (defined_before func y i (stmt_id s)) as Hyb.
  { apply Hc; [done|]. by eapply split_defines. }
  assert (operand_ok func before i (Def y)) as Hyv by by eapply visible_before.
  destruct (proj2 (Hg y Hyv) t k Ht Hte Hkt) as (us & v & Hus & Hv & Hperf).
  destruct (call_key_same _ _ _ _ _ _ Hks Hkt) as (Hsame & Hf1 & Hf2).
  exists v. split; [|by rewrite <- Hte].
  assert (us = vs) as ->; [|by rewrite (same_call_shape _ _ _ _ _ Hsame Hf1 Hf2)].
  assert (forall op, (forall x, Def x ∈ operands op -> operand_ok func before i (Def x)) ->
    mapM (read args env) (map (apply_value (Def <$> subst)) (operands op)) =
    mapM (read args env) (operands op)) as Hthrough.
  { intros op Hop. rewrite mapM_map. apply mapM_ext_elem. intros v' Hv'.
    apply (read_merged before i); [done|]. intros x ->. by apply Hop. }
  pose proof (same_call_operands _ _ _ Hsame) as Hops.
  apply (f_equal (mapM (read args env))) in Hops. rewrite !Hthrough in Hops.
  - congruence.
  - intros x Hx. destruct (visible_site func before (s :: after) i b y Hr Hb Hl Hyv) as (d & Hrd & Hd).
    eapply (visible_trans func Hwf before (s :: after) i b x y d); try done.
    rewrite <- Hte in *. by apply operand_before.
  - intros x Hx. by eapply (wf_operands _ Hwf i b before s after).
Qed.

Lemma exec_op_Ok env op w v w' :
  exec_op args env op w = Ok (v, w') ->
  exists vs, mapM (read args env) (operands op) = Some vs /\ perform (shape op) vs w = Gave v w'.
Proof.
  unfold exec_op. destruct (mapM _ _) as [vs|]; [|done]. destruct (perform _ _ _) eqn:Hq; try done.
  intros [= -> ->]. by exists vs.
Qed.

Lemma merge_invariant : invariant func args merge_inv.
Proof.
  assert (forall s phi e, s ∈ all_stmts func -> stmt_op s = Phi phi -> merge_inv (stmt_id s) e) as Hphi.
  { intros s phi e Hs Hop. split.
    - intros y Hy. destruct (Hmerged _ _ Hy) as (_ & s' & t & k & Hs' & _ & He & _ & Hk & _).
      rewrite (stmt_unique func s' s Hwf Hs' Hs He), Hop in Hk. done.
    - intros s' k Hs' He Hk. rewrite (stmt_unique func s' s Hwf Hs' Hs He), Hop in Hk. done. }
  constructor.
  - intros d x env env' Hr Hd Hx Hbefore [HC HJ]. split.
    + intros y Hy. rewrite Hx, (HC y Hy). symmetry. apply Hbefore. by apply (Hmerged _ _ Hy).
    + intros s k Hs <- Hk. destruct (HJ s k Hs eq_refl Hk) as (vs & v & Hvs & Hv & Hperf).
      exists vs, v. split_and!; [|congruence|done]. rewrite <- Hvs. apply reads_same.
      intros y Hy. apply Hbefore. by apply operand_before.
  - intros i b before s after env w v w' Hr Hb Hl Hph Hg He.
    apply exec_op_Ok in He as (vs & Hvs & Hperf).
    assert (forall y, operand_ok func before i (Def y) -> <[stmt_id s := v]> env !! y = env !! y) as Hsame.
    { intros y Hy. apply lookup_insert_ne. apply not_eq_sym. by eapply visible_fresh. }
    assert (s ∈ all_stmts func) as Hs by by eapply split_stmt.
    split.
    + intros y Hy. destruct (merged_value i b before s after env y vs w Hr Hb Hl Hg Hy Hvs) as (v0 & Hq & Hv0).
      rewrite Hperf in Hq. injection Hq as <- _. rewrite lookup_insert_eq, Hsame; [done|].
      eapply visible_before; [done|done|done|]. destruct (Hmerged _ _ Hy) as (Hc & _).
      apply Hc; [done|]. by eapply split_defines.
    + intros s' k Hs' Hid Hk. rewrite (stmt_unique func s' s Hwf Hs' Hs Hid) in *.
      apply keyed_foldable in Hk as [_ Hf].
      destruct (foldable_pure func inputs args Hp _ env vs w v w' Hph Hf Hvs Hperf) as [_ Hpure].
      exists vs, v. split_and!; [|by rewrite lookup_insert_eq|done]. rewrite <- Hvs. apply reads_same.
      intros y Hy. apply Hsame. by eapply (wf_operands _ Hwf i b before s after).
  - intros p i bp b s phi env _ _ _ Hb Hs Hop _. eapply Hphi; [by eapply block_stmts|done].
  - intros b s phi Hb Hs Hop. eapply Hphi; [by eapply block_stmts|done].
Qed.

Hypothesis Hflat : forall x y, subst !! x = Some y -> subst !! y = None.

Lemma merged_refines fuel w :
  refines (evaluate fuel func args w) (evaluate fuel (merged_by func subst) args w).
Proof.
  assert (forall x y, (Def <$> subst) !! x = Some y -> exists z, y = Def z /\ subst !! x = Some z) as Hdef.
  { intros x y Hy. rewrite lookup_fmap in Hy. apply fmap_Some in Hy as (z & Hz & ->). eauto. }
  eapply (rewrite_refines func args Hwf (Def <$> subst) (not_in (Def <$> subst))) with (Q := merge_inv).
  - apply substitution_rewrite_ok.
    + intros x v d Hv Hr Hd. destruct (Hdef x v Hv) as (z & -> & Hz). by apply (Hmerged _ _ Hz).
    + intros x z Hz. destruct (Hdef x _ Hz) as (z' & [= <-] & Hz'). by rewrite lookup_fmap, (Hflat x z Hz').
  - apply merge_invariant.
  - intros d x v env _ _ Hv [HC _] _. destruct (Hdef x v Hv) as (z & -> & Hz). by apply HC.
  - intros i b before s after env w' vs Hr Hb Hl Hph Hk Hg Hvs.
    unfold not_in in Hk. apply bool_decide_eq_false in Hk.
    destruct ((Def <$> subst) !! stmt_id s) as [y|] eqn:Hy; [|done].
    destruct (Hdef _ _ Hy) as (z & _ & Hz).
    destruct (merged_value i b before s after env z vs w' Hr Hb Hl Hg Hz Hvs) as (v & Hq & _). by exists v.
Qed.
End Merge.

Lemma merge_refines func inputs args changed func' fuel w :
  well_formed func -> promises inputs (fn_params func) args ->
  cse_pure_calls_scoped_inner func inputs = Some (changed, func') ->
  refines (evaluate fuel func args w) (evaluate fuel func' args w).
Proof.
  intros Hwf Hp Hrun. destruct (cse_pure_calls_result func inputs Hwf)
    as (c & f & subst & table & seen & Hrun' & -> & _ & _ & _ & Hinv).
  rewrite Hrun in Hrun'. injection Hrun' as _ ->.
  apply (merged_refines func inputs args Hwf Hp).
  - intros x y Hx. destruct (inv_merged _ _ _ _ _ _ Hinv x y Hx)
      as (Hy & Hc & s & t & k & Hs & Ht & Hids & Hidt & Hks & Hkt).
    split; [done|]. exists s, t, k. split_and!; try done; by eapply past_all.
  - intros x y Hx. by apply (inv_merged _ _ _ _ _ _ Hinv x y Hx).
Qed.
End Passes.
