(* ===== verification/SsaFoldSem.v ===== *)
(** * Folding keeps what a function computes

    Substituting the folded definitions, where no trivial phi merges zeros: the
    derived [PartialEq] of the literals takes [0.0] and [-0.0] for the same
    value, which they are not ([signed_zero_phi_bug]). *)

From S2P Require Export SsaPassesSem.

(** ** Equal literals *)

Definition nonzero (x : f64) : bool := match x with S754_zero _ => false | _ => true end.

(** No zero float inside. *)
Fixpoint zero_free (lit : Literal) : bool :=
  match lit with
  | Literal_Float x | Literal_Float32 x | Literal_Float16 x => nonzero x
  | Literal_Array data _ => forallb nonzero data
  | Literal_Struct _ fields => forallb zero_free fields
  | Literal_Expr _ args => forallb zero_free args
  | Literal_QuoteNode l => zero_free l
  | _ => true
  end.

Lemma f64_eqb_nonzero x y : f64_eqb x y = true -> nonzero x = true -> x = y.
Proof.
  unfold f64_eqb, SFeqb. destruct x as [s|s| |s m e], y as [t|t| |t n d]; simpl; try done;
    destruct s; try destruct t; simpl; try done;
    destruct (Z.compare_spec e d) as [->| |]; try done;
    destruct (Pos.compare_cont Datatypes.Eq m n) eqn:Hc; try done; apply Pos.compare_eq in Hc; by subst.
Qed.

Lemma vec_eqb_eq {A} (eqb : A -> A -> bool) (good : A -> bool) xs ys :
  Forall (fun x => forall y, eqb x y = true -> good x = true -> x = y) xs ->
  vec_eqb eqb xs ys = true -> forallb good xs = true -> xs = ys.
Proof.
  intros H. revert ys. induction H as [|x xs Hx _ IH]; intros [|y ys]; simpl; try done.
  intros [H1 H2]%andb_true_iff [H3 H4]%andb_true_iff. f_equal; auto.
Qed.

Lemma vec_eqb_all {A} (eqb : A -> A -> bool) xs ys :
  (forall x y, eqb x y = true -> x = y) -> vec_eqb eqb xs ys = true -> xs = ys.
Proof.
  intros H He. apply (vec_eqb_eq eqb (fun _ => true)); [apply Forall_forall; auto|done|].
  by apply forallb_forall.
Qed.

(** Induction through the literals inside a literal. *)
Lemma literal_nested_ind (Q : Literal -> Prop) :
  (forall n fields, Forall Q fields -> Q (Literal_Struct n fields)) ->
  (forall h l, Forall Q l -> Q (Literal_Expr h l)) ->
  (forall l, Q l -> Q (Literal_QuoteNode l)) ->
  (forall lit, match lit with
     | Literal_Struct _ _ | Literal_Expr _ _ | Literal_QuoteNode _ => True | _ => Q lit end) ->
  forall lit, Q lit.
Proof.
  intros Hs He Hq Ho. fix IH 1.
  assert (forall l, Forall Q l) as Hl by (fix IHl 1; intros [|x l]; constructor; auto).
  intros lit. specialize (Ho lit). destruct lit; try exact Ho; [apply Hs, Hl|apply He, Hl|apply Hq, IH].
Qed.

Lemma option_eqb_eq (x y : option string) : option_eqb String.eqb x y = true -> x = y.
Proof. destruct x, y; simpl; try done. by intros ->%String.eqb_eq. Qed.

Ltac equal_fields :=
  repeat match goal with
         | H : _ && _ = true |- _ => apply andb_true_iff in H as [? ?]
         | H : String.eqb _ _ = true |- _ => apply String.eqb_eq in H
         | H : Z.eqb _ _ = true |- _ => apply Z.eqb_eq in H
         | H : Bool.eqb _ _ = true |- _ => apply Bool.eqb_prop in H
         | H : f64_eqb _ _ = true |- _ => apply f64_eqb_nonzero in H; [|done]
         | H : option_eqb _ _ _ = true |- _ => apply option_eqb_eq in H
         | H : vec_eqb Z.eqb _ _ = true |- _ => apply vec_eqb_all in H; [|apply Z.eqb_eq]
         | H : vec_eqb Nat.eqb _ _ = true |- _ => apply vec_eqb_all in H; [|apply Nat.eqb_eq]
         | H : vec_eqb Bool.eqb _ _ = true |- _ => apply vec_eqb_all in H; [|apply Bool.eqb_prop]
         | H : vec_eqb f64_eqb _ _ = true |- _ =>
             apply (vec_eqb_eq f64_eqb nonzero) in H;
               [|apply Forall_forall; intros; by apply f64_eqb_nonzero|done]
         end; congruence.

(** Without zeros, equal literals are the same. *)
Lemma literal_eqb_eq a b : literal_eqb a b = true -> zero_free a = true -> a = b.
Proof.
  revert a b. apply (literal_nested_ind (fun a => forall b, literal_eqb a b = true ->
    zero_free a = true -> a = b)).
  - intros n fields IH [] He Hz; try done. simpl in *. apply andb_true_iff in He as [He1 He2].
    apply String.eqb_eq in He1. apply (vec_eqb_eq _ _ _ _ IH) in He2; [congruence|done].
  - intros h l IH [] He Hz; try done. simpl in *. apply andb_true_iff in He as [He1 He2].
    apply String.eqb_eq in He1. apply (vec_eqb_eq _ _ _ _ IH) in He2; [congruence|done].
  - intros l IH [] He Hz; try done. simpl in *. f_equal. auto.
  - intros []; try done; intros []; simpl; try done; intros He Hz; equal_fields.
Qed.

Section Fold.
Context {P : Payload} {D : Dispatch} {SM : Semantics}.
Implicit Types func : SsaFunction.

Abbreviation Env := (gmap SsaValueId Val).
Abbreviation reached_in func := (reached (edge func) (fn_entry func)).

(** No trivial phi stands for a constant with zeros. *)
Definition exact_phi (s : SsaStatement) : bool :=
  match stmt_op s with
  | Phi phi =>
      match trivial_phi_value (stmt_id s) phi with Some (Const lit) => zero_free lit | _ => true end
  | _ => true
  end.

Definition exact_phis func : bool := forallb exact_phi (all_stmts func).

Lemma exact_phi_values s phi v ow :
  exact_phi s = true -> stmt_op s = Phi phi -> trivial_phi_value (stmt_id s) phi = Some v ->
  ow ∈ values phi -> ow = Some (Def (stmt_id s)) \/ ow = Some v.
Proof.
  unfold exact_phi. intros He Hop Hv Hin. rewrite Hop, Hv in He.
  destruct (trivial_phi_loop_spec _ _ _ _ Hv) as [_ Hall].
  destruct (Hall ow Hin) as (w & -> & [->|[->|(a & b & -> & -> & Hab)]]); [by left|by right|].
  right. by rewrite (literal_eqb_eq a b Hab He).
Qed.

Section Substitution.
Variable func : SsaFunction.
Variable scope : option EffectInputs.
Variable inputs : EffectInputs.
Variable args : list Val.
Hypothesis Hwf : well_formed func.
Hypothesis Hp : promises inputs (fn_params func) args.
Hypothesis Hscope : forall i, scope = Some i -> i = inputs.
Hypothesis Hexact : exact_phis func = true.

Abbreviation subst := (folded_defs func scope).

(** A folded definition has the value that it is folded to. *)
Definition fold_inv (x : SsaValueId) (env : Env) : Prop :=
  forall v, subst !! x = Some v -> env !! x = read args env v.

Lemma folded_stmt s v :
  s ∈ all_stmts func -> subst !! stmt_id s = Some v ->
  fold_statement (stmt_id s) (stmt_op s) (fold_effects func scope) = Some v.
Proof.
  intros Hs Hv. destruct (folded_defs_lookup func scope _ v Hv) as (t & Ht & He & Hf).
  by rewrite (stmt_unique func t s Hwf Ht Hs He) in Hf.
Qed.

Lemma folded_constant s v env vs w :
  s ∈ all_stmts func -> subst !! stmt_id s = Some v -> is_phi (stmt_op s) = false ->
  mapM (read args env) (operands (stmt_op s)) = Some vs ->
  exists lit, v = Const lit /\ perform (shape (stmt_op s)) vs w = Gave (lit_val lit) w.
Proof.
  intros Hs Hv Hph Hvs. pose proof (folded_stmt s v Hs Hv) as Hf.
  destruct (fold_statement_cases _ _ _ _ Hf) as [(lit & ->)|(phi & Hop & _)];
    [|by rewrite Hop in Hph].
  exists lit. split; [done|]. by eapply (folded_value func inputs args Hp).
Qed.

(** What a folded phi stands for comes from another block. *)
Lemma trivial_phi_other i b s phi x :
  reached_in func i -> block func i = Some b -> s ∈ stmts b -> stmt_op s = Phi phi ->
  trivial_phi_value (stmt_id s) phi = Some (Def x) -> forall t, t ∈ stmts b -> stmt_id t <> x.
Proof.
  intros [l Hl] Hb Hs Hop Hv t Ht <-.
  destruct (phi_arrival func i b s phi _ l Hwf Hb Hs Hop Hv Hl)
    as (u & k & w & Hk & Hik & _ & [<-|(a & c & ? & ?)] & Hok); [|done].
  destruct Hok as (e & Hdef & Hdom). apply Hik.
  assert (defines func i (stmt_id t)) as Hi by by exists b, t.
  rewrite (defines_unique func i e _ Hwf Hi Hdef). by apply Hdom.
Qed.

Lemma phi_entry_some p (phi : PhiNode) :
  p ∈ edges phi -> length (values phi) = length (edges phi) ->
  exists ov, ov ∈ values phi /\ phi_entry p phi = ov.
Proof.
  intros [k Hk]%position_elem Hl. unfold phi_entry. rewrite Hk. simpl.
  destruct (lookup_lt_is_Some_2 (values phi) k) as [ov Hov].
  { rewrite Hl. revert k Hk. clear. induction (edges phi) as [|q l IH]; intros k; simpl; [done|].
    destruct (q =? p); [intros [= <-]; lia|]. intros (j & Hj & ->)%fmap_Some. apply IH in Hj. lia. }
  exists ov. rewrite Hov. simpl. split; [by apply list_elem_of_lookup_2 in Hov|done].
Qed.

Lemma fold_join p i bp b s phi env :
  reached_in func p -> edge func p i -> block func p = Some bp -> block func i = Some b ->
  s ∈ stmts b -> stmt_op s = Phi phi -> good func fold_inv (stmts bp) p env ->
  fold_inv (stmt_id s) (enter args env (Some p) (stmts b)).
Proof.
  intros Hr He Hbp Hb Hs Hop Hg v Hv.
  assert (reached_in func i) as Hri by by eapply reached_step.
  assert (s ∈ all_stmts func) as Hsa by by eapply block_stmts.
  pose proof (folded_stmt s v Hsa Hv) as Hf.
  assert (trivial_phi_value (stmt_id s) phi = Some v) as Htr by by rewrite Hop in Hf.
  destruct (wf_phi _ Hwf i b s phi Hb Hs Hop) as [Hed Hlen].
  destruct (phi_entry_some p phi) as (ov & Hov & Hentry); [|by rewrite Hed|].
  { rewrite Hed. by apply (pred_spec _ (well_formed_edges _ Hwf) i). }
  rewrite (enter_phi args env (Some p) (stmts b) s phi);
    [|by eapply block_ids_NoDup|done|done].
  assert (read args (enter args env (Some p) (stmts b)) v = read args env v) as ->.
  { destruct v as [x|k|lit]; [|done|done]. simpl. apply enter_other.
    intros t Ht _. by eapply (trivial_phi_other i b s phi x). }
  unfold phi_value. simpl. rewrite Hentry.
  unfold exact_phis in Hexact. rewrite forallb_forall in Hexact.
  destruct (exact_phi_values s phi v ov) as [->| ->]; try done.
  { apply Hexact. by apply list_elem_of_In. }
  simpl. apply Hg; [|done]. by eapply (phi_entry_visible func Hwf p i bp b s phi).
Qed.

Lemma fold_invariant : invariant func args fold_inv.
Proof.
  constructor.
  - intros d x env env' Hr Hd Hx Hbefore HQ v Hv. rewrite Hx, (HQ v Hv).
    pose proof (folded_available func scope Hwf x v d Hv Hr Hd) as Ha.
    destruct v as [y|k|lit]; [|done|done]. symmetry. by apply Hbefore.
  - intros i b before s after env w v w' Hr Hb Hl Hph Hg He u Hu.
    apply exec_op_Ok in He as (vs & Hvs & Hperf).
    destruct (folded_constant s u env vs w) as (lit & -> & Hq); [by eapply split_stmt|done..|].
    rewrite Hperf in Hq. injection Hq as -> _. by rewrite lookup_insert_eq.
  - intros p i bp b s phi env. apply fold_join.
  - intros b s phi Hb Hs Hop v Hv. exfalso.
    assert (s ∈ all_stmts func) as Hsa by by eapply block_stmts.
    pose proof (folded_stmt s v Hsa Hv) as Hf. rewrite Hop in Hf. simpl in Hf.
    destruct (wf_phi _ Hwf _ b s phi Hb Hs Hop) as [_ Hlen].
    destruct (wf_entry _ Hwf) as (b' & Hb' & Hpr). simplify_eq. rewrite Hpr in Hlen.
    unfold trivial_phi_value in Hf. by destruct (values phi).
Qed.

(** Following a chain of substitutions does not change the value. *)
Lemma resolve_loop_value d x fuel seen v w env :
  reached_in func d -> defines func d x -> available func v d x ->
  (forall y, defined_before func y d x -> fold_inv y env) ->
  resolve_loop subst fuel seen v = Some (Some w) -> read args env v = read args env w.
Proof.
  intros Hr Hd Ha Hg. revert seen v Ha.
  induction fuel as [|fuel IH]; intros seen [y|k|lit] Ha; simpl; try (by intros [= <-]).
  - destruct (subst !! y); [by case_bool_decide|by intros [= <-]].
  - destruct (subst !! y) as [u|] eqn:Hy; [|by intros [= <-]].
    case_bool_decide; [done|]. intros Hres. rewrite <- (IH _ u) with (2 := Hres).
    + by apply Hg.
    + eapply (available_step func subst y u d x Hwf); [by apply folded_available|done..].
Qed.

Lemma substitution_refines r fuel w :
  resolve_substitutions subst = Some r ->
  refines (evaluate fuel func args w)
    (evaluate fuel (retain_stmts (apply_substitutions func r) (not_in r)) args w).
Proof.
  intros Hr.
  destruct (resolve_substitutions_spec func subst Hwf (folded_available func scope Hwf))
    as (r' & Hr' & Hav & Hsub & Hflat). rewrite Hr in Hr'. injection Hr' as <-.
  eapply rewrite_refines with (Q := fold_inv); [exact Hwf|by apply substitution_rewrite_ok|
    apply fold_invariant| |].
  - intros d x v env Hrd Hd Hv HQ Hbefore.
    destruct (resolve_all_spec subst (map_to_list subst)) as (r' & Hr' & Hl).
    { intros id u. apply elem_of_map_to_list. }
    unfold resolve_substitutions in Hr. rewrite Hr in Hr'. injection Hr' as <-.
    destruct (Hl x v Hv) as (u & Hu & Hres). rewrite (HQ u Hu).
    eapply resolve_loop_value; [exact Hrd|exact Hd| |exact Hbefore|exact Hres].
    by apply (folded_available func scope Hwf x u d).
  - intros i b before s after env w' vs Hri Hb Hl Hph Hk Hg Hvs.
    unfold not_in in Hk. apply bool_decide_eq_false in Hk.
    destruct (Hsub (stmt_id s)) as [v Hv]; [by destruct (r !! stmt_id s)|].
    destruct (folded_constant s v env vs w') as (lit & _ & Hq); [by eapply split_stmt|done..|].
    by eexists.
Qed.
End Substitution.
End Fold.
