(* ===== verification/SsaPreserve.v ===== *)
(** * Changing the graph keeps what a function computes

    Taking a constant branch and renumbering the blocks that are left: the blocks
    that a run goes through are the same but for their numbers and for the phi
    entries of edges that are not there any more. *)

From S2P Require Export SsaFoldSem SsaOptimize.

Section Thread.
Context {P : Payload} {D : Dispatch} {SM : Semantics}.
Implicit Types func : SsaFunction.

Abbreviation Env := (gmap SsaValueId Val).

(** ** Functions with the same code along the edges that are left *)

Section Same.
Variables func func' : SsaFunction.
Variable ren : BlockId -> BlockId.
Variable live : BlockId -> Prop.

Definition same_stmt (i : BlockId) (s s' : SsaStatement) : Prop :=
  stmt_id s' = stmt_id s /\
  match stmt_op s with
  | Phi phi => exists phi', stmt_op s' = Phi phi' /\
      forall p, live p -> edge func' (ren p) (ren i) -> phi_entry (ren p) phi' = phi_entry p phi
  | _ => stmt_op s' = stmt_op s
  end.

(** [t'] is [t] with the targets renumbered, or the jump that a constant branch
    [t] takes. *)
Definition same_term (t t' : Terminator) : Prop :=
  match t with
  | Return v => t' = Return v
  | Jump u => t' = Jump (ren u) /\ live u
  | Branch c u v =>
      (t' = Branch c (ren u) (ren v) /\ live u /\ live v) \/
      exists x, c = Const (Literal_Bool x) /\ t' = Jump (ren (if x then u else v)) /\
        live (if x then u else v)
  end.

Record same_code : Prop := {
  same_entry : fn_entry func' = ren (fn_entry func);
  same_live : live (fn_entry func);
  same_block i : live i -> exists b b', block func i = Some b /\ block func' (ren i) = Some b' /\
    Forall2 (same_stmt i) (stmts b) (stmts b') /\ same_term (terminator b) (terminator b')
}.

Hypothesis Hsame : same_code.
Hypothesis Hwf' : well_formed func'.
Hypothesis Htruth : forall b, truth (lit_val (Literal_Bool b)) = Some b.
Variable args : list Val.

Lemma same_stmt_phi i s s' : same_stmt i s s' -> is_phi (stmt_op s') = is_phi (stmt_op s).
Proof.
  intros [_ H]. destruct (stmt_op s); try by rewrite H. by destruct H as (phi' & -> & _).
Qed.

Lemma same_stmts i l l' env w :
  Forall2 (same_stmt i) l l' -> exec_stmts args env w l' = exec_stmts args env w l.
Proof.
  intros H. revert env w. induction H as [|s s' l l' Hs _ IH]; intros env w; simpl; [done|].
  rewrite (same_stmt_phi _ _ _ Hs). destruct (is_phi (stmt_op s)) eqn:Hp; [apply IH|].
  destruct Hs as [-> Hop]. assert (stmt_op s' = stmt_op s) as -> by by destruct (stmt_op s).
  destruct (exec_op _ _ _ _) as [[v w']|o]; [apply IH|done].
Qed.

(** On the edge from [pred]. *)
Definition on_edge (pred : option BlockId) (i : BlockId) : Prop :=
  match pred with Some p => live p /\ edge func' (ren p) (ren i) | None => True end.

Lemma same_enter pred i l l' env :
  on_edge pred i -> Forall2 (same_stmt i) l l' ->
  enter args env (ren <$> pred) l' = enter args env pred l.
Proof.
  intros Hpred H. unfold enter. generalize env at 2 4. 
  induction H as [|s s' l l' [Hid Hop] _ IH]; intros new; simpl; [done|]. rewrite <- IH. f_equal.
  unfold enter_stmt. destruct (stmt_op s) as [phi| | | | | | | | |]; try by rewrite Hop.
  destruct Hop as (phi' & -> & Hentry). rewrite Hid.
  destruct pred as [p|]; simpl; [|done]. destruct Hpred as [Hp He]. by rewrite (Hentry p Hp He).
Qed.

Lemma same_leave env w t t' :
  same_term t t' ->
  match leave args env w t with
  | Ok u => leave args env w t' = Ok (ren u) /\ live u
  | Err o => leave args env w t' = Err o
  end.
Proof.
  destruct t as [u|c u v|r]; simpl.
  - by intros [-> Hu].
  - intros [(-> & Hu & Hv)|(x & -> & -> & Hl)]; simpl; [|by rewrite Htruth].
    destruct (read args env c) as [y|]; [|done]. destruct (truth y) as [[]|]; done.
  - intros ->. simpl. destruct r as [v|]; [|done]. by destruct (read args env v).
Qed.

Lemma same_run fuel pred i env w :
  live i -> on_edge pred i ->
  run fuel func' args (ren <$> pred) (ren i) env w = run fuel func args pred i env w.
Proof.
  revert pred i env w. induction fuel as [|fuel IH]; intros pred i env w Hi Hpred; [done|].
  cbn [run]. destruct (same_block Hsame i Hi) as (b & b' & Hb & Hb' & Hst & Ht). rewrite Hb, Hb'.
  rewrite (same_enter pred i _ _ env Hpred Hst), (same_stmts i _ _ _ w Hst).
  destruct (exec_stmts args (enter args env pred (stmts b)) w (stmts b)) as [[env1 w1]|o]; [|done].
  pose proof (same_leave env1 w1 _ _ Ht) as Hl.
  destruct (leave args env1 w1 (terminator b)) as [u|o]; [|by rewrite Hl].
  destruct Hl as [Hl Hu]. rewrite Hl. apply (IH (Some i)); [done|]. split; [done|].
  by eapply (leave_edge func' args Hwf' (ren i) b').
Qed.

Lemma same_evaluate fuel w : evaluate fuel func' args w = evaluate fuel func args w.
Proof.
  unfold evaluate. rewrite (same_entry Hsame). apply (same_run fuel None); [|done].
  apply (same_live Hsame).
Qed.
End Same.

(** ** Phi entries *)

Lemma phi_entry_zip p (phi : PhiNode) ov :
  NoDup (edges phi) -> (p, ov) ∈ zip (edges phi) (values phi) -> phi_entry p phi = ov.
Proof.
  intros Hnd [k Hk]%list_elem_of_lookup. apply lookup_zip_with_Some in Hk as (q & ow & Heq & Hq & Hw).
  injection Heq as -> ->. unfold phi_entry. rewrite (proj2 (position_Some (edges phi) Hnd q k) Hq).
  simpl. by rewrite Hw.
Qed.

Lemma pruned_entry ps s s' phi phi' p :
  pruned_stmt ps s s' -> stmt_op s = Phi phi -> stmt_op s' = Phi phi' -> NoDup (edges phi) ->
  NoDup ps -> p ∈ ps -> phi_entry p phi' = phi_entry p phi.
Proof.
  intros [_ H] Hop Hop' Hnd Hps Hp. rewrite Hop in H.
  destruct H as (phi2 & H2 & He & Hl & Hz). rewrite Hop' in H2. injection H2 as <-.
  destruct (zip_lookup_l (edges phi') (values phi') p) as [ov Hov]; [congruence|by rewrite He|].
  rewrite (phi_entry_zip p phi' ov); [|by rewrite He|done].
  symmetry. apply phi_entry_zip; [done|]. by apply Hz.
Qed.

(** Phis that lost entries, with the same numbers. *)
Lemma pruned_same func func' live i b b' :
  well_formed func -> well_formed func' -> block func i = Some b -> block func' i = Some b' ->
  Forall2 (pruned_stmt (preds b')) (stmts b) (stmts b') ->
  Forall2 (same_stmt func' id live i) (stmts b) (stmts b').
Proof.
  intros Hwf Hwf' Hb Hb' Hst. apply Forall2_same_length_lookup_2; [by eapply Forall2_length|].
  intros k s s' Hs Hs'. destruct (Forall2_lookup_lr _ _ _ _ _ _ Hst Hs Hs') as [Hid Hop].
  split; [done|]. destruct (stmt_op s) as [phi| | | | | | | | |] eqn:Hphi; try done.
  pose proof Hop as (phi' & Hop' & _). exists phi'. split; [done|]. intros p _ He.
  apply (pruned_entry (preds b') s s'); try done.
  - split; [done|]. by rewrite Hphi.
  - destruct (wf_phi _ Hwf i b s phi Hb) as [-> _]; [by apply list_elem_of_lookup_2 in Hs|done|].
    apply shape_nodup. by eapply (well_formed_shape func).
  - apply shape_nodup. by eapply (well_formed_shape func').
  - by apply (pred_spec _ (well_formed_edges _ Hwf') i).
Qed.

Lemma same_term_id (live : BlockId -> Prop) t :
  (forall u, u ∈ targets t -> live u) -> same_term id live t t.
Proof.
  destruct t as [u|c u v|r]; simpl; intros H; [split; [done|apply H; left]| |done].
  left. split_and!; [done|..]; apply H; destruct (Nat.eqb_spec u v) as [->|]; try left; right; left.
Qed.

(** ** Constant branches *)

Lemma folded_branch_inv t taken dropped :
  folded_branch t = Some (taken, dropped) ->
  exists x u v, t = Branch (Const (Literal_Bool x)) u v /\ taken = (if x then u else v).
Proof.
  destruct t as [|c u v|]; try done. destruct c as [| |[]]; try done.
  intros [= H]. exists b, u, v. split; [done|]. by destruct b; injection H as <- <-.
Qed.

Section Branches.
Variable args : list Val.
Hypothesis Htruth : forall b, truth (lit_val (Literal_Bool b)) = Some b.

Lemma branched_same func i taken dropped b func' :
  well_formed func -> block func i = Some b ->
  folded_branch (terminator b) = Some (taken, dropped) -> well_formed func' ->
  fn_entry func' = fn_entry func ->
  (forall j, block func' j = branched_block i taken dropped j <$> block func j) ->
  same_code func func' id (fun j => is_Some (block func j)).
Proof.
  intros Hwf Hb Hbr Hwf' He Hf. constructor; [done| |].
  { destruct (wf_entry _ Hwf) as (e & -> & _). by eexists. }
  intros j [x Hx]. exists x, (branched_block i taken dropped j x).
  assert (block func' (id j) = Some (branched_block i taken dropped j x)) as Hx'
    by (unfold id; by rewrite Hf, Hx).
  split_and!; [done|done| |].
  - apply (pruned_same func func' _ j); try done.
    by eapply pruned_stmts, (branched_pruned func i taken dropped b).
  - assert (terminator (branched_block i taken dropped j x) =
      terminator (jump_block i taken j x)) as ->.
    { unfold branched_block, drop_pred. by repeat case_match. }
    unfold jump_block. destruct (Nat.eqb_spec j i) as [->|Hji]; simpl.
    + rewrite Hb in Hx. injection Hx as <-.
      destruct (folded_branch_inv _ _ _ Hbr) as (y & u & v & Ht & ->).
      rewrite Ht. right. exists y. split_and!; [done|done|].
      apply (wf_targets _ Hwf i b); [done|].
      by eapply (branch_targets func); eauto.
    + apply same_term_id. intros u. by apply (wf_targets _ Hwf j).
Qed.

Lemma fold_branches_loop_same func changed indices changed' func' :
  well_formed func -> fold_branches_loop func changed indices = Some (changed', func') ->
  fn_params func' = fn_params func /\
  forall fuel w, evaluate fuel func' args w = evaluate fuel func args w.
Proof.
  revert func changed. induction indices as [|j indices IH]; intros func changed Hwf; simpl.
  { by intros [= _ <-]. }
  destruct (block func j) as [b|] eqn:Hb; [|done]. simpl.
  destruct (folded_branch (terminator b)) as [[taken dropped]|] eqn:Hbr; [|by apply IH].
  destruct (branch_result func j taken dropped b Hwf Hb Hbr) as (func1 & -> & He & Hp & Hf). simpl.
  pose proof (branch_well_formed func j taken dropped b Hwf Hb Hbr func1 He Hp Hf) as Hwf1.
  intros Hrun. destruct (IH func1 true Hwf1 Hrun) as [Hps Hev].
  split; [congruence|]. intros fuel w. rewrite Hev.
  eapply same_evaluate; [by eapply branched_same|done|done].
Qed.
End Branches.

(** ** Unreachable blocks *)

Lemma position_rank (order l : list BlockId) p :
  NoDup order -> p ∈ order -> (forall q, q ∈ l -> q ∈ order) ->
  position (rank order p) (map (rank order) l) = position p l.
Proof.
  intros Hnd Hp. induction l as [|q l IH]; intros Hl; simpl; [done|].
  rewrite IH by (intros r Hr; apply Hl; by right).
  destruct (Nat.eqb_spec q p) as [->|Hne]; [by rewrite Nat.eqb_refl|].
  destruct (Nat.eqb_spec (rank order q) (rank order p)) as [He|]; [|done].
  exfalso. apply Hne. eapply rank_inj; [exact Hnd| |done|done]. apply Hl. left.
Qed.

Section Unreachable.
Variables func func' : SsaFunction.
Variable reachable : gset BlockId.
Hypothesis Hwf : well_formed func.
Hypothesis Hwf' : well_formed func'.
Hypothesis Hreach : forall v, v ∈ reachable <-> reached (edge func) (fn_entry func) v.
Hypothesis Hentry : fn_entry func' = rank (order reachable) (fn_entry func).
Hypothesis Hblocks : forall k v b, order reachable !! k = Some v -> block func v = Some b ->
  block func' k = Some (rank_block reachable (pruned_at reachable v b)).

Abbreviation rk := (rank (order reachable)).

Lemma reachable_at v b : v ∈ reachable -> block func v = Some b ->
  block func' (rk v) = Some (rank_block reachable (pruned_at reachable v b)).
Proof.
  intros Hv Hb. apply (Hblocks _ v); [|done].
  apply (rank_spec _ (order_NoDup reachable)). by apply order_elem.
Qed.

Lemma ranked_entry i b s phi phi1 p :
  i ∈ reachable -> block func i = Some b -> p ∈ reachable -> edge func' (rk p) (rk i) ->
  s ∈ stmts b -> stmt_op s = Phi phi ->
  forall s1, pruned_stmt (preds (pruned_at reachable i b)) s s1 -> stmt_op s1 = Phi phi1 ->
  phi_entry (rk p) {| edges := map rk (edges phi1); values := values phi1 |} = phi_entry p phi.
Proof.
  intros Hi Hb Hp He Hs Hop s1 Hpr Hop1.
  pose proof (pruned_dropped func reachable Hwf i b Hb Hi) as Hd.
  pose proof Hpr as [_ Hpr']. rewrite Hop in Hpr'. destruct Hpr' as (phi2 & Hop2 & Hed & Hlen & Hz).
  rewrite Hop1 in Hop2. injection Hop2 as <-.
  assert (forall q, q ∈ edges phi1 -> q ∈ reachable) as Hsub.
  { intros q. rewrite Hed. by apply (pruned_preds_reachable func reachable Hwf i b). }
  transitivity (phi_entry p phi1).
  - unfold phi_entry. simpl. rewrite position_rank; [done|apply order_NoDup|by apply order_elem|].
    intros q Hq. by apply order_elem, Hsub.
  - apply (pruned_entry (preds (pruned_at reachable i b)) s s1); try done.
    + destruct (wf_phi _ Hwf i b s phi Hb Hs Hop) as [-> _].
      apply shape_nodup. by eapply (well_formed_shape func).
    + apply shape_nodup, (drop_shape _ _ _ Hd).
    + apply (pred_spec _ (well_formed_edges _ Hwf') (rk i) _ (rk p) (reachable_at i b Hi Hb)) in He.
      simpl in He. apply list_elem_of_fmap in He as (q & Hq & Hin).
      assert (q ∈ reachable) as Hqr by by apply (pruned_preds_reachable func reachable Hwf i b).
      by rewrite (rk_inj reachable p q Hp Hqr Hq).
Qed.

Lemma renumbered_same : same_code func func' rk (fun v => v ∈ reachable).
Proof.
  constructor; [done|by apply Hreach, reached_entry|]. intros i Hi.
  destruct (reachable_block func reachable Hwf Hreach i Hi) as [b Hb].
  pose proof (pruned_dropped func reachable Hwf i b Hb Hi) as Hd.
  exists b, (rank_block reachable (pruned_at reachable i b)).
  split_and!; [done|by apply reachable_at| |].
  - apply Forall2_fmap_r. pose proof (drop_stmts _ _ _ Hd) as Hst.
    apply Forall2_same_length_lookup_2; [by eapply Forall2_length|]. intros k s s1 Hs Hs1.
    pose proof (Forall2_lookup_lr _ _ _ _ _ _ Hst Hs Hs1) as Hpr.
    split; [by rewrite rank_stmt_id; destruct Hpr|].
    apply list_elem_of_lookup_2 in Hs. unfold rank_stmt.
    pose proof Hpr as [_ Hop]. destruct (stmt_op s) as [phi| | | | | | | | |] eqn:Hphi; try (by rewrite Hop).
    destruct Hop as (phi1 & Hop1 & _). rewrite Hop1. eexists. split; [done|].
    intros p Hp He. by apply (ranked_entry i b s phi phi1 p Hi Hb Hp He Hs Hphi s1).
  - simpl. rewrite (drop_term _ _ _ Hd).
    assert (forall u, u ∈ targets (terminator b) -> u ∈ reachable) as Ht.
    { intros u Hu. eapply (reachable_edge func reachable Hreach i); [done|].
      unfold edge, block_succs. by rewrite Hb, (wf_succs _ Hwf i b). }
    destruct (terminator b) as [u|c u v|r]; simpl in *; [split; [done|apply Ht; left]| |done].
    left. split_and!; [done|..]; apply Ht; destruct (Nat.eqb_spec u v) as [->|]; try left; right; left.
Qed.
End Unreachable.

Lemma unreachable_same func changed func' args :
  (forall b, truth (lit_val (Literal_Bool b)) = Some b) ->
  well_formed func -> eliminate_unreachable_blocks func = Some (changed, func') ->
  fn_params func' = fn_params func /\
  forall fuel w, evaluate fuel func' args w = evaluate fuel func args w.
Proof.
  intros Htruth Hwf Hrun.
  destruct (eliminate_unreachable_blocks_at func changed func' Hwf Hrun)
    as [->|(reachable & Hreach & Hwf' & He & Hp & Hb)]; [done|].
  split; [done|]. intros fuel w. eapply same_evaluate; [by eapply renumbered_same|done|done].
Qed.
End Thread.

(** * The optimizer keeps what a function computes

    The passes one after the other, round after round; and functions that never
    read a definition without a value, of which the optimizer keeps everything. *)

Section Preserve.
Context {P : Payload} {D : Dispatch} {SM : Semantics}.
Implicit Types func : SsaFunction.

Abbreviation Env := (gmap SsaValueId Val).
Abbreviation reached_in func := (reached (edge func) (fn_entry func)).

(** A pass that keeps SSA form, the parameters and what the function computes. *)
Definition keeps args func func' : Prop :=
  well_formed func' /\ fn_params func' = fn_params func /\
  forall fuel w, refines (evaluate fuel func args w) (evaluate fuel func' args w).

Lemma keeps_refl args func : well_formed func -> keeps args func func.
Proof. intros Hwf. split_and!; [done|done|]. intros fuel w. reflexivity. Qed.

Lemma keeps_trans args f1 f2 f3 : keeps args f1 f2 -> keeps args f2 f3 -> keeps args f1 f3.
Proof.
  intros (_ & H1 & H2) (H3 & H4 & H5). split_and!; [done|congruence|].
  intros fuel w. eapply refines_trans; [apply H2|apply H5].
Qed.

(** ** Folding *)

Section Scope.
Variable inputs : EffectInputs.
Variable scope : option EffectInputs.
Hypothesis Hscope : forall i, scope = Some i -> i = inputs.

Lemma fold_turn_keeps func args changed func' :
  well_formed func -> promises inputs (fn_params func) args -> exact_phis func = true ->
  fold_turn func scope = Some (changed, func') -> keeps args func func'.
Proof.
  intros Hwf Hp Hexact Hrun.
  destruct (fold_turn_spec func scope Hwf) as (c & f & Hrun' & Hwf' & _).
  rewrite Hrun in Hrun'. injection Hrun' as <- <-.
  revert Hrun. unfold fold_turn.
  destruct (resolve_substitutions_spec func _ Hwf (folded_available func scope Hwf))
    as (r & Hr & Har & _ & Hflat). rewrite Hr. cbn [mbind option_bind].
  set (func1 := if negb (bool_decide (r = ∅)) then _ else func). intros Hb.
  assert (keeps args func func1) as (Hwf1 & Hp1 & Hev1).
  { unfold func1. case_bool_decide; simpl; [by apply keeps_refl|].
    split_and!; [by apply substitution_well_formed|done|]. intros fuel w.
    by eapply (substitution_refines func scope inputs). }
  destruct (fold_constant_branches func1) as [[c f']|] eqn:Hc; [|done]. simpl in Hb.
  injection Hb as _ ->. clear Hr.
  destruct (fold_branches_loop_same args (promise_truth _ _ _ Hp) func1 _ _ _ _ Hwf1 Hc) as [Hp2 Hev2].
  split_and!; [done|congruence|]. intros fuel w. rewrite Hev2. apply Hev1.
Qed.

(** No turn of the loop meets a phi that merges zeros. *)
Fixpoint fold_exact (fuel : nat) func : bool :=
  exact_phis func &&
  match fold_turn func scope with
  | Some (true, func') => match fuel with 0 => true | S fuel => fold_exact fuel func' end
  | _ => true
  end.

Lemma fold_loop_keeps fuel func args changed changed' func' :
  well_formed func -> promises inputs (fn_params func) args -> fold_exact fuel func = true ->
  fold_loop fuel func scope changed = Some (changed', func') -> keeps args func func'.
Proof.
  revert func changed. induction fuel as [|fuel IH]; intros func changed Hwf Hp;
    cbn [fold_exact fold_loop]; intros [Hexact Hrest]%andb_true_iff;
    destruct (fold_turn func scope) as [[c f]|] eqn:Ht; try done; cbn [mbind option_bind];
    pose proof (fold_turn_keeps func args c f Hwf Hp Hexact Ht) as Hk; destruct c; try done;
    try (by intros [= _ <-]).
  intros Hrun. eapply keeps_trans; [exact Hk|]. destruct Hk as (Hwf' & Hpar & _).
  eapply IH; [done|by rewrite Hpar|exact Hrest|exact Hrun].
Qed.
End Scope.

(** ** The driver *)

Definition round_exact func (inputs : EffectInputs) : bool :=
  fold_exact (Some inputs) (ssa_size func) func.

(** The whole run of the optimizer. *)
Fixpoint rounds_exact (rounds : nat) func (inputs : EffectInputs) : bool :=
  match rounds with
  | 0 => true
  | S rounds =>
      round_exact func inputs &&
      match optimize_round func inputs with
      | Some (true, func') => rounds_exact rounds func' inputs
      | _ => true
      end
  end.

Definition optimize_exact func (inputs : EffectInputs) : bool :=
  rounds_exact MAX_ROUNDS func inputs.

Lemma dead_defs_keeps inputs func args changed func' :
  well_formed func -> promises inputs (fn_params func) args ->
  eliminate_dead_defs_scoped_inner func inputs = Some (changed, func') -> keeps args func func'.
Proof.
  intros Hwf Hp Hrun. destruct (eliminate_dead_defs_run func inputs Hwf) as (live & Hrun' & Hwf' & _).
  pose proof Hrun as Hrun2. rewrite Hrun' in Hrun. injection Hrun as _ <-.
  split_and!; [done|done|]. intros fuel w. by eapply dead_defs_refines.
Qed.

Lemma merge_keeps inputs func args changed func' :
  well_formed func -> promises inputs (fn_params func) args ->
  cse_pure_calls_scoped_inner func inputs = Some (changed, func') -> keeps args func func'.
Proof.
  intros Hwf Hp Hrun. destruct (cse_pure_calls_result func inputs Hwf)
    as (c & f & subst & table & seen & Hrun' & Hf & Hwf' & _).
  pose proof Hrun as Hrun2. rewrite Hrun' in Hrun. injection Hrun as _ ->.
  split_and!; [done|by rewrite Hf|]. intros fuel w. by eapply merge_refines.
Qed.

Lemma unreachable_keeps inputs func args changed func' :
  well_formed func -> promises inputs (fn_params func) args ->
  eliminate_unreachable_blocks func = Some (changed, func') -> keeps args func func'.
Proof.
  intros Hwf Hp Hrun. destruct (eliminate_unreachable_blocks_result func Hwf)
    as (c & f & r & Hrun' & Hwf' & _).
  rewrite Hrun in Hrun'. injection Hrun' as -> <-.
  destruct (unreachable_same func c func' args (promise_truth _ _ _ Hp) Hwf Hrun) as [Hpar Hev].
  split_and!; [done|done|]. intros fuel w. rewrite Hev. reflexivity.
Qed.

Lemma round_keeps inputs func args changed func' :
  well_formed func -> promises inputs (fn_params func) args -> round_exact func inputs = true ->
  optimize_round func inputs = Some (changed, func') -> keeps args func func'.
Proof.
  intros Hwf Hp Hexact. unfold optimize_round.
  destruct (fold_constants_scoped_inner func inputs) as [[c1 f1]|] eqn:H1; [|done].
  cbn [mbind option_bind].
  assert (keeps args func f1) as K1 by by eapply (fold_loop_keeps inputs (Some inputs)); [intros i [= ->]|..].
  pose proof K1 as (W1 & P1 & _). rewrite <- P1 in Hp.
  destruct (eliminate_unreachable_blocks f1) as [[c2 f2]|] eqn:H2; [|done]. cbn [mbind option_bind].
  pose proof (unreachable_keeps inputs f1 args c2 f2 W1 Hp H2) as K2.
  pose proof K2 as (W2 & P2 & _). rewrite <- P2 in Hp.
  destruct (eliminate_dead_defs_scoped_inner f2 inputs) as [[c3 f3]|] eqn:H3; [|done].
  cbn [mbind option_bind].
  pose proof (dead_defs_keeps inputs f2 args c3 f3 W2 Hp H3) as K3.
  pose proof K3 as (W3 & P3 & _). rewrite <- P3 in Hp.
  destruct (cse_pure_calls_scoped_inner f3 inputs) as [[c4 f4]|] eqn:H4; [|done].
  cbn [mbind option_bind]. intros [= _ <-].
  pose proof (merge_keeps inputs f3 args c4 f4 W3 Hp H4) as K4.
  eauto using keeps_trans.
Qed.

Lemma rounds_keeps rounds inputs func args done func' :
  well_formed func -> promises inputs (fn_params func) args -> rounds_exact rounds func inputs = true ->
  optimize_rounds rounds func inputs = Some (done, func') -> keeps args func func'.
Proof.
  revert func. induction rounds as [|rounds IH]; intros func Hwf Hp;
    cbn [rounds_exact optimize_rounds].
  { intros _ [= _ <-]. by apply keeps_refl. }
  intros [Hexact Hrest]%andb_true_iff.
  destruct (optimize_round func inputs) as [[c f]|] eqn:Hr; [|discriminate]. cbn [mbind option_bind].
  pose proof (round_keeps inputs func args c f Hwf Hp Hexact Hr) as Hk.
  destruct c; [|by intros [= _ <-]]. intros Hrun. eapply keeps_trans; [exact Hk|].
  destruct Hk as (Hwf' & Hpar & _). eapply IH; [done|by rewrite Hpar|exact Hrest|exact Hrun].
Qed.

(** ** Functions in which every definition has a value *)

(** A phi has values, and none of them is missing. *)
Definition no_missing_phi (s : SsaStatement) : bool :=
  match stmt_op s with
  | Phi phi =>
      negb (length (values phi) =? 0) &&
      forallb (fun v => match v with Some _ => true | None => false end) (values phi)
  | _ => true
  end.

Definition no_missing func : bool := forallb no_missing_phi (all_stmts func).

Section Defined.
Variable func : SsaFunction.
Variable args : list Val.
Hypothesis Hwf : well_formed func.
Hypothesis Hargs : length args = length (fn_params func).
Hypothesis Hphis : no_missing func = true.

Definition defined (x : SsaValueId) (env : Env) : Prop := is_Some (env !! x).

Lemma read_defined before i env v :
  good func defined before i env -> operand_ok func before i v -> is_Some (read args env v).
Proof.
  intros Hg Hv. destruct v as [x|k|lit]; simpl; [by apply Hg| |by eexists].
  apply lookup_lt_is_Some. by rewrite Hargs.
Qed.

Lemma reads_defined before i b s after env :
  reached_in func i -> block func i = Some b -> stmts b = before ++ s :: after ->
  good func defined before i env -> is_Some (mapM (read args env) (operands (stmt_op s))).
Proof.
  intros Hr Hb Hl Hg. apply mapM_is_Some, Forall_forall. intros v Hv.
  eapply read_defined; [exact Hg|]. by eapply (wf_operands _ Hwf i b before s after).
Qed.

Lemma phi_complete i b s phi :
  block func i = Some b -> s ∈ stmts b -> stmt_op s = Phi phi ->
  values phi <> [] /\ forall ov, ov ∈ values phi -> is_Some ov.
Proof.
  intros Hb Hs Hop. unfold no_missing in Hphis. rewrite forallb_forall in Hphis.
  assert (no_missing_phi s = true) as Hm.
  { apply Hphis, list_elem_of_In. by eapply block_stmts. }
  unfold no_missing_phi in Hm. rewrite Hop, andb_true_iff, forallb_forall in Hm. destruct Hm as [Hl Hm].
  split; [by destruct (values phi)|]. intros ov Hov%list_elem_of_In. apply Hm in Hov.
  by destruct ov.
Qed.

Lemma defined_join p i bp b s phi env :
  reached_in func p -> edge func p i -> block func p = Some bp -> block func i = Some b ->
  s ∈ stmts b -> stmt_op s = Phi phi -> good func defined (stmts bp) p env ->
  defined (stmt_id s) (enter args env (Some p) (stmts b)).
Proof.
  intros Hr He Hbp Hb Hs Hop Hg. unfold defined.
  rewrite (enter_phi args env (Some p) (stmts b) s phi); [|by eapply block_ids_NoDup|done|done].
  destruct (wf_phi _ Hwf i b s phi Hb Hs Hop) as [Hed Hlen].
  destruct (phi_entry_some p phi) as (ov & Hov & Hentry); [|by rewrite Hed|].
  { rewrite Hed. by apply (pred_spec _ (well_formed_edges _ Hwf) i). }
  destruct (phi_complete i b s phi Hb Hs Hop) as [_ Hm]. specialize (Hm ov Hov).
  destruct ov as [v|]; [|by destruct Hm].
  unfold phi_value. simpl. rewrite Hentry. simpl.
  eapply (read_defined (stmts bp) p); [done|]. destruct v as [x|k|lit]; [| |done].
  - by eapply (phi_entry_visible func Hwf p i bp b s phi).
  - apply phi_entry_elem in Hentry.
    by apply (wf_phi_values _ Hwf i b s phi p (Argument k) (reached_step _ _ _ _ Hr He) Hb Hs Hop Hentry).
Qed.

Lemma defined_invariant : invariant func args defined.
Proof.
  constructor.
  - intros d x env env' _ _ Hx _. unfold defined. by rewrite Hx.
  - intros i b before s after env w v w' _ _ _ _ _ _. unfold defined. rewrite lookup_insert_eq. by eexists.
  - intros p i bp b s phi env. apply defined_join.
  - intros b s phi Hb Hs Hop. exfalso.
    destruct (wf_phi _ Hwf _ b s phi Hb Hs Hop) as [_ Hlen].
    destruct (phi_complete _ b s phi Hb Hs Hop) as [Hne _]. apply Hne.
    destruct (wf_entry _ Hwf) as (e & He & Hpr). rewrite Hb in He. injection He as <-.
    rewrite Hpr in Hlen. by destruct (values phi).
Qed.

Definition not_undefined (o : Outcome Val World Exn) : Prop :=
  match o with UndefinedRead _ => False | _ => True end.

Lemma stmts_defined i b after before env w :
  reached_in func i -> block func i = Some b -> stmts b = before ++ after ->
  Forall (fun s => is_phi (stmt_op s) = false) after -> good func defined before i env ->
  match exec_stmts args env w after with
  | Ok (env1, _) => good func defined (stmts b) i env1
  | Err o => not_undefined o
  end.
Proof.
  intros Hr Hb. revert before env w. induction after as [|s after IH]; intros before env w Hl Hph Hg; simpl.
  { by rewrite Hl, app_nil_r. }
  apply Forall_cons in Hph as [Hp Hph]. rewrite Hp.
  destruct (exec_op args env (stmt_op s) w) as [[v w']|o] eqn:He.
  - apply (IH (before ++ [s])); [by rewrite <- app_assoc|done|].
    by eapply (good_step func args Hwf defined defined_invariant i b before s after).
  - revert He. unfold exec_op. destruct (reads_defined before i b s after env Hr Hb Hl Hg) as [vs ->].
    by destruct (perform _ _ _); intros [= <-].
Qed.

Lemma run_defined fuel pred i env w :
  at_edge func defined pred i env -> not_undefined (run fuel func args pred i env w).
Proof.
  revert pred i env w. induction fuel as [|fuel IH]; intros pred i env w Hat; simpl; [done|].
  destruct (block func i) as [b|] eqn:Hb; [|done].
  pose proof (at_edge_reached func defined pred i env Hat) as Hr.
  destruct (wf_prefix _ Hwf i b Hb) as (ps & rest & Hl & Hps & Hrest).
  pose proof (good_enter func args Hwf defined defined_invariant pred i b env ps rest Hat Hb Hl Hps Hrest) as Hg.
  assert (exec_stmts args (enter args env pred (stmts b)) w (stmts b) =
    exec_stmts args (enter args env pred (stmts b)) w rest) as ->.
  { generalize (enter args env pred (stmts b)). intros e. by rewrite Hl, exec_stmts_phis. }
  pose proof (stmts_defined i b rest ps _ w Hr Hb Hl Hrest Hg) as Hst.
  destruct (exec_stmts args (enter args env pred (stmts b)) w rest) as [[env1 w1]|o]; [|done].
  assert (forall v, v ∈ term_operands (terminator b) -> is_Some (read args env1 v)) as Hread.
  { intros v Hv. eapply read_defined; [exact Hst|]. by eapply (wf_terminator _ Hwf i b). }
  destruct (leave args env1 w1 (terminator b)) as [t|o] eqn:Hle.
  - apply IH. exists b. split_and!; try done. by eapply leave_edge.
  - destruct (terminator b) as [u|c u v|[r|]]; simpl in *; try done.
    + destruct (Hread c) as [x Hx]; [left|]. rewrite Hx in Hle. destruct (truth x); [done|].
      by injection Hle as <-.
    + destruct (Hread r) as [x Hx]; [left|]. rewrite Hx in Hle. by injection Hle as <-.
    + by injection Hle as <-.
Qed.

Lemma evaluate_defined fuel w : not_undefined (evaluate fuel func args w).
Proof. by apply run_defined. Qed.
End Defined.

(** C3. The optimizer keeps what a function computes.  Where the effect summaries and
    the constant evaluator keep their promises and no phi merges zeros, every
    run of the optimized function ends as the run of the function does, after
    the same number of blocks and in the same world, or goes on as long; only a
    run that reads a definition without a value may end differently, and a
    function whose phis have all their values has no such run. *)
Theorem optimize_preserves func inputs args :
  well_formed func -> promises inputs (fn_params func) args -> optimize_exact func inputs = true ->
  exists done func', optimize_scoped_inner func inputs = Some (done, func') /\
    (forall fuel w, refines (evaluate fuel func args w) (evaluate fuel func' args w)) /\
    (no_missing func = true -> length args = length (fn_params func) ->
     forall fuel w, evaluate fuel func' args w = evaluate fuel func args w).
Proof.
  intros Hwf Hp Hexact. destruct (optimize_rounds_spec MAX_ROUNDS func inputs Hwf) as (d & f & Hrun & _).
  exists d, f. split; [exact Hrun|].
  destruct (rounds_keeps MAX_ROUNDS inputs func args d f Hwf Hp Hexact Hrun) as (_ & _ & Hev).
  split; [exact Hev|]. intros Hm Ha fuel w.
  pose proof (evaluate_defined func args Hwf Ha Hm fuel w) as Hd. specialize (Hev fuel w).
  by destruct (evaluate fuel func args w).
Qed.
End Preserve.
