(* ===== verification/SsaExamples.v ===== *)
(** * The SSA passes on concrete functions

    A function with a loop, run through the verifier and the optimizer, the
    witnesses of the theorems with hypotheses, and two functions on which the
    optimizer does what its comments rule out. *)

From S2P Require Export SsaOptimize CoreIr SsaPreserve.

(** Payloads that the passes never look into, and types without structure. *)
#[local] Instance unit_types : CoreTypes :=
  {| CoreBuiltin := unit; CoreJuliaType := unit; CoreSpan := unit; TypeExpr := unit;
     TypeParam := unit; NominalDef := unit |}.
#[local] Instance unit_dispatch : Dispatch :=
  {| CoreType := CorePrimitive; core_primitive := fun c => c; core_of_julia := fun _ => CoreInt64 |}.

Definition stmt (id : SsaValueId) (op : SsaOp) : SsaStatement :=
  {| stmt_id := id; stmt_op := op; stmt_span := tt |}.

Definition call (f : string) (args : list SsaValue) : SsaOp := Call None f args [] [] [].

Definition mk_block (id : BlockId) (l : list SsaStatement) (t : Terminator) (p s : list BlockId) : SsaBlock :=
  {| blk_id := id; stmts := l; terminator := t; preds := p; succs := s |}.

Definition no_effects : EffectInputs := scoped_inputs ∅ ∅.

(** A loop that computes [sin(x)] before and inside, an addition of constants, a
    block behind a constant branch and a statement nothing reads. *)
Definition looping : SsaFunction :=
  {| fn_name := "f"; fn_params := [{| param_name := "x"; param_ty := None |}]; fn_entry := 0;
     fn_blocks :=
       [ mk_block 0 [stmt 0 (call "sin" [Argument 0]);
                     stmt 1 (Binary Add (Const (Literal_Int 2)) (Const (Literal_Int 3)));
                     stmt 2 (call "sin" [Def 1])] (Jump 1) [] [1];
         mk_block 1 [stmt 3 (Phi {| edges := [0; 2]; values := [Some (Def 0); Some (Def 4)] |})]
           (Branch (Argument 0) 2 3) [0; 2] [2; 3];
         mk_block 2 [stmt 4 (call "sin" [Argument 0])] (Jump 1) [1] [1];
         mk_block 3 [] (Branch (Const (Literal_Bool true)) 4 5) [1] [4; 5];
         mk_block 4 [] (Return (Some (Def 3))) [3] [];
         mk_block 5 [] (Return (Some (Def 1))) [3] [] ] |}.

(** What is left: one call, and a block fewer. *)
Definition looping_optimized : SsaFunction :=
  {| fn_name := "f"; fn_params := [{| param_name := "x"; param_ty := None |}]; fn_entry := 0;
     fn_blocks :=
       [ mk_block 0 [stmt 0 (call "sin" [Argument 0])] (Jump 1) [] [1];
         mk_block 1 [] (Branch (Argument 0) 2 3) [0; 2] [2; 3];
         mk_block 2 [] (Jump 1) [1] [1];
         mk_block 3 [] (Jump 4) [1] [4];
         mk_block 4 [] (Return (Some (Def 0))) [3] [] ] |}.

Lemma looping_verified : verify looping = Some (Ok tt).
Proof. vm_compute. reflexivity. Qed.

(** The verifier proves the hypothesis of the theorems. *)
Lemma verified_well_formed func : verify func = Some (Ok tt) -> well_formed func.
Proof.
  intros H. destruct (verify_decides func) as (r & Hr & Hiff). rewrite H in Hr.
  apply Hiff. by injection Hr.
Qed.

Lemma looping_well_formed : well_formed looping.
Proof. apply verified_well_formed, looping_verified. Qed.

Lemma looping_edges : edges_ok looping.
Proof. apply well_formed_edges, looping_well_formed. Qed.

Lemma looping_optimized_is : optimize_scoped_inner looping no_effects = Some (true, looping_optimized).
Proof. vm_compute. reflexivity. Qed.

Lemma optimize_scoped_inner_spec_witness :
  well_formed looping /\
  exists done func', optimize_scoped_inner looping no_effects = Some (done, func') /\ well_formed func'.
Proof.
  split; [apply looping_well_formed|].
  destruct (optimize_scoped_inner_spec looping no_effects looping_well_formed)
    as (c & f & H1 & H2 & _). exact (ex_intro _ c (ex_intro _ f (conj H1 H2))).
Defined.

Lemma optimized_normal_form_witness :
  optimize_scoped_inner looping no_effects = Some (true, looping_optimized) /\
  reached (edge looping_optimized) 0 4.
Proof.
  split; [apply looping_optimized_is|].
  destruct (optimized_normal_form looping no_effects looping_optimized looping_well_formed
    looping_optimized_is) as (H & _). by apply (H 4 _ eq_refl).
Defined.

Lemma compute_idoms_immediate_witness :
  edges_ok looping /\
  exists reachable idoms, compute_reachable looping = Some reachable /\
    compute_idoms looping reachable = Some idoms /\ idoms !! 2 = Some 1.
Proof.
  split; [apply looping_edges|].
  destruct (compute_idoms_immediate looping looping_edges) as (r & i & Hr & Hi & _).
  exists r, i. split; [done|]. split; [done|]. revert Hi. vm_compute in Hr. injection Hr as <-.
  vm_compute. by intros [= <-].
Defined.

Definition reached_path (func : SsaFunction) (l : list BlockId) : Prop :=
  match l with [] => False | v :: _ => path (edge func) (fn_entry func) v l end.

Lemma looping_reached : reached (edge looping) (fn_entry looping) 3.
Proof.
  exists [3; 1; 0]. eapply path_step; [eapply path_step; [constructor|]|];
    apply (bool_decide_unpack _); by vm_compute.
Qed.

Lemma dominates_spec_witness :
  exists reachable idoms, compute_reachable looping = Some reachable /\
    compute_idoms looping reachable = Some idoms /\
    exists r, dominates 1 3 (fn_entry looping) idoms = Some r /\
      (r = true <-> dominator (edge looping) (fn_entry looping) 1 3).
Proof.
  destruct (compute_reachable looping) as [r|] eqn:Hr; [|by vm_compute in Hr].
  destruct (compute_idoms looping r) as [i|] eqn:Hi.
  - exists r, i. split; [done|]. split; [done|].
    exact (dominates_spec looping r i 1 3 looping_edges Hr Hi looping_reached).
  - vm_compute in Hr. injection Hr as <-. by vm_compute in Hi.
Defined.

Lemma eliminate_dead_defs_spec_witness :
  well_formed looping /\
  exists changed func', eliminate_dead_defs_scoped_inner looping no_effects = Some (changed, func') /\
    well_formed func'.
Proof.
  split; [apply looping_well_formed|].
  destruct (eliminate_dead_defs_spec looping no_effects looping_well_formed)
    as (c & f & H1 & H2 & _). exact (ex_intro _ c (ex_intro _ f (conj H1 H2))).
Defined.

Lemma fold_constants_spec_witness :
  well_formed looping /\
  exists changed func', fold_constants_inner looping None = Some (changed, func') /\ well_formed func'.
Proof.
  split; [apply looping_well_formed|].
  destruct (fold_constants_spec looping None looping_well_formed) as (c & f & H1 & H2 & _).
  exact (ex_intro _ c (ex_intro _ f (conj H1 H2))).
Defined.

Lemma eliminate_unreachable_blocks_spec_witness :
  well_formed looping /\
  exists changed func', eliminate_unreachable_blocks looping = Some (changed, func') /\
    well_formed func'.
Proof.
  split; [apply looping_well_formed|].
  destruct (eliminate_unreachable_blocks_spec looping looping_well_formed)
    as (c & f & _ & H1 & H2 & _). exact (ex_intro _ c (ex_intro _ f (conj H1 H2))).
Defined.

Lemma cse_pure_calls_spec_witness :
  well_formed looping /\
  exists changed func', cse_pure_calls_scoped_inner looping no_effects = Some (changed, func') /\
    well_formed func'.
Proof.
  split; [apply looping_well_formed|].
  destruct (cse_pure_calls_spec looping no_effects looping_well_formed)
    as (c & f & _ & H1 & _ & H2 & _). exact (ex_intro _ c (ex_intro _ f (conj H1 H2))).
Defined.

Lemma int_folding_exact_witness :
  eval_const_binary "+" (ConstValue_Int64 9223372036854775807) (ConstValue_Int64 1) = None.
Proof.
  destruct (int_folding_exact 9223372036854775807 1) as (_ & H & _); [done|done|].
  apply (H "+" 9223372036854775808%Z); [by left|]. by intros [_ ?].
Defined.

(** ** A phi of two zeros *)

(** [y = c ? 0.0 : -0.0; 1.0 / y].  The two arms of the phi are constants that
    compare equal, so that the phi counts as trivial. *)
Definition signed_zero : SsaFunction :=
  {| fn_name := "f"; fn_params := [{| param_name := "c"; param_ty := None |}]; fn_entry := 0;
     fn_blocks :=
       [ mk_block 0 [] (Branch (Argument 0) 1 2) [] [1; 2];
         mk_block 1 [] (Jump 3) [0] [3];
         mk_block 2 [stmt 0 (Unary Neg (Const (Literal_Float f64_zero)))] (Jump 3) [0] [3];
         mk_block 3 [stmt 1 (Phi {| edges := [1; 2];
                                    values := [Some (Const (Literal_Float f64_zero)); Some (Def 0)] |});
                     stmt 2 (Binary Div (Const (Literal_Float f64_one)) (Def 1))]
           (Return (Some (Def 2))) [1; 2] [] ] |}.


(** ** The bound on the rounds *)

(** [n] nested calls before a loop and again inside, through phis.  A round merges
    one pair of calls, which makes one phi trivial, which makes the next pair
    equal. *)
Definition operand_of (k : nat) (prev : nat -> SsaValueId) : SsaValue :=
  match k with 0 => Argument 0 | S j => Def (prev j) end.

Definition nested (n : nat) : SsaFunction :=
  {| fn_name := "f"; fn_params := [{| param_name := "x"; param_ty := None |}]; fn_entry := 0;
     fn_blocks :=
       [ mk_block 0 (map (fun k => stmt (3 * k) (call "sin" [operand_of k (fun j => 3 * j)])) (seq 0 n))
           (Jump 1) [] [1];
         mk_block 1 (map (fun k => stmt (3 * k + 1)
           (Phi {| edges := [0; 2]; values := [Some (Def (3 * k)); Some (Def (3 * k + 2))] |})) (seq 0 n))
           (Branch (Argument 0) 2 3) [0; 2] [2; 3];
         mk_block 2 (map (fun k => stmt (3 * k + 2) (call "sin" [operand_of k (fun j => 3 * j + 1)]))
           (seq 0 n)) (Jump 1) [1] [1];
         mk_block 3 [] (Return (Some (Def (3 * (n - 1) + 1)))) [1] [] ] |}.

Definition rounds_needed (func : SsaFunction) (k : nat) : bool :=
  match optimize_rounds k func no_effects, optimize_rounds (S k) func no_effects with
  | Some (false, _), Some (true, _) => true
  | _, _ => false
  end.

(** Each further level costs a round: the rounds that a function needs are not
    bounded by a constant, although every pass shrinks it. *)
Theorem nested_rounds_bug n :
  n < 6 -> well_formed (nested (S n)) /\ rounds_needed (nested (S n)) (S (S n)) = true.
Proof.
  intros Hn. destruct n as [|[|[|[|[|[|n]]]]]]; [..|lia];
    (split; [apply verified_well_formed|]; vm_compute; reflexivity).
Qed.

Lemma nested_rounds_bug_witness : 4 < 6 /\ rounds_needed (nested 5) 6 = true.
Proof. split; [lia|]. apply (nested_rounds_bug 4). lia. Defined.

(** ** The optimizer on functions that run

    A semantics with output that keeps the promises, the witness of
    [optimize_preserves], and a function of which the optimizer does not keep
    the [UndefVarError]. *)

#[local] Existing Instance unit_types.
#[local] Existing Instance unit_dispatch.

(** Values are literals, the world is what was printed.  [println] prints, the
    builtins that the effect tables know give a value (what the constant
    evaluator says, or [nothing]), and everything else throws. *)
Definition const_or_nothing (v : option ConstValue) : Literal :=
  match v with Some v => const_value_to_literal v | None => Literal_Nothing end.

Definition call_value (f : string) (vs : list Literal) : Literal :=
  const_or_nothing (vs ← mapM literal_to_const_value vs; eval_const_call f vs).

Definition quiet_builtin (f : string) : bool :=
  is_removable (infer_builtin_effects f []) || is_foldable (infer_builtin_effects f []).

(** [&&] and [||] do not look at the right operand when the left one decides. *)
Definition operator_value (op : BinaryOp) (vs : list Literal) : Literal :=
  match op, vs with
  | And, Literal_Bool false :: _ => Literal_Bool false
  | Or, Literal_Bool true :: _ => Literal_Bool true
  | _, _ => call_value (binary_op_to_function_name op) vs
  end.

Lemma operator_value_folds (op : BinaryOp) l r u u' v :
  literal_to_const_value l = Some u -> literal_to_const_value r = Some u' ->
  eval_const_binary (binary_op_to_function_name op) u u' = Some v -> operator_value op [l; r] = const_value_to_literal v.
Proof.
  intros Hl Hr Hv. assert (call_value (binary_op_to_function_name op) [l; r] = const_value_to_literal v) as Hc.
  { unfold call_value. simpl. rewrite Hl. simpl. rewrite Hr. simpl. by rewrite Hv. }
  destruct op; try done; destruct l as [| | | | | | |[]| | | | | | | | | | | | | | | | | | |]; try done;
    injection Hl as <-; destruct u'; try done; by injection Hv as <-.
Qed.

Definition printing_perform (op : SsaOp) (vs : list Literal) (w : list Literal)
    : Performed Literal (list Literal) string :=
  match op with
  | Unary uop _ => Gave (call_value (unary_op_to_function_name uop) vs) w
  | Binary bop _ _ => Gave (operator_value bop vs) w
  | Call _ f _ _ _ _ =>
      if String.eqb f "println" then Gave Literal_Nothing (w ++ vs)
      else if quiet_builtin f then Gave (call_value f vs) w
      else Threw f w
  | BarrierReload _ _ => Gave Literal_Nothing w
  | _ => Threw "unsupported" w
  end.

#[local] Instance printing : Semantics :=
  {| Val := Literal; World := list Literal; Exn := string; lit_val := fun lit => lit;
     truth := fun v => match v with Literal_Bool b => Some b | _ => None end;
     perform := printing_perform |}.

Lemma read_constants args env vs us :
  mapM const_arg vs = Some us ->
  exists ls, mapM (read args env) vs = Some ls /\ mapM literal_to_const_value ls = Some us.
Proof.
  revert us. induction vs as [|v vs IH]; intros us; simpl; [intros [= <-]; by exists []|].
  destruct v as [| |lit]; try done. simpl.
  destruct (literal_to_const_value lit) as [u|] eqn:Hu; [|done]. simpl.
  destruct (mapM const_arg vs) as [us'|]; [|done]. simpl. intros [= <-].
  destruct (IH us' eq_refl) as (ls & Hls & Hus). exists (lit :: ls).
  split; simpl; [by rewrite Hls|by rewrite Hu; simpl; rewrite Hus].
Qed.

Lemma scoped_call bound m f xs kws sm km params shadowed :
  op_effects (Call m f xs kws sm km) (params_ctx (scoped_inputs ∅ bound) params) shadowed = arbitrary \/
  op_effects (Call m f xs kws sm km) (params_ctx (scoped_inputs ∅ bound) params) shadowed =
    infer_builtin_effects f [].
Proof.
  simpl. destruct (_ || _ || _); [by left|right]. rewrite lookup_empty. by destruct m.
Qed.

Lemma quiet_performs bound m f xs kws sm km params shadowed :
  let e := op_effects (Call m f xs kws sm km) (params_ctx (scoped_inputs ∅ bound) params) shadowed in
  is_removable e || is_foldable e = true ->
  forall xs' kws' sm' km' vs w,
    printing_perform (Call m f xs' kws' sm' km') vs w = Gave (call_value f vs) w.
Proof.
  intros e He. unfold e in He. intros. cbn [printing_perform].
  destruct (scoped_call bound m f xs kws sm km params shadowed) as [Hc|Hc]; rewrite Hc in He; [done|].
  destruct (String.eqb_spec f "println") as [->|_]; [by vm_compute in He|].
  unfold quiet_builtin. by rewrite He.
Qed.

(** Without the callers' summaries, the names that the function binds may be any. *)
Lemma printing_promises_scoped bound params args : promises (scoped_inputs ∅ bound) params args.
Proof.
  constructor.
  - intros op env vs w Hp Hr _. destruct op as [| | |m f xs kws sm km| | | | | |]; try done;
      try by eexists.
    eexists. unfold shape. cbn [operands_mut].
    eapply quiet_performs. by rewrite Hr.
  - intros op env vs w v w' Hp Hf _. destruct op as [|uop x|bop x y|m f xs kws sm km| | | | | |]; try done.
    + by intros [= <- <-].
    + by intros [= <- <-].
    + unfold shape. cbn [operands_mut].
      assert (forall xs' kws' sm' km' vs w, printing_perform (Call m f xs' kws' sm' km') vs w =
        Gave (call_value f vs) w) as Hq.
      { apply (quiet_performs bound m f xs kws sm km params (bound_names (scoped_inputs ∅ bound) params)).
        by rewrite Hf, orb_true_r. }
      change (perform ?op) with (printing_perform op). rewrite Hq.
      intros [= <- <-]. split; [done|]. intros w2. apply Hq.
  - intros id op lit env vs w Hp Hf Hvs.
    destruct op as [|uop [| |l]|bop [| |l] [| |r]|[m|] f xs [|kw kws] sm km| | | | | |]; try done.
    + simpl in *. injection Hvs as <-. cbn.
      destruct (literal_to_const_value l) as [u|] eqn:Hu; [|done]. simpl in Hf.
      unfold call_value. simpl. rewrite Hu. simpl. destruct (eval_const_unary _ u); [|done].
      by injection Hf as <-.
    + simpl in *. injection Hvs as <-. cbn.
      destruct (literal_to_const_value l) as [u|] eqn:Hu; [|done]. simpl in Hf.
      destruct (literal_to_const_value r) as [u'|] eqn:Hu'; [|done]. simpl in Hf.
      destruct (eval_const_binary _ u u') as [x|] eqn:Hx; [|done]. injection Hf as <-.
      by rewrite (operator_value_folds bop l r u u' x Hu Hu' Hx).
    + cbn [fold_statement] in Hf. destruct (any_true sm || any_true km); [done|].
      cbn [mbind option_bind] in Hf.
      destruct (is_foldable _) eqn:Hfo; [|done]. simpl in Hf. destruct (nothrow _); [|done].
      simpl in Hf. destruct (mapM const_arg xs) as [us|] eqn:Hus; [|done]. simpl in Hf.
      destruct (read_constants args env xs us Hus) as (ls & Hls & Hlu).
      simpl in Hvs. rewrite app_nil_r, Hls in Hvs. injection Hvs as <-.
      unfold shape. cbn [operands_mut map]. change (perform ?op) with (printing_perform op).
      rewrite (quiet_performs bound None f xs [] sm km params (bound_names (scoped_inputs ∅ bound) params))
        by by rewrite Hfo, orb_true_r.
      unfold call_value. rewrite Hlu. simpl. destruct (eval_const_call f us); [|done].
      by injection Hf as <-.
  - done.
Qed.

Lemma printing_promises params args : promises no_effects params args.
Proof. apply printing_promises_scoped. Qed.

(** The arguments of the runs below. *)
Definition one_arg : list Val := [Literal_Int 1].
Definition false_arg : list Val := [Literal_Bool false].

(** Prints twice, computes [sin(x)] twice, and never prints the third time. *)
Definition noisy : SsaFunction :=
  {| fn_name := "f"; fn_params := [{| param_name := "x"; param_ty := None |}]; fn_entry := 0;
     fn_blocks :=
       [ mk_block 0 [stmt 0 (call "sin" [Argument 0]);
                     stmt 1 (call "println" [Const (Literal_Str "start")]);
                     stmt 2 (call "sin" [Argument 0]);
                     stmt 3 (Binary Add (Const (Literal_Int 2)) (Const (Literal_Int 3)));
                     stmt 4 (call "println" [Def 2; Def 3])]
           (Branch (Const (Literal_Bool true)) 1 2) [] [1; 2];
         mk_block 1 [stmt 5 (Unary Neg (Def 3))] (Return (Some (Def 0))) [0] [];
         mk_block 2 [stmt 6 (call "println" [Const (Literal_Str "never")])] (Return (Some (Def 2))) [0] [] ] |}.

Definition noisy_optimized : SsaFunction :=
  {| fn_name := "f"; fn_params := [{| param_name := "x"; param_ty := None |}]; fn_entry := 0;
     fn_blocks :=
       [ mk_block 0 [stmt 0 (call "sin" [Argument 0]);
                     stmt 1 (call "println" [Const (Literal_Str "start")]);
                     stmt 4 (call "println" [Def 0; Const (Literal_Int 5)])] (Jump 1) [] [1];
         mk_block 1 [] (Return (Some (Def 0))) [0] [] ] |}.

Lemma noisy_well_formed : well_formed noisy.
Proof. apply verified_well_formed. vm_compute. reflexivity. Qed.

Example noisy_optimized_is :
  optimize_scoped_inner noisy no_effects = Some (true, noisy_optimized).
Proof. vm_compute. reflexivity. Qed.

Example noisy_runs :
  evaluate 5 noisy_optimized one_arg [] =
    Returned (Some Literal_Nothing) [Literal_Str "start"; Literal_Nothing; Literal_Int 5].
Proof. vm_compute. reflexivity. Qed.

Lemma optimize_preserves_witness :
  well_formed noisy /\ optimize_exact noisy no_effects = true /\ no_missing noisy = true /\
  exists done func', optimize_scoped_inner noisy no_effects = Some (done, func') /\
    forall fuel w, evaluate fuel func' one_arg w = evaluate fuel noisy one_arg w.
Proof.
  split; [apply noisy_well_formed|]. split; [by vm_compute|]. split; [by vm_compute|].
  destruct (optimize_preserves noisy no_effects one_arg noisy_well_formed
    (printing_promises _ _) ltac:(by vm_compute)) as (d & f & Hrun & _ & Hev).
  exact (ex_intro _ d (ex_intro _ f (conj Hrun (Hev ltac:(by vm_compute) eq_refl)))).
Defined.

(** [if c; x = 1 end; y = x + 1; 0]: [x] has no value when [c] is false. *)
Definition maybe_undefined : SsaFunction :=
  {| fn_name := "f"; fn_params := [{| param_name := "c"; param_ty := None |}]; fn_entry := 0;
     fn_blocks :=
       [ mk_block 0 [] (Branch (Argument 0) 1 2) [] [1; 2];
         mk_block 1 [] (Jump 3) [0] [3];
         mk_block 2 [] (Jump 3) [0] [3];
         mk_block 3 [stmt 0 (Phi {| edges := [1; 2];
                                    values := [Some (Const (Literal_Int 1)); None] |});
                     stmt 1 (Binary Add (Def 0) (Const (Literal_Int 1)))]
           (Return (Some (Const (Literal_Int 0)))) [1; 2] [] ] |}.

Lemma maybe_undefined_well_formed : well_formed maybe_undefined.
Proof. apply verified_well_formed. vm_compute. reflexivity. Qed.

