(* ===== verification/SsaPlan.v ===== *)
(** * The shared backend plan of a function in SSA form

    subset_julia_vm_compile/src/compile/ssa_ir/plan.rs and the data of
    subset_julia_vm_bytecode/src/shared_plan.rs: the planner rebuilds expression
    trees from definitions that are used once, right after they are computed, gives
    every other definition a slot [#ssaN], and turns the phis of a block into
    copies on its incoming edges.  [sites] and the other maps are keyed by the
    [u32] of an identifier; [uses] counts in an unbounded [nat]. *)

From S2P Require Export CoreIr SsaOpt.

(** ** The plan *)

Section Plan.
Context {C : CoreTypes}.

Inductive SharedRootPlan :=
  | Assign (name : string) (expr : CoreExpr) (span : CoreSpan)
  | Discard (expr : CoreExpr) (span : CoreSpan).

Record SharedCopyPlan := { copy_name : string; copy_expr : CoreExpr; copy_span : CoreSpan }.

Inductive SharedTermPlan :=
  | ReturnPlan (expr : option CoreExpr)
  | JumpPlan (target : BlockId) (copies : list SharedCopyPlan)
  | BranchPlan (cond : CoreExpr) (then_target else_target : BlockId)
      (then_copies else_copies : list SharedCopyPlan).

Record SharedBlockPlan := { roots : list SharedRootPlan; plan_terminator : SharedTermPlan }.

Record SharedFunctionPlan := { plan_blocks : list SharedBlockPlan }.

(** [PlanError]; a vector index out of bounds panics. *)
Inductive PlanError :=
  | Fallback (reason : string)
  | Panics
  | PlanFuel.

(** ** The planner *)

Record NumericConvertGate := { gate_int64 : bool; gate_float64 : bool }.

Record DefSite := { site_block : nat; site_index : nat }.

Record Planner := {
  ssa : SsaFunction;
  fallback_span : CoreSpan;
  sites : gmap SsaValueId DefSite;
  uses : gmap SsaValueId nat;
  force_spill : gset SsaValueId;
  edge_copies : gmap (BlockId * BlockId) (list (SsaValueId * SsaValue) * bool);
  coalesced : gmap SsaValueId SsaValueId;
  convert_gate : NumericConvertGate
}.

Definition slot_name (id : SsaValueId) : string := "#ssa" +:+ pretty id.
Definition temp_name (id : SsaValueId) : string := "#ssatmp" +:+ pretty id.

Definition is_inline_op (op : SsaOp) : bool :=
  match op with
  | Unary _ _ | Binary _ _ _ | Call _ _ _ _ _ _ | Builtin _ _ | LoadGlobal _ => true
  | _ => false
  end.

(** [uses.get(&id).copied().unwrap_or(0)]. *)
Definition use_count (p : Planner) (id : SsaValueId) : nat := default 0 (uses p !! id).

(** *** Definition sites and uses *)

Definition note_use (uses : gmap SsaValueId nat) (value : SsaValue) : gmap SsaValueId nat :=
  match value with
  | Def id => <[id := default 0 (uses !! id) + 1]> uses
  | _ => uses
  end.

(** What a statement reads, the values of a phi included. *)
Definition noted_values (op : SsaOp) : list SsaValue :=
  match op with
  | Phi phi => omap id (values phi)
  | op => operands op
  end.

Definition collect_stmt (block_idx : nat) (p : Planner) (indexed : nat * SsaStatement) : Planner :=
  let '(index, stmt) := indexed in
  {| ssa := ssa p; fallback_span := fallback_span p;
     sites := <[stmt_id stmt := {| site_block := block_idx; site_index := index |}]> (sites p);
     uses := foldl note_use (uses p) (noted_values (stmt_op stmt));
     force_spill :=
       if is_phi (stmt_op stmt) then {[stmt_id stmt]} ∪ force_spill p else force_spill p;
     edge_copies := edge_copies p; coalesced := coalesced p; convert_gate := convert_gate p |}.

Definition note_uses (p : Planner) (values : list SsaValue) : Planner :=
  {| ssa := ssa p; fallback_span := fallback_span p; sites := sites p;
     uses := foldl note_use (uses p) values;
     force_spill := force_spill p; edge_copies := edge_copies p; coalesced := coalesced p;
     convert_gate := convert_gate p |}.

Definition collect_block (p : Planner) (indexed : nat * SsaBlock) : Planner :=
  let '(block_idx, b) := indexed in
  note_uses (foldl (collect_stmt block_idx) p (enumerate (stmts b)))
    (term_operands (terminator b)).

Definition collect_sites_and_uses (p : Planner) : Planner :=
  foldl collect_block p (enumerate (fn_blocks (ssa p))).

(** *** Copies on the edges *)

Definition with_copies (p : Planner)
    (m : gmap (BlockId * BlockId) (list (SsaValueId * SsaValue) * bool)) : Planner :=
  {| ssa := ssa p; fallback_span := fallback_span p; sites := sites p; uses := uses p;
     force_spill := force_spill p; edge_copies := m; coalesced := coalesced p;
     convert_gate := convert_gate p |}.

(** The copy of a phi for the edge at [edge_pos], unless it copies itself. *)
Definition edge_copy (edge_pos : nat) (stmt : SsaStatement) : option (SsaValueId * SsaValue) :=
  match stmt_op stmt with
  | Phi phi =>
      match values phi !! edge_pos with
      | Some (Some value) =>
          if value_eqb value (Def (stmt_id stmt)) then None else Some (stmt_id stmt, value)
      | _ => None
      end
  | _ => None
  end.

Definition reads_phi (phi_ids : gset SsaValueId) (copy : SsaValueId * SsaValue) : bool :=
  match copy.2 with Def id => bool_decide (id ∈ phi_ids) | _ => false end.

Definition collect_edge (b : SsaBlock)
    (m : gmap (BlockId * BlockId) (list (SsaValueId * SsaValue) * bool))
    (indexed : nat * BlockId) : gmap (BlockId * BlockId) (list (SsaValueId * SsaValue) * bool) :=
  let '(edge_pos, pred) := indexed in
  let copies := omap (edge_copy edge_pos) (phis (stmts b)) in
  let phi_ids : gset SsaValueId := list_to_set (map stmt_id (phis (stmts b))) in
  match copies with
  | [] => m
  | _ => <[(pred, blk_id b) := (copies, existsb (reads_phi phi_ids) copies)]> m
  end.

Definition collect_block_copies
    (m : gmap (BlockId * BlockId) (list (SsaValueId * SsaValue) * bool)) (b : SsaBlock)
    : gmap (BlockId * BlockId) (list (SsaValueId * SsaValue) * bool) :=
  match phis (stmts b) with
  | [] => m
  | s :: _ =>
      match stmt_op s with
      | Phi phi => foldl (collect_edge b) m (enumerate (edges phi))
      | _ => m
      end
  end.

Definition collect_edge_copies (p : Planner) : Planner :=
  with_copies p (foldl collect_block_copies (edge_copies p) (fn_blocks (ssa p))).

(** *** Coalescing *)

Definition index {A} (l : list A) (i : nat) : result PlanError A :=
  match l !! i with Some x => Ok x | None => Err Panics end.

Fixpoint try_mapM {A B} (f : A -> result PlanError B) (l : list A) : result PlanError (list B) :=
  match l with
  | [] => Ok []
  | x :: l => let? y := f x in let? ys := try_mapM f l in Ok (y :: ys)
  end.

Definition reads_value (v : SsaValue) (vs : list SsaValue) : bool := existsb (fun x => value_eqb x v) vs.

(** The slot of the phi is read after the definition at [site_idx]. *)
Definition phi_read_after (b : SsaBlock) (site_idx : nat) (copies : list (SsaValueId * SsaValue))
    (phi_id : SsaValueId) : bool :=
  existsb (fun s => reads_value (Def phi_id) (operands (stmt_op s))) (drop (site_idx + 1) (stmts b)) ||
  reads_value (Def phi_id) (term_operands (terminator b)) ||
  existsb (fun copy : SsaValueId * SsaValue =>
    negb (Nat.eqb copy.1 phi_id) && value_eqb copy.2 (Def phi_id)) copies.

Definition coalescible (p : Planner) (pred : BlockId) (b : SsaBlock)
    (copies : list (SsaValueId * SsaValue)) (copy : SsaValueId * SsaValue)
    : result PlanError (option (SsaValueId * SsaValueId)) :=
  let '(phi_id, value) := copy in
  match value with
  | Def def =>
      match sites p !! def with
      | None => Ok None
      | Some site =>
          if negb (Nat.eqb (site_block site) pred) then Ok None
          else
            let? s := index (stmts b) (site_index site) in
            if negb (is_inline_op (stmt_op s)) || negb (Nat.eqb (use_count p def) 1) then Ok None
            else if phi_read_after b (site_index site) copies phi_id then Ok None
            else Ok (Some (phi_id, def))
      end
  | _ => Ok None
  end.

Definition is_jump (t : Terminator) : bool := match t with Jump _ => true | _ => false end.
Definition is_branch (t : Terminator) : bool := match t with Branch _ _ _ => true | _ => false end.

Definition coalesce_edge (p : Planner)
    (entry : (BlockId * BlockId) * (list (SsaValueId * SsaValue) * bool))
    : result PlanError (list ((BlockId * BlockId) * SsaValueId * SsaValueId)) :=
  let '(e, (copies, interference)) := entry in
  if interference then Ok []
  else
    let? b := index (fn_blocks (ssa p)) e.1 in
    if negb (is_jump (terminator b)) then Ok []
    else
      let? found := try_mapM (coalescible p e.1 b copies) copies in
      Ok (map (fun c : SsaValueId * SsaValueId => (e, c.1, c.2)) (omap id found)).

Definition coalesce_one (p : Planner) (planned : (BlockId * BlockId) * SsaValueId * SsaValueId) : Planner :=
  let '(e, phi_id, def) := planned in
  {| ssa := ssa p; fallback_span := fallback_span p; sites := sites p; uses := uses p;
     force_spill := {[def]} ∪ force_spill p;
     edge_copies :=
       alter (fun c : list (SsaValueId * SsaValue) * bool =>
         (filter (fun x => negb (Nat.eqb x.1 phi_id) = true) c.1, c.2)) e (edge_copies p);
     coalesced := <[def := phi_id]> (coalesced p);
     convert_gate := convert_gate p |}.

Definition coalesce_phi_copies (p : Planner) : result PlanError Planner :=
  let? planned := try_mapM (coalesce_edge p) (map_to_list (edge_copies p)) in
  Ok (foldl coalesce_one p (concat planned)).

Definition spill_edge (p : Planner)
    (entry : (BlockId * BlockId) * (list (SsaValueId * SsaValue) * bool))
    : result PlanError (list SsaValueId) :=
  let '(e, (copies, interference)) := entry in
  match copies with
  | [] => Ok []
  | _ =>
      let? b := index (fn_blocks (ssa p)) e.1 in
      if is_branch (terminator b) || interference || Nat.ltb 1 (length copies) then
        Ok (omap (fun c : SsaValueId * SsaValue => match c.2 with Def id => Some id | _ => None end) copies)
      else Ok []
  end.

Definition apply_force_spill (p : Planner) : result PlanError Planner :=
  let? spills := try_mapM (spill_edge p) (map_to_list (edge_copies p)) in
  Ok {| ssa := ssa p; fallback_span := fallback_span p; sites := sites p; uses := uses p;
        force_spill := list_to_set (concat spills) ∪ force_spill p;
        edge_copies := edge_copies p; coalesced := coalesced p; convert_gate := convert_gate p |}.

(** ** Materialized values *)

Definition spill_name (p : Planner) (id : SsaValueId) : string :=
  match coalesced p !! id with
  | Some phi => slot_name phi
  | None => slot_name id
  end.

Definition param_name_at (p : Planner) (index : nat) : string :=
  match fn_params (ssa p) !! index with
  | Some param => param_name param
  | None => "#arg" +:+ pretty index
  end.

Definition materialize (p : Planner) (value : SsaValue) (span : CoreSpan) : CoreExpr :=
  match value with
  | Const lit => Expr_Literal lit span
  | Argument i => Expr_Var (param_name_at p i) span
  | Def id => Expr_Var (spill_name p id) span
  end.

Definition block_span (p : Planner) (b : SsaBlock) : CoreSpan :=
  match last (stmts b) with Some s => stmt_span s | None => fallback_span p end.

(** ** Short-circuit operands *)

(** [str::parse::<u32>]: an optional [+] and decimal digits. *)
Definition digit_value (c : Ascii.ascii) : option Z :=
  let n := Z.of_nat (Ascii.nat_of_ascii c) in
  if ((48 <=? n) && (n <=? 57))%Z then Some (n - 48)%Z else None.

Fixpoint parse_digits (acc : Z) (s : string) : option Z :=
  match s with
  | EmptyString => Some acc
  | String c s =>
      d ← digit_value c;
      let acc := (acc * 10 + d)%Z in
      if (acc <? 2 ^ 32)%Z then parse_digits acc s else None
  end.

Definition parse_u32 (s : string) : option SsaValueId :=
  let digits := match str_strip_prefix "+" s with Some rest => rest | None => s end in
  if String.eqb digits EmptyString then None else Z.to_nat <$> parse_digits 0 digits.

Fixpoint collect_spill_reads (e : CoreExpr) : list SsaValueId :=
  match e with
  | Expr_Var name _ =>
      match str_strip_prefix "#ssa" name with
      | Some rest => match parse_u32 rest with Some id => [id] | None => [] end
      | None => []
      end
  | Expr_UnaryOp _ operand _ | Expr_Convert _ operand _ => collect_spill_reads operand
  | Expr_BinaryOp _ lhs rhs _ => collect_spill_reads lhs ++ collect_spill_reads rhs
  | Expr_Call _ args kwargs _ _ _ | Expr_ModuleCall _ _ args kwargs _ _ _ =>
      flat_map collect_spill_reads args ++ flat_map (fun kw => collect_spill_reads kw.2) kwargs
  | Expr_Builtin _ args _ => flat_map collect_spill_reads args
  | _ => []
  end.

(** A slot that the same block fills with something else than a phi. *)
Definition eager_read (p : Planner) (block_idx : nat) (id : SsaValueId) : result PlanError bool :=
  match sites p !! id with
  | None => Ok false
  | Some site =>
      let? b := index (fn_blocks (ssa p)) (site_block site) in
      let? s := index (stmts b) (site_index site) in
      Ok (Nat.eqb (site_block site) block_idx && negb (is_phi (stmt_op s)))
  end.

Fixpoint check_suspects (p : Planner) (block_idx : nat) (suspects : list SsaValueId)
    : result PlanError unit :=
  match suspects with
  | [] => Ok tt
  | id :: suspects =>
      let? eager := eager_read p block_idx id in
      if eager : bool then Err (Fallback "short-circuit right operand evaluated eagerly")
      else check_suspects p block_idx suspects
  end.

Definition check_short_circuit_right (p : Planner) (block_idx : nat) (right_expr : CoreExpr)
    : result PlanError unit :=
  check_suspects p block_idx (collect_spill_reads right_expr).

Definition is_short_circuit (op : BinaryOp) : bool :=
  match op with And | Or => true | _ => false end.

Definition numeric_convert_target (gate : NumericConvertGate) (function : string) (arg_count : nat)
    (kwargs_empty : bool) (splat_mask kwargs_splat_mask : list bool) : option NumericConvertTarget :=
  if negb (Nat.eqb arg_count 1) || negb kwargs_empty ||
     any_true splat_mask || any_true kwargs_splat_mask
  then None
  else if String.eqb function "Int64" && gate_int64 gate then Some ConvertInt64
  else if String.eqb function "Float64" && gate_float64 gate then Some ConvertFloat64
  else None.

(** ** Trees

    Building a tree consumes the statements right before the cursor; the flags of
    the consumed statements and the cursor are the state. *)

Definition Planning (A : Type) : Type := list bool * nat -> result PlanError (A * (list bool * nat)).

Definition plan_ret {A} (a : A) : Planning A := fun st => Ok (a, st).
Definition plan_err {A} (e : PlanError) : Planning A := fun _ => Err e.
Definition plan_bind {A B} (m : Planning A) (k : A -> Planning B) : Planning B :=
  fun st => let? r := m st in k r.1 r.2.
Definition plan_lift {A} (r : result PlanError A) : Planning A :=
  fun st => let? a := r in Ok (a, st).

#[local] Notation "x <~ m ; k" := (plan_bind m (fun x => k))
  (at level 100, m at level 99, k at level 200, right associativity).

(** The operands of an operation, the last one first. *)
Fixpoint build_values (build : SsaValue -> Planning CoreExpr) (vs : list SsaValue)
    : Planning (list CoreExpr) :=
  match vs with
  | [] => plan_ret []
  | v :: vs => es <~ build_values build vs; e <~ build v; plan_ret (e :: es)
  end.

Definition build_op_expr (p : Planner) (block_idx : nat)
    (build : CoreSpan -> SsaValue -> Planning CoreExpr) (stmt : SsaStatement) : Planning CoreExpr :=
  let span : CoreSpan := stmt_span stmt in
  match stmt_op stmt with
  | Unary op operand => operand <~ build span operand; plan_ret (Expr_UnaryOp op operand span)
  | Binary op lhs rhs =>
      right_expr <~ build span rhs;
      _ <~ (if is_short_circuit op then plan_lift (check_short_circuit_right p block_idx right_expr)
            else plan_ret tt);
      left_expr <~ build span lhs;
      plan_ret (Expr_BinaryOp op left_expr right_expr span)
  | Call module function args kwargs splat_mask kwargs_splat_mask =>
      kwarg_exprs <~ build_values (build span) (map snd kwargs);
      arg_exprs <~ build_values (build span) args;
      let kwarg_list := zip (map fst kwargs) kwarg_exprs in
      match module with
      | Some module =>
          plan_ret (Expr_ModuleCall module function arg_exprs kwarg_list splat_mask
            kwargs_splat_mask span)
      | None =>
          match numeric_convert_target (convert_gate p) function (length arg_exprs)
                  (Nat.eqb (length kwarg_list) 0) splat_mask kwargs_splat_mask with
          | Some target =>
              match last arg_exprs with
              | Some operand => plan_ret (Expr_Convert target operand span)
              | None => plan_err (Fallback "internal: numeric_convert_target checked arity above")
              end
          | None =>
              plan_ret (Expr_Call function arg_exprs kwarg_list splat_mask kwargs_splat_mask span)
          end
      end
  | Builtin name args =>
      arg_exprs <~ build_values (build span) args; plan_ret (Expr_Builtin name arg_exprs span)
  | LoadGlobal name => plan_ret (Expr_Var name span)
  | Phi _ | StoreGlobal _ _ | Opaque _ _ | OpaqueStmt _ _ | BarrierReload _ _ =>
      plan_err (Fallback "operation is not expression-shaped")
  end.

Definition inlinable (p : Planner) (block_idx : nat) (cursor : nat) (site : DefSite)
    (id : SsaValueId) (op : SsaOp) : bool :=
  Nat.eqb (site_block site) block_idx && Nat.eqb (site_index site + 1) cursor &&
  Nat.eqb (use_count p id) 1 && negb (bool_decide (id ∈ force_spill p)) && is_inline_op op.

(** The tree of a value: its definition, if that comes right before the cursor and
    nothing else needs it, and a variable otherwise.  The cursor goes down with
    every definition that is consumed. *)
Fixpoint build_value (p : Planner) (block_idx : nat) (b : SsaBlock) (fuel : nat)
    (span : CoreSpan) (value : SsaValue) : Planning CoreExpr :=
  match value with
  | Def id =>
      match sites p !! id with
      | None => plan_err (Fallback "use of unknown definition")
      | Some site => fun st =>
          (* the statement is looked at only when the site is in this block *)
          if negb (Nat.eqb (site_block site) block_idx) then Ok (materialize p value span, st)
          else
            let? s := index (stmts b) (site_index site) in
            if inlinable p block_idx st.2 site id (stmt_op s) then
              match fuel with
              | 0 => Err PlanFuel
              | S fuel =>
                  build_op_expr p block_idx (build_value p block_idx b fuel) s
                    (<[site_index site := true]> st.1, site_index site)
              end
            else Ok (materialize p value span, st)
      end
  | _ => plan_ret (materialize p value span)
  end.

(** As many steps as there are statements before the cursor. *)
Definition build (p : Planner) (block_idx : nat) (b : SsaBlock) (span : CoreSpan) (value : SsaValue)
    : Planning CoreExpr :=
  fun st => build_value p block_idx b (st.2) span value st.

Definition plan_root (p : Planner) (block_idx : nat) (b : SsaBlock) (stmt : SsaStatement)
    : Planning SharedRootPlan :=
  match stmt_op stmt with
  | StoreGlobal name value =>
      expr <~ build p block_idx b (stmt_span stmt) value;
      plan_ret (Assign name expr (stmt_span stmt))
  | _ =>
      expr <~ (fun st => build_op_expr p block_idx (build_value p block_idx b st.2) stmt st);
      if Nat.ltb 0 (use_count p (stmt_id stmt)) then
        plan_ret (Assign (spill_name p (stmt_id stmt)) expr (stmt_span stmt))
      else plan_ret (Discard expr (stmt_span stmt))
  end.

(** ** Copies *)

(** Copies that interfere go through temporaries. *)
Definition staged_copies (p : Planner) (copies : list (SsaValueId * SsaValue)) (span : CoreSpan)
    : list SharedCopyPlan :=
  map (fun c => {| copy_name := temp_name c.1; copy_expr := materialize p c.2 span;
                   copy_span := span |}) copies ++
  map (fun c => {| copy_name := slot_name c.1; copy_expr := Expr_Var (temp_name c.1) span;
                   copy_span := span |}) copies.

Definition slot_copy (span : CoreSpan) (phi_id : SsaValueId) (expr : CoreExpr) : SharedCopyPlan :=
  {| copy_name := slot_name phi_id; copy_expr := expr; copy_span := span |}.

Definition plan_edge_copies (p : Planner) (block_idx : nat) (b : SsaBlock) (target : BlockId)
    (allow_inline : bool) : Planning (list SharedCopyPlan) :=
  match edge_copies p !! (blk_id b, target) with
  | None => plan_ret []
  | Some (copies, interference) =>
      let span := block_span p b in
      if interference : bool then plan_ret (staged_copies p copies span)
      else
        match copies with
        | [(phi_id, value)] =>
            if allow_inline then
              expr <~ build p block_idx b span value; plan_ret [slot_copy span phi_id expr]
            else plan_ret [slot_copy span phi_id (materialize p value span)]
        | _ => plan_ret (map (fun c => slot_copy span c.1 (materialize p c.2 span)) copies)
        end
  end.

(** ** Blocks *)

Definition plan_term (p : Planner) (block_idx : nat) (b : SsaBlock) : Planning SharedTermPlan :=
  match terminator b with
  | Return None => plan_ret (ReturnPlan None)
  | Return (Some value) =>
      expr <~ build p block_idx b (block_span p b) value; plan_ret (ReturnPlan (Some expr))
  | Branch condition then_target else_target =>
      cond <~ build p block_idx b (block_span p b) condition;
      then_copies <~ plan_edge_copies p block_idx b then_target false;
      else_copies <~ plan_edge_copies p block_idx b else_target false;
      plan_ret (BranchPlan cond then_target else_target then_copies else_copies)
  | Jump target =>
      copies <~ plan_edge_copies p block_idx b target true;
      plan_ret (JumpPlan target copies)
  end.

(** The roots of the first [idx] statements, found from the last one down. *)
Fixpoint plan_roots (p : Planner) (block_idx : nat) (b : SsaBlock) (idx : nat)
    (consumed : list bool) : result PlanError (list SharedRootPlan) :=
  match idx with
  | 0 => Ok []
  | S idx =>
      let? flag := index consumed idx in
      let? stmt := index (stmts b) idx in
      if (flag : bool) || is_phi (stmt_op stmt) then plan_roots p block_idx b idx consumed
      else
        let? r := plan_root p block_idx b stmt (consumed, idx) in
        let? rest := plan_roots p block_idx b idx r.2.1 in
        Ok (rest ++ [r.1])
  end.

Definition plan_block (p : Planner) (block_idx : nat) (b : SsaBlock)
    : result PlanError SharedBlockPlan :=
  let n := length (stmts b) in
  let? r := plan_term p block_idx b (replicate n false, n) in
  let? roots := plan_roots p block_idx b r.2.2 r.2.1 in
  Ok {| roots := roots; plan_terminator := r.1 |}.

Definition new_planner (func : SsaFunction) (span : CoreSpan) (gate : NumericConvertGate) : Planner :=
  {| ssa := func; fallback_span := span; sites := ∅; uses := ∅; force_spill := ∅;
     edge_copies := ∅; coalesced := ∅; convert_gate := gate |}.

Definition analyse (func : SsaFunction) (span : CoreSpan) (gate : NumericConvertGate)
    : result PlanError Planner :=
  let? p := coalesce_phi_copies (collect_edge_copies (collect_sites_and_uses (new_planner func span gate))) in
  apply_force_spill p.

Definition plan_function (func : SsaFunction) (span : CoreSpan) (gate : NumericConvertGate)
    : result PlanError SharedFunctionPlan :=
  let? p := analyse func span gate in
  let? blocks := try_mapM (fun indexed => plan_block p indexed.1 indexed.2)
    (enumerate (fn_blocks func)) in
  Ok {| plan_blocks := blocks |}.
End Plan.
