(* ===== verification/SsaEligible.v ===== *)
(** * From a function to its plan

    subset_julia_vm_compile/src/compile/ssa_ir/lower.rs without the emission of
    bytecode: which functions are tried, the composition of construction, optimizer,
    scan and planner, and the blocks that inherit the facts of a branch.  What the
    compiler knows about names is the argument [CompilerFacts]; the names that it
    knows as modules are [is_module] in the scan, where [written] are the names that
    the body binds. *)

From S2P Require Export SsaPlan SsaBuild.

Section Lower.
Context {C : CoreTypes}.

(** Why a statement cannot be lowered. *)
Definition unlowerable (is_module : string -> bool) (written : gset string) (op : SsaOp)
    : option string :=
  match op with
  | Opaque _ _ | OpaqueStmt _ _ | BarrierReload _ _ => Some "opaque barrier construct"%string
  | Phi phi =>
      if existsb (fun v => match v with None => true | Some _ => false end) (values phi) then
        Some "maybe-undefined phi"%string
      else None
  | Call module function _ _ _ _ =>
      if bool_decide (function ∈ written) then Some "call through a locally bound name"%string
      else match module with
           | Some module =>
               if bool_decide (module ∈ written) then
                 Some "module-qualified call through a local binding"%string
               else None
           | None => None
           end
  | LoadGlobal name => if is_module name then Some "module-valued global read"%string else None
  | Unary _ _ | Binary _ _ _ | Builtin _ _ | StoreGlobal _ _ => None
  end.

Fixpoint scan_stmts (is_module : string -> bool) (written : gset string)
    (l : list SsaStatement) : result string unit :=
  match l with
  | [] => Ok tt
  | s :: l =>
      match unlowerable is_module written (stmt_op s) with
      | Some reason => Err reason
      | None => scan_stmts is_module written l
      end
  end.

Definition scan_lowerable (is_module : string -> bool) (written : gset string)
    (func : SsaFunction) : result string unit :=
  if negb (Nat.eqb (fn_entry func) 0) then Err "entry block is not first"%string
  else scan_stmts is_module written (fn_blocks func ≫= stmts).

Lemma scan_stmts_spec is_module written l :
  scan_stmts is_module written l = Ok tt <->
  forall s, s ∈ l -> unlowerable is_module written (stmt_op s) = None.
Proof.
  induction l as [|s l IH]; simpl; [split; [intros _ s Hs; by apply not_elem_of_nil in Hs|done]|].
  destruct (unlowerable _ _ _) as [r|] eqn:Hu.
  - split; [done|]. intros H. specialize (H s). rewrite Hu in H. discriminate H. left.
  - rewrite IH. split; intros H t.
    + intros [->|Ht]%elem_of_cons; [done|by apply H].
    + intros Ht. apply H. by right.
Qed.
End Lower.

(** ** Eligibility and composition *)

Section Eligible.
Context {C : CoreTypes} {U : UnicodeTables} {D : Dispatch}.

Record CompilerFacts := {
  has_captured_vars : bool;
  (** [is_stdlib_module], [module_functions] and [module_exports] *)
  is_module : string -> bool;
  (** [module_owned_function_table_name] gives a name, or [method_tables] has one *)
  has_function_table : string -> bool;
  (** the return type is [I64] or [F64] *)
  returns_number : bool;
  runtime_specialized : bool;
  facts_effects : gmap string Effects;
  facts_resolver : option (string -> list CoreType -> option Effects);
  (** the field [name] of a type parameter *)
  type_param_name : TypeParam -> string
}.

Inductive TailMode := Explicit | ImplicitExpr.

(** ** The shape of the body *)

Definition last_stmt (b : CoreBlock) : option CoreStmt := last (block_stmts b).

(** The last of a list, where a predicate must hold. *)
Definition last_holds {A} (f : A -> bool) : list A -> bool :=
  fix go l :=
    match l with
    | [] => false
    | [x] => f x
    | _ :: l => go l
    end.

Fixpoint stmt_always_returns (stmt : CoreStmt) : bool :=
  match stmt with
  | Stmt_Return _ _ => true
  | Stmt_Block (Block l _) => last_holds stmt_always_returns l
  | Stmt_If _ (Block then_branch _) (Some (Block else_branch _)) _ =>
      last_holds stmt_always_returns then_branch && last_holds stmt_always_returns else_branch
  | _ => false
  end.

Fixpoint stmt_contains_return (stmt : CoreStmt) : bool :=
  match stmt with
  | Stmt_Return _ _ => true
  | Stmt_Block b => block_contains_return b
  | Stmt_If _ then_branch else_branch _ =>
      block_contains_return then_branch ||
      match else_branch with Some b => block_contains_return b | None => false end
  | Stmt_While _ body _ | Stmt_For _ _ _ _ body _ | Stmt_ForEach _ _ body _
  | Stmt_ForEachTuple _ _ body _ => block_contains_return body
  | Stmt_Try try_block _ catch_block else_block finally_block _ =>
      block_contains_return try_block ||
      match catch_block with Some b => block_contains_return b | None => false end ||
      match else_block with Some b => block_contains_return b | None => false end ||
      match finally_block with Some b => block_contains_return b | None => false end
  | Stmt_Timed body _ | Stmt_TestSet _ body _ => block_contains_return body
  | _ => false
  end
with block_contains_return (b : CoreBlock) : bool :=
  match b with Block l _ => existsb stmt_contains_return l end.

Definition expr_is_shortcircuit (e : CoreExpr) : bool :=
  match e with
  | Expr_BinaryOp And _ _ _ | Expr_BinaryOp Or _ _ _ => true
  | _ => false
  end.

Fixpoint stmt_has_discarded_shortcircuit (stmt : CoreStmt) : bool :=
  match stmt with
  | Stmt_Expr e _ => expr_is_shortcircuit e
  | Stmt_Block b => block_has_discarded_shortcircuit b
  | Stmt_If _ then_branch else_branch _ =>
      block_has_discarded_shortcircuit then_branch ||
      match else_branch with Some b => block_has_discarded_shortcircuit b | None => false end
  | Stmt_While _ body _ => block_has_discarded_shortcircuit body
  | _ => false
  end
with block_has_discarded_shortcircuit (b : CoreBlock) : bool :=
  match b with Block l _ => existsb stmt_has_discarded_shortcircuit l end.

(** ** What is tried *)

(** [LowerError::Fallback] with its reason or the error that is its reason; [LowerPanics] is an index out of bounds. *)
Inductive LowerError :=
  | LowerFallback (reason : string)
  | BuildFallback (e : SsaBuildError)
  | PlanFallback (e : PlanError)
  | LowerPanics.

Definition fallback {A} (reason : string) : result LowerError A := Err (LowerFallback reason).

Definition is_empty {A} (l : list A) : bool := match l with [] => true | _ => false end.

Definition tail_mode (f : CoreFunction) : result LowerError TailMode :=
  match last_stmt (func_body f) with
  | Some (Stmt_Return _ _) => Ok Explicit
  | Some (Stmt_Expr _ _) => Ok ImplicitExpr
  | Some stmt =>
      if stmt_always_returns stmt then Ok Explicit
      else fallback "unsupported tail statement (implicit default return)"
  | None => fallback "empty body"
  end.

Definition eligibility_precheck (facts : CompilerFacts) (f : CoreFunction) : result LowerError TailMode :=
  if has_captured_vars facts then fallback "closure with captured variables"
  else if negb (is_empty (func_kwparams f)) then fallback "keyword parameters"
  else if block_has_discarded_shortcircuit (func_body f) then
    fallback "&&/|| in statement position (short-circuit semantics lost in SSA)"
  else
    let? mode := tail_mode f in
    match mode with
    | ImplicitExpr =>
        if returns_number facts && block_contains_return (func_body f) then
          fallback "mixed implicit tail and explicit returns with convertible return type"
        else Ok mode
    | Explicit => Ok mode
    end.

(** The names that the body binds, without those declared [global]. *)
Definition locally_bound (f : CoreFunction) : gset string :=
  block_write_names (func_body f) ∖ collect_global_decls (func_body f).

Definition func_type_params (f : CoreFunction) : list TypeParam :=
  match f with Function_ _ _ _ type_params _ _ _ _ _ _ => type_params end.

Definition numeric_convert_gate (facts : CompilerFacts) (f : CoreFunction) : NumericConvertGate :=
  let resolves_to_builtin name :=
    negb (existsb (fun p => String.eqb (typed_name p) name) (func_params f)) &&
    negb (existsb (fun tp => String.eqb (type_param_name facts tp) name) (func_type_params f)) &&
    negb (has_function_table facts name) in
  {| gate_int64 := resolves_to_builtin "Int64"; gate_float64 := resolves_to_builtin "Float64" |}.

(** [try_lower] up to the emission: the optimized function, the plan and how its
    tail returns. *)
Definition try_lower (facts : CompilerFacts) (f : CoreFunction)
    : result LowerError (TailMode * SsaFunction * SharedFunctionPlan) :=
  let? mode := eligibility_precheck facts f in
  let bound := locally_bound f in
  if runtime_specialized facts && negb (bool_decide (bound = ∅)) then
    fallback "runtime-specialized function stores locals (specializer slot-name table)"
  else
    match build_function f with
    | Err BuildPanics => Err LowerPanics
    | Err e => Err (BuildFallback e)
    | Ok ssa =>
        match optimize_scoped_resolved ssa (facts_effects facts) (facts_resolver facts) bound with
        | None => Err LowerPanics
        | Some (_, ssa) =>
            match scan_lowerable (is_module facts) bound ssa with
            | Err reason => fallback reason
            | Ok _ =>
                match plan_function ssa (func_span f) (numeric_convert_gate facts f) with
                | Ok plan => Ok (mode, ssa, plan)
                | Err Panics => Err LowerPanics
                | Err e => Err (PlanFallback e)
                end
            end
        end
    end.

(** ** Facts of branches *)

(** One more edge to a block; an index out of bounds panics. *)
Definition count_edge (counts : list nat) (target : BlockId) : option (list nat) :=
  match counts !! target with
  | Some n => Some (<[target := S n]> counts)
  | None => None
  end.

(** [pred_count] and [entry]. *)
Definition Narrowing : Type := list nat * list (option (nat * bool)).

Definition narrow_block (st : Narrowing) (indexed : nat * SharedBlockPlan) : option Narrowing :=
  match plan_terminator indexed.2 with
  | JumpPlan target _ =>
      match count_edge st.1 target with
      | Some counts => Some (counts, st.2)
      | None => None
      end
  | BranchPlan _ then_target else_target _ _ =>
      match count_edge st.1 then_target with
      | None => None
      | Some counts =>
          match count_edge counts else_target with
          | None => None
          | Some counts =>
              Some (counts, <[else_target := Some (indexed.1, false)]>
                (<[then_target := Some (indexed.1, true)]> st.2))
          end
      end
  | ReturnPlan _ => Some st
  end.

Fixpoint narrow_blocks (st : Narrowing) (l : list (nat * SharedBlockPlan)) : option Narrowing :=
  match l with
  | [] => Some st
  | b :: l => match narrow_block st b with Some st => narrow_blocks st l | None => None end
  end.

Definition compute_block_narrowing_info (plan : SharedFunctionPlan)
    : option (list (option (nat * bool))) :=
  let n := length (plan_blocks plan) in
  match narrow_blocks (replicate n 0, replicate n None) (enumerate (plan_blocks plan)) with
  | None => None
  | Some (counts, entry) =>
      Some (zip_with (fun count e => if Nat.eqb count 1 then e else None) counts entry)
  end.
End Eligible.

(** ** What the facts of branches mean *)

Section NarrowingSpec.
Context {C : CoreTypes}.

(** The edges of a block, with the side of the branch. *)
Definition block_edges (indexed : nat * SharedBlockPlan) : list (BlockId * (nat * option bool)) :=
  match plan_terminator indexed.2 with
  | JumpPlan target _ => [(target, (indexed.1, None))]
  | BranchPlan _ t e _ _ => [(t, (indexed.1, Some true)); (e, (indexed.1, Some false))]
  | ReturnPlan _ => []
  end.

Definition edges_to (l : list (nat * SharedBlockPlan)) (b : BlockId) : list (nat * option bool) :=
  map snd (filter (fun e => e.1 = b) (l ≫= block_edges)).

(** The side of a branch that is the only way in. *)
Definition only_side (l : list (nat * option bool)) : option (nat * bool) :=
  match l with
  | [(p, Some side)] => Some (p, side)
  | _ => None
  end.

(** The last edge decides what is recorded; jumps record nothing. *)
Definition last_side (l : list (nat * option bool)) : option (nat * bool) :=
  foldl (fun acc e => match e.2 with Some side => Some (e.1, side) | None => acc end) None l.

Record narrowed (n : nat) (done : list (nat * SharedBlockPlan)) (st : Narrowing) : Prop := {
  nw_counts : length st.1 = n;
  nw_entries : length st.2 = n;
  nw_count b : b < n -> st.1 !! b = Some (length (edges_to done b));
  nw_entry b : b < n -> st.2 !! b = Some (last_side (edges_to done b))
}.

Lemma edges_to_snoc l x b :
  edges_to (l ++ [x]) b = edges_to l b ++ map snd (filter (fun e => e.1 = b) (block_edges x)).
Proof. unfold edges_to. by rewrite bind_app, bind_singleton, filter_app, map_app. Qed.

Lemma count_edge_run counts n t :
  length counts = n -> t < n -> exists counts', count_edge counts t = Some counts' /\ length counts' = n /\
    forall b, counts' !! b = if decide (b = t) then S <$> counts !! b else counts !! b.
Proof.
  intros Hl Ht. unfold count_edge. destruct (lookup_lt_is_Some_2 counts t) as [k Hk]; [lia|]. rewrite Hk.
  exists (<[t := S k]> counts). split_and!; [done|by rewrite length_insert|]. intros b. case_decide as Hb.
  - subst b. rewrite list_lookup_insert_eq by lia. by rewrite Hk.
  - by rewrite list_lookup_insert_ne.
Qed.
Lemma narrow_block_ok n l st x :
  narrowed n l st -> (forall e, e ∈ block_edges x -> e.1 < n) ->
  exists st', narrow_block st x = Some st' /\ narrowed n (l ++ [x]) st'.
Proof.
  intros [H1 H2 H3 H4] Hx. unfold narrow_block, block_edges in *.
  destruct (plan_terminator x.2) as [v|t copies|c t e ct ce] eqn:Hterm.
  - exists st. split; [done|]. constructor; [done|done| |]; intros b Hb; rewrite edges_to_snoc;
      unfold block_edges; rewrite Hterm, filter_nil, app_nil_r; auto.
  - destruct (count_edge_run st.1 n t H1) as (c1 & -> & L1 & C1); [apply (Hx (t, (x.1, None))); left|].
    eexists. split; [done|]. constructor; [done|done| |]; intros b Hb; rewrite edges_to_snoc;
      unfold block_edges; rewrite Hterm; simpl; rewrite filter_cons, filter_nil; simpl.
    + rewrite C1, H3 by done. case_decide as H5; case_decide as H6; simpl in *; try congruence;
        rewrite length_app; simpl; f_equal; lia.
    + rewrite H4 by done. unfold last_side. case_decide; by rewrite foldl_app.
  - destruct (count_edge_run st.1 n t H1) as (c1 & -> & L1 & C1); [apply (Hx (t, (x.1, Some true))); left|].
    destruct (count_edge_run c1 n e L1) as (c2 & -> & L2 & C2); [apply (Hx (e, (x.1, Some false))); right; left|].
    eexists. split; [done|]. constructor; simpl; [done|by rewrite !length_insert| |]; intros b Hb; rewrite edges_to_snoc;
      unfold block_edges; rewrite Hterm; simpl; rewrite !filter_cons, filter_nil; simpl.
    + rewrite C2, C1, H3 by done. repeat case_decide; simpl in *; subst; try congruence;
        rewrite length_app; simpl; f_equal; lia.
    + unfold last_side. rewrite foldl_app.
      assert (t < n) by (apply (Hx (t, (x.1, Some true))); left).
      destruct (decide (e = b)) as [->|Hne].
      * rewrite list_lookup_insert_eq by (rewrite length_insert; lia).
        repeat case_decide; simpl in *; congruence.
      * rewrite list_lookup_insert_ne by done. destruct (decide (t = b)) as [->|Hne'].
        -- rewrite list_lookup_insert_eq by lia. repeat case_decide; simpl in *; congruence.
        -- rewrite list_lookup_insert_ne, H4 by done. repeat case_decide; simpl in *; congruence || done.
Qed.

Lemma narrow_blocks_ok n l k st :
  narrowed n l st -> (forall x e, x ∈ k -> e ∈ block_edges x -> e.1 < n) ->
  exists st', narrow_blocks st k = Some st' /\ narrowed n (l ++ k) st'.
Proof.
  revert l st. induction k as [|x k IH]; intros l st Hn Hk; simpl.
  - exists st. by rewrite app_nil_r.
  - destruct (narrow_block_ok n l st x Hn) as (st1 & -> & Hn1); [intros e; apply Hk; left|].
    destruct (IH (l ++ [x]) st1 Hn1) as (st' & -> & Hn').
    + intros y e Hy. apply Hk. by right.
    + exists st'. by rewrite <- app_assoc in Hn'.
Qed.

(** A block inherits the facts of a branch exactly when one side of the branch is
    its only way in. *)
Theorem narrowing_spec plan :
  let l := enumerate (plan_blocks plan) in
  (forall x e, x ∈ l -> e ∈ block_edges x -> e.1 < length (plan_blocks plan)) ->
  exists info, compute_block_narrowing_info plan = Some info /\
    length info = length (plan_blocks plan) /\
    forall b, b < length (plan_blocks plan) -> info !! b = Some (only_side (edges_to l b)).
Proof.
  intros l Hl. set (n := length (plan_blocks plan)) in *. unfold compute_block_narrowing_info.
  fold n l. destruct (narrow_blocks_ok n [] l (replicate n 0, replicate n None)) as ([counts entry] & -> & [H1 H2 H3 H4]).
  - constructor; simpl; [apply length_replicate|apply length_replicate| |]; intros b Hb;
      by rewrite lookup_replicate_2.
  - done.
  - simpl in *. eexists. split; [done|]. split; [rewrite length_zip_with; lia|]. intros b Hb.
    apply lookup_zip_with_Some. do 2 eexists. split; [|split; [by apply H3|by apply H4]].
    destruct (edges_to l b) as [|[p [side|]] [|e k]]; done.
Qed.
End NarrowingSpec.
