(* ===== verification/PlanSem.v ===== *)
(** * What a plan computes

    A plan is run over named locals: the parameters, the slots and the temporaries
    of the planner; every other name is a global, which only [perform] knows.
    An expression is evaluated like the SSA operations that it stands for, except
    that the right operand of [&&] and [||] waits for the left one. *)

From S2P Require Export SsaEligible SsaPreserve.

(** [name] is a synthetic local of the planner. *)
Definition is_synthetic (name : string) : bool :=
  match str_strip_prefix "#ssa" name with Some _ => true | None => false end.

Definition is_local (params : list string) (name : string) : bool :=
  is_synthetic name || bool_decide (name ∈ params).

Section PlanSem.
Context {C : CoreTypes} {SM : Semantics}.

Abbreviation outcome := (Outcome Val World Exn).
Abbreviation Locals := (gmap string Val).
Abbreviation evaluated A := (result outcome (A * World)).

Definition performed (op : SsaOp) (vs : list Val) (w : World) : evaluated Val :=
  match perform op vs w with
  | Gave v w => Ok (v, w)
  | Threw e w => Err (Thrown e w)
  | Hangs => Err NeverReturns
  end.

(** Whether the left operand decides. *)
Definition decides_alone (op : BinaryOp) (v : Val) : bool :=
  match op, truth v with
  | And, Some false | Or, Some true => true
  | _, _ => false
  end.

(** [a && b] is [a] for [false], [a || b] is [a] for [true]. *)
Definition short_circuits : Prop := forall op a b w,
  decides_alone op a = true -> perform (Binary op (Argument 0) (Argument 0)) [a; b] w = Gave a w.

(** Left to right. *)
Definition eval_list {A} (eval : A -> World -> evaluated Val)
    : list A -> World -> evaluated (list Val) :=
  fix go es w :=
    match es with
    | [] => Ok ([], w)
    | e :: es => let? (v, w) := eval e w in let? (vs, w) := go es w in Ok (v :: vs, w)
    end.

(** The call that an explicit conversion is. *)
Definition convert_function (t : NumericConvertTarget) : string :=
  match t with ConvertInt64 => "Int64" | ConvertFloat64 => "Float64" end.

Section Params.
Variable params : list string.
(** The forms that the planner does not build may do anything. *)
Variable other : Locals -> CoreExpr -> World -> evaluated Val.

Definition call_op (module : option string) (function : string) (args : list CoreExpr)
    (kwargs : list (string * CoreExpr)) (sm km : list bool) : SsaOp :=
  Call module function (map (fun _ => Argument 0) args)
    (map (prod_map id (fun _ => Argument 0)) kwargs) (mask_shape sm) (mask_shape km).

Fixpoint eval_expr (locals : Locals) (e : CoreExpr) (w : World) {struct e} : evaluated Val :=
  match e with
  | Expr_Literal lit _ => Ok (lit_val lit, w)
  | Expr_Var name _ =>
      if is_local params name then
        match locals !! name with Some v => Ok (v, w) | None => Err (UndefinedRead w) end
      else performed (LoadGlobal name) [] w
  | Expr_UnaryOp op operand _ =>
      let? (v, w) := eval_expr locals operand w in performed (Unary op (Argument 0)) [v] w
  | Expr_BinaryOp op lhs rhs _ =>
      let? (a, w) := eval_expr locals lhs w in
      if decides_alone op a then Ok (a, w)
      else
        let? (b, w) := eval_expr locals rhs w in
        performed (Binary op (Argument 0) (Argument 0)) [a; b] w
  | Expr_Call function args kwargs sm km _ =>
      let? (vs, w) := eval_list (eval_expr locals) args w in
      let? (us, w) := eval_list (fun kw : string * CoreExpr => eval_expr locals kw.2) kwargs w in
      performed (call_op None function args kwargs sm km) (vs ++ us) w
  | Expr_ModuleCall module function args kwargs sm km _ =>
      let? (vs, w) := eval_list (eval_expr locals) args w in
      let? (us, w) := eval_list (fun kw : string * CoreExpr => eval_expr locals kw.2) kwargs w in
      performed (call_op (Some module) function args kwargs sm km) (vs ++ us) w
  | Expr_Builtin name args _ =>
      let? (vs, w) := eval_list (eval_expr locals) args w in
      performed (Builtin name (map (fun _ => Argument 0) args)) vs w
  | Expr_Convert target operand _ =>
      let? (v, w) := eval_expr locals operand w in
      performed (Call None (convert_function target) [Argument 0] [] [] []) [v] w
  | e => other locals e w
  end.

Definition assign (locals : Locals) (name : string) (v : Val) (w : World) : evaluated Locals :=
  if is_local params name then Ok (<[name := v]> locals, w)
  else let? (_, w) := performed (StoreGlobal name (Argument 0)) [v] w in Ok (locals, w).

Definition exec_root (locals : Locals) (r : SharedRootPlan) (w : World) : evaluated Locals :=
  match r with
  | Assign name e _ => let? (v, w) := eval_expr locals e w in assign locals name v w
  | Discard e _ => let? (_, w) := eval_expr locals e w in Ok (locals, w)
  end.

Fixpoint exec_roots (locals : Locals) (l : list SharedRootPlan) (w : World) : evaluated Locals :=
  match l with
  | [] => Ok (locals, w)
  | r :: l => let? (locals, w) := exec_root locals r w in exec_roots locals l w
  end.

Fixpoint exec_copies (locals : Locals) (l : list SharedCopyPlan) (w : World) : evaluated Locals :=
  match l with
  | [] => Ok (locals, w)
  | c :: l =>
      let? (v, w) := eval_expr locals (copy_expr c) w in
      let? (locals, w) := assign locals (copy_name c) v w in
      exec_copies locals l w
  end.

(** The next block, with the copies of the edge done. *)
Definition exec_term (locals : Locals) (t : SharedTermPlan) (w : World)
    : result outcome (BlockId * Locals * World) :=
  match t with
  | ReturnPlan None => Err (Returned None w)
  | ReturnPlan (Some e) => let? (v, w) := eval_expr locals e w in Err (Returned (Some v) w)
  | JumpPlan target copies =>
      let? (locals, w) := exec_copies locals copies w in Ok (target, locals, w)
  | BranchPlan cond then_target else_target then_copies else_copies =>
      let? (v, w) := eval_expr locals cond w in
      match truth v with
      | None => Err (NotBool v w)
      | Some true => let? (locals, w) := exec_copies locals then_copies w in Ok (then_target, locals, w)
      | Some false => let? (locals, w) := exec_copies locals else_copies w in Ok (else_target, locals, w)
      end
  end.

Fixpoint run_plan (fuel : nat) (plan : SharedFunctionPlan) (id : BlockId) (locals : Locals)
    (w : World) : outcome :=
  match fuel with
  | 0 => OutOfFuel
  | S fuel =>
      match plan_blocks plan !! id with
      | None => NoBlock
      | Some b =>
          match (let? (locals, w) := exec_roots locals (roots b) w in
                 exec_term locals (plan_terminator b) w) with
          | Err o => o
          | Ok (target, locals, w) => run_plan fuel plan target locals w
          end
      end
  end.
End Params.

(** The arguments are bound to the parameters; the first block is the entry. *)
Definition param_names (func : SsaFunction) : list string := map param_name (fn_params func).

Definition evaluate_plan (fuel : nat) (func : SsaFunction) (plan : SharedFunctionPlan)
    (other : Locals -> CoreExpr -> World -> evaluated Val) (args : list Val) (w : World) : outcome :=
  run_plan (param_names func) other fuel plan 0 (list_to_map (zip (param_names func) args)) w.
End PlanSem.
