(* ===== verification/PlanUses.v ===== *)
(** * What the planner knows of a function

    The maps that the planner fills before it plans a block: where a definition
    is, how often it is used, the copies on each edge and the definitions that
    write the slot of their phi.  [analysed] is what planning relies on. *)

From S2P Require Export SsaEligible SsaFoldSem.

(** ** Counting *)

Abbreviation count l x := (count_occ Nat.eq_dec l x).

Definition def_ids (vs : list SsaValue) : list SsaValueId :=
  omap (fun v => match v with Def id => Some id | _ => None end) vs.

Lemma def_ids_app vs ws : def_ids (vs ++ ws) = def_ids vs ++ def_ids ws.
Proof. apply omap_app. Qed.

Lemma def_ids_elem x vs : x ∈ def_ids vs <-> Def x ∈ vs.
Proof.
  unfold def_ids. rewrite list_elem_of_omap. split.
  - intros ([y| |] & Hin & [=]). by subst.
  - intros Hin. by exists (Def x).
Qed.

Lemma count_elem l x : x ∈ l <-> 0 < count l x.
Proof. rewrite list_elem_of_In. apply count_occ_In. Qed.

Lemma count_bind {A} (f : A -> list nat) l y k :
  l !! k = Some y -> forall x, count (f y) x <= count (l ≫= f) x.
Proof.
  intros (l1 & l2 & -> & _)%list_elem_of_split_length x.
  rewrite bind_app. csimpl. rewrite !count_occ_app. lia.
Qed.

Lemma count_bind2 {A} (f : A -> list nat) l y k z j :
  l !! k = Some y -> l !! j = Some z -> k <> j ->
  forall x, count (f y) x + count (f z) x <= count (l ≫= f) x.
Proof.
  revert k j. induction l as [|a l IH]; intros k j Hk Hj Hne x; [done|].
  csimpl. rewrite count_occ_app. destruct k as [|k], j as [|j]; simpl in *; simplify_eq.
  - pose proof (count_bind f l z j Hj x). lia.
  - pose proof (count_bind f l y k Hk x). lia.
  - pose proof (IH k j Hk Hj ltac:(lia) x). lia.
Qed.

(** ** Maps filled in a loop *)

Lemma foldl_insert_lookup `{Countable K} {V} (m : gmap K V) (l : list (K * V)) k v :
  NoDup l.*1 ->
  foldl (fun m e => <[e.1 := e.2]> m) m l !! k = Some v <->
  (k, v) ∈ l \/ k ∉ l.*1 /\ m !! k = Some v.
Proof.
  revert m. induction l as [|[x w] l IH]; intros m; simpl.
  { intros _. rewrite elem_of_nil. set_solver. }
  intros [Hx Hnd]%NoDup_cons. rewrite IH by done. rewrite !elem_of_cons.
  destruct (decide (k = x)) as [->|Hne].
  - rewrite lookup_insert_eq. split.
    + intros [Hin|[_ [= ->]]]; [|by left; left]. left. by right.
    + intros [[[= ->]|Hin]|[[] ?]]; [by right|by left|]. by left.
  - rewrite lookup_insert_ne by done. split; [|set_solver].
    intros [?|[? ?]]; [by left; right|]. right. set_solver.
Qed.

Section Uses.
Context {C : CoreTypes}.
Implicit Types func : SsaFunction.
Implicit Types p : Planner.

(** ** Uses *)

Definition block_values (b : SsaBlock) : list SsaValue :=
  (stmts b ≫= fun s => noted_values (stmt_op s)) ++ term_operands (terminator b).

Definition all_values func : list SsaValue := fn_blocks func ≫= block_values.

Lemma note_use_count m vs x :
  default 0 (foldl note_use m vs !! x) = default 0 (m !! x) + count (def_ids vs) x.
Proof.
  revert m. induction vs as [|v vs IH]; intros m; simpl; [lia|]. rewrite IH.
  destruct v as [y|k|lit]; simpl; [|done|done].
  destruct (Nat.eq_dec y x) as [->|Hne].
  - rewrite lookup_insert_eq. simpl. lia.
  - by rewrite lookup_insert_ne by done.
Qed.

Lemma collect_stmts_uses i p l :
  uses (foldl (collect_stmt i) p l) = foldl note_use (uses p) (l.*2 ≫= fun s => noted_values (stmt_op s)).
Proof.
  revert p. induction l as [|[k s] l IH]; intros p; [done|]. simpl. by rewrite IH, foldl_app.
Qed.

Lemma collect_uses p :
  uses (collect_sites_and_uses p) = foldl note_use (uses p) (all_values (ssa p)).
Proof.
  unfold collect_sites_and_uses, all_values. rewrite <- (enumerate_snd (fn_blocks (ssa p))) at 2.
  generalize (enumerate (fn_blocks (ssa p))). intros l. revert p.
  induction l as [|[i b] l IH]; intros p; [done|]. csimpl. rewrite IH, foldl_app. f_equal.
  simpl. rewrite collect_stmts_uses, enumerate_snd. unfold block_values. by rewrite foldl_app.
Qed.

(** ** Sites *)

Definition site_entry (i : nat) (e : nat * SsaStatement) : SsaValueId * DefSite :=
  (stmt_id e.2, {| site_block := i; site_index := e.1 |}).

Definition site_entries (bs : list SsaBlock) : list (SsaValueId * DefSite) :=
  enumerate bs ≫= fun e => site_entry e.1 <$> enumerate (stmts e.2).

Lemma collect_stmts_sites i p l :
  sites (foldl (collect_stmt i) p l) =
    foldl (fun m e => <[e.1 := e.2]> m) (sites p) (site_entry i <$> l).
Proof. revert p. induction l as [|[k s] l IH]; intros p; [done|]. csimpl. by rewrite IH. Qed.

Lemma collect_sites p :
  sites (collect_sites_and_uses p) =
    foldl (fun m e => <[e.1 := e.2]> m) (sites p) (site_entries (fn_blocks (ssa p))).
Proof.
  unfold collect_sites_and_uses, site_entries. generalize (enumerate (fn_blocks (ssa p))).
  intros l. revert p.
  induction l as [|[i b] l IH]; intros p; [done|]. csimpl. rewrite IH, foldl_app. f_equal.
  simpl. by rewrite collect_stmts_sites.
Qed.

Lemma site_entries_ids bs : (site_entries bs).*1 = map stmt_id (bs ≫= stmts).
Proof.
  unfold site_entries. rewrite <- (enumerate_snd bs) at 2. generalize (enumerate bs).
  induction l as [|[i b] l IH]; [done|]. csimpl. rewrite fmap_app, IH, map_app. f_equal.
  rewrite <- list_fmap_compose. rewrite <- (enumerate_snd (stmts b)) at 2.
  by rewrite <- list_fmap_compose.
Qed.

Lemma site_entries_elem bs id d k :
  (id, {| site_block := d; site_index := k |}) ∈ site_entries bs <->
  exists b s, bs !! d = Some b /\ stmts b !! k = Some s /\ stmt_id s = id.
Proof.
  unfold site_entries. rewrite list_elem_of_bind. split.
  - intros ([i b] & Hin & Hb%enumerate_elem).
    apply list_elem_of_fmap in Hin as ([j s] & [= -> -> ->] & Hs%enumerate_elem). by exists b, s.
  - intros (b & s & Hb & Hs & <-). exists (d, b). rewrite enumerate_elem. split; [|done].
    apply list_elem_of_fmap. exists (k, s). by rewrite enumerate_elem.
Qed.

Lemma collect_ssa p : ssa (collect_sites_and_uses p) = ssa p /\
  coalesced (collect_sites_and_uses p) = coalesced p /\
  edge_copies (collect_sites_and_uses p) = edge_copies p /\
  convert_gate (collect_sites_and_uses p) = convert_gate p.
Proof.
  unfold collect_sites_and_uses. generalize (enumerate (fn_blocks (ssa p))). intros l. revert p.
  assert (forall i l p, ssa (foldl (collect_stmt i) p l) = ssa p /\
    coalesced (foldl (collect_stmt i) p l) = coalesced p /\
    edge_copies (foldl (collect_stmt i) p l) = edge_copies p /\
    convert_gate (foldl (collect_stmt i) p l) = convert_gate p) as Hs.
  { intros i k. induction k as [|[j s] k IH]; intros p; [done|].
    cbn [foldl]. by destruct (IH (collect_stmt i p (j, s))) as (-> & -> & -> & ->). }
  induction l as [|[i b] l IH]; intros p; [done|].
  cbn [foldl]. destruct (IH (collect_block p (i, b))) as (-> & -> & -> & ->). simpl.
  by destruct (Hs i (enumerate (stmts b)) p) as (-> & -> & -> & ->).
Qed.

Lemma collected func span gate :
  well_formed func ->
  let p := collect_sites_and_uses (new_planner func span gate) in
  (forall id d k, sites p !! id = Some {| site_block := d; site_index := k |} <->
    exists b s, block func d = Some b /\ stmts b !! k = Some s /\ stmt_id s = id) /\
  (forall id, use_count p id = count (def_ids (all_values func)) id).
Proof.
  intros Hwf p. split.
  - intros id d k. unfold p. rewrite collect_sites. simpl.
    rewrite foldl_insert_lookup by (rewrite site_entries_ids; apply (wf_unique _ Hwf)).
    rewrite site_entries_elem, lookup_empty. naive_solver.
  - intros id. unfold use_count, p. rewrite collect_uses. by rewrite note_use_count.
Qed.

(** ** Who uses a definition

    The operands of a block belong to the block; the value that a phi takes on an
    edge belongs to the block that the edge leaves, where it is copied. *)

Definition block_ids (b : SsaBlock) : list SsaValueId :=
  def_ids ((stmts b ≫= fun s => operands (stmt_op s)) ++ term_operands (terminator b)).

Definition phi_owned (s : SsaStatement) : list (BlockId * SsaValueId) :=
  match stmt_op s with
  | Phi phi =>
      omap (fun e : BlockId * option SsaValue =>
        match e.2 with Some (Def x) => Some (e.1, x) | _ => None end) (zip (edges phi) (values phi))
  | _ => []
  end.

Definition owned func : list (BlockId * SsaValueId) :=
  (enumerate (fn_blocks func) ≫= fun e => (pair e.1) <$> block_ids e.2) ++
  (fn_blocks func ≫= fun b => stmts b ≫= phi_owned).

Definition owner_ids (i : BlockId) (l : list (BlockId * SsaValueId)) : list SsaValueId :=
  omap (fun e => if Nat.eqb e.1 i then Some e.2 else None) l.

Definition out_ids func (i : BlockId) : list SsaValueId := owner_ids i (owned func).

Lemma owner_ids_app i l k : owner_ids i (l ++ k) = owner_ids i l ++ owner_ids i k.
Proof. apply omap_app. Qed.

Lemma owner_ids_le i l x : count (owner_ids i l) x <= count l.*2 x.
Proof.
  induction l as [|[j y] l IH]; [done|]. csimpl.
  destruct (j =? i); csimpl; destruct (Nat.eq_dec y x); lia.
Qed.

Lemma owner_ids_le2 i j l x :
  i <> j -> count (owner_ids i l) x + count (owner_ids j l) x <= count l.*2 x.
Proof.
  intros Hne. induction l as [|[k y] l IH]; [done|]. csimpl.
  destruct (Nat.eqb_spec k i), (Nat.eqb_spec k j); csimpl; destruct (Nat.eq_dec y x); lia.
Qed.

Lemma phi_owned_ids (phi : PhiNode) :
  length (values phi) = length (edges phi) ->
  (omap (fun e : BlockId * option SsaValue =>
     match e.2 with Some (Def x) => Some (e.1, x) | _ => None end) (zip (edges phi) (values phi))).*2 =
  def_ids (omap id (values phi)).
Proof.
  destruct phi as [es vs]. simpl. revert es. induction vs as [|v vs IH]; intros [|e es]; simpl; try done.
  intros [= Hl]. specialize (IH es Hl). destruct v as [[x|k|lit]|]; csimpl; [by f_equal|done..].
Qed.

Lemma stmt_owned_count func i b s x :
  well_formed func -> block func i = Some b -> s ∈ stmts b ->
  count (def_ids (noted_values (stmt_op s))) x =
    count (def_ids (operands (stmt_op s))) x + count (phi_owned s).*2 x.
Proof.
  intros Hwf Hb Hs. unfold phi_owned.
  destruct (stmt_op s) as [phi| | | | | | | | |] eqn:Hop; simpl noted_values; try (simpl; lia).
  destruct (wf_phi _ Hwf i b s phi Hb Hs Hop) as [He Hl].
  rewrite phi_owned_ids by (rewrite He; exact Hl). done.
Qed.

Lemma owned_count func x :
  well_formed func -> count (def_ids (all_values func)) x = count (owned func).*2 x.
Proof.
  intros Hwf. unfold owned, all_values. rewrite fmap_app, count_occ_app.
  assert (forall e, e ∈ enumerate (fn_blocks func) -> block func e.1 = Some e.2) as Hin
    by (intros [i b]; apply enumerate_elem).
  rewrite <- (enumerate_snd (fn_blocks func)) at 1 3. revert Hin.
  induction (enumerate (fn_blocks func)) as [|[i b] l IH]; intros Hin; [done|].
  csimpl. rewrite !fmap_app, def_ids_app, !count_occ_app, IH by set_solver.
  enough (count (def_ids (block_values b)) x =
    count (snd <$> (pair i <$> block_ids b)) x + count (stmts b ≫= phi_owned).*2 x) by lia.
  assert (snd <$> (pair i <$> block_ids b) = block_ids b) as ->
    by (rewrite <- list_fmap_compose; apply list_fmap_id).
  unfold block_values, block_ids. rewrite !def_ids_app, !count_occ_app.
  assert (forall s, s ∈ stmts b -> count (def_ids (noted_values (stmt_op s))) x =
    count (def_ids (operands (stmt_op s))) x + count (phi_owned s).*2 x) as Hs.
  { intros s Hs. eapply stmt_owned_count; [done| |done]. apply (Hin (i, b)). left. }
  revert Hs. induction (stmts b) as [|s k IHk]; intros Hs; [simpl; lia|]. csimpl.
  rewrite fmap_app, !def_ids_app, !count_occ_app, (Hs s) by left.
  specialize (IHk ltac:(set_solver)). lia.
Qed.

(** The copies that an edge needs. *)
Definition copy_of (pred : BlockId) (s : SsaStatement) : option (SsaValueId * SsaValue) :=
  match stmt_op s with
  | Phi phi =>
      v ← phi_entry pred phi;
      if value_eqb v (Def (stmt_id s)) then None else Some (stmt_id s, v)
  | _ => None
  end.

Definition copies_of (b : SsaBlock) (pred : BlockId) : list (SsaValueId * SsaValue) :=
  omap (copy_of pred) (phis (stmts b)).

Definition pair_copies func (i t : BlockId) : list (SsaValueId * SsaValue) :=
  match block func t with Some b => copies_of b i | None => [] end.

Lemma copies_owned i l x :
  count (def_ids (omap (copy_of i) (phis l)).*2) x <= count (owner_ids i (l ≫= phi_owned)) x.
Proof.
  induction l as [|s l IH]; [done|]. csimpl. rewrite owner_ids_app, count_occ_app.
  destruct (is_phi (stmt_op s)) eqn:Hp; [|simpl; lia]. csimpl.
  destruct (stmt_op s) as [phi| | | | | | | | |] eqn:Hop; try done.
  assert (count (def_ids (match copy_of i s with Some c => [c.2] | None => [] end)) x <=
    count (owner_ids i (phi_owned s)) x) as H1.
  { unfold copy_of. rewrite Hop. destruct (phi_entry i phi) as [v|] eqn:He; simpl; [|lia].
    destruct (value_eqb _ _); simpl; [lia|]. destruct v as [y|k|lit]; csimpl; [|lia|lia].
    destruct (Nat.eq_dec y x) as [->|]; [|lia]. apply count_elem. unfold owner_ids, phi_owned.
    rewrite Hop. apply list_elem_of_omap. exists (i, x). rewrite Nat.eqb_refl. split; [|done].
    apply list_elem_of_omap. exists (i, Some (Def x)). split; [|done]. by apply phi_entry_elem. }
  destruct (copy_of i s) as [[q [y|k|lit]]|]; csimpl; simpl in H1; try destruct (Nat.eq_dec y x); lia.
Qed.

Lemma owner_ids_bind {A} (f : A -> list (BlockId * SsaValueId)) i l :
  owner_ids i (l ≫= f) = l ≫= fun x => owner_ids i (f x).
Proof. induction l as [|x l IH]; [done|]. csimpl. by rewrite owner_ids_app, IH. Qed.

Lemma owner_ids_same i l : owner_ids i (pair i <$> l) = l.
Proof. induction l as [|x l IH]; [done|]. csimpl. rewrite Nat.eqb_refl. csimpl. by f_equal. Qed.

(** What leaves the edges of a block and what its operands read are different uses. *)
Lemma out_ids_split func i b x :
  block func i = Some b ->
  count (block_ids b) x +
    count (targets (terminator b) ≫= fun t => def_ids (pair_copies func i t).*2) x <=
  count (out_ids func i) x.
Proof.
  intros Hb. unfold out_ids, owned. rewrite owner_ids_app, count_occ_app, !owner_ids_bind.
  assert (count (block_ids b) x <= count (enumerate (fn_blocks func) ≫=
    fun e => owner_ids i (pair e.1 <$> block_ids e.2)) x) as H1.
  { apply enumerate_elem in Hb as [k Hk]%list_elem_of_lookup.
    pose proof (count_bind (fun e : nat * SsaBlock => owner_ids i (pair e.1 <$> block_ids e.2))
      _ _ _ Hk x) as H. simpl in H. by rewrite owner_ids_same in H. }
  enough (count (targets (terminator b) ≫= fun t => def_ids (pair_copies func i t).*2) x <=
    count (fn_blocks func ≫= fun b => owner_ids i (stmts b ≫= phi_owned)) x) by lia.
  set (f := fun b => owner_ids i (stmts b ≫= phi_owned)).
  assert (forall t bt, block func t = Some bt ->
    count (def_ids (pair_copies func i t).*2) x <= count (f bt) x) as Hf.
  { intros t bt Ht. unfold pair_copies. rewrite Ht. apply copies_owned. }
  assert (forall t, block func t = None -> count (def_ids (pair_copies func i t).*2) x = 0) as Hn.
  { intros t Ht. unfold pair_copies. by rewrite Ht. }
  assert (forall t, count (def_ids (pair_copies func i t).*2) x <= count (fn_blocks func ≫= f) x) as H2.
  { intros t. destruct (block func t) as [bt|] eqn:Ht; [|rewrite Hn by done; lia].
    etrans; [by apply Hf|]. by eapply count_bind. }
  destruct (terminator b) as [t|c t e|v]; csimpl; rewrite ?app_nil_r; [apply H2| |lia].
  destruct (Nat.eqb_spec t e) as [_|Hne]; csimpl; rewrite ?app_nil_r, ?count_occ_app; [apply H2|].
  destruct (block func t) as [bt|] eqn:Ht; [|rewrite (Hn t) by done; apply H2].
  destruct (block func e) as [be|] eqn:He; [|rewrite (Hn e) by done; rewrite Nat.add_0_r; apply H2].
  pose proof (count_bind2 f _ _ _ _ _ Ht He Hne x). pose proof (Hf t bt Ht). pose proof (Hf e be He). lia.
Qed.

(** A definition that is used once is used by one block. *)
Lemma use_once func i j x :
  well_formed func -> count (def_ids (all_values func)) x = 1 ->
  x ∈ out_ids func i -> x ∈ out_ids func j -> i = j.
Proof.
  intros Hwf Hc Hi%count_elem Hj%count_elem. destruct (decide (i = j)) as [|Hne]; [done|].
  rewrite owned_count in Hc by done. pose proof (owner_ids_le2 i j (owned func) x Hne).
  unfold out_ids in *. lia.
Qed.

Lemma use_once_le func i x :
  well_formed func -> count (def_ids (all_values func)) x = 1 -> count (out_ids func i) x <= 1.
Proof.
  intros Hwf Hc. rewrite owned_count in Hc by done. rewrite <- Hc. apply owner_ids_le.
Qed.
End Uses.
