(* ===== verification/PlanCopies.v ===== *)
(** * The copies on the edges

    The planner gives every edge the copies of the phis that do not copy
    themselves, and takes those away whose source can write the slot of the phi. *)

From S2P Require Export PlanUses.

Section Copies.
Context {C : CoreTypes}.
Implicit Types func : SsaFunction.
Implicit Types p : Planner.

Abbreviation Copy := (SsaValueId * SsaValue)%type.
Abbreviation Edge := (BlockId * BlockId)%type.

(** Some copy reads a phi of the block. *)
Definition interferes (b : SsaBlock) (copies : list Copy) : bool :=
  existsb (reads_phi (list_to_set (map stmt_id (phis (stmts b))))) copies.

(** ** Collecting *)

Lemma position_lookup (x : nat) l k : NoDup l -> l !! k = Some x -> position x l = Some k.
Proof.
  intros Hnd Hk. destruct (position_elem x l) as [j Hj]; [by eapply list_elem_of_lookup_2|].
  destruct (position_spec x l j Hnd Hj) as [Hl _]. rewrite Hj. f_equal. by eapply NoDup_lookup.
Qed.

Lemma preds_NoDup func i b : well_formed func -> block func i = Some b -> NoDup (preds b).
Proof. intros Hwf Hb. rewrite (wf_preds _ Hwf i b Hb). apply NoDup_filter, NoDup_seq. Qed.

Lemma phis_elem l s : s ∈ phis l -> s ∈ l /\ is_phi (stmt_op s) = true.
Proof.
  induction l as [|t l IH]; simpl; [by intros ?%elem_of_nil|].
  destruct (is_phi (stmt_op t)) eqn:Hp; [|by intros ?%elem_of_nil].
  intros [->|Hs]%elem_of_cons; [by split; [left|]|]. split; [right|]; by apply IH.
Qed.

Lemma phis_sublist l : phis l `sublist_of` l.
Proof.
  induction l as [|t l IH]; simpl; [done|]. destruct (is_phi _); [by constructor|].
  apply sublist_nil_l.
Qed.

Lemma edge_copy_of func i b k q s :
  well_formed func -> block func i = Some b -> preds b !! k = Some q -> s ∈ phis (stmts b) ->
  edge_copy k s = copy_of q s.
Proof.
  intros Hwf Hb Hk [Hs Hp]%phis_elem. unfold edge_copy, copy_of.
  destruct (stmt_op s) as [phi| | | | | | | | |] eqn:Hop; try done.
  destruct (wf_phi _ Hwf i b s phi Hb Hs Hop) as [He _]. unfold phi_entry. rewrite He.
  rewrite (position_lookup q (preds b) k) by (done || by eapply preds_NoDup). simpl.
  by destruct (values phi !! k) as [[v|]|].
Qed.

Lemma copies_of_elem b q phi v :
  (phi, v) ∈ copies_of b q <-> exists s ph, s ∈ phis (stmts b) /\ stmt_op s = Phi ph /\
    stmt_id s = phi /\ phi_entry q ph = Some v /\ value_eqb v (Def phi) = false.
Proof.
  unfold copies_of, copy_of. rewrite list_elem_of_omap. split.
  - intros (s & Hs & Hc). destruct (stmt_op s) as [ph| | | | | | | | |] eqn:Hop; try done.
    destruct (phi_entry q ph) as [u|] eqn:Hu; [|done]. simpl in Hc.
    destruct (value_eqb u (Def (stmt_id s))) eqn:Hv; [done|]. injection Hc as <- <-. by exists s, ph.
  - intros (s & ph & Hs & Hop & Hid & Hu & Hv). exists s. split; [done|]. subst phi. rewrite Hop, Hu. simpl.
    by rewrite Hv.
Qed.

Lemma copy_in_values func q t bt phi v :
  block func t = Some bt -> (phi, v) ∈ copies_of bt q -> v ∈ all_values func.
Proof.
  intros Hbt (s & ph & [Hs _]%phis_elem & Hop & _ & Hu & _)%copies_of_elem.
  apply list_elem_of_bind. exists bt. split; [|by apply list_elem_of_lookup_2 in Hbt].
  apply elem_of_app. left. apply list_elem_of_bind. exists s. split; [|done]. rewrite Hop. simpl.
  apply phi_entry_elem, elem_of_zip_r in Hu. apply list_elem_of_omap. by exists (Some v).
Qed.

Definition edge_entry (b : SsaBlock) (e : nat * BlockId) : option (Edge * (list Copy * bool)) :=
  match omap (edge_copy e.1) (phis (stmts b)) with
  | [] => None
  | copies => Some ((e.2, blk_id b), (copies, interferes b copies))
  end.

Definition block_entries (b : SsaBlock) : list (Edge * (list Copy * bool)) :=
  match phis (stmts b) with
  | s :: _ =>
      match stmt_op s with
      | Phi phi => omap (edge_entry b) (enumerate (edges phi))
      | _ => []
      end
  | [] => []
  end.

Lemma collect_edges_entries b l m :
  foldl (collect_edge b) m l = foldl (fun m e => <[e.1 := e.2]> m) m (omap (edge_entry b) l).
Proof.
  revert m. induction l as [|[k q] l IH]; intros m; [done|]. csimpl. rewrite IH.
  unfold edge_entry. simpl. by destruct (omap (edge_copy k) (phis (stmts b))).
Qed.

Lemma collect_copies_entries l m :
  foldl collect_block_copies m l = foldl (fun m e => <[e.1 := e.2]> m) m (l ≫= block_entries).
Proof.
  revert m. induction l as [|b l IH]; intros m; [done|]. csimpl. rewrite foldl_app, IH. f_equal.
  unfold collect_block_copies, block_entries. destruct (phis (stmts b)) as [|s k]; [done|].
  destruct (stmt_op s); try done. apply collect_edges_entries.
Qed.

Lemma edge_entry_spec func i b k q e :
  well_formed func -> block func i = Some b -> preds b !! k = Some q ->
  edge_entry b (k, q) = Some e <->
  copies_of b q <> [] /\ e = ((q, i), (copies_of b q, interferes b (copies_of b q))).
Proof.
  intros Hwf Hb Hk. unfold edge_entry. simpl. rewrite (wf_ids _ Hwf i b Hb).
  assert (omap (edge_copy k) (phis (stmts b)) = copies_of b q) as ->.
  { unfold copies_of. assert (forall s, s ∈ phis (stmts b) -> edge_copy k s = copy_of q s) as H
      by (intros s; by eapply edge_copy_of).
    induction (phis (stmts b)) as [|s l IH]; [done|]. csimpl. rewrite H by left.
    rewrite IH; [done|]. intros t Ht. apply H. by right. }
  destruct (copies_of b q) as [|c l]; split; try done; [by intros [? _]|by intros [= <-]|by intros [_ ->]].
Qed.

Lemma block_entries_elem func i b e :
  well_formed func -> block func i = Some b ->
  e ∈ block_entries b <-> exists q, q ∈ preds b /\ copies_of b q <> [] /\
    e = ((q, i), (copies_of b q, interferes b (copies_of b q))).
Proof.
  intros Hwf Hb. unfold block_entries. destruct (phis (stmts b)) as [|s l] eqn:Hph.
  - split; [by intros ?%elem_of_nil|]. intros (q & _ & Hne & _). destruct Hne.
    unfold copies_of. by rewrite Hph.
  - destruct (phis_elem (stmts b) s) as [Hs Hp]; [rewrite Hph; left|].
    destruct (stmt_op s) as [phi| | | | | | | | |] eqn:Hop; try done.
    destruct (wf_phi _ Hwf i b s phi Hb Hs Hop) as [He _]. rewrite list_elem_of_omap, He. split.
    + intros ([k q] & Hin%enumerate_elem & Hen).
      apply (edge_entry_spec func i b k q e Hwf Hb Hin) in Hen. exists q.
      split; [by eapply list_elem_of_lookup_2|done].
    + intros (q & [k Hk]%list_elem_of_lookup & Hen). exists (k, q). rewrite enumerate_elem.
      split; [done|]. by apply (edge_entry_spec func i b k q e Hwf Hb Hk).
Qed.

Lemma block_entries_NoDup func i b :
  well_formed func -> block func i = Some b -> NoDup (block_entries b).*1.
Proof.
  intros Hwf Hb. unfold block_entries. destruct (phis (stmts b)) as [|s l] eqn:Hph; [constructor|].
  destruct (phis_elem (stmts b) s) as [Hs Hp]; [rewrite Hph; left|].
  destruct (stmt_op s) as [phi| | | | | | | | |] eqn:Hop; try constructor.
  destruct (wf_phi _ Hwf i b s phi Hb Hs Hop) as [He _]. rewrite He.
  pose proof (preds_NoDup func i b Hwf Hb) as Hnd. rewrite <- (enumerate_snd (preds b)) in Hnd.
  assert (forall e, (omap (edge_entry b) e).*1 `sublist_of` (fun x : nat * BlockId => (x.2, blk_id b)) <$> e)
    as Hsub.
  { induction e as [|[k q] e IH]; [constructor|]. csimpl. unfold edge_entry at 1. simpl.
    destruct (omap (edge_copy k) (phis (stmts b))); csimpl; by constructor. }
  eapply sublist_NoDup; [|apply Hsub].
  change (fun x : nat * BlockId => (x.2, blk_id b)) with ((fun q => (q, blk_id b)) ∘ @snd nat BlockId).
  rewrite list_fmap_compose. apply NoDup_fmap_2; [|done]. by intros x y [= ->].
Qed.

Lemma fmap_bind {A B K} (g : B -> K) (f : A -> list B) l : g <$> (l ≫= f) = l ≫= fun x => g <$> f x.
Proof. induction l as [|x l IH]; [done|]. csimpl. by rewrite fmap_app, IH. Qed.

Lemma collected_copies func q t cs fl :
  well_formed func ->
  foldl collect_block_copies ∅ (fn_blocks func) !! (q, t) = Some (cs, fl) <->
  exists b, block func t = Some b /\ q ∈ preds b /\ cs = copies_of b q /\ cs <> [] /\
    fl = interferes b cs.
Proof.
  intros Hwf. rewrite collect_copies_entries.
  assert (forall e, e ∈ (fn_blocks func ≫= block_entries) <->
    exists b, block func e.1.2 = Some b /\ e.1.1 ∈ preds b /\ copies_of b e.1.1 <> [] /\
      e.2 = (copies_of b e.1.1, interferes b (copies_of b e.1.1))) as Hel.
  { intros e. rewrite list_elem_of_bind. split.
    - intros (b & Hin & [i Hb]%list_elem_of_lookup).
      destruct (proj1 (block_entries_elem func i b e Hwf Hb) Hin) as (r & Hr & Hne & ->). by exists b.
    - intros (b & Hb & Hq & Hne & He). exists b. split; [|by apply list_elem_of_lookup_2 in Hb].
      apply (block_entries_elem func e.1.2 b e Hwf Hb). exists e.1.1. split_and!; [done|done|].
      destruct e as [[? ?] ?]. simpl in *. by rewrite He. }
  rewrite foldl_insert_lookup.
  - rewrite Hel, lookup_empty. simpl. split.
    + intros [(b & Hb & Hq & Hne & [= -> ->])|[_ [=]]]. by exists b.
    + intros (b & Hb & Hq & -> & Hne & ->). left. by exists b.
  - rewrite fmap_bind. apply NoDup_bind.
    + intros b b' e [k Hb]%list_elem_of_lookup [k' Hb']%list_elem_of_lookup He He'.
      apply list_elem_of_fmap in He as (x & -> & Hx), He' as (y & Hy & Hx').
      destruct (proj1 (block_entries_elem func k b x Hwf Hb) Hx) as (r & _ & _ & ->).
      destruct (proj1 (block_entries_elem func k' b' y Hwf Hb') Hx') as (r' & _ & _ & ->).
      injection Hy as -> ->. congruence.
    + intros b [k Hb]%list_elem_of_lookup. by apply (block_entries_NoDup func k).
    + apply (NoDup_fmap_1 blk_id). apply NoDup_alt. intros i j x Hi Hj.
      rewrite list_lookup_fmap in Hi, Hj. apply fmap_Some in Hi as (bi & Hbi & Hx).
      apply fmap_Some in Hj as (bj & Hbj & Hx').
      rewrite (wf_ids _ Hwf i bi Hbi) in Hx. rewrite (wf_ids _ Hwf j bj Hbj) in Hx'. congruence.
Qed.

(** ** Results of a list *)

Lemma try_mapM_total {A B} (f : A -> result PlanError B) (R : A -> B -> Prop) l :
  (forall x, x ∈ l -> exists y, f x = Ok y /\ R x y) ->
  exists ys, try_mapM f l = Ok ys /\ Forall2 R l ys.
Proof.
  induction l as [|x l IH]; intros H; simpl; [by exists []|].
  destruct (H x) as (y & Hy & Hr); [left|]. destruct IH as (ys & Hys & Hrs); [intros z Hz; apply H; by right|].
  exists (y :: ys). rewrite Hy. simpl. rewrite Hys. simpl. split; [done|by constructor].
Qed.

Lemma Forall2_concat {A B} (R : A -> list B -> Prop) l ys y :
  Forall2 R l ys -> y ∈ concat ys -> exists x k, x ∈ l /\ R x k /\ y ∈ k.
Proof.
  induction 1 as [|x k l ys Hr _ IH]; simpl; [by intros ?%elem_of_nil|].
  intros [Hy|Hy]%elem_of_app; [exists x, k; by split_and!; [left|..]|].
  destruct (IH Hy) as (z & m & Hz & ? & ?). exists z, m. split_and!; [by right|done|done].
Qed.

(** ** Coalescing *)

(** The definition [d], in the block [q], may write the slot of the phi. *)
Record coalesces p (q : BlockId) (cs : list Copy) (fl : bool) (phi d : SsaValueId) : Prop := {
  co_interference : fl = false;
  co_copy : (phi, Def d) ∈ cs;
  co_site : exists b k s, block (ssa p) q = Some b /\ is_jump (terminator b) = true /\
    sites p !! d = Some {| site_block := q; site_index := k |} /\ stmts b !! k = Some s /\
    is_inline_op (stmt_op s) = true /\ phi_read_after b k cs phi = false;
  co_once : use_count p d = 1
}.

Lemma coalescible_spec p q b cs c :
  block (ssa p) q = Some b -> is_jump (terminator b) = true -> c ∈ cs ->
  (forall id k, sites p !! id = Some {| site_block := q; site_index := k |} -> is_Some (stmts b !! k)) ->
  exists r, coalescible p q b cs c = Ok r /\
    forall phi d, r = Some (phi, d) -> coalesces p q cs false phi d.
Proof.
  intros Hb Hj Hc Hsites. destruct c as [phi v]. unfold coalescible.
  destruct v as [d|k|lit]; [|by exists None|by exists None].
  destruct (sites p !! d) as [[sb k]|] eqn:Hs; [|by exists None]. simpl.
  destruct (Nat.eqb_spec sb q) as [->|]; simpl; [|by exists None].
  destruct (Hsites d k Hs) as [s Hk]. unfold index. rewrite Hk. simpl.
  destruct (is_inline_op (stmt_op s)) eqn:Hi; simpl; [|by exists None].
  destruct (Nat.eqb_spec (use_count p d) 1) as [Hu|]; simpl; [|by exists None].
  destruct (phi_read_after b k cs phi) eqn:Hr; [by exists None|].
  eexists. split; [done|]. intros phi' d' [= <- <-]. constructor; try done. by exists b, k, s.
Qed.

Lemma coalesce_edge_spec p q t cs fl :
  (exists b, block (ssa p) q = Some b /\
    forall id k, sites p !! id = Some {| site_block := q; site_index := k |} -> is_Some (stmts b !! k)) ->
  exists l, coalesce_edge p ((q, t), (cs, fl)) = Ok l /\
    forall e phi d, (e, phi, d) ∈ l -> e = (q, t) /\ coalesces p q cs fl phi d.
Proof.
  intros (b & Hb & Hsites). unfold coalesce_edge. destruct fl.
  { exists []. split; [done|]. by intros e phi d ?%elem_of_nil. }
  unfold index. simpl. unfold block in Hb. rewrite Hb. simpl.
  destruct (is_jump (terminator b)) eqn:Hj; simpl;
    [|exists []; split; [done|]; by intros e phi d ?%elem_of_nil].
  destruct (try_mapM_total (coalescible p q b cs)
    (fun c r => forall phi d, r = Some (phi, d) -> coalesces p q cs false phi d) cs) as (found & -> & Hf).
  { intros c Hc. by apply (coalescible_spec p q b cs c). }
  simpl. eexists. split; [done|]. intros e phi d Hin.
  apply list_elem_of_fmap in Hin as ([phi' d'] & [= -> -> ->] & Hin). split; [done|].
  apply list_elem_of_omap in Hin as (r & Hin & Hr). simpl in Hr. subst r.
  apply list_elem_of_lookup in Hin as [j Hj'].
  destruct (Forall2_lookup_r _ _ _ _ _ Hf Hj') as (c & _ & H). by apply H.
Qed.

Abbreviation planned := (list (Edge * SsaValueId * SsaValueId)).

Definition taken (l : planned) (e : Edge) (c : Copy) : bool :=
  existsb (fun x : Edge * SsaValueId * SsaValueId => bool_decide (x.1.1 = e) && Nat.eqb c.1 x.1.2) l.

Lemma coalesce_all_copies (l : planned) p e :
  edge_copies (foldl coalesce_one p l) !! e =
    (fun c => (filter (fun x => taken l e x = false) c.1, c.2)) <$> edge_copies p !! e.
Proof.
  revert p. induction l as [|[[e' phi] d] l IH]; intros p; cbn [foldl].
  - destruct (edge_copies p !! e) as [[cs fl]|]; simpl; [|done]. do 2 f_equal.
    induction cs as [|c cs IH]; [done|]. rewrite filter_cons_True by done. by f_equal.
  - rewrite IH. simpl. destruct (decide (e' = e)) as [->|Hne].
    + rewrite lookup_alter_eq. destruct (edge_copies p !! e) as [[cs fl]|]; simpl; [|done].
      do 2 f_equal. rewrite list_filter_filter. apply list_filter_iff. intros c. simpl.
      rewrite bool_decide_true by done. simpl. destruct (c.1 =? phi); simpl; naive_solver.
    + rewrite lookup_alter_ne by done. destruct (edge_copies p !! e) as [[cs fl]|]; simpl; [|done].
      do 2 f_equal. apply list_filter_iff. intros c. simpl. by rewrite bool_decide_false by done.
Qed.

Lemma coalesce_all_defs (l : planned) p d phi :
  (forall e1 phi1 e2 phi2, (e1, phi1, d) ∈ l -> (e2, phi2, d) ∈ l -> phi1 = phi2) ->
  coalesced p !! d = None ->
  coalesced (foldl coalesce_one p l) !! d = Some phi <-> exists e, (e, phi, d) ∈ l.
Proof.
  intros Hu. revert p. induction l as [|[[e' phi'] d'] l IH] using rev_ind; intros p Hd.
  { simpl. rewrite Hd. split; [done|]. by intros (e & ?%elem_of_nil). }
  rewrite foldl_app. simpl. destruct (decide (d' = d)) as [->|Hne].
  - rewrite lookup_insert_eq. split; [intros [= ->]; exists e'; set_solver|].
    intros [e He]. f_equal. apply (Hu e' _ e); [|exact He]. apply elem_of_app. right. by left.
  - rewrite lookup_insert_ne by done. rewrite IH; [set_solver| |done].
    intros e1 phi1 e2 phi2 H1 H2. apply (Hu e1 _ e2); apply elem_of_app; by left.
Qed.

Lemma coalesce_all_rest (l : planned) p :
  let p' := foldl coalesce_one p l in
  ssa p' = ssa p /\ sites p' = sites p /\ uses p' = uses p /\ convert_gate p' = convert_gate p.
Proof.
  revert p. induction l as [|[[e phi] d] l IH]; intros p; [done|]. cbn [foldl].
  by destruct (IH (coalesce_one p (e, phi, d))) as (-> & -> & -> & ->).
Qed.

(** ** Who may write the slot of a phi *)

Lemma pred_target func q t b bq :
  well_formed func -> block func t = Some b -> q ∈ preds b -> block func q = Some bq ->
  t ∈ targets (terminator bq).
Proof.
  intros Hwf Hb Hq Hbq. apply (pred_spec _ (well_formed_edges _ Hwf) t b q Hb) in Hq.
  unfold edge, block_succs in Hq. by rewrite Hbq, (wf_succs _ Hwf q bq Hbq) in Hq.
Qed.

Lemma pred_block func q t b :
  well_formed func -> block func t = Some b -> q ∈ preds b -> is_Some (block func q).
Proof.
  intros Hwf Hb Hq. apply (pred_spec _ (well_formed_edges _ Hwf) t b q Hb) in Hq.
  unfold edge, block_succs in Hq. destruct (block func q); [done|]. by apply elem_of_nil in Hq.
Qed.

Lemma copies_two (cs : list Copy) phi phi' d :
  (phi, Def d) ∈ cs -> (phi', Def d) ∈ cs -> count (def_ids cs.*2) d <= 1 -> phi = phi'.
Proof.
  intros Hin Hin' Hc. destruct (decide (phi = phi')) as [|Hne]; [done|].
  apply list_elem_of_split in Hin as (l1 & l2 & ->).
  rewrite fmap_app, def_ids_app, count_occ_app in Hc. csimpl in Hc. simpl in Hc.
  destruct (Nat.eq_dec d d) as [_|]; [|done].
  enough (0 < count (def_ids l1.*2) d \/ 0 < count (def_ids l2.*2) d) by lia.
  rewrite <- !count_elem, !def_ids_elem.
  apply elem_of_app in Hin' as [Hin'|[[=]|Hin']%elem_of_cons]; [left|done|right];
    apply list_elem_of_fmap; by exists (phi', Def d).
Qed.

Lemma pair_copies_out func q t b bq x :
  well_formed func -> block func t = Some b -> q ∈ preds b -> block func q = Some bq ->
  count (block_ids bq) x + count (def_ids (copies_of b q).*2) x <= count (out_ids func q) x.
Proof.
  intros Hwf Hb Hq Hbq. pose proof (out_ids_split func q bq x Hbq) as H.
  pose proof (pred_target func q t b bq Hwf Hb Hq Hbq) as [k Hk]%list_elem_of_lookup.
  pose proof (count_bind (fun t => def_ids (pair_copies func q t).*2) _ _ _ Hk x) as H2.
  unfold pair_copies in H2 at 1. rewrite Hb in H2. lia.
Qed.

(** ** The result of the analysis *)

(** What is left of the copies of an edge when the definitions that write the slot
    of their phi are taken away. *)
Definition kept_copy p (c : Copy) : bool :=
  match c.2 with
  | Def d => match coalesced p !! d with Some phi => negb (Nat.eqb phi c.1) | None => true end
  | _ => true
  end.

Record analysed func p : Prop := {
  an_ssa : ssa p = func;
  an_sites id d k : sites p !! id = Some {| site_block := d; site_index := k |} <->
    exists b s, block func d = Some b /\ stmts b !! k = Some s /\ stmt_id s = id;
  an_uses id : use_count p id = count (def_ids (all_values func)) id;
  an_copies q t b : block func t = Some b -> q ∈ preds b ->
    match edge_copies p !! (q, t) with
    | None => copies_of b q = []
    | Some (cs, fl) => fl = interferes b (copies_of b q) /\
        cs = filter (fun c => kept_copy p c = true) (copies_of b q)
    end;
  an_coalesced d phi : coalesced p !! d = Some phi -> exists q t b,
    block func t = Some b /\ q ∈ preds b /\
    coalesces p q (copies_of b q) (interferes b (copies_of b q)) phi d
}.

Lemma coalesces_unique func q t b q' t' b' phi phi' d :
  well_formed func -> count (def_ids (all_values func)) d = 1 ->
  block func t = Some b -> q ∈ preds b -> (phi, Def d) ∈ copies_of b q ->
  (exists bq, block func q = Some bq /\ is_jump (terminator bq) = true) ->
  block func t' = Some b' -> q' ∈ preds b' -> (phi', Def d) ∈ copies_of b' q' ->
  q = q' /\ t = t' /\ phi = phi'.
Proof.
  intros Hwf Hc Hb Hq Hin (bq & Hbq & Hj) Hb' Hq' Hin'.
  assert (forall q t b phi, block func t = Some b -> q ∈ preds b -> (phi, Def d) ∈ copies_of b q ->
    d ∈ out_ids func q) as Hout.
  { clear -Hwf. intros q t b phi Hb Hq Hin.
    assert (is_Some (block func q)) as [bq Hbq].
    { by eapply pred_block. }
    apply count_elem. pose proof (pair_copies_out func q t b bq d Hwf Hb Hq Hbq).
    enough (0 < count (def_ids (copies_of b q).*2) d) by lia.
    apply count_elem, def_ids_elem, list_elem_of_fmap. by exists (phi, Def d). }
  assert (q = q') as <-.
  { apply (use_once func q q' d Hwf Hc); [by apply (Hout q t b phi)|by apply (Hout q' t' b' phi')]. }
  pose proof (pred_target func q t b bq Hwf Hb Hq Hbq) as Ht.
  pose proof (pred_target func q t' b' bq Hwf Hb' Hq' Hbq) as Ht'.
  destruct (terminator bq); try done. apply list_elem_of_singleton in Ht as ->, Ht' as ->.
  simplify_eq. split_and!; [done|done|]. eapply copies_two; [done|done|].
  pose proof (pair_copies_out func q _ _ bq d Hwf Hb Hq Hbq).
  pose proof (use_once_le func q d Hwf Hc). lia.
Qed.

Lemma filter_false_true {A} (f g : A -> bool) (l : list A) :
  (forall x, x ∈ l -> f x = negb (g x)) -> filter (fun x => f x = false) l = filter (fun x => g x = true) l.
Proof.
  induction l as [|x l IH]; intros H; [done|]. rewrite !filter_cons, (H x) by left.
  rewrite IH by (intros y Hy; apply H; by right). by destruct (g x).
Qed.

(** What the loop takes away is what the planner knows as coalesced. *)
Lemma taken_kept (l : planned) p q t b c :
  (forall d phi, coalesced p !! d = Some phi <-> exists e, (e, phi, d) ∈ l) ->
  (forall phi d, ((q, t), phi, d) ∈ l -> (phi, Def d) ∈ copies_of b q) ->
  (forall e phi d, (e, phi, d) ∈ l -> (phi, Def d) ∈ copies_of b q -> e = (q, t)) ->
  NoDup (copies_of b q).*1 -> c ∈ copies_of b q -> taken l (q, t) c = negb (kept_copy p c).
Proof.
  intros Hdefs Hin Hun Hnd Hc. apply Bool.eq_iff_eq_true. rewrite negb_true_iff.
  unfold taken, kept_copy. rewrite existsb_exists. destruct c as [phi v]. simpl. split.
  - intros ([[e phi'] d] & Hl%list_elem_of_In & [He%bool_decide_eq_true Hp%Nat.eqb_eq]%andb_true_iff).
    simpl in *. subst e phi'. pose proof (Hin _ _ Hl) as Hc'.
    assert (v = Def d) as ->.
    { apply list_elem_of_lookup in Hc as [i Hi], Hc' as [j Hj].
      assert (i = j) as ->; [|congruence].
      eapply NoDup_lookup; [exact Hnd|rewrite list_lookup_fmap, Hi; done|by rewrite list_lookup_fmap, Hj]. }
    assert (coalesced p !! d = Some phi) as -> by (apply Hdefs; by exists (q, t)).
    by rewrite Nat.eqb_refl.
  - destruct v as [d|k|lit]; [|done|done].
    destruct (coalesced p !! d) as [phi'|] eqn:Hd; [|done].
    destruct (Nat.eqb_spec phi' phi) as [->|]; [|done]. intros _.
    apply Hdefs in Hd as [e He]. pose proof (Hun _ _ _ He Hc) as ->.
    exists ((q, t), phi, d). rewrite <- list_elem_of_In. split; [done|]. simpl.
    by rewrite bool_decide_true, Nat.eqb_refl.
Qed.

Lemma copies_NoDup func i b q : well_formed func -> block func i = Some b -> NoDup (copies_of b q).*1.
Proof.
  intros Hwf Hb. pose proof (block_ids_NoDup func Hwf i b Hb) as Hnd.
  eapply sublist_NoDup; [exact Hnd|]. etrans; [|apply fmap_sublist, phis_sublist].
  unfold copies_of. induction (phis (stmts b)) as [|s l IH]; [constructor|]. csimpl.
  destruct (copy_of q s) as [[x v]|] eqn:Hc; csimpl; [|by constructor].
  assert (x = stmt_id s) as ->; [|by constructor].
  revert Hc. unfold copy_of. destruct (stmt_op s) as [phi| | | | | | | | |]; try done.
  destruct (phi_entry q phi) as [u|]; [|done]. simpl. by destruct (value_eqb _ _); intros [=].
Qed.

Section Coalesce.
Variable func : SsaFunction.
Variable p : Planner.
Hypothesis Hwf : well_formed func.
Hypothesis Hssa : ssa p = func.
Hypothesis Hco : coalesced p = ∅.
Hypothesis Hsites : forall id d k, sites p !! id = Some {| site_block := d; site_index := k |} <->
  exists b s, block func d = Some b /\ stmts b !! k = Some s /\ stmt_id s = id.
Hypothesis Huses : forall id, use_count p id = count (def_ids (all_values func)) id.
Hypothesis Hcopies : edge_copies p = foldl collect_block_copies ∅ (fn_blocks func).

Lemma coalesce_edges_total :
  exists ls, try_mapM (coalesce_edge p) (map_to_list (edge_copies p)) = Ok ls /\
    forall q t phi d, (q, t, phi, d) ∈ concat ls -> exists b, block func t = Some b /\ q ∈ preds b /\
      coalesces p q (copies_of b q) (interferes b (copies_of b q)) phi d.
Proof.
  destruct (try_mapM_total (coalesce_edge p)
    (fun en l => forall e phi d, (e, phi, d) ∈ l ->
       e = en.1 /\ coalesces p en.1.1 en.2.1 en.2.2 phi d) (map_to_list (edge_copies p)))
    as (ls & -> & Hls).
  { intros [[q t] [cs fl]] Hin%elem_of_map_to_list. rewrite Hcopies in Hin.
    apply (collected_copies func q t cs fl Hwf) in Hin as (b & Hb & Hq & _).
    destruct (coalesce_edge_spec p q t cs fl) as (l & Hl & H); [|by exists l].
    destruct (pred_block func q t b Hwf Hb Hq) as [bq Hbq]. rewrite Hssa. exists bq. split; [done|]. intros id k (b' & s & Hb' & Hs & _)%Hsites. simplify_eq. by exists s. }
  exists ls. split; [done|]. intros q t phi d Hin.
  destruct (Forall2_concat _ _ _ _ Hls Hin) as ([[q0 t0] [cs fl]] & k & He & Hk & Hin').
  destruct (Hk _ _ _ Hin') as [[= -> ->] Hcoal]. simpl in *.
  apply elem_of_map_to_list in He. rewrite Hcopies in He.
  apply (collected_copies func _ _ cs fl Hwf) in He as (b & Hb & Hq & -> & _ & ->). by exists b.
Qed.

Lemma coalesce_total :
  exists p', coalesce_phi_copies p = Ok p' /\ analysed func p' /\ convert_gate p' = convert_gate p /\
    forall e c, edge_copies p' !! e = Some c -> is_Some (block func e.1).
Proof.
  unfold coalesce_phi_copies. destruct coalesce_edges_total as (ls & -> & Hl). simpl.
  set (l := concat ls).
  assert (forall q t phi d q' t' b' phi', (q, t, phi, d) ∈ l -> block func t' = Some b' ->
    q' ∈ preds b' -> (phi', Def d) ∈ copies_of b' q' -> q = q' /\ t = t' /\ phi = phi') as Hun.
  { intros q t phi d q' t' b' phi' Hin Hb' Hq' Hin'.
    destruct (Hl _ _ _ _ Hin) as (b & Hb & Hq & [_ Hcopy (bq & k & s & Hbq & Hj & _) Honce]).
    rewrite Hssa in Hbq. rewrite Huses in Honce.
    eapply (coalesces_unique func q t b q' t' b'); try done. by exists bq. }
  pose proof (coalesce_all_rest l p) as (Hs1 & Hs2 & Hs3 & Hs4).
  assert (forall d phi, coalesced (foldl coalesce_one p l) !! d = Some phi <-> exists e, (e, phi, d) ∈ l) as Hdefs.
  { intros d phi. apply coalesce_all_defs; [|by rewrite Hco].
    intros [q t] phi1 [q' t'] phi2 H1 H2. destruct (Hl _ _ _ _ H2) as (b & Hb & Hq & Hc).
    by apply (Hun q t phi1 d q' t' b phi2 H1 Hb Hq (co_copy _ _ _ _ _ _ Hc)). }
  eexists. split; [done|]. split; [constructor|split; [done|]].
  - by rewrite Hs1.
  - intros id d k. by rewrite Hs2.
  - intros id. unfold use_count. rewrite Hs3. apply Huses.
  - intros q t b Hb Hq. rewrite coalesce_all_copies, Hcopies.
    destruct (foldl collect_block_copies ∅ (fn_blocks func) !! (q, t)) as [[cs fl]|] eqn:He; simpl.
    + apply (collected_copies func q t cs fl Hwf) in He as (b' & Hb' & _ & -> & _ & ->). simplify_eq.
      split; [done|]. apply filter_false_true. intros c Hc.
      apply (taken_kept l (foldl coalesce_one p l) q t b); [done| | |by eapply copies_NoDup|done].
      * intros phi d Hin. destruct (Hl q t phi d Hin) as (b'' & Hb'' & _ & Hcoal). simplify_eq.
        apply (co_copy _ _ _ _ _ _ Hcoal).
      * intros [q' t'] phi d Hin Hin'. by destruct (Hun q' t' phi d q t b phi Hin Hb Hq Hin') as (-> & -> & _).
    + destruct (copies_of b q) as [|c cs] eqn:Hcs; [done|]. exfalso.
      enough (foldl collect_block_copies ∅ (fn_blocks func) !! (q, t) =
        Some (c :: cs, interferes b (c :: cs))) by congruence.
      apply (collected_copies func q t _ _ Hwf). exists b. by rewrite Hcs.
  - intros d phi Hd. apply Hdefs in Hd as [[q t] Hin].
    destruct (Hl q t phi d Hin) as (b & Hb & Hq & [H1 H2 H3 H4]). exists q, t, b.
    split_and!; [done|done|]. constructor; [done|done| |].
    + rewrite Hs1, Hs2. done.
    + unfold use_count. by rewrite Hs3.
  - intros [q t] c. rewrite coalesce_all_copies, Hcopies.
    intros ([cs fl] & He & _)%fmap_Some. simpl.
    apply (collected_copies func q t cs fl Hwf) in He as (b & Hb & Hq & _).
    by eapply pred_block.
Qed.
End Coalesce.

(** ** The whole analysis *)

Lemma spill_total func p :
  analysed func p ->
  (forall e c, edge_copies p !! e = Some c -> is_Some (block func e.1)) ->
  exists p', apply_force_spill p = Ok p' /\ analysed func p' /\ convert_gate p' = convert_gate p.
Proof.
  intros [H1 H2 H3 H4 H5] Hblocks. unfold apply_force_spill.
  destruct (try_mapM_total (spill_edge p) (fun _ _ => True) (map_to_list (edge_copies p))) as (ls & -> & _).
  { intros [e [cs fl]] Hin%elem_of_map_to_list. unfold spill_edge. destruct cs as [|c cs]; [by exists []|].
    destruct (Hblocks e _ Hin) as [b Hb]. unfold index. rewrite H1. unfold block in Hb. rewrite Hb. simpl.
    destruct (_ || _); by eexists. }
  simpl. eexists. split; [done|]. split; [|done]. constructor; try done.
  intros d phi Hd. destruct (H5 d phi Hd) as (q & t & b & Hb & Hq & [C1 C2 C3 C4]).
  exists q, t, b. by split_and!.
Qed.

Lemma analyse_total func span gate :
  well_formed func ->
  exists p, analyse func span gate = Ok p /\ analysed func p /\ convert_gate p = gate.
Proof.
  intros Hwf. destruct (collected func span gate Hwf) as [Hsites Huses].
  destruct (collect_ssa (new_planner func span gate)) as (E1 & E2 & E3 & E4). unfold analyse.
  set (p1 := collect_sites_and_uses (new_planner func span gate)) in *.
  assert (edge_copies (collect_edge_copies p1) = foldl collect_block_copies ∅ (fn_blocks func)) as Hcopies
    by (simpl; by rewrite E1, E3).
  destruct (coalesce_total func (collect_edge_copies p1) Hwf E1 E2 Hsites Huses Hcopies)
    as (p2 & -> & Ha & Hg & Hblocks). simpl.
  destruct (spill_total func p2 Ha Hblocks) as (p3 & Hp3 & Ha3 & Hg3).
  exists p3. split_and!; [done|done|]. rewrite Hg3, Hg. simpl. by rewrite E4.
Qed.
End Copies.
