(* ===== verification/PlanBuilt.v ===== *)
(** * The names of slots and temporaries

    Slots and temporaries of different definitions have different names, none of
    them is the name of a variable of the program, and the number of a slot can be
    read back from its name. *)

From S2P Require Export PlanCopies PlanSem.
From Stdlib Require Import Ascii.

Lemma strip_app prefix s : str_strip_prefix prefix (prefix +:+ s) = Some s.
Proof. induction prefix as [|a prefix IH]; simpl; [done|]. by rewrite Ascii.eqb_refl. Qed.

Lemma strip_slot id : str_strip_prefix "#ssa" (slot_name id) = Some (pretty id).
Proof. apply strip_app. Qed.

Lemma slot_synthetic id : is_synthetic (slot_name id) = true.
Proof. unfold is_synthetic. by rewrite strip_slot. Qed.

Lemma temp_synthetic id : is_synthetic (temp_name id) = true.
Proof. done. Qed.

#[export] Instance slot_name_inj : Inj (=) (=) slot_name.
Proof. intros x y H. apply (inj pretty). unfold slot_name in H. by simplify_eq/=. Qed.

#[export] Instance temp_name_inj : Inj (=) (=) temp_name.
Proof. intros x y H. apply (inj pretty). unfold temp_name in H. by simplify_eq/=. Qed.

Lemma pretty_go_letter x s t : s <> String "t"%char t -> pretty_N_go x s <> String "t"%char t.
Proof.
  revert s. induction (N.lt_wf_0 x) as [x _ IH]; intros s Hs.
  destruct (decide (x = 0%N)) as [->|Hx]; [by rewrite pretty_N_go_0|].
  rewrite pretty_N_go_step by lia. apply IH; [apply N.div_lt; lia|].
  unfold pretty_N_char. by repeat case_match.
Qed.

Lemma slot_not_temp x y : slot_name x <> temp_name y.
Proof.
  unfold slot_name, temp_name. intros H. injection H as H. revert H.
  unfold pretty, pretty_nat, pretty, pretty_N. case_decide; [done|]. by apply pretty_go_letter.
Qed.

(** ** Reading a number back *)

Lemma digit_char x : (x < 10)%N -> digit_value (pretty_N_char x) = Some (Z.of_N x).
Proof.
  intros Hx. assert (x = 0 \/ x = 1 \/ x = 2 \/ x = 3 \/ x = 4 \/ x = 5 \/ x = 6 \/ x = 7 \/ x = 8 \/ x = 9)%N
    as H by lia. repeat destruct H as [->|H]; [..|rewrite H]; reflexivity.
Qed.

Lemma parse_step x s :
  (0 < x)%N ->
  parse_digits (Z.of_N (x / 10)) (String (pretty_N_char (x mod 10)) s) =
    if (Z.of_N x <? 2 ^ 32)%Z then parse_digits (Z.of_N x) s else None.
Proof.
  intros Hx. cbn [parse_digits]. rewrite digit_char by (apply N.mod_lt; lia). cbn [mbind option_bind].
  assert (Z.of_N (x / 10) * 10 + Z.of_N (x mod 10) = Z.of_N x)%Z as ->; [|done].
  pose proof (N.div_mod x 10). lia.
Qed.

Lemma parse_go x s :
  parse_digits 0 (pretty_N_go x s) =
    if (Z.of_N x <? 2 ^ 32)%Z then parse_digits (Z.of_N x) s else None.
Proof.
  revert s. induction (N.lt_wf_0 x) as [x _ IH]; intros s.
  destruct (decide (x = 0%N)) as [->|Hx]; [by rewrite pretty_N_go_0|].
  rewrite pretty_N_go_step by lia. rewrite IH by (apply N.div_lt; lia). rewrite parse_step by lia.
  destruct (Z.ltb_spec (Z.of_N (x / 10)) (2 ^ 32)), (Z.ltb_spec (Z.of_N x) (2 ^ 32)); try done.
  pose proof (N.Div0.div_le_mono 0 x 10). pose proof (N.div_lt x 10). lia.
Qed.

Lemma pretty_go_plus x s t : s <> String "+"%char t -> pretty_N_go x s <> String "+"%char t.
Proof.
  revert s. induction (N.lt_wf_0 x) as [x _ IH]; intros s Hs.
  destruct (decide (x = 0%N)) as [->|Hx]; [by rewrite pretty_N_go_0|].
  rewrite pretty_N_go_step by lia. apply IH; [apply N.div_lt; lia|].
  unfold pretty_N_char. by repeat case_match.
Qed.

Lemma parse_pretty (n m : nat) : parse_u32 (pretty n) = Some m -> m = n.
Proof.
  unfold parse_u32. assert (str_strip_prefix "+" (pretty n) = None) as ->.
  { destruct (pretty n) as [|c s] eqn:Hp; [done|]. cbn [str_strip_prefix].
    destruct (Ascii.eqb_spec "+"%char c) as [<-|]; [|done]. exfalso. revert Hp.
    unfold pretty, pretty_nat, pretty, pretty_N. case_decide; [done|]. by apply pretty_go_plus. }
  destruct (String.eqb _ _); [done|]. intros (z & Hz & ->)%fmap_Some. revert Hz.
  unfold pretty, pretty_nat, pretty, pretty_N. case_decide as Hn.
  - change (parse_digits 0 "0") with (Some 0%Z). intros [= <-]. simpl. lia.
  - rewrite parse_go. destruct (_ <? _)%Z; [|done]. intros [= <-]. lia.
Qed.

(** * Trees and the statements that they stand for

    [built before v e before' cons mats]: with the statements [before] left, the
    value [v] becomes the expression [e], which consumes [cons], the last ones of
    [before], and reads the slots of [mats].  The planner builds such trees
    ([build_value_built]) and never runs out of fuel. *)

Section Built.
Context {C : CoreTypes}.
Implicit Types func : SsaFunction.

(** ** What the planner is asked to plan *)

(** The right operand of a short-circuit operator is not computed in its block. *)
Definition right_available (b : SsaBlock) (op : SsaOp) : bool :=
  match op with
  | Binary bop _ (Def id) =>
      negb (is_short_circuit bop) ||
      forallb (fun s => is_phi (stmt_op s) || negb (Nat.eqb (stmt_id s) id)) (stmts b)
  | _ => true
  end.

Definition is_store (op : SsaOp) : bool := match op with StoreGlobal _ _ => true | _ => false end.

(** A value comes from a definition, which is not a store, or is an argument. *)
Definition known_value func (v : SsaValue) : bool :=
  match v with
  | Def id => existsb (fun s => Nat.eqb (stmt_id s) id && negb (is_store (stmt_op s))) (all_stmts func)
  | Argument k => Nat.ltb k (length (fn_params func))
  | Const _ => true
  end.

Definition not_opaque (op : SsaOp) : bool :=
  match op with Opaque _ _ | OpaqueStmt _ _ | BarrierReload _ _ => false | _ => true end.

(** Globals are neither parameters nor slots. *)
Definition global_name_ok func (op : SsaOp) : bool :=
  match op with
  | LoadGlobal name | StoreGlobal name _ => negb (is_local (param_names func) name)
  | _ => true
  end.

Record plannable func : Prop := {
  pn_right i b s : block func i = Some b -> s ∈ stmts b -> right_available b (stmt_op s) = true;
  pn_known v : v ∈ all_values func -> known_value func v = true;
  pn_opaque s : s ∈ all_stmts func -> not_opaque (stmt_op s) = true;
  pn_global s : s ∈ all_stmts func -> global_name_ok func (stmt_op s) = true;
  pn_params : NoDup (param_names func);
  pn_param_names name : name ∈ param_names func -> is_synthetic name = false
}.

(** All of it can be computed. *)
Definition plannable_check func : bool :=
  forallb (fun b => forallb (fun s => right_available b (stmt_op s)) (stmts b)) (fn_blocks func) &&
  forallb (known_value func) (all_values func) &&
  forallb (fun s => not_opaque (stmt_op s) && global_name_ok func (stmt_op s)) (all_stmts func) &&
  bool_decide (NoDup (param_names func)) &&
  forallb (fun name => negb (is_synthetic name)) (param_names func).

Lemma plannable_checked func : plannable_check func = true -> plannable func.
Proof.
  unfold plannable_check. rewrite !andb_true_iff, bool_decide_eq_true, !forallb_forall.
  intros ((((H1 & H2) & H3) & H4) & H5). constructor.
  - intros i b s Hb Hs. specialize (H1 b). rewrite forallb_forall in H1.
    apply H1; apply list_elem_of_In; [by apply list_elem_of_lookup_2 in Hb|done].
  - intros v Hv. by apply H2, list_elem_of_In.
  - intros s Hs%list_elem_of_In. by apply H3, andb_true_iff in Hs as [].
  - intros s Hs%list_elem_of_In. by apply H3, andb_true_iff in Hs as [].
  - done.
  - intros name Hn%list_elem_of_In. apply negb_true_iff. by apply H5.
Qed.

(** ** The relation *)

(** An operation over the trees of its operands. *)
Definition rebuild (gate : NumericConvertGate) (op : SsaOp) (es : list CoreExpr) (span : CoreSpan)
    : option CoreExpr :=
  match op, es with
  | Unary op _, [e] => Some (Expr_UnaryOp op e span)
  | Binary op _ _, [l; r] => Some (Expr_BinaryOp op l r span)
  | Call module function args kwargs sm km, es =>
      let arg_es := take (length args) es in
      let kws := zip (map fst kwargs) (drop (length args) es) in
      match module with
      | Some module => Some (Expr_ModuleCall module function arg_es kws sm km span)
      | None =>
          match numeric_convert_target gate function (length arg_es) (Nat.eqb (length kws) 0) sm km,
                arg_es with
          | Some target, [e] => Some (Expr_Convert target e span)
          | _, _ => Some (Expr_Call function arg_es kws sm km span)
          end
      end
  | Builtin name _, es => Some (Expr_Builtin name es span)
  | LoadGlobal name, [] => Some (Expr_Var name span)
  | _, _ => None
  end.

Variable p : Planner.

(** The right operand of a short-circuit operator has not consumed anything. *)
Definition right_atomic (op : SsaOp) (es : list CoreExpr) : Prop :=
  match op with
  | Binary bop _ r => is_short_circuit bop = true -> exists l span, es = [l; materialize p r span]
  | _ => True
  end.

Inductive built : list SsaStatement -> SsaValue -> CoreExpr -> list SsaStatement ->
    list SsaStatement -> list SsaValueId -> Prop :=
  | built_here before v span : built before v (materialize p v span) before [] (def_ids [v])
  | built_inline before s es e before' cons mats :
      built_all before (operands (stmt_op s)) es before' cons mats ->
      rebuild (convert_gate p) (stmt_op s) es (stmt_span s) = Some e ->
      right_atomic (stmt_op s) es -> is_inline_op (stmt_op s) = true ->
      use_count p (stmt_id s) = 1 ->
      built (before ++ [s]) (Def (stmt_id s)) e before' (cons ++ [s]) mats
with built_all : list SsaStatement -> list SsaValue -> list CoreExpr -> list SsaStatement ->
    list SsaStatement -> list SsaValueId -> Prop :=
  | built_nil before : built_all before [] [] before [] []
  | built_cons before v vs e es b1 k1 m1 b2 k2 m2 :
      built_all before vs es b1 k1 m1 -> built b1 v e b2 k2 m2 ->
      built_all before (v :: vs) (e :: es) b2 (k2 ++ k1) (m2 ++ m1).

Scheme built_mut := Induction for built Sort Prop
  with built_all_mut := Induction for built_all Sort Prop.
Combined Scheme built_mutind from built_mut, built_all_mut.

Lemma built_all_app before vs es vs' es' b1 k1 m1 b2 k2 m2 :
  built_all before vs' es' b1 k1 m1 -> built_all b1 vs es b2 k2 m2 ->
  built_all before (vs ++ vs') (es ++ es') b2 (k2 ++ k1) (m2 ++ m1).
Proof.
  intros H'. revert es b2 k2 m2. induction vs as [|v vs IH]; intros es b2 k2 m2 H;
    inversion H; subst; simpl; [done|].
  rewrite <- !app_assoc. econstructor; [|done]. by apply IH.
Qed.

(** The statements of a tree, and the number of times that it uses a definition. *)
Definition stmt_ids (l : list SsaStatement) : list SsaValueId := map stmt_id l.

Definition operand_ids (l : list SsaStatement) : list SsaValueId :=
  l ≫= fun s => def_ids (operands (stmt_op s)).

Lemma operand_ids_app l k : operand_ids (l ++ k) = operand_ids l ++ operand_ids k.
Proof. apply bind_app. Qed.

Lemma stmt_ids_app l k : stmt_ids (l ++ k) = stmt_ids l ++ stmt_ids k.
Proof. apply map_app. Qed.

Lemma built_suffix :
  (forall before v e before' cons mats, built before v e before' cons mats ->
     before = before' ++ cons) /\
  (forall before vs es before' cons mats, built_all before vs es before' cons mats ->
     before = before' ++ cons /\ length es = length vs).
Proof.
  apply built_mutind.
  - intros before v span. by rewrite app_nil_r.
  - intros before s es e before' cons mats _ [-> _] _ _ _ _. by rewrite app_assoc.
  - intros before. by rewrite app_nil_r.
  - intros before v vs e es b1 k1 m1 b2 k2 m2 _ [-> Hl] _ ->. simpl. by rewrite app_assoc, Hl.
Qed.

Lemma built_counts x :
  (forall before v e before' cons mats, built before v e before' cons mats ->
     count mats x + count (stmt_ids cons) x = count (def_ids [v]) x + count (operand_ids cons) x) /\
  (forall before vs es before' cons mats, built_all before vs es before' cons mats ->
     count mats x + count (stmt_ids cons) x = count (def_ids vs) x + count (operand_ids cons) x).
Proof.
  apply built_mutind.
  - intros before v span. simpl. lia.
  - intros before s es e before' cons mats _ IH _ _ _ _.
    rewrite stmt_ids_app, operand_ids_app, !count_occ_app. csimpl. rewrite app_nil_r. simpl.
    destruct (Nat.eq_dec (stmt_id s) x); lia.
  - done.
  - intros before v vs e es b1 k1 m1 b2 k2 m2 _ IH1 _ IH2.
    rewrite stmt_ids_app, operand_ids_app, !count_occ_app.
    change (v :: vs) with ([v] ++ vs). rewrite def_ids_app, count_occ_app. lia.
Qed.

(** What a tree consumes is used once, and inline. *)
Definition consumable (s : SsaStatement) : Prop :=
  is_inline_op (stmt_op s) = true /\ use_count p (stmt_id s) = 1.

Lemma built_consumable :
  (forall before v e before' cons mats, built before v e before' cons mats -> Forall consumable cons) /\
  (forall before vs es before' cons mats, built_all before vs es before' cons mats ->
     Forall consumable cons).
Proof.
  apply built_mutind.
  - constructor.
  - intros before s es e before' cons mats _ IH _ _ Hi Hu. apply Forall_app. by repeat constructor.
  - constructor.
  - intros before v vs e es b1 k1 m1 b2 k2 m2 _ IH1 _ IH2. apply Forall_app. by split.
Qed.
End Built.
