(* ===== verification/PlanBlocks.v ===== *)
(** * The planner builds trees

    [build_value] and [build_op_expr] never fail on a function that can be planned,
    and what they return is a tree in the sense of [built]. *)

From S2P Require Export PlanBuilt.

Section Trees.
Context {C : CoreTypes}.
Variable func : SsaFunction.
Variable p : Planner.
Hypothesis Hwf : well_formed func.
Hypothesis Hpn : plannable func.
Hypothesis Han : analysed func p.

Variable i : BlockId.
Variable b : SsaBlock.
Hypothesis Hb : block func i = Some b.

(** The flags of the statements from [c'] to [c] are set, the others are as before. *)
Definition marked (consumed consumed' : list bool) (c' c : nat) : Prop :=
  c' <= c /\ length consumed' = length consumed /\
  forall j, j < length consumed ->
    consumed' !! j = if decide (c' <= j < c) then Some true else consumed !! j.

Lemma marked_refl consumed c : marked consumed consumed c c.
Proof. split_and!; [done|done|]. intros j _. by rewrite decide_False by lia. Qed.

Lemma marked_trans l1 l2 l3 c1 c2 c3 : marked l1 l2 c2 c1 -> marked l2 l3 c3 c2 -> marked l1 l3 c3 c1.
Proof.
  intros (Hc & Hl & Hm) (Hc' & Hl' & Hm'). split_and!; [lia|congruence|]. intros j Hj.
  rewrite Hm' by lia. case_decide; [by rewrite decide_True by lia|]. rewrite Hm by done.
  case_decide; [by rewrite decide_True by lia|by rewrite decide_False by lia].
Qed.

Lemma marked_insert consumed c : marked consumed (<[c := true]> consumed) c (S c).
Proof.
  split_and!; [lia|by rewrite length_insert|]. intros j Hj. case_decide.
  - assert (j = c) as -> by lia. by apply list_lookup_insert_eq.
  - by rewrite list_lookup_insert_ne by lia.
Qed.

Definition known (v : SsaValue) : Prop :=
  match v with Def id => is_Some (sites p !! id) | _ => True end.

Lemma known_values v : v ∈ all_values func -> known v.
Proof.
  intros Hv. apply (pn_known _ Hpn) in Hv. destruct v as [id| |]; [|done|done]. simpl in *.
  apply existsb_exists in Hv as (s & Hs%list_elem_of_In & [Hid%Nat.eqb_eq _]%andb_true_iff).
  apply list_elem_of_bind in Hs as (b' & [k Hk]%list_elem_of_lookup & [d Hd]%list_elem_of_lookup).
  exists {| site_block := d; site_index := k |}. apply (an_sites _ _ Han). exists b', s. split_and!; [exact Hd|exact Hk|exact Hid].
Qed.

Lemma operands_known s v : s ∈ stmts b -> v ∈ operands (stmt_op s) -> known v.
Proof.
  intros Hs Hv. apply known_values. apply list_elem_of_bind. exists b.
  split; [|by apply list_elem_of_lookup_2 in Hb]. apply elem_of_app. left.
  apply list_elem_of_bind. exists s. split; [|done]. destruct (stmt_op s); [by apply elem_of_nil in Hv|done..].
Qed.

(** ** Short-circuit operands *)

Lemma param_reads k span : collect_spill_reads (Expr_Var (param_name_at p k) span) = [].
Proof.
  cbn [collect_spill_reads]. unfold param_name_at. rewrite (an_ssa _ _ Han).
  destruct (fn_params func !! k) as [param|] eqn:Hk; [|done].
  assert (is_synthetic (param_name param) = false) as Hs.
  { apply (pn_param_names _ Hpn). apply list_elem_of_fmap. exists param. split; [done|].
    by apply list_elem_of_lookup_2 in Hk. }
  unfold is_synthetic in Hs. by destruct (str_strip_prefix _ _).
Qed.

Lemma slot_reads x span y : y ∈ collect_spill_reads (Expr_Var (slot_name x) span) -> y = x.
Proof.
  cbn [collect_spill_reads]. rewrite strip_slot. destruct (parse_u32 (pretty x)) as [m|] eqn:Hm; [|by intros ?%elem_of_nil].
  apply parse_pretty in Hm as ->. by intros ->%list_elem_of_singleton.
Qed.

(** The phi whose slot a definition writes is a phi. *)
Lemma coalesced_phi d phi :
  coalesced p !! d = Some phi -> exists t b' s, block func t = Some b' /\ s ∈ stmts b' /\
    stmt_id s = phi /\ is_phi (stmt_op s) = true.
Proof.
  intros Hd. destruct (an_coalesced _ _ Han d phi Hd) as (q & t & bt & Hbt & Hq & Hco).
  pose proof (co_copy _ _ _ _ _ _ Hco) as (s & ph & [Hs Hph]%phis_elem & _ & Hid & _)%copies_of_elem.
  by exists t, bt, s.
Qed.

Lemma eager_read_other s id :
  s ∈ stmts b -> right_available b (stmt_op s) = true ->
  (exists bop l, stmt_op s = Binary bop l (Def id) /\ is_short_circuit bop = true) ->
  forall x span, x ∈ collect_spill_reads (Expr_Var (spill_name p id) span) ->
  eager_read p i x = Ok false.
Proof.
  intros Hs Hright (bop & l & Hop & Hsc) x span. unfold spill_name, eager_read.
  rewrite (an_ssa _ _ Han). rewrite Hop in Hright. simpl in Hright. rewrite Hsc in Hright. simpl in Hright.
  rewrite forallb_forall in Hright.
  assert (forall d k, sites p !! x = Some {| site_block := d; site_index := k |} ->
    (forall b' t, block func d = Some b' -> stmts b' !! k = Some t -> stmt_id t = x ->
       d = i -> is_phi (stmt_op t) = true) ->
    eager_read p i x = Ok false) as Hgen.
  { intros d k Hk Ht. unfold eager_read. rewrite Hk, (an_ssa _ _ Han). simpl.
    apply (an_sites _ _ Han) in Hk as (b' & t & Hb' & Hst & Hid). unfold index.
    unfold block in Hb'. rewrite Hb'. simpl. rewrite Hst. simpl. f_equal.
    destruct (Nat.eqb_spec d i) as [->|]; [|done]. simpl. by rewrite (Ht b' t). }
  unfold eager_read in Hgen. rewrite (an_ssa _ _ Han) in Hgen.
  destruct (sites p !! x) as [[d k]|] eqn:Hsite; [|done]. intros Hin. apply (Hgen d k); [done|].
  intros b' t Hb' Ht Hid ->. rewrite Hb in Hb'. injection Hb' as <-.
  apply list_elem_of_lookup_2 in Ht. destruct (coalesced p !! id) as [phi|] eqn:Hco.
  - apply slot_reads in Hin as ->. destruct (coalesced_phi id phi Hco) as (t' & b' & s' & Hb' & Hs' & He & Hph).
    assert (t = s') as ->; [|done]. 
    apply (stmt_unique func t s' Hwf); [exact (block_stmts func i b t Hb Ht)|
      exact (block_stmts func t' b' s' Hb' Hs')|congruence].
  - apply slot_reads in Hin as ->. specialize (Hright t). apply list_elem_of_In in Ht.
    specialize (Hright Ht). rewrite Hid, Nat.eqb_refl in Hright. simpl in Hright.
    by rewrite orb_false_r in Hright.
Qed.

Lemma check_right_passes s bop l r span :
  s ∈ stmts b -> stmt_op s = Binary bop l r -> is_short_circuit bop = true ->
  check_short_circuit_right p i (materialize p r span) = Ok tt.
Proof.
  intros Hs Hop Hsc. unfold check_short_circuit_right.
  assert (forall x, x ∈ collect_spill_reads (materialize p r span) -> eager_read p i x = Ok false) as H.
  { destruct r as [id|k|lit]; simpl materialize.
    - intros x. eapply (eager_read_other s id); [done|by eapply (pn_right _ Hpn i b s)|by eauto].
    - rewrite param_reads. by intros x ?%elem_of_nil.
    - by intros x ?%elem_of_nil. }
  induction (collect_spill_reads _) as [|x xs IH]; [done|]. simpl. rewrite H by left. simpl.
  apply IH. intros y Hy. apply H. by right.
Qed.

(** ** Builders *)

(** A builder for values, with at most [N] statements left. *)
Definition builds (m : SsaValue -> Planning CoreExpr) (N : nat) : Prop :=
  forall v consumed c, c <= N -> c <= length (stmts b) -> length consumed = length (stmts b) ->
  known v -> exists e c' consumed' cons mats,
    m v (consumed, c) = Ok (e, (consumed', c')) /\ marked consumed consumed' c' c /\
    built p (take c (stmts b)) v e (take c' (stmts b)) cons mats.

Lemma build_values_builds m N : builds m N -> forall vs consumed c,
  c <= N -> c <= length (stmts b) -> length consumed = length (stmts b) -> Forall known vs ->
  exists es c' consumed' cons mats,
    build_values m vs (consumed, c) = Ok (es, (consumed', c')) /\ marked consumed consumed' c' c /\
    built_all p (take c (stmts b)) vs es (take c' (stmts b)) cons mats.
Proof.
  intros Hm vs consumed c HN Hc Hl. induction vs as [|v vs IH]; intros Hk; simpl.
  { exists [], c, consumed, [], []. split_and!; [done|apply marked_refl|constructor]. }
  apply Forall_cons in Hk as [Hv Hk]. destruct (IH Hk) as (es & c1 & l1 & k1 & m1 & Hes & Hm1 & Hb1).
  unfold plan_bind at 1. rewrite Hes. simpl. destruct Hm1 as (Hle & Hlen & Hmk).
  destruct (Hm v l1 c1) as (e & c2 & l2 & k2 & m2 & He & Hm2 & Hb2); [lia|lia|congruence|done|].
  unfold plan_bind. rewrite He. simpl. exists (e :: es), c2, l2, (k2 ++ k1), (m2 ++ m1).
  split_and!; [done| |by econstructor]. by eapply marked_trans; [split_and!|].
Qed.

Lemma call_rebuild module f args kwargs sm km es ks span :
  length es = length args -> length ks = length kwargs ->
  rebuild (convert_gate p) (Call module f args kwargs sm km) (es ++ ks) span =
    match module with
    | Some module => Some (Expr_ModuleCall module f es (zip (map fst kwargs) ks) sm km span)
    | None =>
        match numeric_convert_target (convert_gate p) f (length es)
                (Nat.eqb (length (zip (map fst kwargs) ks)) 0) sm km, es with
        | Some target, [e] => Some (Expr_Convert target e span)
        | _, _ => Some (Expr_Call f es (zip (map fst kwargs) ks) sm km span)
        end
    end.
Proof. intros H1 H2. simpl. by rewrite take_app_length', drop_app_length'. Qed.

Lemma convert_arity gate f n kw sm km t : numeric_convert_target gate f n kw sm km = Some t -> n = 1.
Proof. unfold numeric_convert_target. destruct (Nat.eqb_spec n 1); [done|]. done. Qed.

(** The right operand of a short-circuit operator is read, not rebuilt. *)
Lemma right_here s bop l r c e before' cons mats :
  s ∈ stmts b -> stmt_op s = Binary bop l r -> is_short_circuit bop = true ->
  built p (take c (stmts b)) r e before' cons mats -> exists span, e = materialize p r span.
Proof.
  intros Hs Hop Hsc Hbt. inversion Hbt as [|before t es ? ? ? ? ? ? ? Hi]; subst; [by eexists|].
  exfalso. pose proof (pn_right _ Hpn i b s Hb Hs) as Hr. rewrite Hop in Hr. simpl in Hr.
  rewrite Hsc in Hr. simpl in Hr. rewrite forallb_forall in Hr.
  assert (t ∈ stmts b) as Ht%list_elem_of_In.
  { rewrite <- (take_drop c (stmts b)). apply elem_of_app. left.
    match goal with He : _ ++ [t] = _ |- _ => rewrite <- He end. set_solver. }
  apply Hr in Ht. rewrite Nat.eqb_refl, orb_false_r in Ht. by destruct (stmt_op t).
Qed.

Lemma build_binary_builds (build : SsaValue -> Planning CoreExpr) N s bop l r consumed c :
  builds build N -> s ∈ stmts b -> stmt_op s = Binary bop l r ->
  c <= N -> c <= length (stmts b) -> length consumed = length (stmts b) ->
  exists e1 e2 c' consumed' cons mats,
    (let? x := build r (consumed, c) in
     let? _ := (if is_short_circuit bop then check_short_circuit_right p i x.1 else Ok tt) in
     let? y := build l x.2 in Ok (y.1, x.1, y.2)) = Ok (e1, e2, (consumed', c')) /\
    marked consumed consumed' c' c /\
    built_all p (take c (stmts b)) [l; r] [e1; e2] (take c' (stmts b)) cons mats /\
    right_atomic p (Binary bop l r) [e1; e2].
Proof.
  intros Hm Hs Hop HN Hc Hl.
  assert (Forall known [l; r]) as [Hkl [Hkr _]%Forall_cons]%Forall_cons.
  { apply Forall_forall. intros v Hv. apply (operands_known s); [done|by rewrite Hop]. }
  destruct (Hm r consumed c HN Hc Hl Hkr) as (e2 & c1 & l1 & k1 & m1 & -> & Hm1 & Hb1). simpl.
  assert ((if is_short_circuit bop then check_short_circuit_right p i e2 else Ok tt) = Ok tt) as ->.
  { destruct (is_short_circuit bop) eqn:Hsc; [|done].
    destruct (right_here s bop l r c e2 _ _ _ Hs Hop Hsc Hb1) as [span ->].
    by apply (check_right_passes s bop l). }
  simpl. pose proof Hm1 as (Hle & Hlen & _).
  destruct (Hm l l1 c1) as (e1 & c2 & l2 & k2 & m2 & -> & Hm2 & Hb2); [lia|lia|congruence|done|].
  exists e1, e2, c2, l2, (k2 ++ k1), (m2 ++ m1). simpl. split_and!; [done|by eapply marked_trans| |].
  - econstructor; [|exact Hb2]. rewrite <- (app_nil_r m1), <- (app_nil_r k1).
    econstructor; [constructor|done].
  - intros Hsc. destruct (right_here s bop l r c e2 _ _ _ Hs Hop Hsc Hb1) as [span ->].
    by exists e1, span.
Qed.

Lemma build_call_builds (build : SsaValue -> Planning CoreExpr) N args kwargs consumed c :
  builds build N -> Forall known (args ++ kwargs) ->
  c <= N -> c <= length (stmts b) -> length consumed = length (stmts b) ->
  exists es ks c1 consumed1 c' consumed' cons mats,
    build_values build kwargs (consumed, c) = Ok (ks, (consumed1, c1)) /\
    build_values build args (consumed1, c1) = Ok (es, (consumed', c')) /\
    marked consumed consumed' c' c /\ length es = length args /\ length ks = length kwargs /\
    built_all p (take c (stmts b)) (args ++ kwargs) (es ++ ks) (take c' (stmts b)) cons mats.
Proof.
  intros Hm [Ha Hk]%Forall_app HN Hc Hl.
  destruct (build_values_builds build N Hm kwargs consumed c HN Hc Hl Hk)
    as (ks & c1 & l1 & k1 & m1 & Hks & Hm1 & Hb1). pose proof Hm1 as (Hle & Hlen & _).
  destruct (build_values_builds build N Hm args l1 c1 ltac:(lia) ltac:(lia) ltac:(congruence) Ha)
    as (es & c2 & l2 & k2 & m2 & Hes & Hm2 & Hb2).
  exists es, ks, c1, l1, c2, l2, (k2 ++ k1), (m2 ++ m1). split_and!; [done|done|by eapply marked_trans|..].
  - by apply (proj2 (built_suffix p)) in Hb2 as [_ ?].
  - by apply (proj2 (built_suffix p)) in Hb1 as [_ ?].
  - by eapply built_all_app.
Qed.

Lemma build_op_expr_builds build N s consumed c :
  (forall span, builds (build span) N) -> s ∈ stmts b -> is_inline_op (stmt_op s) = true ->
  c <= N -> c <= length (stmts b) -> length consumed = length (stmts b) ->
  exists e c' consumed' es cons mats,
    build_op_expr p i build s (consumed, c) = Ok (e, (consumed', c')) /\
    marked consumed consumed' c' c /\
    built_all p (take c (stmts b)) (operands (stmt_op s)) es (take c' (stmts b)) cons mats /\
    rebuild (convert_gate p) (stmt_op s) es (stmt_span s) = Some e /\
    right_atomic p (stmt_op s) es.
Proof.
  intros Hbuild Hs Hi HN Hc Hl.
  assert (Forall known (operands (stmt_op s))) as Hk
    by (apply Forall_forall; intros v; by apply operands_known).
  pose proof (fun vs => build_values_builds (build (stmt_span s)) N (Hbuild (stmt_span s)) vs) as Hvs.
  unfold build_op_expr. destruct (stmt_op s) as [|op x|op l r|m f xs kws sm km|n xs|n| | | |] eqn:Hop; try done.
  - destruct (Hvs [x] consumed c HN Hc Hl Hk) as (es & c' & l' & k & m & Hes & Hm & Hbt).
    cbn [build_values] in Hes. unfold plan_bind, plan_ret in *. simpl in Hes.
    destruct (build (stmt_span s) x (consumed, c)) as [[e st]|]; [|done]. simpl in *.
    injection Hes as <- ->. exists (Expr_UnaryOp op e (stmt_span s)), c', l', [e], k, m. by split_and!.
  - destruct (build_binary_builds (build (stmt_span s)) N s op l r consumed c (Hbuild _) Hs Hop HN Hc Hl)
      as (e1 & e2 & c' & l' & k & m & Hrun & Hm & Hbt & Hra).
    exists (Expr_BinaryOp op e1 e2 (stmt_span s)), c', l', [e1; e2], k, m. split_and!; try done.
    revert Hrun. unfold plan_bind, plan_lift, plan_ret.
    destruct (build (stmt_span s) r (consumed, c)) as [[x st]|]; simpl; [|done].
    destruct (is_short_circuit op); [destruct (check_short_circuit_right p i x); simpl; [|done]|simpl];
      (destruct (build (stmt_span s) l st) as [[y st']|]; simpl; [|done]); by intros [= -> -> ->].
  - destruct (build_call_builds (build (stmt_span s)) N xs (map snd kws) consumed c (Hbuild _) Hk HN Hc Hl)
      as (es & ks & c1 & l1 & c' & l' & k & mats & Hks & Hes & Hm & Hle & Hlk & Hbt).
    rewrite length_map in Hlk. unfold plan_bind. rewrite Hks. simpl. rewrite Hes. simpl.
    pose proof (call_rebuild m f xs kws sm km es ks (stmt_span s) Hle Hlk) as Hre.
    destruct m as [m|]; [by eexists _, c', l', (es ++ ks), k, mats|].
    destruct (numeric_convert_target _ _ _ _ _ _) as [t|] eqn:Ht;
      [|by eexists _, c', l', (es ++ ks), k, mats].
    apply convert_arity in Ht. destruct es as [|e [|]]; try done.
    by eexists _, c', l', ([e] ++ ks), k, mats.
  - destruct (Hvs xs consumed c HN Hc Hl Hk) as (es & c' & l' & k & m' & Hes & Hm & Hbt).
    unfold plan_bind, plan_ret. rewrite Hes. simpl.
    exists (Expr_Builtin n es (stmt_span s)), c', l', es, k, m'. by split_and!.
  - exists (Expr_Var n (stmt_span s)), c, consumed, [], [], [].
    split_and!; [done|apply marked_refl|constructor|done|done].
Qed.

(** The fuel of [build_value] is the cursor at least. *)
Lemma build_value_builds fuel span : builds (build_value p i b fuel span) fuel.
Proof.
  revert span. induction fuel as [|fuel IH]; intros span v consumed c HN Hc Hl Hk.
  all: assert (exists e c' consumed' cons mats,
      Ok (materialize p v span, (consumed, c)) = @Ok PlanError _ (e, (consumed', c')) /\
      marked consumed consumed' c' c /\
      built p (take c (stmts b)) v e (take c' (stmts b)) cons mats) as Hhere
    by (exists (materialize p v span), c, consumed, [], (def_ids [v]);
        split_and!; [done|apply marked_refl|constructor]).
  all: destruct v as [id|k|lit]; simpl; try exact Hhere.
  all: destruct Hk as [[d k] Hsite]; rewrite Hsite; simpl.
  all: destruct (Nat.eqb_spec d i) as [->|]; [|exact Hhere]; simpl.
  all: pose proof Hsite as (b' & s & Hb' & Hs & Hid)%(an_sites _ _ Han).
  all: rewrite Hb in Hb'; injection Hb' as <-.
  all: unfold index at 1; rewrite Hs; simpl.
  all: unfold inlinable; destruct (_ && _) eqn:Hin; [|exact Hhere].
  all: rewrite !andb_true_iff, !Nat.eqb_eq in Hin; simpl in Hin;
    destruct Hin as ((((_ & Hcur) & Huse) & _) & Hinl).
  { lia. }
  assert (c = S k) as -> by lia. clear Hcur.
  pose proof (list_elem_of_lookup_2 _ _ _ Hs) as Hsb.
  destruct (build_op_expr_builds (build_value p i b fuel) fuel s (<[k := true]> consumed) k IH Hsb Hinl)
    as (e & c' & l' & es & cons & mats & Hrun & Hm & Hbt & Hre & Hra); [lia|lia|by rewrite length_insert|].
  exists e, c', l', (cons ++ [s]), mats. split_and!; [exact Hrun| |].
  - eapply marked_trans; [apply marked_insert|done].
  - rewrite (take_S_r _ _ _ Hs), <- Hid. econstructor; try done.
    by rewrite Hid.
Qed.
End Trees.

(** * The plan of a block

    The roots of a block cut its statements into trees, the terminator takes the
    last of them, and every use of a definition is a read of its slot or the place
    where it is consumed ([built_block_counts]). *)

Section Relation.
Context {C : CoreTypes}.
Variable p : Planner.

Definition built_root (before : list SsaStatement) (s : SsaStatement) (r : SharedRootPlan)
    (before' cons : list SsaStatement) (mats : list SsaValueId) : Prop :=
  match stmt_op s with
  | StoreGlobal name v => exists e, built p before v e before' cons mats /\
      r = Assign name e (stmt_span s)
  | op => exists es e, built_all p before (operands op) es before' cons mats /\
      rebuild (convert_gate p) op es (stmt_span s) = Some e /\ right_atomic p op es /\
      is_inline_op op = true /\
      r = if Nat.ltb 0 (use_count p (stmt_id s))
          then Assign (spill_name p (stmt_id s)) e (stmt_span s) else Discard e (stmt_span s)
  end.

Inductive built_roots : list SsaStatement -> list SharedRootPlan -> list SsaStatement ->
    list SsaValueId -> Prop :=
  | roots_nil : built_roots [] [] [] []
  | roots_phi before s rs cons mats :
      is_phi (stmt_op s) = true -> built_roots before rs cons mats ->
      built_roots (before ++ [s]) rs cons mats
  | roots_root before s r before' k m rs cons mats :
      is_phi (stmt_op s) = false -> built_root before s r before' k m ->
      built_roots before' rs cons mats ->
      built_roots (before ++ [s]) (rs ++ [r]) (cons ++ k) (mats ++ m).

(** The copies of an edge that are left. *)
Definition kept_pairs (i t : BlockId) : list (SsaValueId * SsaValue) :=
  match edge_copies p !! (i, t) with Some (cs, _) => cs | None => [] end.

Definition edge_ids (i t : BlockId) : list SsaValueId := def_ids (kept_pairs i t).*2.

Definition plain_copies (i t : BlockId) (span : CoreSpan) : list SharedCopyPlan :=
  match edge_copies p !! (i, t) with
  | None => []
  | Some (cs, true) => staged_copies p cs span
  | Some (cs, false) => map (fun c => slot_copy span c.1 (materialize p c.2 span)) cs
  end.

Inductive built_term (i : BlockId) (span : CoreSpan) (before : list SsaStatement) : Terminator ->
    SharedTermPlan -> list SsaStatement -> list SsaStatement -> list SsaValueId -> Prop :=
  | term_return_none : built_term i span before (Return None) (ReturnPlan None) before [] []
  | term_return v e before' k m :
      built p before v e before' k m ->
      built_term i span before (Return (Some v)) (ReturnPlan (Some e)) before' k m
  | term_branch c t u e before' k m :
      built p before c e before' k m ->
      built_term i span before (Branch c t u)
        (BranchPlan e t u (plain_copies i t span) (plain_copies i u span)) before' k
        (m ++ (targets (Branch c t u) ≫= edge_ids i))
  | term_jump t :
      built_term i span before (Jump t) (JumpPlan t (plain_copies i t span)) before [] (edge_ids i t)
  | term_jump_inline t phi v e before' k m :
      edge_copies p !! (i, t) = Some ([(phi, v)], false) -> built p before v e before' k m ->
      built_term i span before (Jump t) (JumpPlan t [slot_copy span phi e]) before' k m.

Definition built_block (i : BlockId) (b : SsaBlock) (pb : SharedBlockPlan)
    (cons : list SsaStatement) (mats : list SsaValueId) : Prop :=
  exists before' kt mt kr mr,
    built_term i (block_span p b) (stmts b) (terminator b) (plan_terminator pb) before' kt mt /\
    built_roots before' (roots pb) kr mr /\ cons = kr ++ kt /\ mats = mr ++ mt.

(** ** Every use is accounted for *)

Lemma built_root_counts before s r before' cons mats x :
  built_root before s r before' cons mats ->
  before = before' ++ cons /\
  count mats x + count (stmt_ids cons) x =
    count (def_ids (operands (stmt_op s))) x + count (operand_ids cons) x.
Proof.
  unfold built_root. intros H. pose proof (built_suffix p) as [Hsuf Hsufs].
  pose proof (built_counts p x) as [Hc Hcs].
  destruct (stmt_op s);
    try (destruct H as (es & e & Hb & _); split; [by apply Hsufs in Hb as [? _]|by apply Hcs in Hb]).
  destruct H as (e & Hb & _). split; [by apply Hsuf in Hb|by apply Hc in Hb].
Qed.

Lemma built_roots_counts before rs cons mats x :
  built_roots before rs cons mats ->
  count mats x + count (stmt_ids cons) x <= count (operand_ids before) x.
Proof.
  induction 1 as [|before s rs cons mats Hp _ IH|before s r before' k m rs cons mats Hp Hr _ IH]; [simpl; lia|..].
  - rewrite operand_ids_app, count_occ_app. lia.
  - apply (built_root_counts _ _ _ _ _ _ x) in Hr as [-> Hr].
    rewrite stmt_ids_app, !operand_ids_app, !count_occ_app. csimpl. rewrite app_nil_r. lia.
Qed.

Lemma operand_ids_block (b : SsaBlock) x :
  count (block_ids b) x =
    count (operand_ids (stmts b)) x + count (def_ids (term_operands (terminator b))) x.
Proof.
  unfold block_ids. rewrite def_ids_app, count_occ_app. f_equal. f_equal. unfold operand_ids.
  induction (stmts b) as [|s l IH]; [done|]. csimpl. by rewrite def_ids_app, IH.
Qed.

Lemma built_term_counts i span before t pt before' cons mats x :
  built_term i span before t pt before' cons mats ->
  before = before' ++ cons /\
  count mats x + count (stmt_ids cons) x <=
    count (def_ids (term_operands t)) x + count (operand_ids cons) x +
    count (targets t ≫= edge_ids i) x.
Proof.
  pose proof (built_suffix p) as [Hsuf _]. pose proof (built_counts p x) as [Hc _].
  intros [|v e ? k m Hb|c u u' e ? k m Hb|u|u phi v e ? k m He Hb]; simpl term_operands.
  - rewrite app_nil_r. split; [done|simpl; lia].
  - split; [by apply Hsuf in Hb|]. apply Hc in Hb. lia.
  - split; [by apply Hsuf in Hb|]. apply Hc in Hb. rewrite count_occ_app. lia.
  - rewrite app_nil_r. split; [done|]. csimpl. rewrite app_nil_r. simpl. lia.
  - split; [by apply Hsuf in Hb|]. apply Hc in Hb. csimpl. rewrite app_nil_r.
    assert (edge_ids i u = def_ids [v]) as -> by (unfold edge_ids, kept_pairs; by rewrite He).
    simpl in *. lia.
Qed.

Lemma built_block_counts i b pb cons mats x :
  built_block i b pb cons mats ->
  count mats x + count (stmt_ids cons) x <=
    count (block_ids b) x + count (targets (terminator b) ≫= edge_ids i) x.
Proof.
  intros (before' & kt & mt & kr & mr & Ht & Hr & -> & ->).
  apply (built_term_counts _ _ _ _ _ _ _ _ x) in Ht as [Hs Ht].
  apply (built_roots_counts _ _ _ _ x) in Hr.
  rewrite operand_ids_block, Hs, operand_ids_app, stmt_ids_app, !count_occ_app. lia.
Qed.

Lemma built_roots_consumable before rs cons mats :
  built_roots before rs cons mats -> Forall (consumable p) cons.
Proof.
  induction 1 as [|before s rs cons mats Hp _ IH|before s r before' k m rs cons mats Hp Hr _ IH]; [done|done|].
  apply Forall_app. split; [done|]. pose proof (built_consumable p) as [Hc Hcs].
  unfold built_root in Hr. destruct (stmt_op s);
    try (destruct Hr as (es & e & Hb & _); by apply Hcs in Hb).
  destruct Hr as (e & Hb & _). by apply Hc in Hb.
Qed.

Lemma built_block_consumable i b pb cons mats :
  built_block i b pb cons mats -> Forall (consumable p) cons.
Proof.
  intros (before' & kt & mt & kr & mr & Ht & Hr & -> & ->). apply Forall_app.
  split; [by eapply built_roots_consumable|]. pose proof (built_consumable p) as [Hc _].
  inversion Ht; subst; first [constructor|by eapply Hc].
Qed.
End Relation.

(** ** The planner plans every block *)

Section Total.
Context {C : CoreTypes}.
Variable func : SsaFunction.
Variable p : Planner.
Hypothesis Hwf : well_formed func.
Hypothesis Hpn : plannable func.
Hypothesis Han : analysed func p.

Variable i : BlockId.
Variable b : SsaBlock.
Hypothesis Hb : block func i = Some b.

Lemma build_total span v consumed c :
  c <= length (stmts b) -> length consumed = length (stmts b) -> known p v ->
  exists e c' consumed' cons mats,
    build p i b span v (consumed, c) = Ok (e, (consumed', c')) /\ marked consumed consumed' c' c /\
    built p (take c (stmts b)) v e (take c' (stmts b)) cons mats.
Proof. intros Hc Hl Hk. by apply (build_value_builds func p Hwf Hpn Han i b Hb c span v consumed c). Qed.

Lemma inline_root s :
  s ∈ stmts b -> is_phi (stmt_op s) = false -> is_store (stmt_op s) = false ->
  is_inline_op (stmt_op s) = true.
Proof.
  intros Hs Hp Hst. pose proof (pn_opaque _ Hpn s (block_stmts func i b s Hb Hs)) as Ho.
  by destruct (stmt_op s).
Qed.

Lemma plan_root_total s consumed c :
  s ∈ stmts b -> is_phi (stmt_op s) = false -> c <= length (stmts b) ->
  length consumed = length (stmts b) ->
  exists r c' consumed' cons mats,
    plan_root p i b s (consumed, c) = Ok (r, (consumed', c')) /\ marked consumed consumed' c' c /\
    built_root p (take c (stmts b)) s r (take c' (stmts b)) cons mats.
Proof.
  intros Hs Hp Hc Hl. destruct (is_store (stmt_op s)) eqn:Hst.
  - unfold plan_root, built_root. pose proof (operands_known func p Hpn Han i b Hb s) as Hk.
    destruct (stmt_op s) as [| | | | | |name v| | |] eqn:Hop; try done.
    destruct (build_total (stmt_span s) v consumed c Hc Hl) as (e & c' & l' & k & m & He & Hm & Hbt).
    { apply Hk; [done|]. left. }
    unfold plan_bind, plan_ret. rewrite He. simpl. exists (Assign name e (stmt_span s)), c', l', k, m.
    split_and!; [done|done|]. by exists e.
  - pose proof (inline_root s Hs Hp Hst) as Hi.
    destruct (build_op_expr_builds func p Hwf Hpn Han i b Hb (build_value p i b c) c s consumed c)
      as (e & c' & l' & es & k & m & He & Hm & Hbt & Hre & Hra); [|done|done|done|done|done|].
    { intros span. apply (build_value_builds func p Hwf Hpn Han i b Hb). }
    exists (if Nat.ltb 0 (use_count p (stmt_id s))
            then Assign (spill_name p (stmt_id s)) e (stmt_span s) else Discard e (stmt_span s)), c', l', k, m.
    unfold plan_root, built_root, plan_bind, plan_ret. simpl in He.
    destruct (stmt_op s) eqn:Hop; try done;
      (split_and!; [simpl; rewrite He; simpl; by destruct (0 <? _)|done|by exists es, e]).
Qed.

Lemma plan_roots_total idx consumed f :
  f <= idx -> idx <= length (stmts b) -> length consumed = length (stmts b) ->
  (forall j, j < f -> consumed !! j = Some false) ->
  (forall j, f <= j < idx -> consumed !! j = Some true) ->
  exists rs cons mats, plan_roots p i b idx consumed = Ok rs /\
    built_roots p (take f (stmts b)) rs cons mats.
Proof.
  revert consumed f. induction idx as [|idx IH]; intros consumed f Hf Hidx Hl Hfalse Htrue; simpl.
  { assert (f = 0) as -> by lia. exists [], [], []. split; [done|constructor]. }
  destruct (lookup_lt_is_Some_2 (stmts b) idx) as [s Hs]; [lia|].
  unfold index. rewrite Hs. destruct (decide (f = S idx)) as [->|Hne].
  - rewrite Hfalse by lia. simpl. rewrite (take_S_r _ _ _ Hs).
    destruct (is_phi (stmt_op s)) eqn:Hp; simpl.
    + destruct (IH consumed idx) as (rs & k & m & Hrs & Hbr); [lia|lia|done|..].
      { intros j Hj. apply Hfalse. lia. }
      { intros j Hj. lia. }
      exists rs, k, m. split; [done|]. by constructor.
    + destruct (plan_root_total s consumed idx) as (r & c' & l' & k & m & Hr & (Hle & Hlen & Hmk) & Hbt);
        [by eapply list_elem_of_lookup_2|done|lia|done|].
      rewrite Hr. simpl. destruct (IH l' c') as (rs & k' & m' & Hrs & Hbr); [lia|lia|congruence|..].
      { intros j Hj. rewrite Hmk, decide_False by lia. apply Hfalse. lia. }
      { intros j Hj. by rewrite Hmk, decide_True by lia. }
      rewrite Hrs. simpl. exists (rs ++ [r]), (k' ++ k), (m' ++ m). split; [done|].
      by eapply roots_root.
  - rewrite Htrue by lia. simpl. apply IH; [lia|lia|done|done|]. intros j Hj. apply Htrue. lia.
Qed.

Lemma plan_edge_plain t st :
  plan_edge_copies p i b t false st = Ok (plain_copies p i t (block_span p b), st).
Proof.
  unfold plan_edge_copies, plain_copies. rewrite (wf_ids _ Hwf i b Hb).
  destruct (edge_copies p !! (i, t)) as [[cs [|]]|]; [done| |done]. by destruct cs as [|[phi v] [|]].
Qed.

Lemma copy_known q t bt phi v :
  block func t = Some bt -> (phi, v) ∈ copies_of bt q -> known p v.
Proof.
  intros Hbt Hin. apply (known_values func p Hpn Han). by eapply copy_in_values.
Qed.

Lemma target_pred t : t ∈ targets (terminator b) -> exists bt, block func t = Some bt /\ i ∈ preds bt.
Proof.
  intros Ht. destruct (wf_targets _ Hwf i b t Hb Ht) as [bt Hbt]. exists bt. split; [done|].
  apply (pred_spec _ (well_formed_edges _ Hwf) t bt i Hbt). unfold edge, block_succs.
  by rewrite Hb, (wf_succs _ Hwf i b Hb).
Qed.

Lemma plan_jump_total t consumed :
  terminator b = Jump t -> length consumed = length (stmts b) ->
  exists cs c' consumed' cons mats,
    plan_edge_copies p i b t true (consumed, length (stmts b)) = Ok (cs, (consumed', c')) /\
    marked consumed consumed' c' (length (stmts b)) /\
    built_term p i (block_span p b) (stmts b) (Jump t) (JumpPlan t cs) (take c' (stmts b)) cons mats.
Proof.
  intros Ht Hl. unfold plan_edge_copies. rewrite (wf_ids _ Hwf i b Hb).
  destruct (target_pred t) as (bt & Hbt & Hp); [rewrite Ht; left|].
  pose proof (an_copies _ _ Han i t bt Hbt Hp) as Hcopies.
  assert (exists cs c' consumed' cons mats,
    Ok (plain_copies p i t (block_span p b), (consumed, length (stmts b))) =
      @Ok PlanError _ (cs, (consumed', c')) /\
    marked consumed consumed' c' (length (stmts b)) /\
    built_term p i (block_span p b) (stmts b) (Jump t) (JumpPlan t cs) (take c' (stmts b)) cons mats)
    as Hplain.
  { exists (plain_copies p i t (block_span p b)), (length (stmts b)), consumed, [], (edge_ids p i t).
    split_and!; [done|apply marked_refl|]. rewrite firstn_all. constructor. }
  unfold plain_copies in Hplain at 1.
  destruct (edge_copies p !! (i, t)) as [[cs [|]]|] eqn:He; [exact Hplain| |exact Hplain].
  destruct cs as [|[phi v] [|c2 cs]]; [exact Hplain| |exact Hplain].
  destruct Hcopies as [_ Hcs]. assert (known p v) as Hk.
  { eapply (copy_known i t bt phi); [done|].
    assert ((phi, v) ∈ [(phi, v)]) as Hin by left. rewrite Hcs in Hin.
    by apply list_elem_of_filter in Hin as [_ ?]. }
  destruct (build_total (block_span p b) v consumed (length (stmts b)) ltac:(lia) Hl Hk)
    as (e & c' & l' & k & m & Hrun & Hm & Hbt').
  unfold plan_bind, plan_ret. rewrite Hrun. simpl.
  exists [slot_copy (block_span p b) phi e], c', l', k, m. split_and!; [done|done|].
  rewrite firstn_all in Hbt'. by eapply term_jump_inline.
Qed.

Lemma term_known v : v ∈ term_operands (terminator b) -> known p v.
Proof.
  intros Hv. apply (known_values func p Hpn Han). apply list_elem_of_bind. exists b.
  split; [|by apply list_elem_of_lookup_2 in Hb]. apply elem_of_app. by right.
Qed.

Lemma plan_term_total consumed :
  length consumed = length (stmts b) ->
  exists pt c' consumed' cons mats,
    plan_term p i b (consumed, length (stmts b)) = Ok (pt, (consumed', c')) /\
    marked consumed consumed' c' (length (stmts b)) /\
    built_term p i (block_span p b) (stmts b) (terminator b) pt (take c' (stmts b)) cons mats.
Proof.
  intros Hl. unfold plan_term. pose proof term_known as Hk.
  pose proof (fun v => build_total (block_span p b) v consumed (length (stmts b)) ltac:(lia) Hl) as Hbuild.
  rewrite firstn_all in Hbuild. destruct (terminator b) as [t|c t u|[v|]] eqn:Ht; unfold plan_bind, plan_ret.
  - destruct (plan_jump_total t consumed Ht Hl) as (cs & c' & l' & k & m & Hrun & Hm & Hbt).
    rewrite Hrun. simpl. by eexists _, c', l', k, m.
  - destruct (Hbuild c) as (e & c' & l' & k & m & Hrun & Hm & Hbt); [apply Hk; left|].
    rewrite Hrun. simpl. rewrite plan_edge_plain. simpl. rewrite plan_edge_plain. simpl.
    eexists _, c', l', k, _. split_and!; [done|done|]. by apply term_branch.
  - destruct (Hbuild v) as (e & c' & l' & k & m & Hrun & Hm & Hbt); [apply Hk; left|].
    rewrite Hrun. simpl. eexists _, c', l', k, m. split_and!; [done|done|]. by apply term_return.
  - eexists _, _, consumed, [], []. split_and!; [done|apply marked_refl|].
    rewrite firstn_all. constructor.
Qed.

Lemma plan_block_total :
  exists pb cons mats, plan_block p i b = Ok pb /\ built_block p i b pb cons mats.
Proof.
  unfold plan_block. destruct (plan_term_total (replicate (length (stmts b)) false))
    as (pt & c' & l' & kt & mt & Hrun & (Hle & Hlen & Hmk) & Hbt); [apply length_replicate|].
  rewrite length_replicate in Hlen, Hmk. rewrite Hrun. simpl.
  destruct (plan_roots_total c' l' c') as (rs & kr & mr & Hrs & Hbr); [done|done|done| |intros j ?; lia|].
  { intros j Hj. rewrite Hmk, decide_False by lia. apply lookup_replicate_2. lia. }
  rewrite Hrs. simpl. exists {| roots := rs; plan_terminator := pt |}, (kr ++ kt), (mr ++ mt).
  split; [done|]. by exists (take c' (stmts b)), kt, mt, kr, mr.
Qed.
End Total.
