(* ===== verification/PlanTreeSem.v ===== *)
(** * Evaluating a tree

    Where the slots of a tree hold the values of their definitions, evaluating the
    tree does what executing the statements that it consumed does, in the same
    order, and gives the value that it stands for ([eval_built]). *)

From S2P Require Export PlanBlocks.

Section TreeSem.
Context {C : CoreTypes} {SM : Semantics}.
Variable func : SsaFunction.
Variable p : Planner.
Variable args : list Val.
Variable other : gmap string Val -> CoreExpr -> World -> result (Outcome Val World Exn) (Val * World).
Hypothesis Hpn : plannable func.
Hypothesis Hssa : ssa p = func.
Hypothesis Hargs : length args = length (fn_params func).
Hypothesis Hshort : short_circuits.

Abbreviation eval := (eval_expr (param_names func) other).
Abbreviation Env := (gmap SsaValueId Val).
Abbreviation Locals := (gmap string Val).

(** ** Locals *)

Definition params_ok (locals : Locals) : Prop :=
  forall k name, param_names func !! k = Some name -> locals !! name = args !! k.

Definition slot_ok (locals : Locals) (env : Env) (y : SsaValueId) : Prop :=
  exists v, env !! y = Some v /\ locals !! spill_name p y = Some v.

Lemma spill_synthetic y : is_synthetic (spill_name p y) = true.
Proof. unfold spill_name. destruct (coalesced p !! y); apply slot_synthetic. Qed.

Lemma synthetic_local name : is_synthetic name = true -> is_local (param_names func) name = true.
Proof. unfold is_local. by intros ->. Qed.

Lemma params_insert locals name v :
  is_synthetic name = true -> params_ok locals -> params_ok (<[name := v]> locals).
Proof.
  intros Hn Hp k param Hk. rewrite lookup_insert_ne; [by apply Hp|]. intros ->.
  apply list_elem_of_lookup_2, (pn_param_names _ Hpn) in Hk. congruence.
Qed.

(** A value that is not a slot can be read. *)
Definition arg_ok (v : SsaValue) : Prop :=
  match v with Argument k => is_Some (args !! k) | _ => True end.

Lemma arg_known v : v ∈ all_values func -> arg_ok v.
Proof.
  intros Hv%(pn_known _ Hpn). destruct v as [x|k|lit]; [done| |done]. simpl in *.
  apply lookup_lt_is_Some. rewrite Hargs. by apply Nat.ltb_lt.
Qed.

Lemma eval_materialize locals env v span :
  params_ok locals -> arg_ok v -> (forall y, y ∈ def_ids [v] -> slot_ok locals env y) ->
  exists u, read args env v = Some u /\
    forall w, eval locals (materialize p v span) w = Ok (u, w).
Proof.
  intros Hp Ha Hs. destruct v as [y|k|lit]; simpl in *.
  - destruct (Hs y) as (u & Hy & Hl); [left|]. exists u.
    split; [done|]. intros w. by rewrite (synthetic_local _ (spill_synthetic y)), Hl.
  - destruct Ha as [u Hu]. exists u. split; [done|]. unfold param_name_at. rewrite Hssa.
    assert (k < length (fn_params func)) as [param Hk]%lookup_lt_is_Some_2
      by (rewrite <- Hargs; by eapply lookup_lt_Some).
    rewrite Hk. assert (param_names func !! k = Some (param_name param)) as Hk'.
    { unfold param_names. by rewrite list_lookup_fmap, Hk. }
    unfold is_local. rewrite (bool_decide_true (_ ∈ _)) by by eapply list_elem_of_lookup_2.
    intros w. by rewrite orb_true_r, (Hp k _ Hk'), Hu.
  - by eexists.
Qed.

(** Reading a variable does nothing else. *)
Lemma eval_materialize_world locals v span w :
  params_ok locals -> arg_ok v ->
  match eval locals (materialize p v span) w with
  | Ok (_, w') => w' = w
  | Err o => ~ not_undefined o
  end.
Proof.
  intros Hp Ha. destruct v as [y|k|lit]; [|..|done].
  - simpl. rewrite (synthetic_local _ (spill_synthetic y)).
    destruct (locals !! spill_name p y); [done|]. simpl. tauto.
  - destruct (eval_materialize locals ∅ (Argument k) span Hp Ha) as (u & _ & Hev); [|by rewrite Hev].
    by intros y ?%elem_of_nil.
Qed.

(** ** Operations *)

Lemma eval_list_app {A} (f : A -> World -> result (Outcome Val World Exn) (Val * World)) es ks w :
  eval_list f (es ++ ks) w =
    (let? (vs, w) := eval_list f es w in let? (us, w) := eval_list f ks w in Ok (vs ++ us, w)).
Proof.
  revert w. induction es as [|e es IH]; intros w; simpl.
  { by destruct (eval_list f ks w) as [[us w']|]. }
  destruct (f e w) as [[v w']|]; simpl; [|done]. rewrite IH.
  destruct (eval_list f es w') as [[vs w2]|]; simpl; [|done].
  by destruct (eval_list f ks w2) as [[us w3]|].
Qed.

Lemma eval_list_kwargs locals (names : list string) ks w :
  length names = length ks ->
  eval_list (fun kw : string * CoreExpr => eval locals kw.2) (zip names ks) w =
    eval_list (eval locals) ks w.
Proof.
  revert names w. induction ks as [|k ks IH]; intros [|n names] w Hl; simpl in *; try done.
  destruct (eval locals k w) as [[v w']|]; simpl; [|done]. rewrite IH by lia. done.
Qed.

Lemma call_op_shape module f (xs : list SsaValue) kws sm km es ks :
  length es = length xs -> length ks = length kws ->
  call_op module f es (zip (map fst kws) ks) sm km = shape (Call module f xs kws sm km).
Proof.
  intros Hes Hks. unfold call_op, shape. cbn [operands_mut]. f_equal.
  - revert xs Hes. induction es as [|e es IH]; intros [|x xs] H; simpl in *; try done.
    f_equal. apply IH. lia.
  - revert kws Hks. induction ks as [|k ks IH]; intros [|[n v] kws] H; simpl in *; try done.
    f_equal. apply IH. lia.
Qed.

Lemma convert_shape gate f (x : SsaValue) kws (ks : list CoreExpr) sm km t :
  length ks = length kws ->
  numeric_convert_target gate f 1 (Nat.eqb (length (zip (map fst kws) ks)) 0) sm km = Some t ->
  kws = [] /\ ks = [] /\
  shape (Call None f [x] kws sm km) = Call None (convert_function t) [Argument 0] [] [] [].
Proof.
  intros Hl. unfold numeric_convert_target. simpl.
  destruct (Nat.eqb_spec (length (zip (map fst kws) ks)) 0) as [Hz|]; [|done]. simpl.
  destruct (any_true sm) eqn:Hsm; [done|]. destruct (any_true km) eqn:Hkm; [done|]. simpl.
  destruct kws as [|[n v] kws], ks as [|k ks]; try done.
  unfold shape. cbn [operands_mut map]. rewrite !any_true_mask by done.
  destruct (String.eqb_spec f "Int64") as [->|_]; simpl.
  { destruct (gate_int64 gate); [by intros [= <-]|].
    destruct (String.eqb_spec "Int64" "Float64"); [done|]. done. }
  destruct (String.eqb_spec f "Float64") as [->|_]; simpl; [|done].
  destruct (gate_float64 gate); [by intros [= <-]|done].
Qed.

(** The operation over the values of its trees. *)
Definition after_operands (op : SsaOp) (r : result (Outcome Val World Exn) (list Val * World))
    : result (Outcome Val World Exn) (Val * World) :=
  match r with Ok (us, w) => performed (shape op) us w | Err o => Err o end.

Lemma eval_binary locals bop l r e1 e2 span w :
  right_atomic p (Binary bop l r) [e1; e2] -> params_ok locals -> arg_ok r ->
  (forall o, eval_list (eval locals) [e1; e2] w = Err o -> not_undefined o) ->
  eval locals (Expr_BinaryOp bop e1 e2 span) w =
    after_operands (Binary bop l r) (eval_list (eval locals) [e1; e2] w).
Proof.
  intros Hra Hp Ha Hr. simpl in *. destruct (eval locals e1 w) as [[a w1]|o]; simpl in *; [|done].
  destruct (decides_alone bop a) eqn:Hd.
  - assert (is_short_circuit bop = true) as (l' & sp & [= _ ->])%Hra.
    { unfold decides_alone in Hd. by destruct bop. }
    pose proof (eval_materialize_world locals r sp w1 Hp Ha) as Hw.
    destruct (eval locals (materialize p r sp) w1) as [[u w2]|o]; simpl in *.
    + subst w2. unfold performed, shape. simpl. by rewrite Hshort.
    + exfalso. by eapply Hw, Hr.
  - by destruct (eval locals e2 w1) as [[u w2]|o].
Qed.

(** The operands of a call, one list after the other. *)
Definition eval_both locals (ts ks : list CoreExpr) (w : World)
    : result (Outcome Val World Exn) (list Val * World) :=
  let? (vs, w) := eval_list (eval locals) ts w in
  let? (us, w) := eval_list (eval locals) ks w in Ok (vs ++ us, w).

Lemma eval_call locals m f (xs : list SsaValue) kws sm km ts ks span e w :
  length ts = length xs -> length ks = length kws ->
  rebuild (convert_gate p) (Call m f xs kws sm km) (ts ++ ks) span = Some e ->
  eval locals e w = after_operands (Call m f xs kws sm km) (eval_both locals ts ks w).
Proof.
  intros Hts Hks Hre. rewrite (call_rebuild p m f xs kws sm km ts ks span Hts Hks) in Hre.
  assert (length (map fst kws) = length ks) as Hn by by rewrite length_map.
  unfold eval_both. destruct m as [m|].
  { injection Hre as <-. simpl. destruct (eval_list (eval locals) ts w) as [[vs w1]|o]; simpl; [|done].
    rewrite eval_list_kwargs by done. destruct (eval_list (eval locals) ks w1) as [[us w2]|o]; simpl; [|done].
    by rewrite (call_op_shape (Some m) f xs). }
  destruct (numeric_convert_target _ _ _ _ _ _) as [t|] eqn:Ht.
  - pose proof (convert_arity _ _ _ _ _ _ _ Ht) as Ht1. destruct ts as [|e1 [|]]; try done.
    injection Hre as <-. destruct xs as [|x [|]]; try done.
    destruct (convert_shape _ f x kws ks sm km t Hks Ht) as (-> & -> & Hsh). simpl.
    destruct (eval locals e1 w) as [[v w1]|o]; simpl; [|done]. by rewrite Hsh.
  - injection Hre as <-. simpl. destruct (eval_list (eval locals) ts w) as [[vs w1]|o]; simpl; [|done].
    rewrite eval_list_kwargs by done. destruct (eval_list (eval locals) ks w1) as [[us w2]|o]; simpl; [|done].
    by rewrite (call_op_shape None f xs).
Qed.

Lemma eval_rebuild locals op es span e w :
  rebuild (convert_gate p) op es span = Some e -> right_atomic p op es -> length es = length (operands op) ->
  global_name_ok func op = true -> params_ok locals -> Forall arg_ok (operands op) ->
  (forall o, eval_list (eval locals) es w = Err o -> not_undefined o) ->
  eval locals e w = after_operands op (eval_list (eval locals) es w).
Proof.
  intros Hre Hra Hl Hg Hp Ha Hr. destruct op as [|uop x|bop l r|m f xs kws sm km|n xs|n| | | |]; try done.
  - destruct es as [|e1 [|]]; try done. injection Hre as <-. simpl.
    by destruct (eval locals e1 w) as [[v w']|].
  - destruct es as [|e1 [|e2 [|]]]; try done. injection Hre as <-.
    apply eval_binary; [done|done| |done]. by apply Forall_cons in Ha as [_ [? _]%Forall_cons].
  - simpl in Hl. rewrite length_app, length_map in Hl.
    rewrite <- (take_drop (length xs) es) in Hre, Hr |- *.
    set (ts := take (length xs) es) in *. set (ks := drop (length xs) es) in *.
    assert (length ts = length xs) as Hts by (unfold ts; rewrite length_take; lia).
    assert (length ks = length kws) as Hks by (unfold ks; rewrite length_drop; lia).
    rewrite eval_list_app. by eapply eval_call.
  - injection Hre as <-. simpl. assert (shape (Builtin n xs) = Builtin n (map (fun _ => Argument 0) es)) as Hsh.
    { unfold shape. cbn [operands_mut]. f_equal. simpl in Hl. clear -Hl. revert es Hl.
      induction xs as [|x xs IH]; intros [|e es] H; simpl in *; try done.
      f_equal. apply IH. lia. }
    unfold after_operands. rewrite Hsh. by destruct (eval_list (eval locals) es w) as [[vs w']|].
  - destruct es; [|done]. injection Hre as <-. simpl in *. apply negb_true_iff in Hg. by rewrite Hg.
Qed.

(** ** Trees *)

(** What executing the statements and reading a value gives. *)
Definition executed {A} (locals : Locals) (env : Env) (w : World) (l : list SsaStatement)
    (get : Env -> option A) (r : result (Outcome Val World Exn) (A * World)) : Prop :=
  match exec_stmts args env w l with
  | Ok (env', w') => exists u, get env' = Some u /\ r = Ok (u, w')
  | Err o => r = Err o /\ not_undefined o
  end.

Lemma exec_stmts_app env w l k :
  exec_stmts args env w (l ++ k) =
    match exec_stmts args env w l with
    | Ok (env', w') => exec_stmts args env' w' k
    | Err o => Err o
    end.
Proof.
  revert env w. induction l as [|s l IH]; intros env w; simpl; [done|].
  destruct (is_phi _); [apply IH|]. destruct (exec_op _ _ _ _) as [[v w']|]; [apply IH|done].
Qed.

Lemma exec_stmts_frame env w l env' w' x :
  exec_stmts args env w l = Ok (env', w') -> x ∉ stmt_ids l -> env' !! x = env !! x.
Proof.
  revert env w. induction l as [|s l IH]; intros env w; simpl; [by intros [= <- <-]|].
  intros H Hx. apply not_elem_of_cons in Hx as [Hne Hx].
  destruct (is_phi _); [by eapply IH|]. destruct (exec_op _ _ _ _) as [[v w1]|]; [|done].
  rewrite (IH _ _ H Hx). by rewrite lookup_insert_ne.
Qed.

(** The statements that a tree stands for. *)
Definition tree_stmt (s : SsaStatement) : Prop :=
  global_name_ok func (stmt_op s) = true /\ Forall arg_ok (operands (stmt_op s)).

(** The reads of a tree, before it is evaluated. *)
Record tree_ready (locals : Locals) (env : Env) (cons : list SsaStatement)
    (mats : list SsaValueId) : Prop := {
  tr_params : params_ok locals;
  tr_slots y : y ∈ mats -> slot_ok locals env y;
  tr_fresh y : y ∈ mats -> y ∉ stmt_ids cons;
  tr_unique : NoDup (stmt_ids cons);
  tr_stmts : Forall tree_stmt cons
}.

Lemma tree_ready_first locals env k2 k1 m2 m1 :
  tree_ready locals env (k2 ++ k1) (m2 ++ m1) -> tree_ready locals env k2 m2.
Proof.
  intros [H1 H2 H3 H4 H5]. rewrite stmt_ids_app in *. apply NoDup_app in H4 as (H4 & _ & _).
  apply Forall_app in H5 as [H5 _]. constructor; try done; set_solver.
Qed.

Lemma tree_ready_then locals env w env' w' k2 k1 m2 m1 :
  tree_ready locals env (k2 ++ k1) (m2 ++ m1) -> exec_stmts args env w k2 = Ok (env', w') ->
  tree_ready locals env' k1 m1.
Proof.
  intros [H1 H2 H3 H4 H5] He. rewrite stmt_ids_app in *. apply NoDup_app in H4 as (_ & _ & H4).
  apply Forall_app in H5 as [_ H5]. constructor; try done; [|set_solver].
  intros y Hy. destruct (H2 y) as (v & Hv & Hl); [set_solver|]. exists v. split; [|done].
  rewrite (exec_stmts_frame _ _ _ _ _ y He); [done|]. specialize (H3 y). set_solver.
Qed.

(** A value that was computed keeps its value. *)
Lemma read_later env w l env' w' v x :
  exec_stmts args env w l = Ok (env', w') -> (forall y, v = Def y -> y ∉ stmt_ids l) ->
  read args env v = Some x -> read args env' v = Some x.
Proof.
  intros He Hv Hx. destruct v as [y|k|lit]; [|done|done]. simpl in *.
  rewrite (exec_stmts_frame _ _ _ _ _ y He); [done|by apply Hv].
Qed.

Lemma built_value_fresh before v e before' k2 m2 y k1 m1 :
  built p before v e before' k2 m2 -> v = Def y ->
  (forall z, z ∈ m2 ++ m1 -> z ∉ stmt_ids (k2 ++ k1)) -> NoDup (stmt_ids (k2 ++ k1)) ->
  y ∉ stmt_ids k1.
Proof.
  intros Hb -> Hf Hnd. rewrite stmt_ids_app in *. inversion Hb; subst; simpl in *.
  - specialize (Hf y). set_solver.
  - apply NoDup_app in Hnd as (_ & Hnd & _). apply Hnd. rewrite stmt_ids_app. set_solver.
Qed.

(** An operation over trees that can be evaluated. *)
Lemma eval_inline locals env w cons s es e :
  executed locals env w cons (fun env' => mapM (read args env') (operands (stmt_op s)))
    (eval_list (eval locals) es w) ->
  rebuild (convert_gate p) (stmt_op s) es (stmt_span s) = Some e -> right_atomic p (stmt_op s) es ->
  length es = length (operands (stmt_op s)) -> is_inline_op (stmt_op s) = true -> tree_stmt s ->
  params_ok locals ->
  executed locals env w (cons ++ [s]) (fun env' => env' !! stmt_id s) (eval locals e w).
Proof.
  intros IH Hre Hra Hl Hi [Hg Ha] Hp. unfold executed in *. rewrite exec_stmts_app.
  assert (forall o, eval_list (eval locals) es w = Err o -> not_undefined o) as Hund.
  { intros o Ho. rewrite Ho in IH. destruct (exec_stmts _ _ _ _) as [[env1 w1]|o']; [|by destruct IH as [[= ->] ?]].
    by destruct IH as (u & _ & ?). }
  rewrite (eval_rebuild locals (stmt_op s) es (stmt_span s) e w Hre Hra Hl Hg Hp Ha Hund).
  destruct (exec_stmts args env w cons) as [[env1 w1]|o]; [|by destruct IH as [-> ?]].
  destruct IH as (us & Hus & ->). simpl.
  assert (is_phi (stmt_op s) = false) as -> by by destruct (stmt_op s).
  unfold exec_op. rewrite Hus. unfold performed.
  destruct (perform (shape (stmt_op s)) us w1) as [v w2|x w2|]; simpl; [|done|done].
  exists v. by rewrite lookup_insert_eq.
Qed.

Lemma eval_built :
  (forall before v e before' cons mats, built p before v e before' cons mats ->
     arg_ok v -> forall locals env w, tree_ready locals env cons mats ->
     executed locals env w cons (fun env' => read args env' v) (eval locals e w)) /\
  (forall before vs es before' cons mats, built_all p before vs es before' cons mats ->
     Forall arg_ok vs -> forall locals env w, tree_ready locals env cons mats ->
     executed locals env w cons (fun env' => mapM (read args env') vs) (eval_list (eval locals) es w)).
Proof.
  apply built_mutind.
  - intros before v span Ha locals env w Hr. unfold executed. simpl.
    destruct (eval_materialize locals env v span (tr_params _ _ _ _ Hr) Ha (tr_slots _ _ _ _ Hr))
      as (u & Hu & Hev). by exists u.
  - intros before s es e before' cons mats Hb IH Hre Hra Hi _ _ locals env w Hr.
    pose proof (tr_stmts _ _ _ _ Hr) as [_ [[Hg Ha] _]%Forall_cons]%Forall_app.
    pose proof (tree_ready_first locals env cons [s] mats []) as Hr'.
    rewrite app_nil_r in Hr'.
    apply (eval_inline locals env w cons s es e); try done; [by apply IH, Hr'| |apply (tr_params _ _ _ _ Hr)].
    by apply (proj2 (built_suffix p)) in Hb as [_ ?].
  - intros before _ locals env w Hr. unfold executed. simpl. by exists [].
  - intros before v vs e es b1 k1 m1 b2 k2 m2 Hb1 IH1 Hb2 IH2 [Hv Hvs]%Forall_cons locals env w Hr.
    specialize (IH2 Hv locals env w (tree_ready_first _ _ _ _ _ _ Hr)). unfold executed in *.
    rewrite exec_stmts_app. simpl.
    destruct (exec_stmts args env w k2) as [[env1 w1]|o] eqn:He; [|by destruct IH2 as [-> ?]].
    destruct IH2 as (u & Hu & ->). simpl.
    specialize (IH1 Hvs locals env1 w1 (tree_ready_then _ _ _ _ _ _ _ _ _ Hr He)).
    destruct (exec_stmts args env1 w1 k1) as [[env2 w2]|o] eqn:He1; [|by destruct IH1 as [-> ?]].
    destruct IH1 as (us & Hus & ->). simpl. exists (u :: us). split; [|done].
    rewrite (read_later _ _ _ _ _ v u He1); [simpl; by rewrite Hus| |done].
    intros y Hy. eapply built_value_fresh; [exact Hb2|exact Hy|apply (tr_fresh _ _ _ _ Hr)|apply (tr_unique _ _ _ _ Hr)].
Qed.
End TreeSem.
