(* ===== verification/PlanFacts.v ===== *)
(** * Slots that are read are written

    The planner plans every function of [plannable] ([plan_total]); what some tree
    reads from a slot is not consumed by a tree and does not write the slot of a
    phi ([read_not_consumed], [read_not_coalesced]). *)

From S2P Require Export PlanBlocks.

Lemma Forall2_choice {A B D} (Q : A -> B -> D -> Prop) l k :
  Forall2 (fun x y => exists z, Q x y z) l k ->
  exists zs, length zs = length l /\
    forall i x y, l !! i = Some x -> k !! i = Some y -> exists z, zs !! i = Some z /\ Q x y z.
Proof.
  induction 1 as [|x y l k [z Hz] _ (zs & Hl & IH)]; [by exists []|].
  exists (z :: zs). split; [simpl; lia|]. intros [|i] x' y' Hx Hy; simpl in *; [|by apply IH].
  simplify_eq. by exists z.
Qed.

Section Facts.
Context {C : CoreTypes}.
Variable func : SsaFunction.
Hypothesis Hwf : well_formed func.
Hypothesis Hpn : plannable func.

(** A plan with what the trees of each block consume and read. *)
Record planned (p : Planner) (plan : SharedFunctionPlan)
    (info : list (list SsaStatement * list SsaValueId)) : Prop := {
  pl_analysed : analysed func p;
  pl_length : length info = length (fn_blocks func);
  pl_block i b : block func i = Some b -> exists pb cm,
    plan_blocks plan !! i = Some pb /\ info !! i = Some cm /\ built_block p i b pb cm.1 cm.2
}.

Lemma plan_total span gate :
  exists plan p info, plan_function func span gate = Ok plan /\ planned p plan info.
Proof.
  destruct (analyse_total func span gate Hwf) as (p & Hp & Han & _).
  unfold plan_function. rewrite Hp. simpl.
  destruct (try_mapM_total (fun indexed : nat * SsaBlock => plan_block p indexed.1 indexed.2)
    (fun e pb => exists cm : list SsaStatement * list SsaValueId, built_block p e.1 e.2 pb cm.1 cm.2)
    (enumerate (fn_blocks func))) as (pbs & -> & Hpbs).
  { intros [i b] Hb%enumerate_elem.
    destruct (plan_block_total func p Hwf Hpn Han i b Hb) as (pb & k & m & Hrun & Hbt).
    exists pb. split; [done|]. by exists (k, m). }
  pose proof (Forall2_length _ _ _ Hpbs) as Hlen.
  destruct (Forall2_choice _ _ _ Hpbs) as (info & Hl & Hinfo). simpl.
  assert (length (enumerate (fn_blocks func)) = length (fn_blocks func)) as He.
  { rewrite <- (enumerate_snd (fn_blocks func)) at 2. by rewrite length_fmap. }
  exists {| plan_blocks := pbs |}, p, info. split; [done|]. constructor; [done|by rewrite Hl|].
  intros i b Hb. assert (enumerate (fn_blocks func) !! i = Some (i, b)) as Hi.
  { unfold enumerate. apply lookup_zip_Some. split; [|done]. apply lookup_seq.
    split; [done|]. by eapply lookup_lt_Some. }
  destruct (lookup_lt_is_Some_2 pbs i) as [pb Hpb].
  { rewrite <- Hlen. by eapply lookup_lt_Some. }
  destruct (Hinfo i (i, b) pb Hi Hpb) as (cm & Hcm & Hbt). by exists pb, cm.
Qed.

Section Plan.
Variable p : Planner.
Variable plan : SharedFunctionPlan.
Variable info : list (list SsaStatement * list SsaValueId).
Hypothesis Hpl : planned p plan info.

(** Some tree reads the slot of [y]; some tree of the block [i] consumes [y]. *)
Definition read_slot (y : SsaValueId) : Prop := exists i cm, info !! i = Some cm /\ y ∈ cm.2.
Definition consumed_in (i : BlockId) (y : SsaValueId) : Prop :=
  exists cm, info !! i = Some cm /\ y ∈ stmt_ids cm.1.

Lemma info_block i cm : info !! i = Some cm ->
  exists b pb, block func i = Some b /\ built_block p i b pb cm.1 cm.2.
Proof.
  intros Hi. destruct (lookup_lt_is_Some_2 (fn_blocks func) i) as [b Hb].
  { rewrite <- (pl_length _ _ _ Hpl). by eapply lookup_lt_Some. }
  destruct (pl_block _ _ _ Hpl i b Hb) as (pb & cm' & _ & Hcm & Hbt). simplify_eq. by exists b, pb.
Qed.

Lemma filter_copies_le (f : SsaValueId * SsaValue -> bool) (cs : list (SsaValueId * SsaValue)) x :
  count (def_ids (filter (fun c => f c = true) cs).*2) x <= count (def_ids cs.*2) x.
Proof.
  induction cs as [|[y [z|k|lit]] cs IH]; [done|..]; rewrite filter_cons; case_decide; csimpl;
    try destruct (Nat.eq_dec z x); lia.
Qed.

Lemma filter_copies_lt (f : SsaValueId * SsaValue -> bool) (cs : list (SsaValueId * SsaValue)) phi x :
  (phi, Def x) ∈ cs -> f (phi, Def x) = false ->
  count (def_ids (filter (fun c => f c = true) cs).*2) x < count (def_ids cs.*2) x.
Proof.
  intros (l1 & l2 & ->)%list_elem_of_split Hf.
  rewrite filter_app, !fmap_app, !def_ids_app, !count_occ_app, filter_cons_False by by rewrite Hf.
  csimpl. destruct (Nat.eq_dec x x); [|done].
  pose proof (filter_copies_le f l1 x). pose proof (filter_copies_le f l2 x). lia.
Qed.

Lemma edge_kept i b t bt :
  block func i = Some b -> t ∈ targets (terminator b) -> block func t = Some bt ->
  kept_pairs p i t = filter (fun c => kept_copy p c = true) (copies_of bt i).
Proof.
  intros Hb Ht Hbt. destruct (target_pred func Hwf i b Hb t Ht) as (bt' & Hbt' & Hp). simplify_eq.
  pose proof (an_copies _ _ (pl_analysed _ _ _ Hpl) i t bt Hbt Hp) as H. unfold kept_pairs.
  destruct (edge_copies p !! (i, t)) as [[cs fl]|]; [by destruct H|]. by rewrite H.
Qed.

Lemma edge_ids_le i b t x :
  block func i = Some b -> t ∈ targets (terminator b) ->
  count (edge_ids p i t) x <= count (def_ids (pair_copies func i t).*2) x.
Proof.
  intros Hb Ht. destruct (target_pred func Hwf i b Hb t Ht) as (bt & Hbt & Hp).
  unfold edge_ids, pair_copies. rewrite Hbt, (edge_kept i b t bt Hb Ht Hbt). apply filter_copies_le.
Qed.

Lemma bind_count_le {A} (f g : A -> list nat) l x :
  (forall y, y ∈ l -> count (f y) x <= count (g y) x) -> count (l ≫= f) x <= count (l ≫= g) x.
Proof.
  induction l as [|y l IH]; intros H; [done|]. csimpl. rewrite !count_occ_app.
  pose proof (H y ltac:(left)). enough (count (l ≫= f) x <= count (l ≫= g) x) by lia.
  apply IH. intros z Hz. apply H. by right.
Qed.

Lemma block_uses_le i cm x :
  info !! i = Some cm ->
  count cm.2 x + count (stmt_ids cm.1) x <= count (out_ids func i) x.
Proof.
  intros Hi. destruct (info_block i cm Hi) as (b & pb & Hb & Hbt).
  pose proof (built_block_counts p i b pb cm.1 cm.2 x Hbt) as H1.
  pose proof (out_ids_split func i b x Hb) as H2.
  pose proof (bind_count_le (edge_ids p i) (fun t => def_ids (pair_copies func i t).*2)
    (targets (terminator b)) x) as H3.
  specialize (H3 ltac:(intros t Ht; by eapply edge_ids_le)). lia.
Qed.

Lemma read_not_consumed i y : read_slot y -> consumed_in i y -> False.
Proof.
  intros (j & cm & Hj & Hy) (cm' & Hi & Hy').
  pose proof (block_uses_le j cm y Hj) as H1. pose proof (block_uses_le i cm' y Hi) as H2.
  destruct (info_block i cm' Hi) as (b & pb & Hb & Hbt).
  pose proof (built_block_consumable p i b pb _ _ Hbt) as Hcons.
  assert (count (def_ids (all_values func)) y = 1) as Hone.
  { rewrite <- (an_uses _ _ (pl_analysed _ _ _ Hpl)).
    apply list_elem_of_fmap in Hy' as (s & -> & Hs). rewrite Forall_forall in Hcons. by apply Hcons. }
  apply count_elem in Hy, Hy'.
  assert (j = i) as ->.
  { apply (use_once func j i y Hwf Hone); apply count_elem; lia. }
  simplify_eq. pose proof (use_once_le func i y Hwf Hone). lia.
Qed.

(** What a tree reads or consumes does not write the slot of a phi: its one use is
    the copy that was taken away. *)
Lemma used_not_coalesced j cm y :
  info !! j = Some cm -> 0 < count cm.2 y + count (stmt_ids cm.1) y -> coalesced p !! y = None.
Proof.
  intros Hj Hy. destruct (coalesced p !! y) as [phi|] eqn:Hco; [|done]. exfalso.
  destruct (an_coalesced _ _ (pl_analysed _ _ _ Hpl) y phi Hco) as (q & t & bt & Hbt & Hq & Hc).
  pose proof (co_once _ _ _ _ _ _ Hc) as Hone. rewrite (an_uses _ _ (pl_analysed _ _ _ Hpl)) in Hone.
  pose proof (co_copy _ _ _ _ _ _ Hc) as Hin. destruct (co_site _ _ _ _ _ _ Hc) as (b & k & s & Hb & Hjmp & _).
  rewrite (an_ssa _ _ (pl_analysed _ _ _ Hpl)) in Hb.
  pose proof (pair_copies_out func q t bt b y Hwf Hbt Hq Hb) as Hout.
  pose proof (pred_target func q t bt b Hwf Hbt Hq Hb) as Ht.
  pose proof (filter_copies_lt (kept_copy p) (copies_of bt q) phi y Hin) as Hlt.
  specialize (Hlt ltac:(unfold kept_copy; simpl; by rewrite Hco, Nat.eqb_refl)).
  pose proof (block_uses_le j cm y Hj) as Huse.
  assert (j = q) as -> by (apply (use_once func j q y Hwf Hone); apply count_elem; lia).
  destruct (info_block q cm Hj) as (b' & pb & Hb' & Hbt'). simplify_eq.
  pose proof (built_block_counts p q b pb cm.1 cm.2 y Hbt') as H1.
  pose proof (use_once_le func q y Hwf Hone) as H2.
  assert (targets (terminator b) = [t]) as Htt.
  { destruct (terminator b); try done. apply list_elem_of_singleton in Ht as ->. done. }
  rewrite Htt in H1. csimpl in H1. rewrite app_nil_r in H1.
  unfold edge_ids in H1. rewrite (edge_kept q b t bt Hb Ht Hbt) in H1. lia.
Qed.

Lemma read_not_coalesced y : read_slot y -> coalesced p !! y = None.
Proof.
  intros (j & cm & Hj & Hy%count_elem). eapply used_not_coalesced; [exact Hj|lia].
Qed.

Lemma consumed_not_coalesced i y : consumed_in i y -> coalesced p !! y = None.
Proof.
  intros (cm & Hi & Hy%count_elem). eapply used_not_coalesced; [exact Hi|lia].
Qed.

(** Where a slot is read, the definition is used. *)
Lemma read_used y : read_slot y -> Def y ∈ all_values func.
Proof.
  intros (j & cm & Hj & Hy%count_elem). pose proof (block_uses_le j cm y Hj) as H1.
  apply def_ids_elem, count_elem. rewrite owned_count by done.
  pose proof (owner_ids_le j (owned func) y). unfold out_ids in H1. lia.
Qed.

(** ** Writing the slot of a phi *)

Record writes_phi (i : BlockId) (b : SsaBlock) (d phi : SsaValueId) (t : BlockId) (bt : SsaBlock)
    (k : nat) (s : SsaStatement) : Prop := {
  wp_jump : terminator b = Jump t;
  wp_block : block func t = Some bt;
  wp_copy : (phi, Def d) ∈ copies_of bt i;
  wp_site : stmts b !! k = Some s;
  wp_id : stmt_id s = d;
  wp_inline : is_inline_op (stmt_op s) = true;
  wp_after : phi_read_after b k (copies_of bt i) phi = false
}.

Lemma coalesced_here i b d phi :
  block func i = Some b -> d ∈ stmt_ids (stmts b) -> coalesced p !! d = Some phi ->
  exists t bt k s, writes_phi i b d phi t bt k s.
Proof.
  intros Hb Hd Hco. destruct (an_coalesced _ _ (pl_analysed _ _ _ Hpl) d phi Hco) as (q & t & bt & Hbt & Hq & Hc).
  destruct (co_site _ _ _ _ _ _ Hc) as (bq & k & s & Hbq & Hj & Hsite & Hs & Hi & Hra).
  rewrite (an_ssa _ _ (pl_analysed _ _ _ Hpl)) in Hbq.
  apply (an_sites _ _ (pl_analysed _ _ _ Hpl)) in Hsite as (b' & s' & Hb' & Hs' & Hid). simplify_eq.
  assert (q = i) as ->.
  { eapply (defines_unique func); [exact Hwf| |].
    - eexists _, _. split_and!; [exact Hbq|by eapply list_elem_of_lookup_2|done].
    - apply list_elem_of_fmap in Hd as (s2 & He & Hs2). exists b, s2. by split_and!. }
  simplify_eq. eexists t, bt, k, _. constructor; try done; [|apply (co_copy _ _ _ _ _ _ Hc)].
  pose proof (pred_target func i t bt b Hwf Hbt Hq Hb) as Ht.
  destruct (terminator b); try done. by apply list_elem_of_singleton in Ht as ->.
Qed.

Lemma copies_fun i t bt phi v v' :
  block func t = Some bt -> (phi, v) ∈ copies_of bt i -> (phi, v') ∈ copies_of bt i -> v = v'.
Proof.
  intros Hbt [j Hj]%list_elem_of_lookup [j' Hj']%list_elem_of_lookup.
  pose proof (copies_NoDup func t bt i Hwf Hbt) as Hnd.
  assert (j = j') as ->; [|congruence].
  eapply NoDup_lookup; [exact Hnd|by rewrite list_lookup_fmap, Hj|by rewrite list_lookup_fmap, Hj'].
Qed.

(** One definition of a block at most writes the slot of a phi. *)
Lemma writes_phi_unique i b d d' phi :
  block func i = Some b -> d ∈ stmt_ids (stmts b) -> d' ∈ stmt_ids (stmts b) ->
  coalesced p !! d = Some phi -> coalesced p !! d' = Some phi -> d = d'.
Proof.
  intros Hb Hd Hd' Hco Hco'. destruct (coalesced_here i b d phi Hb Hd Hco) as (t & bt & k & s & H).
  destruct (coalesced_here i b d' phi Hb Hd' Hco') as (t' & bt' & k' & s' & H').
  pose proof (wp_jump _ _ _ _ _ _ _ _ H) as Hj. rewrite (wp_jump _ _ _ _ _ _ _ _ H') in Hj. injection Hj as ->.
  pose proof (wp_block _ _ _ _ _ _ _ _ H) as Hbt. rewrite (wp_block _ _ _ _ _ _ _ _ H') in Hbt. injection Hbt as ->.
  pose proof (copies_fun i t bt phi _ _ (wp_block _ _ _ _ _ _ _ _ H) (wp_copy _ _ _ _ _ _ _ _ H)
    (wp_copy _ _ _ _ _ _ _ _ H')) as [=]. done.
Qed.
End Plan.
End Facts.
