(* ===== verification/PlanSim.v ===== *)
(** * Slots and definitions agree

    While a block runs, the slots that some tree reads hold the values of their
    definitions, except the slot of a phi that a definition of the block has
    already written: nothing reads that slot any more in the block. *)

From S2P Require Export PlanTreeSem PlanFacts.

Section Agree.
Context {C : CoreTypes} {SM : Semantics}.
Variable func : SsaFunction.
Variable p : Planner.
Variable plan : SharedFunctionPlan.
Variable info : list (list SsaStatement * list SsaValueId).
Variable args : list Val.
Hypothesis Hwf : well_formed func.
Hypothesis Hpn : plannable func.
Hypothesis Hpl : planned func p plan info.
Hypothesis Hargs : length args = length (fn_params func).

Abbreviation Env := (gmap SsaValueId Val).
Abbreviation Locals := (gmap string Val).
Abbreviation read_slot := (read_slot info).

Lemma Hssa : ssa p = func.
Proof. apply (an_ssa _ _ (pl_analysed _ _ _ _ Hpl)). Qed.

Section Block.
Variable i : BlockId.
Variable b : SsaBlock.
Hypothesis Hr : reached (edge func) (fn_entry func) i.
Hypothesis Hb : block func i = Some b.

(** The phis have their values from the start. *)
Definition seen (before : list SsaStatement) (y : SsaValueId) : Prop :=
  operand_ok func (phis (stmts b) ++ before) i (Def y).

Definition overwritten (before : list SsaStatement) (phi : SsaValueId) : Prop :=
  exists d, coalesced p !! d = Some phi /\ d ∈ stmt_ids before.

Record agree (before : list SsaStatement) (env : Env) (locals : Locals) : Prop := {
  ag_params : params_ok func args locals;
  ag_slots y : read_slot y -> seen before y -> ~ overwritten before y -> slot_ok p locals env y;
  ag_written d phi : coalesced p !! d = Some phi -> d ∈ stmt_ids before ->
    exists v, env !! d = Some v /\ locals !! slot_name phi = Some v
}.

Lemma ids_NoDup : NoDup (stmt_ids (stmts b)).
Proof. by apply (block_ids_NoDup func Hwf i b). Qed.

Lemma before_elem before after s : stmts b = before ++ after -> s ∈ before -> s ∈ stmts b.
Proof. intros -> Hs. apply elem_of_app. by left. Qed.

Lemma ids_before before after y : stmts b = before ++ after -> y ∈ stmt_ids before -> y ∈ stmt_ids (stmts b).
Proof. intros -> Hy. rewrite stmt_ids_app. apply elem_of_app. by left. Qed.

(** What is seen was not defined later in the block. *)
Lemma seen_not_after before after y :
  stmts b = before ++ after -> Forall (fun s => is_phi (stmt_op s) = false) after ->
  seen before y -> y ∉ stmt_ids after.
Proof.
  intros Hl Hph Hs Hy. pose proof ids_NoDup as Hnd. rewrite Hl, stmt_ids_app in Hnd.
  apply NoDup_app in Hnd as (_ & Hnd & _).
  apply list_elem_of_fmap in Hy as (s & -> & Hin).
  assert (s ∈ stmts b) as Hsb by (rewrite Hl; apply elem_of_app; by right).
  destruct Hs as [Hs|(d & Hne & Hd & _)].
  - rewrite map_app in Hs. apply elem_of_app in Hs as [Hs|Hs].
    + apply list_elem_of_fmap in Hs as (t & He & [Ht Hp]%phis_elem).
      assert (s = t) as ->.
      { apply (stmt_unique func s t Hwf); [by eapply block_stmts..|done]. }
      rewrite Forall_forall in Hph. apply Hph in Hin. congruence.
    + apply (Hnd _ Hs). apply list_elem_of_fmap. by exists s.
  - apply Hne. eapply (defines_unique func); [done|exact Hd|]. by exists b, s.
Qed.

(** ** Reads that come later *)

Lemma operand_seen before k s after y :
  stmts b = before ++ k ++ s :: after -> Def y ∈ operands (stmt_op s) -> y ∉ stmt_ids k ->
  seen before y.
Proof.
  intros Hl Hy Hk. assert (operand_ok func (before ++ k) i (Def y)) as Ho.
  { eapply (wf_operands _ Hwf i b (before ++ k) s after); [done|done| |done]. by rewrite <- app_assoc. }
  destruct Ho as [Ho|Ho]; [left|by right]. rewrite !map_app in *.
  apply elem_of_app in Ho as [Ho|Ho]; [apply elem_of_app; by right|done].
Qed.

Lemma end_seen before k y :
  stmts b = before ++ k -> operand_ok func (stmts b) i (Def y) -> y ∉ stmt_ids k -> seen before y.
Proof.
  intros Hl Ho Hk. destruct Ho as [Ho|Ho]; [left|by right]. rewrite Hl, map_app in Ho.
  rewrite map_app. apply elem_of_app in Ho as [Ho|Ho]; [apply elem_of_app; by right|done].
Qed.

Lemma overwritten_split before after phi :
  stmts b = before ++ after -> overwritten before phi ->
  exists d t bt k s, writes_phi func i b d phi t bt k s /\ k < length before.
Proof.
  intros Hl (d & Hco & Hd).
  destruct (coalesced_here func Hwf p plan info Hpl i b d phi Hb) as (t & bt & k & s & Hw);
    [by eapply ids_before|done|].
  exists d, t, bt, k, s. split; [done|]. pose proof (wp_site _ _ _ _ _ _ _ _ _ Hw) as Hs.
  apply list_elem_of_fmap in Hd as (s' & He & [j Hj]%list_elem_of_lookup).
  assert (stmts b !! j = Some s') as Hj' by (rewrite Hl; by apply lookup_app_l_Some).
  assert (k = j) as ->; [|by eapply lookup_lt_Some].
  pose proof ids_NoDup as Hnd. eapply NoDup_lookup; [exact Hnd|unfold stmt_ids; by rewrite list_lookup_fmap, Hs|].
  unfold stmt_ids. rewrite list_lookup_fmap, Hj'. simpl. by rewrite <- He, (wp_id _ _ _ _ _ _ _ _ _ Hw).
Qed.

Lemma reads_value_elem v vs : reads_value v vs = false -> (exists y, v = Def y) -> v ∉ vs.
Proof.
  intros H [y ->] Hin. assert (reads_value (Def y) vs = true); [|congruence].
  apply existsb_exists. exists (Def y). split; [by apply list_elem_of_In|]. by apply value_eqb_def.
Qed.

Lemma operand_not_overwritten before k s after y :
  stmts b = before ++ k ++ s :: after -> Def y ∈ operands (stmt_op s) -> ~ overwritten before y.
Proof.
  clear Hargs. intros Hl Hy Ho. destruct (overwritten_split before (k ++ s :: after) y) as (d & t & bt & j & s' & Hw & Hj); [done|done|].
  pose proof (wp_after _ _ _ _ _ _ _ _ _ Hw) as Ha. unfold phi_read_after in Ha.
  apply orb_false_iff in Ha as [[Ha _]%orb_false_iff _].
  assert (existsb (fun s => reads_value (Def y) (operands (stmt_op s))) (drop (j + 1) (stmts b)) = true);
    [|congruence].
  apply existsb_exists. exists s. split.
  - apply list_elem_of_In. rewrite Hl, drop_app_le by lia. rewrite !elem_of_app. right. right. left.
  - apply existsb_exists. exists (Def y). split; [by apply list_elem_of_In|]. by apply value_eqb_def.
Qed.

Lemma term_not_overwritten before after y :
  stmts b = before ++ after -> Def y ∈ term_operands (terminator b) -> ~ overwritten before y.
Proof.
  intros Hl Hy Ho. destruct (overwritten_split before after y) as (d & t & bt & j & s' & Hw & Hj); [done|done|].
  rewrite (wp_jump _ _ _ _ _ _ _ _ _ Hw) in Hy. by apply elem_of_nil in Hy.
Qed.

(** The copies of an edge do not read a slot that was written early. *)
Lemma copy_not_overwritten before after t bt phi y :
  stmts b = before ++ after -> t ∈ targets (terminator b) -> block func t = Some bt ->
  (phi, Def y) ∈ copies_of bt i -> ~ overwritten before y.
Proof.
  intros Hl Ht Hbt Hin Ho.
  destruct (overwritten_split before after y) as (d & t' & bt' & j & s' & Hw & Hj); [done|done|].
  rewrite (wp_jump _ _ _ _ _ _ _ _ _ Hw) in Ht. apply list_elem_of_singleton in Ht as ->.
  pose proof (wp_block _ _ _ _ _ _ _ _ _ Hw). simplify_eq.
  pose proof (wp_after _ _ _ _ _ _ _ _ _ Hw) as Ha. unfold phi_read_after in Ha.
  apply orb_false_iff in Ha as [_ Ha].
  assert (phi <> y) as Hne.
  { intros ->. apply copies_of_elem in Hin as (s & ph & _ & _ & _ & _ & Hv).
    by rewrite (proj2 (value_eqb_def (Def y) y) eq_refl) in Hv. }
  assert (existsb (fun copy : SsaValueId * SsaValue =>
    negb (Nat.eqb copy.1 y) && value_eqb copy.2 (Def y)) (copies_of bt i) = true); [|congruence].
  apply existsb_exists. exists (phi, Def y). split; [by apply list_elem_of_In|]. simpl.
  by rewrite (proj2 (Nat.eqb_neq phi y) Hne), Nat.eqb_refl.
Qed.

(** ** Trees of the block *)

Variable cm : list SsaStatement * list SsaValueId.
Hypothesis Hcm : info !! i = Some cm.

Lemma read_of_mats y : y ∈ cm.2 -> read_slot y.
Proof. intros Hy. by exists i, cm. Qed.

Lemma not_consumed y k : read_slot y -> (forall s, s ∈ k -> s ∈ cm.1) -> y ∉ stmt_ids k.
Proof.
  intros Hy Hk Hin. apply (read_not_consumed func Hwf p plan info Hpl i y Hy). exists cm.
  split; [done|]. apply list_elem_of_fmap in Hin as (s & -> & Hs). apply list_elem_of_fmap_2. by apply Hk.
Qed.

Lemma block_tree_stmt s : s ∈ stmts b -> tree_stmt func args s.
Proof.
  intros Hs. split; [apply (pn_global _ Hpn); by eapply block_stmts|].
  apply Forall_forall. intros v Hv. apply (arg_known func args Hpn Hargs).
  apply list_elem_of_bind. exists b. split; [|by apply list_elem_of_lookup_2 in Hb].
  apply elem_of_app. left. apply list_elem_of_bind. exists s. split; [|done].
  by destruct (stmt_op s); [apply elem_of_nil in Hv|..].
Qed.

(** A tree whose reads are seen and not overwritten can be evaluated. *)
Lemma agree_ready before k after m env locals :
  stmts b = before ++ k ++ after -> agree before env locals ->
  (forall s, s ∈ k -> s ∈ cm.1) -> (forall y, y ∈ m -> y ∈ cm.2) ->
  (forall y, y ∈ m -> seen before y /\ ~ overwritten before y) ->
  tree_ready func p args locals env k m.
Proof.
  intros Hl Hag Hk Hm Hs. constructor.
  - apply (ag_params _ _ _ Hag).
  - intros y Hy. destruct (Hs y Hy) as [H1 H2]. apply (ag_slots _ _ _ Hag); [by apply read_of_mats, Hm|done|done].
  - intros y Hy. apply not_consumed; [by apply read_of_mats, Hm|done].
  - pose proof ids_NoDup as Hnd. rewrite Hl, !stmt_ids_app in Hnd.
    by apply NoDup_app in Hnd as (_ & _ & (Hnd & _)%NoDup_app).
  - apply Forall_forall. intros s Hin. apply block_tree_stmt. rewrite Hl. set_solver.
Qed.

(** Consuming statements keeps the agreement. *)
Lemma agree_consume before k after env env' w w' locals :
  stmts b = before ++ k ++ after -> Forall (fun s => is_phi (stmt_op s) = false) k ->
  (forall s, s ∈ k -> s ∈ cm.1) -> exec_stmts args env w k = Ok (env', w') ->
  agree before env locals -> agree (before ++ k) env' locals.
Proof.
  intros Hl Hph Hk He [H1 H2 H3].
  assert (forall d phi, coalesced p !! d = Some phi -> d ∉ stmt_ids k) as Hno.
  { intros d phi Hd Hin. assert (consumed_in info i d) as Hc.
    { exists cm. split; [done|]. apply list_elem_of_fmap in Hin as (s & -> & Hs).
      apply list_elem_of_fmap_2. by apply Hk. }
    by rewrite (consumed_not_coalesced func Hwf p plan info Hpl i d Hc) in Hd. }
  constructor; [done| |].
  - intros y Hy Hs Ho. pose proof (not_consumed y k Hy Hk) as Hn.
    destruct (H2 y) as (v & Hv & Hlv); [done| |intros (d & Hd & Hin)|].
    + destruct Hs as [Hs|Hs]; [left|by right]. rewrite !map_app in *. rewrite !elem_of_app in *.
      destruct Hs as [Hs|[Hs|Hs]]; [by left|by right|done].
    + apply Ho. exists d. split; [done|]. rewrite stmt_ids_app. apply elem_of_app. by left.
    + exists v. split; [|done]. by rewrite (exec_stmts_frame args env w k env' w' y He Hn).
  - intros d phi Hd Hin. rewrite stmt_ids_app in Hin.
    apply elem_of_app in Hin as [Hin|Hin]; [|by destruct (Hno d phi Hd)].
    destruct (H3 d phi Hd Hin) as (v & Hv & Hlv). exists v. split; [|done].
    by rewrite (exec_stmts_frame args env w k env' w' d He (Hno d phi Hd)).
Qed.

(** The slot that a root writes. *)
Definition root_locals (s : SsaStatement) (v : Val) (locals : Locals) : Locals :=
  if is_store (stmt_op s) then locals
  else if Nat.ltb 0 (use_count p (stmt_id s)) then <[spill_name p (stmt_id s) := v]> locals else locals.

Lemma root_locals_other s v locals name :
  spill_name p (stmt_id s) <> name -> root_locals s v locals !! name = locals !! name.
Proof.
  intros Hne. unfold root_locals. destruct (is_store _); [done|]. destruct (0 <? _); [|done].
  by apply lookup_insert_ne.
Qed.

Lemma root_locals_here s v locals :
  is_store (stmt_op s) = false -> 0 < use_count p (stmt_id s) ->
  root_locals s v locals !! spill_name p (stmt_id s) = Some v.
Proof.
  intros Hst Hu. unfold root_locals. rewrite Hst. apply Nat.ltb_lt in Hu. rewrite Hu.
  apply lookup_insert_eq.
Qed.

Lemma read_spill y : read_slot y -> spill_name p y = slot_name y.
Proof. intros Hy. unfold spill_name. by rewrite (read_not_coalesced func Hwf p plan info Hpl y Hy). Qed.

Lemma read_use_count y : read_slot y -> 0 < use_count p y.
Proof.
  intros Hy. rewrite (an_uses _ _ (pl_analysed _ _ _ _ Hpl)).
  by apply count_elem, def_ids_elem, (read_used func Hwf p plan info Hpl).
Qed.

(** A slot that is read, or that of a phi, is not a slot that [s] writes by accident. *)
Lemma root_slot_phi s d phi :
  s ∈ stmts b -> is_phi (stmt_op s) = false -> d ∈ stmt_ids (stmts b) -> d <> stmt_id s ->
  coalesced p !! d = Some phi -> spill_name p (stmt_id s) <> slot_name phi.
Proof.
  intros Hs Hph Hd Hne Hco. unfold spill_name. destruct (coalesced p !! stmt_id s) as [phi'|] eqn:Hs'.
  - intros ->%(inj slot_name). apply Hne.
    eapply (writes_phi_unique func Hwf p plan info Hpl i b); [done|done| |done|done].
    by apply list_elem_of_fmap_2.
  - intros He%(inj slot_name).
    destruct (coalesced_phi func p (pl_analysed _ _ _ _ Hpl) d phi Hco) as (t & bt & s2 & Hbt & Hs2 & Hid & Hp2).
    assert (s = s2) as ->; [|congruence].
    apply (stmt_unique func s s2 Hwf); [exact (block_stmts func i b s Hb Hs)|
      exact (block_stmts func t bt s2 Hbt Hs2)|congruence].
Qed.

(** Writing the slot of a root keeps the agreement. *)
Lemma agree_root before s after env locals v :
  stmts b = before ++ s :: after -> is_phi (stmt_op s) = false -> agree before env locals ->
  (read_slot (stmt_id s) -> is_store (stmt_op s) = false) ->
  agree (before ++ [s]) (<[stmt_id s := v]> env) (root_locals s v locals).
Proof.
  intros Hl Hph [H1 H2 H3] Hst.
  assert (s ∈ stmts b) as Hs by (rewrite Hl; set_solver).
  pose proof ids_NoDup as Hnd. rewrite Hl, stmt_ids_app in Hnd.
  apply NoDup_app in Hnd as (_ & Hnd & _).
  assert (forall d, d ∈ stmt_ids before -> d <> stmt_id s) as Hfresh.
  { intros d Hd ->. apply (Hnd _ Hd). left. }
  constructor.
  - unfold root_locals. destruct (is_store _); [done|]. destruct (0 <? _); [|done].
    apply (params_insert func args Hpn); [apply spill_synthetic|done].
  - intros y Hy Hseen Ho. destruct (decide (y = stmt_id s)) as [->|Hne].
    { exists v. rewrite lookup_insert_eq. split; [done|].
      apply root_locals_here; [by apply Hst|by apply read_use_count]. }
    destruct (H2 y Hy) as (u & Hu & Hlu).
    { destruct Hseen as [Hy'|Hy']; [left|by right]. rewrite !map_app in *. set_solver. }
    { intros (d & Hd & Hin). apply Ho. exists d. split; [done|]. rewrite stmt_ids_app. set_solver. }
    exists u. rewrite lookup_insert_ne by done. split; [done|].
    rewrite root_locals_other; [done|]. rewrite (read_spill y Hy). unfold spill_name.
    destruct (coalesced p !! stmt_id s) as [phi|] eqn:Hco; intros He%(inj slot_name); [|by apply Hne].
    subst phi. apply Ho. exists (stmt_id s). split; [done|]. rewrite stmt_ids_app. set_solver.
  - intros d phi Hd Hin. rewrite stmt_ids_app in Hin.
    apply elem_of_app in Hin as [Hin| ->%list_elem_of_singleton].
    + destruct (H3 d phi Hd Hin) as (u & Hu & Hlu). exists u.
      rewrite lookup_insert_ne by (intros He; by apply (Hfresh d Hin)). split; [done|].
      rewrite root_locals_other; [done|].
      eapply root_slot_phi; [done|done|by eapply ids_before|by apply Hfresh|done].
    + exists v. rewrite lookup_insert_eq. split; [done|].
      destruct (coalesced_here func Hwf p plan info Hpl i b (stmt_id s) phi Hb) as (t & bt & k & s' & Hw);
        [by apply list_elem_of_fmap_2|done|].
      assert (s' = s) as ->.
      { apply (stmt_unique func s' s Hwf); [|by eapply block_stmts|apply (wp_id _ _ _ _ _ _ _ _ _ Hw)].
        eapply block_stmts; [exact Hb|]. eapply list_elem_of_lookup_2, (wp_site _ _ _ _ _ _ _ _ _ Hw). }
      assert (spill_name p (stmt_id s) = slot_name phi) as <- by (unfold spill_name; by rewrite Hd).
      apply root_locals_here.
      * pose proof (wp_inline _ _ _ _ _ _ _ _ _ Hw). by destruct (stmt_op s).
      * destruct (an_coalesced _ _ (pl_analysed _ _ _ _ Hpl) _ phi Hd) as (? & ? & ? & _ & _ & Hc).
        rewrite (co_once _ _ _ _ _ _ Hc). lia.
Qed.

(** A phi has its value from the start. *)
Lemma phi_in_phis s : s ∈ stmts b -> is_phi (stmt_op s) = true -> s ∈ phis (stmts b).
Proof.
  intros Hs Hp. destruct (wf_prefix _ Hwf i b Hb) as (ps & rest & Hl & Hps & Hrest). rewrite Hl in Hs |- *.
  assert (s ∈ ps) as Hin.
  { apply elem_of_app in Hs as [?|Hs]; [done|]. rewrite Forall_forall in Hrest. apply Hrest in Hs. congruence. }
  clear Hl Hs. induction Hps as [|t ps Ht _ IH]; [by apply elem_of_nil in Hin|].
  simpl. unfold stmt_is_phi in Ht. rewrite Ht. apply elem_of_cons in Hin as [->|Hin]; [left|right; by apply IH].
Qed.

Lemma agree_phi before s after env locals :
  stmts b = before ++ s :: after -> is_phi (stmt_op s) = true -> agree before env locals ->
  agree (before ++ [s]) env locals.
Proof.
  intros Hl Hph [H1 H2 H3].
  assert (s ∈ stmts b) as Hs by (rewrite Hl; apply elem_of_app; right; left).
  assert (forall phi, coalesced p !! stmt_id s = Some phi -> False) as Hno.
  { intros phi Hco.
    destruct (coalesced_here func Hwf p plan info Hpl i b (stmt_id s) phi Hb) as (t & bt & k & s' & Hw);
      [by apply list_elem_of_fmap_2|done|].
    assert (s' = s) as ->.
    { apply (stmt_unique func s' s Hwf); [|exact (block_stmts func i b s Hb Hs)|apply (wp_id _ _ _ _ _ _ _ _ _ Hw)].
      eapply block_stmts; [exact Hb|]. eapply list_elem_of_lookup_2, (wp_site _ _ _ _ _ _ _ _ _ Hw). }
    pose proof (wp_inline _ _ _ _ _ _ _ _ _ Hw). by destruct (stmt_op s). }
  constructor; [done| |].
  - intros y Hy Hseen Ho. apply H2; [done| |].
    + destruct Hseen as [Hin|Hin]; [left|by right]. rewrite !map_app in *.
      apply elem_of_app in Hin as [Hin|[Hin| ->%list_elem_of_singleton]%elem_of_app]; apply elem_of_app;
        [by left|by right|left]. by apply list_elem_of_fmap_2, phi_in_phis.
    + intros (d & Hd & Hin). apply Ho. exists d. split; [done|]. rewrite stmt_ids_app.
      apply elem_of_app. by left.
  - intros d phi Hd Hin. rewrite stmt_ids_app in Hin.
    apply elem_of_app in Hin as [Hin| ->%list_elem_of_singleton]; [by apply H3|by apply Hno in Hd].
Qed.
End Block.
End Agree.

(** * Running a plan

    Block by block, the plan does what the function does: the roots execute the
    statements, the terminator goes to the same block, and the copies on the edge
    give the slots of its phis their values. *)

Lemma snoc_prefix {A} (k k1 k2 : list A) s t x : k ++ [s] = k1 ++ t :: k2 -> x ∈ k1 -> x ∈ k.
Proof.
  intros Hk Hx. destruct k2 as [|u k2 _] using rev_ind.
  - by apply app_inj_tail in Hk as [-> _].
  - rewrite app_comm_cons, app_assoc in Hk. apply app_inj_tail in Hk as [-> _].
    apply elem_of_app. by left.
Qed.

Section Sim.
Context {C : CoreTypes} {SM : Semantics}.
Variable func : SsaFunction.
Variable p : Planner.
Variable plan : SharedFunctionPlan.
Variable info : list (list SsaStatement * list SsaValueId).
Variable args : list Val.
Variable other : gmap string Val -> CoreExpr -> World -> result (Outcome Val World Exn) (Val * World).
Hypothesis Hwf : well_formed func.
Hypothesis Hpn : plannable func.
Hypothesis Hpl : planned func p plan info.
Hypothesis Hargs : length args = length (fn_params func).
Hypothesis Hshort : short_circuits.

Abbreviation eval := (eval_expr (param_names func) other).
Abbreviation Env := (gmap SsaValueId Val).
Abbreviation Locals := (gmap string Val).
Abbreviation read_slot := (read_slot info).

Lemma stores_not_read s : s ∈ all_stmts func -> read_slot (stmt_id s) -> is_store (stmt_op s) = false.
Proof.
  intros Hs Hr. pose proof (pn_known _ Hpn _ (read_used func Hwf p plan info Hpl _ Hr)) as Hk. simpl in Hk.
  apply existsb_exists in Hk as (t & Ht%list_elem_of_In & [Hid%Nat.eqb_eq Hst]%andb_true_iff).
  assert (t = s) as -> by by apply (stmt_unique func t s Hwf). by apply negb_true_iff.
Qed.

Section Block.
Variable i : BlockId.
Variable b : SsaBlock.
Hypothesis Hr : reached (edge func) (fn_entry func) i.
Hypothesis Hb : block func i = Some b.
Variable cm : list SsaStatement * list SsaValueId.
Hypothesis Hcm : info !! i = Some cm.

Abbreviation agree := (agree func p info args i b).
Abbreviation seen := (seen func i b).

(** ** Roots *)

(** What a tree reads is an operand of one of its statements or of its root. *)
Lemma mats_operand before s r before' k m y :
  built_root p before s r before' k m -> y ∈ m ->
  exists k1 t k2, k ++ [s] = k1 ++ t :: k2 /\ Def y ∈ operands (stmt_op t).
Proof.
  intros Hroot Hy%count_elem. destruct (built_root_counts _ _ _ _ _ _ _ y Hroot) as [_ Hc].
  assert (y ∈ operand_ids (k ++ [s])) as Hin.
  { apply count_elem. rewrite operand_ids_app, count_occ_app. csimpl. rewrite app_nil_r. lia. }
  apply list_elem_of_bind in Hin as (t & Ht%def_ids_elem & (k1 & k2 & Hk)%list_elem_of_split).
  by exists k1, t, k2.
Qed.

Lemma inline_not_phi k : Forall (consumable p) k -> Forall (fun s => is_phi (stmt_op s) = false) k.
Proof. intros H. eapply Forall_impl; [exact H|]. intros s [Hi _]. by destruct (stmt_op s). Qed.

Lemma root_reads before s r before' k m after y :
  built_root p before s r before' k m -> stmts b = before' ++ k ++ s :: after ->
  (forall s, s ∈ k -> s ∈ cm.1) -> (forall y, y ∈ m -> y ∈ cm.2) -> y ∈ m ->
  seen before' y /\ ~ overwritten p before' y.
Proof.
  intros Hroot Hl Hk Hm Hy.
  destruct (mats_operand _ _ _ _ _ _ y Hroot Hy) as (k1 & t & k2 & Hsplit & Hop).
  assert (stmts b = before' ++ k1 ++ t :: (k2 ++ after)) as Hl2.
  { rewrite Hl. change (s :: after) with ([s] ++ after). rewrite (app_assoc k), Hsplit.
    by rewrite <- !app_assoc. }
  split.
  - eapply (operand_seen func Hwf i b Hr Hb before' k1 t); [done|done|].
    eapply (not_consumed func p plan info Hwf Hpl i cm Hcm); [by exists i, cm; split; [|apply Hm]|].
    intros x Hx. apply Hk. by eapply snoc_prefix.
  - by eapply (operand_not_overwritten func p plan info Hwf Hpl i b Hb before' k1 t).
Qed.

Lemma eval_value before v e before' k m env locals w :
  built p before v e before' k m -> arg_ok args v -> tree_ready func p args locals env k m ->
  executed args locals env w k (fun env' => read args env' v) (eval locals e w).
Proof.
  intros Hbt Ha Ht. by apply (proj1 (eval_built func p args other Hpn (Hssa func p plan info Hpl) Hargs Hshort)
    before v e before' k m).
Qed.

Lemma root_sim before s r before' k m after env locals w :
  built_root p before s r before' k m -> is_phi (stmt_op s) = false ->
  stmts b = before' ++ k ++ s :: after -> Forall (consumable p) k ->
  (forall s, s ∈ k -> s ∈ cm.1) -> (forall y, y ∈ m -> y ∈ cm.2) -> agree before' env locals ->
  match exec_stmts args env w (k ++ [s]) with
  | Ok (env', w') => exists locals', exec_root (param_names func) other locals r w = Ok (locals', w') /\
      agree (before' ++ k ++ [s]) env' locals'
  | Err o => exec_root (param_names func) other locals r w = Err o
  end.
Proof.
  intros Hroot Hph Hl Hcons Hk Hm Hag.
  pose proof (inline_not_phi k Hcons) as Hkph.
  assert (s ∈ stmts b) as Hsb by (rewrite Hl; set_solver).
  assert (tree_ready func p args locals env k m) as Hready.
  { eapply (agree_ready func p plan info args Hwf Hpn Hpl Hargs i b Hr Hb cm Hcm before' k (s :: after)); [done..|].
    intros y Hy. by eapply root_reads. }
  pose proof (block_tree_stmt func args Hpn Hargs i b Hb s Hsb) as Hts.
  assert (forall v env1 w1, exec_stmts args env w k = Ok (env1, w1) ->
    agree (before' ++ k ++ [s]) (<[stmt_id s := v]> env1) (root_locals p s v locals)) as Hafter.
  { intros v env1 w1 He. rewrite app_assoc.
    apply (agree_root func p plan info args Hwf Hpn Hpl Hargs i b Hr Hb cm Hcm (before' ++ k) s after);
      [by rewrite <- app_assoc|done| |].
    - by eapply (agree_consume func p plan info args Hwf Hpl i b cm Hcm before' k (s :: after)).
    - intros Hrs. apply stores_not_read; [by eapply block_stmts|done]. }
  unfold built_root in Hroot. destruct (is_store (stmt_op s)) eqn:Hst.
  - destruct (stmt_op s) as [| | | | | |name v| | |] eqn:Hop; try done.
    destruct Hroot as (e & Hbt & ->). destruct Hts as [Hg Ha]. rewrite Hop in Hg, Ha. simpl in Ha. apply Forall_cons in Ha as [Ha _].
    pose proof (eval_value before v e before' k m env locals w Hbt Ha Hready) as Hex.
    unfold executed in Hex. rewrite exec_stmts_app. simpl.
    destruct (exec_stmts args env w k) as [[env1 w1]|o] eqn:He; [|by destruct Hex as [-> _]].
    destruct Hex as (u & Hu & ->). rewrite Hop. simpl. unfold exec_op. simpl. rewrite Hu. simpl.
    unfold assign. simpl in Hg. apply negb_true_iff in Hg. rewrite Hg. unfold performed, shape. simpl.
    destruct (perform _ _ _) as [x w2|x w2|]; simpl; [|done|done].
    exists locals. split; [done|]. pose proof (Hafter x env1 w1 eq_refl) as H.
    unfold root_locals in H. by rewrite Hop in H.
  - assert (exists es e, built_all p before (operands (stmt_op s)) es before' k m /\
      rebuild (convert_gate p) (stmt_op s) es (stmt_span s) = Some e /\ right_atomic p (stmt_op s) es /\
      is_inline_op (stmt_op s) = true /\
      r = if Nat.ltb 0 (use_count p (stmt_id s))
          then Assign (spill_name p (stmt_id s)) e (stmt_span s) else Discard e (stmt_span s))
      as (es & e & Hbt & Hre & Hra & Hi & ->) by by destruct (stmt_op s).
    assert (executed args locals env w (k ++ [s]) (fun env' => env' !! stmt_id s) (eval locals e w)) as Hex.
    { apply (eval_inline func p args other (Hssa func p plan info Hpl) Hargs Hshort locals env w k s es e);
        try done; [|by apply (proj2 (built_suffix p)) in Hbt as [_ ?]|apply (ag_params _ _ _ _ _ _ _ _ _ Hag)].
      apply (proj2 (eval_built func p args other Hpn (Hssa func p plan info Hpl) Hargs Hshort)
        before _ es before' k m Hbt); [apply Hts|done]. }
    unfold executed in Hex. rewrite exec_stmts_app in Hex |- *.
    destruct (exec_stmts args env w k) as [[env1 w1]|o] eqn:He.
    2:{ destruct Hex as [Hex _]. destruct (0 <? _); simpl; by rewrite Hex. }
    cbn [exec_stmts] in Hex |- *. rewrite Hph in Hex |- *.
    destruct (exec_op args env1 (stmt_op s) w1) as [[v w2]|o].
    2:{ destruct Hex as [Hex _]. destruct (0 <? _); simpl; by rewrite Hex. }
    destruct Hex as (u & Hu & Hev). rewrite lookup_insert_eq in Hu. injection Hu as <-.
    exists (root_locals p s v locals). split; [|by eapply Hafter]. unfold root_locals. rewrite Hst.
    destruct (0 <? _); simpl; rewrite Hev; simpl; [|done]. unfold assign.
    by rewrite (synthetic_local func _ (spill_synthetic p (stmt_id s))).
Qed.

Lemma exec_roots_app locals rs rs' w :
  exec_roots (param_names func) other locals (rs ++ rs') w =
    (let? (locals, w) := exec_roots (param_names func) other locals rs w in
     exec_roots (param_names func) other locals rs' w).
Proof.
  revert locals w. induction rs as [|r rs IH]; intros locals w; simpl; [done|].
  destruct (exec_root _ _ _ _ _) as [[l w1]|o]; simpl; [apply IH|done].
Qed.

Lemma roots_sim before rs cons mats after env locals w :
  built_roots p before rs cons mats -> stmts b = before ++ after ->
  (forall s, s ∈ cons -> s ∈ cm.1) -> (forall y, y ∈ mats -> y ∈ cm.2) -> agree [] env locals ->
  match exec_stmts args env w before with
  | Ok (env', w') => exists locals',
      exec_roots (param_names func) other locals rs w = Ok (locals', w') /\ agree before env' locals'
  | Err o => exec_roots (param_names func) other locals rs w = Err o
  end.
Proof.
  intros Hbt. revert after. induction Hbt
    as [|before s rs cons mats Hp Hbt IH|before s r before' k m rs cons mats Hp Hroot Hbt IH];
    intros after Hl Hk Hm Hag.
  - simpl. by exists locals.
  - rewrite <- app_assoc in Hl. specialize (IH (s :: after) Hl Hk Hm Hag).
    rewrite exec_stmts_app. destruct (exec_stmts args env w before) as [[env1 w1]|o]; [|done].
    destruct IH as (l1 & Hl1 & Hag1). simpl. rewrite Hp. exists l1. split; [done|].
    by eapply (agree_phi func p plan info args Hwf Hpl i b Hb before s after).
  - destruct (built_root_counts _ _ _ _ _ _ _ 0 Hroot) as [-> _]. rewrite <- !app_assoc in Hl.
    assert (Forall (consumable p) k) as Hcons.
    { pose proof (built_roots_consumable p _ _ _ _ (roots_root p _ _ _ _ _ _ _ _ _ Hp Hroot Hbt)) as H.
      by apply Forall_app in H as [_ H]. }
    assert (agree [] env locals -> _) as IH' by exact (IH (k ++ s :: after) Hl
      ltac:(intros x Hx; apply Hk, elem_of_app; by left) ltac:(intros y Hy; apply Hm, elem_of_app; by left)).
    specialize (IH' Hag). rewrite <- app_assoc, exec_stmts_app, exec_roots_app.
    destruct (exec_stmts args env w before') as [[env1 w1]|o]; [|by rewrite IH'].
    destruct IH' as (l1 & -> & Hag1). cbn [try_].
    pose proof (root_sim (before' ++ k) s r before' k m after env1 l1 w1 Hroot Hp Hl Hcons
      ltac:(intros x Hx; apply Hk, elem_of_app; by right) ltac:(intros y Hy; apply Hm, elem_of_app; by right) Hag1)
      as Hstep.
    destruct (exec_stmts args env1 w1 (k ++ [s])) as [[env2 w2]|o]; simpl; [|by rewrite Hstep].
    destruct Hstep as (l2 & -> & Hag2). simpl. by exists l2.
Qed.
End Block.
End Sim.
