(* ===== verification/PlanEdge.v ===== *)
(** * The copies on an edge are parallel

    Executed one after the other, through temporaries where they interfere, the
    copies give every phi the value that its source had before ([copies_parallel]);
    with the slots written early, the phis of the next block have the values that
    entering it gives them ([edge_agree]). *)

From S2P Require Export PlanSim.

Section Edge.
Context {C : CoreTypes} {SM : Semantics}.
Variable func : SsaFunction.
Variable p : Planner.
Variable args : list Val.
Variable other : gmap string Val -> CoreExpr -> World -> result (Outcome Val World Exn) (Val * World).
Hypothesis Hpn : plannable func.
Hypothesis Hssa : ssa p = func.
Hypothesis Hargs : length args = length (fn_params func).

Abbreviation eval := (eval_expr (param_names func) other).
Abbreviation Env := (gmap SsaValueId Val).
Abbreviation Locals := (gmap string Val).

Definition write_all (l : list (string * Val)) (locals : Locals) : Locals :=
  foldl (fun m e => <[e.1 := e.2]> m) locals l.

(** The two agree on the names that are not written. *)
Definition same_off (W : list string) (l1 l2 : Locals) : Prop :=
  forall name, name ∉ W -> l1 !! name = l2 !! name.

Lemma write_all_other l locals name : name ∉ l.*1 -> write_all l locals !! name = locals !! name.
Proof.
  revert locals. induction l as [|[n u] l IH]; intros locals Hn; [done|]. csimpl in Hn.
  apply not_elem_of_cons in Hn as [Hne Hn]. simpl. unfold write_all in *. simpl. rewrite IH by done.
  by apply lookup_insert_ne.
Qed.

Lemma write_all_elem l locals name u :
  NoDup l.*1 -> (name, u) ∈ l -> write_all l locals !! name = Some u.
Proof. intros Hnd Hin. apply foldl_insert_lookup; [done|by left]. Qed.

Lemma params_write_all l locals :
  Forall (fun e => is_synthetic e.1 = true) l -> params_ok func args locals ->
  params_ok func args (write_all l locals).
Proof.
  intros Hl. revert locals. induction Hl as [|[n u] l Hn _ IH]; intros locals Hp; [done|]. simpl.
  apply IH. by apply (params_insert func args Hpn).
Qed.

(** A copy whose source is not touched by the copies of the list. *)
Definition stable (W : list string) (locals : Locals) (c : SharedCopyPlan) (u : Val) : Prop :=
  copy_name c ∈ W /\ is_synthetic (copy_name c) = true /\
  forall l w, same_off W l locals -> eval l (copy_expr c) w = Ok (u, w).

Lemma exec_copies_stable W locals l us locals' w :
  Forall2 (stable W locals) l us -> same_off W locals' locals ->
  exec_copies (param_names func) other locals' l w =
    Ok (write_all (zip (map copy_name l) us) locals', w).
Proof.
  intros Hl. revert locals'. induction Hl as [|c u l us (Hin & Hs & Hev) _ IH]; intros locals' Hoff; [done|].
  simpl. rewrite (Hev _ _ Hoff). simpl. unfold assign. rewrite (synthetic_local func _ Hs). simpl.
  rewrite IH; [done|]. intros name Hn. rewrite lookup_insert_ne by (intros <-; done). by apply Hoff.
Qed.

(** What the sources of the copies hold. *)
Definition sources_ok (env : Env) (locals : Locals) (cs : list (SsaValueId * SsaValue)) : Prop :=
  forall phi v, (phi, v) ∈ cs -> arg_ok args v /\
    forall y, v = Def y -> slot_ok p locals env y /\ spill_name p y = slot_name y.

Lemma source_stable env locals cs phi v W span :
  params_ok func args locals -> sources_ok env locals cs -> (phi, v) ∈ cs ->
  (forall name, name ∈ W -> is_synthetic name = true) ->
  (forall y, v = Def y -> slot_name y ∉ W) ->
  exists u, read args env v = Some u /\
    forall l w, same_off W l locals -> eval l (materialize p v span) w = Ok (u, w).
Proof.
  intros Hp Hsrc Hin HW Hy. destruct (Hsrc phi v Hin) as [Ha Hs].
  assert (forall l, same_off W l locals -> params_ok func args l /\
    forall y, y ∈ def_ids [v] -> slot_ok p l env y) as Hl.
  { intros l Hoff. split.
    - intros k name Hk. rewrite Hoff; [by apply Hp|]. intros Hn%HW.
      apply list_elem_of_lookup_2, (pn_param_names _ Hpn) in Hk. congruence.
    - intros y Hyd. apply def_ids_elem, list_elem_of_singleton in Hyd.
      destruct (Hs y (eq_sym Hyd)) as [(u & Hu & Hlu) Hn]. exists u. split; [done|].
      rewrite Hoff; [done|]. rewrite Hn. by apply Hy. }
  destruct (Hl locals) as [Hp0 Hs0]; [done|].
  destruct (eval_materialize func p args other Hssa Hargs locals env v span Hp0 Ha Hs0) as (u & Hu & _).
  exists u. split; [done|]. intros l w Hoff. destruct (Hl l Hoff) as [Hp1 Hs1].
  destruct (eval_materialize func p args other Hssa Hargs l env v span Hp1 Ha Hs1) as (u' & Hu' & Hev).
  rewrite Hev. congruence.
Qed.

(** ** The two ways to copy *)

Definition values_of (env : Env) (cs : list (SsaValueId * SsaValue)) (us : list Val) : Prop :=
  Forall2 (fun c u => read args env c.2 = Some u) cs us.

Lemma sources_stable env locals cs W (name : SsaValueId -> string) span ds :
  params_ok func args locals -> sources_ok env locals cs ->
  (forall n, n ∈ W -> is_synthetic n = true) ->
  (forall phi y, (phi, Def y) ∈ cs -> slot_name y ∉ W) ->
  (forall phi, phi ∈ ds.*1 -> name phi ∈ W) -> ds ⊆ cs ->
  exists us, values_of env ds us /\
    Forall2 (stable W locals)
      (map (fun c => {| copy_name := name c.1; copy_expr := materialize p c.2 span; copy_span := span |}) ds) us.
Proof.
  intros Hp Hsrc HW Hy. induction ds as [|[phi v] ds IH]; intros Hn Hsub; [by exists []; split; constructor|].
  destruct IH as (us & Hus & Hst); [intros x Hx; apply Hn; by right|intros x Hx; apply Hsub; by right|].
  assert ((phi, v) ∈ cs) as Hin by (apply Hsub; left).
  destruct (source_stable env locals cs phi v W span Hp Hsrc Hin HW) as (u & Hu & Hev).
  { intros y ->. by eapply Hy. }
  exists (u :: us). split; [by constructor|]. constructor; [|done].
  assert (name phi ∈ W) as Hname by (apply Hn; left). split_and!; [done|by apply HW|done].
Qed.

Lemma values_zip env (cs : list (SsaValueId * SsaValue)) us (name : SsaValueId -> string) phi v :
  values_of env cs us -> (phi, v) ∈ cs ->
  exists u, read args env v = Some u /\ (name phi, u) ∈ zip (map (fun c => name c.1) cs) us.
Proof.
  induction 1 as [|c u cs us Hu _ IH]; [by intros ?%elem_of_nil|]. intros [<-|Hin]%elem_of_cons.
  - exists u. split; [done|]. left.
  - destruct (IH Hin) as (u' & Hu' & Hz). exists u'. split; [done|by right].
Qed.

Lemma zip_names {A} (f : A -> string) cs (us : list Val) :
  length cs = length us -> (zip (map f cs) us).*1 = map f cs.
Proof. intros Hl. apply fst_zip. rewrite length_map. lia. Qed.

(** The slots of the phis have the values of their sources, nothing else changes. *)
Definition copied (env : Env) (cs : list (SsaValueId * SsaValue)) (l l' : Locals) : Prop :=
  params_ok func args l' /\
  (forall phi v, (phi, v) ∈ cs -> exists u, read args env v = Some u /\ l' !! slot_name phi = Some u) /\
  (forall x, x ∉ cs.*1 -> l' !! slot_name x = l !! slot_name x).

Lemma written_copied env cs us l l0 :
  values_of env cs us -> NoDup cs.*1 -> params_ok func args l ->
  (forall x, l !! slot_name x = l0 !! slot_name x) ->
  copied env cs l0 (write_all (zip (map (fun c => slot_name c.1) cs) us) l).
Proof.
  intros Hus Hnd Hp Hoff. pose proof (Forall2_length _ _ _ Hus) as Hl.
  assert ((zip (map (fun c : SsaValueId * SsaValue => slot_name c.1) cs) us).*1 =
    map slot_name cs.*1) as Hnames.
  { rewrite zip_names by done. by rewrite map_map. }
  split_and!.
  - apply params_write_all; [|done]. apply Forall_forall. intros [n u] Hin. simpl.
    apply (list_elem_of_fmap_2 fst) in Hin. rewrite Hnames in Hin.
    apply list_elem_of_fmap in Hin as (x & Hx & _). simpl in Hx. subst n. apply slot_synthetic.
  - intros phi v Hin. destruct (values_zip env cs us slot_name phi v Hus Hin) as (u & Hu & Hz).
    exists u. split; [done|]. apply write_all_elem; [|done]. rewrite Hnames.
    apply NoDup_fmap_2; [apply _|done].
  - intros x Hx. rewrite write_all_other; [apply Hoff|]. rewrite Hnames.
    intros (y & He & Hy)%list_elem_of_fmap. apply (inj slot_name) in He as ->. done.
Qed.

Lemma exec_direct env locals cs span w :
  params_ok func args locals -> sources_ok env locals cs -> NoDup cs.*1 ->
  (forall phi y, (phi, Def y) ∈ cs -> y ∉ cs.*1) ->
  exists l', exec_copies (param_names func) other locals
      (map (fun c => slot_copy span c.1 (materialize p c.2 span)) cs) w = Ok (l', w) /\
    copied env cs locals l'.
Proof.
  intros Hp Hsrc Hnd Hy.
  destruct (sources_stable env locals cs (map slot_name cs.*1) slot_name span cs Hp Hsrc) as (us & Hus & Hst).
  - intros n (x & -> & _)%list_elem_of_fmap. apply slot_synthetic.
  - intros phi y Hin (x & He & Hx)%list_elem_of_fmap. apply (inj slot_name) in He as ->. by eapply Hy.
  - intros phi Hphi. by apply list_elem_of_fmap_2.
  - done.
  - eexists. split; [by apply (exec_copies_stable _ _ _ _ _ _ Hst)|].
    rewrite map_map. by apply written_copied.
Qed.

Lemma exec_copies_app locals l l' w :
  exec_copies (param_names func) other locals (l ++ l') w =
    (let? (locals, w) := exec_copies (param_names func) other locals l w in
     exec_copies (param_names func) other locals l' w).
Proof.
  revert locals w. induction l as [|c l IH]; intros locals w; simpl; [done|].
  destruct (eval locals (copy_expr c) w) as [[v w1]|o]; simpl; [|done].
  destruct (assign _ _ _ _ _) as [[l1 w2]|o]; simpl; [apply IH|done].
Qed.

Lemma temps_hold cs us locals :
  length cs = length us -> NoDup cs.*1 ->
  Forall2 (fun c u =>
    write_all (zip (map (fun c : SsaValueId * SsaValue => temp_name c.1) cs) us) locals !! temp_name c.1 = Some u)
    cs us.
Proof.
  intros Hl Hnd. apply Forall2_same_length_lookup_2; [done|]. intros j c u Hc Hu.
  apply write_all_elem.
  - rewrite zip_names by done.
    assert (map (fun c : SsaValueId * SsaValue => temp_name c.1) cs = map temp_name cs.*1) as ->
      by by rewrite map_map.
    apply NoDup_fmap_2; [apply _|done].
  - apply list_elem_of_lookup. exists j. apply lookup_zip_Some. split; [|done].
    change (map ?f ?l) with (f <$> l). by rewrite list_lookup_fmap, Hc.
Qed.

Lemma exec_staged env locals cs span w :
  params_ok func args locals -> sources_ok env locals cs -> NoDup cs.*1 ->
  exists l', exec_copies (param_names func) other locals (staged_copies p cs span) w = Ok (l', w) /\
    copied env cs locals l'.
Proof.
  intros Hp Hsrc Hnd.
  destruct (sources_stable env locals cs (map temp_name cs.*1) temp_name span cs Hp Hsrc) as (us & Hus & Hst).
  - intros n (x & -> & _)%list_elem_of_fmap. apply temp_synthetic.
  - intros phi y Hin (x & He & Hx)%list_elem_of_fmap. by apply slot_not_temp in He.
  - intros phi Hphi. by apply list_elem_of_fmap_2.
  - done.
  - pose proof (Forall2_length _ _ _ Hus) as Hlen. unfold staged_copies. rewrite exec_copies_app.
    rewrite (exec_copies_stable _ locals _ _ _ w Hst) by done. simpl. rewrite map_map. simpl.
    set (l1 := write_all _ locals).
    assert (forall x, l1 !! slot_name x = locals !! slot_name x) as Hl1.
    { intros x. apply write_all_other. rewrite zip_names by done.
      intros (y & He & _)%list_elem_of_fmap. by apply slot_not_temp in He. }
    assert (params_ok func args l1) as Hp1.
    { apply params_write_all; [|done]. apply Forall_forall. intros [n u] Hin. simpl.
      apply (list_elem_of_fmap_2 fst) in Hin. rewrite zip_names in Hin by done.
      apply list_elem_of_fmap in Hin as (x & Hx & _). simpl in Hx. subst n. apply temp_synthetic. }
    rewrite (exec_copies_stable (map slot_name cs.*1) l1 _ us l1 w); [|clear Hst|done].
    + eexists. split; [done|]. rewrite map_map. by apply written_copied.
    + pose proof (temps_hold cs us locals Hlen Hnd) as Ht. fold l1 in Ht.
      apply Forall2_fmap_l, Forall2_same_length_lookup_2; [done|]. intros j c u Hc Hu.
      pose proof (Forall2_lookup_lr _ _ _ _ _ _ Ht Hc Hu) as Hcu. split_and!; cbn [copy_name copy_expr].
      * apply list_elem_of_fmap_2, list_elem_of_fmap_2. by eapply list_elem_of_lookup_2.
      * apply slot_synthetic.
      * intros l w' Hoff. cbn [eval_expr]. rewrite (synthetic_local func _ (temp_synthetic c.1)).
        rewrite Hoff, Hcu; [done|]. intros (y & He & _)%list_elem_of_fmap. by apply eq_sym, slot_not_temp in He.
Qed.

Lemma interferes_phi (b : SsaBlock) (cs : list (SsaValueId * SsaValue)) phi y s :
  interferes b cs = false -> (phi, Def y) ∈ cs -> s ∈ phis (stmts b) -> stmt_id s <> y.
Proof.
  intros Hf Hin Hs <-. assert (interferes b cs = true); [|congruence]. apply existsb_exists.
  exists (phi, Def (stmt_id s)). split; [by apply list_elem_of_In|]. unfold reads_phi. simpl.
  apply bool_decide_eq_true, elem_of_list_to_set. by apply list_elem_of_fmap_2.
Qed.

(** The copies of an edge are a parallel assignment of the phis. *)
Lemma copies_parallel env locals i t bt span w :
  well_formed func -> analysed func p -> block func t = Some bt -> i ∈ preds bt ->
  params_ok func args locals -> sources_ok env locals (kept_pairs p i t) ->
  exists l', exec_copies (param_names func) other locals (plain_copies p i t span) w = Ok (l', w) /\
    copied env (kept_pairs p i t) locals l'.
Proof.
  intros Hwf Han Hbt Hi Hp. pose proof (an_copies _ _ Han i t bt Hbt Hi) as Hc.
  unfold kept_pairs, plain_copies. destruct (edge_copies p !! (i, t)) as [[cs fl]|]; intros Hsrc.
  2:{ exists locals. split; [done|]. split_and!; [done| |done]. by intros phi v ?%elem_of_nil. }
  destruct Hc as [Hfl Hcs].
  assert (NoDup cs.*1) as Hnd.
  { eapply sublist_NoDup; [by apply (copies_NoDup func t bt i)|]. rewrite Hcs.
    apply fmap_sublist, sublist_filter. }
  destruct fl; [by apply exec_staged|]. apply exec_direct; [done|done|done|].
  assert (forall c, c ∈ cs -> c ∈ copies_of bt i) as Hsub.
  { intros c Hin. rewrite Hcs in Hin. by apply list_elem_of_filter in Hin as [_ ?]. }
  intros phi y Hin Hy. apply list_elem_of_fmap in Hy as ([x v] & -> & Hx). simpl in Hin.
  apply Hsub, copies_of_elem in Hx as (s & ph & Hs & _ & Hid & _).
  by apply (interferes_phi bt _ phi x s (eq_sym Hfl) (Hsub _ Hin) Hs).
Qed.
End Edge.

(** ** Entering the next block *)

Section Enter.
Context {C : CoreTypes} {SM : Semantics}.
Variable func : SsaFunction.
Variable p : Planner.
Variable plan : SharedFunctionPlan.
Variable info : list (list SsaStatement * list SsaValueId).
Variable args : list Val.
Hypothesis Hwf : well_formed func.
Hypothesis Hpn : plannable func.
Hypothesis Hpl : planned func p plan info.
Hypothesis Hargs : length args = length (fn_params func).
Hypothesis Hphis : no_missing func = true.

Abbreviation Env := (gmap SsaValueId Val).
Abbreviation Locals := (gmap string Val).
Abbreviation read_slot := (read_slot info).

Variable i : BlockId.
Variable b : SsaBlock.
Hypothesis Hr : reached (edge func) (fn_entry func) i.
Hypothesis Hb : block func i = Some b.
Variable t : BlockId.
Variable bt : SsaBlock.
Hypothesis Ht : t ∈ targets (terminator b).
Hypothesis Hbt : block func t = Some bt.

Lemma edge_here : edge func i t.
Proof. unfold edge, block_succs. by rewrite Hb, (wf_succs _ Hwf i b Hb). Qed.

Lemma pred_here : i ∈ preds bt.
Proof. apply (pred_spec _ (well_formed_edges _ Hwf) t bt i Hbt), edge_here. Qed.

(** The source of a copy is there at the end of the block. *)
Lemma copy_seen phi y :
  (phi, Def y) ∈ copies_of bt i -> operand_ok func (stmts b) i (Def y).
Proof.
  intros (s & ph & [Hs _]%phis_elem & Hop & _ & Hu & _)%copies_of_elem.
  by apply (phi_entry_visible func Hwf i t b bt s ph y Hr edge_here Hb Hbt Hs Hop).
Qed.

Lemma edge_sources env locals :
  agree func p info args i b (stmts b) env locals ->
  (forall y, y ∈ edge_ids p i t -> read_slot y) -> sources_ok p args env locals (kept_pairs p i t).
Proof.
  intros Hag Hread phi v Hin.
  assert ((phi, v) ∈ copies_of bt i) as Hc.
  { rewrite (edge_kept func Hwf p plan info Hpl i b t bt Hb Ht Hbt) in Hin.
    by apply list_elem_of_filter in Hin as [_ ?]. }
  split; [by apply (arg_known func args Hpn Hargs), (copy_in_values func i t bt phi)|].
  intros y ->. assert (read_slot y) as Hy.
  { apply Hread, def_ids_elem, list_elem_of_fmap. by exists (phi, Def y). }
  split; [|by apply (read_spill func p plan info Hwf Hpl)].
  apply (ag_slots _ _ _ _ _ _ _ _ _ Hag); [done| |].
  - destruct (copy_seen phi y Hc) as [Hs|Hs]; [left|by right]. rewrite map_app. apply elem_of_app. by right.
  - apply (copy_not_overwritten func p plan info Hwf Hpl i b Hb (stmts b) [] t bt phi y);
      [by rewrite app_nil_r|done..].
Qed.

(** The entry of a phi for the edge is there. *)
Lemma phi_entry_here s ph :
  s ∈ stmts bt -> stmt_op s = Phi ph -> exists v, phi_entry i ph = Some v.
Proof.
  intros Hs Hop. destruct (wf_phi _ Hwf t bt s ph Hbt Hs Hop) as [Hed Hlen].
  destruct (phi_entry_some i ph) as (ov & Hov & Hentry); [rewrite Hed; apply pred_here|by rewrite Hed|].
  destruct (phi_complete func Hphis t bt s ph Hbt Hs Hop) as [_ Hm].
  destruct (Hm ov Hov) as [v ->]. by exists v.
Qed.

Lemma kept_or_written phi v :
  (phi, v) ∈ copies_of bt i ->
  (phi, v) ∈ kept_pairs p i t \/
  phi ∉ (kept_pairs p i t).*1 /\ exists d, v = Def d /\ coalesced p !! d = Some phi.
Proof.
  intros Hc. rewrite (edge_kept func Hwf p plan info Hpl i b t bt Hb Ht Hbt).
  destruct (kept_copy p (phi, v)) eqn:Hk.
  - left. by apply list_elem_of_filter.
  - right. split.
    + intros ([x u] & -> & Hin)%list_elem_of_fmap. apply list_elem_of_filter in Hin as [Hk' Hin].
      simpl in *. by rewrite (copies_fun func Hwf i t bt x v u Hbt Hc Hin), Hk' in Hk.
    + unfold kept_copy in Hk. simpl in Hk. destruct v as [d|k|lit]; try done.
      destruct (coalesced p !! d) as [phi'|] eqn:Hco; [|done].
      apply negb_false_iff, Nat.eqb_eq in Hk as ->. by exists d.
Qed.

Lemma kept_phi x : x ∈ (kept_pairs p i t).*1 -> exists s v, s ∈ phis (stmts bt) /\ stmt_id s = x /\
  (x, v) ∈ copies_of bt i.
Proof.
  rewrite (edge_kept func Hwf p plan info Hpl i b t bt Hb Ht Hbt).
  intros ([y v] & -> & Hin)%list_elem_of_fmap. apply list_elem_of_filter in Hin as [_ Hin].
  pose proof Hin as (s & ph & Hs & _ & Hid & _)%copies_of_elem. by exists s, v.
Qed.
(** What is written early, or copied, is a phi that does not copy itself. *)
Lemma written_copy y :
  overwritten p (stmts b) y \/ y ∈ (kept_pairs p i t).*1 -> exists v, (y, v) ∈ copies_of bt i.
Proof.
  intros [Ho|(s & v & _ & _ & Hin)%kept_phi]; [|by exists v].
  destruct (overwritten_split func p plan info Hwf Hpl i b Hb (stmts b) [] y) as (d & t' & bt' & k & s & Hw & _);
    [by rewrite app_nil_r|done|].
  pose proof Ht as Ht'. rewrite (wp_jump _ _ _ _ _ _ _ _ _ Hw) in Ht'. apply list_elem_of_singleton in Ht' as <-.
  pose proof (wp_block _ _ _ _ _ _ _ _ _ Hw) as Hbt'. rewrite Hbt in Hbt'. injection Hbt' as <-.
  exists (Def d). apply (wp_copy _ _ _ _ _ _ _ _ _ Hw).
Qed.

(** A slot that no copy writes keeps its value. *)
Lemma kept_slot env l l' y v :
  agree func p info args i b (stmts b) env l -> copied func args env (kept_pairs p i t) l l' ->
  read_slot y -> operand_ok func (stmts b) i (Def y) -> (forall v, (y, v) ∉ copies_of bt i) ->
  env !! y = v -> exists u, v = Some u /\ l' !! slot_name y = Some u.
Proof.
  intros Hag (_ & _ & Hoff) Hy Hs Hno <-.
  destruct (ag_slots _ _ _ _ _ _ _ _ _ Hag y Hy) as (u & Hu & Hl).
  - destruct Hs as [Hs|Hs]; [left|by right]. rewrite map_app. apply elem_of_app. by right.
  - intros Ho. destruct (written_copy y (or_introl Ho)) as [v Hv]. by apply (Hno v).
  - exists u. split; [done|]. rewrite Hoff.
    + by rewrite <- (read_spill func p plan info Hwf Hpl y Hy).
    + intros Hk. destruct (written_copy y (or_intror Hk)) as [v Hv]. by apply (Hno v).
Qed.

(** The definition that writes the slot of a phi early is in the predecessor. *)
Lemma writer_here phi d :
  coalesced p !! d = Some phi -> (phi, Def d) ∈ copies_of bt i -> d ∈ stmt_ids (stmts b).
Proof.
  intros Hco Hin. pose proof (pl_analysed _ _ _ _ Hpl) as Han.
  destruct (an_coalesced _ _ Han d phi Hco) as (q & t' & bt' & Hbt' & Hq & Hc).
  destruct (co_site _ _ _ _ _ _ Hc) as (bq & k & s & Hbq & Hj & Hsite & Hs & _).
  rewrite (an_ssa _ _ Han) in Hbq.
  destruct (coalesces_unique func q t' bt' i t bt phi phi d Hwf) as [-> _].
  - rewrite <- (an_uses _ _ Han). apply (co_once _ _ _ _ _ _ Hc).
  - done.
  - done.
  - apply (co_copy _ _ _ _ _ _ Hc).
  - by exists bq.
  - done.
  - apply pred_here.
  - done.
  - apply (an_sites _ _ Han) in Hsite as (b' & s' & Hb' & Hs' & <-). simplify_eq.
    apply list_elem_of_fmap_2. by eapply list_elem_of_lookup_2.
Qed.

Lemma copy_phi s ph v v' :
  s ∈ phis (stmts bt) -> stmt_op s = Phi ph -> phi_entry i ph = Some v ->
  (stmt_id s, v') ∈ copies_of bt i -> value_eqb v (Def (stmt_id s)) = false.
Proof.
  intros [Hs _]%phis_elem Hop Hv (s' & ph' & [Hs' _]%phis_elem & Hop' & Hid & Hv' & He)%copies_of_elem.
  assert (s' = s) as ->; [|congruence].
  apply (stmt_unique func s' s Hwf); [by eapply block_stmts..|done].
Qed.

Lemma phi_slot env l l' s ph :
  agree func p info args i b (stmts b) env l -> copied func args env (kept_pairs p i t) l l' ->
  read_slot (stmt_id s) -> s ∈ phis (stmts bt) -> stmt_op s = Phi ph ->
  exists u, phi_value args env (Some i) ph = Some u /\ l' !! slot_name (stmt_id s) = Some u.
Proof.
  intros Hag Hcp Hy Hs Hop. pose proof Hs as [Hsb _]%phis_elem.
  destruct (phi_entry_here s ph Hsb Hop) as [v Hv]. unfold phi_value. simpl. rewrite Hv. simpl.
  destruct (value_eqb v (Def (stmt_id s))) eqn:Hself.
  - apply value_eqb_def in Hself as ->. eapply kept_slot; [done|done|done| | |done].
    + by apply (phi_entry_visible func Hwf i t b bt s ph (stmt_id s) Hr edge_here Hb Hbt Hsb Hop).
    + intros v' Hin. pose proof (copy_phi s ph _ v' Hs Hop Hv Hin) as H.
      by rewrite (proj2 (value_eqb_def _ _) eq_refl) in H.
  - assert ((stmt_id s, v) ∈ copies_of bt i) as Hin by (apply copies_of_elem; by exists s, ph).
    destruct (kept_or_written _ v Hin) as [Hk|[Hk (d & -> & Hco)]].
    + destruct Hcp as (_ & Hcp & _). by apply Hcp.
    + destruct (ag_written _ _ _ _ _ _ _ _ _ Hag d _ Hco (writer_here _ d Hco Hin)) as (u & Hu & Hl).
      exists u. split; [done|]. destruct Hcp as (_ & _ & Hoff). by rewrite Hoff.
Qed.

(** The phis of the next block have the values that entering it gives them. *)
Lemma edge_agree env l l' :
  agree func p info args i b (stmts b) env l -> copied func args env (kept_pairs p i t) l l' ->
  agree func p info args t bt [] (enter args env (Some i) (stmts bt)) l'.
Proof.
  intros Hag Hcp. constructor; [apply Hcp| |by intros d phi _ ?%elem_of_nil].
  intros y Hy Hs _. unfold slot_ok. rewrite (read_spill func p plan info Hwf Hpl y Hy).
  destruct Hs as [Hs|(d & Hne & Hd & Hdom)].
  - rewrite app_nil_r in Hs. apply list_elem_of_fmap in Hs as (s & -> & Hs).
    pose proof Hs as [Hsb Hp]%phis_elem.
    destruct (stmt_op s) as [ph| | | | | | | | |] eqn:Hop; try done.
    rewrite (enter_phi args env (Some i) (stmts bt) s ph); [|by eapply block_ids_NoDup|done|done].
    by eapply phi_slot.
  - assert (forall s, s ∈ stmts bt -> stmt_id s <> y) as Hother.
    { intros s Hin <-. apply Hne. eapply (defines_unique func); [done|exact Hd|]. by exists bt, s. }
    rewrite enter_other by (intros s Hin _; by apply Hother).
    destruct (kept_slot env l l' y (env !! y) Hag Hcp Hy) as (u & Hu & Hl); [|..|done|by exists u].
    + by apply (visible_pred func i t b y d Hb edge_here Hne Hd Hdom).
    + intros v (s & ph & [Hin _]%phis_elem & _ & He & _)%copies_of_elem. by apply (Hother s).
Qed.
End Enter.
