(* ===== verification/PlanRun.v ===== *)
(** * A plan computes what its function computes

    The terminators, whole blocks, and then runs: by induction on the number of
    blocks entered the plan and the function stay in agreement
    ([plan_function_correct]). *)

From S2P Require Export PlanEdge.

Section Run.
Context {C : CoreTypes} {SM : Semantics}.
Variable func : SsaFunction.
Variable p : Planner.
Variable plan : SharedFunctionPlan.
Variable info : list (list SsaStatement * list SsaValueId).
Variable args : list Val.
Variable other : gmap string Val -> CoreExpr -> World -> result (Outcome Val World Exn) (Val * World).
Hypothesis Hwf : well_formed func.
Hypothesis Hpn : plannable func.
Hypothesis Hpl : planned func p plan info.
Hypothesis Hargs : length args = length (fn_params func).
Hypothesis Hphis : no_missing func = true.
Hypothesis Hshort : short_circuits.

Abbreviation eval := (eval_expr (param_names func) other).
Abbreviation Env := (gmap SsaValueId Val).
Abbreviation Locals := (gmap string Val).
Abbreviation read_slot := (read_slot info).
Abbreviation agree_at := (agree func p info args).
Abbreviation copies_run := (exec_copies (param_names func) other).

Section Block.
Variable i : BlockId.
Variable b : SsaBlock.
Hypothesis Hr : reached (edge func) (fn_entry func) i.
Hypothesis Hb : block func i = Some b.
Variable cm : list SsaStatement * list SsaValueId.
Hypothesis Hcm : info !! i = Some cm.

(** A value that the end of the block, or the edge behind it, reads. *)
Definition end_value (v : SsaValue) : Prop :=
  arg_ok args v /\ forall y, v = Def y -> operand_ok func (stmts b) i (Def y) /\
    forall before after, stmts b = before ++ after -> ~ overwritten p before y.

Lemma value_reads v e before' k m y :
  built p (stmts b) v e before' k m -> end_value v ->
  (forall s, s ∈ k -> s ∈ cm.1) -> (forall y, y ∈ m -> y ∈ cm.2) -> y ∈ m ->
  seen func i b before' y /\ ~ overwritten p before' y.
Proof.
  intros Hbt [_ Hv] Hk Hm Hy. pose proof (proj1 (built_suffix p) _ _ _ _ _ _ Hbt) as Hl.
  pose proof (proj1 (built_counts p y) _ _ _ _ _ _ Hbt) as Hc.
  assert (forall k1, (forall s, s ∈ k1 -> s ∈ k) -> y ∉ stmt_ids k1) as Hno.
  { intros k1 Hk1. eapply (not_consumed func p plan info Hwf Hpl i cm Hcm);
      [by exists i, cm; split; [|apply Hm]|]. intros s Hs. by apply Hk, Hk1. }
  apply count_elem in Hy.
  assert (y ∈ def_ids [v] \/ y ∈ operand_ids k) as [Hin|Hin].
  { destruct (decide (y ∈ def_ids [v])) as [?|Hn]; [by left|right]. apply count_elem.
    rewrite count_elem in Hn. lia. }
  - apply def_ids_elem, list_elem_of_singleton in Hin. destruct (Hv y (eq_sym Hin)) as [Hs Ho].
    split; [|by apply (Ho before' k)].
    eapply (end_seen func i b before' k y); [done|done|by apply Hno].
  - apply list_elem_of_bind in Hin as (s & Hs%def_ids_elem & (k1 & k2 & ->)%list_elem_of_split).
    split; [eapply (operand_seen func Hwf i b Hr Hb before' k1 s k2)|
      eapply (operand_not_overwritten func p plan info Hwf Hpl i b Hb before' k1 s k2)]; try done.
    apply Hno. intros x Hx. apply elem_of_app. by left.
Qed.

(** The tree of such a value, evaluated last. *)
Lemma value_sim v e before' k m env locals w :
  built p (stmts b) v e before' k m -> end_value v ->
  (forall s, s ∈ k -> s ∈ cm.1) -> (forall y, y ∈ m -> y ∈ cm.2) -> agree_at i b before' env locals ->
  match exec_stmts args env w k with
  | Ok (env', w') => exists u, read args env' v = Some u /\ eval locals e w = Ok (u, w') /\
      agree_at i b (stmts b) env' locals
  | Err o => eval locals e w = Err o
  end.
Proof.
  intros Hbt Hv Hk Hm Hag. pose proof (proj1 (built_suffix p) _ _ _ _ _ _ Hbt) as Hl.
  assert (stmts b = before' ++ k ++ []) as Hl0 by by rewrite app_nil_r.
  assert (tree_ready func p args locals env k m) as Hready.
  { eapply (agree_ready func p plan info args Hwf Hpn Hpl Hargs i b Hr Hb cm Hcm before' k []); [done..|].
    intros y Hy. by eapply value_reads. }
  pose proof (eval_value func p plan info args other Hpn Hpl Hargs Hshort
    _ v e before' k m env locals w Hbt (proj1 Hv) Hready) as Hex.
  unfold executed in Hex. destruct (exec_stmts args env w k) as [[env' w']|o] eqn:He; [|by destruct Hex].
  destruct Hex as (u & Hu & Hev). exists u. split_and!; [done|done|]. rewrite Hl.
  eapply (agree_consume func p plan info args Hwf Hpl i b cm Hcm before' k []); [done| |done|done|done].
  apply inline_not_phi with p. by apply (proj1 (built_consumable p) _ _ _ _ _ _ Hbt).
Qed.

Lemma term_value v : v ∈ term_operands (terminator b) -> end_value v.
Proof.
  intros Hv. split.
  - apply (arg_known func args Hpn Hargs), list_elem_of_bind. exists b.
    split; [apply elem_of_app; by right|by apply list_elem_of_lookup_2 in Hb].
  - intros y ->. split; [by apply (wf_terminator _ Hwf i b)|].
    intros before after Hl. by apply (term_not_overwritten func p plan info Hwf Hpl i b Hb before after).
Qed.

Lemma copy_value t bt phi v :
  t ∈ targets (terminator b) -> block func t = Some bt -> (phi, v) ∈ copies_of bt i -> end_value v.
Proof.
  intros Ht Hbt Hin. split.
  - by apply (arg_known func args Hpn Hargs), (copy_in_values func i t bt phi).
  - intros y ->. split; [by eapply copy_seen|]. intros before after Hl.
    by apply (copy_not_overwritten func p plan info Hwf Hpl i b Hb before after t bt phi).
Qed.

(** The edge that is taken. *)
Definition arrives (t : BlockId) (env : Env) (locals : Locals) : Prop :=
  exists bt, block func t = Some bt /\ agree_at t bt [] (enter args env (Some i) (stmts bt)) locals.

Lemma edge_sim t env locals span w :
  t ∈ targets (terminator b) -> (forall y, y ∈ edge_ids p i t -> y ∈ cm.2) ->
  agree_at i b (stmts b) env locals ->
  exists l', copies_run locals (plain_copies p i t span) w = Ok (l', w) /\ arrives t env l'.
Proof.
  intros Ht Hm Hag. destruct (target_pred func Hwf i b Hb t Ht) as (bt & Hbt & Hi).
  destruct (copies_parallel func p args other Hpn (Hssa func p plan info Hpl) Hargs env locals i t bt span w)
    as (l' & Hl & Hcp); [done|apply (pl_analysed _ _ _ _ Hpl)|done|done|apply (ag_params _ _ _ _ _ _ _ _ _ Hag)| |].
  - eapply (edge_sources func p plan info args Hwf Hpn Hpl Hargs i b Hr Hb t bt Ht Hbt); [done|].
    intros y Hy. exists i, cm. split; [done|by apply Hm].
  - exists l'. split; [done|]. exists bt. split; [done|]. by eapply edge_agree.
Qed.

Lemma inline_edge t phi v e before' k m span env locals w :
  t ∈ targets (terminator b) -> edge_copies p !! (i, t) = Some ([(phi, v)], false) ->
  built p (stmts b) v e before' k m ->
  (forall s, s ∈ k -> s ∈ cm.1) -> (forall y, y ∈ m -> y ∈ cm.2) -> agree_at i b before' env locals ->
  match exec_stmts args env w k with
  | Ok (env', w') => exists l', copies_run locals [slot_copy span phi e] w = Ok (l', w') /\ arrives t env' l'
  | Err o => copies_run locals [slot_copy span phi e] w = Err o
  end.
Proof.
  intros Ht He Hbt Hk Hm Hag. destruct (target_pred func Hwf i b Hb t Ht) as (bt & Hbt' & Hi).
  assert (kept_pairs p i t = [(phi, v)]) as Hkept by (unfold kept_pairs; by rewrite He).
  assert ((phi, v) ∈ copies_of bt i) as Hin.
  { pose proof (edge_kept func Hwf p plan info Hpl i b t bt Hb Ht Hbt') as H. rewrite Hkept in H.
    assert ((phi, v) ∈ [(phi, v)]) as H' by left. rewrite H in H'. by apply list_elem_of_filter in H' as [_ ?]. }
  pose proof (value_sim v e before' k m env locals w Hbt (copy_value t bt phi v Ht Hbt' Hin) Hk Hm Hag) as Hsim.
  cbn [exec_copies copy_expr copy_name slot_copy].
  destruct (exec_stmts args env w k) as [[env' w']|o]; [|by rewrite Hsim].
  destruct Hsim as (u & Hu & -> & Hag'). cbn [try_]. unfold assign.
  rewrite (synthetic_local func _ (slot_synthetic phi)). cbn [try_]. eexists. split; [done|].
  exists bt. split; [done|]. eapply edge_agree; try done. rewrite Hkept. split_and!.
  - apply (params_insert func args Hpn); [apply slot_synthetic|apply (ag_params _ _ _ _ _ _ _ _ _ Hag)].
  - intros x v' [= -> ->]%list_elem_of_singleton. exists u. split; [done|apply lookup_insert_eq].
  - intros x Hx. apply lookup_insert_ne. intros ->%(inj slot_name). apply Hx. left.
Qed.

(** ** Terminators *)

Lemma branch_sim c t u e k m before' span env locals w :
  terminator b = Branch c t u -> built p (stmts b) c e before' k m ->
  (forall s, s ∈ k -> s ∈ cm.1) ->
  (forall y, y ∈ m ++ (targets (Branch c t u) ≫= edge_ids p i) -> y ∈ cm.2) ->
  agree_at i b before' env locals ->
  match exec_stmts args env w k with
  | Ok (env', w') =>
      match leave args env' w' (Branch c t u) with
      | Ok target => exists l', exec_term (param_names func) other locals
          (BranchPlan e t u (plain_copies p i t span) (plain_copies p i u span)) w = Ok (target, l', w') /\
          arrives target env' l'
      | Err o => exec_term (param_names func) other locals
          (BranchPlan e t u (plain_copies p i t span) (plain_copies p i u span)) w = Err o
      end
  | Err o => exec_term (param_names func) other locals
      (BranchPlan e t u (plain_copies p i t span) (plain_copies p i u span)) w = Err o
  end.
Proof.
  intros Hterm Hbt Hk Hm Hag.
  assert (end_value c) as Hv by (apply term_value; rewrite Hterm; left).
  pose proof (value_sim c e before' k m env locals w Hbt Hv Hk
    ltac:(intros y Hy; apply Hm, elem_of_app; by left) Hag) as Hsim.
  simpl. destruct (exec_stmts args env w k) as [[env' w']|o]; [|by rewrite Hsim].
  destruct Hsim as (x & -> & -> & Hag'). simpl. destruct (truth x) as [y|]; [|done].
  assert (forall target, target ∈ targets (Branch c t u) ->
    exists l', copies_run locals (plain_copies p i target span) w' = Ok (l', w') /\
      arrives target env' l') as Hedge.
  { intros target Hin. apply edge_sim; [by rewrite Hterm| |done].
    intros z Hz. apply Hm, elem_of_app. right. apply list_elem_of_bind. by exists target. }
  assert (t ∈ targets (Branch c t u) /\ u ∈ targets (Branch c t u)) as [Hti Hui].
  { simpl. destruct (Nat.eqb_spec t u) as [->|]; split; try left. right. left. }
  destruct y; [destruct (Hedge t Hti) as (l' & -> & Ha)|destruct (Hedge u Hui) as (l' & -> & Ha)];
    simpl; by exists l'.
Qed.

Lemma term_sim span pt before' k m env locals w :
  built_term p i span (stmts b) (terminator b) pt before' k m ->
  (forall s, s ∈ k -> s ∈ cm.1) -> (forall y, y ∈ m -> y ∈ cm.2) -> agree_at i b before' env locals ->
  match exec_stmts args env w k with
  | Ok (env', w') =>
      match leave args env' w' (terminator b) with
      | Ok target => exists l', exec_term (param_names func) other locals pt w = Ok (target, l', w') /\
          arrives target env' l'
      | Err o => exec_term (param_names func) other locals pt w = Err o
      end
  | Err o => exec_term (param_names func) other locals pt w = Err o
  end.
Proof.
  intros Hbt Hk Hm Hag.
  inversion Hbt as [Ht Hpt|v e ? ? ? Hv Ht Hpt|c t u e ? ? ? Hv Ht Hpt|t Ht Hpt|t phi v e ? ? ? He Hv Ht Hpt]; subst.
  - by simpl.
  - pose proof (value_sim v e before' k m env locals w Hv
      ltac:(apply term_value; rewrite <- Ht; left) Hk Hm Hag) as Hsim.
    simpl. destruct (exec_stmts args env w k) as [[env' w']|o]; [|by rewrite Hsim].
    by destruct Hsim as (u & -> & -> & _).
  - by eapply (branch_sim c t u e k _ before').
  - simpl. destruct (edge_sim t env locals span w) as (l' & Hl & Ha);
      [rewrite <- Ht; left|done|done|]. rewrite Hl. simpl. by exists l'.
  - pose proof (inline_edge t phi v e before' k m span env locals w
      ltac:(rewrite <- Ht; left) He Hv Hk Hm Hag) as Hsim.
    cbn [exec_term leave]. destruct (exec_stmts args env w k) as [[env' w']|o]; [|by rewrite Hsim].
    destruct Hsim as (l' & -> & Ha). simpl. by exists l'.
Qed.

(** ** Blocks *)

Lemma block_sim pb env locals w :
  built_block p i b pb cm.1 cm.2 -> agree_at i b [] env locals ->
  let r := (let? (l, w) := exec_roots (param_names func) other locals (roots pb) w in
            exec_term (param_names func) other l (plan_terminator pb) w) in
  match exec_stmts args env w (stmts b) with
  | Ok (env', w') =>
      match leave args env' w' (terminator b) with
      | Ok target => exists l', r = Ok (target, l', w') /\ arrives target env' l'
      | Err o => r = Err o
      end
  | Err o => r = Err o
  end.
Proof.
  intros (before' & kt & mt & kr & mr & Hterm & Hroots & Hk & Hm) Hag r. unfold r.
  destruct (built_term_counts p _ _ _ _ _ _ _ _ 0 Hterm) as [Hl _].
  pose proof (roots_sim func p plan info args other Hwf Hpn Hpl Hargs Hshort i b Hr Hb cm Hcm
    before' (roots pb) kr mr kt env locals w Hroots Hl
    ltac:(intros s Hs; rewrite Hk; apply elem_of_app; by left)
    ltac:(intros y Hy; rewrite Hm; apply elem_of_app; by left) Hag) as Hsim.
  assert (exec_stmts args env w (stmts b) = exec_stmts args env w (before' ++ kt)) as -> by by rewrite Hl.
  rewrite exec_stmts_app.
  destruct (exec_stmts args env w before') as [[env1 w1]|o]; [|by rewrite Hsim].
  destruct Hsim as (l1 & -> & Hag1). cbn [try_]. eapply (term_sim _ _ before' kt mt); try done.
  - intros s Hs. rewrite Hk. apply elem_of_app. by right.
  - intros y Hy. rewrite Hm. apply elem_of_app. by right.
Qed.
End Block.

(** ** Runs *)

Lemma run_sim fuel pred i b env locals w :
  reached (edge func) (fn_entry func) i -> block func i = Some b ->
  agree_at i b [] (enter args env pred (stmts b)) locals ->
  run_plan (param_names func) other fuel plan i locals w = run fuel func args pred i env w.
Proof.
  revert pred i b env locals w. induction fuel as [|fuel IH]; intros pred i b env locals w Hr Hb Hag; [done|].
  destruct (pl_block _ _ _ _ Hpl i b Hb) as (pb & cm & Hpb & Hcm & Hbt). simpl. rewrite Hpb, Hb.
  pose proof (block_sim i b Hr Hb cm Hcm pb _ locals w Hbt Hag) as Hsim. cbv zeta in Hsim.
  destruct (exec_stmts args _ w (stmts b)) as [[env' w']|o]; [|by rewrite Hsim].
  destruct (leave args env' w' (terminator b)) as [target|o] eqn:Hle; [|by rewrite Hsim].
  destruct Hsim as (l' & -> & (bt & Hbt' & Hag')). eapply IH; [|done|done].
  eapply reached_step; [done|]. by eapply (leave_edge func args Hwf).
Qed.
End Run.

(** ** From the entry *)

Section Correct.
Context {C : CoreTypes} {SM : Semantics}.
Implicit Types func : SsaFunction.

(** The arguments are where the parameters are. *)
Lemma params_start func args :
  NoDup (param_names func) -> length args = length (fn_params func) ->
  params_ok func args (list_to_map (zip (param_names func) args)).
Proof.
  intros Hnd Hl k name Hk. assert (length (param_names func) = length args) as Hlen.
  { unfold param_names. by rewrite length_map. }
  destruct (lookup_lt_is_Some_2 args k) as [v Hv].
  { rewrite <- Hlen. by eapply lookup_lt_Some. }
  rewrite Hv. apply elem_of_list_to_map_1.
  - rewrite fst_zip by lia. done.
  - apply list_elem_of_lookup. exists k. apply lookup_zip_Some. done.
Qed.

(** Nothing is visible at the start: the entry has no phis. *)
Lemma entry_agree func p plan info args b :
  well_formed func -> plannable func -> planned func p plan info -> no_missing func = true ->
  length args = length (fn_params func) -> block func (fn_entry func) = Some b ->
  agree func p info args (fn_entry func) b [] (enter args ∅ None (stmts b))
    (list_to_map (zip (param_names func) args)).
Proof.
  intros Hwf Hpn Hpl Hphis Hargs Hb. constructor.
  - apply params_start; [apply (pn_params _ Hpn)|done].
  - intros y _ Hs _. exfalso. destruct Hs as [Hs|(d & Hne & _ & ->%dominator_entry)]; [|done].
    rewrite app_nil_r in Hs. apply list_elem_of_fmap in Hs as (s & -> & [Hs Hp]%phis_elem).
    destruct (stmt_op s) as [phi| | | | | | | | |] eqn:Hop; try done.
    destruct (wf_phi _ Hwf _ b s phi Hb Hs Hop) as [_ Hlen].
    destruct (phi_complete func Hphis _ b s phi Hb Hs Hop) as [Hne _]. apply Hne.
    destruct (wf_entry _ Hwf) as (e & He & Hpr). rewrite Hb in He. injection He as <-.
    rewrite Hpr in Hlen. by destruct (values phi).
  - by intros d phi _ ?%elem_of_nil.
Qed.

(** What the lowering checked. *)
Lemma scan_entry is_module written func :
  scan_lowerable is_module written func = Ok tt -> fn_entry func = 0.
Proof. unfold scan_lowerable. by destruct (Nat.eqb_spec (fn_entry func) 0). Qed.

Lemma plan_correct func args span gate :
  well_formed func -> plannable func -> fn_entry func = 0 -> no_missing func = true ->
  length args = length (fn_params func) -> short_circuits ->
  exists plan, plan_function func span gate = Ok plan /\
    forall other fuel w, evaluate_plan fuel func plan other args w = evaluate fuel func args w.
Proof.
  intros Hwf Hpn Hentry Hphis Hargs Hshort.
  destruct (plan_total func Hwf Hpn span gate) as (plan & p & info & Hplan & Hpl).
  exists plan. split; [done|]. intros other fuel w. unfold evaluate_plan, evaluate.
  destruct (wf_entry _ Hwf) as (b & Hb & _). rewrite <- Hentry at 1.
  apply (run_sim func p plan info args other Hwf Hpn Hpl Hargs Hphis Hshort fuel None _ b);
    [apply reached_entry|done|by apply (entry_agree func p plan)].
Qed.

(** C6. The plan of a function in SSA form computes what the function computes.
    Where no operation is opaque, the operands of [&&] and [||] are not computed in
    their block and globals are not locals ([plannable_check]), the planner gives a
    plan, and every run of the plan, with its trees, slots and copies executed in
    order, ends as the run of the function does. *)
Theorem plan_function_correct func args is_module written span gate :
  well_formed func -> scan_lowerable is_module written func = Ok tt -> plannable_check func = true ->
  no_missing func = true -> length args = length (fn_params func) -> short_circuits ->
  exists plan, plan_function func span gate = Ok plan /\
    forall other fuel w, evaluate_plan fuel func plan other args w = evaluate fuel func args w.
Proof.
  intros Hwf Hscan%scan_entry Hpn%plannable_checked Hphis Hargs Hshort. by apply plan_correct.
Qed.

End Correct.
