(* ===== verification/CoreSem.v ===== *)
(** * What Core IR computes

    A definitional interpreter of the structured part of Core IR, with the operations
    of [Semantics]: the reference that the SSA construction is held against.  A local
    is a name that the function binds; every other name is a global, which only
    [perform] knows.  Left out are the constructs that the construction keeps opaque,
    calls whose name has type arguments, and [&&] and [||], which the SSA form
    evaluates eagerly. *)

From S2P Require Export SsaEligible PlanSem BuildExpr.

(** ** Literals without a negative zero

    On them the derived [PartialEq] is equality. *)

Definition not_negative_zero (x : spec_float) : bool :=
  match x with S754_zero true => false | _ => true end.

Fixpoint plain_literal (lit : Literal) : bool :=
  match lit with
  | Literal_Float x | Literal_Float32 x | Literal_Float16 x => not_negative_zero x
  | Literal_Array data _ => forallb not_negative_zero data
  | Literal_Struct _ fields => forallb plain_literal fields
  | Literal_Expr _ args => forallb plain_literal args
  | Literal_QuoteNode l => plain_literal l
  | _ => true
  end.

Lemma f64_eqb_plain x y :
  f64_eqb x y = true -> not_negative_zero x = true -> not_negative_zero y = true -> x = y.
Proof.
  intros He Hx Hy. destruct (nonzero x) eqn:Hz; [by apply f64_eqb_nonzero|].
  destruct x as [[]| | |]; try done. by destruct y as [[]|[]| |[]].
Qed.

Lemma vec_eqb_plain {A} (eqb : A -> A -> bool) (good : A -> bool) xs ys :
  Forall (fun x => forall y, eqb x y = true -> good x = true -> good y = true -> x = y) xs ->
  vec_eqb eqb xs ys = true -> forallb good xs = true -> forallb good ys = true -> xs = ys.
Proof.
  intros H. revert ys. induction H as [|x xs Hx _ IH]; intros [|y ys]; simpl; try done.
  intros [H1 H2]%andb_true_iff [H3 H4]%andb_true_iff [H5 H6]%andb_true_iff. f_equal; auto.
Qed.

Lemma literal_eqb_plain a b :
  literal_eqb a b = true -> plain_literal a = true -> plain_literal b = true -> a = b.
Proof.
  revert a b. apply (literal_nested_ind (fun a => forall b, literal_eqb a b = true ->
    plain_literal a = true -> plain_literal b = true -> a = b)).
  - intros n fields IH [] He Ha Hb; try done. simpl in *. apply andb_true_iff in He as [He1 He2].
    apply String.eqb_eq in He1. apply (vec_eqb_plain _ _ _ _ IH) in He2; [congruence|done|done].
  - intros h l IH [] He Ha Hb; try done. simpl in *. apply andb_true_iff in He as [He1 He2].
    apply String.eqb_eq in He1. apply (vec_eqb_plain _ _ _ _ IH) in He2; [congruence|done|done].
  - intros l IH [] He Ha Hb; try done. simpl in *. f_equal. auto.
  - intros []; try done; intros []; simpl; try done; intros He Ha Hb;
      try (apply f64_eqb_plain in He; [congruence|done|done]); try equal_fields.
    apply andb_true_iff in He as [He1 He2].
    apply (vec_eqb_plain f64_eqb not_negative_zero) in He1; [equal_fields| |done|done].
    apply Forall_forall. intros x _ y. apply f64_eqb_plain.
Qed.

Section CoreSem.
Context {C : CoreTypes} {U : UnicodeTables} {SM : Semantics}.

(** ** The fragment *)

Definition is_and_or (op : BinaryOp) : bool := match op with And | Or => true | _ => false end.

(** No type arguments in the name. *)
Definition plain_name (function : string) : bool :=
  match find_char 123 (chars function) with Some _ => false | None => true end.

Fixpoint structured_expr (e : CoreExpr) : bool :=
  match e with
  | Expr_Literal lit _ => plain_literal lit
  | Expr_Var _ _ => true
  | Expr_BinaryOp op lhs rhs _ => negb (is_and_or op) && structured_expr lhs && structured_expr rhs
  | Expr_UnaryOp _ operand _ => structured_expr operand
  | Expr_Call function args kwargs _ _ _ =>
      plain_name function && forallb structured_expr args &&
      forallb (fun kw => structured_expr kw.2) kwargs
  | Expr_ModuleCall _ _ args kwargs _ _ _ =>
      forallb structured_expr args && forallb (fun kw => structured_expr kw.2) kwargs
  | Expr_Builtin _ args _ => forallb structured_expr args
  | Expr_AssignExpr _ value _ => structured_expr value
  | Expr_Ternary condition then_expr else_expr _ =>
      structured_expr condition && structured_expr then_expr && structured_expr else_expr
  | _ => false
  end.

Fixpoint structured_stmt (s : CoreStmt) : bool :=
  match s with
  | Stmt_Block b => structured_block b
  | Stmt_Assign var value _ =>
      match decode_tuple_comprehension_binding var with Some _ => false | None => structured_expr value end
  | Stmt_AddAssign _ value _ => structured_expr value
  | Stmt_If condition then_branch else_branch _ =>
      structured_expr condition && structured_block then_branch &&
      match else_branch with Some b => structured_block b | None => true end
  | Stmt_While condition body _ => structured_expr condition && structured_block body
  | Stmt_Break _ | Stmt_Continue _ | Stmt_Global _ _ | Stmt_Meta _ _ | Stmt_LocalDecl _ _ _ => true
  | Stmt_Return value _ => match value with Some e => structured_expr e | None => true end
  | Stmt_Expr e _ => structured_expr e
  | _ => false
  end
with structured_block (b : CoreBlock) : bool :=
  match b with Block l _ => forallb structured_stmt l end.

(** ** Expressions *)

Abbreviation outcome := (Outcome Val World Exn).
Abbreviation Store := (gmap string Val).
Abbreviation evaluating A := (Store -> World -> result outcome (A * Store * World)).

Section Scope.
(** The names declared [global], and those that the function binds. *)
Variables globals locals : gset string.

Definition perform_in (op : SsaOp) (vs : list Val) : evaluating Val := fun st w =>
  let? (v, w) := performed op vs w in Ok (v, st, w).

(** A local without a value is undefined. *)
Definition read_name (name : string) : evaluating Val := fun st w =>
  if bool_decide (name ∈ globals) then perform_in (LoadGlobal name) [] st w
  else
    match st !! name with
    | Some v => Ok (v, st, w)
    | None =>
        if bool_decide (name ∈ locals) then Err (UndefinedRead w)
        else perform_in (LoadGlobal name) [] st w
    end.

Definition write_name (name : string) (v : Val) : evaluating unit := fun st w =>
  if bool_decide (name ∈ globals) then
    let? (_, st, w) := perform_in (StoreGlobal name (Argument 0)) [v] st w in Ok (tt, st, w)
  else Ok (tt, <[name := v]> st, w).

(** Left to right. *)
Definition eval_all {A} (eval : A -> evaluating Val) : list A -> evaluating (list Val) :=
  fix go es st w :=
    match es with
    | [] => Ok ([], st, w)
    | e :: es =>
        let? (v, st, w) := eval e st w in
        let? (vs, st, w) := go es st w in
        Ok (v :: vs, st, w)
    end.

(** What is outside of the fragment does not occur. *)
Fixpoint eval (e : CoreExpr) : evaluating Val := fun st w =>
  match e with
  | Expr_Literal lit _ => Ok (lit_val lit, st, w)
  | Expr_Var name _ => read_name name st w
  | Expr_BinaryOp op lhs rhs _ =>
      let? (a, st, w) := eval lhs st w in
      let? (b, st, w) := eval rhs st w in
      perform_in (Binary op (Argument 0) (Argument 0)) [a; b] st w
  | Expr_UnaryOp op operand _ =>
      let? (v, st, w) := eval operand st w in perform_in (Unary op (Argument 0)) [v] st w
  | Expr_Call function args kwargs sm km _ =>
      let? (vs, st, w) := eval_all eval args st w in
      let? (us, st, w) := eval_all (fun kw : string * CoreExpr => eval kw.2) kwargs st w in
      perform_in (call_op None function args kwargs sm km) (vs ++ us) st w
  | Expr_ModuleCall module function args kwargs sm km _ =>
      let? (vs, st, w) := eval_all eval args st w in
      let? (us, st, w) := eval_all (fun kw : string * CoreExpr => eval kw.2) kwargs st w in
      perform_in (call_op (Some module) function args kwargs sm km) (vs ++ us) st w
  | Expr_Builtin name args _ =>
      let? (vs, st, w) := eval_all eval args st w in
      perform_in (Builtin name (map (fun _ => Argument 0) args)) vs st w
  | Expr_AssignExpr var value _ =>
      let? (v, st, w) := eval value st w in
      let? (_, st, w) := write_name var v st w in
      Ok (v, st, w)
  | Expr_Ternary condition then_expr else_expr _ =>
      let? (c, st, w) := eval condition st w in
      match truth c with
      | None => Err (NotBool c w)
      | Some b => if b : bool then eval then_expr st w else eval else_expr st w
      end
  | _ => Err NoBlock
  end.

(** ** Statements *)

(** How a statement ends; a return ends the run.  The value is what the function
    returns if the statement is its last. *)
Inductive Completion :=
  | Normal (value : option Val)
  | Broke
  | Continued.

(** The fuel bounds the turns of loops. *)
Abbreviation executing := (nat -> Store -> World -> result outcome (Completion * Store * World)).

Definition exec_all {A} (exec : A -> executing) (fuel : nat)
    : option Val -> list A -> Store -> World -> result outcome (Completion * Store * World) :=
  fix go last_value l st w :=
    match l with
    | [] => Ok (Normal last_value, st, w)
    | s :: l =>
        let? (c, st, w) := exec s fuel st w in
        match c with Normal v => go v l st w | _ => Ok (c, st, w) end
    end.

Definition while_loop (condition : evaluating Val) (body : executing) : executing :=
  fix loop fuel st w :=
    match fuel with
    | 0 => Err OutOfFuel
    | S fuel =>
        let? (c, st, w) := condition st w in
        match truth c with
        | None => Err (NotBool c w)
        | Some false => Ok (Normal None, st, w)
        | Some true =>
            let? (r, st, w) := body fuel st w in
            match r with Broke => Ok (Normal None, st, w) | _ => loop fuel st w end
        end
    end.

(** A statement without a value. *)
Definition discard (r : result outcome (Completion * Store * World))
    : result outcome (Completion * Store * World) :=
  let? (c, st, w) := r in Ok (match c with Normal _ => Normal None | _ => c end, st, w).

Fixpoint exec (s : CoreStmt) : executing := fun fuel st w =>
  match s with
  | Stmt_Block b => exec_block b fuel st w
  | Stmt_Assign var value _ =>
      match decode_tuple_comprehension_binding var with
      | Some _ => Err NoBlock
      | None =>
          let? (v, st, w) := eval value st w in
          let? (_, st, w) := write_name var v st w in
          Ok (Normal (Some v), st, w)
      end
  | Stmt_AddAssign var value _ =>
      let? (a, st, w) := read_name var st w in
      let? (b, st, w) := eval value st w in
      let? (v, st, w) := perform_in (Binary Add (Argument 0) (Argument 0)) [a; b] st w in
      let? (_, st, w) := write_name var v st w in
      Ok (Normal (Some v), st, w)
  | Stmt_If condition then_branch else_branch _ =>
      let? (c, st, w) := eval condition st w in
      match truth c with
      | None => Err (NotBool c w)
      | Some true => discard (exec_block then_branch fuel st w)
      | Some false =>
          match else_branch with
          | Some b => discard (exec_block b fuel st w)
          | None => Ok (Normal None, st, w)
          end
      end
  | Stmt_While condition body _ => while_loop (eval condition) (exec_block body) fuel st w
  | Stmt_Break _ => Ok (Broke, st, w)
  | Stmt_Continue _ => Ok (Continued, st, w)
  | Stmt_Return (Some e) _ => let? (v, _, w) := eval e st w in Err (Returned (Some v) w)
  | Stmt_Return None _ => Err (Returned None w)
  | Stmt_Expr e _ => let? (v, st, w) := eval e st w in Ok (Normal (Some v), st, w)
  | Stmt_Global _ _ | Stmt_Meta _ _ | Stmt_LocalDecl _ _ _ => Ok (Normal None, st, w)
  | _ => Err NoBlock
  end
with exec_block (b : CoreBlock) : executing := fun fuel st w =>
  match b with Block l _ => exec_all exec fuel None l st w end.
End Scope.

(** ** Only what a construct binds changes *)

Section Frame.
Variables globals locals : gset string.

Abbreviation eval := (eval globals locals).
Abbreviation exec := (exec globals locals).

(** The store changes at most at the names [ws]. *)
Definition framed (ws : gset string) (st st' : Store) : Prop :=
  forall name, name ∉ ws -> st' !! name = st !! name.

Lemma framed_refl ws st : framed ws st st.
Proof. done. Qed.

Lemma framed_trans ws ws' st1 st2 st3 :
  framed ws st1 st2 -> framed ws' st2 st3 -> framed (ws ∪ ws') st1 st3.
Proof. intros H1 H2 name Hn. rewrite H2, H1; set_solver. Qed.

Lemma framed_sub ws ws' st st' : ws ⊆ ws' -> framed ws st st' -> framed ws' st st'.
Proof. intros Hs H name Hn. apply H. set_solver. Qed.

Lemma perform_in_frame op vs st w x st' w' : perform_in op vs st w = Ok (x, st', w') -> st' = st.
Proof. intros ([y w1] & _ & [= <- <- <-])%try_Ok. done. Qed.

Lemma read_name_frame name st w x st' w' :
  read_name globals locals name st w = Ok (x, st', w') -> st' = st.
Proof.
  unfold read_name. case_bool_decide; [apply perform_in_frame|].
  destruct (st !! name); [by intros [= <- <- <-]|]. case_bool_decide; [done|apply perform_in_frame].
Qed.

Lemma write_name_frame name v st w x st' w' :
  write_name globals name v st w = Ok (x, st', w') -> framed {[name]} st st'.
Proof.
  unfold write_name. case_bool_decide.
  - intros ([[y st1] w1] & Hp & [= <- <- <-])%try_Ok. by apply perform_in_frame in Hp as ->.
  - intros [= <- <- <-] n Hn. rewrite lookup_insert_ne; [done|set_solver].
Qed.

Lemma eval_all_frame {A} (f : A -> evaluating Val) (ws : A -> gset string) es :
  Forall (fun e => forall st w x st' w', f e st w = Ok (x, st', w') -> framed (ws e) st st') es ->
  forall st w x st' w', eval_all f es st w = Ok (x, st', w') -> framed (union_map ws es) st st'.
Proof.
  induction 1 as [|e es He _ IH]; intros st w x st' w'; simpl; [by intros [= <- <- <-]|].
  intros ([[y st1] w1] & H1 & ([[ys st2] w2] & H2 & [= <- <- <-])%try_Ok)%try_Ok.
  eapply framed_trans; [by eapply He|by eapply IH].
Qed.

Lemma eval_frame : forall e st w x st' w', eval e st w = Ok (x, st', w') ->
  framed (expr_write_names e) st st'.
Proof.
  assert (forall (ws : gset string) op vs st1 st w x st' w', framed ws st1 st ->
    perform_in op vs st w = Ok (x, st', w') -> framed ws st1 st') as Hlast.
  { intros ws op vs st1 st w x st' w' Hf Hp. by apply perform_in_frame in Hp as ->. }
  fix IH 1. intros e st w x st' w'. destruct e; simpl; try done.
  - by intros [= <- <- <-].
  - by intros ->%read_name_frame.
  - intros ([[y st1] w1] & H1 & ([[z st2] w2] & H2 & H3)%try_Ok)%try_Ok.
    eapply Hlast; [|exact H3]. eapply framed_trans; by eapply IH.
  - intros ([[y st1] w1] & H1 & H2)%try_Ok. eapply Hlast; [by eapply IH|exact H2].
  - intros ([[y st1] w1] & H1 & ([[z st2] w2] & H2 & H3)%try_Ok)%try_Ok.
    eapply Hlast; [|exact H3]. eapply framed_trans; (eapply eval_all_frame; [|done]);
      apply Forall_all; [apply IH|intros kw; apply IH].
  - intros ([[y st1] w1] & H1 & H2)%try_Ok. eapply Hlast; [|exact H2].
    eapply eval_all_frame; [apply Forall_all, IH|done].
  - intros ([[y st1] w1] & H1 & ([[z st2] w2] & H2 & H3)%try_Ok)%try_Ok.
    eapply Hlast; [|exact H3]. eapply framed_trans; (eapply eval_all_frame; [|done]);
      apply Forall_all; [apply IH|intros kw; apply IH].
  - intros ([[y st1] w1] & H1 & H2)%try_Ok. destruct (truth y) as [[]|]; [| |done].
    + eapply framed_sub; [|eapply framed_trans; eapply IH; [exact H1|exact H2]]. set_solver.
    + eapply framed_sub; [|eapply framed_trans; eapply IH; [exact H1|exact H2]]. set_solver.
  - intros ([[y st1] w1] & H1 & ([[z st2] w2] & H2 & [= <- <- <-])%try_Ok)%try_Ok.
    eapply framed_sub; [|eapply framed_trans; [by eapply IH|by eapply write_name_frame]]. set_solver.
Qed.

(** What [exec] of a statement leaves alone. *)
Definition frames (ws : gset string)
    (run : nat -> Store -> World -> result outcome (Completion * Store * World)) : Prop :=
  forall fuel st w c st' w', run fuel st w = Ok (c, st', w') -> framed ws st st'.

Lemma exec_all_frame {A} f (ws : A -> gset string) l :
  Forall (fun s => frames (ws s) (f s)) l ->
  forall last, frames (union_map ws l) (fun fuel => exec_all f fuel last l).
Proof.
  induction 1 as [|s l Hs _ IH]; intros last fuel st w c st' w'; simpl; [by intros [= <- <- <-]|].
  intros ([[c1 st1] w1] & H1 & H2)%try_Ok. destruct c1 as [v| |].
  - eapply framed_trans; [by eapply Hs|by eapply IH].
  - injection H2 as <- <- <-. eapply framed_sub; [apply union_subseteq_l|by eapply Hs].
  - injection H2 as <- <- <-. eapply framed_sub; [apply union_subseteq_l|by eapply Hs].
Qed.

Lemma while_loop_frame ws cond body :
  (forall st w x st' w', cond st w = Ok (x, st', w') -> framed ws st st') -> frames ws body ->
  frames ws (while_loop cond body).
Proof.
  intros Hc Hb fuel. induction fuel as [|fuel IH]; intros st w c st' w'; simpl; [done|].
  intros ([[x st1] w1] & H1 & H2)%try_Ok. apply Hc in H1.
  destruct (truth x) as [[]|]; [|by injection H2 as <- <- <-|done].
  apply try_Ok in H2 as ([[r st2] w2] & H2 & H3). apply Hb in H2.
  assert (framed ws st st2) as H12 by (intros name Hn; rewrite H2, H1; done).
  destruct r as [v| |]; [|by injection H3 as <- <- <-|]; apply IH in H3; intros name Hn; by rewrite H3, H12.
Qed.

Lemma discard_Ok r c st w :
  discard r = Ok (c, st, w) -> exists c', r = Ok (c', st, w).
Proof. intros ([[c' st'] w'] & -> & [= <- <- <-])%try_Ok. by eexists. Qed.

(** A block, from its statements. *)
Definition block_frames (IH : forall s, frames (stmt_write_names s) (exec s)) (b : CoreBlock)
    : frames (block_write_names b) (exec_block globals locals b) :=
  match b with Block l _ => exec_all_frame exec stmt_write_names l (Forall_all _ IH l) None end.

Lemma exec_frame : forall s, frames (stmt_write_names s) (exec s).
Proof.
  fix IH 1. intros s fuel st w c st' w'. destruct s; simpl; try done.
  - apply (block_frames IH).
  - unfold insert_assign_targets. destruct (decode_tuple_comprehension_binding var); [done|].
    intros ([[x st1] w1] & H1%eval_frame & ([[y st2] w2] & H2%write_name_frame & [= <- <- <-])%try_Ok)%try_Ok.
    eapply framed_sub; [|by eapply framed_trans]. set_solver.
  - intros ([[x st1] w1] & ->%read_name_frame & H)%try_Ok.
    apply try_Ok in H as ([[y st2] w2] & H2%eval_frame & H).
    apply try_Ok in H as ([[z st3] w3] & ->%perform_in_frame & H).
    apply try_Ok in H as ([[u st4] w4] & H4%write_name_frame & [= <- <- <-]).
    eapply framed_sub; [|by eapply framed_trans]. set_solver.
  - intros H. eapply (while_loop_frame _ _ _); [| |exact H].
    + intros st1 w1 x st2 w2 H1%eval_frame. eapply framed_sub; [apply union_subseteq_l|done].
    + intros n st1 w1 x st2 w2 H1%(block_frames IH). eapply framed_sub; [apply union_subseteq_r|done].
  - intros ([[x st1] w1] & H1%eval_frame & H)%try_Ok. destruct (truth x) as [[]|]; [| |done].
    + apply discard_Ok in H as [c' H%(block_frames IH)].
      eapply framed_sub; [|eapply framed_trans; [exact H1|exact H]]. set_solver.
    + destruct else_branch as [b|].
      * apply discard_Ok in H as [c' H%(block_frames IH)].
        eapply framed_sub; [|eapply framed_trans; [exact H1|exact H]]. simpl. set_solver.
      * injection H as <- <- <-. eapply framed_sub; [|exact H1]. set_solver.
  - by intros [= <- <- <-].
  - by intros [= <- <- <-].
  - destruct value as [e|]; [|done]. intros ([[x st1] w1] & _ & [=])%try_Ok.
  - intros ([[x st1] w1] & H1%eval_frame & [= <- <- <-])%try_Ok. done.
  - by intros [= <- <- <-].
  - by intros [= <- <- <-].
  - by intros [= <- <- <-].
Qed.
End Frame.

(** ** Functions *)

(** The names that the parameters and the body bind. *)
Definition global_names (f : CoreFunction) : gset string :=
  collect_global_decls (func_body f) ∖ list_to_set (map param_name (all_params f)).

Definition local_names (f : CoreFunction) : gset string :=
  list_to_set (map param_name (all_params f)) ∪ block_write_names (func_body f) ∖ global_names f.

Definition bind_arg (st : Store) (p : SsaParam * Val) : Store := <[param_name p.1 := p.2]> st.

(** The value of the last statement is returned where control falls off the end;
    [break] and [continue] outside of a loop do not occur. *)
Definition exec_function (fuel : nat) (f : CoreFunction) (args : list Val) (w : World) : outcome :=
  match exec_block (global_names f) (local_names f) (func_body f) fuel
          (foldl bind_arg ∅ (zip (all_params f) args)) w with
  | Ok (Normal v, _, w) => Returned v w
  | Ok (_, _, w) => NoBlock
  | Err o => o
  end.
End CoreSem.
