(* ===== verification/BuildTame.v ===== *)
(** * What the builder's environments hold

    Facts about every run of the conversion that need no invariant of the graph: new
    statements get new identifiers, environments hold values that exist and names
    that are local, what a loop remembers is never forgotten.  [tame need post m]
    states them for a part [m] of the conversion that uses the values and environments
    [need] and gives those of [post]. *)

From S2P Require Export CoreSem BuildFinish.

Section Tame.
Context {C : CoreTypes} {U : UnicodeTables}.
(** The names declared [global], and the locals. *)
Variables G L : gset string.

Abbreviation Env := (gmap string SsaValue).
Abbreviation B := bl_blocks.

(** ** Values that exist *)

Inductive item :=
  | Value (v : SsaValue)
  | Values (e : Env).

Definition valid (n : nat) (v : SsaValue) : Prop :=
  match v with
  | Def x => x < n
  | Argument _ => True
  | Const lit => plain_literal lit = true
  end.

Definition valid_env (n : nat) (e : Env) : Prop :=
  forall name v, e !! name = Some v -> name ∈ L /\ valid n v.

Definition item_ok (n : nat) (i : item) : Prop :=
  match i with Value v => valid n v | Values e => valid_env n e end.

Lemma valid_mono n n' v : n <= n' -> valid n v -> valid n' v.
Proof. destruct v; simpl; [lia|done|done]. Qed.

Lemma valid_env_mono n n' e : n <= n' -> valid_env n e -> valid_env n' e.
Proof. intros Hn He name v Hv. destruct (He name v Hv). split; [done|by eapply valid_mono]. Qed.

Lemma items_mono n n' l : n <= n' -> Forall (item_ok n) l -> Forall (item_ok n') l.
Proof.
  intros Hn Hl. eapply Forall_impl; [exact Hl|]. intros [v|e]; [by apply valid_mono|by apply valid_env_mono].
Qed.

Lemma items_sub n l l' : l ⊆ l' -> Forall (item_ok n) l' -> Forall (item_ok n) l.
Proof. rewrite !Forall_forall. intros Hs Hl i Hi. by apply Hl, Hs. Qed.

(** Equal values that exist are the same. *)
Lemma valid_eqb n a b : value_eqb a b = true -> valid n a -> valid n b -> a = b.
Proof.
  destruct a, b; simpl; try done; [by intros ->%Nat.eqb_eq|by intros ->%Nat.eqb_eq|].
  intros He Ha Hb. by rewrite (literal_eqb_plain _ _ He Ha Hb).
Qed.

(** ** Builders *)

Definition env_items (l : list (BlockId * Env)) : list item := map (fun e => Values e.2) l.

Definition frame_items (F : LoopFrame) : list item :=
  env_items (exit_incoming F) ++ env_items (latch_incoming F).

Record static (s : Builder) : Prop := {
  sc_globals : globals s = G;
  sc_env : valid_env (next_value s) (env s);
  sc_frames : Forall (fun F => Forall (item_ok (next_value s)) (frame_items F)) (loop_stack s)
}.

Definition frames_later (l l' : list LoopFrame) : Prop :=
  match l, l' with
  | [], [] => True
  | F :: r, F' :: r' =>
      r' = r /\ lf_header F' = lf_header F /\ exit_incoming F `prefix_of` exit_incoming F' /\
      latch_incoming F `prefix_of` latch_incoming F'
  | _, _ => False
  end.

Record later (s s' : Builder) : Prop := {
  lt_next : next_value s <= next_value s';
  lt_ids u x : x ∈ ids (B s') u -> x ∈ ids (B s) u \/ next_value s <= x;
  lt_frames : frames_later (loop_stack s) (loop_stack s')
}.

Lemma frames_later_refl l : frames_later l l.
Proof. by destruct l. Qed.

Lemma frames_later_trans l1 l2 l3 : frames_later l1 l2 -> frames_later l2 l3 -> frames_later l1 l3.
Proof.
  destruct l1, l2, l3; try done. intros (-> & H1 & H2 & H3) (-> & K1 & K2 & K3).
  split_and!; [done|congruence|by etrans|by etrans].
Qed.

Lemma later_refl s : later s s.
Proof. constructor; [done|by left|apply frames_later_refl]. Qed.

Lemma later_trans s1 s2 s3 : later s1 s2 -> later s2 s3 -> later s1 s3.
Proof.
  intros [H1 H2 H3] [K1 K2 K3]. constructor; [lia| |by eapply frames_later_trans].
  intros u x [Hx|Hx]%K2; [by apply H2|right; lia].
Qed.

Definition tame {A} (need : list item) (post : A -> list item) (m : Building A) : Prop :=
  forall s a s', static s -> Forall (item_ok (next_value s)) need -> m s = Ok (a, s') ->
    static s' /\ later s s' /\ Forall (item_ok (next_value s')) (post a).

Definition nothing {A} (_ : A) : list item := [].
Definition the_value (v : SsaValue) : list item := [Value v].
Definition some_value (v : option SsaValue) : list item :=
  match v with Some v => [Value v] | None => [] end.

Lemma tame_ret {A} need post (a : A) : post a ⊆ need -> tame need post (build_ret a).
Proof.
  intros Hp s b s' Hs Hn [= <- <-]. split; [done|]. split; [apply later_refl|by eapply items_sub; [exact Hp|]].
Qed.

Lemma tame_none {A} need (a : A) : tame need nothing (build_ret a).
Proof. by apply tame_ret; intros i ?%elem_of_nil. Qed.

Lemma tame_err {A} need (post : A -> list item) e : tame need post (build_err e).
Proof. by intros s a s' _ _ [=]. Qed.

Lemma tame_bind {A B'} need (post : A -> list item) (post' : B' -> list item) m k :
  tame need post m -> (forall a, tame (need ++ post a) post' (k a)) -> tame need post' (build_bind m k).
Proof.
  intros Hm Hk s b s' Hs Hn (a & s1 & H1 & H2)%bind_Ok.
  destruct (Hm s a s1 Hs Hn H1) as (Hs1 & Hl1 & Ha).
  destruct (Hk a s1 b s' Hs1) as (Hs' & Hl2 & Hb); [|done|].
  - apply Forall_app. split; [|done]. eapply items_mono; [apply (lt_next _ _ Hl1)|done].
  - split; [done|]. split; [by eapply later_trans|done].
Qed.

Lemma tame_weaken {A} need need' (post post' : A -> list item) m :
  need ⊆ need' -> (forall a, post' a ⊆ post a) -> tame need post m -> tame need' post' m.
Proof.
  intros Hn Hp Hm s a s' Hs Ho H1. destruct (Hm s a s' Hs) as (Hs' & Hl & Ha); [by eapply items_sub; [exact Hn|]|done|].
  split; [done|]. split; [done|]. by eapply items_sub; [apply Hp|].
Qed.

Lemma tame_more {A} need need' (post : A -> list item) m : need ⊆ need' -> tame need post m -> tame need' post m.
Proof. intros Hn. by apply tame_weaken. Qed.

Lemma tame_seq {A B'} need (post : A -> list item) (post' : B' -> list item) m k :
  tame need post m -> (forall a, tame need post' (k a)) -> tame need post' (build_bind m k).
Proof.
  intros Hm Hk. eapply tame_bind; [done|]. intros a. eapply tame_more; [|apply Hk].
  intros i Hi. apply elem_of_app. by left.
Qed.

Lemma tame_get {A} need (post : A -> list item) k :
  (forall s, globals s = G -> tame (Values (env s) :: need) post (k s)) ->
  tame need post (build_bind build_get k).
Proof.
  intros Hk s b s' Hs Hn H1. apply bind_Ok in H1 as (s0 & s1 & [= <- <-] & H1).
  apply (Hk s (sc_globals _ Hs) s b s' Hs); [|done]. constructor; [apply (sc_env _ Hs)|done].
Qed.

(** *** Steps *)

Lemma static_blocks s s' :
  static s -> globals s' = globals s -> env s' = env s -> loop_stack s' = loop_stack s ->
  next_value s <= next_value s' -> static s'.
Proof.
  intros [H1 H2 H3] Hg He Hl Hn. constructor; [congruence|rewrite He; by eapply valid_env_mono|].
  rewrite Hl. eapply Forall_impl; [exact H3|]. intros F HF. by eapply items_mono.
Qed.

Lemma later_blocks s s' :
  loop_stack s' = loop_stack s -> next_value s <= next_value s' ->
  (forall u x, x ∈ ids (B s') u -> x ∈ ids (B s) u \/ next_value s <= x) -> later s s'.
Proof. intros Hl Hn Hi. constructor; [done|done|]. rewrite Hl. apply frames_later_refl. Qed.

Lemma emit_tame need op span : tame need the_value (emit op span).
Proof.
  intros s a s' Hs Hn (b & Hb & -> & ->)%emit_Ok. split_and!.
  - apply (static_blocks s); try done. simpl. lia.
  - apply later_blocks; [done|simpl; lia|]. intros u x. simpl. rewrite (ids_insert _ _ b) by done.
    case_decide as Hu; [|by left]. subst u. simpl. rewrite map_app. rewrite (ids_lookup _ _ _ Hb).
    intros [?|Hx%list_elem_of_singleton]%elem_of_app; [by left|right; simpl in Hx; lia].
  - constructor; [simpl; lia|done].
Qed.

(** A step that changes no statement. *)
Definition quiet {A} (m : Building A) : Prop :=
  forall s a s', m s = Ok (a, s') ->
    globals s' = globals s /\ env s' = env s /\ loop_stack s' = loop_stack s /\
    next_value s' = next_value s /\ forall u, ids (B s') u = ids (B s) u.

Lemma quiet_tame {A} need (m : Building A) : quiet m -> tame need nothing m.
Proof.
  intros Hq s a s' Hs Hn (H1 & H2 & H3 & H4 & H5)%Hq. split_and!; [|apply later_blocks; [done|lia|]|done].
  - apply (static_blocks s); [done..|lia].
  - intros u x. rewrite H5. by left.
Qed.

Lemma quiet_update u f :
  (forall b, map stmt_id (bb_stmts (f b)) = map stmt_id (bb_stmts b)) -> quiet (update_block u f).
Proof.
  intros Hf s a s'. unfold update_block. destruct (B s !! u) as [b|] eqn:Hb; [|done]. intros [= _ <-].
  split_and!; try done. intros v. simpl. rewrite (ids_insert _ _ b) by done.
  case_decide as Hv; [|done]. subst v. by rewrite Hf, (ids_lookup _ _ _ Hb).
Qed.

Lemma set_terminator_tame need u t : tame need nothing (set_terminator u t).
Proof. by apply quiet_tame, quiet_update. Qed.

Lemma close_pending_tame need u : tame need nothing (close_pending u).
Proof. by apply quiet_tame, quiet_update. Qed.

Lemma new_block_tame need : tame need nothing new_block.
Proof. apply quiet_tame. intros s a s' [= <- <-]. split_and!; try done. intros u. simpl. apply ids_snoc. Qed.

Lemma with_current_tame need u : tame need nothing (build_modify (with_current u)).
Proof. apply quiet_tame. by intros s a s' [= _ <-]. Qed.

Lemma is_closed_tame need u : tame need nothing (is_closed u).
Proof.
  apply quiet_tame. intros s a s'. unfold is_closed. destruct (B s !! u); [|done]. by intros [= _ <-].
Qed.

Lemma with_env_tame need e : Values e ∈ need -> tame need nothing (build_modify (with_env (fun _ => e))).
Proof.
  intros He s a s' [H1 H2 H3] Hn [= _ <-]. rewrite Forall_forall in Hn. split_and!; [|apply later_blocks; auto|done].
  constructor; [done|apply (Hn _ He)|done].
Qed.

Lemma insert_tame need name v :
  name ∈ L -> Value v ∈ need -> tame need nothing (build_modify (with_env (insert name v))).
Proof.
  intros Hname Hv s a s' [H1 H2 H3] Hn [= _ <-]. rewrite Forall_forall in Hn.
  split_and!; [|apply later_blocks; auto|done].
  constructor; [done| |done]. intros n x. simpl. intros [[<- <-]|[_ Hx]]%lookup_insert_Some; [by split; [|apply (Hn _ Hv)]|].
  by apply H2.
Qed.

(** *** Variables and lists *)

Lemma read_var_tame need name span : tame need the_value (read_var name span).
Proof.
  apply tame_get. intros s Hg. unfold local_value. destruct (bool_decide (name ∈ globals s)); [apply emit_tame|].
  destruct (env s !! name) as [v|] eqn:Hv; [|apply emit_tame].
  intros s1 a s' Hs Hn [= <- <-]. split; [done|]. split; [apply later_refl|].
  apply Forall_cons in Hn as [He _]. constructor; [apply (He name v Hv)|done].
Qed.

Lemma write_var_tame need name v span :
  name ∈ G ∪ L -> Value v ∈ need -> tame need nothing (write_var name v span).
Proof.
  intros Hname Hv. apply tame_get. intros s Hg. rewrite Hg. case_bool_decide as Hin.
  - eapply tame_seq; [apply emit_tame|]. intros u. apply tame_none.
  - apply insert_tame; [set_solver|by right].
Qed.

Lemma build_mapM_tame {A B'} need (f : A -> Building B') post l :
  Forall (fun x => tame [] post (f x)) l -> tame need nothing (build_mapM f l).
Proof.
  intros H. induction H as [|x l Hx _ IH]; simpl; [apply tame_none|].
  eapply tame_seq; [eapply tame_more; [|exact Hx]; apply list_subseteq_nil|]. intros y.
  eapply tame_seq; [exact IH|]. intros ys. apply tame_none.
Qed.

(** *** Merging *)

Lemma env_items_elem (l : list (BlockId * Env)) u e : (u, e) ∈ l -> Values e ∈ env_items l.
Proof. intros H. apply list_elem_of_fmap. by exists (u, e). Qed.

Lemma agreed_elem values v : agreed values = Some v -> Some v ∈ values.
Proof. destruct values as [|[a|] l]; simpl; [done| |done]. destruct (forallb _ l); [|done]. intros [= ->]. left. Qed.

Lemma merge_vars_tame incoming keys merged span :
  (forall key, key ∈ keys -> key ∈ L) ->
  tame (Values merged :: env_items incoming) (fun e => [Values e]) (merge_vars incoming keys merged span).
Proof.
  revert merged. induction keys as [|key keys IH]; intros merged Hk; simpl; [apply tame_ret; set_solver|].
  assert (forall v n, valid n v -> valid_env n merged -> valid_env n (<[key := v]> merged)) as Hins.
  { intros v n Hv He name x [[<- <-]|[_ Hx]]%lookup_insert_Some; [split; [apply Hk; left|done]|by apply He]. }
  destruct (agreed _) as [first|] eqn:Ha.
  - intros s a s' Hs Hn H. apply (IH (<[key := first]> merged) ltac:(by intros; apply Hk; right) s a s' Hs); [|done].
    apply Forall_cons in Hn as [Hm Hn]. constructor; [|done]. apply Hins; [|done].
    apply agreed_elem, list_elem_of_fmap in Ha as ([u e] & He & Hu). simpl in He. symmetry in He.
    rewrite Forall_forall in Hn. apply (Hn _ (env_items_elem _ _ _ Hu) key first He).
  - eapply tame_bind; [apply emit_tame|]. intros v s a s' Hs Hn H.
    apply (IH (<[key := v]> merged) ltac:(by intros; apply Hk; right) s a s' Hs); [|done].
    simpl in Hn. apply Forall_cons in Hn as [Hm Hn]. apply Forall_app in Hn as [Hn Hv]. constructor; [|done].
    apply Hins; [|done]. by apply Forall_cons in Hv as [Hv _].
Qed.

Lemma union_map_elem (l : list (BlockId * Env)) key :
  key ∈ union_map (fun e => env_names e.2) l <-> exists u e v, (u, e) ∈ l /\ e !! key = Some v.
Proof.
  induction l as [|[u e] l IH]; simpl; [set_solver|]. rewrite elem_of_union, IH. unfold env_names at 1. rewrite elem_of_dom.
  split.
  - intros [[v Hv]|(u' & e' & v & H & Hv)]; [exists u, e, v; split; [left|done]|exists u', e', v; split; [by right|done]].
  - intros (u' & e' & v & [[= -> ->]|H]%elem_of_cons & Hv); [left; by eexists|right; by exists u', e', v].
Qed.

Lemma ordered_elem (names : gset string) name : name ∈ ordered names <-> name ∈ names.
Proof. unfold ordered. by rewrite merge_sort_Permutation, elem_of_elements. Qed.

Lemma merge_into_tame join incoming fallback span :
  tame (Values fallback :: env_items incoming) nothing (merge_into join incoming fallback span).
Proof.
  unfold merge_into. eapply tame_seq; [apply with_current_tame|]. intros _.
  pose proof (sort_edges_perm incoming) as Hp.
  assert (env_items (sort_edges incoming) ⊆ env_items incoming) as Hsub.
  { intros i Hi. unfold env_items in *. by rewrite <- Hp. }
  destruct (sort_edges incoming) as [|[u e] [|e2 l]] eqn:Hs.
  - apply with_env_tame. left.
  - apply with_env_tame. right. apply Hsub. left.
  - rewrite <- Hs in *. intros s a s' Hst Hn H.
    apply bind_Ok in H as (m & s1 & H1 & ->%modify_Ok).
    destruct (merge_vars_tame (sort_edges incoming)
      (ordered (union_map (fun e => env_names e.2) (sort_edges incoming))) ∅ span) with s m s1
      as (Hs1 & Hl & Hm); [|done| |done|].
    + intros key (w & f & v & Hw & Hf)%ordered_elem%union_map_elem.
      apply Forall_cons in Hn as [_ Hn]. rewrite Forall_forall in Hn.
      apply (Hn (Values f) (Hsub _ (env_items_elem _ _ _ Hw)) key v Hf).
    + apply Forall_cons in Hn as [_ Hn]. constructor; [by intros name v ?|by eapply items_sub].
    + apply Forall_cons in Hm as [Hm _]. split_and!; [|by destruct Hl|done].
      destruct Hs1. by constructor.
Qed.

(** *** Expressions *)

Lemma in_new_block_tame {A} need e (post : A -> list item) m :
  Values e ∈ need -> tame [] post m -> tame need (fun r => post r.2) (in_new_block e m).
Proof.
  intros He Hm. unfold in_new_block. eapply tame_seq; [apply new_block_tame|]. intros id.
  eapply tame_seq; [apply with_current_tame|]. intros _.
  eapply tame_seq; [by apply with_env_tame|]. intros _.
  eapply tame_bind; [eapply tame_more; [apply list_subseteq_nil|exact Hm]|]. intros a.
  apply tame_ret. simpl. set_solver.
Qed.

(** Steps of a run that give nothing. *)
Ltac tame_steps :=
  repeat (eapply tame_seq; [first [apply new_block_tame|apply set_terminator_tame|apply with_current_tame|
    apply is_closed_tame]|intros ?]).
Ltac in_need := unfold the_value, some_value, nothing; simpl; set_solver.

Lemma convert_ternary_tame condition then_expr else_expr span :
  tame [] the_value condition -> tame [] the_value then_expr -> tame [] the_value else_expr ->
  tame [] the_value (convert_ternary condition then_expr else_expr span).
Proof.
  intros Hc Ht He. unfold convert_ternary. eapply tame_bind; [exact Hc|]. intros c.
  apply tame_get. intros s Hg.
  eapply tame_bind; [apply in_new_block_tame; [left|exact Ht]|]. intros t. apply tame_get. intros s1 Hg1.
  eapply tame_bind; [apply in_new_block_tame; [in_need|exact He]|]. intros f. apply tame_get. intros s2 Hg2.
  tame_steps. eapply tame_seq; [eapply tame_more; [|apply merge_into_tame]; in_need|]. intros _.
  destruct (value_eqb _ _); [apply tame_ret; in_need|apply emit_tame].
Qed.

Lemma union_map_sub {A} (f : A -> gset string) l x : x ∈ l -> f x ⊆ union_map f l.
Proof. induction 1 as [x l|x y l _ IH]; simpl; set_solver. Qed.

Lemma list_tame {A} (f : A -> Building SsaValue) (good_elem : A -> bool) (writes : A -> gset string) l :
  Forall (fun x => good_elem x = true -> writes x ⊆ G ∪ L -> tame [] the_value (f x)) l ->
  forallb good_elem l = true -> union_map writes l ⊆ G ∪ L ->
  Forall (fun x => tame [] the_value (f x)) l.
Proof.
  rewrite !Forall_forall. intros Hf Hg Hw x Hx. apply Hf; [done| |].
  - rewrite forallb_forall in Hg. by apply Hg, list_elem_of_In.
  - etrans; [by apply union_map_sub|done].
Qed.

Lemma call_tame need module function (args : list CoreExpr) kwargs sm km span :
  Forall (fun x => tame [] the_value (convert_expr x)) args ->
  Forall (fun kw : string * CoreExpr => tame [] the_value (convert_expr kw.2)) kwargs ->
  tame need the_value (build_bind (build_mapM convert_expr args) (fun vs =>
    build_bind (build_mapM (fun kw => build_bind (convert_expr kw.2) (fun u => build_ret (kw.1, u))) kwargs)
      (fun us => emit (Call module function vs us sm km) span))).
Proof.
  intros Ha Hk. eapply tame_seq; [by eapply build_mapM_tame|]. intros vs.
  eapply tame_seq; [|intros us; apply emit_tame]. eapply (build_mapM_tame _ _ nothing).
  eapply Forall_impl; [exact Hk|]. intros kw Hkw. eapply tame_seq; [exact Hkw|]. intros u. apply tame_none.
Qed.

Lemma plain_name_direct s function : plain_name function = true -> call_needs_opaque_path s function = false.
Proof. unfold plain_name, call_needs_opaque_path. by destruct (find_char 123 _). Qed.

Lemma convert_expr_tame : forall e,
  structured_expr e = true -> expr_write_names e ⊆ G ∪ L -> tame [] the_value (convert_expr e).
Proof.
  fix IH 1. intros e. destruct e; simpl; try done; intros Hs Hw.
  - intros s a s' Hst Hn [= <- <-]. split; [done|]. split; [apply later_refl|by repeat constructor].
  - apply read_var_tame.
  - apply andb_true_iff in Hs as [[_ H1]%andb_true_iff H2].
    eapply tame_seq; [apply IH; [done|set_solver]|]. intros l.
    eapply tame_seq; [apply IH; [done|set_solver]|]. intros r. apply emit_tame.
  - eapply tame_seq; [by apply IH|]. intros v. apply emit_tame.
  - apply andb_true_iff in Hs as [[Hname H1]%andb_true_iff H2].
    apply tame_get. intros s _. rewrite plain_name_direct by done.
    apply call_tame; [eapply (list_tame _ structured_expr expr_write_names); [|done|set_solver]|
      eapply (list_tame (fun kw => convert_expr kw.2) (fun kw => structured_expr kw.2) (fun kw => expr_write_names kw.2));
        [|done|set_solver]].
    + apply Forall_all, IH.
    + apply Forall_all. intros kw. apply IH.
  - eapply tame_seq; [eapply build_mapM_tame, (list_tame _ structured_expr expr_write_names); [|done|done]|].
    + apply Forall_all, IH.
    + intros vs. apply emit_tame.
  - apply andb_true_iff in Hs as [H1 H2].
    apply call_tame; [eapply (list_tame _ structured_expr expr_write_names); [|done|set_solver]|
      eapply (list_tame (fun kw => convert_expr kw.2) (fun kw => structured_expr kw.2) (fun kw => expr_write_names kw.2));
        [|done|set_solver]].
    + apply Forall_all, IH.
    + apply Forall_all. intros kw. apply IH.
  - apply andb_true_iff in Hs as [[H1 H2]%andb_true_iff H3].
    apply convert_ternary_tame; apply IH; (done || set_solver).
  - eapply tame_bind; [apply IH; [done|set_solver]|]. intros v.
    eapply tame_seq; [apply write_var_tame; [set_solver|in_need]|]. intros _. apply tame_ret. in_need.
Qed.

(** *** Jumps *)

Lemma open_end_tame need :
  tame need (fun o : option (BlockId * Env) => env_items (opt (fun e => [e]) o)) open_end.
Proof.
  apply tame_get. intros s _. eapply tame_seq; [apply is_closed_tame|]. intros closed.
  apply tame_ret. destruct closed; simpl; set_solver.
Qed.

Lemma jump_blocks_tame need target us : tame need nothing (jump_blocks target us).
Proof. induction us as [|u us IH]; simpl; [apply tame_none|]. tame_steps. exact IH. Qed.

Lemma jump_all_tame need target ends : tame need nothing (jump_all target ends).
Proof. induction ends as [|e ends IH]; simpl; [apply tame_none|]. tame_steps. exact IH. Qed.

Lemma update_loop_tame need construct span u e f :
  Values e ∈ need ->
  (forall F, lf_header (f F) = lf_header F /\
    exists l1 l2, exit_incoming (f F) = exit_incoming F ++ l1 /\
      latch_incoming (f F) = latch_incoming F ++ l2 /\ l1 ⊆ [(u, e)] /\ l2 ⊆ [(u, e)]) ->
  tame need nothing (update_loop construct span f).
Proof.
  intros He Hf s a s' [H1 H2 H3] Hn. unfold update_loop. destruct (loop_stack s) as [|F fr] eqn:Hls; [done|].
  intros [= <- <-]. destruct (Hf F) as (Hh & l1 & l2 & E1 & E2 & S1 & S2).
  apply Forall_cons in H3 as [HF H3]. rewrite Forall_forall in Hn. specialize (Hn _ He).
  assert (forall l, l ⊆ [(u, e)] -> Forall (item_ok (next_value s)) (env_items l)) as Hadd.
  { intros l Hl. apply Forall_forall. intros i (p & -> & Hp)%list_elem_of_fmap.
    apply Hl, list_elem_of_singleton in Hp as ->. exact Hn. }
  split_and!; [| |done].
  - constructor; [done|done|]. simpl. constructor; [|done]. unfold frame_items, env_items in *. rewrite E1, E2, !map_app.
    apply Forall_app in HF as [HF1 HF2]. rewrite !Forall_app. by split_and!; auto.
  - constructor; [done|by left|]. simpl. rewrite Hls. split_and!; [done|done|by eexists|by eexists].
Qed.

Lemma convert_break_tame span : tame [] nothing (convert_break span).
Proof.
  apply tame_get. intros s _. eapply tame_seq; [|intros F; apply close_pending_tame].
  apply (update_loop_tame _ _ _ (current s) (env s)); [left|]. intros F. split; [done|].
  exists [(current s, env s)], []. rewrite app_nil_r. split_and!; [done|done|done|by intros i ?%elem_of_nil].
Qed.

Lemma convert_continue_tame span : tame [] nothing (convert_continue span).
Proof.
  apply tame_get. intros s _. eapply tame_seq; [|intros F; apply set_terminator_tame].
  apply (update_loop_tame _ _ _ (current s) (env s)); [left|]. intros F. split; [done|].
  exists [], [(current s, env s)]. rewrite app_nil_r. split_and!; [done|done|by intros i ?%elem_of_nil|done].
Qed.

Lemma reopen_tame need : tame need nothing reopen.
Proof.
  apply tame_get. intros s _. eapply tame_seq; [apply is_closed_tame|]. intros [].
  - tame_steps. apply with_current_tame.
  - apply tame_none.
Qed.

Lemma convert_stmts_tame {A} (f : A -> Building (option SsaValue)) l :
  Forall (fun x => tame [] some_value (f x)) l -> forall last,
  tame (some_value last) some_value (convert_stmts f last l).
Proof.
  induction 1 as [|x l Hx _ IH]; intros last; simpl; [by apply tame_ret|].
  eapply tame_seq; [apply reopen_tame|]. intros _.
  eapply tame_bind; [eapply tame_more; [apply list_subseteq_nil|exact Hx]|]. intros v.
  eapply tame_more; [|apply IH]. set_solver.
Qed.

(** *** Conditionals and loops *)

Lemma convert_if_tame condition then_branch else_branch span :
  tame [] the_value condition -> tame [] some_value then_branch ->
  (forall m, else_branch = Some m -> tame [] some_value m) ->
  tame [] nothing (convert_if condition then_branch else_branch span).
Proof.
  intros Hc Ht He. unfold convert_if. eapply tame_bind; [exact Hc|]. intros c.
  apply tame_get. intros s _.
  eapply tame_seq; [apply in_new_block_tame; [left|exact Ht]|]. intros t.
  eapply tame_bind; [apply open_end_tame|]. intros te.
  eapply (tame_bind _ (fun r : option BlockId * option (BlockId * Env) => env_items (opt (fun e => [e]) r.2))).
  - destruct else_branch as [m|]; [|apply tame_ret; simpl; set_solver].
    eapply tame_seq; [apply in_new_block_tame; [in_need|by apply He]|]. intros r.
    eapply tame_bind; [apply open_end_tame|]. intros ee. apply tame_ret. simpl. set_solver.
  - intros r. tame_steps. eapply tame_seq; [apply jump_all_tame|]. intros _.
    eapply tame_more; [|apply merge_into_tame]. unfold env_items. rewrite !map_app.
    destruct r as [[b|] re]; in_need.
Qed.

Lemma header_phis_tame need header pre pre_env vars span :
  (forall var, var ∈ vars -> var ∈ L) -> tame need nothing (header_phis header pre pre_env vars span).
Proof.
  induction vars as [|var vars IH]; intros Hv; [apply tame_none|].
  assert (tame need nothing (header_phis header pre pre_env vars span)) as Hrest by (apply IH; intros; apply Hv; by right).
  intros s a s' Hs Hn H. cbn [header_phis] in H.
  apply bind_Ok in H as (id & s1 & [= <- <-] & H). apply bind_Ok in H as (x & s2 & Hu & H).
  apply bind_Ok in H as (y & s3 & ->%modify_Ok & H).
  unfold update_block in Hu. simpl in Hu. destruct (B s !! header) as [b|] eqn:Hb; [|done].
  injection Hu as <- <-. match type of H with header_phis _ _ _ _ _ ?st = _ => set (s3 := st) in * end.
  assert (static s3 /\ later s s3) as [Hs3 Hl3].
  { destruct Hs as [H1 H2 H3]. split; constructor; simpl; [done| | |lia| |apply frames_later_refl].
    - intros name v [[<- <-]|[_ Hx]]%lookup_insert_Some; [split; [apply Hv; left|simpl; lia]|].
      eapply valid_env_mono; [|exact H2|exact Hx]. lia.
    - eapply Forall_impl; [exact H3|]. intros F. apply items_mono. lia.
    - intros u i. rewrite (ids_insert _ _ b) by done. case_decide as Hu; [|by left]. subst u. simpl.
      rewrite map_app, (ids_lookup _ _ _ Hb). intros [?|Hi%list_elem_of_singleton]%elem_of_app; [by left|right; simpl in Hi; lia]. }
  destruct (Hrest s3 a s' Hs3) as (K1 & K2 & K3); [by eapply items_mono; [apply Hl3|]|exact H|].
  split; [done|]. split; [by eapply later_trans|done].
Qed.

Lemma seal_phis_tame need header latches index vars : tame need nothing (seal_phis header latches index vars).
Proof.
  revert index. induction vars as [|var vars IH]; intros index; [apply tame_none|].
  intros s a s' Hs Hn H. cbn [seal_phis] in H. apply bind_Ok in H as (s0 & s1 & [= <- <-] & H).
  destruct (B s !! header) as [b|] eqn:Hb; [|done]. destruct (bb_stmts b !! index) as [stmt|] eqn:Hst; [|done].
  apply bind_Ok in H as (x & s2 & Hu & H). unfold update_block in Hu. rewrite Hb in Hu. injection Hu as <- <-.
  match type of H with seal_phis _ _ _ _ ?st = _ => set (s2 := st) in * end.
  assert (static s2 /\ later s s2) as [Hs2 Hl2].
  { split; [by apply (static_blocks s)|]. apply later_blocks; [done|done|]. intros u i. simpl.
    rewrite (ids_insert _ _ b) by done. case_decide as Hu; [|by left]. subst u. simpl.
    change (map stmt_id ?l) with (stmt_id <$> l). rewrite list_fmap_insert, seal_id, list_insert_id.
    - rewrite (ids_lookup _ _ _ Hb). by left.
    - by rewrite list_lookup_fmap, Hst. }
  destruct (IH (index + 1) s2 a s' Hs2) as (K1 & K2 & K3); [done|exact H|].
  split; [done|]. split; [by eapply later_trans|done].
Qed.

(** The body in its own frame. *)
Lemma loop_body_tame need header entry e body span :
  Values e ∈ need -> tame [] some_value body ->
  tame need frame_items
    (build_bind (build_modify (looped header)) (fun _ =>
     build_bind (build_modify (with_current entry)) (fun _ =>
     build_bind (build_modify (with_env (fun _ => e))) (fun _ =>
     build_bind body (fun _ => pop_loop span))))).
Proof.
  intros He Hb s F s' Hs Hn H. apply bind_Ok in H as (x & s1 & ->%modify_Ok & H).
  assert (static (looped header s)) as Hs1.
  { destruct Hs as [H1 H2 H3]. constructor; [done|done|]. simpl. by constructor. }
  apply bind_Ok in H as (x1 & s2 & H2 & H).
  destruct (with_current_tame need entry _ _ _ Hs1 Hn H2) as (Hs2 & Hl2 & _).
  apply bind_Ok in H as (x2 & s3 & H3 & H).
  destruct (with_env_tame need e He s2 x2 s3 Hs2) as (Hs3 & Hl3 & _); [by eapply items_mono; [apply Hl2|]|exact H3|].
  apply bind_Ok in H as (v & s4 & H4 & H).
  destruct (Hb s3 v s4 Hs3) as (Hs4 & Hl4 & _); [done|exact H4|].
  unfold pop_loop in H. destruct (loop_stack s4) as [|F4 fr] eqn:Hfr; [done|]. injection H as -> <-.
  destruct Hl4 as [L1 L2 L3]. destruct Hl3 as [K1 K2 K3]. destruct Hl2 as [J1 J2 J3].
  pose proof (frames_later_trans _ _ _ (frames_later_trans _ _ _ J3 K3) L3) as Hf. rewrite Hfr in Hf. simpl in Hf.
  destruct Hf as (-> & _). destruct Hs4 as [M1 M2 M3]. rewrite Hfr in M3. apply Forall_cons in M3 as [MF M3].
  simpl in J1, J2, K1, K2. split_and!; [by constructor| |done].
  constructor; simpl; [lia| |apply frames_later_refl].
  intros u i [[[Hi|Hi]%J2|Hi]%K2|Hi]%L2; [by left|right; lia..].
Qed.

(** The binds of a run, regrouped. *)
Lemma bind_assoc_run {A B' D} (m : Building A) (f : A -> Building B') (g : B' -> Building D) s :
  build_bind (build_bind m f) g s = build_bind m (fun a => build_bind (f a) g) s.
Proof. unfold build_bind. by destruct (m s) as [[a s1]|e]. Qed.

Lemma bind_ext_run {A B'} (m : Building A) (f g : A -> Building B') s :
  (forall a s, f a s = g a s) -> build_bind m f s = build_bind m g s.
Proof. intros H. unfold build_bind. destruct (m s) as [[a s1]|e]; [apply H|done]. Qed.

Lemma regroup_body {D} header entry e body span (k : LoopFrame -> Building D) s :
  build_bind (build_modify (looped header)) (fun _ =>
  build_bind (build_modify (with_current entry)) (fun _ =>
  build_bind (build_modify (with_env (fun _ => e))) (fun _ =>
  build_bind body (fun _ : option SsaValue => build_bind (pop_loop span) k)))) s =
  build_bind (build_bind (build_modify (looped header)) (fun _ =>
     build_bind (build_modify (with_current entry)) (fun _ =>
     build_bind (build_modify (with_env (fun _ => e))) (fun _ =>
     build_bind body (fun _ => pop_loop span))))) k s.
Proof.
  rewrite bind_assoc_run. apply bind_ext_run. intros _ s1. rewrite bind_assoc_run. apply bind_ext_run.
  intros _ s2. rewrite bind_assoc_run. apply bind_ext_run. intros _ s3. by rewrite bind_assoc_run.
Qed.

Lemma tame_ext {A} need (post : A -> list item) m m' :
  (forall s, m' s = m s) -> tame need post m -> tame need post m'.
Proof. intros He Hm s a s' Hs Hn. rewrite He. by apply Hm. Qed.

Lemma convert_while_tame condition body writes span :
  writes ⊆ G ∪ L -> tame [] the_value condition -> tame [] some_value body ->
  tame [] nothing (convert_while condition body writes span).
Proof.
  intros Hw Hc Hb. unfold convert_while. apply tame_get. intros s Hg. tame_steps.
  eapply tame_seq; [apply header_phis_tame|].
  { intros var Hvar%ordered_elem. rewrite Hg in Hvar. set_solver. }
  intros _. eapply tame_bind; [eapply tame_more; [apply list_subseteq_nil|exact Hc]|]. intros c.
  apply tame_get. intros s1 Hg1. tame_steps.
  eapply tame_ext; [intros s2; apply regroup_body|].
  eapply tame_bind; [apply loop_body_tame; [left|exact Hb]|]. intros F.
  eapply tame_bind; [apply open_end_tame|]. intros o.
  eapply tame_seq; [apply jump_all_tame|]. intros _.
  eapply tame_seq; [apply seal_phis_tame|]. intros _. tame_steps.
  eapply tame_seq; [apply jump_blocks_tame|]. intros _.
  eapply tame_more; [|apply merge_into_tame]. unfold frame_items, env_items. rewrite map_app. in_need.
Qed.

(** *** All statements *)

Lemma assign_tame value var span :
  tame [] the_value (convert_expr value) -> var ∈ G ∪ L ->
  tame [] some_value (build_bind (convert_expr value) (fun v =>
    build_bind (write_var var v span) (fun _ => build_ret (Some v)))).
Proof.
  intros Hv Hvar. eapply tame_bind; [exact Hv|]. intros v.
  eapply tame_seq; [apply write_var_tame; [done|in_need]|]. intros _. apply tame_ret. in_need.
Qed.

Lemma discard_tame {A} need (m : Building A) :
  tame need nothing m -> tame need some_value (build_bind m (fun _ => build_ret None)).
Proof. intros Hm. eapply tame_seq; [exact Hm|]. intros _. apply tame_ret, list_subseteq_nil. Qed.

Definition stmt_tame (s : CoreStmt) : Prop :=
  structured_stmt s = true -> stmt_write_names s ⊆ G ∪ L -> tame [] some_value (convert_stmt s).

Lemma block_list_tame l :
  Forall stmt_tame l -> forallb structured_stmt l = true -> union_map stmt_write_names l ⊆ G ∪ L ->
  Forall (fun s => tame [] some_value (convert_stmt s)) l.
Proof.
  rewrite !Forall_forall. intros Hl Hs Hw s Hin. apply Hl; [done| |].
  - rewrite forallb_forall in Hs. by apply Hs, list_elem_of_In.
  - etrans; [by apply union_map_sub|done].
Qed.

Definition block_tame (IH : forall s, stmt_tame s) (b : CoreBlock) :
    structured_block b = true -> block_write_names b ⊆ G ∪ L -> tame [] some_value (convert_block b) :=
  match b with
  | Block l _ => fun Hs Hw =>
      convert_stmts_tame convert_stmt l (block_list_tame l (Forall_all _ IH l) Hs Hw) None
  end.

Lemma convert_stmt_tame : forall s, stmt_tame s.
Proof.
  fix IH 1. intros s. unfold stmt_tame. destruct s; cbn [structured_stmt stmt_write_names convert_stmt]; try done; intros Hs Hw.
  - by apply (block_tame IH).
  - unfold insert_assign_targets in Hw. destruct (decode_tuple_comprehension_binding var); [done|].
    apply assign_tame; [apply convert_expr_tame; [done|set_solver]|set_solver].
  - eapply tame_seq; [apply read_var_tame|]. intros a.
    eapply tame_seq; [apply convert_expr_tame; [done|set_solver]|]. intros b.
    eapply tame_bind; [apply emit_tame|]. intros v.
    eapply tame_seq; [apply write_var_tame; [set_solver|in_need]|]. intros _. apply tame_ret. in_need.
  - apply andb_true_iff in Hs as [H1 H2]. apply discard_tame, convert_while_tame; [done| |].
    + apply convert_expr_tame; [done|set_solver].
    + apply (block_tame IH); [done|set_solver].
  - apply andb_true_iff in Hs as [[H1 H2]%andb_true_iff H3]. apply discard_tame, convert_if_tame.
    + apply convert_expr_tame; [done|set_solver].
    + apply (block_tame IH); [done|set_solver].
    + destruct else_branch as [b|]; [|done]. intros m [= <-]. apply (block_tame IH); [done|].
      simpl in Hw. set_solver.
  - apply discard_tame, convert_break_tame.
  - apply discard_tame, convert_continue_tame.
  - eapply tame_seq; [|intros v; apply tame_get; intros s _; apply discard_tame, set_terminator_tame].
    destruct value as [e|]; [|apply (tame_ret _ nothing); apply list_subseteq_nil].
    eapply tame_seq; [apply convert_expr_tame; [done|exact Hw]|]. intros v. apply tame_none.
  - eapply tame_bind; [apply convert_expr_tame; done|]. intros v. apply tame_ret. in_need.
  - apply (tame_ret _ some_value), list_subseteq_nil.
  - apply (tame_ret _ some_value), list_subseteq_nil.
  - apply (tame_ret _ some_value), list_subseteq_nil.
Qed.
End Tame.
