(* ===== verification/BuildSim.v ===== *)
(** * The code that is built does what the source does: positions and runs

    Control in the finished function is at a position, a block and a number of
    statements done there.  [leads] and [fails] say where the run from a position
    goes, with the number of blocks that it enters; a part of the conversion is
    [sound] when the code between the positions before and after it does what the
    source does, seen from the finished function, which [extends] every earlier
    builder. *)

From S2P Require Export BuildTame PlanCopies.

Section Extends.
Context {C : CoreTypes} {U : UnicodeTables}.

Abbreviation B := bl_blocks.

(** ** The finished function extends the builder *)

(** A phi may still get operands. *)
Definition stmt_ext (st st' : SsaStatement) : Prop :=
  stmt_id st' = stmt_id st /\
  match stmt_op st with
  | Phi phi => exists es vs, stmt_op st' = Phi {| edges := edges phi ++ es; values := values phi ++ vs |}
  | op => stmt_op st' = op
  end.

Lemma stmt_ext_refl st : stmt_ext st st.
Proof.
  split; [done|]. destruct (stmt_op st) as [[es vs]| | | | | | | | |]; try done.
  exists [], []. by rewrite !app_nil_r.
Qed.

Lemma stmt_ext_trans a b c : stmt_ext a b -> stmt_ext b c -> stmt_ext a c.
Proof.
  intros [H1 H2] [K1 K2]. split; [congruence|]. destruct (stmt_op a) as [phi| | | | | | | | |];
    try (by rewrite H2 in K2). destruct H2 as (es & vs & H2). rewrite H2 in K2. simpl in K2.
  destruct K2 as (es' & vs' & ->). exists (es ++ es'), (vs ++ vs'). by rewrite !app_assoc.
Qed.

(** What a block becomes: a closed one gets no more statements. *)
Definition block_ext (c c' : BlockBuild) : Prop :=
  exists l k, bb_stmts c' = l ++ k /\ Forall2 stmt_ext (bb_stmts c) l /\
    (bb_closed c = true -> k = [] /\ bb_closed c' = true /\
       forall t, bb_terminator c = Some t -> bb_terminator c' = Some t).

Record extends (s s' : Builder) : Prop := {
  ex_next : next_value s <= next_value s';
  ex_blocks u c : B s !! u = Some c -> exists c', B s' !! u = Some c' /\ block_ext c c';
  ex_ids u x : x ∈ ids (B s') u -> x ∈ ids (B s) u \/ next_value s <= x
}.

Lemma stmts_ext_refl l : Forall2 stmt_ext l l.
Proof. induction l; constructor; [apply stmt_ext_refl|done]. Qed.

Lemma block_ext_refl c : block_ext c c.
Proof. exists (bb_stmts c), []. rewrite app_nil_r. split_and!; [done|apply stmts_ext_refl|done]. Qed.

Lemma block_ext_trans a b c : block_ext a b -> block_ext b c -> block_ext a c.
Proof.
  intros (l & k & H1 & H2 & H3) (l' & k' & K1 & K2 & K3).
  rewrite H1 in K2. apply Forall2_app_inv_l in K2 as (l1 & l2 & K2 & K4 & ->).
  exists l1, (l2 ++ k'). split; [by rewrite K1, app_assoc|]. split.
  - clear -H2 K2. revert l1 K2. induction H2 as [|x y l l' Hxy _ IH]; intros l1 H.
    + by inversion H.
    + inversion H; subst. constructor; [by eapply stmt_ext_trans|auto].
  - intros Hc. destruct (H3 Hc) as (-> & Hb & Ht). destruct (K3 Hb) as (-> & Hc' & Ht').
    inversion K4. split_and!; [done|done|auto].
Qed.

Lemma extends_refl s : extends s s.
Proof. constructor; [done|intros u c Hu; exists c; split; [done|apply block_ext_refl]|by left]. Qed.

Lemma extends_trans s1 s2 s3 : extends s1 s2 -> extends s2 s3 -> extends s1 s3.
Proof.
  intros [H1 H2 H3] [K1 K2 K3]. constructor; [lia| |].
  - intros u c (c1 & Hc1 & Hb1)%H2. destruct (K2 u c1 Hc1) as (c2 & Hc2 & Hb2).
    exists c2. split; [done|by eapply block_ext_trans].
  - intros u x [Hx|Hx]%K3; [by apply H3|right; lia].
Qed.

(** The same blocks. *)
Lemma extends_same s s' : B s' = B s -> next_value s' = next_value s -> extends s s'.
Proof.
  intros HB Hn. constructor; [lia| |]; rewrite HB; [|by left].
  intros u c Hu. exists c. split; [done|apply block_ext_refl].
Qed.

Lemma extends_new s : extends s (snoc_block_state s).
Proof.
  constructor; [done| |].
  - intros u c Hu. exists c. split; [by apply lookup_app_l_Some|apply block_ext_refl].
  - intros u x. simpl. rewrite ids_snoc. by left.
Qed.

(** One block changes. *)
Lemma extends_update s s' u b b' :
  B s !! u = Some b -> B s' = <[u := b']> (B s) -> next_value s <= next_value s' -> block_ext b b' ->
  (forall x, x ∈ map stmt_id (bb_stmts b') -> x ∈ map stmt_id (bb_stmts b) \/ next_value s <= x) ->
  extends s s'.
Proof.
  intros Hu HB Hn Hb Hids. constructor; [done| |]; rewrite HB.
  - intros v c Hv. destruct (decide (v = u)) as [->|Hne].
    + rewrite Hu in Hv. injection Hv as <-. exists b'. split; [|done].
      apply list_lookup_insert_eq. by eapply lookup_lt_Some.
    + exists c. split; [by rewrite list_lookup_insert_ne|apply block_ext_refl].
  - intros v x. rewrite (ids_insert _ _ b) by done. case_decide as Hv; [|by left]. subst v.
    rewrite (ids_lookup _ _ _ Hu). apply Hids.
Qed.

Lemma extends_terminate s u t b :
  B s !! u = Some b -> bb_terminator b = None -> extends s (terminate u t b s).
Proof.
  intros Hu Hn. eapply (extends_update s _ u b); [done|done|done| |by left].
  exists (bb_stmts b), []. simpl. rewrite app_nil_r. split_and!; [done|apply stmts_ext_refl|].
  intros _. split_and!; [done|done|]. by rewrite Hn.
Qed.

Lemma extends_push s b op span :
  B s !! current s = Some b -> bb_closed b = false -> extends s (pushed s b op span).
Proof.
  intros Hu Ho. eapply (extends_update s _ (current s) b); [done|done|simpl; lia| |].
  - eexists (bb_stmts b), _. split_and!; [done|apply stmts_ext_refl|by rewrite Ho].
  - simpl. rewrite map_app. intros x [?|Hx%list_elem_of_singleton]%elem_of_app; [by left|right; simpl in Hx; lia].
Qed.

(** A part of the conversion that starts in an open block. *)
Lemma extends_grows par s par' s' : grows par s par' s' -> is_open s -> later s s' -> extends s s'.
Proof.
  intros Hg (b & Hb & Ho) Hl. constructor; [apply (lt_next _ _ Hl)| |apply (lt_ids _ _ Hl)].
  intros u c Hu. destruct (decide (u = current s)) as [->|Hne].
  - rewrite Hb in Hu. injection Hu as <-. destruct (gr_stmts _ _ _ _ Hg) as (k & Hk & _).
    pose proof (lookup_lt_Some _ _ _ Hb) as Hlt. pose proof (gr_length _ _ _ _ Hg).
    destruct (lookup_lt_is_Some_2 (B s') (current s)) as [c' Hc']; [lia|]. exists c'. split; [done|].
    unfold stmts_at in Hk. rewrite Hb, Hc' in Hk. exists (bb_stmts b), k. split_and!; [done|apply stmts_ext_refl|congruence].
  - exists c. rewrite (gr_same _ _ _ _ Hg); [|by eapply lookup_lt_Some|done]. split; [done|apply block_ext_refl].
Qed.
End Extends.

Section Positions.
Context {C : CoreTypes} {U : UnicodeTables} {SM : Semantics}.

(** The finished function, the last builder, the arguments. *)
Variable func : SsaFunction.
Variable sF : Builder.
Variable args : list Val.
Hypothesis Hwf : well_formed func.
Hypothesis Hfinal : forall i, block func i = finished_block sF i <$> bl_blocks sF !! i.

Abbreviation B := bl_blocks.
Abbreviation Defs := (gmap SsaValueId Val).
Abbreviation outcome := (Outcome Val World Exn).

(** ** Positions *)

Definition resume (fuel : nat) (p : BlockId * nat) (E : Defs) (w : World) : outcome :=
  match B sF !! p.1 with
  | None => NoBlock
  | Some c =>
      match exec_stmts args E w (drop p.2 (bb_stmts c)) with
      | Err o => o
      | Ok (E', w') =>
          match leave args E' w' (finished_terminator c) with
          | Err o => o
          | Ok t => run fuel func args (Some p.1) t E' w'
          end
      end
  end.

(** After [c] more blocks control is at [p']. *)
Definition leads (c : nat) (p : BlockId * nat) (E : Defs) (w : World) (p' : BlockId * nat) (E' : Defs)
    (w' : World) : Prop :=
  (forall k, resume (c + k) p E w = resume k p' E' w') /\
  forall m, m < c -> resume m p E w = OutOfFuel.

(** The run ends with [o], or does not end within [n] blocks. *)
Definition fails (n : nat) (p : BlockId * nat) (E : Defs) (w : World) (o : outcome) : Prop :=
  match o with
  | UndefinedRead _ => True
  | OutOfFuel => forall m, m <= n -> resume m p E w = OutOfFuel
  | _ => exists c, forall k, resume (c + k) p E w = o
  end.

Lemma leads_refl p E w : leads 0 p E w p E w.
Proof. split; [done|lia]. Qed.

Lemma leads_trans c1 c2 p1 E1 w1 p2 E2 w2 p3 E3 w3 :
  leads c1 p1 E1 w1 p2 E2 w2 -> leads c2 p2 E2 w2 p3 E3 w3 -> leads (c1 + c2) p1 E1 w1 p3 E3 w3.
Proof.
  intros [H1 H2] [K1 K2]. split.
  - intros k. by rewrite <- Nat.add_assoc, H1, K1.
  - intros m Hm. destruct (decide (m < c1)) as [|Hge]; [by apply H2|].
    replace m with (c1 + (m - c1)) by lia. rewrite H1. apply K2. lia.
Qed.

Lemma leads_fails c n m p E w p' E' w' o :
  leads c p E w p' E' w' -> fails n p' E' w' o -> m <= c + n -> fails m p E w o.
Proof.
  intros [H1 H2] Hf Hm.
  assert ((exists c, forall k, resume (c + k) p' E' w' = o) -> exists c, forall k, resume (c + k) p E w = o) as Hex.
  { intros (c' & Hc). exists (c + c'). intros k. by rewrite <- Nat.add_assoc, H1. }
  destruct o; simpl in *; try done; try by apply Hex.
  intros i Hi. destruct (decide (i < c)) as [|Hge]; [by apply H2|].
  replace i with (c + (i - c)) by lia. rewrite H1. apply Hf. lia.
Qed.

Lemma fails_at_once n p E w o : o <> OutOfFuel -> (forall k, resume k p E w = o) -> fails n p E w o.
Proof. intros Ho Hr. destruct o; simpl; try done; by exists 0. Qed.

(** *** Statements *)

Lemma resume_step fuel u k c st E w :
  B sF !! u = Some c -> bb_stmts c !! k = Some st -> is_phi (stmt_op st) = false ->
  resume fuel (u, k) E w =
    match exec_op args E (stmt_op st) w with
    | Ok (v, w') => resume fuel (u, S k) (<[stmt_id st := v]> E) w'
    | Err o => o
    end.
Proof.
  intros Hu Hk Hp. unfold resume. simpl. rewrite Hu, (drop_S _ _ _ Hk). simpl. rewrite Hp.
  by destruct (exec_op args E (stmt_op st) w) as [[v w']|o].
Qed.

(** Phis are done on entry. *)
Lemma resume_phis fuel u c k E w :
  B sF !! u = Some c -> Forall (fun st => is_phi (stmt_op st) = true) (take k (bb_stmts c)) ->
  k <= length (bb_stmts c) -> resume fuel (u, 0) E w = resume fuel (u, k) E w.
Proof.
  intros Hu Hp Hk. unfold resume. simpl. rewrite Hu.
  replace (drop 0 (bb_stmts c)) with (take k (bb_stmts c) ++ drop k (bb_stmts c)) by (by rewrite take_drop).
  by rewrite exec_stmts_phis.
Qed.

(** *** Edges *)

(** The definitions on entry of [u] from [p]. *)
Definition entry_defs (p : option BlockId) (u : BlockId) (E : Defs) : Defs :=
  match B sF !! u with Some c => enter args E p (bb_stmts c) | None => E end.

Lemma run_resume fuel p u E w :
  u < length (B sF) -> run (S fuel) func args p u E w = resume fuel (u, 0) (entry_defs p u E) w.
Proof.
  intros Hu. destruct (lookup_lt_is_Some_2 (B sF) u Hu) as [c Hc]. unfold resume, entry_defs. simpl.
  rewrite Hfinal, Hc. simpl. rewrite drop_0. by destruct (exec_stmts _ _ _ _) as [[E' w']|o].
Qed.

(** The end of a closed block. *)
Definition ends_with (u : BlockId) (k : nat) (t : Terminator) : Prop :=
  exists c, B sF !! u = Some c /\ length (bb_stmts c) = k /\ bb_terminator c = Some t.

Lemma resume_end fuel u k t E w :
  ends_with u k t ->
  resume fuel (u, k) E w =
    match leave args E w t with Err o => o | Ok target => run fuel func args (Some u) target E w end.
Proof.
  intros (c & Hc & Hk & Ht). unfold resume. simpl. rewrite Hc, drop_ge by lia. simpl.
  unfold finished_terminator. by rewrite Ht.
Qed.

Lemma target_inside u k t v : ends_with u k t -> v ∈ targets t -> v < length (B sF).
Proof.
  intros (c & Hc & _ & Ht) Hv.
  destruct (wf_targets _ Hwf u (finished_block sF u c) v) as [b Hb]; [by rewrite Hfinal, Hc| |].
  - simpl. unfold finished_terminator. by rewrite Ht.
  - rewrite Hfinal in Hb. destruct (B sF !! v) eqn:Hbv; [by eapply lookup_lt_Some|done].
Qed.

Lemma leads_edge u k t v E w :
  ends_with u k t -> leave args E w t = Ok v -> v ∈ targets t ->
  leads 1 (u, k) E w (v, 0) (entry_defs (Some u) v E) w.
Proof.
  intros He Hl Hv. pose proof (target_inside _ _ _ _ He Hv) as Hin. split.
  - intros n. rewrite (resume_end _ _ _ _ _ _ He), Hl. by apply run_resume.
  - intros m Hm. assert (m = 0) as -> by lia. by rewrite (resume_end _ _ _ _ _ _ He), Hl.
Qed.

Lemma leads_jump u k v E w :
  ends_with u k (Jump v) -> leads 1 (u, k) E w (v, 0) (entry_defs (Some u) v E) w.
Proof. intros He. eapply leads_edge; [done|done|left]. Qed.

Lemma leads_branch u k c t f E w x b :
  ends_with u k (Branch c t f) -> read args E c = Some x -> truth x = Some b ->
  let v := if b then t else f in leads 1 (u, k) E w (v, 0) (entry_defs (Some u) v E) w.
Proof.
  intros He Hx Hb v. eapply leads_edge; [done|simpl; by rewrite Hx, Hb|]. simpl. unfold v.
  destruct (Nat.eqb_spec t f) as [->|]; destruct b; set_solver.
Qed.

Lemma fails_branch n u k c t f E w x :
  ends_with u k (Branch c t f) -> read args E c = Some x -> truth x = None ->
  fails n (u, k) E w (NotBool x w).
Proof.
  intros He Hx Hb. apply fails_at_once; [done|]. intros m. rewrite (resume_end _ _ _ _ _ _ He). simpl.
  by rewrite Hx, Hb.
Qed.

(** What the finished function keeps of an earlier block. *)
Lemma final_closed s u b t :
  extends s sF -> B s !! u = Some b -> bb_closed b = true -> bb_terminator b = Some t ->
  ends_with u (length (bb_stmts b)) t.
Proof.
  intros He Hu Hc Ht. destruct (ex_blocks _ _ He u b Hu) as (c & Hcu & l & k & H1 & H2 & H3).
  destruct (H3 Hc) as (-> & _ & Hterm). exists c. split; [done|]. split; [|by apply Hterm].
  rewrite H1, app_nil_r. symmetry. by eapply Forall2_length.
Qed.

Lemma final_stmt s u b k st :
  extends s sF -> B s !! u = Some b -> bb_stmts b !! k = Some st ->
  exists c st', B sF !! u = Some c /\ bb_stmts c !! k = Some st' /\ stmt_ext st st'.
Proof.
  intros He Hu Hk. destruct (ex_blocks _ _ He u b Hu) as (c & Hcu & l & k' & H1 & H2 & _).
  destruct (Forall2_lookup_l _ _ _ _ _ H2 Hk) as (st' & Hl & Hst). exists c, st'.
  split_and!; [done| |done]. rewrite H1. by apply lookup_app_l_Some.
Qed.

(** *** Phis *)

Lemma final_nodup u c : B sF !! u = Some c -> NoDup (map stmt_id (bb_stmts c)).
Proof.
  intros Hu. assert (block func u = Some (finished_block sF u c)) as Hb by by rewrite Hfinal, Hu.
  pose proof (wf_unique _ Hwf) as Hn. unfold block in Hb.
  apply list_elem_of_lookup_2, list_elem_of_split in Hb as (l1 & l2 & Hl). rewrite Hl in Hn.
  rewrite bind_app, bind_cons, !map_app in Hn. apply NoDup_app in Hn as (_ & _ & Hn).
  by apply NoDup_app in Hn as (Hn & _).
Qed.

(** The definitions below [n] are the same. *)
Definition same_below (n : nat) (E E' : Defs) : Prop := forall x, x < n -> E' !! x = E !! x.

Lemma same_below_refl n E : same_below n E E.
Proof. done. Qed.

Lemma same_below_trans n n' E1 E2 E3 :
  same_below n E1 E2 -> same_below n' E2 E3 -> n <= n' -> same_below n E1 E3.
Proof. intros H1 H2 Hn x Hx. rewrite H2 by lia. by apply H1. Qed.

Lemma read_same n E E' v : same_below n E E' -> valid n v -> read args E' v = read args E v.
Proof. intros Hs. destruct v; simpl; [apply Hs|done|done]. Qed.

(** The phis of a block that is new in [s]. *)
Lemma entry_below s p u E : extends s sF -> ids (B s) u = [] -> same_below (next_value s) E (entry_defs p u E).
Proof.
  intros He Hu x Hx. unfold entry_defs. destruct (B sF !! u) as [c|] eqn:Hc; [|done].
  apply enter_other. intros st Hst _ Hid.
  destruct (ex_ids _ _ He u x) as [Hin|Hge]; [| |lia].
  - rewrite (ids_lookup _ _ _ Hc), <- Hid. by apply list_elem_of_fmap_2.
  - rewrite Hu in Hin. by apply elem_of_nil in Hin.
Qed.

(** A phi takes the operand of the edge. *)
Lemma phi_read s u b k st phi p i ov E :
  extends s sF -> B s !! u = Some b -> bb_stmts b !! k = Some st -> stmt_op st = Phi phi ->
  edges phi !! i = Some p -> values phi !! i = Some ov ->
  entry_defs (Some p) u E !! stmt_id st = (v ← ov; read args E v).
Proof.
  intros He Hu Hk Hop Hp Hv.
  destruct (final_stmt _ _ _ _ _ He Hu Hk) as (c & st' & Hc & Hk' & Hid & Hst). rewrite Hop in Hst.
  destruct Hst as (es & vs & Hop'). unfold entry_defs. rewrite Hc, <- Hid.
  assert (st' ∈ bb_stmts c) as Hin by by eapply list_elem_of_lookup_2.
  rewrite (enter_phi _ _ _ _ st' _ (final_nodup _ _ Hc) Hin Hop').
  assert (block func u = Some (finished_block sF u c)) as Hb by by rewrite Hfinal, Hc.
  destruct (wf_phi _ Hwf u _ st' _ Hb Hin Hop') as [Hedges _]. simpl in Hedges.
  unfold phi_value, phi_entry. simpl.
  rewrite (position_lookup p (edges phi ++ es) i); [|rewrite Hedges; apply preds_nodup|by apply lookup_app_l_Some].
  simpl. rewrite (lookup_app_l_Some _ _ _ _ Hv). simpl. by destruct ov.
Qed.

(** ** Environments and stores *)

Variables G L : gset string.

Abbreviation BEnv := (gmap string SsaValue).
Abbreviation Store := (gmap string Val).

(** Every local has the value of its SSA value. *)
Definition rel (e : BEnv) (st : Store) (E : Defs) : Prop :=
  forall name, name ∉ G ->
    match e !! name with Some v => read args E v = st !! name | None => st !! name = None end.

Lemma rel_same n e st E E' : valid_env L n e -> same_below n E E' -> rel e st E -> rel e st E'.
Proof.
  intros He Hs Hr name Hn. specialize (Hr name Hn). destruct (e !! name) as [v|] eqn:Hv; [|done].
  destruct (He name v Hv) as [_ Hg]. by rewrite (read_same _ _ _ _ Hs Hg).
Qed.

(** *** Merging *)

(** What a merge makes of a name. *)
Definition merged_as (s : Builder) (u : BlockId) (incoming : list (BlockId * BEnv)) (key : string)
    (v : SsaValue) : Prop :=
  agreed (map (fun e : BlockId * BEnv => e.2 !! key) incoming) = Some v \/
  exists b k st, B s !! u = Some b /\ bb_stmts b !! k = Some st /\ v = Def (stmt_id st) /\
    stmt_op st = Phi {| edges := map fst incoming;
                        values := map (fun e : BlockId * BEnv => e.2 !! key) incoming |}.

(** The steps of a merge only push phis on the current block. *)
Record phis_pushed (s s' : Builder) : Prop := {
  pp_extends : (exists b, B s !! current s = Some b /\ bb_closed b = false) -> extends s s';
  pp_current : current s' = current s;
  pp_stmts b : B s !! current s = Some b ->
    exists k, B s' !! current s = Some {| bb_stmts := bb_stmts b ++ k; bb_terminator := bb_terminator b;
                                          bb_closed := bb_closed b |} /\
      Forall (fun st => is_phi (stmt_op st) = true) k
}.

Lemma phis_pushed_refl s s' :
  B s' = B s -> next_value s' = next_value s -> current s' = current s -> phis_pushed s s'.
Proof.
  intros HB Hn Hc. constructor; [intros _; by apply extends_same|done|]. intros b Hb. exists [].
  rewrite HB, app_nil_r. split; [|constructor]. rewrite Hb. by destruct b.
Qed.

Lemma phis_pushed_step s b op span s' :
  B s !! current s = Some b -> is_phi op = true -> phis_pushed (pushed s b op span) s' -> phis_pushed s s'.
Proof.
  intros Hb Hp [H1 H2 H3]. constructor.
  - intros (b' & Hb' & Ho). rewrite Hb in Hb'. injection Hb' as <-.
    eapply extends_trans; [by apply extends_push|]. apply H1. eexists. simpl.
    rewrite list_lookup_insert_eq by (by eapply lookup_lt_Some). by split.
  - by rewrite H2.
  - intros b' Hb'. rewrite Hb in Hb'. injection Hb' as <-.
    destruct (H3 _ (list_lookup_insert_eq _ _ _ (lookup_lt_Some _ _ _ Hb))) as (k & Hk & Hph).
    simpl in Hk. eexists. rewrite Hk, <- app_assoc. split; [done|]. constructor; [done|exact Hph].
Qed.

Lemma merged_as_later s s' incoming key v :
  phis_pushed s s' -> merged_as s (current s) incoming key v -> merged_as s' (current s) incoming key v.
Proof.
  intros Hp [Ha|(b & k & st & Hb & Hk & Hv & Hop)]; [by left|right].
  destruct (pp_stmts _ _ Hp b Hb) as (l & Hl & _). do 3 eexists. split_and!; [exact Hl| |exact Hv|exact Hop].
  by apply lookup_app_l_Some.
Qed.

Lemma merge_vars_spec incoming keys merged span s e s' :
  merge_vars incoming keys merged span s = Ok (e, s') ->
  phis_pushed s s' /\
  forall key, match e !! key with
    | Some v => (key ∈ keys /\ merged_as s' (current s) incoming key v) \/ merged !! key = Some v
    | None => key ∉ keys /\ merged !! key = None
    end.
Proof.
  revert merged s. induction keys as [|key keys IH]; intros merged s; simpl.
  - intros [= -> ->]. split; [by apply phis_pushed_refl|]. intros key. destruct (e !! key); [by right|].
    split; [apply not_elem_of_nil|done].
  - assert (forall merged' s1 v, phis_pushed s1 s' -> current s1 = current s ->
      merged' = <[key := v]> merged -> merged_as s1 (current s1) incoming key v ->
      (forall k, match e !! k with
        | Some v => (k ∈ keys /\ merged_as s' (current s1) incoming k v) \/ merged' !! k = Some v
        | None => k ∉ keys /\ merged' !! k = None end) ->
      forall k, match e !! k with
        | Some v => (k ∈ key :: keys /\ merged_as s' (current s) incoming k v) \/ merged !! k = Some v
        | None => k ∉ key :: keys /\ merged !! k = None end) as Hstep.
    { intros merged' s1 v Hp Hc -> Hm He k. specialize (He k). rewrite Hc in He.
      destruct (e !! k) as [x|].
      - destruct He as [[Hk Hx]|Hx]; [left; by split; [right|]|].
        apply lookup_insert_Some in Hx as [[<- <-]|[_ Hx]]; [|by right]. left. split; [left|].
        rewrite <- Hc. by apply merged_as_later.
      - destruct He as [Hk Hx]. apply lookup_insert_None in Hx as [Hx Hne]. split; [|done].
        intros [->|?]%elem_of_cons; done. }
    destruct (agreed _) as [first|] eqn:Ha.
    + intros H. destruct (IH _ _ H) as [Hp He]. split; [done|].
      eapply Hstep; [exact Hp|done|done|by left|exact He].
    + intros (v & s1 & Hm & H)%bind_Ok. apply emit_Ok in Hm as (b & Hb & -> & ->).
      destruct (IH _ _ H) as [Hp He]. split; [by eapply phis_pushed_step; [exact Hb| |exact Hp]|].
      eapply Hstep; [exact Hp|done|done| |exact He].
      right. set (op := Phi {| edges := map fst incoming;
        values := map (fun e : BlockId * BEnv => e.2 !! key) incoming |}).
      set (st := {| stmt_id := next_value s; stmt_op := op; stmt_span := span |}).
      exists (push_stmt st b), (length (bb_stmts b)), st. split_and!; [|by apply list_lookup_middle|done|done].
      simpl. apply list_lookup_insert_eq. by eapply lookup_lt_Some.
Qed.

Lemma merge_into_spec join incoming fallback span s s' :
  merge_into join incoming fallback span s = Ok (tt, s') -> B s !! join = Some empty_block ->
  extends s s' /\ current s' = join /\
  (exists b, B s' !! join = Some b /\ bb_closed b = false /\
    Forall (fun st => is_phi (stmt_op st) = true) (bb_stmts b)) /\
  (incoming <> [] -> forall key, match env s' !! key with
    | Some v => merged_as s' join (sort_edges incoming) key v
    | None => forall p e, (p, e) ∈ incoming -> e !! key = None
    end).
Proof.
  intros H Hb. unfold merge_into in H. apply bind_Ok in H as (x & s1 & ->%modify_Ok & H).
  pose proof (sort_edges_perm incoming) as Hp.
  assert (forall e', (incoming <> [] -> forall key, match e' !! key with
      | Some v => merged_as s join (sort_edges incoming) key v
      | None => forall p e, (p, e) ∈ incoming -> e !! key = None end) ->
    s' = with_env (fun _ => e') (with_current join s) ->
    extends s s' /\ current s' = join /\
    (exists b, B s' !! join = Some b /\ bb_closed b = false /\ Forall (fun st => is_phi (stmt_op st) = true) (bb_stmts b)) /\
    (incoming <> [] -> forall key, match env s' !! key with
      | Some v => merged_as s' join (sort_edges incoming) key v
      | None => forall p e, (p, e) ∈ incoming -> e !! key = None end)) as Hplain.
  { intros e' He ->. split_and!; [by apply extends_same|done| |exact He]. exists empty_block. by repeat constructor. }
  destruct (sort_edges incoming) as [|[p e] [|e2 l]] eqn:Hs.
  - apply modify_Ok in H as ->. apply Permutation_nil in Hp. by apply (Hplain fallback).
  - apply modify_Ok in H as ->. apply Permutation_singleton_l in Hp. apply (Hplain e); [|done]. intros _ key.
    subst incoming. destruct (e !! key) as [v|] eqn:Hv; [left; simpl; by rewrite Hv|].
    by intros p' e' [= -> ->]%list_elem_of_singleton.
  - apply bind_Ok in H as (m & s1 & H & ->%modify_Ok). rewrite <- Hs in H |- *. clear Hplain.
    apply merge_vars_spec in H as [Hpp Hm]. simpl in Hm.
    destruct (pp_stmts _ _ Hpp empty_block Hb) as (k & Hk & Hph). simpl in Hk. split_and!.
    + apply (extends_trans s (with_current join s)); [by apply extends_same|].
      apply (extends_trans _ s1); [|by apply extends_same].
      apply (pp_extends _ _ Hpp). by exists empty_block.
    + apply (pp_current _ _ Hpp).
    + eexists. split_and!; [exact Hk|done|exact Hph].
    + intros _ key. specialize (Hm key). simpl. destruct (m !! key) as [v|].
      * destruct Hm as [[_ Hm]|Hm]; [exact Hm|done].
      * destruct Hm as [Hkey _]. intros p' e' Hin. apply eq_None_not_Some. intros [v Hv]. apply Hkey.
        apply ordered_elem, union_map_elem. exists p', e', v. split; [by rewrite sort_edges_perm|done].
Qed.

Lemma agreed_all values v ov :
  agreed values = Some v -> ov ∈ values -> exists v', ov = Some v' /\ (v' = v \/ value_eqb v' v = true).
Proof.
  destruct values as [|[first|] l]; simpl; [done| |done]. destruct (forallb _ l) eqn:Hall; [|done]. intros [= <-].
  intros [->|Hin]%elem_of_cons; [exists first; split; [done|by left]|].
  rewrite forallb_forall in Hall. specialize (Hall ov (proj1 (list_elem_of_In _ _) Hin)).
  destruct ov as [v'|]; [|done]. exists v'. split; [done|by right].
Qed.

(** Control comes to the join from [p], where the environment is [e]. *)
Lemma merge_sim join incoming fallback span s s' p e st E :
  merge_into join incoming fallback span s = Ok (tt, s') -> B s !! join = Some empty_block ->
  Forall (item_ok L (next_value s)) (env_items incoming) -> extends s' sF -> (p, e) ∈ incoming -> rel e st E ->
  let E' := entry_defs (Some p) join E in
  rel (env s') st E' /\ same_below (next_value s) E E'.
Proof.
  intros Hrun Hb Hok Hext Hin Hr E'. destruct (merge_into_spec _ _ _ _ _ _ Hrun Hb) as (Hss & Hcur & _ & Henv).
  assert (same_below (next_value s) E E') as Hsame.
  { apply entry_below; [by eapply extends_trans|]. by rewrite (ids_lookup _ _ _ Hb). }
  split; [|done]. rewrite Forall_forall in Hok.
  pose proof (Hok _ (env_items_elem _ _ _ Hin)) as He. simpl in He.
  intros key Hkey. specialize (Henv ltac:(by intros ->; apply elem_of_nil in Hin) key). specialize (Hr key Hkey).
  assert ((p, e) ∈ sort_edges incoming) as Hin' by by rewrite sort_edges_perm.
  destruct (env s' !! key) as [v|].
  - destruct Henv as [Ha|(b & k & sm & Hb' & Hk & -> & Hop)].
    + destruct (agreed_all _ _ (e !! key) Ha) as (v' & Hv' & Hor); [apply list_elem_of_fmap; by exists (p, e)|].
      rewrite Hv' in Hr. destruct (He key v' Hv') as [_ Hval].
      assert (v' = v) as ->.
      { destruct Hor as [|Heq]; [done|]. apply (valid_eqb (next_value s)); [done|done|].
        apply agreed_elem, list_elem_of_fmap in Ha as ([u f] & Hf & Hu). simpl in Hf. symmetry in Hf.
        rewrite sort_edges_perm in Hu. by destruct (Hok _ (env_items_elem _ _ _ Hu) key v Hf). }
      by rewrite (read_same _ _ _ _ Hsame Hval).
    + apply list_elem_of_lookup in Hin' as [i Hi].
      simpl. unfold E'. rewrite (phi_read s' join b k sm _ p i (e !! key) E Hext Hb' Hk Hop).
      * destruct (e !! key) as [v'|]; simpl; [exact Hr|by rewrite Hr].
      * simpl. change (map fst ?l) with (fst <$> l). by rewrite list_lookup_fmap, Hi.
      * simpl. change (map ?f ?l) with (f <$> l). by rewrite list_lookup_fmap, Hi.
  - rewrite (Henv p e Hin) in Hr. exact Hr.
Qed.
End Positions.
