(* ===== verification/BuildSimExpr.v ===== *)
(** * The code that is built does what the source does: expressions

    [sound]: the code of an expression leads from the position where its conversion
    began to the one where it ended, with the store, the world and the value that
    [eval] gives; where [eval] fails, the run fails in the same way. *)

From S2P Require Export BuildSim.

Section Exprs.
Context {C : CoreTypes} {U : UnicodeTables} {SM : Semantics}.
Variable func : SsaFunction.
Variable sF : Builder.
Variable args : list Val.
Hypothesis Hwf : well_formed func.
Hypothesis Hfinal : forall i, block func i = finished_block sF i <$> bl_blocks sF !! i.
Variable np : nat.
Variables G L : gset string.

Abbreviation B := bl_blocks.
Abbreviation Defs := (gmap SsaValueId Val).
Abbreviation Store := (gmap string Val).
Abbreviation outcome := (Outcome Val World Exn).
Abbreviation leads := (leads func sF args).
Abbreviation fails := (fails func sF args).
Abbreviation rel := (rel args G).
Abbreviation entry_defs := (entry_defs sF args).

(** ** Parts of the conversion *)

Record ready (par : Parents) (s : Builder) : Prop := {
  rd_inv : inv np par (loop_stack s) s;
  rd_open : is_open s;
  rd_static : static G L s
}.

(** What a part that ends in an open block leaves. *)
Record ran (par : Parents) (s : Builder) (par' : Parents) (s' : Builder) : Prop := {
  ra_ready : ready par' s';
  ra_grows : grows par s par' s';
  ra_extends : extends s s';
  ra_later : later s s'
}.

Lemma piece_ran {A} vals post (m : Building A) par s a s' :
  piece np [] vals m -> tame G L [] post m -> ready par s -> m s = Ok (a, s') ->
  exists par', ran par s par' s' /\ Forall (item_ok L (next_value s')) (post a) /\ BuildInv.available np par' s' (vals a).
Proof.
  intros Hm Ht [Hi Ho Hs] Hrun.
  pose proof (Hm par s Hi Ho ltac:(by intros v ?%elem_of_nil)) as Hw. unfold wp in Hw. rewrite Hrun in Hw.
  destruct Hw as (par' & Hi' & Hg & Ho' & Hv). destruct (Ht s a s' Hs) as (Hs' & Hl & Ha); [constructor|done|].
  exists par'. split; [|done]. constructor; [by constructor|done|by eapply extends_grows|done].
Qed.

(** Where the next statement goes. *)
Definition pos (s : Builder) : BlockId * nat := (current s, length (stmts_at (B s) (current s))).

(** The code between [s] and [s'] does what gives [r]. *)
Definition sim {A} (n : nat) (s : Builder) (E : Defs) (w : World)
    (r : result outcome (A * Store * World)) (s' : Builder) (Q : A -> Defs -> Prop) : Prop :=
  match r with
  | Ok (x, st, w') => exists E' c, leads c (pos s) E w (pos s') E' w' /\
      same_below (next_value s) E E' /\ rel (env s') st E' /\ Q x E'
  | Err o => fails n (pos s) E w o
  end.

Lemma sim_bind {A B'} n s1 E1 w1 (r : result outcome (A * Store * World)) s2 Q
    (K : A * Store * World -> result outcome (B' * Store * World)) s3 Q' :
  sim n s1 E1 w1 r s2 Q -> next_value s1 <= next_value s2 ->
  (forall x st E w, rel (env s2) st E -> same_below (next_value s1) E1 E -> Q x E ->
    sim n s2 E w (K (x, st, w)) s3 Q') ->
  sim n s1 E1 w1 (try_ r K) s3 Q'.
Proof.
  intros Hr Hn HK. destruct r as [[[x st] w]|o]; [|exact Hr]. simpl in Hr |- *.
  destruct Hr as (E & c & Hl & Hs & Hre & HQ). specialize (HK x st E w Hre Hs HQ).
  destruct (K (x, st, w)) as [[[y st'] w']|o]; simpl in HK |- *.
  - destruct HK as (E' & c' & Hl' & Hs' & Hre' & HQ'). exists E', (c + c').
    split_and!; [by eapply leads_trans|by eapply same_below_trans|done|done].
  - eapply leads_fails; [exact Hl|exact HK|lia].
Qed.

Lemma sim_ret {A} n s E w (x : A) st (Q : A -> Defs -> Prop) :
  rel (env s) st E -> Q x E -> sim n s E w (Ok (x, st, w)) s Q.
Proof. intros Hr HQ. exists E, 0. split_and!; [apply leads_refl|done|done|done]. Qed.

(** Builders that differ in what is not a position. *)
Lemma sim_weaken {A} n s E w (r : result outcome (A * Store * World)) s' Q Q' :
  sim n s E w r s' Q -> (forall x E', same_below (next_value s) E E' -> Q x E' -> Q' x E') -> sim n s E w r s' Q'.
Proof.
  destruct r as [[[x st] w']|o]; [|done]. intros (E' & c & H1 & H2 & H3 & H4) HQ.
  exists E', c. split_and!; [done|done|done|by apply HQ].
Qed.

Definition sound {A} (m : Building A) (g : A -> SsaValue)
    (ev : Store -> World -> result outcome (Val * Store * World)) : Prop :=
  forall par s a s' n st E w, ready par s -> m s = Ok (a, s') -> extends s' sF -> rel (env s) st E ->
    sim n s E w (ev st w) s' (fun x E' => read args E' (g a) = Some x).

(** *** Operations *)

Lemma emit_sim n op span s v s' op' vs st E w :
  is_open s -> static G L s -> emit op span s = Ok (v, s') -> extends s' sF -> is_phi op = false -> op' = shape op ->
  mapM (read args E) (operands op) = Some vs -> rel (env s) st E ->
  sim n s E w (perform_in op' vs st w) s' (fun x E' => read args E' v = Some x).
Proof.
  intros (b & Hb & _) Hst (b' & Hb' & -> & ->)%emit_Ok Hext Hp -> Hvs Hr.
  rewrite Hb in Hb'. injection Hb' as <-. set (sm := {| stmt_id := next_value s; stmt_op := op; stmt_span := span |}).
  assert (pos s = (current s, length (bb_stmts b))) as Hpos by (unfold pos, stmts_at; by rewrite Hb).
  assert (B (pushed s b op span) !! current s = Some (push_stmt sm b)) as Hb1.
  { simpl. apply list_lookup_insert_eq. by eapply lookup_lt_Some. }
  assert (pos (pushed s b op span) = (current s, S (length (bb_stmts b)))) as Hpos'.
  { unfold pos, stmts_at. simpl current. rewrite Hb1. simpl. rewrite length_app. simpl. f_equal. lia. }
  destruct (final_stmt sF _ _ _ (length (bb_stmts b)) sm Hext Hb1) as (c & sm' & Hc & Hk & Hid & Hop);
    [by apply list_lookup_middle|].
  assert (stmt_op sm' = op) as Hop' by (simpl in Hop; by destruct op).
  assert (forall k, resume func sF args k (pos s) E w =
    match exec_op args E op w with
    | Ok (v, w') => resume func sF args k (pos (pushed s b op span)) (<[next_value s := v]> E) w'
    | Err o => o end) as Hstep.
  { intros k. rewrite Hpos, Hpos', (resume_step _ _ _ _ _ _ _ sm' _ _ Hc Hk); by rewrite ?Hid, Hop'. }
  unfold exec_op in Hstep. rewrite Hvs in Hstep. unfold perform_in, performed.
  destruct (perform (shape op) vs w) as [x w'|e w'|]; simpl.
  - exists (<[next_value s := x]> E), 0. split_and!.
    + split; [done|lia].
    + intros y Hy. apply lookup_insert_ne. lia.
    + eapply rel_same; [apply (sc_env _ _ _ Hst)| |exact Hr]. intros y Hy. apply lookup_insert_ne. lia.
    + apply lookup_insert_eq.
  - by exists 0.
  - by exists 0.
Qed.

Lemma read_var_sound name span : sound (read_var name span) id (read_name G L name).
Proof.
  intros par s v s' n st E w [Hi Ho Hs] Hrun Hext Hr. unfold read_var, local_value, read_name in *.
  apply bind_Ok in Hrun as (s0 & s1 & [= <- <-] & Hrun). rewrite (sc_globals _ _ _ Hs) in Hrun.
  assert (emit (LoadGlobal name) span s = Ok (v, s') ->
    sim n s E w (perform_in (LoadGlobal name) [] st w) s' (fun x E' => read args E' (id v) = Some x)) as Hglobal.
  { intros Hem. by eapply emit_sim. }
  case_bool_decide as Hg; [by apply Hglobal|]. pose proof Hr as Hrel. specialize (Hr name Hg).
  destruct (env s !! name) as [u|] eqn:Hu.
  - injection Hrun as <- <-. destruct (st !! name) as [x|] eqn:Hx.
    + by apply sim_ret.
    + rewrite bool_decide_eq_true_2; [done|]. by destruct (sc_env _ _ _ Hs name u Hu).
  - rewrite Hr. case_bool_decide; [done|by apply Hglobal].
Qed.

Lemma emit_extends op span s v s' : is_open s -> emit op span s = Ok (v, s') -> extends s s'.
Proof.
  intros (b & Hb & Ho) (b' & Hb' & _ & ->)%emit_Ok. rewrite Hb in Hb'. injection Hb' as <-. by apply extends_push.
Qed.

Lemma write_var_extends name v span s u s' : is_open s -> write_var name v span s = Ok (u, s') -> extends s s'.
Proof.
  intros Ho Hrun. apply bind_Ok in Hrun as (s0 & s1 & [= <- <-] & Hrun). case_bool_decide.
  - apply bind_Ok in Hrun as (y & s1 & Hem & [_ ->]%ret_Ok). by eapply emit_extends.
  - injection Hrun as _ <-. by apply extends_same.
Qed.

Lemma write_var_sim n name v span s u s' x st E w :
  is_open s -> static G L s -> write_var name v span s = Ok (u, s') -> extends s' sF ->
  valid (next_value s) v -> read args E v = Some x -> rel (env s) st E ->
  sim n s E w (write_name G name x st w) s' (fun _ E' => read args E' v = Some x).
Proof.
  intros Ho Hs Hrun Hext Hv Hx Hr. unfold write_var, write_name in *.
  apply bind_Ok in Hrun as (s0 & s1 & [= <- <-] & Hrun). rewrite (sc_globals _ _ _ Hs) in Hrun.
  case_bool_decide as Hg.
  - apply bind_Ok in Hrun as (y & s1 & Hem & [-> ->]%ret_Ok).
    eapply sim_bind; [eapply emit_sim; [done|done|exact Hem|done|done|reflexivity|simpl; by rewrite Hx|exact Hr]| |].
    + apply emit_Ok in Hem as (b & _ & _ & ->). simpl. lia.
    + intros y' st' E' w' Hr' Hsame _. apply sim_ret; [done|]. by rewrite (read_same _ _ _ _ _ Hsame Hv).
  - injection Hrun as <- <-. exists E, 0. split_and!; [apply leads_refl|done| |done].
    intros key Hkey. simpl. destruct (decide (key = name)) as [->|Hne].
    + by rewrite !lookup_insert_eq.
    + rewrite !lookup_insert_ne by done. by apply Hr.
Qed.

(** *** Lists *)

Lemma ran_refl par s : ready par s -> ran par s par s.
Proof.
  intros Hr. constructor; [done|apply grows_refl, (i_current _ _ _ _ (i_base _ _ _ _ (rd_inv _ _ Hr)))|
    apply extends_refl|apply later_refl].
Qed.

Lemma ran_trans par1 s1 par2 s2 par3 s3 : ran par1 s1 par2 s2 -> ran par2 s2 par3 s3 -> ran par1 s1 par3 s3.
Proof.
  intros [_ H1 H2 H3] [K0 K1 K2 K3].
  constructor; [done|by eapply grows_trans|by eapply extends_trans|by eapply later_trans].
Qed.

(** A part of the conversion that gives one value, with what it stands for. *)
Record frag {A} (m : Building A) (g : A -> SsaValue)
    (ev : Store -> World -> result outcome (Val * Store * World)) : Prop := {
  fr_piece : piece np [] (fun a => [g a]) m;
  fr_tame : tame G L [] (fun a => [Value (g a)]) m;
  fr_sound : sound m g ev
}.

Lemma frag_avail {A} (m : Building A) g ev par s a s' :
  frag m g ev -> ready par s -> m s = Ok (a, s') ->
  exists par', ran par s par' s' /\ valid (next_value s') (g a) /\ avail np (B s') par' (current s') (g a).
Proof.
  intros [Hp Ht _] Hr Hrun. destruct (piece_ran _ _ m par s a s' Hp Ht Hr Hrun) as (par' & H1 & H2 & H3).
  exists par'. apply Forall_cons in H2 as [H2 _]. split_and!; [done|done|apply H3; left].
Qed.

Lemma frag_ran {A} (m : Building A) g ev par s a s' :
  frag m g ev -> ready par s -> m s = Ok (a, s') ->
  exists par', ran par s par' s' /\ valid (next_value s') (g a).
Proof. intros Hf Hr Hrun. destruct (frag_avail _ _ _ _ _ _ _ Hf Hr Hrun) as (par' & H1 & H2 & _). by exists par'. Qed.

Lemma list_ran {A B'} (f : A -> Building B') g ev l :
  Forall (fun x => frag (f x) g (ev x)) l -> forall par s ys s',
  ready par s -> build_mapM f l s = Ok (ys, s') ->
  exists par', ran par s par' s' /\ Forall (fun y => valid (next_value s') (g y)) ys.
Proof.
  induction 1 as [|x l Hx _ IH]; intros par s ys s' Hr Hrun; simpl in Hrun.
  - apply ret_Ok in Hrun as [-> ->]. exists par. split; [by apply ran_refl|constructor].
  - apply bind_Ok in Hrun as (y & s1 & H1 & Hrun). apply bind_Ok in Hrun as (zs & s2 & H2 & [-> ->]%ret_Ok).
    destruct (frag_ran _ _ _ _ _ _ _ Hx Hr H1) as (par1 & R1 & V1).
    destruct (IH _ _ _ _ (ra_ready _ _ _ _ R1) H2) as (par2 & R2 & V2). exists par2.
    split; [by eapply ran_trans|]. constructor; [|done].
    eapply valid_mono; [apply (lt_next _ _ (ra_later _ _ _ _ R2))|done].
Qed.

Lemma visible_reads_same n E E' (l : list SsaValue) :
  same_below n E E' -> Forall (valid n) l -> mapM (read args E') l = mapM (read args E) l.
Proof.
  intros Hs. induction 1 as [|v l Hv _ IH]; [done|]. cbn [mapM]. by rewrite (read_same _ _ _ _ _ Hs Hv), IH.
Qed.

Lemma list_sound {A B'} (f : A -> Building B') g ev l :
  Forall (fun x => frag (f x) g (ev x)) l -> forall par s ys s' n st E w,
  ready par s -> build_mapM f l s = Ok (ys, s') -> extends s' sF -> rel (env s) st E ->
  sim n s E w (eval_all ev l st w) s' (fun xs E' => mapM (read args E') (map g ys) = Some xs).
Proof.
  induction 1 as [|x l Hx Hl IH]; intros par s ys s' n st E w Hr Hrun Hext Hrel; cbn [build_mapM eval_all] in Hrun |- *.
  - apply ret_Ok in Hrun as [-> ->]. by apply sim_ret.
  - apply bind_Ok in Hrun as (y & s1 & H1 & Hrun). apply bind_Ok in Hrun as (zs & s2 & H2 & [-> ->]%ret_Ok).
    destruct (frag_ran _ _ _ _ _ _ _ Hx Hr H1) as (par1 & R1 & V1).
    destruct (list_ran f g ev l Hl _ _ _ _ (ra_ready _ _ _ _ R1) H2) as (par2 & R2 & V2).
    eapply sim_bind; [eapply (fr_sound _ _ _ Hx); [done|exact H1| |done]|apply (lt_next _ _ (ra_later _ _ _ _ R1))|].
    { eapply extends_trans; [apply (ra_extends _ _ _ _ R2)|done]. }
    intros v st1 E1 w1 Hrel1 Hs1 Hv. cbn beta iota.
    eapply sim_bind; [eapply IH; [apply (ra_ready _ _ _ _ R1)|exact H2|done|done]|apply (lt_next _ _ (ra_later _ _ _ _ R2))|].
    intros vs st2 E2 w2 Hrel2 Hs2 Hvs. cbn beta iota. apply sim_ret; [done|]. simpl.
    rewrite (read_same _ _ _ _ _ Hs2 V1), Hv. cbn [mbind option_bind]. by rewrite Hvs.
Qed.

Lemma build_mapM_tags {A B' D} (f : A -> Building B') (t : A -> D) (t' : B' -> D) l s ys s' :
  (forall x s y s', f x s = Ok (y, s') -> t' y = t x) -> build_mapM f l s = Ok (ys, s') -> map t' ys = map t l.
Proof.
  intros Hf. revert s ys. induction l as [|x l IH]; intros s ys; simpl; [by intros [-> _]%ret_Ok|].
  intros (y & s1 & H1 & (zs & s2 & H2 & [-> ->]%ret_Ok)%bind_Ok)%bind_Ok. simpl. f_equal; [by eapply Hf|by eapply IH].
Qed.

(** *** Calls *)

Lemma keyword_frag (kw : string * CoreExpr) ev :
  frag (convert_expr kw.2) id ev ->
  frag (build_bind (convert_expr kw.2) (fun u => build_ret (kw.1, u))) snd ev.
Proof.
  intros [Hp Ht Hs]. constructor.
  - by apply keyword_ok.
  - eapply tame_bind; [exact Ht|]. intros u. apply tame_ret. simpl. set_solver.
  - intros par s a s' n st E w Hr Hrun Hext Hrel. apply bind_Ok in Hrun as (u & s1 & H1 & [-> ->]%ret_Ok).
    by apply (Hs par s u s1 n st E w).
Qed.

Lemma call_sound module function (es : list CoreExpr) kwargs sm km span :
  Forall (fun e => frag (convert_expr e) id (eval G L e)) es ->
  Forall (fun kw : string * CoreExpr => frag (convert_expr kw.2) id (eval G L kw.2)) kwargs ->
  sound (build_bind (build_mapM convert_expr es) (fun vs =>
    build_bind (build_mapM (fun kw => build_bind (convert_expr kw.2) (fun u => build_ret (kw.1, u))) kwargs)
      (fun us => emit (Call module function vs us sm km) span))) id
    (fun st w => let? (vs, st, w) := eval_all (eval G L) es st w in
      let? (us, st, w) := eval_all (fun kw : string * CoreExpr => eval G L kw.2) kwargs st w in
      perform_in (call_op module function es kwargs sm km) (vs ++ us) st w).
Proof.
  intros He Hk par s v s' n st E w Hr Hrun Hext Hrel.
  apply bind_Ok in Hrun as (vs & s1 & H1 & Hrun). apply bind_Ok in Hrun as (us & s2 & H2 & Hem).
  assert (Forall (fun kw : string * CoreExpr => frag (build_bind (convert_expr kw.2) (fun u => build_ret (kw.1, u)))
    snd (eval G L kw.2)) kwargs) as Hk' by (eapply Forall_impl; [exact Hk|intros kw; apply keyword_frag]).
  destruct (list_ran _ _ _ _ He _ _ _ _ Hr H1) as (par1 & R1 & V1).
  destruct (list_ran _ snd _ _ Hk' _ _ _ _ (ra_ready _ _ _ _ R1) H2) as (par2 & R2 & V2).
  destruct (ra_ready _ _ _ _ R2) as [_ Ho2 Hs2].
  assert (extends s2 s') as X2 by by eapply emit_extends.
  eapply sim_bind; [eapply (list_sound _ id); [exact He|done|exact H1| |done]|apply (lt_next _ _ (ra_later _ _ _ _ R1))|].
  { eapply extends_trans; [apply (ra_extends _ _ _ _ R2)|by eapply extends_trans]. }
  assert (Forall (valid (next_value s1)) vs) as V1' by exact V1.
  intros xs st1 E1 w1 Hrel1 Hsame1 Hxs. cbn beta iota.
  eapply sim_bind; [eapply (list_sound _ snd); [exact Hk'|apply (ra_ready _ _ _ _ R1)|exact H2|by eapply extends_trans|done]|
    apply (lt_next _ _ (ra_later _ _ _ _ R2))|].
  intros ys st2 E2 w2 Hrel2 Hsame2 Hys. cbn beta iota.
  eapply emit_sim; [done|done|exact Hem|done|done| | |done].
  - unfold call_op, shape. simpl. f_equal.
    + pose proof (build_mapM_tags convert_expr (fun _ => Argument 0) (fun _ => Argument 0) es s vs s1 ltac:(done) H1) as Ht.
      exact (eq_sym Ht).
    + assert (map fst us = map fst kwargs) as Ht.
      { eapply build_mapM_tags; [|exact H2]. intros kw t y t' Hkw.
        by apply bind_Ok in Hkw as (u & t1 & _ & [-> _]%ret_Ok). }
      clear -Ht. revert us Ht. induction kwargs as [|kw l IH]; intros [|u us]; simpl; try done.
      intros [= H1 H2]. f_equal; [by destruct u, kw; simpl in *; subst|by apply IH].
  - change (mapM (read args E2) (vs ++ map snd us) = Some (xs ++ ys)).
    apply mapM_Some_2, Forall2_app; apply mapM_Some_1; [|exact Hys].
    rewrite map_id in Hxs. by rewrite (visible_reads_same _ _ _ _ Hsame2 V1').
Qed.

(** *** Blocks that are entered *)

Lemma wp_Ok {A} (m : Building A) s Q a s' : wp m s Q -> m s = Ok (a, s') -> Q a s'.
Proof. unfold wp. intros Hq Hm. by rewrite Hm in Hq. Qed.

Lemma in_new_block_Ok {A} e (m : Building A) s r s' :
  in_new_block e m s = Ok (r, s') -> exists a, r = (length (B s), a) /\ m (entered e s) = Ok (a, s').
Proof.
  intros Hrun. apply bind_Ok in Hrun as (x & s1 & [= <- <-] & Hrun).
  apply bind_Ok in Hrun as (x1 & s2 & ->%modify_Ok & Hrun). apply bind_Ok in Hrun as (x2 & s3 & ->%modify_Ok & Hrun).
  apply bind_Ok in Hrun as (a & s4 & Hm & [-> ->]%ret_Ok). by exists a.
Qed.

Lemma enter_extends e s : extends s (entered e s).
Proof. eapply extends_trans; [apply extends_new|by apply extends_same]. Qed.

Lemma enter_ready par1 s1 par2 s2 :
  inv np par1 (loop_stack s1) s1 -> grows par1 s1 par2 s2 -> inv np par2 (loop_stack s2) s2 ->
  static G L s1 -> static G L s2 -> next_value s1 <= next_value s2 ->
  ready (par2 ++ [Some (current s1)]) (entered (env s1) s2).
Proof.
  intros H1 Hg H2 S1 S2 Hn. pose proof (gr_inside _ _ _ _ Hg). pose proof (gr_length _ _ _ _ Hg).
  destruct (enter_new np par1 s1 par2 s2 (current s1) (env s1)) as (K1 & _ & K3 & _);
    [apply H1|done|apply H2|apply anc_refl|lia| |].
  - eapply env_mono; [by eapply grows_ids|apply (gr_par _ _ _ _ Hg)|apply (i_env _ _ _ _ H1)].
  - constructor; [done|done|]. destruct S2 as [T1 T2 T3]. constructor; simpl; [done| |done].
    eapply valid_env_mono; [exact Hn|apply (sc_env _ _ _ S1)].
Qed.

Lemma pos_entered e s : pos (entered e s) = (length (B s), 0).
Proof. unfold pos, stmts_at. simpl. by rewrite lookup_app_r, Nat.sub_diag. Qed.

(** Control comes to a new block. *)
Lemma enter_rel p s1 s2 st E :
  static G L s1 -> next_value s1 <= next_value s2 -> extends s2 sF -> rel (env s1) st E ->
  let E' := entry_defs (Some p) (length (B s2)) E in
  rel (env s1) st E' /\ same_below (next_value s2) E E'.
Proof.
  intros Hs Hn Hext Hr E'. assert (same_below (next_value s2) E E') as Hsame.
  { apply entry_below; [done|]. unfold ids. by rewrite (proj2 (lookup_ge_None _ _)). }
  split; [|done]. eapply rel_same; [apply (sc_env _ _ _ Hs)| |done]. intros x Hx. apply Hsame. lia.
Qed.

(** *** Ends of blocks *)

Lemma terminate_ends s u t b :
  B s !! u = Some b -> extends (terminate u t b s) sF -> ends_with sF u (length (bb_stmts b)) t.
Proof.
  intros Hb Hext. apply (final_closed _ _ _ (terminated t b) _ Hext); [|done|done].
  simpl. apply list_lookup_insert_eq. by eapply lookup_lt_Some.
Qed.

(** What jumps of open blocks to [target] do. *)
Lemma jumps_end target us s r s' :
  NoDup us -> (forall u, u ∈ us -> exists b, B s !! u = Some b /\ bb_terminator b = None) ->
  jump_blocks target us s = Ok (r, s') ->
  extends s s' /\ next_value s' = next_value s /\ (forall u, u ∉ us -> B s' !! u = B s !! u) /\
  (extends s' sF -> forall u, u ∈ us -> ends_with sF u (length (stmts_at (B s) u)) (Jump target)).
Proof.
  clear Hwf Hfinal. intros Hnd. revert s. induction Hnd as [|u us Hu Hnd IH]; intros s Hus Hrun; simpl in Hrun.
  - apply ret_Ok in Hrun as [_ ->]. split_and!; [apply extends_refl|done|done|]. by intros _ u ?%elem_of_nil.
  - apply bind_Ok in Hrun as (x & s1 & Ht & Hrun). apply set_terminator_Ok in Ht as (b & Hb & ->).
    destruct (Hus u) as (b' & Hb' & Hnone); [left|]. rewrite Hb in Hb'. injection Hb' as <-.
    assert (forall w, w <> u -> B (terminate u (Jump target) b s) !! w = B s !! w) as Hother
      by (intros w Hw; simpl; by rewrite list_lookup_insert_ne).
    destruct (IH (terminate u (Jump target) b s)) as (K1 & K2 & K3 & K4); [|exact Hrun|].
    { intros w Hw. rewrite Hother by (by intros ->). apply Hus. by right. }
    assert (extends s (terminate u (Jump target) b s)) as X by by apply extends_terminate.
    split_and!; [by eapply extends_trans|done| |].
    + intros w Hw. rewrite K3, Hother by set_solver. done.
    + intros Hext w [->|Hw]%elem_of_cons.
      * unfold stmts_at. rewrite Hb. apply terminate_ends with s; [done|by eapply extends_trans].
      * replace (stmts_at (B s) w) with (stmts_at (B (terminate u (Jump target) b s)) w); [by apply K4|].
        unfold stmts_at. rewrite Hother; [done|by intros ->].
Qed.

(** *** Joins *)

Lemma stmt_ext_phi st st' : stmt_ext st st' -> is_phi (stmt_op st') = is_phi (stmt_op st).
Proof. intros [_ H]. destruct (stmt_op st); try by rewrite H. by destruct H as (es & vs & ->). Qed.

(** Phis take no step. *)
Lemma phis_lead s u b E w :
  extends s sF -> B s !! u = Some b -> Forall (fun st => is_phi (stmt_op st) = true) (bb_stmts b) ->
  leads 0 (u, 0) E w (u, length (bb_stmts b)) E w.
Proof.
  intros Hext Hb Hp. destruct (ex_blocks _ _ Hext u b Hb) as (c & Hc & l & k & H1 & H2 & _).
  pose proof (Forall2_length _ _ _ H2) as Hlen. split; [|lia]. intros fuel. simpl.
  eapply resume_phis; [exact Hc| |rewrite H1, length_app; lia]. rewrite H1, Hlen, take_app_length.
  clear -H2 Hp. induction H2 as [|x y l l' Hxy _ IH]; [constructor|]. apply Forall_cons in Hp as [Hx Hp].
  constructor; [by rewrite (stmt_ext_phi _ _ Hxy)|by apply IH].
Qed.

(** How the ways through a construct that ends in [s] meet in [s']. *)
Record met (s : Builder) (cond : BlockId) (t : Terminator) (ends : list BlockId)
    (incoming : list (BlockId * gmap string SsaValue)) (s' : Builder) : Prop := {
  mt_extends : extends s s';
  mt_current : current s' = length (B s);
  mt_open : exists b, B s' !! current s' = Some b /\ bb_closed b = false /\ phis_only (bb_stmts b);
  mt_loops : loop_stack s' = loop_stack s;
  mt_branch : extends s' sF -> ends_with sF cond (length (stmts_at (B s) cond)) t;
  mt_jump u : extends s' sF -> u ∈ ends ->
    ends_with sF u (length (stmts_at (B s) u)) (Jump (length (B s)));
  mt_enter p e st E w : extends s' sF -> (p, e) ∈ incoming -> rel e st E ->
    let E' := entry_defs (Some p) (length (B s)) E in
    rel (env s') st E' /\ same_below (next_value s) E E' /\ leads 0 (length (B s), 0) E' w (pos s') E' w
}.

Lemma join_met par0 s0 par s cond c t f p ends incoming fallback span s1 s2 s3 r1 r2 :
  joining np par0 s0 par s cond c t f p ends incoming fallback ->
  Forall (item_ok L (next_value s)) (env_items incoming) ->
  set_terminator cond (Branch c t f) (snoc_block_state s) = Ok (r1, s1) ->
  jump_blocks (length (B s)) ends s1 = Ok (r2, s2) ->
  merge_into (length (B s)) incoming fallback span s2 = Ok (tt, s3) ->
  met s cond (Branch c t f) ends incoming s3.
Proof.
  intros Hj Hok H1 H2 H3. destruct (join_ok np _ _ _ _ _ _ _ _ _ _ _ _ _ _ _ _ _ _ _ Hj H1 H2 H3) as [Hjd Hcur].
  destruct (jo_open _ _ _ _ _ _ _ _ _ _ _ _ _ Hj) as (b & Hb & Ho).
  pose proof (jo_base _ _ _ _ _ _ _ _ _ _ _ _ _ Hj) as Hbase.
  pose proof (g_open _ _ _ _ _ (i_graph _ _ _ _ Hbase) cond b Hb Ho) as Hnone.
  pose proof (lookup_lt_Some _ _ _ Hb) as Hlt.
  apply set_terminator_Ok in H1 as (b' & Hb' & ->). assert (b' = b) as ->.
  { simpl in Hb'. rewrite lookup_app_l in Hb' by done. congruence. }
  set (s1 := terminate cond (Branch c t f) b (snoc_block_state s)) in *.
  assert (extends s s1) as X1 by (eapply extends_trans; [apply extends_new|by apply extends_terminate]).
  assert (forall u, u < length (B s) -> u <> cond -> B s1 !! u = B s !! u) as Hsame.
  { intros u Hu Hne. simpl. rewrite list_lookup_insert_ne by done. by apply lookup_app_l. }
  assert (forall u, u ∈ ends -> u < length (B s) /\ u <> cond /\ exists b, B s !! u = Some b /\ bb_terminator b = None) as Hends.
  { intros u Hu. destruct (jo_end _ _ _ _ _ _ _ _ _ _ _ _ _ Hj u Hu) as (_ & K1 & _ & (bu & K2 & K3) & _).
    split_and!; [by eapply lookup_lt_Some|done|by exists bu]. }
  destruct (jumps_end (length (B s)) ends s1 r2 s2) as (X2 & Hn & Hsame2 & Hjump);
    [apply (jo_nodup _ _ _ _ _ _ _ _ _ _ _ _ _ Hj)| |done|].
  { intros u Hu. destruct (Hends u Hu) as (K1 & K2 & K3). by rewrite Hsame. }
  assert (B s2 !! length (B s) = Some empty_block) as Hjoin.
  { rewrite Hsame2 by (intros Hin; destruct (Hends _ Hin) as [? _]; lia). simpl.
    rewrite list_lookup_insert_ne by lia. by rewrite lookup_app_r, Nat.sub_diag. }
  destruct (merge_into_spec _ _ _ _ _ _ H3 Hjoin) as (X3 & _ & (bj & Hbj & Hoj & Hpj) & _).
  constructor.
  - eapply extends_trans; [exact X1|by eapply extends_trans].
  - done.
  - apply (jd_block _ _ _ _ _ _ _ _ Hjd).
  - apply (jd_loops _ _ _ _ _ _ _ _ Hjd).
  - intros Hext. unfold stmts_at. rewrite Hb. apply (terminate_ends (snoc_block_state s)); [done|].
    eapply extends_trans; [exact X2|by eapply extends_trans].
  - intros u Hext Hu. replace (stmts_at (B s) u) with (stmts_at (B s1) u).
    + apply Hjump; [by eapply extends_trans|done].
    + unfold stmts_at. destruct (Hends u Hu) as (K1 & K2 & _). by rewrite Hsame.
  - intros q e st E w Hext Hin Hr. destruct (merge_sim func sF args Hwf Hfinal G L _ _ _ _ _ _ q e st E H3 Hjoin) as [M1 M2];
      [by rewrite Hn|done|done|done|]. rewrite Hn in M2. split_and!; [done|done|].
    unfold pos. rewrite Hcur. unfold stmts_at. rewrite Hbj. by eapply phis_lead.
Qed.

(** *** The ternary operator *)

(** One more phi at the join. *)
Lemma phi_pos s b op span E w :
  B s !! current s = Some b -> is_phi op = true -> extends (pushed s b op span) sF ->
  leads 0 (pos s) E w (pos (pushed s b op span)) E w.
Proof.
  intros Hb Hp Hext. pose proof (lookup_lt_Some _ _ _ Hb) as Hlt.
  set (st := {| stmt_id := next_value s; stmt_op := op; stmt_span := span |}).
  assert (B (pushed s b op span) !! current s = Some (push_stmt st b)) as Hb'
    by (simpl; by rewrite list_lookup_insert_eq).
  assert (pos s = (current s, length (bb_stmts b))) as -> by (unfold pos, stmts_at; by rewrite Hb).
  assert (pos (pushed s b op span) = (current s, S (length (bb_stmts b)))) as ->.
  { unfold pos, stmts_at. change (current (pushed s b op span)) with (current s). rewrite Hb'. simpl.
    rewrite length_app. simpl. f_equal. lia. }
  destruct (final_stmt sF _ _ _ (length (bb_stmts b)) st Hext Hb') as (c & st' & Hc & Hk & Hst);
    [by apply list_lookup_middle|].
  split; [|lia]. intros k. unfold resume. simpl. rewrite Hc, (drop_S _ _ _ Hk). simpl.
  rewrite (stmt_ext_phi _ _ Hst). change (stmt_op st) with op. by rewrite Hp.
Qed.

(** From the end of an arm to the value of the operator. *)
Lemma ternary_end s3 s7 cond t q2 e2 q3 e3 tv ev span v s' q e u st E w x :
  met s3 cond t [q2; q3] [(q2, e2); (q3, e3)] s7 ->
  (if value_eqb tv ev then build_ret tv
   else emit (Phi {| edges := [q2; q3]; values := [Some tv; Some ev] |}) span) s7 = Ok (v, s') ->
  extends s' sF -> valid (next_value s3) tv -> valid (next_value s3) ev ->
  (q, e, u) ∈ [(q2, e2, tv); (q3, e3, ev)] -> rel e st E -> read args E u = Some x ->
  exists E', leads 1 (q, length (stmts_at (B s3) q)) E w (pos s') E' w /\
    same_below (next_value s3) E E' /\ rel (env s') st E' /\ read args E' v = Some x.
Proof.
  intros Hmet Hrun Hext Hvt Hve Hq Hr Hx.
  destruct (mt_open _ _ _ _ _ _ Hmet) as (b & Hb & Ho & Hph).
  assert (extends s7 s') as X7.
  { destruct (value_eqb tv ev); [apply ret_Ok in Hrun as [_ ->]; apply extends_refl|].
    by eapply emit_extends; [exists b|]. }
  assert (extends s7 sF) as X by by eapply extends_trans.
  assert (q ∈ [q2; q3] /\ (q, e) ∈ [(q2, e2); (q3, e3)] /\ valid (next_value s3) u) as (Hend & Hin & Hu) by set_solver.
  destruct (mt_enter _ _ _ _ _ _ Hmet q e st E w X Hin Hr) as (M1 & M2 & M3).
  exists (entry_defs (Some q) (length (B s3)) E).
  assert (leads 0 (pos s7) (entry_defs (Some q) (length (B s3)) E) w (pos s')
    (entry_defs (Some q) (length (B s3)) E) w /\ env s' = env s7 /\
    read args (entry_defs (Some q) (length (B s3)) E) v = Some x) as (L1 & Henv & Hv).
  { destruct (value_eqb tv ev) eqn:Heq.
    - apply ret_Ok in Hrun as [-> ->]. split_and!; [apply leads_refl|done|].
      apply (valid_eqb (next_value s3)) in Heq; [|done|done]. subst ev.
      assert (u = tv) as -> by set_solver. by rewrite (read_same _ _ _ _ _ M2 Hvt).
    - apply emit_Ok in Hrun as (b' & Hb' & -> & ->). rewrite Hb in Hb'. injection Hb' as <-.
      split_and!; [by apply phi_pos|done|]. rewrite <- (mt_current _ _ _ _ _ _ Hmet).
      set (phi := {| edges := [q2; q3]; values := [Some tv; Some ev] |}) in *. set (op := Phi phi) in *.
      set (sm := {| stmt_id := next_value s7; stmt_op := op; stmt_span := span |}).
      assert (exists i, [q2; q3] !! i = Some q /\ [Some tv; Some ev] !! i = Some (Some u)) as (i & Hi & Hi').
      { apply elem_of_cons in Hq as [[= -> -> ->]|[= -> -> ->]%list_elem_of_singleton]; [by exists 0|by exists 1]. }
      change (read args ?E (Def (next_value s7))) with (E !! stmt_id sm).
      rewrite (phi_read func sF args Hwf Hfinal (pushed s7 b op span) (current s7) (push_stmt sm b)
        (length (bb_stmts b)) sm phi q i (Some u) E Hext); [exact Hx| | |done|done|done].
      + simpl. apply list_lookup_insert_eq. by eapply lookup_lt_Some.
      + by apply list_lookup_middle. }
  split_and!; [|done|by rewrite Henv|done].
  apply (leads_trans _ _ _ 1 0 _ _ _ _ _ _ _ _ _ (leads_jump _ _ _ Hwf Hfinal _ _ _ E w (mt_jump _ _ _ _ _ _ Hmet q X Hend))).
  apply (leads_trans _ _ _ 0 0 _ _ _ _ _ _ _ _ _ M3 L1).
Qed.

Lemma ready_decided par s c : ready par s -> avail np (B s) par (current s) c -> decided np par s par s c.
Proof.
  intros [Hi Ho Hs] Hc. constructor; [apply Hi|apply grows_refl, (i_current _ _ _ _ (i_base _ _ _ _ Hi))|done..].
Qed.

Lemma arm_same par1 s1 par2 s2 cond par3 s3 entry u :
  arm np par1 s1 par2 s2 cond par3 s3 entry -> u < length (B s2) -> stmts_at (B s3) u = stmts_at (B s2) u.
Proof. intros Ha Hu. unfold stmts_at. by rewrite (arm_old _ _ _ _ _ _ _ _ _ Ha). Qed.

(** An arm: where it starts and where it ends. *)
Lemma frag_arm {A} (m : Building A) g ev par1 s1 par2 s2 a s3 :
  frag m g ev -> inv np par1 (loop_stack s1) s1 -> grows par1 s1 par2 s2 -> inv np par2 (loop_stack s2) s2 ->
  static G L s1 -> static G L s2 -> next_value s1 <= next_value s2 -> m (entered (env s1) s2) = Ok (a, s3) ->
  ready (par2 ++ [Some (current s1)]) (entered (env s1) s2) /\
  valid (next_value s3) (g a) /\ extends s2 s3 /\ static G L s3 /\ next_value s2 <= next_value s3 /\ is_open s3.
Proof.
  intros Hf H1 Hg H2 S1 S2 Hn Hrun. pose proof (enter_ready par1 s1 par2 s2 H1 Hg H2 S1 S2 Hn) as Hr.
  destruct (frag_ran _ _ _ _ _ _ _ Hf Hr Hrun) as (par3 & [[_ Ho Hs] _ Hx Hl] & Hv).
  split_and!; [done|done| |done|apply (lt_next _ _ Hl)|done].
  eapply extends_trans; [apply enter_extends|exact Hx].
Qed.

(** From a position to an arm, through it, and on. *)
Lemma arm_sim {A} n s E w sA E1 (r : result outcome (A * Store * World)) sE s' Q Q' :
  (exists c, leads c (pos s) E w (pos sA) E1 w) -> same_below (next_value s) E E1 -> sim n sA E1 w r sE Q ->
  next_value s <= next_value sA -> next_value s <= next_value sE ->
  (forall x st E2 w2, rel (env sE) st E2 -> Q x E2 -> exists E3 c, leads c (pos sE) E2 w2 (pos s') E3 w2 /\
    same_below (next_value sE) E2 E3 /\ rel (env s') st E3 /\ Q' x E3) ->
  sim n s E w r s' Q'.
Proof.
  intros (c1 & L1) S1 Hsim Hn1 Hn2 Hend. destruct r as [[[x st] w']|o]; cbn [sim] in Hsim |- *.
  - destruct Hsim as (E2 & c2 & L2 & S2 & R2 & HQ). destruct (Hend x st E2 w' R2 HQ) as (E3 & c3 & L3 & S3 & R3 & HQ').
    exists E3, (c1 + (c2 + c3)). split_and!; [| |done|done].
    + eapply leads_trans; [exact L1|eapply leads_trans; [exact L2|exact L3]].
    + eapply same_below_trans; [|exact S3|exact Hn2]. eapply same_below_trans; [exact S1|exact S2|exact Hn1].
  - eapply leads_fails; [exact L1|exact Hsim|lia].
Qed.

(** What the conversion of the operator goes through. *)
Record ternary_made (s s1 s2 s3 s7 s' : Builder) (t e : Building SsaValue) (cv tv ev v : SsaValue)
    (span : CoreSpan) : Prop := {
  tm_static : static G L s1;
  tm_next : next_value s <= next_value s1 <= next_value s2 /\ next_value s2 <= next_value s3;
  tm_then : exists par, ready par (entered (env s1) s1);
  tm_then_run : t (entered (env s1) s1) = Ok (tv, s2);
  tm_else : exists par, ready par (entered (env s1) s2);
  tm_else_run : e (entered (env s1) s2) = Ok (ev, s3);
  tm_values : valid (next_value s3) tv /\ valid (next_value s3) ev;
  tm_extends : extends s1 s2 /\ extends s2 s3 /\ extends s3 s';
  tm_met : met s3 (current s1) (Branch cv (length (B s1)) (length (B s2))) [current s2; current s3]
    [(current s2, env s2); (current s3, env s3)] s7;
  tm_result : (if value_eqb tv ev then build_ret tv
    else emit (Phi {| edges := [current s2; current s3]; values := [Some tv; Some ev] |}) span) s7 = Ok (v, s');
  tm_branch : extends s' sF ->
    ends_with sF (current s1) (length (stmts_at (B s1) (current s1))) (Branch cv (length (B s1)) (length (B s2)));
  tm_then_end : stmts_at (B s3) (current s2) = stmts_at (B s2) (current s2)
}.

Lemma ternary_takes_apart par s s1 c t e evc evt eve cv span v s' :
  frag c id evc -> frag t id evt -> frag e id eve -> ready par s -> c s = Ok (cv, s1) ->
  convert_ternary c t e span s = Ok (v, s') ->
  exists s2 s3 s7 tv ev, ternary_made s s1 s2 s3 s7 s' t e cv tv ev v span.
Proof.
  intros Fc Ft Fe Hr Hc Hrun. unfold convert_ternary in Hrun. unfold build_bind at 1 in Hrun. rewrite Hc in Hrun.
  cbn [try_] in Hrun.
  destruct (frag_avail _ _ _ _ _ _ _ Fc Hr Hc) as (par1' & R1 & V1 & A1). pose proof (ra_ready _ _ _ _ R1) as Hr1.
  pose proof (ready_decided _ _ _ Hr1 A1) as Hd. destruct Hr1 as [Hi1 Ho1 Hs1].
  pose proof (de_grows _ _ _ _ _ _ Hd) as Hg1.
  apply bind_Ok in Hrun as (x1 & x2 & [-> ->]%get_Ok & Hrun).
  apply bind_Ok in Hrun as (tr & s2 & Ht & Hrun). apply in_new_block_Ok in Ht as (tv & -> & Ht).
  apply bind_Ok in Hrun as (x1 & x2 & [-> ->]%get_Ok & Hrun).
  apply bind_Ok in Hrun as (er & s3 & He & Hrun). apply in_new_block_Ok in He as (ev & -> & He).
  apply bind_Ok in Hrun as (x1 & x2 & [-> ->]%get_Ok & Hrun).
  apply bind_Ok in Hrun as (x1 & x2 & [= <- <-] & Hrun).
  apply bind_Ok in Hrun as ([] & s4 & Hr1 & Hrun). apply bind_Ok in Hrun as ([] & s5 & Hr2 & Hrun).
  apply bind_Ok in Hrun as ([] & s6 & Hr3 & Hrun). apply bind_Ok in Hrun as ([] & s7 & Hr4 & Hrun).
  cbn [fst snd] in Hr1, Hr2, Hr3, Hr4, Hrun.
  destruct (wp_Ok _ _ _ _ _ (first_arm np _ _ _ _ _ _ _ Hd (piece_conv np _ _ (fr_piece _ _ _ Ft))) Ht)
    as (par2 & Ha2 & Ho2 & _).
  destruct (wp_Ok _ _ _ _ _ (second_arm np _ _ _ _ _ _ _ _ _ _ Hd Ha2 (piece_conv np _ _ (fr_piece _ _ _ Fe))) He)
    as (par3 & Ha3 & Ho3 & _).
  pose proof (two_arms np _ _ _ _ _ _ _ _ _ _ _ Hd Ha2 Ha3) as Hj.
  rewrite (arm_ends_open s2 Ho2), (arm_ends_open s3 Ho3) in Hj. simpl in Hj.
  destruct (frag_arm _ _ _ _ _ _ _ _ _ Ft Hi1 Hg1 Hi1 Hs1 Hs1 (Nat.le_refl _) Ht) as (E2 & V2 & X2 & S2 & N2 & _).
  destruct (frag_arm _ _ _ _ _ _ _ _ _ Fe Hi1 (arm_grows _ _ _ _ _ _ _ _ _ Ha2) (arm_inv _ _ _ _ _ _ _ _ _ Ha2) Hs1 S2 N2 He)
    as (E3 & V3 & X3 & S3 & N3 & _).
  assert (met s3 (current s1) (Branch cv (length (B s1)) (length (B s2))) [current s2; current s3]
    [(current s2, env s2); (current s3, env s3)] s7) as Hmet.
  { eapply (join_met _ _ _ _ _ _ _ _ _ _ _ _ _ _ _ _ _ _ Hj); [|exact Hr1| |exact Hr4].
    - constructor; [|constructor; [apply (sc_env _ _ _ S3)|constructor]].
      eapply valid_env_mono; [exact N3|apply (sc_env _ _ _ S2)].
    - cbn [jump_blocks]. unfold build_bind at 1. rewrite Hr2. cbn [try_]. unfold build_bind. by rewrite Hr3. }
  assert (extends s7 s') as X7.
  { destruct (mt_open _ _ _ _ _ _ Hmet) as (b & Hb & Ho & _).
    destruct (value_eqb tv ev); [apply ret_Ok in Hrun as [_ ->]; apply extends_refl|].
    by eapply emit_extends; [exists b|]. }
  pose proof (i_current _ _ _ _ (i_base _ _ _ _ Hi1)) as Hc1.
  pose proof (arm_inside _ _ _ _ _ _ _ _ _ Ha2) as Hc2.
  exists s2, s3, s7, tv, ev. constructor; [done| |by eexists|done|by eexists|done| | |done|done| |].
  - pose proof (lt_next _ _ (ra_later _ _ _ _ R1)). lia.
  - split; [by eapply valid_mono|done].
  - split_and!; [done|done|]. eapply extends_trans; [apply (mt_extends _ _ _ _ _ _ Hmet)|done].
  - intros Hext. pose proof (mt_branch _ _ _ _ _ _ Hmet ltac:(by eapply extends_trans)) as Hbr.
    by rewrite (arm_same _ _ _ _ _ _ _ _ _ Ha3), (arm_same _ _ _ _ _ _ _ _ _ Ha2) in Hbr by lia.
  - apply (arm_same _ _ _ _ _ _ _ _ _ Ha3), (arm_current_inside np _ _ _ _ _ _ _ _ Ha2).
Qed.

Lemma ternary_sound c t e evc evt eve span :
  frag c id evc -> frag t id evt -> frag e id eve ->
  sound (convert_ternary c t e span) id (fun st w =>
    let? (x, st, w) := evc st w in
    match truth x with
    | None => Err (NotBool x w)
    | Some b => if b : bool then evt st w else eve st w
    end).
Proof.
  intros Fc Ft Fe par s v s' n st E w Hr Hrun Hext Hrel.
  destruct (bind_Ok _ _ _ _ Hrun) as (cv & s1 & Hc & _).
  destruct (frag_ran _ _ _ _ _ _ _ Fc Hr Hc) as (par1 & R1 & _).
  destruct (ternary_takes_apart par s s1 c t e evc evt eve cv span v s' Fc Ft Fe Hr Hc Hrun)
    as (s2 & s3 & s7 & tv & ev & [Hs1 [N1 N2] (pt & Et) Ht (pe & Ee) He [Vt Ve] (X2 & X3 & X7) Hmet Hend Hbr Hsame]).
  specialize (Hbr Hext).
  assert (extends s3 sF) as XF3 by by eapply extends_trans.
  assert (extends s2 sF) as XF2 by by eapply extends_trans.
  assert (extends s1 sF) as XF1 by by eapply extends_trans.
  eapply sim_bind; [by eapply (fr_sound _ _ _ Fc)|lia|].
  intros x st1 E1 w1 Hrel1 Hsame1 Hx. cbn beta iota.
  destruct (truth x) as [[]|] eqn:Hb; [| |by eapply (fails_branch func sF args)].
  - destruct (enter_rel (current s1) s1 s1 st1 E1 Hs1 (Nat.le_refl _) XF1 Hrel1) as [HrA HsA].
    eapply (arm_sim _ _ _ _ (entered (env s1) s1)); [|exact HsA|by eapply (fr_sound _ _ _ Ft)|done|lia|].
    + exists 1. rewrite pos_entered. apply (leads_branch _ _ _ Hwf Hfinal _ _ _ _ _ _ _ _ _ Hbr Hx Hb).
    + intros y st2 E2 w2 Hr2 Hy. destruct (ternary_end _ _ _ _ _ _ _ _ _ _ _ _ _ (current s2) (env s2) tv st2 E2 w2 y
        Hmet Hend Hext) as (E3 & L3 & Q1 & Q2 & Q3); [done|done|left|done|done|].
      rewrite Hsame in L3. exists E3, 1. split_and!; [exact L3| |done|done]. intros z Hz. apply Q1. lia.
  - destruct (enter_rel (current s1) s1 s2 st1 E1 Hs1 ltac:(lia) XF2 Hrel1) as [HrA HsA].
    eapply (arm_sim _ _ _ _ (entered (env s1) s2)); [| |by eapply (fr_sound _ _ _ Fe)|simpl; lia|lia|].
    + exists 1. rewrite pos_entered. apply (leads_branch _ _ _ Hwf Hfinal _ _ _ _ _ _ _ _ _ Hbr Hx Hb).
    + intros z Hz. apply HsA. lia.
    + intros y st2 E2 w2 Hr2 Hy. destruct (ternary_end _ _ _ _ _ _ _ _ _ _ _ _ _ (current s3) (env s3) ev st2 E2 w2 y
        Hmet Hend Hext) as (E3 & L3 & Q1 & Q2 & Q3); [done|done|right; left|done|done|].
      exists E3, 1. by split_and!.
Qed.

(** *** All expressions *)

Definition expr_frag (e : CoreExpr) : Prop :=
  structured_expr e = true -> expr_write_names e ⊆ G ∪ L -> frag (convert_expr e) id (eval G L e).

Lemma list_frags {A} (f : A -> CoreExpr) l :
  Forall (fun x => expr_frag (f x)) l -> forallb (fun x => structured_expr (f x)) l = true ->
  union_map (fun x => expr_write_names (f x)) l ⊆ G ∪ L ->
  Forall (fun x => frag (convert_expr (f x)) id (eval G L (f x))) l.
Proof.
  rewrite !Forall_forall. intros Hf Hg Hw x Hx. apply Hf; [done| |].
  - rewrite forallb_forall in Hg. by apply Hg, list_elem_of_In.
  - etrans; [|exact Hw]. apply (union_map_sub (fun x => expr_write_names (f x)) l x Hx).
Qed.

Lemma binary_sound op lhs rhs span :
  frag (convert_expr lhs) id (eval G L lhs) -> frag (convert_expr rhs) id (eval G L rhs) ->
  sound (convert_expr (Expr_BinaryOp op lhs rhs span)) id (eval G L (Expr_BinaryOp op lhs rhs span)).
Proof.
  intros Fl Fr par s v s' n st E w Hr Hrun Hext Hrel. cbn [convert_expr eval] in Hrun |- *.
  apply bind_Ok in Hrun as (l & s1 & H1 & Hrun). apply bind_Ok in Hrun as (r & s2 & H2 & Hem).
  destruct (frag_ran _ _ _ _ _ _ _ Fl Hr H1) as (par1 & R1 & V1).
  destruct (frag_ran _ _ _ _ _ _ _ Fr (ra_ready _ _ _ _ R1) H2) as (par2 & R2 & V2).
  destruct (ra_ready _ _ _ _ R2) as [_ Ho2 Hs2].
  assert (extends s2 sF) as X2 by (eapply extends_trans; [by eapply emit_extends|done]).
  eapply sim_bind; [eapply (fr_sound _ _ _ Fl); [done|exact H1| |done]|apply (lt_next _ _ (ra_later _ _ _ _ R1))|].
  { eapply extends_trans; [apply (ra_extends _ _ _ _ R2)|done]. }
  intros x st1 E1 w1 Hrel1 Hs1 Hx. cbn beta iota.
  eapply sim_bind; [eapply (fr_sound _ _ _ Fr); [apply (ra_ready _ _ _ _ R1)|exact H2|done|done]|
    apply (lt_next _ _ (ra_later _ _ _ _ R2))|].
  intros y st2 E2 w2 Hrel2 Hsame2 Hy. cbn beta iota.
  eapply emit_sim; [done|done|exact Hem|done|done|done| |done].
  simpl. rewrite (read_same _ _ _ _ _ Hsame2 V1). unfold id in *. by rewrite Hx, Hy.
Qed.

Lemma unary_sound op operand span :
  frag (convert_expr operand) id (eval G L operand) ->
  sound (convert_expr (Expr_UnaryOp op operand span)) id (eval G L (Expr_UnaryOp op operand span)).
Proof.
  intros Fl par s v s' n st E w Hr Hrun Hext Hrel. cbn [convert_expr eval] in Hrun |- *.
  apply bind_Ok in Hrun as (l & s1 & H1 & Hem).
  destruct (frag_ran _ _ _ _ _ _ _ Fl Hr H1) as (par1 & R1 & V1). destruct (ra_ready _ _ _ _ R1) as [_ Ho1 Hst1].
  eapply sim_bind; [eapply (fr_sound _ _ _ Fl); [done|exact H1| |done]|apply (lt_next _ _ (ra_later _ _ _ _ R1))|].
  { eapply extends_trans; [by eapply emit_extends|done]. }
  intros x st1 E1 w1 Hrel1 Hs1 Hx. cbn beta iota.
  eapply emit_sim; [done|done|exact Hem|done|done|done| |done]. simpl. unfold id in *. by rewrite Hx.
Qed.

Lemma builtin_sound name (es : list CoreExpr) span :
  Forall (fun e => frag (convert_expr e) id (eval G L e)) es ->
  sound (convert_expr (Expr_Builtin name es span)) id (eval G L (Expr_Builtin name es span)).
Proof.
  intros He par s v s' n st E w Hr Hrun Hext Hrel. cbn [convert_expr eval] in Hrun |- *.
  apply bind_Ok in Hrun as (vs & s1 & H1 & Hem).
  destruct (list_ran _ _ _ _ He _ _ _ _ Hr H1) as (par1 & R1 & V1). destruct (ra_ready _ _ _ _ R1) as [_ Ho1 Hst1].
  eapply sim_bind; [eapply (list_sound _ id); [exact He|done|exact H1| |done]|apply (lt_next _ _ (ra_later _ _ _ _ R1))|].
  { eapply extends_trans; [by eapply emit_extends|done]. }
  intros xs st1 E1 w1 Hrel1 Hs1 Hxs. cbn beta iota.
  eapply emit_sim; [done|done|exact Hem|done|done| | |done].
  - unfold shape. simpl. f_equal.
    exact (eq_sym (build_mapM_tags convert_expr (fun _ => Argument 0) (fun _ => Argument 0) es s vs s1 ltac:(done) H1)).
  - by rewrite map_id in Hxs.
Qed.

Lemma assign_sound var value span :
  frag (convert_expr value) id (eval G L value) ->
  sound (convert_expr (Expr_AssignExpr var value span)) id (eval G L (Expr_AssignExpr var value span)).
Proof.
  intros Fv par s v s' n st E w Hr Hrun Hext Hrel. cbn [convert_expr eval] in Hrun |- *.
  apply bind_Ok in Hrun as (u & s1 & H1 & Hrun). apply bind_Ok in Hrun as (x & s2 & H2 & [-> ->]%ret_Ok).
  destruct (frag_ran _ _ _ _ _ _ _ Fv Hr H1) as (par1 & R1 & V1). destruct (ra_ready _ _ _ _ R1) as [_ Ho1 Hst1].
  assert (extends s1 s2) as X1 by by eapply write_var_extends.
  eapply sim_bind; [eapply (fr_sound _ _ _ Fv); [done|exact H1| |done]|apply (lt_next _ _ (ra_later _ _ _ _ R1))|].
  { by eapply extends_trans. }
  intros y st1 E1 w1 Hrel1 Hs1 Hy. cbn beta iota.
  eapply sim_bind; [by eapply write_var_sim|apply (ex_next _ _ X1)|].
  intros z st2 E2 w2 Hrel2 Hs2 Hv. cbn beta iota. by apply sim_ret.
Qed.

Lemma convert_expr_frag : forall e, expr_frag e.
Proof.
  fix IH 1. intros e Hs Hw.
  constructor; [exact (convert_expr_ok np e)|exact (convert_expr_tame G L e Hs Hw)|].
  destruct e; try done; cbn [structured_expr expr_write_names] in Hs, Hw.
  - intros par s v s' n st E w Hr [-> ->]%ret_Ok Hext Hrel. by apply sim_ret.
  - apply read_var_sound.
  - apply andb_true_iff in Hs as [[_ H1]%andb_true_iff H2]. apply binary_sound; apply IH; (done || set_solver).
  - apply unary_sound. by apply IH.
  - apply andb_true_iff in Hs as [[Hname H1]%andb_true_iff H2].
    intros par s v s' n st E w Hr Hrun. cbn [convert_expr] in Hrun.
    apply bind_Ok in Hrun as (s0 & s1 & [= <- <-] & Hrun). rewrite plain_name_direct in Hrun by done.
    revert n st E w Hr Hrun. apply call_sound.
    + apply (list_frags id); [apply Forall_all, IH|done|set_solver].
    + apply (list_frags snd); [apply Forall_all; intros kw; apply IH|done|set_solver].
  - apply builtin_sound. apply (list_frags id); [apply Forall_all, IH|done|done].
  - apply andb_true_iff in Hs as [H1 H2]. apply call_sound.
    + apply (list_frags id); [apply Forall_all, IH|done|set_solver].
    + apply (list_frags snd); [apply Forall_all; intros kw; apply IH|done|set_solver].
  - apply andb_true_iff in Hs as [[H1 H2]%andb_true_iff H3].
    apply ternary_sound; apply IH; (done || set_solver).
  - apply assign_sound. apply IH; [done|set_solver].
Qed.
End Exprs.
