(* ===== verification/BuildSimStmt.v ===== *)
(** * The code that is built does what the source does: statements

    [stmt_sim]: where a statement ends normally, control comes to the position behind
    its code; where it breaks or continues, to the end of a block that waits with the
    innermost loop. *)

From S2P Require Export BuildSimExpr.

Section Stmts.
Context {C : CoreTypes} {U : UnicodeTables} {SM : Semantics}.
Variable func : SsaFunction.
Variable sF : Builder.
Variable args : list Val.
Hypothesis Hwf : well_formed func.
Hypothesis Hfinal : forall i, block func i = finished_block sF i <$> bl_blocks sF !! i.
Variable np : nat.
Variables G L : gset string.

Abbreviation B := bl_blocks.
Abbreviation Defs := (gmap SsaValueId Val).
Abbreviation Store := (gmap string Val).
Abbreviation BEnv := (gmap string SsaValue).
Abbreviation outcome := (Outcome Val World Exn).
Abbreviation leads := (leads func sF args).
Abbreviation fails := (fails func sF args).
Abbreviation rel := (rel args G).
Abbreviation entry_defs := (entry_defs sF args).
Abbreviation ends_with := (ends_with sF).
Abbreviation ready := (ready np G L).
Abbreviation frag := (frag func sF args np G L).
Abbreviation met := (met func sF args G).

(** ** Simulations *)

Definition value_agrees (E : Defs) (a : option SsaValue) (x : option Val) : Prop :=
  match a, x with
  | Some v, Some y => read args E v = Some y
  | None, None => True
  | _, _ => False
  end.

Definition breaks (s : Builder) : list (BlockId * BEnv) :=
  match loop_stack s with F :: _ => exit_incoming F | [] => [] end.

Definition latches (s : Builder) : list (BlockId * BEnv) :=
  match loop_stack s with F :: _ => latch_incoming F | [] => [] end.

(** Control comes to the end of a block that waits. *)
Definition leaves (incoming : list (BlockId * BEnv)) (s : Builder) (E : Defs) (w : World) (st : Store)
    (w' : World) (s' : Builder) : Prop :=
  exists u e E' c, (u, e) ∈ incoming /\ leads c (pos s) E w (u, length (stmts_at (B s') u)) E' w' /\
    same_below (next_value s) E E' /\ rel e st E'.

Definition stmt_sim (n : nat) (s : Builder) (E : Defs) (w : World)
    (r : result outcome (Completion * Store * World)) (s' : Builder) (a : option SsaValue) : Prop :=
  match r with
  | Ok (Normal x, st, w') => is_open s' /\ exists E' c, leads c (pos s) E w (pos s') E' w' /\
      same_below (next_value s) E E' /\ rel (env s') st E' /\ value_agrees E' a x
  | Ok (Broke, st, w') => leaves (breaks s') s E w st w' s'
  | Ok (Continued, st, w') => leaves (latches s') s E w st w' s'
  | Err o => fails n (pos s) E w o
  end.

(** A statement; the fuel is that of its loops. *)
Record stmt_frag (m : Building (option SsaValue))
    (ev : nat -> Store -> World -> result outcome (Completion * Store * World)) : Prop := {
  sf_conv : conv np (valued np) m;
  sf_tame : tame G L [] some_value m;
  sf_sound par s a s' n st E w : ready par s -> m s = Ok (a, s') -> extends s' sF -> rel (env s) st E ->
    stmt_sim n s E w (ev n st w) s' a
}.

(** What a statement leaves. *)
Record went (par : Parents) (s : Builder) (par' : Parents) (s' : Builder) : Prop := {
  wn_inv : inv np par' (loop_stack s') s';
  wn_grows : grows par s par' s';
  wn_static : static G L s';
  wn_later : later s s';
  wn_extends : extends s s'
}.

Lemma went_refl par s : inv np par (loop_stack s) s -> static G L s -> went par s par s.
Proof.
  intros Hi Hs. constructor; [done|apply grows_refl, (i_current _ _ _ _ (i_base _ _ _ _ Hi))|done|
    apply later_refl|apply extends_refl].
Qed.

Lemma went_trans par1 s1 par2 s2 par3 s3 :
  went par1 s1 par2 s2 -> went par2 s2 par3 s3 -> went par1 s1 par3 s3.
Proof.
  intros [_ H1 _ H2 H3] [K0 K1 K2 K3 K4].
  constructor; [done|by eapply grows_trans|done|by eapply later_trans|by eapply extends_trans].
Qed.

Lemma went_next par s par' s' : went par s par' s' -> next_value s <= next_value s'.
Proof. intros Hw. apply (lt_next _ _ (wn_later _ _ _ _ Hw)). Qed.

Lemma frag_went {A} (m : Building A) post vals par s a s' :
  conv np post m -> tame G L [] vals m -> ready par s -> m s = Ok (a, s') -> exists par', went par s par' s' /\ post par' s' a.
Proof.
  intros Hc Ht [Hi Ho Hs] Hrun. destruct (wp_Ok _ _ _ _ _ (Hc par s Hi Ho) Hrun) as (par' & H1 & H2 & H3).
  destruct (Ht s a s' Hs) as (H4 & H5 & _); [constructor|done|]. exists par'. split; [|done].
  constructor; [done|done|done|done|by eapply extends_grows].
Qed.

Lemma ran_went par s par' s' : ran np G L par s par' s' -> went par s par' s'.
Proof. intros [[H1 H2 H3] H4 H5 H6]. by constructor. Qed.

(** ** What waits *)

Lemma closed_length s s' u b :
  extends s s' -> B s !! u = Some b -> bb_closed b = true ->
  length (stmts_at (B s') u) = length (stmts_at (B s) u).
Proof.
  intros Hx Hb Hc. destruct (ex_blocks _ _ Hx u b Hb) as (c & Hcu & l & k & H1 & H2 & H3).
  destruct (H3 Hc) as (-> & _). unfold stmts_at. rewrite Hb, Hcu, H1, app_nil_r. symmetry. by eapply Forall2_length.
Qed.

Lemma breaks_closed par s u e :
  inv np par (loop_stack s) s -> (u, e) ∈ breaks s -> exists b, B s !! u = Some b /\ bb_closed b = true.
Proof.
  intros Hi. unfold breaks. pose proof (i_frames _ _ _ _ (i_base _ _ _ _ Hi)) as Hf.
  destruct (loop_stack s) as [|F fr]; [by intros ?%elem_of_nil|]. intros Hu. apply Forall_cons in Hf as [HF _].
  destruct (f_break _ _ _ _ _ HF u e Hu) as (_ & b & Hb & Hc & _). by exists b.
Qed.

Lemma latches_closed par s u e :
  inv np par (loop_stack s) s -> (u, e) ∈ latches s -> exists b, B s !! u = Some b /\ bb_closed b = true.
Proof.
  intros Hi. unfold latches. pose proof (i_frames _ _ _ _ (i_base _ _ _ _ Hi)) as Hf.
  destruct (loop_stack s) as [|F fr]; [by intros ?%elem_of_nil|]. intros Hu. apply Forall_cons in Hf as [HF _].
  destruct (f_latch _ _ _ _ _ HF u e Hu) as (_ & b & Hb & Hc & _). by exists b.
Qed.

(** Later steps keep it. *)
Record keeps (s s' : Builder) : Prop := {
  kp_extends : extends s s';
  kp_frames : frames_later (loop_stack s) (loop_stack s')
}.

Lemma went_keeps par s par' s' : went par s par' s' -> keeps s s'.
Proof. intros [_ _ _ H1 H2]. constructor; [done|apply (lt_frames _ _ H1)]. Qed.

Lemma frames_keep_trans s1 s2 s3 : keeps s1 s2 -> keeps s2 s3 -> keeps s1 s3.
Proof. intros [H1 H2] [K1 K2]. constructor; [by eapply extends_trans|by eapply frames_later_trans]. Qed.

Lemma keeps_breaks s s' u e : keeps s s' -> (u, e) ∈ breaks s -> (u, e) ∈ breaks s'.
Proof.
  intros [_ Hf]. unfold breaks. destruct (loop_stack s) as [|F fr], (loop_stack s') as [|F' fr']; try done.
  destruct Hf as (_ & _ & [k ->] & _). intros Hu. apply elem_of_app. by left.
Qed.

Lemma keeps_latches s s' u e : keeps s s' -> (u, e) ∈ latches s -> (u, e) ∈ latches s'.
Proof.
  intros [_ Hf]. unfold latches. destruct (loop_stack s) as [|F fr], (loop_stack s') as [|F' fr']; try done.
  destruct Hf as (_ & _ & _ & [k ->]). intros Hu. apply elem_of_app. by left.
Qed.

(** A statement that does not end normally is not touched by what follows. *)
Lemma stmt_sim_dead n s E w r par s1 a1 s2 a2 :
  inv np par (loop_stack s1) s1 -> keeps s1 s2 -> (forall x st w', r <> Ok (Normal x, st, w')) ->
  stmt_sim n s E w r s1 a1 -> stmt_sim n s E w r s2 a2.
Proof.
  intros Hi Hk Hr. destruct r as [[[[x| |] st] w']|o]; [by destruct (Hr x st w')| | |done];
    intros (u & e & E' & c & Hu & Hl & Hs & Hrel); exists u, e, E', c.
  - destruct (breaks_closed _ _ _ _ Hi Hu) as (b & Hb & Hc).
    rewrite (closed_length _ _ _ _ (kp_extends _ _ Hk) Hb Hc). split_and!; [by eapply keeps_breaks|done..].
  - destruct (latches_closed _ _ _ _ Hi Hu) as (b & Hb & Hc).
    rewrite (closed_length _ _ _ _ (kp_extends _ _ Hk) Hb Hc). split_and!; [by eapply keeps_latches|done..].
Qed.

Lemma stmt_sim_from n s E w c s1 E1 w1 r s' a :
  leads c (pos s) E w (pos s1) E1 w1 -> same_below (next_value s) E E1 -> next_value s <= next_value s1 ->
  stmt_sim n s1 E1 w1 r s' a -> stmt_sim n s E w r s' a.
Proof.
  intros Hl Hs Hn. destruct r as [[[[x| |] st] w']|o]; simpl.
  - intros (Ho & E' & c' & Hl' & Hs' & Hr & Hv). split; [done|]. exists E', (c + c').
    split_and!; [by eapply leads_trans|by eapply same_below_trans|done|done].
  - intros (u & e & E' & c' & Hu & Hl' & Hs' & Hr). exists u, e, E', (c + c').
    split_and!; [done|by eapply leads_trans|by eapply same_below_trans|done].
  - intros (u & e & E' & c' & Hu & Hl' & Hs' & Hr). exists u, e, E', (c + c').
    split_and!; [done|by eapply leads_trans|by eapply same_below_trans|done].
  - intros Hf. eapply leads_fails; [exact Hl|exact Hf|lia].
Qed.

(** After an expression. *)
Lemma stmt_sim_bind {A} n s1 E1 w1 (r : result outcome (A * Store * World)) s2 Q
    (K : A * Store * World -> result outcome (Completion * Store * World)) s3 a :
  sim func sF args G n s1 E1 w1 r s2 Q -> next_value s1 <= next_value s2 ->
  (forall x st E w, rel (env s2) st E -> same_below (next_value s1) E1 E -> Q x E ->
    stmt_sim n s2 E w (K (x, st, w)) s3 a) ->
  stmt_sim n s1 E1 w1 (try_ r K) s3 a.
Proof.
  intros Hr Hn HK. destruct r as [[[x st] w]|o]; cbn [try_]; [|exact Hr].
  destruct Hr as (E & c & Hl & Hs & Hre & HQ). eapply stmt_sim_from; [exact Hl|exact Hs|exact Hn|by apply HK].
Qed.

Lemma stmt_sim_normal n s E w st x a :
  is_open s -> rel (env s) st E -> value_agrees E a x -> stmt_sim n s E w (Ok (Normal x, st, w)) s a.
Proof. intros Ho Hr Hv. split; [done|]. exists E, 0. split_and!; [apply leads_refl|done|done|done]. Qed.

(** ** Sequences *)

Lemma reopen_went par s r s' :
  inv np par (loop_stack s) s -> static G L s -> reopen s = Ok (r, s') ->
  (is_open s -> s' = s) /\ exists par', went par s par' s' /\ is_open s'.
Proof.
  intros Hi Hs Hrun. destruct (wp_Ok _ _ _ _ _ (reopen_ok np par s Hi) Hrun) as (par' & H1 & H2 & H3).
  destruct (reopen_tame G L [] s r s' Hs) as (H4 & H5 & _); [constructor|done|].
  unfold reopen in Hrun. apply bind_Ok in Hrun as (x & x1 & [-> ->]%get_Ok & Hrun).
  apply bind_Ok in Hrun as (cl & x1 & Hc & Hrun). unfold is_closed in Hc.
  destruct (B s !! current s) as [b|] eqn:Hb; [|done]. injection Hc as <- <-. split.
  - intros (b' & Hb' & Ho). rewrite Hb in Hb'. injection Hb' as <-. rewrite Ho in Hrun. by apply ret_Ok in Hrun as [_ ->].
  - exists par'. split; [|done]. constructor; [done|done|done|done|].
    destruct (bb_closed b); [|apply ret_Ok in Hrun as [_ ->]; apply extends_refl].
    apply bind_Ok in Hrun as (y & y1 & [= <- <-] & ->%modify_Ok).
    eapply extends_trans; [apply extends_new|by apply extends_same].
Qed.

Lemma stmts_went {A} (f : A -> Building (option SsaValue)) ev l :
  Forall (fun x => stmt_frag (f x) (ev x)) l -> forall par s last a s',
  inv np par (loop_stack s) s -> static G L s -> convert_stmts f last l s = Ok (a, s') ->
  exists par', went par s par' s'.
Proof.
  induction 1 as [|x l Hx _ IH]; intros par s last a s' Hi Hs Hrun; simpl in Hrun.
  - apply ret_Ok in Hrun as [-> ->]. exists par. by apply went_refl.
  - apply bind_Ok in Hrun as (r & s1 & Hr & Hrun). apply bind_Ok in Hrun as (v & s2 & H2 & Hrun).
    destruct (reopen_went _ _ _ _ Hi Hs Hr) as (_ & par1 & W1 & Ho1).
    assert (ready par1 s1) as Hr1 by (constructor; [apply W1|done|apply W1]).
    destruct (frag_went _ _ _ _ _ _ _ (sf_conv _ _ Hx) (sf_tame _ _ Hx) Hr1 H2) as (par2 & W2 & _).
    destruct (IH _ _ _ _ _ (wn_inv _ _ _ _ W2) (wn_static _ _ _ _ W2) Hrun) as (par3 & W3). exists par3.
    exact (went_trans _ _ _ _ _ _ W1 (went_trans _ _ _ _ _ _ W2 W3)).
Qed.

Lemma stmts_sound {A} (f : A -> Building (option SsaValue)) ev l :
  Forall (fun x => stmt_frag (f x) (ev x)) l -> forall par s last x a s' n st E w,
  ready par s -> convert_stmts f last l s = Ok (a, s') -> extends s' sF -> rel (env s) st E ->
  value_agrees E last x -> stmt_sim n s E w (exec_all ev n x l st w) s' a.
Proof.
  induction 1 as [|e l He Hl IH]; intros par s last x a s' n st E w Hr Hrun Hext Hrel Hv;
    cbn [convert_stmts exec_all] in Hrun |- *.
  - apply ret_Ok in Hrun as [-> ->]. apply stmt_sim_normal; [apply (rd_open _ _ _ _ _ Hr)|done|done].
  - apply bind_Ok in Hrun as (r & s1 & Hre & Hrun). apply bind_Ok in Hrun as (v & s2 & H2 & Hrun).
    destruct (reopen_went _ _ _ _ (rd_inv _ _ _ _ _ Hr) (rd_static _ _ _ _ _ Hr) Hre) as (Hsame & _).
    rewrite (Hsame (rd_open _ _ _ _ _ Hr)) in H2.
    destruct (frag_went _ _ _ _ _ _ _ (sf_conv _ _ He) (sf_tame _ _ He) Hr H2) as (par2 & W2 & _).
    destruct (stmts_went _ _ _ Hl _ _ _ _ _ (wn_inv _ _ _ _ W2) (wn_static _ _ _ _ W2) Hrun) as (par3 & W3).
    pose proof (sf_sound _ _ He par s v s2 n st E w Hr H2
      ltac:(eapply extends_trans; [apply (wn_extends _ _ _ _ W3)|done]) Hrel) as Hsim.
    destruct (ev e n st w) as [[[[y| |] st1] w1]|o]; cbn [try_]; [| | |exact Hsim].
    + destruct Hsim as (Ho & E1 & c & L1 & S1 & Hr1 & Hv1).
      eapply stmt_sim_from; [exact L1|exact S1|by eapply went_next|].
      eapply IH; [|exact Hrun|done|done|done]. constructor; [apply W2|done|apply W2].
    + eapply stmt_sim_dead; [apply W2|by eapply went_keeps|done|exact Hsim].
    + eapply stmt_sim_dead; [apply W2|by eapply went_keeps|done|exact Hsim].
Qed.

(** ** Statements without control flow *)

Definition sounds (m : Building (option SsaValue))
    (ev : nat -> Store -> World -> result outcome (Completion * Store * World)) : Prop :=
  forall par s a s' n st E w, ready par s -> m s = Ok (a, s') -> extends s' sF -> rel (env s) st E ->
    stmt_sim n s E w (ev n st w) s' a.

Lemma emit_open op span s v s' : is_open s -> emit op span s = Ok (v, s') -> is_open s'.
Proof.
  intros (b & Hb & Ho) (b' & Hb' & _ & ->)%emit_Ok. rewrite Hb in Hb'. injection Hb' as <-. eexists. simpl.
  rewrite list_lookup_insert_eq by (by eapply lookup_lt_Some). by split.
Qed.

Lemma write_var_open name v span s u s' : is_open s -> write_var name v span s = Ok (u, s') -> is_open s'.
Proof.
  intros Ho Hrun. apply bind_Ok in Hrun as (s0 & s1 & [= <- <-] & Hrun). case_bool_decide.
  - apply bind_Ok in Hrun as (y & s1 & Hem & [_ ->]%ret_Ok). by eapply emit_open.
  - by injection Hrun as _ <-.
Qed.

Lemma frag_runs {A} (m : Building A) g ev par s a s' :
  frag m g ev -> ready par s -> m s = Ok (a, s') ->
  (exists par', ready par' s' /\ grows par s par' s') /\ extends s s' /\ next_value s <= next_value s' /\ valid (next_value s') (g a).
Proof.
  intros Hf Hr Hrun. destruct (frag_ran _ _ _ _ _ _ _ _ _ _ _ _ _ Hf Hr Hrun) as (par' & [H1 H2 H3 H4] & Hv).
  split_and!; [by exists par'|done|apply (lt_next _ _ H4)|done].
Qed.

Lemma expr_sounds e :
  frag (convert_expr e) id (eval G L e) ->
  sounds (build_bind (convert_expr e) (fun v => build_ret (Some v)))
    (fun n st w => let? (v, st, w) := eval G L e st w in Ok (Normal (Some v), st, w)).
Proof.
  intros Fe par s a s' n st E w Hr Hrun Hext Hrel. apply bind_Ok in Hrun as (v & s1 & H1 & [-> ->]%ret_Ok).
  destruct (frag_runs _ _ _ _ _ _ _ Fe Hr H1) as ((par1 & R1 & _) & X1 & N1 & V1).
  eapply stmt_sim_bind; [by eapply (fr_sound _ _ _ _ _ _ _ _ _ Fe)|done|].
  intros x st1 E1 w1 Hrel1 Hs1 Hx. cbn beta iota. apply stmt_sim_normal; [apply R1|done|exact Hx].
Qed.

Lemma assign_sounds var value span :
  frag (convert_expr value) id (eval G L value) ->
  sounds (build_bind (convert_expr value) (fun v => build_bind (write_var var v span) (fun _ => build_ret (Some v))))
    (fun n st w => let? (v, st, w) := eval G L value st w in
      let? (_, st, w) := write_name G var v st w in Ok (Normal (Some v), st, w)).
Proof.
  intros Fv par s a s' n st E w Hr Hrun Hext Hrel. apply bind_Ok in Hrun as (v & s1 & H1 & Hrun).
  apply bind_Ok in Hrun as (x & s2 & H2 & [-> ->]%ret_Ok).
  destruct (frag_runs _ _ _ _ _ _ _ Fv Hr H1) as ((par1 & [_ Ho1 Hs1] & _) & X1 & N1 & V1).
  pose proof (write_var_extends _ _ _ _ _ _ Ho1 H2) as X2.
  eapply stmt_sim_bind; [eapply (fr_sound _ _ _ _ _ _ _ _ _ Fv); [done|exact H1|by eapply extends_trans|done]|done|].
  intros y st1 E1 w1 Hrel1 Hsame1 Hy. cbn beta iota.
  eapply stmt_sim_bind; [by eapply write_var_sim|apply (ex_next _ _ X2)|].
  intros z st2 E2 w2 Hrel2 Hs2 Hv. cbn beta iota. apply stmt_sim_normal; [by eapply write_var_open|done|exact Hv].
Qed.

Lemma add_assign_sounds var value span :
  frag (convert_expr value) id (eval G L value) ->
  sounds (build_bind (read_var var span) (fun l => build_bind (convert_expr value) (fun r =>
      build_bind (emit (Binary Add l r) span) (fun sum =>
      build_bind (write_var var sum span) (fun _ => build_ret (Some sum))))))
    (fun n st w => let? (a, st, w) := read_name G L var st w in
      let? (b, st, w) := eval G L value st w in
      let? (v, st, w) := perform_in (Binary Add (Argument 0) (Argument 0)) [a; b] st w in
      let? (_, st, w) := write_name G var v st w in
      Ok (Normal (Some v), st, w)).
Proof.
  intros Fv par s a s' n st E w Hr Hrun Hext Hrel. apply bind_Ok in Hrun as (l & s1 & H1 & Hrun).
  apply bind_Ok in Hrun as (r & s2 & H2 & Hrun). apply bind_Ok in Hrun as (v & s3 & H3 & Hrun).
  apply bind_Ok in Hrun as (x & s4 & H4 & [-> ->]%ret_Ok).
  assert (frag (read_var var span) id (read_name G L var)) as Fl.
  { constructor; [apply read_var_ok|apply read_var_tame|by apply read_var_sound]. }
  destruct (frag_runs _ _ _ _ _ _ _ Fl Hr H1) as ((par1 & R1 & _) & X1 & N1 & V1).
  destruct (frag_runs _ _ _ _ _ _ _ Fv R1 H2) as ((par2 & [_ Ho2 Hs2] & _) & X2 & N2 & V2).
  pose proof (emit_extends _ _ _ _ _ Ho2 H3) as X3. pose proof (emit_open _ _ _ _ _ Ho2 H3) as Ho3.
  destruct (emit_tame G L [] (Binary Add l r) span s2 v s3 Hs2) as (Hs3 & _ & V3); [constructor|done|].
  apply Forall_cons in V3 as [V3 _].
  pose proof (write_var_extends _ _ _ _ _ _ Ho3 H4) as X4.
  assert (extends s3 sF) as XF3 by by eapply extends_trans.
  assert (extends s2 sF) as XF2 by by eapply extends_trans.
  eapply stmt_sim_bind; [eapply (fr_sound _ _ _ _ _ _ _ _ _ Fl); [done|exact H1|by eapply extends_trans|done]|done|].
  intros y st1 E1 w1 Hrel1 Hsame1 Hy. cbn beta iota.
  eapply stmt_sim_bind; [by eapply (fr_sound _ _ _ _ _ _ _ _ _ Fv)|done|].
  intros z st2 E2 w2 Hrel2 Hsame2 Hz. cbn beta iota.
  eapply stmt_sim_bind; [eapply emit_sim; [exact Ho2|exact Hs2|exact H3|done|done|done| |exact Hrel2]|apply (ex_next _ _ X3)|].
  { simpl. rewrite (read_same _ _ _ _ _ Hsame2 V1). unfold id in *. by rewrite Hy, Hz. }
  intros u st3 E3 w3 Hrel3 Hsame3 Hu. cbn beta iota.
  eapply stmt_sim_bind; [by eapply write_var_sim|apply (ex_next _ _ X4)|].
  intros t st4 E4 w4 Hrel4 Hs4 Hv. cbn beta iota. apply stmt_sim_normal; [by eapply write_var_open|done|exact Hv].
Qed.

(** ** Jumps *)

(** The end of the current block. *)
Lemma return_fails n par s v s' E w o r :
  ready par s -> set_terminator (current s) (Return v) s = Ok (r, s') -> extends s' sF ->
  leave args E w (Return v) = Err o -> o <> OutOfFuel -> fails n (pos s) E w o.
Proof.
  intros [Hi (b & Hb & Ho) Hs] (b' & Hb' & ->)%set_terminator_Ok Hext Hl Hne.
  rewrite Hb in Hb'. injection Hb' as <-. pose proof (terminate_ends _ _ _ _ _ Hb Hext) as He.
  apply fails_at_once; [done|]. intros k. unfold pos, stmts_at. rewrite Hb, (resume_end _ _ _ _ _ _ _ _ _ He).
  by rewrite Hl.
Qed.

Lemma terminate_extends par s t r s' u :
  ready par s -> u = current s -> set_terminator u t s = Ok (r, s') -> extends s s'.
Proof.
  intros [Hi (b & Hb & Ho) _] -> (b' & Hb' & ->)%set_terminator_Ok. rewrite Hb in Hb'. injection Hb' as <-.
  apply extends_terminate; [done|]. by apply (g_open _ _ _ _ _ (i_graph _ _ _ _ (i_base _ _ _ _ Hi)) (current s)).
Qed.

Lemma return_value_sounds e :
  frag (convert_expr e) id (eval G L e) ->
  sounds (build_bind (build_bind (convert_expr e) (fun v => build_ret (Some v))) (fun v =>
      build_bind build_get (fun s => build_bind (set_terminator (current s) (Return v)) (fun _ => build_ret None))))
    (fun n st w => let? (v, _, w) := eval G L e st w in Err (Returned (Some v) w)).
Proof.
  intros Fe par s a s' n st E w Hr Hrun Hext Hrel. apply bind_Ok in Hrun as (ov & s1 & Hm & Hrun).
  apply bind_Ok in Hm as (v & s1' & H1 & [-> ->]%ret_Ok). apply bind_Ok in Hrun as (x1 & x2 & [-> ->]%get_Ok & Hrun).
  apply bind_Ok in Hrun as (x & s2 & H2 & [-> ->]%ret_Ok).
  destruct (frag_runs _ _ _ _ _ _ _ Fe Hr H1) as ((par1 & R1 & _) & X1 & N1 & V1).
  pose proof (terminate_extends _ _ _ _ _ _ R1 eq_refl H2) as X2.
  eapply stmt_sim_bind; [eapply (fr_sound _ _ _ _ _ _ _ _ _ Fe); [done|exact H1|by eapply extends_trans|done]|done|].
  intros y st1 E1 w1 Hrel1 Hsame1 Hy. cbn beta iota. eapply return_fails; [exact R1|exact H2|done| |done].
  unfold id in Hy. simpl. by rewrite Hy.
Qed.

Lemma return_none_sounds :
  sounds (build_bind (build_ret None) (fun v =>
      build_bind build_get (fun s => build_bind (set_terminator (current s) (Return v)) (fun _ => build_ret None))))
    (fun n st w => Err (Returned None w)).
Proof.
  intros par s a s' n st E w Hr Hrun Hext Hrel. apply bind_Ok in Hrun as (ov & s1 & [-> ->]%ret_Ok & Hrun).
  apply bind_Ok in Hrun as (x1 & x2 & [-> ->]%get_Ok & Hrun). apply bind_Ok in Hrun as (x & s2 & H2 & [-> ->]%ret_Ok).
  eapply return_fails; [exact Hr|exact H2|done|done|done].
Qed.

Lemma break_sounds span :
  sounds (build_bind (convert_break span) (fun _ => build_ret None)) (fun n st w => Ok (Broke, st, w)).
Proof.
  intros par s a s' n st E w Hr Hrun Hext Hrel. apply bind_Ok in Hrun as ([] & s1 & H1 & [-> ->]%ret_Ok).
  apply bind_Ok in H1 as (x1 & x2 & [-> ->]%get_Ok & H1). apply bind_Ok in H1 as (F & s2 & Hu & Hc).
  unfold update_loop in Hu. destruct (loop_stack s) as [|F' fr] eqn:Hls; [done|]. injection Hu as -> <-.
  unfold close_pending, update_block in Hc. simpl in Hc. destruct (B s !! current s) as [b|] eqn:Hb; [|done].
  injection Hc as <-. exists (current s), (env s), E, 0. unfold breaks. simpl. split_and!.
  - apply elem_of_app. right. left.
  - unfold pos, stmts_at. rewrite Hb, list_lookup_insert_eq by (by eapply lookup_lt_Some). apply leads_refl.
  - done.
  - done.
Qed.

Lemma continue_sounds span :
  sounds (build_bind (convert_continue span) (fun _ => build_ret None)) (fun n st w => Ok (Continued, st, w)).
Proof.
  intros par s a s' n st E w Hr Hrun Hext Hrel. apply bind_Ok in Hrun as ([] & s1 & H1 & [-> ->]%ret_Ok).
  apply bind_Ok in H1 as (x1 & x2 & [-> ->]%get_Ok & H1). apply bind_Ok in H1 as (F & s2 & Hu & Hc).
  unfold update_loop in Hu. destruct (loop_stack s) as [|F' fr] eqn:Hls; [done|]. injection Hu as -> <-.
  apply set_terminator_Ok in Hc as (b & Hb & ->). simpl in Hb. exists (current s), (env s), E, 0.
  unfold latches. simpl. split_and!.
  - apply elem_of_app. right. left.
  - unfold pos, stmts_at. rewrite Hb, list_lookup_insert_eq by (by eapply lookup_lt_Some). apply leads_refl.
  - done.
  - done.
Qed.

(** ** Conditionals *)

Lemma open_end_Ok s o s' : open_end s = Ok (o, s') -> s' = s /\ opt (fun e => [e]) o = arm_ends s.
Proof.
  unfold open_end, build_bind, build_get, is_closed, arm_ends. simpl. destruct (B s !! current s) as [b|]; [|done].
  intros [= <- <-]. by destruct (bb_closed b).
Qed.

(** What an arm leaves. *)
Record arm_went (s2 : Builder) (par3 : Parents) (s3 : Builder) : Prop := {
  aw_inv : inv np par3 (loop_stack s3) s3;
  aw_static : static G L s3;
  aw_next : next_value s2 <= next_value s3;
  aw_keeps : keeps s2 s3
}.

Lemma stmt_arm m ev par1 s1 par2 s2 a s3 :
  stmt_frag m ev -> inv np par1 (loop_stack s1) s1 -> grows par1 s1 par2 s2 -> inv np par2 (loop_stack s2) s2 ->
  static G L s1 -> static G L s2 -> next_value s1 <= next_value s2 -> m (entered (env s1) s2) = Ok (a, s3) ->
  ready (par2 ++ [Some (current s1)]) (entered (env s1) s2) /\ exists par3, arm_went s2 par3 s3.
Proof.
  intros Hf H1 Hg H2 S1 S2 Hn Hrun. pose proof (enter_ready np G L par1 s1 par2 s2 H1 Hg H2 S1 S2 Hn) as Hr.
  split; [done|]. destruct (frag_went _ _ _ _ _ _ _ (sf_conv _ _ Hf) (sf_tame _ _ Hf) Hr Hrun) as (par3 & W & _).
  exists par3. constructor; [apply W|apply W|apply (went_next _ _ _ _ W)|].
  eapply frames_keep_trans; [|by eapply went_keeps]. constructor; [apply enter_extends|apply frames_later_refl].
Qed.

Lemma arm_items s2 par3 s3 n :
  arm_went s2 par3 s3 -> next_value s3 <= n -> Forall (item_ok L n) (env_items (arm_ends s3)).
Proof.
  intros Ha Hn. unfold env_items. apply Forall_fmap, Forall_forall. intros [u e] Hu.
  destruct (arm_ends_elem _ _ _ Hu) as (-> & -> & _). simpl.
  eapply valid_env_mono; [exact Hn|apply (sc_env _ _ _ (aw_static _ _ _ Ha))].
Qed.

(** From a position through an arm to the join. *)
Lemma arm_meets n s E w sA E1 r par sE a sJ cond t ends incoming s' :
  (exists c, leads c (pos s) E w (pos sA) E1 w) -> same_below (next_value s) E E1 ->
  next_value s <= next_value sA -> next_value s <= next_value sJ ->
  stmt_sim n sA E1 w r sE a -> inv np par (loop_stack sE) sE -> keeps sE s' ->
  met sJ cond t ends incoming s' -> extends s' sF ->
  (is_open sE -> (current sE, env sE) ∈ incoming /\ current sE ∈ ends /\
     stmts_at (B sJ) (current sE) = stmts_at (B sE) (current sE)) ->
  stmt_sim n s E w (discard r) s' None.
Proof.
  intros (c1 & L1) S1 N1 N2 Hsim Hi Hk Hmet Hext Hend.
  assert ((forall x st w', r <> Ok (Normal x, st, w')) -> stmt_sim n s E w r s' None) as Hdead.
  { intros Hr. eapply stmt_sim_dead; [exact Hi|exact Hk|exact Hr|]. by eapply stmt_sim_from. }
  destruct r as [[[[x| |] st] w']|o]; cbn [discard try_]; try by apply Hdead.
  destruct Hsim as (Ho & E2 & c2 & L2 & S2 & R2 & _). destruct (Hend Ho) as (I1 & I2 & I3).
  destruct (mt_enter _ _ _ _ _ _ _ _ _ _ Hmet _ _ st E2 w' Hext I1 R2) as (R3 & S3 & L3).
  pose proof (leads_jump func sF args Hwf Hfinal _ _ _ E2 w' (mt_jump _ _ _ _ _ _ _ _ _ _ Hmet _ Hext I2)) as L4.
  rewrite I3 in L4. split.
  - destruct (mt_open _ _ _ _ _ _ _ _ _ _ Hmet) as (b & Hb & Hbo & _). by exists b.
  - eexists _, _. split; [eapply leads_trans; [exact L1|eapply leads_trans; [exact L2|eapply leads_trans; [exact L4|exact L3]]]|].
    split_and!; [|done|done]. eapply same_below_trans; [|exact S3|exact N2].
    eapply same_below_trans; [exact S1|exact S2|exact N1].
Qed.

Lemma met_keeps s cond t ends incoming s' : met s cond t ends incoming s' -> keeps s s'.
Proof.
  intros Hm. constructor; [apply (mt_extends _ _ _ _ _ _ _ _ _ _ Hm)|].
  rewrite (mt_loops _ _ _ _ _ _ _ _ _ _ Hm). apply frames_later_refl.
Qed.

(** Where the condition has ended. *)
Lemma condition_decided c ev par s cv s1 :
  frag c id ev -> ready par s -> c s = Ok (cv, s1) ->
  exists par1, ready par1 s1 /\ decided np par1 s1 par1 s1 cv /\ extends s s1 /\ next_value s <= next_value s1.
Proof.
  intros Fc Hr Hc. destruct (frag_avail _ _ _ _ _ _ _ _ _ _ _ _ _ Fc Hr Hc) as (par1 & R1 & _ & A1).
  exists par1. pose proof (ra_ready _ _ _ _ _ _ _ R1) as Hr1. split_and!; [done|by eapply ready_decided|
    apply (ra_extends _ _ _ _ _ _ _ R1)|apply (lt_next _ _ (ra_later _ _ _ _ _ _ _ R1))].
Qed.

(** What the conversion of a conditional goes through: the arms start in [s1] and
    [s2] and end in [s2] and [s3]; without an [else], [s3] is [s2]. *)
Record if_made (s1 s2 s3 s' : Builder) (t : Building (option SsaValue))
    (e : option (Building (option SsaValue))) (cv : SsaValue) : Prop := {
  im_next : next_value s1 <= next_value s2 <= next_value s3;
  im_then : exists par av, ready par (entered (env s1) s1) /\ t (entered (env s1) s1) = Ok (av, s2);
  im_else m : e = Some m -> exists par av, ready par (entered (env s1) s2) /\ m (entered (env s1) s2) = Ok (av, s3);
  im_met : met s3 (current s1) (Branch cv (length (B s1)) (length (B s2)))
    (map fst (arm_ends s2 ++ match e with Some _ => arm_ends s3 | None => [] end))
    (match e with Some _ => [] | None => [(current s1, env s1)] end ++
     arm_ends s2 ++ match e with Some _ => arm_ends s3 | None => [] end) s';
  im_extends : extends s1 s2 /\ extends s2 s3;
  im_keeps : keeps s2 s' /\ keeps s3 s';
  im_invs : exists par2 par3, inv np par2 (loop_stack s2) s2 /\ inv np par3 (loop_stack s3) s3;
  im_alone : e = None -> s3 = s2;
  im_cond : stmts_at (B s3) (current s1) = stmts_at (B s1) (current s1);
  im_first : stmts_at (B s3) (current s2) = stmts_at (B s2) (current s2)
}.

Lemma if_else_made c t e evc evt eve span par s cv s1 s' :
  frag c id evc -> stmt_frag t evt -> stmt_frag e eve -> ready par s -> c s = Ok (cv, s1) ->
  convert_if c t (Some e) span s = Ok (tt, s') ->
  exists s2 s3, if_made s1 s2 s3 s' t (Some e) cv.
Proof.
  intros Fc Ft Fe Hr Hc Hrun. unfold convert_if in Hrun. unfold build_bind at 1 in Hrun. rewrite Hc in Hrun.
  cbn [try_] in Hrun. apply bind_Ok in Hrun as (x1 & x2 & [-> ->]%get_Ok & Hrun).
  destruct (condition_decided _ _ _ _ _ _ Fc Hr Hc) as (par1 & [Hi1 Ho1 Hs1] & Hd & X1 & N1).
  pose proof (de_grows _ _ _ _ _ _ Hd) as Hg1.
  apply bind_Ok in Hrun as (tr & s2 & Ht & Hrun). apply in_new_block_Ok in Ht as (tv & -> & Ht).
  apply bind_Ok in Hrun as (te & x2 & [-> Hte]%open_end_Ok & Hrun).
  apply bind_Ok in Hrun as (er & s3' & He & Hrun). apply bind_Ok in He as (er' & s3 & He & Hem).
  apply in_new_block_Ok in He as (ev & -> & He). apply bind_Ok in Hem as (ee & x2 & [-> Hee]%open_end_Ok & [-> ->]%ret_Ok).
  apply bind_Ok in Hrun as (x1 & x2 & [= <- <-] & Hrun).
  apply bind_Ok in Hrun as ([] & s4 & Hr1 & Hrun). apply bind_Ok in Hrun as ([] & s5 & Hr2 & Hrun).
  cbn [fst snd default from_option] in Hr1, Hr2, Hrun. rewrite Hte, Hee in *. cbn [app] in Hrun.
  rewrite jump_all_blocks in Hr2.
  destruct (wp_Ok _ _ _ _ _ (first_arm np _ _ _ _ _ _ _ Hd (sf_conv _ _ Ft)) Ht) as (par2 & Ha2 & _).
  destruct (wp_Ok _ _ _ _ _ (second_arm np _ _ _ _ _ _ _ _ _ _ Hd Ha2 (sf_conv _ _ Fe)) He) as (par3 & Ha3 & _).
  pose proof (two_arms np _ _ _ _ _ _ _ _ _ _ _ Hd Ha2 Ha3) as Hj.
  destruct (stmt_arm _ _ _ _ _ _ _ _ Ft Hi1 Hg1 Hi1 Hs1 Hs1 (Nat.le_refl _) Ht) as (E2 & pw2 & W2).
  destruct (stmt_arm _ _ _ _ _ _ _ _ Fe Hi1 (arm_grows _ _ _ _ _ _ _ _ _ Ha2) (arm_inv _ _ _ _ _ _ _ _ _ Ha2) Hs1
    (aw_static _ _ _ W2) (aw_next _ _ _ W2) He) as (E3 & pw3 & W3).
  pose proof (aw_next _ _ _ W2) as N2. pose proof (aw_next _ _ _ W3) as N3.
  assert (met s3 (current s1) (Branch cv (length (B s1)) (length (B s2))) (map fst (arm_ends s2 ++ arm_ends s3))
    (arm_ends s2 ++ arm_ends s3) s') as Hmet.
  { eapply join_met; [exact Hwf|exact Hfinal|exact Hj| |exact Hr1|exact Hr2|exact Hrun].
    unfold env_items. rewrite map_app. apply Forall_app. split; [by eapply arm_items|by eapply arm_items]. }
  pose proof (met_keeps _ _ _ _ _ _ Hmet) as K3. pose proof (arm_inside _ _ _ _ _ _ _ _ _ Ha2) as Hc2.
  pose proof (i_current _ _ _ _ (i_base _ _ _ _ Hi1)) as Hc1.
  exists s2, s3. constructor; [done|by do 2 eexists| |exact Hmet| | | |done| |].
  - intros m [= <-]. by do 2 eexists.
  - split; [apply (kp_extends _ _ (aw_keeps _ _ _ W2))|apply (kp_extends _ _ (aw_keeps _ _ _ W3))].
  - split; [|done]. eapply frames_keep_trans; [apply (aw_keeps _ _ _ W3)|done].
  - exists pw2, pw3. split; [apply W2|apply W3].
  - rewrite (arm_same _ _ _ _ _ _ _ _ _ _ Ha3) by lia. by apply (arm_same _ _ _ _ _ _ _ _ _ _ Ha2).
  - apply (arm_same _ _ _ _ _ _ _ _ _ _ Ha3), (arm_current_inside np _ _ _ _ _ _ _ _ Ha2).
Qed.

Lemma if_then_made c t evc evt span par s cv s1 s' :
  frag c id evc -> stmt_frag t evt -> ready par s -> c s = Ok (cv, s1) ->
  convert_if c t None span s = Ok (tt, s') ->
  exists s2, if_made s1 s2 s2 s' t None cv.
Proof.
  intros Fc Ft Hr Hc Hrun. unfold convert_if in Hrun. unfold build_bind at 1 in Hrun. rewrite Hc in Hrun.
  cbn [try_] in Hrun. apply bind_Ok in Hrun as (x1 & x2 & [-> ->]%get_Ok & Hrun).
  destruct (condition_decided _ _ _ _ _ _ Fc Hr Hc) as (par1 & [Hi1 Ho1 Hs1] & Hd & X1 & N1).
  pose proof (de_grows _ _ _ _ _ _ Hd) as Hg1.
  apply bind_Ok in Hrun as (tr & s2 & Ht & Hrun). apply in_new_block_Ok in Ht as (tv & -> & Ht).
  apply bind_Ok in Hrun as (te & x2 & [-> Hte]%open_end_Ok & Hrun).
  apply bind_Ok in Hrun as (er & s3' & [-> ->]%ret_Ok & Hrun).
  apply bind_Ok in Hrun as (x1 & x2 & [= <- <-] & Hrun).
  apply bind_Ok in Hrun as ([] & s4 & Hr1 & Hrun). apply bind_Ok in Hrun as ([] & s5 & Hr2 & Hrun).
  cbn [fst snd default from_option] in Hr1, Hr2, Hrun. rewrite Hte in *. cbn [opt] in Hr2, Hrun.
  rewrite jump_all_blocks in Hr2.
  destruct (wp_Ok _ _ _ _ _ (first_arm np _ _ _ _ _ _ _ Hd (sf_conv _ _ Ft)) Ht) as (par2 & Ha2 & _).
  pose proof (one_arm np _ _ _ _ _ _ _ _ Hd Ha2) as Hj.
  destruct (stmt_arm _ _ _ _ _ _ _ _ Ft Hi1 Hg1 Hi1 Hs1 Hs1 (Nat.le_refl _) Ht) as (E2 & pw2 & W2).
  pose proof (aw_next _ _ _ W2) as N2.
  assert (met s2 (current s1) (Branch cv (length (B s1)) (length (B s2))) (map fst (arm_ends s2 ++ []))
    ([(current s1, env s1)] ++ arm_ends s2 ++ []) s') as Hmet.
  { rewrite app_nil_r in *. eapply join_met; [exact Hwf|exact Hfinal|exact Hj| |exact Hr1|exact Hr2|exact Hrun].
    constructor; [eapply valid_env_mono; [exact N2|apply (sc_env _ _ _ Hs1)]|by eapply arm_items]. }
  pose proof (i_current _ _ _ _ (i_base _ _ _ _ Hi1)) as Hc1.
  exists s2. constructor; [lia|by do 2 eexists|done|exact Hmet| | | |done| |done].
  - split; [apply (kp_extends _ _ (aw_keeps _ _ _ W2))|apply extends_refl].
  - split; by apply met_keeps in Hmet.
  - exists pw2, pw2. split; apply W2.
  - by apply (arm_same _ _ _ _ _ _ _ _ _ _ Ha2).
Qed.

Lemma if_arms n c (oe : option (Building (option SsaValue))) t s1 s2 s3 s' cv evt eve st1 E1 w1 x b :
  if_made s1 s2 s3 s' t oe cv -> stmt_frag t evt -> (forall m, oe = Some m -> stmt_frag m eve) ->
  static G L s1 -> extends s' sF -> rel (env s1) st1 E1 -> read args E1 cv = Some x -> truth x = Some b ->
  c = (if b : bool then discard (evt n st1 w1) else
    match oe with Some _ => discard (eve n st1 w1) | None => Ok (Normal None, st1, w1) end) ->
  stmt_sim n s1 E1 w1 c s' None.
Proof.
  intros [N (pt & tv & Et & Ht) He Hmet [X2 X3] [K2 K3] (p2 & p3 & I2 & I3) Halone Hcond Hfirst] Ft Fe Hs1 Hext Hrel Hx Hb ->.
  assert (extends s3 sF) as XF3 by (eapply extends_trans; [apply (kp_extends _ _ K3)|done]).
  assert (extends s2 sF) as XF2 by by eapply extends_trans.
  assert (extends s1 sF) as XF1 by by eapply extends_trans.
  pose proof (mt_branch _ _ _ _ _ _ _ _ _ _ Hmet Hext) as Hbr. rewrite Hcond in Hbr.
  pose proof (leads_branch func sF args Hwf Hfinal _ _ _ _ _ E1 w1 _ _ Hbr Hx Hb) as Hlead. destruct b.
  - destruct (enter_rel sF args G L (current s1) s1 s1 st1 E1 Hs1 (Nat.le_refl _) XF1 Hrel) as [HrA HsA].
    eapply (arm_meets n s1 E1 w1 (entered (env s1) s1) _ _ _ _ _ s3); [|exact HsA|done|lia|by eapply (sf_sound _ _ Ft)|exact I2|done|exact Hmet|done|].
    + exists 1. by rewrite pos_entered.
    + intros Ho. rewrite (arm_ends_open s2 Ho). split_and!; [|rewrite map_app; left|done].
      apply elem_of_app. right. left.
  - destruct oe as [m|].
    + destruct (He m eq_refl) as (pe & ev & Ee & Hrun).
      destruct (enter_rel sF args G L (current s1) s1 s2 st1 E1 Hs1 ltac:(lia) XF2 Hrel) as [HrA HsA].
      eapply (arm_meets n s1 E1 w1 (entered (env s1) s2) _ _ _ _ _ s3);
        [| |simpl; lia|lia|by eapply (sf_sound _ _ (Fe m eq_refl))|exact I3|done|exact Hmet|done|].
      * exists 1. by rewrite pos_entered.
      * intros z Hz. apply HsA. lia.
      * intros Ho. rewrite (arm_ends_open s3 Ho). split_and!; [|rewrite map_app|done]; apply elem_of_app; right; [|left].
        apply elem_of_app. right. left.
    + specialize (Halone eq_refl). subst s3.
      destruct (mt_enter _ _ _ _ _ _ _ _ _ _ Hmet (current s1) (env s1) st1 E1 w1 Hext ltac:(left) Hrel) as (R3 & S3 & L3).
      split; [destruct (mt_open _ _ _ _ _ _ _ _ _ _ Hmet) as (b & Hb' & Hbo & _); by exists b|].
      eexists _, _. split; [eapply leads_trans; [exact Hlead|exact L3]|]. split_and!; [|done|done].
      intros z Hz. apply S3. lia.
Qed.

Lemma if_sounds c t oe evc evt eve span :
  frag c id evc -> stmt_frag t evt -> (forall m, oe = Some m -> stmt_frag m eve) ->
  sounds (build_bind (convert_if c t oe span) (fun _ => build_ret None)) (fun n st w =>
    let? (x, st, w) := evc st w in
    match truth x with
    | None => Err (NotBool x w)
    | Some b => if b : bool then discard (evt n st w) else
        match oe with Some _ => discard (eve n st w) | None => Ok (Normal None, st, w) end
    end).
Proof.
  intros Fc Ft Fe par s a s' n st E w Hr Hrun Hext Hrel. apply bind_Ok in Hrun as ([] & s0 & Hrun & [-> ->]%ret_Ok).
  destruct (bind_Ok _ _ _ _ Hrun) as (cv & s1 & Hc & _).
  destruct (condition_decided _ _ _ _ _ _ Fc Hr Hc) as (par1 & [Hi1 Ho1 Hs1] & Hd & X1 & N1).
  assert (exists s2 s3, if_made s1 s2 s3 s0 t oe cv) as (s2 & s3 & Hmade).
  { destruct oe as [e|]; [exact (if_else_made _ _ _ _ _ _ _ _ _ _ _ _ Fc Ft (Fe e eq_refl) Hr Hc Hrun)|].
    destruct (if_then_made _ _ _ _ _ _ _ _ _ _ Fc Ft Hr Hc Hrun) as (s2 & Hm). by exists s2, s2. }
  assert (extends s1 sF) as XF1.
  { destruct (im_extends _ _ _ _ _ _ _ Hmade) as [Y1 Y2]. eapply extends_trans; [exact Y1|]. eapply extends_trans; [exact Y2|].
    eapply extends_trans; [apply (kp_extends _ _ (proj2 (im_keeps _ _ _ _ _ _ _ Hmade)))|done]. }
  eapply stmt_sim_bind; [by eapply (fr_sound _ _ _ _ _ _ _ _ _ Fc)|done|].
  intros x st1 E1 w1 Hrel1 Hsame1 Hx. cbn beta iota.
  destruct (truth x) as [b|] eqn:Hb.
  - eapply (if_arms n _ oe t s1 s2 s3 s0 cv evt eve); [exact Hmade|exact Ft|exact Fe|exact Hs1|exact Hext|exact Hrel1|exact Hx|exact Hb|reflexivity].
  - assert (extends s0 sF) as X0 by done. pose proof (mt_branch _ _ _ _ _ _ _ _ _ _ (im_met _ _ _ _ _ _ _ Hmade) X0) as Hbr.
    rewrite (im_cond _ _ _ _ _ _ _ Hmade) in Hbr. by eapply (fails_branch func sF args).
Qed.
End Stmts.
