(* ===== verification/BuildSimWhile.v ===== *)
(** * The code that is built does what the source does: loops and functions

    A loop is entered from the block before it and from its latches; each time the
    phis of the header take the values of the environment there ([header_sim]).  A turn
    costs a block, so the fuel of the source bounds that of the run from below.
    [build_function_correct] is the whole: the function that is built gives the
    outcome of the source. *)

From S2P Require Export BuildSimStmt PlanRun.

Section Header.
Context {C : CoreTypes} {U : UnicodeTables}.

Abbreviation B := bl_blocks.
Abbreviation BEnv := (gmap string SsaValue).
Abbreviation with_stmts := BuildWhile.with_stmts.
Abbreviation with_blocks := SsaBuild.with_blocks.

(** ** The header, exactly *)

Definition entry_phi (pre : BlockId) (pre_env : BEnv) (span : CoreSpan) (id : SsaValueId) (var : string)
    : SsaStatement :=
  {| stmt_id := id; stmt_op := Phi {| edges := [pre]; values := [pre_env !! var] |}; stmt_span := span |}.

Definition entry_phis (pre : BlockId) (pre_env : BEnv) (span : CoreSpan) (id : SsaValueId)
    (vars : list string) : list SsaStatement :=
  zip_with (entry_phi pre pre_env span) (seq id (length vars)) vars.

Lemma entry_phis_lookup pre pre_env span id vars j var :
  vars !! j = Some var ->
  entry_phis pre pre_env span id vars !! j = Some (entry_phi pre pre_env span (id + j) var).
Proof.
  intros Hj. unfold entry_phis. apply lookup_zip_with_Some. exists (id + j), var.
  split_and!; [done| |done]. rewrite lookup_seq. split; [done|by eapply lookup_lt_Some].
Qed.

Lemma entry_phis_length pre pre_env span id vars : length (entry_phis pre pre_env span id vars) = length vars.
Proof. unfold entry_phis. rewrite length_zip_with, length_seq. lia. Qed.

Lemma entry_phis_are pre pre_env span id vars :
  length (entry_phis pre pre_env span id vars) = length vars /\
  Forall (fun st => is_phi (stmt_op st) = true) (entry_phis pre pre_env span id vars).
Proof.
  split; [apply entry_phis_length|]. apply Forall_forall. intros st [j Hj]%list_elem_of_lookup.
  by apply lookup_zip_with_Some in Hj as (i & var & -> & _).
Qed.

Record header_made (header pre : BlockId) (pre_env : BEnv) (vars : list string) (span : CoreSpan)
    (s s' : Builder) (b : BlockBuild) : Prop := {
  hm_blocks : B s' = <[header := with_stmts (bb_stmts b ++ entry_phis pre pre_env span (next_value s) vars) b]> (B s);
  hm_next : next_value s' = next_value s + length vars;
  hm_current : current s' = current s;
  hm_loops : loop_stack s' = loop_stack s;
  hm_env j var : NoDup vars -> vars !! j = Some var -> env s' !! var = Some (Def (next_value s + j));
  hm_other name : name ∉ vars -> env s' !! name = env s !! name
}.

Lemma header_phis_exact header pre pre_env vars span s r s' b :
  B s !! header = Some b -> header_phis header pre pre_env vars span s = Ok (r, s') ->
  header_made header pre pre_env vars span s s' b.
Proof.
  revert s b. induction vars as [|var vars IH]; intros s b Hb Hm; cbn [header_phis] in Hm.
  - apply ret_Ok in Hm as [_ ->]. constructor; simpl; try done; try lia.
    unfold BuildWhile.with_stmts, entry_phis. simpl. rewrite app_nil_r, list_insert_id; [done|]. rewrite Hb. by destruct b.
  - apply bind_Ok in Hm as (id & s1 & [= <- <-] & Hm). apply bind_Ok in Hm as (x & s2 & Hu & Hm).
    unfold update_block in Hu. simpl in Hu. rewrite Hb in Hu. injection Hu as <- <-.
    apply bind_Ok in Hm as (y & s3 & ->%modify_Ok & Hm).
    match type of Hm with header_phis _ _ _ _ _ ?st = _ => set (s3 := st) in * end.
    set (b3 := push_stmt (entry_phi pre pre_env span (next_value s) var) b).
    assert (B s3 !! header = Some b3) as Hb3 by (simpl; apply list_lookup_insert_eq; by eapply lookup_lt_Some).
    destruct (IH s3 b3 Hb3 Hm) as [H1 H2 H3 H4 H5 H6]. constructor; [| |done|done| |].
    + rewrite H1. simpl. rewrite list_insert_insert_eq. unfold BuildWhile.with_stmts. simpl. rewrite <- app_assoc. simpl.
      unfold entry_phis. simpl. by rewrite Nat.add_1_r.
    + rewrite H2. simpl. lia.
    + intros j v Hnd Hj. apply NoDup_cons in Hnd as [Hn Hnd]. destruct j as [|j]; simpl in Hj.
      * injection Hj as <-. rewrite H6 by done. simpl. by rewrite lookup_insert_eq, Nat.add_0_r.
      * rewrite (H5 j v Hnd Hj). simpl. do 2 f_equal. lia.
    + intros name Hn. apply not_elem_of_cons in Hn as [Hne Hn]. rewrite H6 by done. simpl. by rewrite lookup_insert_ne.
Qed.

Lemma header_extends header pre pre_env vars span s s' b :
  B s !! header = Some b -> bb_closed b = false -> header_made header pre pre_env vars span s s' b -> extends s s'.
Proof.
  intros Hb Ho [H1 H2 _ _ _ _]. eapply (extends_update s s' header b); [done|exact H1|lia| |].
  - eexists (bb_stmts b), _. split_and!; [done|apply stmts_ext_refl|]. simpl. by rewrite Ho.
  - simpl. rewrite map_app. intros x [?|Hx]%elem_of_app; [by left|right].
    apply list_elem_of_fmap in Hx as (st & -> & Hst). apply list_elem_of_lookup in Hst as [j Hj].
    apply lookup_zip_with_Some in Hj as (id & var & -> & Hid & _). apply lookup_seq in Hid as [-> _]. simpl. lia.
Qed.

(** Sealing only adds operands. *)
Lemma seal_ext lat var st : stmt_ext st (seal_phi lat var st).
Proof.
  split; [apply seal_id|]. unfold seal_phi. destruct (stmt_op st) as [[es vs]| | | | | | | | |] eqn:Ho; rewrite ?Ho; try done.
  simpl. by do 2 eexists.
Qed.

Lemma seals_ext lat vars l :
  length l = length vars -> Forall2 stmt_ext l (zip_with (seal_phi lat) vars l).
Proof.
  revert l. induction vars as [|var vars IH]; intros [|st l]; simpl; try done.
  intros [= Hl]. constructor; [apply seal_ext|by apply IH].
Qed.

Lemma seal_extends header lat vars todo rest b s :
  B s !! header = Some b -> bb_stmts b = todo ++ rest -> length todo = length vars ->
  extends s (with_blocks (insert header (with_stmts (zip_with (seal_phi lat) vars todo ++ rest) b)) s).
Proof.
  intros Hb Hl Hlen. eapply (extends_update s _ header b); [done|done|done| |].
  - exists (zip_with (seal_phi lat) vars todo ++ rest), []. rewrite app_nil_r. split_and!; [done| |done].
    rewrite Hl. apply Forall2_app; [by apply seals_ext|apply stmts_ext_refl].
  - simpl. rewrite Hl, !map_app, (sealed_ids lat todo); [by left|by apply sealed_zip].
Qed.
End Header.

Section While.
Context {C : CoreTypes} {U : UnicodeTables} {SM : Semantics}.
Variable func : SsaFunction.
Variable sF : Builder.
Variable args : list Val.
Hypothesis Hwf : well_formed func.
Hypothesis Hfinal : forall i, block func i = finished_block sF i <$> bl_blocks sF !! i.
Variable np : nat.
Variables G L : gset string.

Abbreviation B := bl_blocks.
Abbreviation Defs := (gmap SsaValueId Val).
Abbreviation Store := (gmap string Val).
Abbreviation BEnv := (gmap string SsaValue).
Abbreviation outcome := (Outcome Val World Exn).
Abbreviation leads := (leads func sF args).
Abbreviation fails := (fails func sF args).
Abbreviation rel := (rel args G).
Abbreviation entry_defs := (entry_defs sF args).
Abbreviation ends_with := (ends_with sF).
Abbreviation ready := (ready np G L).
Abbreviation frag := (frag func sF args np G L).
Abbreviation stmt_frag := (stmt_frag func sF args np G L).
Abbreviation met := (met func sF args G).

(** ** The head of a loop *)

Lemma while_head par0 s0 vars span r1 s1 r2 s2 :
  let header := length (B s0) in
  ready par0 s0 -> (forall var, var ∈ vars -> var ∈ L) ->
  set_terminator (current s0) (Jump header) (snoc_block_state s0) = Ok (r1, s1) ->
  header_phis header (current s0) (env s0) vars span (with_current header s1) = Ok (r2, s2) ->
  (exists par, ready par s2) /\ current s2 = header /\ next_value s0 <= next_value s2 /\
  header_made header (current s0) (env s0) vars span (with_current header s1) s2 empty_block /\
  next_value s1 = next_value s0 /\ env s1 = env s0 /\
  B s2 !! header = Some {| bb_stmts := entry_phis (current s0) (env s0) span (next_value s0) vars;
                           bb_terminator := None; bb_closed := false |} /\
  (extends s2 sF -> ends_with (current s0) (length (stmts_at (B s0) (current s0))) (Jump header)) /\
  extends s0 s2.
Proof.
  intros header [Hi Ho Hs] Hv Hr1 Hr2.
  destruct (loop_head np _ _ _ _ _ _ _ _ Hi Ho Hr1 Hr2) as (par1 & k & I2 & _ & O2 & C2 & _).
  destruct Ho as (b & Hb & Hop). pose proof (lookup_lt_Some _ _ _ Hb) as Hlt.
  pose proof (g_open _ _ _ _ _ (i_graph _ _ _ _ (i_base _ _ _ _ Hi)) _ b Hb Hop) as Hnone.
  apply set_terminator_Ok in Hr1 as (b' & Hb' & ->). assert (b' = b) as ->.
  { simpl in Hb'. rewrite lookup_app_l in Hb' by done. congruence. }
  set (s1 := terminate (current s0) (Jump header) b (snoc_block_state s0)) in *.
  assert (B s1 !! header = Some empty_block) as Hh.
  { simpl. rewrite list_lookup_insert_ne by (unfold header; lia). unfold header. by rewrite lookup_app_r, Nat.sub_diag. }
  pose proof (header_phis_exact header (current s0) (env s0) vars span (with_current header s1) r2 s2 empty_block Hh Hr2) as Hm.
  pose proof (header_extends _ _ _ _ _ (with_current header s1) _ _ Hh eq_refl Hm) as X2.
  assert (extends s0 s1) as X1 by (eapply extends_trans; [apply extends_new|by apply extends_terminate]).
  assert (static G L (with_current header s1)) as Hs1 by (by apply (static_blocks G L s0)).
  destruct (header_phis_tame G L [] header (current s0) (env s0) vars span Hv _ _ _ Hs1 ltac:(constructor) Hr2) as (Hs2 & _ & _).
  split_and!; [by exists par1|done|rewrite (hm_next _ _ _ _ _ _ _ _ Hm); simpl; lia|done|done|done| | |].
  - rewrite (hm_blocks _ _ _ _ _ _ _ _ Hm). apply list_lookup_insert_eq. by eapply lookup_lt_Some.
  - intros Hext. unfold stmts_at. rewrite Hb. apply (terminate_ends sF (snoc_block_state s0)); [done|].
    eapply extends_trans; [|exact Hext]. eapply extends_trans; [|exact X2]. by apply extends_same.
  - eapply extends_trans; [exact X1|]. eapply extends_trans; [|exact X2]. by apply extends_same.
Qed.

(** ** What the conversion goes through *)

Record while_made (s0 s2 sC sB sS s' : Builder) (c : Building SsaValue) (body : Building (option SsaValue))
    (cv : SsaValue) (F : LoopFrame) (vars : list string) (span : CoreSpan) : Prop := {
  wm_pre : extends s' sF -> ends_with (current s0) (length (stmts_at (B s0) (current s0))) (Jump (length (B s0)));
  wm_head : exists par, ready par s2;
  wm_current : pos s2 = (length (B s0), length vars);
  wm_phis : exists b, B s2 !! length (B s0) = Some b /\ length (bb_stmts b) = length vars /\
    Forall (fun st => is_phi (stmt_op st) = true) (bb_stmts b);
  wm_env j var : NoDup vars -> vars !! j = Some var -> env s2 !! var = Some (Def (next_value s0 + j));
  wm_other name : name ∉ vars -> env s2 !! name = env s0 !! name;
  wm_next : next_value s0 <= next_value s2 <= next_value sC /\ next_value sC <= next_value sS;
  wm_cond : c s2 = Ok (cv, sC);
  wm_static : static G L sC;
  wm_entry : exists par, ready par (entered (env sC) (looped (length (B s0)) sC));
  wm_body : exists a, body (entered (env sC) (looped (length (B s0)) sC)) = Ok (a, sB);
  wm_frame : breaks sB = exit_incoming F /\ latches sB = latch_incoming F /\
    map fst (exit_incoming F) = break_blocks F;
  wm_inv : exists par, inv np par (loop_stack sB) sB;
  wm_extends : extends s0 s2 /\ extends s2 sC /\ extends sC sB /\ extends sB sS;
  wm_met : met sS (current sC) (Branch cv (length (B sC)) (length (B sS))) (break_blocks F)
    (exit_incoming F ++ [(current sC, env sC)]) s';
  wm_branch : length (stmts_at (B sS) (current sC)) = length (stmts_at (B sC) (current sC));
  wm_latch u e : (u, e) ∈ latch_incoming F ++ arm_ends sB -> extends s' sF ->
    ends_with u (length (stmts_at (B sB) u)) (Jump (length (B s0)));
  wm_header : exists b rest, B sS !! length (B s0) = Some b /\ bb_stmts b =
    zip_with (seal_phi (sort_edges (latch_incoming F ++ arm_ends sB))) vars
      (entry_phis (current s0) (env s0) span (next_value s0) vars) ++ rest
}.

(** From the body to the exit. *)
Record while_closed (s0 sC sB sS s' : Builder) (F : LoopFrame) (vars : list string) (cv : SsaValue)
    (phis : list SsaStatement) : Prop := {
  cl_extends : extends sB sS;
  cl_next : next_value sS = next_value sB;
  cl_met : met sS (current sC) (Branch cv (length (B sC)) (length (B sS))) (break_blocks F)
    (exit_incoming F ++ [(current sC, env sC)]) s';
  cl_branch : length (stmts_at (B sS) (current sC)) = length (stmts_at (B sC) (current sC));
  cl_latch u e : (u, e) ∈ latch_incoming F ++ arm_ends sB -> extends s' sF ->
    ends_with u (length (stmts_at (B sB) u)) (Jump (lf_header F));
  cl_header : exists b rest, B sS !! lf_header F = Some b /\
    bb_stmts b = zip_with (seal_phi (sort_edges (latch_incoming F ++ arm_ends sB))) vars phis ++ rest
}.

(** The header when the body is built. *)
Lemma header_kept par0 s0 parC sC cv F (vars : list string) parB sB sL F' b ps rest phis bC restC :
  loop_at np par0 s0 parC sC cv (lf_header F) (length vars) ->
  arm np parC (looped (lf_header F) sC) parC (looped (lf_header F) sC) (current sC) parB sB (length (B sC)) ->
  jumped_back np par0 s0 sC (length vars) parB sB F sL F' b ps rest ->
  B sC !! lf_header F = Some bC -> bb_stmts bC = phis ++ restC -> length phis = length vars ->
  b = bC /\ ps = phis /\ rest = restC.
Proof.
  intros Hla Harm Hjb HbC Hst Hlen. pose proof (jb_block _ _ _ _ _ _ _ _ _ _ _ _ _ Hjb) as Hb.
  rewrite (jb_same _ _ _ _ _ _ _ _ _ _ _ _ _ Hjb _ (jb_not_end _ _ _ _ _ _ _ _ _ _ _ _ _ Hjb)) in Hb.
  rewrite (arm_old _ _ _ _ _ _ _ _ _ Harm) in Hb by (simpl; by eapply lookup_lt_Some). simpl in Hb.
  rewrite HbC in Hb. injection Hb as ->. split; [done|].
  pose proof (jb_stmts _ _ _ _ _ _ _ _ _ _ _ _ _ Hjb) as Hs. rewrite Hst in Hs.
  pose proof (jb_count _ _ _ _ _ _ _ _ _ _ _ _ _ Hjb) as Hc. apply app_inj_1 in Hs as [-> ->]; [done|congruence].
Qed.

Lemma while_close par0 s0 parC sC cv F (vars : list string) parB sB span phis bC restC sL sS s5 s6 s' r1 r2 r3 r4 :
  loop_at np par0 s0 parC sC cv (lf_header F) (length vars) ->
  arm np parC (looped (lf_header F) sC) parC (looped (lf_header F) sC) (current sC) parB sB (length (B sC)) ->
  loop_stack sB = F :: loop_stack sC -> (forall b, b ∈ break_blocks F -> length (B sC) <= b) ->
  grows par0 s0 parB (with_loops (loop_stack sC) sB) ->
  static G L sC -> static G L sB -> next_value sC <= next_value sB -> extends sC sB ->
  B sC !! lf_header F = Some bC -> bb_stmts bC = phis ++ restC -> length phis = length vars ->
  jump_all (lf_header F) (arm_ends sB) (with_loops (loop_stack sC) sB) = Ok (r1, sL) ->
  seal_phis (lf_header F) (sort_edges (latch_incoming F ++ arm_ends sB)) 0 vars sL = Ok (r2, sS) ->
  set_terminator (current sC) (Branch cv (length (B sC)) (length (B sS))) (snoc_block_state sS) = Ok (r3, s5) ->
  jump_blocks (length (B sS)) (break_blocks F) s5 = Ok (r4, s6) ->
  merge_into (length (B sS)) (exit_incoming F ++ [(current sC, env sC)]) (env sC) span s6 = Ok (tt, s') ->
  while_closed s0 sC sB sS s' F vars cv phis.
Proof.
  intros Hla Harm Hfr Hbr Hg SC SB Nn XB HbC Hst Hlen R1 R2 R3 R4 R5.
  destruct (header_after np _ _ _ _ _ _ _ _ _ _ _ Hla Harm Hfr Hg R1) as (F' & b & ps & rest & Hjb).
  destruct (header_kept _ _ _ _ _ _ _ _ _ _ _ _ _ _ _ _ _ Hla Harm Hjb HbC Hst Hlen) as (-> & -> & ->).
  pose proof (loop_close np _ _ _ _ _ _ _ _ _ _ _ _ _ _ _ _ _ Hla Harm Hjb eq_refl R2) as Hlc.
  pose proof (loop_joining np _ _ _ _ _ _ _ _ _ _ _ Hla Harm Hfr Hbr Hlc) as Hj.
  pose proof (jb_block _ _ _ _ _ _ _ _ _ _ _ _ _ Hjb) as HbL.
  pose proof (seal_phis_Ok (lf_header F) (sort_edges (latch_incoming F ++ arm_ends sB)) vars [] phis restC bC sL r2 sS
    HbL Hst Hlen R2) as HsS. cbn [app] in HsS.
  assert (extends sL sS) as XS by (rewrite HsS; by apply seal_extends).
  rewrite jump_all_blocks in R1.
  destruct (jumps_end sF (lf_header F) (map fst (arm_ends sB)) (with_loops (loop_stack sC) sB) r1 sL) as (XL & NL & _ & JL);
    [apply arm_ends_nodup| |exact R1|].
  { intros u Hu. destruct (arm_ends_fst _ _ Hu) as [-> (c & Hc & Ho)]. exists c. split; [done|].
    by apply (g_open _ _ _ _ _ (i_graph _ _ _ _ (i_base _ _ _ _ (arm_inv _ _ _ _ _ _ _ _ _ Harm))) (current sB)). }
  assert (extends sB sL) as XBL by (eapply extends_trans; [by apply (extends_same sB (with_loops (loop_stack sC) sB))|done]).
  assert (next_value sS = next_value sB) as NS by (rewrite HsS; simpl; by rewrite NL).
  assert (met sS (current sC) (Branch cv (length (B sC)) (length (B sS))) (break_blocks F)
    (exit_incoming F ++ [(current sC, env sC)]) s') as Hmet.
  { eapply join_met; [exact Hwf|exact Hfinal|exact Hj| |exact R3|exact R4|exact R5].
    rewrite NS. unfold env_items. rewrite map_app. apply Forall_app. split.
    - pose proof (sc_frames _ _ _ SB) as Hf. rewrite Hfr in Hf. apply Forall_cons in Hf as [HF _].
      by apply Forall_app in HF as [HF _].
    - constructor; [|constructor]. simpl. eapply valid_env_mono; [exact Nn|apply (sc_env _ _ _ SC)]. }
  constructor; [by eapply extends_trans|done|exact Hmet| | |].
  - pose proof (arm_current _ _ _ _ _ _ _ _ _ Harm) as Hcur. simpl in Hcur.
    pose proof (i_current _ _ _ _ (i_base _ _ _ _ (de_inv _ _ _ _ _ _ (la_decided _ _ _ _ _ _ _ _ Hla)))) as HcC.
    assert (B sL !! current sC = B sC !! current sC) as HcL.
    { rewrite (jb_same _ _ _ _ _ _ _ _ _ _ _ _ _ Hjb) by (intros Hin; destruct (arm_ends_fst _ _ Hin); lia).
      by rewrite (arm_old _ _ _ _ _ _ _ _ _ Harm) by done. }
    unfold stmts_at. rewrite <- HcL, HsS. simpl. destruct (decide (current sC = lf_header F)) as [->|Hne].
    + rewrite list_lookup_insert_eq, HbL by (by eapply lookup_lt_Some). simpl.
      rewrite Hst, !length_app, length_zip_with. lia.
    + by rewrite list_lookup_insert_ne.
  - intros u e [Hu|Hu]%elem_of_app Hext.
    + pose proof (arm_inv _ _ _ _ _ _ _ _ _ Harm) as Hi. rewrite Hfr in Hi.
      pose proof (i_frames _ _ _ _ (i_base _ _ _ _ Hi)) as Hf. apply Forall_cons in Hf as [HF _].
      destruct (f_latch _ _ _ _ _ HF u e Hu) as (_ & c & Hc & Hcl & Ht). unfold stmts_at. rewrite Hc.
      apply (final_closed _ _ _ _ _ (extends_trans _ _ _ XBL (extends_trans _ _ _ XS (extends_trans _ _ _
        (mt_extends _ _ _ _ _ _ _ _ _ _ Hmet) Hext))) Hc Hcl Ht).
    + apply (list_elem_of_fmap_2 fst) in Hu.
      exact (JL (extends_trans _ _ _ XS (extends_trans _ _ _ (mt_extends _ _ _ _ _ _ _ _ _ _ Hmet) Hext)) u Hu).
  - exists (BuildWhile.with_stmts (zip_with (seal_phi (sort_edges (latch_incoming F ++ arm_ends sB))) vars phis ++ restC) bC), restC.
    split; [|done]. rewrite HsS. simpl. apply list_lookup_insert_eq. by eapply lookup_lt_Some.
Qed.

Lemma ordered_nodup names : NoDup (ordered names).
Proof. unfold ordered. rewrite merge_sort_Permutation. apply NoDup_elements. Qed.

(** The steps of the conversion of a loop. *)
Lemma while_steps c (body : Building (option SsaValue)) writes span s0 s' :
  let vars := ordered (writes ∖ globals s0) in
  let header := length (B s0) in
  convert_while c body writes span s0 = Ok (tt, s') ->
  exists s1 s2 cv sC a sB F rest sL sS s5 s6 r1 r2 r3 r4 r5 r6,
    set_terminator (current s0) (Jump header) (snoc_block_state s0) = Ok (r1, s1) /\
    header_phis header (current s0) (env s0) vars span (with_current header s1) = Ok (r2, s2) /\
    c s2 = Ok (cv, sC) /\ body (entered (env sC) (looped header sC)) = Ok (a, sB) /\
    loop_stack sB = F :: rest /\
    jump_all header (arm_ends sB) (with_loops rest sB) = Ok (r3, sL) /\
    seal_phis header (sort_edges (latch_incoming F ++ arm_ends sB)) 0 vars sL = Ok (r4, sS) /\
    set_terminator (current sC) (Branch cv (length (B sC)) (length (B sS))) (snoc_block_state sS) = Ok (r5, s5) /\
    jump_blocks (length (B sS)) (break_blocks F) s5 = Ok (r6, s6) /\
    merge_into (length (B sS)) (exit_incoming F ++ [(current sC, env sC)]) (env sC) span s6 = Ok (tt, s').
Proof.
  intros vars header Hrun. unfold convert_while in Hrun. apply bind_Ok in Hrun as (x0 & y0 & [-> ->]%get_Ok & Hrun).
  apply bind_Ok in Hrun as (x1 & y1 & [= <- <-] & Hrun). apply bind_Ok in Hrun as (r1 & s1 & R1 & Hrun).
  apply bind_Ok in Hrun as (x2 & y2 & ->%modify_Ok & Hrun). apply bind_Ok in Hrun as (r2 & s2 & R2 & Hrun).
  apply bind_Ok in Hrun as (cv & sC & RC & Hrun). apply bind_Ok in Hrun as (x3 & y3 & [-> ->]%get_Ok & Hrun).
  apply bind_Ok in Hrun as (x4 & y4 & [= <- <-] & Hrun). apply bind_Ok in Hrun as (x5 & y5 & ->%modify_Ok & Hrun).
  apply bind_Ok in Hrun as (x6 & y6 & ->%modify_Ok & Hrun). apply bind_Ok in Hrun as (x7 & y7 & ->%modify_Ok & Hrun).
  apply bind_Ok in Hrun as (a & sB & RB & Hrun). apply bind_Ok in Hrun as (F & y8 & Hpop & Hrun).
  unfold pop_loop in Hpop. destruct (loop_stack sB) as [|F' rest] eqn:Hls; [done|]. injection Hpop as -> <-.
  apply bind_Ok in Hrun as (le & y9 & [-> Hle]%open_end_Ok & Hrun). rewrite Hle in Hrun.
  apply bind_Ok in Hrun as (r3 & sL & R3 & Hrun). apply bind_Ok in Hrun as (r4 & sS & R4 & Hrun).
  apply bind_Ok in Hrun as (x10 & y10 & [= <- <-] & Hrun). apply bind_Ok in Hrun as (r5 & s5 & R5 & Hrun).
  apply bind_Ok in Hrun as (r6 & s6 & R6 & R7).
  exists s1, s2, cv, sC, a, sB, F, rest, sL, sS, s5, s6. do 6 eexists. by split_and!.
Qed.

Lemma while_takes_apart c body evc evb writes span par0 s0 s' :
  let vars := ordered (writes ∖ G) in
  frag c id evc -> stmt_frag body evb -> ready par0 s0 -> writes ⊆ G ∪ L ->
  convert_while c body writes span s0 = Ok (tt, s') ->
  exists s2 sC sB sS cv F, while_made s0 s2 sC sB sS s' c body cv F vars span.
Proof.
  intros vars Fc Fb Hr Hw Hrun. pose proof (sc_globals _ _ _ (rd_static _ _ _ _ _ Hr)) as HG.
  destruct (while_steps _ _ _ _ _ _ Hrun) as (s1 & s2 & cv & sC & a & sB & F & rest & sL & sS & s5 & s6 & r1 & r2 & r3 & r4 &
    r5 & r6 & R1 & R2 & RC & RB & Hls & R3 & R4 & R5 & R6 & R7). rewrite HG in *. fold vars in R2, R4.
  set (header := length (B s0)) in *.
  destruct (while_head par0 s0 vars span r1 s1 r2 s2 Hr) as ((par2 & H2) & Hcur & N2 & Hm & Hn1 & He1 & Hb2 & Hpre & X2);
    [intros var Hvar%ordered_elem; set_solver|exact R1|exact R2|].
  destruct (frag_runs _ _ _ _ _ _ _ _ _ _ _ _ _ Fc H2 RC) as ((parC' & HrC & HgC) & XC & NC & _).
  destruct HrC as [IC OC SC].
  destruct (wp_Ok _ _ _ _ _ (loop_start np _ _ _ _ _ _ _ _ _ (fr_piece _ _ _ _ _ _ _ _ _ Fc) (rd_inv _ _ _ _ _ Hr)
    (rd_open _ _ _ _ _ Hr) R1 R2) RC) as (parC & Hla).
  destruct (wp_Ok _ _ _ _ _ (loop_body np _ _ _ _ _ _ _ _ Hla (sf_conv _ _ _ _ _ _ _ _ Fb)) RB)
    as (parB & F' & Harm & Hfr & Hh & Hbr & Hg). rewrite Hls in Hfr. injection Hfr as <- ->.
  pose proof (de_inv _ _ _ _ _ _ (la_decided _ _ _ _ _ _ _ _ Hla)) as IC'.
  assert (inv np parC (loop_stack (looped header sC)) (looped header sC)) as Hloop.
  { split; [|apply (i_env _ _ _ _ IC')]. apply base_loops, base_new_frame; [apply IC'|eexists; apply (la_parent _ _ _ _ _ _ _ _ Hla)|
      apply (la_scope _ _ _ _ _ _ _ _ Hla)]. }
  assert (static G L (looped header sC)) as SLo.
  { destruct SC as [T1 T2 T3]. constructor; [done|done|]. simpl. by constructor. }
  pose proof (enter_ready np G L parC (looped header sC) parC (looped header sC) Hloop
    (grows_refl _ _ (i_current _ _ _ _ (i_base _ _ _ _ Hloop))) Hloop SLo SLo (Nat.le_refl _)) as HE.
  destruct (frag_went _ _ _ _ _ _ _ _ _ _ (sf_conv _ _ _ _ _ _ _ _ Fb) (sf_tame _ _ _ _ _ _ _ _ Fb) HE RB) as (parB' & WB & _).
  assert (extends sC sB) as XB.
  { eapply extends_trans; [by apply (extends_same sC (looped header sC))|].
    eapply extends_trans; [apply enter_extends|apply (wn_extends _ _ _ _ _ _ _ WB)]. }
  pose proof (went_next _ _ _ _ _ _ _ WB) as NB. simpl in NB.
  destruct (gr_stmts _ _ _ _ HgC) as (restC & HstC & _). rewrite Hcur in HstC. unfold stmts_at in HstC. rewrite Hb2 in HstC.
  unfold header in *. destruct (B sC !! length (B s0)) as [bC|] eqn:HbC; [|by destruct (ex_blocks _ _ XC _ _ Hb2) as (c' & Hc' & _); congruence].
  simpl in HstC. rewrite <- Hh in Hla, Harm, HbC, R3, R4.
  pose proof (while_close _ _ _ _ _ _ _ _ _ _ _ _ _ _ _ _ _ _ _ _ _ _ Hla Harm Hls Hbr Hg SC (wn_static _ _ _ _ _ _ _ WB) NB XB
    HbC HstC (entry_phis_length _ _ _ _ _) R3 R4 R5 R6 R7) as [K1 K2 K3 K4 K5 K6].
  exists s2, sC, sB, sS, cv, F.
  rewrite Hh in K5, K6. constructor; [|by exists par2| |eexists; split; [exact Hb2|apply entry_phis_are]| | | |done|done| | | |exists parB'; apply WB|done|done|done|done|done].
  - intros Hext. apply Hpre. eapply extends_trans; [exact XC|]. eapply extends_trans; [exact XB|].
    eapply extends_trans; [exact K1|]. eapply extends_trans; [apply (mt_extends _ _ _ _ _ _ _ _ _ _ K3)|done].
  - unfold pos, stmts_at. rewrite Hcur, Hb2. simpl. by rewrite entry_phis_length.
  - intros j var Hnd Hj. rewrite (hm_env _ _ _ _ _ _ _ _ Hm j var Hnd Hj). simpl. by rewrite Hn1.
  - intros name Hn. rewrite (hm_other _ _ _ _ _ _ _ _ Hm name Hn). simpl. by rewrite He1.
  - lia.
  - by eexists.
  - by exists a.
  - unfold breaks, latches. rewrite Hls. split_and!; [done|done|].
    pose proof (i_frames _ _ _ _ (i_base _ _ _ _ (wn_inv _ _ _ _ _ _ _ WB))) as Hf. rewrite Hls in Hf.
    apply Forall_cons in Hf as [HF _]. apply (f_breaks _ _ _ _ _ HF).
Qed.

(** ** Entering the header *)

Section Loop.
Variables s0 s2 sC sB sS s' : Builder.
Variable c : Building SsaValue.
Variable body : Building (option SsaValue).
Variable cv : SsaValue.
Variable F : LoopFrame.
Variable writes : gset string.
Variable span : CoreSpan.
Let vars := ordered (writes ∖ G).
Let header := length (B s0).
Let entries := (current s0, env s0) :: sort_edges (latch_incoming F ++ arm_ends sB).
Hypothesis Hmade : while_made s0 s2 sC sB sS s' c body cv F vars span.
Hypothesis Hstatic : static G L s0.
Hypothesis Hext : extends s' sF.

Lemma loop_final : extends sS sF /\ extends sB sF /\ extends sC sF /\ extends s2 sF /\ extends s0 sF.
Proof.
  destruct (wm_extends _ _ _ _ _ _ _ _ _ _ _ _ Hmade) as (X0 & X2 & XC & XB).
  assert (extends sS sF) as XS by (eapply extends_trans; [apply (mt_extends _ _ _ _ _ _ _ _ _ _ (wm_met _ _ _ _ _ _ _ _ _ _ _ _ Hmade))|done]).
  assert (extends sB sF) as Y1 by by eapply extends_trans. assert (extends sC sF) as Y2 by by eapply extends_trans.
  assert (extends s2 sF) as Y3 by by eapply extends_trans. split_and!; [done..|by eapply extends_trans].
Qed.

(** The phi of a variable takes its value in the environment where control comes from. *)
Lemma header_phi p e E j var :
  (p, e) ∈ entries -> vars !! j = Some var ->
  entry_defs (Some p) header E !! (next_value s0 + j) = (v ← e !! var; read args E v).
Proof.
  intros Hin Hj. destruct loop_final as (XS & _). apply list_elem_of_lookup in Hin as [i Hi].
  destruct (wm_header _ _ _ _ _ _ _ _ _ _ _ _ Hmade) as (b & rest & Hb & Hst).
  pose proof (entry_phis_lookup (current s0) (env s0) span (next_value s0) vars j var Hj) as Hphi.
  assert (map fst entries !! i = Some p) as H1.
  { change (map fst ?l) with (fst <$> l). by rewrite list_lookup_fmap, Hi. }
  assert (map (fun e : BlockId * BEnv => e.2 !! var) entries !! i = Some (e !! var)) as H2.
  { change (map ?f ?l) with (f <$> l). by rewrite list_lookup_fmap, Hi. }
  set (st := entry_phi (current s0) (env s0) span (next_value s0 + j) var) in *.
  set (lat := sort_edges (latch_incoming F ++ arm_ends sB)) in *.
  change (next_value s0 + j) with (stmt_id (seal_phi lat var st)).
  rewrite (phi_read func sF args Hwf Hfinal sS header b j (seal_phi lat var st)
    {| edges := map fst entries; values := map (fun e : BlockId * BEnv => e.2 !! var) entries |} p i (e !! var) E XS Hb).
  - by destruct (e !! var).
  - rewrite Hst. apply lookup_app_l_Some, lookup_zip_with_Some. by exists var, st.
  - done.
  - exact H1.
  - exact H2.
Qed.

Lemma header_sim p e st0 st E0 E w :
  (p, e) ∈ entries -> rel (env s0) st0 E0 -> rel e st E -> framed writes st0 st ->
  same_below (next_value s0) E0 E ->
  let E' := entry_defs (Some p) header E in
  rel (env s2) st E' /\ same_below (next_value s0) E E' /\ leads 0 (header, 0) E' w (pos s2) E' w.
Proof.
  intros Hin Hrel0 Hrel Hf Hsame E'. destruct loop_final as (XS & _ & _ & _ & X0).
  assert (same_below (next_value s0) E E') as Hbelow.
  { apply entry_below; [done|]. unfold ids, header. by rewrite (proj2 (lookup_ge_None _ _)). }
  split_and!; [|done|].
  - intros name Hname. destruct (decide (name ∈ vars)) as [Hv|Hv].
    + apply list_elem_of_lookup in Hv as [j Hj].
      rewrite (wm_env _ _ _ _ _ _ _ _ _ _ _ _ Hmade j name (ordered_nodup _) Hj). simpl. unfold E'.
      rewrite (header_phi p e E j name Hin Hj). specialize (Hrel name Hname).
      destruct (e !! name); simpl; congruence.
    + rewrite (wm_other _ _ _ _ _ _ _ _ _ _ _ _ Hmade name Hv). specialize (Hrel0 name Hname).
      assert (st !! name = st0 !! name) as ->. { apply Hf. intros Hw. apply Hv, ordered_elem. set_solver. }
      destruct (env s0 !! name) as [v|] eqn:Hn; [|done]. destruct (sc_env _ _ _ Hstatic name v Hn) as [_ Hval].
      by rewrite (read_same _ _ _ _ _ Hbelow Hval), (read_same _ _ _ _ _ Hsame Hval).
  - rewrite (wm_current _ _ _ _ _ _ _ _ _ _ _ _ Hmade).
    destruct (wm_phis _ _ _ _ _ _ _ _ _ _ _ _ Hmade) as (b & Hb & Hlen & Hph).
    fold header in Hb |- *. rewrite <- Hlen. destruct loop_final as (_ & _ & _ & X2 & _). by apply (phis_lead func sF args s2).
Qed.

(** ** Turns *)

(** What a loop does from the position [q]. *)
Definition loop_sim (n : nat) (q : BlockId * nat) (E : Defs) (w : World)
    (r : result outcome (Completion * Store * World)) : Prop :=
  match r with
  | Ok (Normal None, st, w') => exists E' k, leads k q E w (pos s') E' w' /\
      same_below (next_value s0) E E' /\ rel (env s') st E'
  | Ok _ => False
  | Err o => fails n q E w o
  end.

Lemma loop_sim_from n m k q E w q1 E1 w1 r :
  leads k q E w q1 E1 w1 -> same_below (next_value s0) E E1 -> n <= k + m ->
  loop_sim m q1 E1 w1 r -> loop_sim n q E w r.
Proof.
  intros Hl Hs Hn. destruct r as [[[[[x|]| |] st] w']|o]; simpl; try done.
  - intros (E' & k' & Hl' & Hs' & Hr). exists E', (k + k').
    split_and!; [by eapply leads_trans|by eapply same_below_trans|done].
  - intros Hf. by eapply leads_fails.
Qed.

(** To the exit. *)
Lemma loop_exit n u e k E w st :
  (u, e) ∈ exit_incoming F ++ [(current sC, env sC)] ->
  leads 1 (u, k) E w (length (B sS), 0) (entry_defs (Some u) (length (B sS)) E) w -> rel e st E ->
  loop_sim n (u, k) E w (Ok (Normal None, st, w)).
Proof.
  intros Hin Hl Hr.
  destruct (mt_enter _ _ _ _ _ _ _ _ _ _ (wm_met _ _ _ _ _ _ _ _ _ _ _ _ Hmade) u e st E w Hext Hin Hr) as (R3 & S3 & L3).
  eexists _, _. split; [eapply leads_trans; [exact Hl|exact L3]|]. split; [|done].
  pose proof (wm_next _ _ _ _ _ _ _ _ _ _ _ _ Hmade). intros x Hx. apply S3. lia.
Qed.

Variable evc : Store -> World -> result outcome (Val * Store * World).
Variable evb : nat -> Store -> World -> result outcome (Completion * Store * World).
Hypothesis Hcond : frag c id evc.
Hypothesis Hbody : stmt_frag body evb.
Hypothesis Hcond_frame : forall st w x st' w', evc st w = Ok (x, st', w') -> framed writes st st'.
Hypothesis Hbody_frame : frames writes evb.

(** The entry, or a latch. *)
Definition comes (u : BlockId) (e : BEnv) (k : nat) : Prop := (u, e) ∈ entries /\ ends_with u k (Jump header).

(** One turn from where the condition held. *)
Lemma turn n E w st rest :
  rel (env sC) st E ->
  (forall u e k E' w' st', comes u e k -> rel e st' E' -> framed writes st st' -> same_below (next_value s0) E E' ->
     loop_sim n (u, k) E' w' (rest st' w')) ->
  loop_sim n (length (B sC), 0) (entry_defs (Some (current sC)) (length (B sC)) E) w
    (let? (r, st, w) := evb n st w in match r with Broke => Ok (Normal None, st, w) | _ => rest st w end).
Proof.
  intros Hrel Hrest. destruct loop_final as (XS & XB & XC & X2 & X0).
  pose proof (wm_next _ _ _ _ _ _ _ _ _ _ _ _ Hmade) as Hnext.
  destruct (wm_entry _ _ _ _ _ _ _ _ _ _ _ _ Hmade) as (par & He).
  destruct (wm_body _ _ _ _ _ _ _ _ _ _ _ _ Hmade) as (a & Hrun).
  destruct (wm_frame _ _ _ _ _ _ _ _ _ _ _ _ Hmade) as (Hbreaks & Hlatches & Hfst).
  destruct (wm_inv _ _ _ _ _ _ _ _ _ _ _ _ Hmade) as (parB & Hinv).
  destruct (enter_rel sF args G L (current sC) sC sC st E (wm_static _ _ _ _ _ _ _ _ _ _ _ _ Hmade) (Nat.le_refl _) XC Hrel)
    as [HrA HsA]. set (E1 := entry_defs (Some (current sC)) (length (B sC)) E) in *.
  pose proof (sf_sound _ _ _ _ _ _ _ _ Hbody par _ a sB n st E1 w He Hrun XB HrA) as Hsim.
  assert (pos (entered (env sC) (looped header sC)) = (length (B sC), 0)) as Hpos by exact (pos_entered (env sC) (looped header sC)).
  assert (next_value (entered (env sC) (looped header sC)) = next_value sC) as HnE by done.
  fold header in Hsim, Hrun. rewrite <- Hpos.
  destruct (evb n st w) as [[[[x| |] st1] w1]|o] eqn:Hev; cbn [try_]; [| | |exact Hsim];
    pose proof (Hbody_frame _ _ _ _ _ _ Hev) as Hfr.
  - destruct Hsim as (Ho & E2 & k2 & L2 & S2 & R2 & _). eapply loop_sim_from; [exact L2| | |apply (Hrest _ (env sB))].
    + intros y Hy. apply S2. rewrite HnE. lia.
    + lia.
    + assert ((current sB, env sB) ∈ arm_ends sB) as Hend by (rewrite (arm_ends_open sB Ho); left). split.
      * right. rewrite sort_edges_perm. apply elem_of_app. by right.
      * apply (wm_latch _ _ _ _ _ _ _ _ _ _ _ _ Hmade _ (env sB)); [apply elem_of_app; by right|done].
    + exact R2.
    + exact Hfr.
    + intros y Hy. rewrite S2, HsA by (rewrite ?HnE; lia). done.
  - destruct Hsim as (u & e & E2 & k2 & Hu & L2 & S2 & R2). rewrite Hbreaks in Hu.
    eapply (loop_sim_from _ n); [exact L2| |lia|].
    { intros y Hy. apply S2. rewrite HnE. lia. }
    assert (u ∈ break_blocks F) as Hub by (rewrite <- Hfst; by apply (list_elem_of_fmap_2 fst) in Hu).
    destruct (breaks_closed np _ _ u e Hinv ltac:(by rewrite Hbreaks)) as (b & Hb & Hc).
    pose proof (mt_jump _ _ _ _ _ _ _ _ _ _ (wm_met _ _ _ _ _ _ _ _ _ _ _ _ Hmade) u Hext Hub) as Hj.
    destruct (wm_extends _ _ _ _ _ _ _ _ _ _ _ _ Hmade) as (_ & _ & _ & XBS).
    rewrite (closed_length _ _ _ _ XBS Hb Hc) in Hj.
    apply (loop_exit n u e); [apply elem_of_app; by left|exact (leads_jump func sF args Hwf Hfinal _ _ _ E2 w1 Hj)|done].
  - destruct Hsim as (u & e & E2 & k2 & Hu & L2 & S2 & R2). rewrite Hlatches in Hu.
    eapply loop_sim_from; [exact L2| |idtac|apply (Hrest u e)].
    + intros y Hy. apply S2. rewrite HnE. lia.
    + lia.
    + split; [right; rewrite sort_edges_perm; apply elem_of_app; by left|].
      apply (wm_latch _ _ _ _ _ _ _ _ _ _ _ _ Hmade _ e); [apply elem_of_app; by left|done].
    + exact R2.
    + exact Hfr.
    + intros y Hy. rewrite S2, HsA by (rewrite ?HnE; lia). done.
Qed.

Lemma loop_sound st0 E0 n u e k E w st :
  rel (env s0) st0 E0 -> comes u e k -> rel e st E -> framed writes st0 st -> same_below (next_value s0) E0 E ->
  loop_sim n (u, k) E w (while_loop evc evb n st w).
Proof.
  intros Hrel0. revert u e k E w st. induction n as [|n IH]; intros u e k E w st [Hin Hend] Hrel Hf Hsame; cbn [while_loop].
  - intros m Hm. assert (m = 0) as -> by lia. by rewrite (resume_end _ _ _ _ _ _ _ _ _ Hend).
  - destruct (header_sim u e st0 st E0 E w Hin Hrel0 Hrel Hf Hsame) as (R1 & S1 & L1).
    set (E1 := entry_defs (Some u) header E) in *.
    pose proof (leads_trans _ _ _ _ _ _ _ _ _ _ _ _ _ _ (leads_jump func sF args Hwf Hfinal _ _ _ E w Hend) L1) as L01.
    destruct (wm_head _ _ _ _ _ _ _ _ _ _ _ _ Hmade) as (par2 & H2).
    destruct loop_final as (XS & XB & XC & X2 & X0). pose proof (wm_next _ _ _ _ _ _ _ _ _ _ _ _ Hmade) as Hnext.
    pose proof (fr_sound _ _ _ _ _ _ _ _ _ Hcond par2 s2 cv sC n st E1 w H2 (wm_cond _ _ _ _ _ _ _ _ _ _ _ _ Hmade) XC R1) as Hsim.
    eapply (loop_sim_from (S n) n); [exact L01|exact S1|lia|].
    destruct (evc st w) as [[[x st1] w1]|o] eqn:Hev; cbn [try_]; [|exact Hsim].
    destruct Hsim as (E2 & k2 & L2 & S2 & R2 & Hx).
    assert (same_below (next_value s0) E1 E2) as S2' by (intros y Hy; apply S2; lia).
    pose proof (mt_branch _ _ _ _ _ _ _ _ _ _ (wm_met _ _ _ _ _ _ _ _ _ _ _ _ Hmade) Hext) as Hbr.
    rewrite (wm_branch _ _ _ _ _ _ _ _ _ _ _ _ Hmade) in Hbr.
    eapply (loop_sim_from n n); [exact L2|exact S2'|lia|].
    assert (framed writes st0 st1) as Hf1 by (intros y Hy; rewrite (Hcond_frame _ _ _ _ _ Hev y Hy); by apply Hf).
    destruct (truth x) as [[]|] eqn:Hb; [| |by eapply (fails_branch func sF args)].
    + eapply (loop_sim_from n n); [apply (leads_branch func sF args Hwf Hfinal _ _ _ _ _ E2 w1 _ _ Hbr Hx Hb)| |lia|].
      * pose proof (enter_rel sF args G L (current sC) sC sC st1 E2 (wm_static _ _ _ _ _ _ _ _ _ _ _ _ Hmade) (Nat.le_refl _) XC R2)
          as [_ HsA]. intros y Hy. apply HsA. lia.
      * apply turn; [done|]. intros u' e' k' E' w' st' Hc' Hr' Hf' Hs'. apply (IH u' e' k' E' w' st' Hc' Hr').
        -- intros y Hy. rewrite Hf' by done. by apply Hf1.
        -- intros y Hy. rewrite Hs', S2', S1 by done. by apply Hsame.
    + apply (loop_exit n (current sC) (env sC)); [apply elem_of_app; right; left| |done].
      apply (leads_branch func sF args Hwf Hfinal _ _ _ _ _ E2 w1 _ _ Hbr Hx Hb).
Qed.
End Loop.

Abbreviation sounds := (sounds func sF args np G L).

Lemma while_sounds c body evc evb writes span :
  frag c id evc -> stmt_frag body evb -> writes ⊆ G ∪ L ->
  (forall st w x st' w', evc st w = Ok (x, st', w') -> framed writes st st') -> frames writes evb ->
  sounds (build_bind (convert_while c body writes span) (fun _ => build_ret None)) (while_loop evc evb).
Proof.
  intros Fc Fb Hw Hcf Hbf par s a s' n st E w Hr Hrun Hext Hrel.
  apply bind_Ok in Hrun as ([] & s1 & Hrun & [-> ->]%ret_Ok).
  destruct (while_takes_apart _ _ _ _ _ _ _ _ _ Fc Fb Hr Hw Hrun) as (s2 & sC & sB & sS & cv & F & Hmade).
  pose proof (loop_sound _ _ _ _ _ _ _ _ _ _ _ _ Hmade (rd_static _ _ _ _ _ Hr) Hext evc evb Fc Fb Hcf Hbf st E n (current s) (env s)
    (length (stmts_at (B s) (current s))) E w st Hrel) as Hl.
  specialize (Hl ltac:(split; [left|by apply (wm_pre _ _ _ _ _ _ _ _ _ _ _ _ Hmade)]) Hrel (framed_refl _ _) ltac:(done)).
  destruct (while_loop evc evb n st w) as [[[[[x|]| |] st'] w']|o]; try done.
  destruct Hl as (E' & k & H1 & H2 & H3). split.
  - destruct (mt_open _ _ _ _ _ _ _ _ _ _ (wm_met _ _ _ _ _ _ _ _ _ _ _ _ Hmade)) as (b & Hb & Ho & _). by exists b.
  - by exists E', k.
Qed.

(** ** All statements *)

Definition stmt_all (st : CoreStmt) : Prop :=
  structured_stmt st = true -> stmt_write_names st ⊆ G ∪ L -> stmt_frag (convert_stmt st) (exec G L st).

Lemma stmt_frags l :
  Forall stmt_all l -> forallb structured_stmt l = true -> union_map stmt_write_names l ⊆ G ∪ L ->
  Forall (fun st => stmt_frag (convert_stmt st) (exec G L st)) l.
Proof.
  rewrite !Forall_forall. intros Hl Hs Hw st Hin. apply Hl; [done| |].
  - rewrite forallb_forall in Hs. by apply Hs, list_elem_of_In.
  - etrans; [by apply union_map_sub|done].
Qed.

Lemma block_of_frags l span :
  structured_block (Block l span) = true -> block_write_names (Block l span) ⊆ G ∪ L ->
  Forall (fun st => stmt_frag (convert_stmt st) (exec G L st)) l ->
  stmt_frag (convert_block (Block l span)) (exec_block G L (Block l span)).
Proof.
  intros Hs Hw Hl. constructor.
  - exact (block_all np (convert_stmt_ok np) (Block l span)).
  - exact (block_tame G L (convert_stmt_tame G L) (Block l span) Hs Hw).
  - intros par s a s' n st E w Hr Hrun Hext Hrel. by eapply (stmts_sound _ _ _ np G L).
Qed.

Definition block_frag (IH : forall st, stmt_all st) (b : CoreBlock) :
    structured_block b = true -> block_write_names b ⊆ G ∪ L -> stmt_frag (convert_block b) (exec_block G L b) :=
  match b with
  | Block l span => fun Hs Hw => block_of_frags l span Hs Hw (stmt_frags l (Forall_all _ IH l) Hs Hw)
  end.

Lemma no_op_sounds : sounds (build_ret None) (fun _ st w => Ok (Normal None, st, w)).
Proof. intros par s a s' n st E w Hr [-> ->]%ret_Ok Hext Hrel. apply stmt_sim_normal; [apply (rd_open _ _ _ _ _ Hr)|done|done]. Qed.

Lemma convert_stmt_frag : forall st, stmt_all st.
Proof.
  fix IH 1. intros st Hs Hw. constructor; [exact (convert_stmt_ok np st)|exact (convert_stmt_tame G L st Hs Hw)|].
  pose proof (convert_expr_frag func sF args Hwf Hfinal np G L) as He.
  destruct st; try done; cbn [structured_stmt stmt_write_names] in Hs, Hw.
  - exact (sf_sound _ _ _ _ _ _ _ _ (block_frag IH _ Hs Hw)).
  - unfold insert_assign_targets in Hw. cbn [convert_stmt exec]. destruct (decode_tuple_comprehension_binding var); [done|].
    apply assign_sounds; [done..|]. apply He; [done|set_solver].
  - apply add_assign_sounds; [done..|]. apply He; [done|set_solver].
  - apply andb_true_iff in Hs as [H1 H2]. apply while_sounds; [apply He; [done|set_solver]|apply (block_frag IH); [done|set_solver]|done| |].
    + intros s w x s' w' H. eapply framed_sub; [|by eapply eval_frame]. set_solver.
    + intros n s w x s' w' H. eapply framed_sub; [|exact (block_frames G L (exec_frame G L) _ _ _ _ _ _ _ H)]. set_solver.
  - apply andb_true_iff in Hs as [[H1 H2]%andb_true_iff H3]. destruct else_branch as [b|].
    + apply (if_sounds func sF args Hwf Hfinal np G L _ _ (Some (convert_block b)) (eval G L condition)
        (exec_block G L then_branch) (exec_block G L b)); [apply He; [done|set_solver]|apply (block_frag IH); [done|set_solver]|].
      intros m [= <-]. apply (block_frag IH); [done|]. simpl in Hw. set_solver.
    + apply (if_sounds func sF args Hwf Hfinal np G L _ _ None (eval G L condition)
        (exec_block G L then_branch) (fun _ st w => Ok (Normal None, st, w)));
        [apply He; [done|set_solver]|apply (block_frag IH); [done|set_solver]|done].
  - apply break_sounds.
  - apply continue_sounds.
  - destruct value as [e|]; [|by apply return_none_sounds]. apply return_value_sounds; [done..|]. by apply He.
  - apply expr_sounds. by apply He.
  - apply no_op_sounds.
  - apply no_op_sounds.
  - apply no_op_sounds.
Qed.
End While.

(** ** Functions *)

Section Function.
Context {C : CoreTypes} {U : UnicodeTables} {SM : Semantics}.

Abbreviation B := bl_blocks.
Abbreviation convert_function := SsaBuild.convert_function.
Abbreviation Store := (gmap string Val).
Abbreviation BEnv := (gmap string SsaValue).
Abbreviation outcome := (Outcome Val World Exn).

Lemma enumerate_zip {A} (l : list A) : enumerate l = zip (seq 0 (length l)) l.
Proof. done. Qed.

(** The parameters, in the environment and in the store. *)
Lemma params_bound (ps : list SsaParam) (l : list Val) args i (e : BEnv) (st : Store) E :
  length l = length ps -> (forall k v, l !! k = Some v -> args !! (i + k) = Some v) ->
  (forall name, match e !! name with Some u => read args E u = st !! name | None => st !! name = None end) ->
  forall name, match foldl bind_param e (zip (seq i (length ps)) ps) !! name with
    | Some u => read args E u = foldl bind_arg st (zip ps l) !! name
    | None => foldl bind_arg st (zip ps l) !! name = None
    end.
Proof.
  revert l i e st. induction ps as [|p ps IH]; intros l i e st Hlen Hargs He; [done|].
  destruct l as [|v l]; [done|]. simpl. apply IH; [by injection Hlen| |].
  - intros k x Hk. specialize (Hargs (S k) x Hk). by rewrite Nat.add_succ_r in Hargs.
  - intros name. unfold bind_param, bind_arg. simpl. destruct (decide (name = param_name p)) as [->|Hne].
    + rewrite !lookup_insert_eq. simpl. specialize (Hargs 0 v eq_refl). by rewrite Nat.add_0_r in Hargs.
    + rewrite !lookup_insert_ne by done. apply He.
Qed.

Lemma params_dom ps i (e : BEnv) :
  dom (foldl bind_param e (zip (seq i (length ps)) ps)) = dom e ∪ list_to_set (map param_name ps).
Proof.
  revert i e. induction ps as [|p ps IH]; intros i e; simpl; [set_solver|].
  rewrite IH. unfold bind_param. simpl. rewrite dom_insert_L. set_solver.
Qed.

Lemma start_globals (f : CoreFunction) : globals (start_builder f) = global_names f.
Proof.
  unfold global_names. simpl. unfold start_env. rewrite enumerate_zip, params_dom, dom_empty_L.
  by rewrite (left_id_L ∅ (∪)).
Qed.

Lemma start_ready (f : CoreFunction) :
  ready (length (all_params f)) (global_names f) (local_names f) [None] (entry_state f).
Proof.
  constructor; [apply entry_inv|by exists empty_block|]. constructor; [apply start_globals| |constructor].
  intros name v Hv. simpl in Hv. destruct (start_env_ok _ _ _ Hv) as (k & -> & _). split; [|done].
  unfold local_names. apply elem_of_union. left. apply elem_of_dom_2 in Hv.
  unfold start_env in Hv. rewrite enumerate_zip, params_dom in Hv. set_solver.
Qed.

Lemma body_names (f : CoreFunction) : block_write_names (func_body f) ⊆ global_names f ∪ local_names f.
Proof.
  intros x Hx. unfold local_names. destruct (decide (x ∈ global_names f)); set_solver.
Qed.

(** What the conversion of a function goes through. *)
Lemma function_steps (f : CoreFunction) entry sF :
  convert_function f (start_builder f) = Ok (entry, sF) ->
  exists last s1, convert_block (func_body f) (entry_state f) = Ok (last, s1) /\ entry = 0 /\
    (exists b, B s1 !! current s1 = Some b /\
      (if bb_closed b then sF = s1
       else set_terminator (current s1) (Return last) s1 = Ok (tt, sF))).
Proof.
  intros Hrun. unfold convert_function in Hrun. apply bind_Ok in Hrun as (x & s0 & [= <- <-] & Hrun).
  apply bind_Ok in Hrun as (x1 & x2 & ->%modify_Ok & Hrun). apply bind_Ok in Hrun as (last & s1 & Hb & Hrun).
  apply bind_Ok in Hrun as (x3 & x4 & [-> ->]%get_Ok & Hrun). apply bind_Ok in Hrun as (cl & x5 & Hc & Hrun).
  apply bind_Ok in Hrun as (x6 & x7 & Ht & [-> ->]%ret_Ok). unfold is_closed in Hc.
  destruct (B s1 !! current s1) as [b|] eqn:Hbl; [|done]. injection Hc as <- <-.
  exists last, s1. split_and!; [exact Hb|done|]. exists b. split; [done|]. destruct (bb_closed b).
  - by apply ret_Ok in Ht as [_ ->].
  - by destruct x6.
Qed.

(** How two outcomes agree: a run that never ends does not end on the other side. *)
Definition gives (ev : nat -> outcome) (fuel : nat) (o : outcome) : Prop :=
  match o with
  | UndefinedRead _ => True
  | OutOfFuel => forall m, m <= fuel -> ev m = OutOfFuel
  | _ => exists c, forall k, ev (c + k) = o
  end.

Section Built.
Variable f : CoreFunction.
Variable ssa : SsaFunction.
Variable sF : Builder.
Variable args : list Val.
Hypothesis Hconvert : convert_function f (start_builder f) = Ok (0, sF).
Hypothesis Hfinish : finish sF (func_name f) (all_params f) 0 = Ok ssa.
Hypothesis Hstructured : structured_block (func_body f) = true.
Hypothesis Hargs : length args = length (all_params f).

Let np := length (all_params f).
Let G := global_names f.
Let L := local_names f.
Let st0 := foldl bind_arg ∅ (zip (all_params f) args).

Lemma built_facts :
  well_formed ssa /\ (forall i, block ssa i = finished_block sF i <$> B sF !! i) /\ fn_entry ssa = 0 /\ 0 < length (B sF).
Proof.
  pose proof (convert_function_ok f) as Hc. unfold wp in Hc. rewrite Hconvert in Hc.
  destruct Hc as (_ & par & Hb & Hpos). split_and!; [|by apply (block_finished sF _ _ _ Hfinish)| |done].
  - by eapply (finished_well_formed (length (all_params f)) par sF).
  - by destruct (finish_blocks _ _ _ _ _ 0 Hfinish) as (_ & He & _).
Qed.

Lemma start_rel E : rel args G (env (entry_state f)) st0 E.
Proof.
  intros name _. simpl. unfold start_env, st0. rewrite enumerate_zip.
  apply params_bound; [done|by intros k v Hk|]. intros n. by rewrite !lookup_empty.
Qed.

Lemma body_sim n w :
  exists last s1, convert_block (func_body f) (entry_state f) = Ok (last, s1) /\ extends s1 sF /\
    stmt_sim ssa sF args G n (entry_state f) (entry_defs sF args None 0 ∅) w
      (exec_block G L (func_body f) n st0 w) s1 last /\
    breaks s1 = [] /\ latches s1 = [] /\
    (is_open s1 -> set_terminator (current s1) (Return last) s1 = Ok (tt, sF)).
Proof.
  destruct built_facts as (Hwf & Hfinal & _ & _).
  destruct (function_steps f 0 sF Hconvert) as (last & s1 & Hbody & _ & b & Hb & Hend).
  pose proof (start_ready f) as Hr.
  pose proof (block_frag ssa sF args np G L (convert_stmt_frag ssa sF args Hwf Hfinal np G L) (func_body f)
    Hstructured (body_names f)) as Hf.
  destruct (frag_went _ _ _ _ _ _ _ _ _ _ (sf_conv _ _ _ _ _ _ _ _ Hf) (sf_tame _ _ _ _ _ _ _ _ Hf) Hr Hbody) as (par1 & W & _).
  assert (extends s1 sF) as Hx.
  { destruct (bb_closed b) eqn:Hc; [subst; apply extends_refl|]. apply set_terminator_Ok in Hend as (b' & Hb' & ->).
    rewrite Hb in Hb'. injection Hb' as <-. apply extends_terminate; [done|].
    by apply (g_open _ _ _ _ _ (i_graph _ _ _ _ (i_base _ _ _ _ (wn_inv _ _ _ _ _ _ _ W))) (current s1)). }
  exists last, s1. split_and!; [done|done|by eapply (sf_sound _ _ _ _ _ _ _ _ Hf); [..|apply start_rel]| | |].
  - pose proof (gr_loops _ _ _ _ (wn_grows _ _ _ _ _ _ _ W)) as Hl. unfold breaks. simpl in Hl. by destruct (loop_stack s1).
  - pose proof (gr_loops _ _ _ _ (wn_grows _ _ _ _ _ _ _ W)) as Hl. unfold latches. simpl in Hl. by destruct (loop_stack s1).
  - intros (b' & Hb' & Ho). rewrite Hb in Hb'. injection Hb' as <-. by rewrite Ho in Hend.
Qed.

Lemma run_gives n w o :
  fails ssa sF args n (0, 0) (entry_defs sF args None 0 ∅) w o ->
  gives (fun m => evaluate m ssa args w) (S n) o.
Proof.
  destruct built_facts as (_ & Hfinal & He & Hpos). unfold evaluate. rewrite He.
  assert (forall k, run (S k) ssa args None 0 ∅ w = resume ssa sF args k (0, 0) (entry_defs sF args None 0 ∅) w) as Hrun
    by (intros k; by apply run_resume).
  assert ((exists c, forall k, resume ssa sF args (c + k) (0, 0) (entry_defs sF args None 0 ∅) w = o) ->
    exists c, forall k, run (c + k) ssa args None 0 ∅ w = o) as Hex.
  { intros (c & Hc). exists (S c). intros k. by rewrite Nat.add_succ_l, Hrun. }
  destruct o; simpl; try done. intros H m Hm. destruct m as [|m]; [done|]. rewrite Hrun. apply H. lia.
Qed.

Lemma built_gives n w : gives (fun m => evaluate m ssa args w) (S n) (exec_function n f args w).
Proof.
  destruct (body_sim n w) as (last & s1 & Hbody & Hx & Hsim & Hbr & Hla & Hend).
  unfold exec_function. fold G L st0.
  destruct (exec_block G L (func_body f) n st0 w) as [[[[x| |] st] w']|o].
  - destruct Hsim as (Ho & E & c & Hl & _ & _ & Hv). specialize (Hend Ho).
    apply run_gives. eapply (leads_fails ssa sF args _ n n); [exact Hl| |lia].
    destruct Ho as (b & Hb & _). apply set_terminator_Ok in Hend as (b' & Hb' & HsF). rewrite Hb in Hb'. injection Hb' as <-.
    pose proof (terminate_ends sF s1 _ (Return last) b Hb ltac:(rewrite HsF; apply extends_refl)) as He.
    apply (fails_at_once _ _ _ n); [done|]. intros k. unfold pos, stmts_at. rewrite Hb, (resume_end _ _ _ _ _ _ _ _ _ He).
    destruct last as [v|], x as [y|]; simpl in *; try done. by rewrite Hv.
  - destruct Hsim as (u & e & E & c & Hu & _). rewrite Hbr in Hu. by apply elem_of_nil in Hu.
  - destruct Hsim as (u & e & E & c & Hu & _). rewrite Hla in Hu. by apply elem_of_nil in Hu.
  - by apply run_gives.
Qed.
End Built.

(** What is known of a function that was built for structured code. *)
Lemma built_outcome f ssa args w fuel :
  build_function f = Ok ssa -> structured_block (func_body f) = true -> length args = length (all_params f) ->
  gives (fun m => evaluate m ssa args w) (S fuel) (exec_function fuel f args w) /\
  well_formed ssa /\ fn_params ssa = all_params f.
Proof.
  unfold build_function. destruct (convert_function f (start_builder f)) as [[entry sF]|e] eqn:Hc; [|done].
  simpl. intros Hf Hs Ha. destruct (function_steps f entry sF Hc) as (last & s1 & _ & -> & _).
  split_and!; [exact (built_gives f ssa sF args Hc Hf Hs Ha fuel w)|by apply (built_facts f ssa sF Hc Hf)|].
  by destruct (finish_blocks _ _ _ _ _ 0 Hf) as (Hp & _).
Qed.


(** ** The whole lowering *)

Lemma gives_refines ev ev' fuel o :
  (forall m, refines (ev m) (ev' m)) -> gives ev fuel o -> gives ev' fuel o.
Proof.
  intros Hr. assert (forall m, ev m = o -> match o with UndefinedRead _ => True | _ => ev' m = o end) as Heq.
  { intros m <-. apply Hr. }
  destruct o; simpl in *; try done; try (intros (c & Hc); exists c; intros k; apply Heq, Hc).
  intros H m Hm. by apply Heq, H.
Qed.

Lemma lowered_gives {D : Dispatch} facts f mode ssa plan built args w fuel other :
  let inputs := {| in_effects := facts_effects facts; in_resolver := facts_resolver facts;
                   in_locally_bound := locally_bound f |} in
  try_lower facts f = Ok (mode, ssa, plan) -> build_function f = Ok built ->
  structured_block (func_body f) = true -> length args = length (all_params f) ->
  promises inputs (all_params f) args -> optimize_exact built inputs = true ->
  plannable_check ssa = true -> no_missing ssa = true -> short_circuits ->
  gives (fun m => evaluate_plan m ssa plan other args w) (S fuel) (exec_function fuel f args w).
Proof.
  intros inputs Hlower Hbuild Hs Ha Hp Hexact Hpn%plannable_checked Hphis Hshort. unfold try_lower in Hlower.
  apply try_Ok in Hlower as (m & _ & Hlower). cbv zeta in Hlower. destruct (_ && _); [done|]. rewrite Hbuild in Hlower.
  unfold optimize_scoped_resolved in Hlower. fold inputs in Hlower.
  destruct (optimize_scoped_inner built inputs) as [[changed ssa']|] eqn:Hopt; [|done].
  destruct (scan_lowerable _ _ ssa') as [[]|e] eqn:Hscan; [|done].
  destruct (plan_function ssa' _ _) as [plan'|e] eqn:Hplan; [|by destruct e]. injection Hlower as <- <- <-.
  destruct (built_outcome f built args w fuel Hbuild Hs Ha) as (Hgives & Hwf & Hpar). rewrite <- Hpar in Hp.
  destruct (rounds_keeps MAX_ROUNDS inputs built args changed ssa' Hwf Hp Hexact Hopt) as (Hwf' & Hpar' & Hev).
  destruct (plan_correct ssa' args (func_span f) (numeric_convert_gate facts f)) as (plan & Hplan2 & Heq);
    [done|done|by apply scan_entry in Hscan|done|by rewrite Hpar', Hpar|done|].
  rewrite Hplan in Hplan2. injection Hplan2 as <-. eapply gives_refines; [|exact Hgives].
  intros k. cbv beta. rewrite Heq. apply Hev.
Qed.

End Function.
