(* ===== verification/BuildExamples.v ===== *)
(** * Plans and built functions

    Plans of concrete functions: a loop that swaps two variables, with its plan and
    its output, and a short-circuit operator whose right operand runs although the
    left one decides.  Then functions of Core IR: a loop with a [break] and its SSA
    form, and functions for which the lowering accepts a plan that does something
    else than the source. *)

From S2P Require Export PlanRun SsaExamples BuildSimWhile EffectProp.

#[local] Existing Instance unit_types.
#[local] Existing Instance unit_dispatch.
#[local] Existing Instance printing.

Definition plain_gate : NumericConvertGate := {| gate_int64 := true; gate_float64 := true |}.
Definition no_modules (name : string) : bool := false.

(** [other] is not asked in any plan. *)
Definition nothing_else (locals : gmap string Val) (e : CoreExpr) (w : World)
    : result (Outcome Val World Exn) (Val * World) := Err NeverReturns.

Definition param (name : string) : SsaParam := {| param_name := name; param_ty := None |}.

(** [a, b = 1, 2; while a < n; println(a); a, b = b, a + b; end; return a]: the phis
    of [a] and [b] read each other. *)
Definition swapping : SsaFunction :=
  {| fn_name := "f"; fn_params := [param "n"]; fn_entry := 0;
     fn_blocks :=
       [ mk_block 0 [] (Jump 1) [] [1];
         mk_block 1 [stmt 0 (Phi {| edges := [0; 2];
                                    values := [Some (Const (Literal_Int 1)); Some (Def 1)] |});
                     stmt 1 (Phi {| edges := [0; 2];
                                    values := [Some (Const (Literal_Int 2)); Some (Def 4)] |});
                     stmt 2 (Binary Lt (Def 0) (Argument 0))]
           (Branch (Def 2) 2 3) [0; 2] [2; 3];
         mk_block 2 [stmt 3 (call "println" [Def 0]);
                     stmt 4 (Binary Add (Def 0) (Def 1))] (Jump 1) [1] [1];
         mk_block 3 [] (Return (Some (Def 0))) [1] [] ] |}.

Lemma swapping_well_formed : well_formed swapping.
Proof. apply verified_well_formed. vm_compute. reflexivity. Qed.

Lemma printing_short : short_circuits.
Proof.
  intros op a b w Hd. unfold decides_alone in Hd.
  destruct op; try done; cbn in Hd |- *; destruct a as [| | | | | | |[]| | | | | | | | | | | | | | | | | | |]; done.
Qed.

Definition var (name : string) : CoreExpr := Expr_Var name tt.

(** The sum is left in its slot, because the copies interfere and go through
    temporaries; the comparison is part of the branch. *)
Example swapping_plan :
  plan_function swapping tt plain_gate = Ok {| plan_blocks :=
    [ {| roots := [];
         plan_terminator := JumpPlan 1
           [slot_copy tt 0 (Expr_Literal (Literal_Int 1) tt); slot_copy tt 1 (Expr_Literal (Literal_Int 2) tt)] |};
      {| roots := [];
         plan_terminator := BranchPlan (Expr_BinaryOp Lt (var "#ssa0") (var "n") tt) 2 3 [] [] |};
      {| roots := [Discard (Expr_Call "println" [var "#ssa0"] [] [] [] tt) tt;
                   Assign "#ssa4" (Expr_BinaryOp Add (var "#ssa0") (var "#ssa1") tt) tt];
         plan_terminator := JumpPlan 1
           [{| copy_name := "#ssatmp0"; copy_expr := var "#ssa1"; copy_span := tt |};
            {| copy_name := "#ssatmp1"; copy_expr := var "#ssa4"; copy_span := tt |};
            slot_copy tt 0 (var "#ssatmp0"); slot_copy tt 1 (var "#ssatmp1")] |};
      {| roots := []; plan_terminator := ReturnPlan (Some (var "#ssa0")) |} ] |}.
Proof. vm_compute. reflexivity. Qed.

Definition five : list Val := [Literal_Int 5].

Lemma plan_function_correct_witness :
  well_formed swapping /\ scan_lowerable no_modules ∅ swapping = Ok tt /\
  plannable_check swapping = true /\ short_circuits /\
  exists plan, plan_function swapping tt plain_gate = Ok plan /\
    evaluate_plan 20 swapping plan nothing_else five [] = evaluate 20 swapping five [] /\
    evaluate 20 swapping five [] =
      Returned (Some (Literal_Int 5)) [Literal_Int 1; Literal_Int 2; Literal_Int 3].
Proof.
  split; [apply swapping_well_formed|]. split; [by vm_compute|]. split; [by vm_compute|].
  split; [apply printing_short|].
  destruct (plan_function_correct swapping five no_modules ∅ tt plain_gate swapping_well_formed
    ltac:(by vm_compute) ltac:(by vm_compute) ltac:(by vm_compute) eq_refl printing_short)
    as (plan & Hplan & Hev).
  exists plan. split; [exact Hplan|]. split; [apply Hev|by vm_compute].
Defined.

(** ** With the optimizer *)


(** ** A right operand that is not skipped *)

(** [c && (d ? println(1) : println(2))]: the ternary has become blocks, before the
    [&&], which merges their values. *)
Definition eager : SsaFunction :=
  {| fn_name := "f"; fn_params := [param "c"; param "d"]; fn_entry := 0;
     fn_blocks :=
       [ mk_block 0 [] (Branch (Argument 1) 1 2) [] [1; 2];
         mk_block 1 [stmt 0 (call "println" [Const (Literal_Int 1)])] (Jump 3) [0] [3];
         mk_block 2 [stmt 1 (call "println" [Const (Literal_Int 2)])] (Jump 3) [0] [3];
         mk_block 3 [stmt 2 (Phi {| edges := [1; 2]; values := [Some (Def 0); Some (Def 1)] |});
                     stmt 3 (Binary And (Argument 0) (Def 2))]
           (Return (Some (Def 3))) [1; 2] [] ] |}.


(** * Functions that are built

    A loop with a [break] and its SSA form, and functions for which the lowering
    accepts a plan that does something else than the source. *)

#[local] Existing Instance unit_types.
#[local] Existing Instance unit_dispatch.
#[local] Existing Instance printing.

(** No example has a character above 127. *)
#[local] Instance ascii_only : UnicodeTables :=
  {| unicode_alphabetic := fun _ => false; unicode_numeric := fun _ => false |}.

Definition int (z : Z) : CoreExpr := Expr_Literal (Literal_Int z) tt.
Definition binary (op : BinaryOp) (a b : CoreExpr) : CoreExpr := Expr_BinaryOp op a b tt.
Definition set_to (x : string) (e : CoreExpr) : CoreStmt := Stmt_Assign x e tt.
Definition return_ (e : CoreExpr) : CoreStmt := Stmt_Return (Some e) tt.
Definition prints (e : CoreExpr) : CoreExpr := Expr_Call "println" [e] [] [] [] tt.

Definition function_of (params : list string) (body : list CoreStmt) : CoreFunction :=
  Function_ "f" (map (fun n => {| typed_name := n; type_annotation := None; typed_is_varargs := false;
                                  vararg_count := None; typed_span := tt |}) params)
    [] [] None (Block body tt) false false None tt.

(** ** A loop

    [s = 0; k = 0; while true; if n < k; break; end; s += k; k += 1; end; return s]. *)
Definition summing : CoreFunction :=
  function_of ["n"]
    [set_to "s" (int 0); set_to "k" (int 0);
     Stmt_While (Expr_Literal (Literal_Bool true) tt)
       (Block [Stmt_If (binary Lt (var "n") (var "k")) (Block [Stmt_Break tt] tt) None tt;
               Stmt_AddAssign "s" (var "k") tt; Stmt_AddAssign "k" (int 1) tt] tt) tt;
     return_ (var "s")].

(** The phis of the header have the latch as their second edge; the exit merges the
    break and the end of the loop, which agree. *)
Example summing_built :
  exists func, build_function summing = Ok func /\ verify func = Some (Ok tt) /\
    map blk_id (fn_blocks func) = [0; 1; 2; 3; 4; 5] /\
    (fun b => map stmt_op (stmts b)) <$> block func 1 =
      Some [Phi {| edges := [0; 4]; values := [Some (Const (Literal_Int 0)); Some (Def 4)] |};
            Phi {| edges := [0; 4]; values := [Some (Const (Literal_Int 0)); Some (Def 3)] |}] /\
    (fun b => (preds b, terminator b)) <$> block func 5 = Some ([1; 3], Return (Some (Def 1))) /\
    evaluate 30 func [Literal_Int 4] [] = Returned (Some (Literal_Int 10)) [].
Proof.
  destruct (build_function summing) as [func|e] eqn:Hb; vm_compute in Hb; [|done].
  injection Hb as <-. eexists. split; [done|]. split_and!; by vm_compute.
Qed.

(** A [break] outside of a loop is the program's error. *)
Example loose_break : build_function (function_of [] [Stmt_Break tt]) = Err (LoopControlOutsideLoop "break" tt).
Proof. by vm_compute. Qed.

(** ** The source and what is built *)

Definition four : list Val := [Literal_Int 4].

Lemma summing_ends fuel : 6 <= fuel -> exec_function fuel summing four [] = Returned (Some (Literal_Int 10)) [].
Proof. intros Hf. do 6 (destruct fuel as [|fuel]; [lia|]). by vm_compute. Qed.


(** ** The whole lowering *)

Definition plain_facts : CompilerFacts :=
  {| has_captured_vars := false; is_module := fun _ => false; has_function_table := fun _ => false;
     returns_number := false; runtime_specialized := false; facts_effects := no_effects.(in_effects);
     facts_resolver := None; type_param_name := fun _ => EmptyString |}.


(** ** Plans that are not the source *)

(** [z = c && println(1); return 0] *)
Definition guarded_print : CoreFunction :=
  function_of ["c"] [set_to "z" (binary And (var "c") (prints (int 1))); return_ (int 0)].

(** [y = 1; z = c && (y = 5); return y] *)
Definition guarded_write : CoreFunction :=
  function_of ["c"]
    [set_to "y" (int 1); set_to "z" (binary And (var "c") (Expr_AssignExpr "y" (int 5) tt)); return_ (var "y")].


(** [y = x; x = 1; return y] *)
Definition early_read : CoreFunction := function_of [] [set_to "y" (var "x"); set_to "x" (int 1); return_ (var "y")].


(** [return c ? 0.0 : -0.0] *)
Definition signed_zeros : CoreFunction :=
  function_of ["c"]
    [return_ (Expr_Ternary (var "c") (Expr_Literal (Literal_Float (f64_of_Z 0)) tt)
                (Expr_Literal (Literal_Float (S754_zero true)) tt) tt)].

(** Construction compares values with the derived [PartialEq] as well, for which the
    zeros are equal: the ternary is [0.0] on both sides before any optimization. *)
Theorem signed_zero_ternary_bug :
  exists ssa, build_function signed_zeros = Ok ssa /\
    evaluate 5 ssa [Literal_Bool false] [] = Returned (Some (Literal_Float (f64_of_Z 0))) [].
Proof.
  destruct (build_function signed_zeros) as [ssa|e] eqn:H; vm_compute in H; [|done].
  injection H as <-. eexists. split; [done|by vm_compute].
Qed.

(** ** Facts of branches *)

(** Two arms behind a branch, whose join has two ways in. *)
Lemma narrowing_spec_witness :
  let plan := {| plan_blocks := [
    {| roots := []; plan_terminator := BranchPlan (var "c") 1 2 [] [] |};
    {| roots := []; plan_terminator := JumpPlan 3 [] |};
    {| roots := []; plan_terminator := JumpPlan 3 [] |};
    {| roots := []; plan_terminator := ReturnPlan None |}] |} in
  exists info, compute_block_narrowing_info plan = Some info /\
    info = [None; Some (0, true); Some (0, false); None].
Proof.
  intros plan. destruct (narrowing_spec plan) as (info & Hinfo & _ & _).
  - intros x e Hx. repeat (apply elem_of_cons in Hx as [->|Hx]; [|]); try by apply elem_of_nil in Hx.
    all: intros He; simpl in *; repeat (apply elem_of_cons in He as [->|He]); simpl; try lia; by apply elem_of_nil in He.
  - exists info. split; [exact Hinfo|]. vm_compute in Hinfo. by injection Hinfo as <-.
Defined.

(** ** Summaries that promise too much or too little *)

#[local] Instance no_builtins : BuiltinOps := fun _ => Op_Zero.
#[local] Instance listed_order : HashOrder := {| hash_order := elements; hash_order_perm s := reflexivity _ |}.

Definition named (name : string) (params : list string) (body : list CoreStmt) : CoreFunction :=
  Function_ name (func_params (function_of params [])) [] [] None (Block body tt) false false None tt.
Definition calls (name : string) (args : list CoreExpr) : CoreExpr := Expr_Call name args [] [] [] tt.

(** [clear!(a) = (a[1] = 0; return 0)] and [main(a) = (clear!(a); return 1)] *)
Definition clearing : CoreFunction :=
  named "clear!" ["a"] [Stmt_IndexAssign "a" [int 1] (int 0) tt; return_ (int 0)].
Definition calling_clear : CoreFunction :=
  named "main" ["a"] [Stmt_Expr (calls "clear!" [var "a"]) tt; return_ (int 1)].

(** [shout(x) = println(x) == 0] and [main(x) = (shout(x); return 1)] *)
Definition shouting : CoreFunction := named "shout" ["x"] [return_ (binary Eq (prints (var "x")) (int 0))].
Definition calling_shout : CoreFunction :=
  named "main" ["x"] [Stmt_Expr (calls "shout" [var "x"]) tt; return_ (int 1)].

Definition with_summaries (functions : list CoreFunction) : CompilerFacts :=
  {| has_captured_vars := false; is_module := fun _ => false; has_function_table := fun _ => false;
     returns_number := false; runtime_specialized := false;
     facts_effects := infer_program_effects functions 0; facts_resolver := None;
     type_param_name := fun _ => EmptyString |}.

Definition only_returns_one : SharedFunctionPlan :=
  {| plan_blocks := [{| roots := []; plan_terminator := ReturnPlan (Some (int 1)) |}] |}.


(** [pure(x) = x] and [guard(x) = (x && return pure(x); return x)] *)
Definition pure_body : CoreFunction := named "pure" ["x"] [return_ (var "x")].
Definition guarded_return : CoreFunction :=
  named "guard" ["x"]
    [Stmt_Expr (binary And (var "x") (Expr_ReturnExpr (Some (calls "pure" [var "x"])) tt)) tt; return_ (var "x")].

(** A callee inside of a [return] expression is not an edge of the call graph: the summary
    of the caller stays what it was before the callee's was known, unless the callee
    happens to come first. *)
Example stale_summary :
  is_removable <$> infer_program_effects [guarded_return; pure_body] 0 !! "guard" = Some false /\
  is_removable <$> infer_program_effects [pure_body; guarded_return] 0 !! "guard" = Some true.
Proof. by vm_compute. Qed.

(** *** Witnesses *)

(** [twice(x) = pure(pure(x))] *)
Definition twice : CoreFunction := named "twice" ["x"] [return_ (calls "pure" [calls "pure" [var "x"]])].

Lemma propagation_converges_witness :
  total_calls [twice; pure_body] <= 5 * length [twice; pure_body] /\
  propagate_effects (from_program_slice [twice; pure_body]) [twice; pure_body] !! "twice" =
    Some (compute_method_set_effects
      (propagate_effects (from_program_slice [twice; pure_body]) [twice; pure_body])
      (methods_of [twice; pure_body] "twice")).
Proof.
  assert (total_calls [twice; pure_body] <= 5 * length [twice; pure_body]) as Hc by (vm_compute; lia).
  split; [exact Hc|].
  destruct (propagation_converges [twice; pure_body] Hc) as (_ & Hm & _);
    [repeat constructor|apply Hm; by left].
Defined.

(** Hash sets that are walked backwards. *)
Definition reverse_order : HashOrder :=
  {| hash_order s := reverse (elements s); hash_order_perm s := reverse_Permutation (elements s) |}.


Lemma summaries_justified_witness :
  let m := propagate_effects (from_program_slice [twice; pure_body]) [twice; pure_body] in
  exists e, m !! "twice" = Some e /\ is_removable e = true /\
    is_removable (compute_function_effects m twice) = true.
Proof.
  intros m. destruct (m !! "twice") as [e|] eqn:He; [|by vm_compute in He].
  assert (is_removable e = true) as Hr by (pose proof He as H; vm_compute in H; by injection H as <-).
  exists e. split; [done|]. split; [exact Hr|].
  destruct (summaries_justified (from_program_slice [twice; pure_body]) [twice; pure_body] "twice") as [_ Hj].
  destruct (Hj e He) as (_ & Hrem & _). by apply (Hrem Hr twice); [left|].
Defined.
